(* ===== verification/_CoqProject ===== *)
-Q . S2P
Prelude.v
Hash.v
Ranges.v
Uuid.v
TwoPhase.v
Logic.v
Commitment.v
Coordinator.v
Resolver.v
Atomicity.v
Progress.v
Reconcile.v
CopySplit.v
CopyRoute.v
SqlSplit.v
PgOutput.v
ScatterCompare.v
ScatterMerge.v
ScatterAgg.v
Pool.v
PoolSafety.v
PoolRefine.v
PoolRun.v
VStream.v
VStreamAsm.v
VStreamMerge.v
VStreamAcks.v
VStreamAlign.v
VStreamRel.v
VStreamServer.v
Sequences.v
Prog.v
Triples.v
CutWorld.v
CutOps.v
Cutover.v
CutLogic.v
CutInv.v
CutSpecs.v
CutPause.v
CutDrain.v
CutSwap.v
CutSteps.v
CutLate.v
CutSafety.v
CutRun.v
CutFuel.v
CutHandover.v
PauseSweep.v
Candidate.v
FailWorld.v
Failover.v
FailSafety.v
FailSpecs.v
FailProof.v
FailRun.v
FailLive.v
Epoch.v
Archive.v
BarrierWorld.v
Barrier.v
BarrierDb.v
BarrierSafety.v
BarrierProof.v
BarrierLive.v
BarrierCert.v
BarrierRun.v
ApplierWorld.v
Applier.v
ApplierLive.v
ApplierSafety.v
ApplierProof.v
ApplierSpecs.v
ApplierDrive.v
ApplierPass.v
ApplierMigrate.v
ApplierMain.v
ApplierRun.v
