(* ===== verification/Prelude.v ===== *)
(** * pgshard: a verification development

    pgshard is a sharding layer for PostgreSQL.  Routers parse and route the
    clients' statements, poolers keep connections to the shards, a controller
    drives resharding, cutover and recovery over a catalog database, an
    operator and the agents beside the servers decide which member of a group
    is primary, and routers also serve a merged change stream of all shards.  This library
    models, in Rocq, the parts of it whose correctness carries the system's
    promises, translated from the Go sources under [src/internal], and proves
    those promises of the translations.

    ** Parts, files and correspondence

    A Go function is a definition of the same name.  Values that may be an
    error are [result E A] ([Ok], [Err]).  Machine integers are [Z] with their
    wrap-around written out ([Hash], [Ranges], [PgOutput]).  Maps are [gmap]s,
    byte strings are lists of [Z].  Concurrent and distributed code is a
    program of statements, or a step relation with a step for each statement,
    critical section or channel operation; every interleaving, failure and
    crash of these is a run.

    - [Prelude]: results, machine integers, explicit runs ([path], and [occurs]
      for a step of one), the tactics and lemmas shared.
    - Key placement ([placement/hash.go], [ranges.go], [uuid.go]): [Hash],
      [Ranges], [Uuid].  The hash agrees across integer widths; [Validate]
      accepts exactly the partitions of the key space, in which [Locate] finds
      the one owner; [ParseUUID] accepts exactly PostgreSQL's uuid texts.
    - Atomic commit ([router/txn.go], [router/decisions.go],
      [controller/resolver.go], [catalog/twopc.go]): [TwoPhase] has the shards,
      the catalog and the processes over them, [Logic] a rely/guarantee logic
      for their programs, [Commitment] the protocol as an instance of it;
      [Coordinator] and [Resolver] are the code, with the decision log an
      interface and the PostgreSQL table its instance.  [Atomicity] proves that
      no interleaving, failure or crash splits a transaction and that what the
      client is told stays true, in every run in which no error answering a
      COMMIT PREPARED of the resolver reads as if the transaction was gone
      while it was prepared; [Progress] runs the code without faults to its
      end, and shows a run with such an error.
    - Reconciliation after a restore ([twopc/reconcile.go], [proto.go]):
      [Reconcile], against an interface of participants with its laws.
    - COPY ([router/copysplit/split.go], [router/copyin.go]): [CopySplit] and
      [CopyRoute]; chunk independence, round trip with an encoder of the text
      format, delivery of every row of an encoded table to the shard of its key.
    - Statement splitting ([pgwire/split.go]): [SqlSplit]; the statements of any
      text written in a grammar of lexemes of its own are recovered.
    - Logical replication ([pgoutput/pgoutput.go]): [PgOutput]; everything a
      server can send is decoded, everything cut short is refused.
    - Multi-shard reads ([router/scatter]): [ScatterCompare], [ScatterMerge],
      [ScatterAgg]; merged rows are those of one database, and so are count, sum,
      min, max and avg of int4 expressions, the average as a decimal of its own
      specification.
    - Backend pool ([pooler/pool.go]): [Pool] has a step for every critical
      section; [PoolSafety] its accounting invariant and what a caller is
      given, [PoolRefine] a refinement of an abstract budget, [PoolRun] an
      executable scheduler with the runs that strand a waiter.
    - Change streams ([router/vstream]): [VStream] and [VStreamAsm] the
      assembler of a shard's transactions, [VStreamMerge] the merger,
      [VStreamAcks], [VStreamAlign], [VStreamRel] what a consumer is promised,
      [VStreamServer] acknowledgements and the initial copy.
    - Sequence carry ([pgsequence/pgsequence.go], [controller/upgrade.go]):
      [Sequences]; a target goes on beyond every value a source handed out, or
      fails at its bound, or starts over if it cycles.
    - Cutover of a reshard ([controller/cutover.go], [cutoverpg.go],
      [upgrade.go], the pass of [copy.go], [workflowowner.go], [loop.go]):
      [Prog] is the language of programs against a world that moves and a logic
      for them, which the failover, the barrier and the applier share; [CutWorld] has the shards,
      subscriptions and catalog with everything that moves on its own;
      [CutOps] is [pgCutover] statement by statement, an instance of the interface [cutoverOps] that
      [Cutover], the state machine, is written against.  [CutLogic] is a
      two-state logic of triples, [CutInv] the invariant by the step on record
      and what each step may do, [CutSpecs], [CutPause], [CutDrain], [CutSwap],
      [CutSteps], [CutLate] the operations and steps against it, and
      [CutSafety] the theorems: no committed write is lost to a switch, an
      undone or failed one leaves nothing standing, a journal id is kept.
      [CutRun] is a scheduler under which whole switches evaluate, with the
      schedules of what goes wrong in a rollback and in a quiesce repeated;
      [CutHandover] has two replicas; [CutFuel] shows the rounds suffice.
    - Failover ([operator/failover.go], the decisions of [reconciler.go],
      [names.go], [probe.go]; [agent/server.go], [agent/lease.go]):
      [Candidate] is the choice of a new primary with its quorum rule,
      [FailWorld] the members, Pods, Lease and agents with all that happens by
      itself, [Failover] the code: failover, planned switchover and the repair
      of a group, statement by statement.  [FailSafety] has the invariant,
      [FailSpecs] triples over it, [FailProof] the operations and the theorem
      that no acknowledged commit is lost, [FailRun] a scheduler with the runs
      that lose one, [FailLive] that the waits end and that a failover left
      alone promotes.
    - Fencing epochs ([agent/epoch.go]): [Epoch]; over restarts, failed writes
      and, with a file for the epoch configured, clones an agent accepts strictly
      rising epochs (without one a clone can take it back,
      [clone_forgets_epoch]), and no work outlives the epoch it was admitted by.
    - Barriers, the certified restore points of a cluster
      ([controller/barrier.go], the fence of [catalog/read.go]): [Archive] has
      the names of WAL files and what an archiver's report says of them,
      [BarrierWorld] the databases of [TwoPhase] with the processes of
      [Atomicity] running on them, client sessions, servers, archivers and the
      catalog with all that happens by itself, [Barrier] the code: a run, its
      recovery and every statement they issue.  [BarrierDb] and [BarrierSafety]
      have the invariant, [BarrierProof] the pause and the drains against it,
      [BarrierCert] the theorems: a certified point is one moment of the
      cluster, and two-phase commits are whole in a cluster restored to it.
      [BarrierLive] shows that the waits end, and [BarrierRun] is a scheduler
      with a run that certifies, one in which an interrupted pause goes
      unnoticed and one in which recovery leaves a pause behind.
    - [Triples] is the logic of triples for programs that return errors which
      the failover, the barrier and the migration applier share.
    - The sweep of write pauses ([controller/pausesweep.go]): [PauseSweep], in
      the world of the cutover; it lifts exactly the orphaned pauses, leaves a
      live switch alone, and can race with one that takes over a stale claim.
    - Migrations ([controller/applier.go], the rows of [catalog/migrations.go]):
      [ApplierWorld] has the rows with their conditional updates under the
      leader term, the catalogs of the databases, what is PostgreSQL's as the
      class [Postgres], and what a process knows of itself; [Applier] is the
      code: a pass over the pending migrations, the start of one, its shards one
      after the other, retries, resumption of a statement that may have been
      committed, multistep migrations, the verdict and its mirror.  A pass takes
      the term it latched and what drives a rewrite as arguments.
      [ApplierSafety] says what an entry claims and has the invariant,
      [ApplierProof] what a pass may do to the world, [ApplierSpecs],
      [ApplierDrive], [ApplierPass], [ApplierMigrate] triples from a statement up
      to a pass, and [ApplierMain] puts any number of controllers together: what
      is reported complete was applied, it was mirrored once, a stale pass
      writes nothing, a counted step was taken.  [ApplierLive] shows that a pass
      ends, and [ApplierRun] is a scheduler with a small PostgreSQL and the runs
      that report what did not happen.
    ** Bounds and fuel

    Scanners and splitters recurse on the bytes left.  The loops over steps of
    a cutover, and its two timed waits, take fuel; [CutFuel] shows that 14 and
    302 rounds do exactly what any larger number does.  The waits of a failover
    get their timeout over the poll interval and three rounds; [FailLive] shows
    that they never use them up, and [BarrierLive] the same of a barrier's, whose
    fuel is the timeout over the poll interval and two, and [ApplierLive] of the
    retries of a migration, which get their limit over the shortest wait and
    two.  The search of
    [ScatterAgg] for a leading digit has its bound proved enough.  The other
    loops are structural.

    ** Runs with exceptions

    Some promises hold only of runs in which something from outside does not
    happen.  Their theorems are about a run given state by state ([path]) and
    conclude the promise or that one step of that run was such an event
    ([occurs]): [misled] (an error that makes the resolver believe a prepared
    transaction gone), and [intrudes] of the cutover and of the barrier (a pause
    set or lifted, a claim changed or a transaction set read write by somebody
    else).  No step of the code itself or of the ordinary environment is one of
    these ([misled_not_careful], [outsider_foreign], [intruded_foreign]), so the
    exception excuses nothing else.

    ** Assumptions

    Code outside the repository is a parameter with the laws that are used of
    it, each with an instance in a witness: float parsing and printing, the
    numeric codec, time zones, the size of a protobuf message.  PostgreSQL is
    what its documentation says of the statements the code sends: one statement
    or transaction is atomic, may fail before or after it took effect, a
    prepared transaction outlives its session,
    [default_transaction_read_only] is read when a transaction begins.  Of the
    cutover: outside [CutHandover] one replica drives a workflow at a time; the
    controllers' clock does not go back; the list of databases does not change;
    that nobody else lifts the pause of the sources, overrides it in a
    transaction, or promotes another primary of a source is the exception named
    above, and what [PauseSweep], which adds the sweep, takes for granted.  Of the
    failover: one operator works on a group at a time, nobody else creates its
    Pods or writes its status, a kubelet removes a Pod only once its server has
    stopped, and what a standby has flushed stays on its disk; the theorem also
    asks that a commit waits for as many standbys as the specification says and
    that a standby restarts with no WAL left to replay, and [FailRun] shows what
    happens without either.  Of a barrier: that nobody else
    raises a pause while it runs and no session overrides the read-only default
    is the exception named above ([BarrierRun] shows such a run); shards have
    distinct names, there is one clock, an
    archiver takes closed segments of a timeline in order, and the resolver
    passes of a drain are processes of the system like any other; the row lock
    under which a pause is lifted is left out, so that claims change at any
    time.  Of migrations: each controller leads under a term of its own; a
    statement on a database takes effect as a whole or fails, one outside a
    transaction may leave a remainder; the statements that set a session up are
    one, and so are an update refused and the look that follows it; some shard
    set is serving, and the shards of a set do not change; setting up a role in
    a transaction of the catalog is not refused with the code of a missing
    object; what drives a rewrite, which is a parameter, is only asked to leave
    other rows alone, and rewrites are not among the migrations enqueued.  The
    theorems on what was applied and mirrored ask that no pass latches the term
    zero, and leave out the entry of a shard a leader gave up when it came to
    know of its loss before its context ended; [ApplierRun] shows what happens
    in either case.  Of the pool: a caller may return a
    handout any number of times, but not after the pool has taken the backend
    out again ([returns_own]); [pool.go] does not check this, and
    [second_return_frees_again] of [PoolRun] is such a return.

    ** Not modelled

    The SQL planner and rewriter and the session of the router are built on
    pg_query's parse trees, a C library whose grammar is not in the
    repository.  The copy phase of a reshard, table placement workflows and
    rewrite migrations are mostly the SQL text they send.  The rest of the operator,
    backup and agent code renders Kubernetes objects and manages files and
    processes.  Protocol plumbing, metrics,
    logging, configuration and status messages have no state to speak of.  Of
    the modelled parts: the digests of [Verify] are a report the world gives,
    cancelling a cutover ([Unwind]) is left out, opening and reopening streams
    and connections is the environment's, and a failover is followed until the
    new primary is published and promoted, not through the next one: the rejoin
    of the old primary and the timelines that come with it are not modelled.
    Of the applier, provisioning the role its statements run as, the recheck of
    shard keys and the heartbeats are left out. *)

From Stdlib Require Export ZArith Lia Bool List.
From stdpp Require Export base tactics numbers list strings option decidable.
From stdpp Require Export gmap sorting.
From Stdlib Require Export Sorting.Sorted Sorting.Permutation Wf_nat.

#[export] Set Default Goal Selector "!".

(** ** Scopes and shorthands *)

Declare Scope go_scope.
Delimit Scope go_scope with go.

(** A Go [[]byte] or [string]: the sequence of its bytes, each a [Z] in
    [0, 256). *)
Abbreviation bytes := (list Z) (only parsing).

(** Comparisons and divisions stay folded under [cbn]. *)
#[global] Arguments Nat.ltb : simpl never.
#[global] Arguments Nat.div : simpl never.
#[global] Arguments Nat.modulo : simpl never.
#[global] Arguments Nat.odd : simpl never.

(** ** Go results: a value or an error *)

Inductive result (E A : Type) : Type :=
| Ok (a : A)
| Err (e : E).
Arguments Ok {E A} a.
Arguments Err {E A} e.

#[export] Instance result_bind {E} : MBind (result E) :=
  fun A B f r => match r with Ok a => f a | Err e => Err e end.
#[export] Instance result_ret {E} : MRet (result E) := fun A a => Ok a.
#[export] Instance result_fmap {E} : FMap (result E) :=
  fun A B f r => match r with Ok a => Ok (f a) | Err e => Err e end.

Definition is_ok {E A} (r : result E A) : bool :=
  match r with Ok _ => true | Err _ => false end.

Lemma result_bind_ok {E A B} (r : result E A) (f : A → result E B) b :
  (r ≫= f) = Ok b ↔ ∃ a, r = Ok a ∧ f a = Ok b.
Proof. destruct r as [a|e']; cbn; [|naive_solver]. split; [by exists a|]. by intros (? & [= <-] & ?). Qed.

Lemma result_bind_err {E A B} (r : result E A) (f : A → result E B) e :
  (r ≫= f) = Err e ↔ r = Err e ∨ ∃ a, r = Ok a ∧ f a = Err e.
Proof.
  destruct r as [a|e']; cbn; split.
  - intros ?. right. by exists a.
  - by intros [?|(? & [= <-] & ?)].
  - intros [= ->]. by left.
  - intros [[= ->]|(? & ? & ?)]; done.
Qed.

(** ** Machine integers: conversions of Go's fixed-width types *)

Definition two8 : Z := 256.
Definition two16 : Z := 65536.
Definition two31 : Z := 2147483648.
Definition two32 : Z := 4294967296.
Definition two63 : Z := 9223372036854775808.
Definition two64 : Z := 18446744073709551616.

(** [uintN(x)]: reduction modulo [2^N]. *)
Definition u8 (z : Z) : Z := z mod two8.
Definition u16 (z : Z) : Z := z mod two16.
Definition u32 (z : Z) : Z := z mod two32.
Definition u64 (z : Z) : Z := z mod two64.

(** [intN(x)]: the two's complement value of the low [N] bits. *)
Definition i8 (z : Z) : Z := (z + 128) mod two8 - 128.
Definition i16 (z : Z) : Z := (z + 32768) mod two16 - 32768.
Definition i32 (z : Z) : Z := (z + two31) mod two32 - two31.
Definition i64 (z : Z) : Z := (z + two63) mod two64 - two63.

Definition MinInt64 : Z := - two63.
Definition MaxInt64 : Z := two63 - 1.
Definition MaxUint64 : Z := two64 - 1.

Definition is_u8 (z : Z) : Prop := (0 <= z < two8)%Z.
Definition is_u32 (z : Z) : Prop := (0 <= z < two32)%Z.
Definition is_u64 (z : Z) : Prop := (0 <= z < two64)%Z.
Definition is_i8 (z : Z) : Prop := (-128 <= z < 128)%Z.
Definition is_i16 (z : Z) : Prop := (-32768 <= z < 32768)%Z.
Definition is_i32 (z : Z) : Prop := (- two31 <= z < two31)%Z.
Definition is_i64 (z : Z) : Prop := (MinInt64 <= z <= MaxInt64)%Z.

(** Turn every machine-integer definition into plain arithmetic on literals. *)
Ltac unfold_int :=
  unfold is_u8, is_u32, is_u64, is_i8, is_i16, is_i32, is_i64,
    u8, u16, u32, u64, i8, i16, i32, i64, MinInt64, MaxInt64, MaxUint64,
    two8, two16, two31, two32, two63, two64 in *.

(** [lia] on machine integers: literals, then quotients and remainders. *)
Ltac int_lia := unfold_int; Z.div_mod_to_equations; lia.

Create HintDb go_int.
Create Rewrite HintDb go_int.

Lemma u8_range z : is_u8 (u8 z).
Proof. unfold_int. apply Z.mod_pos_bound. lia. Qed.
Lemma u32_range z : is_u32 (u32 z).
Proof. unfold_int. apply Z.mod_pos_bound. lia. Qed.
Lemma u64_range z : is_u64 (u64 z).
Proof. unfold_int. apply Z.mod_pos_bound. lia. Qed.
Lemma i64_range z : is_i64 (i64 z).
Proof. int_lia. Qed.
Lemma u32_id z : is_u32 z → u32 z = z.
Proof. intros; unfold_int; apply Z.mod_small; lia. Qed.
Lemma u64_id z : is_u64 z → u64 z = z.
Proof. intros; unfold_int; apply Z.mod_small; lia. Qed.
Lemma i64_id z : is_i64 z → i64 z = z.
Proof. int_lia. Qed.
Lemma i64_u64 z : i64 (u64 z) = i64 z.
Proof. int_lia. Qed.
Lemma u64_i64 z : u64 (i64 z) = u64 z.
Proof. int_lia. Qed.

#[export] Hint Resolve u8_range u32_range u64_range i64_range : go_int.
#[export] Hint Rewrite u32_id u64_id i64_id using (auto with go_int; unfold_int; lia) : go_int.

(** ** Bit operations on bounded integers *)

Section Bits.
Local Open Scope Z_scope.

Lemma lxor_bound n x y :
  0 <= n → 0 <= x < 2 ^ n → 0 <= y < 2 ^ n → 0 <= Z.lxor x y < 2 ^ n.
Proof.
  intros Hn Hx Hy. split; [apply Z.lxor_nonneg; lia|].
  destruct (Z.eq_dec (Z.lxor x y) 0) as [->|Hne]; [lia|].
  assert (0 <= Z.lxor x y) by (apply Z.lxor_nonneg; lia).
  apply Z.log2_lt_pow2; [lia|].
  eapply Z.le_lt_trans; [apply Z.log2_lxor; lia|].
  assert (∀ z, 0 <= z < 2 ^ n → z ≠ 0 → Z.log2 z < n) as Hlog
    by (intros; apply Z.log2_lt_pow2; lia).
  destruct (Z.eq_dec x 0) as [->|]; destruct (Z.eq_dec y 0) as [->|].
  - done.
  - rewrite Z.max_r; [auto|]. cbn. apply Z.log2_nonneg.
  - rewrite Z.max_l; [auto|]. cbn. apply Z.log2_nonneg.
  - apply Z.max_lub_lt; auto.
Qed.

Lemma land_shiftl_low n hi lo :
  0 <= n → 0 <= lo < 2 ^ n → Z.land (Z.shiftl hi n) lo = 0.
Proof.
  intros Hn Hlo. apply Z.bits_inj_0. intros i. rewrite Z.land_spec.
  destruct (Z.ltb_spec i 0) as [?|Hi]; [now rewrite Z.testbit_neg_r|].
  destruct (Z.ltb_spec i n) as [?|Hin].
  - rewrite Z.shiftl_spec_low by lia. done.
  - rewrite <- (Z.mod_small lo (2 ^ n)) by lia.
    rewrite Z.mod_pow2_bits_high by lia. apply andb_false_r.
Qed.

(** Bits that do not overlap are added by [|]. *)
Lemma lor_shiftl_add n hi lo :
  0 <= n → 0 <= lo < 2 ^ n → Z.lor (Z.shiftl hi n) lo = hi * 2 ^ n + lo.
Proof.
  intros Hn Hlo. pose proof (Z.add_lor_land (Z.shiftl hi n) lo) as H.
  rewrite land_shiftl_low, Z.shiftl_mul_pow2 in H by lia.
  rewrite Z.shiftl_mul_pow2 by lia. lia.
Qed.

End Bits.

(** ** Go's [sort.Search]: binary search for the first index where [f] holds *)

Section GoSearch.
Local Open Scope nat_scope.
Variable f : nat → bool.

Fixpoint search_loop (fuel i j : nat) : nat :=
  match fuel with
  | O => i
  | S fuel =>
      if i <? j then
        let h := (i + j) / 2 in
        if f h then search_loop fuel i h else search_loop fuel (S h) j
      else i
  end.

(** The interval at least halves, so [n] rounds (and one to see it empty)
    always reach the answer; [Search_spec] shows that they do. *)
Definition Search (n : nat) : nat := search_loop (S n) 0 n.

Lemma search_loop_spec fuel i j n :
  j - i < fuel → i ≤ j ≤ n →
  (∀ x y, x ≤ y < n → f x = true → f y = true) →
  (∀ x, x < i → f x = false) → (∀ x, j ≤ x < n → f x = true) →
  let r := search_loop fuel i j in
  i ≤ r ≤ j ∧ (∀ x, x < r → f x = false) ∧ (∀ x, r ≤ x < n → f x = true).
Proof.
  intros Hf Hij Hmono. revert i j Hf Hij.
  induction fuel as [|fuel IH]; intros i j Hf Hij Hlo Hhi; cbn [search_loop]; [lia|].
  destruct (Nat.ltb_spec i j) as [Hlt|Hge].
  2:{ repeat split; [lia|lia|auto|]. intros x Hx. apply Hhi. lia. }
  assert (i ≤ (i + j) / 2 < j) as Hh.
  { split; [apply Nat.div_le_lower_bound; lia|apply Nat.Div0.div_lt_upper_bound; lia]. }
  set (h := (i + j) / 2) in *. cbv zeta.
  destruct (f h) eqn:Efh.
  - destruct (IH i h) as (H1 & H2 & H3); [lia|lia|done| |].
    { intros x Hx. apply (Hmono h x); [lia|done]. }
    repeat split; auto; lia.
  - destruct (IH (S h) j) as (H1 & H2 & H3); [lia|lia| |done|].
    { intros x Hx. destruct (f x) eqn:Efx; [|done].
      assert (f h = true) by (apply (Hmono x h); [lia|done]). congruence. }
    repeat split; auto; lia.
Qed.

Lemma Search_spec n :
  (∀ x y, x ≤ y < n → f x = true → f y = true) →
  let r := Search n in
  r ≤ n ∧ (∀ x, x < r → f x = false) ∧ (∀ x, r ≤ x < n → f x = true).
Proof.
  intros Hmono. unfold Search.
  destruct (search_loop_spec (S n) 0 n n) as (H1 & H2 & H3); [lia|lia|done|lia|lia|].
  repeat split; auto; lia.
Qed.

(** The answer is characterised by the two halves it separates. *)
Lemma Search_unique n r :
  (∀ x y, x ≤ y < n → f x = true → f y = true) →
  r < n → f r = true → (∀ x, x < r → f x = false) → Search n = r.
Proof.
  intros Hmono Hr Hfr Hlo. destruct (Search_spec n Hmono) as (H1 & H2 & H3).
  destruct (decide (Search n < r)) as [Hl|].
  - assert (f (Search n) = true) by (apply H3; lia). rewrite Hlo in *; done.
  - destruct (decide (r < Search n)) as [Hl|]; [|lia].
    rewrite H2 in Hfr; [discriminate|done].
Qed.

End GoSearch.

(** ** Lists *)

(** Induction on the length. *)
Lemma list_len_ind {A} (P : list A → Prop) :
  (∀ l, (∀ l', (length l' < length l)%nat → P l') → P l) → ∀ l, P l.
Proof.
  intros H l. remember (length l) as n eqn:Hn. revert l Hn.
  induction (lt_wf n) as [n _ IH]. intros l ->. apply H. intros l' Hl. by apply (IH (length l')).
Qed.

Lemma mjoin_cons {A} (l : list A) ls : mjoin (l :: ls) = l ++ mjoin ls.
Proof. done. Qed.

(** ** Strings *)

(** [strings.Contains]. *)
Fixpoint contains (s sub : string) : bool :=
  String.prefix sub s ||
  match s with
  | EmptyString => false
  | String _ s => contains s sub
  end.

(** Go compares strings byte by byte; [slices.Sort] on them. *)
Definition string_le (x y : string) : Prop := String.leb x y = true.
#[export] Instance string_le_dec : RelDecision string_le.
Proof. intros x y. unfold string_le. apply _. Defined.
Definition sort_strings (l : list string) : list string := merge_sort string_le l.

Lemma sort_strings_Permutation l : sort_strings l ≡ₚ l.
Proof. apply merge_sort_Permutation. Qed.

(** The bytes of a string. *)
Fixpoint bytes_of (s : string) : bytes :=
  match s with
  | EmptyString => []
  | String c s => Z.of_N (Ascii.N_of_ascii c) :: bytes_of s
  end.

Lemma bytes_of_app s t : bytes_of (s +:+ t) = bytes_of s ++ bytes_of t.
Proof.
  induction s as [|c s IH]; [done|]. change (String c s +:+ t) with (String c (s +:+ t)). cbn [bytes_of app]. by rewrite IH.
Qed.

(** ** Big-endian integers *)

Section BigEndian.
Local Open Scope Z_scope.

(** [binary.BigEndian] *)
Definition BigEndian (b : bytes) : Z := foldl (λ v c, v * 256 + c) 0 b.
(** The [w] bytes of [v]. *)
Fixpoint be (w : nat) (v : Z) : bytes :=
  match w with O => [] | S w => be w (v / 256) ++ [v mod 256] end.

Lemma length_be w v : length (be w v) = w.
Proof. revert v. induction w as [|w IH]; intros v; cbn; [done|]. rewrite length_app, IH. cbn. lia. Qed.
Lemma BigEndian_be w v : 0 ≤ v < 256 ^ Z.of_nat w → BigEndian (be w v) = v.
Proof.
  revert v. unfold BigEndian. induction w as [|w IH]; intros v Hv; [cbn in *; lia|].
  cbn [be]. rewrite foldl_app. cbn [foldl]. rewrite Nat2Z.inj_succ, Z.pow_succ_r in Hv by lia.
  rewrite IH; [rewrite Z.mul_comm; symmetry; apply Z.div_mod; lia|].
  split; [apply Z.div_pos; lia|apply Z.div_lt_upper_bound; lia].
Qed.

End BigEndian.

(** A map made of some entries of another, rekeyed. *)
Lemma omap_to_map_lookup {K L V X} `{Countable K, Countable L} (m : gmap K V) (f : K * V → option (L * X)) a (o : option X) :
  (∀ x, (∃ kv, kv ∈ map_to_list m ∧ f kv = Some (a, x)) ↔ o = Some x) →
  (list_to_map (omap f (map_to_list m)) : gmap L X) !! a = o.
Proof.
  intros Ho. destruct (list_to_map _ !! a) as [x|] eqn:Hl.
  - apply elem_of_list_to_map_2, list_elem_of_omap, Ho in Hl. done.
  - apply not_elem_of_list_to_map in Hl. destruct o as [x|]; [|done]. destruct Hl.
    apply list_elem_of_fmap. exists (a, x). split; [done|]. by apply list_elem_of_omap, Ho.
Qed.

Lemma NoDup_fmap_filter {A B} (f : A → B) (P : A → Prop) `{∀ x, Decision (P x)} l : NoDup (f <$> l) → NoDup (f <$> filter P l).
Proof.
  induction l as [|x l IH]; [done|]. rewrite fmap_cons, NoDup_cons, filter_cons. intros [Hx Hl]. case_decide; [|auto].
  rewrite fmap_cons, NoDup_cons. split; [|auto]. intros (y & He & [_ Hy]%list_elem_of_filter)%list_elem_of_fmap. apply Hx. rewrite He. by apply list_elem_of_fmap_2.
Qed.

(** ** Runs *)

(** A run from [x] to [z], with the states it goes through after [x]. *)
Fixpoint path {A} (R : relation A) (x : A) (tr : list A) (z : A) : Prop :=
  match tr with [] => z = x | y :: tr' => R x y ∧ path R y tr' z end.
(** One of its steps is an [F]. *)
Fixpoint occurs {A} (F : relation A) (x : A) (tr : list A) : Prop :=
  match tr with [] => False | y :: tr' => F x y ∨ occurs F y tr' end.

Section Runs.
Context {A : Type}.
Implicit Types (R G F : relation A) (x y z : A).

Lemma path_rtc R x tr z : path R x tr z → rtc R x z.
Proof. revert x. induction tr as [|y tr IH]; intros x; cbn; [by intros ->|]. intros [? ?]. eapply rtc_l; eauto. Qed.
Lemma rtc_path R x z : rtc R x z → ∃ tr, path R x tr z.
Proof. induction 1 as [x|x y z ? _ [tr ?]]; [by exists []|by exists (y :: tr)]. Qed.
Lemma path_app R x tr y tr' z : path R x tr y → path R y tr' z → path R x (tr ++ tr') z.
Proof. revert x. induction tr as [|u tr IH]; intros x; cbn; [by intros ->|]. intros [? ?] ?. eauto. Qed.
Lemma path_mono R G x tr z : (∀ x y, R x y → G x y) → path R x tr z → path G x tr z.
Proof. intros HR. revert x. induction tr as [|u tr IH]; intros x; cbn; [done|]. intros [? ?]. eauto. Qed.
Lemma path_last R x tr z : path R x tr z → z ∈ x :: tr.
Proof. revert x. induction tr as [|u tr IH]; intros x; cbn; [intros ->; set_solver|]. intros [_ ?%IH]. set_solver. Qed.
(** Each step is between states of the run. *)
Lemma path_within R x tr z : path R x tr z → path (λ a b, R a b ∧ b ∈ x :: tr) x tr z.
Proof.
  enough (∀ (l : list A) x, (∀ y, y ∈ tr → y ∈ l) → path R x tr z → path (λ a b, R a b ∧ b ∈ l) x tr z) as H by (apply H; set_solver).
  intros l. induction tr as [|u tr IH]; intros y Hl; cbn; [done|]. intros [? ?]. split; [|apply IH; [set_solver|done]]. split; [done|]. set_solver.
Qed.
Lemma occurs_app_l F x tr tr' : occurs F x tr → occurs F x (tr ++ tr').
Proof. revert x. induction tr as [|y tr IH]; intros x; cbn; [done|]. intros [?|?]; [by left|right; eauto]. Qed.
Lemma occurs_app_r F R x tr y tr' : path R x tr y → occurs F y tr' → occurs F x (tr ++ tr').
Proof. revert x. induction tr as [|u tr IH]; intros x; cbn; [by intros ->|]. intros [_ ?] ?. right. eauto. Qed.
(** A run whose steps are good or foul is good throughout, or has a foul step. *)
Lemma path_split R G F x tr z : (∀ x y, R x y → G x y ∨ F x y) → path R x tr z → path G x tr z ∨ occurs F x tr.
Proof.
  intros HR. revert x. induction tr as [|y tr IH]; intros x; cbn; [by left|]. intros [Hxy Hyz]. destruct (HR x y Hxy) as [?|?]; [|by right; left].
  destruct (IH y Hyz); [by left|by right; right].
Qed.
End Runs.
