(* ===== verification/Hash.v ===== *)
(** * Shard-key hashing ([src/internal/placement/hash.go])

    The key-space position of a shard-key value: PostgreSQL's extended hash
    functions (Jenkins lookup3 with a 64-bit seed) over 32-bit words kept at
    their width.  The file shows that every hash is a [uint64] (and every
    key-space id an [int64]), that the mixing rounds lose no information, that
    the fixed-width integer hash is the byte-string hash of the value's four
    little-endian bytes, and that the integer types agree on the values they
    share, which is what lets a router hash a key without knowing the column's
    integer width. *)

From S2P Require Import Prelude.

Local Open Scope Z_scope.

Definition PartitionSeed : Z := 8816678312871386365.
Definition golden : Z := 0x9e3779b9.
Definition pgHashMix : Z := 3923095.

(** Go's [uint32] arithmetic. *)
Definition add32 (x y : Z) : Z := u32 (x + y).
Definition sub32 (x y : Z) : Z := u32 (x - y).
Definition RotateLeft32 (x k : Z) : Z :=
  let s := Z.land k 31 in
  Z.lor (u32 (Z.shiftl x s)) (Z.shiftr x (32 - s)).

Definition mix (a b c : Z) : Z * Z * Z :=
  let a := sub32 a c in
  let a := Z.lxor a (RotateLeft32 c 4) in
  let c := add32 c b in
  let b := sub32 b a in
  let b := Z.lxor b (RotateLeft32 a 6) in
  let a := add32 a c in
  let c := sub32 c b in
  let c := Z.lxor c (RotateLeft32 b 8) in
  let b := add32 b a in
  let a := sub32 a c in
  let a := Z.lxor a (RotateLeft32 c 16) in
  let c := add32 c b in
  let b := sub32 b a in
  let b := Z.lxor b (RotateLeft32 a 19) in
  let a := add32 a c in
  let c := sub32 c b in
  let c := Z.lxor c (RotateLeft32 b 4) in
  let b := add32 b a in
  (a, b, c).

Definition final (a b c : Z) : Z * Z :=
  let c := Z.lxor c b in
  let c := sub32 c (RotateLeft32 b 14) in
  let a := Z.lxor a c in
  let a := sub32 a (RotateLeft32 c 11) in
  let b := Z.lxor b a in
  let b := sub32 b (RotateLeft32 a 25) in
  let c := Z.lxor c b in
  let c := sub32 c (RotateLeft32 b 16) in
  let a := Z.lxor a c in
  let a := sub32 a (RotateLeft32 c 4) in
  let b := Z.lxor b a in
  let b := sub32 b (RotateLeft32 a 14) in
  let c := Z.lxor c b in
  let c := sub32 c (RotateLeft32 b 24) in
  (b, c).

(** [binary.LittleEndian.Uint32] of four bytes. *)
Definition le32 (b0 b1 b2 b3 : Z) : Z :=
  Z.lor (Z.lor (Z.lor b0 (Z.shiftl b1 8)) (Z.shiftl b2 16)) (Z.shiftl b3 24).

(** The loop over whole 12-byte blocks; it stops at the first suffix shorter
    than a block and returns it with the state reached. *)
Fixpoint hash_blocks (k : bytes) (a b c : Z) : bytes * (Z * Z * Z) :=
  match k with
  | k0 :: k1 :: k2 :: k3 :: k4 :: k5 :: k6 :: k7 :: k8 :: k9 :: k10 :: k11 :: rest =>
      let a := add32 a (le32 k0 k1 k2 k3) in
      let b := add32 b (le32 k4 k5 k6 k7) in
      let c := add32 c (le32 k8 k9 k10 k11) in
      let '(a, b, c) := mix a b c in
      hash_blocks rest a b c
  | _ => (k, (a, b, c))
  end.

(** The [switch len(k)] with its [fallthrough]s: case [n] runs every case
    below it. *)
Definition hash_tail (k : bytes) (a b c : Z) : Z * Z * Z :=
  let n := length k in
  let at_ i := nth i k 0 in
  let c := if Nat.leb 11 n then add32 c (u32 (Z.shiftl (at_ 10%nat) 24)) else c in
  let c := if Nat.leb 10 n then add32 c (u32 (Z.shiftl (at_ 9%nat) 16)) else c in
  let c := if Nat.leb 9 n then add32 c (u32 (Z.shiftl (at_ 8%nat) 8)) else c in
  let b := if Nat.leb 8 n then add32 b (u32 (Z.shiftl (at_ 7%nat) 24)) else b in
  let b := if Nat.leb 7 n then add32 b (u32 (Z.shiftl (at_ 6%nat) 16)) else b in
  let b := if Nat.leb 6 n then add32 b (u32 (Z.shiftl (at_ 5%nat) 8)) else b in
  let b := if Nat.leb 5 n then add32 b (at_ 4%nat) else b in
  let a := if Nat.leb 4 n then add32 a (u32 (Z.shiftl (at_ 3%nat) 24)) else a in
  let a := if Nat.leb 3 n then add32 a (u32 (Z.shiftl (at_ 2%nat) 16)) else a in
  let a := if Nat.leb 2 n then add32 a (u32 (Z.shiftl (at_ 1%nat) 8)) else a in
  let a := if Nat.leb 1 n then add32 a (at_ 0%nat) else a in
  (a, b, c).

(** The seeding both hashes start with. *)
Definition hash_init (a : Z) (seed : Z) : Z * Z * Z :=
  let b := a in
  let c := a in
  if seed =? 0 then (a, b, c)
  else
    let a := add32 a (u32 (Z.shiftr seed 32)) in
    let b := add32 b (u32 seed) in
    mix a b c.

Definition HashBytesExtended (k : bytes) (seed : Z) : Z :=
  let n := u32 (Z.of_nat (length k)) in
  let a := add32 (add32 golden n) pgHashMix in
  let '(a, b, c) := hash_init a seed in
  let '(k, (a, b, c)) := hash_blocks k a b c in
  let '(a, b, c) := hash_tail k a b c in
  let '(b, c) := final a b c in
  Z.lor (u64 (Z.shiftl b 32)) c.

Definition HashUint32Extended (k : Z) (seed : Z) : Z :=
  let a := u32 (golden + 4 + pgHashMix) in
  let '(a, b, c) := hash_init a seed in
  let a := add32 a k in
  let '(b, c) := final a b c in
  Z.lor (u64 (Z.shiftl b 32)) c.

Definition HashInt8Extended (v : Z) (seed : Z) : Z :=
  let lo := u32 v in
  let hi := u32 (Z.shiftr (u64 v) 32) in
  let lo := if 0 <=? v then Z.lxor lo hi else Z.lxor lo (u32 (Z.lnot hi)) in
  i64 (HashUint32Extended lo seed).

Definition HashInt4Extended (v : Z) (seed : Z) : Z :=
  i64 (HashUint32Extended (u32 v) seed).

Definition HashInt2Extended (v : Z) (seed : Z) : Z :=
  i64 (HashUint32Extended (u32 (i32 v)) seed).

Definition HashCharExtended (v : Z) (seed : Z) : Z :=
  i64 (HashUint32Extended (u32 (i32 (i8 v))) seed).

Definition HashTextExtended (v : bytes) (seed : Z) : Z := i64 (HashBytesExtended v seed).
Definition HashUUIDExtended (v : bytes) (seed : Z) : Z := i64 (HashBytesExtended v seed).

(** The dynamic types of the [any] a caller passes; [KOther] is any type the
    switch does not name, kept by its Go type name. *)
Inductive key_value :=
| KInt64 (x : Z)
| KInt (x : Z)
| KInt32 (x : Z)
| KInt16 (x : Z)
| KInt8 (x : Z)
| KString (x : bytes)
| KUUID (x : bytes)
| KRawBytes (x : bytes)
| KOther (type_name : string).

Inductive placement_error :=
| UnsupportedKeyType (type_name : string).

Definition KeyspaceID (v : key_value) : result placement_error Z :=
  match v with
  | KInt64 x => Ok (HashInt8Extended x PartitionSeed)
  | KInt x => Ok (HashInt8Extended (i64 x) PartitionSeed)
  | KInt32 x => Ok (HashInt4Extended x PartitionSeed)
  | KInt16 x => Ok (HashInt2Extended x PartitionSeed)
  | KInt8 x => Ok (HashCharExtended (u8 x) PartitionSeed)
  | KString x => Ok (HashTextExtended x PartitionSeed)
  | KUUID x => Ok (HashUUIDExtended x PartitionSeed)
  | KRawBytes x => Ok (i64 (HashBytesExtended x PartitionSeed))
  | KOther t => Err (UnsupportedKeyType t)
  end.

(** The values PostgreSQL 18 computes, as the repository's tests record them. *)
Example golden_42_seeded : HashInt8Extended 42 PartitionSeed = 7363975540656877951.
Proof. vm_compute. reflexivity. Qed.
Example golden_42 : HashInt8Extended 42 0 = 8010225493015854792.
Proof. vm_compute. reflexivity. Qed.
Example golden_minus_1 : HashInt8Extended (-1) 0 = -1888257769727981238.
Proof. vm_compute. reflexivity. Qed.

(** ** Bounds *)

Lemma add32_range x y : is_u32 (add32 x y).
Proof. apply u32_range. Qed.
Lemma sub32_range x y : is_u32 (sub32 x y).
Proof. apply u32_range. Qed.
Lemma lxor32_range x y : is_u32 x → is_u32 y → is_u32 (Z.lxor x y).
Proof. intros Hx Hy. apply (lxor_bound 32); [lia|exact Hx|exact Hy]. Qed.

Lemma RotateLeft32_add x k :
  is_u32 x → 0 <= k < 32 →
  RotateLeft32 x k = (x * 2 ^ k) mod two32 + x / 2 ^ (32 - k).
Proof.
  intros Hx Hk. unfold RotateLeft32.
  change 31 with (Z.ones 5). rewrite Z.land_ones, (Z.mod_small k) by lia.
  rewrite Z.shiftr_div_pow2, (Z.shiftl_mul_pow2 x) by lia.
  set (q := x / 2 ^ (32 - k)).
  assert (0 <= q < 2 ^ k) as Hq.
  { subst q. unfold is_u32, two32 in Hx. split; [apply Z.div_pos; lia|].
    apply Z.div_lt_upper_bound; [lia|]. rewrite <- Z.pow_add_r by lia.
    replace (32 - k + k) with 32 by lia. exact (proj2 Hx). }
  assert (u32 (x * 2 ^ k) = Z.shiftl (x mod 2 ^ (32 - k)) k) as ->.
  { rewrite Z.shiftl_mul_pow2 by lia. unfold u32, two32.
    change 4294967296 with (2 ^ 32). replace 32 with ((32 - k) + k) at 1 by lia.
    rewrite Z.pow_add_r by lia. rewrite Z.mul_mod_distr_r by lia. done. }
  rewrite lor_shiftl_add by lia. unfold two32. change 4294967296 with (2 ^ 32).
  replace 32 with ((32 - k) + k) at 2 by lia.
  rewrite Z.pow_add_r by lia. rewrite Z.mul_mod_distr_r by lia. done.
Qed.

Lemma RotateLeft32_range x k : is_u32 x → 0 <= k < 32 → is_u32 (RotateLeft32 x k).
Proof.
  intros Hx Hk. rewrite RotateLeft32_add by done.
  unfold is_u32, two32 in *. change 4294967296 with (2 ^ 32) in *.
  replace (2 ^ 32) with (2 ^ (32 - k) * 2 ^ k)
    by (rewrite <- Z.pow_add_r by lia; f_equal; lia).
  rewrite Z.mul_mod_distr_r by lia.
  assert (0 < 2 ^ k) by lia. assert (0 < 2 ^ (32 - k)) by lia.
  pose proof (Z.mod_pos_bound x (2 ^ (32 - k)) ltac:(lia)).
  assert (0 <= x / 2 ^ (32 - k) < 2 ^ k) as Hq.
  { split; [apply Z.div_pos; lia|]. apply Z.div_lt_upper_bound; [lia|].
    rewrite <- Z.pow_add_r by lia. replace (32 - k + k) with 32 by lia. lia. }
  nia.
Qed.

#[export] Hint Resolve add32_range sub32_range lxor32_range : go_int.
#[export] Hint Extern 2 (is_u32 (RotateLeft32 _ _)) =>
  apply RotateLeft32_range; [|lia] : go_int.

(** One sixth of [mix]: [x -= z; x ^= rot(z, k); z += y]. *)
Definition mix_round (k : Z) (x y z : Z) : Z * Z * Z :=
  (Z.lxor (sub32 x z) (RotateLeft32 z k), y, add32 z y).
Definition unmix_round (k : Z) (x y z : Z) : Z * Z * Z :=
  let z := sub32 z y in
  (add32 (Z.lxor x (RotateLeft32 z k)) z, y, z).

Definition u32_triple (t : Z * Z * Z) : Prop :=
  let '(a, b, c) := t in is_u32 a ∧ is_u32 b ∧ is_u32 c.

Lemma sub_add32 x y : is_u32 x → is_u32 y → add32 (sub32 x y) y = x.
Proof. unfold add32, sub32. int_lia. Qed.
Lemma add_sub32 x y : is_u32 x → is_u32 y → sub32 (add32 x y) y = x.
Proof. unfold add32, sub32. int_lia. Qed.

Lemma unmix_mix_round k x y z :
  0 <= k < 32 → is_u32 x → is_u32 y → is_u32 z →
  unmix_round k (Z.lxor (sub32 x z) (RotateLeft32 z k)) y (add32 z y) = (x, y, z).
Proof.
  intros. unfold unmix_round. rewrite add_sub32 by done. cbn.
  rewrite Z.lxor_assoc, Z.lxor_nilpotent, Z.lxor_0_r, sub_add32 by done. done.
Qed.

Lemma mix_range a b c : is_u32 a → is_u32 b → is_u32 c → u32_triple (mix a b c).
Proof. intros. unfold mix, u32_triple. cbv zeta. auto 30 with go_int. Qed.

Definition unmix (a b c : Z) : Z * Z * Z :=
  let '(c, a, b) := unmix_round 4 c a b in
  let '(b, c, a) := unmix_round 19 b c a in
  let '(a, b, c) := unmix_round 16 a b c in
  let '(c, a, b) := unmix_round 8 c a b in
  let '(b, c, a) := unmix_round 6 b c a in
  unmix_round 4 a b c.

Lemma mix_rounds a b c :
  mix a b c =
    let '(a, b, c) := mix_round 4 a b c in
    let '(b, c, a) := mix_round 6 b c a in
    let '(c, a, b) := mix_round 8 c a b in
    let '(a, b, c) := mix_round 16 a b c in
    let '(b, c, a) := mix_round 19 b c a in
    let '(c, a, b) := mix_round 4 c a b in
    (a, b, c).
Proof. reflexivity. Qed.

Lemma unmix_mix a b c :
  is_u32 a → is_u32 b → is_u32 c →
  (let '(a', b', c') := mix a b c in unmix a' b' c') = (a, b, c).
Proof.
  intros Ha Hb Hc. unfold mix, unmix. cbv zeta.
  repeat (rewrite unmix_mix_round by (auto 30 with go_int; lia); cbv beta iota).
  done.
Qed.

Lemma hash_init_range a seed : is_u32 a → u32_triple (hash_init a seed).
Proof.
  intros. unfold hash_init. cbv zeta. destruct (seed =? 0).
  - unfold u32_triple. auto.
  - apply mix_range; auto with go_int.
Qed.

Lemma hash_blocks_range k : ∀ a b c,
  u32_triple (a, b, c) → u32_triple (snd (hash_blocks k a b c)).
Proof.
  induction k as [k IH] using (induction_ltof1 _ (@length Z)). unfold ltof in IH.
  intros a b c H.
  do 12 (destruct k as [|? k]; [exact H|]). cbn [hash_blocks].
  match goal with |- context [mix ?x ?y ?z] =>
    pose proof (mix_range x y z) as Hm; destruct (mix x y z) as [[a' b'] c'] end.
  apply IH; [cbn; lia|]. apply Hm; auto with go_int.
Qed.

Lemma hash_tail_range k a b c : u32_triple (a, b, c) → u32_triple (hash_tail k a b c).
Proof.
  intros (Ha & Hb & Hc). unfold hash_tail, u32_triple. cbv zeta.
  repeat case_match; auto with go_int.
Qed.

Lemma final_range a b c : u32_triple (a, b, c) →
  is_u32 (fst (final a b c)) ∧ is_u32 (snd (final a b c)).
Proof. intros (Ha & Hb & Hc). unfold final. cbv zeta. cbn [fst snd]. auto 30 with go_int. Qed.

Lemma pack64 b c : is_u32 b → is_u32 c → Z.lor (u64 (Z.shiftl b 32)) c = b * two32 + c.
Proof.
  intros Hb Hc. rewrite u64_id.
  - apply (lor_shiftl_add 32); [lia|exact Hc].
  - rewrite Z.shiftl_mul_pow2 by lia. int_lia.
Qed.

Lemma HashBytesExtended_range k seed : is_u64 (HashBytesExtended k seed).
Proof.
  unfold HashBytesExtended. cbv zeta.
  pose proof (hash_init_range (add32 (add32 golden (u32 (Z.of_nat (length k)))) pgHashMix) seed
                ltac:(auto with go_int)) as Hi.
  destruct (hash_init _ _) as [[a b] c].
  pose proof (hash_blocks_range k a b c Hi) as Hb.
  destruct (hash_blocks _ _ _ _) as [k' [[a' b'] c']]. cbn [snd] in Hb.
  pose proof (hash_tail_range k' a' b' c' Hb) as Ht.
  destruct (hash_tail _ _ _ _) as [[a2 b2] c2].
  pose proof (final_range a2 b2 c2 Ht) as [Hf1 Hf2].
  destruct (final a2 b2 c2) as [b3 c3]. cbn [fst snd] in *.
  rewrite pack64 by done. int_lia.
Qed.

Lemma HashUint32Extended_range k seed : is_u64 (HashUint32Extended k seed).
Proof.
  unfold HashUint32Extended. cbv zeta.
  pose proof (hash_init_range (u32 (golden + 4 + pgHashMix)) seed ltac:(auto with go_int)) as Hi.
  destruct (hash_init _ _) as [[a b] c]. destruct Hi as (Ha & Hb & Hc).
  pose proof (final_range (add32 a k) b c) as Hf.
  destruct (final _ _ _) as [b3 c3]. cbn [fst snd] in *.
  destruct Hf as [? ?]; [split; auto with go_int|].
  rewrite pack64 by done. int_lia.
Qed.

(** ** The four-byte case *)

Lemma le32_sum b0 b1 b2 b3 :
  is_u8 b0 → is_u8 b1 → is_u8 b2 → is_u8 b3 →
  le32 b0 b1 b2 b3 = b0 + b1 * 256 + b2 * 65536 + b3 * 16777216.
Proof.
  unfold is_u8, two8. intros. unfold le32.
  rewrite (Z.lor_comm b0), (lor_shiftl_add 8) by lia.
  rewrite (Z.lor_comm (_ + _)), (lor_shiftl_add 16) by lia.
  rewrite (Z.lor_comm (_ + _)), (lor_shiftl_add 24) by lia. lia.
Qed.

Lemma tail_four b0 b1 b2 b3 a b c :
  is_u8 b0 → is_u8 b1 → is_u8 b2 → is_u8 b3 →
  hash_tail [b0; b1; b2; b3] a b c = (add32 a (le32 b0 b1 b2 b3), b, c).
Proof.
  intros. rewrite le32_sum by done. unfold hash_tail. cbn [length Nat.leb nth].
  cbv zeta. rewrite !Z.shiftl_mul_pow2 by lia. do 2 f_equal.
  unfold add32. int_lia.
Qed.

(** The four little-endian bytes of a [uint32]. *)
Definition le4 (k : Z) : bytes :=
  [k mod 256; k / 256 mod 256; k / 65536 mod 256; k / 16777216 mod 256].

Lemma le32_le4 k : is_u32 k →
  le32 (k mod 256) (k / 256 mod 256) (k / 65536 mod 256) (k / 16777216 mod 256) = k.
Proof. intros. rewrite le32_sum by int_lia. int_lia. Qed.

Lemma HashBytes_le4 k seed : is_u32 k →
  HashBytesExtended (le4 k) seed = HashUint32Extended k seed.
Proof.
  intros Hk. unfold HashBytesExtended, HashUint32Extended. cbv zeta.
  change (add32 (add32 golden (u32 (Z.of_nat (length (le4 k))))) pgHashMix)
    with (u32 (golden + 4 + pgHashMix)).
  destruct (hash_init _ _) as [[a b] c]. cbn [le4 hash_blocks].
  rewrite tail_four, le32_le4 by (done || int_lia). done.
Qed.

(** ** Integer widths *)

Lemma fold_i32 v : is_i32 v →
  (if 0 <=? v then Z.lxor (u32 v) (u32 (Z.shiftr (u64 v) 32))
   else Z.lxor (u32 v) (u32 (Z.lnot (u32 (Z.shiftr (u64 v) 32))))) = u32 v.
Proof.
  intros Hv. rewrite Z.shiftr_div_pow2 by lia.
  destruct (Z.leb_spec 0 v).
  - replace (u32 (u64 v / 2 ^ 32)) with 0 by int_lia. apply Z.lxor_0_r.
  - replace (u32 (u64 v / 2 ^ 32)) with (two32 - 1) by int_lia.
    replace (u32 (Z.lnot (two32 - 1))) with 0 by reflexivity. apply Z.lxor_0_r.
Qed.

Lemma HashInt8_Int4 v seed : is_i32 v → HashInt8Extended v seed = HashInt4Extended v seed.
Proof.
  intros Hv. unfold HashInt8Extended, HashInt4Extended. cbv zeta.
  rewrite fold_i32 by done. done.
Qed.

Lemma HashInt2_Int4 v seed : is_i16 v → HashInt2Extended v seed = HashInt4Extended v seed.
Proof. intros. unfold HashInt2Extended, HashInt4Extended. do 3 f_equal. int_lia. Qed.

Lemma HashChar_Int4 v seed : is_i8 v → HashCharExtended (u8 v) seed = HashInt4Extended v seed.
Proof. intros. unfold HashCharExtended, HashInt4Extended. do 3 f_equal. int_lia. Qed.

(** ** Properties *)

(** A router may hash an integer key at any Go width: on the values the
    narrower types can hold, [KeyspaceID] of an [int64], [int], [int32],
    [int16] and [int8] is one key-space position. *)
Theorem KeyspaceID_width_independent v (Hv : is_i32 v) :
  KeyspaceID (KInt64 v) = KeyspaceID (KInt32 v) ∧
  KeyspaceID (KInt v) = KeyspaceID (KInt32 v) ∧
  (is_i16 v → KeyspaceID (KInt16 v) = KeyspaceID (KInt32 v)) ∧
  (is_i8 v → KeyspaceID (KInt8 v) = KeyspaceID (KInt32 v)).
Proof.
  unfold KeyspaceID. repeat split; intros; f_equal.
  - by apply HashInt8_Int4.
  - rewrite i64_id by int_lia. by apply HashInt8_Int4.
  - by apply HashInt2_Int4.
  - by apply HashChar_Int4.
Qed.

Lemma KeyspaceID_width_independent_witness :
  KeyspaceID (KInt64 (-7)) = KeyspaceID (KInt32 (-7)) ∧
  KeyspaceID (KInt8 (-7)) = Ok (HashInt4Extended (-7) PartitionSeed).
Proof.
  destruct (KeyspaceID_width_independent (-7)) as (H1 & _ & _ & H2); [vm_compute; split; congruence|].
  split; [exact H1|]. rewrite H2; [reflexivity|]. vm_compute; split; congruence.
Defined.

(** The specialised 32-bit hash is the byte-string hash: hashing an
    integer word and hashing its four little-endian bytes give the same
    64-bit value, for every seed. *)
Theorem HashUint32_is_HashBytes k seed (Hk : is_u32 k) :
  HashUint32Extended k seed = HashBytesExtended (le4 k) seed.
Proof. symmetry. by apply HashBytes_le4. Qed.

Lemma HashUint32_is_HashBytes_witness :
  HashUint32Extended 42 0 = HashBytesExtended [42; 0; 0; 0] 0.
Proof. apply (HashUint32_is_HashBytes 42 0). vm_compute; split; congruence. Defined.

(** Every hash is a [uint64] whatever the key's length and the seed, so
    the [int64(...)] of [KeyspaceID] reinterprets the 64 bits and drops none:
    the key-space id determines the hash. *)
Theorem hash_fits_uint64 k seed :
  is_u64 (HashBytesExtended k seed) ∧
  u64 (HashTextExtended k seed) = HashBytesExtended k seed.
Proof.
  split; [apply HashBytesExtended_range|].
  unfold HashTextExtended. rewrite u64_i64. apply u64_id, HashBytesExtended_range.
Qed.

(** [mix] is a bijection of [uint32] triples: the state after mixing in
    a block determines the state before it, so no block's contribution is
    lost. *)
Theorem mix_injective a b c a' b' c'
    (H : u32_triple (a, b, c)) (H' : u32_triple (a', b', c'))
    (Heq : mix a b c = mix a' b' c') :
  (a, b, c) = (a', b', c').
Proof.
  destruct H as (?&?&?), H' as (?&?&?).
  rewrite <- (unmix_mix a b c), <- (unmix_mix a' b' c') by done. by rewrite Heq.
Qed.

Lemma mix_injective_witness : (1, 2, 3) = (1, 2, 3).
Proof.
  apply (mix_injective 1 2 3 1 2 3);
    [vm_compute; repeat split; congruence|vm_compute; repeat split; congruence|reflexivity].
Defined.
