(* ===== verification/Ranges.v ===== *)
(** * Key-space ranges ([src/internal/placement/ranges.go])

    A shard set is a list of inclusive [int64] intervals that must tile the
    key space.  [Validate] is shown to accept exactly the sets that do, and
    [Locate], [Split] and [Merge] are shown correct against that reading:
    every key of a valid set has exactly one owner, [Locate] finds it,
    [Split] builds a valid balanced set for every shard count (including the
    wrap-around of its 64-bit arithmetic), and [Merge] moves only the keys of
    the merged ranges. *)

From S2P Require Import Prelude.

Local Open Scope Z_scope.

Record Range := mkRange { Start : Z; End_ : Z }.

Definition Contains (r : Range) (id : Z) : bool := (Start r <=? id) && (id <=? End_ r).

Inductive range_error :=
| ErrEmpty
| ErrInverted (i : nat) (r : Range)
| ErrBottom (r : Range)
| ErrGap (prev next : Range)
| ErrTop (r : Range)
| ErrSplit (n : Z)
| ErrMerge (i j : Z) (n : nat).

(** The [for i, r := range s] that looks for an inverted range. *)
Fixpoint check_inverted (i : nat) (s : list Range) : result range_error unit :=
  match s with
  | [] => Ok tt
  | r :: s => if End_ r <? Start r then Err (ErrInverted i r) else check_inverted (S i) s
  end.

(** The loop over consecutive pairs [s[i-1], s[i]]. *)
Fixpoint check_contiguous (s : list Range) : result range_error unit :=
  match s with
  | p :: ((r :: _) as s') =>
      if (End_ p =? MaxInt64) || negb (Start r =? i64 (End_ p + 1))
      then Err (ErrGap p r) else check_contiguous s'
  | _ => Ok tt
  end.

Definition Validate (s : list Range) : result range_error unit :=
  match s with
  | [] => Err ErrEmpty
  | first :: _ =>
      _ ← check_inverted 0 s;
      if negb (Start first =? MinInt64) then Err (ErrBottom first) else
      _ ← check_contiguous s;
      let last := List.last s first in
      if negb (End_ last =? MaxInt64) then Err (ErrTop last) else Ok tt
  end.

Definition Locate (s : list Range) (id : Z) : nat :=
  Search (λ i, match s !! i with Some r => id <=? End_ r | None => false end) (length s).

Definition fromOffset (u : Z) : Z := i64 (Z.lxor u (Z.shiftl 1 63)).

(** The loop of [Split]: [k] iterations are left, [i] is the loop variable. *)
Fixpoint split_loop (k : nat) (i start width rem : Z) : list Range :=
  match k with
  | O => []
  | S k =>
      let size := if i <? rem then u64 (width + 1) else width in
      let end_ := u64 (u64 (start + size) - 1) in
      mkRange (fromOffset start) (fromOffset end_) :: split_loop k (i + 1) (u64 (end_ + 1)) width rem
  end.

Definition Split (n : Z) : result range_error (list Range) :=
  if n <=? 0 then Err (ErrSplit n) else
  let width := MaxUint64 / n in
  let rem := u64 (MaxUint64 mod n + 1) in
  let '(width, rem) := if rem =? n then (u64 (width + 1), 0) else (width, rem) in
  Ok (split_loop (Z.to_nat n) 0 0 width rem).

Definition Merge (s : list Range) (i j : Z) : result range_error (list Range) :=
  if (i <? 0) || (Z.of_nat (length s) <=? j) || (j <=? i) then Err (ErrMerge i j (length s)) else
  _ ← Validate s;
  match s !! Z.to_nat i, s !! Z.to_nat j with
  | Some ri, Some rj =>
      Ok (take (Z.to_nat i) s ++ [mkRange (Start ri) (End_ rj)] ++ drop (S (Z.to_nat j)) s)
  | _, _ => Err (ErrMerge i j (length s))
  end.

(** ** Tilings *)

(** [tiled lo s hi]: the ranges of [s] follow each other from [lo] up to, and
    not including, [hi]. *)
Fixpoint tiled (lo : Z) (s : list Range) (hi : Z) : Prop :=
  match s with
  | [] => lo = hi
  | r :: s => Start r = lo ∧ lo <= End_ r ∧ tiled (End_ r + 1) s hi
  end.

Definition i64_range_ok (r : Range) : Prop := is_i64 (Start r) ∧ is_i64 (End_ r).

Lemma tiled_le lo s hi : tiled lo s hi → lo <= hi.
Proof. revert lo. induction s as [|r s IH]; cbn; intros lo; [lia|]. intros (? & ? & ?%IH). lia. Qed.

Lemma tiled_app lo s1 s2 hi :
  tiled lo (s1 ++ s2) hi ↔ ∃ mid, tiled lo s1 mid ∧ tiled mid s2 hi.
Proof.
  revert lo. induction s1 as [|r s1 IH]; intros lo; cbn.
  - split; [eauto|]. by intros (? & -> & ?).
  - rewrite IH. naive_solver.
Qed.

Lemma tiled_Forall lo s hi : tiled lo s hi → Forall (λ r, lo <= Start r <= End_ r ∧ End_ r < hi) s.
Proof.
  revert lo. induction s as [|r s IH]; cbn; intros lo; [constructor|].
  intros (? & ? & Ht). pose proof (tiled_le _ _ _ Ht). constructor; [lia|].
  eapply Forall_impl; [apply (IH _ Ht)|]. cbn. intros. lia.
Qed.

(** Every key of a tiling has one owner, and the ranges before it end below
    the key. *)
Lemma tiled_owner lo s hi id :
  tiled lo s hi → lo <= id < hi →
  ∃ i r, s !! i = Some r ∧ Start r <= id <= End_ r ∧
         (∀ j r', s !! j = Some r' → (j < i)%nat → End_ r' < id) ∧
         (∀ j r', s !! j = Some r' → (i < j)%nat → id < Start r').
Proof.
  revert lo. induction s as [|r s IH]; cbn; intros lo; [lia|].
  intros (? & ? & Ht) Hid. destruct (Z.leb_spec id (End_ r)) as [Hle|Hgt].
  - exists 0%nat, r. split_and!; [done|lia|lia|lia|].
    intros [|j] r' Hj Hlt; [lia|]. apply tiled_Forall in Ht.
    rewrite Forall_lookup in Ht. specialize (Ht j r' Hj). cbn in Ht. lia.
  - destruct (IH _ Ht) as (i & ri & Hi & Hc & Hbefore & Hafter); [lia|].
    exists (S i), ri. split_and!; [done|lia|lia| |].
    + intros [|j] r' Hj Hlt; [by simplify_eq/=|]. apply (Hbefore j); [done|lia].
    + intros [|j] r' Hj Hlt; [lia|]. apply (Hafter j); [done|lia].
Qed.

(** Ranges of a tiling are ordered by position. *)
Lemma tiled_ordered lo s hi x y rx ry :
  tiled lo s hi → s !! x = Some rx → s !! y = Some ry → (x <= y)%nat →
  Start rx <= Start ry ∧ End_ rx <= End_ ry.
Proof.
  intros Ht Hx Hy Hxy. destruct (decide (x = y)) as [->|]; [simplify_eq; lia|].
  apply (take_drop_middle _ _ _) in Hx. rewrite <- Hx in Ht.
  apply tiled_app in Ht as (mid & _ & (? & ? & Ht')). apply tiled_Forall in Ht'.
  rewrite Forall_lookup in Ht'. specialize (Ht' (y - S x)%nat ry).
  rewrite lookup_drop in Ht'. replace (S x + (y - S x))%nat with y in Ht' by lia.
  specialize (Ht' Hy). cbn in Ht'. lia.
Qed.

Lemma Contains_true r id : Contains r id = true ↔ Start r <= id <= End_ r.
Proof. unfold Contains. rewrite andb_true_iff, !Z.leb_le. done. Qed.

Lemma Locate_owner lo s hi id i r :
  tiled lo s hi → s !! i = Some r → Start r <= id <= End_ r →
  (∀ j r', s !! j = Some r' → (j < i)%nat → End_ r' < id) → Locate s id = i.
Proof.
  intros Ht Hi Hc Hbefore. unfold Locate. apply Search_unique.
  - intros x y Hxy. destruct (s !! x) as [rx|] eqn:Ex; [|done].
    destruct (s !! y) as [ry|] eqn:Ey; [|apply lookup_ge_None in Ey; lia].
    rewrite !Z.leb_le. intros Hx.
    destruct (tiled_ordered _ _ _ x y rx ry Ht Ex Ey); lia.
  - by apply lookup_lt_Some in Hi.
  - rewrite Hi. apply Z.leb_le. lia.
  - intros x Hx. destruct (s !! x) as [rx|] eqn:Ex; [|done].
    apply Z.leb_gt. by apply (Hbefore x).
Qed.

(** ** [Validate] accepts exactly the tilings of the key space *)

Lemma check_inverted_ok i s :
  check_inverted i s = Ok tt ↔ Forall (λ r, Start r <= End_ r) s.
Proof.
  revert i. induction s as [|r s IH]; intros i; cbn; [done|].
  rewrite Forall_cons. destruct (Z.ltb_spec (End_ r) (Start r)).
  - split; [done|]. intros [? ?]. lia.
  - rewrite IH. split; [intros; split; [lia|done]|by intros [_ ?]].
Qed.

Lemma check_contiguous_cons p r s :
  check_contiguous (p :: r :: s) =
    if (End_ p =? MaxInt64) || negb (Start r =? i64 (End_ p + 1))
    then Err (ErrGap p r) else check_contiguous (r :: s).
Proof. done. Qed.

Lemma check_contiguous_tiled r s :
  Forall i64_range_ok (r :: s) → Forall (λ r, Start r <= End_ r) (r :: s) →
  check_contiguous (r :: s) = Ok tt ↔
    tiled (Start r) (r :: s) (End_ (List.last (r :: s) r) + 1).
Proof.
  revert r. induction s as [|r' s IH]; intros r Hok Hle.
  { cbn. inversion Hle. naive_solver lia. }
  apply Forall_cons in Hok as [Hr Hok]. apply Forall_cons in Hle as [Hrle Hle].
  change (List.last (r :: r' :: s) r) with (List.last (r' :: s) r).
  assert (List.last (r' :: s) r = List.last (r' :: s) r') as ->.
  { clear. revert r'. induction s as [|x s IH]; intros r'; [done|]. cbn in *. destruct s; [done|]. apply IH. }
  rewrite check_contiguous_cons. cbn [tiled].
  destruct Hr as [Hr1 Hr2].
  destruct (Z.eqb_spec (End_ r) MaxInt64) as [Hmax|Hmax]; cbn [orb].
  - split; [done|]. intros (_ & _ & Hst & _).
    apply Forall_cons in Hok as [[Hr' _] _]. int_lia.
  - rewrite i64_id by int_lia.
    destruct (Z.eqb_spec (Start r') (End_ r + 1)) as [Heq|Hne]; cbn [negb].
    + rewrite IH by done. cbn [tiled]. rewrite Heq. naive_solver.
    + split; [done|]. naive_solver.
Qed.

Lemma last_in_tiled lo s hi d : s ≠ [] → tiled lo s hi → End_ (List.last s d) + 1 = hi.
Proof.
  revert lo d. induction s as [|r s IH]; intros lo d Hne; [done|]. intros (? & ? & Ht).
  destruct s as [|r' s]; [by cbn in *|]. change (List.last (r :: r' :: s) d) with (List.last (r' :: s) d).
  by eapply IH.
Qed.

Lemma Validate_ok s :
  Forall i64_range_ok s → Validate s = Ok tt ↔ s ≠ [] ∧ tiled MinInt64 s two63.
Proof.
  intros Hok. destruct s as [|r s]; cbn [Validate]; [naive_solver|].
  rewrite result_bind_ok. split.
  - intros ([] & Hinv%check_inverted_ok & H). split; [done|].
    destruct (Z.eqb_spec (Start r) MinInt64) as [Hb|]; cbn [negb] in H; [|done].
    apply result_bind_ok in H as ([] & Hc & H).
    destruct (Z.eqb_spec (End_ (List.last (r :: s) r)) MaxInt64) as [Htop|]; cbn [negb] in H; [|done].
    apply check_contiguous_tiled in Hc; [|done|done]. rewrite Hb, Htop in Hc. exact Hc.
  - intros [Hne Ht]. pose proof (last_in_tiled _ _ _ r Hne Ht) as Hlast.
    assert (Forall (λ r, Start r <= End_ r) (r :: s)) as Hle.
    { eapply Forall_impl; [apply (tiled_Forall _ _ _ Ht)|]. cbn. intros. lia. }
    exists tt. split; [by apply check_inverted_ok|].
    assert (Start r = MinInt64) as Hb by apply Ht. rewrite Hb, Z.eqb_refl. cbn [negb].
    rewrite result_bind_ok. exists tt. split.
    + apply check_contiguous_tiled; [done|done|]. rewrite Hlast, Hb. exact Ht.
    + replace (End_ _) with MaxInt64 by int_lia. by rewrite Z.eqb_refl.
Qed.

(** ** [Locate] *)

Lemma Locate_valid s id :
  Forall i64_range_ok s → Validate s = Ok tt → is_i64 id →
  ∃ r, s !! Locate s id = Some r ∧ Contains r id = true ∧
       (∀ j r', s !! j = Some r' → Contains r' id = true → j = Locate s id).
Proof.
  intros Hok [Hne Ht]%Validate_ok Hid; [|done].
  destruct (tiled_owner _ _ _ id Ht) as (i & r & Hi & Hc & Hb & Ha); [int_lia|].
  rewrite (Locate_owner _ _ _ id i r Ht) by done.
  exists r. split_and!; [done|by apply Contains_true|].
  intros j r' Hj [? ?]%Contains_true.
  destruct (decide (j < i)%nat); [specialize (Hb j r' Hj); lia|].
  destruct (decide (i < j)%nat); [specialize (Ha j r' Hj); lia|]. lia.
Qed.

(** ** [Split] *)

Lemma fromOffset_sub u : is_u64 u → fromOffset u = u - two63.
Proof.
  intros Hu. unfold fromOffset. rewrite Z.shiftl_1_l.
  assert (∃ hi lo, u = hi * 2 ^ 63 + lo ∧ 0 <= lo < 2 ^ 63 ∧ (hi = 0 ∨ hi = 1)) as (hi & lo & -> & Hlo & Hhi).
  { exists (u / 2 ^ 63), (u mod 2 ^ 63). int_lia. }
  rewrite <- lor_shiftl_add, <- Z.lxor_lor by (lia || by apply land_shiftl_low).
  rewrite Z.lxor_assoc, (Z.lxor_comm lo), <- Z.lxor_assoc.
  destruct Hhi as [-> | ->].
  - rewrite Z.shiftl_0_l, Z.lxor_0_l. rewrite Z.lxor_0_l.
    rewrite <- (Z.shiftl_1_l 63), Z.lxor_lor by (by apply land_shiftl_low).
    rewrite lor_shiftl_add by lia. int_lia.
  - rewrite Z.shiftl_1_l, Z.lxor_nilpotent, Z.lxor_0_l.
    rewrite <- (Z.shiftl_1_l 63), Z.lxor_lor by (by apply land_shiftl_low).
    rewrite lor_shiftl_add by lia. int_lia.
Qed.

Definition range_size (r : Range) : Z := End_ r - Start r + 1.

(** One step of the loop, with the wrap-around resolved: [S] and [W] are the
    unreduced start and width, [sz] the unreduced size of this range. *)
Lemma split_step S sz :
  0 <= S → 1 <= sz → S + sz <= two64 →
  let end_ := u64 (u64 (u64 S + u64 sz) - 1) in
  end_ = S + sz - 1 ∧ u64 (end_ + 1) = u64 (S + sz) ∧
  mkRange (fromOffset (u64 S)) (fromOffset end_) = mkRange (S - two63) (S + sz - 1 - two63).
Proof.
  intros HS Hsz Hle. cbv zeta.
  assert (u64 (u64 (u64 S + u64 sz) - 1) = S + sz - 1) as He by int_lia.
  rewrite He. split; [done|]. split; [f_equal; lia|].
  rewrite !fromOffset_sub by (int_lia). f_equal. int_lia.
Qed.

Lemma split_loop_tiled k : ∀ i S W rem,
  0 <= S → 1 <= W → S + (Z.of_nat k * W + Z.max 0 (Z.min (Z.of_nat k) (rem - i))) = two64 →
  let out := split_loop k i (u64 S) (u64 W) rem in
  tiled (S - two63) out two63 ∧ length out = k ∧
  Forall (λ r, range_size r = W ∨ range_size r = W + 1) out ∧
  Forall i64_range_ok out.
Proof.
  induction k as [|k IH]; intros i S W rem HS HW Hsum; cbv zeta.
  { cbn. split_and!; [int_lia|done|constructor|constructor]. }
  cbn [split_loop]. cbv zeta.
  set (sz := if i <? rem then W + 1 else W).
  assert (1 <= sz ∧ (sz = W ∨ sz = W + 1)) as [Hsz Hsz'] by (subst sz; case_match; lia).
  assert ((if i <? rem then u64 (u64 W + 1) else u64 W) = u64 sz) as ->.
  { subst sz. case_match; int_lia. }
  assert (sz + (Z.of_nat k * W + Z.max 0 (Z.min (Z.of_nat k) (rem - (i + 1)))) =
          Z.of_nat (Datatypes.S k) * W + Z.max 0 (Z.min (Z.of_nat (Datatypes.S k)) (rem - i))) as Hsz2.
  { subst sz. destruct (Z.ltb_spec i rem); lia. }
  destruct (split_step S sz) as (He & Hn & Hr); [lia|lia|nia|].
  cbv zeta in *. rewrite Hn, Hr.
  destruct (IH (i + 1) (S + sz) W rem) as (Ht & Hl & Hf & Hi); [lia|lia|lia|]. cbv zeta in *.
  split_and!.
  - cbn. split_and!; [lia|lia|]. replace (S + sz - 1 - two63 + 1) with (S + sz - two63) by lia. done.
  - cbn. by rewrite Hl.
  - constructor; [|done]. unfold range_size. cbn. lia.
  - constructor; [|done]. assert (S + sz <= two64) by nia. unfold i64_range_ok. cbn. int_lia.
Qed.

Lemma Split_correct n :
  0 < n <= MaxInt64 →
  ∃ out W, Split n = Ok out ∧ Z.of_nat (length out) = n ∧ Validate out = Ok tt ∧
         Forall (λ r, range_size r = W ∨ range_size r = W + 1) out ∧ Forall i64_range_ok out.
Proof.
  intros Hn. unfold Split. destruct (Z.leb_spec n 0); [lia|].
  set (r0 := MaxUint64 mod n + 1). set (w0 := MaxUint64 / n).
  assert (two64 = n * w0 + r0 ∧ 1 <= r0 <= n ∧ 1 <= w0) as (Hdiv & Hr0 & Hw0).
  { subst r0 w0. pose proof (Z.div_mod MaxUint64 n). pose proof (Z.mod_pos_bound MaxUint64 n).
    assert (1 <= MaxUint64 / n) by (apply Z.div_le_lower_bound; int_lia).
    unfold MaxUint64 in *. lia. }
  rewrite (u64_id r0) by int_lia.
  set (W := if r0 =? n then w0 + 1 else w0). set (rem := if r0 =? n then 0 else r0).
  assert ((if r0 =? n then (u64 (w0 + 1), 0) else (w0, r0)) = (u64 W, rem)) as ->.
  { subst W rem. case_match; [done|]. f_equal. symmetry. apply u64_id.
    apply Z.eqb_neq in H0. unfold_int. nia. }
  destruct (split_loop_tiled (Z.to_nat n) 0 0 W rem) as (Ht & Hl & Hf & Hi).
  { lia. } { subst W; case_match; lia. }
  { subst W rem. destruct (Z.eqb_spec r0 n); nia. }
  change (u64 0) with 0 in *. cbv zeta in *.
  exists (split_loop (Z.to_nat n) 0 0 (u64 W) rem), W. split_and!; [done|lia| |done|done].
  apply Validate_ok; [done|]. split; [|exact Ht].
  intros E. rewrite E in Hl. cbn in Hl. lia.
Qed.

(** ** [Merge] *)

Lemma tiled_hull lo s hi ri rj :
  tiled lo s hi → head s = Some ri → last s = Some rj → lo = Start ri ∧ hi = End_ rj + 1 ∧ lo <= End_ rj.
Proof.
  revert lo ri. induction s as [|r s IH]; intros lo ri Ht Hh Hl; [done|].
  cbn in Hh. simplify_eq. destruct Ht as (? & ? & Ht). split; [done|].
  destruct s as [|r' s]; cbn in *; simplify_eq; [lia|].
  destruct (IH _ r' Ht eq_refl Hl) as (? & ? & ?). lia.
Qed.

Lemma lookup_segment {A} (s : list A) i j x :
  (i <= j)%nat → s !! j = Some x →
  s = take i s ++ take (S j - i) (drop i s) ++ drop (S j) s ∧
  last (take (S j - i) (drop i s)) = Some x.
Proof.
  intros Hij Hj. split.
  - rewrite <- (take_drop i s) at 1. f_equal.
    rewrite <- (take_drop (S j - i) (drop i s)) at 1. f_equal.
    rewrite drop_drop. f_equal. lia.
  - rewrite last_lookup, length_take, length_drop.
    apply lookup_lt_Some in Hj as Hlt.
    replace (pred (min (S j - i) (length s - i))) with (j - i)%nat by lia.
    rewrite lookup_take_lt, lookup_drop by lia. rewrite <- Hj. f_equal. lia.
Qed.

Lemma head_segment {A} (s : list A) i n x :
  s !! i = Some x → (0 < n)%nat → head (take n (drop i s)) = Some x.
Proof.
  intros Hi Hn. rewrite head_lookup, lookup_take_lt, lookup_drop by lia.
  by replace (i + 0)%nat with i by lia.
Qed.

(** Where a range of [s] sits after ranges [i..j] became one. *)
Definition merged_index (i j k : nat) : nat :=
  if decide (k < i)%nat then k else if decide (k <= j)%nat then i else (k - (j - i))%nat.

Section Merged.
Variables (s : list Range) (a b : nat) (ri rj : Range) (lo hi : Z).
Hypothesis Hri : s !! a = Some ri.
Hypothesis Hrj : s !! b = Some rj.
Hypothesis Hab : (a <= b)%nat.
Hypothesis Ht : tiled lo s hi.

Definition merged : list Range := take a s ++ mkRange (Start ri) (End_ rj) :: drop (S b) s.

Lemma merged_tiled : tiled lo merged hi.
Proof.
  destruct (lookup_segment s a b rj) as [Hs Hlast]; [lia|done|].
  rewrite Hs in Ht. apply tiled_app in Ht as (mlo & Hlo & Hrest).
  apply tiled_app in Hrest as (mhi & Hmid & Hhi).
  destruct (tiled_hull _ _ _ ri rj Hmid) as (-> & -> & ?); [by apply head_segment; [|lia]|done|].
  apply tiled_app. exists (Start ri). split; [done|]. cbn. split_and!; [done|lia|done].
Qed.

Lemma merged_i64 : Forall i64_range_ok s → Forall i64_range_ok merged.
Proof.
  intros Hok. unfold merged. rewrite Forall_app, Forall_cons.
  split_and!; [by apply Forall_take| |by apply Forall_drop].
  rewrite Forall_lookup in Hok. split; [apply (Hok a ri Hri)|apply (Hok b rj Hrj)].
Qed.

Lemma merged_length : length merged = (length s - (b - a))%nat.
Proof.
  apply lookup_lt_Some in Hri, Hrj. unfold merged.
  rewrite length_app, length_take. cbn. rewrite length_drop. lia.
Qed.

Lemma merged_owner k r id :
  s !! k = Some r → Contains r id = true →
  ∃ r', merged !! merged_index a b k = Some r' ∧ Contains r' id = true.
Proof.
  intros Hk Hc. apply lookup_lt_Some in Hri as Ha, Hrj as Hb. unfold merged_index, merged.
  assert (length (take a s) = a) as Hla by (rewrite length_take; lia).
  destruct (decide (k < a)%nat); [|destruct (decide (k <= b)%nat)].
  - exists r. split; [|done]. rewrite lookup_app_l by lia. by rewrite lookup_take_lt.
  - exists (mkRange (Start ri) (End_ rj)). split; [rewrite lookup_app_r, Hla, Nat.sub_diag by lia; done|].
    apply Contains_true in Hc. apply Contains_true. cbn.
    destruct (tiled_ordered _ _ _ a k ri r Ht) as [? _]; [done|done|lia|].
    destruct (tiled_ordered _ _ _ k b r rj Ht) as [_ ?]; [done|done|lia|]. lia.
  - exists r. split; [|done]. rewrite lookup_app_r, Hla by lia.
    rewrite lookup_cons_ne_0, lookup_drop by lia. rewrite <- Hk. f_equal. lia.
Qed.

End Merged.

Lemma Merge_correct s i j :
  Forall i64_range_ok s → Validate s = Ok tt → 0 <= i < j → j < Z.of_nat (length s) →
  ∃ out, Merge s i j = Ok out ∧ Validate out = Ok tt ∧
         length out = (length s - Z.to_nat (j - i))%nat ∧
         ∀ id, is_i64 id → Locate out id = merged_index (Z.to_nat i) (Z.to_nat j) (Locate s id).
Proof.
  intros Hok Hval Hij Hj. unfold Merge.
  destruct (Z.ltb_spec i 0); [lia|]. destruct (Z.leb_spec (Z.of_nat (length s)) j); [lia|].
  destruct (Z.leb_spec j i); [lia|]. cbn [orb]. rewrite Hval. cbn.
  destruct (lookup_lt_is_Some_2 s (Z.to_nat i) ltac:(lia)) as [ri Hri]. rewrite Hri.
  destruct (lookup_lt_is_Some_2 s (Z.to_nat j) ltac:(lia)) as [rj Hrj]. rewrite Hrj.
  pose proof Hval as [Hne Ht]%Validate_ok; [|done].
  assert (Z.to_nat i <= Z.to_nat j)%nat as Hab by lia.
  pose proof (merged_i64 _ _ _ _ _ Hri Hrj Hok) as Hoko.
  assert (Validate (merged s (Z.to_nat i) (Z.to_nat j) ri rj) = Ok tt) as Hvo.
  { apply Validate_ok; [done|]. split; [unfold merged; by destruct (take _ s)|].
    by eapply merged_tiled. }
  exists (merged s (Z.to_nat i) (Z.to_nat j) ri rj). split_and!; [done|done| |].
  { erewrite merged_length by done. lia. }
  intros id Hid.
  destruct (Locate_valid s id Hok Hval Hid) as (r & Hr & Hc & _).
  destruct (Locate_valid _ id Hoko Hvo Hid) as (_ & _ & _ & Huniq).
  destruct (merged_owner _ _ _ _ _ _ _ Hri Hrj Hab Ht _ r id Hr Hc) as (r' & Hr' & Hc').
  symmetry. by apply (Huniq _ r').
Qed.

(** ** The reading of a valid set *)

(** [id] belongs to the range at index [i] and to no other. *)
Definition sole_owner (s : list Range) (id : Z) (i : nat) : Prop :=
  (∃ r, s !! i = Some r ∧ Contains r id = true) ∧
  ∀ j r, s !! j = Some r → Contains r id = true → j = i.

(** The ranges partition [lo, hi): non-empty, ordered, one owner per key. *)
Definition partitions (lo : Z) (s : list Range) (hi : Z) : Prop :=
  Forall (λ r, lo <= Start r <= End_ r ∧ End_ r < hi) s ∧
  StronglySorted (λ x y, Start x < Start y) s ∧
  ∀ id, lo <= id < hi → ∃ i, sole_owner s id i.

Lemma partitions_tail lo r s hi :
  partitions lo (r :: s) hi → Start r = lo ∧ partitions (End_ r + 1) s hi.
Proof.
  intros (Hwf & Hsort & Hown).
  apply Forall_cons in Hwf as [Hr Hwf]. apply StronglySorted_inv in Hsort as [Hsort Hfirst].
  rewrite Forall_lookup in Hwf, Hfirst. cbn in Hwf.
  assert (Start r = lo) as Hlo.
  { destruct (Hown lo) as (i & (ro & Hi & Hc%Contains_true) & _); [lia|].
    destruct i as [|i]; cbn in Hi; simplify_eq; [lia|]. specialize (Hfirst i ro Hi). lia. }
  assert (∀ i x, s !! i = Some x → End_ r < Start x) as Hafter.
  { intros i x Hx. specialize (Hfirst i x Hx). specialize (Hwf i x Hx).
    destruct (Z.leb_spec (Start x) (End_ r)); [|lia].
    destruct (Hown (Start x)) as (o & _ & Ho); [lia|].
    assert (0%nat = o) by (apply (Ho _ r); [done|apply Contains_true; lia]).
    assert (S i = o) by (apply (Ho _ x); [done|apply Contains_true; lia]). lia. }
  split; [done|]. split_and!; [|done|].
  - apply Forall_lookup. intros i x Hx. specialize (Hafter i x Hx). specialize (Hwf i x Hx). lia.
  - intros id Hid. destruct (Hown id) as (o & (ro & Hro & Hc) & Ho); [lia|].
    destruct o as [|o]; cbn in Hro; simplify_eq; [apply Contains_true in Hc; lia|].
    exists o. split; [by exists ro|]. intros j x Hj Hcx. specialize (Ho (S j) x Hj Hcx). lia.
Qed.

Lemma partitions_tiled lo s hi : lo <= hi → partitions lo s hi → tiled lo s hi.
Proof.
  revert lo. induction s as [|r s IH]; intros lo Hle Hp.
  - destruct (Z.eq_dec lo hi) as [|Hne]; [done|]. destruct Hp as (_ & _ & Hown).
    destruct (Hown lo) as (i & (r & Hr & _) & _); [lia|]. done.
  - pose proof Hp as [Hr _]. apply Forall_cons in Hr as [Hr _]. cbn in Hr.
    apply partitions_tail in Hp as [Hlo Hp]. cbn. split_and!; [done|lia|]. apply IH; [lia|done].
Qed.

Lemma tiled_partitions lo s hi : tiled lo s hi → partitions lo s hi.
Proof.
  intros Ht. split_and!.
  - by apply tiled_Forall.
  - clear -Ht. revert lo Ht. induction s as [|r s IH]; intros lo Ht; [constructor|].
    destruct Ht as (? & ? & Ht). constructor; [by eapply IH|].
    eapply Forall_impl; [apply (tiled_Forall _ _ _ Ht)|]. cbn. intros. lia.
  - intros id Hid. destruct (tiled_owner _ _ _ id Ht Hid) as (i & r & Hi & Hc & Hb & Ha).
    exists i. split; [exists r; split; [done|by apply Contains_true]|].
    intros j r' Hj [? ?]%Contains_true.
    destruct (decide (j < i)%nat); [specialize (Hb j r' Hj); lia|].
    destruct (decide (i < j)%nat); [specialize (Ha j r' Hj); lia|]. lia.
Qed.

(** ** Properties *)

(** [Validate] accepts a range set exactly when it partitions the int64
    key space: non-empty ranges in key order, every key owned by exactly one
    of them. *)
Theorem Validate_iff_partition s (Hok : Forall i64_range_ok s) :
  Validate s = Ok tt ↔ partitions MinInt64 s two63.
Proof.
  rewrite Validate_ok by done. split.
  - intros [_ Ht]. by apply tiled_partitions.
  - intros Hp. apply partitions_tiled in Hp; [|int_lia]. split; [|done].
    intros ->. cbn in Hp. unfold MinInt64, two63 in Hp. lia.
Qed.

Lemma Validate_iff_partition_witness :
  partitions MinInt64 [mkRange MinInt64 (-1); mkRange 0 MaxInt64] two63.
Proof.
  apply Validate_iff_partition; [|reflexivity].
  repeat constructor; vm_compute; congruence.
Defined.

(** In a valid set [Locate] returns an index in range, the range there
    holds the key, and no other range does. *)
Theorem Locate_sole_owner s id (Hok : Forall i64_range_ok s)
    (Hv : Validate s = Ok tt) (Hid : is_i64 id) :
  (Locate s id < length s)%nat ∧ sole_owner s id (Locate s id).
Proof.
  destruct (Locate_valid s id Hok Hv Hid) as (r & Hr & Hc & Hu).
  split; [by eapply lookup_lt_Some|]. split; [by exists r|]. by intros j r' ? ?; apply (Hu j r').
Qed.

Lemma Locate_sole_owner_witness :
  Locate [mkRange MinInt64 (-1); mkRange 0 MaxInt64] 7 = 1%nat ∧
  sole_owner [mkRange MinInt64 (-1); mkRange 0 MaxInt64] 7 1.
Proof.
  split; [reflexivity|].
  refine (proj2 (Locate_sole_owner [mkRange MinInt64 (-1); mkRange 0 MaxInt64] 7 _ _ _)).
  - repeat constructor; vm_compute; congruence.
  - reflexivity.
  - split; vm_compute; congruence.
Defined.

(** [Split n] succeeds for every positive [int], builds [n] ranges that
    [Validate] accepts, and their sizes differ by at most one; the 64-bit
    wrap-around of the one-shard case included. *)
Theorem Split_valid_balanced n (Hn : 0 < n <= MaxInt64) :
  ∃ out W, Split n = Ok out ∧ Z.of_nat (length out) = n ∧ Validate out = Ok tt ∧
           Forall (λ r, range_size r = W ∨ range_size r = W + 1) out.
Proof. destruct (Split_correct n Hn) as (out & W & ? & ? & ? & ? & _). eauto 10. Qed.

Lemma Split_valid_balanced_witness :
  (∃ out W, Split 3 = Ok out ∧ Z.of_nat (length out) = 3 ∧ Validate out = Ok tt ∧
            Forall (λ r, range_size r = W ∨ range_size r = W + 1) out) ∧
  Split 1 = Ok [mkRange MinInt64 MaxInt64].
Proof.
  split; [|reflexivity]. apply (Split_valid_balanced 3). split; vm_compute; congruence.
Defined.

(** Merging adjacent ranges [i..j] of a valid set succeeds, yields a
    valid set with [j - i] fewer ranges, and re-routes no key except by the
    renumbering: a key of a range outside [i..j] stays with that range. *)
Theorem Merge_reroutes_only_merged s i j (Hok : Forall i64_range_ok s)
    (Hv : Validate s = Ok tt) (Hij : 0 <= i < j) (Hj : j < Z.of_nat (length s)) :
  ∃ out, Merge s i j = Ok out ∧ Validate out = Ok tt ∧
         length out = (length s - Z.to_nat (j - i))%nat ∧
         ∀ id, is_i64 id → Locate out id = merged_index (Z.to_nat i) (Z.to_nat j) (Locate s id).
Proof. by apply Merge_correct. Qed.

Lemma Merge_reroutes_only_merged_witness :
  ∃ out, Merge [mkRange MinInt64 (-5); mkRange (-4) 9; mkRange 10 MaxInt64] 0 1 = Ok out ∧
         Locate out 20 = 1%nat.
Proof.
  destruct (Merge_reroutes_only_merged
    [mkRange MinInt64 (-5); mkRange (-4) 9; mkRange 10 MaxInt64] 0 1) as (out & H & _ & _ & Hl).
  - repeat constructor; vm_compute; congruence.
  - reflexivity.
  - lia.
  - reflexivity.
  - exists out. split; [exact H|]. rewrite Hl; [reflexivity|split; vm_compute; congruence].
Defined.
