(* ===== verification/Uuid.v ===== *)
(** * UUID shard keys ([src/internal/placement/uuid.go])

    [ParseUUID] must accept exactly the texts PostgreSQL's [string_to_uuid]
    accepts, because a looser parser would hash values the shard refuses and
    a stricter one would refuse values the shard stores.  The accepted texts
    are stated as a grammar and the parser is shown to decide it; a printer
    for the canonical 8-4-4-4-12 form round-trips through it. *)

From S2P Require Import Prelude.

Local Open Scope Z_scope.

Definition hexVal (c : Z) : option Z :=
  if (48 <=? c) && (c <=? 57) then Some (c - 48)
  else if (97 <=? c) && (c <=? 102) then Some (c - 97 + 10)
  else if (65 <=? c) && (c <=? 70) then Some (c - 65 + 10)
  else None.

(** The hyphen that may follow byte [b]. *)
Definition skip_hyphen (b : nat) (s : bytes) : bytes :=
  match s with
  | c :: t => if (c =? 45) && Nat.odd b && (b <? 15)%nat then t else s
  | [] => s
  end.

(** [k] bytes are left to read, the next one has index [b]; the text is what
    remains from index [i] on. *)
Fixpoint uuid_bytes (k b : nat) (s : bytes) : option (bytes * bytes) :=
  match k with
  | O => Some ([], s)
  | S k =>
      match s with
      | c0 :: c1 :: s =>
          hi ← hexVal c0;
          lo ← hexVal c1;
          let v := Z.lor (u8 (Z.shiftl hi 4)) lo in
          '(us, rest) ← uuid_bytes k (S b) (skip_hyphen b s);
          Some (v :: us, rest)
      | _ => None
      end
  end.

Definition ParseUUID (s : bytes) : option bytes :=
  let '(braces, s) := match s with c :: t => if c =? 123 then (true, t) else (false, s) | [] => (false, s) end in
  '(u, s) ← uuid_bytes 16 0 s;
  if braces then
    match s with
    | c :: s => if c =? 125 then (match s with [] => Some u | _ => None end) else None
    | [] => None
    end
  else match s with [] => Some u | _ => None end.

(** ** The accepted texts *)

Definition hexdigit (c v : Z) : Prop :=
  (0 <= v < 10 ∧ c = 48 + v) ∨ (10 <= v < 16 ∧ (c = 87 + v ∨ c = 55 + v)).

(** [uuid_body b us s]: [s] writes the bytes [us], the first having index
    [b], as two hexadecimal digits each of either case; a hyphen may follow
    any odd-indexed byte but the last. *)
Inductive uuid_body : nat → bytes → bytes → Prop :=
| body_nil : uuid_body 16 [] []
| body_cons b v us c0 c1 hyphen s :
    is_u8 v → hexdigit c0 (v / 16) → hexdigit c1 (v mod 16) →
    (hyphen = [] ∨ hyphen = [45] ∧ Nat.odd b = true ∧ (b < 15)%nat) →
    uuid_body (S b) us s →
    uuid_body b (v :: us) (c0 :: c1 :: hyphen ++ s).

Inductive uuid_text (u : bytes) : bytes → Prop :=
| text_plain s : uuid_body 0 u s → uuid_text u s
| text_braced s : uuid_body 0 u s → uuid_text u (123 :: s ++ [125]).

Lemma hexVal_spec c v : hexVal c = Some v ↔ hexdigit c v.
Proof.
  unfold hexVal, hexdigit.
  destruct (Z.leb_spec 48 c), (Z.leb_spec c 57), (Z.leb_spec 97 c), (Z.leb_spec c 102),
    (Z.leb_spec 65 c), (Z.leb_spec c 70); cbn; split;
    (lia || (intros [= <-]; lia) || (intros ?; f_equal; lia) || done || idtac).
Qed.

Lemma hexdigit_range c v : hexdigit c v → 0 <= v < 16 ∧ c ≠ 45 ∧ c ≠ 123 ∧ c ≠ 125.
Proof. unfold hexdigit. lia. Qed.

Lemma nibbles hi lo : 0 <= hi < 16 → 0 <= lo < 16 →
  Z.lor (u8 (Z.shiftl hi 4)) lo = hi * 16 + lo.
Proof.
  intros. rewrite <- (lor_shiftl_add 4) by lia. f_equal. rewrite Z.shiftl_mul_pow2 by lia.
  int_lia.
Qed.

Lemma uuid_body_head b us s c t : uuid_body b us s → s = c :: t → c ≠ 45 ∧ c ≠ 123 ∧ c ≠ 125.
Proof. destruct 1; [done|]. intros [= <- _]. by eapply hexdigit_range. Qed.

Lemma skip_hyphen_body b us hyphen s rest :
  (hyphen = [] ∨ hyphen = [45] ∧ Nat.odd b = true ∧ (b < 15)%nat) →
  uuid_body (S b) us s → (∀ c t, rest = c :: t → c ≠ 45) →
  skip_hyphen b ((hyphen ++ s) ++ rest) = s ++ rest.
Proof.
  intros Hh Hb Hrest. destruct Hh as [-> | (-> & Ho & Hlt)]; cbn.
  - destruct (s ++ rest) as [|c t] eqn:E; [done|]. cbn.
    destruct (Z.eqb_spec c 45) as [->|]; [|done]. exfalso.
    destruct s as [|c' s]; cbn in E; simplify_eq.
    + by apply (Hrest 45 t).
    + by destruct (uuid_body_head _ _ _ 45 s Hb eq_refl).
  - rewrite Ho. cbn. apply Nat.ltb_lt in Hlt. by rewrite Hlt.
Qed.

Lemma uuid_bytes_complete b us s rest :
  uuid_body b us s → (∀ c t, rest = c :: t → c ≠ 45) →
  uuid_bytes (length us) b (s ++ rest) = Some (us, rest).
Proof.
  intros Hb Hrest. induction Hb as [|b v us c0 c1 hyphen s Hv H0 H1 Hh Hb IH]; [done|].
  cbn [length uuid_bytes app].
  rewrite (proj2 (hexVal_spec c0 _) H0), (proj2 (hexVal_spec c1 _) H1). cbn [mbind option_bind].
  rewrite (skip_hyphen_body _ us _ s) by done. rewrite IH. cbn.
  apply hexdigit_range in H0, H1. rewrite nibbles by lia.
  do 3 f_equal. unfold is_u8, two8 in Hv. pose proof (Z.div_mod v 16). lia.
Qed.

Lemma uuid_bytes_sound k b s us rest :
  (b + k = 16)%nat → uuid_bytes k b s = Some (us, rest) →
  length us = k ∧ ∃ body, s = body ++ rest ∧ uuid_body b us body.
Proof.
  revert b s us. induction k as [|k IH]; intros b s us Hbk; cbn [uuid_bytes].
  { intros [= <- <-]. split; [done|]. exists []. split; [done|].
    replace b with 16%nat by lia. constructor. }
  destruct s as [|c0 [|c1 s]]; [done|done|].
  destruct (hexVal c0) as [hi|] eqn:E0; [|done]. destruct (hexVal c1) as [lo|] eqn:E1; [|done].
  cbn [mbind option_bind]. destruct (uuid_bytes k (S b) _) as [[us' rest']|] eqn:Eb; [|done].
  cbn. intros [= <- <-]. apply hexVal_spec in E0, E1.
  destruct (IH (S b) (skip_hyphen b s) us') as (Hlen & body & Hs & Hbody); [lia|done|].
  pose proof (hexdigit_range _ _ E0) as [? _]. pose proof (hexdigit_range _ _ E1) as [? _].
  rewrite nibbles by lia. split; [cbn; lia|].
  assert (∃ hyphen, s = hyphen ++ body ++ rest' ∧
            (hyphen = [] ∨ hyphen = [45] ∧ Nat.odd b = true ∧ (b < 15)%nat)) as (hyphen & -> & Hh).
  { destruct s as [|c t]; cbn in Hs; [exists []; auto|].
    destruct (Z.eqb_spec c 45) as [->|]; cbn in Hs; [|exists []; auto].
    destruct (Nat.odd b) eqn:Eo; cbn in Hs; [|exists []; auto].
    destruct (Nat.ltb_spec b 15); cbn in Hs; [|exists []; auto].
    exists [45]. split; [by rewrite <- Hs|]. auto. }
  exists (c0 :: c1 :: hyphen ++ body). split; [cbn; by rewrite <- app_assoc|].
  constructor; [int_lia| | |done|done].
  - replace ((hi * 16 + lo) / 16) with hi by int_lia. done.
  - replace ((hi * 16 + lo) mod 16) with lo by int_lia. done.
Qed.

Lemma uuid_body_length b us s : uuid_body b us s → (b + length us = 16)%nat.
Proof. induction 1; cbn; lia. Qed.

Lemma ParseUUID_sound s u : ParseUUID s = Some u → uuid_text u s.
Proof.
  unfold ParseUUID. intros H.
  assert (∃ braces s', s = (if braces : bool then 123 :: s' else s') ∧
    ('(u, s0) ← uuid_bytes 16 0 s';
     if braces then match s0 with c :: s1 => if c =? 125 then (match s1 with [] => Some u | _ => None end) else None | [] => None end
     else match s0 with [] => Some u | _ => None end) = Some u) as (braces & s' & -> & H').
  { destruct s as [|c t]; [by exists false, []|].
    destruct (Z.eqb_spec c 123) as [->|]; [by exists true, t|by exists false, (c :: t)]. }
  clear H. destruct (uuid_bytes 16 0 s') as [[us rest]|] eqn:Eb; [|done]. cbn in H'.
  apply uuid_bytes_sound in Eb as (_ & body & -> & Hbody); [|lia].
  destruct braces.
  - destruct rest as [|c [|]]; [done| |by case_match].
    destruct (Z.eqb_spec c 125) as [->|]; [|done]. simplify_eq. by constructor.
  - destruct rest; [|done]. simplify_eq. rewrite app_nil_r. by constructor.
Qed.

Lemma ParseUUID_complete s u : uuid_text u s → ParseUUID s = Some u.
Proof.
  intros [s' Hb | s' Hb]; pose proof (uuid_body_length _ _ _ Hb) as Hlen; cbn in Hlen.
  - unfold ParseUUID. destruct s' as [|c t] eqn:Es.
    { inversion Hb. }
    destruct (Z.eqb_spec c 123) as [->|].
    { by destruct (uuid_body_head _ _ _ _ _ Hb eq_refl) as (_ & ? & _). }
    pose proof (uuid_bytes_complete 0 u (c :: t) []) as Hc. rewrite app_nil_r, Hlen in Hc.
    rewrite Hc by done. done.
  - unfold ParseUUID. rewrite Z.eqb_refl.
    pose proof (uuid_bytes_complete 0 u s' [125]) as Hc. rewrite Hlen in Hc.
    rewrite Hc; [done|done|]. by intros ? ? [= <- _].
Qed.

(** PostgreSQL's [uuid_out]: lower-case digits in groups of 8-4-4-4-12. *)
Definition hex_lower (v : Z) : Z := if v <? 10 then 48 + v else 87 + v.
Fixpoint uuid_out (b : nat) (us : bytes) : bytes :=
  match us with
  | [] => []
  | v :: us =>
      hex_lower (v / 16) :: hex_lower (v mod 16) ::
      (if existsb (Nat.eqb b) [3; 5; 7; 9]%nat then [45] else []) ++ uuid_out (S b) us
  end.

Lemma hex_lower_digit v : 0 <= v < 16 → hexdigit (hex_lower v) v.
Proof. unfold hex_lower, hexdigit. intros. destruct (Z.ltb_spec v 10); lia. Qed.

Lemma uuid_out_body b us :
  (b + length us = 16)%nat → Forall is_u8 us → uuid_body b us (uuid_out b us).
Proof.
  revert b. induction us as [|v us IH]; intros b Hlen Hus; cbn in Hlen.
  { replace b with 16%nat by lia. constructor. }
  apply Forall_cons in Hus as [Hv Hus]. cbn [uuid_out].
  assert (0 <= v / 16 < 16 ∧ 0 <= v mod 16 < 16) as [? ?] by int_lia.
  apply body_cons; [done|by apply hex_lower_digit|by apply hex_lower_digit| |apply IH; [lia|done]].
  destruct (existsb (Nat.eqb b) _) eqn:E; [right|by left].
  apply existsb_exists in E as (x & Hx & ->%Nat.eqb_eq).
  cbn in Hx. destruct Hx as [<-|[<-|[<-|[<-|[]]]]]; (split; [done|split; [reflexivity|lia]]).
Qed.

(** ** Properties *)

(** [ParseUUID] decides PostgreSQL's uuid syntax: it returns the sixteen
    bytes a text writes when the text is two hexadecimal digits per byte of
    either case, with optional braces and a hyphen allowed after any even
    number of bytes but the last, and refuses every other text. *)
Theorem ParseUUID_decides s u : ParseUUID s = Some u ↔ uuid_text u s.
Proof. split; [apply ParseUUID_sound|apply ParseUUID_complete]. Qed.

(** The canonical text of every uuid parses back to it, braced or not. *)
Theorem ParseUUID_roundtrip u (Hlen : length u = 16%nat) (Hu : Forall is_u8 u) :
  ParseUUID (uuid_out 0 u) = Some u ∧ ParseUUID (123 :: uuid_out 0 u ++ [125]) = Some u.
Proof.
  split; apply ParseUUID_complete; constructor; apply uuid_out_body; done.
Qed.

Lemma ParseUUID_roundtrip_witness :
  let u := [1; 137; 208; 244; 76; 26; 124; 46; 156; 26; 47; 27; 60; 77; 94; 111] in
  ParseUUID (uuid_out 0 u) = Some u.
Proof.
  cbv zeta. apply ParseUUID_roundtrip; [reflexivity|].
  repeat constructor; vm_compute; congruence.
Defined.
