(* ===== verification/TwoPhase.v ===== *)
(** * Two-phase commit: the databases and the processes that drive them

    The router's coordinator ([src/internal/router/txn.go]), the decision log
    it keeps in the catalog ([src/internal/router/decisions.go]) and the
    controller's resolver ([src/internal/controller/resolver.go]) only meet in
    PostgreSQL: the catalog's [pgshard.xact_decisions] and each shard's
    prepared transactions.  This file holds that shared state, the effect of
    each SQL statement the three issue on it, and the small language the three
    are written in: a program is a tree of statements, [Each] issuing several
    of them concurrently as the Go code does with goroutines.  A system is a
    list of such programs interleaved statement by statement, any of which may
    crash, while any statement may fail before or after taking effect. *)

From S2P Require Import Prelude.

Local Open Scope Z_scope.

(** A shard: its set's name and its number. *)
Abbreviation ShardRef := (string * Z)%type.

(** An error as the code inspects it: the SQLSTATE ("" when it is not a
    PostgreSQL error) and the message. *)
Record pgerr := mkErr { pe_code : string; pe_msg : string }.

(** ** Statements and answers *)

Inductive op :=
(* the decision log, [decisions.go] *)
| OpBegin (gid : string) (participants : list Z) (xids : list string)
| OpHeartbeat (gid : string)
| OpDecideCommit (gid : string)
| OpDecideAbort (gid : string)
| OpReadState (gid : string)
| OpDelete (gid : string)
(* the resolver's catalog statements, [resolver.go] *)
| OpReadDecisions
| OpListShards (shardSet : string)
| OpAbortStale (gid : string) (timeout : Z)
| OpDeleteDecided (gid state : string)
(* statements on the coordinator's own session of a shard, [txn.go] *)
| OpXid (sh : ShardRef) (gid : string)
| OpRollback (sh : ShardRef) (gid : string)
| OpPrepare (sh : ShardRef) (gid : string)
| OpCommitPrepared (sh : ShardRef) (gid : string)
| OpRollbackPrepared (sh : ShardRef) (gid : string)
(* the resolver's statements on a shard, on a connection of its own *)
| OpListPrepared (sh : ShardRef)
| OpFinish (sh : ShardRef) (database : string) (commit : bool) (gid : string).

(** A row of the decision log as the resolver reads it; [AgeNanos] is the
    time since its last sign of life, on the catalog's clock. *)
Record decision := mkDecision { GID : string; State : string; Participants : list Z; AgeNanos : Z }.

Inductive resp :=
| ROk
| RCount (n : Z)
| RState (state : string)
| RNoRows
| RText (s : string)
| RDecisions (ds : list decision)
| RShards (shs : list ShardRef)
| RPrepared (gids : gmap string string)
| RErr (e : pgerr).

(** ** The state of the databases *)

(** What became of one transaction on one shard.  [TFailed] is a transaction
    block PostgreSQL has already aborted but whose session still has to end
    it; [TAborted] also covers a session that is gone. *)
Inductive tstate :=
| TActive (db xid : string)
| TFailed (db : string)
| TPrepared (db : string)
| TCommitted
| TAborted.

(** A row of [pgshard.xact_decisions]; [d_seen] is
    [greatest(created_at, heartbeat_at)]. *)
Record drow := mkRow { d_state : string; d_participants : list Z; d_xids : list string; d_created : Z; d_seen : Z }.

Record world := mkWorld {
  w_rows : gmap string drow;
  w_txns : gmap (ShardRef * string) tstate;
  w_topology : list ShardRef;
  w_now : Z
}.

Definition set_rows (w : world) (r : gmap string drow) : world :=
  mkWorld r (w_txns w) (w_topology w) (w_now w).
Definition set_txn (w : world) (sh : ShardRef) (gid : string) (t : tstate) : world :=
  mkWorld (w_rows w) (<[(sh, gid) := t]> (w_txns w)) (w_topology w) (w_now w).

Definition GIDPrefix : string := "pgshard-".

Definition err_duplicate : pgerr := mkErr "23505" "duplicate key value violates unique constraint".
Definition err_aborted_block : pgerr := mkErr "25P02" "current transaction is aborted, commands ignored until end of transaction block".
Definition err_gone (gid : string) : pgerr :=
  mkErr "42704" ("prepared transaction with identifier " ++ gid ++ " does not exist").
Definition err_no_session : pgerr := mkErr "08006" "connection lost".
Definition err_unexpected : pgerr := mkErr "" "unexpected answer".
Definition err_wrong_database : pgerr := mkErr "0A000" "prepared transaction belongs to another database".

(** The rows ordered by [created_at]. *)
Definition created_le (x y : string * drow) : Prop := d_created x.2 <= d_created y.2.
#[export] Instance created_le_dec : RelDecision created_le.
Proof. intros x y. unfold created_le. apply _. Defined.

Definition read_decisions (w : world) : list decision :=
  (λ '(g, r), mkDecision g (d_state r) (d_participants r) (w_now w - d_seen r)) <$>
    merge_sort created_le (map_to_list (w_rows w)).

(** [pg_prepared_xacts WHERE gid LIKE 'pgshard-%'] on one shard: gid to
    database. *)
Definition list_prepared (w : world) (sh : ShardRef) : gmap string string :=
  list_to_map (omap (λ '((s, g), t),
    match t with
    | TPrepared db => if decide (s = sh) then (if String.prefix GIDPrefix g then Some (g, db) else None) else None
    | _ => None
    end) (map_to_list (w_txns w))).

(** Moving a row out of [preparing]: the guarded updates of the log. *)
Definition decide_row (w : world) (gid new : string) : world * resp :=
  match w_rows w !! gid with
  | Some r =>
      if String.eqb (d_state r) "preparing"
      then (set_rows w (<[gid := mkRow new (d_participants r) (d_xids r) (d_created r) (d_seen r)]> (w_rows w)), RCount 1)
      else (w, RCount 0)
  | None => (w, RCount 0)
  end.

(** [COMMIT PREPARED] and [ROLLBACK PREPARED]; [db] is the database of the
    connection, [None] for the session that prepared it. *)
Definition finish_prepared (w : world) (sh : ShardRef) (db : option string) (commit : bool) (gid : string) : world * resp :=
  match w_txns w !! (sh, gid) with
  | Some (TPrepared db') =>
      if decide (db = None ∨ db = Some db')
      then (set_txn w sh gid (if commit then TCommitted else TAborted), ROk)
      else (w, RErr err_wrong_database)
  | _ => (w, RErr (err_gone gid))
  end.

(** The effect of a statement that reaches its database and is answered. *)
Definition sql_exec (w : world) (o : op) : world * resp :=
  match o with
  | OpBegin gid ids xids =>
      match w_rows w !! gid with
      | Some _ => (w, RErr err_duplicate)
      | None => (set_rows w (<[gid := mkRow "preparing" ids xids (w_now w) (w_now w)]> (w_rows w)), RCount 1)
      end
  | OpHeartbeat gid =>
      match w_rows w !! gid with
      | Some r =>
          if String.eqb (d_state r) "preparing"
          then (set_rows w (<[gid := mkRow (d_state r) (d_participants r) (d_xids r) (d_created r) (w_now w)]> (w_rows w)), RCount 1)
          else (w, RCount 0)
      | None => (w, RCount 0)
      end
  | OpDecideCommit gid => decide_row w gid "commit"
  | OpDecideAbort gid => decide_row w gid "abort"
  | OpReadState gid => (w, match w_rows w !! gid with Some r => RState (d_state r) | None => RNoRows end)
  | OpDelete gid => (set_rows w (delete gid (w_rows w)), RCount (if decide (is_Some (w_rows w !! gid)) then 1 else 0))
  | OpReadDecisions => (w, RDecisions (read_decisions w))
  | OpListShards set => (w, RShards (filter (λ sh, set = "" ∨ sh.1 = set) (w_topology w)))
  | OpAbortStale gid timeout =>
      match w_rows w !! gid with
      | Some r => if d_seen r <=? w_now w - timeout then decide_row w gid "abort" else (w, RCount 0)
      | None => (w, RCount 0)
      end
  | OpDeleteDecided gid state =>
      match w_rows w !! gid with
      | Some r => if String.eqb (d_state r) state
                  then (set_rows w (delete gid (w_rows w)), RCount 1) else (w, RCount 0)
      | None => (w, RCount 0)
      end
  | OpXid sh gid =>
      (w, match w_txns w !! (sh, gid) with
          | Some (TActive _ xid) => RText xid
          | Some (TFailed _) => RErr err_aborted_block
          | _ => RErr err_no_session
          end)
  | OpRollback sh gid =>
      match w_txns w !! (sh, gid) with
      | Some (TActive _ _) | Some (TFailed _) => (set_txn w sh gid TAborted, ROk)
      | Some (TPrepared _) => (w, ROk)
      | _ => (w, RErr err_no_session)
      end
  | OpPrepare sh gid =>
      match w_txns w !! (sh, gid) with
      | Some (TActive db _) => (set_txn w sh gid (TPrepared db), ROk)
      (* in an aborted block PREPARE TRANSACTION rolls back, and succeeds *)
      | Some (TFailed _) => (set_txn w sh gid TAborted, ROk)
      | _ => (w, RErr err_no_session)
      end
  | OpCommitPrepared sh gid => finish_prepared w sh None true gid
  | OpRollbackPrepared sh gid => finish_prepared w sh None false gid
  | OpListPrepared sh => (w, RPrepared (list_prepared w sh))
  | OpFinish sh db commit gid => finish_prepared w sh (Some db) commit gid
  end.

(** What can happen when a statement is issued: it is answered; or the
    connection, the server or the client fails it before it took effect; or
    after it did, the answer being lost; or PostgreSQL refuses a [PREPARE
    TRANSACTION] and aborts the transaction.  [env_error] are the errors such
    failures report. *)
Inductive sql_step (env_error : pgerr → Prop) (w : world) (o : op) : world → resp → Prop :=
| sql_answered : sql_step env_error w o (sql_exec w o).1 (sql_exec w o).2
| sql_not_run e : env_error e → sql_step env_error w o w (RErr e)
| sql_answer_lost e : env_error e → sql_step env_error w o (sql_exec w o).1 (RErr e)
| sql_prepare_refused sh gid db xid e :
    o = OpPrepare sh gid → w_txns w !! (sh, gid) = Some (TActive db xid) → env_error e →
    sql_step env_error w o (set_txn w sh gid TAborted) (RErr e).

(** ** Programs *)

Inductive prog (A : Type) : Type :=
| Ret (a : A)
| Each (slots : list (op + resp)) (k : list resp → prog A).
Arguments Ret {A} a.
Arguments Each {A} slots k.

Fixpoint prog_bind {A B} (f : A → prog B) (p : prog A) : prog B :=
  match p with
  | Ret a => f a
  | Each slots k => Each slots (λ rs, prog_bind f (k rs))
  end.
#[export] Instance prog_mbind : MBind prog := λ A B f p, prog_bind f p.
#[export] Instance prog_mret : MRet prog := λ A a, Ret a.

(** One statement. *)
Definition call (o : op) : prog resp := Each [inl o] (λ rs, Ret (default ROk (head rs))).
(** One goroutine per statement, and [wg.Wait()]. *)
Definition each (os : list op) : prog (list resp) := Each (inl <$> os) Ret.

(** The error of an answer, if it is one. *)
Definition resp_err (r : resp) : option pgerr := match r with RErr e => Some e | _ => None end.
(** [firstError]: the first error among the answers, in order. *)
Definition firstError (rs : list resp) : option pgerr := head (omap resp_err rs).

Inductive thread_step {A} (step : world → op → world → resp → Prop) :
  world → prog A → world → prog A → Prop :=
| thread_issue w slots k i o w' r :
    slots !! i = Some (inl o) → step w o w' r →
    thread_step step w (Each slots k) w' (Each (<[i := inr r]> slots) k)
| thread_join w rs k :
    thread_step step w (Each (inr <$> rs) k) w (k rs).

(** ** Systems *)

(** What the databases do on their own: time passes, shards are added to the
    topology (retiring one leaves its row), a session makes its first write of a
    transaction, and one that has not prepared it can be lost with it. *)
Inductive env_step : world → world → Prop :=
| env_topology w t : w_topology w ⊆ t → env_step w (mkWorld (w_rows w) (w_txns w) t (w_now w))
| env_time w t : w_now w <= t → env_step w (mkWorld (w_rows w) (w_txns w) (w_topology w) t)
| env_first_write w sh gid db xid :
    w_txns w !! (sh, gid) = None → env_step w (set_txn w sh gid (TActive db xid))
| env_session_lost w sh gid db xid :
    w_txns w !! (sh, gid) = Some (TActive db xid) → env_step w (set_txn w sh gid TAborted)
| env_failed_lost w sh gid db :
    w_txns w !! (sh, gid) = Some (TFailed db) → env_step w (set_txn w sh gid TAborted).

(** Programs that run side by side; a crashed one is gone. *)
Inductive sys_step {A} (step : world → op → world → resp → Prop) :
  world * list (option (prog A)) → world * list (option (prog A)) → Prop :=
| sys_thread w w' ts i p p' :
    ts !! i = Some (Some p) → thread_step step w p w' p' →
    sys_step step (w, ts) (w', <[i := Some p']> ts)
| sys_crash w ts i p :
    ts !! i = Some (Some p) → sys_step step (w, ts) (w, <[i := None]> ts)
| sys_env w w' ts : env_step w w' → sys_step step (w, ts) (w', ts).
