(* ===== verification/Logic.v ===== *)
(** * A rely/guarantee logic for the programs of [TwoPhase]

    A protocol says, over a state of ghost data and databases, what always
    holds, which changes any program may make ([calm]), and which changes the
    program that owns a key may make ([guar]) and has to expect of the others
    ([rely]).  [safe] is the logic's judgement that a program keeps to its
    guarantee whatever the others do within theirs, and [reachable_safe] that
    a system of safe programs, each statement of which may interleave with,
    fail and outlive the others, keeps the invariant. *)

From S2P Require Import Prelude TwoPhase.

(** The protocol; a program owns at most one key. *)
Class Protocol (K : Type) (key : Type) := {
  inv : K * world → Prop;
  calm : K * world → K * world → Prop;
  rely : option key → K * world → K * world → Prop;
  guar : option key → K * world → K * world → Prop;
  guar_refl own c : guar own c c;
  guar_trans own c1 c2 c3 : guar own c1 c2 → guar own c2 c3 → guar own c1 c3;
  calm_guar own c c' : calm c c' → guar own c c';
  guar_rely own own' c c' :
    (∀ k, own = Some k → own' ≠ Some k) → guar own c c' → rely own' c c';
  env_calm γ w w' : inv (γ, w) → env_step w w' → calm (γ, w) (γ, w') ∧ inv (γ, w')
}.

Section Logic.
Context {K key : Type} `{!Protocol K key}.
Variable step : world → op → world → resp → Prop.

Abbreviation assn := (K * world → Prop).

(** [P] survives whatever the others do. *)
Definition stable (own : option key) (P : assn) : Prop :=
  ∀ c c', inv c → inv c' → rely own c c' → P c → P c'.

Lemma calm_rely own c c' : calm c c' → rely own c c'.
Proof. intros H. apply (guar_rely None own); [done|]. by apply calm_guar. Qed.

Section Stable.
Variable own : option key.

Lemma stable_pure (P : Prop) : stable own (λ _, P).
Proof. by intros c c'. Qed.
Lemma stable_and P Q : stable own P → stable own Q → stable own (λ c, P c ∧ Q c).
Proof. intros HP HQ c c' Hc Hc' Hr [Hp Hq]. split; [exact (HP _ _ Hc Hc' Hr Hp)|exact (HQ _ _ Hc Hc' Hr Hq)]. Qed.
Lemma stable_or P Q : stable own P → stable own Q → stable own (λ c, P c ∨ Q c).
Proof. intros HP HQ c c' Hc Hc' Hr [Hp|Hq]; [left; exact (HP _ _ Hc Hc' Hr Hp)|right; exact (HQ _ _ Hc Hc' Hr Hq)]. Qed.
Lemma stable_all {B} (P : B → assn) : (∀ x, stable own (P x)) → stable own (λ c, ∀ x, P x c).
Proof. intros HP c c' Hc Hc' Hr H x. exact (HP x _ _ Hc Hc' Hr (H x)). Qed.
Lemma stable_pure_impl (P : Prop) Q : (P → stable own Q) → stable own (λ c, P → Q c).
Proof. intros HQ c c' Hc Hc' Hr H Hp. exact (HQ Hp _ _ Hc Hc' Hr (H Hp)). Qed.
End Stable.

(** ** The judgement *)

(** [safe own Q P p]: from a state of [P], [p] keeps to the guarantee of
    [own], and returns [a] only in a state of [Q a]. *)
Inductive safe {A} (own : option key) (Q : A → assn) : assn → prog A → Prop :=
| safe_ret (P : assn) a :
    stable own P → (∀ c, inv c → P c → Q a c) → safe own Q P (Ret a)
| safe_each (P I : assn) (S : nat → resp → assn) slots k :
    stable own P → stable own I → (∀ i r, stable own (S i r)) →
    (∀ c, inv c → P c → I c) →
    (∀ i o c w' r, slots !! i = Some (inl o) → inv c → I c → step c.2 o w' r →
       calm c (c.1, w') ∧ inv (c.1, w') ∧ S i r (c.1, w')) →
    (∀ i r c, slots !! i = Some (inr r) → inv c → I c → S i r c) →
    (∀ rs, length rs = length slots → (∀ i r, slots !! i = Some (inr r) → rs !! i = Some r) →
       safe own Q (λ c, I c ∧ ∀ i r, rs !! i = Some r → S i r c) (k rs)) →
    safe own Q P (Each slots k)
| safe_one (P : assn) (S : resp → assn) o k :
    stable own P → (∀ r, stable own (S r)) →
    (∀ c w' r, inv c → P c → step c.2 o w' r →
       ∃ γ', guar own c (γ', w') ∧ inv (γ', w') ∧ S r (γ', w')) →
    (∀ r, safe own Q (S r) (k [r])) →
    safe own Q P (Each [inl o] k)
| safe_shift (P P' : assn) p :
    stable own P →
    (∀ c, inv c → P c → ∃ γ', guar own c (γ', c.2) ∧ inv (γ', c.2) ∧ P' (γ', c.2)) →
    safe own Q P' p → safe own Q P p.

Lemma safe_stable {A} own (Q : A → assn) P p : safe own Q P p → stable own P.
Proof. by destruct 1. Qed.

Lemma safe_conseq {A} own (Q Q' : A → assn) P P' p :
  stable own P' → (∀ c, inv c → P' c → P c) → (∀ a c, inv c → Q a c → Q' a c) →
  safe own Q P p → safe own Q' P' p.
Proof.
  intros HP' HPP HQQ Hs. revert P' HP' HPP.
  induction Hs as [P a HP HQ|P I S slots k HP HI HS HPI Hstep Hdone Hk IH|P S o k HP HS Hstep Hk IH|P P1 p HP Hsh Hs IH];
    intros P' HP' HPP.
  - apply safe_ret; auto.
  - eapply (safe_each _ _ _ I S); eauto.
    intros rs Hlen Hrs. apply IH; [done|done|by eapply safe_stable, Hk|auto].
  - eapply (safe_one _ _ _ S); eauto.
  - eapply (safe_shift _ _ _ P1); eauto.
    apply IH; [by eapply safe_stable|auto].
Qed.

Lemma safe_bind {A B} own (R : A → assn) (Q : B → assn) P p (f : A → prog B) :
  safe own R P p → (∀ a, safe own Q (R a) (f a)) → safe own Q P (prog_bind f p).
Proof.
  intros Hs Hf.
  induction Hs as [P a HP HQ|P I S slots k HP HI HS HPI Hstep Hdone Hk IH|P S o k HP HS Hstep Hk IH|P P1 p HP Hsh Hs IH];
    cbn [prog_bind].
  - eapply safe_conseq; [done|exact (HQ)|by intros|apply Hf].
  - by eapply (safe_each _ _ _ I S).
  - by eapply (safe_one _ _ _ S).
  - by eapply (safe_shift _ _ _ P1).
Qed.

(** A program that is never started. *)
Lemma safe_false {A} own (Q : A → assn) (P : assn) p : (∀ c, ¬ P c) → safe own Q P p.
Proof.
  intros HP. assert (∀ P : assn, (∀ c, ¬ P c) → stable own P) as Hst by (intros P' H c c' _ _ _ Hc; by destruct (H c)).
  revert P HP. induction p as [a|slots k IH]; intros P HP.
  - apply safe_ret; [auto|]. intros c _ Hc. by destruct (HP c).
  - eapply (safe_each _ _ P P (λ _ _, P)); auto.
    + intros i o c w' r _ _ Hc. by destruct (HP c).
    + intros rs _ _. apply IH. intros c [Hc _]. by destruct (HP c).
Qed.

Lemma safe_pure {A} own (Q : A → assn) (φ : Prop) `{!Decision φ} (P : assn) p :
  stable own P → (φ → safe own Q P p) → safe own Q (λ c, φ ∧ P c) p.
Proof.
  intros HP Hs. destruct (decide φ) as [Hφ|Hφ]; [|apply safe_false; by intros c [? _]].
  eapply safe_conseq; [| |by intros|by apply Hs].
  - apply stable_and; [apply stable_pure|done].
  - by intros c _ [_ ?].
Qed.

(** ** One step of a safe program *)

Lemma each_step {A} own (Q : A → assn) (I : assn) (S : nat → resp → assn) slots k i o c w' r :
  stable own I → (∀ i r, stable own (S i r)) →
  (∀ i o c w' r, slots !! i = Some (inl o) → inv c → I c → step c.2 o w' r →
     calm c (c.1, w') ∧ inv (c.1, w') ∧ S i r (c.1, w')) →
  (∀ i r c, slots !! i = Some (inr r) → inv c → I c → S i r c) →
  (∀ rs, length rs = length slots → (∀ i r, slots !! i = Some (inr r) → rs !! i = Some r) →
     safe own Q (λ c, I c ∧ ∀ i r, rs !! i = Some r → S i r c) (k rs)) →
  slots !! i = Some (inl o) → inv c → I c → step c.2 o w' r →
  calm c (c.1, w') ∧ inv (c.1, w') ∧ I (c.1, w') ∧ S i r (c.1, w') ∧
  safe own Q (λ c, I c ∧ S i r c) (Each (<[i := inr r]> slots) k).
Proof.
  intros HI HS Hstep Hdone Hk Hi Hinv HIc Hst.
  destruct (Hstep i o c w' r) as (Hcalm & Hinv' & HSi); [done..|].
  pose proof (lookup_lt_Some _ _ _ Hi) as Hlt.
  split_and!; [done|done|by eapply HI, HIc; [..|apply calm_rely]|done|].
  eapply (safe_each _ _ _ (λ c, I c ∧ S i r c) S).
  - by apply stable_and.
  - by apply stable_and.
  - done.
  - done.
  - intros j o' c1 w1 r1 Hj Hinv1 [HI1 _] Hst1.
    assert (i ≠ j). { intros ->. by rewrite list_lookup_insert_eq in Hj. }
    rewrite list_lookup_insert_ne in Hj by done. by eapply Hstep.
  - intros j r1 c1 Hj Hinv1 [HI1 HS1]. destruct (decide (i = j)) as [->|Hne].
    + rewrite list_lookup_insert_eq in Hj by done. by simplify_eq.
    + rewrite list_lookup_insert_ne in Hj by done. by eapply Hdone.
  - intros rs Hlen Hrs. rewrite length_insert in Hlen.
    assert (rs !! i = Some r) as Hri. { apply Hrs. by rewrite list_lookup_insert_eq. }
    eapply safe_conseq; [| |by intros|apply (Hk rs Hlen)].
    + repeat apply stable_and; try done. apply stable_all; intros j. apply stable_all; intros r1.
      apply stable_pure_impl; intros _. apply HS.
    + by intros c1 Hc1 [[HI1 _] HS1].
    + intros j r1 Hj. apply Hrs. rewrite list_lookup_insert_ne; [done|]. intros ->. by rewrite Hi in Hj.
Qed.

Lemma safe_thread_step {A} own (Q : A → assn) P p c w' p' :
  safe own Q P p → inv c → P c → thread_step step c.2 p w' p' →
  ∃ γ' P', guar own c (γ', w') ∧ inv (γ', w') ∧ P' (γ', w') ∧ safe own Q P' p'.
Proof.
  intros Hs. revert c.
  induction Hs as [P a HP HQ|P I S slots k HP HI HS HPI Hstep Hdone Hk IH|P S o k HP HS Hstep Hk IH|P P1 p HP Hsh Hs IH];
    intros c Hinv HPc Hst.
  - inversion Hst.
  - inversion Hst as [w slots' k' i o w1 r Hi Hdb|w rs k']; subst.
    + edestruct (each_step own Q I S slots k i o c w' r) as (Hcalm & Hinv' & HI' & HS' & Hsafe);
        [eauto..|].
      exists c.1, (λ c, I c ∧ S i r c). split_and!; [by apply calm_guar|done..].
    + assert (∀ i r, (inr <$> rs : list (op + resp)) !! i = Some (inr r) → rs !! i = Some r) as Hrs.
      { intros i r Hi. apply list_lookup_fmap_Some in Hi as (r' & ? & ?). by simplify_eq. }
      destruct c as [γ w]. eexists γ, _. split_and!; [apply guar_refl|done| |apply Hk; [by rewrite length_fmap|done]].
      split; [auto|]. intros i r Hi. eapply Hdone; [|done|auto]. by rewrite list_lookup_fmap, Hi.
  - inversion Hst as [w slots' k' i o' w1 r Hi Hdb|w rs k' Hrs]; subst.
    + destruct i as [|i]; [|done]. simplify_eq/=.
      destruct (Hstep c w' r) as (γ' & Hg & Hinv' & HS'); [done..|].
      exists γ', (S r). split_and!; [done..|].
      eapply (safe_each _ _ _ (S r) (λ _ _ _, True)); eauto.
      * intros ? ?. apply stable_pure.
      * by intros [|i] o1 c1 w1 r1 Hi1.
      * intros rs Hlen Hr. pose proof (Hr 0%nat r eq_refl) as H0.
        destruct rs as [|r' [|]]; simplify_eq/=.
        eapply safe_conseq; [| |by intros|apply Hk].
        -- apply stable_and; [done|apply stable_pure].
        -- by intros c1 ? [? _].
    + destruct rs; simplify_eq/=.
  - destruct (Hsh c Hinv HPc) as (γ1 & Hg1 & Hinv1 & HP1).
    destruct (IH (γ1, c.2) Hinv1 HP1 Hst) as (γ' & P' & Hg & Hrest).
    exists γ', P'. split; [by eapply guar_trans|done].
Qed.

Lemma safe_result {A} own (Q : A → assn) P a c :
  safe own Q P (Ret a) → inv c → P c → ∃ γ', inv (γ', c.2) ∧ Q a (γ', c.2).
Proof.
  intros Hs. remember (Ret a) as p eqn:Hp. revert c Hp.
  induction Hs as [P a' HP HQ| | |P P1 p HP Hsh Hs IH]; intros c Hp Hinv HPc; simplify_eq.
  - exists c.1. destruct c; eauto.
  - destruct (Hsh c Hinv HPc) as (γ1 & _ & Hinv1 & HP1). by apply (IH (γ1, c.2)).
Qed.

(** ** Systems *)

Section System.
Context {A : Type} (owner : nat → option key) (Q : nat → A → assn).
Hypothesis owner_disjoint : ∀ i j k, owner i = Some k → owner j = Some k → i = j.

(** The ghost data [γ] make every running program safe from where it is. *)
Definition safe_at (γ : K) (s : world * list (option (prog A))) : Prop :=
  inv (γ, s.1) ∧ ∀ i p, s.2 !! i = Some (Some p) → ∃ P, P (γ, s.1) ∧ safe (owner i) (Q i) P p.
Definition all_safe (s : world * list (option (prog A))) : Prop := ∃ γ, safe_at γ s.

Lemma safe_at_step γ s s' : safe_at γ s → sys_step step s s' → ∃ γ' own, guar own (γ, s.1) (γ', s'.1) ∧ safe_at γ' s'.
Proof.
  intros (Hinv & Hts) Hst.
  destruct Hst as [w w' ts i p p' Hi Hth|w ts i p Hi|w w' ts Henv]; cbn in *.
  - destruct (Hts i p Hi) as (P & HP & Hs).
    destruct (safe_thread_step _ _ _ _ (γ, w) w' p' Hs Hinv HP Hth) as (γ' & P' & Hg & Hinv' & HP' & Hs').
    exists γ', (owner i). split; [done|]. split; [done|]. intros j q Hj. cbn in Hj. destruct (decide (i = j)) as [->|Hne].
    + rewrite list_lookup_insert_eq in Hj by (by eapply lookup_lt_Some). simplify_eq. eauto.
    + rewrite list_lookup_insert_ne in Hj by done.
      destruct (Hts j q Hj) as (Pj & HPj & Hsj). exists Pj. split; [|done].
      eapply (safe_stable _ _ _ _ Hsj (γ, w)); [done..| |done].
      eapply guar_rely; [|done]. intros k Hk Hk'. by destruct Hne; eapply owner_disjoint.
  - exists γ, None. split; [apply guar_refl|]. split; [done|]. intros j q Hj. cbn in Hj. destruct (decide (i = j)) as [->|Hne].
    + rewrite list_lookup_insert_eq in Hj by (by eapply lookup_lt_Some). done.
    + rewrite list_lookup_insert_ne in Hj by done. by apply Hts.
  - destruct (env_calm γ w w' Hinv Henv) as [Hcalm Hinv'].
    exists γ, None. split; [by apply calm_guar|]. split; [done|]. intros j q Hj. destruct (Hts j q Hj) as (Pj & HPj & Hsj).
    exists Pj. split; [|done]. eapply (safe_stable _ _ _ _ Hsj (γ, w)); [done..| |done]. by apply calm_rely.
Qed.

(** What holds of the ghost data and survives everybody's changes holds at the
    end of a run. *)
Lemma safe_at_run γ s s' (P : K → Prop) :
  (∀ own c c', inv c → inv c' → guar own c c' → P c.1 → P c'.1) →
  safe_at γ s → P γ → rtc (sys_step step) s s' → ∃ γ', P γ' ∧ safe_at γ' s'.
Proof.
  intros HP Hs Hγ Hr. revert γ Hs Hγ. induction Hr as [s|s1 s2 s3 H12 _ IH]; intros γ Hs Hγ; [eauto|].
  destruct (safe_at_step γ s1 s2 Hs H12) as (γ' & own & Hg & Hs'). apply (IH γ'); [done|].
  exact (HP own (γ, s1.1) (γ', s2.1) (proj1 Hs) (proj1 Hs') Hg Hγ).
Qed.
Lemma reachable_safe s s' : all_safe s → rtc (sys_step step) s s' → all_safe s'.
Proof. intros [γ Hs] Hr. destruct (safe_at_run γ s s' (λ _, True)) as (γ' & _ & ?); [done..|by exists γ']. Qed.

(** Whatever a finished program returned, its postcondition holds now. *)
Lemma all_safe_result s i a :
  all_safe s → s.2 !! i = Some (Some (Ret a)) → ∃ γ, inv (γ, s.1) ∧ Q i a (γ, s.1).
Proof.
  intros (γ & Hinv & Hts) Hi. destruct (Hts i _ Hi) as (P & HP & Hs).
  by apply (safe_result _ _ _ _ (γ, s.1) Hs).
Qed.
End System.

End Logic.

Create HintDb stable.
#[export] Hint Resolve stable_pure stable_and stable_or stable_all stable_pure_impl : stable.
