(* ===== verification/Commitment.v ===== *)
(** * The two-phase commit protocol, as an instance of the logic

    For each transaction a coordinator runs, one ghost phase says what has
    been settled: nothing yet, the decision row begun, commit given up, or
    commit decided.  The invariant ties it to the decision row and to the
    participants; [op_calm] says under which knowledge a statement may be
    issued by anyone, and the [*_answer] lemmas what its answer teaches. *)

From S2P Require Import Prelude TwoPhase Logic.

Local Open Scope Z_scope.

Inductive cphase := CFresh | CBegun | CGaveUp | CCommitted.

Definition prepared (t : option tstate) : Prop := ∃ db, t = Some (TPrepared db).
Definition failed (t : option tstate) : Prop := ∃ db, t = Some (TFailed db).

(** What matters of one transaction: its phase, its decision row's state, and
    its fate on each shard. *)
Record view := mkView { v_phase : cphase; v_row : option string; v_txn : ShardRef → option tstate }.

Abbreviation ghost := (string → cphase).

Definition view_of (c : ghost * world) (g : string) : view :=
  mkView (c.1 g) (d_state <$> w_rows c.2 !! g) (λ sh, w_txns c.2 !! (sh, g)).

(** The invariant of a transaction with participants [ws]. *)
Definition view_inv (ws : list ShardRef) (v : view) : Prop :=
  match v_phase v with
  | CFresh => v_row v = None ∧ ∀ sh, sh ∈ ws → ¬ prepared (v_txn v sh) ∧ v_txn v sh ≠ Some TCommitted
  | CBegun | CGaveUp => v_row v ≠ Some "commit" ∧ ∀ sh, sh ∈ ws → v_txn v sh ≠ Some TCommitted
  | CCommitted =>
      (v_row v = Some "commit" ∨ v_row v = None ∧ ∀ sh, sh ∈ ws → v_txn v sh = Some TCommitted) ∧
      ∀ sh, sh ∈ ws → prepared (v_txn v sh) ∨ v_txn v sh = Some TCommitted
  end.

Definition phase_le (p q : cphase) : Prop :=
  p = q ∨ p = CFresh ∨ p = CBegun ∧ q ≠ CFresh.

(** How a transaction may move, by anyone's hand. *)
Record moves (ws : list ShardRef) (v v' : view) : Prop := {
  mv_phase : phase_le (v_phase v) (v_phase v');
  mv_committed sh : sh ∈ ws → v_txn v sh = Some TCommitted → v_txn v' sh = Some TCommitted;
  mv_aborted sh : sh ∈ ws → v_txn v sh = Some TAborted → v_txn v' sh = Some TAborted;
  mv_failed sh : sh ∈ ws → ¬ failed (v_txn v sh) → ¬ failed (v_txn v' sh);
  mv_decided : v_phase v ≠ CFresh → v_row v ≠ Some "preparing" → v_row v' ≠ Some "preparing";
  mv_no_commit : v_phase v = CBegun → v_row v ≠ Some "preparing" → v_phase v' ≠ CCommitted
}.

(** How it may move by the hand of a program that does not coordinate it: the
    phase stays, and a vote is kept while the transaction is undecided. *)
Record moves_other (ws : list ShardRef) (v v' : view) : Prop := {
  mo_phase : v_phase v' = v_phase v;
  mo_vote sh : sh ∈ ws → v_phase v = CBegun → v_row v' = Some "preparing" →
    prepared (v_txn v sh) → prepared (v_txn v' sh)
}.

(** [v'] is [v]. *)
Definition same_view (v v' : view) : Prop :=
  v_phase v' = v_phase v ∧ v_row v' = v_row v ∧ ∀ sh, v_txn v' sh = v_txn v sh.

Lemma same_view_moves ws v v' : same_view v v' → moves ws v v' ∧ moves_other ws v v'.
Proof.
  intros (Hp & Hr & Ht). split; split; rewrite ?Hp, ?Hr; intros; rewrite ?Ht; try done.
  - by left.
  - congruence.
Qed.

Lemma same_view_inv ws v v' : same_view v v' → view_inv ws v → view_inv ws v'.
Proof.
  intros (Hp & Hr & Ht). unfold view_inv. rewrite Hp, Hr.
  destruct (v_phase v); [intros [H1 H2]|intros [H1 H2]|intros [H1 H2]|intros [H1 H2]].
  1-3: split; [done|]; intros sh Hsh; rewrite Ht; auto.
  split; [|intros sh Hsh; rewrite Ht; auto].
  destruct H1 as [?|[? H1]]; [by left|right]. split; [done|]. intros sh Hsh. rewrite Ht. auto.
Qed.

Lemma moves_trans ws v1 v2 v3 : moves ws v1 v2 → moves ws v2 v3 → moves ws v1 v3.
Proof.
  intros [P1 C1 A1 F1 D1 N1] [P2 C2 A2 F2 D2 N2]. split; auto.
  - unfold phase_le in *. destruct P1 as [->|[->|[? ?]]]; [done|by auto|].
    destruct P2 as [<-|[?|[? ?]]]; [by auto|done|by auto].
  - intros Hf Hr. apply D2; [|by auto].
    destruct P1 as [<-|[?|[? ?]]]; done.
  - intros Hb Hr. destruct P1 as [He|[?|[_ Hf]]]; [| congruence|].
    + apply N2; [congruence|]. apply D1; [congruence|done].
    + destruct (v_phase v2) eqn:E2; [done| | |by destruct (N1 Hb Hr)].
      * apply N2; [done|]. apply D1; congruence.
      * destruct P2 as [<-|[?|[? ?]]]; done.
Qed.

Lemma moves_other_trans ws v1 v2 v3 :
  moves ws v2 v3 → moves_other ws v1 v2 → moves_other ws v2 v3 → moves_other ws v1 v3.
Proof.
  intros Hm [P1 V1] [P2 V2]. split; [congruence|].
  intros sh Hsh Hb Hr Hp. apply V2; [done|congruence|done|]. apply V1; [done..| |done].
  destruct (decide (v_row v2 = Some "preparing")) as [|Hne]; [done|].
  destruct (mv_decided _ _ _ Hm); [congruence|done..].
Qed.

(** ** The protocol *)

Section Protocol.
(** The transactions under way and their participants. *)
Variable C : gmap string (list ShardRef).

Definition tpc_inv (c : ghost * world) : Prop :=
  ∀ g ws, C !! g = Some ws → view_inv ws (view_of c g) ∧ ws ⊆ w_topology c.2.

Definition tpc_calm (c c' : ghost * world) : Prop :=
  ∀ g ws, C !! g = Some ws →
    moves ws (view_of c g) (view_of c' g) ∧ moves_other ws (view_of c g) (view_of c' g).

Definition tpc_rely (own : option string) (c c' : ghost * world) : Prop :=
  ∀ g ws, C !! g = Some ws →
    moves ws (view_of c g) (view_of c' g) ∧
    (own = Some g → moves_other ws (view_of c g) (view_of c' g)).

Definition tpc_guar (own : option string) (c c' : ghost * world) : Prop :=
  ∀ g ws, C !! g = Some ws →
    moves ws (view_of c g) (view_of c' g) ∧
    (own ≠ Some g → moves_other ws (view_of c g) (view_of c' g)).

(** A change confined to one transaction. *)
Definition only_at (g : string) (c c' : ghost * world) : Prop :=
  (∀ g', g' ≠ g → same_view (view_of c g') (view_of c' g')) ∧ w_topology c.2 ⊆ w_topology c'.2.

Lemma local_change g own c c' :
  tpc_inv c → only_at g c c' →
  (∀ ws, C !! g = Some ws → view_inv ws (view_of c g) →
     view_inv ws (view_of c' g) ∧ moves ws (view_of c g) (view_of c' g) ∧
     (own ≠ Some g → moves_other ws (view_of c g) (view_of c' g))) →
  tpc_guar own c c' ∧ tpc_inv c'.
Proof.
  intros Hinv [Hsame Htop] Hg. split; intros g' ws Hws; destruct (Hinv g' ws Hws) as [Hvi Ht].
  - destruct (decide (g' = g)) as [->|Hne]; [by apply Hg|].
    destruct (same_view_moves ws _ _ (Hsame g' Hne)). by split.
  - split; [|by etrans]. destruct (decide (g' = g)) as [->|Hne]; [by apply Hg|].
    by eapply same_view_inv, Hvi; apply Hsame.
Qed.

Lemma guar_none_calm c c' : tpc_guar None c c' → tpc_calm c c'.
Proof. intros H g ws Hg. destruct (H g ws Hg) as [H1 H2]. split; [done|]. by apply H2. Qed.

Lemma local_calm g c c' :
  tpc_inv c → only_at g c c' →
  (∀ ws, C !! g = Some ws → view_inv ws (view_of c g) →
     view_inv ws (view_of c' g) ∧ moves ws (view_of c g) (view_of c' g) ∧
     moves_other ws (view_of c g) (view_of c' g)) →
  tpc_calm c c' ∧ tpc_inv c'.
Proof.
  intros Hinv Honly Hg. destruct (local_change g None c c' Hinv Honly) as [H1 H2].
  - intros ws Hws Hvi. destruct (Hg ws Hws Hvi) as (? & ? & ?). by split_and!.
  - split; [by apply guar_none_calm|done].
Qed.

Lemma only_at_rows g γ γ' w rows :
  (∀ g', g' ≠ g → γ' g' = γ g') → (∀ g', g' ≠ g → rows !! g' = w_rows w !! g') →
  only_at g (γ, w) (γ', set_rows w rows).
Proof.
  intros Hγ Hrows. split; [|done]. intros g' Hne. split_and!; cbn; [by auto| |done].
  by rewrite Hrows.
Qed.

Lemma only_at_txn g γ w sh t : only_at g (γ, w) (γ, set_txn w sh g t).
Proof.
  split; [|done]. intros g' Hne. split_and!; cbn; [done|done|]. intros sh'.
  rewrite lookup_insert_ne; [done|]. congruence.
Qed.

Lemma calm_same γ w : tpc_inv (γ, w) → tpc_calm (γ, w) (γ, w) ∧ tpc_inv (γ, w).
Proof. intros H. split; [|done]. intros g ws _. by apply same_view_moves. Qed.

(** Commit has been given up on for good: either decided so, or the row is
    past being decided otherwise. *)
Definition not_committing (v : view) : Prop :=
  v_phase v = CGaveUp ∨ v_phase v = CBegun ∧ v_row v ≠ Some "preparing".

(** The moves a single participant may make. *)
Inductive txn_move (v : view) : option tstate → tstate → Prop :=
| tm_begin db xid : txn_move v None (TActive db xid)
| tm_end db xid : txn_move v (Some (TActive db xid)) TAborted
| tm_end_failed db : txn_move v (Some (TFailed db)) TAborted
| tm_prepare db xid : v_phase v ≠ CFresh → txn_move v (Some (TActive db xid)) (TPrepared db)
| tm_commit db : v_phase v = CCommitted → txn_move v (Some (TPrepared db)) TCommitted
| tm_rollback db : not_committing v → txn_move v (Some (TPrepared db)) TAborted.

Lemma txn_move_view ws v v' sh t :
  view_inv ws v → v_phase v' = v_phase v → v_row v' = v_row v →
  (∀ sh', v_txn v' sh' = if decide (sh' = sh) then Some t else v_txn v sh') →
  (sh ∈ ws → txn_move v (v_txn v sh) t) →
  view_inv ws v' ∧ moves ws v v' ∧ moves_other ws v v'.
Proof.
  intros Hvi Hp Hr Ht Hm.
  assert (∀ sh', sh' ∈ ws → v_txn v' sh' = v_txn v sh' ∨ sh' = sh ∧ v_txn v' sh' = Some t ∧ txn_move v (v_txn v sh') t) as Hcase.
  { intros sh' Hin. rewrite Ht. destruct (decide (sh' = sh)) as [->|]; auto. }
  clear Ht Hm.
  assert (moves ws v v') as Hmv.
  { split; rewrite ?Hp, ?Hr; try done.
    - by left.
    - intros sh' Hin H. destruct (Hcase sh' Hin) as [->|(_ & _ & Hm)]; [done|]. rewrite H in Hm. inversion Hm.
    - intros sh' Hin H. destruct (Hcase sh' Hin) as [->|(_ & _ & Hm)]; [done|]. rewrite H in Hm. inversion Hm.
    - intros sh' Hin H. destruct (Hcase sh' Hin) as [->|(_ & -> & Hm)]; [done|].
      intros [db ?]; simplify_eq. inversion Hm.
    - congruence. }
  split_and!; [|done|].
  - unfold view_inv in *. rewrite Hp, Hr. destruct (v_phase v) eqn:E.
    1-3: destruct Hvi as [H1 H2]; split; [done|]; intros sh' Hin;
      destruct (Hcase sh' Hin) as [->|(_ & -> & Hm)]; [by auto|]; inversion Hm; subst;
      unfold not_committing, prepared in *; try split; naive_solver congruence.
    destruct Hvi as [H1 H2]. split.
    + destruct H1 as [?|[? H1]]; [by left|right]. split; [done|]. intros sh' Hin.
      destruct (Hcase sh' Hin) as [->|(_ & -> & Hm)]; [by auto|]. rewrite H1 in Hm by done. inversion Hm.
    + intros sh' Hin. destruct (Hcase sh' Hin) as [->|(_ & -> & Hm)]; [by auto|].
      destruct (H2 sh' Hin) as [[db Hdb]|Hdb]; rewrite Hdb in Hm; inversion Hm as [| | | |db' _|db' Hnc]; subst.
      * by right.
      * destruct Hnc as [?|[? ?]]; congruence.
  - split; [done|]. intros sh' Hin Hb Hrow Hpr. rewrite Hr in Hrow.
    destruct (Hcase sh' Hin) as [->|(_ & Ht' & Hm)]; [done|].
    destruct Hpr as [db Hdb]. rewrite Hdb in Hm.
    inversion Hm as [| | | |db' Hc|db' Hnc]; subst; [congruence|].
    destruct Hnc as [?|[? ?]]; congruence.
Qed.

Lemma set_txn_calm γ w sh g t :
  tpc_inv (γ, w) →
  (∀ ws, C !! g = Some ws → sh ∈ ws → txn_move (view_of (γ, w) g) (w_txns w !! (sh, g)) t) →
  tpc_calm (γ, w) (γ, set_txn w sh g t) ∧ tpc_inv (γ, set_txn w sh g t).
Proof.
  intros Hinv Hm. apply (local_calm g); [done|apply only_at_txn|].
  intros ws Hws Hvi. apply (txn_move_view ws _ _ sh t); [done..| |by apply Hm].
  intros sh'. cbn. destruct (decide (sh' = sh)) as [->|Hne].
  - by rewrite lookup_insert_eq.
  - rewrite lookup_insert_ne; [done|congruence].
Qed.

#[local, refine] Instance tpc_protocol : Protocol ghost string := {|
  inv := tpc_inv; calm := tpc_calm; rely := tpc_rely; guar := tpc_guar
|}.
Proof.
  - intros own c g ws _. by destruct (same_view_moves ws (view_of c g) (view_of c g)).
  - intros own c1 c2 c3 H12 H23 g ws Hg.
    destruct (H12 g ws Hg) as [M1 O1], (H23 g ws Hg) as [M2 O2].
    split; [by eapply moves_trans|]. intros Hown. eapply moves_other_trans; eauto.
  - intros own c c' H g ws Hg. destruct (H g ws Hg). by split.
  - intros own own' c c' Hdis H g ws Hg. destruct (H g ws Hg) as [M O].
    split; [done|]. intros Hown. apply O. intros Ho. by apply (Hdis g).
  - intros γ w w' Hinv Henv. destruct Henv as [w0 t Ht|w0 t _|w0 sh g db xid Hl|w0 sh g db xid Hl|w0 sh g db Hl].
    + split; [intros g ws _; by apply same_view_moves|].
      intros g ws Hg. destruct (Hinv g ws Hg) as [Hv Hws]. split; [exact Hv|]. by transitivity (w_topology w0).
    + split; [intros g ws _; by apply same_view_moves|]. exact Hinv.
    + apply set_txn_calm; [done|]. intros. rewrite Hl. constructor.
    + apply set_txn_calm; [done|]. intros. rewrite Hl. constructor.
    + apply set_txn_calm; [done|]. intros. rewrite Hl. constructor.
Defined.

(** ** Facts that last *)

Definition Comm (g : string) (c : ghost * world) : Prop := c.1 g = CCommitted.
Definition NotFresh (g : string) (c : ghost * world) : Prop := c.1 g ≠ CFresh.
Definition NC (g : string) (c : ghost * world) : Prop := not_committing (view_of c g).
Definition Done (sh : ShardRef) (g : string) (c : ghost * world) : Prop :=
  w_txns c.2 !! (sh, g) = Some TCommitted.
Definition AllDone (g : string) (c : ghost * world) : Prop :=
  ∀ ws, C !! g = Some ws → ∀ sh, sh ∈ ws → Done sh g c.
(** Rolling [g] back can undo nothing that committed. *)
Definition RollbackSafe (g : string) (c : ghost * world) : Prop := NC g c ∨ AllDone g c.
(** The participant's session did not turn out to be in an aborted block. *)
Definition Sound (sh : ShardRef) (g : string) (c : ghost * world) : Prop :=
  ¬ failed (w_txns c.2 !! (sh, g)).
(** The participant voted: it stays prepared until somebody decides. *)
Definition Voted (sh : ShardRef) (g : string) (c : ghost * world) : Prop :=
  c.1 g = CBegun ∧ (d_state <$> w_rows c.2 !! g = Some "preparing" → prepared (w_txns c.2 !! (sh, g))).

Section Stability.
Variables (own : option string) (g : string) (ws : list ShardRef).
Hypothesis Hg : C !! g = Some ws.

(** A committed transaction is prepared or committed on each shard. *)
Lemma Comm_fate c sh : tpc_inv c → Comm g c → sh ∈ ws → prepared (w_txns c.2 !! (sh, g)) ∨ Done sh g c.
Proof.
  intros Hinv Hc Hsh. destruct (Hinv g ws Hg) as [Hv _]. unfold view_inv in Hv. cbn in Hv. rewrite Hc in Hv. by apply Hv.
Qed.
Lemma Comm_stable : stable own (Comm g).
Proof.
  intros c c' _ _ Hr Hc. destruct (Hr g ws Hg) as [[Hp _ _ _ _ _] _].
  unfold Comm, phase_le in *; cbn in *. rewrite Hc in Hp. naive_solver congruence.
Qed.

Lemma NotFresh_stable : stable own (NotFresh g).
Proof.
  intros c c' _ _ Hr Hc. destruct (Hr g ws Hg) as [[Hp _ _ _ _ _] _].
  unfold NotFresh, phase_le in *; cbn in *. naive_solver congruence.
Qed.

Lemma NC_stable : stable own (NC g).
Proof.
  intros c c' _ _ Hr Hc. destruct (Hr g ws Hg) as [[Hp _ _ _ Hd Hn] _].
  unfold NC, not_committing, phase_le in *; cbn in *.
  destruct Hc as [Hc|[Hc Hrow]]; rewrite Hc in *.
  - left. naive_solver congruence.
  - specialize (Hd ltac:(done) Hrow). specialize (Hn eq_refl Hrow).
    destruct (c'.1 g); naive_solver congruence.
Qed.

Lemma Done_stable sh : sh ∈ ws → stable own (Done sh g).
Proof. intros Hin c c' _ _ Hr Hc. destruct (Hr g ws Hg) as [[_ Hd _ _ _ _] _]. by apply (Hd sh). Qed.

Lemma Sound_stable sh : sh ∈ ws → stable own (Sound sh g).
Proof. intros Hin c c' _ _ Hr Hc. destruct (Hr g ws Hg) as [[_ _ _ Hf _ _] _]. by apply (Hf sh). Qed.
End Stability.

Lemma AllDone_stable own g : stable own (AllDone g).
Proof.
  intros c c' Hi Hi' Hr Hc ws Hg sh Hsh. eapply (Done_stable own g ws Hg sh Hsh c); [done..|].
  by eapply Hc.
Qed.

Lemma RollbackSafe_stable own g : is_Some (C !! g) → stable own (RollbackSafe g).
Proof. intros [ws Hg]. apply stable_or; [by eapply NC_stable|apply AllDone_stable]. Qed.

Lemma phase_stable g ph : is_Some (C !! g) → stable (Some g) (λ c, c.1 g = ph).
Proof.
  intros [ws Hg] c c' _ _ Hr Hc. destruct (Hr g ws Hg) as [_ [Hp _]]; [done|].
  cbn in Hp. congruence.
Qed.

Lemma Voted_stable g ws sh : C !! g = Some ws → sh ∈ ws → stable (Some g) (Voted sh g).
Proof.
  intros Hg Hsh c c' _ _ Hr [Hb Hv]. destruct (Hr g ws Hg) as [Hm [Hp Hvote]]; [done|].
  split; [cbn in Hp; congruence|]. intros Hrow. apply (Hvote sh); [done..|]. apply Hv.
  apply dec_stable. intros Hne. destruct (mv_decided _ _ _ Hm); cbn; [|done|done]. congruence.
Qed.

(** ** Statements anyone may issue *)

(** The moves of a decision row without a change of phase. *)
Inductive row_move (ws : list ShardRef) (v : view) : option string → Prop :=
| rm_same : row_move ws v (v_row v)
| rm_given_up row : row ≠ Some "preparing" → row ≠ Some "commit" →
    v_phase v = CBegun ∨ v_phase v = CGaveUp → row_move ws v row
| rm_finished : v_phase v = CCommitted → (∀ sh, sh ∈ ws → v_txn v sh = Some TCommitted) → row_move ws v None.

Lemma row_move_view ws v v' :
  view_inv ws v → v_phase v' = v_phase v → (∀ sh, v_txn v' sh = v_txn v sh) → row_move ws v (v_row v') →
  view_inv ws v' ∧ moves ws v v' ∧ moves_other ws v v'.
Proof.
  intros Hvi Hp Ht Hm. remember (v_row v') as row eqn:Hrow. destruct Hm as [|row H1 H2 Hph|Hph Hdone].
  - split_and!; [eapply same_view_inv; [|done]|eapply same_view_moves|eapply same_view_moves]; by split_and!.
  - assert (∀ sh, sh ∈ ws → v_txn v sh ≠ Some TCommitted) as Hnc.
    { unfold view_inv in Hvi. destruct Hph as [E|E]; rewrite E in Hvi; naive_solver. }
    split_and!.
    + unfold view_inv. rewrite Hp, <- Hrow. destruct Hph as [-> | ->]; (split; [done|]);
        intros sh Hsh; rewrite Ht; auto.
    + split; rewrite ?Hp, <- ?Hrow; intros; rewrite ?Ht; try done; [by left|].
      destruct Hph; congruence.
    + split; rewrite <- ?Hrow; intros; rewrite ?Ht; done.
  - split_and!.
    + unfold view_inv. rewrite Hp, <- Hrow, Hph. split; [right; split; [done|]|]; intros sh Hsh; rewrite Ht; auto.
    + split; rewrite ?Hp, <- ?Hrow; intros; rewrite ?Ht; try done; [by left|congruence].
    + split; rewrite <- ?Hrow; intros; rewrite ?Ht; done.
Qed.

Lemma set_row_calm γ w g rows :
  tpc_inv (γ, w) → (∀ g', g' ≠ g → rows !! g' = w_rows w !! g') →
  (∀ ws, C !! g = Some ws → view_inv ws (view_of (γ, w) g) → row_move ws (view_of (γ, w) g) (d_state <$> rows !! g)) →
  tpc_calm (γ, w) (γ, set_rows w rows) ∧ tpc_inv (γ, set_rows w rows).
Proof.
  intros Hinv Hrows Hm. apply (local_calm g); [done|by apply only_at_rows|].
  intros ws Hws Hvi. by apply row_move_view; [| | |apply Hm].
Qed.

(** What has to be known for a statement to be harmless. *)
Definition op_ok (o : op) (c : ghost * world) : Prop :=
  match o with
  | OpBegin g _ _ | OpDecideCommit g => C !! g = None
  | OpDelete g => is_Some (C !! g) → RollbackSafe g c
  | OpDeleteDecided g state => state = "commit" → AllDone g c
  | OpPrepare sh g => ∀ ws, C !! g = Some ws → sh ∈ ws → NotFresh g c
  | OpCommitPrepared sh g | OpFinish sh _ true g => ∀ ws, C !! g = Some ws → sh ∈ ws → Comm g c
  | OpRollbackPrepared sh g | OpFinish sh _ false g => ∀ ws, C !! g = Some ws → sh ∈ ws → RollbackSafe g c
  | _ => True
  end.

Lemma undecided_phase ws v : view_inv ws v → v_row v = Some "preparing" → v_phase v = CBegun ∨ v_phase v = CGaveUp.
Proof.
  unfold view_inv. intros Hvi Hr. destruct (v_phase v); auto; rewrite Hr in Hvi; naive_solver.
Qed.

Lemma decide_row_abort_calm γ w g :
  tpc_inv (γ, w) →
  tpc_calm (γ, w) (γ, (decide_row w g "abort").1) ∧ tpc_inv (γ, (decide_row w g "abort").1).
Proof.
  intros Hinv. unfold decide_row. destruct (w_rows w !! g) as [r|] eqn:Hr; [|by apply calm_same].
  destruct (String.eqb_spec (d_state r) "preparing") as [Hs|]; [|by apply calm_same].
  apply (set_row_calm γ w g); [done|intros g' Hne; by rewrite lookup_insert_ne|].
  intros ws Hws Hvi. rewrite lookup_insert_eq. apply rm_given_up; [done..|].
  apply (undecided_phase ws); [done|]. cbn. by rewrite Hr, <- Hs.
Qed.

Lemma delete_row_calm γ w g :
  tpc_inv (γ, w) →
  (∀ ws, C !! g = Some ws → is_Some (w_rows w !! g) → RollbackSafe g (γ, w) ∨ d_state <$> w_rows w !! g ≠ Some "commit") →
  tpc_calm (γ, w) (γ, set_rows w (delete g (w_rows w))) ∧ tpc_inv (γ, set_rows w (delete g (w_rows w))).
Proof.
  intros Hinv Hok. apply (set_row_calm γ w g); [done|intros g' Hne; by rewrite lookup_delete_ne|].
  intros ws Hws Hvi. rewrite lookup_delete_eq. cbn.
  destruct (w_rows w !! g) as [r|] eqn:Hr.
  2: { replace (@None string) with (v_row (view_of (γ, w) g)); [constructor|]. cbn. by rewrite Hr. }
  unfold view_inv in Hvi. cbn in Hvi. rewrite Hr in Hvi. cbn in Hvi.
  destruct (γ g) eqn:Hph; [by destruct Hvi|apply rm_given_up; cbn; auto..|].
  apply rm_finished; [done|]. destruct Hvi as [[Hc|[? _]] _]; [|done].
  destruct (Hok ws Hws) as [[[Hn|[Hn _]]|Hd]|Hn]; [by eexists|cbn in Hn; congruence..| |cbn in Hn; congruence].
  intros sh Hsh. by apply (Hd ws).
Qed.

Lemma finish_calm γ w sh db (commit : bool) g :
  tpc_inv (γ, w) →
  (∀ ws, C !! g = Some ws → sh ∈ ws → if commit then Comm g (γ, w) else RollbackSafe g (γ, w)) →
  tpc_calm (γ, w) (γ, (finish_prepared w sh db commit g).1) ∧ tpc_inv (γ, (finish_prepared w sh db commit g).1).
Proof.
  intros Hinv Hok. unfold finish_prepared.
  destruct (w_txns w !! (sh, g)) as [[| |db'| |]|] eqn:Ht; try by apply calm_same.
  destruct (decide _); [|by apply calm_same]. cbn [fst].
  apply set_txn_calm; [done|]. intros ws Hws Hsh. rewrite Ht. specialize (Hok ws Hws Hsh).
  destruct commit; [by apply tm_commit|]. apply tm_rollback. destruct Hok as [Hn|Hd]; [done|].
  specialize (Hd ws Hws sh Hsh). unfold Done in Hd. cbn in Hd. congruence.
Qed.

Lemma exec_calm γ w o :
  tpc_inv (γ, w) → op_ok o (γ, w) →
  tpc_calm (γ, w) (γ, (sql_exec w o).1) ∧ tpc_inv (γ, (sql_exec w o).1).
Proof.
  intros Hinv Hok. destruct o as [g ids xids|g|g|g|g|g| |set|g timeout|g state|sh g|sh g|sh g|sh g|sh g|sh|sh db commit g];
    cbn [sql_exec fst]; try by apply calm_same.
  - destruct (w_rows w !! g) eqn:Hr; [by apply calm_same|].
    apply (set_row_calm γ w g); [done|intros g' Hne; by rewrite lookup_insert_ne|].
    intros ws Hws. cbn in Hok. congruence.
  - destruct (w_rows w !! g) as [r|] eqn:Hr; [|by apply calm_same].
    destruct (String.eqb_spec (d_state r) "preparing"); [|by apply calm_same].
    apply (set_row_calm γ w g); [done|intros g' Hne; by rewrite lookup_insert_ne|].
    intros ws Hws Hvi. rewrite lookup_insert_eq. cbn.
    replace (Some (d_state r)) with (v_row (view_of (γ, w) g)); [constructor|]. cbn. by rewrite Hr.
  - unfold decide_row. destruct (w_rows w !! g) as [r|] eqn:Hr; [|by apply calm_same].
    destruct (String.eqb_spec (d_state r) "preparing"); [|by apply calm_same].
    apply (set_row_calm γ w g); [done|intros g' Hne; by rewrite lookup_insert_ne|].
    intros ws Hws. cbn in Hok. congruence.
  - by apply decide_row_abort_calm.
  - apply delete_row_calm; [done|]. intros ws Hws _. left. apply Hok. by eexists.
  - destruct (w_rows w !! g) as [r|]; [|by apply calm_same].
    destruct (_ <=? _); [by apply decide_row_abort_calm|by apply calm_same].
  - destruct (w_rows w !! g) as [r|] eqn:Hr; [|by apply calm_same].
    destruct (String.eqb_spec (d_state r) state) as [Hs|]; [|by apply calm_same].
    apply delete_row_calm; [done|]. intros ws Hws _. rewrite Hr. cbn.
    destruct (decide (d_state r = "commit")); [|right; congruence]. left. right. apply Hok. congruence.
  - destruct (w_txns w !! (sh, g)) as [[| | | |]|] eqn:Ht; try by apply calm_same.
    1-2: apply set_txn_calm; [done|]; intros; rewrite Ht; constructor.
  - destruct (w_txns w !! (sh, g)) as [[| | | |]|] eqn:Ht; try by apply calm_same.
    1-2: apply set_txn_calm; [done|]; intros ws Hws Hsh; rewrite Ht; constructor.
    by apply (Hok ws).
  - by apply finish_calm.
  - by apply finish_calm.
  - apply finish_calm; [done|]. intros ws Hws Hsh. destruct commit; by apply (Hok ws).
Qed.

Section Step.
Variable env_error : pgerr → Prop.

Lemma op_calm γ w o w' r :
  tpc_inv (γ, w) → op_ok o (γ, w) → sql_step env_error w o w' r →
  tpc_calm (γ, w) (γ, w') ∧ tpc_inv (γ, w').
Proof.
  intros Hinv Hok Hst. destruct Hst as [|e He|e He|sh g db xid e -> Ht He].
  - by apply exec_calm.
  - by apply calm_same.
  - by apply exec_calm.
  - apply set_txn_calm; [done|]. intros ws Hws Hsh. rewrite Ht. constructor.
Qed.

(** ** What an answer teaches *)

Lemma xid_answer w sh g w' r :
  sql_step env_error w (OpXid sh g) w' r → resp_err r = None → ¬ failed (w_txns w' !! (sh, g)).
Proof.
  intros Hst Hr. destruct Hst as [|e He|e He|sh' g' db xid e Ho Ht He]; try done.
  cbn in *. intros [db Hf]. by rewrite Hf in Hr.
Qed.

Lemma prepare_answer γ w sh g w' r :
  sql_step env_error w (OpPrepare sh g) w' r → γ g = CBegun → Sound sh g (γ, w) →
  resp_err r = None → Voted sh g (γ, w').
Proof.
  intros Hst Hb Hs Hr. destruct Hst as [|e He|e He|sh' g' db xid e Ho Ht He]; try done.
  split; [done|]. intros _. unfold Sound in Hs. cbn in *.
  destruct (w_txns w !! (sh, g)) as [[db xid|db| | |]|] eqn:Ht; try done.
  - exists db. cbn. by rewrite lookup_insert_eq.
  - destruct Hs. by exists db.
Qed.

(** A row's state, and its absence, read off a state of the invariant. *)
Lemma row_commit γ w g ws :
  tpc_inv (γ, w) → C !! g = Some ws → d_state <$> w_rows w !! g = Some "commit" → Comm g (γ, w).
Proof.
  intros Hinv Hg Hr. destruct (Hinv g ws Hg) as [Hvi _]. unfold view_inv in Hvi. cbn in Hvi. unfold Comm. cbn.
  destruct (γ g); [|by destruct Hvi..|done]. rewrite Hr in Hvi. by destruct Hvi.
Qed.

Lemma row_decided γ w g ws s :
  tpc_inv (γ, w) → C !! g = Some ws → d_state <$> w_rows w !! g = Some s →
  s ≠ "preparing" → s ≠ "commit" → NC g (γ, w).
Proof.
  intros Hinv Hg Hr Hp Hc. destruct (Hinv g ws Hg) as [Hvi _]. unfold view_inv in Hvi. cbn in Hvi.
  unfold NC, not_committing. cbn. rewrite Hr in *.
  destruct (γ g); [by destruct Hvi|right; split; congruence|by left|].
  destruct Hvi as [[?|[? _]] _]; simplify_eq.
Qed.

Lemma row_missing γ w g ws :
  tpc_inv (γ, w) → C !! g = Some ws → w_rows w !! g = None → NotFresh g (γ, w) → RollbackSafe g (γ, w).
Proof.
  intros Hinv Hg Hr Hf. destruct (Hinv g ws Hg) as [Hvi _]. unfold view_inv in Hvi. cbn in Hvi.
  unfold RollbackSafe, NC, not_committing, NotFresh in *. cbn in *. rewrite Hr in *. cbn in *.
  destruct (γ g); [done|left; by right|by auto|].
  right. intros ws' Hg' sh Hsh. destruct Hvi as [[?|[_ Hd]] _]; [done|]. simplify_eq. by apply Hd.
Qed.

Lemma read_state_answer γ w g ws w' r :
  tpc_inv (γ, w) → C !! g = Some ws → sql_step env_error w (OpReadState g) w' r →
  match r with
  | RState s => if String.eqb s "commit" then Comm g (γ, w') else s ≠ "preparing" → NC g (γ, w')
  | RNoRows => NotFresh g (γ, w') → RollbackSafe g (γ, w')
  | _ => True
  end.
Proof.
  intros Hinv Hg Hst. destruct Hst as [|e He|e He|sh' g' db xid e Ho Ht He]; try done.
  cbn. destruct (w_rows w !! g) as [row|] eqn:Hr; [|by apply (row_missing γ w g ws)].
  destruct (String.eqb_spec (d_state row) "commit") as [Hs|Hs].
  - apply (row_commit γ w g ws); [done..|]. by rewrite Hr, <- Hs.
  - intros Hp. apply (row_decided γ w g ws (d_state row)); [done..| |done|done]. by rewrite Hr.
Qed.

Lemma abort_stale_answer γ w g ws timeout w' n :
  tpc_inv (γ, w) → C !! g = Some ws → sql_step env_error w (OpAbortStale g timeout) w' (RCount n) →
  n ≠ 0 → NC g (γ, w').
Proof.
  intros Hinv Hg Hst Hn. remember (RCount n) as r eqn:Hrn.
  destruct (op_calm γ w (OpAbortStale g timeout) _ _ Hinv I Hst) as [_ Hinv'].
  destruct Hst as [|e He|e He|sh' g' db xid e Ho Ht He]; try done. revert Hrn Hinv'. cbn.
  destruct (w_rows w !! g) as [row|] eqn:Hr; [|by intros; simplify_eq/=].
  destruct (_ <=? _); [|by intros; simplify_eq/=]. unfold decide_row. rewrite Hr.
  destruct (String.eqb_spec (d_state row) "preparing"); [|by intros; simplify_eq/=].
  intros _ Hinv'. apply (row_decided _ _ g ws "abort"); [done..| |done|done].
  cbn. by rewrite lookup_insert_eq.
Qed.

Lemma decisions_answer γ w w' ds d ws :
  tpc_inv (γ, w) → sql_step env_error w OpReadDecisions w' (RDecisions ds) → d ∈ ds → C !! GID d = Some ws →
  (State d = "commit" → Comm (GID d) (γ, w')) ∧
  (State d ≠ "preparing" → State d ≠ "commit" → NC (GID d) (γ, w')).
Proof.
  intros Hinv Hst Hd Hg. remember (RDecisions ds) as r eqn:Hr.
  destruct Hst as [|e He|e He|sh' g' db xid e Ho Ht He]; try done. cbn in *. simplify_eq.
  unfold read_decisions in Hd. apply list_elem_of_fmap in Hd as ([g row] & -> & Hin). cbn in *.
  rewrite merge_sort_Permutation, elem_of_map_to_list in Hin.
  split; [intros Hs; apply (row_commit γ w g ws)|intros; apply (row_decided γ w g ws (d_state row))];
    try done; rewrite Hin; cbn; congruence.
Qed.

Lemma decisions_nodup w w' ds :
  sql_step env_error w OpReadDecisions w' (RDecisions ds) → NoDup (GID <$> ds).
Proof.
  intros Hst. remember (RDecisions ds) as r eqn:Hr.
  destruct Hst as [|e He|e He|sh' g' db xid e Ho Ht He]; try done. cbn in *. simplify_eq.
  unfold read_decisions. rewrite <- list_fmap_compose.
  rewrite (list_fmap_ext _ fst) by (by intros ? []).
  rewrite merge_sort_Permutation. apply NoDup_fst_map_to_list.
Qed.

Lemma list_shards_answer γ w w' shs g ws :
  tpc_inv (γ, w) → sql_step env_error w (OpListShards "") w' (RShards shs) → C !! g = Some ws → ws ⊆ shs.
Proof.
  intros Hinv Hst Hg. remember (RShards shs) as r eqn:Hr.
  destruct Hst as [|e He|e He|sh' g' db xid e Ho Ht He]; try done. cbn in *. simplify_eq.
  intros sh Hsh. apply list_elem_of_filter. split; [by left|]. by apply (Hinv g ws Hg).
Qed.

Lemma list_prepared_lookup w sh g :
  list_prepared w sh !! g =
  if String.prefix GIDPrefix g then
    match w_txns w !! (sh, g) with Some (TPrepared db) => Some db | _ => None end
  else None.
Proof.
  unfold list_prepared. apply omap_to_map_lookup. intros db. split.
  - intros ([[s g'] t] & Hin & Heq). apply elem_of_map_to_list in Hin.
    destruct t; try done. destruct (decide (s = sh)) as [->|]; [|done].
    destruct (String.prefix GIDPrefix g') eqn:Hp; simplify_eq. by rewrite Hp, Hin.
  - intros H. destruct (String.prefix GIDPrefix g) eqn:Hp; [|done].
    destruct (w_txns w !! (sh, g)) as [[| |db'| |]|] eqn:Ht; simplify_eq.
    exists ((sh, g), TPrepared db). rewrite elem_of_map_to_list. split; [done|]. by rewrite decide_True, Hp.
Qed.

Lemma list_prepared_answer γ w sh w' m g ws :
  tpc_inv (γ, w) → sql_step env_error w (OpListPrepared sh) w' (RPrepared m) →
  C !! g = Some ws → sh ∈ ws → String.prefix GIDPrefix g = true →
  match m !! g with
  | Some _ => NotFresh g (γ, w')
  | None => Comm g (γ, w') → Done sh g (γ, w')
  end.
Proof.
  intros Hinv Hst Hg Hsh Hpre. remember (RPrepared m) as r eqn:Hr.
  destruct Hst as [|e He|e He|sh' g' db xid e Ho Ht He]; try done. cbn [sql_exec fst snd] in *. simplify_eq.
  rewrite list_prepared_lookup, Hpre. destruct (Hinv g ws Hg) as [Hvi _].
  unfold view_inv, NotFresh, Comm, Done in *. cbn in *.
  destruct (w_txns w !! (sh, g)) as [[| |db| |]|] eqn:Ht; destruct (γ g) eqn:Hph; try done;
    destruct Hvi as [_ Hvi]; specialize (Hvi sh Hsh); rewrite Ht in Hvi; unfold prepared in Hvi; naive_solver.
Qed.

(** A COMMIT PREPARED of a decided transaction: done, unless it failed for a
    reason of the connection's. *)
Lemma commit_answer γ w sh db g ws w' r o :
  tpc_inv (γ, w) → C !! g = Some ws → sh ∈ ws → Comm g (γ, w) →
  (o = OpCommitPrepared sh g ∨ o = OpFinish sh db true g) → sql_step env_error w o w' r →
  Done sh g (γ, w') ∨ ∃ e, r = RErr e ∧ (env_error e ∨ e = err_wrong_database).
Proof.
  intros Hinv Hg Hsh Hc Ho Hst. destruct (Hinv g ws Hg) as [Hvi _]. unfold view_inv in Hvi. cbn in Hvi.
  unfold Comm in Hc. cbn in Hc. rewrite Hc in Hvi. destruct Hvi as [_ Hvi]. specialize (Hvi sh Hsh).
  destruct Hst as [|e He|e He|sh' g' db' xid e Ho' Ht He]; [|by eauto..].
  destruct Ho as [-> | ->]; cbn; unfold finish_prepared;
    (destruct Hvi as [[db' ->]|Ht]; [|left; by rewrite Ht]);
    (destruct (decide _); [left; cbn; unfold Done; cbn; by rewrite lookup_insert_eq|by eauto]).
Qed.

(** ** The coordinator's own steps *)

(** A change of its own transaction's phase. *)
Definition set_phase (γ : ghost) (g : string) (ph : cphase) : ghost :=
  λ g', if decide (g' = g) then ph else γ g'.

Lemma set_phase_eq γ g ph : set_phase γ g ph g = ph.
Proof. unfold set_phase. by rewrite decide_True. Qed.
Lemma set_phase_ne γ g ph g' : g' ≠ g → set_phase γ g ph g' = γ g'.
Proof. intros. unfold set_phase. by rewrite decide_False. Qed.

Lemma stop_committing γ w g :
  tpc_inv (γ, w) → γ g = CFresh ∨ γ g = CBegun →
  tpc_guar (Some g) (γ, w) (set_phase γ g CGaveUp, w) ∧ tpc_inv (set_phase γ g CGaveUp, w).
Proof.
  intros Hinv Hph. apply (local_change g); [done| |].
  - split; [|done]. intros g' Hne. split_and!; cbn; [by apply set_phase_ne|done..].
  - intros ws Hws Hvi. split_and!; [|split; cbn; rewrite ?set_phase_eq; try done|done].
    + unfold view_inv in *. cbn in *. rewrite set_phase_eq.
      destruct Hph as [E|E]; rewrite E in Hvi; destruct Hvi as [H1 H2]; [|done].
      split; [by rewrite H1|]. intros sh Hsh. by apply H2.
    + unfold phase_le. destruct Hph as [-> | ->]; auto.
Qed.

Lemma begin_step γ w g ids xids w' r :
  tpc_inv (γ, w) → γ g = CFresh → is_Some (C !! g) → sql_step env_error w (OpBegin g ids xids) w' r →
  ∃ γ', tpc_guar (Some g) (γ, w) (γ', w') ∧ tpc_inv (γ', w') ∧
        γ' g = match r with RCount _ => CBegun | _ => CGaveUp end.
Proof.
  intros Hinv Hf [ws Hg] Hst.
  assert (w_rows w !! g = None) as Hr.
  { destruct (Hinv g ws Hg) as [Hvi _]. unfold view_inv in Hvi. cbn in Hvi. rewrite Hf in Hvi.
    destruct Hvi as [Hvi _]. by destruct (w_rows w !! g). }
  assert (∀ ph, ph = CBegun ∨ ph = CGaveUp →
    tpc_guar (Some g) (γ, w) (set_phase γ g ph, (sql_exec w (OpBegin g ids xids)).1) ∧
    tpc_inv (set_phase γ g ph, (sql_exec w (OpBegin g ids xids)).1)) as Hrun.
  { intros ph Hph. cbn. rewrite Hr. apply (local_change g); [done|apply only_at_rows|].
    - intros g' Hne. by apply set_phase_ne.
    - intros g' Hne. by rewrite lookup_insert_ne.
    - intros ws' Hws Hvi. split_and!; [|split; cbn; rewrite ?set_phase_eq, ?Hf; try done; by right; left|done].
      unfold view_inv in *. cbn in *. rewrite set_phase_eq, Hf in *. destruct Hvi as [_ Hvi].
      rewrite lookup_insert_eq. destruct Hph as [-> | ->]; (split; [done|]); intros sh Hsh; by apply Hvi. }
  destruct Hst as [|e He|e He|sh' g' db xid e Ho Ht He]; [| | |done].
  - destruct (Hrun CBegun) as [H1 H2]; [by left|]. eexists. split_and!; [done..|].
    cbn. rewrite Hr. by rewrite set_phase_eq.
  - exists (set_phase γ g CGaveUp). rewrite set_phase_eq. destruct (stop_committing γ w g); auto.
  - destruct (Hrun CGaveUp) as [H1 H2]; [by right|]. eexists. split_and!; [done..|]. by rewrite set_phase_eq.
Qed.

Lemma decide_commit_step γ w g ws w' r :
  tpc_inv (γ, w) → C !! g = Some ws → γ g = CBegun → (∀ sh, sh ∈ ws → Voted sh g (γ, w)) →
  sql_step env_error w (OpDecideCommit g) w' r →
  ∃ γ', tpc_guar (Some g) (γ, w) (γ', w') ∧ tpc_inv (γ', w') ∧
        match r with
        | RCount n => if n =? 1 then Comm g (γ', w') else NC g (γ', w')
        | _ => True
        end.
Proof.
  intros Hinv Hg Hb Hv Hst.
  assert (∃ γ', tpc_guar (Some g) (γ, w) (γ', (sql_exec w (OpDecideCommit g)).1) ∧
    tpc_inv (γ', (sql_exec w (OpDecideCommit g)).1) ∧
    match (sql_exec w (OpDecideCommit g)).2 with
    | RCount n => if n =? 1 then Comm g (γ', (sql_exec w (OpDecideCommit g)).1)
                  else NC g (γ', (sql_exec w (OpDecideCommit g)).1)
    | _ => True
    end) as Hrun.
  { cbn [sql_exec]. unfold decide_row.
    destruct (decide (d_state <$> w_rows w !! g = Some "preparing")) as [Hp|Hp].
    - destruct (w_rows w !! g) as [row|] eqn:Hr; [|done]. cbn in Hp. simplify_eq.
      replace (d_state row) with "preparing" by congruence. cbn [String.eqb fst snd]. cbn -[insert set_rows].
      exists (set_phase γ g CCommitted). apply and_assoc. split; [|unfold Comm; cbn; by rewrite set_phase_eq].
      apply (local_change g); [done|apply only_at_rows|].
      + intros g' Hne. by apply set_phase_ne.
      + intros g' Hne. by rewrite lookup_insert_ne.
      + intros ws' Hws Hvi. rewrite Hg in Hws. simplify_eq.
        split_and!; [|split; cbn; rewrite ?set_phase_eq, ?Hb; try done; [by right; right|rewrite Hr; cbn; congruence..]|done].
        unfold view_inv. cbn. rewrite set_phase_eq, lookup_insert_eq. split; [by left|].
        intros sh Hsh. left. destruct (Hv sh Hsh) as [_ Hv']. apply Hv'. cbn. rewrite Hr. cbn. congruence.
    - exists γ. destruct (w_rows w !! g) as [row|] eqn:Hr; cbn in Hp.
      + destruct (String.eqb_spec (d_state row) "preparing"); [congruence|]. cbn.
        split_and!; [apply (@guar_refl _ _ tpc_protocol)|done|]. right. cbn. rewrite Hr. by split.
      + cbn. split_and!; [apply (@guar_refl _ _ tpc_protocol)|done|]. right. cbn. rewrite Hr. by split. }
  destruct Hst as [|e He|e He|sh' g' db xid e Ho Ht He]; [done| | |done].
  - exists γ. split_and!; [apply (@guar_refl _ _ tpc_protocol)|done|done].
  - destruct Hrun as (γ' & H1 & H2 & _). by exists γ'.
Qed.
End Step.

End Protocol.
