(* ===== verification/Coordinator.v ===== *)
(** * The two-phase commit coordinator

    [src/internal/router/decisions.go]: the decision log, as an interface and
    as the PostgreSQL table that implements it.
    [src/internal/router/txn.go]: [twoPhaseCommit], which takes a transaction
    that wrote on several shards from its last statement to the answer the
    client gets. *)

From S2P Require Import Prelude TwoPhase.

Local Open Scope Z_scope.

(** ** The decision log *)

(** The [DecisionLog] interface; a nil error is [None]. *)
Record DecisionLog := mkLog {
  Begin : string → list Z → list string → prog (option pgerr);
  Heartbeat : string → prog (option pgerr);
  Commit : string → prog (result pgerr bool);
  Abort : string → prog (option pgerr);
  Delete : string → prog (option pgerr)
}.

(** [durable]: the statement's affected rows, or the batch's first error. *)
Definition durable (o : op) : prog (result pgerr Z) :=
  r ← call o;
  Ret (match r with
       | RCount n => Ok n
       | RErr e => Err e
       | _ => Err err_unexpected
       end).

Definition PG_Begin (gid : string) (participants : list Z) (xids : list string) : prog (option pgerr) :=
  r ← durable (OpBegin gid participants xids);
  Ret (match r with Ok _ => None | Err e => Some e end).

Definition PG_Heartbeat (gid : string) : prog (option pgerr) :=
  r ← call (OpHeartbeat gid);
  Ret (resp_err r).

Definition PG_Commit (gid : string) : prog (result pgerr bool) :=
  r ← durable (OpDecideCommit gid);
  Ret (match r with Ok n => Ok (n =? 1) | Err e => Err e end).

Definition err_already_commit (gid : string) : pgerr :=
  mkErr "" ("decision log: " ++ gid ++ " was already decided commit").

Definition PG_Abort (gid : string) : prog (option pgerr) :=
  r ← durable (OpDecideAbort gid);
  match r with
  | Err e => Ret (Some e)
  | Ok n =>
      if n =? 0 then
        q ← call (OpReadState gid);
        Ret (match q with
             | RState state => if String.eqb state "commit" then Some (err_already_commit gid) else None
             | RErr e => Some e
             | _ => None
             end)
      else Ret None
  end.

Definition PG_Delete (gid : string) : prog (option pgerr) :=
  r ← call (OpDelete gid);
  Ret (resp_err r).

Definition PGDecisionLog : DecisionLog :=
  mkLog PG_Begin PG_Heartbeat PG_Commit PG_Abort PG_Delete.

(** ** The coordinator *)

(** What the client is told: [TpcFailed], the transaction rolled back;
    [TpcNoLog], rolled back because the decision row could not be written;
    [TpcInDoubt], SQLSTATE 08007; [TpcResolverAborted], SQLSTATE 40001;
    [TpcCommitted], the COMMIT tag.  [TpcPanic] is Go's index out of range. *)
Inductive tpc_result :=
| TpcFailed (e : pgerr)
| TpcNoLog (e : pgerr)
| TpcInDoubt (e : pgerr)
| TpcResolverAborted
| TpcCommitted
| TpcPanic.

Definition resp_text (r : resp) : string := match r with RText s => s | _ => "" end.

Definition rollbackAll (gid : string) (parts : list ShardRef) : prog (list resp) :=
  each ((λ sh, OpRollback sh gid) <$> parts).

(** A participant failed to prepare: undo each one by what is known of it,
    record the abort and, when nothing failed, drop the row. *)
Definition abandon (log : DecisionLog) (gid : string) (writers : list ShardRef)
    (answers : list resp) (e : pgerr) : prog tpc_result :=
  rs ← each (zip_with (λ sh r,
         match resp_err r with
         | None => OpRollbackPrepared sh gid
         | Some _ => OpRollback sh gid
         end) writers answers);
  aerr ← Abort log gid;
  match aerr, firstError rs with
  | None, None => _ ← Delete log gid; Ret (TpcFailed e)
  | _, _ => Ret (TpcFailed e)
  end.

(** The decision is durable: commit the first participant, then the others
    at once; the row goes when all of them did. *)
Definition commitDecided (log : DecisionLog) (gid : string) (writers : list ShardRef) : prog tpc_result :=
  match writers with
  | [] => Ret TpcPanic
  | first :: rest =>
      c0 ← call (OpCommitPrepared first gid);
      cs ← each ((λ sh, OpCommitPrepared sh gid) <$> rest);
      match firstError (c0 :: cs) with
      | Some _ => Ret TpcCommitted
      | None => _ ← Delete log gid; Ret TpcCommitted
      end
  end.

(** Every participant is prepared. *)
Definition decideCommit (log : DecisionLog) (gid : string) (writers : list ShardRef) : prog tpc_result :=
  decided ← Commit log gid;
  match decided with
  | Err e => Ret (TpcInDoubt e)
  | Ok false =>
      _ ← each ((λ sh, OpRollbackPrepared sh gid) <$> writers);
      Ret TpcResolverAborted
  | Ok true => commitDecided log gid writers
  end.

Definition twoPhaseCommit (log : DecisionLog) (gid : string) (writers readers : list ShardRef) : prog tpc_result :=
  _ ← rollbackAll gid readers;
  xs ← each ((λ sh, OpXid sh gid) <$> writers);
  match firstError xs with
  | Some e => _ ← rollbackAll gid writers; Ret (TpcFailed e)
  | None =>
      begun ← Begin log gid (snd <$> writers) (resp_text <$> xs);
      match begun with
      | Some e => _ ← rollbackAll gid writers; Ret (TpcNoLog e)
      | None =>
          ps ← each ((λ sh, OpPrepare sh gid) <$> writers);
          match firstError ps with
          | Some e => abandon log gid writers ps e
          | None => decideCommit log gid writers
          end
      end
  end.

(** [heartbeatUntilDecided], the goroutine beside it, for [n] ticks: it is
    cancelled at an arbitrary one. *)
Fixpoint heartbeatUntilDecided (log : DecisionLog) (gid : string) (n : nat) : prog unit :=
  match n with
  | O => Ret tt
  | S n => _ ← Heartbeat log gid; heartbeatUntilDecided log gid n
  end.
