(* ===== verification/Resolver.v ===== *)
(** * The in-doubt transaction resolver ([src/internal/controller/resolver.go])

    One pass of the controller's resolver: read the decision log, find every
    prepared transaction of the topology, finish what is decided, abort what
    its coordinator abandoned, and roll back what no decision claims. *)

From S2P Require Import Prelude TwoPhase.

Local Open Scope Z_scope.

Definition nanosecond : Z := 1.
Definition second : Z := 1000000000 * nanosecond.
(** [src/internal/catalog/twopc.go] *)
Definition DecisionHeartbeatInterval : Z := 2 * second.
Definition MinPreparingBeats : Z := 4.
Definition DefaultPreparingTimeout : Z := 10 * second.
Definition DefaultSweepInterval : Z := 60 * second.

(** The resolver's settings and the one thing it remembers between passes. *)
Record Resolver := mkResolver {
  PreparingTimeout : Z;
  HeartbeatInterval : Z;
  SweepInterval : Z;
  lastSweep : Z
}.

Record Outcome := mkOutcome { Committed : Z; RolledBack : Z; Unresolved : Z }.

Definition count_commit (o : Outcome) : Outcome := mkOutcome (Committed o + 1) (RolledBack o) (Unresolved o).
Definition count_rollback (o : Outcome) : Outcome := mkOutcome (Committed o) (RolledBack o + 1) (Unresolved o).
Definition count_unresolved (n : Z) (o : Outcome) : Outcome := mkOutcome (Committed o) (RolledBack o) (Unresolved o + n).
Definition count_finished (commit : bool) (o : Outcome) : Outcome :=
  if commit then count_commit o else count_rollback o.

(** A shard's primary and the database a transaction was prepared in. *)
Abbreviation holder := (ShardRef * string)%type.

Definition preparingTimeout (r : Resolver) : Z :=
  let beat := if HeartbeatInterval r <=? 0 then DecisionHeartbeatInterval else HeartbeatInterval r in
  let want := if PreparingTimeout r <=? 0 then DefaultPreparingTimeout else PreparingTimeout r in
  let floor := MinPreparingBeats * beat in
  if floor <=? want then want else floor.

Definition sweepDue (r : Resolver) (now : Z) : bool :=
  let every := if SweepInterval r =? 0 then DefaultSweepInterval else SweepInterval r in
  lastSweep r + every <=? now.

Definition isGonePreparedXact (err : option pgerr) : bool :=
  match err with
  | None => false
  | Some e => String.eqb (pe_code e) "42704" || contains (pe_msg e) "does not exist"
  end.

(** ** The prepared-transaction scan *)

Definition add_holders (sh : ShardRef) (gids : gmap string string)
    (holders : gmap string (list holder)) : gmap string (list holder) :=
  union_with (λ before new, Some (before ++ new)) holders ((λ db, [(sh, db)]) <$> gids).

(** The results collected in topology order: who holds what, and which shards
    could not be searched. *)
Fixpoint collect (shards : list ShardRef) (rs : list resp)
    (holders : gmap string (list holder)) (scanErrs : list (ShardRef * pgerr)) :
    gmap string (list holder) * list (ShardRef * pgerr) :=
  match shards, rs with
  | sh :: shards, r :: rs =>
      match r with
      | RPrepared gids => collect shards rs (add_holders sh gids holders) scanErrs
      | RErr e => collect shards rs holders (scanErrs ++ [(sh, e)])
      | _ => collect shards rs holders (scanErrs ++ [(sh, err_unexpected)])
      end
  | _, _ => (holders, scanErrs)
  end.

Definition scanPrepared (shards : list ShardRef) :
    prog (gmap string (list holder) * list (ShardRef * pgerr)) :=
  rs ← each (OpListPrepared <$> shards);
  Ret (collect shards rs ∅ []).

Lemma add_holders_lookup sh gids holders g :
  default [] (add_holders sh gids holders !! g) =
  default [] (holders !! g) ++ match gids !! g with Some db => [(sh, db)] | None => [] end.
Proof.
  unfold add_holders. rewrite lookup_union_with, lookup_fmap.
  destruct (holders !! g), (gids !! g); cbn; by rewrite ?app_nil_r.
Qed.

(** A gid's holders are the shards whose answer named it. *)
Lemma collect_holders shards rs holders0 errs0 g h :
  h ∈ default [] ((collect shards rs holders0 errs0).1 !! g) ↔
  h ∈ default [] (holders0 !! g) ∨
  ∃ i m, shards !! i = Some h.1 ∧ rs !! i = Some (RPrepared m) ∧ m !! g = Some h.2.
Proof.
  revert rs holders0 errs0. induction shards as [|sh shards IH]; intros rs holders0 errs0.
  { cbn. split; [by left|]. by intros [?|(i & m & ? & _)]. }
  destruct rs as [|r rs].
  { cbn. split; [by left|]. by intros [?|(i & m & _ & ? & _)]. }
  assert (∀ holders errs, (h ∈ default [] (holders !! g) ↔ h ∈ default [] (holders0 !! g) ∨
      ∃ m, sh = h.1 ∧ r = RPrepared m ∧ m !! g = Some h.2) →
    (h ∈ default [] ((collect shards rs holders errs).1 !! g) ↔
     h ∈ default [] (holders0 !! g) ∨
     ∃ i m, (sh :: shards) !! i = Some h.1 ∧ (r :: rs) !! i = Some (RPrepared m) ∧ m !! g = Some h.2)) as Hgo.
  { intros holders errs Hh. rewrite IH, Hh. split.
    - intros [[?|(m & -> & -> & ?)]|(i & m & ? & ? & ?)]; [by left|right; by exists 0%nat, m|right; by exists (S i), m].
    - intros [?|([|i] & m & ? & ? & ?)]; simplify_eq/=; [by left; left|left; right; eauto|right; eauto]. }
  destruct r; cbn [collect]; try (apply Hgo; split; [by left|]; by intros [?|(m & _ & ? & _)]).
  apply Hgo. rewrite add_holders_lookup, elem_of_app. destruct h as [s d]; cbn. split.
  - intros [?|Hin]; [by left|right]. exists gids. destruct (gids !! g); [|by apply not_elem_of_nil in Hin].
    apply list_elem_of_singleton in Hin. by simplify_eq.
  - intros [?|(m & -> & ? & Hm)]; [by left|right]. simplify_eq. rewrite Hm. set_solver.
Qed.

(** No scan error: every shard answered. *)
Lemma collect_complete shards rs holders0 errs0 :
  length rs = length shards → (collect shards rs holders0 errs0).2 = [] →
  errs0 = [] ∧ ∀ i r, rs !! i = Some r → ∃ m, r = RPrepared m.
Proof.
  revert rs holders0 errs0. induction shards as [|sh shards IH]; intros [|r rs] holders0 errs0 Hlen He;
    simplify_eq/=; [done|].
  destruct r; cbn in He; apply IH in He; try done; destruct He as [He Hrs];
    try by destruct errs0.
  split; [done|]. intros [|i] r Hr; simplify_eq/=; eauto.
Qed.

Section Resolver.

(** The rendering of "<verb> on <set>/<id> database <db>", which prefixes the
    error of a statement; [isGonePreparedXact] reads the whole text. *)
Variable where_text : bool → holder → string.

Definition finishOn (h : holder) (commit : bool) (gid : string) : prog (option pgerr) :=
  r ← call (OpFinish h.1 h.2 commit gid);
  Ret (match resp_err r with
       | Some e => Some (mkErr (pe_code e) (where_text commit h ++ ": " ++ pe_msg e))
       | None => None
       end).

(** The loop over [holders[gid]]: what is left of it, and the error that
    stopped it. *)
Fixpoint finish_holders (gid : string) (commit : bool) (hs : list holder) :
    prog (list holder * option pgerr) :=
  match hs with
  | [] => Ret ([], None)
  | h :: hs' =>
      err ← finishOn h commit gid;
      if bool_decide (err = None) || isGonePreparedXact err
      then finish_holders gid commit hs'
      else Ret (h :: hs', err)
  end.

(** What the [preparing] branch of [resolveDecision] concludes: return, or go
    on with a state and whether the scan still counts as complete. *)
Inductive preparing_verdict :=
| PReturn (err : option pgerr)
| PGo (state : string) (complete : bool).

Definition checkPreparing (r : Resolver) (d : decision) (complete : bool) : prog preparing_verdict :=
  if String.eqb (State d) "preparing" then
    if AgeNanos d <? preparingTimeout r then Ret (PReturn None) else
    tag ← call (OpAbortStale (GID d) (preparingTimeout r));
    match tag with
    | RCount n =>
        if n =? 0 then
          q ← call (OpReadState (GID d));
          Ret (match q with
               | RState s => if String.eqb s "preparing" then PReturn None else PGo s false
               | RErr e => PReturn (Some e)
               | _ => PReturn None
               end)
        else Ret (PGo "abort" complete)
    | RErr e => Ret (PReturn (Some e))
    | _ => Ret (PReturn (Some err_unexpected))
    end
  else Ret (PGo (State d) complete).

Definition err_not_searched : pgerr :=
  mkErr "" "not every shard could be searched for the prepared transaction: keeping the decision".

Definition resolveDecision (r : Resolver) (d : decision) (holders : gmap string (list holder))
    (complete : bool) (out : Outcome) : prog (gmap string (list holder) * Outcome * option pgerr) :=
  v ← checkPreparing r d complete;
  match v with
  | PReturn err => Ret (holders, out, err)
  | PGo state complete =>
      let commit := String.eqb state "commit" in
      '(rest, err) ← finish_holders (GID d) commit (default [] (holders !! GID d));
      match err with
      | Some e => Ret (<[GID d := rest]> holders, out, Some e)
      | None =>
          let holders := delete (GID d) holders in
          if negb complete then Ret (holders, out, Some err_not_searched) else
          tag ← call (OpDeleteDecided (GID d) state);
          match resp_err tag with
          | Some e => Ret (holders, out, Some e)
          | None => Ret (holders, count_finished commit out, None)
          end
      end
  end.

(** The loop over the decisions; one left in doubt is counted and the next
    one tried. *)
Fixpoint resolveDecisions (r : Resolver) (ds : list decision) (holders : gmap string (list holder))
    (complete : bool) (out : Outcome) : prog (gmap string (list holder) * Outcome) :=
  match ds with
  | [] => Ret (holders, out)
  | d :: ds =>
      '(holders, out, err) ← resolveDecision r d holders complete out;
      resolveDecisions r ds holders complete
        (match err with Some _ => count_unresolved 1 out | None => out end)
  end.

(** ** The orphan sweep *)

Fixpoint sweepHolders (gid : string) (commit : bool) (hs : list holder) (out : Outcome) (errs : list pgerr) :
    prog (Outcome * list pgerr) :=
  match hs with
  | [] => Ret (out, errs)
  | h :: hs =>
      err ← finishOn h commit gid;
      if isGonePreparedXact err then sweepHolders gid commit hs out errs else
      match err with
      | Some e => sweepHolders gid commit hs out (errs ++ [e])
      | None => sweepHolders gid commit hs (count_finished commit out) errs
      end
  end.

(** The state a gid is swept by: its row's, or abort when no row claims it. *)
Definition orphanState (q : resp) : result pgerr string :=
  match q with
  | RState state => Ok state
  | RNoRows => Ok "abort"%string
  | RErr e => Err e
  | _ => Err err_unexpected
  end.

Fixpoint sweepGids (gids : list string) (holders : gmap string (list holder)) (out : Outcome) (errs : list pgerr) :
    prog (Outcome * list pgerr) :=
  match gids with
  | [] => Ret (out, errs)
  | gid :: gids =>
      q ← call (OpReadState gid);
      match orphanState q with
      | Err e => sweepGids gids holders out (errs ++ [e])
      | Ok state =>
          if String.eqb state "preparing" then sweepGids gids holders out errs else
          '(out, errs) ← sweepHolders gid (String.eqb state "commit") (default [] (holders !! gid)) out errs;
          sweepGids gids holders out errs
      end
  end.

Definition sweepOrphans (holders : gmap string (list holder)) (out : Outcome) : prog (Outcome * list pgerr) :=
  sweepGids (sort_strings (map_to_list holders).*1) holders out [].

(** ** One pass *)

(** [nowCheck] and [nowSweep] are the two readings of the controller's clock;
    the result is the outcome, the error, and [lastSweep] afterwards. *)
Definition Resolve (r : Resolver) (shardSet : string) (nowCheck nowSweep : Z) :
    prog (Outcome * option pgerr * Z) :=
  let out := mkOutcome 0 0 0 in
  q ← call OpReadDecisions;
  match q with
  | RDecisions decisions =>
      if bool_decide (decisions = []) && negb (sweepDue r nowCheck) then Ret (out, None, lastSweep r) else
      l ← call (OpListShards shardSet);
      match l with
      | RShards shards =>
          '(holders, scanErrs) ← scanPrepared shards;
          let last := if String.eqb shardSet "" then nowSweep else lastSweep r in
          let complete := String.eqb shardSet "" && bool_decide (scanErrs = []) in
          '(holders, out) ← resolveDecisions r decisions holders complete out;
          let out := count_unresolved (Z.of_nat (length scanErrs)) out in
          '(out, errs) ← sweepOrphans holders out;
          Ret (if bool_decide (errs = []) then out else count_unresolved 1 out, None, last)
      | RErr e => Ret (out, Some e, lastSweep r)
      | _ => Ret (out, Some err_unexpected, lastSweep r)
      end
  | RErr e => Ret (out, Some e, lastSweep r)
  | _ => Ret (out, Some err_unexpected, lastSweep r)
  end.

End Resolver.
