(* ===== verification/Atomicity.v ===== *)
(** * Atomic commit

    The coordinator ([Coordinator.twoPhaseCommit]), its heartbeat and the
    resolver ([Resolver.Resolve]) keep to the protocol of [Commitment], so
    that any number of them, interleaved statement by statement, crashing and
    failing, never commit a transaction on one shard and roll it back on
    another, nor tell a client otherwise than what happens. *)

From S2P Require Import Prelude TwoPhase Logic Commitment Coordinator Resolver.

Local Open Scope Z_scope.

Ltac stab_fact :=
  first
    [ eapply Comm_stable; eassumption | eapply NotFresh_stable; eassumption
    | eapply NC_stable; eassumption | eapply Done_stable; eassumption
    | eapply Sound_stable; eassumption | eapply Voted_stable; eassumption
    | apply AllDone_stable | apply RollbackSafe_stable; eexists; eassumption
    | apply phase_stable; eexists; eassumption ].

Create HintDb stable_facts.

(** ** Answers that mislead the resolver

    [finishOn] renders an error with the shard and the database it came from,
    and [isGonePreparedXact] looks for "does not exist" anywhere in that text.
    It is misled when the error is another one, about a role, a database or a
    host, and the transaction is still prepared. *)
Definition reads_gone (where_text : bool → holder → string) (sh : ShardRef) (db : string) (e : pgerr) : bool :=
  isGonePreparedXact (Some (mkErr (pe_code e) (where_text true (sh, db) ++ ": " ++ pe_msg e))).
Definition misread (where_text : bool → holder → string) (o : op) (w' : world) (r : resp) : Prop :=
  ∃ sh db gid e, o = OpFinish sh db true gid ∧ r = RErr e ∧
    reads_gone where_text sh db e = true ∧ prepared (w_txns w' !! (sh, gid)).
Definition careful (env_error : pgerr → Prop) (where_text : bool → holder → string) (w : world) (o : op) (w' : world) (r : resp) : Prop :=
  sql_step env_error w o w' r ∧ ¬ misread where_text o w' r.

#[export] Instance prepared_dec t : Decision (prepared t).
Proof. destruct t as [[]|]; try (right; by intros [? ?]). left. by eexists. Defined.
#[export] Instance misread_dec where_text o w' r : Decision (misread where_text o w' r).
Proof.
  destruct o as [| | | | | | | | | | | | | | | |sh db [] gid]; try (right; by intros (? & ? & ? & ? & ? & _)).
  destruct r as [| | | | | | | |e]; try (right; by intros (? & ? & ? & ? & _ & ? & _)).
  destruct (decide (reads_gone where_text sh db e = true ∧ prepared (w_txns w' !! (sh, gid)))) as [[? ?]|Hn].
  - left. by exists sh, db, gid, e.
  - right. intros (sh' & db' & gid' & e' & [= <- <- <-] & [= <-] & ? & ?). by apply Hn.
Defined.

(** Stability of an assertion, by its shape; that of a named one is a hint. *)
Ltac stab :=
  repeat first
    [ assumption | simple apply stable_pure | stab_fact | solve [eauto 2 with stable_facts nocore]
    | simple apply stable_and | simple apply stable_or
    | simple apply stable_all; intros ? | simple apply stable_pure_impl; intros ? ].

Section Atomicity.
Variable C : gmap string (list ShardRef).
Variable env_error : pgerr → Prop.
Variable where_text : bool → holder → string.
(** The databases as the resolver reads them: no answer to its [COMMIT PREPARED]
    says that the transaction is gone while it is prepared. *)
Abbreviation db_step := (careful env_error where_text).
Hypothesis gids_prefixed : ∀ g ws, C !! g = Some ws → String.prefix GIDPrefix g = true.

#[local] Instance proto : Protocol ghost string := tpc_protocol C.
Abbreviation assn := (ghost * world → Prop).
Abbreviation safe := (Logic.safe db_step).

(** ** Rules for statements *)

Lemma each_ok own (P : assn) (S : op → resp → assn) os :
  stable own P → (∀ o r, stable own (S o r)) →
  (∀ o c, o ∈ os → inv c → P c → op_ok C o c) →
  (∀ o c w' r, o ∈ os → inv c → P c → inv (c.1, w') → sql_step env_error c.2 o w' r → S o r (c.1, w')) →
  safe own (λ rs c, length rs = length os ∧ P c ∧ ∀ i o r, os !! i = Some o → rs !! i = Some r → S o r c) P (each os).
Proof.
  intros HP HS Hok Hans. unfold each.
  eapply (safe_each _ _ _ _ P (λ i r c, ∀ o, os !! i = Some o → S o r c)).
  - done.
  - done.
  - intros i r. stab.
  - done.
  - intros i o c w' r Hi Hinv HPc Hst. apply list_lookup_fmap_Some in Hi as (o' & ? & Hi). simplify_eq.
    destruct Hst as [Hst _]. apply list_elem_of_lookup_2 in Hi as Hin.
    destruct c as [γ w]. destruct (op_calm C env_error γ w o' w' r Hinv) as [Hcalm Hinv']; [by apply Hok|done|].
    split_and!; [done..|]. intros o Ho. simplify_eq. by apply (Hans _ (γ, w)).
  - intros i r c Hi. apply list_lookup_fmap_Some in Hi as (? & ? & ?). done.
  - intros rs Hlen _. rewrite length_fmap in Hlen. apply safe_ret.
    + stab.
    + intros c Hinv [HPc Hrs]. split_and!; [done..|]. intros i o r Ho Hr. by eapply Hrs.
Qed.

Lemma call_read own (P : assn) (S : resp → assn) o :
  stable own P → (∀ r, stable own (S r)) →
  (∀ c, inv c → P c → op_ok C o c) →
  (∀ c w' r, inv c → P c → inv (c.1, w') → sql_step env_error c.2 o w' r → ¬ misread where_text o w' r → S r (c.1, w')) →
  safe own (λ r c, P c ∧ S r c) P (call o).
Proof.
  intros HP HS Hok Hans. unfold call.
  eapply (safe_one _ _ _ _ (λ r c, P c ∧ S r c)).
  - done.
  - intros r. stab.
  - intros [γ w] w' r Hinv HPc [Hst Hm].
    destruct (op_calm C env_error γ w o w' r Hinv) as [Hcalm Hinv']; [by apply Hok|done|].
    exists γ. split_and!; [by apply (calm_guar own)|done| |by apply (Hans (γ, w))].
    by eapply (HP (γ, w)); [..|apply calm_rely|].
  - intros r. apply safe_ret; [stab|done].
Qed.

Lemma call_ok own (P : assn) (S : resp → assn) o :
  stable own P → (∀ r, stable own (S r)) →
  (∀ c, inv c → P c → op_ok C o c) →
  (∀ c w' r, inv c → P c → inv (c.1, w') → sql_step env_error c.2 o w' r → S r (c.1, w')) →
  safe own (λ r c, P c ∧ S r c) P (call o).
Proof. intros HP HS Hok Hans. apply call_read; [done|done|done|]. intros c w' r Hinv HPc Hinv' Hst _. by apply Hans. Qed.

(** A statement that settles the coordinator's own transaction. *)
Lemma call_own_ok own (P : assn) (S : resp → assn) o :
  stable own P → (∀ r, stable own (S r)) →
  (∀ c w' r, inv c → P c → sql_step env_error c.2 o w' r →
     ∃ γ', guar own c (γ', w') ∧ inv (γ', w') ∧ S r (γ', w')) →
  safe own S P (call o).
Proof.
  intros HP HS Hst. unfold call. eapply (safe_one _ _ _ _ S); [done|done| |].
  - intros c w' r Hinv HPc [Hdb _]. by apply Hst.
  - intros r. by apply safe_ret.
Qed.

(** A statement about which nothing has to be known. *)
Lemma call_free own (P : assn) o :
  stable own P → (∀ c, inv c → P c → op_ok C o c) → safe own (λ _, P) P (call o).
Proof.
  intros HP Hok. eapply safe_conseq, (call_ok own P (λ _ _, True)); [done|done| |done| |done|done].
  - by intros r c _ [? _].
  - intros r. stab.
Qed.

Lemma each_free own (P : assn) os :
  stable own P → (∀ o c, o ∈ os → inv c → P c → op_ok C o c) → safe own (λ _, P) P (each os).
Proof.
  intros HP Hok. eapply safe_conseq, (each_ok own P (λ _ _ _, True)); [done|done| |done| |done|done].
  - by intros rs c _ (_ & ? & _).
  - intros o r. stab.
Qed.

Lemma firstError_none rs r : firstError rs = None → r ∈ rs → resp_err r = None.
Proof.
  unfold firstError. intros Hf Hr. destruct (resp_err r) as [e|] eqn:He; [|done].
  assert (e ∈ omap resp_err rs) as Hin by (apply list_elem_of_omap; eauto).
  destruct (omap resp_err rs); [by apply not_elem_of_nil in Hin|done].
Qed.

(** The answers of one statement per shard, shard by shard. *)
Lemma answers_all (f : ShardRef → op) shs rs (S : op → resp → Prop) :
  length rs = length (f <$> shs) →
  (∀ i o r, (f <$> shs) !! i = Some o → rs !! i = Some r → S o r) →
  ∀ sh, sh ∈ shs → ∃ r, r ∈ rs ∧ S (f sh) r.
Proof.
  rewrite length_fmap. intros Hlen HS sh Hsh. apply list_elem_of_lookup in Hsh as [i Hi].
  destruct (lookup_lt_is_Some_2 rs i) as [r Hr]. { rewrite Hlen. by eapply lookup_lt_Some. }
  exists r. split; [by eapply list_elem_of_lookup_2|]. eapply HS; [|done]. by rewrite list_lookup_fmap, Hi.
Qed.

Lemma safe_mbind {A B} own (R : A → assn) (Q : B → assn) P (p : prog A) (f : A → prog B) :
  safe own R P p → (∀ a, safe own Q (R a) (f a)) → safe own Q P (p ≫= f).
Proof. apply safe_bind. Qed.

(** Weakening the precondition. *)
Lemma safe_pre {A} own (Q : A → assn) (P P' : assn) p :
  stable own P' → (∀ c, inv c → P' c → P c) → safe own Q P p → safe own Q P' p.
Proof. intros. eapply safe_conseq; eauto. Qed.

(** ** The coordinator *)

Section Coordinator.
Variables (g : string) (ws : list ShardRef).
Hypothesis Hg : C !! g = Some ws.

(** What may be said to the client. *)
Definition tpc_post (r : tpc_result) : assn :=
  match r with
  | TpcCommitted => Comm g
  | TpcFailed _ | TpcNoLog _ | TpcResolverAborted => NC g
  | TpcInDoubt _ | TpcPanic => λ _, True
  end.

Definition InPhase (ph : cphase) : assn := λ c, c.1 g = ph.

Lemma InPhase_stable ph : stable (Some g) (InPhase ph).
Proof. apply phase_stable. by eexists. Qed.

Lemma GaveUp_NC c : InPhase CGaveUp c → NC g c.
Proof. by left. Qed.

Lemma AllSound_stable : stable (Some g) (λ c, ∀ sh, sh ∈ ws → Sound sh g c).
Proof. stab. Qed.

Lemma AllVoted_stable : stable (Some g) (λ c, ∀ sh, sh ∈ ws → Voted sh g c).
Proof. stab. Qed.

#[local] Hint Resolve InPhase_stable AllSound_stable AllVoted_stable : stable.

Lemma safe_abandon {A} (Q : A → assn) (P : assn) p :
  stable (Some g) P → (∀ c, inv c → P c → InPhase CFresh c ∨ InPhase CBegun c) →
  safe (Some g) Q (InPhase CGaveUp) p → safe (Some g) Q P p.
Proof.
  intros HP Hph Hs. apply (safe_shift _ _ _ _ (InPhase CGaveUp)); [done| |done].
  intros [γ w] Hinv HPc. exists (set_phase γ g CGaveUp).
  destruct (stop_committing C γ w g Hinv) as [H1 H2]; [exact (Hph (γ, w) Hinv HPc)|].
  split_and!; [done..|]. apply set_phase_eq.
Qed.

Lemma rollbackAll_safe (P : assn) parts :
  stable (Some g) P → safe (Some g) (λ _, P) P (rollbackAll g parts).
Proof.
  intros HP. apply each_free; [done|]. intros o c Ho _ _.
  apply list_elem_of_fmap in Ho as (sh & -> & _). done.
Qed.

Lemma Delete_safe (P : assn) :
  stable (Some g) P → (∀ c, inv c → P c → RollbackSafe C g c) →
  safe (Some g) (λ _, P) P (Delete PGDecisionLog g).
Proof.
  intros HP HR. eapply safe_mbind; [apply call_free; [done|]|].
  - intros c Hinv HPc _. by apply HR.
  - intros r. by apply safe_ret.
Qed.

Lemma Abort_safe (P : assn) : stable (Some g) P → safe (Some g) (λ _, P) P (Abort PGDecisionLog g).
Proof.
  intros HP. eapply safe_mbind.
  - eapply safe_mbind; [by apply call_free|]. intros r. apply (safe_ret _ _ (λ _, P)); done.
  - intros [n|e]; [|by apply safe_ret]. destruct (n =? 0); [|by apply safe_ret].
    eapply safe_mbind; [by apply call_free|]. intros q. by apply safe_ret.
Qed.

Lemma abandon_safe ps e : safe (Some g) tpc_post (InPhase CGaveUp) (abandon PGDecisionLog g ws ps e).
Proof.
  assert (∀ c, InPhase CGaveUp c → RollbackSafe C g c) as HR by (intros c Hc; left; by apply GaveUp_NC).
  eapply safe_mbind; [apply each_free; [auto with stable|]|].
  - intros o c Ho _ Hc. apply list_elem_of_lookup in Ho as [i Hi].
    apply lookup_zip_with_Some in Hi as (sh & r & -> & _ & _).
    destruct (resp_err r); [done|]. intros ? ? ?. by apply HR.
  - intros rs. eapply safe_mbind; [apply Abort_safe; auto with stable|].
    intros aerr. destruct aerr as [ae|]; [|destruct (firstError rs) as [re|]].
    1-2: apply safe_ret; [auto with stable|intros c _; apply GaveUp_NC].
    eapply safe_mbind; [apply Delete_safe; auto with stable|].
    intros ?. apply safe_ret; [auto with stable|intros c _; apply GaveUp_NC].
Qed.

Definition all_done_of (shs : list ShardRef) : assn := λ c, ∀ sh, sh ∈ shs → sh ∈ ws → Done sh g c.

Lemma all_done_of_stable own shs : stable own (all_done_of shs).
Proof. unfold all_done_of. stab. Qed.

Lemma commitDecided_safe : safe (Some g) tpc_post (Comm g) (commitDecided PGDecisionLog g ws).
Proof.
  assert (∀ own, stable own (Comm g)) as Hst by (intros own; stab).
  unfold commitDecided. destruct ws as [|first rest] eqn:Hws; [by apply safe_ret|]. rewrite <- Hws in *.
  eapply safe_mbind; [apply (call_ok (Some g) (Comm g) (λ r c, resp_err r = None → Done first g c))|].
  - done.
  - intros r. apply stable_pure_impl. intros _. eapply Done_stable; [done|]. rewrite Hws. set_solver.
  - by intros c Hinv Hc ws' _ _.
  - intros [γ w] w' r Hinv Hc _ Hstep Hr.
    destruct (commit_answer C env_error γ w first "" g ws w' r _ Hinv Hg ltac:(rewrite Hws; set_solver) Hc (or_introl eq_refl) Hstep)
      as [|(e & -> & _)]; done.
  - intros c0. cbn [fst snd].
    eapply safe_mbind; [apply (each_ok (Some g) (λ c, Comm g c ∧ (resp_err c0 = None → Done first g c))
      (λ o r c, ∀ sh, o = OpCommitPrepared sh g → sh ∈ ws → resp_err r = None → Done sh g c))|].
    + stab. eapply Done_stable; [done|]. rewrite Hws. set_solver.
    + intros o r. stab.
    + intros o c Ho _ [Hc _]. apply list_elem_of_fmap in Ho as (sh & -> & _). by intros ws' _ _.
    + intros o [γ w] w' r Ho Hinv [Hc _] _ Hstep sh -> Hsh Hr.
      destruct (commit_answer C env_error γ w sh "" g ws w' r _ Hinv Hg Hsh Hc (or_introl eq_refl) Hstep) as [|(e & -> & _)]; done.
    + intros cs. destruct (firstError (c0 :: cs)) as [e|] eqn:Hf.
      * apply safe_ret; [|by intros c _ (_ & [? _] & _)].
        stab; eapply Done_stable; [done|]. rewrite Hws. set_solver.
      * eapply (safe_pre _ _ (λ c, Comm g c ∧ AllDone C g c)).
        -- stab; eapply Done_stable; [done|]. rewrite Hws. set_solver.
        -- intros c _ (Hlen & [Hc H0] & Hcs). split; [done|]. intros ws' Hg' sh Hsh.
           assert (ws' = ws) as -> by congruence. pose proof Hsh as Hin.
           rewrite Hws in Hsh. apply elem_of_cons in Hsh as [->|Hsh].
           { apply H0. eapply firstError_none; [done|set_solver]. }
           destruct (answers_all (λ sh, OpCommitPrepared sh g) rest cs _ Hlen Hcs sh Hsh) as (r & Hr & HS).
           apply HS; [done..|]. eapply firstError_none; [done|]. set_solver.
        -- eapply safe_mbind; [apply Delete_safe; [stab|]|].
           ++ intros c _ [_ Hd]. by right.
           ++ intros ?. apply safe_ret; [stab|]. by intros c _ [Hc _].
Qed.

(** Prepared everywhere, and nothing else decided yet. *)
Definition Ready : assn := λ c, InPhase CBegun c ∧ ∀ sh, sh ∈ ws → Voted sh g c.
Lemma Ready_stable : stable (Some g) Ready.
Proof. apply stable_and; auto with stable. Qed.

Lemma Commit_safe :
  safe (Some g) (λ d c, match d with Ok true => Comm g c | Ok false => NC g c | Err _ => True end)
    Ready (Commit PGDecisionLog g).
Proof.
  eapply safe_mbind.
  - eapply safe_mbind; [apply (call_own_ok (Some g) Ready
      (λ r c, match r with RCount n => if n =? 1 then Comm g c else NC g c | _ => True end))|].
    + apply Ready_stable.
    + intros r. destruct r; stab. destruct (_ =? 1); stab.
    + intros [γ w] w' r Hinv [Hb Hv] Hst. by apply (decide_commit_step C env_error γ w g ws w' r).
    + intros r. apply (safe_ret _ _ (λ d c, match d with Ok n => if n =? 1 then Comm g c else NC g c | Err _ => True end)).
      * destruct r; stab. destruct (_ =? 1); stab.
      * by intros c _; destruct r.
  - intros [n|e]; apply safe_ret; [destruct (n =? 1); stab|by intros c _; destruct (n =? 1)|stab|done].
Qed.

Lemma decideCommit_safe : safe (Some g) tpc_post Ready (decideCommit PGDecisionLog g ws).
Proof.
  eapply safe_mbind; [apply Commit_safe|]. intros [[|]|e].
  - apply commitDecided_safe.
  - eapply safe_mbind; [apply each_free; [stab|]|].
    + intros o c Ho _ Hn. apply list_elem_of_fmap in Ho as (sh & -> & _). intros ws' _ _. by left.
    + intros ?. apply safe_ret; [stab|done].
  - apply safe_ret; [stab|done].
Qed.

(** Every session answered, so none is in an aborted block. *)
Definition Begun : assn := λ c, InPhase CBegun c ∧ ∀ sh, sh ∈ ws → Sound sh g c.
Lemma Begun_stable : stable (Some g) Begun.
Proof. apply stable_and; auto with stable. Qed.

Lemma Begin_safe ids xids :
  safe (Some g) (λ e c, match e with None => Begun c | Some _ => InPhase CGaveUp c end)
    (λ c, InPhase CFresh c ∧ ∀ sh, sh ∈ ws → Sound sh g c) (Begin PGDecisionLog g ids xids).
Proof.
  assert (∀ r, stable (Some g) (λ c, match r with RCount _ => Begun c | _ => InPhase CGaveUp c end)) as Hst.
  { intros r. destruct r; auto using Begun_stable, InPhase_stable. }
  eapply safe_mbind.
  - eapply safe_mbind; [apply (call_own_ok (Some g) (λ c, InPhase CFresh c ∧ ∀ sh, sh ∈ ws → Sound sh g c)
      (λ r c, match r with RCount _ => Begun c | _ => InPhase CGaveUp c end))|].
    + apply stable_and; auto with stable.
    + done.
    + intros [γ w] w' r Hinv [Hb Hs] Hstep.
      destruct (begin_step C env_error γ w g ids xids w' r Hinv Hb (mk_is_Some _ _ Hg) Hstep) as (γ' & Hgu & Hinv' & Hph).
      exists γ'. split_and!; [done..|]. destruct r; try done. split; [done|].
      intros sh Hsh. destruct (Hgu g ws Hg) as [Hm _]. apply (mv_failed _ _ _ Hm sh Hsh). by apply Hs.
    + intros r. apply (safe_ret _ _ (λ d c, match d with Ok n => Begun c | Err _ => InPhase CGaveUp c end)); [done|].
      by intros c _; destruct r.
  - intros [n|e]; (apply safe_ret; [|done]); auto using Begun_stable, InPhase_stable.
Qed.

Lemma prepare_safe :
  safe (Some g) (λ rs c, Begun c ∧ (firstError rs = None → ∀ sh, sh ∈ ws → Voted sh g c)) Begun
    (each ((λ sh, OpPrepare sh g) <$> ws)).
Proof.
  eapply safe_conseq; [apply Begun_stable|by intros| |apply (each_ok (Some g) Begun
    (λ o r c, ∀ sh, o = OpPrepare sh g → sh ∈ ws → resp_err r = None → Voted sh g c))].
  - intros rs c _ (Hlen & Hb & Hrs). split; [done|]. intros Hf sh Hsh.
    destruct (answers_all (λ sh, OpPrepare sh g) ws rs _ Hlen Hrs sh Hsh) as (r & Hr & HS).
    apply HS; [done..|]. by eapply firstError_none.
  - apply Begun_stable.
  - intros o r. stab.
  - intros o c Ho _ [Hb _]. apply list_elem_of_fmap in Ho as (sh & -> & _). intros ws' _ _.
    unfold NotFresh. by rewrite Hb.
  - intros o [γ w] w' r Ho Hinv [Hb Hs] _ Hstep sh -> Hsh Hr.
    by eapply (prepare_answer env_error γ w); [| |apply Hs|].
Qed.

Lemma xids_safe (P : assn) :
  stable (Some g) P →
  safe (Some g) (λ rs c, P c ∧ (firstError rs = None → ∀ sh, sh ∈ ws → Sound sh g c)) P
    (each ((λ sh, OpXid sh g) <$> ws)).
Proof.
  intros HP. eapply safe_conseq; [done|by intros| |apply (each_ok (Some g) P
    (λ o r c, ∀ sh, o = OpXid sh g → sh ∈ ws → resp_err r = None → Sound sh g c))].
  - intros rs c _ (Hlen & Hb & Hrs). split; [done|]. intros Hf sh Hsh.
    destruct (answers_all (λ sh, OpXid sh g) ws rs _ Hlen Hrs sh Hsh) as (r & Hr & HS).
    apply HS; [done..|]. by eapply firstError_none.
  - done.
  - intros o r. stab.
  - intros o c Ho _ _. by apply list_elem_of_fmap in Ho as (sh & -> & _).
  - intros o [γ w] w' r Ho Hinv _ _ Hstep sh -> Hsh Hr. by eapply xid_answer.
Qed.

Lemma twoPhaseCommit_safe readers :
  safe (Some g) tpc_post (InPhase CFresh) (twoPhaseCommit PGDecisionLog g ws readers).
Proof.
  eapply safe_mbind; [apply rollbackAll_safe; auto with stable|]. intros ?.
  eapply safe_mbind; [apply xids_safe; auto with stable|]. intros xs.
  destruct (firstError xs) as [e|] eqn:Hxs.
  { apply safe_abandon; [apply stable_and; [auto with stable|stab]|intros c _ [? _]; by left|].
    eapply safe_mbind; [apply rollbackAll_safe; auto with stable|].
    intros ?. apply safe_ret; [auto with stable|intros c _; apply GaveUp_NC]. }
  eapply safe_mbind; [eapply safe_pre; [| |apply Begin_safe]|].
  { apply stable_and; [auto with stable|stab]. }
  { intros c _ [Hf Hs]. split; [done|exact (Hs Hxs)]. }
  intros [e|].
  { eapply safe_mbind; [apply rollbackAll_safe; auto with stable|].
    intros ?. apply safe_ret; [auto with stable|intros c _; apply GaveUp_NC]. }
  eapply safe_mbind; [apply prepare_safe|]. intros ps.
  destruct (firstError ps) as [e|] eqn:Hps.
  - apply safe_abandon; [|intros c _ [[? _] _]; by right|apply abandon_safe].
    apply stable_and; [apply Begun_stable|stab].
  - eapply safe_pre; [| |apply decideCommit_safe].
    + apply stable_and; [apply Begun_stable|stab].
    + intros c _ [[Hb _] Hv]. split; [done|]. exact (Hv Hps).
Qed.
End Coordinator.

Lemma heartbeat_safe g n (P : assn) own :
  stable own P → safe own (λ _, P) P (heartbeatUntilDecided PGDecisionLog g n).
Proof.
  intros HP. induction n as [|n IH]; [by apply safe_ret|]. cbn [heartbeatUntilDecided].
  eapply safe_mbind; [|intros ?; apply IH].
  eapply safe_mbind; [by apply call_free|]. intros r. by apply safe_ret.
Qed.

(** ** The resolver *)

Section Resolver.
Variable own : option string.

(** Finishing [gid] on [h] is harmless. *)
Definition MayFinish (gid : string) (commit : bool) (h : holder) : assn :=
  λ c, ∀ ws, C !! gid = Some ws → h.1 ∈ ws → if commit then Comm gid c else RollbackSafe C gid c.
(** [gid] is committed where [h] says, if [h] is a participant. *)
Definition DoneAt (gid : string) (h : holder) : assn :=
  λ c, ∀ ws, C !! gid = Some ws → h.1 ∈ ws → Done h.1 gid c.

Lemma DoneAt_stable gid h : stable own (DoneAt gid h).
Proof. unfold DoneAt. stab. Qed.
Lemma MayFinish_stable gid commit h : stable own (MayFinish gid commit h).
Proof. unfold MayFinish. stab. destruct commit; stab. Qed.
#[local] Hint Resolve DoneAt_stable MayFinish_stable : stable_facts.

Lemma finishOn_safe (P : assn) h commit gid :
  stable own P → (∀ c, inv c → P c → MayFinish gid commit h c) →
  safe own (λ err c, P c ∧ (commit = true → err = None ∨ isGonePreparedXact err = true → DoneAt gid h c)) P
    (finishOn where_text h commit gid).
Proof.
  intros HP Hok. eapply safe_mbind.
  - apply (call_read own P (λ r c, commit = true →
      (∀ e, r = RErr e → isGonePreparedXact (Some (mkErr (pe_code e) (where_text commit h ++ ": " ++ pe_msg e))) = true) →
      DoneAt gid h c)); [done|intros r; stab| |].
    + intros c Hinv Hc. specialize (Hok c Hinv Hc). by destruct commit.
    + intros [γ w] w' r Hinv Hc Hinv' Hst Hm -> Hgone ws Hws Hsh.
      pose proof (Hok _ Hinv Hc ws Hws Hsh) as Hcomm.
      destruct (commit_answer C env_error γ w h.1 h.2 gid ws w' r _ Hinv Hws Hsh Hcomm
        (or_intror eq_refl) Hst) as [|(e & -> & He)]; [done|].
      destruct (Comm_fate C gid ws Hws (γ, w') h.1 Hinv' Hcomm Hsh) as [Hp|Hd]; [|done].
      destruct Hm. exists h.1, h.2, gid, e. split_and!; [done|done| |done]. destruct h. by apply Hgone.
  - intros r. apply safe_ret; [stab|].
    intros c _ [HPc Hr]. split; [done|]. intros Hcm Herr. apply Hr; [done|]. intros e ->. cbn in Herr.
    by destruct Herr as [|Herr].
Qed.

Lemma finish_holders_safe (P : assn) gid commit hs :
  stable own P → (∀ h c, h ∈ hs → inv c → P c → MayFinish gid commit h c) →
  safe own (λ '(rest, err) c, P c ∧ (err = None → rest = []) ∧ (∀ h, h ∈ rest → h ∈ hs) ∧
      (commit = true → ∀ h, h ∈ hs → h ∈ rest ∨ DoneAt gid h c)) P
    (finish_holders where_text gid commit hs).
Proof.
  revert P. induction hs as [|h hs IH]; intros P HP Hok.
  { apply safe_ret; [done|]. intros c _ HPc. split_and!; [done..|]. intros _ h Hh. by apply not_elem_of_nil in Hh. }
  cbn [finish_holders]. eapply safe_mbind; [apply finishOn_safe; [done|intros c; apply Hok; set_solver]|].
  intros err. case_match eqn:Hgo.
  - assert (err = None ∨ isGonePreparedXact err = true) as Hg.
    { apply orb_true_iff in Hgo as [?%bool_decide_eq_true|?]; auto. }
    eapply safe_conseq; [| | |apply (IH (λ c, P c ∧ (commit = true → DoneAt gid h c)))].
    + stab.
    + intros c _ [HPc Hd]. auto.
    + intros [rest err'] c _ ((H1 & H2) & H3 & H4 & H5). split_and!; [done..|set_solver|].
      intros Hc h' Hh'. apply elem_of_cons in Hh' as [->|Hh']; auto.
    + stab.
    + intros h' c Hh' Hinv [HPc _]. apply Hok; [set_solver|done..].
  - apply safe_ret; [stab|]. intros c _ [HPc _]. split_and!; [done| |done|by left].
    intros ->. done.
Qed.

(** What a row, read once, settles for good. *)
Definition Settled (gid state : string) : assn :=
  λ c, ∀ ws, C !! gid = Some ws →
    (state = "commit" → Comm gid c) ∧ (state ≠ "preparing" → state ≠ "commit" → NC gid c).
Definition DecisionRead (d : decision) : assn := Settled (GID d) (State d).

Lemma Settled_stable gid state : stable own (Settled gid state).
Proof. unfold Settled. stab. Qed.
Lemma DecisionRead_stable d : stable own (DecisionRead d).
Proof. apply Settled_stable. Qed.
#[local] Hint Resolve Settled_stable DecisionRead_stable : stable_facts.

Lemma checkPreparing_safe (P : assn) r d complete :
  stable own P → (∀ c, inv c → P c → DecisionRead d c) →
  safe own (λ v c, P c ∧
      match v with
      | PReturn _ => True
      | PGo state complete' => state ≠ "preparing" ∧ Settled (GID d) state c ∧
          (complete' = true → complete = true ∧ (state = "commit" → State d = "commit"))
      end) P (checkPreparing r d complete).
Proof.
  intros HP HD. unfold checkPreparing. destruct (String.eqb_spec (State d) "preparing") as [Hs|Hs].
  2: { apply safe_ret; [done|]. intros c Hinv HPc. split_and!; [done..|by apply HD|done]. }
  destruct (_ <? _); [by apply safe_ret|].
  eapply safe_mbind; [apply (call_ok own P (λ a c, ∀ n, a = RCount n → n ≠ 0 → Settled (GID d) "abort" c));
    [done|intros a; stab|done|]|].
  { intros [γ w] w' a Hinv _ _ Hst n -> Hn ws Hws. split; [done|]. intros _ _.
    by eapply (abort_stale_answer C env_error γ w). }
  intros tag. destruct tag as [|n| | | | | | |e]; try (apply safe_ret; [stab|by intros c _ [? _]]).
  destruct (Z.eqb_spec n 0) as [->|Hn].
  2: { apply safe_ret; [stab|]. intros c _ [HPc Ha]. split_and!; [done..|by eapply Ha|done]. }
  apply (safe_pre _ _ P); [stab|by intros c _ [? _]|].
  eapply safe_mbind; [apply (call_ok own P (λ a c, ∀ s, a = RState s → Settled (GID d) s c))|].
  - done.
  - intros a. stab.
  - done.
  - intros [γ w] w' a Hinv _ _ Hst s -> ws Hws.
    pose proof (read_state_answer C env_error γ w (GID d) ws w' _ Hinv Hws Hst) as Ha. cbn in Ha.
    destruct (String.eqb_spec s "commit"); split; auto; done.
  - intros q. apply safe_ret; [stab|]. intros c _ [HPc Hq]. destruct q as [| |s| | | | | |]; try done.
    destruct (String.eqb_spec s "preparing"); [done|]. split_and!; [done..|by apply Hq|done].
Qed.

(** ** The state of a pass *)

(** Whoever holds a transaction prepared, its row was written. *)
Definition HoldersBegun (holders : gmap string (list holder)) : assn :=
  λ c, ∀ g ws h, C !! g = Some ws → h ∈ default [] (holders !! g) → h.1 ∈ ws → NotFresh g c.
(** After a complete scan, a participant of a transaction decided commit has
    committed or is still listed. *)
Definition HoldersCover (holders : gmap string (list holder)) (complete : bool) (ds : list decision) : assn :=
  λ c, complete = true → ∀ d, d ∈ ds → State d = "commit" → ∀ ws, C !! GID d = Some ws → ∀ sh, sh ∈ ws →
    Done sh (GID d) c ∨ ∃ db, (sh, db) ∈ default [] (holders !! GID d).
Definition DecisionsRead (ds : list decision) : assn := λ c, ∀ d, d ∈ ds → DecisionRead d c.

Definition PassState holders complete ds : assn :=
  λ c, HoldersBegun holders c ∧ HoldersCover holders complete ds c ∧ DecisionsRead ds c.

Lemma HoldersBegun_stable holders : stable own (HoldersBegun holders).
Proof. unfold HoldersBegun. stab. Qed.
Lemma DecisionsRead_stable ds : stable own (DecisionsRead ds).
Proof. unfold DecisionsRead. stab. Qed.
#[local] Hint Resolve HoldersBegun_stable DecisionsRead_stable : stable_facts.
Lemma PassState_stable holders complete ds : stable own (PassState holders complete ds).
Proof. unfold PassState, HoldersCover. stab. Qed.
#[local] Hint Resolve PassState_stable : stable_facts.

(** Forgetting a decision and changing what its gid's holders are. *)
Lemma PassState_next holders holders' complete d ds c :
  GID d ∉ GID <$> ds → (∀ g, g ≠ GID d → holders' !! g = holders !! g) →
  (∀ h, h ∈ default [] (holders' !! GID d) → h ∈ default [] (holders !! GID d)) →
  PassState holders complete (d :: ds) c → PassState holders' complete ds c.
Proof.
  intros Hnew Hother Hsub (Hb & Hcov & Hread). split_and!.
  - intros g ws h Hg Hh. apply (Hb g ws h Hg). destruct (decide (g = GID d)) as [->|Hne]; [by apply Hsub|].
    by rewrite <- Hother.
  - intros Hc d' Hd'. assert (GID d' ≠ GID d) as Hne. { intros E. apply Hnew. rewrite <- E. by apply list_elem_of_fmap_2. }
    rewrite Hother by done. apply Hcov; [done|set_solver].
  - intros d' Hd'. apply Hread. set_solver.
Qed.

Lemma resolveDecision_safe r d ds holders complete out :
  GID d ∉ GID <$> ds →
  safe own (λ '(holders', _, _), PassState holders' complete ds) (PassState holders complete (d :: ds))
    (resolveDecision where_text r d holders complete out).
Proof.
  intros Hnew. eapply safe_mbind; [apply checkPreparing_safe; [apply PassState_stable|]|].
  { intros c _ (_ & _ & Hr). apply Hr. set_solver. }
  intros [err|state complete'].
  { apply safe_ret; [stab|]. intros c _ [HP _]. by eapply PassState_next. }
  set (commit := String.eqb state "commit"). set (hs := default [] (holders !! GID d)).
  eapply safe_mbind; [apply (finish_holders_safe _ (GID d) commit hs)|].
  { stab. }
  { intros h c Hh _ (_ & Hnp & Hs & _) ws Hws _. destruct (Hs ws Hws) as [H1 H2]. unfold commit.
    destruct (String.eqb_spec state "commit"); [auto|left; auto]. }
  intros [rest err].
  assert (stable own (λ c, (PassState holders complete (d :: ds) c ∧ state ≠ "preparing" ∧ Settled (GID d) state c ∧
      (complete' = true → complete = true ∧ (state = "commit" → State d = "commit"))) ∧
    (err = None → rest = []) ∧ (∀ h, h ∈ rest → h ∈ hs) ∧ (commit = true → ∀ h, h ∈ hs → h ∈ rest ∨ DoneAt (GID d) h c))) as Hst.
  { stab. }
  destruct err as [e|].
  { apply safe_ret; [done|]. intros c _ ((HP & _) & _ & Hsub & _). eapply PassState_next; [done| | |done].
    - intros g Hne. by rewrite lookup_insert_ne.
    - rewrite lookup_insert_eq. by apply Hsub. }
  assert (∀ c, PassState holders complete (d :: ds) c → PassState (delete (GID d) holders) complete ds c) as Hdel.
  { intros c HP. eapply PassState_next; [done| | |done].
    - intros g Hne. by rewrite lookup_delete_ne.
    - rewrite lookup_delete_eq. intros h Hh. by apply not_elem_of_nil in Hh. }
  destruct complete'; cbn [negb].
  2: { apply safe_ret; [done|]. intros c _ ((HP & _) & _). by apply Hdel. }
  eapply safe_mbind; [apply call_free; [done|]|].
  - intros c _ ((HP & _ & _ & Hcomp) & Hrest & _ & Hdone) Hc ws Hws sh Hsh.
    destruct (Hcomp eq_refl) as [Hcompl Hd]. destruct HP as (_ & Hcov & _).
    destruct (Hcov Hcompl d (list_elem_of_here d ds) (Hd Hc) ws Hws sh Hsh) as [|[db Hdb]]; [done|].
    assert (commit = true) as Hcm by (unfold commit; by rewrite Hc).
    destruct (Hdone Hcm _ Hdb) as [Hin|Hat]; [|by apply (Hat ws)].
    rewrite (Hrest eq_refl) in Hin. by apply not_elem_of_nil in Hin.
  - intros tag. destruct (resp_err tag); (apply safe_ret; [done|]); intros c _ ((HP & _) & _); by apply Hdel.
Qed.

Lemma resolveDecisions_safe r ds holders complete out :
  NoDup (GID <$> ds) →
  safe own (λ '(holders', _), PassState holders' complete []) (PassState holders complete ds)
    (resolveDecisions where_text r ds holders complete out).
Proof.
  revert holders out. induction ds as [|d ds IH]; intros holders out Hnd.
  { apply safe_ret; [apply PassState_stable|done]. }
  cbn in Hnd. apply NoDup_cons in Hnd as [Hnew Hnd]. cbn [resolveDecisions].
  eapply safe_mbind; [by apply resolveDecision_safe|]. intros [[holders' out'] err]. by apply IH.
Qed.

(** ** The sweep *)

Lemma sweepHolders_safe (P : assn) gid commit hs out errs :
  stable own P → (∀ h c, h ∈ hs → inv c → P c → MayFinish gid commit h c) →
  safe own (λ _, P) P (sweepHolders where_text gid commit hs out errs).
Proof.
  intros HP. revert out errs. induction hs as [|h hs IH]; intros out errs Hok; [by apply safe_ret|].
  cbn [sweepHolders].
  assert (∀ out errs, safe own (λ _, P) P (sweepHolders where_text gid commit hs out errs)) as Hgo.
  { intros. apply IH. intros h' c Hh'. apply Hok. set_solver. }
  eapply (safe_mbind _ (λ _, P)).
  - eapply safe_conseq; [done|by intros| |apply (finishOn_safe P h commit gid); [done|intros c; apply Hok; set_solver]].
    by intros err c _ [? _].
  - intros err. destruct (isGonePreparedXact err); [done|]. by destruct err.
Qed.

Lemma sweepGids_safe gids holders out errs :
  safe own (λ _, HoldersBegun holders) (HoldersBegun holders) (sweepGids where_text gids holders out errs).
Proof.
  pose proof (HoldersBegun_stable holders) as HP.
  revert out errs. induction gids as [|g gids IH]; intros out errs; [by apply safe_ret|].
  cbn [sweepGids].
  eapply safe_mbind; [apply (call_ok own (HoldersBegun holders) (λ a c, ∀ state, orphanState a = Ok state →
    state ≠ "preparing" → ∀ h, h ∈ default [] (holders !! g) → MayFinish g (String.eqb state "commit") h c))|].
  - done.
  - intros a. stab.
  - done.
  - intros [γ w] w' a Hinv Hb _ Hst state Hq Hnp h Hh ws Hws Hin.
    pose proof (read_state_answer C env_error γ w g ws w' _ Hinv Hws Hst) as Ha.
    destruct a as [| |s| | | | | |]; cbn in Hq; simplify_eq.
    + destruct (String.eqb_spec state "commit"); [done|left; by apply Ha].
    + apply Ha. by eapply Hb.
  - intros a. destruct (orphanState a) as [state|e] eqn:Hq.
    2: { apply (safe_pre _ _ (HoldersBegun holders)); [stab|by intros c _ [? _]|apply IH]. }
    destruct (String.eqb_spec state "preparing") as [Hs|Hs].
    { apply (safe_pre _ _ (HoldersBegun holders)); [stab|by intros c _ [? _]|apply IH]. }
    eapply safe_mbind; [eapply sweepHolders_safe; [stab|]|].
    + intros h c Hh _ [_ Hm]. by apply (Hm state).
    + intros [out' errs'].
      apply (safe_pre _ _ (HoldersBegun holders)); [stab|by intros c _ [? _]|apply IH].
Qed.

(** What one shard's list of prepared transactions tells of [g]. *)
Definition Scanned (ds : list decision) (sh : ShardRef) (m : gmap string string) : assn :=
  λ c, ∀ g ws, C !! g = Some ws → sh ∈ ws →
    (is_Some (m !! g) → NotFresh g c) ∧
    (m !! g = None → (∃ d, d ∈ ds ∧ GID d = g ∧ State d = "commit") → Done sh g c).

Lemma Scanned_stable ds sh m : stable own (Scanned ds sh m).
Proof. unfold Scanned. stab. Qed.
#[local] Hint Resolve Scanned_stable : stable_facts.

Lemma scanned_pass (shards : list ShardRef) rs ds (complete : bool) c :
  length rs = length shards → DecisionsRead ds c →
  (complete = true → ∀ g ws, C !! g = Some ws → ws ⊆ shards) →
  (∀ i sh m, shards !! i = Some sh → rs !! i = Some (RPrepared m) → Scanned ds sh m c) →
  PassState (collect shards rs ∅ []).1 (complete && bool_decide ((collect shards rs ∅ []).2 = [])) ds c.
Proof.
  intros Hlen HD Hall Hscan. split_and!; [| |done].
  - intros g ws h Hg Hh Hin. apply collect_holders in Hh as [Hh|(i & m & Hi & Hr & Hm)].
    { rewrite lookup_empty in Hh. by apply not_elem_of_nil in Hh. }
    apply (Hscan i h.1 m Hi Hr g ws Hg Hin). by eexists.
  - intros Hc d Hd Hs ws Hg sh Hsh. apply andb_true_iff in Hc as [Hc He%bool_decide_eq_true].
    apply collect_complete in He as [_ Hrs]; [|done].
    pose proof (Hall Hc _ ws Hg sh Hsh) as Hin. apply list_elem_of_lookup in Hin as [i Hi].
    destruct (lookup_lt_is_Some_2 rs i) as [r Hr]. { rewrite Hlen. by eapply lookup_lt_Some. }
    destruct (Hrs i r Hr) as [m ->]. destruct (Hscan i sh m Hi Hr (GID d) ws Hg Hsh) as [_ Hnone].
    destruct (m !! GID d) as [db|] eqn:Hm; [|left; eauto].
    right. exists db. apply collect_holders. right. by exists i, m.
Qed.

Lemma scanPrepared_safe (P : assn) shards ds (complete : bool) :
  stable own P → (∀ c, inv c → P c → DecisionsRead ds c) →
  (complete = true → ∀ g ws, C !! g = Some ws → ws ⊆ shards) →
  safe own (λ '(holders, errs), PassState holders (complete && bool_decide (errs = [])) ds) P (scanPrepared shards).
Proof.
  intros HP HD Hall.
  eapply safe_mbind; [apply (each_ok own P (λ o r c, ∀ sh m, o = OpListPrepared sh → r = RPrepared m → Scanned ds sh m c))|].
  - done.
  - intros o r. stab.
  - intros o c Ho _ _. by apply list_elem_of_fmap in Ho as (sh & -> & _).
  - intros o [γ w] w' r Ho Hinv HPc Hinv' Hst sh m -> -> g ws Hg Hsh.
    pose proof (list_prepared_answer C env_error γ w sh w' m g ws Hinv Hst Hg Hsh (gids_prefixed g ws Hg)) as Ha.
    destruct (m !! g); (split; [by intros [? ?]|]); [done|]. intros _ (d & Hd & <- & Hs). apply Ha.
    by apply (HD (γ, w) Hinv HPc d Hd ws Hg).
  - intros rs. apply safe_ret; [stab|]. intros c Hinv (Hlen & HPc & Hrs). rewrite length_fmap in Hlen.
    pose proof (scanned_pass shards rs ds complete c Hlen (HD c Hinv HPc) Hall) as Hpass.
    destruct (collect shards rs ∅ []) as [holders errs]. apply Hpass.
    intros i sh m Hi Hr. eapply (Hrs i (OpListPrepared sh)); [by rewrite list_lookup_fmap, Hi|done..].
Qed.

Lemma Resolve_safe r shardSet nowCheck nowSweep :
  safe own (λ _ _, True) (λ _, True) (Resolve where_text r shardSet nowCheck nowSweep).
Proof.
  unfold Resolve. cbv zeta.
  eapply safe_mbind; [apply (call_ok own (λ _, True) (λ a c, ∀ ds, a = RDecisions ds → NoDup (GID <$> ds) ∧ DecisionsRead ds c))|].
  { stab. } { intros a. stab. } { done. }
  { intros [γ w] w' a Hinv _ _ Hst ds ->. split; [by eapply decisions_nodup|].
    intros d Hd ws Hg. by eapply (decisions_answer C env_error γ w). }
  intros q. destruct q as [| | | | |ds| | |e]; try (apply safe_ret; [stab|done]).
  destruct (_ && _); [apply safe_ret; [stab|done]|].
  apply (safe_pre _ _ (λ c, NoDup (GID <$> ds) ∧ DecisionsRead ds c)); [stab|intros c _ [_ H]; by apply H|].
  apply safe_pure; [apply _|stab|]. intros Hnd.
  eapply safe_mbind; [apply (call_ok own (DecisionsRead ds) (λ a c, ∀ shs, a = RShards shs → shardSet = "" →
    map_Forall (λ _ ws, ws ⊆ shs) C))|].
  { stab. } { intros a. stab. } { done. }
  { intros [γ w] w' a Hinv _ _ Hst shs -> -> g ws Hg. by eapply (list_shards_answer C env_error γ w). }
  intros l. destruct l as [| | | | | |shs| |e]; try (apply safe_ret; [stab|done]).
  apply (safe_pre _ _ (λ c, (shardSet = "" → map_Forall (λ _ ws, ws ⊆ shs) C) ∧ DecisionsRead ds c));
    [stab|intros c _ [HD Hs]; split; [by apply Hs|done]|].
  apply safe_pure; [apply _|stab|]. intros Hall.
  eapply safe_mbind; [apply (scanPrepared_safe (DecisionsRead ds) shs ds (String.eqb shardSet ""))|].
  { stab. } { done. }
  { intros Hs%String.eqb_eq g ws Hg. by apply (Hall Hs g). }
  intros [holders errs]. eapply safe_mbind; [by apply resolveDecisions_safe|]. intros [holders' out].
  eapply safe_mbind.
  - eapply safe_pre; [| |apply sweepGids_safe]; [stab|]. by intros c _ (Hb & _).
  - intros [out' errs']. apply safe_ret; [stab|done].
Qed.
End Resolver.
End Atomicity.

(** ** Systems of coordinators, heartbeats and resolver passes *)

(** A transaction to commit: its gid, the shards it wrote on and those it
    only read. *)
Record txn := mkTxn { t_gid : string; t_writers : list ShardRef; t_readers : list ShardRef }.

Inductive process :=
| PCoordinate (t : txn)
| PHeartbeat (gid : string) (beats : nat)
| PResolve (r : Resolver) (shardSet : string) (nowCheck nowSweep : Z).

Inductive answer :=
| ATxn (gid : string) (r : tpc_result)
| AHeartbeat
| APass (out : Outcome) (err : option pgerr).

Definition process_prog (where_text : bool → holder → string) (p : process) : prog answer :=
  match p with
  | PCoordinate t =>
      r ← twoPhaseCommit PGDecisionLog (t_gid t) (t_writers t) (t_readers t); Ret (ATxn (t_gid t) r)
  | PHeartbeat gid n => _ ← heartbeatUntilDecided PGDecisionLog gid n; Ret AHeartbeat
  | PResolve r set n1 n2 => '(out, err, _) ← Resolve where_text r set n1 n2; Ret (APass out err)
  end.

Definition process_gid (p : process) : option string :=
  match p with PCoordinate t => Some (t_gid t) | _ => None end.
Definition process_txn (p : process) : option (string * list ShardRef) :=
  match p with PCoordinate t => Some (t_gid t, t_writers t) | _ => None end.

(** The transactions the processes coordinate, with their participants. *)
Definition coordinated (ps : list process) : gmap string (list ShardRef) := list_to_map (omap process_txn ps).

(** Nothing of a transaction is prepared, committed or recorded yet. *)
Definition not_started (w : world) (g : string) (ws : list ShardRef) : Prop :=
  w_rows w !! g = None ∧ ws ⊆ w_topology w ∧
  ∀ sh, sh ∈ ws → ¬ prepared (w_txns w !! (sh, g)) ∧ w_txns w !! (sh, g) ≠ Some TCommitted.

(** One coordinator per gid, gids as the router makes them, and the databases
    before any of them starts: the sessions may be in any state, and other
    transactions and rows may be about. *)
Definition initial (w : world) (ps : list process) : Prop :=
  NoDup (omap process_gid ps) ∧
  map_Forall (λ g ws, String.prefix GIDPrefix g = true ∧ not_started w g ws) (coordinated ps).

(** The processes, about to start. *)
Definition launched (where_text : bool → holder → string) (ps : list process) (w0 : world) : world * list (option (prog answer)) :=
  (w0, Some ∘ process_prog where_text <$> ps).

(** A program issues a statement that is answered such that [P]. *)
Inductive issues (P : world → op → world → resp → Prop) : world * list (option (prog answer)) → world * list (option (prog answer)) → Prop :=
| issues_one w ts i slots k j o w' r :
    ts !! i = Some (Some (Each slots k)) → slots !! j = Some (inl o) → P w o w' r →
    issues P (w, ts) (w', <[i := Some (Each (<[j := inr r]> slots) k)]> ts).
(** A step in which an answer misleads a resolver. *)
Definition misled (env_error : pgerr → Prop) (where_text : bool → holder → string) : relation (world * list (option (prog answer))) :=
  issues (λ w o w' r, sql_step env_error w o w' r ∧ misread where_text o w' r).

Lemma step_careful_or_misled env_error where_text s s' :
  sys_step (sql_step env_error) s s' → sys_step (careful env_error where_text) s s' ∨ misled env_error where_text s s'.
Proof.
  intros [w w' ts i p p' Hi Hth|w ts i p Hi|w w' ts He]; [|left; by eapply sys_crash|left; by apply sys_env].
  destruct Hth as [w slots k j o w' r Hj Hst|w rs k]; [|left; eapply sys_thread; [done|apply thread_join]].
  destruct (decide (misread where_text o w' r)) as [Hm|Hm].
  - right. by eapply issues_one.
  - left. eapply sys_thread; [done|]. by eapply thread_issue.
Qed.
Lemma careful_or_misled env_error where_text s tr s' :
  path (sys_step (sql_step env_error)) s tr s' → rtc (sys_step (careful env_error where_text)) s s' ∨ occurs (misled env_error where_text) s tr.
Proof. intros [?%path_rtc|?]%(path_split _ _ _ _ _ _ (step_careful_or_misled env_error where_text)); auto. Qed.

(** Such a step is no step of databases that are read as they are. *)
Lemma misled_not_careful env_error where_text s s' : misled env_error where_text s s' → ¬ sys_step (careful env_error where_text) s s'.
Proof.
  intros [w ts i slots k j o w' r Hi Hj [_ Hm]] Hst. assert (i < length ts)%nat as Hlt by by eapply lookup_lt_Some.
  assert (∀ ts', ts' !! i = Some (Some (Each slots k)) → <[i := Some (Each (<[j := inr r]> slots) k)]> ts ≠ ts') as Hne.
  { intros ts' Hts' <-. rewrite list_lookup_insert_eq in Hts' by done. injection Hts' as Hs.
    assert (<[j := inr r]> slots !! j = slots !! j) as H by by rewrite Hs. rewrite list_lookup_insert_eq, Hj in H by by eapply lookup_lt_Some. done. }
  inversion Hst as [w1 w2 ts1 i' p p' Hi' Hth|w1 ts1 i' p Hi'|w1 w2 ts1 He]; subst; [| |by eapply (Hne _ Hi)].
  - destruct (decide (i' = i)) as [->|Hii]; [|eapply (Hne (<[i' := Some p']> ts)); [by rewrite list_lookup_insert_ne|done]].
    simplify_eq. assert (p' = Each (<[j := inr r]> slots) k) as ->.
    { assert (<[i := Some p']> ts !! i = <[i := Some (Each (<[j := inr r]> slots) k)]> ts !! i) as H by (f_equal; congruence).
      rewrite !list_lookup_insert_eq in H by done. congruence. }
    inversion Hth as [w1 slots1 k1 j' o' w2 r' Hj' [_ Hc]|w1 rs k1]; subst.
    + destruct (decide (j' = j)) as [->|Hjj]; [|exfalso]; cycle 1.
      { assert (<[j' := inr r']> slots !! j = <[j := inr r]> slots !! j) as H by (f_equal; congruence).
        rewrite list_lookup_insert_ne, list_lookup_insert_eq in H by (first [done|by eapply lookup_lt_Some]). congruence. }
      assert (<[j := inr r']> slots !! j = <[j := inr r]> slots !! j) as H by (f_equal; congruence).
      rewrite !list_lookup_insert_eq in H by by eapply lookup_lt_Some. simplify_eq. done.
    + rewrite list_lookup_fmap in Hj. by destruct (rs !! j).
  - destruct (decide (i' = i)) as [->|Hii]; [|eapply (Hne (<[i' := None]> ts)); [by rewrite list_lookup_insert_ne|done]].
    assert (<[i := None]> ts !! i = <[i := Some (Each (<[j := inr r]> slots) k)]> ts !! i) as H by (f_equal; congruence).
    rewrite !list_lookup_insert_eq in H by done. done.
Qed.

Section System.
Variable env_error : pgerr → Prop.
Variable where_text : bool → holder → string.
Variables (ps : list process) (w0 : world).
Hypothesis Hinit : initial w0 ps.

Let C := coordinated ps.
#[local] Instance sys_proto : Protocol ghost string := tpc_protocol C.
Local Notation db_step := (careful env_error where_text).
Local Notation start := (launched where_text ps w0).

Definition owner (i : nat) : option string := ps !! i ≫= process_gid.

Definition answer_post (a : answer) : ghost * world → Prop :=
  match a with ATxn g r => tpc_post g r | _ => λ _, True end.

Lemma coordinated_lookup t : PCoordinate t ∈ ps → C !! t_gid t = Some (t_writers t).
Proof.
  intros Ht. destruct Hinit as [Hnd _]. apply elem_of_list_to_map_1.
  - replace ((omap process_txn ps).*1) with (omap process_gid ps); [done|].
    clear. induction ps as [|[t| |] l IH]; [done|..]; cbn; by rewrite ?IH.
  - apply list_elem_of_omap. by exists (PCoordinate t).
Qed.

Lemma omap_NoDup_inj {A B} (f : A → option B) (l : list A) i j x y b :
  NoDup (omap f l) → l !! i = Some x → l !! j = Some y → f x = Some b → f y = Some b → i = j.
Proof.
  revert i j. induction l as [|z l IH]; intros [|i] [|j] Hnd Hi Hj Hx Hy; simplify_eq/=; [done|..].
  - rewrite Hx in Hnd. apply NoDup_cons in Hnd as [[] _]. apply list_elem_of_omap.
    exists y. split; [by eapply list_elem_of_lookup_2|done].
  - rewrite Hy in Hnd. apply NoDup_cons in Hnd as [[] _]. apply list_elem_of_omap.
    exists x. split; [by eapply list_elem_of_lookup_2|done].
  - f_equal. eapply IH; [|done..]. destruct (f z); [by apply NoDup_cons in Hnd as [_ ?]|done].
Qed.

Lemma owner_disjoint i j g : owner i = Some g → owner j = Some g → i = j.
Proof.
  unfold owner. intros Hi Hj.
  apply bind_Some in Hi as (p & Hp & Hpg), Hj as (q & Hq & Hqg).
  destruct Hinit as [Hnd _]. by eapply omap_NoDup_inj.
Qed.

Lemma process_safe i p :
  ps !! i = Some p →
  safe db_step (owner i) answer_post (λ c, ∀ g, owner i = Some g → InPhase g CFresh c) (process_prog where_text p).
Proof.
  intros Hi. assert (gids_prefixed : ∀ g ws, C !! g = Some ws → String.prefix GIDPrefix g = true).
  { intros g ws Hg. destruct Hinit as [_ Hall]. by apply (Hall g ws Hg). }
  unfold owner. rewrite Hi. destruct p as [t|g n|r set n1 n2]; cbn [process_gid mbind option_bind process_prog].
  - pose proof (coordinated_lookup t (list_elem_of_lookup_2 _ _ _ Hi)) as Hg.
    apply (safe_pre C env_error where_text _ _ (InPhase (t_gid t) CFresh)).
    + intros c c' Hc Hc' Hr Hf g Hgid. simplify_eq.
      exact (InPhase_stable C (t_gid t) (t_writers t) Hg CFresh c c' Hc Hc' Hr (Hf _ eq_refl)).
    + intros c _ Hf. by apply Hf.
    + eapply safe_mbind; [by eapply twoPhaseCommit_safe|]. intros r. apply safe_ret; [|done].
      destruct r; first [apply stable_pure|by eapply NC_stable|by eapply Comm_stable].
  - apply (safe_pre C env_error where_text _ _ (λ _, True)); [by intros c c'|done|].
    eapply safe_mbind; [apply heartbeat_safe, stable_pure|].
    intros ?. apply safe_ret; [apply stable_pure|done].
  - apply (safe_pre C env_error where_text _ _ (λ _, True)); [by intros c c'|done|].
    eapply safe_mbind; [by eapply Resolve_safe|].
    intros [[out err] last]. apply safe_ret; [apply stable_pure|done].
Qed.

Lemma initial_safe : all_safe db_step owner (λ _, answer_post) start.
Proof.
  exists (λ _, CFresh). split.
  - intros g ws Hg. destruct Hinit as [_ Hall]. destruct (Hall g ws Hg) as (_ & Hrow & Htop & Htx).
    split; [|done]. split; [|done]. cbn. by rewrite Hrow.
  - intros i p Hi. cbn in Hi. apply list_lookup_fmap_Some in Hi as (q & Hp & Hq). cbn in Hp. simplify_eq.
    eexists. split; [|by apply process_safe]. done.
Qed.

Lemma system_safe s : rtc (sys_step db_step) start s → all_safe db_step owner (λ _, answer_post) s.
Proof. apply reachable_safe; [apply owner_disjoint|apply initial_safe]. Qed.
(** What [view_inv] says of a transaction in a state that is safe. *)
Lemma system_view t γ s : PCoordinate t ∈ ps → safe_at db_step owner (λ _, answer_post) γ s → view_inv (t_writers t) (view_of (γ, s.1) (t_gid t)).
Proof. intros Ht [Hinv _]. by destruct (Hinv _ _ (coordinated_lookup t Ht)) as [? _]. Qed.

(** C1. Atomicity of two-phase commit.  Any number of coordinators, one for a
    transaction, their heartbeats and resolver passes run side by side; their
    statements interleave in any order, may fail with any error before or after
    taking effect, and any of the processes may crash at any point.  No
    transaction is ever committed on one of its shards and rolled back on
    another, unless in that very run an error answering a resolver's COMMIT
    PREPARED read as if the transaction was gone while it was still prepared
    (see [gone_lookalike_splits_transaction] for such a run). *)
Theorem two_phase_commit_atomic tr s t sh1 sh2 :
  path (sys_step (sql_step env_error)) (launched where_text ps w0) tr s →
  PCoordinate t ∈ ps → sh1 ∈ t_writers t → sh2 ∈ t_writers t → w_txns s.1 !! (sh1, t_gid t) = Some TCommitted →
  w_txns s.1 !! (sh2, t_gid t) ≠ Some TAborted ∨ occurs (misled env_error where_text) (launched where_text ps w0) tr.
Proof.
  intros Hr Ht H1 H2 Hc. destruct (careful_or_misled env_error where_text _ _ _ Hr) as [Hr'|]; [left|by right].
  destruct (system_safe s Hr') as [γ Hs]. pose proof (system_view t γ s Ht Hs) as Hvi. unfold view_inv in Hvi. cbn in Hvi.
  destruct (γ (t_gid t)); destruct Hvi as [_ Hvi]; [pose proof (Hvi sh1 H1); naive_solver..|].
  destruct (Hvi sh2 H2) as [[db Hdb]|Hdb]; congruence.
Qed.

(** C2. What a client is told is true, from then on.  Told COMMIT, every
    shard it wrote on has committed or is prepared, and the commit decision is
    on record until all of them have.  Told that the transaction rolled back
    (a failed PREPARE, an unwritable log, an abort by the resolver), no shard
    has committed it and no commit decision is on record.  The exception is
    that of [two_phase_commit_atomic]. *)
Theorem client_answer_true tr s i t r :
  path (sys_step (sql_step env_error)) (launched where_text ps w0) tr s →
  PCoordinate t ∈ ps → s.2 !! i = Some (Some (Ret (ATxn (t_gid t) r))) →
  match r with
  | TpcCommitted =>
      (∀ sh, sh ∈ t_writers t → prepared (w_txns s.1 !! (sh, t_gid t)) ∨ w_txns s.1 !! (sh, t_gid t) = Some TCommitted) ∧
      (d_state <$> w_rows s.1 !! t_gid t = Some "commit" ∨
       ∀ sh, sh ∈ t_writers t → w_txns s.1 !! (sh, t_gid t) = Some TCommitted)
  | TpcFailed _ | TpcNoLog _ | TpcResolverAborted =>
      (∀ sh, sh ∈ t_writers t → w_txns s.1 !! (sh, t_gid t) ≠ Some TCommitted) ∧
      d_state <$> w_rows s.1 !! t_gid t ≠ Some "commit"
  | TpcInDoubt _ | TpcPanic => True
  end ∨ occurs (misled env_error where_text) (launched where_text ps w0) tr.
Proof.
  intros Hr Ht Hi. destruct (careful_or_misled env_error where_text _ _ _ Hr) as [Hr'|]; [left|by right].
  destruct (all_safe_result db_step owner _ s i _ (system_safe s Hr') Hi) as (γ & Hinv & Hpost).
  destruct (Hinv _ _ (coordinated_lookup t Ht)) as [Hvi _]. unfold view_inv in Hvi. cbn in Hvi.
  assert (NC (t_gid t) (γ, s.1) → (∀ sh, sh ∈ t_writers t → w_txns s.1 !! (sh, t_gid t) ≠ Some TCommitted) ∧
    d_state <$> w_rows s.1 !! t_gid t ≠ Some "commit") as Hnc.
  { intros [Hp|[Hp _]]; cbn in Hp; rewrite Hp in Hvi; by destruct Hvi. }
  destruct r; cbn in Hpost; try by auto.
  unfold Comm in Hpost. cbn in Hpost. rewrite Hpost in Hvi. destruct Hvi as [[?|[_ ?]] ?]; auto.
Qed.

(** A commit that was decided, as its row or a shard says. *)
Definition decided_commit_at (w : world) (t : txn) : Prop :=
  d_state <$> w_rows w !! t_gid t = Some "commit" ∨ ∃ sh, sh ∈ t_writers t ∧ w_txns w !! (sh, t_gid t) = Some TCommitted.

Lemma decided_phase t γ s : PCoordinate t ∈ ps → safe_at db_step owner (λ _, answer_post) γ s → decided_commit_at s.1 t → γ (t_gid t) = CCommitted.
Proof.
  intros Ht Hs Hd. pose proof (system_view t γ s Ht Hs) as Hvi. unfold view_inv in Hvi. cbn in Hvi.
  destruct (γ (t_gid t)); [..|done]; destruct Hvi as [Hrow Hvi], Hd as [Hd|(sh & Hsh & Hd)]; try congruence; pose proof (Hvi sh Hsh); naive_solver.
Qed.

(** C3. A commit decision is kept as long as it is needed: from the moment its
    row says commit or a shard has committed, whatever happens, the row is there
    and says so until every shard the transaction wrote on has committed, and
    each of those shards has it prepared or committed.  In particular the resolver's sweep, which rolls
    back what no row claims, can undo nothing.  The exception is that of
    [two_phase_commit_atomic]. *)
Theorem decision_outlives_transaction tr s tr' s' t :
  path (sys_step (sql_step env_error)) (launched where_text ps w0) tr s → path (sys_step (sql_step env_error)) s tr' s' →
  PCoordinate t ∈ ps → decided_commit_at s.1 t →
  ((d_state <$> w_rows s'.1 !! t_gid t = Some "commit" ∨
    ∀ sh, sh ∈ t_writers t → w_txns s'.1 !! (sh, t_gid t) = Some TCommitted) ∧
   ∀ sh, sh ∈ t_writers t → prepared (w_txns s'.1 !! (sh, t_gid t)) ∨ w_txns s'.1 !! (sh, t_gid t) = Some TCommitted) ∨
  occurs (misled env_error where_text) (launched where_text ps w0) (tr ++ tr').
Proof.
  intros Hr Hr2 Ht Hd. destruct (careful_or_misled env_error where_text _ _ _ Hr) as [Hc|?]; [|right; by apply occurs_app_l].
  destruct (careful_or_misled env_error where_text _ _ _ Hr2) as [Hc2|?]; [left|right; by eapply occurs_app_r].
  destruct (system_safe s Hc) as [γ Hs]. pose proof (decided_phase t γ s Ht Hs Hd) as Hph.
  destruct (safe_at_run db_step owner (λ _, answer_post) owner_disjoint γ s s' (λ γ, γ (t_gid t) = CCommitted)) as (γ' & Hph' & Hs'); [|done..|].
  - intros own c c' _ _ Hg Hp. destruct (Hg _ _ (coordinated_lookup t Ht)) as [[Hle _ _ _ _ _] _]. unfold phase_le in Hle. cbn in Hle.
    rewrite Hp in Hle. naive_solver congruence.
  - pose proof (system_view t γ' s' Ht Hs') as Hvi. unfold view_inv in Hvi. cbn in Hvi. rewrite Hph' in Hvi.
    destruct Hvi as [[?|[_ ?]] ?]; auto.
Qed.
End System.
