(* ===== verification/Progress.v ===== *)
(** * Fault-free runs

    [run_alone] runs one process of [TwoPhase] by itself with every statement
    answered: an executable special case of the system steps.  Left alone, the
    coordinator does commit everywhere, and one pass of the resolver settles
    everything that is not freshly under way. *)

From S2P Require Import Prelude TwoPhase Logic Commitment Coordinator Resolver Atomicity.

Local Open Scope Z_scope.

(** The statements of an [Each], in order. *)
Fixpoint run_slots (w : world) (slots : list (op + resp)) : world * list resp :=
  match slots with
  | [] => (w, [])
  | inl o :: slots =>
      let '(w1, r) := sql_exec w o in
      let '(w2, rs) := run_slots w1 slots in (w2, r :: rs)
  | inr r :: slots => let '(w2, rs) := run_slots w slots in (w2, r :: rs)
  end.

Fixpoint run_alone {A} (w : world) (p : prog A) : world * A :=
  match p with
  | Ret a => (w, a)
  | Each slots k => let '(w', rs) := run_slots w slots in run_alone w' (k rs)
  end.

Definition run_ops (w : world) (os : list op) : world * list resp := run_slots w (inl <$> os).

Lemma run_ops_nil w : run_ops w [] = (w, []).
Proof. done. Qed.
Lemma run_ops_cons w o os :
  run_ops w (o :: os) =
  ((run_ops (sql_exec w o).1 os).1, (sql_exec w o).2 :: (run_ops (sql_exec w o).1 os).2).
Proof. unfold run_ops. cbn [fmap list_fmap run_slots]. destruct (sql_exec w o). by destruct (run_slots _ _). Qed.

Lemma run_bind {A B} w (p : prog A) (f : A → prog B) :
  run_alone w (p ≫= f) = run_alone (run_alone w p).1 (f (run_alone w p).2).
Proof.
  unfold mbind, prog_mbind. revert w. induction p as [a|slots k IH]; intros w; [done|].
  cbn [prog_bind run_alone]. destruct (run_slots w slots). apply IH.
Qed.

Lemma run_each w os : run_alone w (each os) = run_ops w os.
Proof. unfold run_ops. cbn. by destruct (run_slots w _). Qed.

Lemma run_call w o : run_alone w (call o) = sql_exec w o.
Proof. cbn. by destruct (sql_exec w o). Qed.

Lemma run_ret {A} w (a : A) : run_alone w (Ret a) = (w, a).
Proof. done. Qed.

(** ** It is a run of the system *)

Lemma run_slots_steps {A} E w done slots (k : list resp → prog A) :
  rtc (sys_step (sql_step E)) (w, [Some (Each ((inr <$> done) ++ slots) k)])
    ((run_slots w slots).1, [Some (k (done ++ (run_slots w slots).2))]).
Proof.
  revert w done. induction slots as [|[o|r] slots IH]; intros w dn.
  - rewrite !app_nil_r. apply rtc_once.
    apply (sys_thread _ w w [Some (Each (inr <$> dn) k)] 0 (Each (inr <$> dn) k)); [done|]. constructor.
  - cbn [run_slots]. destruct (sql_exec w o) as [w1 r] eqn:Ho.
    assert (sql_step E w o w1 r) as Hst by (pose proof (sql_answered E w o) as H; by rewrite Ho in H).
    specialize (IH w1 (dn ++ [r])). destruct (run_slots w1 slots) as [w2 rs]. cbn [fst snd] in *.
    rewrite <- app_assoc in IH. eapply rtc_l; [|exact IH].
    eapply (sys_thread _ w w1 [Some _] 0 (Each ((inr <$> dn) ++ inl o :: slots) k)); [done|].
    replace ((inr <$> dn ++ [r]) ++ slots) with (<[length dn := inr r]> ((inr <$> dn : list (op + resp)) ++ inl o :: slots)).
    + apply (thread_issue _ w _ k (length dn) o); [|done].
      rewrite lookup_app_r; rewrite length_fmap; [|done]. by rewrite Nat.sub_diag.
    + rewrite insert_app_r_alt; rewrite length_fmap; [|done]. rewrite Nat.sub_diag. cbn.
      by rewrite fmap_app, <- app_assoc.
  - cbn [run_slots]. specialize (IH w (dn ++ [r])). destruct (run_slots w slots) as [w2 rs]. cbn [fst snd] in *.
    rewrite fmap_app, <- !app_assoc in IH. exact IH.
Qed.

Lemma run_alone_steps {A} E w (p : prog A) :
  rtc (sys_step (sql_step E)) (w, [Some p]) ((run_alone w p).1, [Some (Ret (run_alone w p).2)]).
Proof.
  revert w. induction p as [a|slots k IH]; intros w; [done|]. cbn [run_alone].
  pose proof (run_slots_steps E w [] slots k) as H. destruct (run_slots w slots) as [w1 rs].
  transitivity (w1, [Some (k rs)]); [exact H|]. apply IH.
Qed.

(** ** One statement per shard *)

Definition set_all (w : world) (g : string) (shs : list ShardRef) (T : ShardRef → tstate) : world :=
  foldl (λ w sh, set_txn w sh g (T sh)) w shs.

Lemma set_all_rows w g shs T : w_rows (set_all w g shs T) = w_rows w.
Proof. revert w. induction shs as [|sh shs IH]; intros w; [done|]. unfold set_all in *. cbn. by rewrite IH. Qed.
Lemma set_all_topology w g shs T : w_topology (set_all w g shs T) = w_topology w.
Proof. revert w. induction shs as [|sh shs IH]; intros w; [done|]. unfold set_all in *. cbn. by rewrite IH. Qed.
Lemma set_all_now w g shs T : w_now (set_all w g shs T) = w_now w.
Proof. revert w. induction shs as [|sh shs IH]; intros w; [done|]. unfold set_all in *. cbn. by rewrite IH. Qed.

Lemma set_all_lookup w g shs T sh g' :
  w_txns (set_all w g shs T) !! (sh, g') =
  if decide (g' = g ∧ sh ∈ shs) then Some (T sh) else w_txns w !! (sh, g').
Proof.
  revert w. induction shs as [|s shs IH]; intros w.
  { rewrite decide_False; [done|]. intros [_ []%not_elem_of_nil]. }
  unfold set_all in *. cbn [foldl]. rewrite IH. cbn.
  destruct (decide (g' = g ∧ sh ∈ shs)) as [[-> H]|Hn].
  { rewrite decide_True; [done|]. split; [done|]. by apply elem_of_cons; right. }
  destruct (decide (g' = g ∧ sh = s)) as [[-> ->]|Hn'].
  - rewrite lookup_insert_eq, decide_True; [done|]. split; [done|]. by apply elem_of_cons; left.
  - rewrite lookup_insert_ne, decide_False; [done| |]; rewrite ?elem_of_cons; naive_solver.
Qed.

(** A statement about one participant that reads only its state. *)
Lemma run_ops_txns w g shs F T R :
  NoDup shs →
  (∀ w' sh, sh ∈ shs → w_txns w' !! (sh, g) = w_txns w !! (sh, g) →
     sql_exec w' (F sh) = (set_txn w' sh g (T sh), R sh)) →
  run_ops w (F <$> shs) = (set_all w g shs T, R <$> shs).
Proof.
  revert w. induction shs as [|s shs IH]; intros w Hnd HF; [done|].
  apply NoDup_cons in Hnd as [Hs Hnd]. rewrite !fmap_cons, run_ops_cons, HF by set_solver.
  cbn [fst snd]. rewrite IH; [done|done|]. intros w' sh Hsh Hw'. apply HF; [set_solver|].
  rewrite Hw'. cbn. rewrite lookup_insert_ne; [done|]. intros [= ->]. done.
Qed.

Lemma run_ops_readonly w os :
  (∀ o, o ∈ os → (sql_exec w o).1 = w) → run_ops w os = (w, (λ o, (sql_exec w o).2) <$> os).
Proof.
  induction os as [|o os IH]; intros H; [done|].
  rewrite run_ops_cons, H, IH by set_solver. done.
Qed.

Lemma firstError_none_fmap {A} (f : A → resp) l : (∀ x, x ∈ l → resp_err (f x) = None) → firstError (f <$> l) = None.
Proof.
  unfold firstError. induction l as [|x l IH]; intros H; [done|]. cbn.
  rewrite (H x) by set_solver. apply IH. set_solver.
Qed.

(** ** The coordinator, left alone, commits *)

Section Commit.
Variables (w : world) (g : string) (writers readers : list ShardRef) (db xid : ShardRef → string).
Hypothesis Hactive : ∀ sh, sh ∈ writers ++ readers → w_txns w !! (sh, g) = Some (TActive (db sh) (xid sh)).
Hypothesis Hrow : w_rows w !! g = None.
Hypothesis Hnodup : NoDup (writers ++ readers).
Hypothesis Hwriters : writers ≠ [].

Let w1 := set_all w g readers (λ _, TAborted).
Let w2 := set_rows w1 (<[g := mkRow "preparing" (snd <$> writers) (xid <$> writers) (w_now w) (w_now w)]> (w_rows w)).
Let w3 := set_all w2 g writers (λ sh, TPrepared (db sh)).
Let w4 := set_rows w3 (<[g := mkRow "commit" (snd <$> writers) (xid <$> writers) (w_now w) (w_now w)]> (w_rows w)).
Let w5 := set_all w4 g writers (λ _, TCommitted).
Let w6 := set_rows w5 (w_rows w).

Lemma run_commitDecided : run_alone w4 (commitDecided PGDecisionLog g writers) = (w6, TpcCommitted).
Proof.
  assert (∀ w' sh, sh ∈ writers → w_txns w' !! (sh, g) = w_txns w4 !! (sh, g) →
    sql_exec w' (OpCommitPrepared sh g) = (set_txn w' sh g TCommitted, ROk)) as Hcp.
  { intros w' sh Hsh Hw'. cbn. unfold finish_prepared. rewrite Hw'. cbn. unfold w3.
    rewrite set_all_lookup, decide_True by done. by rewrite decide_True by (by left). }
  apply NoDup_app in Hnodup as (Hnw & _ & _).
  assert (∃ first rest, writers = first :: rest) as (first & rest & Hws) by (destruct writers; eauto; done).
  replace (commitDecided PGDecisionLog g writers) with (commitDecided PGDecisionLog g (first :: rest)) by (by rewrite Hws).
  cbn [commitDecided].
  pose proof Hnw as Hnw'. rewrite Hws in Hnw'. apply NoDup_cons in Hnw' as [Hf Hnd].
  rewrite run_bind, run_call, Hcp by (done || rewrite Hws; set_solver). cbn [fst snd].
  rewrite run_bind, run_each, (run_ops_txns _ g rest _ (λ _, TCommitted) (λ _, ROk)); [|done|].
  2: { intros w' sh Hsh Hw'. apply Hcp; [rewrite Hws; set_solver|]. rewrite Hw'. cbn.
       rewrite lookup_insert_ne; [done|]. intros [= ->]. done. }
  cbn [fst snd]. change (ROk :: ((λ _, ROk) <$> rest)) with ((λ _ : ShardRef, ROk) <$> first :: rest).
  rewrite firstError_none_fmap by done. cbn [Delete PGDecisionLog]. unfold PG_Delete.
  rewrite !run_bind, run_call, !run_ret. cbn [sql_exec fst snd]. f_equal.
  unfold w6, w5. replace (set_all w4 g writers (λ _, TCommitted)) with (set_all (set_txn w4 first g TCommitted) g rest (λ _, TCommitted))
    by (by rewrite Hws).
  rewrite set_all_rows. unfold set_rows. cbn. f_equal. by rewrite delete_insert_id.
Qed.

Lemma run_decideCommit : run_alone w3 (decideCommit PGDecisionLog g writers) = (w6, TpcCommitted).
Proof.
  unfold decideCommit. cbn [Commit PGDecisionLog]. unfold PG_Commit, durable.
  rewrite !run_bind, run_call, !run_ret. cbn [sql_exec]. unfold decide_row.
  assert (w_rows w3 = <[g := mkRow "preparing" (snd <$> writers) (xid <$> writers) (w_now w) (w_now w)]> (w_rows w)) as Hr.
  { unfold w3. by rewrite set_all_rows. }
  rewrite Hr, lookup_insert_eq. cbn [d_state fst snd String.eqb Ascii.eqb Bool.eqb].
  rewrite insert_insert_eq. apply run_commitDecided.
Qed.

Lemma commit_run : run_alone w (twoPhaseCommit PGDecisionLog g writers readers) = (w6, TpcCommitted).
Proof.
  pose proof Hnodup as (Hnw & Hdisj & Hnr)%NoDup_app.
  unfold twoPhaseCommit. rewrite run_bind. unfold rollbackAll at 1. rewrite run_each.
  rewrite (run_ops_txns w g readers _ (λ _, TAborted) (λ _, ROk)); [|done|].
  2: { intros w' sh Hsh Hw'. cbn. rewrite Hw', Hactive by set_solver. done. }
  cbn [fst snd]. fold w1.
  assert (∀ sh, sh ∈ writers → w_txns w1 !! (sh, g) = Some (TActive (db sh) (xid sh))) as H1.
  { intros sh Hsh. unfold w1. rewrite set_all_lookup, decide_False; [apply Hactive; set_solver|set_solver]. }
  rewrite run_bind, run_each, run_ops_readonly.
  2: { intros o Ho. apply list_elem_of_fmap in Ho as (sh & -> & Hsh). done. }
  cbn [fst snd]. rewrite <- list_fmap_compose.
  rewrite (list_fmap_ext _ (RText ∘ xid)).
  2: { intros i sh Hi. cbn. rewrite H1; [done|]. by eapply list_elem_of_lookup_2. }
  rewrite firstError_none_fmap by done.
  rewrite run_bind. cbn [Begin PGDecisionLog]. unfold PG_Begin, durable.
  rewrite !run_bind, run_call, !run_ret. cbn [sql_exec].
  assert (w_rows w1 = w_rows w) as Hr1 by apply set_all_rows. rewrite Hr1, Hrow. cbn [fst snd].
  rewrite <- list_fmap_compose. change (resp_text ∘ (RText ∘ xid)) with xid.
  replace (w_now w1) with (w_now w) by (symmetry; apply set_all_now). fold w2.
  rewrite run_bind, run_each, (run_ops_txns w2 g writers _ (λ sh, TPrepared (db sh)) (λ _, ROk)); [|done|].
  2: { intros w' sh Hsh Hw'. cbn. rewrite Hw'. cbn. by rewrite H1. }
  cbn [fst snd]. rewrite firstError_none_fmap by done. apply run_decideCommit.
Qed.

Lemma commit_run_txns sh g' :
  w_txns w6 !! (sh, g') =
  if decide (g' = g ∧ sh ∈ writers) then Some TCommitted
  else if decide (g' = g ∧ sh ∈ readers) then Some TAborted else w_txns w !! (sh, g').
Proof.
  unfold w6, w5. cbn. rewrite set_all_lookup. case_decide; [done|]. unfold w4, w3. cbn.
  rewrite set_all_lookup. rewrite decide_False by done. unfold w2, w1. cbn. by rewrite set_all_lookup.
Qed.

(** Left alone by failures, the coordinator commits: with an open
    transaction on every shard and no row for its gid, it answers COMMIT, the
    transaction is committed on every shard it wrote on and ended on those it
    only read, the decision log is back as it was, and nothing else changed. *)
Theorem twoPhaseCommit_commits :
  let '(w', r) := run_alone w (twoPhaseCommit PGDecisionLog g writers readers) in
  r = TpcCommitted ∧ w_rows w' = w_rows w ∧
  (∀ sh, sh ∈ writers → w_txns w' !! (sh, g) = Some TCommitted) ∧
  (∀ sh, sh ∈ readers → w_txns w' !! (sh, g) = Some TAborted) ∧
  (∀ sh g', g' ≠ g ∨ sh ∉ writers ++ readers → w_txns w' !! (sh, g') = w_txns w !! (sh, g')).
Proof.
  rewrite commit_run. split_and!; [done|done|..]; intros; rewrite commit_run_txns.
  - by rewrite decide_True.
  - apply NoDup_app in Hnodup as (_ & Hdisj & _).
    rewrite decide_False by (intros [_ ?]; by eapply Hdisj). by rewrite decide_True.
  - rewrite !decide_False; [done|set_solver|set_solver].
Qed.
End Commit.

(** ** One pass of the resolver, left alone, settles everything *)

Section Pass.
Variables (where_text : bool → holder → string) (r : Resolver) (w : world) (nowCheck nowSweep : Z).
Hypothesis Htop : NoDup (w_topology w).

(** A row whose coordinator still shows signs of life. *)
Definition under_way (row : drow) : bool :=
  String.eqb (d_state row) "preparing" && (w_now w - d_seen row <? preparingTimeout r).

Definition kept_row (g : string) : option drow :=
  row ← w_rows w !! g; if under_way row then Some row else None.

(** What becomes of a prepared transaction. *)
Definition settled (g : string) (t : tstate) : tstate :=
  match t with
  | TPrepared _ =>
      match w_rows w !! g with
      | None => TAborted
      | Some row =>
          if under_way row then t
          else if String.eqb (d_state row) "commit" then TCommitted else TAborted
      end
  | _ => t
  end.

Definition held (g : string) : list holder :=
  omap (λ sh, (λ db, (sh, db)) <$> list_prepared w sh !! g) (w_topology w).

Lemma elem_of_held g h :
  h ∈ held g ↔ h.1 ∈ w_topology w ∧ String.prefix GIDPrefix g = true ∧ w_txns w !! (h.1, g) = Some (TPrepared h.2).
Proof.
  unfold held. rewrite list_elem_of_omap. destruct h as [sh db]. cbn. split.
  - intros (sh' & Hin & He). rewrite list_prepared_lookup in He.
    destruct (String.prefix GIDPrefix g); [|done].
    destruct (w_txns w !! (sh', g)) as [[]|] eqn:Ht; by simplify_eq/=.
  - intros (Hin & Hp & Ht). exists sh. by rewrite list_prepared_lookup, Hp, Ht.
Qed.

Lemma held_nodup g : NoDup (held g).*1.
Proof.
  unfold held. revert Htop. generalize (w_topology w). induction l as [|sh l IH]; [constructor|].
  rewrite NoDup_cons. intros [Hn Hl]. cbn. destruct (list_prepared w sh !! g); cbn; [|by apply IH].
  constructor; [|by apply IH]. intros Hin. apply list_elem_of_fmap in Hin as (h & Hh & Hin).
  apply list_elem_of_omap in Hin as (sh' & Hin & He).
  destruct (list_prepared w sh' !! g); by simplify_eq/=.
Qed.

Lemma collect_run shards holders0 errs0 :
  (∀ g, default [] ((collect shards ((λ sh, RPrepared (list_prepared w sh)) <$> shards) holders0 errs0).1 !! g) =
   default [] (holders0 !! g) ++ omap (λ sh, (λ db, (sh, db)) <$> list_prepared w sh !! g) shards) ∧
  (collect shards ((λ sh, RPrepared (list_prepared w sh)) <$> shards) holders0 errs0).2 = errs0.
Proof.
  revert holders0. induction shards as [|sh shards IH]; intros holders0; cbn.
  { split; [|done]. intros g. by rewrite app_nil_r. }
  destruct (IH (add_holders sh (list_prepared w sh) holders0)) as [H1 H2]. split; [|done].
  intros g. rewrite H1, add_holders_lookup, <- app_assoc. by destruct (list_prepared w sh !! g).
Qed.

Definition ended (commit : bool) : ShardRef → tstate := λ _, if commit then TCommitted else TAborted.

Lemma run_finishOn wk g commit h :
  w_txns wk !! (h.1, g) = Some (TPrepared h.2) →
  run_alone wk (finishOn where_text h commit g) = (set_txn wk h.1 g (ended commit h.1), None).
Proof.
  intros Ht. unfold finishOn. rewrite run_bind, run_call, run_ret. cbn [sql_exec]. unfold finish_prepared.
  by rewrite Ht, decide_True by (by right).
Qed.

Lemma run_finish_holders wk g commit hs :
  (∀ h, h ∈ hs → w_txns wk !! (h.1, g) = Some (TPrepared h.2)) → NoDup hs.*1 →
  run_alone wk (finish_holders where_text g commit hs) = (set_all wk g hs.*1 (ended commit), ([], None)).
Proof.
  revert wk. induction hs as [|h hs IH]; intros wk Hp Hnd; [done|]. cbn [finish_holders].
  rewrite run_bind, run_finishOn by (apply Hp; set_solver). cbn [fst snd].
  rewrite bool_decide_eq_true_2 by done. cbn [orb]. cbn in Hnd. apply NoDup_cons in Hnd as [Hn Hnd].
  rewrite IH; [done| |done]. intros h' Hh'. cbn. rewrite lookup_insert_ne; [apply Hp; set_solver|].
  intros [= E]. apply Hn. rewrite E. by apply list_elem_of_fmap_2.
Qed.

Lemma run_sweepHolders wk g commit hs out errs :
  (∀ h, h ∈ hs → w_txns wk !! (h.1, g) = Some (TPrepared h.2)) → NoDup hs.*1 →
  ∃ out', run_alone wk (sweepHolders where_text g commit hs out errs) =
            (set_all wk g hs.*1 (ended commit), (out', errs)) ∧ Unresolved out' = Unresolved out.
Proof.
  revert wk out. induction hs as [|h hs IH]; intros wk out Hp Hnd; [by exists out|]. cbn [sweepHolders].
  rewrite run_bind, run_finishOn by (apply Hp; set_solver). cbn [fst snd isGonePreparedXact].
  cbn in Hnd. apply NoDup_cons in Hnd as [Hn Hnd].
  destruct (IH (set_txn wk h.1 g (ended commit h.1)) (count_finished commit out)) as (out' & -> & Hout); [|done|].
  - intros h' Hh'. cbn. rewrite lookup_insert_ne; [apply Hp; set_solver|].
    intros [= E]. apply Hn. rewrite E. by apply list_elem_of_fmap_2.
  - exists out'. split; [done|]. rewrite Hout. by destruct commit.
Qed.

(** ** The state after the gids of [S] were dealt with *)

Record pass_inv (S : gset string) (wk : world) : Prop := {
  pi_now : w_now wk = w_now w;
  pi_top : w_topology wk = w_topology w;
  pi_rows g : w_rows wk !! g = if decide (g ∈ S) then kept_row g else w_rows w !! g;
  pi_txns sh g : w_txns wk !! (sh, g) =
    if decide (g ∈ S ∧ sh ∈ (held g).*1) then settled g <$> w_txns w !! (sh, g) else w_txns w !! (sh, g)
}.

Lemma held_fst g sh :
  sh ∈ (held g).*1 ↔ sh ∈ w_topology w ∧ String.prefix GIDPrefix g = true ∧ prepared (w_txns w !! (sh, g)).
Proof.
  rewrite list_elem_of_fmap. split.
  - intros ([s db] & -> & (H1 & H2 & H3)%elem_of_held). cbn in *. split_and!; [done..|by exists db].
  - intros (H1 & H2 & [db H3]). exists (sh, db). split; [done|]. by apply elem_of_held.
Qed.

Lemma pass_held S wk g h : pass_inv S wk → g ∉ S → h ∈ held g → w_txns wk !! (h.1, g) = Some (TPrepared h.2).
Proof.
  intros Hpi Hg Hh. rewrite (pi_txns _ _ Hpi), decide_False by (by intros [? _]). by apply elem_of_held in Hh as (_ & _ & ?).
Qed.

Lemma pass_keep S wk g row :
  pass_inv S wk → w_rows w !! g = Some row → under_way row = true → pass_inv ({[g]} ∪ S) wk.
Proof.
  intros Hpi Hr Hu. assert (kept_row g = Some row) as Hk by (unfold kept_row; rewrite Hr; cbn; by rewrite Hu).
  assert (∀ t, settled g t = t) as Hs by (intros []; cbn; by rewrite ?Hr, ?Hu).
  destruct Hpi as [H1 H2 H3 H4]. split; [done|done|..].
  - intros g'. rewrite H3. destruct (decide (g' = g)) as [->|Hne].
    + rewrite (decide_True (P := g ∈ {[g]} ∪ S)) by set_solver. case_decide; congruence.
    + destruct (decide (g' ∈ S)); [rewrite decide_True by set_solver|rewrite decide_False by set_solver]; done.
  - intros sh g'. rewrite H4. destruct (decide (g' = g)) as [->|Hne].
    + assert (settled g <$> w_txns w !! (sh, g) = w_txns w !! (sh, g)) as E.
      { destruct (w_txns w !! (sh, g)); cbn; by rewrite ?Hs. }
      rewrite E. by do 2 case_decide.
    + destruct (decide (g' ∈ S ∧ _)) as [[? ?]|Hn].
      * by rewrite decide_True by set_solver.
      * rewrite decide_False; [done|]. intros [? ?]. apply Hn. split; [set_solver|done].
Qed.

Definition commit_of (g : string) : bool :=
  match w_rows w !! g with Some row => String.eqb (d_state row) "commit" | None => false end.

Lemma pass_settle S wk wk' g :
  pass_inv S wk → g ∉ S → kept_row g = None →
  w_now wk' = w_now wk → w_topology wk' = w_topology wk →
  (∀ g', w_rows wk' !! g' = if decide (g' = g) then None else w_rows wk !! g') →
  (∀ sh g', w_txns wk' !! (sh, g') = if decide (g' = g ∧ sh ∈ (held g).*1) then Some (ended (commit_of g) sh) else w_txns wk !! (sh, g')) →
  pass_inv ({[g]} ∪ S) wk'.
Proof.
  intros [H1 H2 H3 H4] Hg Hk Hn Ht Hr Hx. split; [congruence|congruence|..].
  - intros g'. rewrite Hr. destruct (decide (g' = g)) as [->|Hne].
    + by rewrite decide_True by set_solver.
    + rewrite H3. destruct (decide (g' ∈ S)); [rewrite decide_True by set_solver|rewrite decide_False by set_solver]; done.
  - intros sh g'. rewrite Hx, H4. destruct (decide (g' = g)) as [->|Hne].
    + destruct (decide (sh ∈ (held g).*1)) as [Hin|Hin].
      * rewrite !decide_True by set_solver. apply held_fst in Hin as (_ & _ & [db ->]). cbn. f_equal.
        unfold commit_of, kept_row, ended in *. destruct (w_rows w !! g) as [row|]; [|done]. cbn in Hk.
        by destruct (under_way row), (String.eqb (d_state row) "commit").
      * rewrite !decide_False by set_solver. done.
    + rewrite decide_False by (by intros [? _]). destruct (decide (g' ∈ S ∧ _)) as [[? ?]|Hn'].
      * by rewrite decide_True by set_solver.
      * rewrite decide_False; [done|]. intros [? ?]. apply Hn'. split; [set_solver|done].
Qed.

Definition decision_of (g : string) (row : drow) : decision :=
  mkDecision g (d_state row) (d_participants row) (w_now w - d_seen row).

(** The row as [checkPreparing] leaves it: a stale one aborted. *)
Definition checked (wk : world) (g : string) (row : drow) : world :=
  if String.eqb (d_state row) "preparing"
  then set_rows wk (<[g := mkRow "abort" (d_participants row) (d_xids row) (d_created row) (d_seen row)]> (w_rows wk))
  else wk.
Definition checked_state (row : drow) : string :=
  if String.eqb (d_state row) "preparing" then "abort" else d_state row.

Lemma run_checkPreparing wk g row complete :
  w_now wk = w_now w → w_rows wk !! g = Some row →
  run_alone wk (checkPreparing r (decision_of g row) complete) =
  if under_way row then (wk, PReturn None) else (checked wk g row, PGo (checked_state row) complete).
Proof.
  intros Hnow Hr. unfold checkPreparing, checked, checked_state, under_way. cbn [State decision_of AgeNanos GID].
  destruct (String.eqb_spec (d_state row) "preparing") as [Hs|]; [|done]. cbn [andb].
  destruct (Z.ltb_spec (w_now w - d_seen row) (preparingTimeout r)) as [|Hstale]; [done|].
  rewrite run_bind, run_call. cbn [sql_exec]. rewrite Hr, Hnow.
  replace (d_seen row <=? w_now w - preparingTimeout r) with true by (symmetry; apply Z.leb_le; lia).
  unfold decide_row. rewrite Hr, Hs. done.
Qed.

Lemma run_resolveDecision S wk g row holders out :
  pass_inv S wk → g ∉ S → w_rows w !! g = Some row → default [] (holders !! g) = held g →
  ∃ wk' out', run_alone wk (resolveDecision where_text r (decision_of g row) holders true out) =
      (wk', (if under_way row then holders else delete g holders, out', None)) ∧
    pass_inv ({[g]} ∪ S) wk' ∧ Unresolved out' = Unresolved out.
Proof.
  intros Hpi Hg Hrow Hh. pose proof Hpi as [Hnow _ Hrows _].
  assert (w_rows wk !! g = Some row) as Hr by (by rewrite Hrows, decide_False).
  unfold resolveDecision. rewrite run_bind, run_checkPreparing by done.
  destruct (under_way row) eqn:Hu; cbn [fst snd].
  { exists wk, out. split_and!; [done|by eapply pass_keep|done]. }
  set (st := checked_state row). set (wk1 := checked wk g row).
  assert (d_state <$> w_rows wk1 !! g = Some st ∧ w_txns wk1 = w_txns wk ∧ w_now wk1 = w_now wk ∧
    w_topology wk1 = w_topology wk ∧ (∀ g', g' ≠ g → w_rows wk1 !! g' = w_rows wk !! g') ∧
    String.eqb st "commit" = commit_of g) as (Hst & Ht1 & Hn1 & Hto1 & Ho1 & Hc).
  { unfold wk1, st, checked, checked_state, commit_of. rewrite Hrow.
    destruct (String.eqb_spec (d_state row) "preparing") as [E|]; cbn.
    - rewrite lookup_insert_eq, E. split_and!; [done|done|done|done| |done]. intros g' Hne. by rewrite lookup_insert_ne.
    - rewrite Hr. by split_and!. }
  cbn [GID decision_of]. rewrite Hh, run_bind, run_finish_holders; [| |apply held_nodup].
  2: { intros h Hin. rewrite Ht1. by eapply pass_held. }
  cbn [fst snd negb]. rewrite run_bind, run_call. cbn [sql_exec]. rewrite set_all_rows.
  destruct (w_rows wk1 !! g) as [row1|] eqn:Hr1; [|done]. cbn in Hst.
  rewrite (proj2 (String.eqb_eq (d_state row1) st)) by congruence. cbn [fst snd resp_err].
  eexists _, _. split; [rewrite run_ret; done|]. split; [|by destruct (String.eqb st "commit")].
  eapply (pass_settle S wk); [done|done| | | | |].
  - unfold kept_row. rewrite Hrow. cbn. by rewrite Hu.
  - cbn. by rewrite set_all_now.
  - cbn. by rewrite set_all_topology.
  - intros g'. cbn. case_decide as E; [by rewrite E, lookup_delete_eq|]. rewrite lookup_delete_ne by done. auto.
  - intros sh g'. cbn. rewrite set_all_lookup, Ht1, Hc. done.
Qed.

Lemma run_resolveDecisions rows S wk holders out :
  NoDup rows.*1 → (∀ g row, (g, row) ∈ rows → w_rows w !! g = Some row) → (∀ g, g ∈ rows.*1 → g ∉ S) →
  pass_inv S wk → (∀ g, g ∉ S → default [] (holders !! g) = held g) →
  ∃ wk' holders' out',
    run_alone wk (resolveDecisions where_text r ((λ '(g, row), decision_of g row) <$> rows) holders true out) =
      (wk', (holders', out')) ∧
    pass_inv (list_to_set rows.*1 ∪ S) wk' ∧ Unresolved out' = Unresolved out ∧
    ∀ g, holders' !! g = if decide (g ∈ rows.*1 ∧ kept_row g = None) then None else holders !! g.
Proof.
  revert S wk holders out. induction rows as [|[g row] rows IH]; intros S wk holders out Hnd Hrows Hnew Hpi Hh.
  { exists wk, holders, out. split_and!; [done| |done|].
    - cbn. by rewrite (left_id_L ∅ (∪)).
    - intros g. rewrite decide_False; [done|]. by intros [?%not_elem_of_nil _]. }
  cbn in Hnd. apply NoDup_cons in Hnd as [Hg Hnd].
  assert (w_rows w !! g = Some row) as Hrow by (apply Hrows; set_solver).
  destruct (run_resolveDecision S wk g row holders out Hpi) as (wk1 & out1 & Hrun & Hpi1 & Hout1);
    [apply Hnew; set_solver|done|apply Hh; apply Hnew; set_solver|].
  destruct (IH ({[g]} ∪ S) wk1 (if under_way row then holders else delete g holders) out1)
    as (wk2 & holders2 & out2 & Hrun2 & Hpi2 & Hout2 & Hh2).
  - done.
  - intros g' row' Hin. apply Hrows. set_solver.
  - intros g' Hin. pose proof (Hnew g'). assert (g' ≠ g) by congruence. set_solver.
  - done.
  - intros g' Hin. assert (g' ≠ g) by set_solver.
    destruct (under_way row); [|rewrite lookup_delete_ne by done]; apply Hh; set_solver.
  - exists wk2, holders2, out2. split_and!.
    + rewrite fmap_cons. cbn [resolveDecisions]. by rewrite run_bind, Hrun.
    + rewrite fmap_cons. cbn [fst list_to_set]. by replace ({[g]} ∪ list_to_set rows.*1 ∪ S) with (list_to_set rows.*1 ∪ ({[g]} ∪ S) : gset string) by set_solver.
    + congruence.
    + intros g'. rewrite Hh2. assert (kept_row g = if under_way row then Some row else None) as Hk.
      { unfold kept_row. by rewrite Hrow. }
      destruct (decide (g' = g)) as [->|Hne].
      * rewrite decide_False by (by intros [? _]). destruct (under_way row).
        -- rewrite decide_False; [done|]. intros [_ ?]. congruence.
        -- rewrite lookup_delete_eq, decide_True; [done|]. split; [set_solver|done].
      * destruct (decide (g' ∈ rows.*1 ∧ kept_row g' = None)).
        -- rewrite decide_True; [done|]. set_solver.
        -- rewrite decide_False by set_solver. destruct (under_way row); [done|]. by rewrite lookup_delete_ne.
Qed.

(** ** The sweep *)

Lemma run_sweepGids gids S wk holders out :
  NoDup gids → pass_inv S wk →
  (∀ g, g ∈ gids → default [] (holders !! g) = held g ∧
        (w_rows w !! g = None ∧ g ∉ S ∨ ∃ row, w_rows w !! g = Some row ∧ under_way row = true)) →
  ∃ wk' out', run_alone wk (sweepGids where_text gids holders out []) = (wk', (out', [])) ∧
    pass_inv (list_to_set gids ∪ S) wk' ∧ Unresolved out' = Unresolved out.
Proof.
  revert S wk out. induction gids as [|g gids IH]; intros S wk out Hnd Hpi Hgids.
  { exists wk, out. split_and!; [done| |done]. cbn. by rewrite (left_id_L ∅ (∪)). }
  apply NoDup_cons in Hnd as [Hg Hnd]. destruct (Hgids g) as [Hh Hcase]; [set_solver|].
  assert (∃ wk1 out1, run_alone wk (sweepGids where_text (g :: gids) holders out []) =
      run_alone wk1 (sweepGids where_text gids holders out1 []) ∧
    pass_inv ({[g]} ∪ S) wk1 ∧ Unresolved out1 = Unresolved out) as (wk1 & out1 & Hrun & Hpi1 & Hout1).
  { cbn [sweepGids]. rewrite run_bind, run_call. cbn [sql_exec fst snd]. rewrite (pi_rows _ _ Hpi).
    destruct Hcase as [[Hno HgS]|(row & Hrow & Hu)].
    - assert (w_rows wk !! g = None) as Hr by (by rewrite (pi_rows _ _ Hpi), decide_False).
      rewrite decide_False, Hno, Hh by done. cbn [orphanState]. change (String.eqb "abort" "preparing") with false. cbn iota.
      rewrite run_bind. destruct (run_sweepHolders wk g false (held g) out []) as (out1 & Hrun & Hout1).
      { intros h Hin. by eapply pass_held. } { apply held_nodup. }
      change (String.eqb "abort" "commit") with false. rewrite Hrun. cbn [fst snd].
      eexists _, out1. split_and!; [done| |done]. eapply (pass_settle S wk); [done|done| | | | |].
      + unfold kept_row. by rewrite Hno.
      + apply set_all_now.
      + apply set_all_topology.
      + intros g'. rewrite set_all_rows. by case_decide as E; [rewrite E|].
      + intros sh g'. rewrite set_all_lookup. unfold commit_of. by rewrite Hno.
    - assert (d_state row = "preparing") as Hs.
      { unfold under_way in Hu. apply andb_true_iff in Hu as [Hu _]. by apply String.eqb_eq. }
      assert ((if decide (g ∈ S) then kept_row g else w_rows w !! g) = Some row) as ->.
      { case_decide; [|done]. unfold kept_row. rewrite Hrow. cbn. by rewrite Hu. }
      cbn [orphanState]. rewrite Hs. change (String.eqb "preparing" "preparing") with true. cbn iota.
      exists wk, out. split_and!; [done|by eapply pass_keep|done]. }
  destruct (IH ({[g]} ∪ S) wk1 out1) as (wk2 & out2 & Hrun2 & Hpi2 & Hout2); [done|done| |].
  - intros g' Hin. destruct (Hgids g') as [? Hc]; [set_solver|]. split; [done|].
    destruct Hc as [[? ?]|?]; [left|by right]. split; [done|]. assert (g' ≠ g) by congruence. set_solver.
  - exists wk2, out2. split_and!; [congruence| |congruence].
    cbn [list_to_set]. by replace ({[g]} ∪ list_to_set gids ∪ S) with (list_to_set gids ∪ ({[g]} ∪ S) : gset string) by set_solver.
Qed.

Definition sorted_rows : list (string * drow) := merge_sort created_le (map_to_list (w_rows w)).

Lemma elem_of_sorted_rows g row : (g, row) ∈ sorted_rows ↔ w_rows w !! g = Some row.
Proof. unfold sorted_rows. by rewrite merge_sort_Permutation, elem_of_map_to_list. Qed.
Lemma elem_of_sorted_keys g : g ∈ sorted_rows.*1 ↔ is_Some (w_rows w !! g).
Proof.
  rewrite list_elem_of_fmap. split.
  - intros ([g' row] & -> & Hin%elem_of_sorted_rows). by eexists.
  - intros [row Hrow%elem_of_sorted_rows]. by exists (g, row).
Qed.
Lemma sorted_keys_nodup : NoDup sorted_rows.*1.
Proof. unfold sorted_rows. rewrite merge_sort_Permutation. apply NoDup_fst_map_to_list. Qed.

Lemma run_scanPrepared : ∃ holders,
  run_alone w (scanPrepared (w_topology w)) = (w, (holders, [])) ∧ ∀ g, default [] (holders !! g) = held g.
Proof.
  unfold scanPrepared. rewrite run_bind, run_each, run_ops_readonly, run_ret.
  2: { intros o Ho. by apply list_elem_of_fmap in Ho as (sh & -> & _). }
  cbn [fst snd]. rewrite <- list_fmap_compose.
  destruct (collect_run (w_topology w) ∅ []) as [H1 H2].
  change ((λ o, (sql_exec w o).2) ∘ OpListPrepared) with (λ sh, RPrepared (list_prepared w sh)).
  destruct (collect _ _ _ _) as [holders errs]. cbn in *. subst errs. exists holders. split; [done|].
  intros g. by rewrite H1, lookup_empty.
Qed.

(** The decisions, then the sweep: every gid with a row or a holder is dealt
    with. *)
Lemma run_decisions_and_sweep holders out :
  (∀ g, default [] (holders !! g) = held g) →
  ∃ w' S holders' out1 out2,
    run_alone w (resolveDecisions where_text r ((λ '(g, row), decision_of g row) <$> sorted_rows) holders true out) =
      (w', (holders', out1)) ∧
    ∃ w'', run_alone w' (sweepOrphans where_text holders' (count_unresolved 0 out1)) = (w'', (out2, [])) ∧
    pass_inv S w'' ∧ Unresolved out2 = Unresolved out ∧
    ∀ g, is_Some (w_rows w !! g) ∨ held g ≠ [] → g ∈ S.
Proof.
  intros Hh.
  assert (pass_inv ∅ w) as H0.
  { split; [done|done|intros g; by rewrite decide_False by set_solver|].
    intros sh g. rewrite decide_False; [done|]. set_solver. }
  destruct (run_resolveDecisions sorted_rows ∅ w holders out) as (w1 & holders1 & out1 & Hrun1 & Hpi1 & Hout1 & Hh1).
  - apply sorted_keys_nodup.
  - intros g row. by rewrite elem_of_sorted_rows.
  - set_solver.
  - done.
  - auto.
  - destruct (run_sweepGids (sort_strings (map_to_list holders1).*1) (list_to_set sorted_rows.*1 ∪ ∅) w1 holders1
      (count_unresolved 0 out1)) as (w2 & out2 & Hrun2 & Hpi2 & Hout2).
    + rewrite sort_strings_Permutation. apply NoDup_fst_map_to_list.
    + done.
    + intros g Hin. rewrite sort_strings_Permutation in Hin.
      apply list_elem_of_fmap in Hin as ([g' hs] & -> & Hin). apply elem_of_map_to_list in Hin. cbn [fst].
      rewrite Hh1 in *. case_decide as Hd; [done|]. split; [apply Hh|].
      destruct (w_rows w !! g') as [row|] eqn:Hrow.
      * right. exists row. split; [done|]. apply not_false_is_true. intros Hu. apply Hd.
        rewrite elem_of_sorted_keys, Hrow. split; [by eexists|]. unfold kept_row. rewrite Hrow. cbn. by rewrite Hu.
      * left. split; [done|]. rewrite elem_of_union, elem_of_list_to_set, elem_of_sorted_keys, Hrow.
        by intros [[? ?]|?%elem_of_empty].
    + eexists w1, _, holders1, out1, out2. split; [done|]. exists w2. split_and!; [done|done| |].
      { rewrite Hout2. cbn. lia. }
      intros g Hg. rewrite !elem_of_union, !elem_of_list_to_set, sort_strings_Permutation, elem_of_sorted_keys.
      destruct (w_rows w !! g) as [row|] eqn:Hrow; [right; left; by eexists|left].
      destruct Hg as [[? ?]|Hg]; [done|].
      assert (holders1 !! g = holders !! g) as E.
      { rewrite Hh1, decide_False; [done|]. rewrite elem_of_sorted_keys, Hrow. by intros [[? ?] _]. }
      destruct (holders !! g) as [hs|] eqn:Hl; [|specialize (Hh g); rewrite Hl in Hh; by destruct Hg].
      apply list_elem_of_fmap. exists (g, hs). split; [done|]. apply elem_of_map_to_list. congruence.
Qed.

Lemma filter_all_shards : filter (λ sh : ShardRef, "" = "" ∨ sh.1 = "") (w_topology w) = w_topology w.
Proof.
  clear. generalize (w_topology w). intros l. induction l as [|sh l IH]; [done|].
  rewrite filter_cons_True by (by left). by rewrite IH.
Qed.

(** C12. One pass over the whole topology with nothing failing settles every
    in-doubt transaction, and only those.  A prepared transaction decided
    commit is committed, one decided abort, gone stale or claimed by no row is
    rolled back, and one whose coordinator still beats is left alone; the rows
    of the settled ones are gone, and the pass reports nothing unresolved. *)
Theorem Resolve_settles :
  w_rows w ≠ ∅ ∨ sweepDue r nowCheck = true →
  ∃ w' out, run_alone w (Resolve where_text r "" nowCheck nowSweep) = (w', (out, None, nowSweep)) ∧
    Unresolved out = 0 ∧
    (∀ g, w_rows w' !! g = kept_row g) ∧
    ∀ sh g, w_txns w' !! (sh, g) =
      if decide (sh ∈ w_topology w ∧ String.prefix GIDPrefix g = true)
      then settled g <$> w_txns w !! (sh, g) else w_txns w !! (sh, g).
Proof.
  intros Hdue. unfold Resolve. cbv zeta. rewrite run_bind, run_call. cbn [sql_exec fst snd].
  change (read_decisions w) with ((λ '(g, row), decision_of g row) <$> sorted_rows).
  assert (bool_decide (((λ '(g, row), decision_of g row) <$> sorted_rows) = []) && negb (sweepDue r nowCheck) = false) as ->.
  { destruct Hdue as [Hne| ->]; [|apply andb_false_r]. apply andb_false_iff. left. apply bool_decide_eq_false. intros E.
    apply fmap_nil_inv in E. apply Hne, map_empty. intros g. apply eq_None_not_Some.
    rewrite <- elem_of_sorted_keys, E. apply not_elem_of_nil. }
  rewrite run_bind, run_call. cbn [sql_exec fst snd]. rewrite filter_all_shards.
  destruct run_scanPrepared as (holders & Hscan & Hh). rewrite run_bind, Hscan. cbn [fst snd].
  destruct (run_decisions_and_sweep holders (mkOutcome 0 0 0) Hh)
    as (w1 & S & holders1 & out1 & out2 & Hrun1 & w2 & Hrun2 & Hpi & Hout & HS).
  rewrite run_bind. change (String.eqb "" "" && bool_decide ([] = @nil (ShardRef * pgerr))) with true.
  rewrite Hrun1. cbn [fst snd]. rewrite run_bind. change (Z.of_nat (length (@nil (ShardRef * pgerr)))) with 0.
  rewrite Hrun2. cbn [fst snd]. rewrite run_ret. change (String.eqb "" "") with true.
  rewrite bool_decide_eq_true_2 by done.
  exists w2, out2. split_and!; [done..| |].
  - intros g. rewrite (pi_rows _ _ Hpi). case_decide as Hg; [done|]. unfold kept_row.
    destruct (w_rows w !! g) as [row|] eqn:Hrow; [|done]. destruct Hg. apply HS. left. by eexists.
  - intros sh g. rewrite (pi_txns _ _ Hpi). destruct (decide (sh ∈ (held g).*1)) as [Hin|Hin].
    + rewrite decide_True; [|split; [|done]].
      * apply held_fst in Hin as (? & ? & _). by rewrite decide_True.
      * apply HS. right. intros E. rewrite E in Hin. by apply not_elem_of_nil in Hin.
    + rewrite decide_False by (by intros [_ ?]). case_decide as Hc; [|done]. destruct Hc as [H1 H2].
      destruct (w_txns w !! (sh, g)) as [[]|] eqn:Ht; try done.
      destruct Hin. apply held_fst. rewrite Ht. split_and!; [done..|by eexists].
Qed.
End Pass.

(** ** A concrete system *)

Module Example.
Definition sh0 : ShardRef := ("main", 0).
Definition sh1 : ShardRef := ("main", 1).
Definition gid : string := "pgshard-s1-1".
Definition the_txn : txn := mkTxn gid [sh0; sh1] [].
Definition lost (e : pgerr) : Prop := e = err_no_session.
Definition where_ (commit : bool) (h : holder) : string := "ROLLBACK PREPARED on main/0 database app".
(** Both sessions hold an open transaction. *)
Definition start : world :=
  mkWorld ∅ (<[(sh0, gid) := TActive "app" "700"]> (<[(sh1, gid) := TActive "app" "900"]> ∅)) [sh0; sh1] 0.
Definition procs : list process := [PCoordinate the_txn].
Definition finish : world * answer := run_alone start (process_prog where_ (PCoordinate the_txn)).

Lemma start_initial : initial start procs.
Proof.
  split; [by apply NoDup_singleton|].
  intros g ws Hg. unfold coordinated, procs in Hg. cbn in Hg.
  apply lookup_insert_Some in Hg as [[<- <-]|[_ Hg]]; [|by rewrite lookup_empty in Hg].
  split; [done|]. split_and!; [done|set_solver|].
  intros sh Hsh. rewrite !elem_of_cons, elem_of_nil in Hsh. split.
  - intros [db Hdb]. by destruct Hsh as [->|[->|[]]].
  - by destruct Hsh as [->|[->|[]]].
Qed.

Definition finished : world * list (option (prog answer)) := (finish.1, [Some (Ret finish.2)]).
Lemma finish_reached : ∃ tr, path (sys_step (sql_step lost)) (launched where_ procs start) tr finished.
Proof. apply rtc_path. exact (run_alone_steps lost start (process_prog where_ (PCoordinate the_txn))). Qed.
Lemma finished_sh0 : w_txns finished.1 !! (sh0, t_gid the_txn) = Some TCommitted.
Proof. vm_compute. reflexivity. Qed.
Lemma finished_answer : finished.2 !! 0%nat = Some (Some (Ret (ATxn (t_gid the_txn) TpcCommitted))).
Proof. vm_compute. reflexivity. Qed.

Lemma two_phase_commit_atomic_witness : ∃ tr,
  path (sys_step (sql_step lost)) (launched where_ procs start) tr finished ∧ w_txns finished.1 !! (sh0, t_gid the_txn) = Some TCommitted ∧
  (w_txns finished.1 !! (sh1, t_gid the_txn) ≠ Some TAborted ∨ occurs (misled lost where_) (launched where_ procs start) tr).
Proof.
  destruct finish_reached as [tr Hr]. exists tr. split; [exact Hr|]. split; [exact finished_sh0|].
  exact (two_phase_commit_atomic lost where_ procs start start_initial tr finished the_txn sh0 sh1 Hr
    (list_elem_of_here _ _) (list_elem_of_here _ _) (list_elem_of_further _ _ _ (list_elem_of_here _ _)) finished_sh0).
Defined.

Lemma client_answer_true_witness : ∃ tr,
  path (sys_step (sql_step lost)) (launched where_ procs start) tr finished ∧
  (((∀ sh, sh ∈ t_writers the_txn → prepared (w_txns finished.1 !! (sh, t_gid the_txn)) ∨ w_txns finished.1 !! (sh, t_gid the_txn) = Some TCommitted) ∧
   (d_state <$> w_rows finished.1 !! t_gid the_txn = Some "commit" ∨
    ∀ sh, sh ∈ t_writers the_txn → w_txns finished.1 !! (sh, t_gid the_txn) = Some TCommitted)) ∨
   occurs (misled lost where_) (launched where_ procs start) tr).
Proof.
  destruct finish_reached as [tr Hr]. exists tr. split; [exact Hr|].
  exact (client_answer_true lost where_ procs start start_initial tr finished 0%nat the_txn TpcCommitted
    Hr (list_elem_of_here _ _) finished_answer).
Defined.

Lemma decision_outlives_transaction_witness : ∃ tr,
  path (sys_step (sql_step lost)) (launched where_ procs start) tr finished ∧
  (((d_state <$> w_rows finished.1 !! t_gid the_txn = Some "commit" ∨
    ∀ sh, sh ∈ t_writers the_txn → w_txns finished.1 !! (sh, t_gid the_txn) = Some TCommitted) ∧
   ∀ sh, sh ∈ t_writers the_txn → prepared (w_txns finished.1 !! (sh, t_gid the_txn)) ∨ w_txns finished.1 !! (sh, t_gid the_txn) = Some TCommitted) ∨
   occurs (misled lost where_) (launched where_ procs start) (tr ++ [])).
Proof.
  destruct finish_reached as [tr Hr]. exists tr. split; [exact Hr|].
  exact (decision_outlives_transaction lost where_ procs start start_initial tr finished [] finished the_txn
    Hr eq_refl (list_elem_of_here _ _) (or_intror (ex_intro _ sh0 (conj (list_elem_of_here _ _) finished_sh0)))).
Defined.

Lemma twoPhaseCommit_commits_witness :
  (run_alone start (twoPhaseCommit PGDecisionLog gid [sh0; sh1] [])).2 = TpcCommitted.
Proof.
  assert (∀ sh, sh ∈ [sh0; sh1] ++ [] →
    w_txns start !! (sh, gid) = Some (TActive "app" (if decide (sh = sh0) then "700" else "900"))) as Hact.
  { intros sh Hsh. rewrite app_nil_r, !elem_of_cons, elem_of_nil in Hsh.
    destruct Hsh as [->|[->|[]]]; vm_compute; reflexivity. }
  assert (NoDup ([sh0; sh1] ++ [])) as Hnd by (apply (bool_decide_unpack _); vm_compute; exact I).
  pose proof (twoPhaseCommit_commits start gid [sh0; sh1] [] (λ _, "app") (λ sh, if decide (sh = sh0) then "700" else "900")
    Hact eq_refl Hnd ltac:(discriminate)) as H.
  destruct (run_alone start (twoPhaseCommit PGDecisionLog gid [sh0; sh1] [])) as [w' r]. exact (proj1 H).
Defined.

(** A coordinator that died with its decision made: both participants are
    prepared and the row says commit. *)
Definition in_doubt : world :=
  mkWorld {[gid := mkRow "commit" [0; 1] ["700"; "900"] 0 0]}
    (<[(sh0, gid) := TPrepared "app"]> (<[(sh1, gid) := TPrepared "app"]> ∅)) [sh0; sh1] 5.
Definition resolver : Resolver := mkResolver 0 0 0 0.

Lemma Resolve_settles_witness :
  ∃ w' out, run_alone in_doubt (Resolve where_ resolver "" 0 7) = (w', (out, None, 7)) ∧ Unresolved out = 0 ∧
    w_rows w' !! gid = None ∧ w_txns w' !! (sh1, gid) = Some TCommitted.
Proof.
  assert (NoDup (w_topology in_doubt)) as Hnd by (apply (bool_decide_unpack _); vm_compute; exact I).
  assert (w_rows in_doubt ≠ ∅ ∨ sweepDue resolver 0 = true) as Hdue.
  { left. intros E. assert (w_rows in_doubt !! gid = None) as H by (rewrite E; apply lookup_empty). discriminate H. }
  destruct (Resolve_settles where_ resolver in_doubt 0 7 Hnd Hdue) as (w' & out & Hrun & Hun & Hrows & Htx).
  exists w', out. split_and!; [exact Hrun|exact Hun| |].
  - rewrite Hrows. vm_compute. reflexivity.
  - rewrite Htx. vm_compute. reflexivity.
Defined.

(** ** Why failures must not read like a missing transaction *)

(** As [run_alone], with the statements [fault] names failing unexecuted. *)
Fixpoint run_slots_with (fault : op → option pgerr) (w : world) (slots : list (op + resp)) : world * list resp :=
  match slots with
  | [] => (w, [])
  | inl o :: slots =>
      let '(w1, r) := match fault o with Some e => (w, RErr e) | None => sql_exec w o end in
      let '(w2, rs) := run_slots_with fault w1 slots in (w2, r :: rs)
  | inr r :: slots => let '(w2, rs) := run_slots_with fault w slots in (w2, r :: rs)
  end.
Fixpoint run_with {A} (fault : op → option pgerr) (w : world) (p : prog A) : world * A :=
  match p with
  | Ret a => (w, a)
  | Each slots k => let '(w', rs) := run_slots_with fault w slots in run_with fault w' (k rs)
  end.

(** The connection to shard 1 is refused for want of the role. *)
Definition role_missing : pgerr := mkErr "28000" "role resolver does not exist".
Definition refuse_sh1 (o : op) : option pgerr :=
  match o with OpFinish sh _ _ _ => if decide (sh = sh1) then Some role_missing else None | _ => None end.

(** C34. [isGonePreparedXact] reads any error that contains "does not exist" as a
    transaction already finished.  One refused connection of that text makes a
    pass drop the commit decision with shard 1 still prepared, and the next
    pass's sweep rolls back there what shard 0 committed. *)
Theorem gone_lookalike_splits_transaction :
  let w1 := (run_with refuse_sh1 in_doubt (Resolve where_ resolver "" 0 7)).1 in
  let w2 := (run_alone w1 (Resolve where_ resolver "" 100000000000 100000000000)).1 in
  w_rows w1 !! gid = None ∧ w_txns w1 !! (sh1, gid) = Some (TPrepared "app") ∧
  w_txns w2 !! (sh0, gid) = Some TCommitted ∧ w_txns w2 !! (sh1, gid) = Some TAborted.
Proof. vm_compute. repeat split. Qed.
End Example.
