(* ===== verification/Reconcile.v ===== *)
(** * Reconciliation after a restore ([src/internal/twopc])

    The decision table that finishes a participant's prepared transactions
    against the router's decision log ([reconcile.go]), and the decision's
    encoding on the wire ([proto.go]).  [Participant] is the interface the
    reconciler is written against; its laws are [LawfulParticipant]. *)

From Stdlib Require Import Ascii.
From stdpp Require Import pretty.
From S2P Require Import Prelude.

Local Open Scope Z_scope.

(** ** The decision table *)

Definition StateNone : string := "".
Definition StatePreparing : string := "preparing".
Definition StateCommit : string := "commit".
Definition StateAbort : string := "abort".

Definition Known (s : string) : bool :=
  String.eqb s StateNone || String.eqb s StatePreparing || String.eqb s StateCommit || String.eqb s StateAbort.

Inductive Action := Nothing | Commit | Rollback | Contradiction | Unverifiable | Unreadable.

Definition StatusCommitted : string := "committed".
Definition StatusAborted : string := "aborted".
Definition StatusInProgress : string := "in progress".
Definition StatusUnavailable : string := "".

Definition Decide (state : string) (prepared : bool) (status : string) : Action :=
  if negb (Known state) then Unreadable
  else if prepared && String.eqb state StateCommit then Commit
  else if prepared then Rollback
  else if String.eqb state StateCommit && String.eqb status StatusCommitted then Nothing
  else if String.eqb state StateCommit && String.eqb status StatusUnavailable then Unverifiable
  else if String.eqb state StateCommit then Contradiction
  else Nothing.

(** ** The decision log *)

Record Participation := mkPart { Shard : Z; XID : string }.
Record Decision := mkDecision { GID : string; State : string; Participants : list Participation }.

Fixpoint find_xid (ps : list Participation) (shard : Z) : string :=
  match ps with
  | [] => ""
  | p :: ps => if Shard p =? shard then XID p else find_xid ps shard
  end.
(** [Decision.XID] *)
Definition XIDOf (d : Decision) (shard : Z) : string := find_xid (Participants d) shard.

Fixpoint has_shard (ps : list Participation) (shard : Z) : bool :=
  match ps with
  | [] => false
  | p :: ps => if Shard p =? shard then true else has_shard ps shard
  end.
Definition Involves (d : Decision) (shard : Z) : bool := has_shard (Participants d) shard.

Record Outcome := mkOutcome {
  Committed : Z; RolledBack : Z;
  Contradictory : list string; Unverified : list string; Unread : list string }.

(** ** Participants *)

(** The [Participant] interface, its state passed explicitly; errors are Go
    error texts. *)
Class Participant (P : Type) := {
  Prepared : P → P * result string (gmap string string);
  Finish : P → string → string → bool → P * option string;
  XactStatus : P → string → P * result string string
}.

Section Reconcile.
Context {P : Type} `{!Participant P}.

Definition apply (p : P) (db gid : string) (a : Action) (out : Outcome) : P * Outcome * option string :=
  match a with
  | Commit =>
      let '(p, err) := Finish p db gid true in
      match err with
      | Some e => (p, out, Some e)
      | None => (p, mkOutcome (Committed out + 1) (RolledBack out) (Contradictory out) (Unverified out) (Unread out), None)
      end
  | Rollback =>
      let '(p, err) := Finish p db gid false in
      match err with
      | Some e => (p, out, Some e)
      | None => (p, mkOutcome (Committed out) (RolledBack out + 1) (Contradictory out) (Unverified out) (Unread out), None)
      end
  | Contradiction => (p, mkOutcome (Committed out) (RolledBack out) (Contradictory out ++ [gid]) (Unverified out) (Unread out), None)
  | Unverifiable => (p, mkOutcome (Committed out) (RolledBack out) (Contradictory out) (Unverified out ++ [gid]) (Unread out), None)
  | Unreadable => (p, mkOutcome (Committed out) (RolledBack out) (Contradictory out) (Unverified out) (Unread out ++ [gid]), None)
  | Nothing => (p, out, None)
  end.

(** The loop over the decisions; the set of gids it saw comes last. *)
Fixpoint reconcile_decisions (p : P) (prepared : gmap string string) (shard : Z) (ds : list Decision)
    (out : Outcome) (seen : gset string) : P * Outcome * option string * gset string :=
  match ds with
  | [] => (p, out, None, seen)
  | d :: ds =>
      if negb (Involves d shard) then reconcile_decisions p prepared shard ds out seen else
      let seen := {[GID d]} ∪ seen in
      let held := bool_decide (is_Some (prepared !! GID d)) in
      let db := default "" (prepared !! GID d) in
      let '(p, status) :=
        if negb held && String.eqb (State d) StateCommit then XactStatus p (XIDOf d shard) else (p, Ok "") in
      match status with
      | Err e => (p, out, Some e, seen)
      | Ok status =>
          let '(p, out, err) := apply p db (GID d) (Decide (State d) held status) out in
          match err with
          | Some e => (p, out, Some e, seen)
          | None => reconcile_decisions p prepared shard ds out seen
          end
      end
  end.

(** The loop over what the participant holds and no decision named. *)
Fixpoint reconcile_rest (p : P) (prepared : gmap string string) (gids : list string) (out : Outcome)
    (seen : gset string) : P * Outcome * option string :=
  match gids with
  | [] => (p, out, None)
  | g :: gids =>
      if decide (g ∈ seen) then reconcile_rest p prepared gids out seen else
      let '(p, out, err) := apply p (default "" (prepared !! g)) g (Decide StateNone true "") out in
      match err with
      | Some e => (p, out, Some e)
      | None => reconcile_rest p prepared gids out seen
      end
  end.

Definition Reconcile (p : P) (shard : Z) (decisions : list Decision) : P * Outcome * option string :=
  let out := mkOutcome 0 0 [] [] [] in
  let '(p, prepared) := Prepared p in
  match prepared with
  | Err e => (p, out, Some e)
  | Ok prepared =>
      let '(p, out, err, seen) := reconcile_decisions p prepared shard decisions out ∅ in
      match err with
      | Some e => (p, out, Some e)
      | None => reconcile_rest p prepared (sort_strings (map_to_list prepared).*1) out seen
      end
  end.
End Reconcile.

(** [Contradictions]: the texts, shard by shard; [None] is a nil error. *)
Definition contradiction_texts (shard : Z) (o : Outcome) : list string :=
  ((λ gid, "shard " +:+ pretty shard +:+ ": " +:+ gid +:+ " is decided commit but is neither prepared nor committed") <$> Contradictory o) ++
  ((λ gid, "shard " +:+ pretty shard +:+ ": " +:+ gid +:+ " is decided commit and not prepared, and its transaction id's status is unavailable (frozen, unrecorded or in the future): the commit cannot be verified") <$> Unverified o) ++
  ((λ gid, "shard " +:+ pretty shard +:+ ": " +:+ gid +:+ " records a decision this build does not recognise, so it is left prepared") <$> Unread o).

Definition Contradictions (byShard : gmap Z Outcome) : option string :=
  let shards := merge_sort Z.le (map_to_list byShard).*1 in
  let parts := mjoin ((λ shard, match byShard !! shard with Some o => contradiction_texts shard o | None => [] end) <$> shards) in
  match parts with
  | [] => None
  | _ => Some ("two-phase reconciliation contradictions: " +:+ String.concat "; " parts)
  end.

(** ** The participant over a connection *)

(** [quoteLiteral] *)
Fixpoint double_quotes (s : string) : string :=
  match s with
  | EmptyString => EmptyString
  | String c s => if Ascii.eqb c "'"%char then String c (String c (double_quotes s)) else String c (double_quotes s)
  end.
Definition quoteLiteral (s : string) : string := "'" +:+ double_quotes s +:+ "'".

(** The [Conn] interface as the participant uses it: the prepared
    transactions' rows, a command, and one status query. *)
Class Conn (C : Type) := {
  QueryPrepared : C → C * result string (list (string * string));
  Exec : C → string → C * option string;
  QueryStatus : C → string → C * result string string
}.

Definition isFutureXID (err : string) : bool := contains err "is in the future".

Section ConnParticipant.
Context {C : Type} `{!Conn C}.

(** Later rows of the same gid win, as in the Go map. *)
Definition ListPrepared (conn : C) : C * result string (gmap string string) :=
  let '(conn, rows) := QueryPrepared conn in
  (conn, match rows with
         | Err e => Err ("prepared transactions: " +:+ e)
         | Ok rows => Ok (foldl (λ m '(gid, db), <[gid := db]> m) ∅ rows)
         end).

Definition finish_sql (gid : string) (commit : bool) : string :=
  (if commit then "COMMIT PREPARED" else "ROLLBACK PREPARED") +:+ " " +:+ quoteLiteral gid.

Definition FinishConn (conn : C) (gid : string) (commit : bool) : C * option string :=
  let '(conn, err) := Exec conn (finish_sql gid commit) in
  (conn, match err with
         | Some e => Some ((if commit then "commit prepared" else "rollback prepared") +:+ " " +:+ gid +:+ ": " +:+ e)
         | None => None
         end).

Definition QueryXactStatus (conn : C) (xid : string) : C * result string string :=
  if String.eqb xid "" then (conn, Ok StatusUnavailable) else
  let '(conn, s) := QueryStatus conn xid in
  (conn, match s with
         | Err e => if isFutureXID e then Ok StatusUnavailable else Err ("pg_xact_status(" +:+ xid +:+ "): " +:+ e)
         | Ok s => Ok s
         end).

#[export] Instance ConnParticipant : Participant C := {|
  Prepared := ListPrepared;
  Finish p _ gid commit := FinishConn p gid commit;
  XactStatus := QueryXactStatus
|}.
End ConnParticipant.

(** ** On the wire *)

Inductive TransactionDecisionState :=
| STATE_UNSPECIFIED | STATE_PREPARING | STATE_COMMIT | STATE_ABORT
| STATE_OTHER (n : Z). (* a value of a newer build *)

Definition wire_number (s : TransactionDecisionState) : Z :=
  match s with
  | STATE_UNSPECIFIED => 0 | STATE_PREPARING => 1 | STATE_COMMIT => 2 | STATE_ABORT => 3 | STATE_OTHER n => n
  end.

Definition StateToProto (s : string) : TransactionDecisionState :=
  if String.eqb s StatePreparing then STATE_PREPARING
  else if String.eqb s StateCommit then STATE_COMMIT
  else if String.eqb s StateAbort then STATE_ABORT
  else STATE_UNSPECIFIED.

Definition StateFromProto (s : TransactionDecisionState) : string :=
  match s with
  | STATE_PREPARING => StatePreparing
  | STATE_COMMIT => StateCommit
  | STATE_ABORT => StateAbort
  | _ => "unrecognised(" +:+ pretty (wire_number s) +:+ ")"
  end.

(** A participant on the wire: [Xid] is a pointer, absent for "". *)
Record TransactionParticipant := mkTP { ShardId : Z; Xid : option string }.
Record TransactionDecision := mkTD { Gid : string; WState : TransactionDecisionState; WParticipants : list TransactionParticipant }.

Definition DecisionToProto (d : Decision) : TransactionDecision :=
  mkTD (GID d) (StateToProto (State d))
    ((λ p, mkTP (Shard p) (if String.eqb (XID p) "" then None else Some (XID p))) <$> Participants d).

Definition DecisionFromProto (d : TransactionDecision) : Decision :=
  mkDecision (Gid d) (StateFromProto (WState d))
    ((λ p, mkPart (ShardId p) (default "" (Xid p))) <$> WParticipants d).

(** ** What a participant promises *)

(** A participant holds transactions prepared, remembers how it finished
    others, and knows what became of a transaction id; the answer about one
    that is [settled], that is not of a prepared transaction, does not change. *)
Class LawfulParticipant (P : Type) `{!Participant P} := {
  held : P → gmap string string;
  finished : P → gmap string bool;
  status_of : string → string;
  settled_xid : string → Prop;
  prepared_law p p' m :
    Prepared p = (p', Ok m) → m = held p ∧ held p' = held p ∧ finished p' = finished p;
  finish_law p db gid commit p' :
    Finish p db gid commit = (p', None) →
    held p' = delete gid (held p) ∧ finished p' = <[gid := commit]> (finished p);
  status_law p xid p' s :
    XactStatus p xid = (p', Ok s) →
    (settled_xid xid → s = status_of xid) ∧ held p' = held p ∧ finished p' = finished p
}.

(** ** What reconciliation does *)

Section Spec.
Variable shard : Z.

(** The decision that governs [g] on the shard. *)
Fixpoint decision_for (ds : list Decision) (g : string) : option Decision :=
  match ds with
  | [] => None
  | d :: ds => if Involves d shard && String.eqb (GID d) g then Some d else decision_for ds g
  end.

Definition decided_commit (d : Decision) : bool := String.eqb (State d) StateCommit.

Lemma decision_for_none ds g : g ∉ GID <$> ds → decision_for ds g = None.
Proof.
  induction ds as [|d ds IH]; intros Hg; [done|]. cbn in *. apply not_elem_of_cons in Hg as [H1 H2].
  rewrite (proj2 (String.eqb_neq _ _)) by done. rewrite andb_false_r. auto.
Qed.

Lemma Decide_held state status :
  Decide state true status = if Known state then (if String.eqb state StateCommit then Commit else Rollback) else Unreadable.
Proof. unfold Decide. by destruct (Known state), (String.eqb state StateCommit). Qed.

Lemma Known_commit s : String.eqb s StateCommit = true → Known s = true.
Proof. intros ->%String.eqb_eq. done. Qed.

Context {P : Type} `{!Participant P, !LawfulParticipant P}.

(** What the decisions make of a gid the participant held, if anything. *)
Definition verdict (ds : list Decision) (prepared : gmap string string) (g : string) : option bool :=
  match decision_for ds g, prepared !! g with
  | Some d, Some _ => if Known (State d) then Some (decided_commit d) else None
  | _, _ => None
  end.

(** The decisions the shard takes part in and cannot honour, of each kind. *)
Definition is_contradiction (prepared : gmap string string) (d : Decision) : bool :=
  Involves d shard && decided_commit d && bool_decide (prepared !! GID d = None) &&
  negb (String.eqb (status_of (XIDOf d shard)) StatusCommitted) &&
  negb (String.eqb (status_of (XIDOf d shard)) StatusUnavailable).
Definition is_unverifiable (prepared : gmap string string) (d : Decision) : bool :=
  Involves d shard && decided_commit d && bool_decide (prepared !! GID d = None) &&
  String.eqb (status_of (XIDOf d shard)) StatusUnavailable.
Definition is_unreadable (d : Decision) : bool := Involves d shard && negb (Known (State d)).

Definition pick (f : Decision → bool) (ds : list Decision) : list string := GID <$> filter (λ d, f d = true) ds.

Lemma pick_cons f d ds : pick f (d :: ds) = (if f d then [GID d] else []) ++ pick f ds.
Proof. unfold pick. rewrite filter_cons. destruct (f d) eqn:E; by rewrite ?decide_True, ?decide_False by congruence. Qed.

(** The state and the outcome after some of the decisions. *)
Record reconciled (prepared : gmap string string) (ds : list Decision) (p p' : P) (out out' : Outcome) : Prop := {
  rec_held g : held p' !! g = match verdict ds prepared g with Some _ => None | None => held p !! g end;
  rec_finished g : finished p' !! g = match verdict ds prepared g with Some c => Some c | None => finished p !! g end;
  rec_contradictory : Contradictory out' = Contradictory out ++ pick (is_contradiction prepared) ds;
  rec_unverified : Unverified out' = Unverified out ++ pick (is_unverifiable prepared) ds;
  rec_unread : Unread out' = Unread out ++ pick is_unreadable ds
}.

Lemma reconciled_skip prepared d ds p p' out out' :
  Involves d shard = false → reconciled prepared ds p p' out out' → reconciled prepared (d :: ds) p p' out out'.
Proof.
  intros Hi [H1 H2 H3 H4 H5]. split.
  - intros g. rewrite H1. unfold verdict. cbn. by rewrite Hi.
  - intros g. rewrite H2. unfold verdict. cbn. by rewrite Hi.
  - rewrite H3, pick_cons. unfold is_contradiction at 2. by rewrite Hi.
  - rewrite H4, pick_cons. unfold is_unverifiable at 2. by rewrite Hi.
  - rewrite H5, pick_cons. unfold is_unreadable at 2. by rewrite Hi.
Qed.

Lemma reconciled_cons prepared d ds p p1 p' out out1 out' :
  Involves d shard = true → GID d ∉ GID <$> ds →
  reconciled prepared [d] p p1 out out1 → reconciled prepared ds p1 p' out1 out' →
  reconciled prepared (d :: ds) p p' out out'.
Proof.
  intros Hi Hn [A1 A2 A3 A4 A5] [B1 B2 B3 B4 B5].
  assert (∀ g, verdict (d :: ds) prepared g = if decide (GID d = g) then verdict [d] prepared g else verdict ds prepared g) as Hv.
  { intros g. unfold verdict. cbn. rewrite Hi. cbn. case_decide as E.
    - by rewrite (proj2 (String.eqb_eq _ _)).
    - by rewrite (proj2 (String.eqb_neq _ _)). }
  assert (verdict ds prepared (GID d) = None) as Hd by (unfold verdict; by rewrite decision_for_none).
  assert (∀ g, GID d ≠ g → verdict [d] prepared g = None) as Ho.
  { intros g Hg. unfold verdict. cbn. rewrite (proj2 (String.eqb_neq _ _)) by done. by rewrite andb_false_r. }
  split.
  - intros g. rewrite B1, A1, Hv. case_decide as E; [subst g; by rewrite Hd|]. by rewrite (Ho g).
  - intros g. rewrite B2, A2, Hv. case_decide as E; [subst g; by rewrite Hd|]. by rewrite (Ho g).
  - rewrite B3, A3, !pick_cons. by rewrite app_nil_r, app_assoc.
  - rewrite B4, A4, !pick_cons. by rewrite app_nil_r, app_assoc.
  - rewrite B5, A5, !pick_cons. by rewrite app_nil_r, app_assoc.
Qed.

Ltac pick_one := rewrite pick_cons; unfold is_contradiction, is_unverifiable, is_unreadable, pick; cbn;
  rewrite ?app_nil_r.

(** One decision on a transaction the participant holds. *)
Lemma apply_held prepared d db p p' out out' :
  Involves d shard = true → prepared !! GID d = Some db →
  apply p db (GID d) (Decide (State d) true "") out = (p', out', None) → reconciled prepared [d] p p' out out'.
Proof.
  intros Hi Hp. rewrite Decide_held.
  assert (∀ c : bool, Known (State d) = true → decided_commit d = c →
    held p' = delete (GID d) (held p) → finished p' = <[GID d := c]> (finished p) →
    Contradictory out' = Contradictory out → Unverified out' = Unverified out → Unread out' = Unread out →
    reconciled prepared [d] p p' out out') as Hfin.
  { intros c Hk Hc Hh Hf H1 H2 H3. split.
    - intros g. rewrite Hh. unfold verdict. cbn. rewrite Hi. cbn. destruct (String.eqb_spec (GID d) g) as [<-|Hne].
      + by rewrite lookup_delete_eq, Hp, Hk.
      + by rewrite lookup_delete_ne.
    - intros g. rewrite Hf. unfold verdict. cbn. rewrite Hi. cbn. destruct (String.eqb_spec (GID d) g) as [<-|Hne].
      + by rewrite lookup_insert_eq, Hp, Hk, Hc.
      + by rewrite lookup_insert_ne.
    - pick_one. rewrite Hp, bool_decide_eq_false_2, !andb_false_r by done. cbn. by rewrite app_nil_r.
    - pick_one. rewrite Hp, bool_decide_eq_false_2, !andb_false_r by done. cbn. by rewrite app_nil_r.
    - pick_one. rewrite Hk, andb_false_r. by rewrite app_nil_r. }
  destruct (Known (State d)) eqn:Hk.
  - destruct (String.eqb (State d) StateCommit) eqn:Hc; cbn [apply];
      (destruct (Finish p db (GID d) _) as [p1 err] eqn:HF; destruct err; [done|]); intros [= <- <-];
      apply finish_law in HF as [Hh Hf]; by eapply Hfin.
  - cbn [apply]. intros [= <- <-]. split; cbn [Contradictory Unverified Unread].
    + intros g. unfold verdict. cbn. destruct (Involves d shard && String.eqb (GID d) g); [|done].
      rewrite Hk. by destruct (prepared !! g).
    + intros g. unfold verdict. cbn. destruct (Involves d shard && String.eqb (GID d) g); [|done].
      rewrite Hk. by destruct (prepared !! g).
    + pick_one. rewrite Hp, bool_decide_eq_false_2, !andb_false_r by done. cbn. by rewrite app_nil_r.
    + pick_one. rewrite Hp, bool_decide_eq_false_2, !andb_false_r by done. cbn. by rewrite app_nil_r.
    + pick_one. by rewrite Hi, Hk.
Qed.

(** One decision on a transaction it does not hold. *)
Lemma apply_not_held prepared d p p' out out' status :
  Involves d shard = true → prepared !! GID d = None →
  (decided_commit d = true → status = status_of (XIDOf d shard)) →
  apply p "" (GID d) (Decide (State d) false status) out = (p', out', None) → reconciled prepared [d] p p' out out'.
Proof.
  intros Hi Hp Hs Ha.
  assert (p' = p ∧ Contradictory out' = Contradictory out ++ pick (is_contradiction prepared) [d] ∧
    Unverified out' = Unverified out ++ pick (is_unverifiable prepared) [d] ∧
    Unread out' = Unread out ++ pick is_unreadable [d]) as (-> & H1 & H2 & H3).
  { revert Ha Hs. unfold Decide, decided_commit. rewrite !pick_cons.
    unfold is_contradiction, is_unverifiable, is_unreadable, decided_commit, pick. cbn [filter fmap list_fmap andb].
    rewrite Hi, Hp, bool_decide_eq_true_2 by done. cbn [andb].
    pose proof (Known_commit (State d)) as Hkc.
    destruct (Known (State d)), (String.eqb (State d) StateCommit); cbn [negb andb]; try discriminate (Hkc eq_refl).
    - intros Ha Hs. rewrite (Hs eq_refl) in Ha.
      assert (status_of (XIDOf d shard) = StatusCommitted → String.eqb (status_of (XIDOf d shard)) StatusUnavailable = false) as Hx
        by (by intros ->).
      destruct (String.eqb_spec (status_of (XIDOf d shard)) StatusCommitted) as [E|E].
      + rewrite Hx by done. cbn in Ha. simplify_eq. split_and!; cbn; by rewrite ?app_nil_r.
      + destruct (String.eqb (status_of (XIDOf d shard)) StatusUnavailable); cbn in Ha; simplify_eq;
          split_and!; cbn; by rewrite ?app_nil_r.
    - intros Ha _. cbn in Ha. simplify_eq. split_and!; cbn; by rewrite ?app_nil_r.
    - intros Ha _. cbn in Ha. simplify_eq. split_and!; cbn; by rewrite ?app_nil_r. }
  split; [| |done..]; intros g; unfold verdict; cbn; rewrite Hi; cbn;
    destruct (String.eqb_spec (GID d) g) as [<-|]; by rewrite ?Hp.
Qed.

Lemma reconcile_decisions_ok prepared ds p p' out out' seen seen' :
  NoDup (GID <$> ds) →
  (∀ d, d ∈ ds → Involves d shard = true → prepared !! GID d = None → settled_xid (XIDOf d shard)) →
  reconcile_decisions p prepared shard ds out seen = (p', out', None, seen') →
  reconciled prepared ds p p' out out' ∧
  ∀ g, g ∈ seen' ↔ g ∈ seen ∨ is_Some (decision_for ds g).
Proof.
  revert p out seen. induction ds as [|d ds IH]; intros p out seen Hnd Hset Hr.
  { cbn in Hr. simplify_eq. split.
    - split; [done|done|..]; unfold pick; cbn; by rewrite app_nil_r.
    - intros g. cbn. split; [by left|]. intros [?|[? ?]]; done. }
  rewrite fmap_cons in Hnd. apply NoDup_cons in Hnd as [Hn Hnd]. cbn [reconcile_decisions] in Hr.
  assert (∀ d, d ∈ ds → Involves d shard = true → prepared !! GID d = None → settled_xid (XIDOf d shard)) as Hset'
    by (intros d' ?; apply Hset; set_solver).
  destruct (Involves d shard) eqn:Hi; cbn [negb] in Hr.
  2: { destruct (IH _ _ _ Hnd Hset' Hr) as [H1 H2]. split; [by apply reconciled_skip|].
       intros g. rewrite H2. cbn. by rewrite Hi. }
  assert (∃ p1 p2 out2 status, (decided_commit d = true → prepared !! GID d = None → status = status_of (XIDOf d shard)) ∧
    held p1 = held p ∧ finished p1 = finished p ∧
    apply p1 (default "" (prepared !! GID d)) (GID d) (Decide (State d) (bool_decide (is_Some (prepared !! GID d))) status) out
      = (p2, out2, None) ∧ (prepared !! GID d ≠ None → status = "") ∧
    reconcile_decisions p2 prepared shard ds out2 ({[GID d]} ∪ seen) = (p', out', None, seen'))
    as (p1 & p2 & out2 & status & Hs & Hh & Hf & Ha & Hs' & Hrest).
  { unfold decided_commit.
    destruct (negb (bool_decide (is_Some (prepared !! GID d))) && String.eqb (State d) StateCommit) eqn:Hq.
    - apply andb_true_iff in Hq as [Hnh Hc]. apply negb_true_iff, bool_decide_eq_false in Hnh.
      destruct (XactStatus p (XIDOf d shard)) as [p1 [status|e]] eqn:Hx; [|done].
      destruct (apply p1 _ _ _ _) as [[p2 out2] [e|]] eqn:Ha; [done|].
      apply status_law in Hx as (Hst & Hh & Hf). exists p1, p2, out2, status.
      split_and!; try done.
      + intros _ Hp. apply Hst, Hset; [set_solver|done..].
      + intros Hp. by destruct Hnh, (prepared !! GID d).
    - destruct (apply p _ _ _ _) as [[p2 out2] [e|]] eqn:Ha; [done|]. exists p, p2, out2, "".
      split_and!; try done. intros Hc Hp. rewrite Hp, Hc, bool_decide_eq_false_2 in Hq by (by intros [? ?]). done. }
  destruct (IH _ _ _ Hnd Hset' Hrest) as [H1 H2].
  assert (reconciled prepared [d] p p2 out out2) as Hd.
  { assert (reconciled prepared [d] p1 p2 out out2) as [A1 A2 A3 A4 A5].
    { destruct (prepared !! GID d) as [db|] eqn:Hp.
      - rewrite (Hs' ltac:(done)), bool_decide_eq_true_2 in Ha by (by eexists). by eapply apply_held.
      - rewrite bool_decide_eq_false_2 in Ha by (by intros [? ?]). eapply apply_not_held; [done|done|auto|done]. }
    split; intros; [rewrite A1|rewrite A2|done..]; by rewrite ?Hh, ?Hf. }
  split; [by eapply reconciled_cons|].
  intros g. rewrite H2. cbn. rewrite Hi. cbn. destruct (String.eqb_spec (GID d) g) as [<-|Hne].
  - rewrite decision_for_none by done. set_solver.
  - set_solver.
Qed.

Lemma reconcile_rest_ok prepared gids p p' out out' seen :
  NoDup gids → reconcile_rest p prepared gids out seen = (p', out', None) →
  (∀ g, held p' !! g = if decide (g ∈ gids ∧ g ∉ seen) then None else held p !! g) ∧
  (∀ g, finished p' !! g = if decide (g ∈ gids ∧ g ∉ seen) then Some false else finished p !! g) ∧
  Contradictory out' = Contradictory out ∧ Unverified out' = Unverified out ∧ Unread out' = Unread out.
Proof.
  revert p out. induction gids as [|g gids IH]; intros p out Hnd Hr.
  { cbn in Hr. simplify_eq. split_and!; [..|done|done|done]; intros g; (rewrite decide_False; [done|]);
      by intros [?%not_elem_of_nil _]. }
  apply NoDup_cons in Hnd as [Hg Hnd]. cbn [reconcile_rest] in Hr. destruct (decide (g ∈ seen)) as [Hs|Hs].
  { destruct (IH _ _ Hnd Hr) as (H1 & H2 & H3). split_and!; [| |apply H3..]; intros g'.
    - rewrite H1. by repeat case_decide; set_solver.
    - rewrite H2. by repeat case_decide; set_solver. }
  change (Decide StateNone true "") with Rollback in Hr. cbn [apply] in Hr.
  destruct (Finish p (default "" (prepared !! g)) g false) as [p1 [e|]] eqn:HF; [done|].
  apply finish_law in HF as [Hh Hf]. destruct (IH _ _ Hnd Hr) as (H1 & H2 & H3 & H4 & H5).
  split_and!; [| |done..]; intros g'.
  - rewrite H1, Hh. destruct (decide (g' = g)) as [->|Hne].
    + rewrite lookup_delete_eq, (decide_True (P := g ∈ g :: gids ∧ _)) by set_solver. by case_decide.
    + rewrite lookup_delete_ne by done. by repeat case_decide; set_solver.
  - rewrite H2, Hf. destruct (decide (g' = g)) as [->|Hne].
    + rewrite lookup_insert_eq, (decide_True (P := g ∈ g :: gids ∧ _)) by set_solver. by case_decide.
    + rewrite lookup_insert_ne by done. by repeat case_decide; set_solver.
Qed.

Lemma Reconcile_spec p p' ds out :
  NoDup (GID <$> ds) →
  (∀ d, d ∈ ds → Involves d shard = true → held p !! GID d = None → settled_xid (XIDOf d shard)) →
  Reconcile p shard ds = (p', out, None) →
  (∀ g, held p' !! g =
     match decision_for ds g with
     | Some d => if Known (State d) then None else held p !! g
     | None => None
     end) ∧
  (∀ g, finished p' !! g =
     match held p !! g, decision_for ds g with
     | Some _, Some d => if Known (State d) then Some (decided_commit d) else finished p !! g
     | Some _, None => Some false
     | None, _ => finished p !! g
     end) ∧
  Contradictory out = pick (is_contradiction (held p)) ds ∧
  Unverified out = pick (is_unverifiable (held p)) ds ∧
  Unread out = pick is_unreadable ds.
Proof.
  intros Hnd Hset Hr. unfold Reconcile in Hr.
  destruct (Prepared p) as [p0 [prepared|e]] eqn:Hprep; [|done].
  apply prepared_law in Hprep as (-> & Hh0 & Hf0).
  destruct (reconcile_decisions p0 (held p) shard ds _ ∅) as [[[p1 out1] err] seen] eqn:Hd.
  destruct err; [done|]. apply reconcile_decisions_ok in Hd as [[R1 R2 R3 R4 R5] Hseen]; [|done|done].
  apply reconcile_rest_ok in Hr as (S1 & S2 & S3 & S4 & S5).
  2: { rewrite sort_strings_Permutation. apply NoDup_fst_map_to_list. }
  assert (∀ g, g ∈ sort_strings (map_to_list (held p)).*1 ∧ g ∉ seen ↔ is_Some (held p !! g) ∧ decision_for ds g = None) as Hrest.
  { intros g. rewrite sort_strings_Permutation, Hseen, list_elem_of_fmap, eq_None_not_Some. split.
    - intros [([g' db] & -> & Hin%elem_of_map_to_list) Hn]. split; [by eexists|]. tauto.
    - intros [[db Hdb] Hn]. split; [exists (g, db); split; [done|by apply elem_of_map_to_list]|].
      intros [?%not_elem_of_empty|?]; done. }
  split_and!.
  - intros g. rewrite S1, R1, Hh0. unfold verdict. case_decide as Hc.
    + apply Hrest in Hc as [_ Hc]. by rewrite Hc.
    + rewrite Hrest in Hc. destruct (decision_for ds g) as [d|] eqn:Hdf.
      * destruct (held p !! g); [|by destruct (Known _)]. by destruct (Known (State d)).
      * destruct (held p !! g); [|done]. destruct Hc. by split.
  - intros g. rewrite S2, R2, Hf0. unfold verdict. case_decide as Hc.
    + apply Hrest in Hc as [[db ->] Hc]. by rewrite Hc.
    + rewrite Hrest in Hc. destruct (decision_for ds g) as [d|] eqn:Hdf, (held p !! g); try done.
      * by destruct (Known (State d)).
      * destruct Hc. by split.
  - by rewrite S3, R3.
  - by rewrite S4, R4.
  - by rewrite S5, R5.
Qed.

End Spec.

Lemma mjoin_nil {A} (ls : list (list A)) : mjoin ls = [] → ∀ l, l ∈ ls → l = [].
Proof.
  induction ls as [|x ls IH]; intros H l Hl; [by apply not_elem_of_nil in Hl|]. cbn in H.
  apply app_nil in H as [-> H]. apply elem_of_cons in Hl as [->|Hl]; auto.
Qed.

Lemma Contradictions_none byShard shard o :
  Contradictions byShard = None → byShard !! shard = Some o →
  Contradictory o = [] ∧ Unverified o = [] ∧ Unread o = [].
Proof.
  unfold Contradictions. intros H Ho.
  destruct (mjoin _) eqn:Hj; [|done].
  assert (contradiction_texts shard o = []) as Ht.
  { eapply mjoin_nil; [done|]. apply list_elem_of_fmap. exists shard. rewrite Ho. split; [done|].
    rewrite merge_sort_Permutation. apply list_elem_of_fmap. exists (shard, o). split; [done|].
    by apply elem_of_map_to_list. }
  unfold contradiction_texts in Ht. apply app_nil in Ht as [H1 Ht]. apply app_nil in Ht as [H2 H3].
  by apply fmap_nil_inv in H1, H2, H3.
Qed.

Lemma not_picked f (ds : list Decision) d : pick f ds = [] → d ∈ ds → f d = false.
Proof.
  unfold pick. intros Hp Hd. apply fmap_nil_inv in Hp. destruct (f d) eqn:E; [|done].
  assert (d ∈ filter (λ d, f d = true) ds) as Hin by (by apply list_elem_of_filter).
  rewrite Hp in Hin. by apply not_elem_of_nil in Hin.
Qed.

Lemma decision_for_unique shard ds d :
  NoDup (GID <$> ds) → d ∈ ds → Involves d shard = true → decision_for shard ds (GID d) = Some d.
Proof.
  induction ds as [|x ds IH]; intros Hnd Hd Hi; [by apply not_elem_of_nil in Hd|].
  rewrite fmap_cons in Hnd. apply NoDup_cons in Hnd as [Hn Hnd]. cbn.
  apply elem_of_cons in Hd as [->|Hd].
  - by rewrite Hi, String.eqb_refl.
  - rewrite (proj2 (String.eqb_neq (GID x) (GID d))); [rewrite andb_false_r; auto|].
    intros E. apply Hn. rewrite E. by apply list_elem_of_fmap_2.
Qed.

Section Restore.
(** Each shard is a participant of its own kind. *)
Context (P : Z → Type) `{!∀ s, Participant (P s), !∀ s, LawfulParticipant (P s)}.
Variables (before after : ∀ s, P s) (outs : gmap Z Outcome) (ds : list Decision).

(** After a restore whose reconciliation reports no contradiction, every
    decision of the log holds on every reconciled shard it names: one decided
    commit has been committed there, by this reconciliation or before it, and
    any other is neither left prepared nor committed by it. *)
Theorem restore_honours_decisions :
  NoDup (GID <$> ds) →
  (∀ s o, outs !! s = Some o → Reconcile (before s) s ds = (after s, o, None)) →
  (∀ s d, d ∈ ds → Involves d s = true → held (before s) !! GID d = None → settled_xid (P := P s) (XIDOf d s)) →
  Contradictions outs = None →
  ∀ s o d, outs !! s = Some o → d ∈ ds → Involves d s = true →
    held (after s) !! GID d = None ∧
    if decided_commit d
    then finished (after s) !! GID d = Some true ∨
         held (before s) !! GID d = None ∧ status_of (P := P s) (XIDOf d s) = StatusCommitted
    else held (before s) !! GID d = None ∨ finished (after s) !! GID d = Some false.
Proof.
  intros Hnd Hrun Hset Hnone s o d Ho Hd Hi.
  destruct (Reconcile_spec s (before s) (after s) ds o Hnd (Hset s) (Hrun s o Ho)) as (Hh & Hf & Hc & Hu & Hr).
  destruct (Contradictions_none outs s o Hnone Ho) as (Ec & Eu & Er). rewrite Ec in Hc. rewrite Eu in Hu. rewrite Er in Hr.
  pose proof (not_picked _ ds d (eq_sym Hc) Hd) as Nc. pose proof (not_picked _ ds d (eq_sym Hu) Hd) as Nu.
  pose proof (not_picked _ ds d (eq_sym Hr) Hd) as Nr.
  unfold is_contradiction, is_unverifiable, is_unreadable in Nc, Nu, Nr. rewrite Hi in Nc, Nu, Nr. cbn in Nc, Nu, Nr.
  apply negb_false_iff in Nr.
  rewrite Hh, Hf, (decision_for_unique s ds d Hnd Hd Hi), Nr. split; [done|].
  destruct (decided_commit d); destruct (held (before s) !! GID d); auto. cbn in Nc, Nu. right. split; [done|].
  rewrite Nu in Nc. cbn in Nc. rewrite andb_true_r in Nc. apply negb_false_iff in Nc. by apply String.eqb_eq.
Qed.
End Restore.

(** ** The participant over a connection keeps the promises *)

(** What PostgreSQL documents of the statements the participant issues. *)
Class LawfulConn (C : Type) `{!Conn C} := {
  c_held : C → gmap string string;
  c_finished : C → gmap string bool;
  c_status : string → string;
  c_settled : string → Prop;
  query_prepared_law c c' rows :
    QueryPrepared c = (c', Ok rows) →
    NoDup rows.*1 ∧ list_to_map rows = c_held c ∧ c_held c' = c_held c ∧ c_finished c' = c_finished c;
  exec_law c gid commit c' :
    Exec c (finish_sql gid commit) = (c', None) →
    c_held c' = delete gid (c_held c) ∧ c_finished c' = <[gid := commit]> (c_finished c);
  query_status_law c xid c' r :
    QueryStatus c xid = (c', r) →
    c_held c' = c_held c ∧ c_finished c' = c_finished c ∧
    (c_settled xid → match r with Ok s => s = c_status xid | Err e => isFutureXID e = true → c_status xid = "" end);
  no_xid_law : c_status "" = ""
}.

Lemma foldl_insert_list_to_map (rows : list (string * string)) (m : gmap string string) :
  NoDup rows.*1 → foldl (λ m '(gid, db), <[gid := db]> m) m rows = list_to_map rows ∪ m.
Proof.
  revert m. induction rows as [|[g db] rows IH]; intros m Hnd; cbn; [by rewrite (left_id_L ∅ (∪))|].
  cbn in Hnd. apply NoDup_cons in Hnd as [Hn Hnd]. rewrite IH by done.
  apply not_elem_of_list_to_map_1 in Hn. rewrite <- insert_union_r by done. by rewrite insert_union_l.
Qed.

#[export, refine] Instance ConnParticipant_lawful {C} `{!Conn C, !LawfulConn C} : LawfulParticipant C := {|
  held := c_held; finished := c_finished; status_of := c_status; settled_xid := c_settled
|}.
Proof.
  - intros c c' m H. cbn in H. unfold ListPrepared in H.
    destruct (QueryPrepared c) as [c1 [rows|e]] eqn:Hq; simplify_eq.
    apply query_prepared_law in Hq as (Hnd & Hrows & H1 & H2). split_and!; [|done|done].
    rewrite foldl_insert_list_to_map by done. by rewrite (right_id_L ∅ (∪)).
  - intros c db gid commit c' H. cbn in H. unfold FinishConn in H.
    destruct (Exec c (finish_sql gid commit)) as [c1 [e|]] eqn:He; simplify_eq. by apply exec_law in He.
  - intros c xid c' s H. cbn in H. unfold QueryXactStatus in H.
    destruct (String.eqb_spec xid "") as [->|].
    { simplify_eq. split_and!; [|done|done]. intros _. symmetry. apply no_xid_law. }
    destruct (QueryStatus c xid) as [c1 r] eqn:Hq. apply query_status_law in Hq as (H1 & H2 & H3).
    destruct r as [s1|e]; [by simplify_eq|]. destruct (isFutureXID e) eqn:Hf; simplify_eq.
    split_and!; [|done|done]. intros Hs. symmetry. by apply H3.
Defined.

(** ** On the wire *)

(** A decision survives the wire: the three states the log records come
    back as they were, with their participants; anything else comes back as a
    state no build acts on, so the receiver leaves the transaction prepared. *)
Theorem decision_wire_roundtrip d :
  let d' := DecisionFromProto (DecisionToProto d) in
  GID d' = GID d ∧ Participants d' = Participants d ∧
  if bool_decide (State d ∈ [StatePreparing; StateCommit; StateAbort]) then State d' = State d
  else ∀ prepared status, Decide (State d') prepared status = Unreadable.
Proof.
  cbn. split_and!; [done| |].
  - induction (Participants d) as [|[s x] ps IH]; [done|]. cbn. rewrite IH. f_equal. f_equal.
    by destruct (String.eqb_spec x "") as [->|].
  - unfold StateToProto. case_bool_decide as Hin.
    + rewrite !elem_of_cons, elem_of_nil in Hin. by destruct Hin as [->|[->|[->|[]]]].
    + destruct (String.eqb_spec (State d) StatePreparing) as [E|]; [rewrite E in Hin; by destruct Hin; set_solver|].
      destruct (String.eqb_spec (State d) StateCommit) as [E|]; [rewrite E in Hin; by destruct Hin; set_solver|].
      destruct (String.eqb_spec (State d) StateAbort) as [E|]; [rewrite E in Hin; by destruct Hin; set_solver|].
      intros prepared status. done.
Qed.

(** ** A participant in memory *)

Module Sim.
Record sim := mkSim { s_held : gmap string string; s_finished : gmap string bool }.
(** Transaction 41 committed; no other id resolves. *)
Definition s_status (xid : string) : string := if String.eqb xid "41" then StatusCommitted else StatusUnavailable.

#[export] Instance sim_participant : Participant sim := {|
  Prepared p := (p, Ok (s_held p));
  Finish p db gid commit :=
    if decide (s_held p !! gid = Some db)
    then (mkSim (delete gid (s_held p)) (<[gid := commit]> (s_finished p)), None)
    else (p, Some "prepared transaction does not exist");
  XactStatus p xid := (p, Ok (s_status xid))
|}.

#[export, refine] Instance sim_lawful : LawfulParticipant sim := {|
  held := s_held; finished := s_finished; status_of := s_status; settled_xid := λ _, True
|}.
Proof.
  - intros p p' m H. cbn in H. by simplify_eq.
  - intros p db gid commit p' H. cbn in H. case_decide; by simplify_eq.
  - intros p xid p' s H. cbn in H. by simplify_eq.
Defined.

(** Three transactions held: one decided commit, one decided abort, one no
    decision names; a fourth already committed. *)
Definition log : list Decision :=
  [mkDecision "pgshard-a-1" StateCommit [mkPart 0 "40"; mkPart 1 "7"];
   mkDecision "pgshard-a-2" StateAbort [mkPart 0 "42"];
   mkDecision "pgshard-a-3" StateCommit [mkPart 0 "41"]].
Definition shard0 : sim :=
  mkSim (<["pgshard-a-1" := "app"]> (<["pgshard-a-2" := "app"]> (<["pgshard-b-9" := "app"]> ∅))) ∅.
Definition shard0' : sim :=
  mkSim ∅ (<["pgshard-b-9" := false]> (<["pgshard-a-2" := false]> (<["pgshard-a-1" := true]> ∅))).
Definition out0 : Outcome := mkOutcome 1 2 [] [] [].

Lemma run0 : Reconcile shard0 0 log = (shard0', out0, None).
Proof. vm_compute. reflexivity. Qed.

Lemma log_nodup : NoDup (GID <$> log).
Proof. apply (bool_decide_unpack _). vm_compute. exact I. Qed.

Lemma sim_settled xid : settled_xid (P := sim) xid.
Proof. exact I. Qed.


Lemma restore_honours_decisions_witness :
  finished shard0' !! "pgshard-a-1" = Some true ∨ held shard0 !! "pgshard-a-1" = None.
Proof.
  assert (∀ s o, ({[0 := out0]} : gmap Z Outcome) !! s = Some o → Reconcile shard0 s log = (shard0', o, None)) as Hrun.
  { intros s o Hs. apply lookup_singleton_Some in Hs as [<- <-]. exact run0. }
  destruct (restore_honours_decisions (λ _, sim) (λ _, shard0) (λ _, shard0') {[0 := out0]} log log_nodup Hrun
    (λ _ _ _ _ _, sim_settled _) eq_refl 0 out0 (mkDecision "pgshard-a-1" StateCommit [mkPart 0 "40"; mkPart 1 "7"])
    eq_refl (list_elem_of_here _ _) eq_refl) as [_ H].
  destruct H as [H|[H _]]; [left; exact H|right; exact H].
Defined.
End Sim.
