(* ===== verification/CopySplit.v ===== *)
(** * Splitting a COPY stream by shard key ([src/internal/router/copysplit/split.go])

    The router divides a COPY ... FROM STDIN stream, which arrives in chunks
    on no particular boundary, into rows, and reads the shard key out of each.
    The file models the splitter and shows that it finds the rows and keys
    that COPY's text format writes, however the stream is cut. *)

From S2P Require Import Prelude.

Local Open Scope Z_scope.

Definition NL : Z := 10.
Definition CR : Z := 13.
Definition TAB : Z := 9.
Definition BSL : Z := 92.

Inductive eol := eolUnknown | eolNL | eolCR | eolCRNL.
#[export] Instance eol_eq_dec : EqDecision eol.
Proof. solve_decision. Defined.

(** The errors; [ErrPanic] is Go's index out of range. *)
Inductive copy_err := ErrShortRow | ErrLongRow | ErrMixedLineEndings | ErrNulInKey | ErrPanic.

Record Splitter := mkSplitter { buf : bytes; keyCol : nat; cols : nat; s_eol : eol; ended : bool }.
Record Row := mkRow { Bytes : bytes; Key : bytes; KeyIsNull : bool }.

Definition New (keyCol cols : nat) : Splitter := mkSplitter [] keyCol cols eolUnknown false.
Definition Write (s : Splitter) (p : bytes) : Splitter :=
  mkSplitter (buf s ++ p) (keyCol s) (cols s) (s_eol s) (ended s).
Definition End (s : Splitter) : Splitter := mkSplitter (buf s) (keyCol s) (cols s) (s_eol s) true.
Definition Rest (s : Splitter) : bytes := buf s.

(** ** Where the first row ends *)

(** What a carriage return at index [i] does; [next] is the byte after it. *)
Definition rowEndCR (i : nat) (next : option Z) (e : eol) (ended : bool) : result copy_err (option nat) * eol :=
  match e with
  | eolNL => (Err ErrMixedLineEndings, e)
  | eolCR => (Ok (Some (i + 1)%nat), e)
  | _ =>
      match next with
      | None =>
          if negb ended then (Ok None, e)
          else match e with
               | eolCRNL => (Err ErrMixedLineEndings, e)
               | _ => (Ok (Some (i + 1)%nat), eolCR)
               end
      | Some c =>
          if c =? NL then (Ok (Some (i + 2)%nat), match e with eolUnknown => eolCRNL | _ => e end)
          else match e with
               | eolCRNL => (Err ErrMixedLineEndings, e)
               | _ => (Ok (Some (i + 1)%nat), eolCR)
               end
      end
  end.

(** The scan from index [i]: the index past the line ending, and the line
    ending as it is known afterwards. *)
Fixpoint rowEndFrom (b : bytes) (i : nat) (e : eol) (ended : bool) : result copy_err (option nat) * eol :=
  match b with
  | [] => (Ok None, e)
  | c :: b1 =>
      if c =? BSL then
        match b1 with
        | [] => (Ok None, e)
        | _ :: b2 => rowEndFrom b2 (i + 2)%nat e ended
        end
      else if c =? NL then
        let e := match e with eolUnknown => eolNL | _ => e end in
        (if decide (e = eolNL) then Ok (Some (i + 1)%nat) else Err ErrMixedLineEndings, e)
      else if c =? CR then rowEndCR i (head b1) e ended
      else rowEndFrom b1 (i + 1)%nat e ended
  end.

Definition rowEnd (s : Splitter) : result copy_err (option nat) * eol :=
  rowEndFrom (buf s) 0 (s_eol s) (ended s).

(** ** The key column *)

(** The length of the run of backslashes a reversed prefix starts with. *)
Fixpoint backslashes (rev_b : bytes) : nat :=
  match rev_b with
  | c :: rev_b => if c =? BSL then S (backslashes rev_b) else 0%nat
  | [] => 0%nat
  end.
Definition escaped (b : bytes) (i : nat) : bool := Nat.odd (backslashes (rev (take i b))).

(** The fields from [start], with what the current one holds so far. *)
Fixpoint fieldsFrom (line cur : bytes) : list bytes :=
  match line with
  | [] => [cur]
  | c :: l1 =>
      if c =? BSL then
        match l1 with
        | [] => [cur ++ [c]]
        | d :: l2 => fieldsFrom l2 (cur ++ [c; d])
        end
      else if c =? TAB then cur :: fieldsFrom l1 []
      else fieldsFrom l1 (cur ++ [c])
  end.

Definition isHex (c : Z) : bool :=
  (48 <=? c) && (c <=? 57) || (97 <=? c) && (c <=? 102) || (65 <=? c) && (c <=? 70).
Definition hexVal (c : Z) : Z :=
  if 97 <=? c then c - 97 + 10 else if 65 <=? c then c - 65 + 10 else c - 48.
Definition isOct (c : Z) : bool := (48 <=? c) && (c <=? 55).

Definition namedEscape (c : Z) : Z :=
  if c =? 98 then 8 else if c =? 102 then 12 else if c =? 110 then 10
  else if c =? 114 then 13 else if c =? 116 then 9 else if c =? 118 then 11 else c.

Fixpoint unescapeLoop (b : bytes) : bytes :=
  match b with
  | [] => []
  | c0 :: b0 =>
      if negb (c0 =? BSL) then c0 :: unescapeLoop b0 else
      match b0 with
      | [] => [c0]
      | c :: b1 =>
          if isOct c then
            let v := c - 48 in
            match b1 with
            | d1 :: b2 =>
                if isOct d1 then
                  let v := Z.shiftl v 3 + (d1 - 48) in
                  match b2 with
                  | d2 :: b3 =>
                      if isOct d2 then Z.land (Z.shiftl v 3 + (d2 - 48)) 255 :: unescapeLoop b3
                      else Z.land v 255 :: unescapeLoop b2
                  | [] => [Z.land v 255]
                  end
                else Z.land v 255 :: unescapeLoop b1
            | [] => [Z.land v 255]
            end
          else if c =? 120 then
            match b1 with
            | h1 :: b2 =>
                if isHex h1 then
                  match b2 with
                  | h2 :: b3 =>
                      if isHex h2 then u8 (Z.shiftl (hexVal h1) 4 + hexVal h2) :: unescapeLoop b3
                      else u8 (hexVal h1) :: unescapeLoop b2
                  | [] => [u8 (hexVal h1)]
                  end
                else c :: unescapeLoop b1
            | [] => [c]
            end
          else namedEscape c :: unescapeLoop b1
      end
  end.

Definition unescape (b : bytes) : bytes :=
  if decide (BSL ∈ b) then unescapeLoop b else b.

(** [bytes.TrimSuffix(b, "\n")] *)
Definition trimNL (b : bytes) : bytes :=
  match last b with Some c => if c =? NL then take (length b - 1) b else b | None => b end.
Definition trimCR (line : bytes) : bytes :=
  let l := length line in
  match last line with
  | Some c => if (c =? CR) && negb (escaped line (l - 1)) then take (l - 1) line else line
  | None => line
  end.

Definition column (row : bytes) (n cols : nat) : result copy_err (bytes * bool) :=
  let line := trimCR (trimNL row) in
  let fields := fieldsFrom line [] in
  if (length fields <? cols)%nat then Err ErrShortRow
  else if (cols <? length fields)%nat then Err ErrLongRow
  else match fields !! n with
       | None => Err ErrPanic
       | Some raw =>
           if decide (raw = [BSL; 78]) then Ok ([], true)
           else let key := unescape raw in
                if decide (0 ∈ key) then Err ErrNulInKey else Ok (key, false)
       end.

(** ** The rows *)

(** [bytes.TrimRight(row, "\r\n")] *)
Fixpoint dropEOL (rev_b : bytes) : bytes :=
  match rev_b with
  | c :: rev_b' => if (c =? CR) || (c =? NL) then dropEOL rev_b' else rev_b
  | [] => []
  end.
Definition trimEOL (b : bytes) : bytes := rev (dropEOL (rev b)).

(** [Next]: the row, if one is complete, and the splitter afterwards. *)
Definition Next (s : Splitter) : result copy_err (option Row) * Splitter :=
  let '(re, e) := rowEnd s in
  let s := mkSplitter (buf s) (keyCol s) (cols s) e (ended s) in
  match re with
  | Err err => (Err err, s)
  | Ok end_ =>
      let cut := match end_ with
                 | Some n => Some n
                 | None => if negb (ended s) || bool_decide (buf s = []) then None else Some (length (buf s))
                 end in
      match cut with
      | None => (Ok None, s)
      | Some n =>
          let row := take n (buf s) in
          let s := mkSplitter (drop n (buf s)) (keyCol s) (cols s) (s_eol s) (ended s) in
          if decide (trimEOL row = [BSL; 46]) then (Ok (Some (mkRow row [] false)), s)
          else match column row (keyCol s) (cols s) with
               | Err err => (Err err, s)
               | Ok (key, null) => (Ok (Some (mkRow row key null)), s)
               end
      end
  end.

(** Calling [Next] until it has no row, or fails. *)
Fixpoint drainFuel (fuel : nat) (s : Splitter) : list Row * option copy_err * Splitter :=
  match fuel with
  | O => ([], None, s)
  | S fuel =>
      match Next s with
      | (Err err, s) => ([], Some err, s)
      | (Ok None, s) => ([], None, s)
      | (Ok (Some row), s) => let '(rows, err, s) := drainFuel fuel s in (row :: rows, err, s)
      end
  end.
Definition drain (s : Splitter) : list Row * option copy_err * Splitter := drainFuel (S (length (buf s))) s.

(** A whole stream, chunk by chunk, as the router drives the splitter. *)
Fixpoint feed (s : Splitter) (chunks : list bytes) : list Row * option copy_err :=
  match chunks with
  | [] => let '(rows, err, _) := drain (End s) in (rows, err)
  | c :: chunks =>
      let '(rows, err, s) := drain (Write s c) in
      match err with
      | Some _ => (rows, err)
      | None => let '(rest, err) := feed s chunks in (rows ++ rest, err)
      end
  end.

(** ** Progress of the scan *)

Lemma rowEndFrom_bound b i e d n e' :
  rowEndFrom b i e d = (Ok (Some n), e') → (i < n ≤ i + length b)%nat.
Proof.
  remember (length b) as len eqn:Hlen. revert b i Hlen. induction (lt_wf len) as [len _ IH]; intros b i Hlen H.
  destruct b as [|c b1]; [done|]. cbn [rowEndFrom] in H. cbn [length] in Hlen.
  destruct (c =? BSL).
  { destruct b1 as [|c2 b2]; [done|]. cbn in Hlen. apply (IH (length b2)) in H; lia. }
  destruct (c =? NL); [destruct e; cbv zeta in H; case_decide; simplify_eq; lia|].
  destruct (c =? CR); [|apply (IH (length b1)) in H; lia].
  unfold rowEndCR in H. destruct b1 as [|c1 b1]; cbn in *.
  - destruct e, d; cbn in H; simplify_eq; lia.
  - destruct (c1 =? NL), e; simplify_eq; lia.
Qed.

(** More data does not change what the scan already decided. *)
Lemma rowEndFrom_more b x i e d :
  match rowEndFrom b i e false with
  | (Ok None, e') => e' = e
  | r => rowEndFrom (b ++ x) i e d = r
  end.
Proof.
  remember (length b) as len eqn:Hlen. revert b i Hlen. induction (lt_wf len) as [len _ IH]; intros b i Hlen.
  destruct b as [|c b1]; [done|]. cbn [rowEndFrom app]. cbn [length] in Hlen.
  destruct (c =? BSL).
  { destruct b1 as [|c2 b2]; [done|]. cbn [app]. cbn in Hlen. apply (IH (length b2)); [lia|done]. }
  destruct (c =? NL); [by destruct e|].
  destruct (c =? CR); [|apply (IH (length b1)); [lia|done]].
  unfold rowEndCR. destruct b1 as [|c1 b1]; cbn.
  - by destruct e.
  - destruct (c1 =? NL), e; done.
Qed.

Lemma Next_shrinks s row s' : Next s = (Ok (Some row), s') → (length (buf s') < length (buf s))%nat.
Proof.
  unfold Next. destruct (rowEnd s) as [[[n|]|err] e] eqn:Hr; [| |done].
  - unfold rowEnd in Hr. apply rowEndFrom_bound in Hr. cbn.
    case_decide; [|destruct (column _ _ _) as [[key null]|]]; intros ?; simplify_eq/=; rewrite length_drop; lia.
  - cbn. destruct (ended s); cbn; [|done]. case_bool_decide as Hb; [done|].
    assert (0 < length (buf s))%nat by (destruct (buf s); [done|cbn; lia]).
    case_decide; [|destruct (column _ _ _) as [[key null]|]]; intros ?; simplify_eq/=; rewrite length_drop; lia.
Qed.

Lemma drainFuel_enough f1 f2 s :
  (length (buf s) < f1)%nat → (length (buf s) < f2)%nat → drainFuel f1 s = drainFuel f2 s.
Proof.
  revert f2 s. induction f1 as [|f1 IH]; intros [|f2] s H1 H2; [lia..|]. cbn.
  destruct (Next s) as [[[row|]|err] s'] eqn:Hn; [|done|done].
  apply Next_shrinks in Hn. rewrite (IH f2); [done|lia..].
Qed.

Lemma drain_unfold s :
  drain s =
  match Next s with
  | (Err err, s') => ([], Some err, s')
  | (Ok None, s') => ([], None, s')
  | (Ok (Some row), s') => let '(rows, err, s'') := drain s' in (row :: rows, err, s'')
  end.
Proof.
  unfold drain at 1. cbn [drainFuel]. destruct (Next s) as [[[row|]|err] s'] eqn:Hn; [|done|done].
  apply Next_shrinks in Hn. unfold drain. rewrite (drainFuel_enough (length (buf s)) (S (length (buf s')))); [done|lia..].
Qed.

(** ** Chunks *)

Lemma Next_more s x :
  ended s = false →
  match Next s with
  | (Ok None, s') => s' = s
  | (r, s') => Next (Write s x) = (r, Write s' x) ∧ ended s' = false
  end.
Proof.
  intros He. unfold Next, rowEnd. cbn [buf Write s_eol ended keyCol cols]. rewrite He.
  pose proof (rowEndFrom_more (buf s) x 0 (s_eol s) false) as Hm.
  destruct (rowEndFrom (buf s) 0 (s_eol s) false) as [[[n|]|err] e] eqn:Hr.
  - rewrite Hm. cbn. apply rowEndFrom_bound in Hr.
    rewrite take_app_le, drop_app_le by lia.
    case_decide; [done|]. by destruct (column _ _ _) as [[key null]|].
  - cbn. subst e. destruct s; cbn in *. by subst.
  - rewrite Hm. done.
Qed.

Lemma drain_more s x :
  ended s = false →
  let '(rows, err, s1) := drain s in
  match err with
  | Some _ => (drain (Write s x)).1 = (rows, err)
  | None => ended s1 = false ∧
      drain (Write s x) = let '(rows2, err2, s2) := drain (Write s1 x) in (rows ++ rows2, err2, s2)
  end.
Proof.
  remember (length (buf s)) as len eqn:Hlen. revert s Hlen.
  induction (lt_wf len) as [len _ IH]; intros s Hlen He.
  rewrite (drain_unfold s). pose proof (Next_more s x He) as Hm.
  destruct (Next s) as [[[row|]|err] s'] eqn:Hn.
  - destruct Hm as [Hm He']. pose proof Hn as Hs. apply Next_shrinks in Hs.
    specialize (IH (length (buf s')) ltac:(lia) s' eq_refl He'). rewrite (drain_unfold (Write s x)), Hm.
    destruct (drain s') as [[rows err] s1]. destruct err as [e|].
    + destruct (drain (Write s' x)) as [[rows2 err2] s2]. cbn in *. by simplify_eq.
    + destruct IH as [He1 ->]. split; [done|]. by destruct (drain (Write s1 x)) as [[? ?] ?].
  - subst s'. split; [done|]. by destruct (drain (Write s x)) as [[? ?] ?].
  - destruct Hm as [Hm _]. by rewrite (drain_unfold (Write s x)), Hm.
Qed.

Lemma Write_nil s : Write s [] = s.
Proof. destruct s. unfold Write. cbn. by rewrite app_nil_r. Qed.
Lemma Write_app s x y : Write s (x ++ y) = Write (Write s x) y.
Proof. unfold Write. cbn. by rewrite app_assoc. Qed.

Lemma feed_cons s c chunks :
  feed s (c :: chunks) =
  let '(rows, err, s1) := drain (Write s c) in
  match err with
  | Some _ => (rows, err)
  | None => let '(rest, err) := feed s1 chunks in (rows ++ rest, err)
  end.
Proof. done. Qed.

Lemma feed_join s c chunks :
  ended s = false → feed s (c :: chunks) = feed s [c ++ mjoin chunks].
Proof.
  revert s c. induction chunks as [|c2 chunks IH]; intros s c He; [change (mjoin []) with (@nil Z); by rewrite app_nil_r|].
  rewrite (feed_cons s c), (feed_cons s (c ++ _)). change (mjoin (c2 :: chunks)) with (c2 ++ mjoin chunks). rewrite Write_app.
  pose proof (drain_more (Write s c) (c2 ++ mjoin chunks) He) as Hm.
  destruct (drain (Write s c)) as [[rows [e|]] s1].
  - destruct (drain (Write (Write s c) _)) as [[? ?] ?]. cbn in Hm. by simplify_eq.
  - destruct Hm as [He1 ->]. rewrite (IH s1 c2 He1), feed_cons. cbn [feed].
    destruct (drain (Write s1 (c2 ++ mjoin chunks))) as [[rows2 [e2|]] s2]; [done|].
    destruct (drain (End s2)) as [[rows3 err3] s3]. by rewrite app_assoc.
Qed.

Lemma feed_chunks k c chunks : feed (New k c) chunks = feed (New k c) [mjoin chunks].
Proof.
  destruct chunks as [|c0 chunks]; [|by apply feed_join].
  cbn [feed]. change (mjoin []) with (@nil Z). rewrite Write_nil. done.
Qed.

(** Knowing that the stream is over does not change the rows already found. *)
Lemma Next_end s :
  ended s = false →
  match Next s with
  | (Ok None, s') => s' = s
  | (r, s') => Next (End s) = (r, End s') ∧ ended s' = false
  end.
Proof.
  intros He. unfold Next, rowEnd. cbn [buf End s_eol ended keyCol cols]. rewrite He.
  pose proof (rowEndFrom_more (buf s) [] 0 (s_eol s) true) as Hm. rewrite app_nil_r in Hm.
  destruct (rowEndFrom (buf s) 0 (s_eol s) false) as [[[n|]|err] e].
  - rewrite Hm. cbn. case_decide; [done|]. by destruct (column _ _ _) as [[key null]|].
  - cbn. subst e. destruct s; cbn in *. by subst.
  - rewrite Hm. done.
Qed.

Lemma drain_end s :
  ended s = false →
  let '(rows, err, s1) := drain s in
  match err with
  | Some _ => (drain (End s)).1 = (rows, err)
  | None => drain (End s) = let '(rows2, err2, s2) := drain (End s1) in (rows ++ rows2, err2, s2)
  end.
Proof.
  remember (length (buf s)) as len eqn:Hlen. revert s Hlen.
  induction (lt_wf len) as [len _ IH]; intros s Hlen He.
  rewrite (drain_unfold s). pose proof (Next_end s He) as Hm.
  destruct (Next s) as [[[row|]|err] s'] eqn:Hn.
  - destruct Hm as [Hm He']. pose proof Hn as Hs. apply Next_shrinks in Hs.
    specialize (IH (length (buf s')) ltac:(lia) s' eq_refl He'). rewrite (drain_unfold (End s)), Hm.
    destruct (drain s') as [[rows err] s1]. destruct err as [e|].
    + destruct (drain (End s')) as [[rows2 err2] s2]. cbn in *. by simplify_eq.
    + rewrite IH. by destruct (drain (End s1)) as [[? ?] ?].
  - subst s'. by destruct (drain (End s)) as [[? ?] ?].
  - destruct Hm as [Hm _]. by rewrite (drain_unfold (End s)), Hm.
Qed.

(** A stream in chunks is read as the whole stream at once. *)
Lemma feed_whole k c chunks : feed (New k c) chunks = (drain (mkSplitter (mjoin chunks) k c eolUnknown true)).1.
Proof.
  rewrite feed_chunks, feed_cons. change (mkSplitter (mjoin chunks) k c eolUnknown true) with (End (Write (New k c) (mjoin chunks))).
  pose proof (drain_end (Write (New k c) (mjoin chunks)) eq_refl) as H.
  destruct (drain (Write (New k c) (mjoin chunks))) as [[rows [e|]] s1]; [done|].
  rewrite H. cbn [feed]. by destruct (drain (End s1)) as [[? ?] ?].
Qed.

(** ** Nothing is lost *)

Lemma Next_bytes s :
  match Next s with
  | (Ok (Some row), s') => Bytes row ++ buf s' = buf s ∧ ended s' = ended s
  | (Ok None, s') => buf s' = buf s ∧ (ended s = true → buf s = [])
  | _ => True
  end.
Proof.
  unfold Next. destruct (rowEnd s) as [[[n|]|err] e]; cbn; [| |done].
  - case_decide; [|destruct (column _ _ _) as [[key null]|]; [|done]]; cbn; by rewrite take_drop.
  - destruct (ended s); cbn; [|done]. case_bool_decide; [done|].
    case_decide; [|destruct (column _ _ _) as [[key null]|]; [|done]]; cbn; by rewrite take_drop.
Qed.

Lemma drain_bytes s :
  let '(rows, err, s') := drain s in
  err = None → mjoin (Bytes <$> rows) ++ buf s' = buf s ∧ (ended s = true → buf s' = []).
Proof.
  remember (length (buf s)) as len eqn:Hlen. revert s Hlen.
  induction (lt_wf len) as [len _ IH]; intros s Hlen. rewrite drain_unfold.
  pose proof (Next_bytes s) as Hb. destruct (Next s) as [[[row|]|err] s'] eqn:Hn.
  - pose proof Hn as Hs. apply Next_shrinks in Hs. destruct Hb as [Hb He].
    specialize (IH (length (buf s')) ltac:(lia) s' eq_refl).
    destruct (drain s') as [[rows err] s'']. intros Herr. destruct (IH Herr) as [IH1 IH2].
    split; [|by rewrite <- He]. by rewrite fmap_cons, mjoin_cons, <- app_assoc, IH1.
  - intros _. destruct Hb as [Hb He]. split; [done|]. intros H. rewrite Hb. auto.
  - done.
Qed.

(** However the stream is cut into chunks, the splitter yields the rows,
    keys and error it yields for the whole stream at once; and when it yields
    no error, the rows' bytes put together are the stream. *)
Theorem chunks_do_not_matter k c chunks :
  feed (New k c) chunks = (drain (End (Write (New k c) (mjoin chunks)))).1 ∧
  ∀ rows, feed (New k c) chunks = (rows, None) → mjoin (Bytes <$> rows) = mjoin chunks.
Proof.
  rewrite feed_whole. split; [done|].
  pose proof (drain_bytes (mkSplitter (mjoin chunks) k c eolUnknown true)) as H.
  destruct (drain _) as [[rows err] s1]. cbn [fst]. intros rows' [= -> ->].
  destruct (H eq_refl) as [E1 E2]. rewrite (E2 eq_refl), app_nil_r in E1. done.
Qed.

(** ** What COPY writes is what the splitter reads *)

(** COPY ... TO in text format: the backslash and the control characters with
    a name are escaped, NULL is \N, columns end at a tab and rows at a line
    ending. *)
Definition copy_escape (c : Z) : bytes :=
  if c =? 8 then [BSL; 98] else if c =? 12 then [BSL; 102] else if c =? 10 then [BSL; 110]
  else if c =? 13 then [BSL; 114] else if c =? 9 then [BSL; 116] else if c =? 11 then [BSL; 118]
  else if c =? 92 then [BSL; 92] else [c].
Definition copy_field (v : option bytes) : bytes :=
  match v with None => [BSL; 78] | Some v => mjoin (copy_escape <$> v) end.
Definition eol_bytes (e : eol) : bytes :=
  match e with eolNL => [NL] | eolCR => [CR] | eolCRNL => [CR; NL] | eolUnknown => [] end.
Fixpoint copy_fields (vs : list (option bytes)) : bytes :=
  match vs with
  | [] => []
  | [v] => copy_field v
  | v :: vs => copy_field v ++ [TAB] ++ copy_fields vs
  end.
Definition copy_row (e : eol) (vs : list (option bytes)) : bytes := copy_fields vs ++ eol_bytes e.

(** The pieces the text is made of: a byte that stands for itself, or a
    backslash and the byte it escapes. *)
Inductive piece : bytes → Prop :=
| piece_byte c : c ≠ BSL → c ≠ NL → c ≠ CR → piece [c]
| piece_escape c : piece [BSL; c].

Lemma copy_escape_piece c : piece (copy_escape c) ∧ copy_escape c ≠ [TAB].
Proof.
  unfold copy_escape, BSL, TAB.
  repeat match goal with |- context [?a =? ?b] => destruct (Z.eqb_spec a b) as [->|] end;
    (split; [|by intros [= ?]]); first [apply piece_escape|apply piece_byte]; unfold BSL, NL, CR; lia.
Qed.

Lemma copy_field_pieces v : ∃ ps, copy_field v = mjoin ps ∧ Forall (λ p, piece p ∧ p ≠ [TAB]) ps.
Proof.
  destruct v as [v|].
  - exists (copy_escape <$> v). split; [done|]. apply Forall_fmap, Forall_true. intros c. apply copy_escape_piece.
  - exists [[BSL; 78]]. split; [done|]. repeat constructor. done.
Qed.

Lemma copy_fields_pieces vs : ∃ ps, copy_fields vs = mjoin ps ∧ Forall piece ps.
Proof.
  induction vs as [|v vs IH]; [by exists []|].
  destruct (copy_field_pieces v) as (ps & Hv & Hps). destruct IH as (qs & Hq & Hqs).
  assert (Forall piece ps) by (eapply Forall_impl; [done|]; by intros ? []).
  destruct vs as [|v2 vs]; [by exists ps|].
  exists (ps ++ [TAB] :: qs). change (copy_fields (v :: v2 :: vs)) with (copy_field v ++ [TAB] ++ copy_fields (v2 :: vs)).
  rewrite join_app, Hv, Hq. split; [done|]. apply Forall_app. split; [done|]. constructor; [|done].
  by apply piece_byte.
Qed.

Lemma rowEnd_pieces ps rest i e d :
  Forall piece ps → rowEndFrom (mjoin ps ++ rest) i e d = rowEndFrom rest (i + length (mjoin ps))%nat e d.
Proof.
  intros Hps. revert i. induction Hps as [|p ps Hp _ IH]; intros i; [cbn; by rewrite Nat.add_0_r|].
  rewrite mjoin_cons. rewrite <- app_assoc, length_app.
  destruct Hp as [c H1 H2 H3|c]; cbn [app rowEndFrom].
  - rewrite (proj2 (Z.eqb_neq c BSL)), (proj2 (Z.eqb_neq c NL)), (proj2 (Z.eqb_neq c CR)) by done.
    rewrite IH. f_equal. cbn. lia.
  - rewrite Z.eqb_refl, IH. f_equal. cbn. lia.
Qed.

Lemma fields_pieces ps rest cur :
  Forall (λ p, piece p ∧ p ≠ [TAB]) ps → fieldsFrom (mjoin ps ++ rest) cur = fieldsFrom rest (cur ++ mjoin ps).
Proof.
  intros Hps. revert cur. induction Hps as [|p ps [Hp Ht] _ IH]; intros cur; [cbn; by rewrite app_nil_r|].
  rewrite mjoin_cons. rewrite <- app_assoc.
  destruct Hp as [c H1 H2 H3|c]; cbn [app fieldsFrom].
  - assert (c ≠ TAB) by congruence. rewrite (proj2 (Z.eqb_neq c BSL)), (proj2 (Z.eqb_neq c TAB)) by done.
    by rewrite IH, <- app_assoc.
  - by rewrite Z.eqb_refl, IH, <- app_assoc.
Qed.

Lemma fields_copy_fields vs cur :
  vs ≠ [] → fieldsFrom (copy_fields vs) cur =
  match copy_field <$> vs with f :: fs => (cur ++ f) :: fs | [] => [] end.
Proof.
  revert cur. induction vs as [|v vs IH]; intros cur Hne; [done|].
  destruct (copy_field_pieces v) as (ps & Hv & Hps). destruct vs as [|v2 vs].
  - cbn [copy_fields fmap list_fmap]. rewrite <- (app_nil_r (copy_field v)) at 1.
    by rewrite Hv, fields_pieces.
  - change (copy_fields (v :: v2 :: vs)) with (copy_field v ++ [TAB] ++ copy_fields (v2 :: vs)).
    rewrite Hv, fields_pieces by done. cbn [app fieldsFrom]. rewrite (IH []) by done. cbn [fmap list_fmap]. by rewrite Hv.
Qed.

(** A run of backslashes at the end of such text is even: none escapes what
    follows. *)
Lemma pieces_not_escaping ps : Forall piece ps → Nat.odd (backslashes (rev (mjoin ps))) = false.
Proof.
  induction ps as [|p ps IH] using rev_ind; intros Hps; [done|].
  apply Forall_app in Hps as [Hps Hp]. rewrite Forall_singleton in Hp.
  rewrite join_app. change (mjoin [p]) with (p ++ []). rewrite app_nil_r, rev_app_distr.
  inversion Hp as [c H1 H2 H3|c]; subst p; cbn [rev app backslashes].
  - by rewrite (proj2 (Z.eqb_neq c BSL)).
  - destruct (c =? BSL); [|done]. rewrite Z.eqb_refl. rewrite !Nat.odd_succ, Nat.even_succ. by apply IH.
Qed.

(** ** Reading an encoded row *)

Lemma unescapeLoop_plain b : BSL ∉ b → unescapeLoop b = b.
Proof.
  induction b as [|c b IH]; intros H; [done|]. apply not_elem_of_cons in H as [H1 H2]. cbn.
  rewrite (proj2 (Z.eqb_neq c BSL)) by done. cbn. by rewrite IH.
Qed.

Lemma unescapeLoop_escape c rest : unescapeLoop (copy_escape c ++ rest) = c :: unescapeLoop rest.
Proof.
  unfold copy_escape.
  repeat match goal with |- context [?a =? ?b] => destruct (Z.eqb_spec a b) as [->|]; [done|] end.
  cbn. by rewrite (proj2 (Z.eqb_neq c BSL)).
Qed.

Lemma unescape_copy_field v : unescape (copy_field (Some v)) = v.
Proof.
  assert (unescapeLoop (copy_field (Some v)) = v) as H.
  { cbn [copy_field]. induction v as [|c v IH]; [done|]. by rewrite fmap_cons, mjoin_cons, unescapeLoop_escape, IH. }
  unfold unescape. case_decide as Hd; [done|]. by rewrite <- (unescapeLoop_plain _ Hd) at 1.
Qed.

Lemma copy_field_not_null v : copy_field (Some v) ≠ [BSL; 78].
Proof.
  destruct v as [|c v]; [done|]. cbn. unfold copy_escape, BSL.
  repeat match goal with |- context [?a =? ?b] => destruct (Z.eqb_spec a b) as [->|] end; cbn; congruence.
Qed.

Lemma take_app_exact {A} (l k : list A) : take (length (l ++ k) - length k) (l ++ k) = l.
Proof. rewrite length_app, Nat.add_sub. by rewrite take_app_length. Qed.

(** The last byte of the fields' text is no raw line ending. *)
Lemma pieces_last ps c : Forall piece ps → last (mjoin ps) = Some c → c ≠ NL ∧ c ≠ CR ∨ ∃ b, mjoin ps = b ++ [BSL; c].
Proof.
  induction ps as [|p ps IH] using rev_ind; intros Hps Hl; [done|].
  apply Forall_app in Hps as [Hps Hp]. rewrite Forall_singleton in Hp.
  rewrite join_app in *. change (mjoin [p]) with (p ++ []) in *. rewrite app_nil_r in *.
  inversion Hp as [d H1 H2 H3|d]; subst p.
  - rewrite last_snoc in Hl. simplify_eq. by left.
  - rewrite last_app in Hl. cbn in Hl. simplify_eq. right. by eexists.
Qed.

(** Encoded fields: the pieces, and every escaped byte is a letter or a
    backslash. *)
Lemma copy_fields_last vs c : last (copy_fields vs) = Some c → c ≠ NL ∧ c ≠ CR.
Proof.
  assert (∀ v c, last (copy_field v) = Some c → c ≠ NL ∧ c ≠ CR) as Hf.
  { intros [v|] d; [|cbn; intros [= <-]; done]. induction v as [|x v IH] using rev_ind; [done|].
    cbn [copy_field]. rewrite fmap_app, join_app, last_app.
    change (mjoin (copy_escape <$> [x])) with (copy_escape x ++ []). rewrite app_nil_r.
    unfold copy_escape, BSL, NL, CR in *.
    repeat match goal with |- context [?a =? ?b] => destruct (Z.eqb_spec a b) as [->|] end; cbn; intros [= <-]; lia. }
  induction vs as [|v vs IH]; intros Hl; [done|]. destruct vs as [|v2 vs]; [by apply (Hf v)|].
  change (copy_fields (v :: v2 :: vs)) with (copy_field v ++ [TAB] ++ copy_fields (v2 :: vs)) in Hl.
  rewrite !last_app in Hl. destruct (last (copy_fields (v2 :: vs))) as [d|]; [by apply IH|].
  cbn in Hl. by simplify_eq.
Qed.

Lemma trim_copy_row e vs :
  e ≠ eolUnknown → trimCR (trimNL (copy_row e vs)) = copy_fields vs.
Proof.
  intros He. destruct (copy_fields_pieces vs) as (ps & Hps & Hpieces).
  assert (∀ b, last b = last (copy_fields vs) → b = copy_fields vs → trimNL b = b ∧ trimCR b = b) as Hid.
  { intros b _ ->. unfold trimNL, trimCR. pose proof (copy_fields_last vs) as Hl.
    destruct (last (copy_fields vs)) as [c|]; [|done]. destruct (Hl c eq_refl) as [H1 H2].
    by rewrite (proj2 (Z.eqb_neq c NL)), (proj2 (Z.eqb_neq c CR)). }
  assert (∀ c, last (copy_fields vs ++ [c]) = Some c) as Hlast by (intros; apply last_snoc).
  assert (trimCR (copy_fields vs ++ [CR]) = copy_fields vs) as Hcr.
  { unfold trimCR. rewrite Hlast, Z.eqb_refl. cbn [andb]. unfold escaped.
    rewrite length_app, Nat.add_sub, take_app_length, Hps, pieces_not_escaping by done. done. }
  unfold copy_row. destruct e; cbn [eol_bytes]; [done|..].
  - unfold trimNL. rewrite Hlast, Z.eqb_refl, length_app, Nat.add_sub, take_app_length. by apply Hid.
  - unfold trimNL. rewrite Hlast. change (CR =? NL) with false. done.
  - change [CR; NL] with ([CR] ++ [NL]). rewrite app_assoc. unfold trimNL.
    rewrite last_snoc, Z.eqb_refl, (length_app _ [NL]), Nat.add_sub, take_app_length. done.
Qed.

(** The key column of an encoded row. *)
Lemma column_copy_row e vs n :
  e ≠ eolUnknown → (n < length vs)%nat → (∀ v, vs !! n = Some (Some v) → 0 ∉ v) →
  column (copy_row e vs) n (length vs) =
  Ok (match vs !! n with Some (Some v) => (v, false) | _ => ([], true) end).
Proof.
  intros He Hn Hz. unfold column. rewrite trim_copy_row by done.
  assert (fieldsFrom (copy_fields vs) [] = copy_field <$> vs) as ->.
  { rewrite fields_copy_fields by (destruct vs; [cbn in Hn; lia|done]). by destruct vs. }
  rewrite length_fmap. rewrite (proj2 (Nat.ltb_ge _ _)) by lia.
  destruct (lookup_lt_is_Some_2 vs n Hn) as [v Hv]. rewrite list_lookup_fmap, Hv. cbn [fmap option_fmap option_map].
  destruct v as [v|]; [|done]. rewrite decide_False by apply copy_field_not_null.
  rewrite unescape_copy_field, decide_False by (by apply Hz). done.
Qed.

(** ** Reading an encoded stream *)

(** The row an encoded row is read as. *)
Definition read_row (k : nat) (e : eol) (vs : list (option bytes)) : Row :=
  match vs !! k with
  | Some (Some v) => mkRow (copy_row e vs) v false
  | _ => mkRow (copy_row e vs) [] true
  end.

Lemma copy_fields_no_dot vs t : copy_fields vs ≠ BSL :: 46 :: t.
Proof.
  assert (∀ v rest, head rest ≠ Some BSL → copy_field v ++ rest ≠ BSL :: 46 :: t) as Hv.
  { intros v rest Hr. destruct v as [[|c v]|]; cbn [copy_field]; [|rewrite fmap_cons, mjoin_cons|done].
    - cbn. intros ->. by destruct Hr.
    - unfold copy_escape at 1, BSL.
      repeat match goal with |- context [?a =? ?b] => destruct (Z.eqb_spec a b) as [->|] end; cbn; congruence. }
  destruct vs as [|v [|v2 vs]]; [done|..].
  - cbn [copy_fields]. rewrite <- (app_nil_r (copy_field v)). by apply Hv.
  - change (copy_fields (v :: v2 :: vs)) with (copy_field v ++ [TAB] ++ copy_fields (v2 :: vs)). by apply Hv.
Qed.

Lemma trimEOL_copy_row e vs : trimEOL (copy_row e vs) = copy_fields vs.
Proof.
  assert (dropEOL (rev (copy_fields vs)) = rev (copy_fields vs)) as Hd.
  { destruct (rev (copy_fields vs)) as [|c b] eqn:Hr; [done|]. cbn.
    destruct (copy_fields_last vs c) as [H1 H2].
    { rewrite <- (rev_involutive (copy_fields vs)), Hr. cbn. apply last_snoc. }
    by rewrite (proj2 (Z.eqb_neq c CR)), (proj2 (Z.eqb_neq c NL)). }
  unfold trimEOL, copy_row. rewrite rev_app_distr.
  destruct e; cbn [eol_bytes rev app dropEOL]; rewrite ?Z.eqb_refl, ?orb_true_r; cbn [orb dropEOL];
    rewrite ?Z.eqb_refl; cbn [orb]; by rewrite Hd, rev_involutive.
Qed.

(** A splitter part-way through a stream with line ending [e]. *)
Definition eol_agrees (e known : eol) : Prop := known = eolUnknown ∨ known = e.

(** The scan stops right after an encoded row, unless the row's carriage
    return is all there is and a line feed might follow. *)
Lemma rowEnd_copy_row e vs rest known d :
  e ≠ eolUnknown → eol_agrees e known → (e = eolCR → head rest ≠ Some NL) →
  (rest = [] → e = eolCR → known = eolUnknown → d = true) →
  rowEndFrom (copy_row e vs ++ rest) 0 known d = (Ok (Some (length (copy_row e vs))), e).
Proof.
  intros He Hk Hrest Hd. destruct (copy_fields_pieces vs) as (ps & Hps & Hpieces).
  unfold copy_row. rewrite <- app_assoc, Hps, rowEnd_pieces, length_app by done.
  destruct e; [done|..]; cbn [eol_bytes app rowEndFrom length]; rewrite ?Z.eqb_refl.
  - change (NL =? BSL) with false. cbn iota. destruct Hk as [-> | ->]; cbv zeta iota; rewrite decide_True by done; done.
  - change (CR =? BSL) with false. change (CR =? NL) with false. cbn iota. unfold rowEndCR.
    destruct Hk as [-> | ->]; [|done]. destruct rest as [|c rest]; cbn [head].
    + by rewrite Hd.
    + specialize (Hrest eq_refl). cbn in Hrest. rewrite (proj2 (Z.eqb_neq c NL)) by congruence. done.
  - change (CR =? BSL) with false. change (CR =? NL) with false. cbn iota. unfold rowEndCR. cbn [head].
    rewrite Z.eqb_refl. destruct Hk as [-> | ->]; done.
Qed.

Lemma copy_row_head e vs : e = eolCR → head (copy_row e vs) ≠ Some NL.
Proof.
  intros ->. destruct (copy_fields_pieces vs) as (ps & Hps & Hpieces). unfold copy_row. rewrite Hps.
  destruct Hpieces as [|p ps Hp _]; [done|]. rewrite mjoin_cons.
  destruct Hp as [c H1 H2 H3|c]; cbn; [congruence|done].
Qed.

Definition stream (e : eol) (rows : list (list (option bytes))) : bytes := mjoin (copy_row e <$> rows).

(** A table whose rows have [c] columns, none with a zero byte in its key. *)
Definition table_ok (k c : nat) (rows : list (list (option bytes))) : Prop :=
  Forall (λ vs, length vs = c ∧ ∀ v, vs !! k = Some (Some v) → 0 ∉ v) rows.

Lemma Next_copy_row k c e vs rest known d :
  e ≠ eolUnknown → eol_agrees e known → (k < c)%nat → length vs = c → (∀ v, vs !! k = Some (Some v) → 0 ∉ v) →
  (e = eolCR → head rest ≠ Some NL) → (rest = [] → e = eolCR → known = eolUnknown → d = true) →
  Next (mkSplitter (copy_row e vs ++ rest) k c known d) = (Ok (Some (read_row k e vs)), mkSplitter rest k c e d).
Proof.
  intros He Hk Hkc Hlen Hz Hhead Hd. unfold Next, rowEnd. cbn [buf s_eol ended keyCol cols].
  rewrite rowEnd_copy_row by done. cbn [buf]. rewrite take_app_length, drop_app_length.
  rewrite trimEOL_copy_row, decide_False by apply copy_fields_no_dot.
  rewrite <- Hlen, column_copy_row by (done || lia). unfold read_row.
  by destruct (vs !! k) as [[v|]|].
Qed.

Lemma drain_stream_app k c e rows fin known :
  e ≠ eolUnknown → eol_agrees e known → (k < c)%nat → table_ok k c rows → (e = eolCR → head fin ≠ Some NL) →
  drain (mkSplitter (stream e rows ++ fin) k c known true) =
    let '(new, err, s) := drain (mkSplitter fin k c (if decide (rows = []) then known else e) true) in ((read_row k e <$> rows) ++ new, err, s).
Proof.
  intros He Hk Hkc Hok Hfin. revert known Hk. induction Hok as [|vs rows [Hlen Hz] Hok IH]; intros known Hk.
  { change (stream e [] ++ fin) with fin. rewrite decide_True by done. by destruct (drain (mkSplitter fin k c known true)) as [[new err] s]. }
  unfold stream. rewrite fmap_cons, mjoin_cons, <- app_assoc, drain_unfold. fold (stream e rows).
  rewrite Next_copy_row; [|done..| |done].
  - rewrite IH by (by right). rewrite (decide_False (P := vs :: rows = [])) by done.
    replace (if decide (rows = []) then e else e) with e by (by case_decide). by destruct (drain (mkSplitter fin k c e true)) as [[new err] s].
  - intros ->. destruct Hok as [|vs2 rows2]; [by apply Hfin|]. unfold stream. rewrite fmap_cons, mjoin_cons.
    pose proof (copy_row_head eolCR vs2 eq_refl) as Hh. destruct (copy_row eolCR vs2) as [|x b] eqn:Hb; [|done].
    unfold copy_row in Hb. by destruct (copy_fields vs2).
Qed.
Lemma drain_stream k c e rows known :
  e ≠ eolUnknown → eol_agrees e known → (k < c)%nat → table_ok k c rows →
  drain (mkSplitter (stream e rows) k c known true) = (read_row k e <$> rows, None, mkSplitter [] k c (if decide (rows = []) then known else e) true).
Proof.
  intros He Hk Hkc Hok. rewrite <- (app_nil_r (stream e rows)), drain_stream_app by done. cbn. by rewrite app_nil_r.
Qed.

(** The end-of-data marker is read as a row without a key. *)
Definition marker (e : eol) : bytes := [BSL; 46] ++ eol_bytes e.
Lemma Next_marker k c e rest known :
  e ≠ eolUnknown → eol_agrees e known → (e = eolCR → head rest ≠ Some NL) →
  Next (mkSplitter (marker e ++ rest) k c known true) = (Ok (Some (mkRow (marker e) [] false)), mkSplitter rest k c e true).
Proof.
  intros He Hk Hh. unfold Next, rowEnd. cbn [buf s_eol ended keyCol cols].
  assert (rowEndFrom (marker e ++ rest) 0 known true = (Ok (Some (length (marker e))), e)) as ->.
  { destruct e; [done|..]; destruct Hk as [-> | ->]; cbn; try done; destruct rest as [|x rest]; try done; cbn;
      (destruct (Z.eqb_spec x NL) as [->|]; [by destruct Hh|done]). }
  rewrite take_app_length, drop_app_length. destruct e; done.
Qed.

(** C26. What COPY writes the splitter reads: a table of rows of [c] columns,
    encoded in COPY's text format with any of the three line endings and cut
    into chunks anywhere, comes out row by row, each with the value of its key
    column, NULL or not, and no error. *)
Theorem copy_stream_roundtrip k c e rows chunks :
  e ≠ eolUnknown → (k < c)%nat → table_ok k c rows → mjoin chunks = stream e rows →
  feed (New k c) chunks = (read_row k e <$> rows, None).
Proof.
  intros He Hk Hok Hs. rewrite feed_whole, Hs, drain_stream; [done|done|by left|done..].
Qed.

(** Two rows of an (id, name) table keyed by the second column, whose names
    hold a tab, a backslash and a NULL; the stream is cut inside a row. *)
Definition example_rows : list (list (option bytes)) := [[Some [49]; Some [97; 9; 92]]; [Some [50]; None]].

Lemma copy_stream_roundtrip_witness :
  feed (New 1 2) [take 3 (stream eolCRNL example_rows); drop 3 (stream eolCRNL example_rows)] =
  ([mkRow (copy_row eolCRNL [Some [49]; Some [97; 9; 92]]) [97; 9; 92] false;
    mkRow (copy_row eolCRNL [Some [50]; None]) [] true], None).
Proof.
  apply (copy_stream_roundtrip 1 2 eolCRNL example_rows); [discriminate|lia| |reflexivity].
  constructor; [split; [reflexivity|]|constructor; [split; [reflexivity|]|constructor]].
  - intros v Hv. injection Hv as <-. rewrite !elem_of_cons, elem_of_nil. lia.
  - intros v Hv. discriminate Hv.
Defined.

(** A last row that ends in an escaped newline and no line ending is
    read without it: [column] drops a final newline whether or not a backslash
    escapes it, where it checks that for a final carriage return.  The value
    PostgreSQL stores is "a" and a newline; the key hashed is "a\". *)
Theorem escaped_final_newline_lost :
  feed (New 0 1) [[97; BSL; NL]] = ([mkRow [97; BSL; NL] [97; BSL] false], None) ∧
  unescape [97; BSL; NL] = [97; NL].
Proof. split; vm_compute; reflexivity. Qed.
