(* ===== verification/CopyRoute.v ===== *)
(** * Routing a COPY stream ([src/internal/router/copyin.go])

    [relayCopyRows]: the client's chunks go through the splitter, each row is
    appended to the batch of the shard its key belongs to, and batches are
    sent when they are full and at the end.  Which shard a key belongs to, and
    whether a send succeeds, are parameters. *)

From S2P Require Import Prelude CopySplit.

Local Open Scope Z_scope.

Section Relay.
Context {E : Type}.
(** [Plan.CopyShard], the shards the COPY was started on, and [sendOn]. *)
Variables (CopyShard : bytes → result E Z) (parts : gset Z) (sendOn : Z → bytes → option E).

Definition copyFlushBytes : Z := 65536.
Definition copyMaxLine : Z := 67108864.

Inductive relay_err :=
| RSplit (e : copy_err) | RNullKey | RPlan (e : E) | RNoPart (sh : Z) | RTooLong
| RCopyFail | RInput (e : E) | RSend (e : E).

(** What the loop keeps: the splitter, the batches, the rows counted, whether
    the end-of-data marker was seen; and what was sent, in order. *)
Record relay := mkRelay {
  r_split : Splitter; pending : gmap Z bytes; r_rows : Z; r_ended : bool; sent : list (Z * bytes) }.

Definition batch (st : relay) (sh : Z) : bytes := default [] (pending st !! sh).

Definition flush (st : relay) (sh : Z) : result relay_err relay :=
  if decide (batch st sh = []) then Ok st else
  match sendOn sh (batch st sh) with
  | Some e => Err (RSend e)
  | None => Ok (mkRelay (r_split st) (<[sh := []]> (pending st)) (r_rows st) (r_ended st) (sent st ++ [(sh, batch st sh)]))
  end.

Definition is_marker (row : Row) : bool :=
  bool_decide (Key row = []) && negb (KeyIsNull row) && bool_decide (trimEOL (Bytes row) = [BSL; 46]).

(** A row that is not the marker. *)
Definition routeRow (st : relay) (row : Row) : result relay_err relay :=
  if KeyIsNull row then Err RNullKey else
  match CopyShard (Key row) with
  | Err e => Err (RPlan e)
  | Ok sh =>
      if decide (sh ∈ parts) then
        let st := mkRelay (r_split st) (<[sh := batch st sh ++ Bytes row]> (pending st)) (r_rows st + 1) (r_ended st) (sent st) in
        if copyFlushBytes <=? Z.of_nat (length (batch st sh)) then flush st sh else Ok st
      else Err (RNoPart sh)
  end.

Definition with_split (st : relay) (s : Splitter) : relay := mkRelay s (pending st) (r_rows st) (r_ended st) (sent st).
Definition with_ended (st : relay) : relay := mkRelay (r_split st) (pending st) (r_rows st) true (sent st).

Fixpoint routeFuel (fuel : nat) (st : relay) : result relay_err relay :=
  match fuel with
  | O => Ok st
  | S fuel =>
      match Next (r_split st) with
      | (Err e, _) => Err (RSplit e)
      | (Ok None, s) => Ok (with_split st s)
      | (Ok (Some row), s) =>
          let st := with_split st s in
          if is_marker row then Ok (with_ended st)
          else match routeRow st row with
               | Err e => Err e
               | Ok st => routeFuel fuel st
               end
      end
  end.
Definition route (st : relay) : result relay_err relay := routeFuel (S (length (buf (r_split st)))) st.

(** What the client sends: data, then the end of it. *)
Inductive copy_end := CopyDone | CopyFail | CopyError (e : E).

(** The batches left at the end. *)
Fixpoint flushAll (st : relay) (shs : list Z) : result relay_err relay :=
  match shs with
  | [] => Ok st
  | sh :: shs => match flush st sh with Err e => Err e | Ok st => flushAll st shs end
  end.

(** [order] is the order a Go map's keys come in: any. *)
Fixpoint relayLoop (st : relay) (chunks : list bytes) (fin : copy_end) (order : list Z → list Z) : result relay_err relay :=
  match chunks with
  | data :: chunks =>
      if r_ended st then relayLoop st chunks fin order else
      match route (with_split st (Write (r_split st) data)) with
      | Err e => Err e
      | Ok st =>
          if copyMaxLine <? Z.of_nat (length (Rest (r_split st))) then Err RTooLong
          else relayLoop st chunks fin order
      end
  | [] =>
      match fin with
      | CopyFail => Err RCopyFail
      | CopyError e => Err (RInput e)
      | CopyDone =>
          match (if r_ended st then Ok st else route (with_split st (End (r_split st)))) with
          | Err e => Err e
          | Ok st => flushAll st (order (map_to_list (pending st)).*1)
          end
      end
  end.

Definition relayCopyRows (keyCol cols : nat) (chunks : list bytes) (fin : copy_end) (order : list Z → list Z) :
    result relay_err relay :=
  relayLoop (mkRelay (New keyCol cols) ∅ 0 false []) chunks fin order.

(** ** What was delivered *)

Definition delivered (st : relay) (sh : Z) : bytes := mjoin (snd <$> filter (λ p, p.1 = sh) (sent st)).
Definition on_shard (sh : Z) (row : Row) : bool :=
  match CopyShard (Key row) with Ok s => s =? sh | Err _ => false end.
(** The rows of a shard, put together. *)
Definition bytes_for (sh : Z) (rows : list Row) : bytes :=
  mjoin (Bytes <$> filter (λ row, on_shard sh row = true) rows).
(** The rows before the end-of-data marker. *)
Fixpoint data_rows (rows : list Row) : list Row :=
  match rows with
  | [] => []
  | row :: rows => if is_marker row then [] else row :: data_rows rows
  end.
Definition has_marker (rows : list Row) : bool := existsb is_marker rows.

Definition placed (row : Row) : Prop := KeyIsNull row = false ∧ ∃ sh, sh ∈ parts ∧ CopyShard (Key row) = Ok sh.

Record good (st : relay) (rows : list Row) : Prop := {
  g_count : r_rows st = Z.of_nat (length rows);
  g_bytes sh : delivered st sh ++ batch st sh = bytes_for sh rows;
  g_placed : Forall placed rows
}.

Lemma good_ext st st' rows :
  pending st' = pending st → r_rows st' = r_rows st → sent st' = sent st → good st rows → good st' rows.
Proof.
  intros Hp Hr Hs [H1 H2 H3]. split; [congruence| |done].
  intros sh. unfold delivered, batch. rewrite Hs, Hp. apply H2.
Qed.

Lemma bytes_for_snoc sh rows row :
  bytes_for sh (rows ++ [row]) = bytes_for sh rows ++ (if on_shard sh row then Bytes row else []).
Proof.
  unfold bytes_for. rewrite filter_app, fmap_app, join_app. f_equal. rewrite filter_cons, filter_nil.
  destruct (on_shard sh row); [rewrite decide_True by done|by rewrite decide_False by done].
  cbn. by rewrite app_nil_r.
Qed.

Lemma flush_good st sh st' rows :
  good st rows → flush st sh = Ok st' →
  good st' rows ∧ r_split st' = r_split st ∧ r_ended st' = r_ended st ∧
  batch st' sh = [] ∧ (∀ sh', batch st sh' = [] → batch st' sh' = []).
Proof.
  intros Hg. unfold flush. case_decide as Hb; [intros [= <-]; by split_and!|].
  destruct (sendOn sh (batch st sh)); [done|]. intros [= <-]. destruct Hg as [H1 H2 H3]. split_and!; [|done|done|..].
  - split; [done| |done]. intros sh'. cbn [delivered batch sent pending]. unfold delivered, batch in *. cbn.
    rewrite filter_app, fmap_app, join_app, <- (H2 sh'), <- app_assoc. f_equal.
    rewrite filter_cons, filter_nil. cbn. case_decide as E1.
    + subst sh'. rewrite lookup_insert_eq. cbn. by rewrite !app_nil_r.
    + by rewrite lookup_insert_ne.
  - unfold batch. cbn. by rewrite lookup_insert_eq.
  - intros sh' Hs'. unfold batch in *. cbn. destruct (decide (sh' = sh)) as [->|]; [by rewrite lookup_insert_eq|].
    by rewrite lookup_insert_ne.
Qed.

Lemma routeRow_good st row st' rows :
  good st rows → routeRow st row = Ok st' →
  good st' (rows ++ [row]) ∧ r_split st' = r_split st ∧ r_ended st' = r_ended st.
Proof.
  intros Hg. unfold routeRow. destruct (KeyIsNull row) eqn:Hn; [done|].
  destruct (CopyShard (Key row)) as [sh|e] eqn:Hsh; [|done]. case_decide as Hp; [|done]. cbv zeta.
  set (st1 := mkRelay _ _ _ _ _).
  assert (good st1 (rows ++ [row])) as Hg1.
  { destruct Hg as [H1 H2 H3]. split.
    - cbn. rewrite H1, length_app. cbn. lia.
    - intros sh'. rewrite bytes_for_snoc, <- H2, <- app_assoc. unfold delivered, batch. cbn. f_equal.
      unfold on_shard. rewrite Hsh. destruct (Z.eqb_spec sh sh') as [->|Hne].
      + by rewrite lookup_insert_eq.
      + rewrite lookup_insert_ne by done. by rewrite app_nil_r.
    - apply Forall_app. split; [done|]. constructor; [|done]. split; [done|]. eauto. }
  destruct (_ <=? _); [|intros [= <-]; done].
  intros Hf. destruct (flush_good _ _ _ _ Hg1 Hf) as (H1 & H2 & H3 & _). by split_and!.
Qed.

Lemma routeFuel_good fuel st st' rows :
  (length (buf (r_split st)) < fuel)%nat → r_ended st = false → good st rows → routeFuel fuel st = Ok st' →
  let '(new, err, s') := drain (r_split st) in
  good st' (rows ++ data_rows new) ∧
  if has_marker new then r_ended st' = true else err = None ∧ r_ended st' = false ∧ r_split st' = s'.
Proof.
  revert st rows. induction fuel as [|fuel IH]; intros st rows Hlen He Hg Hr; [lia|].
  rewrite drain_unfold. cbn [routeFuel] in Hr.
  destruct (Next (r_split st)) as [[[row|]|e] s] eqn:Hn; [| |done].
  - pose proof Hn as Hs. apply Next_shrinks in Hs.
    assert (good (with_split st s) rows) as Hg1 by (by apply (good_ext st)).
    destruct (is_marker row) eqn:Hm.
    { injection Hr as <-. destruct (drain s) as [[new err] s'] eqn:Hd. cbn. rewrite Hm. cbn. rewrite app_nil_r.
      split; [by apply (good_ext st)|done]. }
    destruct (routeRow (with_split st s) row) as [st1|] eqn:Hrow; [|done].
    destruct (routeRow_good _ _ _ _ Hg1 Hrow) as (Hg2 & Hs2 & He2). cbn in Hs2, He2.
    specialize (IH st1 (rows ++ [row])). rewrite Hs2 in IH.
    specialize (IH ltac:(lia) ltac:(congruence) Hg2 Hr).
    destruct (drain s) as [[new err] s']. cbn. rewrite Hm. cbn. by rewrite <- app_assoc in IH.
  - injection Hr as <-. cbn. rewrite app_nil_r. split_and!; [by apply (good_ext st)|done..].
Qed.

Lemma data_rows_app rows1 rows2 :
  data_rows (rows1 ++ rows2) = if has_marker rows1 then data_rows rows1 else rows1 ++ data_rows rows2.
Proof.
  unfold has_marker. induction rows1 as [|row rows1 IH]; [done|]. cbn. destruct (is_marker row); [done|]. cbn.
  rewrite IH. by destruct (existsb is_marker rows1).
Qed.
Lemma data_rows_all rows : has_marker rows = false → data_rows rows = rows.
Proof. induction rows as [|row rows IH]; [done|]. cbn. destruct (is_marker row); [done|]. cbn. intros H. by rewrite IH. Qed.

Lemma flushAll_good st shs st' rows :
  good st rows → (∀ sh, batch st sh ≠ [] → sh ∈ shs) → flushAll st shs = Ok st' →
  good st' rows ∧ ∀ sh, batch st' sh = [].
Proof.
  revert st. induction shs as [|sh shs IH]; intros st Hg Hb Hf.
  { injection Hf as <-. split; [done|]. intros sh. apply dec_stable. intros H. by apply Hb, not_elem_of_nil in H. }
  cbn [flushAll] in Hf. destruct (flush st sh) as [st1|] eqn:H1; [|done].
  destruct (flush_good _ _ _ _ Hg H1) as (Hg1 & _ & _ & Hb1 & Hb2). apply (IH st1); [done| |done].
  intros sh' Hs'. assert (sh' ∈ sh :: shs) as Hin by (apply Hb; intros E0; by apply Hs', Hb2).
  apply elem_of_cons in Hin as [->|]; [done|done].
Qed.

Section Delivery.
Variable order : list Z → list Z.
Hypothesis order_perm : ∀ l, order l ≡ₚ l.

Lemma batch_key st sh : batch st sh ≠ [] → sh ∈ (map_to_list (pending st)).*1.
Proof.
  unfold batch. intros Hb. destruct (pending st !! sh) as [b|] eqn:Hp; [|done].
  apply list_elem_of_fmap. exists (sh, b). split; [done|]. by apply elem_of_map_to_list.
Qed.

Lemma relayLoop_good st chunks st' rows :
  r_ended st = false → good st rows → relayLoop st chunks CopyDone order = Ok st' →
  let '(new, err) := feed (r_split st) chunks in
  good st' (rows ++ data_rows new) ∧ (∀ sh, batch st' sh = []) ∧ (has_marker new = false → err = None).
Proof.
  assert (∀ chunks st st', r_ended st = true → relayLoop st chunks CopyDone order = Ok st' →
    flushAll st (order (map_to_list (pending st)).*1) = Ok st') as Hended.
  { intros cs. induction cs as [|c cs IH]; intros s s' He Hr; cbn in Hr; rewrite He in Hr; [done|]. by apply IH. }
  assert (∀ st st' rows, good st rows → flushAll st (order (map_to_list (pending st)).*1) = Ok st' →
    good st' rows ∧ ∀ sh, batch st' sh = []) as Hflush.
  { intros s s' rs Hg Hf. eapply flushAll_good; [done| |done]. intros sh Hb. rewrite order_perm. by apply batch_key. }
  revert st rows. induction chunks as [|c chunks IH]; intros st rows He Hg Hr; cbn [relayLoop] in Hr; rewrite He in Hr.
  - destruct (route _) as [st1|] eqn:H1; [|done]. cbn [feed].
    pose proof (routeFuel_good _ (with_split st (End (r_split st))) st1 rows (Nat.lt_succ_diag_r _) He
      ltac:(by apply (good_ext st)) H1) as H2. cbn [r_split with_split] in H2.
    destruct (drain (End (r_split st))) as [[new err] s']. destruct H2 as [Hg1 Hm].
    destruct (Hflush _ _ _ Hg1 Hr) as [Hg2 Hb]. split_and!; [done..|].
    intros Hn. rewrite Hn in Hm. by destruct Hm.
  - destruct (route _) as [st1|] eqn:H1; [|done]. rewrite feed_cons.
    pose proof (routeFuel_good _ (with_split st (Write (r_split st) c)) st1 rows (Nat.lt_succ_diag_r _) He
      ltac:(by apply (good_ext st)) H1) as H2. cbn [r_split with_split] in H2.
    destruct (_ <? _); [done|].
    destruct (drain (Write (r_split st) c)) as [[new err] s']. destruct H2 as [Hg1 Hm].
    destruct (has_marker new) eqn:Hn.
    + pose proof (Hended _ _ _ Hm Hr) as Hf. destruct (Hflush _ _ _ Hg1 Hf) as [Hg2 Hb].
      destruct err as [e|]; [split_and!; [done..|]; by rewrite Hn|].
      destruct (feed s' chunks) as [rest err]. rewrite data_rows_app, Hn. split_and!; [done..|].
      unfold has_marker in *. by rewrite existsb_app, Hn.
    + destruct Hm as (-> & He1 & Hs1). specialize (IH st1 _ He1 Hg1 Hr). rewrite Hs1 in IH.
      destruct (feed s' chunks) as [rest err]. destruct IH as (Hg2 & Hb & Hmk).
      rewrite data_rows_app, Hn. rewrite (data_rows_all new Hn), <- app_assoc in Hg2. split_and!; [done..|].
      unfold has_marker in *. by rewrite existsb_app, Hn.
Qed.

(** For any stream, as the splitter reads it. *)
Lemma relay_feeds keyCol cols chunks st :
  relayCopyRows keyCol cols chunks CopyDone order = Ok st →
  let '(all, err) := feed (New keyCol cols) chunks in
  let rows := data_rows all in
  r_rows st = Z.of_nat (length rows) ∧ (∀ sh, delivered st sh = bytes_for sh rows) ∧
  Forall placed rows ∧ (has_marker all = false → err = None).
Proof.
  intros Hr. assert (good (mkRelay (New keyCol cols) ∅ 0 false []) []) as Hg0.
  { split; [done| |constructor]. intros sh. done. }
  pose proof (relayLoop_good (mkRelay (New keyCol cols) ∅ 0 false []) chunks st [] eq_refl Hg0 Hr) as H. cbn [r_split] in H.
  destruct (feed (New keyCol cols) chunks) as [all err]. destruct H as ([H1 H2 H3] & Hb & Hm).
  split_and!; [done| |done|done]. intros sh. by rewrite <- H2, Hb, app_nil_r.
Qed.

(** ** Delivery of a table *)

(** The shard a row of values belongs to, by the value of its key column. *)
Definition shardOf (k : nat) (vs : list (option bytes)) : option Z :=
  match vs !! k with
  | Some (Some v) => match CopyShard v with Ok sh => Some sh | Err _ => None end
  | _ => None
  end.
(** What may follow the rows: nothing, or the end-of-data marker and anything. *)
Definition ends (e : eol) (fin : bytes) : Prop :=
  fin = [] ∨ ∃ junk, fin = marker e ++ junk ∧ (e = eolCR → head junk ≠ Some NL).

Lemma read_row_no_marker k e vs : is_marker (read_row k e vs) = false.
Proof.
  unfold is_marker. rewrite (bool_decide_eq_false_2 (trimEOL _ = _)); [by rewrite andb_false_r|].
  assert (Bytes (read_row k e vs) = copy_row e vs) as -> by (unfold read_row; by destruct (vs !! k) as [[]|]).
  rewrite trimEOL_copy_row. apply copy_fields_no_dot.
Qed.
Lemma data_rows_table k e rows new : data_rows ((read_row k e <$> rows) ++ new) = (read_row k e <$> rows) ++ data_rows new.
Proof. induction rows as [|vs rows IH]; [done|]. rewrite fmap_cons. cbn. rewrite read_row_no_marker. by f_equal. Qed.
Lemma feed_table k c e rows fin chunks :
  e ≠ eolUnknown → (k < c)%nat → table_ok k c rows → ends e fin → mjoin chunks = stream e rows ++ fin →
  data_rows (feed (New k c) chunks).1 = read_row k e <$> rows.
Proof.
  intros He Hkc Hok Hfin Hs. assert (e = eolCR → head fin ≠ Some NL) as Hh by (intros ->; by destruct Hfin as [->|(junk & -> & _)]).
  rewrite feed_whole, Hs, drain_stream_app by (done || by left).
  set (known := if decide (rows = []) then eolUnknown else e).
  assert (eol_agrees e known) as Hk by (unfold known; case_decide; [by left|by right]).
  enough (data_rows (drain (mkSplitter fin k c known true)).1.1 = []) as Hd.
  { destruct (drain _) as [[new err] s]. cbn in *. by rewrite data_rows_table, Hd, app_nil_r. }
  destruct Hfin as [->|(junk & -> & Hj)]; [done|]. rewrite drain_unfold, Next_marker by done.
  assert (is_marker (mkRow (marker e) [] false) = true) as Hm.
  { unfold is_marker. cbn [Key KeyIsNull Bytes]. rewrite bool_decide_eq_true_2 by done. by destruct e. }
  destruct (drain _) as [[new err] s]. cbn [fst data_rows]. by rewrite Hm.
Qed.
Lemma placed_shardOf k e vs : placed (read_row k e vs) → ∃ sh, sh ∈ parts ∧ shardOf k vs = Some sh ∧ ∀ sh', on_shard sh' (read_row k e vs) = true ↔ sh = sh'.
Proof.
  unfold placed, shardOf, on_shard, read_row. destruct (vs !! k) as [[v|]|]; cbn; [|by intros [? _]..].
  intros (_ & sh & Hp & Hsh). rewrite Hsh. exists sh. split_and!; [done..|]. intros sh'. apply Z.eqb_eq.
Qed.
Lemma bytes_for_table k e rows sh :
  Forall placed (read_row k e <$> rows) → bytes_for sh (read_row k e <$> rows) = mjoin (copy_row e <$> filter (λ vs, shardOf k vs = Some sh) rows).
Proof.
  unfold bytes_for. induction rows as [|vs rows IH]; [done|]. rewrite fmap_cons. intros [Hp Hps]%Forall_cons.
  destruct (placed_shardOf k e vs Hp) as (sh' & _ & Hsh & Hon). specialize (IH Hps). rewrite !filter_cons.
  assert (Bytes (read_row k e vs) = copy_row e vs) as Hb by (unfold read_row; by destruct (vs !! k) as [[]|]).
  destruct (decide (sh' = sh)) as [->|Hne].
  - rewrite decide_True, decide_True by (done || by apply Hon). rewrite !fmap_cons, !mjoin_cons. by rewrite Hb, IH.
  - rewrite decide_False, decide_False; [done|congruence|]. by rewrite Hon.
Qed.

(** C25. A COPY the router reports as done delivered every row to the shard of
    its key and nowhere else.  For a table of rows of [c] columns, encoded in
    COPY's text format with one of the three line endings, ended by the stream's
    end or by the end-of-data marker and anything after it, and cut into chunks
    anywhere: the bytes each shard was sent, batch after batch, are the encodings
    of the rows whose key column has a value that belongs to it, in their order;
    every row has such a value and a shard the COPY was started on; and the count
    is theirs. *)
Theorem relay_delivers k c e rows fin chunks st :
  e ≠ eolUnknown → (k < c)%nat → table_ok k c rows → ends e fin → mjoin chunks = stream e rows ++ fin →
  relayCopyRows k c chunks CopyDone order = Ok st →
  r_rows st = Z.of_nat (length rows) ∧
  (∀ sh, delivered st sh = mjoin (copy_row e <$> filter (λ vs, shardOf k vs = Some sh) rows)) ∧
  Forall (λ vs, ∃ sh, sh ∈ parts ∧ shardOf k vs = Some sh) rows.
Proof.
  intros He Hkc Hok Hfin Hs Hr. pose proof (feed_table k c e rows fin chunks He Hkc Hok Hfin Hs) as Hd.
  pose proof (relay_feeds k c chunks st Hr) as H. destruct (feed (New k c) chunks) as [all err]. cbn [fst] in Hd. cbv zeta in H. rewrite Hd in H.
  destruct H as (H1 & H2 & H3 & _). rewrite length_fmap in H1. split_and!; [done| |].
  - intros sh. rewrite H2. by apply bytes_for_table.
  - eapply Forall_impl; [exact (proj1 (Forall_fmap _ _ _) H3)|]. intros vs Hp. destruct (placed_shardOf k e vs Hp) as (sh & ? & ? & _). eauto.
Qed.
End Delivery.
End Relay.

(** Keys below "m" on shard 0, the others on shard 1. *)
Definition by_letter (key : bytes) : result unit Z :=
  match key with [] => Err tt | c :: _ => Ok (if c <? 109 then 0 else 1) end.

(** Three rows keyed by the second column, one with an escaped key; the marker
    and something after it; the stream is cut inside a row. *)
Definition letters : list (list (option bytes)) := [[Some [49]; Some [97]]; [None; Some [120; 9]]; [Some [50]; Some [98; 10]]].
Definition lettersSent : bytes := stream eolNL letters ++ marker eolNL ++ [120].
Lemma relay_delivers_witness :
  ∃ st, relayCopyRows by_letter {[0; 1]} (λ _ _, None) 1 2 [take 5 lettersSent; drop 5 lettersSent] CopyDone id = Ok st ∧
    r_rows st = 3 ∧ delivered st 0 = [49; 9; 97; 10; 50; 9; 98; 92; 110; 10].
Proof.
  assert (∃ st, relayCopyRows by_letter {[0; 1]} (λ _ _, None) 1 2 [take 5 lettersSent; drop 5 lettersSent] CopyDone id = Ok st) as [st Hst]
    by (eexists; vm_compute; reflexivity).
  exists st. split; [exact Hst|].
  destruct (relay_delivers by_letter {[0; 1]} (λ _ _, None) id (λ l, Permutation_refl l) 1 2 eolNL letters (marker eolNL ++ [120])
    [take 5 lettersSent; drop 5 lettersSent] st) as (H1 & H2 & _); [..|exact Hst|].
  - discriminate.
  - lia.
  - repeat constructor; intros v Hv; cbn in Hv; injection Hv as <-; rewrite !elem_of_cons, elem_of_nil; lia.
  - right. exists [120]. split; [reflexivity|discriminate].
  - reflexivity.
  - split; [exact H1|]. rewrite H2. vm_compute. reflexivity.
Defined.
