(* ===== verification/SqlSplit.v ===== *)
(** * Statement splitting ([src/internal/pgwire/split.go])

    [splitStatements] cuts a query text into its top-level statements with
    PostgreSQL's lexical rules.  The scanners return how many bytes a token
    takes, [None] when it is not terminated.  Against them stands a lexical
    grammar of texts by the values of their parts, which splitting recovers. *)

From Stdlib Require Import Ascii.
From S2P Require Import Prelude Reconcile.

Local Open Scope Z_scope.

Definition SEMI : Z := 59.
Definition QUOTE : Z := 39.
Definition DQUOTE : Z := 34.
Definition DOLLAR : Z := 36.
Definition DASH : Z := 45.
Definition SLASH : Z := 47.
Definition STAR : Z := 42.
Definition BACKSLASH : Z := 92.
Definition NEWLINE : Z := 10.

Definition isIdentStart (c : Z) : bool :=
  (c =? 95) || (97 <=? c) && (c <=? 122) || (65 <=? c) && (c <=? 90) || (128 <=? c).
Definition isDigit (c : Z) : bool := (48 <=? c) && (c <=? 57).
Definition isIdentCont (c : Z) : bool := isIdentStart c || isDigit c || (c =? DOLLAR).
Definition isBlank (c : Z) : bool :=
  (c =? 32) || (c =? 9) || (c =? 10) || (c =? 13) || (c =? 12) || (c =? 11).

(** ** Scanners *)

(** The bytes up to, and without, the first that [p] refuses. *)
Fixpoint spanLen (p : Z → bool) (s : bytes) : nat :=
  match s with
  | c :: s => if p c then S (spanLen p s) else 0%nat
  | [] => 0%nat
  end.

(** [skipBlockComment] from inside, [depth] comments deep. *)
Fixpoint blockLen (depth : nat) (s : bytes) : option nat :=
  match s with
  | c :: s1 =>
      match s1 with
      | d :: s2 =>
          if (c =? SLASH) && (d =? STAR) then (λ n, (n + 2)%nat) <$> blockLen (S depth) s2
          else if (c =? STAR) && (d =? SLASH) then
            match depth with
            | S (S depth) => (λ n, (n + 2)%nat) <$> blockLen (S depth) s2
            | _ => Some 2%nat
            end
          else S <$> blockLen depth s1
      | [] => None
      end
  | [] => None
  end.

(** [skipQuoted] after the opening delimiter [q]. *)
Fixpoint quotedLen (q : Z) (s : bytes) : option nat :=
  match s with
  | c :: s1 =>
      if c =? q then
        match s1 with
        | d :: s2 => if d =? q then (λ n, (n + 2)%nat) <$> quotedLen q s2 else Some 1%nat
        | [] => Some 1%nat
        end
      else S <$> quotedLen q s1
  | [] => None
  end.

(** [skipEscapeString] after the opening quote. *)
Fixpoint escapeLen (s : bytes) : option nat :=
  match s with
  | c :: s1 =>
      if c =? BACKSLASH then
        match s1 with
        | _ :: s2 => (λ n, (n + 2)%nat) <$> escapeLen s2
        | [] => None
        end
      else if c =? QUOTE then
        match s1 with
        | d :: s2 => if d =? QUOTE then (λ n, (n + 2)%nat) <$> escapeLen s2 else Some 1%nat
        | [] => Some 1%nat
        end
      else S <$> escapeLen s1
  | [] => None
  end.

(** The search for the closing tag: the bytes up to its end. *)
Fixpoint findTag (tag s : bytes) : option nat :=
  if bool_decide (take (length tag) s = tag) then Some (length tag)
  else match s with
       | _ :: s => S <$> findTag tag s
       | [] => None
       end.

(** The opening tag of a dollar quote, dollar signs included, if the text
    after a dollar sign, [s], makes it one. *)
Definition dollarTag (s : bytes) : option bytes :=
  match s with
  | [] => None
  | c :: _ =>
      let n := if c =? DOLLAR then 0%nat else spanLen (λ c, isIdentStart c || isDigit c) s in
      if negb (c =? DOLLAR) && negb (isIdentStart c) then None
      else match s !! n with
           | Some d => if d =? DOLLAR then Some (DOLLAR :: take (S n) s) else None
           | None => None
           end
  end.

(** ** Tokens *)

(** A semicolon; white space or a comment; anything else. *)
Inductive kind := KSemi | KBlank | KToken.
#[export] Instance kind_eq_dec : EqDecision kind.
Proof. solve_decision. Defined.

Definition nextToken (s : bytes) : option (kind * nat) :=
  match s with
  | [] => None
  | c :: s1 =>
      if c =? SEMI then Some (KSemi, 1%nat)
      else if isBlank c then Some (KBlank, 1%nat)
      else if (c =? DASH) && bool_decide (head s1 = Some DASH) then Some (KBlank, spanLen (λ c, negb (c =? NEWLINE)) s)
      else if (c =? SLASH) && bool_decide (head s1 = Some STAR) then
        (λ n, (KBlank, (n + 2)%nat)) <$> blockLen 1 (drop 1 s1)
      else if c =? QUOTE then (λ n, (KToken, S n)) <$> quotedLen QUOTE s1
      else if c =? DQUOTE then (λ n, (KToken, S n)) <$> quotedLen DQUOTE s1
      else if ((c =? 101) || (c =? 69)) && bool_decide (head s1 = Some QUOTE) then
        (λ n, (KToken, (n + 2)%nat)) <$> escapeLen (drop 1 s1)
      else if c =? DOLLAR then
        match dollarTag s1 with
        | Some tag => (λ n, (KToken, (length tag + n)%nat)) <$> findTag tag (drop (length tag) s)
        | None => Some (KToken, 1%nat)
        end
      else if isIdentStart c then Some (KToken, spanLen isIdentCont s)
      else Some (KToken, 1%nat)
  end.

(** ** Statements *)

(** The loop over the text; [cur] is the text of the statement begun, from its
    first token on.  An unterminated token is an error. *)
Fixpoint splitFuel (fuel : nat) (s : bytes) (cur : option bytes) : option (list bytes) :=
  match fuel with
  | O => None
  | S fuel =>
      match s with
      | [] => Some (match cur with Some t => [t] | None => [] end)
      | _ =>
          match nextToken s with
          | None => None
          | Some (KSemi, n) =>
              rest ← splitFuel fuel (drop n s) None;
              Some (match cur with Some t => t :: rest | None => rest end)
          | Some (KBlank, n) => splitFuel fuel (drop n s) ((λ t, t ++ take n s) <$> cur)
          | Some (KToken, n) => splitFuel fuel (drop n s) (Some (default [] cur ++ take n s))
          end
      end
  end.

(** [None] is [errUnterminated]. *)
Definition splitStatements (sql : bytes) : option (list bytes) := splitFuel (S (length sql)) sql None.

Definition countStatements (sql : bytes) : Z * bool :=
  match splitStatements sql with Some stmts => (Z.of_nat (length stmts), true) | None => (0, false) end.

(** The cases of [TestCountStatements] and [TestCountStatementsUnterminated]. *)
Definition nl : string := String (Ascii.ascii_of_nat 10) EmptyString.
Definition dq : string := String (Ascii.ascii_of_nat 34) EmptyString.
Lemma count_examples :
  (λ s, (countStatements (bytes_of s)).1) <$>
    [""; ";"; "; ;"; "-- only a comment"; "/* block */"; "select 1"; "select 1; "; "select 1; select 2"; "select ';'";
     "select 'it''s; fine'"; "select " +:+ dq +:+ "a;b" +:+ dq; "select E'a\';b'"; "select e'\\'; select 2"; "select $$a;b$$";
     "select $tag$ ; $x$ ; $tag$"; "select $tag$;$TAG$;$tag$"; "select $1; select $2"; "select a$b$c; select 2";
     "select $ 1; select 2"; "select 1 -- ; select 2"; "select 1 -- ;" +:+ nl +:+ " select 2"; "select 1 -- x" +:+ nl +:+ "; select 2";
     "select 1 /* ; */"; "select 1 /* /* nested ; */ ; */"; "select 1 /* /* nested */ */; select 2"; "select $_a1$;$_a1$";
     "do $body$ begin perform 1; end $body$; select 2"; "select U&'d\0061t;a'"; "select 1;" +:+ nl +:+ "-- trailing"] =
    [0; 0; 0; 0; 0; 1; 1; 2; 1; 1; 1; 1; 2; 1; 1; 1; 2; 2; 2; 1; 1; 2; 1; 1; 2; 1; 2; 1; 1] ∧
  (λ s, splitStatements (bytes_of s)) <$>
    ["select '"; "select 'a;"; "select " +:+ dq +:+ "x"; "select $$;"; "select $t$ ; $u$"; "select /* ;"; "select E'\'"; "select $$"] =
    replicate 8 None ∧
  (λ s, countStatements (bytes_of s)) <$> ["select $"; "select $1"; "select $1$"; "select $9x$ ; $9x$"] =
    [(1, true); (1, true); (1, true); (2, true)].
Proof. split_and!; vm_compute; reflexivity. Qed.

(** ** Tokens consume *)

Lemma spanLen_le p s : (spanLen p s ≤ length s)%nat.
Proof. induction s as [|c s IH]; cbn; [lia|]. destruct (p c); lia. Qed.

Lemma blockLen_cons d c e s :
  blockLen d (c :: e :: s) =
  if (c =? SLASH) && (e =? STAR) then (λ n, (n + 2)%nat) <$> blockLen (S d) s
  else if (c =? STAR) && (e =? SLASH) then
    match d with S (S d') => (λ n, (n + 2)%nat) <$> blockLen (S d') s | _ => Some 2%nat end
  else S <$> blockLen d (e :: s).
Proof. done. Qed.
Lemma quotedLen_cons q c d s :
  quotedLen q (c :: d :: s) =
  if c =? q then (if d =? q then (λ n, (n + 2)%nat) <$> quotedLen q s else Some 1%nat) else S <$> quotedLen q (d :: s).
Proof. done. Qed.
Lemma escapeLen_cons c d s :
  escapeLen (c :: d :: s) =
  if c =? BACKSLASH then (λ n, (n + 2)%nat) <$> escapeLen s
  else if c =? QUOTE then (if d =? QUOTE then (λ n, (n + 2)%nat) <$> escapeLen s else Some 1%nat)
  else S <$> escapeLen (d :: s).
Proof. done. Qed.

Lemma blockLen_pos d s n : blockLen d s = Some n → (2 ≤ n)%nat.
Proof.
  revert d n. induction s as [s IH] using list_len_ind. intros d n H.
  destruct s as [|c [|e s2]]; [done|done|]. rewrite blockLen_cons in H.
  destruct (_ && _); [apply fmap_Some in H as (m & _ & ->); lia|].
  destruct (_ && _).
  - destruct d as [|[|d]]; [by simplify_eq..|]. apply fmap_Some in H as (m & _ & ->). lia.
  - apply fmap_Some in H as (m & Hm & ->). apply IH in Hm; [lia|cbn; lia].
Qed.
Lemma quotedLen_pos q s n : quotedLen q s = Some n → (1 ≤ n)%nat.
Proof.
  destruct s as [|c [|d s2]]; cbn [quotedLen]; [done|..].
  - destruct (c =? q); [by intros [= <-]|done].
  - destruct (c =? q); [destruct (d =? q)|].
    + intros (m & _ & ->)%fmap_Some. lia.
    + by intros [= <-].
    + intros (m & _ & ->)%fmap_Some. lia.
Qed.
Lemma escapeLen_pos s n : escapeLen s = Some n → (1 ≤ n)%nat.
Proof.
  destruct s as [|c [|d s2]]; cbn [escapeLen]; [done|..].
  - destruct (c =? BACKSLASH); [done|]. destruct (c =? QUOTE); [by intros [= <-]|done].
  - destruct (c =? BACKSLASH); [intros (m & _ & ->)%fmap_Some; lia|].
    destruct (c =? QUOTE); [destruct (d =? QUOTE)|].
    + intros (m & _ & ->)%fmap_Some. lia.
    + by intros [= <-].
    + intros (m & _ & ->)%fmap_Some. lia.
Qed.
Lemma findTag_ge tag s n : findTag tag s = Some n → (length tag ≤ n)%nat.
Proof.
  revert n. induction s as [|c s IH]; intros n; cbn [findTag]; case_bool_decide; try (by intros [= <-]).
  intros (m & Hm & ->)%fmap_Some. apply IH in Hm. lia.
Qed.

Lemma nextToken_pos s k n : nextToken s = Some (k, n) → (1 ≤ n)%nat.
Proof.
  destruct s as [|c s1]; [done|]. cbn [nextToken].
  destruct (c =? SEMI); [by intros [= <- <-]|]. destruct (isBlank c); [by intros [= <- <-]|].
  destruct ((c =? DASH) && _) eqn:Hd.
  { intros [= <- <-]. apply andb_true_iff in Hd as [->%Z.eqb_eq _]. cbn. lia. }
  destruct ((c =? SLASH) && _); [intros (m & _ & [= -> ->])%fmap_Some; lia|].
  destruct (c =? QUOTE); [intros (m & _ & [= -> ->])%fmap_Some; lia|].
  destruct (c =? DQUOTE); [intros (m & _ & [= -> ->])%fmap_Some; lia|].
  destruct (((c =? 101) || (c =? 69)) && _); [intros (m & _ & [= -> ->])%fmap_Some; lia|].
  destruct (c =? DOLLAR) eqn:Ho.
  { destruct (dollarTag s1) as [tag|] eqn:Ht; [|by intros [= <- <-]].
    intros (m & _ & [= -> ->])%fmap_Some. unfold dollarTag in Ht. destruct s1 as [|d s1]; [done|]. revert Ht.
    destruct (negb _ && negb _); [done|]. destruct ((d :: s1) !! _) as [e|]; [|done].
    destruct (e =? DOLLAR); [|done]. intros [= <-]. cbn. lia. }
  destruct (isIdentStart c) eqn:Hi; [|by intros [= <- <-]].
  intros [= <- <-]. cbn. unfold isIdentCont at 1. rewrite Hi. cbn. lia.
Qed.

Lemma splitFuel_enough f1 f2 s cur :
  (length s < f1)%nat → (length s < f2)%nat → splitFuel f1 s cur = splitFuel f2 s cur.
Proof.
  revert f2 s cur. induction f1 as [|f1 IH]; intros [|f2] s cur H1 H2; [lia..|]. cbn [splitFuel].
  destruct s as [|c s1]; [done|]. destruct (nextToken (c :: s1)) as [[k n]|] eqn:Hn; [|done].
  apply nextToken_pos in Hn.
  assert (length (drop n (c :: s1)) < length (c :: s1))%nat as Hl by (rewrite length_drop; cbn; lia).
  destruct k; rewrite (IH f2) by lia; done.
Qed.

(** The loop with the fuel it needs. *)
Definition split (s : bytes) (cur : option bytes) : option (list bytes) := splitFuel (S (length s)) s cur.

Lemma split_nil cur : split [] cur = Some (match cur with Some t => [t] | None => [] end).
Proof. done. Qed.

Lemma split_token k x y cur :
  nextToken (x ++ y) = Some (k, length x) →
  split (x ++ y) cur =
  match k with
  | KSemi => rest ← split y None; Some (match cur with Some t => t :: rest | None => rest end)
  | KBlank => split y ((λ t, t ++ x) <$> cur)
  | KToken => split y (Some (default [] cur ++ x))
  end.
Proof.
  intros Hn. pose proof (nextToken_pos _ _ _ Hn) as Hp. unfold split.
  assert (∀ cur, splitFuel (length (x ++ y)) y cur = splitFuel (S (length y)) y cur) as Hf.
  { intros c. apply splitFuel_enough; rewrite ?length_app; lia. }
  cbn [splitFuel]. destruct (x ++ y) as [|c s1] eqn:Hs; [by destruct x; cbn in *; [lia|]|]. rewrite <- Hs in *.
  rewrite Hn, take_app_length, drop_app_length. destruct k; by rewrite ?Hf.
Qed.

(** ** A token does not depend on what follows the statement *)

(** [y'] is [y] up to the semicolon that ends a statement, and then stops or
    goes on differently. *)
Definition ctx (y y' : bytes) : Prop :=
  y' = y ∨ ∃ u r, y = u ++ SEMI :: r ∧ (y' = u ∨ ∃ r', y' = u ++ SEMI :: r').
Definition hd_ok (y y' : bytes) : Prop := head y' = head y ∨ head y = Some SEMI ∧ head y' = None.

Lemma ctx_hd y y' : ctx y y' → hd_ok y y'.
Proof.
  intros [->|(u & r & -> & [->|[r' ->]])]; [by left|..]; (destruct u; [|by left]); [right; done|left; done].
Qed.

Lemma spanLen_ctx p x y y' : spanLen p (x ++ y) = length x → hd_ok y y' → spanLen p (x ++ y') = length x.
Proof.
  intros H Hy. induction x as [|c x IH]; cbn in *.
  - destruct Hy as [Hy|[Hy Hy']]; destruct y as [|d y], y' as [|d' y']; cbn in *; simplify_eq; try done.
    by destruct (p d).
  - destruct (p c); [|done]. f_equal. apply IH. congruence.
Qed.

Lemma blockLen_ctx d x y y' : blockLen d (x ++ y) = Some (length x) → blockLen d (x ++ y') = Some (length x).
Proof.
  revert d. induction x as [x IH] using list_len_ind. intros d H.
  pose proof (blockLen_pos _ _ _ H) as Hp. destruct x as [|c [|e x]]; cbn in Hp; [lia|lia|].
  cbn [app] in *. rewrite blockLen_cons in *. destruct ((c =? SLASH) && (e =? STAR)).
  { apply fmap_Some in H as (m & Hm & Hl). cbn in Hl. assert (m = length x) as -> by lia.
    rewrite (IH x) by (done || cbn; lia). cbn. f_equal. lia. }
  destruct ((c =? STAR) && (e =? SLASH)).
  - destruct d as [|[|d]]; [done|done|]. apply fmap_Some in H as (m & Hm & Hl). cbn in Hl.
    assert (m = length x) as -> by lia. rewrite (IH x) by (done || cbn; lia). cbn. f_equal. lia.
  - apply fmap_Some in H as (m & Hm & Hl). cbn in Hl. assert (m = length (e :: x)) as -> by (cbn; lia).
    change (e :: x ++ y') with ((e :: x) ++ y'). rewrite (IH (e :: x)) by (done || cbn; lia). done.
Qed.

Lemma quotedLen_ctx q x y y' :
  q ≠ SEMI → hd_ok y y' → quotedLen q (x ++ y) = Some (length x) → quotedLen q (x ++ y') = Some (length x).
Proof.
  intros Hq Hy. induction x as [x IH] using list_len_ind. intros H.
  pose proof (quotedLen_pos _ _ _ H) as Hp. destruct x as [|c x]; cbn in Hp; [lia|].
  destruct x as [|d x].
  - clear IH Hp. cbn [app length] in *. destruct (Z.eqb_spec c q) as [->|Hc].
    2: { cbn in H. rewrite (proj2 (Z.eqb_neq c q)) in H by done. apply fmap_Some in H as (m & Hm & Hl).
         apply quotedLen_pos in Hm. lia. }
    assert (head y ≠ Some q) as Hn.
    { intros E. destruct y as [|d y]; [done|]. cbn in E. simplify_eq. rewrite quotedLen_cons, Z.eqb_refl in H.
      apply fmap_Some in H as (m & _ & Hl). lia. }
    cbn. rewrite Z.eqb_refl. destruct y' as [|d' y']; [done|].
    destruct Hy as [Hy|[_ Hy]]; [|done]. cbn in Hy. rewrite (proj2 (Z.eqb_neq d' q)); [done|congruence].
  - cbn [app] in *. rewrite quotedLen_cons in *. destruct (c =? q).
    + destruct (d =? q); [|done]. apply fmap_Some in H as (m & Hm & Hl). cbn in Hl.
      assert (m = length x) as -> by lia. rewrite (IH x) by (done || cbn; lia). cbn. f_equal. lia.
    + apply fmap_Some in H as (m & Hm & Hl). cbn in Hl. assert (m = length (d :: x)) as -> by (cbn; lia).
      change (d :: x ++ y') with ((d :: x) ++ y'). rewrite (IH (d :: x)) by (done || cbn; lia). done.
Qed.

Lemma escapeLen_ctx x y y' :
  hd_ok y y' → escapeLen (x ++ y) = Some (length x) → escapeLen (x ++ y') = Some (length x).
Proof.
  intros Hy. induction x as [x IH] using list_len_ind. intros H.
  pose proof (escapeLen_pos _ _ H) as Hp. destruct x as [|c x]; cbn in Hp; [lia|].
  destruct x as [|d x].
  - clear IH Hp. cbn [app length] in *. destruct (Z.eqb_spec c BACKSLASH) as [->|Hb].
    { destruct y as [|d y]; [done|]. rewrite escapeLen_cons, Z.eqb_refl in H. apply fmap_Some in H as (m & _ & Hl). lia. }
    destruct (Z.eqb_spec c QUOTE) as [->|Hc].
    2: { cbn in H. rewrite (proj2 (Z.eqb_neq c BACKSLASH)), (proj2 (Z.eqb_neq c QUOTE)) in H by done.
         apply fmap_Some in H as (m & Hm & Hl). apply escapeLen_pos in Hm. lia. }
    assert (head y ≠ Some QUOTE) as Hn.
    { intros E. destruct y as [|d y]; [done|]. cbn in E. simplify_eq.
      rewrite escapeLen_cons in H. cbn in H. apply fmap_Some in H as (m & _ & Hl). lia. }
    cbn. destruct y' as [|d' y']; [done|].
    destruct Hy as [Hy|[_ Hy]]; [|done]. cbn in Hy. rewrite (proj2 (Z.eqb_neq d' QUOTE)); [done|congruence].
  - cbn [app] in *. rewrite escapeLen_cons in *. destruct (c =? BACKSLASH); [|destruct (c =? QUOTE)].
    + apply fmap_Some in H as (m & Hm & Hl). cbn in Hl.
      assert (m = length x) as -> by lia. rewrite (IH x) by (done || cbn; lia). cbn. f_equal. lia.
    + destruct (d =? QUOTE); [|done]. apply fmap_Some in H as (m & Hm & Hl). cbn in Hl.
      assert (m = length x) as -> by lia. rewrite (IH x) by (done || cbn; lia). cbn. f_equal. lia.
    + apply fmap_Some in H as (m & Hm & Hl). cbn in Hl. assert (m = length (d :: x)) as -> by (cbn; lia).
      change (d :: x ++ y') with ((d :: x) ++ y'). rewrite (IH (d :: x)) by (done || cbn; lia). done.
Qed.

Lemma take_app_ctx (n : nat) (x y y' : bytes) : (n ≤ length x)%nat → take n (x ++ y') = take n (x ++ y).
Proof. intros Hn. by rewrite !take_app_le. Qed.

Lemma findTag_ctx tag x y y' : findTag tag (x ++ y) = Some (length x) → findTag tag (x ++ y') = Some (length x).
Proof.
  induction x as [|c x IH]; intros H; pose proof (findTag_ge _ _ _ H) as Hge.
  - destruct tag; [|cbn in Hge; lia]. by destruct y'.
  - cbn [app findTag] in *. change (c :: x ++ y) with ((c :: x) ++ y) in *. change (c :: x ++ y') with ((c :: x) ++ y').
    rewrite (take_app_ctx _ _ y y') by done. case_bool_decide; [done|].
    apply fmap_Some in H as (m & Hm & Hl). cbn in Hl. injection Hl as <-. by rewrite IH.
Qed.

(** What makes a tag. *)
Definition tagByte (c : Z) : bool := isIdentStart c || isDigit c.
Definition isTag (z : bytes) : Prop :=
  ∃ w, z = w ++ [DOLLAR] ∧ forallb tagByte w = true ∧ (w = [] ∨ ∃ c w', w = c :: w' ∧ isIdentStart c = true).

Lemma spanLen_split p s :
  ∃ w r, s = w ++ r ∧ spanLen p s = length w ∧ forallb p w = true ∧ (∀ c, head r = Some c → p c = false).
Proof.
  induction s as [|c s (w & r & -> & IH & Hw & Hr)]; [by exists [], []|]. cbn. destruct (p c) eqn:Hc.
  - exists (c :: w), r. cbn. by rewrite IH, Hc.
  - exists [], (c :: w ++ r). split_and!; [done..|]. by intros ? [= <-].
Qed.
Lemma spanLen_app p w r :
  forallb p w = true → (∀ c, head r = Some c → p c = false) → spanLen p (w ++ r) = length w.
Proof.
  intros Hw Hr. induction w as [|c w IH]; cbn in *.
  - destruct r as [|c r]; [done|]. cbn. by rewrite (Hr c).
  - apply andb_true_iff in Hw as [-> Hw]. by rewrite IH.
Qed.

Lemma dollarTag_of_tag z rest : isTag z → dollarTag (z ++ rest) = Some (DOLLAR :: z).
Proof.
  intros (w & -> & Hw & [->|(c & w' & -> & Hc)]); [done|]. rewrite <- app_assoc.
  change ((c :: w') ++ [DOLLAR] ++ rest) with (c :: w' ++ DOLLAR :: rest). unfold dollarTag.
  assert (c =? DOLLAR = false) as Hd by (apply Z.eqb_neq; intros ->; done).
  rewrite Hd, Hc. cbn [negb andb].
  change (c :: w' ++ DOLLAR :: rest) with ((c :: w') ++ DOLLAR :: rest).
  rewrite (spanLen_app tagByte (c :: w')) by (done || (intros ? [= <-]; done)).
  rewrite list_lookup_middle by done. change (DOLLAR =? DOLLAR) with true. cbv iota.
  replace ((c :: w') ++ DOLLAR :: rest) with (((c :: w') ++ [DOLLAR]) ++ rest) by (by rewrite <- app_assoc).
  rewrite take_app_length'; [done|]. rewrite length_app. cbn. lia.
Qed.
Lemma dollarTag_inv s tag : dollarTag s = Some tag → ∃ z rest, tag = DOLLAR :: z ∧ s = z ++ rest ∧ isTag z.
Proof.
  destruct s as [|c s]; [done|]. unfold dollarTag. destruct (Z.eqb_spec c DOLLAR) as [->|Hc].
  { cbn. intros [= <-]. exists [DOLLAR], s. split_and!; [done..|]. exists []. split_and!; [done..|by left]. }
  destruct (isIdentStart c) eqn:Hi; [|done]. cbn [negb andb].
  destruct (spanLen_split tagByte (c :: s)) as (w & r & Hs & Hl & Hw & Hr). fold tagByte.
  change (λ c0, isIdentStart c0 || isDigit c0) with tagByte. rewrite Hl, Hs.
  destruct r as [|d r]; [rewrite lookup_ge_None_2; [done|rewrite app_nil_r; lia]|].
  rewrite list_lookup_middle by done. destruct (Z.eqb_spec d DOLLAR) as [->|]; [|done]. intros [= <-].
  exists (w ++ [DOLLAR]), r. rewrite <- app_assoc. split_and!; [|done|].
  - f_equal. replace (w ++ DOLLAR :: r) with ((w ++ [DOLLAR]) ++ r) by (by rewrite <- app_assoc).
    rewrite take_app_length'; [done|]. rewrite length_app. cbn. lia.
  - exists w. split_and!; [done..|]. destruct w as [|c' w]; [by left|right]. exists c', w. cbn in Hs. by simplify_eq.
Qed.

Lemma isTag_no_semi z : isTag z → SEMI ∉ z.
Proof.
  intros (w & -> & Hw & _) [H|H%list_elem_of_singleton]%elem_of_app; [|done].
  rewrite forallb_forall in Hw. apply list_elem_of_In, Hw in H. done.
Qed.

Lemma prefix_before_semi (z rest u r : bytes) :
  SEMI ∉ z → z ++ rest = u ++ SEMI :: r → ∃ u', u = z ++ u'.
Proof.
  intros Hz. revert u. induction z as [|c z IH]; intros u E; [by exists u|].
  destruct u as [|d u]; cbn in E; injection E as -> E; [by destruct Hz; left|].
  destruct (IH ltac:(intros ?; apply Hz; by right) u E) as [u' ->]. by exists u'.
Qed.

Lemma dollarTag_none_ctx y y' : ctx y y' → dollarTag y = None → dollarTag y' = None.
Proof.
  intros [->|(u & r & -> & Hy')] Hn; [done|]. destruct (dollarTag y') as [tag|] eqn:Ht; [|done].
  apply dollarTag_inv in Ht as (z & rest & -> & -> & Hz).
  assert (∃ u', u = z ++ u') as [u' ->].
  { destruct Hy' as [E|[r' E]]; [by exists rest|]. by apply prefix_before_semi in E; [|apply isTag_no_semi]. }
  rewrite <- app_assoc, dollarTag_of_tag in Hn by done. done.
Qed.

Lemma dollarTag_some_ctx x y y' z :
  dollarTag (x ++ y) = Some (DOLLAR :: z) → (length z ≤ length x)%nat → dollarTag (x ++ y') = Some (DOLLAR :: z).
Proof.
  intros Ht Hl. apply dollarTag_inv in Ht as (z' & rest & [= <-] & E & Hz).
  assert (x = z ++ drop (length z) x) as ->.
  { rewrite <- (take_drop (length z) x) at 1. f_equal.
    rewrite <- (take_app_le x y) by done. by rewrite E, take_app_length. }
  rewrite <- app_assoc. by apply dollarTag_of_tag.
Qed.

Lemma head_ctx (d : Z) x y y' :
  d ≠ SEMI → hd_ok y y' → bool_decide (head (x ++ y') = Some d) = bool_decide (head (x ++ y) = Some d).
Proof.
  intros Hd Hy. apply bool_decide_ext. destruct x as [|c x]; [|done]. cbn. destruct Hy as [->|[-> ->]]; [done|].
  split; [done|]. intros [= E]. by destruct Hd.
Qed.

Lemma drop_app_ctx (x y y' : bytes) f n :
  (∀ x1, f (x1 ++ y) = Some (length x1) → f (x1 ++ y') = Some (length x1)) →
  x ≠ [] → f (drop 1 (x ++ y)) = Some n → length x = S n → f (drop 1 (x ++ y')) = Some n.
Proof. intros Hf Hx H Hl. destruct x as [|c x]; [done|]. cbn in *. simplify_eq. by apply Hf. Qed.

Lemma nextToken_ctx k x y y' :
  nextToken (x ++ y) = Some (k, length x) → ctx y y' → nextToken (x ++ y') = Some (k, length x).
Proof.
  intros H Hc. pose proof (ctx_hd _ _ Hc) as Hy. pose proof (nextToken_pos _ _ _ H) as Hp.
  destruct x as [|c x]; cbn in Hp; [lia|]. clear Hp. cbn [app nextToken] in *.
  rewrite (head_ctx DASH x y y'), (head_ctx STAR x y y'), (head_ctx QUOTE x y y') by done.
  destruct (c =? SEMI); [done|]. destruct (isBlank c); [done|].
  destruct ((c =? DASH) && _).
  { injection H as <- H. do 2 f_equal. by apply (spanLen_ctx _ (c :: x) y). }
  destruct ((c =? SLASH) && _) eqn:E.
  { apply fmap_Some in H as (m & Hm & [= <- Hl]).
    rewrite (drop_app_ctx x y y' (blockLen 1) m); [cbn; do 2 f_equal; lia|by intros; eapply blockLen_ctx|..]; [|done|lia].
    intros ->. cbn in Hl. lia. }
  destruct (c =? QUOTE).
  { apply fmap_Some in H as (m & Hm & [= <- <-]). by rewrite (quotedLen_ctx _ _ y). }
  destruct (c =? DQUOTE).
  { apply fmap_Some in H as (m & Hm & [= <- <-]). by rewrite (quotedLen_ctx _ _ y). }
  destruct (((c =? 101) || (c =? 69)) && _).
  { apply fmap_Some in H as (m & Hm & [= <- Hl]).
    rewrite (drop_app_ctx x y y' escapeLen m); [cbn; do 2 f_equal; lia|by intros; eapply escapeLen_ctx|..]; [|done|lia].
    intros ->. cbn in Hl. lia. }
  destruct (c =? DOLLAR).
  { destruct (dollarTag (x ++ y)) as [tag|] eqn:Ht.
    - pose proof (dollarTag_inv _ _ Ht) as (z & rest & -> & _). apply fmap_Some in H as (m & Hm & [= <- Hl]).
      cbn [length app drop] in *. pose proof (findTag_ge _ _ _ Hm) as Hge. cbn in Hge.
      rewrite (dollarTag_some_ctx x y y' z) by (done || lia). cbn [length drop].
      rewrite drop_app_le in Hm |- * by lia.
      replace m with (length (drop (length z) x)) in * by (rewrite length_drop; lia).
      rewrite (findTag_ctx _ _ y) by done. cbn. do 2 f_equal. lia.
    - injection H as <- H. destruct x; [|cbn in H; lia]. by rewrite (dollarTag_none_ctx y). }
  destruct (isIdentStart c); [|done]. injection H as <- H. do 2 f_equal. by apply (spanLen_ctx _ (c :: x) y).
Qed.

(** ** Statements do not depend on their neighbours *)

Lemma blockLen_le d s n : blockLen d s = Some n → (n ≤ length s)%nat.
Proof.
  revert d n. induction s as [s IH] using list_len_ind. intros d n H.
  destruct s as [|c [|e s2]]; [done|done|]. rewrite blockLen_cons in H.
  destruct (_ && _); [apply fmap_Some in H as (m & Hm & ->); apply IH in Hm; cbn in *; lia|].
  destruct (_ && _).
  - destruct d as [|[|d]]; [simplify_eq; cbn; lia..|]. apply fmap_Some in H as (m & Hm & ->). apply IH in Hm; cbn in *; lia.
  - apply fmap_Some in H as (m & Hm & ->). apply IH in Hm; cbn in *; lia.
Qed.
Lemma quotedLen_le q s n : quotedLen q s = Some n → (n ≤ length s)%nat.
Proof.
  revert n. induction s as [s IH] using list_len_ind. intros n H. destruct s as [|c [|d s]]; [done|..].
  - cbn in H. destruct (c =? q); [by simplify_eq|done].
  - rewrite quotedLen_cons in H. destruct (c =? q); [destruct (d =? q)|].
    + apply fmap_Some in H as (m & Hm & ->). apply IH in Hm; cbn in *; lia.
    + simplify_eq. cbn. lia.
    + apply fmap_Some in H as (m & Hm & ->). apply IH in Hm; cbn in *; lia.
Qed.
Lemma escapeLen_le s n : escapeLen s = Some n → (n ≤ length s)%nat.
Proof.
  revert n. induction s as [s IH] using list_len_ind. intros n H. destruct s as [|c [|d s]]; [done|..].
  - cbn in H. destruct (c =? BACKSLASH); [done|]. destruct (c =? QUOTE); [by simplify_eq|done].
  - rewrite escapeLen_cons in H. destruct (c =? BACKSLASH); [|destruct (c =? QUOTE); [destruct (d =? QUOTE)|]].
    + apply fmap_Some in H as (m & Hm & ->). apply IH in Hm; cbn in *; lia.
    + apply fmap_Some in H as (m & Hm & ->). apply IH in Hm; cbn in *; lia.
    + simplify_eq. cbn. lia.
    + apply fmap_Some in H as (m & Hm & ->). apply IH in Hm; cbn in *; lia.
Qed.
Lemma findTag_le tag s n : findTag tag s = Some n → (n ≤ length s)%nat.
Proof.
  revert n. induction s as [|c s IH]; intros n; cbn [findTag]; case_bool_decide as Ht.
  1, 3: intros [= <-]; apply (f_equal length) in Ht; rewrite length_take in Ht; lia.
  - done.
  - intros (m & Hm & ->)%fmap_Some. apply IH in Hm. cbn. lia.
Qed.

Lemma nextToken_le s k n : nextToken s = Some (k, n) → (n ≤ length s)%nat.
Proof.
  destruct s as [|c s1]; [done|]. cbn [nextToken].
  destruct (c =? SEMI); [intros [= <- <-]; cbn; lia|]. destruct (isBlank c); [intros [= <- <-]; cbn; lia|].
  destruct ((c =? DASH) && _); [intros [= <- <-]; apply (spanLen_le (λ c, negb (c =? NEWLINE)) (c :: s1))|].
  destruct ((c =? SLASH) && _).
  { intros (m & Hm & [= -> ->])%fmap_Some. pose proof (blockLen_pos _ _ _ Hm). apply blockLen_le in Hm.
    rewrite length_drop in Hm. cbn. lia. }
  destruct (c =? QUOTE); [intros (m & Hm%quotedLen_le & [= -> ->])%fmap_Some; cbn; lia|].
  destruct (c =? DQUOTE); [intros (m & Hm%quotedLen_le & [= -> ->])%fmap_Some; cbn; lia|].
  destruct (((c =? 101) || (c =? 69)) && _).
  { intros (m & Hm & [= -> ->])%fmap_Some. pose proof (escapeLen_pos _ _ Hm). apply escapeLen_le in Hm.
    rewrite length_drop in Hm. cbn. lia. }
  destruct (c =? DOLLAR).
  { destruct (dollarTag s1) as [tag|] eqn:Ht; [|intros [= <- <-]; cbn; lia].
    apply dollarTag_inv in Ht as (z & rest & -> & -> & _). intros (m & Hm & [= -> ->])%fmap_Some.
    pose proof (findTag_ge _ _ _ Hm). apply findTag_le in Hm. rewrite length_drop in Hm. cbn in *. lia. }
  destruct (isIdentStart c); [intros [= <- <-]; apply (spanLen_le isIdentCont (c :: s1))|intros [= <- <-]; cbn; lia].
Qed.

(** The text begins with a token. *)
Lemma nextToken_split s k n : nextToken s = Some (k, n) → ∃ x y, s = x ++ y ∧ n = length x ∧ (length y < length s)%nat.
Proof.
  intros H. pose proof (nextToken_le _ _ _ H). apply nextToken_pos in H.
  exists (take n s), (drop n s). rewrite take_drop, length_take, length_drop. split_and!; [done|lia..].
Qed.

Lemma nextToken_semi x y : nextToken (x ++ y) = Some (KSemi, length x) → x = [SEMI].
Proof.
  intros H. pose proof (nextToken_pos _ _ _ H) as Hp. destruct x as [|c x]; cbn in Hp; [lia|]. cbn [app nextToken] in H.
  destruct (Z.eqb_spec c SEMI) as [->|Hc]; [by destruct x; cbn in *; simplify_eq|].
  repeat case_match; simplify_option_eq; done.
Qed.

Lemma split_some_inv s cur stmts :
  split s cur = Some stmts → s ≠ [] → ∃ k x y, s = x ++ y ∧ (length y < length s)%nat ∧ nextToken (x ++ y) = Some (k, length x).
Proof.
  intros H Hs. destruct (nextToken s) as [[k n]|] eqn:Hn.
  - destruct (nextToken_split _ _ _ Hn) as (x & y & -> & -> & Hl). by exists k, x, y.
  - unfold split in H. cbn [splitFuel] in H. destruct s; [done|]. by rewrite Hn in H.
Qed.

(** A statement begun with [t] goes on with [u] up to the end of the text or to
    a semicolon, and would whatever followed the semicolon. *)
Lemma split_in_statement s t stmts :
  split s (Some t) = Some stmts →
  ∃ u rest, stmts = (t ++ u) :: rest ∧ (∀ t', split u (Some t') = Some [t' ++ u]) ∧
    (s = u ∧ rest = [] ∨
     (∃ r, s = u ++ SEMI :: r ∧ split r None = Some rest) ∧
     ∀ t' r' res, split r' None = Some res → split (u ++ SEMI :: r') (Some t') = Some ((t' ++ u) :: res)).
Proof.
  revert t. induction s as [s IH] using list_len_ind. intros t H. destruct (decide (s = [])) as [->|Hs].
  { rewrite split_nil in H. simplify_eq. exists [], []. rewrite app_nil_r. split_and!; [done| |by left].
    intros t'. by rewrite split_nil, app_nil_r. }
  destruct (split_some_inv _ _ _ H Hs) as (k & x & y & -> & Hl & Hn). rewrite (split_token _ _ _ _ Hn) in H.
  destruct (decide (k = KSemi)) as [->|Hk].
  { pose proof (nextToken_semi _ _ Hn) as ->. destruct (split y None) as [rest|] eqn:Hr; [|done]. cbn in H. simplify_eq.
    exists [], rest. rewrite app_nil_r. split_and!; [done| |right; split; [by exists y|]].
    - intros t'. by rewrite split_nil, app_nil_r.
    - intros t' r' res Hr'. cbn [app]. change (SEMI :: r') with ([SEMI] ++ r').
      rewrite (split_token KSemi) by done. rewrite Hr'. cbn. by rewrite app_nil_r. }
  assert (split y (Some (t ++ x)) = Some stmts) as Hy by by destruct k.
  destruct (IH y Hl _ Hy) as (u & rest & -> & Hu & Hend). exists (x ++ u), rest.
  assert (∀ y' t', ctx y y' → split (x ++ y') (Some t') = split y' (Some (t' ++ x))) as Hstep.
  { intros y' t' Hc. rewrite (split_token k) by (by eapply nextToken_ctx). by destruct k. }
  split_and!; [by rewrite app_assoc| |].
  - intros t'. rewrite Hstep, Hu, app_assoc; [done|].
    destruct Hend as [[-> _]|[(r & -> & _) _]]; [by left|right; by exists u, r; eauto].
  - destruct Hend as [[-> ->]|[(r & -> & Hr) Hgo]]; [by left|right]. split; [exists r; by rewrite <- app_assoc|].
    intros t' r' res Hr'. rewrite <- app_assoc, Hstep; [|right; by exists u, r; eauto].
    rewrite (Hgo _ _ _ Hr'). by rewrite app_assoc.
Qed.

(** Between statements, the text holds no more of them or comes to a first
    token. *)
Lemma split_between s stmts :
  split s None = Some stmts →
  stmts = [] ∨ ∃ x y, (length (x ++ y) ≤ length s)%nat ∧ nextToken (x ++ y) = Some (KToken, length x) ∧
    (1 ≤ length x)%nat ∧ split y (Some x) = Some stmts.
Proof.
  induction s as [s IH] using list_len_ind. intros H. destruct (decide (s = [])) as [->|Hs].
  { rewrite split_nil in H. simplify_eq. by left. }
  destruct (split_some_inv _ _ _ H Hs) as (k & x & y & -> & Hl & Hn). rewrite (split_token _ _ _ _ Hn) in H.
  destruct (decide (k = KToken)) as [->|Hk].
  { right. exists x, y. split_and!; [done..|by eapply nextToken_pos|done]. }
  assert (split y None = Some stmts) as Hy.
  { destruct k; [|done..]. by destruct (split y None). }
  destruct (IH y Hl Hy) as [?|(x' & y' & ? & ?)]; [by left|right; exists x', y'; split; [lia|done]].
Qed.

(** The statements, separated by semicolons. *)
Fixpoint joinStatements (stmts : list bytes) : bytes :=
  match stmts with
  | [] => []
  | [t] => t
  | t :: rest => t ++ SEMI :: joinStatements rest
  end.

(** Joined again, the statements of a batch are a batch of the same statements,
    and each on its own is one. *)
Lemma split_joined s stmts :
  split s None = Some stmts →
  split (joinStatements stmts) None = Some stmts ∧ Forall (λ t, t ≠ [] ∧ split t None = Some [t]) stmts.
Proof.
  revert stmts. induction s as [s IH] using list_len_ind. intros stmts H.
  destruct (split_between _ _ H) as [->|(x & y & Hl & Hn & Hp & Hy)]; [done|].
  destruct (split_in_statement _ _ _ Hy) as (u & rest & -> & Hu & Hend).
  assert (∀ y', ctx y y' → split (x ++ y') None = split y' (Some x)) as Hstep.
  { intros y' Hc. by rewrite (split_token KToken) by (by eapply nextToken_ctx). }
  assert (ctx y u) as Hc.
  { destruct Hend as [[-> _]|[(r & -> & _) _]]; [by left|right; by exists u, r; eauto]. }
  assert (x ++ u ≠ [] ∧ split (x ++ u) None = Some [x ++ u]) as Hone.
  { split; [by destruct x; cbn in *; [lia|]|]. by rewrite Hstep, Hu. }
  destruct Hend as [[-> ->]|[(r & -> & Hr) Hgo]]; [split; [apply Hone|by constructor]|].
  destruct (IH r) with rest as [Hj Hall]; [rewrite !length_app in Hl; cbn in Hl; lia|done|].
  split; [|by constructor]. destruct rest as [|t rest]; [apply Hone|].
  cbn [joinStatements]. rewrite <- app_assoc, Hstep; [by apply Hgo|right; exists u, r; eauto].
Qed.

(** ** The lexical grammar *)

(** What a text is made of, independently of how it is read: strings and quoted
    identifiers by their values, escape strings by their pieces, dollar-quoted
    bodies with their tags, words, other bytes, and what counts as blank. *)
Inductive escape := EByte (c : Z) | EQuote | EBack (c : Z).
Inductive lexeme :=
| LString (v : bytes) | LIdent (v : bytes) | LEscape (e : Z) (ps : list escape) | LDollar (tag body : bytes)
| LWord (w : bytes) | LParam (digits : bytes) | LByte (c : Z)
| LBlank (c : Z) | LLine (text : bytes) | LBlock (text : bytes).

Definition doubled (q : Z) (v : bytes) : bytes := v ≫= λ c, if c =? q then [q; q] else [c].
Definition escapedText (ps : list escape) : bytes :=
  ps ≫= λ p, match p with EByte c => [c] | EQuote => [QUOTE; QUOTE] | EBack c => [BACKSLASH; c] end.
Definition delimiter (tag : bytes) : bytes := DOLLAR :: tag ++ [DOLLAR].
Definition render (l : lexeme) : bytes :=
  match l with
  | LString v => QUOTE :: doubled QUOTE v ++ [QUOTE]
  | LIdent v => DQUOTE :: doubled DQUOTE v ++ [DQUOTE]
  | LEscape e ps => e :: QUOTE :: escapedText ps ++ [QUOTE]
  | LDollar tag body => delimiter tag ++ body ++ delimiter tag
  | LWord w => w
  | LParam digits => DOLLAR :: digits
  | LByte c | LBlank c => [c]
  | LLine text => DASH :: DASH :: text
  | LBlock text => SLASH :: STAR :: text ++ [STAR; SLASH]
  end.
Definition blank (l : lexeme) : bool := match l with LBlank _ | LLine _ | LBlock _ => true | _ => false end.

(** The inside of a block comment: comments in it nest, and no delimiter comes
    about where two bytes meet. *)
Inductive inner : bytes → Prop :=
| inner_nil : inner []
| inner_byte c s : inner s → (c = SLASH → head (s ++ [STAR]) ≠ Some STAR) → (c = STAR → head s ≠ Some SLASH) → inner (c :: s)
| inner_nest t s : inner t → inner s → inner (SLASH :: STAR :: t ++ STAR :: SLASH :: s).

Definition lexeme_ok (l : lexeme) : Prop :=
  match l with
  | LString _ | LIdent _ => True
  | LEscape e ps => (e = 101 ∨ e = 69) ∧ Forall (λ p, ∀ c, p = EByte c → c ≠ QUOTE ∧ c ≠ BACKSLASH) ps
  | LDollar tag body =>
      isTag (tag ++ [DOLLAR]) ∧ ∀ p q, body ++ delimiter tag = p ++ delimiter tag ++ q → q = []
  | LWord w => ∃ c w', w = c :: w' ∧ isIdentStart c = true ∧ forallb isIdentCont w' = true
  | LParam digits => digits ≠ [] ∧ forallb isDigit digits = true
  | LByte c => c ∉ [SEMI; QUOTE; DQUOTE; DOLLAR] ∧ isBlank c = false ∧ isIdentStart c = false
  | LBlank c => isBlank c = true
  | LLine text => NEWLINE ∉ text
  | LBlock text => inner text
  end.
(** Bytes that cannot follow: with them another lexeme would be meant. *)
Definition clash (l : lexeme) (next : option Z) : Prop :=
  match l with
  | LString _ | LEscape _ _ => next = Some QUOTE
  | LIdent _ => next = Some DQUOTE
  | LWord w => (∃ c, next = Some c ∧ isIdentCont c = true) ∨ (w = [101] ∨ w = [69]) ∧ next = Some QUOTE
  | LByte c => c = DASH ∧ next = Some DASH ∨ c = SLASH ∧ next = Some STAR
  | LLine _ => ∃ c, next = Some c ∧ c ≠ NEWLINE
  | _ => False
  end.

(** A batch: lexemes and the semicolons that end statements. *)
Inductive item := Lex (l : lexeme) | Semi.
Definition batch_text (b : list item) : bytes := b ≫= λ i, match i with Lex l => render l | Semi => [SEMI] end.
Fixpoint batch_ok (b : list item) : Prop :=
  match b with
  | [] => True
  | Semi :: b => batch_ok b
  | Lex l :: b => lexeme_ok l ∧ ¬ clash l (head (batch_text b)) ∧ batch_ok b
  end.
(** Its statements: what stands between the semicolons, from the first lexeme
    that is not blank on, where there is one. *)
Fixpoint groups (b : list item) : list (list lexeme) :=
  match b with
  | [] => [[]]
  | Semi :: b => [] :: groups b
  | Lex l :: b => match groups b with g :: gs => (l :: g) :: gs | [] => [[l]] end
  end.
Fixpoint dropBlank (g : list lexeme) : list lexeme :=
  match g with l :: g' => if blank l then dropBlank g' else g | [] => [] end.
Definition statementOf (g : list lexeme) : option bytes :=
  match dropBlank g with [] => None | g => Some (g ≫= render) end.
Definition statements (b : list item) : list bytes := omap statementOf (groups b).

(** ** Each lexeme is read as it stands *)

Lemma quotedLen_doubled q v y : head y ≠ Some q → quotedLen q (doubled q v ++ q :: y) = Some (S (length (doubled q v))).
Proof.
  intros Hy. induction v as [|c v IH].
  - cbn. rewrite Z.eqb_refl. destruct y as [|d y]; [done|]. rewrite (proj2 (Z.eqb_neq d q)); [done|]. intros ->. by destruct Hy.
  - unfold doubled. cbn [mbind list_bind]. fold (doubled q v). rewrite <- app_assoc. destruct (Z.eqb_spec c q) as [->|Hc]; cbn [app].
    + rewrite quotedLen_cons, Z.eqb_refl, IH. cbn. f_equal. lia.
    + assert (∃ d z, doubled q v ++ q :: y = d :: z) as (d & z & E) by (destruct (doubled q v); cbn; eauto).
      rewrite E, quotedLen_cons, (proj2 (Z.eqb_neq c q)), <- E, IH by done. done.
Qed.
Lemma escapeLen_escaped ps y :
  Forall (λ p, ∀ c, p = EByte c → c ≠ QUOTE ∧ c ≠ BACKSLASH) ps → head y ≠ Some QUOTE →
  escapeLen (escapedText ps ++ QUOTE :: y) = Some (S (length (escapedText ps))).
Proof.
  intros Hps Hy. induction Hps as [|p ps Hp _ IH].
  - cbn. destruct y as [|d y]; [done|]. rewrite (proj2 (Z.eqb_neq d QUOTE)); [done|]. intros ->. by destruct Hy.
  - unfold escapedText. cbn [mbind list_bind]. fold (escapedText ps). rewrite <- app_assoc.
    assert (∃ d z, escapedText ps ++ QUOTE :: y = d :: z) as (d & z & E) by (destruct (escapedText ps); cbn; eauto).
    destruct p as [c| |c]; cbn [app].
    + destruct (Hp c eq_refl). rewrite E, escapeLen_cons, (proj2 (Z.eqb_neq c BACKSLASH)), (proj2 (Z.eqb_neq c QUOTE)), <- E, IH by done. done.
    + rewrite escapeLen_cons. cbn [Z.eqb]. change (QUOTE =? BACKSLASH) with false. change (QUOTE =? QUOTE) with true. cbv iota. rewrite IH. cbn. f_equal. lia.
    + rewrite escapeLen_cons, Z.eqb_refl, IH. cbn. f_equal. lia.
Qed.
Lemma findTag_body D body y :
  D ≠ [] → (∀ p q, body ++ D = p ++ D ++ q → q = []) → findTag D (body ++ D ++ y) = Some (length body + length D)%nat.
Proof.
  intros HD. induction body as [|c body IH]; intros Hf.
  - cbn [app]. destruct D as [|d D]; [done|]. cbn [findTag app]. change (d :: D ++ y) with ((d :: D) ++ y).
    rewrite take_app_length, bool_decide_eq_true_2 by done. done.
  - cbn [app findTag]. rewrite bool_decide_eq_false_2.
    + rewrite IH; [done|]. intros p q E. apply (Hf (c :: p) q). cbn. by rewrite E.
    + intros E. assert (∃ z, c :: body ++ D = D ++ z ∧ z ≠ []) as (z & Ez & Hz); [|by apply Hz, (Hf [] z)].
      assert (take (length D) (c :: body ++ D) = D) as E'.
      { transitivity (take (length D) ((c :: body ++ D) ++ y)); [by rewrite take_app_le by (cbn; rewrite length_app; lia)|].
        cbn [app]. by rewrite <- app_assoc. }
      exists (drop (length D) (c :: body ++ D)). split.
      * rewrite <- E' at 2. by rewrite take_drop.
      * intros Hd%(f_equal length). rewrite length_drop in Hd. cbn in Hd. rewrite length_app in Hd. lia.
Qed.
Lemma inner_len t : inner t → ∀ d y, head y = Some STAR → blockLen (S d) (t ++ y) = (λ n, (length t + n)%nat) <$> blockLen (S d) y.
Proof.
  induction 1 as [|c s _ IH Hs1 Hs2|t s _ IHt _ IHs]; intros d y Hy.
  - cbn. by destruct (blockLen (S d) y).
  - assert (∃ e z, s ++ y = e :: z ∧ (s = [] → e = STAR) ∧ (s ≠ [] → head s = Some e)) as (e & z & E & He1 & He2).
    { destruct s as [|e s]; [|by exists e, (s ++ y)]. destruct y as [|e y]; [done|]. exists e, y. cbn in Hy. by simplify_eq. }
    cbn [app]. rewrite E, blockLen_cons, <- E, IH by done.
    assert ((c =? SLASH) && (e =? STAR) = false) as ->.
    { apply andb_false_iff. destruct (Z.eqb_spec c SLASH) as [->|]; [right|by left]. apply Z.eqb_neq. intros ->. apply Hs1; [done|].
      destruct s as [|x s]; [done|]. specialize (He2 ltac:(done)). cbn in *. done. }
    assert ((c =? STAR) && (e =? SLASH) = false) as ->.
    { apply andb_false_iff. destruct (Z.eqb_spec c STAR) as [->|]; [right|by left]. apply Z.eqb_neq. intros ->.
      destruct s as [|x s]; [by specialize (He1 eq_refl)|]. apply Hs2; [done|]. by apply He2. }
    by destruct (blockLen (S d) y).
  - cbn [app]. rewrite <- app_assoc, blockLen_cons. cbn [andb]. change (SLASH =? SLASH) with true. change (STAR =? STAR) with true. cbv iota.
    rewrite (IHt (S d)) by done. cbn [app]. rewrite blockLen_cons. change ((STAR =? SLASH) && (SLASH =? STAR)) with false.
    change ((STAR =? STAR) && (SLASH =? SLASH)) with true. cbv iota. rewrite IHs by done.
    destruct (blockLen (S d) y) as [n|]; [|done]. cbn. f_equal. rewrite length_app. cbn. lia.
Qed.

(** What the statement begun has after a lexeme. *)
Definition after (l : lexeme) (cur : option bytes) : option bytes :=
  if blank l then (λ t, t ++ render l) <$> cur else Some (default [] cur ++ render l).

Lemma nextToken_byte c y :
  c ∉ [SEMI; QUOTE; DQUOTE; DOLLAR] → isBlank c = false → isIdentStart c = false →
  ¬ (c = DASH ∧ head y = Some DASH ∨ c = SLASH ∧ head y = Some STAR) → nextToken (c :: y) = Some (KToken, 1%nat).
Proof.
  intros Hc Hb Hi Hcl. rewrite !not_elem_of_cons in Hc. destruct Hc as (H1 & H2 & H3 & H4 & _). cbn [nextToken].
  rewrite (proj2 (Z.eqb_neq c SEMI)), Hb, (proj2 (Z.eqb_neq c QUOTE)), (proj2 (Z.eqb_neq c DQUOTE)), (proj2 (Z.eqb_neq c DOLLAR)), Hi by done.
  assert ((c =? DASH) && bool_decide (head y = Some DASH) = false) as ->.
  { apply andb_false_iff. destruct (Z.eqb_spec c DASH); [right|by left]. apply bool_decide_eq_false_2. intros ?. apply Hcl. by left. }
  assert ((c =? SLASH) && bool_decide (head y = Some STAR) = false) as ->.
  { apply andb_false_iff. destruct (Z.eqb_spec c SLASH); [right|by left]. apply bool_decide_eq_false_2. intros ?. apply Hcl. by right. }
  assert ((c =? 101) || (c =? 69) = false) as ->; [|done].
  apply orb_false_iff. split; apply Z.eqb_neq; intros ->; done.
Qed.
Lemma isDigit_plain c : isDigit c = true → c ∉ [SEMI; QUOTE; DQUOTE; DOLLAR] ∧ isBlank c = false ∧ isIdentStart c = false ∧ c ≠ DASH ∧ c ≠ SLASH.
Proof.
  unfold isDigit. intros [H1%Z.leb_le H2%Z.leb_le]%andb_true_iff. split_and!.
  - rewrite !elem_of_cons, elem_of_nil. unfold SEMI, QUOTE, DQUOTE, DOLLAR. lia.
  - apply not_true_is_false. unfold isBlank. rewrite !orb_true_iff, !Z.eqb_eq. lia.
  - apply not_true_is_false. unfold isIdentStart. rewrite !orb_true_iff, !andb_true_iff, !Z.eqb_eq, !Z.leb_le. lia.
  - unfold DASH. lia.
  - unfold SLASH. lia.
Qed.
Lemma split_digits ds y t : forallb isDigit ds = true → split (ds ++ y) (Some t) = split y (Some (t ++ ds)).
Proof.
  revert t. induction ds as [|c ds IH]; intros t; cbn [forallb]; [by rewrite app_nil_r|]. intros [Hc Hds]%andb_true_iff.
  destruct (isDigit_plain c Hc) as (H1 & H2 & H3 & H4 & H5).
  change ((c :: ds) ++ y) with ([c] ++ (ds ++ y)). rewrite (split_token KToken) by (apply nextToken_byte; naive_solver).
  rewrite IH by done. cbn. by rewrite <- app_assoc.
Qed.

(** The loop reads a lexeme that stands where it may. *)
Lemma split_lexeme l y cur : lexeme_ok l → ¬ clash l (head y) → split (render l ++ y) cur = split y (after l cur).
Proof.
  intros Hok Hcl. unfold after. destruct l as [v|v|e ps|tag body|w|ds|c|c|text|text]; cbn [blank render lexeme_ok clash] in *.
  - rewrite (split_token KToken); [done|]. cbn [app nextToken]. rewrite <- app_assoc. change (QUOTE =? SEMI) with false. change (isBlank QUOTE) with false.
    change (QUOTE =? DASH) with false. change (QUOTE =? SLASH) with false. change (QUOTE =? QUOTE) with true. cbn [andb app].
    rewrite quotedLen_doubled by done. cbn. do 3 f_equal. rewrite length_app. cbn. lia.
  - rewrite (split_token KToken); [done|]. cbn [app nextToken]. rewrite <- app_assoc. change (DQUOTE =? SEMI) with false. change (isBlank DQUOTE) with false.
    change (DQUOTE =? DASH) with false. change (DQUOTE =? SLASH) with false. change (DQUOTE =? QUOTE) with false. change (DQUOTE =? DQUOTE) with true. cbn [andb app].
    rewrite quotedLen_doubled by done. cbn. do 3 f_equal. rewrite length_app. cbn. lia.
  - destruct Hok as [He Hps]. rewrite (split_token KToken); [done|]. cbn [app]. rewrite <- app_assoc. cbn [app].
    assert (nextToken (e :: QUOTE :: escapedText ps ++ QUOTE :: y) = (λ n, (KToken, (n + 2)%nat)) <$> escapeLen (escapedText ps ++ QUOTE :: y)) as ->
      by (by destruct He as [-> | ->]).
    rewrite escapeLen_escaped by done. cbn. do 2 f_equal. rewrite length_app. cbn. lia.
  - destruct Hok as [Ht Hf]. rewrite (split_token KToken); [done|]. unfold delimiter at 1. cbn [app nextToken]. rewrite <- !app_assoc.
    change (DOLLAR =? SEMI) with false. change (isBlank DOLLAR) with false. change (DOLLAR =? DASH) with false. change (DOLLAR =? SLASH) with false.
    change (DOLLAR =? QUOTE) with false. change (DOLLAR =? DQUOTE) with false. change ((DOLLAR =? 101) || (DOLLAR =? 69)) with false. change (DOLLAR =? DOLLAR) with true.
    cbn [andb]. rewrite (app_assoc tag), dollarTag_of_tag by done. fold (delimiter tag).
    change (DOLLAR :: (tag ++ [DOLLAR]) ++ body ++ delimiter tag ++ y) with (delimiter tag ++ body ++ delimiter tag ++ y).
    rewrite drop_app_length, findTag_body by done. cbn [fmap option_fmap option_map]. do 2 f_equal. rewrite !length_app. lia.
  - destruct Hok as (c & w' & -> & Hc & Hw). rewrite (split_token KToken); [done|].
    assert (c ≠ SEMI ∧ isBlank c = false ∧ c ≠ DASH ∧ c ≠ SLASH ∧ c ≠ QUOTE ∧ c ≠ DQUOTE ∧ c ≠ DOLLAR) as (H1 & H2 & H3 & H4 & H5 & H6 & H7).
    { split_and!; try (by intros ->). destruct (isBlank c) eqn:Hb; [|done]. unfold isBlank in Hb. rewrite !orb_true_iff, !Z.eqb_eq in Hb.
      destruct Hb as [[[[[->| ->]| ->]| ->]| ->]| ->]; done. }
    cbn [app nextToken]. rewrite (proj2 (Z.eqb_neq c SEMI)), H2, (proj2 (Z.eqb_neq c DASH)), (proj2 (Z.eqb_neq c SLASH)), (proj2 (Z.eqb_neq c QUOTE)),
      (proj2 (Z.eqb_neq c DQUOTE)), (proj2 (Z.eqb_neq c DOLLAR)), Hc by done. cbn [andb].
    assert (((c =? 101) || (c =? 69)) && bool_decide (head (w' ++ y) = Some QUOTE) = false) as ->.
    { apply andb_false_iff. destruct ((c =? 101) || (c =? 69)) eqn:He; [right|by left]. apply bool_decide_eq_false_2. intros Hh.
      destruct w' as [|d w']; cbn in Hh; [|simplify_eq; done]. apply Hcl. right. split; [|done].
      apply orb_true_iff in He as [->%Z.eqb_eq| ->%Z.eqb_eq]; auto. }
    do 2 f_equal. change (c :: w' ++ y) with ((c :: w') ++ y). apply (spanLen_app isIdentCont (c :: w') y).
    + cbn. unfold isIdentCont at 1. by rewrite Hc, Hw.
    + intros d Hd. destruct (isIdentCont d) eqn:E; [|done]. destruct Hcl. left. eauto.
  - destruct Hok as [Hne Hds]. change (split ([DOLLAR] ++ (ds ++ y)) cur = split y (Some (default [] cur ++ [DOLLAR] ++ ds))).
    rewrite (split_token KToken).
    + rewrite split_digits by done. by rewrite <- app_assoc.
    + destruct ds as [|c ds]; [done|]. cbn [forallb] in Hds. apply andb_true_iff in Hds as [Hc _]. destruct (isDigit_plain c Hc) as (H1 & _ & H3 & _).
      cbn [app nextToken dollarTag]. rewrite H3. rewrite (proj2 (Z.eqb_neq c DOLLAR)) by set_solver. done.
  - destruct Hok as (H1 & H2 & H3). by rewrite (split_token KToken) by (by apply nextToken_byte).
  - rewrite (split_token KBlank); [done|]. cbn [app nextToken]. assert (c =? SEMI = false) as -> by (apply Z.eqb_neq; intros ->; done). by rewrite Hok.
  - rewrite (split_token KBlank); [done|]. cbn [app nextToken]. change (DASH =? SEMI) with false. change (isBlank DASH) with false.
    change (DASH =? DASH) with true. cbn [andb head]. rewrite bool_decide_eq_true_2 by done. do 2 f_equal.
    apply (spanLen_app (λ c, negb (c =? NEWLINE)) (DASH :: DASH :: text) y).
    + cbn. apply forallb_forall. intros c Hc%list_elem_of_In. apply negb_true_iff, Z.eqb_neq. intros ->. done.
    + intros d Hd. apply negb_false_iff, Z.eqb_eq. apply dec_stable. intros Hn. apply Hcl. eauto.
  - rewrite (split_token KBlank); [done|]. cbn [app nextToken]. change (SLASH =? SEMI) with false. change (isBlank SLASH) with false.
    change (SLASH =? DASH) with false. change (SLASH =? SLASH) with true. cbn [andb head]. rewrite bool_decide_eq_true_2 by done. cbn [drop]. rewrite <- app_assoc.
    rewrite drop_0, (inner_len text Hok 0) by done. cbn. do 2 f_equal. rewrite length_app. cbn. lia.
Qed.

(** A statement begun ends with its group. *)
Lemma split_batch b cur : batch_ok b →
  split (batch_text b) cur =
  Some (match groups b with
        | [] => []
        | g :: gs => match cur with
                     | Some t => (t ++ (g ≫= render)) :: omap statementOf gs
                     | None => omap statementOf (g :: gs)
                     end
        end).
Proof.
  revert cur. induction b as [|[l|] b IH]; intros cur; cbn [batch_ok].
  - intros _. rewrite split_nil. destruct cur as [t|]; [|done]. cbn. by rewrite app_nil_r.
  - intros (Hl & Hcl & Hb). change (batch_text (Lex l :: b)) with (render l ++ batch_text b). rewrite split_lexeme, IH by done. cbn [groups].
    assert (∃ g gs, groups b = g :: gs) as (g & gs & ->) by (destruct b as [|[] b]; cbn; [eauto| |eauto]; destruct (groups b); eauto).
    unfold after. f_equal. destruct cur as [t|]; [destruct (blank l); cbn; by rewrite <- app_assoc|].
    cbn [omap list_omap]. unfold statementOf. cbn [dropBlank]. destruct (blank l); [done|]. cbn. done.
  - intros Hb. change (batch_text (Semi :: b)) with ([SEMI] ++ batch_text b). rewrite (split_token KSemi) by done. rewrite IH by done. cbn [groups].
    assert (∃ g gs, groups b = g :: gs) as (g & gs & ->) by (destruct b as [|[] b]; cbn; [eauto| |eauto]; destruct (groups b); eauto).
    cbn. destruct cur as [t|]; [by rewrite app_nil_r|done].
Qed.

(** C27. Splitting recovers the statements of a batch: of a text written from
    strings, quoted identifiers, escape strings, dollar-quoted bodies, words,
    parameters, other bytes, white space, line comments and nested block comments,
    separated by semicolons, and in which no two of them run together, exactly
    the texts between the semicolons are returned, each from its first lexeme
    that is not blank on and without those that have none; whatever semicolons,
    quotes and comment marks are inside the strings, identifiers, bodies and
    comments. *)
Theorem splitStatements_recovers b : batch_ok b → splitStatements (batch_text b) = Some (statements b).
Proof. intros Hb. change (splitStatements (batch_text b)) with (split (batch_text b) None). rewrite split_batch by done. unfold statements. by destruct (groups b). Qed.

(** A comment, a string with a semicolon and a quote in it, a body with both, an
    escape string, a nested comment. *)
Definition tricky : list item :=
  [Lex (LBlock (bytes_of " lead; ")); Lex (LWord (bytes_of "select")); Lex (LBlank 32); Lex (LString (bytes_of "it's;"));
   Semi; Semi; Lex (LBlank 32); Lex (LWord (bytes_of "do")); Lex (LBlank 32); Lex (LDollar (bytes_of "b") (bytes_of " begin '; end "));
   Semi; Lex (LWord (bytes_of "select")); Lex (LBlank 32); Lex (LEscape 69 [EBack QUOTE; EByte SEMI]);
   Lex (LBlock (bytes_of " a /* ; */ ")); Lex (LLine (bytes_of " done;"))].
Lemma findTag_first D s n p q : findTag D s = Some n → s = p ++ D ++ q → (n ≤ length p + length D)%nat.
Proof.
  revert s n. induction p as [|c p IH]; intros s n H ->; cbn [app length].
  - destruct (D ++ q) as [|x z] eqn:E; cbn [findTag app] in H; rewrite <- ?E, ?take_app_length, ?bool_decide_eq_true_2 in H by done.
    + destruct D; [|done]. cbn in H. by simplify_eq.
    + by simplify_eq.
  - cbn [app findTag] in H. case_bool_decide; [simplify_eq; lia|]. apply fmap_Some in H as (m & Hm & ->). apply IH in Hm; [lia|done].
Qed.
Lemma inner_plain s t : forallb (λ c, negb (c =? SLASH) && negb (c =? STAR)) s = true → inner t → inner (s ++ t).
Proof.
  intros Hs Ht. induction s as [|c s IH]; [done|]. cbn in Hs. apply andb_true_iff in Hs as [[H1 H2]%andb_true_iff Hs].
  apply inner_byte; [by apply IH|intros ->; done|intros ->; done].
Qed.
Lemma word_ok w : match w with c :: w' => isIdentStart c && forallb isIdentCont w' | [] => false end = true → lexeme_ok (LWord w).
Proof. destruct w as [|c w]; [done|]. intros [? ?]%andb_true_iff. by exists c, w. Qed.
Lemma word_before_space w : w ∉ [[101]; [69]] → ¬ clash (LWord w) (Some 32).
Proof. intros Hw [(c & [= <-] & H)|[H _]]; [done|]. set_solver. Qed.
Lemma tricky_ok : batch_ok tricky.
Proof.
  unfold tricky. repeat lazymatch goal with
  | |- lexeme_ok (LWord _) => apply word_ok; vm_compute; reflexivity
  | |- ¬ clash (LWord _) _ => apply word_before_space; vm_compute; set_solver
  | |- ¬ clash (LBlank _) _ => intros []
  | |- ¬ clash (LBlock _) _ => intros []
  | |- ¬ clash (LDollar _ _) _ => intros []
  | |- ¬ clash (LLine _) _ => intros (c & Hc & _); discriminate Hc
  | |- ¬ clash _ _ => vm_compute; intros Hx; discriminate Hx
  | |- lexeme_ok (LBlank _) => reflexivity
  | |- lexeme_ok (LString _) => exact I
  | |- lexeme_ok _ => idtac
  | |- batch_ok [] => exact I
  | |- batch_ok _ => cbn [batch_ok]
  | |- _ ∧ _ => split
  | |- True => exact I
  end.
  - exact (inner_plain (bytes_of " lead; ") [] eq_refl inner_nil).
  - split.
    + exists (bytes_of "b"). split; [reflexivity|]. split; [reflexivity|]. right. by exists 98, [].
    + intros p q E. pose proof (findTag_first (delimiter (bytes_of "b")) (bytes_of " begin '; end " ++ delimiter (bytes_of "b")) 17 p q eq_refl E) as H. apply (f_equal length) in E.
      rewrite !length_app in E. cbn in E, H. destruct q; [done|cbn in E; lia].
  - split; [by right|]. apply Forall_cons_2; [|apply Forall_cons_2; [|apply Forall_nil_2]]; intros c Hc; by simplify_eq.
  - exact (inner_plain (bytes_of " a ") (bytes_of "/* ; */ ") eq_refl
      (inner_nest (bytes_of " ; ") [32] (inner_plain (bytes_of " ; ") [] eq_refl inner_nil) (inner_plain [32] [] eq_refl inner_nil))).
  - apply (bool_decide_unpack _). vm_compute. exact I.
Qed.
Lemma splitStatements_recovers_witness :
  splitStatements (batch_text tricky) =
    Some [bytes_of "select 'it''s;'"; bytes_of "do $b$ begin '; end $b$"; bytes_of "select E'\';'/* a /* ; */ */-- done;"].
Proof. rewrite (splitStatements_recovers tricky tricky_ok). vm_compute. reflexivity. Defined.

(** ** Quoting against splitting *)

Lemma quotedLen_double_quotes s :
  quotedLen QUOTE (bytes_of (double_quotes s) ++ [QUOTE]) = Some (S (length (bytes_of (double_quotes s)))).
Proof.
  induction s as [|c s IH]; [done|]. cbn [double_quotes]. destruct (Ascii.eqb_spec c "'"%char) as [->|Hc].
  - cbn [bytes_of app]. rewrite quotedLen_cons. cbn [Z.eqb]. change (Z.of_N (Ascii.N_of_ascii "'"%char) =? QUOTE) with true.
    cbv iota. rewrite IH. cbn. f_equal. lia.
  - cbn [bytes_of app length]. cbn [quotedLen].
    assert (Z.of_N (Ascii.N_of_ascii c) =? QUOTE = false) as ->; [|by rewrite IH].
    apply Z.eqb_neq. intros E. apply Hc. rewrite <- (Ascii.ascii_N_embedding c).
    replace (Ascii.N_of_ascii c) with 39%N by (unfold QUOTE in E; lia). done.
Qed.

Lemma nextToken_quoteLiteral s : nextToken (bytes_of (quoteLiteral s)) = Some (KToken, length (bytes_of (quoteLiteral s))).
Proof.
  unfold quoteLiteral. rewrite !bytes_of_app. change (bytes_of "'") with [QUOTE].
  change ([QUOTE] ++ bytes_of (double_quotes s) ++ [QUOTE]) with (QUOTE :: (bytes_of (double_quotes s) ++ [QUOTE])).
  cbn [nextToken]. change (QUOTE =? SEMI) with false. change (isBlank QUOTE) with false.
  change (QUOTE =? DASH) with false. change (QUOTE =? SLASH) with false. change (QUOTE =? QUOTE) with true. cbv iota.
  cbn [andb]. rewrite quotedLen_double_quotes. cbn. do 3 f_equal. rewrite length_app. cbn. lia.
Qed.

(** Whatever bytes a transaction's identifier holds (quotes, semicolons,
    comment marks), the COMMIT PREPARED or ROLLBACK PREPARED built with it is
    one statement, the whole text: the identifier cannot end its literal and
    inject a second one. *)
Theorem finish_sql_one_statement gid commit :
  splitStatements (bytes_of (finish_sql gid commit)) = Some [bytes_of (finish_sql gid commit)].
Proof.
  unfold finish_sql. rewrite !bytes_of_app. change splitStatements with (λ s, split s None). cbv beta.
  set (q := bytes_of (quoteLiteral gid)).
  assert (∀ t, split q (Some t) = Some [t ++ q]) as Hq.
  { intros t. rewrite <- (app_nil_r q) at 1.
    rewrite (split_token KToken) by (rewrite app_nil_r; apply nextToken_quoteLiteral). done. }
  assert (∀ verb, verb = "COMMIT" ∨ verb = "ROLLBACK" →
    split (bytes_of verb ++ [32] ++ bytes_of "PREPARED" ++ [32] ++ q) None =
    Some [bytes_of verb ++ [32] ++ bytes_of "PREPARED" ++ [32] ++ q]) as Hv.
  { intros verb Hv. rewrite (split_token KToken) by (destruct Hv as [->| ->]; reflexivity).
    rewrite (split_token KBlank), (split_token KToken), (split_token KBlank) by reflexivity. cbn [fmap option_fmap option_map].
    rewrite Hq. f_equal. f_equal. cbn [from_option]. unfold id. rewrite <- !app_assoc. reflexivity. }
  destruct commit; [apply (Hv "COMMIT")|apply (Hv "ROLLBACK")]; auto.
Qed.
