(* ===== verification/PgOutput.v ===== *)
(** * The pgoutput decoder ([src/internal/pgoutput/pgoutput.go])

    Decoding of PostgreSQL's logical replication messages.  The reader keeps
    the first error and returns zero values after it, so it is a state monad
    whose state is the bytes left and the error. *)

From S2P Require Import Prelude.

Local Open Scope Z_scope.

(** ** Messages *)

Definition ColumnNull : Z := 110.
Definition ColumnUnchanged : Z := 117.
Definition ColumnText : Z := 116.
Definition ColumnBinary : Z := 98.

(** A time is its nanoseconds since the PostgreSQL epoch; [zeroTime] is
    [time.Time{}], the first of January of year 1. *)
Definition time := Z.
Definition zeroTime : time := -63082281600000000000.

Record TupleColumn := mkTupleColumn { Kind : Z; Data : bytes }.
Record Tuple := mkTuple { TColumns : list TupleColumn }.
Record Column := mkColumn { Key : bool; CName : bytes; TypeOID : Z; TypeMod : Z }.
Record Relation := mkRelation {
  RXid : Z; ID : Z; Namespace : bytes; Name : bytes; ReplicaIdentity : Z; Columns : list Column }.

Inductive Message :=
| MRelation (rel : Relation)
| MType (Xid ID : Z) (Namespace Name : bytes)
| MBegin (FinalLSN : Z) (CommitTime : time) (Xid : Z)
| MCommit (Flags CommitLSN EndLSN : Z) (CommitTime : time)
| MOrigin (CommitLSN : Z) (Name : bytes)
| MInsert (Xid RelationID : Z) (New : Tuple)
| MUpdate (Xid RelationID : Z) (Key Old : option Tuple) (New : Tuple)
| MDelete (Xid RelationID : Z) (Key Old : option Tuple)
| MTruncate (Xid : Z) (Cascade RestartIdentity : bool) (RelationIDs : list Z)
| MLogical (Xid : Z) (Transactional : bool) (LSN : Z) (Prefix Content : bytes)
| MStreamStart (Xid : Z) (FirstSegment : bool)
| MStreamStop
| MStreamCommit (Xid Flags CommitLSN EndLSN : Z) (CommitTime : time)
| MStreamAbort (Xid SubXid AbortLSN : Z) (AbortTime : time)
| MBeginPrepare (PrepareLSN EndLSN : Z) (PrepareTime : time) (Xid : Z) (Gid : bytes)
| MPrepare (Flags PrepareLSN EndLSN : Z) (PrepareTime : time) (Xid : Z) (Gid : bytes)
| MCommitPrepared (Flags CommitLSN EndLSN : Z) (CommitTime : time) (Xid : Z) (Gid : bytes)
| MRollbackPrepared (Flags PrepareEndLSN RollbackEndLSN : Z) (PrepareTime RollbackTime : time) (Xid : Z) (Gid : bytes)
| MStreamPrepare (Flags PrepareLSN EndLSN : Z) (PrepareTime : time) (Xid : Z) (Gid : bytes).

Inductive dec_err :=
| ErrShort | ErrColumnKind (k : Z) | ErrInsertKind (k : Z) | ErrUpdateKind (k : Z) | ErrDeleteKind (k : Z)
| ErrUnknownType (b : Z).

Record Decoder := mkDecoder { relations : gmap Z Relation; streamXid : Z; inStream : bool }.
Definition NewDecoder : Decoder := mkDecoder ∅ 0 false.

(** ** Times *)

(** [time.Duration(micros) * time.Microsecond] wraps; [Time.Sub] saturates. *)
Definition PGTime (micros : Z) : time := i64 (micros * 1000).
Definition PGMicros (t : time) : Z := Z.quot (Z.max MinInt64 (Z.min t MaxInt64)) 1000.

(** ** The reader *)

Record reader := mkReader { rbuf : bytes; rerr : option dec_err }.

Definition M (A : Type) : Type := reader → A * reader.
#[export] Instance M_ret : MRet M := λ A a r, (a, r).
#[export] Instance M_bind : MBind M := λ A B k p r, let '(a, r) := p r in k a r.

Definition remaining : M Z := λ r, (Z.of_nat (length (rbuf r)), r).
(** [r.err == nil]; and [r.err = e] if it is. *)
Definition okay : M bool := λ r, (match rerr r with None => true | Some _ => false end, r).
Definition fail (e : dec_err) : M () := λ r,
  match rerr r with None => ((), mkReader (rbuf r) (Some e)) | Some _ => ((), r) end.

Definition take_ (n : Z) : M (option bytes) := λ r,
  match rerr r with
  | Some _ => (None, r)
  | None =>
      if (n <? 0) || (Z.of_nat (length (rbuf r)) <? n) then (None, mkReader (rbuf r) (Some ErrShort))
      else (Some (take (Z.to_nat n) (rbuf r)), mkReader (drop (Z.to_nat n) (rbuf r)) None)
  end.

Definition uint (w : Z) : M Z := b ← take_ w; mret (match b with None => 0 | Some b => BigEndian b end).
Definition uint8 : M Z := uint 1.
Definition uint16 : M Z := uint 2.
Definition uint32 : M Z := uint 4.
Definition uint64 : M Z := uint 8.

Definition rtime : M time :=
  v ← uint64; ok ← okay; mret (if (ok : bool) then PGTime (i64 v) else zeroTime).

(** The bytes before the first zero byte, and those after it. *)
Fixpoint cutZero (b : bytes) : option (bytes * bytes) :=
  match b with
  | [] => None
  | c :: b => if c =? 0 then Some ([], b) else (λ '(s, rest), (c :: s, rest)) <$> cutZero b
  end.
Definition rstring : M bytes := λ r,
  match rerr r with
  | Some _ => ([], r)
  | None =>
      match cutZero (rbuf r) with
      | Some (s, rest) => (s, mkReader rest None)
      | None => ([], mkReader (rbuf r) (Some ErrShort))
      end
  end.

Definition rbytes (n : Z) : M bytes := b ← take_ n; mret (default [] b).

(** A loop that stops at the first error. *)
Fixpoint rloop {A} (body : M A) (n : nat) : M (list A) :=
  match n with
  | O => mret []
  | S n => ok ← okay; if ok : bool then (a ← body; l ← rloop body n; mret (a :: l)) else mret []
  end.

Definition tupleColumn : M TupleColumn :=
  kind ← uint8;
  if (kind =? ColumnNull) || (kind =? ColumnUnchanged) then mret (mkTupleColumn kind [])
  else if (kind =? ColumnText) || (kind =? ColumnBinary) then
    n ← uint32; data ← rbytes n; mret (mkTupleColumn kind data)
  else
    _ ← fail (ErrColumnKind kind); mret (mkTupleColumn kind []).

(** The columns; one that fails is not appended. *)
Fixpoint tupleLoop (n : nat) : M (list TupleColumn) :=
  match n with
  | O => mret []
  | S n =>
      ok ← okay;
      if ok : bool then
        c ← tupleColumn; ok ← okay; l ← tupleLoop n; mret (if ok : bool then c :: l else l)
      else mret []
  end.
Definition tuple : M Tuple := n ← uint16; l ← tupleLoop (Z.to_nat n); mret (mkTuple l).

(** ** Message bodies *)

Definition relColumn : M Column :=
  k ← uint8; name ← rstring; oid ← uint32; tm ← uint32;
  mret (mkColumn (negb (Z.land k 1 =? 0)) name oid (i32 tm)).

Definition decodeRelation (xid : Z) : M Message :=
  id ← uint32; ns ← rstring; name ← rstring; ident ← uint8; n ← uint16;
  cols ← rloop relColumn (Z.to_nat n);
  mret (MRelation (mkRelation xid id ns name ident cols)).

(** The tuple a kind byte announces; another kind is refused unless the
    message is already short. *)
Definition newTuple (k : Z) (refuse : Z → dec_err) (msg : Tuple → Message) : M (result dec_err Message) :=
  ok ← okay;
  if negb (k =? 78) && ok then mret (Err (refuse k)) else t ← tuple; mret (Ok (msg t)).

Definition decodeInsert (xid : Z) : M (result dec_err Message) :=
  rel ← uint32; k ← uint8; newTuple k ErrInsertKind (MInsert xid rel).

Definition decodeUpdate (xid : Z) : M (result dec_err Message) :=
  rel ← uint32; k ← uint8;
  if k =? 75 then t ← tuple; k ← uint8; newTuple k ErrUpdateKind (MUpdate xid rel (Some t) None)
  else if k =? 79 then t ← tuple; k ← uint8; newTuple k ErrUpdateKind (MUpdate xid rel None (Some t))
  else newTuple k ErrUpdateKind (MUpdate xid rel None None).

Definition decodeDelete (xid : Z) : M (result dec_err Message) :=
  rel ← uint32; k ← uint8;
  if k =? 75 then t ← tuple; mret (Ok (MDelete xid rel (Some t) None))
  else if k =? 79 then t ← tuple; mret (Ok (MDelete xid rel None (Some t)))
  else ok ← okay; if ok : bool then mret (Err (ErrDeleteKind k)) else mret (Ok (MDelete xid rel None None)).

Definition decodeTruncate (xid : Z) : M Message :=
  n ← uint32; opts ← uint8;
  ids ← rloop uint32 (Z.to_nat n);
  mret (MTruncate xid (negb (Z.land opts 1 =? 0)) (negb (Z.land opts 2 =? 0)) ids).

Definition decodeLogical (xid : Z) : M Message :=
  flags ← uint8; lsn ← uint64; prefix ← rstring; n ← uint32; content ← rbytes n;
  mret (MLogical xid (negb (Z.land flags 1 =? 0)) lsn prefix content).

Definition decodeStreamAbort : M Message :=
  xid ← uint32; sub ← uint32; left ← remaining;
  if 16 <=? left then lsn ← uint64; t ← rtime; mret (MStreamAbort xid sub lsn t)
  else mret (MStreamAbort xid sub 0 zeroTime).

(** Flags, two LSNs, a time, xid and gid: the common shape of the two-phase
    messages. *)
Definition decodeTwoPhase (msg : Z → Z → Z → time → Z → bytes → Message) : M Message :=
  flags ← uint8; lsn ← uint64; endl ← uint64; t ← rtime; xid ← uint32; gid ← rstring;
  mret (msg flags lsn endl t xid gid).

Definition lift (p : M Message) : M (result dec_err Message) := m ← p; mret (Ok m).

(** The body of a message of type [ty]. *)
Definition decodeBody (ty xid : Z) : M (result dec_err Message) :=
  if ty =? 66 then lift (lsn ← uint64; t ← rtime; xid ← uint32; mret (MBegin lsn t xid))
  else if ty =? 67 then lift (flags ← uint8; lsn ← uint64; endl ← uint64; t ← rtime; mret (MCommit flags lsn endl t))
  else if ty =? 79 then lift (lsn ← uint64; name ← rstring; mret (MOrigin lsn name))
  else if ty =? 82 then lift (decodeRelation xid)
  else if ty =? 89 then lift (id ← uint32; ns ← rstring; name ← rstring; mret (MType xid id ns name))
  else if ty =? 73 then decodeInsert xid
  else if ty =? 85 then decodeUpdate xid
  else if ty =? 68 then decodeDelete xid
  else if ty =? 84 then lift (decodeTruncate xid)
  else if ty =? 77 then lift (decodeLogical xid)
  else if ty =? 83 then lift (xid ← uint32; first ← uint8; mret (MStreamStart xid (first =? 1)))
  else if ty =? 69 then lift (mret MStreamStop)
  else if ty =? 99 then
    lift (xid ← uint32; flags ← uint8; lsn ← uint64; endl ← uint64; t ← rtime; mret (MStreamCommit xid flags lsn endl t))
  else if ty =? 65 then lift decodeStreamAbort
  else if ty =? 98 then
    lift (lsn ← uint64; endl ← uint64; t ← rtime; xid ← uint32; gid ← rstring; mret (MBeginPrepare lsn endl t xid gid))
  else if ty =? 80 then lift (decodeTwoPhase MPrepare)
  else if ty =? 75 then lift (decodeTwoPhase MCommitPrepared)
  else if ty =? 114 then
    lift (flags ← uint8; pend ← uint64; rend ← uint64; pt ← rtime; rt ← rtime; xid ← uint32; gid ← rstring;
          mret (MRollbackPrepared flags pend rend pt rt xid gid))
  else if ty =? 112 then lift (decodeTwoPhase MStreamPrepare)
  else mret (Err (ErrUnknownType ty)).

(** The messages that carry the xid of the streamed transaction. *)
Definition carriesXid (ty : Z) : bool :=
  (ty =? 82) || (ty =? 89) || (ty =? 73) || (ty =? 85) || (ty =? 68) || (ty =? 84) || (ty =? 77).

(** What a decoded message does to the decoder. *)
Definition note (d : Decoder) (msg : Message) : Decoder :=
  match msg with
  | MRelation rel => mkDecoder (<[ID rel := rel]> (relations d)) (streamXid d) (inStream d)
  | MStreamStart xid _ => mkDecoder (relations d) xid true
  | MStreamStop => mkDecoder (relations d) 0 false
  | _ => d
  end.

Definition Decode (d : Decoder) (data : bytes) : result dec_err Message * Decoder :=
  match data with
  | [] => (Err ErrShort, d)
  | ty :: buf =>
      let '(xid, r) := (if carriesXid ty && inStream d then uint32 else mret 0) (mkReader buf None) in
      match decodeBody ty xid r with
      | (Err e, _) => (Err e, d)
      | (Ok msg, r) => match rerr r with Some e => (Err e, d) | None => (Ok msg, note d msg) end
      end
  end.

(** ** Errors stick *)

(** After an error a computation leaves the reader as it is. *)
Class Sticky {A} (p : M A) : Prop := sticky : ∀ b e, (p (mkReader b (Some e))).2 = mkReader b (Some e).

#[export] Instance sticky_ret {A} (a : A) : Sticky (mret a).
Proof. done. Qed.
#[export] Instance sticky_bind {A B} (p : M A) (k : A → M B) : Sticky p → (∀ a, Sticky (k a)) → Sticky (p ≫= k).
Proof.
  intros Hp Hk b e. unfold mbind, M_bind. specialize (Hp b e). destruct (p _) as [a r]; cbn in Hp. subst r. apply Hk.
Qed.
#[export] Instance sticky_if {A} (c : bool) (p q : M A) : Sticky p → Sticky q → Sticky (if c then p else q).
Proof. by destruct c. Qed.
#[export] Instance sticky_okay : Sticky okay.
Proof. done. Qed.
#[export] Instance sticky_fail e : Sticky (fail e).
Proof. done. Qed.
#[export] Instance sticky_take n : Sticky (take_ n).
Proof. done. Qed.
#[export] Instance sticky_uint w : Sticky (uint w).
Proof. unfold uint. apply _. Qed.
#[export] Instance sticky_uint8 : Sticky uint8 := _.
#[export] Instance sticky_uint16 : Sticky uint16 := _.
#[export] Instance sticky_uint32 : Sticky uint32 := _.
#[export] Instance sticky_uint64 : Sticky uint64 := _.
#[export] Instance sticky_rtime : Sticky rtime.
Proof. unfold rtime. apply _. Qed.
#[export] Instance sticky_rstring : Sticky rstring.
Proof. done. Qed.
#[export] Instance sticky_rbytes n : Sticky (rbytes n).
Proof. unfold rbytes. apply _. Qed.
#[export] Instance sticky_rloop {A} (body : M A) n : Sticky (rloop body n).
Proof. by destruct n. Qed.
#[export] Instance sticky_tupleLoop n : Sticky (tupleLoop n).
Proof. by destruct n. Qed.
#[export] Instance sticky_tuple : Sticky tuple.
Proof. unfold tuple. apply _. Qed.
#[export] Instance sticky_newTuple k refuse msg : Sticky (newTuple k refuse msg).
Proof. unfold newTuple. apply _. Qed.
#[export] Instance sticky_decodeTwoPhase msg : Sticky (decodeTwoPhase msg).
Proof. unfold decodeTwoPhase. apply _. Qed.

(** A column's kind is 0 after an error, so its error is not recorded over
    the first. *)
#[export] Instance sticky_tupleColumn : Sticky tupleColumn.
Proof. done. Qed.

(** ** Encodings *)

(** [Reads p bs a]: [p] reads [a] off exactly the bytes [bs], whatever follows;
    and any shorter prefix is an error. *)
Class Reads {A} (p : M A) (bs : bytes) (a : A) : Prop := mkReads {
  reads_ok : ∀ rest, p (mkReader (bs ++ rest) None) = (a, mkReader rest None);
  reads_short : ∀ n, (n < length bs)%nat → rerr (p (mkReader (take n bs) None)).2 ≠ None }.

#[export] Instance reads_ret {A} (a : A) : Reads (mret a) [] a.
Proof. split; [done|]. cbn. lia. Qed.

Lemma sticky_err {A} (p : M A) r : Sticky p → rerr r ≠ None → rerr (p r).2 ≠ None.
Proof. intros Hp Hr. destruct r as [b [e|]]; [|done]. by rewrite Hp. Qed.

Lemma reads_bind {A B} (p : M A) (k : A → M B) b1 b2 a c :
  Reads p b1 a → Reads (k a) b2 c → (∀ x, Sticky (k x)) → Reads (p ≫= k) (b1 ++ b2) c.
Proof.
  intros Hp Hk Hs. split.
  - intros rest. unfold mbind, M_bind. rewrite <- app_assoc, (reads_ok (p := p)). apply reads_ok.
  - intros n Hn. unfold mbind, M_bind. rewrite length_app in Hn. destruct (decide (n < length b1)%nat) as [Hl|Hl].
    + rewrite take_app_le by lia. pose proof (reads_short (p := p) n Hl) as He.
      destruct (p _) as [x r]; cbn in He. by apply sticky_err.
    + rewrite take_app_ge by lia. rewrite (reads_ok (p := p)). apply reads_short. lia.
Qed.

Lemma reads_okay {B} (k : bool → M B) bs c :
  Reads (k true) bs c → Reads (okay ≫= k) bs c.
Proof. intros [H1 H2]. split; [intros rest; apply H1|intros n Hn; by apply H2]. Qed.

(** The protocol's encodings of the fields. *)
Definition enc_time (t : time) : bytes := be 8 (u64 (PGMicros t)).
Definition enc_string (s : bytes) : bytes := s ++ [0].
Definition enc_bytes (b : bytes) : bytes := be 4 (Z.of_nat (length b)) ++ b.

Definition wf_string (s : bytes) : Prop := 0 ∉ s.
(** What a [time.Time] made of microseconds can be. *)
Definition wf_time (t : time) : Prop := is_i64 t ∧ (1000 | t).
Definition wf_bytes (b : bytes) : Prop := Z.of_nat (length b) < two32.

Lemma reads_take n b : Z.of_nat (length b) = n → Reads (take_ n) b (Some b).
Proof.
  intros <-. split.
  - intros rest. unfold take_. cbn [rerr rbuf]. rewrite Nat2Z.id, length_app, take_app_length, drop_app_length.
    rewrite (proj2 (Z.ltb_ge _ 0)), (proj2 (Z.ltb_ge _ _)) by lia. done.
  - intros n Hn. unfold take_. cbn [rerr rbuf]. rewrite length_take.
    rewrite (proj2 (Z.ltb_lt (Z.of_nat (n `min` length b)) _)) by lia. by rewrite orb_true_r.
Qed.

Lemma reads_uint w v : 0 ≤ v < 256 ^ w → 0 ≤ w → Reads (uint w) (be (Z.to_nat w) v) v.
Proof.
  intros Hv Hw. unfold uint. rewrite <- (app_nil_r (be _ _)).
  eapply reads_bind; [apply reads_take; rewrite length_be; lia| |apply _].
  cbv beta iota. rewrite BigEndian_be by (rewrite Z2Nat.id; lia). apply _.
Qed.
Lemma reads_uint8 v : is_u8 v → Reads uint8 (be 1 v) v.
Proof. intros H. apply (reads_uint 1); unfold_int; lia. Qed.
Lemma reads_uint16 v : 0 ≤ v < two16 → Reads uint16 (be 2 v) v.
Proof. intros H. apply (reads_uint 2); unfold_int; lia. Qed.
Lemma reads_uint32 v : is_u32 v → Reads uint32 (be 4 v) v.
Proof. intros H. apply (reads_uint 4); unfold_int; lia. Qed.
Lemma reads_uint64 v : is_u64 v → Reads uint64 (be 8 v) v.
Proof. intros H. apply (reads_uint 8); unfold_int; lia. Qed.

Lemma PGTime_PGMicros t : wf_time t → PGTime (i64 (u64 (PGMicros t))) = t.
Proof.
  intros [Ht [q ->]]. unfold PGMicros. rewrite Z.min_l, Z.max_r by (unfold_int; lia).
  rewrite Z.quot_mul by lia. rewrite i64_u64, i64_id by (unfold_int; lia). unfold PGTime. by apply i64_id.
Qed.
Lemma reads_rtime t : wf_time t → Reads rtime (enc_time t) t.
Proof.
  intros Ht. unfold rtime, enc_time. rewrite <- (app_nil_r (be _ _)).
  eapply reads_bind; [apply reads_uint64; auto with go_int|apply reads_okay|apply _].
  cbv beta iota. rewrite PGTime_PGMicros by done. apply _.
Qed.

Lemma cutZero_app s rest : wf_string s → cutZero (s ++ 0 :: rest) = Some (s, rest).
Proof.
  intros Hs. induction s as [|c s IH]; [done|]. cbn. apply not_elem_of_cons in Hs as [Hc Hs].
  rewrite (proj2 (Z.eqb_neq c 0)) by done. by rewrite IH.
Qed.
Lemma cutZero_none s : 0 ∉ s → cutZero s = None.
Proof.
  intros Hs. induction s as [|c s IH]; [done|]. cbn. apply not_elem_of_cons in Hs as [Hc Hs].
  rewrite (proj2 (Z.eqb_neq c 0)) by done. by rewrite IH.
Qed.
Lemma reads_rstring s : wf_string s → Reads rstring (enc_string s) s.
Proof.
  intros Hs. unfold enc_string. split.
  - intros rest. unfold rstring. cbn [rerr rbuf]. rewrite <- app_assoc. cbn [app]. by rewrite cutZero_app.
  - intros n Hn. rewrite length_app in Hn. cbn in Hn. rewrite take_app_le by lia. unfold rstring. cbn [rerr rbuf].
    rewrite cutZero_none; [done|]. intros H. apply Hs. by apply elem_of_take in H as (? & ? & _); eapply list_elem_of_lookup_2.
Qed.

Lemma reads_bytes b : wf_bytes b → Reads (n ← uint32; rbytes n) (enc_bytes b) b.
Proof.
  intros Hb. eapply reads_bind; [apply reads_uint32; unfold wf_bytes in Hb; unfold_int; lia| |apply _].
  unfold rbytes. rewrite <- (app_nil_r b) at 2. eapply reads_bind; [by apply reads_take|apply _|apply _].
Qed.

Lemma reads_rloop {A} (body : M A) (enc : A → bytes) l :
  Forall (λ a, Reads body (enc a) a) l → Reads (rloop body (length l)) (mjoin (enc <$> l)) l.
Proof.
  induction 1 as [|a l Ha _ IH]; cbn [length fmap list_fmap rloop]; [apply reads_ret|]. rewrite mjoin_cons.
  apply reads_okay. cbv iota. eapply reads_bind; [exact Ha| |apply _].
  rewrite <- (app_nil_r (mjoin _)). eapply reads_bind; [exact IH|apply _|apply _].
Qed.

(** ** The protocol's messages *)

Definition enc_flag (b : bool) : bytes := be 1 (if b then 1 else 0).
Definition enc_tcolumn (c : TupleColumn) : bytes :=
  be 1 (Kind c) ++ (if (Kind c =? ColumnText) || (Kind c =? ColumnBinary) then enc_bytes (Data c) else []).
Definition enc_tuple (t : Tuple) : bytes := be 2 (Z.of_nat (length (TColumns t))) ++ mjoin (enc_tcolumn <$> TColumns t).
Definition enc_column (c : Column) : bytes :=
  enc_flag (Key c) ++ enc_string (CName c) ++ be 4 (TypeOID c) ++ be 4 (u32 (TypeMod c)).

Definition wf_tcolumn (c : TupleColumn) : Prop :=
  (Kind c = ColumnNull ∨ Kind c = ColumnUnchanged) ∧ Data c = [] ∨
  (Kind c = ColumnText ∨ Kind c = ColumnBinary) ∧ wf_bytes (Data c).
Definition wf_tuple (t : Tuple) : Prop := Z.of_nat (length (TColumns t)) < two16 ∧ Forall wf_tcolumn (TColumns t).
Definition wf_column (c : Column) : Prop := wf_string (CName c) ∧ is_u32 (TypeOID c) ∧ is_i32 (TypeMod c).

(** A row image: the kind byte that announces it, and the tuple. *)
Definition enc_new (t : Tuple) : bytes := be 1 78 ++ enc_tuple t.
Definition enc_image (key old : option Tuple) : bytes :=
  match key, old with
  | Some t, _ => be 1 75 ++ enc_tuple t
  | None, Some t => be 1 79 ++ enc_tuple t
  | None, None => []
  end.
Definition wf_image (key old : option Tuple) : Prop :=
  match key, old with
  | Some t, None | None, Some t => wf_tuple t
  | None, None => True
  | Some _, Some _ => False
  end.

Definition type_of (m : Message) : Z :=
  match m with
  | MRelation _ => 82 | MType _ _ _ _ => 89 | MBegin _ _ _ => 66 | MCommit _ _ _ _ => 67 | MOrigin _ _ => 79
  | MInsert _ _ _ => 73 | MUpdate _ _ _ _ _ => 85 | MDelete _ _ _ _ => 68 | MTruncate _ _ _ _ => 84
  | MLogical _ _ _ _ _ => 77 | MStreamStart _ _ => 83 | MStreamStop => 69 | MStreamCommit _ _ _ _ _ => 99
  | MStreamAbort _ _ _ _ => 65 | MBeginPrepare _ _ _ _ _ => 98 | MPrepare _ _ _ _ _ _ => 80
  | MCommitPrepared _ _ _ _ _ _ => 75 | MRollbackPrepared _ _ _ _ _ _ _ => 114 | MStreamPrepare _ _ _ _ _ _ => 112
  end.

(** The xid a change carries inside a streamed segment. *)
Definition xid_of (m : Message) : Z :=
  match m with
  | MRelation rel => RXid rel
  | MType x _ _ _ | MInsert x _ _ | MUpdate x _ _ _ _ | MDelete x _ _ _ | MTruncate x _ _ _ | MLogical x _ _ _ _ => x
  | _ => 0
  end.

Definition enc_twophase (flags lsn endl : Z) (t : time) (xid : Z) (gid : bytes) : bytes :=
  be 1 flags ++ be 8 lsn ++ be 8 endl ++ enc_time t ++ be 4 xid ++ enc_string gid.

Definition enc_body (m : Message) : bytes :=
  match m with
  | MRelation rel =>
      be 4 (ID rel) ++ enc_string (Namespace rel) ++ enc_string (Name rel) ++ be 1 (ReplicaIdentity rel) ++
      be 2 (Z.of_nat (length (Columns rel))) ++ mjoin (enc_column <$> Columns rel)
  | MType _ id ns name => be 4 id ++ enc_string ns ++ enc_string name
  | MBegin lsn t xid => be 8 lsn ++ enc_time t ++ be 4 xid
  | MCommit flags lsn endl t => be 1 flags ++ be 8 lsn ++ be 8 endl ++ enc_time t
  | MOrigin lsn name => be 8 lsn ++ enc_string name
  | MInsert _ rel new => be 4 rel ++ enc_new new
  | MUpdate _ rel key old new => be 4 rel ++ enc_image key old ++ enc_new new
  | MDelete _ rel key old => be 4 rel ++ enc_image key old
  | MTruncate _ cascade restart ids =>
      be 4 (Z.of_nat (length ids)) ++ be 1 ((if cascade then 1 else 0) + (if restart then 2 else 0)) ++ mjoin (be 4 <$> ids)
  | MLogical _ transactional lsn prefix content =>
      enc_flag transactional ++ be 8 lsn ++ enc_string prefix ++ enc_bytes content
  | MStreamStart xid first => be 4 xid ++ enc_flag first
  | MStreamStop => []
  | MStreamCommit xid flags lsn endl t => be 4 xid ++ be 1 flags ++ be 8 lsn ++ be 8 endl ++ enc_time t
  | MStreamAbort xid sub lsn t =>
      be 4 xid ++ be 4 sub ++ (if decide (t = zeroTime) then [] else be 8 lsn ++ enc_time t)
  | MBeginPrepare lsn endl t xid gid => be 8 lsn ++ be 8 endl ++ enc_time t ++ be 4 xid ++ enc_string gid
  | MPrepare flags lsn endl t xid gid | MCommitPrepared flags lsn endl t xid gid
  | MStreamPrepare flags lsn endl t xid gid => enc_twophase flags lsn endl t xid gid
  | MRollbackPrepared flags pend rend pt rt xid gid =>
      be 1 flags ++ be 8 pend ++ be 8 rend ++ enc_time pt ++ enc_time rt ++ be 4 xid ++ enc_string gid
  end.

Definition encode (streamed : bool) (m : Message) : bytes :=
  type_of m :: (if carriesXid (type_of m) && streamed then be 4 (xid_of m) else []) ++ enc_body m.

Definition wf_twophase (flags lsn endl : Z) (t : time) (xid : Z) (gid : bytes) : Prop :=
  is_u8 flags ∧ is_u64 lsn ∧ is_u64 endl ∧ wf_time t ∧ is_u32 xid ∧ wf_string gid.

Definition wf_body (m : Message) : Prop :=
  match m with
  | MRelation rel =>
      is_u32 (ID rel) ∧ wf_string (Namespace rel) ∧ wf_string (Name rel) ∧ is_u8 (ReplicaIdentity rel) ∧
      Z.of_nat (length (Columns rel)) < two16 ∧ Forall wf_column (Columns rel)
  | MType _ id ns name => is_u32 id ∧ wf_string ns ∧ wf_string name
  | MBegin lsn t xid => is_u64 lsn ∧ wf_time t ∧ is_u32 xid
  | MCommit flags lsn endl t => is_u8 flags ∧ is_u64 lsn ∧ is_u64 endl ∧ wf_time t
  | MOrigin lsn name => is_u64 lsn ∧ wf_string name
  | MInsert _ rel new => is_u32 rel ∧ wf_tuple new
  | MUpdate _ rel key old new => is_u32 rel ∧ wf_image key old ∧ wf_tuple new
  | MDelete _ rel key old => is_u32 rel ∧ wf_image key old ∧ (key ≠ None ∨ old ≠ None)
  | MTruncate _ _ _ ids => Z.of_nat (length ids) < two32 ∧ Forall is_u32 ids
  | MLogical _ _ lsn prefix content => is_u64 lsn ∧ wf_string prefix ∧ wf_bytes content
  | MStreamStart xid _ => is_u32 xid
  | MStreamStop => True
  | MStreamCommit xid flags lsn endl t => is_u32 xid ∧ is_u8 flags ∧ is_u64 lsn ∧ is_u64 endl ∧ wf_time t
  | MStreamAbort xid sub lsn t => is_u32 xid ∧ is_u32 sub ∧ (lsn = 0 ∧ t = zeroTime ∨ is_u64 lsn ∧ wf_time t)
  | MBeginPrepare lsn endl t xid gid => wf_twophase 0 lsn endl t xid gid
  | MPrepare flags lsn endl t xid gid | MCommitPrepared flags lsn endl t xid gid
  | MStreamPrepare flags lsn endl t xid gid => wf_twophase flags lsn endl t xid gid
  | MRollbackPrepared flags pend rend pt rt xid gid => wf_twophase flags pend rend pt xid gid ∧ wf_time rt
  end.

(** The messages a server sends: the fields in range, and an xid only inside a
    streamed segment. *)
Definition wf_message (streamed : bool) (m : Message) : Prop :=
  wf_body m ∧ is_u32 (xid_of m) ∧ (streamed = false → xid_of m = 0).

(** ** Reading what was written *)

Lemma reads_last {A B} (p : M A) (f : A → B) bs a : Reads p bs a → Reads (p ≫= λ x, mret (f x)) bs (f a).
Proof. intros H. rewrite <- (app_nil_r bs). by eapply reads_bind; [exact H|apply _..]. Qed.

Lemma reads_flag b : Reads uint8 (enc_flag b) (if b then 1 else 0).
Proof. apply reads_uint8. destruct b; unfold_int; lia. Qed.

Create HintDb reads.
#[local] Hint Resolve reads_uint8 reads_uint16 reads_uint32 reads_uint64 reads_rtime reads_rstring reads_flag reads_ret : reads.
#[local] Opaque be enc_time enc_string enc_bytes enc_flag enc_tuple.

(** One field after the other. *)
Ltac read_field := eapply reads_bind; [by eauto with reads| |intros; apply _].
Ltac read_last := eapply (reads_last _ _ _ _); by eauto with reads.

Lemma reads_ext {A} (p q : M A) bs a : (∀ r, p r = q r) → Reads p bs a → Reads q bs a.
Proof. intros E [H1 H2]. split; [intros rest; by rewrite <- E|intros n Hn; rewrite <- E; by apply H2]. Qed.
Lemma M_assoc {A B C} (p : M A) (f : A → M B) (g : B → M C) r : ((p ≫= f) ≫= g) r = (p ≫= λ a, f a ≫= g) r.
Proof. unfold mbind, M_bind. by destruct (p r). Qed.

Lemma reads_enc_bytes {A} (f : bytes → A) b :
  wf_bytes b → Reads (n ← uint32; data ← rbytes n; mret (f data)) (enc_bytes b) (f b).
Proof. intros Hb. eapply reads_ext; [intros r; apply M_assoc|]. by apply (reads_last _ f), reads_bytes. Qed.

Lemma reads_tcolumn c : wf_tcolumn c → Reads tupleColumn (enc_tcolumn c) c.
Proof.
  intros Hc. unfold tupleColumn, enc_tcolumn. destruct c as [kind data]. unfold wf_tcolumn in Hc. cbn [Kind Data] in *.
  assert (is_u8 kind) by (destruct Hc as [[[-> | ->] _]|[[-> | ->] _]]; by vm_compute).
  read_field. destruct Hc as [[[-> | ->] ->]|[[-> | ->] Hb]]; [apply reads_ret..| |]; by apply (reads_enc_bytes (mkTupleColumn _)).
Qed.

Lemma reads_tupleLoop l : Forall wf_tcolumn l → Reads (tupleLoop (length l)) (mjoin (enc_tcolumn <$> l)) l.
Proof.
  induction 1 as [|c l Hc _ IH]; [apply reads_ret|]. cbn [length tupleLoop fmap list_fmap]. rewrite mjoin_cons.
  apply reads_okay. cbv iota. eapply reads_bind; [by apply reads_tcolumn|apply reads_okay|apply _].
  by apply (reads_last _ (cons c)).
Qed.
Lemma reads_tuple t : wf_tuple t → Reads tuple (enc_tuple t) t.
Proof.
  destruct t as [l]. intros [Hl Hw]; cbn [TColumns] in *. unfold tuple.
  assert (Reads (n ← uint16; l ← tupleLoop (Z.to_nat n); mret (mkTuple l))
    (be 2 (Z.of_nat (length l)) ++ mjoin (enc_tcolumn <$> l)) (mkTuple l)) as H; [|exact H].
  eapply reads_bind; [apply reads_uint16; lia| |intros; apply _]. rewrite Nat2Z.id.
  by apply (reads_last _ mkTuple), reads_tupleLoop.
Qed.

Lemma reads_relColumn c : wf_column c → Reads relColumn (enc_column c) c.
Proof.
  destruct c as [key name oid tm]. intros (Hn & Ho & Ht); cbn [Key CName TypeOID TypeMod] in *.
  unfold relColumn, enc_column. cbn [Key CName TypeOID TypeMod]. do 3 read_field.
  set (f := λ tm, mkColumn (negb (Z.land (if key then 1 else 0) 1 =? 0)) name oid (i32 tm)).
  assert (f (u32 tm) = mkColumn key name oid tm) as <-.
  { unfold f. replace (i32 (u32 tm)) with tm by int_lia. by destruct key. }
  apply (reads_last uint32 f), reads_uint32. auto with go_int.
Qed.
#[local] Hint Resolve reads_tuple : reads.

Lemma reads_newTuple t refuse msg : wf_tuple t → Reads (k ← uint8; newTuple k refuse msg) (enc_new t) (Ok (msg t)).
Proof.
  intros Ht. unfold enc_new. eapply reads_bind; [apply reads_uint8; unfold_int; lia| |intros; apply _].
  unfold newTuple. apply reads_okay. cbn [negb andb Z.eqb Pos.eqb]. by apply (reads_last _ (λ t, Ok (msg t))), reads_tuple.
Qed.

#[export] Instance sticky_remaining : Sticky remaining.
Proof. done. Qed.
#[export] Instance sticky_lift p : Sticky p → Sticky (lift p).
Proof. intros H. unfold lift. apply _. Qed.
#[export] Instance sticky_decodeBody ty xid : Sticky (decodeBody ty xid).
Proof.
  unfold decodeBody, decodeRelation, decodeInsert, decodeUpdate, decodeDelete, decodeTruncate, decodeLogical, decodeStreamAbort.
  apply _.
Qed.

Lemma reads_lift p bs m : Reads p bs m → Reads (lift p) bs (Ok m).
Proof. apply (reads_last p Ok). Qed.

Lemma reads_decodeRelation rel :
  wf_body (MRelation rel) → Reads (decodeRelation (RXid rel)) (enc_body (MRelation rel)) (MRelation rel).
Proof.
  destruct rel as [xid id ns name ident cols]. intros (Hi & Hns & Hn & Hr & Hl & Hc). cbn [RXid ID Namespace Name ReplicaIdentity Columns] in *.
  unfold decodeRelation, enc_body. cbn [ID Namespace Name ReplicaIdentity Columns]. do 4 read_field.
  eapply reads_bind; [apply reads_uint16; lia| |intros; apply _]. rewrite Nat2Z.id.
  apply (reads_last _ (λ cols, MRelation (mkRelation xid id ns name ident cols))), reads_rloop.
  eapply Forall_impl; [exact Hc|]. apply reads_relColumn.
Qed.

Lemma reads_decodeTruncate xid c r ids :
  wf_body (MTruncate xid c r ids) → Reads (decodeTruncate xid) (enc_body (MTruncate xid c r ids)) (MTruncate xid c r ids).
Proof.
  intros [Hl Hi]. unfold decodeTruncate, enc_body.
  eapply reads_bind; [apply reads_uint32; unfold_int; lia| |intros; apply _].
  eapply reads_bind; [apply reads_uint8; destruct c, r; unfold_int; lia| |intros; apply _]. rewrite Nat2Z.id.
  set (o := (if c then 1 else 0) + (if r then 2 else 0)).
  assert (MTruncate xid c r ids = MTruncate xid (negb (Z.land o 1 =? 0)) (negb (Z.land o 2 =? 0)) ids) as -> by (by destruct c, r).
  apply (reads_last _ (MTruncate xid _ _)), reads_rloop.
  eapply Forall_impl; [exact Hi|]. apply reads_uint32.
Qed.

Lemma reads_decodeLogical xid t lsn prefix content :
  wf_body (MLogical xid t lsn prefix content) →
  Reads (decodeLogical xid) (enc_body (MLogical xid t lsn prefix content)) (MLogical xid t lsn prefix content).
Proof.
  intros (Hl & Hp & Hc). unfold decodeLogical, enc_body. do 3 read_field.
  assert (MLogical xid t lsn prefix content = MLogical xid (negb (Z.land (if t then 1 else 0) 1 =? 0)) lsn prefix content) as ->
    by (by destruct t).
  by apply (reads_enc_bytes (MLogical xid _ lsn prefix)).
Qed.

Lemma reads_decodeUpdate xid rel key old new :
  wf_body (MUpdate xid rel key old new) →
  Reads (decodeUpdate xid) (enc_body (MUpdate xid rel key old new)) (Ok (MUpdate xid rel key old new)).
Proof.
  intros (Hr & Hi & Hn). unfold decodeUpdate, enc_body. read_field.
  destruct key as [t|], old as [t'|]; cbn [wf_image enc_image] in *; [done|..].
  - rewrite <- app_assoc. eapply reads_bind; [apply reads_uint8; unfold_int; lia| |intros; apply _].
    cbn [Z.eqb Pos.eqb]. read_field. by apply (reads_newTuple new _ (MUpdate xid rel (Some t) None)).
  - rewrite <- app_assoc. eapply reads_bind; [apply reads_uint8; unfold_int; lia| |intros; apply _].
    cbn [Z.eqb Pos.eqb]. read_field. by apply (reads_newTuple new _ (MUpdate xid rel None (Some t'))).
  - cbn [app]. unfold enc_new. eapply reads_bind; [apply reads_uint8; unfold_int; lia| |intros; apply _].
    cbn [Z.eqb Pos.eqb]. unfold newTuple. apply reads_okay. cbn [negb andb Z.eqb Pos.eqb].
    by apply (reads_last _ (λ t, Ok (MUpdate xid rel None None t))), reads_tuple.
Qed.

Lemma reads_decodeDelete xid rel key old :
  wf_body (MDelete xid rel key old) →
  Reads (decodeDelete xid) (enc_body (MDelete xid rel key old)) (Ok (MDelete xid rel key old)).
Proof.
  intros (Hr & Hi & Hn). unfold decodeDelete, enc_body. read_field.
  destruct key as [t|], old as [t'|]; cbn [wf_image enc_image] in *; [done|..|by destruct Hn].
  all: eapply reads_bind; [apply reads_uint8; unfold_int; lia| |intros; apply _]; cbn [Z.eqb Pos.eqb].
  - by apply (reads_last _ (λ t, Ok (MDelete xid rel (Some t) None))), reads_tuple.
  - by apply (reads_last _ (λ t, Ok (MDelete xid rel None (Some t)))), reads_tuple.
Qed.

Lemma reads_twoPhase msg flags lsn endl t xid gid :
  wf_twophase flags lsn endl t xid gid →
  Reads (decodeTwoPhase msg) (enc_twophase flags lsn endl t xid gid) (msg flags lsn endl t xid gid).
Proof.
  intros (? & ? & ? & ? & ? & ?). unfold decodeTwoPhase, enc_twophase. do 5 read_field.
  by apply (reads_last _ (msg flags lsn endl t xid)), reads_rstring.
Qed.

Definition is_stream_abort (m : Message) : bool := match m with MStreamAbort _ _ _ _ => true | _ => false end.

Lemma reads_decodeBody m :
  wf_body m → is_stream_abort m = false → Reads (decodeBody (type_of m) (xid_of m)) (enc_body m) (Ok m).
Proof.
  intros Hm Ha. destruct m; cbn [type_of xid_of]; unfold decodeBody; cbn [Z.eqb Pos.eqb]; try done.
  - by apply reads_lift, reads_decodeRelation.
  - destruct Hm as (? & ? & ?). apply reads_lift. cbn [enc_body]. do 2 read_field. by apply (reads_last _ (MType _ _ _)), reads_rstring.
  - destruct Hm as (? & ? & ?). apply reads_lift. cbn [enc_body]. do 2 read_field. by apply (reads_last _ (MBegin _ _)), reads_uint32.
  - destruct Hm as (? & ? & ? & ?). apply reads_lift. cbn [enc_body]. do 3 read_field. by apply (reads_last _ (MCommit _ _ _)), reads_rtime.
  - destruct Hm as (? & ?). apply reads_lift. cbn [enc_body]. read_field. by apply (reads_last _ (MOrigin _)), reads_rstring.
  - destruct Hm as (? & ?). unfold decodeInsert. cbn [enc_body]. read_field. by apply (reads_newTuple _ _ (MInsert _ _)).
  - by apply reads_decodeUpdate.
  - by apply reads_decodeDelete.
  - by apply reads_lift, reads_decodeTruncate.
  - by apply reads_lift, reads_decodeLogical.
  - apply reads_lift. cbn [enc_body wf_body] in *. read_field.
    assert (MStreamStart Xid FirstSegment = MStreamStart Xid ((if FirstSegment then 1 else 0) =? 1)) as -> by (by destruct FirstSegment).
    apply (reads_last _ (λ f, MStreamStart Xid (f =? 1))), reads_flag.
  - apply reads_lift, reads_ret.
  - destruct Hm as (? & ? & ? & ? & ?). apply reads_lift. cbn [enc_body]. do 4 read_field.
    by apply (reads_last _ (MStreamCommit _ _ _ _)), reads_rtime.
  - destruct Hm as (_ & ? & ? & ? & ? & ?). apply reads_lift. cbn [enc_body]. do 4 read_field.
    by apply (reads_last _ (MBeginPrepare _ _ _ _)), reads_rstring.
  - by apply reads_lift, reads_twoPhase.
  - by apply reads_lift, reads_twoPhase.
  - destruct Hm as ((? & ? & ? & ? & ? & ?) & ?). apply reads_lift. cbn [enc_body]. do 6 read_field.
    by apply (reads_last _ (MRollbackPrepared _ _ _ _ _ _)), reads_rstring.
  - by apply reads_lift, reads_twoPhase.
Qed.

(** The xid, if one is due, and the body. *)
Lemma reads_message streamed m :
  wf_message streamed m → is_stream_abort m = false →
  Reads ((if carriesXid (type_of m) && streamed then uint32 else mret 0) ≫= decodeBody (type_of m))
    ((if carriesXid (type_of m) && streamed then be 4 (xid_of m) else []) ++ enc_body m) (Ok m).
Proof.
  intros (Hm & Hx & Hs) Ha. eapply reads_bind; [|by apply reads_decodeBody|intros; apply _].
  destruct (carriesXid (type_of m)) eqn:Hc, streamed; cbn [andb].
  - by apply reads_uint32.
  - rewrite Hs by done. apply reads_ret.
  - assert (xid_of m = 0) as -> by (by destruct m). apply reads_ret.
  - rewrite Hs by done. apply reads_ret.
Qed.

Lemma Decode_eq d ty buf :
  Decode d (ty :: buf) =
  match ((if carriesXid ty && inStream d then uint32 else mret 0) ≫= decodeBody ty) (mkReader buf None) with
  | (Err e, _) => (Err e, d)
  | (Ok msg, r) => match rerr r with Some e => (Err e, d) | None => (Ok msg, note d msg) end
  end.
Proof. cbn [Decode]. unfold mbind, M_bind. by destruct (_ (mkReader buf None)) as [xid r]. Qed.

(** The abort of a streamed transaction ends the message, with or without the
    fields of parallel mode. *)
Lemma decode_abort xid sub lsn t :
  wf_body (MStreamAbort xid sub lsn t) →
  decodeStreamAbort (mkReader (enc_body (MStreamAbort xid sub lsn t)) None) = (MStreamAbort xid sub lsn t, mkReader [] None).
Proof.
  intros (Hx & Hs & Ht). cbn [enc_body]. unfold decodeStreamAbort, mbind, M_bind.
  rewrite (reads_ok (p := uint32) (Reads := reads_uint32 _ Hx)), (reads_ok (p := uint32) (Reads := reads_uint32 _ Hs)).
  unfold remaining. cbv beta iota. cbn [rbuf].
  destruct Ht as [[-> ->]|[Hl Ht]]; [done|]. rewrite decide_False.
  2: { intros ->. destruct Ht as [Ht _]. revert Ht. vm_compute. tauto. }
  rewrite length_app. unfold enc_time at 1. rewrite !length_be. cbn [Z.leb Z.compare].
  change (16 <=? Z.of_nat (8 + 8)) with true. cbv beta iota.
  rewrite (reads_ok (p := uint64) (Reads := reads_uint64 _ Hl)).
  rewrite <- (app_nil_r (enc_time t)). by rewrite (reads_ok (p := rtime) (Reads := reads_rtime _ Ht)).
Qed.

Lemma Decode_encode d m :
  wf_message (inStream d) m → Decode d (encode (inStream d) m) = (Ok m, note d m).
Proof.
  intros Hm. unfold encode. rewrite Decode_eq. destruct (is_stream_abort m) eqn:Ha.
  - destruct m; try done. cbn [type_of xid_of app andb carriesXid]. cbn [carriesXid Z.eqb Pos.eqb orb andb app].
    destruct Hm as [Hm _]. unfold mbind, M_bind. cbn [mret M_ret]. unfold decodeBody. cbn [Z.eqb Pos.eqb].
    unfold lift, mbind, M_bind. cbn [mret M_ret]. by rewrite decode_abort.
  - pose proof (reads_message _ _ Hm Ha) as Hr. rewrite <- (app_nil_r (_ ++ enc_body m)). by rewrite (reads_ok (Reads := Hr)).
Qed.

Lemma Decode_prefix d m n :
  wf_message (inStream d) m → is_stream_abort m = false → (n < length (encode (inStream d) m))%nat →
  ∃ e, Decode d (take n (encode (inStream d) m)) = (Err e, d).
Proof.
  intros Hm Ha Hn. unfold encode in *. destruct n as [|n]; [by exists ErrShort|]. cbn [take]. rewrite Decode_eq.
  pose proof (reads_short (Reads := reads_message _ _ Hm Ha) n ltac:(cbn in Hn; lia)) as He.
  destruct ((_ ≫= decodeBody _) _) as [[msg|e] r]; [|by exists e]. cbn in He. destruct (rerr r) as [e|]; [by exists e|done].
Qed.

(** ** A slot's stream *)

Fixpoint DecodeAll (d : Decoder) (msgs : list bytes) : list (result dec_err Message) * Decoder :=
  match msgs with
  | [] => ([], d)
  | data :: msgs =>
      let '(r, d) := Decode d data in
      let '(rs, d) := DecodeAll d msgs in (r :: rs, d)
  end.

(** What a server sends for [ms]: inside a streamed segment, from StreamStart
    to StreamStop, changes carry their xid. *)
Definition next_streamed (streamed : bool) (m : Message) : bool :=
  match m with MStreamStart _ _ => true | MStreamStop => false | _ => streamed end.
Fixpoint send (streamed : bool) (ms : list Message) : list bytes :=
  match ms with
  | [] => []
  | m :: ms => encode streamed m :: send (next_streamed streamed m) ms
  end.
Fixpoint wf_stream (streamed : bool) (ms : list Message) : Prop :=
  match ms with
  | [] => True
  | m :: ms => wf_message streamed m ∧ wf_stream (next_streamed streamed m) ms
  end.

(** The last definition of a relation in a stream. *)
Fixpoint last_relation (ms : list Message) (id : Z) (r : option Relation) : option Relation :=
  match ms with
  | [] => r
  | MRelation rel :: ms => last_relation ms id (if decide (ID rel = id) then Some rel else r)
  | _ :: ms => last_relation ms id r
  end.

Lemma inStream_note d m : inStream (note d m) = next_streamed (inStream d) m.
Proof. by destruct m. Qed.
Lemma relations_note d ms id : relations (foldl note d ms) !! id = last_relation ms id (relations d !! id).
Proof.
  revert d. induction ms as [|m ms IH]; intros d; [done|]. cbn [foldl]. rewrite IH. destruct m; try done.
  cbn. case_decide as E; [by rewrite <- E, lookup_insert_eq|by rewrite lookup_insert_ne].
Qed.

(** C28. A slot's stream is decoded as it was sent: every message a server can
    send, inside or outside a streamed segment, comes back with every field,
    and afterwards the decoder holds, for each relation, the last definition
    the stream carried. *)
Theorem DecodeAll_send d ms :
  wf_stream (inStream d) ms →
  ∃ d', DecodeAll d (send (inStream d) ms) = (Ok <$> ms, d') ∧
    ∀ id, relations d' !! id = last_relation ms id (relations d !! id).
Proof.
  intros Hw. exists (foldl note d ms). split; [|apply relations_note].
  revert d Hw. induction ms as [|m ms IH]; intros d; [done|]. cbn [send wf_stream DecodeAll foldl]. intros [Hm Hw].
  rewrite Decode_encode by done. rewrite <- inStream_note in *. by rewrite IH.
Qed.

(** A message cut short anywhere is refused and leaves the decoder as it
    was.  Only the abort of a streamed transaction may lack its last fields,
    which parallel streaming adds. *)
Theorem truncated_message_refused d m n :
  wf_message (inStream d) m → is_stream_abort m = false → (n < length (encode (inStream d) m))%nat →
  ∃ e, Decode d (take n (encode (inStream d) m)) = (Err e, d).
Proof. apply Decode_prefix. Qed.

Module Example.
Definition users : Relation := mkRelation 7 16385 (bytes_of "public") (bytes_of "users") 100
  [mkColumn true (bytes_of "id") 20 (-1); mkColumn false (bytes_of "name") 1043 36].
Definition row : Tuple := mkTuple [mkTupleColumn ColumnText (bytes_of "42"); mkTupleColumn ColumnUnchanged []].
(** A streamed segment with a relation and an update, its commit, and a
    prepared transaction. *)
Definition stream : list Message :=
  [MStreamStart 7 true; MRelation users; MUpdate 7 16385 (Some row) None row; MStreamStop;
   MStreamCommit 7 0 1000 1040 715000000000000; MStreamAbort 8 9 0 zeroTime;
   MBeginPrepare 5 6 (-1000) 11 (bytes_of "pgshard_1")].

Ltac wf_field :=
  lazymatch goal with
  | |- wf_string _ => apply (bool_decide_unpack _); vm_compute; exact I
  | |- wf_tuple _ => assumption
  | |- _ ∨ _ => idtac
  | |- Forall _ _ => idtac
  | |- wf_time ?t => split; [by vm_compute|exists (t / 1000); reflexivity]
  | |- _ => by vm_compute
  end.

Lemma stream_wf : wf_stream false stream.
Proof.
  assert (wf_tuple row).
  { split; [by vm_compute|]. constructor; [right; split; [by left|by vm_compute]|].
    constructor; [left; split; [by right|done]|constructor]. }
  unfold stream, wf_stream, wf_message. cbn [wf_body xid_of next_streamed wf_image].
  unfold wf_twophase. split_and!; wf_field.
  - constructor; [|constructor; [|constructor]]; unfold wf_column; cbn [CName TypeOID TypeMod]; split_and!; wf_field.
  - left. done.
Qed.

Lemma DecodeAll_send_witness :
  ∃ d', DecodeAll NewDecoder (send false stream) = (Ok <$> stream, d') ∧ relations d' !! 16385 = Some users.
Proof.
  destruct (DecodeAll_send NewDecoder stream stream_wf) as (d' & H & Hr). exists d'. split; [exact H|].
  rewrite Hr. reflexivity.
Defined.

Lemma truncated_message_refused_witness :
  ∃ e, Decode NewDecoder (take 20 (encode false (MBeginPrepare 5 6 (-1000) 11 (bytes_of "pgshard_1")))) = (Err e, NewDecoder).
Proof.
  refine (truncated_message_refused NewDecoder (MBeginPrepare 5 6 (-1000) 11 (bytes_of "pgshard_1")) 20 _ _ _).
  - pose proof stream_wf as (_ & _ & _ & _ & _ & _ & H & _). exact H.
  - reflexivity.
  - vm_compute. lia.
Defined.
End Example.
