(* ===== verification/ScatterCompare.v ===== *)
(** * Ordering the rows of a multi-shard read ([src/internal/router/scatter/compare.go])

    Column values arrive in PostgreSQL's text or binary format; a comparator
    decodes the ordering columns and orders rows by them.  Go's number and
    time parsers and pgtype's numeric codec are the class [Lib]. *)

From Stdlib Require Import QArith.
From S2P Require Import Prelude.

Local Open Scope Z_scope.

(** ** Types, formats, families *)

Definition oidBool : Z := 16.
Definition oidBytea : Z := 17.
Definition oidChar : Z := 18.
Definition oidName : Z := 19.
Definition oidInt8 : Z := 20.
Definition oidInt2 : Z := 21.
Definition oidInt4 : Z := 23.
Definition oidText : Z := 25.
Definition oidOid : Z := 26.
Definition oidFloat4 : Z := 700.
Definition oidFloat8 : Z := 701.
Definition oidBpchar : Z := 1042.
Definition oidVarchar : Z := 1043.
Definition oidDate : Z := 1082.
Definition oidTimestamp : Z := 1114.
Definition oidTimestampTZ : Z := 1184.
Definition oidNumeric : Z := 1700.
Definition oidUUID : Z := 2950.

Definition FormatText : Z := 0.
Definition FormatBinary : Z := 1.

Inductive class := classNegInf | classFinite | classPosInf | classNaN.
Definition class_int (c : class) : Z :=
  match c with classNegInf => -1 | classFinite => 0 | classPosInf => 1 | classNaN => 2 end.

(** A finite [float64] in units of 2^-1074, the smallest subnormal: sign and
    magnitude. *)
Inductive float64 := FNaN | FInf (neg : bool) | FFin (neg : bool) (mag : Z).
Definition float_units (f : float64) : Z := match f with FFin neg m => if neg then - m else m | _ => 0 end.

(** [f] is the units of a finite float; a nil [rat] is [None]. *)
Record value := mkValue { v_class : class; v_i : Z; v_f : float64; v_rat : option Q; v_scale : Z; v_b : bytes }.
Definition zero_value : value := mkValue classFinite 0 (FFin false 0) None 0 [].
Definition of_class (c : class) : value := mkValue c 0 (FFin false 0) None 0 [].
Definition of_int (i : Z) : value := mkValue classFinite i (FFin false 0) None 0 [].
Definition of_float (f : float64) : value := mkValue classFinite 0 f None 0 [].
Definition of_rat (q : Q) (scale : Z) : value := mkValue classFinite 0 (FFin false 0) (Some q) scale [].
Definition of_bytes (b : bytes) : value := mkValue classFinite 0 (FFin false 0) None 0 b.

Inductive family :=
  famNone | famInt | famFloat | famNumeric | famBool | famDate | famTimestamp | famUUID | famBytes | famTextCollated.
#[export] Instance family_eq_dec : EqDecision family.
Proof. solve_decision. Defined.

Definition familyOf (oid : Z) : family :=
  if (oid =? oidInt2) || (oid =? oidInt4) || (oid =? oidInt8) || (oid =? oidOid) then famInt
  else if (oid =? oidFloat4) || (oid =? oidFloat8) then famFloat
  else if oid =? oidNumeric then famNumeric
  else if oid =? oidBool then famBool
  else if oid =? oidDate then famDate
  else if (oid =? oidTimestamp) || (oid =? oidTimestampTZ) then famTimestamp
  else if oid =? oidUUID then famUUID
  else if (oid =? oidBytea) || (oid =? oidChar) then famBytes
  else if (oid =? oidText) || (oid =? oidVarchar) || (oid =? oidBpchar) || (oid =? oidName) then famTextCollated
  else famNone.

(** The errors; [ErrPanic] is Go's index out of range, [External] an error of
    a shard's stream or of the client's connection. *)
Inductive sc_err :=
| BadValue (typ : string) (v : bytes)
| NotSupported (what : string)
| Internal (what : string)
| OutOfRange
| External (what : string)
| ErrPanic.

(** ** The libraries *)

(** [pgtype.Numeric]: the value [int * 10^exp]. *)
Inductive pgnumeric := NumNaN | NumInf (neg : bool) | NumFin (int exp : Z).

Class Lib := {
  (** [strconv.ParseFloat(s, 64)] and [big.Rat.SetString]. *)
  ParseFloat : bytes → option float64;
  RatSetString : bytes → option Q;
  (** pgtype's binary numeric codec. *)
  ScanNumeric : bytes → option pgnumeric;
  EncodeNumeric : pgnumeric → result sc_err bytes;
  (** Package time. *)
  Time : Type;
  ParseTime : string → bytes → option Time;
  Unix : Time → Z;
  Nanosecond : Time → Z;
  Year : Time → Z;
  AddDate : Time → Z → Z → Z → Time }.

(** [strconv.ParseInt(s, 10, 64)] *)
Definition isDecimal (c : Z) : bool := (48 <=? c) && (c <=? 57).
Definition digitsValue (ds : bytes) : Z := foldl (λ n c, n * 10 + (c - 48)) 0 ds.
Definition ParseInt (v : bytes) : option Z :=
  let '(neg, ds) := match v with
                    | c :: r => if c =? 45 then (true, r) else if c =? 43 then (false, r) else (false, v)
                    | [] => (false, v)
                    end in
  if bool_decide (ds = []) || negb (forallb isDecimal ds) then None
  else let n := if neg : bool then - digitsValue ds else digitsValue ds in
       if (MinInt64 <=? n) && (n <=? MaxInt64) then Some n else None.

(** [hex.DecodeString] *)
Definition fromHexChar (c : Z) : option Z :=
  if (48 <=? c) && (c <=? 57) then Some (c - 48)
  else if (97 <=? c) && (c <=? 102) then Some (c - 97 + 10)
  else if (65 <=? c) && (c <=? 70) then Some (c - 65 + 10)
  else None.
Fixpoint DecodeString (s : bytes) : option bytes :=
  match s with
  | [] => Some []
  | [_] => None
  | a :: b :: s => x ← fromHexChar a; y ← fromHexChar b; rest ← DecodeString s; Some (x * 16 + y :: rest)
  end.

(** [math.Float64frombits]; and [float64(math.Float32frombits(u))], exact. *)
Definition Float64frombits (u : Z) : float64 :=
  let neg := Z.testbit u 63 in
  let e := (u / 2 ^ 52) mod 2048 in
  let m := u mod 2 ^ 52 in
  if e =? 2047 then (if m =? 0 then FInf neg else FNaN)
  else if e =? 0 then FFin neg m else FFin neg ((2 ^ 52 + m) * 2 ^ (e - 1)).
Definition Float32frombits (u : Z) : float64 :=
  let neg := Z.testbit u 31 in
  let e := (u / 2 ^ 23) mod 256 in
  let m := u mod 2 ^ 23 in
  if e =? 255 then (if m =? 0 then FInf neg else FNaN)
  else if e =? 0 then FFin neg (m * 2 ^ 925) else FFin neg ((2 ^ 23 + m) * 2 ^ (e + 924)).

(** [bytes.Compare] *)
Fixpoint bytesCompare (x y : bytes) : Z :=
  match x, y with
  | [], [] => 0
  | [], _ :: _ => -1
  | _ :: _, [] => 1
  | a :: x, b :: y => if a <? b then -1 else if b <? a then 1 else bytesCompare x y
  end.

Definition cmp3 (a b : Z) : Z := if a <? b then -1 else if b <? a then 1 else 0.
Definition ratCmp (x y : Q) : Z := match (x ?= y)%Q with Lt => -1 | Eq => 0 | Gt => 1 end.

(** ** Decoders *)

Section Decoders.
Context `{Lib}.

Definition decoder : Type := bytes → result sc_err value.

Definition decodeRaw : decoder := λ v, Ok (of_bytes v).
Definition decodeIntText : decoder := λ v,
  match ParseInt v with None => Err (BadValue "integer" v) | Some i => Ok (of_int i) end.
Definition decodeIntBinary : decoder := λ v,
  match length v with
  | 2%nat => Ok (of_int (i16 (BigEndian v)))
  | 4%nat => Ok (of_int (i32 (BigEndian v)))
  | 8%nat => Ok (of_int (i64 (BigEndian v)))
  | _ => Err (BadValue "binary integer" v)
  end.
Definition decodeOidBinary : decoder := λ v,
  if decide (length v = 4%nat) then Ok (of_int (BigEndian v)) else Err (BadValue "binary oid" v).

Definition floatValue (f : float64) : value :=
  match f with
  | FNaN => of_class classNaN
  | FInf neg => of_class (if neg then classNegInf else classPosInf)
  | FFin _ _ => of_float f
  end.
Definition decodeFloatText : decoder := λ v,
  if decide (v = bytes_of "NaN") then Ok (of_class classNaN)
  else if decide (v = bytes_of "Infinity") then Ok (of_class classPosInf)
  else if decide (v = bytes_of "-Infinity") then Ok (of_class classNegInf)
  else match ParseFloat v with None => Err (BadValue "float" v) | Some f => Ok (floatValue f) end.
Definition decodeFloatBinary : decoder := λ v,
  match length v with
  | 4%nat => Ok (floatValue (Float32frombits (BigEndian v)))
  | 8%nat => Ok (floatValue (Float64frombits (BigEndian v)))
  | _ => Err (BadValue "binary float" v)
  end.

(** [strings.IndexByte(s, '.')], counted from the end: the digits after the
    point. *)
Fixpoint afterPoint (s : bytes) : option Z :=
  match s with
  | [] => None
  | c :: s => if c =? 46 then Some (Z.of_nat (length s)) else afterPoint s
  end.
Definition decodeNumericText : decoder := λ v,
  if decide (v = bytes_of "NaN") then Ok (of_class classNaN)
  else if decide (v = bytes_of "Infinity") then Ok (of_class classPosInf)
  else if decide (v = bytes_of "-Infinity") then Ok (of_class classNegInf)
  else match RatSetString v with
       | None => Err (BadValue "numeric" v)
       | Some r =>
           if existsb (λ c, (c =? 101) || (c =? 69) || (c =? 47)) v then Err (BadValue "numeric" v)
           else Ok (of_rat r (default 0 (afterPoint v)))
       end.
Definition decodeNumericBinary : decoder := λ v,
  match ScanNumeric v with
  | None => Err (BadValue "binary numeric" v)
  | Some NumNaN => Ok (of_class classNaN)
  | Some (NumInf neg) => Ok (of_class (if neg then classNegInf else classPosInf))
  | Some (NumFin int exp) =>
      if exp <? 0 then Ok (of_rat (inject_Z int / inject_Z (10 ^ (- exp))) (- exp))
      else if 0 <? exp then Ok (of_rat (inject_Z int * inject_Z (10 ^ exp)) 0)
      else Ok (of_rat (inject_Z int) 0)
  end.

Definition decodeBoolText : decoder := λ v,
  if decide (v = bytes_of "t") then Ok (of_int 1)
  else if decide (v = bytes_of "f") then Ok (of_int 0)
  else Err (BadValue "boolean" v).
Definition decodeBoolBinary : decoder := λ v,
  match v with
  | [c] => Ok (of_int (if c =? 0 then 0 else 1))
  | _ => Err (BadValue "binary boolean" v)
  end.

Definition pgEpochUnix : Z := 946684800.

(** A trailing " BC". *)
Definition splitBC (s : bytes) : bytes * bool :=
  let n := (length s - 3)%nat in
  if (3 <=? length s)%nat && bool_decide (drop n s = bytes_of " BC") then (take n s, true) else (s, false).
Definition applyBC (t : Time) (bc : bool) : Time := if bc then AddDate t (1 - 2 * Year t) 0 0 else t.

Definition decodeDateText : decoder := λ v,
  if decide (v = bytes_of "infinity") then Ok (of_class classPosInf)
  else if decide (v = bytes_of "-infinity") then Ok (of_class classNegInf)
  else let '(s, bc) := splitBC v in
       match ParseTime "2006-01-02" s with
       | None => Err (BadValue "date" v)
       | Some t => Ok (of_int (Z.quot (i64 (Unix (applyBC t bc) - pgEpochUnix)) 86400))
       end.
Definition decodeDateBinary : decoder := λ v,
  if decide (length v = 4%nat) then
    let d := i32 (BigEndian v) in
    if d =? two31 - 1 then Ok (of_class classPosInf)
    else if d =? - two31 then Ok (of_class classNegInf)
    else Ok (of_int d)
  else Err (BadValue "binary date" v).

Definition timestampLayouts (tz : bool) : list string :=
  if tz then
    ["2006-01-02 15:04:05.999999999-07:00:00"; "2006-01-02 15:04:05.999999999-07:00"; "2006-01-02 15:04:05.999999999-07";
     "2006-01-02 15:04:05-07:00:00"; "2006-01-02 15:04:05-07:00"; "2006-01-02 15:04:05-07"]
  else ["2006-01-02 15:04:05.999999999"; "2006-01-02 15:04:05"].
Fixpoint parseAny (layouts : list string) (s : bytes) : option Time :=
  match layouts with
  | [] => None
  | l :: layouts => match ParseTime l s with Some t => Some t | None => parseAny layouts s end
  end.
Definition decodeTimestampText (tz : bool) : decoder := λ v,
  if decide (v = bytes_of "infinity") then Ok (of_class classPosInf)
  else if decide (v = bytes_of "-infinity") then Ok (of_class classNegInf)
  else let '(s, bc) := splitBC v in
       match parseAny (timestampLayouts tz) s with
       | None => Err (BadValue "timestamp" v)
       | Some t =>
           let t := applyBC t bc in
           Ok (of_int (i64 ((Unix t - pgEpochUnix) * 1000000 + Z.quot (Nanosecond t) 1000)))
       end.
Definition decodeTimestampBinary : decoder := λ v,
  if decide (length v = 8%nat) then
    let us := i64 (BigEndian v) in
    if us =? MaxInt64 then Ok (of_class classPosInf)
    else if us =? MinInt64 then Ok (of_class classNegInf)
    else Ok (of_int us)
  else Err (BadValue "binary timestamp" v).

Definition decodeUUIDText : decoder := λ v,
  match DecodeString (filter (λ c, c ≠ 45) v) with
  | Some out => if decide (length out = 16%nat) then Ok (of_bytes out) else Err (BadValue "uuid" v)
  | None => Err (BadValue "uuid" v)
  end.
Definition decodeByteaText : decoder := λ v,
  match v with
  | 92 :: 120 :: h => match DecodeString h with Some out => Ok (of_bytes out) | None => Err (BadValue "bytea" v) end
  | _ => Ok (of_bytes v)
  end.

Definition decoderFor (fam : family) (oid format : Z) : decoder :=
  let bin := format =? FormatBinary in
  match fam with
  | famInt => if bin then (if oid =? oidOid then decodeOidBinary else decodeIntBinary) else decodeIntText
  | famFloat => if bin then decodeFloatBinary else decodeFloatText
  | famNumeric => if bin then decodeNumericBinary else decodeNumericText
  | famBool => if bin then decodeBoolBinary else decodeBoolText
  | famDate => if bin then decodeDateBinary else decodeDateText
  | famTimestamp => if bin then decodeTimestampBinary else decodeTimestampText (oid =? oidTimestampTZ)
  | famUUID => if bin then decodeRaw else decodeUUIDText
  | famBytes => if bin || negb (oid =? oidBytea) then decodeRaw else decodeByteaText
  | _ => decodeRaw
  end.

(** ** Comparing *)

(** [x.rat.Cmp(y.rat)]; a finite numeric always has a rat
    ([decoderFor_has_rat]), so what a nil one compares as does not matter. *)
Definition ratCompare (x y : option Q) : Z := ratCmp (default 0%Q x) (default 0%Q y).

Definition compareValues (fam : family) (x y : value) : Z :=
  if negb (class_int (v_class x) =? class_int (v_class y)) then cmp3 (class_int (v_class x)) (class_int (v_class y))
  else match v_class x with
       | classFinite =>
           match fam with
           | famInt | famBool | famDate | famTimestamp => cmp3 (v_i x) (v_i y)
           | famFloat => cmp3 (float_units (v_f x)) (float_units (v_f y))
           | famNumeric => ratCompare (v_rat x) (v_rat y)
           | _ => bytesCompare (v_b x) (v_b y)
           end
       | _ => 0
       end.

Definition Comparator : Type := bytes → bytes → result sc_err Z.
Definition ComparatorFor (oid format : Z) (cCollation : bool) : result sc_err Comparator :=
  let fam := familyOf oid in
  if decide (fam = famNone) then Err (NotSupported "order by type")
  else if bool_decide (fam = famTextCollated) && negb cCollation then Err (NotSupported "order by collation")
  else Ok (λ a b, x ← decoderFor fam oid format a; y ← decoderFor fam oid format b; Ok (compareValues fam x y)).

(** ** Rows *)

(** A cell is nil for NULL. *)
Definition row : Type := list (option bytes).
Record Column := mkColumn { TypeOID : Z; Format : Z }.

(** [plan.SortKey] *)
Record PlanKey := mkPlanKey { pk_Column : Z; FromHidden : bool; Desc : bool; NullsFirst : bool; CCollation : bool }.
Definition Index (k : PlanKey) (width hidden : Z) : Z :=
  if FromHidden k then width - hidden + pk_Column k else pk_Column k.

(** A key as the comparator resolved it: its column, direction, the place of
    NULLs, and how its values are decoded and compared. *)
Record ResolvedKey := mkResolvedKey {
  rk_Column : nat; rk_Desc : bool; rk_NullsFirst : bool; rk_comp : Comparator; rk_dec : decoder; rk_fam : family }.
Definition RowComparator : Type := list ResolvedKey.

Fixpoint NewRowComparator (keys : list PlanKey) (cols : list Column) (hidden : Z) : result sc_err RowComparator :=
  match keys with
  | [] => Ok []
  | k :: keys =>
      let at_ := Index k (Z.of_nat (length cols)) hidden in
      if (at_ <? 0) || (Z.of_nat (length cols) <=? at_) then Err (Internal "sort key column outside the shard row")
      else match cols !! Z.to_nat at_ with
           | None => Err ErrPanic
           | Some col =>
               c ← ComparatorFor (TypeOID col) (Format col) (CCollation k);
               let fam := familyOf (TypeOID col) in
               rc ← NewRowComparator keys cols hidden;
               Ok (mkResolvedKey (Z.to_nat at_) (Desc k) (NullsFirst k) c (decoderFor fam (TypeOID col) (Format col)) fam :: rc)
           end
  end.

(** [SortKey]: a NULL, or a decoded value. *)
Abbreviation SortKey := (list (option value)) (only parsing).

Fixpoint KeyOf (rc : RowComparator) (r : row) : result sc_err SortKey :=
  match rc with
  | [] => Ok []
  | k :: rc =>
      match r !! rk_Column k with
      | None => Err ErrPanic
      | Some None => ks ← KeyOf rc r; Ok (None :: ks)
      | Some (Some b) => v ← rk_dec k b; ks ← KeyOf rc r; Ok (Some v :: ks)
      end
  end.

Definition nullOrder (k : ResolvedKey) : Z := if rk_NullsFirst k then -1 else 1.

(** [a.cols[i]]; a key has a column for each of the comparator's
    ([KeyOf_length]), so what a missing one would be does not matter. *)
Definition keyCol (a : SortKey) : option value := match a with x :: _ => x | [] => None end.

Fixpoint CompareKeys (rc : RowComparator) (a b : SortKey) : Z :=
  match rc with
  | [] => 0
  | k :: rc =>
      match keyCol a, keyCol b with
      | None, None => CompareKeys rc (tail a) (tail b)
      | None, Some _ => nullOrder k
      | Some _, None => - nullOrder k
      | Some x, Some y =>
          let c := compareValues (rk_fam k) x y in
          if c =? 0 then CompareKeys rc (tail a) (tail b) else if rk_Desc k then - c else c
      end
  end.

Fixpoint Compare (rc : RowComparator) (a b : row) : result sc_err Z :=
  match rc with
  | [] => Ok 0
  | k :: rc =>
      match a !! rk_Column k, b !! rk_Column k with
      | Some None, Some None => Compare rc a b
      | Some None, Some (Some _) => Ok (nullOrder k)
      | Some (Some _), Some None => Ok (- nullOrder k)
      | Some (Some x), Some (Some y) =>
          c ← rk_comp k x y;
          if c =? 0 then Compare rc a b else Ok (if rk_Desc k then - c else c)
      | _, _ => Err ErrPanic
      end
  end.

End Decoders.

(** ** A three-way comparison *)

(** What a merge needs of its comparison. *)
Class ThreeWay {A} (cmp : A → A → Z) : Prop := {
  cmp_refl a : cmp a a = 0;
  cmp_anti a b : cmp a b = - cmp b a;
  cmp_trans a b c : cmp a b ≤ 0 → cmp b c ≤ 0 → cmp a c ≤ 0;
  cmp_trans_lt a b c : cmp a b ≤ 0 → cmp b c < 0 → cmp a c < 0 }.

Lemma cmp_total {A} (cmp : A → A → Z) `{!ThreeWay cmp} a b : cmp a b ≤ 0 ∨ cmp b a < 0.
Proof. pose proof (cmp_anti (cmp := cmp) a b). lia. Qed.

(** [cmp_trans_lt] follows from the others. *)
Lemma ThreeWay_intro {A} (cmp : A → A → Z) :
  (∀ a b, cmp a b = - cmp b a) → (∀ a b c, cmp a b ≤ 0 → cmp b c ≤ 0 → cmp a c ≤ 0) → ThreeWay cmp.
Proof.
  intros Ha Ht. split; [intros a; pose proof (Ha a a); lia|done..|].
  intros a b c H1 H2. destruct (decide (cmp a c < 0)) as [|Hn]; [done|exfalso].
  pose proof (Ha a c). pose proof (Ha b c). pose proof (Ht c a b). lia.
Qed.

Lemma ThreeWay_map {A B} (f : B → A) cmp : ThreeWay cmp → ThreeWay (λ x y, cmp (f x) (f y)).
Proof.
  intros Hc. apply ThreeWay_intro; intros *; [apply (cmp_anti (cmp := cmp))|apply (cmp_trans (cmp := cmp))].
Qed.
Lemma ThreeWay_opp {A} (cmp : A → A → Z) : ThreeWay cmp → ThreeWay (λ x y, - cmp x y).
Proof.
  intros Hc. apply ThreeWay_intro.
  - intros a b. by rewrite (cmp_anti (cmp := cmp) a b).
  - intros a b c H1 H2. pose proof (cmp_trans (cmp := cmp) c b a). pose proof (cmp_anti (cmp := cmp) a b).
    pose proof (cmp_anti (cmp := cmp) b c). pose proof (cmp_anti (cmp := cmp) a c). lia.
Qed.

(** The first comparison that is not 0. *)
Lemma ThreeWay_lex {A} (c1 c2 : A → A → Z) :
  ThreeWay c1 → ThreeWay c2 → ThreeWay (λ x y, if c1 x y =? 0 then c2 x y else c1 x y).
Proof.
  intros H1 H2. apply ThreeWay_intro.
  - intros a b. pose proof (cmp_anti (cmp := c1) a b). pose proof (cmp_anti (cmp := c2) a b).
    destruct (Z.eqb_spec (c1 a b) 0), (Z.eqb_spec (c1 b a) 0); lia.
  - intros a b c Hab Hbc. pose proof (cmp_trans (cmp := c1) a b c). pose proof (cmp_trans_lt (cmp := c1) a b c).
    pose proof (cmp_trans (cmp := c1) c b a). pose proof (cmp_trans (cmp := c2) a b c).
    pose proof (cmp_anti (cmp := c1) a b). pose proof (cmp_anti (cmp := c1) b c). pose proof (cmp_anti (cmp := c1) a c).
    destruct (Z.eqb_spec (c1 a b) 0), (Z.eqb_spec (c1 b c) 0), (Z.eqb_spec (c1 a c) 0); try lia.
    pose proof (cmp_trans (cmp := c1) b c a). lia.
Qed.

Lemma ThreeWay_ext {A} (c1 c2 : A → A → Z) : (∀ a b, c1 a b = c2 a b) → ThreeWay c1 → ThreeWay c2.
Proof.
  intros E H. apply ThreeWay_intro; intros *; rewrite <- !E; [apply (cmp_anti (cmp := c1))|apply (cmp_trans (cmp := c1))].
Qed.

(** ** The comparisons are three-way comparisons *)

#[export] Instance cmp3_ThreeWay : ThreeWay cmp3.
Proof.
  apply ThreeWay_intro; intros *; unfold cmp3; repeat case_match; lia.
Qed.

#[export] Instance bytesCompare_ThreeWay : ThreeWay bytesCompare.
Proof.
  apply ThreeWay_intro.
  - induction a as [|a x IH]; intros [|b y]; cbn; [done..|].
    destruct (Z.ltb_spec a b), (Z.ltb_spec b a); [lia|done|done|apply IH].
  - induction a as [|a x IH]; intros [|b y] [|c z]; cbn; [lia..|].
    destruct (Z.ltb_spec a b), (Z.ltb_spec b a), (Z.ltb_spec b c), (Z.ltb_spec c b), (Z.ltb_spec a c), (Z.ltb_spec c a); try lia.
    apply IH.
Qed.

#[export] Instance ratCmp_ThreeWay : ThreeWay ratCmp.
Proof.
  assert (∀ x y, ratCmp x y ≤ 0 ↔ (x <= y)%Q) as Hle.
  { intros x y. unfold ratCmp. rewrite Qle_alt. destruct (x ?= y)%Q; split; (congruence || lia). }
  apply ThreeWay_intro.
  - intros x y. unfold ratCmp. rewrite <- (Qcompare_antisym y x). by destruct (y ?= x)%Q.
  - intros x y z. rewrite !Hle. apply Qle_trans.
Qed.

Section Laws.
Context `{Lib}.

(** The finite values of a family. *)
Definition compareFinite (fam : family) (x y : value) : Z :=
  match fam with
  | famInt | famBool | famDate | famTimestamp => cmp3 (v_i x) (v_i y)
  | famFloat => cmp3 (float_units (v_f x)) (float_units (v_f y))
  | famNumeric => ratCompare (v_rat x) (v_rat y)
  | _ => bytesCompare (v_b x) (v_b y)
  end.
Definition finite_part (x : value) : value := match v_class x with classFinite => x | _ => zero_value end.

Lemma compareFinite_ThreeWay fam : ThreeWay (compareFinite fam).
Proof.
  destruct fam; unfold compareFinite, ratCompare;
    first [apply (ThreeWay_map v_i), _ | apply (ThreeWay_map (λ x, float_units (v_f x))), _
          | apply (ThreeWay_map (λ x, default 0%Q (v_rat x))), _ | apply (ThreeWay_map v_b), _].
Qed.

#[export] Instance compareValues_ThreeWay fam : ThreeWay (compareValues fam).
Proof.
  eapply ThreeWay_ext; [|apply (ThreeWay_lex (λ x y, cmp3 (class_int (v_class x)) (class_int (v_class y)))
    (λ x y, compareFinite fam (finite_part x) (finite_part y)))].
  - intros x y. unfold compareValues, finite_part, compareFinite. destruct (v_class x), (v_class y); try done.
    all: by destruct fam.
  - apply (ThreeWay_map (λ x, class_int (v_class x))), _.
  - apply (ThreeWay_map finite_part), compareFinite_ThreeWay.
Qed.

(** One ordering column. *)
Definition compareCol (k : ResolvedKey) (x y : option value) : Z :=
  match x, y with
  | None, None => 0
  | None, Some _ => nullOrder k
  | Some _, None => - nullOrder k
  | Some x, Some y => let c := compareValues (rk_fam k) x y in if rk_Desc k then - c else c
  end.

#[export] Instance compareCol_ThreeWay k : ThreeWay (compareCol k).
Proof.
  assert (ThreeWay (λ x y, if rk_Desc k then - compareValues (rk_fam k) x y else compareValues (rk_fam k) x y)) as Hv.
  { destruct (rk_Desc k); [apply ThreeWay_opp, _|]. apply (ThreeWay_map id), _. }
  apply ThreeWay_intro.
  - intros [x|] [y|]; cbn; [apply (cmp_anti (ThreeWay := Hv))|lia..].
  - intros [x|] [y|] [z|]; cbn; unfold nullOrder; [apply (cmp_trans (ThreeWay := Hv))|destruct (rk_NullsFirst k); lia..].
Qed.

(** Rows are ordered consistently whatever the ORDER BY: any mix of types,
    directions and NULL placements, the infinities and NaN included. *)
#[export] Instance CompareKeys_ThreeWay rc : ThreeWay (CompareKeys rc).
Proof.
  induction rc as [|k rc IH]; [by split|].
  eapply ThreeWay_ext; [|apply (ThreeWay_lex (λ a b, compareCol k (keyCol a) (keyCol b)) (λ a b, CompareKeys rc (tail a) (tail b)))].
  - intros a b. cbn [CompareKeys]. unfold compareCol, nullOrder. destruct (keyCol a) as [x|], (keyCol b) as [y|]; try done.
    2, 3: by destruct (rk_NullsFirst k).
    cbv zeta. destruct (rk_Desc k); [|done]. destruct (Z.eqb_spec (compareValues (rk_fam k) x y) 0) as [->|Hn]; [done|].
    by rewrite (proj2 (Z.eqb_neq _ 0)) by lia.
  - apply (ThreeWay_map keyCol), _.
  - apply (ThreeWay_map tail), IH.
Qed.

Lemma KeyOf_length rc r ks : KeyOf rc r = Ok ks → length ks = length rc.
Proof.
  revert ks. induction rc as [|k rc IH]; intros ks; cbn; [by intros [= <-]|].
  destruct (r !! rk_Column k) as [[b|]|]; [|..|done].
  - intros (v & _ & (ks' & Hk & [= <-])%result_bind_ok)%result_bind_ok. cbn. by rewrite (IH ks').
  - intros (ks' & Hk & [= <-])%result_bind_ok. cbn. by rewrite (IH ks').
Qed.

Lemma decoderFor_has_rat oid format b v :
  decoderFor famNumeric oid format b = Ok v → v_class v = classFinite → is_Some (v_rat v).
Proof.
  cbn. destruct (format =? FormatBinary); unfold decodeNumericBinary, decodeNumericText.
  - destruct (ScanNumeric b) as [[|neg|int exp]|]; intros; simplify_eq; [by destruct neg|].
    repeat case_match; simplify_eq; by eexists.
  - repeat case_match; intros; simplify_eq; done || by eexists.
Qed.

(** The comparator a key resolves to decodes and compares as the key does. *)
Definition consistent (k : ResolvedKey) : Prop :=
  ∀ x y, rk_comp k x y = (vx ← rk_dec k x; vy ← rk_dec k y; Ok (compareValues (rk_fam k) vx vy)).

Lemma NewRowComparator_consistent keys cols hidden rc :
  NewRowComparator keys cols hidden = Ok rc → Forall consistent rc.
Proof.
  revert rc. induction keys as [|k keys IH]; intros rc; cbn; [intros [= <-]; constructor|].
  destruct (_ || _); [done|]. destruct (cols !! _) as [col|]; [|done].
  intros (c & Hc & (rc' & Hrc & [= <-])%result_bind_ok)%result_bind_ok. constructor; [|by apply IH].
  unfold ComparatorFor in Hc. destruct (decide _); [done|]. destruct (_ && _); [done|]. by simplify_eq.
Qed.

(** Decoding a row's ordering columns once and comparing the decoded keys
    orders rows as comparing them column by column does: the merge's
    optimisation changes no answer.  And if every column can be decoded the
    column-by-column comparison never fails. *)
Theorem Compare_is_CompareKeys keys cols hidden rc a b ka kb :
  NewRowComparator keys cols hidden = Ok rc → KeyOf rc a = Ok ka → KeyOf rc b = Ok kb →
  Compare rc a b = Ok (CompareKeys rc ka kb).
Proof.
  intros Hrc%NewRowComparator_consistent. revert ka kb. induction Hrc as [|k rc Hk _ IH]; intros ka kb; cbn [KeyOf Compare CompareKeys]; [done|].
  destruct (a !! rk_Column k) as [[x|]|], (b !! rk_Column k) as [[y|]|]; try done.
  all: repeat intros (? & ? & ?)%result_bind_ok; repeat match goal with H : (_ ≫= _) = Ok _ |- _ => apply result_bind_ok in H as (? & ? & ?) end;
    simplify_eq; cbn [keyCol tail]; try done.
  - rewrite Hk. repeat match goal with H : rk_dec k _ = Ok _ |- _ => rewrite H; clear H end. cbn [mbind result_bind].
    cbv zeta. destruct (_ =? 0); [by apply IH|done].
  - by apply IH.
Qed.

End Laws.
