(* ===== verification/ScatterMerge.v ===== *)
(** * Merging the shards' rows ([src/internal/router/scatter/merge.go])

    The rows of the shards' streams are concatenated or merged in order, then
    OFFSET and LIMIT are applied and the columns the router added are dropped.
    The heap is the list of its elements, popped at the least: its elements
    are never equal ([heads_total]), so no order of the heap's array shows. *)

From S2P Require Import Prelude ScatterCompare.

Local Open Scope Z_scope.

(** ** Streams *)

(** What a shard's stream will return: rows, then its end or an error. *)
Record Source := mkSource { s_rows : list row; s_end : option string }.
Definition Next (s : Source) : result sc_err (option row) * Source :=
  match s_rows s with
  | r :: rows => (Ok (Some r), mkSource rows (s_end s))
  | [] => (match s_end s with None => Ok None | Some e => Err (External e) end, s)
  end.

(** ** OFFSET, LIMIT, hidden columns *)

(** [plan.Merge]'s limits and widths; -1 is no limit, no offset. *)
Record limits := mkLimits { Limit : Z; Offset : Z; Hidden : nat; width : nat }.
(** The rows seen, the rows emitted and counted, and what the client got. *)
Record limiter := mkLimiter { seen : Z; emitted : Z; got : list row }.

Section Merge.
Context `{Lib}.
(** Whether the client's connection takes a row, after those it got. *)
Variables (emit : list row → row → option string) (spec : limits).

Definition done_ (l : limiter) : bool := (0 <=? Limit spec) && (Limit spec <=? emitted l).

Definition push (l : limiter) (r : row) : option sc_err * limiter :=
  if negb (length r =? width spec)%nat then (Some (Internal "shard row width"), l)
  else
    let l := mkLimiter (seen l + 1) (emitted l) (got l) in
    if (0 <? Offset spec) && (seen l <=? Offset spec) then (None, l)
    else if done_ l then (None, l)
    else
      let l := mkLimiter (seen l) (emitted l + 1) (got l) in
      if (length r <? Hidden spec)%nat then (Some ErrPanic, l)
      else
        let r := take (length r - Hidden spec) r in
        match emit (got l) r with
        | Some e => (Some (External e), l)
        | None => (None, mkLimiter (seen l) (emitted l) (got l ++ [r]))
        end.

(** ** No order: one stream after the other *)

Fixpoint copySource (rows : list row) (fin : option string) (l : limiter) : option sc_err * limiter :=
  if done_ l then (None, l)
  else match rows with
       | r :: rows =>
           match push l r with
           | (Some e, l) => (Some e, l)
           | (None, l) => copySource rows fin l
           end
       | [] => (External <$> fin, l)
       end.
Fixpoint concatenate (sources : list Source) (l : limiter) : option sc_err * limiter :=
  match sources with
  | [] => (None, l)
  | s :: sources =>
      match copySource (s_rows s) (s_end s) l with
      | (Some e, l) => (Some e, l)
      | (None, l) => concatenate sources l
      end
  end.

(** ** In order: the k-way merge *)

Record headRow := mkHeadRow { h_row : row; h_src : nat; h_key : list (option value) }.

Definition Less (rc : RowComparator) (a b : headRow) : bool :=
  let c := CompareKeys rc (h_key a) (h_key b) in
  if c =? 0 then (h_src a <? h_src b)%nat else c <? 0.

(** [heap.Pop]: the least element and the others. *)
Fixpoint popLeast (rc : RowComparator) (x : headRow) (h : list headRow) : headRow * list headRow :=
  match h with
  | [] => (x, [])
  | y :: h =>
      if Less rc y x then let '(m, rest) := popLeast rc y h in (m, x :: rest)
      else let '(m, rest) := popLeast rc x h in (m, y :: rest)
  end.

(** The next row of source [i] joins the heap. *)
Definition advance (rc : RowComparator) (i : nat) (s : Source) (h : list headRow) :
    result sc_err (list headRow * Source) :=
  match Next s with
  | (Err e, _) => Err e
  | (Ok None, s) => Ok (h, s)
  | (Ok (Some r), s) => key ← KeyOf rc r; Ok (mkHeadRow r i key :: h, s)
  end.

Fixpoint fillHeap (rc : RowComparator) (i : nat) (sources : list Source) (h : list headRow) :
    result sc_err (list headRow * list Source) :=
  match sources with
  | [] => Ok (h, [])
  | s :: sources =>
      '(h, s) ← advance rc i s h;
      '(h, sources) ← fillHeap rc (S i) sources h;
      Ok (h, s :: sources)
  end.

Fixpoint mergeLoop (rc : RowComparator) (fuel : nat) (h : list headRow) (sources : list Source) (l : limiter) :
    option sc_err * limiter :=
  match fuel with
  | O => (None, l)
  | S fuel =>
      match h with
      | [] => (None, l)
      | x :: h =>
          if done_ l then (None, l)
          else
            let '(top, h) := popLeast rc x h in
            match push l (h_row top) with
            | (Some e, l) => (Some e, l)
            | (None, l) =>
                match sources !! h_src top with
                | None => (Some ErrPanic, l)
                | Some s =>
                    match advance rc (h_src top) s h with
                    | Err e => (Some e, l)
                    | Ok (h, s) => mergeLoop rc fuel h (<[h_src top := s]> sources) l
                    end
                end
            end
      end
  end.

(** Every round takes one row off the heap or the streams, so the rows they
    hold, and one round more to see them empty, are enough. *)
Definition rowsLeft (h : list headRow) (sources : list Source) : nat :=
  (length h + sum_list_with (length ∘ s_rows) sources)%nat.

Definition mergeOrdered (keys : list PlanKey) (cols : list Column) (sources : list Source) (l : limiter) :
    option sc_err * limiter :=
  match NewRowComparator keys cols (Z.of_nat (Hidden spec)) with
  | Err e => (Some e, l)
  | Ok rc =>
      match fillHeap rc 0 sources [] with
      | Err e => (Some e, l)
      | Ok (h, sources) => mergeLoop rc (S (rowsLeft h sources)) h sources l
      end
  end.

(** ** What OFFSET and LIMIT leave *)

Definition window {A} (rows : list A) : list A :=
  let rows := drop (Z.to_nat (Offset spec)) rows in
  if 0 <=? Limit spec then take (Z.to_nat (Limit spec)) rows else rows.
Definition strip (r : row) : row := take (width spec - Hidden spec) r.

(** The limiter after [rows] were pushed. *)
Definition limited (l : limiter) (rows : list row) : Prop :=
  seen l = Z.of_nat (length rows) ∧ emitted l = Z.of_nat (length (got l)) ∧ got l = strip <$> window rows.

Definition fits (r : row) : Prop := length r = width spec.
(** The client takes every row; the columns to drop are there. *)
Definition client_reads : Prop := ∀ got r, emit got r = None.
Definition hidden_ok : Prop := (Hidden spec ≤ width spec)%nat.

Lemma window_snoc {A} (rows : list A) r :
  window (rows ++ [r]) =
  window rows ++
    if (0 <? Offset spec) && (Z.of_nat (length rows) + 1 <=? Offset spec) ||
       (0 <=? Limit spec) && (Limit spec <=? Z.of_nat (length (window rows)))
    then [] else [r].
Proof.
  unfold window. destruct (decide (length rows < Z.to_nat (Offset spec))%nat) as [Ho|Ho].
  - rewrite (proj2 (Z.ltb_lt 0 _)), (proj2 (Z.leb_le _ (Offset spec))) by lia. cbn [andb orb]. rewrite app_nil_r.
    rewrite !drop_ge by (rewrite ?length_app; cbn; lia). done.
  - assert ((0 <? Offset spec) && (Z.of_nat (length rows) + 1 <=? Offset spec) = false) as ->.
    { apply andb_false_iff. destruct (Z.ltb_spec 0 (Offset spec)); [right; apply Z.leb_gt; lia|by left]. }
    rewrite drop_app_le by lia. cbn [orb]. destruct (Z.leb_spec 0 (Limit spec)) as [Hl|Hl]; [|done]. cbn [andb].
    set (d := drop _ rows). rewrite length_take. destruct (Z.leb_spec (Limit spec) (Z.of_nat (Z.to_nat (Limit spec) `min` length d))).
    + rewrite take_app_le, app_nil_r by lia. done.
    + rewrite !take_ge by (rewrite ?length_app; cbn; lia). done.
Qed.

Lemma window_done {A} (rows more : list A) :
  (0 <=? Limit spec) && (Limit spec <=? Z.of_nat (length (window rows))) = true → window (rows ++ more) = window rows.
Proof.
  unfold window. intros [Hl Hd]%andb_true_iff. rewrite Hl in *. apply Z.leb_le in Hl, Hd.
  rewrite length_take in Hd. destruct (decide (Limit spec = 0)) as [->|Hn]; [done|].
  assert (Z.to_nat (Offset spec) ≤ length rows)%nat as Ho.
  { rewrite length_drop in Hd. lia. }
  rewrite drop_app_le by done. rewrite take_app_le by lia. done.
Qed.

Lemma limited_nil : limited (mkLimiter 0 0 []) [].
Proof. unfold limited, window. cbn. rewrite drop_nil, take_nil. by destruct (0 <=? Limit spec). Qed.

Lemma done_limited l rows :
  limited l rows → done_ l = (0 <=? Limit spec) && (Limit spec <=? Z.of_nat (length (window rows))).
Proof. intros (_ & He & Hg). unfold done_. by rewrite He, Hg, length_fmap. Qed.

Lemma push_limited l rows r :
  client_reads → hidden_ok → limited l rows → fits r → ∃ l', push l r = (None, l') ∧ limited l' (rows ++ [r]).
Proof.
  intros Hc Hh Hl Hr. pose proof (done_limited _ _ Hl) as Hd. destruct Hl as (Hs & He & Hg).
  unfold push. rewrite (proj2 (Nat.eqb_eq _ _) Hr). cbn [negb seen]. unfold limited. rewrite window_snoc.
  rewrite Hs. destruct ((0 <? Offset spec) && _); cbn [orb].
  { eexists. split; [done|]. cbn. rewrite app_nil_r, length_app. cbn. split_and!; [lia|done..]. }
  replace (done_ _) with (done_ l) by done. rewrite Hd. destruct (_ && _).
  { eexists. split; [done|]. cbn. rewrite app_nil_r, length_app. cbn. split_and!; [lia|done..]. }
  rewrite (proj2 (Nat.ltb_ge _ _)) by (rewrite Hr; apply Hh). rewrite Hc. eexists. split; [done|]. cbn.
  rewrite fmap_app, !length_app, Hr, Hg. cbn. split_and!; [lia|rewrite He, Hg; lia|done].
Qed.

(** ** The order of the merge *)

(** By key, then by shard. *)
Definition hcmp (rc : RowComparator) (a b : headRow) : Z :=
  let c := CompareKeys rc (h_key a) (h_key b) in
  if c =? 0 then cmp3 (Z.of_nat (h_src a)) (Z.of_nat (h_src b)) else c.

#[export] Instance hcmp_ThreeWay rc : ThreeWay (hcmp rc).
Proof.
  apply (ThreeWay_lex (λ a b, CompareKeys rc (h_key a) (h_key b)) (λ a b, cmp3 (Z.of_nat (h_src a)) (Z.of_nat (h_src b)))).
  - apply (ThreeWay_map h_key), _.
  - apply (ThreeWay_map (λ a, Z.of_nat (h_src a))), _.
Qed.

Lemma Less_hcmp rc a b : Less rc a b = (hcmp rc a b <? 0).
Proof.
  unfold Less, hcmp, cmp3. destruct (_ =? 0); [|done].
  destruct (Nat.ltb_spec (h_src a) (h_src b)), (Z.ltb_spec (Z.of_nat (h_src a)) (Z.of_nat (h_src b)));
    (lia || by destruct (Z.of_nat (h_src b) <? Z.of_nat (h_src a))).
Qed.

Lemma hcmp_zero rc a b : hcmp rc a b = 0 → h_src a = h_src b.
Proof. unfold hcmp, cmp3. repeat case_match; lia. Qed.

(** Two heads of different shards are never equal. *)
Lemma heads_total rc a b : h_src a ≠ h_src b → Less rc a b = negb (Less rc b a).
Proof.
  intros Hn. rewrite !Less_hcmp. pose proof (cmp_anti (cmp := hcmp rc) a b). pose proof (hcmp_zero rc a b).
  destruct (Z.ltb_spec (hcmp rc a b) 0), (Z.ltb_spec (hcmp rc b a) 0); cbn; try done; lia.
Qed.

Lemma popLeast_perm rc x h : let '(m, rest) := popLeast rc x h in m :: rest ≡ₚ x :: h.
Proof.
  revert x. induction h as [|y h IH]; intros x; cbn; [done|]. destruct (Less rc y x).
  - specialize (IH y). destruct (popLeast rc y h) as [m rest]. by rewrite Permutation_swap, IH.
  - specialize (IH x). destruct (popLeast rc x h) as [m rest]. rewrite Permutation_swap, IH. apply Permutation_swap.
Qed.

Lemma popLeast_least rc x h : let '(m, _) := popLeast rc x h in Forall (λ y, hcmp rc m y ≤ 0) (x :: h).
Proof.
  revert x. induction h as [|y h IH]; intros x; cbn.
  - constructor; [|constructor]. by rewrite (cmp_refl (cmp := hcmp rc)).
  - rewrite Less_hcmp. destruct (Z.ltb_spec (hcmp rc y x) 0) as [Hl|Hl].
    + specialize (IH y). destruct (popLeast rc y h) as [m rest]. constructor; [|done].
      apply Forall_cons in IH as [Hy _]. apply (cmp_trans (cmp := hcmp rc) m y x); lia.
    + specialize (IH x). destruct (popLeast rc x h) as [m rest]. apply Forall_cons in IH as [Hx Hh].
      constructor; [done|]. constructor; [|done]. apply (cmp_trans (cmp := hcmp rc) m x y); [done|].
      rewrite (cmp_anti (cmp := hcmp rc)). lia.
Qed.

(** ** Merging lists *)

(** [Merged rc pend out]: [out] takes the lists of [pend] apart, a least head at
    a time. *)
Inductive Merged (rc : RowComparator) : list (list headRow) → list headRow → Prop :=
| Merged_nil pend : Forall (λ l, l = []) pend → Merged rc pend []
| Merged_cons pend i x xs out :
    pend !! i = Some (x :: xs) →
    (∀ j y ys, pend !! j = Some (y :: ys) → hcmp rc x y ≤ 0) →
    Merged rc (<[i := xs]> pend) out →
    Merged rc pend (x :: out).

Definition pendingRows (pend : list (list headRow)) : nat := sum_list_with length pend.

Lemma pendingRows_insert pend i x xs :
  pend !! i = Some (x :: xs) → pendingRows pend = S (pendingRows (<[i := xs]> pend)).
Proof.
  unfold pendingRows. revert i. induction pend as [|l pend IH]; intros [|i] Hi; cbn in *; simplify_eq; [cbn; lia|].
  rewrite (IH i Hi), Nat.add_succ_r. reflexivity.
Qed.

Lemma least_head rc pend :
  Forall (λ l, l = []) pend ∨
  ∃ i x xs, pend !! i = Some (x :: xs) ∧ ∀ j y ys, pend !! j = Some (y :: ys) → hcmp rc x y ≤ 0.
Proof.
  induction pend as [|l pend IH]; [by left|]. destruct IH as [Hall|(i & x & xs & Hi & Hx)]; destruct l as [|z zs].
  - left. by constructor.
  - right. exists 0%nat, z, zs. split; [done|]. intros [|j] y ys Hj; cbn in Hj.
    + simplify_eq. by rewrite (cmp_refl (cmp := hcmp rc)).
    + rewrite Forall_lookup in Hall. by apply Hall in Hj.
  - right. exists (S i), x, xs. split; [done|]. intros [|j] y ys Hj; cbn in Hj; [done|by eapply Hx].
  - destruct (cmp_total (hcmp rc) x z) as [Hz|Hz].
    + right. exists (S i), x, xs. split; [done|]. intros [|j] y ys Hj; cbn in Hj; [by simplify_eq|by eapply Hx].
    + right. exists 0%nat, z, zs. split; [done|]. intros [|j] y ys Hj; cbn in Hj.
      * simplify_eq. by rewrite (cmp_refl (cmp := hcmp rc)).
      * apply (cmp_trans (cmp := hcmp rc) z x y); [lia|by eapply Hx].
Qed.

Lemma Merged_exists rc pend : ∃ out, Merged rc pend out.
Proof.
  remember (pendingRows pend) as n eqn:Hn. revert pend Hn. induction n as [|n IH]; intros pend Hn.
  all: destruct (least_head rc pend) as [Hall|(i & x & xs & Hi & Hx)]; [by exists []; constructor|].
  all: rewrite (pendingRows_insert _ _ _ _ Hi) in Hn.
  - done.
  - destruct (IH (<[i := xs]> pend)) as [out Hout]; [lia|]. exists (x :: out). by econstructor.
Qed.

(** Each list's elements carry its index. *)
Definition tagged (pend : list (list headRow)) : Prop :=
  ∀ i l, pend !! i = Some l → Forall (λ x, h_src x = i) l.

Lemma tagged_insert pend i x xs : tagged pend → pend !! i = Some (x :: xs) → tagged (<[i := xs]> pend).
Proof.
  intros Ht Hi j l Hj. apply list_lookup_insert_Some in Hj as [(<- & <- & _)|[Hne Hj]]; [|by eapply Ht].
  apply Ht in Hi. by apply Forall_cons in Hi as [_ ?].
Qed.

Lemma Merged_filter rc pend out :
  Merged rc pend out → tagged pend → ∀ i l, pend !! i = Some l → filter (λ x, h_src x = i) out = l.
Proof.
  induction 1 as [pend Hall|pend i x xs out Hi Hx Hm IH]; intros Ht j l Hj.
  { rewrite Forall_lookup in Hall. by rewrite (Hall _ _ Hj). }
  pose proof (Ht _ _ Hi) as [Hsrc _]%Forall_cons. rewrite filter_cons. case_decide as E.
  - assert (j = i) as -> by congruence. simplify_eq. f_equal. apply IH; [by eapply tagged_insert|].
    apply list_lookup_insert_eq. by eapply lookup_lt_Some.
  - apply IH; [by eapply tagged_insert|]. rewrite list_lookup_insert_ne by congruence. done.
Qed.

Lemma Merged_elem rc pend out x : Merged rc pend out → x ∈ out → ∃ i l, pend !! i = Some l ∧ x ∈ l.
Proof.
  induction 1 as [pend Hall|pend i y ys out Hi Hy Hm IH]; [by intros ?%not_elem_of_nil|].
  intros [->|Hin]%elem_of_cons; [exists i, (y :: ys); split; [done|by left]|].
  destruct (IH Hin) as (j & l & Hj & Hl). apply list_lookup_insert_Some in Hj as [(<- & <- & _)|[_ Hj]].
  - exists i, (y :: ys). split; [done|by right].
  - by exists j, l.
Qed.

Definition before (rc : RowComparator) (a b : headRow) : Prop := hcmp rc a b ≤ 0.

Lemma Merged_sorted rc pend out :
  Merged rc pend out → Forall (StronglySorted (before rc)) pend → StronglySorted (before rc) out.
Proof.
  induction 1 as [pend Hall|pend i x xs out Hi Hx Hm IH]; intros Hs; [constructor|].
  rewrite Forall_lookup in Hs. pose proof (Hs _ _ Hi) as Hxs. apply StronglySorted_inv in Hxs as [Hxs Hxx].
  assert (Forall (StronglySorted (before rc)) (<[i := xs]> pend)) as Hs'.
  { apply Forall_lookup. intros j l Hj. apply list_lookup_insert_Some in Hj as [(<- & <- & _)|[_ Hj]]; [done|by eapply Hs]. }
  constructor; [by apply IH|]. apply Forall_forall. intros y Hy.
  destruct (Merged_elem _ _ _ _ Hm Hy) as (j & l & Hj & Hl).
  apply list_lookup_insert_Some in Hj as [(<- & <- & _)|[_ Hj]]; [by rewrite Forall_forall in Hxx; apply Hxx|].
  destruct l as [|z zs]; [by apply elem_of_nil in Hl|]. apply Hx in Hj as Hxz.
  apply elem_of_cons in Hl as [->|Hl]; [done|]. apply (cmp_trans (cmp := hcmp rc) x z y); [done|].
  apply Hs in Hj. apply StronglySorted_inv in Hj as [_ Hz]. rewrite Forall_forall in Hz. by apply Hz.
Qed.

(** ** The loop merges *)

Definition heads (pend : list (list headRow)) : list headRow := omap head pend.

Lemma heads_insert pend i x xs :
  pend !! i = Some (x :: xs) →
  ∃ rest, heads pend ≡ₚ x :: rest ∧ heads (<[i := xs]> pend) ≡ₚ option_list (head xs) ++ rest.
Proof.
  revert i. induction pend as [|l pend IH]; intros [|i] Hi; cbn in Hi; simplify_eq.
  - exists (heads pend). split; [done|]. unfold heads. cbn. by destruct xs.
  - destruct (IH i Hi) as (rest & H1 & H2). exists (option_list (head l) ++ rest).
    change (<[S i := xs]> (l :: pend)) with (l :: <[i := xs]> pend). unfold heads in *. cbn [omap list_omap].
    destruct l as [|z l]; cbn [head option_list app]; [done|]. rewrite H1, H2. split.
    + apply Permutation_swap.
    + by rewrite Permutation_middle.
Qed.

Lemma heads_empty pend : Forall (λ l, l = []) pend → heads pend = [].
Proof. induction 1 as [|l pend -> _ IH]; [done|exact IH]. Qed.

Lemma elem_of_heads pend x : x ∈ heads pend ↔ ∃ i xs, pend !! i = Some (x :: xs).
Proof.
  unfold heads. rewrite list_elem_of_omap. split.
  - intros (l & Hl & Hx). apply list_elem_of_lookup in Hl as [i Hi]. destruct l as [|y l]; simplify_eq/=. by exists i, l.
  - intros (i & xs & Hi). exists (x :: xs). split; [by eapply list_elem_of_lookup_2|done].
Qed.

(** What the rows of a source decode to. *)
Definition decoded (rc : RowComparator) (rows : list row) (l : list headRow) : Prop :=
  Forall2 (λ r t, KeyOf rc r = Ok (h_key t) ∧ h_row t = r) rows l.

Record merging (rc : RowComparator) (pend : list (list headRow)) (h : list headRow) (sources : list Source) : Prop := {
  mg_tagged : tagged pend;
  mg_heads : h ≡ₚ heads pend;
  mg_sources : Forall2 (λ l s, s_end s = None ∧ decoded rc (s_rows s) (tail l)) pend sources;
  mg_fits : Forall (Forall (λ t, fits (h_row t))) pend }.

Lemma Merged_length rc pend out : Merged rc pend out → length out = pendingRows pend.
Proof.
  induction 1 as [pend Hall|pend i x xs out Hi Hx Hm IH].
  - unfold pendingRows. induction Hall as [|l pend -> _ IH]; [done|exact IH].
  - rewrite (pendingRows_insert _ _ _ _ Hi). cbn. by rewrite IH.
Qed.

Lemma merging_rowsLeft rc pend h sources : merging rc pend h sources → rowsLeft h sources = pendingRows pend.
Proof.
  intros [_ Hh Hs _]. unfold rowsLeft, pendingRows. rewrite Hh. clear Hh.
  induction Hs as [|l s pend sources [_ Hd] _ IH]; [done|]. apply Forall2_length in Hd. unfold heads in *.
  cbn [omap list_omap sum_list_with]. rewrite <- IH. cbn in *. rewrite Hd. destruct l as [|x l]; cbn; lia.
Qed.

(** The top of the heap is the head [Merged] takes. *)
Lemma popLeast_merged rc pend i x xs y h :
  tagged pend → y :: h ≡ₚ heads pend → pend !! i = Some (x :: xs) →
  (∀ j z zs, pend !! j = Some (z :: zs) → hcmp rc x z ≤ 0) →
  ∃ rest, popLeast rc y h = (x, rest) ∧ x :: rest ≡ₚ heads pend.
Proof.
  intros Ht Hh Hi Hx. pose proof (popLeast_perm rc y h) as Hp. pose proof (popLeast_least rc y h) as Hl.
  destruct (popLeast rc y h) as [top rest]. rewrite Hh in Hp.
  assert (top ∈ heads pend) as Htop by (rewrite <- Hp; by left).
  apply elem_of_heads in Htop as (j & ys & Hj).
  assert (hcmp rc top x ≤ 0) as Htx.
  { rewrite Forall_forall in Hl. apply Hl. rewrite Hh. apply elem_of_heads. by exists i, xs. }
  assert (hcmp rc x top = 0) as H0.
  { pose proof (cmp_anti (cmp := hcmp rc) top x). pose proof (Hx _ _ _ Hj). lia. }
  apply hcmp_zero in H0. pose proof (Ht _ _ Hi) as [Hsi _]%Forall_cons. pose proof (Ht _ _ Hj) as [Hsj _]%Forall_cons.
  assert (j = i) as -> by congruence. simplify_eq. by exists rest.
Qed.

Lemma advance_merging rc pend h sources i x xs rest :
  merging rc pend h sources → pend !! i = Some (x :: xs) → x :: rest ≡ₚ heads pend →
  ∃ s h' s', sources !! i = Some s ∧ advance rc i s rest = Ok (h', s') ∧
    merging rc (<[i := xs]> pend) h' (<[i := s']> sources).
Proof.
  intros [Ht Hh Hs Hf] Hi Hrest. destruct (Forall2_lookup_l _ _ _ _ _ Hs Hi) as (s & Hsi & Hend & Hd). exists s.
  destruct (heads_insert _ _ _ _ Hi) as (rest' & H1 & H2). rewrite <- Hrest in H1. apply Permutation_cons_inv in H1.
  assert (Forall (Forall (λ t, fits (h_row t))) (<[i := xs]> pend)) as Hf'.
  { apply Forall_insert; [done|]. rewrite Forall_lookup in Hf. by apply Hf in Hi as [_ ?]%Forall_cons. }
  pose proof (tagged_insert _ _ _ _ Ht Hi) as Ht'.
  unfold advance, Next. cbn [tail] in Hd. unfold decoded in Hd.
  destruct (s_rows s) as [|r rows] eqn:Hr; [apply Forall2_nil_inv_l in Hd as ->|apply Forall2_cons_inv_l in Hd as (z & zs & [Hkey <-] & Hzs & ->)].
  - rewrite Hend. exists rest, s. split_and!; [done..|]. split; [done|by rewrite H2|..|done].
    apply Forall2_insert; [done|]. split; [done|]. rewrite Hr. constructor.
  - rewrite Hkey. cbn [mbind result_bind]. exists (z :: rest), (mkSource rows (s_end s)). split_and!; [done| |].
    + do 3 f_equal. assert (h_src z = i) as <-; [|by destruct z].
      assert (Forall (λ x, h_src x = i) (z :: zs)) as [? _]%Forall_cons; [|done].
      apply Ht'. apply list_lookup_insert_eq. by eapply lookup_lt_Some.
    + split; [done|by rewrite H2, H1|..|done]. apply Forall2_insert; [done|]. by split.
Qed.

Lemma mergeLoop_merged rc pend out h sources fuel l rows :
  client_reads → hidden_ok → Merged rc pend out → merging rc pend h sources → (length out < fuel)%nat → limited l rows →
  ∃ l', mergeLoop rc fuel h sources l = (None, l') ∧ got l' = strip <$> window (rows ++ (h_row <$> out)).
Proof.
  intros Hc Hhid Hm. revert h sources fuel l rows.
  induction Hm as [pend Hall|pend i x xs out Hi Hx Hm IH]; intros h sources fuel l rows Hg Hfuel Hl.
  - exists l. assert (h = []) as ->.
    { apply Permutation_nil_r. by rewrite (mg_heads _ _ _ _ Hg), heads_empty. }
    split; [by destruct fuel|]. rewrite app_nil_r. apply Hl.
  - destruct fuel as [|fuel]; [lia|]. cbn [mergeLoop]. destruct h as [|y h].
    { pose proof (mg_heads _ _ _ _ Hg) as Hh. destruct (heads_insert _ _ _ _ Hi) as (rest & Hr & _). rewrite Hr in Hh.
      by apply Permutation_nil_cons in Hh. }
    destruct (done_ l) eqn:Hd.
    { exists l. split; [done|]. rewrite (done_limited _ _ Hl) in Hd. rewrite window_done by done. apply Hl. }
    destruct (popLeast_merged rc pend i x xs y h (mg_tagged _ _ _ _ Hg) (mg_heads _ _ _ _ Hg) Hi Hx) as (rest & -> & Hrest).
    pose proof (mg_fits _ _ _ _ Hg) as Hf. rewrite Forall_lookup in Hf. apply Hf in Hi as Hfx. apply Forall_cons in Hfx as [Hfx _].
    destruct (push_limited l rows (h_row x) Hc Hhid Hl Hfx) as (l1 & -> & Hl1).
    assert (h_src x = i) as -> by (by apply (mg_tagged _ _ _ _ Hg) in Hi as [? _]%Forall_cons).
    destruct (advance_merging _ _ _ _ _ _ _ _ Hg Hi Hrest) as (s & h' & s' & -> & -> & Hg').
    destruct (IH h' (<[i := s']> sources) fuel l1 (rows ++ [h_row x]) Hg') as (l' & -> & Hgot); [cbn in Hfuel; lia|done|].
    exists l'. split; [done|]. rewrite Hgot. cbn. by rewrite <- app_assoc.
Qed.

(** ** The whole merge *)

(** Row [a] may come before row [b]. *)
Definition row_le (rc : RowComparator) (a b : row) : Prop :=
  ∃ ka kb, KeyOf rc a = Ok ka ∧ KeyOf rc b = Ok kb ∧ CompareKeys rc ka kb ≤ 0.
Definition readable (rc : RowComparator) (r : row) : Prop := ∃ k, KeyOf rc r = Ok k.

(** A shard's stream as the merge expects it: it ends well, its rows are of
    the described width, their ordering columns can be read, and they come in
    order. *)
Definition ordered_source (rc : RowComparator) (s : Source) : Prop :=
  s_end s = None ∧ Forall (λ r, fits r ∧ readable rc r) (s_rows s) ∧ Sorted (row_le rc) (s_rows s).

(** Row [a] of shard [i] comes before row [b] of shard [j]: by the order, and
    between equals by the shard. *)
Definition merge_le (rc : RowComparator) (x y : nat * row) : Prop :=
  ∃ kx ky, KeyOf rc x.2 = Ok kx ∧ KeyOf rc y.2 = Ok ky ∧
    (CompareKeys rc kx ky < 0 ∨ CompareKeys rc kx ky = 0 ∧ (x.1 ≤ y.1)%nat).

Lemma readable_decoded rc i rows :
  Forall (λ r, fits r ∧ readable rc r) rows →
  ∃ l, decoded rc rows l ∧ Forall (λ t, h_src t = i) l ∧ Forall (λ t, fits (h_row t)) l.
Proof.
  induction 1 as [|r rows [Hf [k Hk]] _ (l & Hd & Hs & Hl)]; [by exists []; repeat constructor|].
  exists (mkHeadRow r i k :: l). repeat constructor; done.
Qed.

Lemma decoded_sorted rc i rows l :
  decoded rc rows l → Forall (λ t, h_src t = i) l → Sorted (row_le rc) rows → StronglySorted (before rc) l.
Proof.
  intros Hd Hs Hsort. apply Sorted_StronglySorted.
  { intros a b c. apply (cmp_trans (cmp := hcmp rc)). }
  induction Hd as [|r t rows l [Hk <-] Hd IH]; [constructor|]. apply Sorted_inv in Hsort as [Hsort Hhd].
  apply Forall_cons in Hs as [Ht Hs]. constructor; [by apply IH|].
  destruct Hd as [|r' t' rows l [Hk' <-] Hd]; constructor. apply HdRel_inv in Hhd as (ka & kb & Ha & Hb & Hc).
  rewrite Hk in Ha. rewrite Hk' in Hb. injection Ha as <-. injection Hb as <-.
  apply Forall_cons in Hs as [Ht' _]. unfold before, hcmp. rewrite Ht, Ht'.
  destruct (_ =? 0); [by rewrite (cmp_refl (cmp := cmp3))|done].
Qed.

(** The heap and the streams once every stream's first row is read. *)
Lemma fillHeap_merging rc sources i h0 :
  Forall (λ s, s_end s = None ∧ Forall (λ r, fits r ∧ readable rc r) (s_rows s)) sources →
  ∃ pend h sources', fillHeap rc i sources h0 = Ok (h, sources') ∧ h ≡ₚ heads pend ++ h0 ∧
    (∀ k l, pend !! k = Some l → Forall (λ t, h_src t = (i + k)%nat) l) ∧
    Forall2 (λ l s, s_end s = None ∧ decoded rc (s_rows s) (tail l)) pend sources' ∧
    Forall (Forall (λ t, fits (h_row t))) pend ∧
    Forall2 (λ l s, decoded rc (s_rows s) l) pend sources.
Proof.
  intros Hall. revert i h0. induction Hall as [|s sources [Hend Hrows] _ IH]; intros i h0.
  { exists [], h0, []. split_and!; [done..|constructor|constructor|constructor]. }
  destruct (readable_decoded rc i _ Hrows) as (l & Hd & Hs & Hl).
  assert (∃ s', advance rc i s h0 = Ok (option_list (head l) ++ h0, s') ∧ s_end s' = None ∧ decoded rc (s_rows s') (tail l))
    as (s' & Hadv & Hend' & Hd').
  { unfold advance, Next, decoded in *. destruct (s_rows s) as [|r rows] eqn:Hr.
    { apply Forall2_nil_inv_l in Hd as ->. rewrite Hend. exists s. rewrite Hr. repeat constructor. done. }
    apply Forall2_cons_inv_l in Hd as (t & ts & [Hk <-] & Hd & ->). rewrite Hk. exists (mkSource rows (s_end s)).
    split; [|done]. apply Forall_cons in Hs as [<- _]. by destruct t. }
  destruct (IH (S i) (option_list (head l) ++ h0)) as (pend & h & sources' & Hf & Hh & Ht & Hs2 & Hfit & Hd2).
  exists (l :: pend), h, (s' :: sources'). cbn [fillHeap]. rewrite Hadv. cbn [mbind result_bind]. rewrite Hf. cbn [mbind result_bind].
  split_and!; [done|..].
  - rewrite Hh. unfold heads. cbn [omap list_omap]. destruct l as [|t l]; cbn; [done|]. by rewrite Permutation_middle.
  - intros [|k] l' Hk; cbn in Hk; simplify_eq; [by rewrite Nat.add_0_r|]. rewrite Nat.add_succ_r. by apply Ht.
  - by constructor.
  - by constructor.
  - by constructor.
Qed.

Lemma filter_src i (out : list headRow) :
  snd <$> filter (λ x : nat * row, x.1 = i) ((λ t, (h_src t, h_row t)) <$> out) = h_row <$> filter (λ t, h_src t = i) out.
Proof.
  induction out as [|t out IH]; [done|]. cbn [fmap list_fmap]. rewrite !filter_cons. cbn [fst].
  case_decide; [|done]. cbn [fmap list_fmap snd]. by rewrite IH.
Qed.

Lemma mergeOrdered_spec keys cols sources rc :
  client_reads → hidden_ok →
  NewRowComparator keys cols (Z.of_nat (Hidden spec)) = Ok rc → Forall (ordered_source rc) sources →
  ∃ l out, mergeOrdered keys cols sources (mkLimiter 0 0 []) = (None, l) ∧
    got l = strip <$> window (snd <$> out) ∧
    StronglySorted (merge_le rc) out ∧
    (∀ i s, sources !! i = Some s → snd <$> filter (λ x, x.1 = i) out = s_rows s) ∧
    Forall (λ x, (x.1 < length sources)%nat) out.
Proof.
  intros Hc Hhid Hrc Hs.
  destruct (fillHeap_merging rc sources 0 []) as (pend & h & sources' & Hf & Hh & Ht & Hs2 & Hfit & Hd).
  { eapply Forall_impl; [exact Hs|]. intros s (? & ? & _). done. }
  rewrite app_nil_r in Hh. assert (tagged pend) as Htag by exact Ht.
  assert (merging rc pend h sources') as Hg by by split.
  destruct (Merged_exists rc pend) as [out Hm].
  destruct (mergeLoop_merged rc pend out h sources' (S (rowsLeft h sources')) (mkLimiter 0 0 []) [] Hc Hhid Hm Hg) as (l & Hl & Hgot).
  { rewrite (merging_rowsLeft _ _ _ _ Hg), (Merged_length _ _ _ Hm). lia. }
  { apply limited_nil. }
  exists l, ((λ t, (h_src t, h_row t)) <$> out).
  assert (Forall (λ t, KeyOf rc (h_row t) = Ok (h_key t) ∧ (h_src t < length sources)%nat) out) as Hout.
  { apply Forall_forall. intros t Htin. destruct (Merged_elem _ _ _ _ Hm Htin) as (i & ts & Hi & Hin).
    apply list_elem_of_lookup in Hin as [k Hk]. destruct (Forall2_lookup_l _ _ _ _ _ Hd Hi) as (s & Hsi & Hds).
    destruct (Forall2_lookup_r _ _ _ _ _ Hds Hk) as (r & _ & Hkey & <-). split; [done|].
    pose proof (Htag _ _ Hi) as Hti. rewrite Forall_lookup in Hti. rewrite (Hti _ _ Hk). by eapply lookup_lt_Some. }
  split_and!.
  - unfold mergeOrdered. by rewrite Hrc, Hf.
  - rewrite Hgot. cbn [app]. by rewrite <- list_fmap_compose.
  - assert (StronglySorted (before rc) out) as Hsort.
    { eapply Merged_sorted; [done|]. apply Forall_lookup. intros i ts Hi.
      destruct (Forall2_lookup_l _ _ _ _ _ Hd Hi) as (s & Hsi & Hds). rewrite Forall_lookup in Hs.
      destruct (Hs _ _ Hsi) as (_ & _ & Hsorted). eapply decoded_sorted; [done|by apply Htag|done]. }
    clear -Hsort Hout. induction Hsort as [|t out Hsort IH Hall]; [constructor|]. apply Forall_cons in Hout as [[Hk _] Hout].
    constructor; [by apply IH|]. rewrite Forall_forall in Hall, Hout. apply Forall_forall.
    intros x (t' & -> & Hin)%list_elem_of_fmap. specialize (Hall t' Hin). specialize (Hout t' Hin) as [Hk' _].
    exists (h_key t), (h_key t'). split_and!; [done..|]. unfold before, hcmp, cmp3 in Hall. cbn.
    destruct (Z.eqb_spec (CompareKeys rc (h_key t) (h_key t')) 0); [right|left; lia]. split; [done|].
    repeat case_match; lia.
  - intros i s Hi. destruct (Forall2_lookup_r _ _ _ _ _ Hd Hi) as (ts & Hts & Hds).
    rewrite filter_src, (Merged_filter _ _ _ Hm Htag _ _ Hts). clear -Hds. induction Hds as [|r t rows ts [_ <-] _ IH]; [done|]. cbn in *. by rewrite IH.
  - apply Forall_fmap. eapply Forall_impl; [exact Hout|]. by intros t [_ ?].
Qed.

(** ** Without an order *)

Definition plain_source (s : Source) : Prop := s_end s = None ∧ Forall fits (s_rows s).

Lemma copySource_spec l rows more :
  client_reads → hidden_ok → Forall fits more → limited l rows →
  ∃ l' rest, copySource more None l = (None, l') ∧ limited l' (rows ++ rest) ∧
    (rest = more ∨ ∀ others, window (rows ++ rest ++ others) = window (rows ++ rest)) ∧ rest `prefix_of` more.
Proof.
  intros Hc Hh Hf. revert l rows. induction Hf as [|r more Hr _ IH]; intros l rows Hl; cbn [copySource].
  - exists l, []. destruct (done_ l); rewrite app_nil_r; split_and!; (done || by left).
  - destruct (done_ l) eqn:Hd.
    { exists l, []. rewrite app_nil_r. split_and!; [done|done|right|by eexists].
      intros others. apply window_done. by rewrite <- (done_limited _ _ Hl). }
    destruct (push_limited l rows r Hc Hh Hl Hr) as (l1 & -> & Hl1).
    destruct (IH l1 _ Hl1) as (l' & rest & -> & Hl' & Hend & Hp). rewrite <- app_assoc in *. exists l', (r :: rest).
    split_and!; [done|done| |by apply prefix_cons]. destruct Hend as [->|Hend]; [by left|right].
    intros others. specialize (Hend others). by rewrite <- !app_assoc in Hend.
Qed.

Lemma concatenate_spec l rows sources :
  client_reads → hidden_ok → Forall plain_source sources → limited l rows →
  ∃ l', concatenate sources l = (None, l') ∧ got l' = strip <$> window (rows ++ mjoin (s_rows <$> sources)).
Proof.
  intros Hc Hh Hs. revert l rows. induction Hs as [|s sources [He Hf] _ IH]; intros l rows Hl; cbn [concatenate].
  { exists l. split; [done|]. cbn. rewrite app_nil_r. apply Hl. }
  rewrite He. destruct (copySource_spec l rows (s_rows s) Hc Hh Hf Hl) as (l1 & rest & -> & Hl1 & Hend & [tl Htl]).
  destruct (IH l1 _ Hl1) as (l' & -> & Hgot). exists l'. split; [done|]. rewrite Hgot. cbn [fmap list_fmap].
  rewrite mjoin_cons, <- app_assoc. destruct Hend as [->|Hend]; [done|].
  rewrite Htl, Hend, <- (app_assoc rest tl). by rewrite Hend.
Qed.

End Merge.
