(* ===== verification/ScatterAgg.v ===== *)
(** * Combining the shards' aggregates ([src/internal/router/scatter/merge.go],
    [average.go], [numericdiv.go], and the formatters of [compare.go])

    Every shard answers an aggregate query with one row; the router folds the
    rows into one.  IEEE arithmetic and the printing of floats are the class
    [FloatOps]. *)

From Stdlib Require Import QArith Qabs.
From Stdlib Require Qcanon.
From stdpp Require Import pretty.
From S2P Require Import Prelude ScatterCompare ScatterMerge.

Local Open Scope Z_scope.

Class FloatOps := {
  fadd : float64 → float64 → float64;
  fdiv : float64 → float64 → float64;
  float64_of_int : Z → float64;
  (** [float64(float32(f))] *)
  to_float32 : float64 → float64;
  Float64bits : float64 → Z;
  Float32bits : float64 → Z;
  (** [strconv.FormatFloat(f, fmt, -1, bits)] *)
  FormatFloatLib : Z → float64 → Z → bytes }.

(** [big.Int.String] *)
Definition itoa (z : Z) : bytes := bytes_of (pretty z).

(** ** Text and binary of numerics and floats *)

(** [big.Rat.FloatString]: [prec] digits after the point, halves away from
    zero. *)
Definition zeros (n : nat) : bytes := replicate n 48.
Definition FloatString (q : Q) (prec : Z) : bytes :=
  let q := Qred q in
  let p := 10 ^ prec in
  let a := Z.abs (Qnum q) in
  let d := Zpos (Qden q) in
  if d =? 1 then itoa (Qnum q) ++ (if 0 <? prec then 46 :: zeros (Z.to_nat prec) else [])
  else
    let n := a mod d * p in
    let r := n / d in
    let up := d <=? 2 * (n mod d) in
    let r := if up then r + 1 else r in
    let '(i, r) := if up && (p <=? r) then (a / d + 1, r - p) else (a / d, r) in
    let rs := itoa r in
    (if Qnum q <? 0 then [45] else []) ++ itoa i ++
    (if 0 <? prec then 46 :: zeros (Z.to_nat prec - length rs) ++ rs else []).

Section Format.
Context `{Lib, FloatOps}.

Definition formatNumeric (v : value) : bytes :=
  match v_class v with
  | classNaN => bytes_of "NaN"
  | classPosInf => bytes_of "Infinity"
  | classNegInf => bytes_of "-Infinity"
  | classFinite => FloatString (default 0%Q (v_rat v)) (v_scale v)
  end.

Definition encodeNumericBinary (v : value) : result sc_err bytes :=
  match v_class v with
  | classNaN => EncodeNumeric NumNaN
  | classPosInf => EncodeNumeric (NumInf false)
  | classNegInf => EncodeNumeric (NumInf true)
  | classFinite =>
      let scaled := Qred (default 0%Q (v_rat v) * inject_Z (10 ^ v_scale v)) in
      if (Qden scaled =? 1)%positive then EncodeNumeric (NumFin (Qnum scaled) (i32 (- v_scale v)))
      else Err (Internal "numeric does not fit scale")
  end.

(** [strings.Cut(s, "e")] *)
Fixpoint cutE (s : bytes) : bytes * bytes :=
  match s with
  | [] => ([], [])
  | c :: s => if c =? 101 then ([], s) else let '(a, b) := cutE s in (c :: a, b)
  end.
Definition formatFloatBits (f : float64) (bits : Z) : bytes :=
  let f := if bits =? 32 then to_float32 f else f in
  match f with
  | FNaN => bytes_of "NaN"
  | FInf false => bytes_of "Infinity"
  | FInf true => bytes_of "-Infinity"
  | FFin neg m =>
      if m =? 0 then (if neg then bytes_of "-0" else bytes_of "0")
      else
        let '(mant, expStr) := cutE (FormatFloatLib 101 f bits) in
        let exp := default 0 (ParseInt expStr) in
        if (exp <? -4) || (15 <=? exp) then
          let '(sign, exp) := if exp <? 0 then (45, - exp) else (43, exp) in
          mant ++ 101 :: sign :: zeros (2 - length (itoa exp)) ++ itoa exp
        else FormatFloatLib 102 f bits
  end.
Definition FormatFloat (f : float64) : bytes := formatFloatBits f 64.

(** ** Accumulators of one column *)

Inductive AggFunc := AggCount | AggSum | AggMin | AggMax | AggAvg.
#[export] Instance AggFunc_eq_dec : EqDecision AggFunc.
Proof. solve_decision. Defined.

Inductive valueAccumulator :=
| IntSum (format sum : Z) (set : bool)
| NumericSum (format : Z) (sum : option Q) (scale : Z) (set nan pinf ninf : bool)
| FloatSum (format oid : Z) (sum : float64) (set : bool)
| Extreme (cmp : Comparator) (max : bool) (best : option bytes).

Definition newValueAccumulator (fn : AggFunc) (col : Column) : result sc_err valueAccumulator :=
  let fam := familyOf (TypeOID col) in
  match fn with
  | AggCount => Ok (IntSum (Format col) 0 false)
  | AggSum =>
      match fam with
      | famInt => Ok (IntSum (Format col) 0 false)
      | famNumeric => Ok (NumericSum (Format col) None 0 false false false false)
      | famFloat => Ok (FloatSum (Format col) (TypeOID col) (FFin false 0) false)
      | _ => Err (NotSupported "sum of type")
      end
  | AggMin | AggMax =>
      if decide (fam = famTextCollated) then Err (NotSupported "min/max of text")
      else cmp ← ComparatorFor (TypeOID col) (Format col) true;
           Ok (Extreme cmp (bool_decide (fn = AggMax)) None)
  | AggAvg => Err (Internal "unknown aggregate")
  end.

(** The [add] of each, for a value that is not NULL. *)
Definition intSumAdd (format sum : Z) (v : bytes) : result sc_err valueAccumulator :=
  x ← decoderFor famInt oidInt8 format v; Ok (IntSum format (sum + v_i x) true).

Definition numericSumAdd (format : Z) (sum : option Q) (scale : Z) (nan pinf ninf : bool) (v : bytes) :
    result sc_err valueAccumulator :=
  n ← decoderFor famNumeric oidNumeric format v;
  Ok (match v_class n with
      | classNaN => NumericSum format sum scale true true pinf ninf
      | classPosInf => NumericSum format sum scale true nan true ninf
      | classNegInf => NumericSum format sum scale true nan pinf true
      | classFinite =>
          NumericSum format (Some (default 0%Q sum + default 0%Q (v_rat n))%Q)
            (if scale <? v_scale n then v_scale n else scale) true nan pinf ninf
      end).

Definition floatSumAdd (format oid : Z) (sum : float64) (v : bytes) : result sc_err valueAccumulator :=
  x ← decoderFor famFloat oid format v;
  let sum := match v_class x with
             | classNaN => FNaN
             | classPosInf => fadd sum (FInf false)
             | classNegInf => fadd sum (FInf true)
             | classFinite => fadd sum (v_f x)
             end in
  Ok (FloatSum format oid (if oid =? oidFloat4 then to_float32 sum else sum) true).

Definition extremeAdd (cmp : Comparator) (max : bool) (best : option bytes) (v : bytes) : result sc_err valueAccumulator :=
  match best with
  | None => Ok (Extreme cmp max (Some v))
  | Some b =>
      c ← cmp v b;
      Ok (Extreme cmp max (Some (if max && (0 <? c) || negb max && (c <? 0) then v else b)))
  end.

(** [add]; a nil value is NULL and skipped. *)
Definition vadd (a : valueAccumulator) (v : option bytes) : result sc_err valueAccumulator :=
  match v with
  | None => Ok a
  | Some v =>
      match a with
      | IntSum format sum _ => intSumAdd format sum v
      | NumericSum format sum scale _ nan pinf ninf => numericSumAdd format sum scale nan pinf ninf v
      | FloatSum format oid sum _ => floatSumAdd format oid sum v
      | Extreme cmp max best => extremeAdd cmp max best v
      end
  end.

(** The [result] of each; NULL when nothing was added. *)
Definition intSumResult (format sum : Z) (set : bool) : result sc_err (option bytes) :=
  if negb set then Ok None
  else if negb ((MinInt64 <=? sum) && (sum <=? MaxInt64)) then Err OutOfRange
  else if format =? FormatBinary then Ok (Some (be 8 (u64 sum)))
  else Ok (Some (itoa sum)).

Definition numericSumResult (format : Z) (sum : option Q) (scale : Z) (set nan pinf ninf : bool) :
    result sc_err (option bytes) :=
  if negb set then Ok None
  else
    let v := if nan || pinf && ninf then of_class classNaN
             else if pinf then of_class classPosInf
             else if ninf then of_class classNegInf
             else of_rat (default 0%Q sum) scale in
    if format =? FormatBinary then Some <$> encodeNumericBinary v else Ok (Some (formatNumeric v)).

Definition floatSumResult (format oid : Z) (sum : float64) (set : bool) : result sc_err (option bytes) :=
  if negb set then Ok None
  else if format =? FormatBinary then
    Ok (Some (if oid =? oidFloat4 then be 4 (Float32bits sum) else be 8 (Float64bits sum)))
  else Ok (Some (if oid =? oidFloat4 then formatFloatBits sum 32 else FormatFloat sum)).

Definition vresult (a : valueAccumulator) : result sc_err (option bytes) :=
  match a with
  | IntSum format sum set => intSumResult format sum set
  | NumericSum format sum scale set nan pinf ninf => numericSumResult format sum scale set nan pinf ninf
  | FloatSum format oid sum set => floatSumResult format oid sum set
  | Extreme _ _ best => Ok best
  end.

(** ** PostgreSQL's numeric division *)

Definition decDigits : Z := 4.
Definition numericMinSigDigits : Z := 16.
Definition numericMinDisplayScl : Z := 0.
Definition numericMaxDisplayScl : Z := 1000.

Definition roundRat (q : Q) (scale : Z) : Q :=
  let q := Qred q in
  let pow := 10 ^ scale in
  let n := Qnum q * pow in
  let d := Zpos (Qden q) in
  let quo := Z.quot n d in
  let rem := Z.abs (Z.rem n d) in
  let quo := if d <=? 2 * rem then (if Qnum q <? 0 then quo - 1 else quo + 1) else quo in
  inject_Z quo / inject_Z pow.

(** The loop that scales by 10000 until the value is an integer; a denominator
    has at most its binary logarithm of factors 2 and 5, so that many rounds
    are enough if any number is ([shiftOut_total]). *)
Fixpoint shiftOut (fuel : nat) (abs : Q) (shift : Z) : option (Z * Z) :=
  let abs := Qred abs in
  if (Qden abs =? 1)%positive then Some (Qnum abs, shift)
  else match fuel with
       | O => None
       | S fuel => shiftOut fuel (abs * inject_Z 10000) (shift + 1)
       end.
Definition shiftFuel (q : Q) : nat := Z.to_nat (Z.log2 (Zpos (Qden (Qred q)))).

Definition weightAndFirstDigit (r : option Q) : option (Z * Z) :=
  let r := Qred (default 0%Q r) in
  if Qnum r =? 0 then Some (0, 0)
  else
    '(n, shift) ← shiftOut (shiftFuel r) (Qabs r) 0;
    let digits := itoa n in
    let len := Z.of_nat (length digits) in
    let lead := if len mod decDigits =? 0 then decDigits else len mod decDigits in
    let first := digitsValue (take (Z.to_nat lead) digits) in
    let groups := (len + decDigits - 1) / decDigits in
    Some (groups - 1 - shift, first).

Definition selectDivScale (num den : value) : option Z :=
  '(weight1, first1) ← weightAndFirstDigit (v_rat num);
  '(weight2, first2) ← weightAndFirstDigit (v_rat den);
  let qweight := weight1 - weight2 in
  let qweight := if first1 <=? first2 then qweight - 1 else qweight in
  let rscale := numericMinSigDigits - qweight * decDigits in
  let rscale := Z.max rscale (v_scale num) in
  let rscale := Z.max rscale (v_scale den) in
  let rscale := Z.max rscale numericMinDisplayScl in
  Some (Z.min rscale numericMaxDisplayScl).

(** [None] when the loop of [weightAndFirstDigit] does not end. *)
Definition divideRounded (num den : value) : option value :=
  scale ← selectDivScale num den;
  let q := (default 0%Q (v_rat num) / default 0%Q (v_rat den))%Q in
  Some (of_rat (roundRat q scale) scale).

(** ** Averages *)

Record average := mkAverage {
  a_sum : valueAccumulator; a_count : valueAccumulator; sumAt : nat; cntAt : nat;
  sumOID : Z; cntFormat : Z; a_numeric : bool; a_format : Z }.

(** [plan.Agg] *)
Record Agg := mkAgg { Func : AggFunc; Col : Z; Count : Z }.

(** [cols[i]] *)
Definition columnAt (cols : list Column) (i : Z) : result sc_err Column :=
  match cols !! Z.to_nat i with Some c => if i <? 0 then Err ErrPanic else Ok c | None => Err ErrPanic end.
(** [row[i]] *)
Definition cell (r : row) (i : nat) : result sc_err (option bytes) :=
  match r !! i with Some c => Ok c | None => Err ErrPanic end.

Definition newAverage (a : Agg) (cols : list Column) : result sc_err average :=
  if Count a <? 0 then Err (Internal "avg() planned without a count column")
  else
    col ← columnAt cols (Col a);
    let fam := familyOf (TypeOID col) in
    if negb (bool_decide (fam = famInt) || bool_decide (fam = famNumeric) || bool_decide (fam = famFloat))
    then Err (NotSupported "avg of type")
    else if TypeOID col =? oidFloat4 then Err (NotSupported "avg of real")
    else
      sum ← newValueAccumulator AggSum col;
      cnt ← columnAt cols (Count a);
      count ← newValueAccumulator AggCount cnt;
      Ok (mkAverage sum count (Z.to_nat (Col a)) (Z.to_nat (Count a)) (TypeOID col) (Format cnt)
            (negb (bool_decide (fam = famFloat))) (Format col)).

Definition avgAdd (a : average) (r : row) : result sc_err average :=
  s ← cell r (sumAt a); sum ← vadd (a_sum a) s;
  c ← cell r (cntAt a); count ← vadd (a_count a) c;
  Ok (mkAverage sum count (sumAt a) (cntAt a) (sumOID a) (cntFormat a) (a_numeric a) (a_format a)).

Definition encodeNumeric (a : average) (v : value) : result sc_err bytes :=
  if a_format a =? FormatBinary then encodeNumericBinary v else Ok (formatNumeric v).

Definition divideFloat (a : average) (sum : bytes) (count : Z) : result sc_err bytes :=
  v ← decoderFor famFloat oidFloat8 (a_format a) sum;
  let q := match v_class v with
           | classNaN => FNaN
           | classPosInf => FInf false
           | classNegInf => FInf true
           | classFinite => fdiv (v_f v) (float64_of_int count)
           end in
  Ok (if a_format a =? FormatBinary then be 8 (Float64bits q) else FormatFloat q).

Definition divideNumeric (a : average) (sum : bytes) (count : Z) : result sc_err bytes :=
  num ← (if decide (familyOf (sumOID a) = famInt) then
           x ← decoderFor famInt oidInt8 (a_format a) sum; Ok (of_rat (inject_Z (v_i x)) 0)
         else decoderFor famNumeric oidNumeric (a_format a) sum);
  match v_class num with
  | classFinite =>
      match divideRounded num (of_rat (inject_Z count) 0) with
      | Some q => encodeNumeric a q
      | None => Err (Internal "the division does not end")
      end
  | c => encodeNumeric a (of_class c)
  end.

Definition avgResult (a : average) : result sc_err (option bytes) :=
  sum ← vresult (a_sum a);
  cnt ← vresult (a_count a);
  match sum, cnt with
  | Some sum, Some cnt =>
      n ← decoderFor famInt oidInt8 (cntFormat a) cnt;
      if v_i n =? 0 then Ok None
      else Some <$> (if a_numeric a then divideNumeric a sum (v_i n) else divideFloat a sum (v_i n))
  | _, _ => Ok None
  end.

(** ** Rows *)

(** [oneCol] and [average]. *)
Inductive accumulator := OneCol (col : nat) (acc : valueAccumulator) | Avg (a : average).

Definition newAccumulator (a : Agg) (cols : list Column) : result sc_err accumulator :=
  if decide (Func a = AggAvg) then Avg <$> newAverage a cols
  else col ← columnAt cols (Col a);
       acc ← newValueAccumulator (Func a) col;
       Ok (OneCol (Z.to_nat (Col a)) acc).
Definition accAdd (acc : accumulator) (r : row) : result sc_err accumulator :=
  match acc with
  | OneCol col a => v ← cell r col; OneCol col <$> vadd a v
  | Avg a => Avg <$> avgAdd a r
  end.
Definition accResult (acc : accumulator) : result sc_err (option bytes) :=
  match acc with OneCol _ a => vresult a | Avg a => avgResult a end.

Fixpoint newAccumulators (aggs : list Agg) (cols : list Column) : result sc_err (list accumulator) :=
  match aggs with
  | [] => Ok []
  | a :: aggs =>
      let w := Z.of_nat (length cols) in
      if (Col a <? 0) || (w <=? Col a) || (w <=? Count a) then Err (Internal "aggregate column")
      else acc ← newAccumulator a cols; accs ← newAccumulators aggs cols; Ok (acc :: accs)
  end.
Fixpoint addAll (accs : list accumulator) (r : row) : result sc_err (list accumulator) :=
  match accs with
  | [] => Ok []
  | acc :: accs => acc ← accAdd acc r; accs ← addAll accs r; Ok (acc :: accs)
  end.
Fixpoint results (accs : list accumulator) : result sc_err row :=
  match accs with
  | [] => Ok []
  | acc :: accs => v ← accResult acc; vs ← results accs; Ok (v :: vs)
  end.

(** One row of every shard, no more and no fewer. *)
Fixpoint foldShards (w : nat) (accs : list accumulator) (sources : list Source) : result sc_err (list accumulator) :=
  match sources with
  | [] => Ok accs
  | s :: sources =>
      match Next s with
      | (Err e, _) => Err e
      | (Ok None, _) => Err (Internal "a shard returned no row for an aggregate query")
      | (Ok (Some r), s) =>
          if negb (length r =? w)%nat then Err (Internal "shard row width")
          else
            accs ← addAll accs r;
            match Next s with
            | (Err e, _) => Err e
            | (Ok (Some _), _) => Err (Internal "a shard returned more than one row for an aggregate query")
            | (Ok None, _) => foldShards w accs sources
            end
      end
  end.

(** [plan.Merge] *)
Record MergeSpec := mkMergeSpec {
  m_Hidden : nat; m_OrderBy : list PlanKey; m_Limit : Z; m_Offset : Z; m_Aggregates : list Agg }.

Section Combine.
Variables (emit : list row → row → option string).

Definition combineAggregates (lim : limits) (aggs : list Agg) (cols : list Column) (sources : list Source) (l : limiter) :
    option sc_err * limiter :=
  if (length cols <? length aggs)%nat then (Some (Internal "aggregates and columns"), l)
  else match (accs ← newAccumulators aggs cols; accs ← foldShards (length cols) accs sources; results accs) with
       | Err e => (Some e, l)
       | Ok vs => push emit lim l (vs ++ replicate (length cols - length aggs) None)
       end.

Definition limitsOf (spec : MergeSpec) (cols : list Column) : limits :=
  mkLimits (m_Limit spec) (m_Offset spec) (m_Hidden spec) (length cols).

(** [Merge]: the error, if any, and the limiter with the rows emitted. *)
Definition Merge (spec : MergeSpec) (cols : list Column) (sources : list Source) : option sc_err * limiter :=
  let lim := limitsOf spec cols in
  let l := mkLimiter 0 0 [] in
  match m_Aggregates spec, m_OrderBy spec with
  | _ :: _, _ => combineAggregates lim (m_Aggregates spec) cols sources l
  | [], _ :: _ => mergeOrdered emit lim (m_OrderBy spec) cols sources l
  | [], [] => concatenate emit lim sources l
  end.
End Combine.

End Format.

(** ** Integers as text *)

Lemma digitsValue_app ds c : digitsValue (ds ++ [c]) = digitsValue ds * 10 + (c - 48).
Proof. unfold digitsValue. by rewrite foldl_app. Qed.

Lemma pretty_N_char_code (x : N) :
  (x < 10)%N → Z.of_N (Ascii.N_of_ascii (pretty_N_char x)) = 48 + Z.of_N x.
Proof.
  intros Hx. assert (x = 0 ∨ x = 1 ∨ x = 2 ∨ x = 3 ∨ x = 4 ∨ x = 5 ∨ x = 6 ∨ x = 7 ∨ x = 8 ∨ x = 9)%N as Hc by lia.
  by repeat destruct Hc as [->|Hc]; try subst.
Qed.

Lemma pretty_N_go_digits (x : N) s :
  ∃ ds, bytes_of (pretty_N_go x s) = ds ++ bytes_of s ∧ forallb isDecimal ds = true ∧ digitsValue ds = Z.of_N x ∧
    (ds = [] ↔ x = 0%N).
Proof.
  revert s. induction (N.lt_wf_0 x) as [x _ IH]. intros s. destruct (decide (x = 0)%N) as [->|Hx].
  - rewrite pretty_N_go_0. by exists [].
  - rewrite pretty_N_go_step by lia.
    destruct (IH (x `div` 10)%N ltac:(apply N.div_lt; lia) (String (pretty_N_char (x `mod` 10)) s)) as (ds & E & Hd & Hv & _).
    assert (x `mod` 10 < 10)%N as Hm by (apply N.mod_lt; lia).
    exists (ds ++ [48 + Z.of_N (x `mod` 10)]). split_and!.
    + rewrite E. cbn [bytes_of]. rewrite pretty_N_char_code by done. by rewrite <- app_assoc.
    + rewrite forallb_app, Hd. cbn [forallb andb]. unfold isDecimal. generalize dependent (x `mod` 10)%N. intros d _ Hm.
      apply andb_true_iff. split; [|done]. apply andb_true_iff. split; apply Z.leb_le; lia.
    + rewrite digitsValue_app, Hv. rewrite N2Z.inj_div, N2Z.inj_mod. change (Z.of_N 10) with 10.
      pose proof (Z.div_mod (Z.of_N x) 10 ltac:(lia)). lia.
    + split; [by destruct ds|lia].
Qed.

Lemma itoa_pos p : ∃ ds, itoa (Zpos p) = ds ∧ forallb isDecimal ds = true ∧ digitsValue ds = Zpos p ∧ ds ≠ [].
Proof.
  destruct (pretty_N_go_digits (Npos p) "") as (ds & E & Hd & Hv & Hn). rewrite app_nil_r in E. exists ds.
  split_and!; [exact E|done|done|]. intros ->. by destruct Hn as [Hn _]; specialize (Hn eq_refl).
Qed.

Lemma ParseInt_digits ds :
  forallb isDecimal ds = true → ds ≠ [] → MinInt64 ≤ digitsValue ds ≤ MaxInt64 → ParseInt ds = Some (digitsValue ds).
Proof.
  intros Hd Hn Hr. unfold ParseInt. destruct ds as [|c ds]; [done|]. pose proof Hd as Hd'. cbn in Hd'.
  apply andb_true_iff in Hd' as [Hc _]. unfold isDecimal in Hc. apply andb_true_iff in Hc as [?%Z.leb_le ?%Z.leb_le].
  rewrite (proj2 (Z.eqb_neq c 45)), (proj2 (Z.eqb_neq c 43)) by lia. rewrite Hd. cbn [negb orb].
  rewrite bool_decide_false by done. cbn [orb]. rewrite (proj2 (Z.leb_le MinInt64 _)), (proj2 (Z.leb_le _ MaxInt64)) by lia. done.
Qed.

Lemma ParseInt_itoa z : is_i64 z → ParseInt (itoa z) = Some z.
Proof.
  intros Hz. destruct z as [|p|p]; [done|..]; destruct (itoa_pos p) as (ds & E & Hd & Hv & Hn).
  - rewrite E, <- Hv. apply ParseInt_digits; [done..|]. rewrite Hv. unfold_int. lia.
  - assert (itoa (Zneg p) = 45 :: ds) as -> by (by rewrite <- E). unfold ParseInt. cbn [Z.eqb Pos.eqb].
    rewrite Hd, bool_decide_false by done. cbn [negb orb]. rewrite Hv. change (- Z.pos p) with (Z.neg p).
    rewrite (proj2 (Z.leb_le MinInt64 _)), (proj2 (Z.leb_le _ MaxInt64)) by (unfold_int; lia). done.
Qed.

(** ** Numeric division *)

Lemma Qred_int z : Qred (inject_Z z) = inject_Z z.
Proof. unfold inject_Z. apply Qcanon.Qred_identity. cbn. apply Z.gcd_1_r. Qed.

(** [roundRat] rounds to the nearest multiple of 10^-scale, halves away from
    zero, as numeric division does. *)
Theorem roundRat_nearest q scale :
  0 ≤ scale →
  ∃ k, roundRat q scale = (inject_Z k / inject_Z (10 ^ scale))%Q ∧
    (Qabs (inject_Z k - q * inject_Z (10 ^ scale)) <= 1 # 2)%Q ∧
    ((Qabs (inject_Z k - q * inject_Z (10 ^ scale)) == 1 # 2)%Q → (Qabs (q * inject_Z (10 ^ scale)) < Qabs (inject_Z k))%Q).
Proof.
  intros Hs. pose proof (Qred_correct q) as Eq. unfold roundRat. set (q' := Qred q) in *.
  set (pow := 10 ^ scale). assert (0 < pow) as Hp by (by apply Z.pow_pos_nonneg).
  set (n := Qnum q' * pow). set (d := Zpos (Qden q')).
  pose proof (Z.quot_rem' n d) as Hqr. pose proof (Z.rem_bound_abs n d ltac:(done)) as Hrb.
  pose proof (Z.rem_sign_mul n d ltac:(done)) as Hsign.
  set (k := if d <=? 2 * Z.abs (Z.rem n d) then if Qnum q' <? 0 then Z.quot n d - 1 else Z.quot n d + 1 else Z.quot n d).
  exists k. split; [done|]. rewrite <- Eq.
  assert (2 * Z.abs (k * d - n) ≤ d ∧ (2 * Z.abs (k * d - n) = d → Z.abs n < Z.abs (k * d))) as [H1 H2].
  { assert (Qnum q' < 0 ↔ n < 0) as Hneg by (unfold n; nia).
    assert (0 < d) as Hd by done. clearbody n d. unfold k. clear k.
    generalize dependent (Z.rem n d). generalize dependent (Z.quot n d). intros t r Hqr Hrb Hsign.
    assert (n < 0 → r ≤ 0) by nia. assert (0 ≤ n → 0 ≤ r).
    { intros Hn. destruct (decide (n = 0)) as [->|]; [|nia]. assert (t = 0) as -> by nia. lia. }
    destruct (Z.leb_spec d (2 * Z.abs r)) as [Hl|Hl]; [destruct (Z.ltb_spec (Qnum q') 0) as [Hq|Hq]|].
    - replace ((t - 1) * d) with (d * t - d) by ring. lia.
    - replace ((t + 1) * d) with (d * t + d) by ring. lia.
    - replace (t * d) with (d * t) by ring. lia. }
  unfold Qabs, Qminus, Qplus, Qopp, Qmult, Qle, Qeq, Qlt, inject_Z. cbn [Qnum Qden]. destruct q' as [a b]; cbn [Qnum Qden] in *.
  subst n d. rewrite ?Pos.mul_1_r, ?Pos.mul_1_l in *. split.
  - destruct (_ + _)%Z eqn:E; nia.
  - nia.
Qed.

Lemma roundRat_nearest_witness :
  ∃ k, roundRat (-5 # 2) 0 = (inject_Z k / inject_Z 1)%Q ∧ (Qabs (inject_Z k - (-5 # 2) * inject_Z 1) <= 1 # 2)%Q ∧ k = -3.
Proof.
  destruct (roundRat_nearest (-5 # 2) 0 ltac:(lia)) as (k & H1 & H2 & _). exists k. split_and!; [exact H1|exact H2|].
  assert (roundRat (-5 # 2) 0 = (inject_Z (-3) / inject_Z 1)%Q) as E by reflexivity. rewrite E in H1.
  unfold Qdiv, Qmult, Qinv, inject_Z in H1. cbn in H1. injection H1 as H1. lia.
Defined.

(** The digits of a positive integer have no leading zero. *)
Lemma pretty_N_go_head (x : N) s : x ≠ 0%N → ∃ c rest, bytes_of (pretty_N_go x s) = c :: rest ∧ 49 ≤ c ≤ 57.
Proof.
  revert s. induction (N.lt_wf_0 x) as [x _ IH]. intros s Hx. rewrite pretty_N_go_step by lia.
  destruct (decide (x `div` 10 = 0)%N) as [E|E].
  - rewrite E, pretty_N_go_0. cbn [bytes_of]. rewrite pretty_N_char_code by (apply N.mod_lt; lia).
    eexists _, _. split; [done|]. apply N.div_small_iff in E; [|lia]. rewrite N.mod_small by done. lia.
  - apply IH; [apply N.div_lt; lia|done].
Qed.

Lemma digitsValue_acc ds acc :
  foldl (λ n c, n * 10 + (c - 48)) acc ds = acc * 10 ^ Z.of_nat (length ds) + digitsValue ds.
Proof.
  unfold digitsValue. revert acc. induction ds as [|c ds IH]; intros acc; cbn [foldl length]; [cbn; lia|].
  rewrite IH, (IH (0 * 10 + (c - 48))), Nat2Z.inj_succ, Z.pow_succ_r by lia. ring.
Qed.
Lemma digitsValue_split a b : digitsValue (a ++ b) = digitsValue a * 10 ^ Z.of_nat (length b) + digitsValue b.
Proof. unfold digitsValue at 1. by rewrite foldl_app, digitsValue_acc. Qed.
Lemma digitsValue_bound ds : forallb isDecimal ds = true → 0 ≤ digitsValue ds < 10 ^ Z.of_nat (length ds).
Proof.
  induction ds as [|c ds IH]; [done|]. cbn [forallb]. intros [Hc Hd]%andb_true_iff. specialize (IH Hd).
  change (c :: ds) with ([c] ++ ds). rewrite digitsValue_split. unfold isDecimal in Hc.
  apply andb_true_iff in Hc as [?%Z.leb_le ?%Z.leb_le]. change (digitsValue [c]) with (c - 48). cbn [length app].
  rewrite Nat2Z.inj_succ, Z.pow_succ_r by lia. nia.
Qed.

(** The first [k] digits. *)
Lemma digitsValue_take k ds :
  forallb isDecimal ds = true → (k ≤ length ds)%nat →
  digitsValue (take k ds) = digitsValue ds / 10 ^ Z.of_nat (length ds - k).
Proof.
  intros Hd Hk. assert (forallb isDecimal (drop k ds) = true) as Hdr.
  { rewrite <- (take_drop k ds), forallb_app in Hd. by apply andb_true_iff in Hd as [_ ?]. }
  pose proof (digitsValue_bound _ Hdr) as Hb. rewrite length_drop in Hb.
  rewrite <- (take_drop k ds) at 2. rewrite digitsValue_split, length_drop.
  apply (Z.div_unique _ _ _ (digitsValue (drop k ds))); lia.
Qed.

Lemma itoa_leading n :
  0 < n → ∃ c rest, itoa n = c :: rest ∧ 49 ≤ c ≤ 57 ∧ forallb isDecimal (itoa n) = true ∧ digitsValue (itoa n) = n.
Proof.
  intros Hn. destruct n as [|p|p]; [lia| |lia]. destruct (itoa_pos p) as (ds & E & Hd & Hv & _).
  destruct (pretty_N_go_head (Npos p) "") as (c & rest & Hc & Hr); [done|]. exists c, rest. rewrite E. split_and!; [|lia..|done|done].
  rewrite <- E. exact Hc.
Qed.

(** The leading base-10000 digit of a positive integer, and its weight. *)
Lemma leading_group n :
  0 < n →
  let digits := itoa n in
  let len := Z.of_nat (length digits) in
  let lead := if len mod decDigits =? 0 then decDigits else len mod decDigits in
  let first := digitsValue (take (Z.to_nat lead) digits) in
  let g := (len + decDigits - 1) / decDigits - 1 in
  0 ≤ g ∧ 1 ≤ first < 10000 ∧ first * 10000 ^ g ≤ n < (first + 1) * 10000 ^ g.
Proof.
  intros Hn digits len lead first g. destruct (itoa_leading n Hn) as (c & rest & E & Hc & Hd & Hv).
  fold digits in E, Hd, Hv. clearbody digits. assert (len = Z.of_nat (length digits)) as Elen by done. clearbody len.
  assert (1 ≤ len) as Hlen by (rewrite Elen, E; cbn; lia). unfold decDigits in *.
  assert (1 ≤ lead ≤ 4 ∧ len = lead + 4 * g ∧ 0 ≤ g) as (Hlead & Hlg & Hg).
  { unfold lead, g. pose proof (Z.div_mod len 4 ltac:(lia)). pose proof (Z.mod_pos_bound len 4 ltac:(lia)).
    destruct (Z.eqb_spec (len mod 4) 0) as [E0|E0].
    - assert ((len + 4 - 1) / 4 = len / 4) as -> by (Z.div_mod_to_equations; lia). lia.
    - assert ((len + 4 - 1) / 4 = len / 4 + 1) as -> by (Z.div_mod_to_equations; lia). Z.div_mod_to_equations; lia. }
  clearbody lead g. assert (first = n / 10000 ^ g) as Hf.
  { unfold first. rewrite digitsValue_take by (done || lia). rewrite Hv. f_equal.
    change 10000 with (10 ^ 4). rewrite <- Z.pow_mul_r by lia. f_equal. lia. }
  assert (0 < 10000 ^ g) as Hpow by (apply Z.pow_pos_nonneg; lia).
  split; [done|]. split.
  - split.
    + rewrite Hf. apply Z.div_le_lower_bound; [done|]. rewrite Z.mul_1_r, <- Hv.
      rewrite E. change (c :: rest) with ([c] ++ rest). rewrite digitsValue_split.
      rewrite E in Hd. cbn in Hd. apply andb_true_iff in Hd as [_ Hd]. pose proof (digitsValue_bound _ Hd).
      change (digitsValue [c]) with (c - 48). change 10000 with (10 ^ 4). rewrite <- Z.pow_mul_r by lia.
      assert (10 ^ (4 * g) ≤ 10 ^ Z.of_nat (length rest)); [|nia]. apply Z.pow_le_mono_r; [lia|].
      rewrite E in Elen. cbn [length] in Elen. lia.
    + assert (first < 10 ^ Z.of_nat (length (take (Z.to_nat lead) digits))) as Hlt.
      { apply digitsValue_bound. rewrite <- (take_drop (Z.to_nat lead) digits), forallb_app in Hd.
        by apply andb_true_iff in Hd as [? _]. }
      rewrite length_take in Hlt. assert (10 ^ Z.of_nat (Z.to_nat lead `min` length digits) ≤ 10 ^ 4); [|lia].
      apply Z.pow_le_mono_r; lia.
  - rewrite Hf. pose proof (Z.div_mod n (10000 ^ g) ltac:(lia)). pose proof (Z.mod_pos_bound n (10000 ^ g) Hpow). nia.
Qed.

(** A divisor of a power of ten divides the power its logarithm gives. *)
Lemma divides_pow10 d k : 0 < d → 0 ≤ k → (d | 10 ^ k) → (d | 10 ^ Z.log2 d).
Proof.
  intros Hd Hk Hdiv. assert (0 ≤ d) as Hd0 by lia. revert Hd Hk Hdiv.
  apply (Z_lt_induction (λ d, 0 < d → 0 ≤ k → (d | 10 ^ k) → (d | 10 ^ Z.log2 d))); [|done].
  clear d Hd0. intros d IH Hd Hk Hdiv. destruct (decide (d = 1)) as [->|Hn]; [apply Z.divide_1_l|].
  assert (∃ p, (p = 2 ∨ p = 5) ∧ (p | d)) as (p & Hp & [d' ->]).
  { destruct (decide (Z.gcd d 10 = 1)) as [Hg|Hg].
    - exfalso. apply Hn. assert (d | 1) as H1.
      { revert Hdiv. pattern k. apply natlike_ind; [done| |done]. intros x Hx IHx H. rewrite Z.pow_succ_r in H by done.
        apply IHx. by apply (Z.gauss d 10). }
      apply Z.divide_1_r_nonneg in H1; lia.
    - pose proof (Z.gcd_divide_l d 10) as Hl. pose proof (Z.gcd_divide_r d 10) as [q Hq]. pose proof (Z.gcd_nonneg d 10).
      assert ((2 | Z.gcd d 10) ∨ (5 | Z.gcd d 10)) as [H2|H2].
      { assert (Z.gcd d 10 ≤ 10) by (apply Z.divide_pos_le; [lia|apply Z.gcd_divide_r]).
        assert (Z.gcd d 10 ∈ [0; 1; 2; 3; 4; 5; 6; 7; 8; 9; 10]) as Hin by (set_unfold; lia).
        repeat (apply elem_of_cons in Hin as [Hin|Hin]; [rewrite Hin in *; (lia || (left; exists (Z.gcd d 10 / 2); rewrite Hin; reflexivity) || (right; exists (Z.gcd d 10 / 5); rewrite Hin; reflexivity))|]).
        by apply elem_of_nil in Hin. }
      + exists 2. split; [by left|]. by etrans.
      + exists 5. split; [by right|]. by etrans. }
  assert (0 < d') as Hd' by lia. assert (d' | 10 ^ k) as Hdk by (etrans; [apply Z.divide_factor_l|exact Hdiv]).
  specialize (IH d' ltac:(lia) Hd' Hk Hdk).
  assert (Z.log2 d' + 1 ≤ Z.log2 (d' * p)) as Hlog.
  { pose proof (Z.log2_double d' Hd'). pose proof (Z.log2_le_mono (2 * d') (d' * p) ltac:(lia)). lia. }
  assert (p | 10) as Hp10 by (destruct Hp as [->| ->]; [by exists 5|by exists 2]).
  transitivity (10 ^ (Z.log2 d' + 1)).
  - rewrite Z.pow_add_r by (pose proof (Z.log2_nonneg d'); lia). destruct IH as [a Ha], Hp10 as [b Hb].
    exists (a * b). rewrite Ha, Z.pow_1_r, Hb. ring.
  - exists (10 ^ (Z.log2 (d' * p) - (Z.log2 d' + 1))). pose proof (Z.log2_nonneg d').
    rewrite <- Z.pow_add_r by lia. f_equal. lia.
Qed.

Lemma Qden_int q m : (q == inject_Z m)%Q → Qred q = inject_Z m.
Proof. intros E. rewrite <- (Qred_int m). by apply Qred_complete. Qed.

Lemma shiftOut_spec fuel q sh :
  (∃ m, q * inject_Z (10000 ^ Z.of_nat fuel) == inject_Z m)%Q →
  ∃ n j, shiftOut fuel q sh = Some (n, sh + j) ∧ 0 ≤ j ∧ (q * inject_Z (10000 ^ j) == inject_Z n)%Q.
Proof.
  revert q sh. induction fuel as [|fuel IH]; intros q sh [m Hm].
  - change (inject_Z (10000 ^ Z.of_nat 0)) with 1%Q in Hm. rewrite Qmult_1_r in Hm. unfold shiftOut.
    rewrite (Qden_int _ _ Hm). cbn. exists m, 0. split_and!; [do 2 f_equal; lia|done|]. by rewrite Qmult_1_r.
  - cbn [shiftOut]. destruct (Pos.eqb_spec (Qden (Qred q)) 1) as [E|E].
    + exists (Qnum (Qred q)), 0. split_and!; [do 2 f_equal; lia|done|]. rewrite Qmult_1_r, <- (Qred_correct q) at 1.
      destruct (Qred q) as [a b]; cbn in *. by subst b.
    + destruct (IH (Qred q * inject_Z 10000)%Q (sh + 1)) as (n & j & Hs & Hj & Hn).
      * exists m. rewrite (Qred_correct q), <- Hm, <- Qmult_assoc, <- inject_Z_mult.
        rewrite Nat2Z.inj_succ, Z.pow_succ_r by lia. done.
      * exists n, (j + 1). split_and!; [rewrite Hs; do 2 f_equal; lia|lia|].
        rewrite <- Hn, (Qred_correct q), <- Qmult_assoc, <- inject_Z_mult, Z.add_1_r, Z.pow_succ_r by lia. done.
Qed.

(** Decimals are the values whose loop ends. *)
Lemma shiftOut_total q z k :
  0 ≤ k → (q == inject_Z z / inject_Z (10 ^ k))%Q →
  (∃ m, q * inject_Z (10000 ^ Z.of_nat (shiftFuel q)) == inject_Z m)%Q.
Proof.
  intros Hk E. unfold shiftFuel. rewrite Z2Nat.id by apply Z.log2_nonneg. set (d := Zpos (Qden (Qred q))).
  assert (0 < 10 ^ k) as Hpow by (apply Z.pow_pos_nonneg; lia).
  assert (d | 10 ^ k) as Hd.
  { assert (Qred q == inject_Z z / inject_Z (10 ^ k))%Q as Er by (by rewrite Qred_correct).
    pose proof (Qcanon.Qred_iff (Qred q)) as [Hgcd _]. specialize (Hgcd (Qcanon.Qred_involutive q)).
    unfold Qeq, Qdiv, Qmult, Qinv, inject_Z in Er. destruct (10 ^ k) as [|p|p] eqn:Ep; [lia| |lia].
    cbn [Qnum Qden] in Er. rewrite Z.mul_1_r, Pos.mul_1_l in Er. apply (Z.gauss d (Qnum (Qred q))).
    - exists z. unfold d. by rewrite Er.
    - rewrite Z.gcd_comm. exact Hgcd. }
  destruct (divides_pow10 d k ltac:(done) Hk Hd) as [c Hc].
  exists (Qnum (Qred q) * c * 1000 ^ Z.log2 d). rewrite <- (Qred_correct q) at 1. unfold Qeq, Qmult, inject_Z. cbn [Qnum Qden].
  rewrite Pos.mul_1_r. fold d. change 10000 with (10 * 1000). rewrite Z.pow_mul_l, Hc. ring.
Qed.

(** The weight and first digit that choose an average's scale are those of
    the value's base-10000 expansion, and the loop that finds them ends for
    every decimal: for a decimal other than 0, the absolute value is
    [first] and a fraction, times 10000 to the [weight]. *)
Theorem weightAndFirstDigit_spec q z k :
  0 ≤ k → z ≠ 0 → (q == inject_Z z / inject_Z (10 ^ k))%Q →
  ∃ weight first shift n, weightAndFirstDigit (Some q) = Some (weight, first) ∧
    (Qabs q * inject_Z (10000 ^ shift) == inject_Z n)%Q ∧ 0 ≤ shift ∧ 0 ≤ weight + shift ∧
    1 ≤ first < 10000 ∧ first * 10000 ^ (weight + shift) ≤ n < (first + 1) * 10000 ^ (weight + shift).
Proof.
  intros Hk Hz E. assert (0 < 10 ^ k) as Hpow by (apply Z.pow_pos_nonneg; lia).
  assert (¬ q == 0)%Q as Hq.
  { rewrite E. unfold Qeq, Qdiv, Qmult, Qinv, inject_Z. destruct (10 ^ k); [lia| |lia]. cbn. lia. }
  assert (¬ Qnum (Qred q) = 0) as Hnum.
  { intros H0. apply Hq. rewrite <- (Qred_correct q). unfold Qeq. rewrite H0. done. }
  unfold weightAndFirstDigit. change (default 0%Q (Some q)) with q. rewrite (proj2 (Z.eqb_neq _ 0)) by done.
  destruct (shiftOut_total (Qred q) z k Hk) as [m Hm]; [by rewrite Qred_correct|].
  assert (∀ j, 0 ≤ j → Qabs (inject_Z (10000 ^ j)) = inject_Z (10000 ^ j)) as Habs.
  { intros j Hj. unfold Qabs, inject_Z. rewrite Z.abs_eq; [done|]. apply Z.pow_nonneg. lia. }
  destruct (shiftOut_spec (shiftFuel (Qred q)) (Qabs (Qred q)) 0) as (n & j & -> & Hj & Hn).
  { exists (Z.abs m). rewrite <- (Habs (Z.of_nat _)), <- Qabs_Qmult by lia. rewrite Hm. done. }
  assert (0 < n) as Hpos.
  { assert (0 < Qabs (Qred q) * inject_Z (10000 ^ j))%Q as H0; [|rewrite Hn in H0; by rewrite Zlt_Qlt].
    apply Qmult_lt_0_compat; [|change 0%Q with (inject_Z 0); rewrite <- Zlt_Qlt; apply Z.pow_pos_nonneg; lia].
    unfold Qlt, Qabs. destruct (Qred q) as [a b]. cbn in *. lia. }
  pose proof (leading_group n Hpos) as (Hg & Hf & Hb). cbn [mbind option_bind].
  eexists _, _, j, n. split; [done|]. rewrite Z.add_0_l, !Z.sub_add. split_and!; [|done..|apply Hf|apply Hf|apply Hb|apply Hb].
  by rewrite <- Hn, Qred_correct.
Qed.

(** ** Aggregates over shards *)

(** The decimal numeral of [k / 10^scale]. *)
Definition decimal (k scale : Z) : bytes :=
  let p := 10 ^ scale in
  let frac := itoa (Z.abs k mod p) in
  (if k <? 0 then [45] else []) ++ itoa (Z.abs k / p) ++
  (if 0 <? scale then 46 :: zeros (Z.to_nat scale - length frac) ++ frac else []).

(** [k / 10^scale] is the multiple of 10^-scale nearest to [s / n], halves
    away from zero. *)
Definition rounded (s n scale k : Z) : Prop :=
  2 * Z.abs (k * n - s * 10 ^ scale) ≤ n ∧
  (2 * Z.abs (k * n - s * 10 ^ scale) = n → Z.abs (s * 10 ^ scale) < Z.abs (k * n)).

Lemma frac_pos k p : 0 < p → ∃ d, Qred (inject_Z k / inject_Z p) = Qmake (Qnum (Qred (inject_Z k / inject_Z p))) d ∧
  Qnum (Qred (inject_Z k / inject_Z p)) * p = k * Zpos d.
Proof.
  intros Hp. set (q := Qred _). exists (Qden q). split; [by destruct q|].
  assert (q == inject_Z k / inject_Z p)%Q as E by apply Qred_correct. destruct p as [|p|p]; [lia| |lia].
  unfold Qeq, Qdiv, Qmult, Qinv, inject_Z in E. cbn [Qnum Qden] in E. by rewrite Z.mul_1_r, Pos.mul_1_l in E.
Qed.

Lemma itoa_sign z : itoa z = (if z <? 0 then [45] else []) ++ itoa (Z.abs z).
Proof. by destruct z. Qed.

Lemma zeros_snoc n : (0 < n)%nat → zeros (n - 1) ++ [48] = zeros n.
Proof. intros Hn. destruct n as [|n]; [lia|]. unfold zeros. rewrite Nat.sub_1_r. cbn [Nat.pred]. by rewrite <- replicate_S_end. Qed.

(** The printer of a decimal, on a value that has that many digits. *)
Lemma FloatString_decimal k scale :
  0 ≤ scale → FloatString (inject_Z k / inject_Z (10 ^ scale)) scale = decimal k scale.
Proof.
  intros Hs. set (p := 10 ^ scale). assert (0 < p) as Hp by (by apply Z.pow_pos_nonneg).
  destruct (frac_pos k p Hp) as (d & Eq & E). unfold FloatString, decimal. fold p. rewrite Eq. cbn [Qnum Qden].
  set (a := Qnum _) in *. clearbody a.
  assert (Z.abs a * p = Z.abs k * Zpos d) as Ea.
  { rewrite <- (Z.abs_eq p), <- Z.abs_mul, E, Z.abs_mul by lia. f_equal. }
  assert ((a <? 0) = (k <? 0)) as Esign by (assert (0 < Zpos d) by done; destruct (Z.ltb_spec a 0), (Z.ltb_spec k 0); (done || nia)).
  assert (Z.abs k / p = Z.abs a / Zpos d) as Ediv.
  { rewrite <- (Z.div_mul_cancel_r (Z.abs k) p (Zpos d)), <- Ea by lia.
    rewrite (Z.mul_comm (Z.abs a)), (Z.div_mul_cancel_l) by lia. done. }
  assert (Z.abs a mod Zpos d * p = (Z.abs k mod p) * Zpos d) as Emod.
  { pose proof (Z.div_mod (Z.abs a) (Zpos d) ltac:(lia)). pose proof (Z.div_mod (Z.abs k) p ltac:(lia)).
    rewrite Ediv in *. nia. }
  destruct (Z.eqb_spec (Zpos d) 1) as [Ed|Ed].
  - rewrite Ed, Z.mod_1_r, Z.mul_1_r in Emod. rewrite Ed, Z.div_1_r in Ediv. rewrite <- Emod, Ediv, (itoa_sign a), Esign, <- app_assoc.
    do 2 f_equal. destruct (Z.ltb_spec 0 scale); [|done]. f_equal. change (itoa (0 * p)) with [48]. cbn [length].
    symmetry. apply zeros_snoc. lia.
  - rewrite Emod, Z.div_mul, Z.mod_mul, Ediv, Esign by lia. by rewrite (proj2 (Z.leb_gt _ _)) by lia.
Qed.

Lemma roundRat_ints s n scale :
  0 ≤ scale → 0 < n →
  ∃ k, roundRat (inject_Z s / inject_Z n) scale = (inject_Z k / inject_Z (10 ^ scale))%Q ∧ rounded s n scale k.
Proof.
  intros Hs Hn. destruct (roundRat_nearest (inject_Z s / inject_Z n) scale Hs) as (k & Hk & H1 & H2). exists k. split; [done|].
  destruct n as [|n|n]; [lia| |lia]. assert (inject_Z s / inject_Z (Zpos n) == s # n)%Q as E.
  { unfold Qeq, Qdiv, Qmult, Qinv, inject_Z. cbn [Qnum Qden]. lia. }
  rewrite E in H1, H2. clear E Hk. unfold rounded. set (p := 10 ^ scale) in *. clearbody p.
  unfold Qabs, Qminus, Qplus, Qopp, Qmult, Qle, Qeq, Qlt, inject_Z in *. cbn [Qnum Qden] in *.
  rewrite ?Pos.mul_1_r, ?Pos.mul_1_l, ?Z.mul_1_r, ?Z.mul_1_l in *. rewrite Z.abs_mul in H2 |- *. rewrite !Z.abs_mul.
  replace (k * Zpos n - s * p) with (k * Zpos n + - (s * p)) by ring. split; [lia|]. intros E.
  specialize (H2 ltac:(lia)). lia.
Qed.

(** The weight and leading digit of an integer. *)
Lemma weight_of_int z :
  ∃ w first, weightAndFirstDigit (Some (inject_Z z)) = Some (w, first) ∧ 0 ≤ w ∧
    (z = 0 → w = 0 ∧ first = 0) ∧
    (z ≠ 0 → 1 ≤ first < 10000 ∧ first * 10000 ^ w ≤ Z.abs z < (first + 1) * 10000 ^ w).
Proof.
  unfold weightAndFirstDigit. cbn [default from_option id]. rewrite Qred_int. cbn [inject_Z Qnum].
  destruct (Z.eqb_spec z 0) as [->|Hz]; [by exists 0, 0|].
  assert (∀ fuel, shiftOut fuel (Qabs (inject_Z z)) 0 = Some (Z.abs z, 0)) as Hsh.
  { intros fuel. change (Qabs (inject_Z z)) with (inject_Z (Z.abs z)). destruct fuel; cbn [shiftOut]; by rewrite Qred_int. }
  change (z # 1) with (inject_Z z). rewrite Hsh. cbn [mbind option_bind]. rewrite Z.sub_0_r.
  pose proof (leading_group (Z.abs z) ltac:(lia)) as (Hg & Hf & Hb).
  eexists _, _. split; [done|]. split; [exact Hg|]. split; [done|]. intros _. by split.
Qed.

(** At least sixteen digits, and not many more. *)
Definition precise (s scale k : Z) : Prop :=
  if s =? 0 then 16 ≤ scale ≤ 32
  else 10 ^ 16 ≤ Z.abs k ∧ (scale = 0 ∨ Z.abs k ≤ 2 * 10 ^ 20).

Lemma pow10000 w : 0 ≤ w → 10000 ^ w = 10 ^ (4 * w).
Proof. intros Hw. change 10000 with (10 ^ 4). by rewrite <- Z.pow_mul_r by lia. Qed.

Lemma weight_bound w first n : 0 ≤ w → 1 ≤ first → first * 10000 ^ w ≤ n → n < two31 → w ≤ 2.
Proof.
  intros Hw Hf Hl Hn. destruct (decide (w ≤ 2)) as [|Hw3]; [done|].
  assert (10000 ^ 3 ≤ 10000 ^ w) by (apply Z.pow_le_mono_r; lia). unfold two31 in Hn.
  change (10000 ^ 3) with 1000000000000 in *. nia.
Qed.

Lemma scale_arith s n a b scale :
  0 ≤ s → 0 < n → 0 ≤ a → 0 ≤ b → n * 10000 ^ a ≤ s * 10000 ^ b → s * 10000 ^ b ≤ 20000 * (n * 10000 ^ a) →
  scale = Z.max (16 - (a - b) * 4) 0 →
  10 ^ 16 * n ≤ s * 10 ^ scale ∧ (scale = 0 ∨ s * 10 ^ scale ≤ 2 * 10 ^ 20 * n).
Proof.
  intros Hs Hn Ha Hb. rewrite !pow10000 by done. intros Hl Hu ->.
  assert (0 < 10 ^ (4 * a)) as Hpa by (apply Z.pow_pos_nonneg; lia).
  destruct (Z.max_spec (16 - (a - b) * 4) 0) as [[Hm ->]|[Hm ->]].
  - split; [|by left]. assert (10 ^ (4 * a) = 10 ^ (4 * (a - b)) * 10 ^ (4 * b)) as E.
    { rewrite <- Z.pow_add_r by lia. f_equal. lia. }
    assert (10 ^ 16 ≤ 10 ^ (4 * (a - b))) by (apply Z.pow_le_mono_r; lia).
    assert (0 < 10 ^ (4 * b)) by (apply Z.pow_pos_nonneg; lia). rewrite E in Hl. rewrite Z.mul_1_r.
    apply (Z.le_trans _ (n * 10 ^ (4 * (a - b)))); [nia|]. rewrite Z.mul_assoc in Hl. by apply Z.mul_le_mono_pos_r in Hl.
  - assert (10 ^ (16 - (a - b) * 4) * 10 ^ (4 * a) = 10 ^ 16 * 10 ^ (4 * b)) as E.
    { rewrite <- !Z.pow_add_r by lia. f_equal. lia. }
    set (P := 10 ^ (16 - (a - b) * 4)) in *. set (A := 10 ^ (4 * a)) in *. set (B := 10 ^ (4 * b)) in *.
    change (10 ^ 16) with 10000000000000000 in *. change (10 ^ 20) with 100000000000000000000 in *. clearbody P A B.
    split; [|right]; apply (Z.mul_le_mono_pos_r _ _ A); (done || nia).
Qed.

(** The scale the division chooses. *)
Lemma scale_of_ints s n :
  0 < n < two31 →
  ∃ scale, selectDivScale (of_rat (inject_Z s) 0) (of_rat (inject_Z n) 0) = Some scale ∧ 0 ≤ scale ∧
    (s = 0 → 16 ≤ scale ≤ 32) ∧
    (s ≠ 0 → 10 ^ 16 * n ≤ Z.abs s * 10 ^ scale ∧ (scale = 0 ∨ Z.abs s * 10 ^ scale ≤ 2 * 10 ^ 20 * n)).
Proof.
  intros Hn. unfold selectDivScale. cbn [of_rat v_rat v_scale].
  destruct (weight_of_int s) as (w1 & f1 & -> & Hw1 & Hs0 & Hs1), (weight_of_int n) as (w2 & f2 & -> & Hw2 & _ & Hn1).
  cbn [mbind option_bind]. destruct (Hn1 ltac:(lia)) as [Hf2 Hb2]. rewrite (Z.abs_eq n) in Hb2 by lia.
  pose proof (weight_bound w2 f2 n ltac:(done) ltac:(lia) ltac:(lia) ltac:(lia)) as Hw.
  unfold numericMinSigDigits, decDigits, numericMinDisplayScl, numericMaxDisplayScl.
  set (qw := if f1 <=? f2 then w1 - w2 - 1 else w1 - w2).
  assert (-3 ≤ qw) as Hqw by (unfold qw; destruct (f1 <=? f2); lia).
  eexists. split; [done|]. split; [lia|]. split.
  - intros [-> ->]%Hs0. unfold qw. rewrite (proj2 (Z.leb_le 0 f2)) by lia. lia.
  - intros Hs. destruct (Hs1 Hs) as [Hf1 Hb1]. set (a := w1). set (b := if f1 <=? f2 then w2 + 1 else w2).
    assert (0 < 10000 ^ w1) by (apply Z.pow_pos_nonneg; lia). assert (0 < 10000 ^ w2) by (apply Z.pow_pos_nonneg; lia).
    apply (scale_arith _ n a b); [lia|lia|done|unfold b; destruct (f1 <=? f2); lia|..|].
    + unfold a, b. destruct (Z.leb_spec f1 f2); [rewrite Z.pow_add_r by lia|]; nia.
    + unfold a, b. destruct (Z.leb_spec f1 f2); [rewrite Z.pow_add_r by lia|]; nia.
    + unfold a, b, qw. destruct (f1 <=? f2); lia.
Qed.

Lemma rounded_precise s n scale k :
  0 < n → rounded s n scale k →
  (s = 0 → 16 ≤ scale ≤ 32) →
  (s ≠ 0 → 10 ^ 16 * n ≤ Z.abs s * 10 ^ scale ∧ (scale = 0 ∨ Z.abs s * 10 ^ scale ≤ 2 * 10 ^ 20 * n)) →
  0 ≤ scale → precise s scale k.
Proof.
  intros Hn [Hr _] H0 H1 Hs. unfold precise. destruct (Z.eqb_spec s 0) as [E|E]; [by apply H0|]. destruct (H1 E) as [Hl Hu].
  assert (0 < 10 ^ scale) as Hp by (by apply Z.pow_pos_nonneg). rewrite <- (Z.abs_eq (10 ^ scale)), <- Z.abs_mul in * by lia.
  set (m := s * 10 ^ scale) in *. rewrite (Z.abs_eq (10 ^ scale)) in Hr by lia. fold m in Hr. clearbody m.
  assert (Z.abs k * n = Z.abs (k * n)) as Ek by (rewrite Z.abs_mul; lia).
  change (10 ^ 16) with 10000000000000000 in *. change (10 ^ 20) with 100000000000000000000 in *.
  split; [|destruct Hu as [|Hu]; [by left|right]]; nia.
Qed.

(** What a column of the shards' rows holds: one of count, sum, min and max,
    of one of the query's expressions. *)
Abbreviation question := (AggFunc * nat)%type.

Section Transparent.
Context `{Lib, FloatOps}.
Variables (emit : list row → row → option string).

(** The folds of a list of integers. *)
Definition zsum (xs : list Z) : Z := foldr Z.add 0 xs.
Definition omin (a b : option Z) : option Z := union_with (λ x y, Some (Z.min x y)) a b.
Definition omax (a b : option Z) : option Z := union_with (λ x y, Some (Z.max x y)) a b.
Definition min_of (xs : list Z) : option Z := foldr (λ x m, omin (Some x) m) None xs.
Definition max_of (xs : list Z) : option Z := foldr (λ x m, omax (Some x) m) None xs.
Definition nonempty (xs : list Z) : bool := match xs with [] => false | _ => true end.

(** The answer of a shard in which an expression has the values [xs], NULLs
    left out, in text: count and sum are int8, min and max int4 as the
    expressions are. *)
Definition sum_text (xs : list Z) : option bytes := if nonempty xs then Some (itoa (zsum xs)) else None.
Definition count_text (xs : list Z) : option bytes := Some (itoa (Z.of_nat (length xs))).
Definition shardCell (f : AggFunc) (xs : list Z) : option bytes :=
  match f with
  | AggCount => count_text xs
  | AggSum => sum_text xs
  | AggMin => itoa <$> min_of xs
  | AggMax => itoa <$> max_of xs
  | AggAvg => None
  end.
Definition shardColumn (q : question) : Column :=
  mkColumn (match q.1 with AggMin | AggMax => oidInt4 | _ => oidInt8 end) FormatText.
Definition shardRow (asked : list question) (d : nat → list Z) : row := (λ q, shardCell q.1 (d q.2)) <$> asked.
Definition shardSource (asked : list question) (d : nat → list Z) : Source := mkSource [shardRow asked d] None.

(** The aggregate [q] of the query is computed from the columns that [a]
    names: avg from a sum and a count of the same expression. *)
Definition carries (asked : list question) (q : question) (a : Agg) : Prop :=
  Func a = q.1 ∧ 0 ≤ Col a ∧
  match q.1 with
  | AggAvg => 0 ≤ Count a ∧ asked !! Z.to_nat (Col a) = Some (AggSum, q.2) ∧ asked !! Z.to_nat (Count a) = Some (AggCount, q.2)
  | _ => Count a = -1 ∧ asked !! Z.to_nat (Col a) = Some q
  end.

(** The value of an aggregate of all the values. *)
Definition answers (f : AggFunc) (xs : list Z) (v : option bytes) : Prop :=
  match f with
  | AggAvg =>
      if nonempty xs then
        ∃ scale k, v = Some (decimal k scale) ∧ 0 ≤ scale ∧
          rounded (zsum xs) (Z.of_nat (length xs)) scale k ∧ precise (zsum xs) scale k
      else v = None
  | f => v = shardCell f xs
  end.
Definition whole (ds : list (nat → list Z)) (j : nat) : list Z := mjoin ((λ d, d j) <$> ds).

(** The accumulator of an aggregate once shards with the values [xs] in all
    answered. *)
Definition int_cmp : Comparator := λ a b,
  x ← decodeIntText a; y ← decodeIntText b; Ok (compareValues famInt x y).
Definition sum_acc (xs : list Z) : valueAccumulator := IntSum FormatText (zsum xs) (nonempty xs).
Definition count_acc (started : bool) (xs : list Z) : valueAccumulator := IntSum FormatText (Z.of_nat (length xs)) started.
Definition acc_of (a : Agg) (started : bool) (xs : list Z) : accumulator :=
  let col := Z.to_nat (Col a) in
  match Func a with
  | AggCount => OneCol col (count_acc started xs)
  | AggSum => OneCol col (sum_acc xs)
  | AggMin => OneCol col (Extreme int_cmp false (itoa <$> min_of xs))
  | AggMax => OneCol col (Extreme int_cmp true (itoa <$> max_of xs))
  | AggAvg => Avg (mkAverage (sum_acc xs) (count_acc started xs) col (Z.to_nat (Count a)) oidInt8 FormatText true FormatText)
  end.

Lemma zsum_app xs ys : zsum (xs ++ ys) = zsum xs + zsum ys.
Proof.
  induction xs as [|x xs IH]; [done|]. change (x + zsum (xs ++ ys) = x + zsum xs + zsum ys). lia.
Qed.
Lemma min_of_app xs ys : min_of (xs ++ ys) = omin (min_of xs) (min_of ys).
Proof.
  induction xs as [|x xs IH]; [change (min_of ys = omin None (min_of ys)); by destruct (min_of ys)|].
  change (omin (Some x) (min_of (xs ++ ys)) = omin (omin (Some x) (min_of xs)) (min_of ys)). rewrite IH.
  destruct (min_of xs), (min_of ys); cbn; f_equal; lia.
Qed.
Lemma max_of_app xs ys : max_of (xs ++ ys) = omax (max_of xs) (max_of ys).
Proof.
  induction xs as [|x xs IH]; [change (max_of ys = omax None (max_of ys)); by destruct (max_of ys)|].
  change (omax (Some x) (max_of (xs ++ ys)) = omax (omax (Some x) (max_of xs)) (max_of ys)). rewrite IH.
  destruct (max_of xs), (max_of ys); cbn; f_equal; lia.
Qed.
Lemma min_of_elem xs m : min_of xs = Some m → m ∈ xs.
Proof.
  revert m. induction xs as [|x xs IH]; intros m; [done|]. change (min_of (x :: xs)) with (omin (Some x) (min_of xs)). destruct (min_of xs) as [m'|]; cbn; intros [= <-]; [|by left].
  destruct (Z.min_spec x m') as [[_ ->]|[_ ->]]; [by left|right; by apply IH].
Qed.
Lemma max_of_elem xs m : max_of xs = Some m → m ∈ xs.
Proof.
  revert m. induction xs as [|x xs IH]; intros m; [done|]. change (max_of (x :: xs)) with (omax (Some x) (max_of xs)). destruct (max_of xs) as [m'|]; cbn; intros [= <-]; [|by left].
  destruct (Z.max_spec x m') as [[_ ->]|[_ ->]]; [right; by apply IH|by left].
Qed.

Lemma vadd_int sum set z : is_i64 z → vadd (IntSum FormatText sum set) (Some (itoa z)) = Ok (IntSum FormatText (sum + z) true).
Proof. intros Hz. cbn. unfold intSumAdd. cbn. unfold decodeIntText. by rewrite ParseInt_itoa. Qed.

Lemma int_cmp_itoa a b : is_i64 a → is_i64 b → int_cmp (itoa a) (itoa b) = Ok (cmp3 a b).
Proof. intros Ha Hb. unfold int_cmp, decodeIntText. by rewrite !ParseInt_itoa. Qed.

Lemma vadd_extreme (max : bool) a b :
  (∀ x, a = Some x → is_i64 x) → (∀ x, b = Some x → is_i64 x) →
  vadd (Extreme int_cmp max (itoa <$> a)) (itoa <$> b) =
  Ok (Extreme int_cmp max (itoa <$> (if max then omax a b else omin a b))).
Proof.
  intros Ha Hb. destruct a as [a|], b as [b|]; [|by destruct max..]. cbn [fmap option_fmap option_map vadd extremeAdd].
  rewrite int_cmp_itoa by auto. cbn [mbind result_bind]. unfold cmp3.
  destruct max; cbn [andb orb negb omax omin union_with option_union_with fmap option_fmap option_map]; do 3 f_equal;
    destruct (Z.ltb_spec b a), (Z.ltb_spec a b); cbn; f_equal; lia.
Qed.

(** A column whose sum is far from overflowing. *)
Definition small (xs : list Z) : Prop := Forall is_i32 xs ∧ Z.of_nat (length xs) < two31.

Lemma small_app xs ys : small (xs ++ ys) → small xs ∧ small ys.
Proof. intros [Hf Hl]. apply Forall_app in Hf as [? ?]. rewrite length_app in Hl. repeat split; (done || lia). Qed.
Lemma small_sum xs : small xs → is_i64 (zsum xs) ∧ is_i64 (Z.of_nat (length xs)).
Proof.
  intros [Hf Hl]. assert (- two31 * Z.of_nat (length xs) ≤ zsum xs ≤ two31 * Z.of_nat (length xs)) as Hb.
  { clear Hl. induction Hf as [|x xs Hx _ IH]; [done|]. change (zsum (x :: xs)) with (x + zsum xs). cbn [length]. unfold_int. lia. }
  unfold_int. lia.
Qed.
Lemma small_elem xs x : small xs → x ∈ xs → is_i64 x.
Proof. intros [Hf _] Hx. rewrite Forall_forall in Hf. apply Hf in Hx. unfold_int. lia. Qed.
Lemma small_min xs x : small xs → min_of xs = Some x → is_i64 x.
Proof. intros Hs ?%min_of_elem. by eapply small_elem. Qed.
Lemma small_max xs x : small xs → max_of xs = Some x → is_i64 x.
Proof. intros Hs ?%max_of_elem. by eapply small_elem. Qed.

Lemma vadd_sum xs ys : small ys → vadd (sum_acc xs) (sum_text ys) = Ok (sum_acc (xs ++ ys)).
Proof.
  intros Hy. unfold sum_acc, sum_text. rewrite zsum_app. destruct ys as [|y ys]; cbn [nonempty].
  - rewrite app_nil_r. cbn. by rewrite Z.add_0_r.
  - rewrite vadd_int by (by apply small_sum). do 2 f_equal. by destruct xs.
Qed.
Lemma vadd_count started xs ys :
  small ys → vadd (count_acc started xs) (count_text ys) = Ok (count_acc true (xs ++ ys)).
Proof.
  intros Hy. unfold count_acc, count_text. rewrite vadd_int by (by apply small_sum). by rewrite length_app, Nat2Z.inj_add.
Qed.

Lemma vresult_int sum set :
  is_i64 sum → vresult (IntSum FormatText sum set) = Ok (if set then Some (itoa sum) else None).
Proof.
  intros Hs. cbn [vresult]. unfold intSumResult.
  rewrite (proj2 (Z.leb_le MinInt64 _)), (proj2 (Z.leb_le _ MaxInt64)) by (unfold_int; lia). by destruct set.
Qed.

Lemma columnAt_asked asked i q :
  0 ≤ i → asked !! Z.to_nat i = Some q → columnAt (shardColumn <$> asked) i = Ok (shardColumn q).
Proof. intros Hi Hq. unfold columnAt. rewrite list_lookup_fmap, Hq. cbn. by rewrite (proj2 (Z.ltb_ge _ _)). Qed.
Lemma cell_asked asked d i q :
  asked !! i = Some q → cell (shardRow asked d) i = Ok (shardCell q.1 (d q.2)).
Proof.
  intros Hq. unfold cell. assert (shardRow asked d !! i = Some (shardCell q.1 (d q.2))) as ->; [|done].
  apply list_lookup_fmap_Some. by exists q.
Qed.

Lemma newAccumulator_asked asked q a :
  carries asked q a → newAccumulator a (shardColumn <$> asked) = Ok (acc_of a false []).
Proof.
  intros (Hf & Hc & Hq). unfold newAccumulator, acc_of. rewrite Hf. destruct q as [f j]; cbn [fst snd] in *.
  destruct f; [destruct Hq as [_ Hq]; rewrite (columnAt_asked _ _ _ Hc Hq); reflexivity..|].
  destruct Hq as (Hn & Hs & Hk). unfold newAverage. rewrite (proj2 (Z.ltb_ge _ _)) by done.
  rewrite (columnAt_asked _ _ _ Hc Hs), (columnAt_asked _ _ _ Hn Hk). reflexivity.
Qed.

Lemma accAdd_asked asked q a started xs d :
  carries asked q a → small xs → small (d q.2) →
  accAdd (acc_of a started xs) (shardRow asked d) = Ok (acc_of a true (xs ++ d q.2)).
Proof.
  intros (Hf & Hc & Hq) Hx Hy. unfold acc_of. rewrite Hf. destruct q as [f j]; cbn [fst snd] in *.
  destruct f; [destruct Hq as [_ Hq]..|destruct Hq as (_ & Hs & Hk)]; cbn [accAdd];
    [rewrite (cell_asked _ _ _ _ Hq); cbn [mbind result_bind fst snd shardCell]..|].
  - by rewrite vadd_count.
  - by rewrite vadd_sum.
  - rewrite vadd_extreme by eauto using small_min. by rewrite min_of_app.
  - rewrite vadd_extreme by eauto using small_max. by rewrite max_of_app.
  - unfold avgAdd. cbn [sumAt cntAt a_sum a_count]. rewrite (cell_asked _ _ _ _ Hs), (cell_asked _ _ _ _ Hk).
    cbn [mbind result_bind fst snd shardCell]. rewrite vadd_sum by done. cbn [mbind result_bind]. by rewrite vadd_count.
Qed.

(** One division over the totals. *)
Lemma divide_ints s n :
  0 < n < two31 →
  ∃ scale k, divideRounded (of_rat (inject_Z s) 0) (of_rat (inject_Z n) 0) =
      Some (of_rat (inject_Z k / inject_Z (10 ^ scale)) scale) ∧
    0 ≤ scale ∧ rounded s n scale k ∧ precise s scale k.
Proof.
  intros Hn. destruct (scale_of_ints s n Hn) as (scale & E & Hs & Hz & Hnz).
  destruct (roundRat_ints s n scale Hs) as (k & Ek & Hk); [lia|]. exists scale, k.
  unfold divideRounded. rewrite E. cbn [mbind option_bind of_rat v_rat default from_option id]. rewrite Ek.
  split_and!; [done|done|done|]. apply (rounded_precise _ n); (done || lia).
Qed.

Lemma avgResult_ints xs sumAt cntAt :
  small xs →
  ∃ v, avgResult (mkAverage (sum_acc xs) (count_acc true xs) sumAt cntAt oidInt8 FormatText true FormatText) = Ok v ∧
    answers AggAvg xs v.
Proof.
  intros Hs. pose proof (small_sum _ Hs) as [Hsum Hlen]. unfold avgResult. cbn [a_sum a_count]. unfold sum_acc, count_acc, answers.
  rewrite !vresult_int by done. cbn [mbind result_bind]. destruct xs as [|x xs]; [by exists None|]. cbn [nonempty].
  cbn [cntFormat decoderFor]. change (FormatText =? FormatBinary) with false. cbv iota. unfold decodeIntText.
  rewrite ParseInt_itoa by done. cbn [mbind result_bind of_int v_i].
  rewrite (proj2 (Z.eqb_neq _ 0)) by (cbn; lia). cbn [a_numeric]. unfold divideNumeric. cbn [sumOID a_format].
  change (decide (familyOf oidInt8 = famInt)) with (left (A := familyOf oidInt8 = famInt) (B := familyOf oidInt8 ≠ famInt) eq_refl).
  cbn [decoderFor]. change (FormatText =? FormatBinary) with false. cbv iota. unfold decodeIntText.
  rewrite ParseInt_itoa by done. cbn [mbind result_bind of_int v_i of_rat v_class].
  destruct (divide_ints (zsum (x :: xs)) (Z.of_nat (length (x :: xs)))) as (scale & k & -> & Hsc & Hk).
  { destruct Hs as [_ Hl]. cbn [length] in *. lia. }
  unfold encodeNumeric. cbn [a_format]. change (FormatText =? FormatBinary) with false. cbv iota.
  unfold formatNumeric. cbn [of_rat v_class v_rat v_scale default from_option id]. rewrite FloatString_decimal by done.
  eexists. split; [done|]. by exists scale, k.
Qed.

Lemma accResult_asked asked q a xs :
  carries asked q a → small xs → ∃ v, accResult (acc_of a true xs) = Ok v ∧ answers q.1 xs v.
Proof.
  intros (Hf & _) Hs. pose proof (small_sum _ Hs) as [Hsum Hlen]. unfold acc_of. rewrite Hf.
  destruct q.1; cbn [accResult answers shardCell]; [..|by apply avgResult_ints].
  - unfold count_acc. rewrite vresult_int by done. by eexists.
  - unfold sum_acc. rewrite vresult_int by done. by eexists.
  - by eexists.
  - by eexists.
Qed.

Lemma window_fmap {A B} (f : A → B) lim rows : f <$> window lim rows = window lim (f <$> rows).
Proof. unfold window. rewrite <- fmap_drop. destruct (0 <=? Limit lim); [by rewrite fmap_take|done]. Qed.

Section Query.
Variables (asked wants : list question) (aggs : list Agg).
Hypothesis planned : Forall2 (carries asked) wants aggs.

(** The accumulators of all the aggregates. *)
Definition accs_of (started : bool) (v : nat → list Z) : list accumulator :=
  zip_with (λ q a, acc_of a started (v q.2)) wants aggs.

Lemma accs_of_ext started v v' : (∀ j, v j = v' j) → accs_of started v = accs_of started v'.
Proof.
  intros Hv. unfold accs_of. revert aggs planned. induction wants as [|q ws IH]; intros [|a as_] Hp; [done..|].
  cbn [zip_with]. rewrite Hv. f_equal. apply IH. by inversion Hp.
Qed.

Lemma asked_inside q a :
  carries asked q a → (Col a <? 0) || (Z.of_nat (length asked) <=? Col a) || (Z.of_nat (length asked) <=? Count a) = false.
Proof.
  intros (_ & Hc & Hq). rewrite (proj2 (Z.ltb_ge _ _)) by done. cbn [orb].
  assert (∀ i q', 0 ≤ i → asked !! Z.to_nat i = Some q' → i < Z.of_nat (length asked)) as Hin.
  { intros i q' Hi Hl%lookup_lt_Some. lia. }
  assert (∃ q', asked !! Z.to_nat (Col a) = Some q') as [q' Hcol] by (destruct q.1; naive_solver).
  assert (Count a = -1 ∨ 0 ≤ Count a ∧ ∃ q', asked !! Z.to_nat (Count a) = Some q') as Hcount by (destruct q.1; naive_solver).
  apply orb_false_iff. split; apply Z.leb_gt; [by eapply Hin|]. destruct Hcount as [->|[? [? ?]]]; [lia|by eapply Hin].
Qed.

Lemma newAccumulators_asked : newAccumulators aggs (shardColumn <$> asked) = Ok (accs_of false (λ _, [])).
Proof.
  unfold accs_of. induction planned as [|q a ws as_ Hq Hp IH]; [done|]. cbn [newAccumulators zip_with].
  rewrite length_fmap, (asked_inside _ _ Hq). rewrite (newAccumulator_asked _ _ _ Hq). cbn [mbind result_bind]. by rewrite (IH Hp).
Qed.

Lemma addAll_asked started v d :
  Forall (λ q, small (v q.2 ++ d q.2)) wants →
  addAll (accs_of started v) (shardRow asked d) = Ok (accs_of true (λ j, v j ++ d j)).
Proof.
  unfold accs_of. induction planned as [|q a ws as_ Hq Hp IH]; intros Hs; [done|]. cbn [addAll zip_with].
  apply Forall_cons in Hs as [Hs1 Hs2]. destruct (small_app _ _ Hs1). rewrite (accAdd_asked _ _ _ _ _ _ Hq) by done.
  cbn [mbind result_bind]. by rewrite (IH Hp).
Qed.

Lemma results_asked v :
  Forall (λ q, small (v q.2)) wants →
  ∃ vs, results (accs_of true v) = Ok vs ∧ Forall2 (λ q, answers q.1 (v q.2)) wants vs.
Proof.
  unfold accs_of. induction planned as [|q a ws as_ Hq Hp IH]; intros Hs; [by exists []|]. cbn [results zip_with].
  apply Forall_cons in Hs as [Hs1 Hs2]. destruct (accResult_asked _ _ _ _ Hq Hs1) as (r & -> & Hr). cbn [mbind result_bind].
  destruct (IH Hp Hs2) as (vs & -> & Hvs). exists (r :: vs). by split; [|constructor].
Qed.

Lemma foldShards_asked started v ds :
  ds ≠ [] → Forall (λ q, small (v q.2 ++ whole ds q.2)) wants →
  foldShards (length asked) (accs_of started v) (shardSource asked <$> ds) = Ok (accs_of true (λ j, v j ++ whole ds j)).
Proof.
  revert started v. induction ds as [|d ds IH]; intros started v Hn Hs; [done|].
  cbn [fmap list_fmap foldShards]. unfold Next. cbn [shardSource s_rows s_end].
  unfold shardRow at 1. rewrite length_fmap, Nat.eqb_refl. cbn [negb].
  assert (∀ j, v j ++ whole (d :: ds) j = (v j ++ d j) ++ whole ds j) as E by (intros j; by rewrite <- app_assoc).
  rewrite addAll_asked by (eapply Forall_impl; [exact Hs|]; intros q; cbv beta; rewrite E; intros Hq; by apply small_app in Hq as [? _]).
  cbn [mbind result_bind]. rewrite (accs_of_ext _ (λ j, v j ++ whole (d :: ds) j) _ E). destruct ds as [|d' ds].
  - cbn [fmap list_fmap foldShards]. f_equal. apply accs_of_ext. intros j. by rewrite app_nil_r.
  - apply IH; [done|]. eapply Forall_impl; [exact Hs|]. intros q. cbv beta. by rewrite E.
Qed.
End Query.

(** C18. Aggregates do not depend on how a table is divided.  A query asks for
    any list of aggregates (count, sum, min, max, avg), each of any of its
    expressions of type int4; every shard answers, in text, with one row of the
    partial results that the plan asks for, an avg being a sum and a count of
    its expression.  For any number of shards and any values in each, none and
    NULLs included, fewer than 2^31 of an expression in all, the router answers
    with one row (subject to LIMIT and OFFSET) of the count, sum, min and max
    of all the values; an avg is NULL if there are none, else the decimal
    nearest to the true mean, halves away from zero, with at least sixteen
    significant digits. *)
Theorem aggregates_of_shards asked wants spec ds :
  client_reads emit → ds ≠ [] → wants ≠ [] →
  Forall2 (carries asked) wants (m_Aggregates spec) →
  length asked = (length wants + m_Hidden spec)%nat →
  Forall (λ q, small (whole ds q.2)) wants →
  let cols := shardColumn <$> asked in
  ∃ l vs, Merge emit spec cols (shardSource asked <$> ds) = (None, l) ∧
    got l = window (limitsOf spec cols) [vs] ∧
    Forall2 (λ q, answers q.1 (whole ds q.2)) wants vs.
Proof.
  intros Hc Hn Hw Hp Hl Hs cols. destruct (results_asked asked wants _ Hp (whole ds) Hs) as (vs & Hvs & Ha).
  pose proof (Forall2_length _ _ _ Hp) as Hlen. pose proof (Forall2_length _ _ _ Ha) as Hlen'.
  unfold Merge, combineAggregates. destruct (m_Aggregates spec) as [|a as_] eqn:E; [by destruct wants|]. rewrite <- E in *.
  assert (length cols = length asked) as Hcols by (unfold cols; by rewrite length_fmap).
  rewrite (proj2 (Nat.ltb_ge _ _)) by lia. unfold cols at 2. rewrite (newAccumulators_asked _ _ _ Hp). cbn [mbind result_bind].
  rewrite Hcols, (foldShards_asked _ _ _ Hp) by done. cbn [mbind result_bind].
  rewrite (accs_of_ext _ _ _ Hp _ _ (whole ds)), Hvs by done.
  destruct (push_limited emit (limitsOf spec cols) (mkLimiter 0 0 []) []
    (vs ++ replicate (length asked - length (m_Aggregates spec)) None))
    as (l & Hpush & _ & _ & Hgot); [done|unfold hidden_ok; cbn [limitsOf width Hidden]; lia|apply limited_nil|unfold fits; cbn [limitsOf width]; rewrite length_app, length_replicate; lia|].
  exists l, vs. split_and!; [exact Hpush| |done]. rewrite Hgot, window_fmap. cbn [app fmap list_fmap]. do 2 f_equal.
  unfold strip. cbn [limitsOf width Hidden]. apply take_app_length'. lia.
Qed.

End Transparent.

(** ** Reads over several shards *)

Section Reads.
Context `{Lib, FloatOps}.
Variables (emit : list row → row → option string) (spec : MergeSpec) (cols : list Column).
Abbreviation lim := (limitsOf spec cols).

(** C17. An ordered multi-shard read returns the shards' rows in order: from
    shards that each return theirs sorted, the client gets the OFFSET and
    LIMIT of one sequence that holds exactly every shard's rows, in the
    shard's order, sorted by the ORDER BY keys and, between equal keys, by
    shard, with the columns the router added dropped. *)
Theorem Merge_ordered sources rc :
  client_reads emit → (m_Hidden spec ≤ length cols)%nat → m_Aggregates spec = [] → m_OrderBy spec ≠ [] →
  NewRowComparator (m_OrderBy spec) cols (Z.of_nat (m_Hidden spec)) = Ok rc →
  Forall (ordered_source lim rc) sources →
  ∃ l out, Merge emit spec cols sources = (None, l) ∧
    got l = strip lim <$> window lim (snd <$> out) ∧
    StronglySorted (merge_le rc) out ∧
    (∀ i s, sources !! i = Some s → snd <$> filter (λ x, x.1 = i) out = s_rows s) ∧
    Forall (λ x, (x.1 < length sources)%nat) out.
Proof.
  intros Hc Hh Ha Ho Hrc Hs. unfold Merge. rewrite Ha. destruct (m_OrderBy spec) as [|k ks] eqn:E; [done|].
  by apply mergeOrdered_spec.
Qed.

(** Without an ORDER BY the client gets the OFFSET and LIMIT of the shards'
    rows one shard after the other. *)
Theorem Merge_unordered sources :
  client_reads emit → (m_Hidden spec ≤ length cols)%nat → m_Aggregates spec = [] → m_OrderBy spec = [] →
  Forall (plain_source lim) sources →
  ∃ l, Merge emit spec cols sources = (None, l) ∧ got l = strip lim <$> window lim (mjoin (s_rows <$> sources)).
Proof.
  intros Hc Hh Ha Ho Hs. unfold Merge. rewrite Ha, Ho.
  apply (concatenate_spec emit lim (mkLimiter 0 0 []) []); [done..|apply limited_nil].
Qed.

End Reads.

Module Example.

#[local] Instance noLib : Lib := {|
  ParseFloat _ := None; RatSetString _ := None; ScanNumeric _ := None; EncodeNumeric _ := Err ErrPanic;
  Time := unit; ParseTime _ _ := None; Unix _ := 0; Nanosecond _ := 0; Year _ := 0; AddDate t _ _ _ := t |}.
#[local] Instance noFloats : FloatOps := {|
  fadd _ _ := FNaN; fdiv _ _ := FNaN; float64_of_int _ := FNaN; to_float32 f := f; Float64bits _ := 0; Float32bits _ := 0;
  FormatFloatLib _ _ _ := [] |}.
Definition client (got : list row) (r : row) : option string := None.
Lemma client_ok : client_reads client.
Proof. by intros ? ?. Qed.

(** Five aggregates of two expressions, over three shards of which one is
    empty; the avg is computed from the last two columns. *)
Definition asked : list question :=
  [(AggCount, 0); (AggSum, 0); (AggMin, 0); (AggMax, 1); (AggSum, 1); (AggCount, 1)]%nat.
Definition wants : list question := [(AggCount, 0); (AggSum, 0); (AggMin, 0); (AggMax, 1); (AggAvg, 1)]%nat.
Definition stats : MergeSpec :=
  mkMergeSpec 1 [] (-1) (-1)
    [mkAgg AggCount 0 (-1); mkAgg AggSum 1 (-1); mkAgg AggMin 2 (-1); mkAgg AggMax 3 (-1); mkAgg AggAvg 4 5].
Definition shards : list (nat → list Z) :=
  [λ j, if (j =? 0)%nat then [3; -1] else [1; 2]; λ _, []; λ j, if (j =? 0)%nat then [8; 8; 2] else [2]].
Definition statsRow : row := Some ∘ bytes_of <$> ["5"; "20"; "-1"; "2"; "1.6666666666666667"].

Lemma stats_small : Forall (λ q, small (whole shards q.2)) wants.
Proof.
  assert (∀ xs, forallb (λ x, (- two31 <=? x) && (x <? two31)) xs && (Z.of_nat (length xs) <? two31) = true → small xs) as Hb.
  { intros xs [Hx Hl%Z.ltb_lt]%andb_true_iff. split; [|done]. apply Forall_forall. intros x Hin%list_elem_of_In.
    rewrite forallb_forall in Hx. apply Hx in Hin. unfold is_i32. lia. }
  repeat (apply Forall_cons; split; [apply Hb; vm_compute; reflexivity|]). by apply Forall_nil.
Qed.

Lemma aggregates_of_shards_witness :
  ∃ l, Merge client stats (shardColumn <$> asked) (shardSource asked <$> shards) = (None, l) ∧ got l = [statsRow] ∧
    Forall2 (λ q, answers q.1 (whole shards q.2)) wants statsRow.
Proof.
  destruct (aggregates_of_shards client asked wants stats shards client_ok) as (l & vs & Hl & Hg & Ha).
  - done.
  - done.
  - repeat constructor; (done || lia).
  - done.
  - exact stats_small.
  - assert (Merge client stats (shardColumn <$> asked) (shardSource asked <$> shards) = (None, mkLimiter 1 1 [statsRow])) as E
      by (vm_compute; reflexivity).
    rewrite E in Hl. injection Hl as <-. exists (mkLimiter 1 1 [statsRow]). split_and!; [exact E|done|].
    assert (vs = statsRow) as <-; [|exact Ha]. cbn [got] in Hg. change (window _ [vs]) with [vs] in Hg. by injection Hg.
Defined.

Lemma weightAndFirstDigit_spec_witness :
  ∃ weight first shift n, weightAndFirstDigit (Some (123456789 # 100)%Q) = Some (weight, first) ∧
    (Qabs (123456789 # 100) * inject_Z (10000 ^ shift) == inject_Z n)%Q ∧ 0 ≤ shift ∧ 0 ≤ weight + shift ∧
    1 ≤ first < 10000 ∧ first * 10000 ^ (weight + shift) ≤ n < (first + 1) * 10000 ^ (weight + shift).
Proof. apply (weightAndFirstDigit_spec (123456789 # 100) 123456789 2); [lia|lia|reflexivity]. Defined.

(** ORDER BY the second column descending, NULLs first, LIMIT 4 OFFSET 1, and
    the first column hidden behind the others. *)
Definition spec : MergeSpec :=
  mkMergeSpec 1 [mkPlanKey 0 true true true false] 4 1 [].
Definition cols : list Column := [mkColumn oidText FormatText; mkColumn oidInt4 FormatText].
Definition r (name : string) (n : option string) : row := [Some (bytes_of name); bytes_of <$> n].
Definition shard1 : Source := mkSource [r "a" None; r "b" (Some "30"); r "c" (Some "7")] None.
Definition shard2 : Source := mkSource [r "d" (Some "30"); r "e" (Some "-5")] None.
Definition rc : RowComparator :=
  [mkResolvedKey 1 true true (λ a b, x ← decodeIntText a; y ← decodeIntText b; Ok (compareValues famInt x y)) decodeIntText famInt].

Lemma shards_ordered : Forall (ordered_source (limitsOf spec cols) rc) [shard1; shard2].
Proof.
  repeat constructor; cbn; try (by eexists; vm_compute; reflexivity).
  all: try (unfold row_le; eexists _, _; split_and!; [vm_compute; reflexivity|vm_compute; reflexivity|by vm_compute]).
Qed.

Lemma Merge_ordered_witness :
  ∃ l out, Merge client spec cols [shard1; shard2] = (None, l) ∧
    got l = strip (limitsOf spec cols) <$> window (limitsOf spec cols) (snd <$> out) ∧
    got l = (λ s, [Some (bytes_of s)]) <$> ["b"; "d"; "c"; "e"] ∧ StronglySorted (merge_le rc) out.
Proof.
  destruct (Merge_ordered client spec cols [shard1; shard2] rc client_ok) as (l & out & Hl & Hg & Hs & _).
  - vm_compute. lia.
  - reflexivity.
  - done.
  - reflexivity.
  - exact shards_ordered.
  - exists l, out. split_and!; [exact Hl|exact Hg| |exact Hs].
    assert (got (Merge client spec cols [shard1; shard2]).2 = (λ s, [Some (bytes_of s)]) <$> ["b"; "d"; "c"; "e"]) as E
      by (vm_compute; reflexivity).
    by rewrite Hl in E.
Defined.

Lemma Compare_is_CompareKeys_witness :
  Compare rc (r "a" None) (r "b" (Some "30")) = Ok (-1) ∧ Compare rc (r "b" (Some "30")) (r "e" (Some "-5")) = Ok (-1).
Proof.
  split.
  - exact (Compare_is_CompareKeys (m_OrderBy spec) cols 1 rc (r "a" None) (r "b" (Some "30")) [None] [Some (of_int 30)]
      eq_refl eq_refl eq_refl).
  - exact (Compare_is_CompareKeys (m_OrderBy spec) cols 1 rc (r "b" (Some "30")) (r "e" (Some "-5")) [Some (of_int 30)]
      [Some (of_int (-5))] eq_refl eq_refl eq_refl).
Defined.

Lemma Merge_unordered_witness :
  ∃ l, Merge client (mkMergeSpec 0 [] 2 1 []) cols [shard1; shard2] = (None, l) ∧
    got l = [r "b" (Some "30"); r "c" (Some "7")].
Proof.
  destruct (Merge_unordered client (mkMergeSpec 0 [] 2 1 []) cols [shard1; shard2] client_ok) as (l & Hl & Hg).
  - vm_compute. lia.
  - reflexivity.
  - reflexivity.
  - repeat constructor.
  - exists l. split; [exact Hl|]. rewrite Hg. vm_compute. reflexivity.
Defined.

End Example.
