(* ===== verification/Pool.v ===== *)
(** * The pooler's backend pool ([src/internal/pooler/pool.go])

    Backends of one shard are shared by role and database within a budget.
    The pool is a state with a step for every critical section and channel
    operation of the code, and any number of calls run interleaved.  Channels
    of tokens are their lengths, a waiter's one-place channel a flag. *)

From S2P Require Import Prelude.

Local Open Scope Z_scope.

(** ** Configuration *)

Record PoolConfig := mkPoolConfig {
  MaxBackends : Z; MaxPerRole : Z; SuperuserRoles : list string; MaxPerSuperuser : Z;
  MaxLifetime : Z; MaxIdleTime : Z; AcquireTimeout : Z }.

Definition DefaultMaxPerSuperuser : Z := 7.
Definition second : Z := 1000000000.

Definition withDefaults (c : PoolConfig) : PoolConfig :=
  let backends := if MaxBackends c <=? 0 then 100 else MaxBackends c in
  let perRole := if (MaxPerRole c <=? 0) || (backends <? MaxPerRole c) then backends else MaxPerRole c in
  let timeout := if AcquireTimeout c <=? 0 then 5 * second else AcquireTimeout c in
  let perSuper := if MaxPerSuperuser c <=? 0 then DefaultMaxPerSuperuser else MaxPerSuperuser c in
  let perSuper := if perRole <? perSuper then perRole else perSuper in
  mkPoolConfig backends perRole (SuperuserRoles c) perSuper (MaxLifetime c) (MaxIdleTime c) timeout.

(** ** State *)

Abbreviation poolKey := (string * string)%type (only parsing).

(** A backend.  [b_slot] is whether it still holds its budget slots; [b_given]
    and [b_ticket] are which handout of it a caller has: they only name what
    callers may do. *)
Record Backend := mkBackend {
  b_database : string; b_role : string; credDigest : bytes; born : Z; lastUsed : Z;
  txIdle : bool; broken : bool; unflushed : bool; released : bool; conn : bool;
  b_slot : bool; b_given : bool; b_ticket : nat }.

Definition set_released (r : bool) (b : Backend) : Backend :=
  mkBackend (b_database b) (b_role b) (credDigest b) (born b) (lastUsed b) (txIdle b) (broken b) (unflushed b) r (conn b)
    (b_slot b) (b_given b) (b_ticket b).
Definition set_broken (b : Backend) : Backend :=
  mkBackend (b_database b) (b_role b) (credDigest b) (born b) (lastUsed b) (txIdle b) true (unflushed b) (released b) (conn b)
    (b_slot b) (b_given b) (b_ticket b).
Definition close_conn (b : Backend) : Backend :=
  mkBackend (b_database b) (b_role b) (credDigest b) (born b) (lastUsed b) (txIdle b) (broken b) (unflushed b) (released b) false
    (b_slot b) (b_given b) (b_ticket b).
Definition drop_slot (b : Backend) : Backend :=
  mkBackend (b_database b) (b_role b) (credDigest b) (born b) (lastUsed b) (txIdle b) (broken b) (unflushed b) (released b) (conn b)
    false (b_given b) (b_ticket b).
(** Taken from the idle list: a new handout, not given to a caller yet. *)
Definition take_out (b : Backend) : Backend :=
  mkBackend (b_database b) (b_role b) (credDigest b) (born b) (lastUsed b) (txIdle b) (broken b) (unflushed b) false (conn b)
    (b_slot b) false (S (b_ticket b)).
Definition give (b : Backend) : Backend :=
  mkBackend (b_database b) (b_role b) (credDigest b) (born b) (lastUsed b) (txIdle b) (broken b) (unflushed b) (released b) (conn b)
    (b_slot b) true (b_ticket b).
(** What its user does to it. *)
Definition use (used : Z) (tx brk unf : bool) (b : Backend) : Backend :=
  mkBackend (b_database b) (b_role b) (credDigest b) (born b) used tx brk unf (released b) (conn b)
    (b_slot b) (b_given b) (b_ticket b).

Record pool := mkPool {
  total : nat; sems : gmap string nat;
  idle : gmap poolKey (list nat); role_waiters : gmap poolKey (list nat); budget : list nat;
  wakeups : gset nat; next_waiter : nat;
  closed : bool; backends : gmap nat Backend; clock : Z }.

Definition newPool (now : Z) : pool := mkPool 0 ∅ ∅ ∅ [] ∅ 0 false ∅ now.

Definition idleOf (p : pool) (k : poolKey) : list nat := default [] (idle p !! k).
Definition waitersOf (p : pool) (k : poolKey) : list nat := default [] (role_waiters p !! k).
Definition sem (p : pool) (role : string) : nat := default 0%nat (sems p !! role).

Definition with_total (p : pool) (n : nat) : pool :=
  mkPool n (sems p) (idle p) (role_waiters p) (budget p) (wakeups p) (next_waiter p) (closed p) (backends p) (clock p).
Definition with_sem (p : pool) (role : string) (n : nat) : pool :=
  mkPool (total p) (<[role := n]> (sems p)) (idle p) (role_waiters p) (budget p) (wakeups p) (next_waiter p) (closed p) (backends p) (clock p).
Definition with_idle (p : pool) (k : poolKey) (l : list nat) : pool :=
  mkPool (total p) (sems p) (<[k := l]> (idle p)) (role_waiters p) (budget p) (wakeups p) (next_waiter p) (closed p) (backends p) (clock p).
Definition with_waiters (p : pool) (k : poolKey) (q : list nat) : pool :=
  mkPool (total p) (sems p) (idle p) (<[k := q]> (role_waiters p)) (budget p) (wakeups p) (next_waiter p) (closed p) (backends p) (clock p).
Definition with_budget (p : pool) (q : list nat) : pool :=
  mkPool (total p) (sems p) (idle p) (role_waiters p) q (wakeups p) (next_waiter p) (closed p) (backends p) (clock p).
Definition with_wakeups (p : pool) (ws : gset nat) : pool :=
  mkPool (total p) (sems p) (idle p) (role_waiters p) (budget p) ws (next_waiter p) (closed p) (backends p) (clock p).
Definition with_next (p : pool) : pool :=
  mkPool (total p) (sems p) (idle p) (role_waiters p) (budget p) (wakeups p) (S (next_waiter p)) (closed p) (backends p) (clock p).
Definition with_closed (p : pool) : pool :=
  mkPool (total p) (sems p) (idle p) (role_waiters p) (budget p) (wakeups p) (next_waiter p) true (backends p) (clock p).
Definition with_backends (p : pool) (bs : gmap nat Backend) : pool :=
  mkPool (total p) (sems p) (idle p) (role_waiters p) (budget p) (wakeups p) (next_waiter p) (closed p) bs (clock p).
Definition with_clock (p : pool) (t : Z) : pool :=
  mkPool (total p) (sems p) (idle p) (role_waiters p) (budget p) (wakeups p) (next_waiter p) (closed p) (backends p) t.
Definition update (p : pool) (b : nat) (f : Backend → Backend) : pool := with_backends p (alter f b (backends p)).

(** ** Waiters *)

(** A queue of waiters: a role's, or the budget's. *)
Inductive queue := QRole (k : poolKey) | QBudget.
Definition queueOf (p : pool) (q : queue) : list nat :=
  match q with QRole k => waitersOf p k | QBudget => budget p end.
Definition set_queue (p : pool) (q : queue) (l : list nat) : pool :=
  match q with QRole k => with_waiters p k l | QBudget => with_budget p l end.

Definition wake (p : pool) (w : nat) : pool := with_wakeups p ({[w]} ∪ wakeups p).
Definition park (p : pool) (q : queue) (w : nat) : pool :=
  let p := with_wakeups p (wakeups p ∖ {[w]}) in set_queue p q (queueOf p q ++ [w]).
Definition wakeOne (p : pool) (q : queue) : pool :=
  match queueOf p q with
  | [] => p
  | w :: l => wake (set_queue p q l) w
  end.
Definition wakeAll (p : pool) (q : queue) : pool :=
  set_queue (foldl wake p (queueOf p q)) q [].
(** [waitQueue.leave]: the queue without [w], if it was queued. *)
Fixpoint removeFirst (w : nat) (l : list nat) : option (list nat) :=
  match l with
  | [] => None
  | x :: l => if decide (x = w) then Some l else cons x <$> removeFirst w l
  end.
(** [Pool.leave]: a wake-up not used is handed on. *)
Definition leave (p : pool) (q : queue) (w : nat) : pool :=
  match removeFirst w (queueOf p q) with
  | Some l => set_queue p q l
  | None =>
      if decide (w ∈ wakeups p) then wakeOne (with_wakeups p (wakeups p ∖ {[w]})) q else p
  end.
Definition wakeFor (p : pool) (k : poolKey) : pool := wakeOne (wakeOne p (QRole k)) QBudget.

(** ** Critical sections *)

Section Pool.
Variables (cfg : PoolConfig) (sha256 : bytes → bytes).

(** [credDigest] *)
Definition keysDigest (clientKey serverKey : bytes) : bytes := sha256 (clientKey ++ 0 :: serverKey).

Definition superuser (role : string) : bool := bool_decide (role ≠ "") && bool_decide (role ∈ SuperuserRoles cfg).
(** The capacity of a role's semaphore. *)
Definition roleLimit (role : string) : Z := if superuser role then MaxPerSuperuser cfg else MaxPerRole cfg.

(** [Pool.role]: the pool of a key, and its role's semaphore, are there. *)
Definition rolePool (p : pool) (k : poolKey) : pool :=
  match idle p !! k with
  | Some _ => p
  | None =>
      let p := match sems p !! k.2 with Some _ => p | None => with_sem p k.2 0 end in
      with_idle p k []
  end.

Definition expired (p : pool) (b : Backend) : bool :=
  (0 <? MaxLifetime cfg) && (MaxLifetime cfg <? clock p - born b) ||
  (0 <? MaxIdleTime cfg) && (MaxIdleTime cfg <? clock p - lastUsed b).

(** [popIdle]'s critical section: the backend used last. *)
Definition popLast (p : pool) (k : poolKey) : option (nat * pool) :=
  match last (idleOf p k) with
  | None => None
  | Some b => Some (b, update (with_idle p k (take (length (idleOf p k) - 1) (idleOf p k))) b take_out)
  end.

(** The least recently used idle backend of the keys, in the order a map
    yields them: its key and index. *)
Definition used_at (p : pool) (b : nat) : Z := from_option lastUsed 0 (backends p !! b).
Fixpoint scanIdle (p : pool) (k : poolKey) (i : nat) (l : list nat) (best : option (nat * poolKey * nat)) :
    option (nat * poolKey * nat) :=
  match l with
  | [] => best
  | b :: l =>
      let best' := match best with
                   | None => Some (b, k, i)
                   | Some (v, _, _) => if used_at p b <? used_at p v then Some (b, k, i) else best
                   end in
      scanIdle p k (S i) l best'
  end.
Fixpoint victim (p : pool) (keys : list poolKey) (best : option (nat * poolKey * nat)) : option (nat * poolKey * nat) :=
  match keys with
  | [] => best
  | k :: keys => victim p keys (scanIdle p k 0 (idleOf p k) best)
  end.
(** [evictIdle] and [evictIdleOfRole] take it from its list. *)
Definition evict (p : pool) (keys : list poolKey) : option (nat * poolKey * pool) :=
  match victim p keys None with
  | None => None
  | Some (b, k, i) => Some (b, k, with_idle p k (take i (idleOf p k) ++ drop (S i) (idleOf p k)))
  end.
Definition poolKeys (p : pool) : list poolKey := (map_to_list (idle p)).*1.
(** The keys [evictIdleOfRole] looks at: the role's in other databases. *)
Definition otherDatabases (k : poolKey) (keys : list poolKey) : list poolKey :=
  filter (λ k', k'.2 = k.2 ∧ k' ≠ k) keys.

(** [release]: nothing for a backend already returned; else it joins the idle
    list, or is to be closed. *)
Inductive release_outcome := ReNothing | ReKept | ReClose.
Definition release (p : pool) (b : nat) (brk : bool) : release_outcome * pool :=
  match backends p !! b with
  | None => (ReNothing, p)
  | Some be =>
      if released be then (ReNothing, p)
      else
        let be := set_released true be in
        let be := if brk then set_broken be else be in
        let k := (b_database be, b_role be) in
        let p := rolePool (with_backends p (<[b := be]> (backends p))) k in
        let keep := negb (closed p) && negb (broken be) && negb (unflushed be) && txIdle be && negb (expired p be) in
        if keep then (ReKept, wakeFor (with_idle p k (idleOf p k ++ [b])) k)
        else (ReClose, update p b drop_slot)
  end.
(** [Abandon] *)
Definition abandon (p : pool) (b : nat) : release_outcome * pool :=
  match backends p !! b with
  | None => (ReNothing, p)
  | Some be =>
      if released be then (ReNothing, p)
      else
        let p := rolePool (with_backends p (<[b := set_broken (set_released true be)]> (backends p))) (b_database be, b_role be) in
        (ReClose, update p b drop_slot)
  end.

(** [reapOnce]: the expired idle backends leave their lists. *)
Definition is_expired (p : pool) (b : nat) : bool := from_option (expired p) false (backends p !! b).
Definition kept (p : pool) : gmap poolKey (list nat) := filter (λ b, is_expired p b = false) <$> idle p.
Definition idleWhere (p : pool) (P : nat → bool) : list (nat * poolKey) :=
  map_to_list (idle p) ≫= λ '(k, l), (λ b, (b, k)) <$> filter (λ b, P b = true) l.
Definition dead (p : pool) : list (nat * poolKey) := idleWhere p (is_expired p).
Definition drop_slots (bs : gmap nat Backend) (l : list nat) : gmap nat Backend := foldr (alter drop_slot) bs l.
Definition reap (p : pool) : pool :=
  mkPool (total p) (sems p) (kept p) (role_waiters p) (budget p) (wakeups p) (next_waiter p) (closed p)
    (drop_slots (backends p) (dead p).*1) (clock p).

(** [Close]: everyone is woken, the idle lists are emptied. *)
Definition all_idle (p : pool) : list (nat * poolKey) := idleWhere p (λ _, true).
Definition wakeEveryone (p : pool) : pool :=
  foldl (λ p k, wakeAll p (QRole k)) (wakeAll p QBudget) (map_to_list (role_waiters p)).*1.
Definition close_pool (p : pool) : pool :=
  let p := wakeEveryone (with_closed p) in
  mkPool (total p) (sems p) ((λ _, []) <$> idle p) (role_waiters p) (budget p) (wakeups p) (next_waiter p) (closed p)
    (drop_slots (backends p) (all_idle p).*1) (clock p).

(** [Stats] *)
Definition Stats (p : pool) : nat * nat := (total p, length (all_idle p)).

(** ** Calls *)

Record request := mkRequest { rq_database : string; rq_role : string; clientKey : bytes; serverKey : bytes }.
Definition rq_key (rq : request) : poolKey := (rq_database rq, rq_role rq).
Definition rq_digest (rq : request) : bytes := keysDigest (clientKey rq) (serverKey rq).

Inductive pool_err := ErrPoolClosed | ErrBudgetExhausted | ErrCanceled | ErrDial (e : string).
Inductive answer := GotBackend (rq : request) (b ticket : nat) | Failed (e : pool_err) | Returned.

(** Where a call is.  [CloseConn b k]: about to close the connection of [b];
    [FreeTotal r k] and [FreeSem r k]: in [free], about to receive from the
    budget's and the role's channel. *)
Inductive pc :=
| Acquire (rq : request)
| PopFirst (rq : request)
| PopCheck (rq : request) (b : nat) (w : option nat)
| TrySem (rq : request)
| ParkRole (rq : request) (w : option nat)
| PopAgain (rq : request) (w : nat)
| EvictRole (rq : request) (w : nat)
| SelectRole (rq : request) (w : nat)
| TryTotal (rq : request) (w : option nat)
| ParkBudget (rq : request) (w : option nat)
| EvictAny (rq : request) (w : nat)
| SelectBudget (rq : request) (w : nat)
| WokenBudget (rq : request) (w : nat)
| DropSem (rq : request) (e : pool_err)
| CheckClosed (rq : request)
| Dial (rq : request)
| Leave (q : queue) (w : nat) (k : pc)
| CloseConn (b : nat) (k : pc)
| FreeTotal (role : string) (k : pc)
| FreeSem (role : string) (k : pc)
| Release (b ticket : nat) (brk : bool)
| Abandon (b ticket : nat)
| ReapOnce
| WakeAfterReap (ks : list poolKey)
| Close
| Done (a : answer).

(** [b.close(); p.free(rp)], then [k]. *)
Definition discard (b : nat) (role : string) (k : pc) : pc := CloseConn b (FreeTotal role (FreeSem role k)).
Fixpoint discard_all (l : list (nat * poolKey)) (k : pc) : pc :=
  match l with
  | [] => k
  | (b, key) :: l => discard b key.2 (discard_all l k)
  end.

(** [popIdle] called by [Acquire], or by [awaitSlot] with its waiter: the loop
    again, and what follows a backend found. *)
Definition pop_again (rq : request) (w : option nat) : pc :=
  match w with None => PopFirst rq | Some w => PopAgain rq w end.
Definition pop_found (rq : request) (b ticket : nat) (w : option nat) : pc :=
  match w with
  | None => Done (GotBackend rq b ticket)
  | Some w => Leave (QRole (rq_key rq)) w (Done (GotBackend rq b ticket))
  end.
(** Expired, or authenticated with other keys. *)
Definition unusable (p : pool) (rq : request) (be : Backend) : bool :=
  expired p be || bool_decide (credDigest be ≠ rq_digest rq).

Definition new_backend (p : pool) (rq : request) : Backend :=
  mkBackend (rq_database rq) (rq_role rq) (rq_digest rq) (clock p) (clock p) true false false false true true true 0.

(** [Acquire], with the slots it has by then. *)
Inductive acquire_step : pool → pc → pool → pc → Prop :=
| step_acquire_closed p rq : closed p = true → acquire_step p (Acquire rq) p (Done (Failed ErrPoolClosed))
| step_acquire p rq : closed p = false → acquire_step p (Acquire rq) (rolePool p (rq_key rq)) (PopFirst rq)
| step_sem p rq :
    Z.of_nat (sem p (rq_role rq)) < roleLimit (rq_role rq) →
    acquire_step p (TrySem rq) (with_sem p (rq_role rq) (S (sem p (rq_role rq)))) (TryTotal rq None)
| step_sem_full p rq :
    roleLimit (rq_role rq) ≤ Z.of_nat (sem p (rq_role rq)) → acquire_step p (TrySem rq) p (ParkRole rq None)
| step_dropsem p rq e n :
    sem p (rq_role rq) = S n → acquire_step p (DropSem rq e) (with_sem p (rq_role rq) n) (Done (Failed e))
| step_checkclosed p rq :
    acquire_step p (CheckClosed rq) p
      (if closed p then FreeTotal (rq_role rq) (FreeSem (rq_role rq) (Done (Failed ErrPoolClosed))) else Dial rq)
| step_dial p rq b :
    backends p !! b = None →
    acquire_step p (Dial rq) (with_backends p (<[b := new_backend p rq]> (backends p))) (Done (GotBackend rq b 0))
| step_dial_fails p rq e :
    acquire_step p (Dial rq) p (FreeTotal (rq_role rq) (FreeSem (rq_role rq) (Done (Failed (ErrDial e))))).

(** [popIdle], called by [Acquire] or by [awaitSlot]: the critical section, then the look at what it took. *)
Inductive popIdle_step : pool → pc → pool → pc → Prop :=
| step_pop_none p rq : idleOf p (rq_key rq) = [] → popIdle_step p (PopFirst rq) p (TrySem rq)
| step_pop p p' rq b : popLast p (rq_key rq) = Some (b, p') → popIdle_step p (PopFirst rq) p' (PopCheck rq b None)
| step_popagain_none p rq w : idleOf p (rq_key rq) = [] → popIdle_step p (PopAgain rq w) p (EvictRole rq w)
| step_popagain p p' rq w b :
    popLast p (rq_key rq) = Some (b, p') → popIdle_step p (PopAgain rq w) p' (PopCheck rq b (Some w))
| step_pop_stale p rq b w be :
    backends p !! b = Some be → unusable p rq be = true →
    popIdle_step p (PopCheck rq b w) (update p b drop_slot) (discard b (rq_role rq) (pop_again rq w))
| step_pop_found p rq b w be :
    backends p !! b = Some be → unusable p rq be = false →
    popIdle_step p (PopCheck rq b w) (update p b give) (pop_found rq b (b_ticket be) w).

(** [awaitSlot]: queue, look at the own idle list, evict in another database, wait. *)
Inductive awaitSlot_step : pool → pc → pool → pc → Prop :=
| step_park_new p rq :
    let w := next_waiter p in
    awaitSlot_step p (ParkRole rq None) (park (with_next p) (QRole (rq_key rq)) w)
      (if closed p then Leave (QRole (rq_key rq)) w (Done (Failed ErrPoolClosed)) else PopAgain rq w)
| step_park_again p rq w :
    awaitSlot_step p (ParkRole rq (Some w)) (park p (QRole (rq_key rq)) w)
      (if closed p then Leave (QRole (rq_key rq)) w (Done (Failed ErrPoolClosed)) else PopAgain rq w)
| step_evictrole_none p rq w :
    evict p (otherDatabases (rq_key rq) (poolKeys p)) = None → awaitSlot_step p (EvictRole rq w) p (SelectRole rq w)
| step_evictrole p p' rq w keys b k :
    keys ≡ₚ poolKeys p → evict p (otherDatabases (rq_key rq) keys) = Some (b, k, p') →
    awaitSlot_step p (EvictRole rq w) (update p' b drop_slot) (discard b k.2 (Leave (QRole (rq_key rq)) w (ParkRole rq None)))
| step_selectrole_slot p rq w :
    Z.of_nat (sem p (rq_role rq)) < roleLimit (rq_role rq) →
    awaitSlot_step p (SelectRole rq w) (with_sem p (rq_role rq) (S (sem p (rq_role rq)))) (Leave (QRole (rq_key rq)) w (TryTotal rq None))
| step_selectrole_woken p rq w :
    w ∈ wakeups p →
    awaitSlot_step p (SelectRole rq w) (with_wakeups p (wakeups p ∖ {[w]})) (Leave (QRole (rq_key rq)) w (ParkRole rq (Some w)))
| step_selectrole_ctx p rq w e :
    e = ErrBudgetExhausted ∨ e = ErrCanceled →
    awaitSlot_step p (SelectRole rq w) p (Leave (QRole (rq_key rq)) w (Done (Failed e))).

(** [acquireTotal]: try, queue, evict any, wait. *)
Inductive acquireTotal_step : pool → pc → pool → pc → Prop :=
| step_total p rq w :
    Z.of_nat (total p) < MaxBackends cfg → acquireTotal_step p (TryTotal rq w) (with_total p (S (total p))) (CheckClosed rq)
| step_total_full p rq w : MaxBackends cfg ≤ Z.of_nat (total p) → acquireTotal_step p (TryTotal rq w) p (ParkBudget rq w)
| step_parkbudget_new p rq :
    let w := next_waiter p in acquireTotal_step p (ParkBudget rq None) (park (with_next p) QBudget w) (EvictAny rq w)
| step_parkbudget_again p rq w : acquireTotal_step p (ParkBudget rq (Some w)) (park p QBudget w) (EvictAny rq w)
| step_evict_none p rq w : evict p (poolKeys p) = None → acquireTotal_step p (EvictAny rq w) p (SelectBudget rq w)
| step_evict p p' rq w keys b k :
    keys ≡ₚ poolKeys p → evict p keys = Some (b, k, p') →
    acquireTotal_step p (EvictAny rq w) (update p' b drop_slot) (discard b k.2 (Leave QBudget w (TryTotal rq (Some w))))
| step_selectbudget_slot p rq w :
    Z.of_nat (total p) < MaxBackends cfg →
    acquireTotal_step p (SelectBudget rq w) (with_total p (S (total p))) (Leave QBudget w (CheckClosed rq))
| step_selectbudget_woken p rq w :
    w ∈ wakeups p → acquireTotal_step p (SelectBudget rq w) (with_wakeups p (wakeups p ∖ {[w]})) (WokenBudget rq w)
| step_selectbudget_ctx p rq w e :
    e = ErrBudgetExhausted ∨ e = ErrCanceled → acquireTotal_step p (SelectBudget rq w) p (Leave QBudget w (DropSem rq e))
| step_woken p rq w :
    acquireTotal_step p (WokenBudget rq w) p (Leave QBudget w (if closed p then DropSem rq ErrPoolClosed else TryTotal rq (Some w))).

(** [leave] *)
Inductive leave_step : pool → pc → pool → pc → Prop :=
| step_leave p q w k : leave_step p (Leave q w k) (leave p q w) k.

(** [close] of a backend, and [free]. *)
Inductive free_step : pool → pc → pool → pc → Prop :=
| step_closeconn p b k : free_step p (CloseConn b k) (update p b close_conn) k
| step_freetotal p r k n : total p = S n → free_step p (FreeTotal r k) (with_total p n) k
| step_freesem p r k n : sem p r = S n → free_step p (FreeSem r k) (with_sem p r n) k.

(** [release] and [Abandon] *)
Inductive release_step : pool → pc → pool → pc → Prop :=
| step_release p b t brk :
    release_step p (Release b t brk) (release p b brk).2
      (match (release p b brk).1, backends p !! b with
       | ReClose, Some be => discard b (b_role be) (Done Returned)
       | _, _ => Done Returned
       end)
| step_abandon p b t :
    release_step p (Abandon b t) (abandon p b).2
      (match (abandon p b).1, backends p !! b with
       | ReClose, Some be => CloseConn b (FreeTotal (b_role be) (FreeSem (b_role be) (Done Returned)))
       | _, _ => Done Returned
       end).

(** [reapOnce] *)
Inductive reapOnce_step : pool → pc → pool → pc → Prop :=
| step_reap_closed p : closed p = true → reapOnce_step p ReapOnce p (Done Returned)
| step_reap p d :
    closed p = false → d ≡ₚ dead p →
    reapOnce_step p ReapOnce (reap p) (discard_all d (if d is [] then Done Returned else WakeAfterReap d.*2))
| step_wakeafterreap p ks : reapOnce_step p (WakeAfterReap ks) (foldl wakeFor p ks) (Done Returned).

(** [Close] *)
Inductive Close_step : pool → pc → pool → pc → Prop :=
| step_close p d : d ≡ₚ all_idle p → Close_step p Close (close_pool p) (discard_all d (Done Returned)).

Inductive step (p : pool) (c : pc) (p' : pool) (c' : pc) : Prop :=
| by_acquire_step : acquire_step p c p' c' → step p c p' c'
| by_popIdle_step : popIdle_step p c p' c' → step p c p' c'
| by_awaitSlot_step : awaitSlot_step p c p' c' → step p c p' c'
| by_acquireTotal_step : acquireTotal_step p c p' c' → step p c p' c'
| by_leave_step : leave_step p c p' c' → step p c p' c'
| by_free_step : free_step p c p' c' → step p c p' c'
| by_release_step : release_step p c p' c' → step p c p' c'
| by_reapOnce_step : reapOnce_step p c p' c' → step p c p' c'
| by_Close_step : Close_step p c p' c' → step p c p' c'.

(** ** Calls together *)

(** The calls of the pool's users. *)
Definition is_call (c : pc) : bool :=
  match c with
  | Acquire _ | Release _ _ _ | Abandon _ _ | Close => true
  | ReapOnce => 0 <? MaxIdleTime cfg
  | _ => false
  end.
(** A handout may be returned any number of times, but not after the pool has
    taken the backend out again. *)
Definition returns_own (p : pool) (c : pc) : Prop :=
  match c with
  | Release b t _ | Abandon b t => ∃ be, backends p !! b = Some be ∧ b_given be = true ∧ b_ticket be = t
  | _ => True
  end.

Inductive sys_step : pool * list pc → pool * list pc → Prop :=
| sys_call p cs c : is_call c = true → sys_step (p, cs) (p, cs ++ [c])
| sys_thread p p' cs i c c' :
    cs !! i = Some c → returns_own p c → step p c p' c' → sys_step (p, cs) (p', <[i := c']> cs)
| sys_clock p cs t : clock p ≤ t → sys_step (p, cs) (with_clock p t, cs)
| sys_use p cs b be used tx brk unf :
    backends p !! b = Some be → b_given be = true → (∀ k, b ∉ idleOf p k) →
    sys_step (p, cs) (update p b (use used tx brk unf), cs).

Definition init (now : Z) : pool * list pc := (newPool now, []).
Definition reachable (now : Z) (s : pool * list pc) : Prop := rtc sys_step (init now) s.

End Pool.
