(* ===== verification/PoolSafety.v ===== *)
(** * Accounting and handouts of the backend pool

    The invariant of [Pool.v]'s calls: tokens of the budget and of each role
    are the backends that hold slots plus the slots calls carry, idle backends
    are clean and returned, and a handout has one owner.  From it: the budget
    is never exceeded, [free] never blocks, [Acquire] answers with the
    caller's own credentials, and the pool implements an abstract budget. *)

From S2P Require Import Prelude Pool.

Local Open Scope Z_scope.

(** ** Counting *)

Definition b2n (b : bool) : nat := if b then 1%nat else 0%nat.
Definition countIf {A} (P : A → bool) (m : gmap nat A) : nat := map_fold (λ _ x n, (b2n (P x) + n)%nat) 0%nat m.

Lemma countIf_insert_new {A} (P : A → bool) m i x :
  m !! i = None → countIf P (<[i := x]> m) = (b2n (P x) + countIf P m)%nat.
Proof. intros H. unfold countIf. rewrite map_fold_insert_L; [done|intros; lia|done]. Qed.

Lemma countIf_insert {A} (P : A → bool) m i x y :
  m !! i = Some x → (countIf P (<[i := y]> m) + b2n (P x) = countIf P m + b2n (P y))%nat.
Proof.
  intros H. rewrite <- (insert_delete_id m i x H) at 2. rewrite <- insert_delete_eq.
  rewrite !countIf_insert_new by (apply lookup_delete_eq). lia.
Qed.

Lemma countIf_alter {A} (P : A → bool) m i x f :
  m !! i = Some x → (countIf P (alter f i m) + b2n (P x) = countIf P m + b2n (P (f x)))%nat.
Proof.
  intros H. replace (alter f i m) with (<[i := f x]> m); [by apply countIf_insert|].
  apply map_eq. intros j. destruct (decide (i = j)) as [-> |Hne].
  - by rewrite lookup_insert_eq, lookup_alter_eq, H.
  - by rewrite lookup_insert_ne, lookup_alter_ne.
Qed.

Lemma sum_insert {A} (f : A → nat) l i x y :
  l !! i = Some x → (sum_list_with f (<[i := y]> l) + f x = sum_list_with f l + f y)%nat.
Proof.
  revert i; induction l as [|z l IH]; intros [|i]; [done..| |]; simpl; intros Hi.
  - injection Hi as ->. lia.
  - specialize (IH i Hi). lia.
Qed.

Lemma sum_elem {A} (f : A → nat) l i x : l !! i = Some x → (f x ≤ sum_list_with f l)%nat.
Proof.
  revert i; induction l as [|z l IH]; intros [|i]; [done..| |]; simpl; intros Hi; [injection Hi as ->; lia|].
  specialize (IH i Hi). lia.
Qed.

(** ** What a call carries *)

(** Slots of the budget and of a role that a call holds or is freeing. *)
Fixpoint totHeld (c : pc) : nat :=
  match c with
  | CheckClosed _ | Dial _ => 1
  | Leave _ _ k | CloseConn _ k | FreeSem _ k => totHeld k
  | FreeTotal _ k => S (totHeld k)
  | _ => 0
  end%nat.
Definition is_role (r r' : string) : nat := b2n (bool_decide (r = r')).
Fixpoint semHeld (r : string) (c : pc) : nat :=
  match c with
  | TryTotal rq _ | ParkBudget rq _ | EvictAny rq _ | SelectBudget rq _ | WokenBudget rq _ | DropSem rq _
  | CheckClosed rq | Dial rq => is_role r (rq_role rq)
  | FreeSem r' k => is_role r r' + semHeld r k
  | Leave _ _ k | CloseConn _ k | FreeTotal _ k => semHeld r k
  | _ => 0
  end%nat.
(** Backends it is about to close, the one it took from an idle list, and the
    one it answers. *)
Fixpoint closing (c : pc) : list nat :=
  match c with
  | CloseConn b k => b :: closing k
  | Leave _ _ k | FreeTotal _ k | FreeSem _ k => closing k
  | _ => []
  end.
Definition popping (c : pc) : option (request * nat) :=
  match c with PopCheck rq b _ => Some (rq, b) | _ => None end.
Fixpoint got (c : pc) : option (request * nat * nat) :=
  match c with
  | Done (GotBackend rq b t) => Some (rq, b, t)
  | Leave _ _ k | CloseConn _ k | FreeTotal _ k | FreeSem _ k => got k
  | _ => None
  end.

(** What follows a step of [leave], [close] or [free] is not in the middle of
    [popIdle]. *)
Fixpoint follows (c : pc) : Prop :=
  match c with
  | Leave _ _ k | CloseConn _ k | FreeTotal _ k | FreeSem _ k => popping k = None ∧ follows k
  | _ => True
  end.

Definition be_key (be : Backend) : poolKey := (b_database be, b_role be).
(** Nothing of its last user is left in it. *)
Definition clean (be : Backend) : Prop := txIdle be = true ∧ broken be = false ∧ unflushed be = false.

Definition live (p : pool) : nat := countIf b_slot (backends p).
Definition live_role (p : pool) (r : string) : nat :=
  countIf (λ be, b_slot be && bool_decide (r = b_role be)) (backends p).

Lemma discard_all_held l k :
  totHeld (discard_all l k) = (length l + totHeld k)%nat ∧ closing (discard_all l k) = l.*1 ++ closing k ∧
  got (discard_all l k) = got k ∧
  ∀ r, semHeld r (discard_all l k) = (sum_list_with (λ x, is_role r x.2.2) l + semHeld r k)%nat.
Proof.
  induction l as [|[b key] l IH]; cbn; [done|]. destruct IH as (-> & -> & -> & IH).
  split_and!; [done..|]. intros r. rewrite IH. lia.
Qed.

Lemma discard_all_follows l k : popping k = None → follows k → follows (discard_all l k).
Proof.
  intros Hp Hf. assert (popping (discard_all l k) = None) as Hl by (by destruct l as [|[]]).
  induction l as [|[b key] l IH]; cbn; [done|]. assert (popping (discard_all l k) = None) as Hl' by (by destruct l as [|[]]).
  split_and!; auto.
Qed.

Section Safety.
Variables (cfg : PoolConfig) (sha256 : bytes → bytes).
Notation rq_digest := (rq_digest sha256).
Notation step := (step cfg sha256).
Notation sys_step := (sys_step cfg sha256).

(** ** The invariant *)

Record popping_ok (p : pool) (rq : request) (b : nat) : Prop := mk_popping_ok {
  pop_backend : ∃ be, backends p !! b = Some be ∧ b_slot be = true ∧ released be = false ∧ b_given be = false ∧
                      be_key be = rq_key rq ∧ clean be }.
Definition got_ok (p : pool) (rq : request) (b t : nat) : Prop :=
  ∃ be, backends p !! b = Some be ∧ be_key be = rq_key rq ∧ credDigest be = rq_digest rq ∧
        (t < b_ticket be ∨ t = b_ticket be ∧ b_given be = true)%nat.
Definition closing_ok (p : pool) (b : nat) : Prop := ∃ be, backends p !! b = Some be ∧ b_slot be = false.
Record call_ok (p : pool) (c : pc) : Prop := mk_call_ok {
  co_popping : ∀ rq b, popping c = Some (rq, b) → popping_ok p rq b;
  co_got : ∀ rq b t, got c = Some (rq, b, t) → got_ok p rq b t;
  co_closing : ∀ b, b ∈ closing c → closing_ok p b;
  co_follows : follows c }.

Record pool_ok (p : pool) : Prop := mk_pool_ok {
  po_max : Z.of_nat (total p) ≤ MaxBackends cfg;
  po_limit : ∀ r, Z.of_nat (sem p r) ≤ roleLimit cfg r;
  po_idle : ∀ k b, b ∈ idleOf p k →
    ∃ be, backends p !! b = Some be ∧ b_slot be = true ∧ released be = true ∧ be_key be = k ∧ clean be;
  po_nodup : ∀ k, NoDup (idleOf p k);
  po_live : ∀ b be, backends p !! b = Some be → b_slot be = true → released be = true → b ∈ idleOf p (be_key be);
  po_open : ∀ b be, backends p !! b = Some be → b_slot be = true → conn be = true;
  po_dead : ∀ b be, backends p !! b = Some be → b_slot be = false → released be = true ∨ b_given be = false }.

Record inv (p : pool) (cs : list pc) : Prop := mk_inv {
  in_pool : pool_ok p;
  in_total : total p = (live p + sum_list_with totHeld cs)%nat;
  in_sem : ∀ r, sem p r = (live_role p r + sum_list_with (semHeld r) cs)%nat;
  in_calls : ∀ i c, cs !! i = Some c → call_ok p c;
  in_pop : ∀ i j c c' rq rq' b, cs !! i = Some c → cs !! j = Some c' →
    popping c = Some (rq, b) → popping c' = Some (rq', b) → i = j;
  in_got : ∀ i j c c' rq rq' b t, cs !! i = Some c → cs !! j = Some c' →
    got c = Some (rq, b, t) → got c' = Some (rq', b, t) → i = j }.

(** ** What does not touch the accounting *)

Record same (p p' : pool) : Prop := mk_same {
  sa_total : total p' = total p;
  sa_sem : ∀ r, sem p' r = sem p r;
  sa_idle : ∀ k, idleOf p' k = idleOf p k;
  sa_backends : backends p' = backends p }.

#[global] Instance same_preorder : PreOrder same.
Proof.
  split; [done|]. intros p1 p2 p3 [A1 A2 A3 A4] [B1 B2 B3 B4].
  split; intros; [congruence| | |congruence]; [by rewrite B2|by rewrite B3].
Qed.

Lemma same_set_queue p q l : same p (set_queue p q l).
Proof. by destruct q. Qed.
Lemma same_wake p w : same p (wake p w).
Proof. done. Qed.
Lemma same_park p q w : same p (park p q w).
Proof. by destruct q. Qed.
Lemma same_wakeOne p q : same p (wakeOne p q).
Proof. unfold wakeOne. destruct (queueOf p q) as [|w l]; [done|]. by destruct q. Qed.
Lemma same_leave p q w : same p (leave p q w).
Proof.
  unfold leave. destruct (removeFirst _ _) as [l|]; [apply same_set_queue|].
  destruct (decide _); [|done]. etrans; [|apply same_wakeOne]. done.
Qed.
Lemma same_wakeFor p k : same p (wakeFor p k).
Proof. unfold wakeFor. etrans; apply same_wakeOne. Qed.
Lemma same_foldl {A} (f : pool → A → pool) l p : (∀ p x, same p (f p x)) → same p (foldl f p l).
Proof. intros Hf. revert p; induction l as [|x l IH]; intros p; cbn; [done|]. etrans; [apply Hf|apply IH]. Qed.
Lemma same_wakeAll p q : same p (wakeAll p q).
Proof. unfold wakeAll. etrans; [|apply same_set_queue]. by apply same_foldl. Qed.
Lemma same_rolePool p k : same p (rolePool p k).
Proof.
  unfold rolePool. destruct (idle p !! k) eqn:Ek; [done|].
  assert (same p (match sems p !! k.2 with Some _ => p | None => with_sem p k.2 0 end)) as Hs.
  { destruct (sems p !! k.2) eqn:E; [done|]. split; intros; try done.
    unfold sem; cbn. destruct (decide (k.2 = r)) as [<-|Hne]; [by rewrite lookup_insert_eq, E|by rewrite lookup_insert_ne]. }
  etrans; [exact Hs|]. split; intros; try done. unfold idleOf; cbn.
  destruct (decide (k = k0)) as [<-|Hne]; [|by rewrite lookup_insert_ne].
  rewrite lookup_insert_eq. destruct (sems p !! k.2); cbn; by rewrite Ek.
Qed.
Lemma same_wakeEveryone p : same p (wakeEveryone p).
Proof. unfold wakeEveryone. etrans; [apply same_wakeAll|]. apply same_foldl. intros; apply same_wakeAll. Qed.

Lemma same_live p p' : same p p' → live p' = live p ∧ ∀ r, live_role p' r = live_role p r.
Proof. intros []. unfold live, live_role. by rewrite sa_backends0. Qed.

Lemma pool_ok_same p p' : same p p' → pool_ok p → pool_ok p'.
Proof.
  intros [Ht Hs Hi Hb] []. split; intros.
  - by rewrite Ht.
  - by rewrite Hs.
  - rewrite Hb. rewrite Hi in *. eauto.
  - rewrite Hi. eauto.
  - rewrite Hb in *. rewrite Hi. eauto.
  - rewrite Hb in *. eauto.
  - rewrite Hb in *. eauto.
Qed.

(** ** One call's step, seen by the others *)

(** Identity stays; slots are not regained; tickets grow; a backend another
    call is looking at is left alone. *)
Definition evolves (own : option nat) (p p' : pool) : Prop :=
  ∀ b be, backends p !! b = Some be → ∃ be', backends p' !! b = Some be' ∧
    be_key be' = be_key be ∧ credDigest be' = credDigest be ∧ (b_slot be = false → b_slot be' = false) ∧
    (b_ticket be < b_ticket be' ∨ b_ticket be = b_ticket be' ∧ (b_given be = true → b_given be' = true))%nat ∧
    (own ≠ Some b → b_slot be = true → released be = false → b_given be = false → be' = be).

Lemma evolves_refl o p p' : backends p' = backends p → evolves o p p'.
Proof. intros E b be Hb. exists be. rewrite E. split_and!; auto. Qed.

Lemma evolves_at o p p' b be' :
  backends p' = <[b := be']> (backends p) →
  (∀ be, backends p !! b = Some be → be_key be' = be_key be ∧ credDigest be' = credDigest be ∧
     (b_slot be = false → b_slot be' = false) ∧
     (b_ticket be < b_ticket be' ∨ b_ticket be = b_ticket be' ∧ (b_given be = true → b_given be' = true))%nat ∧
     (o ≠ Some b → b_slot be = true → released be = false → b_given be = false → be' = be)) →
  evolves o p p'.
Proof.
  intros E H b1 be1 Hb1. rewrite E. destruct (decide (b = b1)) as [<-|Hne].
  - exists be'. rewrite lookup_insert_eq. split; [done|]. by apply H.
  - exists be1. rewrite lookup_insert_ne by done. split_and!; auto.
Qed.

Lemma call_ok_evolves o p p' c :
  evolves o p p' → (∀ rq b, popping c = Some (rq, b) → o ≠ Some b) → call_ok p c → call_ok p' c.
Proof.
  intros Hev Ho [Hp Hg Hc Hf]. split; [..|done].
  - intros rq b E. destruct (Hp _ _ E) as [(be & Hb & H1 & H2 & H3 & H4)].
    destruct (Hev b be Hb) as (be' & Hb' & _ & _ & _ & _ & Hsame).
    split. exists be'. rewrite (Hsame (Ho _ _ E) H1 H2 H3) in Hb' |- *. eauto.
  - intros rq b t E. destruct (Hg _ _ _ E) as (be & Hb & H1 & H2 & H3).
    destruct (Hev b be Hb) as (be' & Hb' & E1 & E2 & _ & E3 & _).
    exists be'. split_and!; [done|congruence|congruence|].
    destruct H3 as [?|[-> Hgv]], E3 as [?|[E3 Hgv']]; [left; lia..|right; eauto].
  - intros b Hin. destruct (Hc _ Hin) as (be & Hb & H).
    destruct (Hev b be Hb) as (be' & Hb' & _ & _ & Hs & _). exists be'. auto.
Qed.

Definition own (c : pc) : option nat := snd <$> popping c.

Lemma inv_thread p p' cs i c c' :
  inv p cs → cs !! i = Some c → pool_ok p' →
  (total p' + live p + totHeld c = total p + live p' + totHeld c')%nat →
  (∀ r, sem p' r + live_role p r + semHeld r c = sem p r + live_role p' r + semHeld r c')%nat →
  evolves (own c) p p' → call_ok p' c' →
  (∀ rq b, popping c' = Some (rq, b) → ∀ j d rq', cs !! j = Some d → popping d ≠ Some (rq', b)) →
  (got c' = got c ∨ ∀ rq b t, got c' = Some (rq, b, t) → ∀ j d rq', cs !! j = Some d → got d ≠ Some (rq', b, t)) →
  inv p' (<[i := c']> cs).
Proof.
  intros [_ IT IS IC IP IG] Hi Hok HT HS Hev Hco Hpop Hgot.
  assert (∀ j d, <[i := c']> cs !! j = Some d → j = i ∧ d = c' ∨ j ≠ i ∧ cs !! j = Some d) as Hcases.
  { intros j d Hj. destruct (decide (i = j)) as [<-|Hne].
    - rewrite list_lookup_insert_eq in Hj by (by eapply lookup_lt_Some). left. split; congruence.
    - rewrite list_lookup_insert_ne in Hj by done. auto. }
  split.
  - done.
  - pose proof (sum_insert totHeld cs i c c' Hi). lia.
  - intros r. pose proof (sum_insert (semHeld r) cs i c c' Hi). specialize (HS r). specialize (IS r). lia.
  - intros j d Hj. destruct (Hcases j d Hj) as [[-> ->]|[Hne Hd]]; [done|].
    apply (call_ok_evolves (own c) p); [done| |by eapply IC].
    intros rq b E Ho. unfold own in Ho. destruct (popping c) as [[rq' b']|] eqn:Ec; [|done]. cbn in Ho. simplify_eq.
    apply Hne. by eapply (IP j i).
  - intros j1 j2 d1 d2 rq1 rq2 b H1 H2 E1 E2.
    destruct (Hcases _ _ H1) as [[-> ->]|[Hn1 Hd1]], (Hcases _ _ H2) as [[-> ->]|[Hn2 Hd2]]; [done| | |by eapply IP].
    + by destruct (Hpop _ _ E1 _ _ rq2 Hd2).
    + by destruct (Hpop _ _ E2 _ _ rq1 Hd1).
  - intros j1 j2 d1 d2 rq1 rq2 b t H1 H2 E1 E2.
    destruct (Hcases _ _ H1) as [[-> ->]|[Hn1 Hd1]], (Hcases _ _ H2) as [[-> ->]|[Hn2 Hd2]]; [done| | |by eapply IG].
    + destruct Hgot as [Hg|Hg]; [rewrite Hg in E1; by eapply (IG i j2)|by destruct (Hg _ _ _ E1 _ _ rq2 Hd2)].
    + destruct Hgot as [Hg|Hg]; [rewrite Hg in E2; by eapply (IG j1 i)|by destruct (Hg _ _ _ E2 _ _ rq1 Hd1)].
Qed.

(** A step that only waits, queues or wakes. *)
Lemma inv_quiet p p' cs i c c' :
  inv p cs → cs !! i = Some c → same p p' → totHeld c' = totHeld c → (∀ r, semHeld r c' = semHeld r c) →
  popping c' = None → closing c' = closing c → got c' = got c → follows c' → inv p' (<[i := c']> cs).
Proof.
  intros Hinv Hi Hs HT HS HP HC HG HF. destruct (same_live _ _ Hs) as [HL HLr].
  pose proof (in_calls _ _ Hinv _ _ Hi) as [_ Cg Cc Cf].
  apply (inv_thread p p' cs i c c' Hinv Hi).
  - eapply pool_ok_same, in_pool; eauto.
  - rewrite (sa_total _ _ Hs), HL, HT. lia.
  - intros r. rewrite (sa_sem _ _ Hs), HLr, HS. lia.
  - apply evolves_refl, Hs.
  - apply (call_ok_evolves None p); [apply evolves_refl, Hs|by rewrite HP|].
    split; [by rewrite HP|rewrite HG|rewrite HC|]; eauto.
  - by rewrite HP.
  - by left.
Qed.

Lemma sem_with_sem p r n r' : sem (with_sem p r n) r' = if decide (r = r') then n else sem p r'.
Proof.
  unfold sem; cbn. destruct (decide (r = r')) as [<-|Hne]; [by rewrite lookup_insert_eq|by rewrite lookup_insert_ne].
Qed.

(** A step that takes or gives back a token of a role, or of the budget. *)
Lemma inv_sem p cs i c c' r n :
  inv p cs → cs !! i = Some c → Z.of_nat n ≤ roleLimit cfg r → totHeld c' = totHeld c →
  (∀ r', (if decide (r = r') then n else sem p r') + semHeld r' c = sem p r' + semHeld r' c')%nat →
  popping c' = None → closing c' = closing c → got c' = got c → follows c' → inv (with_sem p r n) (<[i := c']> cs).
Proof.
  intros Hinv Hi Hn HT HS HP HC HG HF. pose proof (in_calls _ _ Hinv _ _ Hi) as [_ Cg Cc Cf].
  pose proof (in_pool _ _ Hinv) as [].
  apply (inv_thread p _ cs i c c' Hinv Hi).
  - split; try done. intros r'. rewrite sem_with_sem. destruct (decide _); [by subst|done].
  - rewrite HT. change (live (with_sem p r n)) with (live p). cbn. lia.
  - intros r'. rewrite sem_with_sem. change (live_role (with_sem p r n) r') with (live_role p r'). specialize (HS r'). lia.
  - by apply evolves_refl.
  - split; [by rewrite HP|rewrite HG|rewrite HC|]; eauto.
  - by rewrite HP.
  - by left.
Qed.

Lemma inv_total p cs i c c' n :
  inv p cs → cs !! i = Some c → Z.of_nat n ≤ MaxBackends cfg → (n + totHeld c = total p + totHeld c')%nat →
  (∀ r', semHeld r' c = semHeld r' c') →
  popping c' = None → closing c' = closing c → got c' = got c → follows c' → inv (with_total p n) (<[i := c']> cs).
Proof.
  intros Hinv Hi Hn HT HS HP HC HG HF. pose proof (in_calls _ _ Hinv _ _ Hi) as [_ Cg Cc Cf].
  pose proof (in_pool _ _ Hinv) as [].
  apply (inv_thread p _ cs i c c' Hinv Hi).
  - by split.
  - change (live (with_total p n)) with (live p). cbn. lia.
  - intros r'. change (live_role (with_total p n) r') with (live_role p r'). rewrite HS.
    change (sem (with_total p n) r') with (sem p r'). lia.
  - by apply evolves_refl.
  - split; [by rewrite HP|rewrite HG|rewrite HC|]; eauto.
  - by rewrite HP.
  - by left.
Qed.

(** ** Backends that leave the pool *)

Lemma alter_insert {A} (f : A → A) (m : gmap nat A) b x : m !! b = Some x → alter f b m = <[b := f x]> m.
Proof.
  intros H. apply map_eq. intros j. destruct (decide (b = j)) as [-> |Hne].
  - by rewrite lookup_insert_eq, lookup_alter_eq, H.
  - by rewrite lookup_insert_ne, lookup_alter_ne.
Qed.

Lemma lookup_drop_slots bs l b :
  drop_slots bs l !! b = (if decide (b ∈ l) then drop_slot <$> bs !! b else bs !! b).
Proof.
  induction l as [|b' l IH]; [done|].
  change (drop_slots bs (b' :: l)) with (alter drop_slot b' (drop_slots bs l)).
  destruct (decide (b ∈ b' :: l)) as [Hin|Hin]; destruct (decide (b ∈ l)) as [Hl|Hl]; destruct (decide (b' = b)) as [-> |Hne];
    rewrite ?lookup_alter_eq, ?lookup_alter_ne, IH by done; rewrite ?list_elem_of_In in *; try done.
  - by destruct (bs !! b).
  - destruct Hin as [|]; done.
  - destruct Hin. by left.
  - destruct Hin. by right.
  - destruct Hin. by left.
Qed.

(** The backends [d] leave the idle lists and give up their slots. *)
Record retired (p p' : pool) (d : list (nat * poolKey)) : Prop := mk_retired {
  re_nodup : NoDup d.*1;
  re_was : ∀ b k, (b, k) ∈ d → b ∈ idleOf p k;
  re_total : total p' = total p;
  re_sem : ∀ r, sem p' r = sem p r;
  re_lists : ∀ k, NoDup (idleOf p' k);
  re_idle : ∀ k b, b ∈ idleOf p' k ↔ b ∈ idleOf p k ∧ b ∉ d.*1;
  re_backends : backends p' = drop_slots (backends p) d.*1 }.

Lemma countIf_drop_slots (P : Backend → bool) bs l :
  NoDup l → (∀ b, b ∈ l → is_Some (bs !! b)) →
  (countIf P (drop_slots bs l) + sum_list_with (λ b, from_option (b2n ∘ P) 0%nat (bs !! b)) l =
   countIf P bs + sum_list_with (λ b, from_option (b2n ∘ P ∘ drop_slot) 0%nat (bs !! b)) l)%nat.
Proof.
  induction l as [|b l IH]; intros Hnd Hin; [simpl; lia|]. apply NoDup_cons in Hnd as [Hb Hnd].
  specialize (IH Hnd (λ b' H, Hin b' (list_elem_of_further _ _ _ H))).
  destruct (Hin b (list_elem_of_here _ _)) as [be Hbe].
  change (drop_slots bs (b :: l)) with (alter drop_slot b (drop_slots bs l)). simpl sum_list_with. rewrite Hbe.
  assert (drop_slots bs l !! b = Some be) as Hl by (by rewrite lookup_drop_slots, decide_False).
  pose proof (countIf_alter P _ _ _ drop_slot Hl). cbn. lia.
Qed.

Lemma sum_with_ext {A} (f g : A → nat) l : (∀ x, x ∈ l → f x = g x) → sum_list_with f l = sum_list_with g l.
Proof.
  induction l as [|x l IH]; intros H; [done|]. simpl. rewrite (H x) by (by left). rewrite IH; [done|].
  intros y Hy. apply H. by right.
Qed.

Lemma sum_with_fmap {A B} (f : B → nat) (g : A → B) l : sum_list_with f (g <$> l) = sum_list_with (f ∘ g) l.
Proof. induction l as [|x l IH]; [done|]. rewrite fmap_cons. cbn [sum_list_with]. by rewrite IH. Qed.

Lemma sum_with_const {A} n (l : list A) : sum_list_with (λ _, n) l = (n * length l)%nat.
Proof. induction l as [|x l IH]; simpl; [lia|]. rewrite IH. lia. Qed.

Lemma retired_counts p p' d :
  pool_ok p → retired p p' d →
  (live p' + length d = live p)%nat ∧
  ∀ r, (live_role p' r + sum_list_with (λ x, is_role r x.2.2) d = live_role p r)%nat.
Proof.
  intros Hok [Hnd Hwas _ _ _ _ Hbs]. pose proof (po_idle _ Hok) as Hidle.
  assert (∀ b k, (b, k) ∈ d → ∃ be, backends p !! b = Some be ∧ b_slot be = true ∧ be_key be = k) as Hd.
  { intros b k Hin. destruct (Hidle _ _ (Hwas _ _ Hin)) as (be & ? & ? & _ & ? & _). eauto. }
  assert (∀ b, b ∈ d.*1 → is_Some (backends p !! b)) as Hsome.
  { intros b ([b' k] & -> & Hin)%list_elem_of_fmap. destruct (Hd _ _ Hin) as (be & Hb & _). by exists be. }
  assert (∀ P f, (∀ b k be, (b, k) ∈ d → backends p !! b = Some be → b_slot be = true → be_key be = k →
            b2n (P (drop_slot be)) = 0%nat ∧ b2n (P be) = f (b, k)) →
          (countIf P (drop_slots (backends p) d.*1) + sum_list_with f d = countIf P (backends p))%nat) as Hcount.
  { intros P f HPf. pose proof (countIf_drop_slots P _ _ Hnd Hsome) as H. rewrite !sum_with_fmap in H.
    rewrite (sum_with_ext ((λ b, from_option (b2n ∘ P) 0%nat (backends p !! b)) ∘ fst) f) in H.
    2:{ intros [b k] Hin. destruct (Hd _ _ Hin) as (be & Hb & Hs & Hk). cbn. rewrite Hb. cbn. by eapply HPf. }
    rewrite (sum_with_ext ((λ b, from_option (b2n ∘ P ∘ drop_slot) 0%nat (backends p !! b)) ∘ fst) (λ _, 0%nat)) in H.
    2:{ intros [b k] Hin. destruct (Hd _ _ Hin) as (be & Hb & Hs & Hk). cbn. rewrite Hb. cbn. by eapply HPf. }
    rewrite sum_with_const in H. lia. }
  unfold live, live_role. rewrite Hbs. split; [|intros r].
  - rewrite <- (Hcount b_slot (λ _, 1%nat)); [rewrite sum_with_const; lia|]. intros b k be _ _ -> _. done.
  - apply Hcount. intros b k be _ _ -> <-. done.
Qed.

Lemma retired_lookup p p' d b be' :
  pool_ok p → retired p p' d → backends p' !! b = Some be' →
  ∃ be, backends p !! b = Some be ∧
    (b ∉ d.*1 ∧ be' = be ∨ b ∈ d.*1 ∧ be' = drop_slot be ∧ b_slot be = true ∧ released be = true).
Proof.
  intros Hok [Hnd Hwas _ _ _ _ Hbs]. rewrite Hbs, lookup_drop_slots. destruct (decide _) as [Hin|Hin]; [|eauto].
  intros (be & Hb & ->)%fmap_Some. exists be. split; [done|]. right. split_and!; [done..| |].
  all: apply list_elem_of_fmap in Hin as ([b1 k] & -> & Hin); destruct (po_idle _ Hok _ _ (Hwas _ _ Hin)) as (be1 & ? & ? & ? & _); cbn in *; congruence.
Qed.

Lemma retired_pool_ok p p' d : pool_ok p → retired p p' d → pool_ok p'.
Proof.
  intros Hok Hr. pose proof (retired_lookup p p' d) as Hlook. pose proof Hok as []. pose proof Hr as [].
  split.
  - by rewrite re_total0.
  - intros r. by rewrite re_sem0.
  - intros k b [Hb Hd]%re_idle0. destruct (po_idle0 _ _ Hb) as (be & Hbe & H). exists be. split; [|done].
    by rewrite re_backends0, lookup_drop_slots, decide_False.
  - done.
  - intros b be' Hb Hs Hrel. destruct (Hlook b be' Hok Hr Hb) as (be & Hbe & [[Hd ->]|(Hd & -> & H1 & H2)]); [|done].
    apply re_idle0. eauto.
  - intros b be' Hb Hs. destruct (Hlook b be' Hok Hr Hb) as (be & Hbe & [[Hd ->]|(Hd & -> & H1 & H2)]); [eauto|done].
  - intros b be' Hb Hs. destruct (Hlook b be' Hok Hr Hb) as (be & Hbe & [[Hd ->]|(Hd & -> & H1 & H2)]); [eauto|by left].
Qed.

Lemma retired_evolves o p p' d : pool_ok p → retired p p' d → evolves o p p'.
Proof.
  intros Hok Hr b be Hb. pose proof (retired_lookup p p' d b) as Hlook.
  destruct (backends p' !! b) as [be'|] eqn:Hb'.
  - exists be'. split; [done|]. destruct (Hlook be' Hok Hr eq_refl) as (be1 & Hb1 & [[Hd ->]|(Hd & -> & H1 & H2)]); simplify_eq.
    + split_and!; auto.
    + split_and!; auto. intros _ _ H3. congruence.
  - rewrite (re_backends _ _ _ Hr), lookup_drop_slots, Hb in Hb'. by destruct (decide _).
Qed.

Lemma inv_retired p p' cs i c k d :
  inv p cs → cs !! i = Some c → retired p p' d → totHeld k = totHeld c → (∀ r, semHeld r k = semHeld r c) →
  popping k = None → closing k = [] → got k = None → follows k → got c = None → inv p' (<[i := discard_all d k]> cs).
Proof.
  intros Hinv Hi Hr HT HS HP HC HG HF HGc. pose proof (in_pool _ _ Hinv) as Hok.
  destruct (retired_counts _ _ _ Hok Hr) as [HL HLr]. destruct (discard_all_held d k) as (DT & DC & DG & DS).
  assert (popping (discard_all d k) = None) as HPd by (by destruct d as [|[]]).
  apply (inv_thread p p' cs i c _ Hinv Hi).
  - by eapply retired_pool_ok.
  - rewrite DT, (re_total _ _ _ Hr). lia.
  - intros r. rewrite DS, (re_sem _ _ _ Hr), HS. specialize (HLr r). lia.
  - by eapply retired_evolves.
  - split; [by rewrite HPd|by rewrite DG, HG| |by apply discard_all_follows]. rewrite DC, HC, app_nil_r. intros b ([b' key] & -> & Hin)%list_elem_of_fmap.
    destruct (po_idle _ Hok _ _ (re_was _ _ _ Hr _ _ Hin)) as (be & Hb & _). exists (drop_slot be). split; [|done].
    rewrite (re_backends _ _ _ Hr), lookup_drop_slots. cbn. rewrite Hb, decide_True; [done|]. apply list_elem_of_fmap. by exists (b', key).
  - by rewrite HPd.
  - left. by rewrite DG, HG.
Qed.

(** *** Eviction *)

Definition points (p : pool) (best : option (nat * poolKey * nat)) : Prop :=
  ∀ b k i, best = Some (b, k, i) → idleOf p k !! i = Some b.

Lemma scanIdle_points p k i l best :
  (∀ j b, l !! j = Some b → idleOf p k !! (i + j)%nat = Some b) → points p best → points p (scanIdle p k i l best).
Proof.
  revert i best; induction l as [|b l IH]; intros i best Hl Hbest; cbn; [done|]. apply IH.
  - intros j b' Hj. rewrite Nat.add_succ_l, <- Nat.add_succ_r. by apply Hl.
  - assert (points p (Some (b, k, i))) as Hnew.
    { intros ? ? ? [= <- <- <-]. specialize (Hl 0%nat b eq_refl). by rewrite Nat.add_0_r in Hl. }
    destruct best as [[[v kv] iv]|]; [|done]. by destruct (_ <? _).
Qed.

Lemma victim_points p keys best : points p best → points p (victim p keys best).
Proof.
  revert best; induction keys as [|k keys IH]; intros best Hb; cbn; [done|]. apply IH, scanIdle_points; [|done].
  by intros j b.
Qed.

Lemma idleOf_with_idle p k l k' : idleOf (with_idle p k l) k' = if decide (k = k') then l else idleOf p k'.
Proof.
  unfold idleOf; cbn. destruct (decide (k = k')) as [<-|Hne]; [by rewrite lookup_insert_eq|by rewrite lookup_insert_ne].
Qed.

Lemma evict_retired p keys b k p' :
  pool_ok p → evict p keys = Some (b, k, p') → retired p (update p' b drop_slot) [(b, k)].
Proof.
  intros Hok. unfold evict. destruct (victim p keys None) as [[[b1 k1] i]|] eqn:Ev; [|done]. intros [= -> -> <-].
  assert (idleOf p k !! i = Some b) as Hi.
  { apply (victim_points p keys None); [by intros ? ? ?|done]. }
  pose proof (po_nodup _ Hok k) as Hnd. pose proof (take_drop_middle _ _ _ Hi) as Hmid.
  set (l := take i (idleOf p k) ++ drop (S i) (idleOf p k)).
  assert (idleOf p k ≡ₚ b :: l) as Hperm.
  { rewrite <- Hmid at 1. unfold l. by rewrite Permutation_middle. }
  assert (∀ k', idleOf (update (with_idle p k l) b drop_slot) k' = if decide (k = k') then l else idleOf p k') as Hl.
  { intros k'. apply idleOf_with_idle. }
  assert (NoDup (b :: l)) as Hnd' by (by rewrite <- Hperm).
  split; try done.
  - apply NoDup_singleton.
  - intros b' k' Hin. apply list_elem_of_singleton in Hin as [= -> ->]. by eapply list_elem_of_lookup_2.
  - intros k'. rewrite Hl. destruct (decide _); [by apply NoDup_cons in Hnd' as [_ ?]|apply Hok].
  - intros k' b'. rewrite Hl. change ([(b, k)].*1) with [b]. rewrite list_elem_of_singleton.
    destruct (decide (k = k')) as [<-|Hne].
    + rewrite Hperm, elem_of_cons. apply NoDup_cons in Hnd' as [Hb _]. naive_solver.
    + split; [|naive_solver]. intros Hb'. split; [done|]. intros ->.
      destruct (po_idle _ Hok _ _ Hb') as (be & Hbe & _ & _ & Hk & _).
      destruct (po_idle _ Hok k b (list_elem_of_lookup_2 _ _ _ Hi)) as (be1 & Hbe1 & _ & _ & Hk1 & _). congruence.
Qed.

(** *** Reaping and closing *)

Lemma elem_of_idleWhere p P b k : (b, k) ∈ idleWhere p P ↔ b ∈ idleOf p k ∧ P b = true.
Proof.
  unfold idleWhere, idleOf. rewrite list_elem_of_bind. split.
  - intros ([k' l] & Hin & Hk). apply elem_of_map_to_list in Hk.
    apply list_elem_of_fmap in Hin as (b' & [= <- <-] & Hf). apply list_elem_of_filter in Hf as [HP Hb]. by rewrite Hk.
  - intros [Hb HP]. destruct (idle p !! k) as [l|] eqn:Hk; [|by apply not_elem_of_nil in Hb]. exists (k, l).
    split; [|by apply elem_of_map_to_list]. apply list_elem_of_fmap. exists b. split; [done|]. by apply list_elem_of_filter.
Qed.

Lemma idleWhere_nodup p P : pool_ok p → NoDup (idleWhere p P).*1.
Proof.
  intros Hok. assert (∀ b k k', (b, k) ∈ idleWhere p P → (b, k') ∈ idleWhere p P → k = k') as Hkey.
  { intros b k k' [H1 _]%elem_of_idleWhere [H2 _]%elem_of_idleWhere.
    destruct (po_idle _ Hok _ _ H1) as (? & ? & _ & _ & ? & _), (po_idle _ Hok _ _ H2) as (? & ? & _ & _ & ? & _). congruence. }
  apply NoDup_fmap_2_strong.
  - intros [b k] [b' k'] H1 H2 [= <-]. f_equal. eauto.
  - unfold idleWhere. apply NoDup_bind.
    + intros [k l] [k' l'] [b kb] Hk Hk' H1 H2. apply elem_of_map_to_list in Hk, Hk'.
      apply list_elem_of_fmap in H1 as (? & [= <- <-] & _), H2 as (? & [= <- <-] & _). congruence.
    + intros [k l] Hk. apply NoDup_fmap; [by intros ? ? [= ->]|]. apply NoDup_filter.
      pose proof (po_nodup _ Hok k) as H. unfold idleOf in H. apply elem_of_map_to_list in Hk. by rewrite Hk in H.
    + apply NoDup_map_to_list.
Qed.

Lemma retired_where p p' P d :
  pool_ok p → d ≡ₚ idleWhere p P → total p' = total p → (∀ r, sem p' r = sem p r) →
  (∀ k, idleOf p' k = filter (λ b, P b = false) (idleOf p k)) →
  backends p' = drop_slots (backends p) (idleWhere p P).*1 → retired p p' d.
Proof.
  intros Hok Hd HT HS HI HB. split; try done.
  - rewrite Hd. by apply idleWhere_nodup.
  - intros b k. rewrite Hd, elem_of_idleWhere. by intros [].
  - intros k. rewrite HI. apply NoDup_filter, Hok.
  - intros k b. rewrite HI, list_elem_of_filter. split.
    + intros [HP Hb]. split; [done|]. rewrite Hd. intros ([b' k'] & -> & Hin)%list_elem_of_fmap.
      apply elem_of_idleWhere in Hin as [_ ?]. cbn in *. congruence.
    + intros [Hb Hn]. split; [|done]. destruct (P b) eqn:EP; [|done]. destruct Hn. rewrite Hd.
      apply list_elem_of_fmap. exists (b, k). split; [done|]. by apply elem_of_idleWhere.
  - rewrite HB. apply map_eq. intros b. rewrite !lookup_drop_slots.
    assert (b ∈ (idleWhere p P).*1 ↔ b ∈ d.*1) as Hiff by (by rewrite Hd).
    destruct (decide _), (decide _); naive_solver.
Qed.

Lemma reap_retired p d : pool_ok p → d ≡ₚ dead cfg p → retired p (reap cfg p) d.
Proof.
  intros Hok Hd. apply (retired_where p _ (is_expired cfg p)); try done. intros k.
  unfold idleOf, reap, kept; cbn. rewrite lookup_fmap. by destruct (idle p !! k).
Qed.

Lemma idle_foldl {A} (f : pool → A → pool) l p : (∀ p x, idle (f p x) = idle p) → idle (foldl f p l) = idle p.
Proof. intros Hf. revert p; induction l as [|x l IH]; intros p; cbn; [done|]. by rewrite IH, Hf. Qed.
Lemma idle_wakeAll p q : idle (wakeAll p q) = idle p.
Proof. unfold wakeAll. destruct q; cbn; by apply idle_foldl. Qed.
Lemma idle_wakeEveryone p : idle (wakeEveryone p) = idle p.
Proof. unfold wakeEveryone. rewrite idle_foldl; [apply idle_wakeAll|]. intros; apply idle_wakeAll. Qed.

Lemma close_retired p d : pool_ok p → d ≡ₚ all_idle p → retired p (close_pool p) d.
Proof.
  intros Hok Hd. pose proof (same_wakeEveryone (with_closed p)) as [A1 A2 A3 A4].
  pose proof (idle_wakeEveryone (with_closed p)) as HI. cbn in HI.
  apply (retired_where p _ (λ _, true)); try done.
  - intros k. unfold close_pool, idleOf; cbn. rewrite lookup_fmap, HI.
    destruct (idle p !! k) as [l|]; [|done]. change ([] = filter (λ _ : nat, true = false) l).
    induction l as [|b l IH]; [done|]. rewrite filter_cons. by rewrite decide_False.
  - unfold close_pool; cbn. rewrite A4. unfold all_idle, idleWhere. by rewrite HI.
Qed.

(** ** One backend changes *)

Lemma pool_ok_at p p' b be' :
  pool_ok p → backends p' = <[b := be']> (backends p) → total p' = total p → (∀ r, sem p' r = sem p r) →
  (∀ k, NoDup (idleOf p' k)) → (∀ k b', b' ≠ b → b' ∈ idleOf p' k ↔ b' ∈ idleOf p k) →
  (∀ k, b ∈ idleOf p' k ↔ k = be_key be' ∧ b_slot be' = true ∧ released be' = true) →
  (b_slot be' = true → conn be' = true ∧ (released be' = true → clean be')) →
  (b_slot be' = false → released be' = true ∨ b_given be' = false) → pool_ok p'.
Proof.
  intros [] HB HT HS HN Ho Hb Hl Hd. split.
  - by rewrite HT.
  - intros r. by rewrite HS.
  - intros k b' Hin. rewrite HB. destruct (decide (b' = b)) as [-> |Hne].
    + rewrite lookup_insert_eq. apply Hb in Hin as (-> & Hs & Hr). exists be'. split_and!; [done..|]. by apply Hl.
    + rewrite lookup_insert_ne by done. apply Ho in Hin; eauto.
  - done.
  - intros b' x Hx Hs Hr. rewrite HB in Hx. apply lookup_insert_Some in Hx as [[<- <-]|[Hne Hx]]; [by apply Hb|].
    apply Ho; eauto.
  - intros b' x Hx Hs. rewrite HB in Hx. apply lookup_insert_Some in Hx as [[<- <-]|[Hne Hx]]; [by apply Hl|eauto].
  - intros b' x Hx Hs. rewrite HB in Hx. apply lookup_insert_Some in Hx as [[<- <-]|[Hne Hx]]; eauto.
Qed.

Lemma live_at p p' b be be' :
  backends p !! b = Some be → backends p' = <[b := be']> (backends p) → be_key be' = be_key be →
  (live p' + b2n (b_slot be) = live p + b2n (b_slot be'))%nat ∧
  ∀ r, (live_role p' r + (if b_slot be then is_role r (b_role be) else 0) =
        live_role p r + (if b_slot be' then is_role r (b_role be) else 0))%nat.
Proof.
  intros Hb HB Hk. unfold live, live_role. rewrite HB. split; [by apply countIf_insert|]. intros r.
  pose proof (countIf_insert (λ x, b_slot x && bool_decide (r = b_role x)) _ _ _ be' Hb) as H. cbn in H.
  assert (b_role be' = b_role be) as E by (unfold be_key in Hk; congruence). rewrite E in H. unfold is_role.
  destruct (b_slot be), (b_slot be'); cbn in *; lia.
Qed.

(** Not returned, so in no idle list. *)
Lemma not_idle p b be : pool_ok p → backends p !! b = Some be → released be = false → ∀ k, b ∉ idleOf p k.
Proof. intros Hok Hb Hr k Hin. destruct (po_idle _ Hok _ _ Hin) as (? & ? & _ & ? & _). congruence. Qed.

(** A backend held by someone changes, or is given up, while the lists stay. *)
Lemma pool_ok_held p b be f :
  pool_ok p → backends p !! b = Some be → (∀ k, b ∉ idleOf p k) →
  be_key (f be) = be_key be → (b_slot (f be) = true → released (f be) = false ∧ conn (f be) = true) →
  (b_slot (f be) = false → released (f be) = true ∨ b_given (f be) = false) → pool_ok (update p b f).
Proof.
  intros Hok Hb Hni Hk H1 H2. apply (pool_ok_at p _ b (f be)); try done.
  - cbn. by apply alter_insert.
  - apply Hok.
  - intros k. change (idleOf (update p b f) k) with (idleOf p k). split; [by intros ?%Hni|]. intros (_ & Hs & Hr).
    apply H1 in Hs as []. congruence.
  - intros Hs. destruct (H1 Hs) as [Hr Hc]. split; [done|congruence].
Qed.

Lemma inv_pop p p' cs i c rq b w :
  inv p cs → cs !! i = Some c → totHeld c = 0%nat → (∀ r, semHeld r c = 0%nat) → closing c = [] → got c = None →
  popLast p (rq_key rq) = Some (b, p') → inv p' (<[i := PopCheck rq b w]> cs).
Proof.
  intros Hinv Hi HT HS HC HG Hp. pose proof (in_pool _ _ Hinv) as Hok. unfold popLast in Hp.
  destruct (last (idleOf p (rq_key rq))) as [b0|] eqn:Hlast; [|done]. injection Hp as -> <-.
  apply last_Some in Hlast as [l Hl]. pose proof (po_nodup _ Hok (rq_key rq)) as Hnd. rewrite Hl in Hnd.
  assert (take (length (idleOf p (rq_key rq)) - 1) (idleOf p (rq_key rq)) = l) as ->.
  { rewrite Hl, length_app. cbn. rewrite Nat.add_sub. by rewrite take_app_length. }
  apply NoDup_app in Hnd as (Hnd & Hdisj & _).
  destruct (po_idle _ Hok (rq_key rq) b) as (be & Hb & Hs & Hr & Hk & Hcl); [rewrite Hl; apply elem_of_app; right; by left|].
  set (p1 := update (with_idle p (rq_key rq) l) b take_out).
  assert (backends p1 = <[b := take_out be]> (backends p)) as HB by (cbn; by apply alter_insert).
  assert (∀ k, idleOf p1 k = if decide (rq_key rq = k) then l else idleOf p k) as HI by (intros; apply idleOf_with_idle).
  destruct (live_at p p1 b be _ Hb HB eq_refl) as [HL HLr]. cbn [take_out b_slot] in HL, HLr. rewrite Hs in *.
  apply (inv_thread p p1 cs i c _ Hinv Hi).
  - apply (pool_ok_at p p1 b (take_out be)); try done.
    + intros k. rewrite HI. destruct (decide _); [done|apply Hok].
    + intros k b' Hne. rewrite HI. destruct (decide _) as [<-|]; [|done]. rewrite Hl, elem_of_app, list_elem_of_singleton. naive_solver.
    + intros k. split; [|by intros (_ & _ & ?)]. rewrite HI. destruct (decide _) as [<-|Hne]; [intros Hin; destruct (Hdisj b Hin); by left|].
      intros Hin. destruct (po_idle _ Hok _ _ Hin) as (? & ? & _ & _ & ? & _). congruence.
    + intros _. split; [|done]. cbn. by eapply po_open.
    + cbn. by right.
  - rewrite HT. change (total p1) with (total p). cbn [totHeld]. lia.
  - intros r. rewrite HS. change (sem p1 r) with (sem p r). specialize (HLr r). cbn [semHeld]. lia.
  - apply (evolves_at _ _ _ b (take_out be) HB). intros be1 Hb1. rewrite Hb in Hb1. injection Hb1 as <-.
    split_and!; [done..|cbn; left; lia|congruence].
  - split; [|done|by intros ? ?%not_elem_of_nil|done]. intros rq' b' [= <- <-]. split. exists (take_out be). rewrite HB, lookup_insert_eq. done.
  - intros rq0 b0 [= <- <-] j d rq' Hj Hd. pose proof (in_calls _ _ Hinv _ _ Hj) as [Hpo _ _ _].
    destruct (Hpo _ _ Hd) as [(be1 & Hb1 & _ & Hr1 & _)]. congruence.
  - by right.
Qed.

Lemma inv_stale p cs i rq b w be :
  inv p cs → cs !! i = Some (PopCheck rq b w) → backends p !! b = Some be →
  inv (update p b drop_slot) (<[i := discard b (rq_role rq) (pop_again rq w)]> cs).
Proof.
  intros Hinv Hi Hb. pose proof (in_pool _ _ Hinv) as Hok. pose proof (in_calls _ _ Hinv _ _ Hi) as [Hpo _ _ _].
  destruct (Hpo _ _ eq_refl) as [(be1 & Hb1 & Hs & Hr & Hg & Hk & Hcl)]. rewrite Hb in Hb1. injection Hb1 as <-.
  assert (backends (update p b drop_slot) = <[b := drop_slot be]> (backends p)) as HB by (cbn; by apply alter_insert).
  destruct (live_at p _ b be _ Hb HB eq_refl) as [HL HLr]. cbn [drop_slot b_slot] in HL, HLr. rewrite Hs in *.
  apply (inv_thread p _ cs i _ _ Hinv Hi).
  - apply (pool_ok_held _ _ be); auto; [by eapply not_idle|done].
  - change (total (update p b drop_slot)) with (total p). destruct w; cbn in *; lia.
  - intros r. change (sem (update p b drop_slot) r) with (sem p r). specialize (HLr r).
    replace (rq_role rq) with (b_role be) by (unfold be_key, rq_key in Hk; congruence). destruct w; cbn [semHeld discard pop_again]; lia.
  - apply (evolves_at _ _ _ b (drop_slot be) HB). intros be1 Hb1. rewrite Hb in Hb1. injection Hb1 as <-. split_and!; auto.
    by intros [].
  - assert (closing (discard b (rq_role rq) (pop_again rq w)) = [b]) as HC by (by destruct w).
    assert (got (discard b (rq_role rq) (pop_again rq w)) = None) as HG by (by destruct w).
    split; [done|by rewrite HG| |by destruct w]. rewrite HC. intros ? ->%list_elem_of_singleton. exists (drop_slot be).
    by rewrite HB, lookup_insert_eq.
  - done.
  - left. by destruct w.
Qed.

Lemma inv_found p cs i rq b w be :
  inv p cs → cs !! i = Some (PopCheck rq b w) → backends p !! b = Some be → credDigest be = rq_digest rq →
  inv (update p b give) (<[i := pop_found rq b (b_ticket be) w]> cs).
Proof.
  intros Hinv Hi Hb Hdig. pose proof (in_pool _ _ Hinv) as Hok. pose proof (in_calls _ _ Hinv _ _ Hi) as [Hpo _ _ _].
  destruct (Hpo _ _ eq_refl) as [(be1 & Hb1 & Hs & Hr & Hg & Hk & Hcl)]. rewrite Hb in Hb1. injection Hb1 as <-.
  assert (backends (update p b give) = <[b := give be]> (backends p)) as HB by (cbn; by apply alter_insert).
  destruct (live_at p _ b be _ Hb HB eq_refl) as [HL HLr]. cbn [give b_slot] in HL, HLr. rewrite Hs in *.
  assert (got (pop_found rq b (b_ticket be) w) = Some (rq, b, b_ticket be)) as HG by (by destruct w).
  apply (inv_thread p _ cs i _ _ Hinv Hi).
  - apply (pool_ok_held _ _ be); auto.
    + by eapply not_idle.
    + intros _. split; [done|]. cbn. by eapply po_open.
    + cbn. congruence.
  - change (total (update p b give)) with (total p). destruct w; cbn in *; lia.
  - intros r. change (sem (update p b give) r) with (sem p r). specialize (HLr r). destruct w; cbn [semHeld pop_found]; lia.
  - apply (evolves_at _ _ _ b (give be) HB). intros be1 Hb1. rewrite Hb in Hb1. injection Hb1 as <-. split_and!; auto.
    by intros [].
  - split; [by destruct w| |destruct w; by intros ? ?%not_elem_of_nil|by destruct w]. rewrite HG. intros ? ? ? [= <- <- <-]. exists (give be).
    rewrite HB, lookup_insert_eq. split_and!; [done..|]. by right.
  - by destruct w.
  - right. rewrite HG. intros ? ? ? [= <- <- <-] j d rq' Hj Hd. pose proof (in_calls _ _ Hinv _ _ Hj) as [_ Hgo _ _].
    destruct (Hgo _ _ _ Hd) as (be1 & Hb1 & _ & _ & [?|[_ ?]]); simplify_eq; [lia|congruence].
Qed.

(** *** Returning *)

Definition returned (brk : bool) (be : Backend) : Backend :=
  let be := set_released true be in if brk then set_broken be else be.

(** The pool after a return: the backend kept idle, or given up. *)
Record kept_idle (p p' : pool) (b : nat) (be be' : Backend) : Prop := mk_kept_idle {
  ki_clean : clean be';
  ki_backends : backends p' = <[b := be']> (backends p);
  ki_total : total p' = total p;
  ki_sem : ∀ r, sem p' r = sem p r;
  ki_idle : ∀ k, idleOf p' k = if decide (be_key be = k) then idleOf p k ++ [b] else idleOf p k }.
Record given_up (p p' : pool) (b : nat) (be' : Backend) : Prop := mk_given_up {
  gu_backends : backends p' = <[b := be']> (backends p);
  gu_total : total p' = total p;
  gu_sem : ∀ r, sem p' r = sem p r;
  gu_idle : ∀ k, idleOf p' k = idleOf p k }.

Lemma slots_returned p b be' k :
  given_up p (update (rolePool (with_backends p (<[b := be']> (backends p))) k) b drop_slot) b (drop_slot be').
Proof.
  pose proof (same_rolePool (with_backends p (<[b := be']> (backends p))) k) as [A1 A2 A3 A4]. split; [|done..].
  cbn. rewrite A4. cbn. rewrite (alter_insert _ _ _ be') by apply lookup_insert_eq. by rewrite insert_insert_eq.
Qed.

Lemma release_cases p b be brk :
  backends p !! b = Some be → released be = false →
  let be' := returned brk be in
  (release cfg p b brk).1 = ReKept ∧ kept_idle p (release cfg p b brk).2 b be be' ∨
  (release cfg p b brk).1 = ReClose ∧ given_up p (release cfg p b brk).2 b (drop_slot be').
Proof.
  intros Hb Hr. cbv zeta. unfold release. rewrite Hb, Hr. cbv zeta.
  change (if brk then set_broken (set_released true be) else set_released true be) with (returned brk be).
  set (be' := returned brk be).
  set (k := (b_database be', b_role be')).
  assert (k = be_key be) as Ek by (unfold k, be', returned, be_key; by destruct brk).
  set (p2 := rolePool (with_backends p (<[b := be']> (backends p))) k).
  match goal with |- context [if ?x then (ReKept, _) else _] => destruct x eqn:Hkeep end.
  - left. split; [done|]. pose proof (same_rolePool (with_backends p (<[b := be']> (backends p))) k) as [A1 A2 A3 A4].
    fold p2 in A1, A2, A3, A4. pose proof (same_wakeFor (with_idle p2 k (idleOf p2 k ++ [b])) k) as [B1 B2 B3 B4].
    repeat (apply andb_true_iff in Hkeep as [Hkeep ?]). cbn [snd].
    split.
    + split_and!; [done|by apply negb_true_iff..].
    + rewrite B4. cbn. by rewrite A4.
    + by rewrite B1.
    + intros r. rewrite B2. apply A2.
    + intros k'. rewrite B3, idleOf_with_idle, A3, A3, Ek. change (idleOf (with_backends p ?x) ?y) with (idleOf p y).
      by destruct (decide _) as [<-|].
  - right. split; [done|]. apply slots_returned.
Qed.

Lemma abandon_cases p b be :
  backends p !! b = Some be → released be = false →
  (abandon p b).1 = ReClose ∧ given_up p (abandon p b).2 b (drop_slot (returned true be)).
Proof. intros Hb Hr. unfold abandon. rewrite Hb, Hr. split; [done|]. apply slots_returned. Qed.

Lemma inv_kept p p' cs i c be be' b :
  inv p cs → cs !! i = Some c → totHeld c = 0%nat → (∀ r, semHeld r c = 0%nat) → got c = None →
  backends p !! b = Some be → released be = false → b_given be = true → b_slot be = true →
  be_key be' = be_key be → credDigest be' = credDigest be → b_slot be' = true → released be' = true → conn be' = conn be →
  b_given be' = true → b_ticket be' = b_ticket be →
  kept_idle p p' b be be' → inv p' (<[i := Done Returned]> cs).
Proof.
  intros Hinv Hi HT HS HG Hb Hr Hgv Hs Ek Ed Es Er Ec Egv Et [Hcl HB HT' HS' HI].
  pose proof (in_pool _ _ Hinv) as Hok. pose proof (not_idle p b be Hok Hb Hr) as Hni.
  destruct (live_at p p' b be be' Hb HB Ek) as [HL HLr]. rewrite Hs, Es in *.
  apply (inv_thread p p' cs i c _ Hinv Hi).
  - apply (pool_ok_at p p' b be'); try done.
    + intros k. rewrite HI. destruct (decide _); [|apply Hok]. apply NoDup_app. split_and!; [apply Hok| |apply NoDup_singleton].
      by intros x Hx ->%list_elem_of_singleton; apply (Hni k).
    + intros k b' Hne. rewrite HI. destruct (decide _); [|done]. rewrite elem_of_app, list_elem_of_singleton. naive_solver.
    + intros k. rewrite HI. destruct (decide _) as [<-|Hne].
      * rewrite elem_of_app, list_elem_of_singleton, Ek. naive_solver.
      * split; [by intros ?%Hni|]. intros (-> & _). congruence.
    + intros _. split; [|done]. rewrite Ec. by eapply po_open.
    + congruence.
  - rewrite HT', HT. cbn [totHeld]. lia.
  - intros r. rewrite HS', HS. specialize (HLr r). cbn [semHeld]. lia.
  - apply (evolves_at _ _ _ b be' HB). intros be1 Hb1. rewrite Hb in Hb1. injection Hb1 as <-. split_and!; [done..| | |congruence].
    + congruence.
    + by right.
  - split; [done|done| |done]. by intros ? ?%not_elem_of_nil.
  - done.
  - by right.
Qed.

Lemma inv_given_up p p' cs i c be be' b :
  inv p cs → cs !! i = Some c → totHeld c = 0%nat → (∀ r, semHeld r c = 0%nat) → got c = None →
  backends p !! b = Some be → released be = false → b_given be = true → b_slot be = true →
  be_key be' = be_key be → credDigest be' = credDigest be → b_slot be' = false → released be' = true →
  b_given be' = true → b_ticket be' = b_ticket be →
  given_up p p' b be' → inv p' (<[i := discard b (b_role be) (Done Returned)]> cs).
Proof.
  intros Hinv Hi HT HS HG Hb Hr Hgv Hs Ek Ed Es Er Egv Et [HB HT' HS' HI].
  pose proof (in_pool _ _ Hinv) as Hok. pose proof (not_idle p b be Hok Hb Hr) as Hni.
  destruct (live_at p p' b be be' Hb HB Ek) as [HL HLr]. rewrite Hs, Es in *.
  apply (inv_thread p p' cs i c _ Hinv Hi).
  - apply (pool_ok_at p p' b be'); try done.
    + intros k. rewrite HI. apply Hok.
    + intros k b' _. by rewrite HI.
    + intros k. rewrite HI. split; [by intros ?%Hni|]. intros (_ & ? & _). congruence.
    + congruence.
    + by left.
  - rewrite HT', HT. cbn in *. lia.
  - intros r. rewrite HS', HS. specialize (HLr r). cbn [semHeld discard]. lia.
  - apply (evolves_at _ _ _ b be' HB). intros be1 Hb1. rewrite Hb in Hb1. injection Hb1 as <-. split_and!; [done..| |congruence].
    by right.
  - split; [done|done| |done]. intros ? ->%list_elem_of_singleton. exists be'. by rewrite HB, lookup_insert_eq.
  - done.
  - by right.
Qed.

(** *** Dialling, and closing a connection *)

Lemma inv_dial p cs i rq b :
  inv p cs → cs !! i = Some (Dial rq) → backends p !! b = None →
  inv (with_backends p (<[b := new_backend sha256 p rq]> (backends p))) (<[i := Done (GotBackend rq b 0)]> cs).
Proof.
  intros Hinv Hi Hb. pose proof (in_pool _ _ Hinv) as Hok. set (be := new_backend sha256 p rq).
  set (p' := with_backends p (<[b := be]> (backends p))).
  assert (∀ k, b ∉ idleOf p k) as Hni.
  { intros k Hin. destruct (po_idle _ Hok _ _ Hin) as (? & ? & _). congruence. }
  apply (inv_thread p p' cs i _ _ Hinv Hi).
  - apply (pool_ok_at p p' b be); try done; [apply Hok|]. intros k. split; [by intros ?%Hni|]. by intros (_ & _ & ?).
  - unfold live, p'. cbn [with_backends backends total]. rewrite countIf_insert_new by done. cbn. lia.
  - intros r. unfold live_role, p'. cbn [with_backends backends]. rewrite countIf_insert_new by done.
    change (sem (with_backends p ?x) r) with (sem p r). cbn [semHeld]. cbn [be new_backend b_slot b_role andb]. unfold is_role. lia.
  - intros b1 be1 Hb1. exists be1. cbn. rewrite lookup_insert_ne by congruence. split_and!; auto.
  - split; [done| |by intros ? ?%not_elem_of_nil|done]. intros ? ? ? [= <- <- <-]. exists be. cbn. rewrite lookup_insert_eq.
    split_and!; [done..|]. by right.
  - done.
  - right. intros ? ? ? [= <- <- <-] j d rq' Hj Hd. pose proof (in_calls _ _ Hinv _ _ Hj) as [_ Hgo _ _].
    destruct (Hgo _ _ _ Hd) as (? & ? & _). congruence.
Qed.

Lemma inv_closeconn p cs i b k :
  inv p cs → cs !! i = Some (CloseConn b k) → inv (update p b close_conn) (<[i := k]> cs).
Proof.
  intros Hinv Hi. pose proof (in_pool _ _ Hinv) as Hok. pose proof (in_calls _ _ Hinv _ _ Hi) as [_ Cg Cc Cf].
  destruct (Cc b (list_elem_of_here _ _)) as (be & Hb & Hs). destruct Cf as [Hp Cf].
  assert (backends (update p b close_conn) = <[b := close_conn be]> (backends p)) as HB by (cbn; by apply alter_insert).
  destruct (live_at p _ b be _ Hb HB eq_refl) as [HL HLr]. cbn [close_conn b_slot] in HL, HLr.
  assert (∀ k, b ∉ idleOf p k) as Hni.
  { intros key Hin. destruct (po_idle _ Hok _ _ Hin) as (? & ? & ? & _). congruence. }
  assert (evolves None p (update p b close_conn)) as Hev.
  { apply (evolves_at _ _ _ b (close_conn be) HB). intros be1 Hb1. rewrite Hb in Hb1. injection Hb1 as <-. split_and!; auto.
    intros _ ?. congruence. }
  apply (inv_thread p _ cs i _ _ Hinv Hi).
  - apply (pool_ok_held _ _ be); auto; [cbn; congruence|]. intros _. cbn. by eapply po_dead.
  - change (total (update p b close_conn)) with (total p). cbn in *. lia.
  - intros r. change (sem (update p b close_conn) r) with (sem p r). specialize (HLr r). cbn [semHeld]. lia.
  - done.
  - apply (call_ok_evolves None p); [done|by rewrite Hp|]. split; [by rewrite Hp|done| |done]. intros b' Hb'. apply Cc. by right.
  - by rewrite Hp.
  - by left.
Qed.

Lemma inv_return p cs i b t be brk (ab : bool) c :
  inv p cs → cs !! i = Some c → c = (if ab then Abandon b t else Release b t brk) →
  backends p !! b = Some be → b_given be = true →
  let r := if ab then abandon p b else release cfg p b brk in
  inv r.2 (<[i := match r.1 with ReClose => discard b (b_role be) (Done Returned) | _ => Done Returned end]> cs).
Proof.
  intros Hinv Hi Hc Hb Hg r. pose proof (in_pool _ _ Hinv) as Hok.
  assert (totHeld c = 0%nat ∧ (∀ r, semHeld r c = 0%nat) ∧ got c = None ∧ closing c = []) as (HT & HS & HG & HC).
  { subst c. by destruct ab. }
  destruct (released be) eqn:Hr.
  { assert (r = (ReNothing, p)) as -> by (unfold r, release, abandon; rewrite Hb, Hr; by destruct ab).
    by apply (inv_quiet p p cs i c); rewrite ?HT, ?HG, ?HC. }
  assert (b_slot be = true) as Hs.
  { destruct (b_slot be) eqn:Hs; [done|]. destruct (po_dead _ Hok _ _ Hb Hs); congruence. }
  destruct ab; unfold r.
  - destruct (abandon_cases p b be Hb Hr) as [-> Hgu]. eapply (inv_given_up p _ cs i c be (drop_slot (returned true be))); done.
  - destruct (release_cases p b be brk Hb Hr) as [[-> Hk]|[-> Hgu]].
    + eapply (inv_kept p _ cs i c be (returned brk be) b); try done; by destruct brk.
    + eapply (inv_given_up p _ cs i c be (drop_slot (returned brk be))); try done; by destruct brk.
Qed.

Ltac quiet Hinv Hi := eapply (inv_quiet _ _ _ _ _ _ Hinv Hi); try done; try apply same_rolePool; try apply same_leave.

(** A token of the call's role taken, or given back. *)
Ltac token_sem Hinv Hi :=
  eapply (inv_sem _ _ _ _ _ _ _ Hinv Hi); try done; [lia|];
  intros r'; cbn [semHeld]; unfold is_role;
  destruct (decide _) as [<-|?]; [rewrite bool_decide_eq_true_2 by done|rewrite bool_decide_eq_false_2 by done]; cbn; lia.

Lemma inv_step p p' cs i c c' :
  inv p cs → cs !! i = Some c → returns_own p c → step p c p' c' → inv p' (<[i := c']> cs).
Proof.
  intros Hinv Hi Hown Hst. pose proof (in_pool _ _ Hinv) as Hok. pose proof (in_calls _ _ Hinv _ _ Hi) as Hco.
  destruct Hst as [Hs|Hs|Hs|Hs|Hs|Hs|Hs|Hs|Hs]; destruct Hs; try (quiet Hinv Hi; fail).
  - token_sem Hinv Hi.
  - pose proof (po_limit _ Hok (rq_role rq)). token_sem Hinv Hi.
  - destruct (closed p); quiet Hinv Hi.
  - by apply inv_dial.
  - by eapply inv_pop.
  - by eapply inv_pop.
  - by eapply inv_stale.
  - eapply inv_found; try done. match goal with H : unusable _ _ _ _ _ = false |- _ => apply orb_false_iff in H as [_ Hd] end.
    by apply bool_decide_eq_false, dec_stable in Hd.
  - quiet Hinv Hi; [by destruct (closed p)..|]. by destruct (closed p).
  - destruct (closed p); quiet Hinv Hi; apply same_park.
  - apply (inv_retired p _ cs i (EvictRole rq w) (Leave (QRole (rq_key rq)) w (ParkRole rq None)) [(b, k)]); try done.
    by eapply evict_retired.
  - token_sem Hinv Hi.
  - eapply (inv_total _ _ _ _ _ _ Hinv Hi); try done; [lia|cbn; lia].
  - apply (inv_retired p _ cs i (EvictAny rq w) (Leave QBudget w (TryTotal rq (Some w))) [(b, k)]); try done.
    by eapply evict_retired.
  - eapply (inv_total _ _ _ _ _ _ Hinv Hi); try done; [lia|cbn; lia].
  - destruct (closed p); quiet Hinv Hi.
  - destruct (co_follows _ _ Hco). quiet Hinv Hi.
  - by apply inv_closeconn.
  - destruct (co_follows _ _ Hco). pose proof (po_max _ Hok). eapply (inv_total _ _ _ _ _ _ Hinv Hi); try done; [lia|cbn; lia].
  - destruct (co_follows _ _ Hco). pose proof (po_limit _ Hok r). token_sem Hinv Hi.
  - destruct Hown as (be & Hb & Hg & Ht). rewrite Hb.
    by apply (inv_return p cs i b t be brk false (Release b t brk)).
  - destruct Hown as (be & Hb & Hg & Ht). rewrite Hb.
    by apply (inv_return p cs i b t be false true (Abandon b t)).
  - apply (inv_retired p _ cs i ReapOnce _ d Hinv Hi); try (by destruct d). by apply reap_retired.
  - quiet Hinv Hi. apply same_foldl, same_wakeFor.
  - apply (inv_retired p _ cs i Close (Done Returned) d Hinv Hi); try done. by apply close_retired.
Qed.

(** ** Every reachable state *)

Lemma call_carries c : is_call cfg c = true → totHeld c = 0%nat ∧ (∀ r, semHeld r c = 0%nat) ∧ popping c = None ∧ got c = None ∧ closing c = [] ∧ follows c.
Proof. by destruct c. Qed.

Lemma sum_app {A} (f : A → nat) l x : sum_list_with f (l ++ [x]) = (sum_list_with f l + f x)%nat.
Proof. induction l as [|y l IH]; simpl; [lia|]. rewrite IH. lia. Qed.

Lemma inv_call p cs c : inv p cs → is_call cfg c = true → inv p (cs ++ [c]).
Proof.
  intros [Hok IT IS IC IP IG] (HT & HS & HP & HG & HC & HF)%call_carries.
  assert (∀ j d, (cs ++ [c]) !! j = Some d → cs !! j = Some d ∨ d = c) as Hcases.
  { intros j d [?|[_ Hd]]%lookup_app_Some; [by left|]. apply list_lookup_singleton_Some in Hd as [_ ->]. by right. }
  split.
  - done.
  - rewrite sum_app. lia.
  - intros r. rewrite sum_app, HS, IS. lia.
  - intros j d [Hd| ->]%Hcases; [eauto|]. split; [by rewrite HP|by rewrite HG|rewrite HC; by intros ? ?%not_elem_of_nil|done].
  - intros j1 j2 d1 d2 rq rq' b H1 H2 E1 E2.
    destruct (Hcases _ _ H1) as [H1'| ->], (Hcases _ _ H2) as [H2'| ->]; try congruence. by eapply IP.
  - intros j1 j2 d1 d2 rq rq' b t H1 H2 E1 E2.
    destruct (Hcases _ _ H1) as [H1'| ->], (Hcases _ _ H2) as [H2'| ->]; try congruence. by eapply IG.
Qed.

(** What happens outside the pool's calls. *)
Lemma inv_outside p p' cs :
  inv p cs → pool_ok p' → total p' = total p → (∀ r, sem p' r = sem p r) → live p' = live p →
  (∀ r, live_role p' r = live_role p r) → evolves None p p' → inv p' cs.
Proof.
  intros [Hok IT IS IC IP IG] Hok' HT HS HL HLr Hev. split; [done|by rewrite HT, HL| | |done..].
  - intros r. by rewrite HS, HLr.
  - intros i c Hi. by apply (call_ok_evolves None p), (IC i).
Qed.

Lemma inv_use p cs b be used tx brk unf :
  inv p cs → backends p !! b = Some be → b_given be = true → (∀ k, b ∉ idleOf p k) →
  inv (update p b (use used tx brk unf)) cs.
Proof.
  intros Hinv Hb Hg Hni. pose proof (in_pool _ _ Hinv) as Hok.
  assert (backends (update p b (use used tx brk unf)) = <[b := use used tx brk unf be]> (backends p)) as HB.
  { cbn. by apply alter_insert. }
  destruct (live_at p _ b be _ Hb HB eq_refl) as [HL HLr]. cbn [use b_slot] in HL, HLr.
  apply (inv_outside p); try done.
  - apply (pool_ok_held _ _ be); try done.
    + cbn. intros Hs. split; [|by eapply po_open]. destruct (released be) eqn:Hr; [|done].
      by destruct (Hni (be_key be)); eapply po_live.
    + cbn. by eapply po_dead.
  - lia.
  - intros r. specialize (HLr r). lia.
  - apply (evolves_at _ _ _ b _ HB). intros be1 Hb1. rewrite Hb in Hb1. injection Hb1 as <-. split_and!; auto.
    intros _ _ _. congruence.
Qed.

Lemma inv_sys s s' : inv s.1 s.2 → sys_step s s' → inv s'.1 s'.2.
Proof.
  intros Hinv Hst. destruct Hst; cbn in *.
  - by apply inv_call.
  - by eapply inv_step.
  - pose proof (in_pool _ _ Hinv) as []. by apply (inv_outside p); [..|apply evolves_refl].
  - by eapply inv_use.
Qed.

Lemma inv_init now : 0 ≤ MaxBackends cfg → (∀ r, 0 ≤ roleLimit cfg r) → inv (newPool now) [].
Proof.
  intros HM HR. split; try done. split; try done; [|intros; apply NoDup_nil_2].
  intros k b. unfold idleOf. cbn. by intros ?%not_elem_of_nil.
Qed.

End Safety.

(** ** Configurations *)

Lemma withDefaults_bounds c :
  let c' := withDefaults c in 0 < MaxPerSuperuser c' ≤ MaxPerRole c' ∧ MaxPerRole c' ≤ MaxBackends c'.
Proof.
  unfold withDefaults, DefaultMaxPerSuperuser; cbn -[Z.leb Z.ltb].
  repeat match goal with |- context [if ?x then _ else _] => destruct x eqn:? end;
    repeat match goal with
           | H : _ || _ = true |- _ => apply orb_true_iff in H as [H|H]
           | H : _ || _ = false |- _ => apply orb_false_iff in H as [? ?]
           end; lia.
Qed.

Lemma withDefaults_limit c r : 0 < roleLimit (withDefaults c) r ≤ MaxBackends (withDefaults c).
Proof. destruct (withDefaults_bounds c) as [? ?]. unfold roleLimit. destruct (superuser _ _); lia. Qed.

Lemma reachable_inv c sha256 now p cs :
  reachable (withDefaults c) sha256 now (p, cs) → inv (withDefaults c) sha256 p cs.
Proof.
  intros Hr. change p with (p, cs).1. change cs with (p, cs).2 at 2. revert Hr. generalize (p, cs). intros s Hr.
  unfold reachable in Hr. revert s Hr. apply rtc_ind_r.
  - apply inv_init; [|intros r]; destruct (withDefaults_limit c ""); [lia|]. destruct (withDefaults_limit c r). lia.
  - intros s1 s2 _ Hst IH. by eapply inv_sys.
Qed.

(** ** What callers rely on *)

(** The budget holds under every interleaving: backends the pool has open
    never exceed [MaxBackends], nor a role's its own cap (a superuser's the
    smaller one), and the tokens in the channels are exactly the open backends
    and the slots calls in progress carry. *)
Theorem budget_kept c sha256 now p cs :
  reachable (withDefaults c) sha256 now (p, cs) →
  Z.of_nat (live p) ≤ MaxBackends (withDefaults c) ∧
  (∀ r, Z.of_nat (live_role p r) ≤ roleLimit (withDefaults c) r) ∧
  total p = (live p + sum_list_with totHeld cs)%nat ∧
  (∀ r, sem p r = (live_role p r + sum_list_with (semHeld r) cs)%nat).
Proof.
  intros Hr%reachable_inv. pose proof (in_pool _ _ _ _ Hr) as []. pose proof (in_total _ _ _ _ Hr).
  pose proof (in_sem _ _ _ _ Hr) as HS. split_and!; [lia| |done..]. intros r. specialize (po_limit0 r). specialize (HS r). lia.
Qed.

(** [free] never blocks: a call giving slots back always finds its tokens
    in the channels, so no caller hangs returning a backend. *)
Theorem free_never_blocks c sha256 now p cs i x k r :
  reachable (withDefaults c) sha256 now (p, cs) → cs !! i = Some x →
  x = FreeTotal r k ∨ x = FreeSem r k ∨ (∃ rq e, x = DropSem rq e) →
  ∃ p' x', step (withDefaults c) sha256 p x p' x'.
Proof.
  intros Hr%reachable_inv Hi Hx. pose proof (in_total _ _ _ _ Hr) as HT. pose proof (in_sem _ _ _ _ Hr) as HS.
  pose proof (sum_elem totHeld _ _ _ Hi) as ET.
  assert (∀ r, semHeld r x ≤ sum_list_with (semHeld r) cs)%nat as ES by (intros r'; by eapply sum_elem).
  destruct Hx as [-> |[-> |(rq & e & ->)]].
  - cbn in ET. destruct (total p) as [|n] eqn:En; [lia|]. eauto 6 using step, acquire_step, free_step.
  - specialize (ES r). specialize (HS r). cbn in ES. unfold is_role in ES. rewrite bool_decide_eq_true_2 in ES by done. cbn in ES.
    destruct (sem p r) as [|n] eqn:En; [lia|]. eauto 6 using step, acquire_step, free_step.
  - specialize (ES (rq_role rq)). specialize (HS (rq_role rq)). cbn in ES. unfold is_role in ES.
    rewrite bool_decide_eq_true_2 in ES by done. cbn in ES.
    destruct (sem p (rq_role rq)) as [|n] eqn:En; [lia|]. eauto 6 using step, acquire_step, free_step.
Qed.

(** A caller holds a backend: it was given it, and it has not come back. *)
Definition holds (p : pool) (x : pc) (b : nat) : Prop :=
  ∃ rq t be, got x = Some (rq, b, t) ∧ backends p !! b = Some be ∧ b_ticket be = t ∧ released be = false.

Lemma answer_step cfg sha256 p x p' x' rq b t :
  step cfg sha256 p x p' x' → got x = None → got x' = Some (rq, b, t) →
  (∃ w be, x = PopCheck rq b w ∧ backends p !! b = Some be ∧ t = b_ticket be ∧ p' = update p b give ∧
     unusable cfg sha256 p rq be = false) ∨
  (x = Dial rq ∧ t = 0%nat ∧ backends p !! b = None ∧ p' = with_backends p (<[b := new_backend sha256 p rq]> (backends p))).
Proof.
  intros Hst. destruct Hst as [Hs|Hs|Hs|Hs|Hs|Hs|Hs|Hs|Hs]; destruct Hs; cbn; intros Hx Hg;
    try done; try congruence; try (by destruct (closed p)).
  - right. by simplify_eq.
  - by destruct w.
  - left. exists w, be. destruct w; cbn in Hg; by simplify_eq.
  - by destruct (release cfg p b0 brk).1, (backends p !! b0).
  - by destruct (abandon p b0).1, (backends p !! b0).
  - destruct (discard_all_held d (if d is [] then Done Returned else WakeAfterReap d.*2)) as (_ & _ & E & _).
    rewrite E in Hg. by destruct d.
  - destruct (discard_all_held d (Done Returned)) as (_ & _ & E & _). by rewrite E in Hg.
Qed.

(** C19. What [Acquire] answers: whenever a call gets a backend, it is open,
    of the database and role asked for, authenticated with exactly the keys
    the caller presented (by digest), outside any transaction with nothing
    unflushed of an earlier user, in no idle list, and held by no other
    caller. *)
Theorem acquire_answers c sha256 now p cs i x p' x' rq b t :
  reachable (withDefaults c) sha256 now (p, cs) → cs !! i = Some x → got x = None →
  step (withDefaults c) sha256 p x p' x' → got x' = Some (rq, b, t) →
  (∃ be, backends p' !! b = Some be ∧ b_database be = rq_database rq ∧ b_role be = rq_role rq ∧
     credDigest be = rq_digest sha256 rq ∧ conn be = true ∧ clean be ∧ released be = false) ∧
  (∀ k, b ∉ idleOf p' k) ∧
  (∀ j y, j ≠ i → cs !! j = Some y → ¬ holds p' y b).
Proof.
  intros Hr%reachable_inv Hi Hx Hst Hg.
  assert (inv (withDefaults c) sha256 p' (<[i := x']> cs)) as Hinv'.
  { apply (inv_step _ _ p p' cs i x x'); try done.
    by destruct (answer_step _ _ _ _ _ _ _ _ _ Hst Hx Hg) as [(? & ? & -> & _)|(-> & _)]. }
  pose proof (in_pool _ _ _ _ Hr) as Hok. pose proof (in_pool _ _ _ _ Hinv') as Hok'.
  assert (∃ be, backends p' !! b = Some be ∧ be_key be = rq_key rq ∧ credDigest be = rq_digest sha256 rq ∧
            b_slot be = true ∧ clean be ∧ released be = false ∧ t = b_ticket be) as (be & Hb & Hk & Hd & Hs & Hc & Hrel & ->).
  { destruct (answer_step _ _ _ _ _ _ _ _ _ Hst Hx Hg) as [(w & be & -> & Hb & -> & -> & Hu)|(-> & -> & Hb & ->)].
    - destruct (co_popping _ _ _ (in_calls _ _ _ _ Hr _ _ Hi) _ _ eq_refl) as [(be1 & Hb1 & ? & ? & ? & ? & ?)]. simplify_eq.
      exists (give be). cbn. rewrite lookup_alter_eq, Hb. apply orb_false_iff in Hu as [_ Hu].
      apply bool_decide_eq_false, dec_stable in Hu. split_and!; done.
    - exists (new_backend sha256 p rq). cbn. by rewrite lookup_insert_eq. }
  split_and!.
  - exists be. unfold be_key, rq_key in Hk. split_and!; try done; [congruence..|]. by eapply po_open.
  - by eapply (not_idle _ p' b be).
  - intros j y Hne Hj (rq' & t & be' & Hgy & Hb' & <- & _). simplify_eq. apply Hne.
    eapply (in_got _ _ _ _ Hinv' j i); [|apply list_lookup_insert_eq; by eapply lookup_lt_Some|exact Hgy|exact Hg].
    by rewrite list_lookup_insert_ne.
Qed.
