(* ===== verification/PoolRefine.v ===== *)
(** * The backend pool implements an abstract budget

    The contract of [pool.go] without its channels, lists, waiters and locks:
    a set of open backends, each held or idle, within the budget.  Every step
    of the pool is a sequence of steps of this machine. *)

From S2P Require Import Prelude Pool PoolSafety.

Local Open Scope Z_scope.

Record open_backend := mkOpen { o_key : poolKey; o_digest : bytes; o_held : bool }.

Section Spec.
Variable cfg : PoolConfig.

Definition of_role (r : string) (m : gmap nat open_backend) : nat := countIf (λ x, bool_decide (r = (o_key x).2)) m.

Inductive spec_step : gmap nat open_backend → gmap nat open_backend → Prop :=
| spec_open m b k d :
    m !! b = None → Z.of_nat (size m) < MaxBackends cfg → Z.of_nat (of_role k.2 m) < roleLimit cfg k.2 →
    spec_step m (<[b := mkOpen k d true]> m)
| spec_take m b k d : m !! b = Some (mkOpen k d false) → spec_step m (<[b := mkOpen k d true]> m)
| spec_give m b k d : m !! b = Some (mkOpen k d true) → spec_step m (<[b := mkOpen k d false]> m)
| spec_drop m b x : m !! b = Some x → spec_step m (delete b m).

End Spec.

(** The open backends of a pool. *)
Definition seen (be : Backend) : option open_backend :=
  if b_slot be then Some (mkOpen (be_key be) (credDigest be) (negb (released be))) else None.
Definition abs (p : pool) : gmap nat open_backend := omap seen (backends p).

Lemma abs_lookup p b : abs p !! b = backends p !! b ≫= seen.
Proof. unfold abs. by rewrite lookup_omap. Qed.

Lemma countIf_omap {A B} (f : A → option B) (P : B → bool) m :
  countIf P (omap f m) = countIf (λ x, from_option P false (f x)) m.
Proof.
  induction m as [|i x m Hi IH] using map_ind; [by rewrite omap_empty|].
  rewrite countIf_insert_new by done. destruct (f x) as [y|] eqn:Ef; cbn.
  - rewrite (omap_insert_Some f m i x y Ef), countIf_insert_new by (by rewrite lookup_omap, Hi). by rewrite IH.
  - rewrite (omap_insert_None f m i x Ef), delete_id by (by rewrite lookup_omap, Hi). by rewrite IH.
Qed.

Lemma size_countIf {A} (m : gmap nat A) : size m = countIf (λ _, true) m.
Proof.
  induction m as [|i x m Hi IH] using map_ind; [done|]. rewrite countIf_insert_new, map_size_insert_None by done. by rewrite IH.
Qed.

Lemma countIf_ext {A} (P Q : A → bool) m : (∀ x, P x = Q x) → countIf P m = countIf Q m.
Proof.
  intros H. induction m as [|i x m Hi IH] using map_ind; [done|]. rewrite !countIf_insert_new by done. by rewrite IH, H.
Qed.

Lemma abs_size p : size (abs p) = live p.
Proof.
  rewrite size_countIf. unfold abs, live. rewrite countIf_omap. apply countIf_ext. intros be. unfold seen. by destruct (b_slot be).
Qed.
Lemma abs_of_role p r : of_role r (abs p) = live_role p r.
Proof.
  unfold of_role, abs, live_role. rewrite countIf_omap. apply countIf_ext. intros be. unfold seen. by destruct (b_slot be).
Qed.

Lemma abs_at p p' b be' :
  backends p' = <[b := be']> (backends p) →
  abs p' = match seen be' with Some x => <[b := x]> (abs p) | None => delete b (abs p) end.
Proof.
  intros HB. unfold abs. rewrite HB. destruct (seen be') as [x|] eqn:Es.
  - by apply omap_insert_Some.
  - by apply omap_insert_None.
Qed.

Section Refines.
Variables (cfg : PoolConfig) (sha256 : bytes → bytes).
Notation sim := (rtc (spec_step cfg)).

Lemma sim_same p p' : backends p' = backends p → sim (abs p) (abs p').
Proof. intros E. unfold abs. by rewrite E. Qed.

(** A change to one backend that is not seen. *)
Lemma sim_unseen p p' b be be' :
  backends p !! b = Some be → backends p' = <[b := be']> (backends p) → seen be' = seen be → sim (abs p) (abs p').
Proof.
  intros Hb HB E. rewrite (abs_at p p' b be' HB), E. pose proof (abs_lookup p b) as H. rewrite Hb in H. cbn in H.
  destruct (seen be) as [x|]; [rewrite insert_id by done; done|by rewrite delete_id].
Qed.

Lemma sim_drop p p' b be be' :
  backends p !! b = Some be → backends p' = <[b := be']> (backends p) → b_slot be' = false → sim (abs p) (abs p').
Proof.
  intros Hb HB E. rewrite (abs_at p p' b be' HB). unfold seen at 1. rewrite E.
  destruct (abs p !! b) as [x|] eqn:Ha; [|by rewrite delete_id]. apply rtc_once. by eapply spec_drop.
Qed.

Lemma sim_drop_slots p l p' : backends p' = drop_slots (backends p) l → sim (abs p) (abs p').
Proof.
  revert p'. induction l as [|b l IH]; intros p' HB; [by apply sim_same|].
  trans (abs (with_backends p (drop_slots (backends p) l))); [by apply IH|].
  destruct (drop_slots (backends p) l !! b) as [be|] eqn:Hb.
  - apply (sim_drop _ p' b be (drop_slot be)); [done| |done]. rewrite HB. by apply alter_insert.
  - apply sim_same. rewrite HB. cbn. change (foldr (alter drop_slot) (backends p) l) with (drop_slots (backends p) l).
    apply map_eq. intros j. destruct (decide (b = j)) as [-> |Hne]; [by rewrite lookup_alter_eq, Hb|by rewrite lookup_alter_ne].
Qed.

Lemma sim_retired p p' d : retired p p' d → sim (abs p) (abs p').
Proof. intros Hr. by eapply sim_drop_slots, re_backends. Qed.

Lemma sim_return p b be r p' brk :
  pool_ok cfg p → backends p !! b = Some be → b_given be = true →
  (r, p') = release cfg p b brk ∨ (r, p') = abandon p b → sim (abs p) (abs p').
Proof.
  intros Hok Hb Hg Hc. destruct (released be) eqn:Hr.
  { apply sim_same. destruct Hc as [Hc|Hc]; unfold release, abandon in Hc; rewrite Hb, Hr in Hc; by simplify_eq. }
  assert (b_slot be = true) as Hs.
  { destruct (b_slot be) eqn:Hs; [done|]. destruct (po_dead _ _ Hok _ _ Hb Hs); congruence. }
  assert (∀ be', b_slot be' = false → given_up p p' b be' → sim (abs p) (abs p')) as Hgu.
  { intros be' Hs' [HB _ _ _]. by eapply sim_drop. }
  destruct Hc as [Hc|Hc].
  - destruct (release_cases cfg p b be brk Hb Hr) as [[_ Hk]|[_ H]]; rewrite <- Hc in *; cbn in *; [|by eapply Hgu, H].
    destruct Hk as [_ HB _ _ _]. rewrite (abs_at _ _ _ _ HB). unfold seen.
    replace (b_slot (returned brk be)) with true by (by destruct brk).
    replace (released (returned brk be)) with true by (by destruct brk). cbn.
    replace (be_key (returned brk be)) with (be_key be) by (by destruct brk).
    replace (credDigest (returned brk be)) with (credDigest be) by (by destruct brk).
    apply rtc_once, spec_give. rewrite abs_lookup, Hb. cbn. unfold seen. by rewrite Hs, Hr.
  - destruct (abandon_cases p b be Hb Hr) as [_ H]. rewrite <- Hc in H. by eapply Hgu, H.
Qed.

Lemma sim_step p cs i c p' c' :
  inv cfg sha256 p cs → cs !! i = Some c → returns_own p c → step cfg sha256 p c p' c' → sim (abs p) (abs p').
Proof.
  intros Hinv Hi Hown Hst. pose proof (in_pool _ _ _ _ Hinv) as Hok. pose proof (in_calls _ _ _ _ Hinv _ _ Hi) as Hco.
  assert (∀ rq b, popLast p (rq_key rq) = Some (b, p') → sim (abs p) (abs p')) as Hpop.
  { intros rq b. unfold popLast. destruct (last _) as [b'|] eqn:Hl; [|done]. intros [= -> <-].
    apply last_Some in Hl as [l Hl]. destruct (po_idle _ _ Hok (rq_key rq) b) as (be & Hb & Hs & Hr & _).
    { rewrite Hl. apply elem_of_app. right. by left. }
    match goal with |- rtc _ _ (abs ?q) => rewrite (abs_at p q b (take_out be)) by (cbn; by apply alter_insert) end.
    unfold seen. cbn. rewrite Hs.
    apply rtc_once, spec_take. rewrite abs_lookup, Hb. cbn. unfold seen. by rewrite Hs, Hr. }
  destruct Hst as [Hs|Hs|Hs|Hs|Hs|Hs|Hs|Hs|Hs]; destruct Hs; try (by apply sim_same); try (apply sim_same, same_leave);
    try (apply sim_same, same_park); try (by eapply Hpop).
  - apply sim_same, same_rolePool.
  - pose proof (in_total _ _ _ _ Hinv) as HT. pose proof (in_sem _ _ _ _ Hinv (rq_role rq)) as HS.
    pose proof (sum_elem totHeld _ _ _ Hi) as ET. pose proof (sum_elem (semHeld (rq_role rq)) _ _ _ Hi) as ES.
    cbn in ET, ES. unfold is_role in ES. rewrite bool_decide_eq_true_2 in ES by done. cbn in ES.
    pose proof (po_max _ _ Hok). pose proof (po_limit _ _ Hok (rq_role rq)).
    match goal with |- rtc _ _ (abs ?q) => rewrite (abs_at p q b (new_backend sha256 p rq)) by done end. cbn. apply rtc_once, spec_open.
    + by rewrite abs_lookup, H.
    + rewrite abs_size. lia.
    + rewrite abs_of_role. cbn. lia.
  - eapply (sim_drop _ _ b be (drop_slot be)); try done. cbn. by apply alter_insert.
  - eapply (sim_unseen _ _ b be (give be)); try done. cbn. by apply alter_insert.
  - by eapply sim_retired, evict_retired.
  - by eapply sim_retired, evict_retired.
  - destruct (co_closing _ _ _ Hco b (list_elem_of_here _ _)) as (be & Hb & Hs).
    eapply (sim_unseen _ _ b be (close_conn be)); try done. cbn. by apply alter_insert.
  - destruct Hown as (be & Hb & Hg & _). eapply (sim_return p b be _ _ brk); try done. left. symmetry. apply surjective_pairing.
  - destruct Hown as (be & Hb & Hg & _). eapply (sim_return p b be _ _ false); try done. right. symmetry. apply surjective_pairing.
  - by eapply sim_retired, reap_retired.
  - apply sim_same, same_foldl, same_wakeFor.
  - by eapply sim_retired, close_retired.
Qed.

End Refines.

(** C20. The pool implements the abstract budget: whatever a call, the clock or
    a user does next, the open backends change by steps of the abstract
    machine, which opens a backend only within the budget and the role's cap,
    hands out only idle ones, takes back only held ones. *)
Theorem pool_refines_budget c sha256 now p cs p' cs' :
  reachable (withDefaults c) sha256 now (p, cs) → sys_step (withDefaults c) sha256 (p, cs) (p', cs') →
  rtc (spec_step (withDefaults c)) (abs p) (abs p').
Proof.
  intros Hr%reachable_inv Hst. inversion Hst; subst.
  - by apply sim_same.
  - by eapply sim_step.
  - by apply sim_same.
  - eapply (sim_unseen _ _ _ b be (use used tx brk unf be)); try done. cbn. by apply alter_insert.
Qed.
