(* ===== verification/PoolRun.v ===== *)
(** * Runs of the backend pool

    An executable scheduler for [Pool.v], sound for its steps, with the runs
    that show what waiters and double returns can meet, and the instances of
    the pool's theorems. *)

From S2P Require Import Prelude Pool PoolSafety PoolRefine.

Local Open Scope Z_scope.

(** ** A scheduler *)

Section Exec.
Variables (cfg : PoolConfig) (sha256 : bytes → bytes).

(** One step of a call: a token or a wake-up is taken when there is one, the
    dial succeeds; [None] when the call waits or is done. *)
Definition exec (p : pool) (c : pc) : option (pool * pc) :=
  match c with
  | Acquire rq => Some (if closed p then (p, Done (Failed ErrPoolClosed)) else (rolePool p (rq_key rq), PopFirst rq))
  | PopFirst rq => Some (match popLast p (rq_key rq) with Some (b, p') => (p', PopCheck rq b None) | None => (p, TrySem rq) end)
  | PopCheck rq b w =>
      be ← backends p !! b;
      Some (if unusable cfg sha256 p rq be then (update p b drop_slot, discard b (rq_role rq) (pop_again rq w))
            else (update p b give, pop_found rq b (b_ticket be) w))
  | TrySem rq =>
      Some (if Z.of_nat (sem p (rq_role rq)) <? roleLimit cfg (rq_role rq)
            then (with_sem p (rq_role rq) (S (sem p (rq_role rq))), TryTotal rq None) else (p, ParkRole rq None))
  | ParkRole rq w0 =>
      let w := default (next_waiter p) w0 in
      let p' := match w0 with Some _ => p | None => with_next p end in
      Some (park p' (QRole (rq_key rq)) w,
            if closed p then Leave (QRole (rq_key rq)) w (Done (Failed ErrPoolClosed)) else PopAgain rq w)
  | PopAgain rq w =>
      Some (match popLast p (rq_key rq) with Some (b, p') => (p', PopCheck rq b (Some w)) | None => (p, EvictRole rq w) end)
  | EvictRole rq w =>
      Some (match evict p (otherDatabases (rq_key rq) (poolKeys p)) with
            | None => (p, SelectRole rq w)
            | Some (b, k, p') =>
                (update p' b drop_slot, discard b k.2 (Leave (QRole (rq_key rq)) w (ParkRole rq None)))
            end)
  | SelectRole rq w =>
      if Z.of_nat (sem p (rq_role rq)) <? roleLimit cfg (rq_role rq)
      then Some (with_sem p (rq_role rq) (S (sem p (rq_role rq))), Leave (QRole (rq_key rq)) w (TryTotal rq None))
      else if decide (w ∈ wakeups p)
      then Some (with_wakeups p (wakeups p ∖ {[w]}), Leave (QRole (rq_key rq)) w (ParkRole rq (Some w)))
      else None
  | TryTotal rq w =>
      Some (if Z.of_nat (total p) <? MaxBackends cfg then (with_total p (S (total p)), CheckClosed rq) else (p, ParkBudget rq w))
  | ParkBudget rq w0 =>
      let w := default (next_waiter p) w0 in
      let p' := match w0 with Some _ => p | None => with_next p end in
      Some (park p' QBudget w, EvictAny rq w)
  | EvictAny rq w =>
      Some (match evict p (poolKeys p) with
            | None => (p, SelectBudget rq w)
            | Some (b, k, p') => (update p' b drop_slot, discard b k.2 (Leave QBudget w (TryTotal rq (Some w))))
            end)
  | SelectBudget rq w =>
      if decide (w ∈ wakeups p) then Some (with_wakeups p (wakeups p ∖ {[w]}), WokenBudget rq w)
      else if Z.of_nat (total p) <? MaxBackends cfg then Some (with_total p (S (total p)), Leave QBudget w (CheckClosed rq))
      else None
  | WokenBudget rq w => Some (p, Leave QBudget w (if closed p then DropSem rq ErrPoolClosed else TryTotal rq (Some w)))
  | DropSem rq e => match sem p (rq_role rq) with S n => Some (with_sem p (rq_role rq) n, Done (Failed e)) | 0%nat => None end
  | CheckClosed rq =>
      Some (p, if closed p then FreeTotal (rq_role rq) (FreeSem (rq_role rq) (Done (Failed ErrPoolClosed))) else Dial rq)
  | Dial rq =>
      let b := size (backends p) in
      match backends p !! b with
      | None => Some (with_backends p (<[b := new_backend sha256 p rq]> (backends p)), Done (GotBackend rq b 0))
      | Some _ => None
      end
  | Leave q w k => Some (leave p q w, k)
  | CloseConn b k => Some (update p b close_conn, k)
  | FreeTotal r k => match total p with S n => Some (with_total p n, k) | 0%nat => None end
  | FreeSem r k => match sem p r with S n => Some (with_sem p r n, k) | 0%nat => None end
  | Release b t brk =>
      Some ((release cfg p b brk).2,
            match (release cfg p b brk).1, backends p !! b with
            | ReClose, Some be => discard b (b_role be) (Done Returned)
            | _, _ => Done Returned
            end)
  | Abandon b t =>
      Some ((abandon p b).2,
            match (abandon p b).1, backends p !! b with
            | ReClose, Some be => CloseConn b (FreeTotal (b_role be) (FreeSem (b_role be) (Done Returned)))
            | _, _ => Done Returned
            end)
  | ReapOnce =>
      Some (if closed p then (p, Done Returned)
            else (reap cfg p, discard_all (dead cfg p) (if dead cfg p is [] then Done Returned else WakeAfterReap (dead cfg p).*2)))
  | WakeAfterReap ks => Some (foldl wakeFor p ks, Done Returned)
  | Close => Some (close_pool p, discard_all (all_idle p) (Done Returned))
  | Done _ => None
  end.

Lemma popLast_None p k : popLast p k = None → idleOf p k = [].
Proof. unfold popLast. destruct (last (idleOf p k)) as [b|] eqn:E; [done|]. by apply last_None in E. Qed.

Lemma exec_sound p c p' c' : exec p c = Some (p', c') → step cfg sha256 p c p' c'.
Proof.
  destruct c; cbn -[Z.ltb]; intros H.
  - apply by_acquire_step. destruct (closed p) eqn:E; simplify_eq; by constructor.
  - apply by_popIdle_step. destruct (popLast p (rq_key rq)) as [[b q]|] eqn:E; simplify_eq; constructor; [done|by apply popLast_None].
  - apply by_popIdle_step. destruct (backends p !! b) as [be|] eqn:Eb; [|done]. cbn in H.
    destruct (unusable cfg sha256 p rq be) eqn:E; simplify_eq; [by eapply step_pop_stale|by apply step_pop_found].
  - apply by_acquire_step. destruct (_ <? _) eqn:E; simplify_eq; constructor; lia.
  - apply by_awaitSlot_step. destruct w as [w|]; simplify_eq; constructor.
  - apply by_popIdle_step. destruct (popLast p (rq_key rq)) as [[b q]|] eqn:E; simplify_eq; constructor; [done|by apply popLast_None].
  - apply by_awaitSlot_step. destruct (evict p _) as [[[b k] q]|] eqn:E; simplify_eq; [by eapply step_evictrole|by constructor].
  - apply by_awaitSlot_step. destruct (_ <? _) eqn:E; simplify_eq; [constructor; lia|]. destruct (decide _); simplify_eq. by constructor.
  - apply by_acquireTotal_step. destruct (_ <? _) eqn:E; simplify_eq; constructor; lia.
  - apply by_acquireTotal_step. destruct w as [w|]; simplify_eq; constructor.
  - apply by_acquireTotal_step. destruct (evict p _) as [[[b k] q]|] eqn:E; simplify_eq; [by eapply step_evict|by constructor].
  - apply by_acquireTotal_step. destruct (decide _); simplify_eq; [by constructor|]. destruct (_ <? _) eqn:E; simplify_eq. constructor. lia.
  - apply by_acquireTotal_step. simplify_eq. constructor.
  - apply by_acquire_step. destruct (sem p (rq_role rq)) eqn:E; simplify_eq. by constructor.
  - apply by_acquire_step. simplify_eq. constructor.
  - apply by_acquire_step. destruct (backends p !! _) eqn:E; simplify_eq. by constructor.
  - apply by_leave_step. simplify_eq. constructor.
  - apply by_free_step. simplify_eq. constructor.
  - apply by_free_step. destruct (total p) eqn:E; simplify_eq. by constructor.
  - apply by_free_step. destruct (sem p role) eqn:E; simplify_eq. by constructor.
  - apply by_release_step. simplify_eq. constructor.
  - apply by_release_step. simplify_eq. constructor.
  - apply by_reapOnce_step. destruct (closed p) eqn:E; simplify_eq; by constructor.
  - apply by_reapOnce_step. simplify_eq. constructor.
  - apply by_Close_step. simplify_eq. by constructor.
  - done.
Qed.

(** A schedule: a call is made, a call steps so many times, the clock moves. *)
Inductive event := ECall (c : pc) | ERun (i n : nat) | EClock (t : Z).

Definition owns (p : pool) (c : pc) : bool :=
  match c with
  | Release b t _ | Abandon b t =>
      match backends p !! b with Some be => b_given be && (b_ticket be =? t)%nat | None => false end
  | _ => true
  end.

Definition run1 (s : pool * list pc) (i : nat) : option (pool * list pc) :=
  c ← s.2 !! i;
  if owns s.1 c then '(p', c') ← exec s.1 c; Some (p', <[i := c']> s.2) else None.
Fixpoint runs (s : pool * list pc) (i n : nat) : option (pool * list pc) :=
  match n with 0%nat => Some s | S n => s ← run1 s i; runs s i n end.
Definition play1 (s : pool * list pc) (e : event) : option (pool * list pc) :=
  match e with
  | ECall c => if is_call cfg c then Some (s.1, s.2 ++ [c]) else None
  | ERun i n => runs s i n
  | EClock t => if clock s.1 <=? t then Some (with_clock s.1 t, s.2) else None
  end.
Fixpoint play (s : pool * list pc) (es : list event) : option (pool * list pc) :=
  match es with [] => Some s | e :: es => s ← play1 s e; play s es end.

Lemma owns_sound p c : owns p c = true → returns_own p c.
Proof.
  destruct c; cbn; try done.
  all: destruct (backends p !! b) as [be|]; [|done]; intros [? ?%Nat.eqb_eq]%andb_true_iff; eauto.
Qed.

Lemma runs_sound n s i s' : runs s i n = Some s' → rtc (sys_step cfg sha256) s s'.
Proof.
  revert s; induction n as [|n IH]; intros s; cbn; [by intros [= ->]|].
  destruct (run1 s i) as [s1|] eqn:E; cbn; [|done]. intros H%IH. eapply rtc_l; [|exact H].
  destruct s as [p cs]. unfold run1 in E. cbn in E. destruct (cs !! i) as [c|] eqn:Ec; cbn in E; [|done].
  destruct (owns p c) eqn:Eo; [|done]. destruct (exec p c) as [[p' c']|] eqn:Ex; cbn in E; [|done]. injection E as <-.
  eapply sys_thread; [done|by apply owns_sound|by apply exec_sound].
Qed.

Lemma play_sound es s s' : play s es = Some s' → rtc (sys_step cfg sha256) s s'.
Proof.
  revert s; induction es as [|e es IH]; intros s; cbn; [by intros [= ->]|].
  destruct (play1 s e) as [s1|] eqn:E; cbn; [|done]. intros H%IH. etrans; [|exact H].
  destruct s as [p cs], e as [c|i n|t]; cbn in E.
  - destruct (is_call cfg c) eqn:Ec; simplify_eq. by apply rtc_once, sys_call.
  - by apply (runs_sound n _ i).
  - destruct (clock p <=? t) eqn:Et; simplify_eq. apply rtc_once, sys_clock. lia.
Qed.

End Exec.

(** ** What a waiter can meet *)

Definition noSha (_ : bytes) : bytes := [].
Definition small (backends perRole : Z) : PoolConfig := mkPoolConfig backends perRole [] 0 0 0 0.
Definition ask (database role : string) : request := mkRequest database role [1] [2].

(** The call can do nothing but wait for its context to end. *)
Definition only_times_out (cfg : PoolConfig) (p : pool) (c : pc) : Prop :=
  ∀ p' c', step cfg noSha p c p' c' →
    p' = p ∧ ∃ e q w k, (e = ErrBudgetExhausted ∨ e = ErrCanceled) ∧ c' = Leave q w k ∧
      (k = Done (Failed e) ∨ ∃ rq, k = DropSem rq e).

Lemma only_times_out_role cfg p rq w :
  (Z.of_nat (sem p (rq_role rq)) <? roleLimit cfg (rq_role rq)) = false → bool_decide (w ∈ wakeups p) = false →
  only_times_out cfg p (SelectRole rq w).
Proof.
  intros Hs Hw p' c' Hst. apply bool_decide_eq_false in Hw. destruct Hst as [Hs'|Hs'|Hs'|Hs'|Hs'|Hs'|Hs'|Hs'|Hs']; inversion Hs'; subst; [lia|done|]. split; [done|]. eauto 10.
Qed.

Lemma only_times_out_budget cfg p rq w :
  (Z.of_nat (total p) <? MaxBackends cfg) = false → bool_decide (w ∈ wakeups p) = false →
  only_times_out cfg p (SelectBudget rq w).
Proof.
  intros Hs Hw p' c' Hst. apply bool_decide_eq_false in Hw. destruct Hst as [Hs'|Hs'|Hs'|Hs'|Hs'|Hs'|Hs'|Hs'|Hs']; inversion Hs'; subst; [lia|done|]. split; [done|]. eauto 10.
Qed.

Definition final (cfg : PoolConfig) (es : list event) : pool * list pc :=
  default (init 0) (play cfg noSha (init 0) es).
Definition plays (cfg : PoolConfig) (es : list event) : bool :=
  match play cfg noSha (init 0) es with Some _ => true | None => false end.

Lemma final_reachable cfg es : plays cfg es = true → reachable cfg noSha 0 ((final cfg es).1, (final cfg es).2).
Proof.
  unfold plays, final. destruct (play cfg noSha (init 0) es) as [[p cs]|] eqn:E; [|done]. intros _. by eapply play_sound.
Qed.

Definition is_done (c : pc) : bool := match c with Done _ => true | _ => false end.
(** Every call but one is over. *)
Definition others_done (i : nat) (cs : list pc) : bool := forallb is_done (delete i cs).
Definition evicts (p : pool) (keys : list poolKey) : bool := match evict p keys with Some _ => true | None => false end.

(** With one backend per role: [r] takes one in database [a], then asks in
    [b] and waits, then gives the first one back. *)
Definition cross_database : list event :=
  [ECall (Acquire (ask "a" "r")); ERun 0 6; ECall (Acquire (ask "b" "r")); ERun 1 6;
   ECall (Release 0 0 false); ERun 2 1].

Ltac by_run := vm_compute; reflexivity.

(** A waiter can be left beside an idle backend of its own role: with the
    role's only backend released to the idle list of another database while
    it waits, every other call over and the shard's budget not used up, all
    the waiter can do is wait out its context, although eviction would take
    that backend at once. *)
Theorem waiter_stranded_across_databases :
  let cfg := withDefaults (small 2 1) in
  ∃ p cs rq w b k,
    reachable cfg noSha 0 (p, cs) ∧ closed p = false ∧
    cs !! 1%nat = Some (SelectRole rq w) ∧ others_done 1 cs = true ∧
    (idleOf p k = [b] ∧ k.2 = rq_role rq ∧ k.1 ≠ rq_database rq) ∧ (Z.of_nat (total p) <? MaxBackends cfg) = true ∧
    only_times_out cfg p (SelectRole rq w) ∧
    evicts p (otherDatabases (rq_key rq) (poolKeys p)) = true.
Proof.
  set (f := final (withDefaults (small 2 1)) cross_database).
  exists f.1, f.2, (ask "b" "r"), 0%nat, 0%nat, ("a", "r").
  split; [apply final_reachable; by_run|]. do 3 (split; [by_run|]). split; [split; [by_run|done]|].
  split; [by_run|]. split; [apply only_times_out_role; by_run|by_run].
Qed.

(** Two backends in all: both held, two calls wait for the budget.  One
    backend comes back idle and wakes the first; the other is closed and
    its slot goes to the woken call. *)
Definition spent_wakeup : list event :=
  [ECall (Acquire (ask "a" "r0")); ERun 0 6; ECall (Acquire (ask "a" "r1")); ERun 1 6;
   ECall (Acquire (ask "a" "r2")); ERun 2 6; ECall (Acquire (ask "a" "r3")); ERun 3 6;
   ECall (Release 0 0 false); ERun 4 1; ERun 2 3; ECall (Release 1 0 true); ERun 5 4; ERun 2 3].

(** A wake-up can be spent without using the backend it points at: a call
    waiting for the budget that was woken for an idle backend, and then finds
    a free slot instead, does not hand the wake-up on, and the next waiter is
    left to its timeout beside that idle backend. *)
Theorem wakeup_spent_on_a_free_slot :
  let cfg := withDefaults (small 2 2) in
  ∃ p cs rq w b k,
    reachable cfg noSha 0 (p, cs) ∧ closed p = false ∧
    cs !! 3%nat = Some (SelectBudget rq w) ∧ others_done 3 cs = true ∧ idleOf p k = [b] ∧
    only_times_out cfg p (SelectBudget rq w) ∧ evicts p (poolKeys p) = true.
Proof.
  set (f := final (withDefaults (small 2 2)) spent_wakeup).
  exists f.1, f.2, (ask "a" "r3"), 1%nat, 0%nat, ("a", "r0").
  split; [apply final_reachable; by_run|]. do 4 (split; [by_run|]).
  split; [apply only_times_out_budget; by_run|by_run].
Qed.

(** ** Returning twice *)

Fixpoint execs (cfg : PoolConfig) (p : pool) (c : pc) (n : nat) : option (pool * pc) :=
  match n with 0%nat => Some (p, c) | S n => '(p, c) ← exec cfg noSha p c; execs cfg p c n end.
Definition call_steps (cfg : PoolConfig) : pool * pc → pool * pc → Prop :=
  rtc (λ s s', step cfg noSha s.1 s.2 s'.1 s'.2).

Lemma execs_sound cfg n p c s : execs cfg p c n = Some s → call_steps cfg (p, c) s.
Proof.
  revert p c; induction n as [|n IH]; intros p c; cbn; [by intros [= <-]|].
  destruct (exec cfg noSha p c) as [[p1 c1]|] eqn:E; cbn; [|done]. intros H%IH. eapply rtc_l; [|exact H].
  cbn. by apply exec_sound.
Qed.

Definition aging : PoolConfig := withDefaults (mkPoolConfig 4 4 [] 0 10 0 0).
(** Backend 0 is returned; later, too old, it is taken from the idle list
    and closed by another call. *)
Definition returned_once : list event :=
  [ECall (Acquire (ask "a" "r")); ERun 0 6; ECall (Release 0 0 false); ERun 1 1].
Definition then_expired : list event := [EClock 100; ECall (Acquire (ask "a" "r")); ERun 2 11].

(** A second return of a handout can take another backend's slots: a
    handout already returned, whose backend was then found expired in the
    idle list and closed, is returned again and frees two tokens a second
    time, so one backend more than the channels count is open.  Before that
    backend was closed the second return did nothing. *)
Theorem second_return_frees_again :
  ∃ p1 cs1 p2 cs2 p3,
    reachable aging noSha 0 (p1, cs1) ∧ cs1 !! 1%nat = Some (Done Returned) ∧ (abandon p1 0).1 = ReNothing ∧
    rtc (sys_step aging noSha) (p1, cs1) (p2, cs2) ∧ total p2 = live p2 ∧
    call_steps aging (p2, Abandon 0 0) (p3, Done Returned) ∧ (total p3 < live p3)%nat.
Proof.
  set (s1 := final aging returned_once).
  set (s2 := default s1 (play aging noSha s1 then_expired)).
  set (s3 := default (s2.1, Close) (execs aging s2.1 (Abandon 0 0) 4)).
  exists s1.1, s1.2, s2.1, s2.2, s3.1.
  split; [apply final_reachable; by_run|]. do 2 (split; [by_run|]).
  split. { apply (play_sound _ _ then_expired). by_run. }
  split; [by_run|]. split.
  - apply (execs_sound _ 4). by_run.
  - apply Nat.ltb_lt. by_run.
Qed.

(** ** Instances *)

Module Example.

(** A backend taken, returned and taken again, and a call freeing one. *)
Definition reuse : list event :=
  [ECall (Acquire (ask "a" "r")); ERun 0 6; ECall (Release 0 0 false); ERun 1 1; ECall (Acquire (ask "a" "r")); ERun 2 2].
Definition cfg0 : PoolConfig := small 2 1.
Definition s0 : pool * list pc := final (withDefaults cfg0) reuse.

Lemma s0_reachable : reachable (withDefaults cfg0) noSha 0 (s0.1, s0.2).
Proof. apply final_reachable. by_run. Qed.

Lemma budget_kept_witness : Z.of_nat (live s0.1) ≤ MaxBackends (withDefaults cfg0).
Proof. destruct (budget_kept cfg0 noSha 0 s0.1 s0.2 s0_reachable) as [H _]. exact H. Defined.

Lemma acquire_answers_witness : ∃ be, backends (update s0.1 0 give) !! 0%nat = Some be ∧ conn be = true.
Proof.
  destruct (acquire_answers cfg0 noSha 0 s0.1 s0.2 2 (PopCheck (ask "a" "r") 0 None) (update s0.1 0 give)
              (Done (GotBackend (ask "a" "r") 0 1)) (ask "a" "r") 0 1 s0_reachable) as [(be & Hb & _ & _ & _ & Hc & _) _].
  - by_run.
  - reflexivity.
  - apply exec_sound. by_run.
  - reflexivity.
  - exists be. split; assumption.
Defined.

Definition freeing : list event :=
  [ECall (Acquire (ask "a" "r")); ERun 0 6; ECall (Release 0 0 true); ERun 1 2].
Definition s1 : pool * list pc := final (withDefaults cfg0) freeing.

Lemma free_never_blocks_witness :
  ∃ p' x', step (withDefaults cfg0) noSha s1.1 (FreeTotal "r" (FreeSem "r" (Done Returned))) p' x'.
Proof.
  apply (free_never_blocks cfg0 noSha 0 s1.1 s1.2 1 _ (FreeSem "r" (Done Returned)) "r").
  - apply final_reachable. by_run.
  - by_run.
  - left. reflexivity.
Defined.

Lemma pool_refines_budget_witness :
  rtc (spec_step (withDefaults cfg0)) (abs s0.1) (abs (update s0.1 0 give)).
Proof.
  apply (pool_refines_budget cfg0 noSha 0 s0.1 s0.2 (update s0.1 0 give)
           (<[2%nat := Done (GotBackend (ask "a" "r") 0 1)]> s0.2) s0_reachable).
  apply (sys_thread _ _ _ _ _ 2 (PopCheck (ask "a" "r") 0 None)).
  - by_run.
  - exact I.
  - apply exec_sound. by_run.
Defined.

End Example.
