(* ===== verification/VStream.v ===== *)
(** * Change streams: assembling a shard's changes
      ([src/internal/router/vstream/reader.go], [copy.go])

    The data of a change stream, and the assembler that turns the changes a
    shard sends, plain transactions and interleaved streamed ones, into whole
    units.  The encoded size of a message ([proto.Size]) is a parameter. *)

From stdpp Require Import pretty.
From S2P Require Import Prelude.

Local Open Scope Z_scope.

(** ** Shards, relations, positions *)

Record Shard := mkShard { Set_ : string; ID : Z }.
#[export] Instance Shard_eq_dec : EqDecision Shard.
Proof. solve_decision. Defined.
#[export] Instance Shard_countable : Countable Shard.
Proof.
  apply (inj_countable' (λ s, (Set_ s, ID s)) (λ '(a, b), mkShard a b)). by intros [].
Defined.

Record Column := mkColumn { c_name : string; type_oid : Z; type_modifier : Z; key : bool }.
#[export] Instance Column_eq_dec : EqDecision Column.
Proof. solve_decision. Defined.

(** A relation as the pooler announces it. *)
Record Relation := mkRelation { r_schema : string; r_table : string; replica_identity : string; r_columns : list Column }.

Record relMeta := mkRelMeta {
  schema : string; table : string; identity : string; columns : list Column; signature : string }.
#[export] Instance relMeta_eq_dec : EqDecision relMeta.
Proof. solve_decision. Defined.

Definition show_bool (b : bool) : string := if b then "true" else "false".
(** The text [fmt.Fprintf] appends for a column. *)
Definition show_column (c : Column) : string :=
  ("|" +:+ c_name c +:+ ":" +:+ pretty (type_oid c) +:+ ":" +:+ pretty (type_modifier c) +:+ ":" +:+ show_bool (key c))%string.
Fixpoint show_columns (cs : list Column) : string :=
  match cs with [] => "" | c :: cs => (show_column c +:+ show_columns cs)%string end.
Definition relMetaOf (r : Relation) : relMeta :=
  mkRelMeta (r_schema r) (r_table r) (replica_identity r) (r_columns r) (replica_identity r +:+ show_columns (r_columns r))%string.

Record CopyTable := mkCopyTable { ct_schema : string; ct_table : string; lastpk : bytes }.
Record VCopyState := mkVCopyState { cs_shard : Shard; cs_current : option CopyTable; cs_done : list string }.
Record VPosition := mkVPosition {
  vp_shards : list (Shard * Z); vp_generation : Z; vp_copy : list VCopyState; vp_fingerprint : Z }.

(** ** Events *)

Record Value := mkValue { v_null : bool; v_data : bytes }.
Record VColumn := mkVColumn { vc_null : bool; vc_value : bytes; unchanged_toast : bool }.
Inductive RowKind := KIND_UNSPECIFIED | KIND_INSERT | KIND_UPDATE | KIND_DELETE | KIND_TRUNCATE.

Inductive ErrorCode :=
| CODE_POSITION_TOO_OLD | CODE_RESHARDED | CODE_SHARD_UNAVAILABLE | CODE_INTERNAL | CODE_TRANSACTION_TOO_LARGE.

(** What the consumer is sent. *)
Inductive VEvent :=
| VBegin (s : Shard) (xid commit_ts : Z) (gid : string)
| VRelation (schema table identity : string) (columns : list Column)
| VRow (s : Shard) (schema table : string) (kind : RowKind) (old : option (list VColumn)) (old_is_key : bool)
    (new : option (list VColumn)) (copy : bool)
| VTruncate (s : Shard) (tables : list (string * string)) (cascade restart_identity : bool)
| VMessage (s : Shard) (prefix : string) (content : bytes) (transactional : bool)
| VCommit (s : Shard) (lsn end_lsn : Z)
| VPrepare (s : Shard) (gid : string) (lsn : Z)
| VCommitPrepared (s : Shard) (gid : string) (lsn : Z)
| VRollbackPrepared (s : Shard) (gid : string) (lsn : Z)
| VGtid (pos : VPosition)
| VHeartbeat (pos : VPosition)
| VJournal (journal_id : string) (participants : list Shard) (targets : list (Shard * Z)) (generation : Z)
| VError (code : ErrorCode) (message : string) (s : option Shard)
| VCopyBegin (s : Shard) (schema table : string)
| VCopyCompleted (s : option Shard) (schema table : string).

(** What the pooler sends; [ChangeEvent] carries the WAL position and the
    (sub)transaction of each. *)
Inductive Change :=
| CBegin (xid commit_ts : Z)
| CCommit (commit_lsn end_lsn : Z)
| CBeginPrepare (gid : string) (xid prepare_ts : Z)
| CPrepare (gid : string) (prepare_lsn end_lsn : Z)
| CCommitPrepared (gid : string) (commit_lsn end_lsn : Z)
| CRollbackPrepared (gid : string) (rollback_lsn end_lsn : Z)
| CRelation (relation_id : Z) (r : Relation)
| CRow (relation_id : Z) (kind : RowKind) (old : option (list Value)) (old_is_key : bool) (new : option (list Value))
    (unchanged : list Z)
| CTruncate (relation_ids : list Z) (cascade restart_identity : bool)
| CMessage (prefix : string) (content : bytes) (transactional : bool)
| CKeepalive (wal_end : Z)
| CStreamStart (xid : Z)
| CStreamStop
| CStreamCommit (xid commit_lsn end_lsn commit_ts : Z)
| CStreamPrepare (gid : string) (xid prepare_lsn end_lsn prepare_ts : Z)
| CStreamAbort (xid subxid : Z)
| COrigin
| CUnknown.
Record ChangeEvent := mkChange { ev_lsn : Z; ev_xid : Z; ev : Change }.

(** ** Units *)

Record Unit := mkUnit {
  u_shard : Shard; events : list VEvent; rels : list (list relMeta); xids : list Z; endLSN : Z; commitTS : Z;
  position : bool; u_copy : option VCopyState; copyDone : bool; u_err : option VEvent }.

Definition rel_event (m : relMeta) : VEvent := VRelation (schema m) (table m) (identity m) (columns m).

(** [dropXid]: the entries of a subtransaction leave the three slices. *)
Fixpoint dropEntries (xid : Z) (es : list VEvent) (rs : list (list relMeta)) (xs : list Z) :
    list VEvent * list (list relMeta) * list Z :=
  match es, rs, xs with
  | e :: es, r :: rs, x :: xs =>
      let '(es', rs', xs') := dropEntries xid es rs xs in
      if x =? xid then (es', rs', xs') else (e :: es', r :: rs', x :: xs')
  | _, _, _ => ([], [], [])
  end.
Definition dropXid (xid : Z) (u : Unit) : Unit :=
  let '(es, rs, xs) := dropEntries xid (events u) (rels u) (xids u) in
  mkUnit (u_shard u) es rs xs (endLSN u) (commitTS u) (position u) (u_copy u) (copyDone u) (u_err u).

Definition rowKind (k : RowKind) : RowKind :=
  match k with
  | KIND_INSERT => KIND_INSERT | KIND_UPDATE => KIND_UPDATE | KIND_DELETE => KIND_DELETE
  | _ => KIND_UNSPECIFIED
  end.

Definition mark_toast (c : VColumn) : VColumn := mkVColumn (vc_null c) (vc_value c) true.
Definition tuple (vals : list Value) (unchanged : list Z) : list VColumn :=
  foldl (λ t i, if i <? Z.of_nat (length t) then alter mark_toast (Z.to_nat i) t else t)
    ((λ v, mkVColumn (v_null v) (v_data v) false) <$> vals) unchanged.

Inductive asm_err :=
| UnknownRelation (id : Z)
| Unhandled
| TooManyBytes (buffered maxBytes : Z)
| TooManyOpen (open maxOpen : Z).

Record assembler := mkAssembler {
  a_shard : Shard; relations : gmap Z relMeta; cur : option Unit; streamed : gmap Z Unit; inStream : Z; buffered : Z;
  maxBytes : Z; maxOpen : Z }.

Section Assembler.
Variable size : VEvent → Z.

Definition set_cur (a : assembler) (u : option Unit) : assembler :=
  mkAssembler (a_shard a) (relations a) u (streamed a) (inStream a) (buffered a) (maxBytes a) (maxOpen a).
Definition set_streamed (a : assembler) (m : gmap Z Unit) : assembler :=
  mkAssembler (a_shard a) (relations a) (cur a) m (inStream a) (buffered a) (maxBytes a) (maxOpen a).
Definition set_inStream (a : assembler) (xid : Z) : assembler :=
  mkAssembler (a_shard a) (relations a) (cur a) (streamed a) xid (buffered a) (maxBytes a) (maxOpen a).
Definition set_buffered (a : assembler) (n : Z) : assembler :=
  mkAssembler (a_shard a) (relations a) (cur a) (streamed a) (inStream a) n (maxBytes a) (maxOpen a).
Definition set_relations (a : assembler) (m : gmap Z relMeta) : assembler :=
  mkAssembler (a_shard a) m (cur a) (streamed a) (inStream a) (buffered a) (maxBytes a) (maxOpen a).

Definition newAssembler (sh : Shard) (maxBytes maxOpen : Z) : assembler := mkAssembler sh ∅ None ∅ 0 0 maxBytes maxOpen.
Definition reset (a : assembler) : assembler :=
  mkAssembler (a_shard a) (relations a) None ∅ 0 0 (maxBytes a) (maxOpen a).

Definition open (a : assembler) (e : VEvent) (ts : Z) : Unit :=
  mkUnit (a_shard a) [e] [[]] [0] 0 ts true None false None.

(** [append] to a unit: the unit, and the bytes it adds. *)
Definition appendTo (u : Unit) (e : VEvent) (xid : Z) (rs : list relMeta) : Unit :=
  mkUnit (u_shard u) (events u ++ [e]) (rels u ++ [rs]) (xids u ++ [xid]) (endLSN u) (commitTS u) (position u) (u_copy u)
    (copyDone u) (u_err u).
(** [a.append(a.target(), ...)]: nothing without a transaction. *)
Definition target (a : assembler) : option Unit := if inStream a =? 0 then cur a else streamed a !! inStream a.
Definition append (a : assembler) (e : VEvent) (xid : Z) (rs : list relMeta) : assembler :=
  match target a with
  | None => a
  | Some u =>
      let u := appendTo u e xid rs in
      let a := set_buffered a (buffered a + size e) in
      if inStream a =? 0 then set_cur a (Some u) else set_streamed a (<[inStream a := u]> (streamed a))
  end.

Definition fits (a : assembler) : option asm_err :=
  if (0 <? maxBytes a) && (maxBytes a <? buffered a) then Some (TooManyBytes (buffered a) (maxBytes a))
  else if (0 <? maxOpen a) && (maxOpen a <? Z.of_nat (base.size (streamed a)))
  then Some (TooManyOpen (Z.of_nat (base.size (streamed a))) (maxOpen a))
  else None.

Definition sizes (es : list VEvent) : Z := foldr (λ e n, size e + n) 0 es.
Definition done (a : assembler) (u : Unit) : assembler :=
  let n := buffered a - sizes (events u) in set_buffered a (if n <? 0 then 0 else n).
Definition idle (a : assembler) : bool := match cur a with None => bool_decide (streamed a = ∅) | Some _ => false end.
Definition begin (a : assembler) (xid ts : Z) (gid : string) : VEvent := VBegin (a_shard a) xid ts gid.

(** A transaction ends: its last event, its end, its timestamp. *)
Definition set_end (u : Unit) (lsn : Z) : Unit :=
  mkUnit (u_shard u) (events u) (rels u) (xids u) lsn (commitTS u) (position u) (u_copy u) (copyDone u) (u_err u).
Definition set_begin (u : Unit) (f : VEvent → VEvent) (ts : Z) : Unit :=
  mkUnit (u_shard u) (match events u with e :: es => f e :: es | [] => [] end) (rels u) (xids u) (endLSN u) ts (position u)
    (u_copy u) (copyDone u) (u_err u).
Definition with_ts (ts : Z) (e : VEvent) : VEvent := match e with VBegin s x _ g => VBegin s x ts g | _ => e end.
Definition with_gid (ts : Z) (gid : string) (e : VEvent) : VEvent := match e with VBegin s x _ _ => VBegin s x ts gid | _ => e end.
Definition finish (a : assembler) (u : Unit) (e : VEvent) (lsn : Z) : assembler * Unit :=
  let u := set_end (appendTo u e 0 []) lsn in (done (set_buffered a (buffered a + size e)) u, u).

Abbreviation answer := (option Unit + asm_err)%type (only parsing).
(** The end of [addOne]: the buffer is checked. *)
Definition checked (a : assembler) : assembler * answer :=
  match fits a with Some e => (a, inr e) | None => (a, inl None) end.

Definition row_event (a : assembler) (rel : relMeta) (kind : RowKind) (old : option (list Value)) (oik : bool)
    (new : option (list Value)) (unchanged : list Z) : VEvent :=
  VRow (a_shard a) (schema rel) (table rel) (rowKind kind) ((λ o, tuple o []) <$> old) oik ((λ n, tuple n unchanged) <$> new) false.
Definition known (a : assembler) (ids : list Z) : list relMeta := omap (λ id, relations a !! id) ids.

Definition addOne (a : assembler) (c : ChangeEvent) : assembler * answer :=
  let sh := a_shard a in
  match ev c with
  | CBegin xid ts => checked (set_cur a (Some (open a (begin a xid ts "") ts)))
  | CCommit lsn end_ =>
      match cur a with
      | None => (set_cur a None, inl None)
      | Some u => let '(a, u) := finish (set_cur a None) u (VCommit sh lsn end_) end_ in (a, inl (Some u))
      end
  | CBeginPrepare gid xid ts => checked (set_cur a (Some (open a (begin a xid ts gid) ts)))
  | CPrepare gid lsn end_ =>
      match cur a with
      | None => (set_cur a None, inl None)
      | Some u => let '(a, u) := finish (set_cur a None) u (VPrepare sh gid lsn) end_ in (a, inl (Some u))
      end
  | CCommitPrepared gid lsn end_ =>
      let u := set_end (open a (VCommitPrepared sh gid lsn) 0) end_ in (done a u, inl (Some u))
  | CRollbackPrepared gid lsn end_ =>
      let u := set_end (open a (VRollbackPrepared sh gid lsn) 0) end_ in (done a u, inl (Some u))
  | CRelation id r => checked (set_relations a (<[id := relMetaOf r]> (relations a)))
  | CRow id kind old oik new unchanged =>
      match relations a !! id with
      | None => (a, inr (UnknownRelation id))
      | Some rel => checked (append a (row_event a rel kind old oik new unchanged) (ev_xid c) [rel])
      end
  | CTruncate ids cascade restart =>
      let rs := known a ids in
      checked (append a (VTruncate sh ((λ r, (schema r, table r)) <$> rs) cascade restart) (ev_xid c) rs)
  | CMessage prefix content transactional =>
      let msg := VMessage sh prefix content transactional in
      if transactional then checked (append a msg (ev_xid c) [])
      else
        let lsn := ev_lsn c in
        (a, inl (Some (mkUnit sh [msg] [[]] [0] (if 0 <? lsn then lsn else 0) 0 (0 <? lsn) None false None)))
  | CKeepalive wal_end =>
      if idle a && (0 <? wal_end) then (a, inl (Some (mkUnit sh [] [] [] wal_end 0 true None false None))) else checked a
  | CStreamStart xid =>
      let a := set_inStream a xid in
      checked (match streamed a !! xid with
               | Some _ => a
               | None => set_streamed a (<[xid := open a (begin a xid 0 "") 0]> (streamed a))
               end)
  | CStreamStop => checked (set_inStream a 0)
  | CStreamCommit xid lsn end_ ts =>
      let a' := set_streamed a (delete xid (streamed a)) in
      match streamed a !! xid with
      | None => (a', inl None)
      | Some u => let '(a', u) := finish a' (set_begin u (with_ts ts) ts) (VCommit sh lsn end_) end_ in (a', inl (Some u))
      end
  | CStreamPrepare gid xid lsn end_ ts =>
      let a' := set_streamed a (delete xid (streamed a)) in
      match streamed a !! xid with
      | None => (a', inl None)
      | Some u => let '(a', u) := finish a' (set_begin u (with_gid ts gid) ts) (VPrepare sh gid lsn) end_ in (a', inl (Some u))
      end
  | CStreamAbort xid sub =>
      checked
        (if (sub =? 0) || (sub =? xid) then
           let a' := match streamed a !! xid with Some u => done a u | None => a end in
           set_streamed a' (delete xid (streamed a'))
         else set_streamed a (alter (dropXid sub) xid (streamed a)))
  | COrigin => checked a
  | CUnknown => (a, inr Unhandled)
  end.

(** [add]: the same, with the changes of the two gauges it reports. *)
Definition add (a : assembler) (c : ChangeEvent) : assembler * answer * (Z * Z) :=
  let '(a', r) := addOne a c in
  (a', r, (buffered a' - buffered a, Z.of_nat (base.size (streamed a')) - Z.of_nat (base.size (streamed a)))).

(** The events of a connection, one after the other, until one fails. *)
Fixpoint addAll (a : assembler) (cs : list ChangeEvent) : assembler * list Unit * option asm_err :=
  match cs with
  | [] => (a, [], None)
  | c :: cs =>
      match addOne a c with
      | (a, inr e) => (a, [], Some e)
      | (a, inl u) => let '(a, us, e) := addAll a cs in (a, option_list u ++ us, e)
      end
  end.

End Assembler.
