(* ===== verification/VStreamAsm.v ===== *)
(** * What the assembler of a change stream delivers

    Units are whole, a streamed transaction is assembled as if it were the
    only one, and what the byte count of the open transactions can miss. *)

From S2P Require Import Prelude VStream.

Local Open Scope Z_scope.

(** ** Units are whole *)

Definition of_shard (sh : Shard) (e : VEvent) : Prop :=
  match e with
  | VBegin s _ _ _ | VRow s _ _ _ _ _ _ _ | VTruncate s _ _ _ | VMessage s _ _ _ | VCommit s _ _ | VPrepare s _ _
  | VCommitPrepared s _ _ | VRollbackPrepared s _ _ => s = sh
  | _ => False
  end.
Definition is_begin (e : VEvent) : bool := match e with VBegin _ _ _ _ => true | _ => false end.
Definition is_end (e : VEvent) : bool := match e with VCommit _ _ _ | VPrepare _ _ _ => true | _ => false end.
(** A change inside a transaction. *)
Definition is_change (e : VEvent) : bool :=
  match e with VRow _ _ _ _ _ _ _ _ | VTruncate _ _ _ _ => true | VMessage _ _ _ t => t | _ => false end.
(** An event on its own. *)
Definition stands_alone (e : VEvent) : bool :=
  match e with VCommitPrepared _ _ _ | VRollbackPrepared _ _ _ => true | VMessage _ _ _ t => negb t | _ => false end.

(** The relations a consumer must know before an event name its tables. *)
Definition describes (rs : list relMeta) (e : VEvent) : Prop :=
  match e with
  | VRow _ s t _ _ _ _ _ => ∃ r, rs = [r] ∧ schema r = s ∧ table r = t
  | VTruncate _ ts _ _ => (λ r, (schema r, table r)) <$> rs = ts
  | _ => rs = []
  end.

Record aligned (sh : Shard) (u : Unit) : Prop := mk_aligned {
  al_shard : u_shard u = sh;
  al_events : Forall (of_shard sh) (events u);
  al_rels : Forall2 describes (rels u) (events u);
  al_xids : length (xids u) = length (events u) }.

(** A transaction under assembly: its begin, with no subtransaction, and
    changes. *)
Record opened (sh : Shard) (u : Unit) : Prop := mk_opened {
  op_aligned : aligned sh u;
  op_begin : ∃ b body xs, events u = b :: body ∧ xids u = 0 :: xs ∧ is_begin b = true ∧ forallb is_change body = true;
  op_position : position u = true }.

Inductive whole (sh : Shard) (u : Unit) : Prop :=
| whole_transaction b body c :
    events u = b :: body ++ [c] → is_begin b = true → forallb is_change body = true → is_end c = true → position u = true →
    whole sh u
| whole_alone e : events u = [e] → stands_alone e = true → whole sh u
| whole_position : events u = [] → position u = true → whole sh u.

Record asm_ok (a : assembler) : Prop := mk_asm_ok {
  ok_cur : ∀ u, cur a = Some u → opened (a_shard a) u;
  ok_streamed : ∀ x u, streamed a !! x = Some u → opened (a_shard a) u }.

Lemma dropEntries_spec P xid es rs xs :
  length rs = length es → length xs = length es →
  let '(es', rs', xs') := dropEntries xid es rs xs in
  (Forall P es → Forall P es') ∧ (Forall2 describes rs es → Forall2 describes rs' es') ∧ length xs' = length es' ∧
  (∀ f, forallb f es = true → forallb f es' = true).
Proof.
  revert rs xs; induction es as [|e es IH]; intros [|r rs] [|x xs]; cbn; try done.
  intros [= Hr] [= Hx]. specialize (IH rs xs Hr Hx). destruct (dropEntries xid es rs xs) as [[es' rs'] xs'].
  destruct IH as (H1 & H2 & H3 & H4). destruct (x =? xid).
  - split_and!; [intros [_ ?]%Forall_cons; auto|intros ?%Forall2_cons; naive_solver|done|].
    intros f [_ ?]%andb_true_iff. auto.
  - split_and!; [|intros ?%Forall2_cons; apply Forall2_cons; naive_solver|cbn; lia|].
    + intros [? ?]%Forall_cons. constructor; auto.
    + intros f [? ?]%andb_true_iff. cbn. rewrite H4 by done. by rewrite andb_true_r.
Qed.

Lemma dropXid_opened sh sub u : sub ≠ 0 → opened sh u → opened sh (dropXid sub u).
Proof.
  intros Hsub [[H1 H2 H3 H4] (b & body & xs & He & Hx & Hb & Hbody) Hp].
  unfold dropXid. rewrite He, Hx in *. destruct (rels u) as [|r rs] eqn:Hr; [by apply Forall2_length in H3|].
  apply Forall2_cons in H3 as [H3r H3]. apply Forall_cons in H2 as [H2b H2]. injection H4 as H4.
  cbn [dropEntries]. pose proof (dropEntries_spec (of_shard sh) sub body rs xs (Forall2_length _ _ _ H3) H4) as Hd.
  destruct (dropEntries sub body rs xs) as [[es' rs'] xs']. destruct Hd as (D1 & D2 & D3 & D4).
  destruct (0 =? sub) eqn:E0; [lia|]. split; [split|..]; cbn; auto.
  exists b, es', xs'. auto.
Qed.

Lemma append_opened sh u e xid rs :
  opened sh u → of_shard sh e → describes rs e → is_change e = true → opened sh (appendTo u e xid rs).
Proof.
  intros [[H1 H2 H3 H4] (b & body & xs & He & Hx & Hb & Hbody) Hp] Hs Hd Hc. split; [split|..]; cbn; auto.
  - apply Forall_app. auto.
  - apply Forall2_app; auto.
  - rewrite !length_app, H4. done.
  - exists b, (body ++ [e]), (xs ++ [xid]). rewrite He, Hx. split_and!; auto. rewrite forallb_app, Hbody. cbn. by rewrite Hc.
Qed.

Lemma begin_opened a xid ts gid ts' : opened (a_shard a) (open a (begin a xid ts gid) ts').
Proof.
  split; [split; cbn; auto; by repeat constructor|..]; cbn; auto.
  by exists (begin a xid ts gid), [], [].
Qed.

Section Whole.
Variable size : VEvent → Z.

Lemma append_ok a e xid rs :
  asm_ok a → of_shard (a_shard a) e → describes rs e → is_change e = true → asm_ok (append size a e xid rs).
Proof.
  intros [Hc Hs] He Hd Hch. unfold append, target. destruct (inStream a =? 0) eqn:Ei.
  - destruct (cur a) as [u|] eqn:Eu; [|split; rewrite ?Eu; done]. cbn. rewrite Ei. split; cbn; [|done].
    intros ? [= <-]. apply append_opened; auto.
  - destruct (streamed a !! inStream a) as [u|] eqn:Eu; [|by split]. cbn. rewrite Ei. split; cbn; [done|].
    intros x u'. rewrite lookup_insert_Some. intros [[<- <-]|[_ ?]]; [|eauto]. apply append_opened; eauto.
Qed.

Lemma append_shard a e xid rs : a_shard (append size a e xid rs) = a_shard a.
Proof. unfold append. destruct (target a); [|done]. cbn. by destruct (inStream a =? 0). Qed.

Lemma checked_fst a : (checked a).1 = a.
Proof. unfold checked. by destruct (fits a). Qed.
Lemma checked_unit a u : (checked a).2 ≠ inl (Some u).
Proof. unfold checked. by destruct (fits a). Qed.

(** A finished transaction. *)
Lemma finish_whole a u e lsn a' u' :
  opened (a_shard a) u → of_shard (a_shard a) e → is_end e = true → describes [] e →
  finish size a u e lsn = (a', u') → whole (a_shard a) u' ∧ aligned (a_shard a) u'.
Proof.
  intros [[H1 H2 H3 H4] (b & body & xs & He & Hx & Hb & Hbody) Hp] Hs Hend Hd [= <- <-]. split.
  - eapply (whole_transaction _ _ b body e); cbn; auto. by rewrite He.
  - split; cbn; [done|apply Forall_app; auto|apply Forall2_app; auto|]. rewrite !length_app, H4. done.
Qed.

Lemma set_begin_opened sh u f ts : (∀ s x t g, ∃ x' t' g', f (VBegin s x t g) = VBegin s x' t' g') → opened sh u → opened sh (set_begin u f ts).
Proof.
  intros Hf [[H1 H2 H3 H4] (b & body & xs & He & Hx & Hb & Hbody) Hp]. unfold set_begin. rewrite He in *.
  destruct b as [s x t g| | | | | | | | | | | | | |]; try done. destruct (Hf s x t g) as (x' & t' & g' & E). rewrite E.
  apply Forall_cons in H2 as [H2 H2']. destruct (rels u) as [|r rs]; [by apply Forall2_length in H3|].
  apply Forall2_cons in H3 as [H3 H3']. split; [split|..]; cbn; auto. by exists (VBegin s x' t' g'), body, xs.
Qed.

Lemma asm_ok_same a a' :
  asm_ok a → a_shard a' = a_shard a → (∀ u, cur a' = Some u → cur a = Some u) →
  (∀ x u, streamed a' !! x = Some u → streamed a !! x = Some u) → asm_ok a'.
Proof. intros [Hc Hs] E H1 H2. split; rewrite E; eauto. Qed.

Lemma finish_ok a u e lsn : asm_ok a → asm_ok (finish size a u e lsn).1.
Proof. intros H. by apply (asm_ok_same a). Qed.

Lemma known_describes a ids c r sh : describes (known a ids) (VTruncate sh ((λ r, (schema r, table r)) <$> known a ids) c r).
Proof. done. Qed.

Lemma addOne_ok a c : asm_ok a → asm_ok (addOne size a c).1 ∧ a_shard (addOne size a c).1 = a_shard a.
Proof.
  intros Hok. pose proof Hok as [Hc Hs]. unfold addOne. destruct (ev c).
  - rewrite checked_fst. split; [|done]. split; cbn; [|done]. intros ? [= <-]. apply begin_opened.
  - destruct (cur a) as [u|] eqn:Eu; cbn; (split; [by apply (asm_ok_same a)|done]).
  - rewrite checked_fst. split; [|done]. split; cbn; [|done]. intros ? [= <-]. apply begin_opened.
  - destruct (cur a) as [u|] eqn:Eu; cbn; (split; [by apply (asm_ok_same a)|done]).
  - split; [by apply (asm_ok_same a)|done].
  - split; [by apply (asm_ok_same a)|done].
  - rewrite checked_fst. split; [by apply (asm_ok_same a)|done].
  - destruct (relations a !! relation_id) as [rel|]; [|done]. rewrite checked_fst, append_shard. split; [|done].
    apply append_ok; try done. cbn. eauto.
  - rewrite checked_fst, append_shard. split; [|done]. by apply append_ok.
  - destruct transactional; [|done]. rewrite checked_fst, append_shard. split; [|done]. by apply append_ok.
  - destruct (_ && _); [done|]. by rewrite checked_fst.
  - rewrite checked_fst. cbn. destruct (streamed a !! xid) as [u|] eqn:Eu; cbn; (split; [|done]); [by apply (asm_ok_same a)|].
    split; cbn; [done|]. intros x u. rewrite lookup_insert_Some. intros [[<- <-]|[_ ?]]; [|eauto]. apply (begin_opened (set_inStream a xid)).
  - rewrite checked_fst. split; [by apply (asm_ok_same a)|done].
  - destruct (streamed a !! xid) as [u|] eqn:Eu; cbn; (split; [|done]); apply (asm_ok_same a); try done;
      intros x v; cbn; rewrite lookup_delete_Some; by intros [].
  - destruct (streamed a !! xid) as [u|] eqn:Eu; cbn; (split; [|done]); apply (asm_ok_same a); try done;
      intros x v; cbn; rewrite lookup_delete_Some; by intros [].
  - rewrite checked_fst. destruct (_ || _) eqn:Esub.
    + destruct (streamed a !! xid) as [u|] eqn:Eu; cbn; (split; [|done]); apply (asm_ok_same a); try done;
        intros x v; cbn; rewrite lookup_delete_Some; by intros [].
    + split; [|done]. split; cbn; [done|]. intros x u. rewrite lookup_alter_Some. intros [(<- & u0 & Hu0 & ->)|[_ ?]]; [|eauto].
      apply dropXid_opened; [|eauto]. apply orb_false_iff in Esub as [? _]. lia.
  - by rewrite checked_fst.
  - done.
Qed.

Lemma addOne_whole a c a' u :
  asm_ok a → addOne size a c = (a', inl (Some u)) → whole (a_shard a) u ∧ aligned (a_shard a) u.
Proof.
  intros [Hc Hs] H. unfold addOne in H. destruct (ev c);
    try (by apply (f_equal snd) in H; apply checked_unit in H); try done.
  - destruct (cur a) as [v|] eqn:Eu; [|done]. cbv beta iota zeta in H.
    destruct (finish size (set_cur a None) v _ _) as [a1 u1] eqn:Ef. injection H as <- <-.
    apply (finish_whole (set_cur a None)) in Ef; try done. by apply Hc.
  - destruct (cur a) as [v|] eqn:Eu; [|done]. cbv beta iota zeta in H.
    destruct (finish size (set_cur a None) v _ _) as [a1 u1] eqn:Ef. injection H as <- <-.
    apply (finish_whole (set_cur a None)) in Ef; try done. by apply Hc.
  - injection H as <- <-. split; [by eapply whole_alone|]. split; cbn; auto; by repeat constructor.
  - injection H as <- <-. split; [by eapply whole_alone|]. split; cbn; auto; by repeat constructor.
  - destruct (relations a !! relation_id); [by apply (f_equal snd) in H; apply checked_unit in H|done].
  - destruct transactional; [by apply (f_equal snd) in H; apply checked_unit in H|]. injection H as <- <-.
    split; [by eapply whole_alone|]. split; cbn; auto; by repeat constructor.
  - destruct (_ && _); [|by apply (f_equal snd) in H; apply checked_unit in H]. injection H as <- <-.
    split; [by apply whole_position|]. split; cbn; auto; by repeat constructor.
  - cbv beta iota zeta in H. destruct (streamed a !! xid) as [v|] eqn:Eu; [|done].
    destruct (finish size _ _ _ _) as [a1 u1] eqn:Ef. injection H as <- <-.
    apply (finish_whole (set_streamed a (delete xid (streamed a)))) in Ef; try done.
    apply set_begin_opened; [|by eapply Hs]. cbn. eauto.
  - cbv beta iota zeta in H. destruct (streamed a !! xid) as [v|] eqn:Eu; [|done].
    destruct (finish size _ _ _ _) as [a1 u1] eqn:Ef. injection H as <- <-.
    apply (finish_whole (set_streamed a (delete xid (streamed a)))) in Ef; try done.
    apply set_begin_opened; [|by eapply Hs]. cbn. eauto.
Qed.

Lemma addAll_ok cs a a' us e :
  asm_ok a → addAll size a cs = (a', us, e) →
  asm_ok a' ∧ a_shard a' = a_shard a ∧ Forall (λ u, whole (a_shard a) u ∧ aligned (a_shard a) u) us.
Proof.
  revert a us; induction cs as [|c cs IH]; intros a us Hok; cbn; [by intros [= <- <- <-]|].
  pose proof (addOne_ok a c Hok) as [Hok1 Hsh1]. destruct (addOne size a c) as [a1 [u|err]] eqn:E1; cbn in *.
  - destruct (addAll size a1 cs) as [[a2 us2] e2] eqn:E2. intros [= <- <- <-].
    destruct (IH _ _ Hok1 E2) as (Hok2 & Hsh2 & Hus). rewrite Hsh1 in *. split_and!; [done..|].
    destruct u as [u|]; cbn; [|done]. constructor; [|done]. by eapply addOne_whole.
  - intros [= <- <- <-]. auto.
Qed.

End Whole.

Lemma newAssembler_ok sh mb mo : asm_ok (newAssembler sh mb mo).
Proof. split; cbn; [done|]. intros x u. by rewrite lookup_empty. Qed.

(** Whatever a shard sends, every unit that reaches the merger is whole
    and of that shard: a begin, changes and the commit or prepare that ends
    them, or one event that stands alone, or a bare position; and each change
    comes with the relations of exactly the tables it names. *)
Theorem units_are_whole size sh mb mo cs a us e :
  addAll size (newAssembler sh mb mo) cs = (a, us, e) → Forall (λ u, whole sh u ∧ aligned sh u) us.
Proof. intros H. by apply (addAll_ok _ _ _ _ _ _ (newAssembler_ok sh mb mo)) in H as (_ & _ & ?). Qed.

(** ** Streamed transactions *)

(** One transaction seen alone in the changes of a shard: the relations known,
    the segment that is open, and the changes of [x] so far with the
    subtransaction of each; [None] while [x] is not open. *)
Abbreviation entry := (VEvent * list relMeta * Z)%type (only parsing).
Record alone := mkAlone { al_relations : gmap Z relMeta; al_in : Z; al_body : option (list entry) }.

Definition changes_of (sh : Shard) (known : gmap Z relMeta) (c : ChangeEvent) : list entry :=
  match ev c with
  | CRow id kind old oik new unchanged =>
      match known !! id with
      | Some r => [(VRow sh (schema r) (table r) (rowKind kind) ((λ o, tuple o []) <$> old) oik
                      ((λ n, tuple n unchanged) <$> new) false, [r], ev_xid c)]
      | None => []
      end
  | CTruncate ids cascade restart =>
      let rs := omap (λ id, known !! id) ids in
      [(VTruncate sh ((λ r, (schema r, table r)) <$> rs) cascade restart, rs, ev_xid c)]
  | CMessage prefix content true => [(VMessage sh prefix content true, [], ev_xid c)]
  | _ => []
  end.

Definition follow (sh : Shard) (x : Z) (s : alone) (c : ChangeEvent) : alone :=
  match ev c with
  | CRelation id r => mkAlone (<[id := relMetaOf r]> (al_relations s)) (al_in s) (al_body s)
  | CStreamStart y =>
      mkAlone (al_relations s) y (if y =? x then Some (default [] (al_body s)) else al_body s)
  | CStreamStop => mkAlone (al_relations s) 0 (al_body s)
  | CStreamCommit y _ _ _ | CStreamPrepare _ y _ _ _ =>
      mkAlone (al_relations s) (al_in s) (if y =? x then None else al_body s)
  | CStreamAbort y sub =>
      mkAlone (al_relations s) (al_in s)
        (if y =? x then
           if (sub =? 0) || (sub =? x) then None else filter (λ e : entry, e.2 ≠ sub) <$> al_body s
         else al_body s)
  | _ => mkAlone (al_relations s) (al_in s)
           (if al_in s =? x then (λ l, l ++ changes_of sh (al_relations s) c) <$> al_body s else al_body s)
  end.
Definition followAll (sh : Shard) (x : Z) (cs : list ChangeEvent) : alone :=
  foldl (follow sh x) (mkAlone ∅ 0 None) cs.

(** The unit of a transaction with these changes. *)
Record assembled (sh : Shard) (x : Z) (l : list entry) (u : Unit) : Prop := mk_assembled {
  as_shard : u_shard u = sh;
  as_events : events u = VBegin sh x 0 "" :: l.*1.*1;
  as_rels : rels u = [] :: l.*1.*2;
  as_xids : xids u = 0 :: l.*2;
  as_position : position u = true;
  as_plain : u_copy u = None ∧ copyDone u = false ∧ u_err u = None }.

Definition tracks (x : Z) (a : assembler) (s : alone) : Prop :=
  relations a = al_relations s ∧ inStream a = al_in s ∧
  match streamed a !! x, al_body s with
  | Some u, Some l => assembled (a_shard a) x l u
  | None, None => True
  | _, _ => False
  end.

Lemma dropEntries_entries sub (l : list entry) :
  dropEntries sub (l.*1.*1) (l.*1.*2) (l.*2) =
  let l' := filter (λ e : entry, e.2 ≠ sub) l in (l'.*1.*1, l'.*1.*2, l'.*2).
Proof.
  induction l as [|[[e r] x] l IH]; [done|]. rewrite !fmap_cons. cbn [dropEntries fst snd]. rewrite IH. cbv zeta.
  rewrite filter_cons. destruct (x =? sub) eqn:E.
  - rewrite decide_False; [done|]. cbn. lia.
  - rewrite decide_True; [done|]. cbn. lia.
Qed.

Lemma assembled_drop sh x l u sub :
  sub ≠ 0 → assembled sh x l u → assembled sh x (filter (λ e : entry, e.2 ≠ sub) l) (dropXid sub u).
Proof.
  intros Hs [H1 H2 H3 H4 H5 H6]. unfold dropXid. rewrite H2, H3, H4. cbn [dropEntries]. rewrite dropEntries_entries. cbv zeta.
  destruct (0 =? sub) eqn:E; [lia|]. by split.
Qed.

Lemma assembled_append sh x l u e xid rs :
  assembled sh x l u → assembled sh x (l ++ [(e, rs, xid)]) (appendTo u e xid rs).
Proof.
  intros [H1 H2 H3 H4 H5 H6]. split; cbn; [done|..]; rewrite ?H2, ?H3, ?H4, ?fmap_app; done.
Qed.

Section Reassembly.
Variable size : VEvent → Z.

Lemma append_streamed a e xid rs x :
  x ≠ 0 → streamed (append size a e xid rs) !! x =
    if inStream a =? x then (λ u, appendTo u e xid rs) <$> streamed a !! x else streamed a !! x.
Proof.
  intros Hx. unfold append, target. destruct (inStream a =? 0) eqn:E0.
  - assert (inStream a =? x = false) as -> by lia. destruct (cur a) as [u|]; cbn; [|done]. by rewrite E0.
  - destruct (streamed a !! inStream a) as [u|] eqn:Eu; cbn.
    + rewrite E0. cbn. destruct (inStream a =? x) eqn:Ex.
      * assert (inStream a = x) as <- by lia. by rewrite lookup_insert_eq, Eu.
      * rewrite lookup_insert_ne by lia. done.
    + destruct (inStream a =? x) eqn:Ex; [|done]. assert (inStream a = x) as <- by lia. by rewrite Eu.
Qed.

Lemma append_frame a e xid rs :
  relations (append size a e xid rs) = relations a ∧ inStream (append size a e xid rs) = inStream a.
Proof. unfold append. destruct (target a); [|done]. cbn. by destruct (inStream a =? 0). Qed.

(** A change appended to the transaction whose segment is open. *)
Lemma tracks_append x a s e xid rs :
  x ≠ 0 → tracks x a s →
  tracks x (append size a e xid rs)
    (mkAlone (al_relations s) (al_in s) (if al_in s =? x then (λ l, l ++ [(e, rs, xid)]) <$> al_body s else al_body s)).
Proof.
  intros Hx (Hr & Hi & Hb). destruct (append_frame a e xid rs) as [Fr Fi].
  split_and!; [by rewrite Fr|by rewrite Fi|]. rewrite append_streamed, append_shard by done. rewrite <- Hi.
  cbn [al_body]. destruct (inStream a =? x); [|done].
  destruct (streamed a !! x), (al_body s); cbn; try done. by apply assembled_append.
Qed.

Lemma tracks_still x a a' s s' :
  tracks x a s → a_shard a' = a_shard a → relations a' = relations a → inStream a' = inStream a → streamed a' !! x = streamed a !! x →
  al_relations s' = al_relations s → al_in s' = al_in s → al_body s' = al_body s → tracks x a' s'.
Proof. intros (Hr & Hi & Hb) E1 E2 E3 E4 E5 E6 E7. split_and!; [congruence..|]. by rewrite E4, E7, E1. Qed.

Lemma app_nil_body (x i : Z) (b : option (list entry)) : (if i =? x then (λ l, l ++ []) <$> b else b) = b.
Proof. destruct (i =? x), b as [l|]; cbn; rewrite ?app_nil_r; done. Qed.

Lemma follow_still (sh : Shard) x s c : (∀ k, changes_of sh k c = []) → al_body s = (if al_in s =? x then (λ l, l ++ changes_of sh (al_relations s) c) <$> al_body s else al_body s).
Proof. intros ->. by rewrite app_nil_body. Qed.

(** A change that is not of the transaction. *)
Ltac still a Ec :=
  eapply (tracks_still _ a); try done;
  try (symmetry; apply follow_still; intros k; unfold changes_of; by rewrite Ec).

Lemma addOne_tracks x a s c a' r :
  x ≠ 0 → tracks x a s → addOne size a c = (a', inl r) → tracks x a' (follow (a_shard a) x s c).
Proof.
  intros Hx Ht H. pose proof Ht as (Hr & Hi & Hb).
  assert (∀ a1, checked a1 = (a', inl r) → a' = a1) as Hch.
  { intros a1 Hc. unfold checked in Hc. by destruct (fits a1); simplify_eq. }
  unfold addOne in H. unfold follow. destruct (ev c) eqn:Ec.
  - apply Hch in H as ->. still a Ec.
  - assert (a' = (addOne size a c).1) as -> by (unfold addOne; rewrite Ec, H; done). unfold addOne. rewrite Ec.
    still a Ec; by destruct (cur a).
  - apply Hch in H as ->. still a Ec.
  - assert (a' = (addOne size a c).1) as -> by (unfold addOne; rewrite Ec, H; done). unfold addOne. rewrite Ec.
    still a Ec; by destruct (cur a).
  - injection H as <- <-. still a Ec.
  - injection H as <- <-. still a Ec.
  - apply Hch in H as ->. split_and!; cbn; [by rewrite Hr|done..].
  - destruct (relations a !! relation_id) as [rel|] eqn:Er; [|done]. apply Hch in H as ->.
    unfold changes_of. rewrite Ec, <- Hr, Er, Hr. by apply tracks_append.
  - apply Hch in H as ->. unfold changes_of. rewrite Ec, <- Hr. unfold known. rewrite Hr. by apply tracks_append.
  - destruct transactional.
    + apply Hch in H as ->. unfold changes_of. rewrite Ec. by apply tracks_append.
    + injection H as <- <-. still a Ec.
  - assert (a' = a) as -> by (destruct (_ && _); [by simplify_eq|by apply Hch]).
    still a Ec.
  - apply Hch in H as ->. cbn. destruct (streamed a !! xid) as [u|] eqn:Eu.
    + split_and!; cbn; [done..|]. destruct (xid =? x) eqn:Ex; [|done]. assert (xid = x) as -> by lia. rewrite Eu in Hb |- *.
      by destruct (al_body s).
    + split_and!; cbn; [done..|]. destruct (xid =? x) eqn:Ex.
      * assert (xid = x) as -> by lia. rewrite lookup_insert_eq. rewrite Eu in Hb. by destruct (al_body s).
      * by rewrite lookup_insert_ne by lia.
  - apply Hch in H as ->. by split_and!.
  - assert (tracks x (set_streamed a (delete xid (streamed a))) (mkAlone (al_relations s) (al_in s) (if xid =? x then None else al_body s))) as Hd.
    { split_and!; cbn; [done..|]. destruct (xid =? x) eqn:Ex; [assert (xid = x) as -> by lia; by rewrite lookup_delete_eq|].
      by rewrite lookup_delete_ne by lia. }
    destruct (streamed a !! xid); cbn in H; injection H as <- <-; [|done]. by eapply tracks_still.
  - assert (tracks x (set_streamed a (delete xid (streamed a))) (mkAlone (al_relations s) (al_in s) (if xid =? x then None else al_body s))) as Hd.
    { split_and!; cbn; [done..|]. destruct (xid =? x) eqn:Ex; [assert (xid = x) as -> by lia; by rewrite lookup_delete_eq|].
      by rewrite lookup_delete_ne by lia. }
    destruct (streamed a !! xid); cbn in H; injection H as <- <-; [|done]. by eapply tracks_still.
  - apply Hch in H as ->. destruct ((subxid =? 0) || (subxid =? xid)) eqn:Esub.
    + assert (∀ a1, streamed a1 = streamed a → a_shard a1 = a_shard a → relations a1 = relations a → inStream a1 = inStream a →
        tracks x (set_streamed a1 (delete xid (streamed a1)))
          (mkAlone (al_relations s) (al_in s) (if xid =? x then None else al_body s))) as Hd.
      { intros a1 E1 E2 E3 E4. split_and!; cbn; [congruence..|]. rewrite E1, E2.
        destruct (xid =? x) eqn:Ex; [assert (xid = x) as -> by lia; by rewrite lookup_delete_eq|]. by rewrite lookup_delete_ne by lia. }
      destruct (xid =? x) eqn:Ex; [assert (xid = x) as <- by lia; rewrite Esub|]; destruct (streamed a !! xid); by apply Hd.
    + split_and!; cbn; [done..|]. destruct (xid =? x) eqn:Ex.
      * assert (xid = x) as -> by lia. rewrite lookup_alter_eq, Esub.
        destruct (streamed a !! x), (al_body s); cbn; try done. apply assembled_drop; [|done].
        apply orb_false_iff in Esub as [? _]. lia.
      * by rewrite lookup_alter_ne by lia.
  - apply Hch in H as ->. still a Ec.
  - done.
Qed.

Lemma addAll_tracks x cs a s a' us :
  x ≠ 0 → asm_ok a → tracks x a s → addAll size a cs = (a', us, None) → tracks x a' (foldl (follow (a_shard a) x) s cs).
Proof.
  intros Hx. revert a s us; induction cs as [|c cs IH]; intros a s us Hok Ht; cbn; [by intros [= <- <-]|].
  pose proof (addOne_ok size a c Hok) as [Hok1 Hsh1].
  destruct (addOne size a c) as [a1 [u|err]] eqn:E1; [|done]. destruct (addAll size a1 cs) as [[a2 us2] e2] eqn:E2.
  intros [= <- <- ->]. cbn in *. rewrite <- Hsh1. eapply IH; [done| |done]. rewrite Hsh1. by eapply addOne_tracks.
Qed.

End Reassembly.

(** C23. A streamed transaction is assembled as if it were the only one: however
    its segments interleave with other transactions, messages, keepalives and
    aborts, at its commit the consumer gets its begin stamped with the commit
    time, exactly its changes in order without those of aborted
    subtransactions, each with the relation current when it was sent, and its
    commit; a transaction aborted whole, or never seen, gives nothing. *)
Theorem streamed_transaction_reassembled size sh mb mo cs a us x lsn end_ ts l y :
  x ≠ 0 → addAll size (newAssembler sh mb mo) cs = (a, us, None) →
  match al_body (followAll sh x cs) with
  | Some body => ∃ a' u,
      addOne size a (mkChange l y (CStreamCommit x lsn end_ ts)) = (a', inl (Some u)) ∧
      events u = VBegin sh x ts "" :: body.*1.*1 ++ [VCommit sh lsn end_] ∧ rels u = [] :: body.*1.*2 ++ [[]] ∧
      endLSN u = end_ ∧ commitTS u = ts ∧ position u = true ∧ streamed a' !! x = None
  | None => ∃ a', addOne size a (mkChange l y (CStreamCommit x lsn end_ ts)) = (a', inl None)
  end.
Proof.
  intros Hx H.
  assert (tracks x (newAssembler sh mb mo) (mkAlone ∅ 0 None)) as H0 by (split_and!; cbn; [done..|by rewrite lookup_empty]).
  pose proof (addAll_tracks size x cs _ _ _ _ Hx (newAssembler_ok sh mb mo) H0 H) as (_ & _ & Hb).
  destruct (addAll_ok size cs _ _ _ _ (newAssembler_ok sh mb mo) H) as (_ & Hsh & _). cbn [a_shard newAssembler] in *.
  fold (followAll sh x cs) in Hb. unfold addOne. cbn [ev].
  destruct (streamed a !! x) as [u|] eqn:Eu, (al_body (followAll sh x cs)) as [body|]; try done; [|by eexists].
  rewrite Hsh in Hb |- *. destruct Hb as [H1 H2 H3 H4 H5 H6]. eexists _, _. split; [reflexivity|]. cbn.
  rewrite H2, H3. split_and!; try done. apply lookup_delete_eq.
Qed.

(** ** The byte count of open transactions *)

(** The encoded size of the events really held. *)
Definition held (size : VEvent → Z) (a : assembler) : Z :=
  match cur a with Some u => sizes size (events u) | None => 0 end +
  map_fold (λ _ u n, sizes size (events u) + n) 0 (streamed a).

Module Example.

Definition ten (_ : VEvent) : Z := 10.
Definition sh0 : Shard := mkShard "default" 0.
Definition say (xid : Z) : ChangeEvent := mkChange 0 xid (CMessage "p" [] true).
Definition tell (c : Change) : ChangeEvent := mkChange 0 0 c.

(** A change of an open transaction, then a small one committed. *)
Definition beside : list ChangeEvent :=
  [tell (CStreamStart 1); say 1; tell CStreamStop; tell (CBegin 2 0); tell (CCommit 5 6)].
(** A transaction of three changes, all in a subtransaction that aborts. *)
Definition savepoint : list ChangeEvent :=
  [tell (CStreamStart 1); say 5; say 5; say 5; tell CStreamStop; tell (CStreamAbort 1 5); tell (CStreamCommit 1 5 6 7)].
Definition times {A} (n : nat) (l : list A) : list A := mjoin (replicate n l).

End Example.
Import Example.

(** The buffer bound can be passed without notice: the begin of a
    transaction is never added to the byte count but is subtracted when it
    ends, so small transactions that commit beside a large open one erase its
    bytes from the count. *)
Theorem open_bytes_uncounted :
  let '(a, us, e) := addAll ten (newAssembler sh0 100 0) (times 20 beside) in
  e = None ∧ buffered a = 0 ∧ maxBytes a < held ten a.
Proof. vm_compute. done. Qed.

(** The buffer bound can trip with the buffer nearly empty: events of an
    aborted subtransaction stay in the byte count when they are dropped, so
    transactions that each fit end the stream as too large. *)
Theorem aborted_bytes_stay_counted :
  let '(a, us, e) := addAll ten (newAssembler sh0 100 0) (times 6 savepoint) in
  (∃ n, e = Some (TooManyBytes n 100)) ∧ held ten a ≤ 40 ∧ (addAll ten (newAssembler sh0 100 0) savepoint).2 = None.
Proof. vm_compute. split; [by eexists|]. split; [|done]. intros ?. done. Qed.

(** ** Instances *)

Module Witness.

Definition rel7 : Relation := mkRelation "public" "t" "d" [mkColumn "id" 23 (-1) true].
(** Transaction 3 streamed in two segments around another one, with a
    subtransaction aborted. *)
Definition mixed : list ChangeEvent :=
  [tell (CRelation 7 rel7); tell (CStreamStart 3); mkChange 0 3 (CRow 7 KIND_INSERT None false (Some [mkValue false [49]]) []);
   mkChange 0 4 (CRow 7 KIND_INSERT None false (Some [mkValue false [50]]) []); tell CStreamStop;
   tell (CStreamStart 9); say 9; tell CStreamStop; tell (CStreamCommit 9 5 6 7);
   tell (CStreamStart 3); say 3; tell CStreamStop; tell (CStreamAbort 3 4)].
Definition run_mixed := addAll ten (newAssembler sh0 0 0) mixed.

Lemma streamed_transaction_reassembled_witness : ∃ a' u,
  addOne ten run_mixed.1.1 (mkChange 0 0 (CStreamCommit 3 20 21 8)) = (a', inl (Some u)) ∧ length (events u) = 4%nat.
Proof.
  assert (addAll ten (newAssembler sh0 0 0) mixed = (run_mixed.1.1, run_mixed.1.2, None)) as H by (vm_compute; reflexivity).
  pose proof (streamed_transaction_reassembled ten sh0 0 0 mixed run_mixed.1.1 run_mixed.1.2 3 20 21 8 0 0 ltac:(discriminate) H) as T.
  destruct (al_body (followAll sh0 3 mixed)) as [body|] eqn:E; [|vm_compute in E; discriminate].
  destruct T as (a' & u & T1 & T2 & _). exists a', u. split; [exact T1|]. rewrite T2.
  vm_compute in E. injection E as <-. reflexivity.
Defined.

Lemma units_are_whole_witness : Forall (λ u, whole sh0 u ∧ aligned sh0 u) run_mixed.1.2.
Proof.
  apply (units_are_whole ten sh0 0 0 mixed run_mixed.1.1 run_mixed.1.2 None). vm_compute. reflexivity.
Defined.

End Witness.
