(* ===== verification/VStreamMerge.v ===== *)
(** * Change streams: merging the shards
      ([src/internal/router/vstream/merge.go], [server.go])

    The merger that serialises the units of every shard onto one stream, with
    its positions, relations, alignment and acknowledgements.  A shard stands
    for the reference to it on the wire, which carries the same set and
    number.  Sending is an oracle that may fail. *)

From S2P Require Import Prelude VStream.

Local Open Scope Z_scope.

(** ** Options *)

Record options := mkOptions {
  twoPhase : bool; stopOnReshard : bool; heartbeat : Z; wallClockAlign : bool; skew : Z; alignTimeout : Z;
  o_copy : bool; copyBatch : Z }.
(** The request's fields, durations in milliseconds. *)
Record VStreamOptions := mkVStreamOptions {
  two_phase : bool; stop_on_reshard : bool; heartbeat_interval_ms : Z; best_effort_wall_clock_alignment : bool;
  wall_clock_lead_ms : Z; wall_clock_hold_ms : Z; start_from_copy : bool; copy_batch_rows : Z }.

Definition microsecond : Z := 1000.
Definition millisecond : Z := 1000000.
Definition second : Z := 1000000000.
Definition resolveOptions (o : VStreamOptions) : options :=
  mkOptions (two_phase o) (stop_on_reshard o)
    (if 0 <? heartbeat_interval_ms o then heartbeat_interval_ms o * millisecond else 5 * second)
    (best_effort_wall_clock_alignment o)
    (if 0 <? wall_clock_lead_ms o then wall_clock_lead_ms o * millisecond else second)
    (if 0 <? wall_clock_hold_ms o then wall_clock_hold_ms o * millisecond else 10 * second)
    (start_from_copy o) (copy_batch_rows o).

(** ** What was delivered *)

Record Emitted := mkEmitted { e_pos : gmap Shard Z; e_copying : gmap Shard bool }.
Definition newEmitted (shards : list Shard) : Emitted :=
  mkEmitted (list_to_map ((λ sh, (sh, 0)) <$> shards)) (list_to_map ((λ sh, (sh, false)) <$> shards)).
Definition setCopying (e : Emitted) (sh : Shard) (c : bool) : Emitted := mkEmitted (e_pos e) (alter (λ _, c) sh (e_copying e)).
Definition isCopying (e : Emitted) (sh : Shard) : bool := default false (e_copying e !! sh).
Definition advance (e : Emitted) (sh : Shard) (lsn : Z) : Emitted :=
  mkEmitted (alter (λ cur, if lsn <=? cur then cur else lsn) sh (e_pos e)) (e_copying e).
Definition at_ (e : option Emitted) (sh : Shard) : option Z := e ← e; e_pos e !! sh.

(** ** The merger *)

Record merger := mkMerger {
  shards : list Shard; inputs : gmap Shard (list Unit); set_ : string; generation : Z; fingerprint : Z; opts : options;
  position_ : gmap Shard Z; emitted : option Emitted; copying : gmap Shard VCopyState; sentRel : gmap string string;
  lastCommit : gmap Shard Z; heldSince : gmap Shard Z; heads : gmap Shard Unit; next : nat }.

Definition set_inputs (m : merger) x := mkMerger (shards m) x (set_ m) (generation m) (fingerprint m) (opts m) (position_ m) (emitted m) (copying m) (sentRel m) (lastCommit m) (heldSince m) (heads m) (next m).
Definition set_generation (m : merger) x := mkMerger (shards m) (inputs m) (set_ m) x (fingerprint m) (opts m) (position_ m) (emitted m) (copying m) (sentRel m) (lastCommit m) (heldSince m) (heads m) (next m).
Definition set_position (m : merger) x := mkMerger (shards m) (inputs m) (set_ m) (generation m) (fingerprint m) (opts m) x (emitted m) (copying m) (sentRel m) (lastCommit m) (heldSince m) (heads m) (next m).
Definition set_emitted (m : merger) x := mkMerger (shards m) (inputs m) (set_ m) (generation m) (fingerprint m) (opts m) (position_ m) x (copying m) (sentRel m) (lastCommit m) (heldSince m) (heads m) (next m).
Definition set_copying (m : merger) x := mkMerger (shards m) (inputs m) (set_ m) (generation m) (fingerprint m) (opts m) (position_ m) (emitted m) x (sentRel m) (lastCommit m) (heldSince m) (heads m) (next m).
Definition set_sentRel (m : merger) x := mkMerger (shards m) (inputs m) (set_ m) (generation m) (fingerprint m) (opts m) (position_ m) (emitted m) (copying m) x (lastCommit m) (heldSince m) (heads m) (next m).
Definition set_lastCommit (m : merger) x := mkMerger (shards m) (inputs m) (set_ m) (generation m) (fingerprint m) (opts m) (position_ m) (emitted m) (copying m) (sentRel m) x (heldSince m) (heads m) (next m).
Definition set_heldSince (m : merger) x := mkMerger (shards m) (inputs m) (set_ m) (generation m) (fingerprint m) (opts m) (position_ m) (emitted m) (copying m) (sentRel m) (lastCommit m) x (heads m) (next m).
Definition set_heads (m : merger) x := mkMerger (shards m) (inputs m) (set_ m) (generation m) (fingerprint m) (opts m) (position_ m) (emitted m) (copying m) (sentRel m) (lastCommit m) (heldSince m) x (next m).
Definition set_next (m : merger) x := mkMerger (shards m) (inputs m) (set_ m) (generation m) (fingerprint m) (opts m) (position_ m) (emitted m) (copying m) (sentRel m) (lastCommit m) (heldSince m) (heads m) x.

(** The merger with what it did: the events sent, the acknowledgements
    forwarded, the units sent whole; [oracle] says which sends fail. *)
Record world := mkWorld { mg : merger; sent : list VEvent; acked : list (Shard * Z); delivered : list Unit; oracle : list bool }.

Definition M (A : Type) : Type := world → world * option A.
#[export] Instance M_ret : MRet M := λ A a w, (w, Some a).
#[export] Instance M_bind : MBind M := λ A B f x w, match x w with (w, Some a) => f a w | (w, None) => (w, None) end.
Definition get : M merger := λ w, (w, Some (mg w)).
Definition modify (f : merger → merger) : M () := λ w, (mkWorld (f (mg w)) (sent w) (acked w) (delivered w) (oracle w), Some ()).
Definition send (e : VEvent) : M () := λ w,
  match oracle w with
  | false :: o => (mkWorld (mg w) (sent w) (acked w) (delivered w) o, None)
  | _ => (mkWorld (mg w) (sent w ++ [e]) (acked w) (delivered w) (tail (oracle w)), Some ())
  end.
Definition acker (sh : Shard) (lsn : Z) : M () := λ w,
  (mkWorld (mg w) (sent w) (acked w ++ [(sh, lsn)]) (delivered w) (oracle w), Some ()).
Definition deliver (u : Unit) : M () := λ w,
  (mkWorld (mg w) (sent w) (acked w) (delivered w ++ [u]) (oracle w), Some ()).

(** [vector] *)
Definition vector (m : merger) : VPosition :=
  mkVPosition (shards m ≫= λ sh, match position_ m !! sh with Some lsn => if 0 <? lsn then [(sh, lsn)] else [] | None => [] end)
    (generation m) (omap (λ sh, copying m !! sh) (shards m)) (fingerprint m).

(** [fill] *)
Definition fillOne (m : merger) (sh : Shard) : merger :=
  match heads m !! sh with
  | Some _ => m
  | None =>
      match inputs m !! sh with
      | Some (u :: l) => set_heads (set_inputs m (<[sh := l]> (inputs m))) (<[sh := u]> (heads m))
      | _ => m
      end
  end.
Definition fill (m : merger) : merger := foldl fillOne m (shards m).

(** ** Alignment *)

Record commitFloors := mkFloors { f_min : Z; f_next : Z; f_at : Shard; seen : nat }.
Definition floorStep (m : merger) (f : commitFloors) (sh : Shard) : commitFloors :=
  match lastCommit m !! sh with
  | None => f
  | Some ts =>
      if (seen f =? 0)%nat || (ts <? f_min f) then mkFloors ts (f_min f) sh (S (seen f))
      else if (seen f =? 1)%nat || (ts <? f_next f) then mkFloors (f_min f) ts (f_at f) (S (seen f))
      else mkFloors (f_min f) (f_next f) (f_at f) (S (seen f))
  end.
Definition floors (m : merger) : commitFloors := foldl (floorStep m) (mkFloors 0 0 (mkShard "" 0) 0) (shards m).
Definition without (f : commitFloors) (self : Shard) : option Z :=
  if (seen f =? 0)%nat then None
  else if decide (f_at f ≠ self) then Some (f_min f)
  else if (seen f =? 1)%nat then None
  else Some (f_next f).

(** ** Choosing *)

(** The shards from [next] on, round the ring. *)
Fixpoint rotate (m : merger) (i n : nat) : option (Unit * merger) :=
  match n with
  | 0%nat => None
  | S n =>
      match shards m !! ((next m + i) mod length (shards m))%nat with
      | None => None
      | Some sh =>
          match heads m !! sh with
          | Some u => Some (u, set_heads (set_next m ((next m + i + 1) mod length (shards m))%nat) (delete sh (heads m)))
          | None => rotate m (S i) n
          end
      end
  end.

(** Taken at once: an error or a unit without a commit time. *)
Definition take_head (m : merger) (sh : Shard) : merger :=
  set_heldSince (set_heads m (delete sh (heads m))) (delete sh (heldSince m)).
Definition urgent (u : Unit) : bool := match u_err u with Some _ => true | None => commitTS u =? 0 end.

Record scan := mkScan { s_pick : option (Shard * Unit); s_wait : Z; s_held : gmap Shard Z }.
(** One shard of the aligned loop. *)
Definition alignOne (m : merger) (now : Z) (f : commitFloors) (s : scan) (sh : Shard) (u : Unit) : scan :=
  let eligible := match without f sh with None => true | Some floor => commitTS u <=? floor + skew (opts m) / microsecond end in
  let pick := match s_pick s with
              | None => Some (sh, u)
              | Some (_, p) => if commitTS u <? commitTS p then Some (sh, u) else s_pick s
              end in
  if eligible then mkScan pick (s_wait s) (s_held s)
  else
    let since := default now (s_held s !! sh) in
    let held := <[sh := since]> (s_held s) in
    let remaining := alignTimeout (opts m) - (now - since) in
    if 0 <? remaining
    then mkScan (s_pick s) (if (s_wait s =? 0) || (remaining <? s_wait s) then remaining else s_wait s) held
    else mkScan pick (s_wait s) held.
Fixpoint alignLoop (m : merger) (now : Z) (f : commitFloors) (s : scan) (l : list Shard) : (Shard * Unit) * gmap Shard Z + scan :=
  match l with
  | [] => inr s
  | sh :: l =>
      match heads m !! sh with
      | None => alignLoop m now f s l
      | Some u => if urgent u then inl ((sh, u), s_held s) else alignLoop m now f (alignOne m now f s sh u) l
      end
  end.

Definition choose (now : Z) (m : merger) : option Unit * Z * merger :=
  if decide (heads m = ∅) then (None, 0, m)
  else if negb (wallClockAlign (opts m)) then
    match rotate m 0 (length (shards m)) with
    | Some (u, m') => (Some u, 0, m')
    | None => (None, 0, m)
    end
  else
    match alignLoop m now (floors m) (mkScan None 0 (heldSince m)) (shards m) with
    | inl ((sh, u), held) => (Some u, 0, take_head (set_heldSince m held) sh)
    | inr s =>
        let m := set_heldSince m (s_held s) in
        match s_pick s with
        | None => (None, s_wait s, m)
        | Some (sh, u) => (Some u, 0, take_head m sh)
        end
    end.

(** ** Emitting *)

Definition relKey (r : relMeta) : string := (schema r +:+ "." +:+ table r)%string.
Fixpoint emitRels (rs : list relMeta) : M () :=
  match rs with
  | [] => mret ()
  | r :: rs =>
      m ← get;
      _ ← (if decide (default "" (sentRel m !! relKey r) ≠ signature r) then
             _ ← send (rel_event r); modify (λ m, set_sentRel m (<[relKey r := signature r]> (sentRel m)))
           else mret ());
      emitRels rs
  end.
Fixpoint emitEvents (es : list VEvent) (rss : list (list relMeta)) : M () :=
  match es, rss with
  | e :: es, rs :: rss => _ ← emitRels rs; _ ← send e; emitEvents es rss
  | _, _ => mret ()
  end.

(** The bookkeeping between the unit and its position. *)
Definition noteCommit (u : Unit) (m : merger) : merger :=
  if commitTS u =? 0 then m else set_lastCommit m (<[u_shard u := commitTS u]> (lastCommit m)).
Definition noteCopy (u : Unit) (m : merger) : merger :=
  match u_copy u with
  | None => m
  | Some st => set_emitted (set_copying m (<[u_shard u := st]> (copying m))) ((λ e, setCopying e (u_shard u) true) <$> emitted m)
  end.
Definition notePosition (u : Unit) (m : merger) : merger :=
  if position u && (default 0 (position_ m !! u_shard u) <? endLSN u)
  then set_emitted (set_position m (<[u_shard u := endLSN u]> (position_ m))) ((λ e, advance e (u_shard u) (endLSN u)) <$> emitted m)
  else m.
Definition noteCopyDone (u : Unit) (m : merger) : merger :=
  if copyDone u
  then set_emitted (set_copying m (delete (u_shard u) (copying m))) ((λ e, setCopying e (u_shard u) false) <$> emitted m)
  else m.
Definition silent (u : Unit) : bool :=
  negb (position u) && (match u_copy u with None => true | Some _ => false end) && negb (copyDone u) ||
  match events u with [] => true | _ => false end.

Definition emit (u : Unit) : M () :=
  _ ← emitEvents (events u) (rels u);
  _ ← deliver u;
  _ ← modify (noteCommit u);
  _ ← modify (noteCopy u);
  _ ← modify (notePosition u);
  _ ← modify (noteCopyDone u);
  if silent u then mret ()
  else
    m ← get;
    _ ← send (VGtid (vector m));
    m ← get;
    if copyDone u && bool_decide (copying m = ∅) then send (VCopyCompleted None "" "") else mret ().

(** ** Acknowledgements *)

Definition ackOne (sh : Shard) (lsn : Z) : M () :=
  m ← get;
  if bool_decide (inputs m !! sh = None) || bool_decide (copying m !! sh ≠ None) then mret ()
  else
    let lsn := match at_ (emitted m) sh with
               | Some d => if d <? lsn then d else lsn
               | None => 0
               end in
    if 0 <? lsn then acker sh lsn else mret ().
Fixpoint forwardAck (ps : list (Shard * Z)) : M () :=
  match ps with [] => mret () | (sh, lsn) :: ps => _ ← ackOne sh lsn; forwardAck ps end.
Fixpoint drainAcks (acks : list VPosition) : M () :=
  match acks with [] => mret () | pos :: acks => _ ← forwardAck (vp_shards pos); drainAcks acks end.

(** ** The end of a stream *)

Record Journal := mkJournal { j_id : string; j_targets : gmap Z Z }.
Inductive journal_answer := JournalFound (j : Journal) | JournalNone | JournalErr (e : string).

Definition sortedTargets (targets : gmap Z Z) : list Z := merge_sort Z.le (map_to_list targets).*1.
Definition journal_event (m : merger) (gen : Z) (j : option Journal) : VEvent :=
  match j with
  | None => VJournal "" (shards m) [] gen
  | Some j => VJournal (j_id j) (shards m)
                ((λ t, (mkShard (set_ m) t, default 0 (j_targets j !! t))) <$> sortedTargets (j_targets j)) gen
  end.
Definition resharded_event (m : merger) (gen : Z) (journal : option (string → journal_answer)) : VEvent :=
  if stopOnReshard (opts m)
  then journal_event m gen
         (match journal with
          | Some f => match f (set_ m) with JournalFound j => Some j | _ => None end
          | None => None
          end)
  else VError CODE_RESHARDED "shard map generation changed; restart the stream" None.

(** ** The loop *)

(** What one turn of the loop sees of the outside. *)
Record outside := mkOutside {
  now : Z; topo_generation : Z; topo_fingerprint : Z; pending : list VPosition; journal : option (string → journal_answer) }.
Inductive verdict := Ended | Again | Waits (hold : Z).

Definition turn (o : outside) : M verdict :=
  m ← get;
  if negb (topo_generation o =? generation m) && negb (topo_fingerprint o =? fingerprint m)
  then _ ← send (resharded_event m (topo_generation o) (journal o)); mret Ended
  else
    _ ← modify (λ m, set_generation m (topo_generation o));
    _ ← drainAcks (pending o);
    _ ← modify fill;
    m ← get;
    let '(u, hold, m') := choose (now o) m in
    _ ← modify (λ _, m');
    match u with
    | None => mret (Waits hold)
    | Some u =>
        match u_err u with
        | Some e => _ ← send e; mret Ended
        | None => _ ← emit u; mret Again
        end
    end.
(** [wait]: an acknowledgement arrives, or the heartbeat is due. *)
Definition wait_ack (pos : VPosition) : M () := forwardAck (vp_shards pos).
Definition wait_heartbeat : M () := m ← get; send (VHeartbeat (vector m)).

(** A unit arrives in a shard's channel. *)
Definition arrive (sh : Shard) (u : Unit) (w : world) : world :=
  mkWorld (set_inputs (mg w) (<[sh := default [] (inputs (mg w) !! sh) ++ [u]]> (inputs (mg w))))
    (sent w) (acked w) (delivered w) (oracle w).

(** The stream as it opens. *)
Definition open_merger (shs : list Shard) (set : string) (gen fp : Z) (o : options) (start : gmap Shard Z)
    (cp : gmap Shard VCopyState) : merger :=
  mkMerger shs (list_to_map ((λ sh, (sh, [])) <$> shs)) set gen fp o start
    (Some (foldl (λ e sh, setCopying e sh true) (newEmitted shs) (map_to_list cp).*1)) cp ∅ ∅ ∅ ∅ 0.
