(* ===== verification/VStreamAcks.v ===== *)
(** * What a merged change stream promises

    Units go out whole and in order for every shard, and no acknowledgement
    ever covers a unit that was not sent; positions are those of delivered
    units. *)

From S2P Require Import Prelude VStream VStreamMerge.

Local Open Scope Z_scope.

(** ** Runs *)

Inductive action :=
| Arrive (sh : Shard) (u : Unit)
| Turn (o : outside)
| Acks (pos : VPosition)
| Beat.

(** The stream goes on after it, or has ended. *)
Definition act (a : action) (s : world * bool) : world * bool :=
  let '(w, live) := s in
  match a with
  | Arrive sh u => (arrive sh u w, live)
  | Turn o =>
      if live then
        match turn o w with
        | (w, Some Again) => (w, true)
        | (w, Some (Waits _)) => (w, true)
        | (w, _) => (w, false)
        end
      else s
  | Acks pos => if live then match wait_ack pos w with (w, Some _) => (w, true) | (w, None) => (w, false) end else s
  | Beat => if live then match wait_heartbeat w with (w, Some _) => (w, true) | (w, None) => (w, false) end else s
  end.
Definition run (as_ : list action) (s : world * bool) : world * bool := foldl (λ s a, act a s) s as_.

(** The units that arrived from a shard, in order. *)
Definition arrivals (as_ : list action) (sh : Shard) : list Unit :=
  omap (λ a, match a with Arrive sh' u => if decide (sh' = sh) then Some u else None | _ => None end) as_.

(** Events of units; the rest is what the merger adds. *)
Definition payload (e : VEvent) : bool :=
  match e with
  | VRelation _ _ _ _ | VGtid _ | VHeartbeat _ | VJournal _ _ _ _ | VError _ _ _ | VCopyCompleted None _ _ => false
  | _ => true
  end.

(** What readers push: units of their own shard, one relation list per event. *)
Record unit_ok (sh : Shard) (u : Unit) : Prop := mk_unit_ok {
  uo_shard : u_shard u = sh;
  uo_events : forallb payload (events u) = true;
  uo_rels : length (rels u) = length (events u);
  uo_err : ∀ e, u_err u = Some e → payload e = false }.
Definition action_ok (shs : list Shard) (a : action) : Prop :=
  match a with Arrive sh u => sh ∈ shs ∧ unit_ok sh u | _ => True end.

Definition start (m : merger) (o : list bool) : world * bool := (mkWorld m [] [] [] o, true).

(** ** Invariant *)

Definition units_of (sh : Shard) (us : list Unit) : list Unit := filter (λ u, u_shard u = sh) us.
Definition waiting (m : merger) (sh : Shard) : list Unit := option_list (heads m !! sh) ++ default [] (inputs m !! sh).

Record inv (shs : list Shard) (arr : Shard → list Unit) (w : world) (live : bool) : Prop := mk_inv {
  in_shards : shards (mg w) = shs;
  in_emitted : ∀ sh d, at_ (emitted (mg w)) sh = Some d →
    d = 0 ∨ ∃ u, u ∈ delivered w ∧ u_shard u = sh ∧ position u = true ∧ endLSN u = d;
  in_acked : ∀ sh lsn, (sh, lsn) ∈ acked w →
    0 < lsn ∧ ∃ u, u ∈ delivered w ∧ u_shard u = sh ∧ position u = true ∧ lsn ≤ endLSN u;
  in_sent : ∃ part, filter (λ e, payload e = true) (sent w) = mjoin (events <$> delivered w) ++ part ∧ (live = true → part = []);
  in_order : ∀ sh, sh ∈ shards (mg w) → units_of sh (delivered w) `prefix_of` arr sh ∧
    (live = true → units_of sh (delivered w) ++ waiting (mg w) sh = arr sh);
  in_ok : ∀ sh u, u ∈ waiting (mg w) sh → unit_ok sh u;
  in_heads : ∀ sh u, heads (mg w) !! sh = Some u → sh ∈ shards (mg w) }.

(** ** What each operation leaves alone *)

(** Nothing but the events sent, the relations noted and the oracle. *)
Record sends (w w' : world) (ext : list VEvent) : Prop := mk_sends {
  se_sent : sent w' = sent w ++ ext;
  se_acked : acked w' = acked w;
  se_delivered : delivered w' = delivered w;
  se_mg : mg w' = set_sentRel (mg w) (sentRel (mg w')) }.

Lemma sends_refl w : sends w w [].
Proof. split; [by rewrite app_nil_r|done..|]. by destruct w as [[]]. Qed.
Lemma sends_trans w1 w2 w3 e1 e2 : sends w1 w2 e1 → sends w2 w3 e2 → sends w1 w3 (e1 ++ e2).
Proof.
  intros [A1 A2 A3 A4] [B1 B2 B3 B4]. split; [by rewrite B1, A1, app_assoc|congruence..|].
  rewrite B4. rewrite A4. done.
Qed.

Lemma send_sends e w w' r : send e w = (w', r) → ∃ ext, sends w w' ext ∧ (r = Some () ∧ ext = [e] ∨ r = None ∧ ext = []).
Proof.
  unfold send. destruct (oracle w) as [|[] o]; intros [= <- <-].
  - exists [e]. split; [|by left]. split; try done. by destruct w as [[]].
  - exists [e]. split; [|by left]. split; try done. by destruct w as [[]].
  - exists []. split; [|by right]. split; [by rewrite app_nil_r|done..|]. by destruct w as [[]].
Qed.

Lemma bind_inv {A B} (x : M A) (f : A → M B) w w' r :
  (x ≫= f) w = (w', r) → (∃ w1 a, x w = (w1, Some a) ∧ f a w1 = (w', r)) ∨ (x w = (w', None) ∧ r = None).
Proof. unfold mbind, M_bind. destruct (x w) as [w1 [a|]]; [eauto|]. intros [= <- <-]. auto. Qed.

Lemma emitRels_sends rs w w' r :
  emitRels rs w = (w', r) → ∃ ext, sends w w' ext ∧ Forall (λ e, payload e = false) ext.
Proof.
  revert w; induction rs as [|x rs IH]; intros w; cbn [emitRels].
  { intros [= <- <-]. exists []. split; [apply sends_refl|done]. }
  intros [(w1 & m & [= <- <-] & H)|[H ->]]%bind_inv; [|done].
  apply bind_inv in H as [(w2 & [] & H2 & H)|[H ->]].
  - assert (∃ ext, sends w w2 ext ∧ Forall (λ e, payload e = false) ext) as (e1 & S1 & P1).
    { destruct (decide _); [|injection H2 as <-; exists []; split; [apply sends_refl|done]].
      apply bind_inv in H2 as [(w3 & [] & H3 & H2)|[_ ?]]; [|done]. injection H2 as <-.
      destruct (send_sends _ _ _ _ H3) as (e1 & [A1 A2 A3 A4] & [[_ ->]|[? _]]); [|done].
      exists [rel_event x]. split; [|by repeat constructor]. split; cbn; try done. rewrite A4. done. }
    destruct (IH _ H) as (e2 & S2 & P2). exists (e1 ++ e2). split; [by eapply sends_trans|]. by apply Forall_app.
  - destruct (decide _); [|done]. apply bind_inv in H as [(w3 & [] & H3 & H2)|[H3 _]]; [done|].
    destruct (send_sends _ _ _ _ H3) as (e1 & S1 & [[? _]|[_ ->]]); [done|]. by exists [].
Qed.

Lemma filter_none (l : list VEvent) : Forall (λ e, payload e = false) l → filter (λ e, payload e = true) l = [].
Proof. induction 1 as [|e l He _ IH]; [done|]. rewrite filter_cons, decide_False by congruence. done. Qed.

Lemma emitEvents_sends es rss w w' r :
  length rss = length es → forallb payload es = true → emitEvents es rss w = (w', r) →
  ∃ ext part, sends w w' ext ∧ filter (λ e, payload e = true) ext = part ∧ (r = Some () → part = es).
Proof.
  revert rss w; induction es as [|e es IH]; intros [|rs rss] w Hlen Hp; cbn [emitEvents]; try done.
  { intros [= <- <-]. exists [], []. split; [apply sends_refl|done]. }
  injection Hlen as Hlen. apply andb_true_iff in Hp as [Hp1 Hp].
  intros [(w1 & [] & H1 & H)|[H ->]]%bind_inv.
  - destruct (emitRels_sends _ _ _ _ H1) as (e1 & S1 & P1).
    apply bind_inv in H as [(w2 & [] & H2 & H)|[H2 ->]].
    + destruct (send_sends _ _ _ _ H2) as (e2 & S2 & [[_ ->]|[? _]]); [|done].
      destruct (IH _ _ Hlen Hp H) as (e3 & part & S3 & F3 & R3).
      exists ((e1 ++ [e]) ++ e3), (e :: part). split; [eapply sends_trans; [by eapply sends_trans|done]|].
      rewrite !filter_app, (filter_none e1 P1), F3, filter_cons, decide_True by done. split; [done|]. intros Hr. by rewrite R3.
    + destruct (send_sends _ _ _ _ H2) as (e2 & S2 & [[? _]|[_ ->]]); [done|].
      exists (e1 ++ []), []. split; [by eapply sends_trans|]. by rewrite app_nil_r, (filter_none e1 P1).
  - destruct (emitRels_sends _ _ _ _ H) as (e1 & S1 & P1). exists e1, []. split; [done|]. by rewrite (filter_none e1 P1).
Qed.

(** ** Emitting a unit *)

(** The queues are as they were. *)
Record same_queues (m m' : merger) : Prop := mk_same_queues {
  sq_shards : shards m' = shards m; sq_inputs : inputs m' = inputs m; sq_heads : heads m' = heads m }.

Definition noted (u : Unit) (m : merger) : merger := noteCopyDone u (notePosition u (noteCopy u (noteCommit u m))).

Lemma noted_queues u m : same_queues m (noted u m).
Proof.
  unfold noted, noteCopyDone, notePosition, noteCopy, noteCommit.
  repeat case_match; done.
Qed.

Lemma at_setCopying e sh c sh' : at_ ((λ e, setCopying e sh c) <$> e) sh' = at_ e sh'.
Proof. by destruct e. Qed.

Lemma at_advance e sh lsn sh' d :
  at_ ((λ e, advance e sh lsn) <$> e) sh' = Some d → at_ e sh' = Some d ∨ sh' = sh ∧ d = lsn.
Proof.
  destruct e as [e|]; [|done]. cbn. rewrite lookup_alter_Some. intros [(-> & cur & Hc & ->)|[_ ?]]; [|auto].
  destruct (lsn <=? cur); auto.
Qed.

Lemma noted_emitted u m sh d :
  at_ (emitted (noted u m)) sh = Some d → at_ (emitted m) sh = Some d ∨ sh = u_shard u ∧ position u = true ∧ d = endLSN u.
Proof.
  unfold noted. assert (∀ m0, at_ (emitted (noteCopyDone u m0)) sh = at_ (emitted m0) sh) as ->.
  { intros m0. unfold noteCopyDone. destruct (copyDone u); [|done]. apply at_setCopying. }
  assert (at_ (emitted (noteCopy u (noteCommit u m))) sh = at_ (emitted m) sh) as <-.
  { unfold noteCopy, noteCommit. destruct (u_copy u), (commitTS u =? 0); cbn [emitted set_emitted set_copying set_lastCommit]; rewrite ?at_setCopying; done. }
  unfold notePosition. destruct (position u && _) eqn:E; [|auto]. apply andb_true_iff in E as [Hp _].
  intros [?|[-> ->]]%at_advance; auto.
Qed.

(** The two ways a unit can go: not all of it was sent, or it was and is
    noted. *)
Record emitted_whole (u : Unit) (w w' : world) : Prop := mk_emitted_whole {
  ew_acked : acked w' = acked w;
  ew_delivered : delivered w' = delivered w ++ [u];
  ew_queues : same_queues (mg w) (mg w');
  ew_emitted : ∀ sh d, at_ (emitted (mg w')) sh = Some d →
    at_ (emitted (mg w)) sh = Some d ∨ sh = u_shard u ∧ position u = true ∧ d = endLSN u;
  ew_sent : ∃ ext, sent w' = sent w ++ ext ∧ filter (λ e, payload e = true) ext = events u }.

Lemma sends_queues w w' ext : sends w w' ext → same_queues (mg w) (mg w') ∧ emitted (mg w') = emitted (mg w).
Proof. intros [_ _ _ E]. rewrite E. done. Qed.

Lemma sends_silent w w' e r : send e w = (w', r) → payload e = false → ∃ ext, sends w w' ext ∧ filter (λ e, payload e = true) ext = [].
Proof.
  intros H Hp. destruct (send_sends _ _ _ _ H) as (ext & S & [[_ ->]|[_ ->]]); eexists; (split; [exact S|]); [|done].
  by rewrite filter_cons, decide_False by congruence.
Qed.

Lemma emit_cases sh u w w' r :
  unit_ok sh u → emit u w = (w', r) →
  (r = None ∧ ∃ ext, sends w w' ext) ∨ emitted_whole u w w'.
Proof.
  intros [Hs Hp Hl _] H. unfold emit in H.
  apply bind_inv in H as [(w1 & [] & H1 & H)|[H ->]].
  2:{ left. split; [done|]. destruct (emitEvents_sends _ _ _ _ _ Hl Hp H) as (ext & _ & S & _). eauto. }
  right. destruct (emitEvents_sends _ _ _ _ _ Hl Hp H1) as (e1 & part & S1 & F1 & R1). rewrite (R1 eq_refl) in F1. clear part R1.
  set (w2 := mkWorld (noted u (mg w1)) (sent w1) (acked w1) (delivered w1 ++ [u]) (oracle w1)).
  assert (∃ e2, sends w2 w' e2 ∧ filter (λ e, payload e = true) e2 = []) as (e2 & S2 & F2).
  { unfold mbind, M_bind, deliver, modify in H. cbn [mg sent acked delivered oracle] in H.
    change (noteCopyDone u (notePosition u (noteCopy u (noteCommit u (mg w1))))) with (noted u (mg w1)) in H. fold w2 in H.
    destruct (silent u). { injection H as <- <-. exists []. split; [apply sends_refl|done]. }
    unfold get in H. destruct (send (VGtid (vector (mg w2))) w2) as [w3 [[]|]] eqn:E3.
    - destruct (sends_silent _ _ _ _ E3 eq_refl) as (e3 & S3 & F3).
      destruct (copyDone u && _).
      + destruct (sends_silent _ _ _ _ H eq_refl) as (e4 & S4 & F4). exists (e3 ++ e4).
        split; [by eapply sends_trans|]. by rewrite filter_app, F3, F4.
      + injection H as <- <-. eauto.
    - injection H as <- <-. by eapply sends_silent. }
  destruct (sends_queues _ _ _ S1) as [[A1 A2 A3] A4], (sends_queues _ _ _ S2) as [[B1 B2 B3] B4].
  destruct (noted_queues u (mg w1)) as [N1 N2 N3]. cbn in *. split.
  - rewrite (se_acked _ _ _ S2). cbn. apply S1.
  - rewrite (se_delivered _ _ _ S2). cbn. by rewrite (se_delivered _ _ _ S1).
  - split; congruence.
  - intros sh' d. rewrite B4. intros [H'|H']%noted_emitted; [left|by right]. by rewrite <- A4.
  - exists (e1 ++ e2). rewrite (se_sent _ _ _ S2). cbn. rewrite (se_sent _ _ _ S1), app_assoc. split; [done|].
    by rewrite filter_app, F1, F2, app_nil_r.
Qed.

(** ** Filling and choosing *)

Lemma fillOne_spec m sh :
  (∀ sh', waiting (fillOne m sh) sh' = waiting m sh') ∧ shards (fillOne m sh) = shards m ∧ emitted (fillOne m sh) = emitted m ∧
  (∀ sh' u, heads (fillOne m sh) !! sh' = Some u → heads m !! sh' = Some u ∨ sh' = sh).
Proof.
  unfold fillOne. destruct (heads m !! sh) eqn:Eh; [split_and!; auto|].
  destruct (inputs m !! sh) as [[|u l]|] eqn:Ei; [split_and!; auto| |split_and!; auto].
  split_and!; [|done..|].
  - intros sh'. unfold waiting; cbn. destruct (decide (sh = sh')) as [<-|Hne].
    + by rewrite !lookup_insert_eq, Eh, Ei.
    + by rewrite !lookup_insert_ne by done.
  - cbn. intros sh' v. rewrite lookup_insert_Some. naive_solver.
Qed.

Lemma fills_spec l m :
  (∀ sh', waiting (foldl fillOne m l) sh' = waiting m sh') ∧ shards (foldl fillOne m l) = shards m ∧
  emitted (foldl fillOne m l) = emitted m ∧
  (∀ sh' u, heads (foldl fillOne m l) !! sh' = Some u → heads m !! sh' = Some u ∨ sh' ∈ l).
Proof.
  revert m. induction l as [|sh l IH]; intros m; cbn; [by auto 10|].
  destruct (fillOne_spec m sh) as (A1 & A2 & A3 & A4), (IH (fillOne m sh)) as (B1 & B2 & B3 & B4).
  split_and!; [intros; by rewrite B1|congruence..|]. intros sh' u [H|H]%B4; [apply A4 in H as [?| ->]|]; [by left|right; by left|right; by right].
Qed.

(** A head taken, the rest as it was. *)
Definition takes (m m' : merger) (u : Unit) : Prop :=
  ∃ sh, heads m !! sh = Some u ∧ heads m' = delete sh (heads m) ∧ inputs m' = inputs m ∧ shards m' = shards m ∧ emitted m' = emitted m.

Lemma rotate_takes m i n u m' : rotate m i n = Some (u, m') → takes m m' u.
Proof.
  revert i; induction n as [|n IH]; intros i; cbn; [done|].
  destruct (shards m !! _) as [sh|]; [|done]. destruct (heads m !! sh) as [v|] eqn:Eh; [|apply IH].
  intros [= -> <-]. by exists sh.
Qed.

Lemma alignLoop_heads m now f l : ∀ s, (∀ sh u, s_pick s = Some (sh, u) → heads m !! sh = Some u) →
  match alignLoop m now f s l with
  | inl ((sh, u), _) => heads m !! sh = Some u
  | inr s' => ∀ sh u, s_pick s' = Some (sh, u) → heads m !! sh = Some u
  end.
Proof.
  induction l as [|sh l IH]; intros s Hs; cbn; [done|]. destruct (heads m !! sh) as [u|] eqn:Eh; [|by apply IH].
  destruct (urgent u); [done|]. apply IH. intros sh' u'. unfold alignOne.
  assert (∀ sh' u', match s_pick s with Some (_, p) => if commitTS u <? commitTS p then Some (sh, u) else s_pick s | None => Some (sh, u) end = Some (sh', u') →
            heads m !! sh' = Some u') as Hpick.
  { intros sh1 u1. destruct (s_pick s) as [[sp up]|]; [destruct (_ <? _)|]; intros [= <- <-]; auto. }
  repeat case_match; cbn; auto.
Qed.

Lemma choose_spec now m u hold m' :
  choose now m = (u, hold, m') →
  match u with
  | Some u => takes m m' u
  | None => heads m' = heads m ∧ inputs m' = inputs m ∧ shards m' = shards m ∧ emitted m' = emitted m
  end.
Proof.
  unfold choose. destruct (decide _); [by intros [= <- <- <-]|]. destruct (wallClockAlign (opts m)); cbn [negb].
  - pose proof (alignLoop_heads m now (floors m) (shards m) (mkScan None 0 (heldSince m))) as Hl. cbn in Hl. specialize (Hl ltac:(done)).
    destruct (alignLoop _ _ _ _ _) as [[[sh v] held]|s].
    + intros [= <- <- <-]. by exists sh.
    + destruct (s_pick s) as [[sh v]|]; intros [= <- <- <-]; [|done]. exists sh. by split; [apply Hl|].
  - destruct (rotate m 0 _) as [[v m1]|] eqn:Er; intros [= <- <- <-]; [|done]. by eapply rotate_takes.
Qed.

Lemma takes_waiting m m' u sh :
  takes m m' u → (∀ sh v, heads m !! sh = Some v → u_shard v = sh) →
  (sh = u_shard u → waiting m sh = u :: waiting m' sh) ∧ (sh ≠ u_shard u → waiting m' sh = waiting m sh).
Proof.
  intros (sh1 & Hh & E1 & E2 & _) Hk. pose proof (Hk _ _ Hh) as <-. unfold waiting. rewrite E1, E2. split.
  - intros ->. by rewrite Hh, lookup_delete_eq.
  - intros Hne. by rewrite lookup_delete_ne by done.
Qed.

(** ** Acknowledging *)

Record acks_only (w w' : world) : Prop := mk_acks_only {
  ao_mg : mg w' = mg w; ao_sent : sent w' = sent w; ao_delivered : delivered w' = delivered w;
  ao_acked : ∀ sh lsn, (sh, lsn) ∈ acked w' → (sh, lsn) ∈ acked w ∨ 0 < lsn ∧ ∃ d, at_ (emitted (mg w)) sh = Some d ∧ lsn ≤ d }.

Lemma acks_only_refl w : acks_only w w.
Proof. split; auto. Qed.
Lemma acks_only_trans w1 w2 w3 : acks_only w1 w2 → acks_only w2 w3 → acks_only w1 w3.
Proof.
  intros [A1 A2 A3 A4] [B1 B2 B3 B4]. split; [congruence..|]. intros sh lsn [H|H]%B4; [auto|]. right. by rewrite A1 in H.
Qed.

Lemma ackOne_spec sh lsn w : ∃ w', ackOne sh lsn w = (w', Some ()) ∧ acks_only w w'.
Proof.
  unfold ackOne, mbind, M_bind, get. destruct (_ || _); [eexists; split; [done|apply acks_only_refl]|].
  destruct (0 <? _) eqn:E; [|eexists; split; [done|apply acks_only_refl]]. eexists. split; [done|].
  split; try done. cbn -[at_]. intros sh' lsn' [?|Hl%list_elem_of_singleton]%elem_of_app; [by left|]. injection Hl as -> ->. right.
  split; [lia|]. destruct (at_ (emitted (mg w)) sh) as [d|]; [|lia]. exists d. split; [done|]. destruct (d <? lsn) eqn:Ed; lia.
Qed.

Lemma forwardAck_spec ps w : ∃ w', forwardAck ps w = (w', Some ()) ∧ acks_only w w'.
Proof.
  revert w; induction ps as [|[sh lsn] ps IH]; intros w; cbn [forwardAck]; [eexists; split; [done|apply acks_only_refl]|].
  destruct (ackOne_spec sh lsn w) as (w1 & E1 & A1), (IH w1) as (w2 & E2 & A2). exists w2. unfold mbind, M_bind. rewrite E1.
  split; [done|]. by eapply acks_only_trans.
Qed.

Lemma drainAcks_spec acks w : ∃ w', drainAcks acks w = (w', Some ()) ∧ acks_only w w'.
Proof.
  revert w; induction acks as [|pos acks IH]; intros w; cbn [drainAcks]; [eexists; split; [done|apply acks_only_refl]|].
  destruct (forwardAck_spec (vp_shards pos) w) as (w1 & E1 & A1), (IH w1) as (w2 & E2 & A2). exists w2. unfold mbind, M_bind. rewrite E1.
  split; [done|]. by eapply acks_only_trans.
Qed.

(** ** Every run *)

Definition with_mg (w : world) (m : merger) : world := mkWorld m (sent w) (acked w) (delivered w) (oracle w).

Lemma inv_ends shs arr w : inv shs arr w true → inv shs arr w false.
Proof.
  intros [H0 H1 H2 (part & Hp & Hl) H4 H5 H6]. split; try done.
  - exists part. done.
  - intros sh Hsh. by destruct (H4 sh Hsh).
Qed.

Lemma inv_acks shs arr w w' live : inv shs arr w live → acks_only w w' → inv shs arr w' live.
Proof.
  intros [H0 H1 H2 H3 H4 H5 H6] [A1 A2 A3 A4]. split; rewrite ?A1, ?A2, ?A3; try done.
  intros sh lsn [H|(Hl & d & Hd & Hle)]%A4; [eauto|]. split; [done|].
  destruct (H1 _ _ Hd) as [->|(u & ? & ? & ? & <-)]; [lia|eauto].
Qed.

Lemma inv_queues shs arr w m' live :
  inv shs arr w live → (∀ sh, waiting m' sh = waiting (mg w) sh) → shards m' = shards (mg w) → emitted m' = emitted (mg w) →
  (∀ sh u, heads m' !! sh = Some u → heads (mg w) !! sh = Some u ∨ sh ∈ shards (mg w)) → inv shs arr (with_mg w m') live.
Proof.
  intros [H0 H1 H2 H3 H4 H5 H6] Ew Es Ee Eh. split; cbn -[at_]; rewrite ?Ee, ?Es; try done.
  - intros sh Hsh. rewrite Ew. by apply H4.
  - intros sh u. rewrite Ew. apply H5.
  - intros sh u [?|?]%Eh; eauto.
Qed.

Lemma inv_silent shs arr w w' ext live :
  inv shs arr w live → sends w w' ext → filter (λ e, payload e = true) ext = [] → inv shs arr w' live.
Proof.
  intros [H0 H1 H2 (part & Hp & Hl) H4 H5 H6] S Hf. destruct (sends_queues _ _ _ S) as [[Q1 Q2 Q3] Q4].
  destruct S as [S1 S2 S3 S4]. assert (∀ sh, waiting (mg w') sh = waiting (mg w) sh) as Ew by (intros; unfold waiting; by rewrite Q2, Q3).
  split; rewrite ?Q1, ?Q4, ?S2, ?S3; try done.
  - exists part. by rewrite S1, filter_app, Hf, app_nil_r.
  - intros sh Hsh. rewrite Ew. by apply H4.
  - intros sh u. rewrite Ew. apply H5.
  - intros sh u. rewrite Q3. apply H6.
Qed.

Lemma heads_shard shs arr w live sh u : inv shs arr w live → heads (mg w) !! sh = Some u → unit_ok sh u.
Proof. intros Hinv Hh. apply (in_ok _ _ _ _ Hinv). unfold waiting. rewrite Hh. by left. Qed.

(** The chosen unit did not get through. *)
Lemma inv_lost shs arr w m' u w' ext :
  inv shs arr w true → takes (mg w) m' u → sends (with_mg w m') w' ext → inv shs arr w' false.
Proof.
  intros Hinv Ht S. pose proof Ht as (sh1 & Hh & E1 & E2 & E3 & E4).
  assert (∀ sh v, heads (mg w) !! sh = Some v → u_shard v = sh) as Hk by (intros; by eapply uo_shard, heads_shard).
  destruct (sends_queues _ _ _ S) as [[Q1 Q2 Q3] Q4]. destruct S as [S1 S2 S3 S4]. cbn -[at_] in *.
  pose proof Hinv as [H0 H1 H2 (part & Hp & Hl) H4 H5 H6].
  assert (∀ sh v, v ∈ waiting (mg w') sh → v ∈ waiting (mg w) sh) as Hw.
  { intros sh v. unfold waiting. rewrite Q2, Q3, E1, E2. destruct (decide (sh1 = sh)) as [<-|Hne].
    - rewrite lookup_delete_eq. cbn. intros Hv. apply elem_of_app. by right.
    - by rewrite lookup_delete_ne. }
  split; rewrite ?Q1, ?E3, ?S2, ?S3; try done.
  - intros sh d. rewrite Q4, E4. apply H1.
  - exists (filter (λ e, payload e = true) ext). rewrite S1, filter_app, Hp, (Hl eq_refl), app_nil_r. done.
  - intros sh Hsh. split; [|done]. by apply H4.
  - intros sh v Hv. apply H5. auto.
  - intros sh v. rewrite Q3, E1, lookup_delete_Some. intros [_ ?]. eauto.
Qed.

(** The chosen unit went out whole. *)
Lemma inv_delivered shs arr w m' u w' :
  inv shs arr w true → takes (mg w) m' u → emitted_whole u (with_mg w m') w' → inv shs arr w' true.
Proof.
  intros Hinv Ht [W1 W2 [Q1 Q2 Q3] W4 (ext & W5 & W6)]. cbn -[at_] in *. pose proof Ht as (sh1 & Hh & E1 & E2 & E3 & E4).
  assert (∀ sh v, heads (mg w) !! sh = Some v → u_shard v = sh) as Hk by (intros; by eapply uo_shard, heads_shard).
  pose proof Hinv as [H0 H1 H2 (part & Hp & Hl) H4 H5 H6].
  assert (∀ sh, waiting (mg w') sh = waiting m' sh) as Ew by (intros; unfold waiting; by rewrite Q2, Q3).
  split; rewrite ?W1, ?W2, ?Q1, ?E3.
  - done.
  - intros sh d [Hd|(-> & Hpos & ->)]%W4.
    + rewrite E4 in Hd. destruct (H1 _ _ Hd) as [?|(v & Hv & ?)]; [by left|right; exists v]. split; [apply elem_of_app; by left|done].
    + right. exists u. split; [apply elem_of_app; right; by left|done].
  - intros sh lsn H. destruct (H2 _ _ H) as (? & v & Hv & ?). split; [done|]. exists v. split; [apply elem_of_app; by left|done].
  - exists []. split; [|done]. rewrite W5, filter_app, Hp, (Hl eq_refl), W6, fmap_app, join_app. cbn. by rewrite !app_nil_r.
  - intros sh Hsh. destruct (H4 sh Hsh) as [_ Ho]. specialize (Ho eq_refl). destruct (takes_waiting _ _ _ sh Ht Hk) as [T1 T2].
    assert (units_of sh (delivered w ++ [u]) ++ waiting (mg w') sh = arr sh) as Heq.
    { rewrite Ew. unfold units_of in *. rewrite filter_app. destruct (decide (sh = u_shard u)) as [Hs|Hne].
      - rewrite filter_cons, decide_True by done. rewrite T1 in Ho by done. rewrite <- Ho, <- app_assoc. done.
      - rewrite filter_cons, decide_False by done. rewrite T2 by done. by rewrite app_nil_r. }
    split; [|done]. rewrite <- Heq. by apply prefix_app_r.
  - intros sh v. rewrite Ew. intros Hv. apply H5. destruct (takes_waiting _ _ _ sh Ht Hk) as [T1 T2].
    destruct (decide (sh = u_shard u)); [rewrite T1 by done; by right|by rewrite <- T2].
  - intros sh v. rewrite Q3, E1, lookup_delete_Some. intros [_ ?]. eauto.
Qed.

Lemma send_inv shs arr w e w' r live : inv shs arr w live → payload e = false → send e w = (w', r) → inv shs arr w' live.
Proof. intros Hinv Hp H. destruct (sends_silent _ _ _ _ H Hp) as (ext & S & F). by eapply inv_silent. Qed.

Lemma resharded_silent m g j : payload (resharded_event m g j) = false.
Proof. unfold resharded_event, journal_event. by repeat case_match. Qed.

Lemma inv_turn shs arr w o w' r :
  inv shs arr w true → turn o w = (w', r) →
  inv shs arr w' (match r with Some Again | Some (Waits _) => true | _ => false end).
Proof.
  intros Hinv H. unfold turn in H. apply bind_inv in H as [(w0 & m & [= <- <-] & H)|[H _]]; [|done].
  destruct (_ && _).
  { apply bind_inv in H as [(w1 & [] & H1 & H)|[H1 ->]].
    - injection H as <- <-. apply inv_ends. eapply send_inv; [done|apply resharded_silent|done].
    - apply inv_ends. eapply send_inv; [done|apply resharded_silent|done]. }
  apply bind_inv in H as [(w1 & [] & [= <-] & H)|[H _]]; [|done].
  assert (inv shs arr (with_mg w (set_generation (mg w) (topo_generation o))) true) as I1 by (apply inv_queues; auto).
  change (mkWorld _ _ _ _ _) with (with_mg w (set_generation (mg w) (topo_generation o))) in H. revert I1 H.
  generalize (with_mg w (set_generation (mg w) (topo_generation o))). clear w Hinv. intros w Hinv H.
  destruct (drainAcks_spec (pending o) w) as (w1 & E1 & A1). apply (inv_acks _ _ _ _ _ Hinv) in A1.
  unfold mbind at 1, M_bind at 1 in H. rewrite E1 in H. clear E1 Hinv w.
  apply bind_inv in H as [(w2 & [] & [= <-] & H)|[H _]]; [|done].
  destruct (fills_spec (shards (mg w1)) (mg w1)) as (F1 & F2 & F3 & F4). fold (fill (mg w1)) in *.
  pose proof (inv_queues _ _ _ _ _ A1 F1 F2 F3 F4) as I2. clear F1 F2 F3 F4 A1.
  change (mkWorld _ _ _ _ _) with (with_mg w1 (fill (mg w1))) in H. revert I2 H. generalize (with_mg w1 (fill (mg w1))). clear w1.
  intros w Hinv H. apply bind_inv in H as [(w0 & m & [= <- <-] & H)|[H _]]; [|done].
  destruct (choose (now o) (mg w)) as [[u hold] m'] eqn:Ec. pose proof (choose_spec _ _ _ _ _ Ec) as Hc.
  apply bind_inv in H as [(w1 & [] & [= <-] & H)|[H _]]; [|done].
  change (mkWorld _ _ _ _ _) with (with_mg w m') in H. destruct u as [u|].
  2:{ injection H as <- <-. destruct Hc as (C1 & C2 & C3 & C4). apply inv_queues; try done; [unfold waiting; by rewrite C1, C2|].
      rewrite C1. auto. }
  pose proof Hc as (sh & Hh & _). pose proof (heads_shard _ _ _ _ _ _ Hinv Hh) as Hu. destruct (u_err u) as [e|] eqn:Ee.
  - apply bind_inv in H as [(w1 & [] & H1 & H)|[H1 ->]]; [injection H as <- <-|];
      destruct (sends_silent _ _ _ _ H1 (uo_err _ _ Hu e Ee)) as (ext & S & _); by eapply inv_lost.
  - apply bind_inv in H as [(w1 & [] & H1 & H)|[H1 ->]]; [injection H as <- <-|].
    + destruct (emit_cases _ _ _ _ _ Hu H1) as [[? _]|We]; [done|]. by eapply inv_delivered.
    + destruct (emit_cases _ _ _ _ _ Hu H1) as [[_ (ext & S)]|We]; [by eapply inv_lost|]. by eapply inv_ends, inv_delivered.
Qed.

Definition grow (arr : Shard → list Unit) (a : action) (sh : Shard) : list Unit :=
  match a with Arrive sh' u => if decide (sh' = sh) then arr sh ++ [u] else arr sh | _ => arr sh end.

Lemma inv_ext shs arr arr' w live : (∀ sh, arr' sh = arr sh) → inv shs arr w live → inv shs arr' w live.
Proof. intros E [H0 H1 H2 H3 H4 H5 H6]. split; try done. intros sh Hsh. rewrite E. by apply H4. Qed.

Lemma inv_arrive shs arr w live sh u :
  inv shs arr w live → sh ∈ shards (mg w) → unit_ok sh u → inv shs (grow arr (Arrive sh u)) (arrive sh u w) live.
Proof.
  intros [H0 H1 H2 H3 H4 H5 H6] Hsh Hu.
  assert (∀ sh', waiting (mg (arrive sh u w)) sh' = waiting (mg w) sh' ++ (if decide (sh = sh') then [u] else [])) as Ew.
  { intros sh'. unfold waiting; cbn. destruct (decide (sh = sh')) as [<-|Hne].
    - rewrite lookup_insert_eq. cbn. by rewrite app_assoc.
    - by rewrite lookup_insert_ne, app_nil_r by done. }
  split; try done.
  - intros sh' Hsh'. destruct (H4 sh' Hsh') as [Hp Hl]. cbn [grow]. rewrite Ew. cbn [delivered arrive]. split.
    + destruct (decide _); [|done]. by apply prefix_app_r.
    + intros Hlive. rewrite app_assoc, (Hl Hlive). destruct (decide _); [done|by rewrite app_nil_r].
  - intros sh' v. rewrite Ew. intros [?|Hv]%elem_of_app; [eauto|]. destruct (decide (sh = sh')) as [<-|]; [|by apply not_elem_of_nil in Hv].
    by apply list_elem_of_singleton in Hv as ->.
Qed.

Lemma inv_act shs arr s a : inv shs arr s.1 s.2 → action_ok shs a → inv shs (grow arr a) (act a s).1 (act a s).2.
Proof.
  destruct s as [w live]. cbn [fst snd]. intros Hinv Ha. destruct a as [sh u|o|pos|]; cbn [act].
  - destruct Ha as [Hsh Hu]. apply inv_arrive; [done| |done]. by rewrite (in_shards _ _ _ _ Hinv).
  - destruct live; [|done]. destruct (turn o w) as [w' r] eqn:E. pose proof (inv_turn _ _ _ _ _ _ Hinv E) as H.
    by destruct r as [[]|].
  - destruct live; [|done]. destruct (forwardAck_spec (vp_shards pos) w) as (w' & E & A). unfold wait_ack. rewrite E.
    by eapply (inv_acks _ _ w).
  - destruct live; [|done]. unfold wait_heartbeat, mbind, M_bind, get. destruct (send _ w) as [w' r] eqn:E.
    assert (inv shs arr w' true) as H by (eapply (send_inv _ _ w (VHeartbeat (vector (mg w)))); [exact Hinv|done|exact E]). destruct r; [exact H|apply inv_ends; exact H].
Qed.

Lemma inv_run shs as_ arr s :
  Forall (action_ok shs) as_ → inv shs arr s.1 s.2 → inv shs (λ sh, arr sh ++ arrivals as_ sh) (run as_ s).1 (run as_ s).2.
Proof.
  revert arr s; induction as_ as [|a as_ IH]; intros arr s Has Hinv; cbn.
  { eapply inv_ext; [|done]. intros sh. cbn. by rewrite app_nil_r. }
  apply Forall_cons in Has as [Ha Has]. eapply inv_ext; [|by apply (IH (grow arr a) (act a s)), inv_act].
  intros sh. cbn. unfold grow. destruct a as [sh' u| | |]; cbn; try done. destruct (decide (sh' = sh)); cbn; [|done].
  by rewrite <- app_assoc.
Qed.

Lemma lookup_open_inputs (l : list Shard) sh : default [] ((list_to_map ((λ sh, (sh, [])) <$> l) : gmap Shard (list Unit)) !! sh) = [].
Proof.
  destruct (_ !! sh) as [us|] eqn:E; [|done]. apply elem_of_list_to_map_2 in E. by apply list_elem_of_fmap in E as (? & [= -> ->] & _).
Qed.

Lemma open_at shs cp sh d :
  at_ (Some (foldl (λ e sh, setCopying e sh true) (newEmitted shs) cp)) sh = Some d → d = 0.
Proof.
  assert (∀ e, e_pos (foldl (λ e sh, setCopying e sh true) e cp) = e_pos e) as E.
  { induction cp as [|c cp IH]; intros e; cbn; [done|]. by rewrite IH. }
  cbn. rewrite E. cbn. intros H. apply elem_of_list_to_map_2 in H. by apply list_elem_of_fmap in H as (? & [= -> ->] & _).
Qed.

Lemma inv_open shs set gen fp o pos cp orc : inv shs (λ _, []) (start (open_merger shs set gen fp o pos cp) orc).1 true.
Proof.
  split; cbn -[at_].
  - done.
  - intros sh d Hd. left. by eapply open_at.
  - intros sh lsn Hin. by apply not_elem_of_nil in Hin.
  - by exists [].
  - intros sh _. split; [done|]. intros _. unfold waiting; cbn. rewrite lookup_empty. cbn. apply lookup_open_inputs.
  - intros sh u. unfold waiting; cbn. rewrite lookup_empty. cbn. rewrite lookup_open_inputs. by intros ?%not_elem_of_nil.
  - intros sh u. by rewrite lookup_empty.
Qed.

(** Positions grow along what a shard sends. *)
Definition increasing (us : list Unit) : Prop :=
  ∀ i j u v, (i < j)%nat → us !! i = Some u → us !! j = Some v → position u = true → position v = true → endLSN u < endLSN v.

Section Stream.
Context (shs : list Shard) (set : string) (gen fp : Z) (o : options) (pos : gmap Shard Z) (cp : gmap Shard VCopyState)
  (orc : list bool) (as_ : list action) (w : world) (live : bool).
Hypothesis Hok : Forall (action_ok shs) as_.
Hypothesis Hrun : run as_ (start (open_merger shs set gen fp o pos cp) orc) = (w, live).

Lemma stream_inv : inv shs (arrivals as_) w live.
Proof.
  pose proof (inv_run shs as_ (λ _, []) _ Hok (inv_open shs set gen fp o pos cp orc)) as H. rewrite Hrun in H. exact H.
Qed.

(** C21. An acknowledgement never passes what the consumer was sent: whatever
    positions the consumer acknowledges, in any order with units arriving and
    going out, and whatever position it claimed to resume from, every
    acknowledgement forwarded to a shard is at most the end of a unit of that
    shard that was sent whole, and every unit the shard delivered at or below
    it has been sent. *)
Theorem acks_cover_only_delivered sh lsn :
  (sh, lsn) ∈ acked w → sh ∈ shs → increasing (arrivals as_ sh) →
  (∃ u, u ∈ delivered w ∧ u_shard u = sh ∧ position u = true ∧ 0 < lsn ≤ endLSN u) ∧
  (∀ u, u ∈ arrivals as_ sh → position u = true → endLSN u ≤ lsn → u ∈ delivered w).
Proof.
  intros Hack Hsh Hinc. pose proof stream_inv as Hinv. destruct (in_acked _ _ _ _ Hinv _ _ Hack) as (H0 & v & Hv & Hvs & Hvp & Hle).
  split; [by exists v|]. intros u Hu Hup Hul.
  destruct (in_order _ _ _ _ Hinv sh) as [[rest Hpre] _]; [by rewrite (in_shards _ _ _ _ Hinv)|].
  assert (v ∈ units_of sh (delivered w)) as Hv' by (by apply list_elem_of_filter).
  apply list_elem_of_lookup in Hv' as [i Hi], Hu as [j Hj].
  destruct (decide (j < length (units_of sh (delivered w)))%nat) as [Hlt|Hge].
  - rewrite Hpre, lookup_app_l in Hj by done. apply list_elem_of_lookup_2, list_elem_of_filter in Hj. by destruct Hj.
  - apply lookup_lt_Some in Hi as Hlt. exfalso.
    assert (endLSN v < endLSN u); [|lia]. apply (Hinc i j v u); try done; [lia|]. by rewrite Hpre, lookup_app_l.
Qed.

(** C22. The stream is the shards' units, each whole and contiguous, in the order
    its shard produced them: apart from relations, positions and the end
    markers, the events sent are those of the units delivered one after the
    other, with at most a part of one more when a send failed; for each shard
    the units delivered begin the units that arrived, and while the stream
    lives the rest are exactly those still queued. *)
Theorem merged_whole_in_order :
  (∃ part, filter (λ e, payload e = true) (sent w) = mjoin (events <$> delivered w) ++ part ∧ (live = true → part = [])) ∧
  ∀ sh, sh ∈ shs →
    units_of sh (delivered w) `prefix_of` arrivals as_ sh ∧
    (live = true → units_of sh (delivered w) ++ waiting (mg w) sh = arrivals as_ sh).
Proof.
  pose proof stream_inv as Hinv. split; [exact (in_sent _ _ _ _ Hinv)|]. intros sh Hsh. apply (in_order _ _ _ _ Hinv).
  by rewrite (in_shards _ _ _ _ Hinv).
Qed.

End Stream.
