(* ===== verification/VStreamAlign.v ===== *)
(** * Alignment of a merged change stream

    The two smallest commit times answer for every shard what walking the
    others would, no unit is held past the hold timeout, and the merger never
    sits on a unit without a deadline. *)

From S2P Require Import Prelude VStream VStreamMerge VStreamAcks.

Local Open Scope Z_scope.

(** ** Floors *)

(** The slowest last commit among the other shards, by walking them. *)
Fixpoint slowestOther (m : merger) (self : Shard) (l : list Shard) : option Z :=
  match l with
  | [] => None
  | sh :: l =>
      match lastCommit m !! sh with
      | Some ts =>
          if decide (sh = self) then slowestOther m self l
          else match slowestOther m self l with Some t => Some (Z.min ts t) | None => Some ts end
      | None => slowestOther m self l
      end
  end.

(** [r] is the least last commit of the shards of [l] other than [self]. *)
Definition least_other (m : merger) (self : Shard) (l : list Shard) (r : option Z) : Prop :=
  (∀ sh ts, sh ∈ l → sh ≠ self → lastCommit m !! sh = Some ts → ∃ t, r = Some t ∧ t ≤ ts) ∧
  (∀ t, r = Some t → ∃ sh, sh ∈ l ∧ sh ≠ self ∧ lastCommit m !! sh = Some t).

Lemma least_other_unique m self l r r' : least_other m self l r → least_other m self l r' → r = r'.
Proof.
  intros [A1 A2] [B1 B2]. destruct r as [t|], r' as [t'|]; try done.
  - destruct (A2 t eq_refl) as (s & ? & ? & Hs), (B2 t' eq_refl) as (s' & ? & ? & Hs').
    destruct (B1 s t) as (? & [= <-] & ?), (A1 s' t') as (? & [= <-] & ?); auto. f_equal. lia.
  - destruct (A2 t eq_refl) as (s & ? & ? & Hs). destruct (B1 s t) as (? & ? & _); done.
  - destruct (B2 t' eq_refl) as (s & ? & ? & Hs). destruct (A1 s t') as (? & ? & _); done.
Qed.

Lemma slowestOther_least m self l : least_other m self l (slowestOther m self l).
Proof.
  induction l as [|sh l [IH1 IH2]]; cbn; [split; [by intros ? ? ?%not_elem_of_nil|done]|].
  destruct (lastCommit m !! sh) as [ts|] eqn:E; [destruct (decide (sh = self)) as [-> |Hne]|].
  - split.
    + intros s t [->|?]%elem_of_cons; [done|eauto].
    + intros t Ht. destruct (IH2 t Ht) as (s & ? & ?). exists s. split; [by right|done].
  - destruct (slowestOther m self l) as [t0|].
    + split.
      * intros s t [->|Hs]%elem_of_cons Hne' Ht; [simplify_eq; eexists; split; [done|lia]|].
        destruct (IH1 _ _ Hs Hne' Ht) as (? & [= <-] & ?). eexists. split; [done|lia].
      * intros t [= <-]. destruct (Z.min_spec ts t0) as [[_ ->]|[_ ->]]; [exists sh; split_and!; [by left|done..]|].
        destruct (IH2 t0 eq_refl) as (s & ? & ?). exists s. split; [by right|done].
    + split.
      * intros s t [->|Hs]%elem_of_cons Hne' Ht; [simplify_eq; eexists; split; [done|lia]|].
        by destruct (IH1 _ _ Hs Hne' Ht) as (? & ? & _).
      * intros t [= <-]. exists sh. split_and!; [by left|done..].
  - split.
    + intros s t [->|?]%elem_of_cons; [congruence|eauto].
    + intros t Ht. destruct (IH2 t Ht) as (s & ? & ?). exists s. split; [by right|done].
Qed.

(** What the summary knows after the shards [l]. *)
Record floor_ok (m : merger) (l : list Shard) (f : commitFloors) : Prop := mk_floor_ok {
  fo_none : seen f = 0%nat → ∀ sh, sh ∈ l → lastCommit m !! sh = None;
  fo_min : seen f ≠ 0%nat → f_at f ∈ l ∧ lastCommit m !! f_at f = Some (f_min f) ∧
    ∀ sh ts, sh ∈ l → lastCommit m !! sh = Some ts → f_min f ≤ ts;
  fo_one : seen f = 1%nat → ∀ sh, sh ∈ l → sh ≠ f_at f → lastCommit m !! sh = None;
  fo_next : (2 ≤ seen f)%nat → least_other m (f_at f) l (Some (f_next f)) }.

Lemma elem_of_snoc (s sh : Shard) l : s ∈ l ++ [sh] ↔ s ∈ l ∨ s = sh.
Proof. by rewrite elem_of_app, list_elem_of_singleton. Qed.

Lemma floor_ok_step m l f sh : floor_ok m l f → sh ∉ l → floor_ok m (l ++ [sh]) (floorStep m f sh).
Proof.
  intros [H0 H1 Hone H2] Hnew. unfold floorStep.
  destruct (lastCommit m !! sh) as [ts|] eqn:E.
  2:{ split; unfold least_other; try setoid_rewrite elem_of_snoc.
      - intros H s [?| ->]; auto.
      - intros H. destruct (H1 H) as (A & B & C). split_and!; [by left|done|]. intros s t [?| ->] Ht; [eauto|congruence].
      - intros H s [?| ->] ?; auto.
      - intros H. destruct (H2 H) as [A B]. split; unfold least_other; try setoid_rewrite elem_of_snoc.
        + intros s t [?| ->] ? Ht; [eauto|congruence].
        + intros t Ht. destruct (B t Ht) as (s & ? & ?). eauto. }
  destruct ((seen f =? 0)%nat || (ts <? f_min f)) eqn:Ea.
  { split; cbn; unfold least_other; try setoid_rewrite elem_of_snoc.
    - done.
    - intros _. split_and!; [by right|done|]. intros s t [Hs| ->] Ht; [|simplify_eq; lia].
      destruct (seen f =? 0)%nat eqn:E0; [apply Nat.eqb_eq in E0; by rewrite (H0 E0) in Ht|]. apply Nat.eqb_neq in E0.
      destruct (H1 E0) as (_ & _ & C). specialize (C s t Hs Ht). cbn in Ea. lia.
    - intros [= Hs0] s [Hs| ->] Hn; [by apply H0|done].
    - intros Hs2. destruct (H1 ltac:(lia)) as (A & B & C). split; unfold least_other; try setoid_rewrite elem_of_snoc.
      + intros s t [Hs| ->] Hn Ht; [|done]. eexists. split; [done|]. eauto.
      + intros t [= <-]. exists (f_at f). split_and!; [by left| |done]. by intros <-. }
  apply orb_false_iff in Ea as [Ea1%Nat.eqb_neq Ea2]. destruct (H1 Ea1) as (A & B & C). assert (sh ≠ f_at f) as Hne by (by intros ->).
  destruct ((seen f =? 1)%nat || (ts <? f_next f)) eqn:Eb; (split; cbn; unfold least_other; try setoid_rewrite elem_of_snoc; [lia| |lia|]).
  - intros _. split_and!; [by left|done|]. intros s t [Hs| ->] Ht; [eauto|simplify_eq; lia].
  - intros _. split; unfold least_other; try setoid_rewrite elem_of_snoc.
    + intros s t [Hs| ->] Hn Ht; [|simplify_eq; eexists; split; [done|lia]]. eexists. split; [done|].
      destruct (seen f =? 1)%nat eqn:E1; [apply Nat.eqb_eq in E1; by rewrite (Hone E1) in Ht|]. apply Nat.eqb_neq in E1.
      destruct (H2 ltac:(lia)) as [D _]. destruct (D s t Hs Hn Ht) as (? & [= <-] & ?). cbn in Eb. lia.
    + intros t [= <-]. eauto.
  - intros _. split_and!; [by left|done|]. intros s t [Hs| ->] Ht; [eauto|simplify_eq; lia].
  - intros _. apply orb_false_iff in Eb as [Eb1%Nat.eqb_neq Eb2]. destruct (H2 ltac:(lia)) as [D1 D2]. split; unfold least_other; try setoid_rewrite elem_of_snoc.
    + intros s t [Hs| ->] Hn Ht; [eauto|simplify_eq; eexists; split; [done|lia]].
    + intros t Ht. destruct (D2 t Ht) as (s & ? & ?). eauto.
Qed.

Lemma floors_ok m l2 l1 f : floor_ok m l1 f → NoDup (l1 ++ l2) → floor_ok m (l1 ++ l2) (foldl (floorStep m) f l2).
Proof.
  revert l1 f; induction l2 as [|sh l2 IH]; intros l1 f Hf Hnd; cbn; [by rewrite app_nil_r|].
  rewrite (assoc (++) l1 [sh] l2 : l1 ++ sh :: l2 = _). apply IH; [|by rewrite <- app_assoc].
  apply floor_ok_step; [done|]. apply NoDup_app in Hnd as (_ & Hd & _). intros Hin. apply (Hd sh Hin). by left.
Qed.

(** The summary of the two smallest commit times answers for every shard
    exactly what walking all the other shards would: the slowest last commit
    among them, or that there is none. *)
Theorem floors_are_the_slowest m self :
  NoDup (shards m) → without (floors m) self = slowestOther m self (shards m).
Proof.
  intros Hnd. assert (floor_ok m (shards m) (floors m)) as [H0 H1 Hone H2].
  { apply (floors_ok m (shards m) []); [|done]. split; cbn; try done; [|lia]. by intros _ ? ?%not_elem_of_nil. }
  apply (least_other_unique m self (shards m)); [|apply slowestOther_least]. unfold without.
  destruct (seen (floors m) =? 0)%nat eqn:E0; [apply Nat.eqb_eq in E0|apply Nat.eqb_neq in E0].
  { split; [|done]. intros sh ts Hs _ Ht. by rewrite (H0 E0) in Ht. }
  destruct (H1 E0) as (A & B & C). destruct (decide _) as [Hne|Heq].
  { split; [intros; eexists; split; eauto|]. intros t [= <-]. eauto. }
  apply dec_stable in Heq as <-. destruct (seen (floors m) =? 1)%nat eqn:E1; [apply Nat.eqb_eq in E1|apply Nat.eqb_neq in E1].
  - split; [|done]. intros sh ts Hs Hn Ht. by rewrite (Hone E1) in Ht.
  - apply H2. lia.
Qed.

(** ** Holding *)

(** How much longer a shard's unit may be held. *)
Definition remaining (m : merger) (now : Z) (held : gmap Shard Z) (sh : Shard) : Z :=
  alignTimeout (opts m) - (now - default now (held !! sh)).

Lemma alignOne_none m now f s sh u :
  s_pick (alignOne m now f s sh u) = None →
  s_pick s = None ∧ 0 < remaining m now (s_held s) sh ∧
  s_held (alignOne m now f s sh u) = <[sh := default now (s_held s !! sh)]> (s_held s) ∧
  s_wait (alignOne m now f s sh u) =
    (if (s_wait s =? 0) || (remaining m now (s_held s) sh <? s_wait s) then remaining m now (s_held s) sh else s_wait s).
Proof.
  unfold alignOne. fold (remaining m now (s_held s) sh).
  assert (∀ q : bool, match s_pick s with Some (_, p) => if commitTS u <? commitTS p then Some (sh, u) else s_pick s | None => Some (sh, u) end ≠ None) as Hp.
  { intros _. destruct (s_pick s) as [[? ?]|]; [destruct (_ <? _)|]; done. }
  destruct (match without f sh with Some _ => _ | None => _ end); cbn; [by intros ?%(Hp true)|].
  destruct (0 <? remaining m now (s_held s) sh) eqn:Er; cbn; [|by intros ?%(Hp true)]. intros ->. split_and!; [done|lia|done..].
Qed.

Lemma alignLoop_none m now f l : ∀ s s',
  alignLoop m now f s l = inr s' → s_pick s' = None →
  s_pick s = None ∧
  (∀ sh, is_Some (s_held s !! sh) → s_held s' !! sh = s_held s !! sh) ∧
  (∀ sh u, sh ∈ l → heads m !! sh = Some u → 0 < remaining m now (s_held s') sh ∧ is_Some (s_held s' !! sh)) ∧
  (0 ≤ s_wait s → (∀ sh, sh ∈ l → heads m !! sh = None) ∧ s_wait s' = s_wait s ∨
     0 < s_wait s' ∧ (s_wait s' = s_wait s ∨ ∃ sh u, sh ∈ l ∧ heads m !! sh = Some u ∧ s_wait s' = remaining m now (s_held s') sh)).
Proof.
  induction l as [|sh l IH]; intros s s'; cbn; [intros [= <-] Hp; split_and!; [done|done|by intros ? ? ?%not_elem_of_nil|]|].
  { left. split; [by intros ? ?%not_elem_of_nil|done]. }
  destruct (heads m !! sh) as [u|] eqn:Eh.
  2:{ intros Hl Hp. destruct (IH _ _ Hl Hp) as (A & B & C & D). split_and!; [done..| |].
      - intros sh' u [->|?]%elem_of_cons ?; [congruence|eauto].
      - intros Hw. destruct (D Hw) as [[D1 D2]|[D1 [D2|(sh' & u & ? & ? & ?)]]]; [left|right; auto|right].
        + split; [|done]. intros sh' [->|?]%elem_of_cons; auto.
        + split; [done|]. right. exists sh', u. split_and!; [by right|done..]. }
  destruct (urgent u); [done|]. intros Hl Hp. destruct (IH _ _ Hl Hp) as (A & B & C & D).
  destruct (alignOne_none _ _ _ _ _ _ A) as (A1 & A2 & A3 & A4). rewrite A3 in B.
  assert (s_held s' !! sh = Some (default now (s_held s !! sh))) as Hsh.
  { rewrite B; by rewrite lookup_insert_eq. }
  assert (remaining m now (s_held s') sh = remaining m now (s_held s) sh) as Hrem by (unfold remaining; by rewrite Hsh).
  split_and!.
  - done.
  - intros sh' Hs. destruct (decide (sh = sh')) as [<-|Hne].
    + rewrite Hsh. destruct Hs as [t Ht]. by rewrite Ht.
    + rewrite B by (by rewrite lookup_insert_ne). by rewrite lookup_insert_ne.
  - intros sh' u' [->|?]%elem_of_cons Hu'; [|eauto]. rewrite Hrem, Hsh. split; [done|by eexists].
  - intros Hw. right. rewrite A4 in D.
    assert (0 < (if (s_wait s =? 0) || (remaining m now (s_held s) sh <? s_wait s) then remaining m now (s_held s) sh else s_wait s)) as Hpos.
    { destruct (_ || _) eqn:Eo; [done|]. lia. }
    assert (s_wait s' = s_wait s ∨ ∃ sh0 u0, sh0 ∈ sh :: l ∧ heads m !! sh0 = Some u0 ∧ s_wait s' = remaining m now (s_held s') sh0) as Hor.
    { destruct (D ltac:(lia)) as [[_ D2]|[_ [D2|(sh' & u' & ? & ? & ?)]]].
      - destruct (_ || _) eqn:Eo in D2; [|by left]. right. exists sh, u. split_and!; [by left|done|congruence].
      - destruct (_ || _) eqn:Eo in D2; [|by left]. right. exists sh, u. split_and!; [by left|done|congruence].
      - right. exists sh', u'. split_and!; [by right|done..]. }
    split; [|done]. destruct (D ltac:(lia)) as [[_ D2]|[D1 _]]; [by rewrite D2|done].
Qed.

Lemma alignLoop_held m now f l : ∀ s s', alignLoop m now f s l = inr s' →
  ∀ sh t, s_held s' !! sh = Some t → s_held s !! sh = Some t ∨ t = now.
Proof.
  induction l as [|sh l IH]; intros s s'; cbn; [intros [= <-]; auto|].
  destruct (heads m !! sh) as [u|]; [|apply IH]. destruct (urgent u); [done|]. intros Hl sh' t Ht.
  destruct (IH _ _ Hl _ _ Ht) as [H|H]; [|by right]. revert H. unfold alignOne. cbv zeta.
  assert (<[sh := default now (s_held s !! sh)]> (s_held s) !! sh' = Some t → s_held s !! sh' = Some t ∨ t = now) as Hins.
  { rewrite lookup_insert_Some. intros [[<- <-]|[_ ?]]; [|by left]. destruct (s_held s !! sh); cbn; auto. }
  repeat case_match; cbn; auto.
Qed.

(** A shard in the ring with a head is found. *)
Lemma rotate_finds m i n k :
  (i ≤ k < i + n)%nat →
  (∃ sh u, shards m !! ((next m + k) mod length (shards m))%nat = Some sh ∧ heads m !! sh = Some u) →
  is_Some (rotate m i n).
Proof.
  intros Hk (sh & u & Hs & Hu). assert (length (shards m) ≠ 0%nat) as Hne.
  { intros H0. apply nil_length_inv in H0. by rewrite H0 in Hs. }
  revert i Hk. induction n as [|n IH]; intros i Hk; [lia|]. cbn.
  destruct (shards m !! ((next m + i) mod length (shards m))%nat) as [sh'|] eqn:E'.
  2:{ apply lookup_ge_None in E'. destruct (Nat.lt_irrefl _ (Nat.le_lt_trans _ _ _ E' (Nat.mod_upper_bound (next m + i) _ Hne))). }
  destruct (heads m !! sh') as [v|] eqn:Ev; [by eexists|]. destruct (decide (i = k)) as [->|Hne']; [congruence|]. apply IH. lia.
Qed.

(** The heads are of shards the merger reads, and no hold began in the future. *)
Definition heads_known (m : merger) : Prop := ∀ sh v, heads m !! sh = Some v → sh ∈ shards m.
Definition held_before (now : Z) (m : merger) : Prop := ∀ sh t, heldSince m !! sh = Some t → t ≤ now.

(** A unit may be sent: no other shard is known to be behind it by more than the
    skew, or it was held for as long as the timeout says. *)
Definition aligned (m : merger) (sh : Shard) (u : Unit) : Prop :=
  ∀ floor, without (floors m) sh = Some floor → commitTS u ≤ floor + skew (opts m) / microsecond.
Definition overdue (now : Z) (m : merger) (held : gmap Shard Z) (sh : Shard) : Prop :=
  ∃ since, held !! sh = Some since ∧ alignTimeout (opts m) ≤ now - since.
Definition ready (now : Z) (m : merger) (sh : Shard) (u : Unit) : Prop := aligned m sh u ∨ overdue now m (heldSince m) sh.

(** Something is picked that committed no later than [u]. *)
Definition picked_before (s : scan) (u : Unit) : Prop := ∃ sh p, s_pick s = Some (sh, p) ∧ commitTS p ≤ commitTS u.
Lemma alignOne_spec m now s sh u :
  let s' := alignOne m now (floors m) s sh u in
  (∀ v, picked_before s v → picked_before s' v) ∧
  (aligned m sh u ∨ overdue now m (s_held s) sh → picked_before s' u) ∧
  (∀ sh' t, s_held s !! sh' = Some t → s_held s' !! sh' = Some t) ∧
  (∀ sh' v, s_pick s' = Some (sh', v) → s_pick s = Some (sh', v) ∨
     sh' = sh ∧ v = u ∧ (aligned m sh u ∨ overdue now m (s_held s) sh ∨ alignTimeout (opts m) ≤ 0)).
Proof.
  intros s'. unfold s', alignOne, picked_before. cbv zeta.
  set (pick := match s_pick s with Some (_, p) => if commitTS u <? commitTS p then Some (sh, u) else s_pick s | None => Some (sh, u) end).
  assert (∃ sh' p, pick = Some (sh', p) ∧ commitTS p ≤ commitTS u) as Hu.
  { unfold pick. destruct (s_pick s) as [[sp p]|]; [|exists sh, u; split; [done|lia]].
    destruct (Z.ltb_spec (commitTS u) (commitTS p)); [exists sh, u|exists sp, p]; (split; [done|lia]). }
  assert (∀ v, (∃ sh p, s_pick s = Some (sh, p) ∧ commitTS p ≤ commitTS v) → ∃ sh p, pick = Some (sh, p) ∧ commitTS p ≤ commitTS v) as Hv.
  { intros v (sp & p & E & Hle). unfold pick. rewrite E. destruct (Z.ltb_spec (commitTS u) (commitTS p)); [exists sh, u|exists sp, p]; (split; [done|lia]). }
  assert (∀ sh' v, pick = Some (sh', v) → s_pick s = Some (sh', v) ∨ sh' = sh ∧ v = u) as Hw.
  { unfold pick. intros sh' v. destruct (s_pick s) as [[sp p]|]; [destruct (_ <? _)|]; intros [= <- <-]; auto. }
  assert (aligned m sh u ↔ match without (floors m) sh with None => true | Some floor => commitTS u <=? floor + skew (opts m) / microsecond end = true) as Ha.
  { unfold aligned. destruct (without (floors m) sh) as [fl|]; [rewrite Z.leb_le; naive_solver|naive_solver]. }
  assert (∀ sh' t, s_held s !! sh' = Some t → <[sh := default now (s_held s !! sh)]> (s_held s) !! sh' = Some t) as Hh.
  { intros sh' t E. destruct (decide (sh = sh')) as [<-|]; [rewrite lookup_insert_eq, E; done|by rewrite lookup_insert_ne]. }
  destruct (match without (floors m) sh with None => true | Some _ => _ end) eqn:Ee; cbn [s_pick s_held].
  { split_and!; [exact Hv|by intros _|done|]. intros sh' v [?|[-> ->]]%Hw; [by left|right]. split_and!; [done..|]. left. by apply Ha. }
  assert (¬ aligned m sh u) as Hna by (rewrite Ha; congruence).
  assert (overdue now m (s_held s) sh → alignTimeout (opts m) - (now - default now (s_held s !! sh)) ≤ 0) as Hov.
  { intros (t & -> & Ht). cbn. lia. }
  destruct (Z.ltb_spec 0 (alignTimeout (opts m) - (now - default now (s_held s !! sh)))); cbn [s_pick s_held].
  - split_and!; [done| |exact Hh|by left]. intros [?|?%Hov]; [done|lia].
  - split_and!; [exact Hv|by intros _|exact Hh|]. intros sh' v [?|[-> ->]]%Hw; [by left|right]. split_and!; [done..|]. right.
    destruct (s_held s !! sh) as [t|] eqn:Et; [left; exists t; cbn in *; split; [done|lia]|right; cbn in *; lia].
Qed.
Lemma alignLoop_spec m now l : ∀ s,
  match alignLoop m now (floors m) s l with
  | inl ((sh, v), held) => heads m !! sh = Some v ∧ urgent v = true ∧ ∀ sh' t, s_held s !! sh' = Some t → held !! sh' = Some t
  | inr s' =>
      (∀ v, picked_before s v → picked_before s' v) ∧
      (∀ sh u, sh ∈ l → heads m !! sh = Some u → aligned m sh u ∨ overdue now m (s_held s) sh → picked_before s' u) ∧
      (∀ sh t, s_held s !! sh = Some t → s_held s' !! sh = Some t) ∧
      ((∀ sh t, s_held s !! sh = Some t → heldSince m !! sh = Some t ∨ t = now) → 0 < alignTimeout (opts m) →
       ∀ sh v, s_pick s' = Some (sh, v) → s_pick s = Some (sh, v) ∨ heads m !! sh = Some v ∧ ready now m sh v)
  end.
Proof.
  induction l as [|sh l IH]; intros s; cbn.
  { split_and!; [done|by intros ? ? ?%not_elem_of_nil|done|by left]. }
  destruct (heads m !! sh) as [u|] eqn:Eh.
  2:{ specialize (IH s). destruct (alignLoop m now (floors m) s l) as [[[sh' v] held]|s']; [done|].
      destruct IH as (A & B & C & D). split_and!; [done| |done|done]. intros sh' v [->|?]%elem_of_cons ?; [congruence|eauto]. }
  destruct (urgent u) eqn:Eu; [done|]. destruct (alignOne_spec m now s sh u) as (A1 & B1 & C1 & D1). cbv zeta in *.
  assert ((∀ sh t, s_held s !! sh = Some t → heldSince m !! sh = Some t ∨ t = now) →
    ∀ sh' t, s_held (alignOne m now (floors m) s sh u) !! sh' = Some t → heldSince m !! sh' = Some t ∨ t = now) as Hheld.
  { intros H sh' t. unfold alignOne. cbv zeta.
    assert (<[sh := default now (s_held s !! sh)]> (s_held s) !! sh' = Some t → heldSince m !! sh' = Some t ∨ t = now) as Hins.
    { rewrite lookup_insert_Some. intros [[<- <-]|[_ ?]]; [|by auto]. destruct (s_held s !! sh) eqn:E; cbn; auto. }
    repeat case_match; cbn; auto. }
  specialize (IH (alignOne m now (floors m) s sh u)). destruct (alignLoop m now (floors m) _ l) as [[[sh' v] held]|s'].
  { destruct IH as (? & ? & C). split_and!; [done|done|]. auto. }
  destruct IH as (A & B & C & D). split_and!; [auto| |auto|].
  - intros sh' v [->|Hin]%elem_of_cons Hv Hr; [simplify_eq; auto|]. apply (B sh' v Hin Hv). destruct Hr as [?|(t & ? & ?)]; [by left|right; exists t; auto].
  - intros Hs Hto sh' v Hp. destruct (D (Hheld Hs) Hto sh' v Hp) as [Hp1|?]; [|by right].
    destruct (D1 sh' v Hp1) as [?|(-> & -> & Hr)]; [by left|right]. split; [done|]. destruct Hr as [?|[(t & Ht & Hle)|?]]; [by left|right|lia].
    destruct (Hs sh t Ht) as [?| ->]; [by exists t|lia].
Qed.

(** Choosing keeps what [never_stalls] asks of the holds; that the heads are of
    shards the merger reads is part of the invariant of every run ([in_heads]). *)
Lemma alignLoop_holds m now f l : ∀ s, (∀ sh t, s_held s !! sh = Some t → t ≤ now) →
  match alignLoop m now f s l with
  | inl (_, held) => ∀ sh t, held !! sh = Some t → t ≤ now
  | inr s' => ∀ sh t, s_held s' !! sh = Some t → t ≤ now
  end.
Proof.
  induction l as [|sh l IH]; intros s Hs; cbn; [done|]. destruct (heads m !! sh) as [u|]; [|by apply IH].
  destruct (urgent u); [done|]. apply IH. intros sh' t. unfold alignOne. cbv zeta.
  assert (<[sh := default now (s_held s !! sh)]> (s_held s) !! sh' = Some t → t ≤ now) as Hins.
  { rewrite lookup_insert_Some. intros [[<- <-]|[_ ?]]; [|by eauto]. destruct (s_held s !! sh) eqn:E; cbn; [by eauto|lia]. }
  repeat case_match; cbn; eauto.
Qed.

Lemma choose_holds now m r hold m' : held_before now m → choose now m = (r, hold, m') → held_before now m'.
Proof.
  intros Hb. unfold choose. destruct (decide _); [by intros [= <- <- <-]|]. destruct (wallClockAlign (opts m)); cbn [negb].
  - pose proof (alignLoop_holds m now (floors m) (shards m) (mkScan None 0 (heldSince m)) Hb) as Hl.
    destruct (alignLoop _ _ _ _ _) as [[[sh v] held]|s]; [|destruct (s_pick s) as [[sh v]|]]; intros [= <- <- <-] sh' t;
      cbn [take_head set_heldSince set_heads heldSince]; [intros [_ ?]%lookup_delete_Some..|]; by eauto.
  - destruct (rotate m 0 _) as [[v m1]|] eqn:Er; intros [= <- <- <-]; [|done]. revert Er. generalize 0%nat at 1.
    induction (length (shards m)) as [|len IH]; intros i; cbn; [done|]. destruct (shards m !! _) as [sh|]; [|done].
    destruct (heads m !! sh); [by intros [= _ <-]|apply IH].
Qed.

(** When nothing is ready, the holds of all heads have begun and the wait ends
    with the first of them. *)
Lemma hold_ends m now hold m' :
  heads m ≠ ∅ → heads_known m → 0 < alignTimeout (opts m) → held_before now m → choose now m = (None, hold, m') →
  0 < hold ≤ alignTimeout (opts m) ∧ (∀ sh u, heads m !! sh = Some u → ∃ t, heldSince m' !! sh = Some t ∧ t ≤ now) ∧
  ∀ now', now + hold ≤ now' → ∃ v k m2, choose now' m' = (Some v, k, m2).
Proof.
  intros Hne Hin Hto Hpast. apply map_choose in Hne as (sh0 & u0 & Hh0). pose proof (Hin _ _ Hh0) as Hs0.
  assert (heads m ≠ ∅) as Hne by (intros E; by rewrite E, lookup_empty in Hh0).
  unfold choose. rewrite decide_False by done. destruct (wallClockAlign (opts m)) eqn:Ew; cbn [negb].
  2:{ intros H. exfalso. apply list_elem_of_lookup in Hs0 as [j Hj]. pose proof (lookup_lt_Some _ _ _ Hj) as Hlt.
      set (n := length (shards m)) in *.
      assert (is_Some (rotate m 0 n)) as [[v m1] Hr]; [|by rewrite Hr in H].
      apply (rotate_finds m 0 n ((j + n - next m mod n) mod n)).
      - split; [lia|]. apply Nat.mod_upper_bound. lia.
      - exists sh0, u0. split; [|done]. fold n. rewrite Nat.Div0.add_mod_idemp_r.
        pose proof (Nat.mod_upper_bound (next m) n ltac:(lia)). rewrite <- Nat.Div0.add_mod_idemp_l.
        replace (next m mod n + (j + n - next m mod n))%nat with (j + 1 * n)%nat by lia. rewrite Nat.Div0.mod_add.
        by rewrite Nat.mod_small. }
  set (s0 := mkScan None 0 (heldSince m)). destruct (alignLoop m now (floors m) s0 (shards m)) as [[[sh v] held]|s] eqn:El.
  { done. }
  destruct (s_pick s) as [[sh v]|] eqn:Ep; [done|]. intros [= <- <-].
  destruct (alignLoop_none _ _ _ _ _ _ El Ep) as (_ & B & C & D). cbn [s_wait s_held s0] in *.
  destruct (D ltac:(lia)) as [[D1 _]|[D1 D2]]; [by rewrite (D1 sh0 Hs0) in Hh0|].
  destruct D2 as [D2|(sh & v & Hsh & Hv & D2)]; [lia|]. destruct (C sh v Hsh Hv) as [C1 [t Ht]].
  assert (∀ sh t, s_held s !! sh = Some t → t ≤ now) as Hold.
  { intros sh1 t1 Ht1. destruct (alignLoop_held _ _ _ _ _ _ El _ _ Ht1) as [H'| ->]; [by eapply Hpast|lia]. }
  pose proof (Hold sh t Ht) as Htn. unfold remaining in D2. rewrite Ht in D2. cbn in D2. split; [lia|]. split.
  { intros sh1 u1 Hu1. destruct (C sh1 u1 (Hin _ _ Hu1) Hu1) as [_ [t1 Ht1]]. exists t1. split; [done|eauto]. }
  intros now' Hnow'.
  cbn [heads set_heldSince opts shards]. rewrite decide_False by done. rewrite Ew. cbn [negb].
  match goal with |- context [alignLoop ?mm ?n ?f ?ss ?l] => destruct (alignLoop mm n f ss l) as [[[sh1 v1] held1]|s1] eqn:El1 end; [by eauto|].
  destruct (s_pick s1) as [[sh1 v1]|] eqn:Ep1; [by eauto|]. exfalso.
  destruct (alignLoop_none _ _ _ _ _ _ El1 Ep1) as (_ & B1 & C1' & _). cbn [s_held] in *.
  destruct (C1' sh v Hsh Hv) as [Hrem _]. unfold remaining in Hrem. rewrite B1 in Hrem by (cbn; by eexists). cbn in Hrem. rewrite Ht in Hrem. cbn in Hrem. lia.
Qed.

(** C24. The merger never sits on a unit without a deadline, and never passes over
    one whose hold is over.  With a positive timeout, a clock that does not go
    back, and [u] at the head of one of the merger's shards: if it may be sent,
    because no other shard is behind it by more than the skew or because it was
    held for the timeout, a unit is sent now, and with alignment that is one
    that needs no alignment or one that may itself be sent and committed no later
    than [u]; as long as [u] stays, its hold began when it did; and when nothing
    is sent, the hold of [u] has begun, the merger waits for a time that is
    positive and at most the timeout, and a unit is sent when that has passed,
    whatever the other shards' clocks say. *)
Theorem never_stalls m now r hold m' sh u :
  heads_known m → 0 < alignTimeout (opts m) → held_before now m → heads m !! sh = Some u → choose now m = (r, hold, m') →
  (ready now m sh u → ∃ v, r = Some v ∧ (wallClockAlign (opts m) = true →
     urgent v = true ∨ commitTS v ≤ commitTS u ∧ ∃ sh', heads m !! sh' = Some v ∧ ready now m sh' v)) ∧
  (∀ t, heldSince m !! sh = Some t → heads m' !! sh = Some u → heldSince m' !! sh = Some t) ∧
  (r = None → 0 < hold ≤ alignTimeout (opts m) ∧ (∃ t, heldSince m' !! sh = Some t ∧ t ≤ now) ∧
     ∀ now', now + hold ≤ now' → ∃ v k m2, choose now' m' = (Some v, k, m2)).
Proof.
  intros Hin Hto Hpast Hu Hch. assert (heads m ≠ ∅) as Hne by (intros E; by rewrite E, lookup_empty in Hu).
  assert (r = None → 0 < hold ≤ alignTimeout (opts m) ∧ (∃ t, heldSince m' !! sh = Some t ∧ t ≤ now) ∧
     ∀ now', now + hold ≤ now' → ∃ v k m2, choose now' m' = (Some v, k, m2)) as Hnone.
  { intros ->. destruct (hold_ends _ _ _ _ Hne Hin Hto Hpast Hch) as (? & ? & ?). eauto. }
  split; [|split; [|exact Hnone]]; revert Hch; unfold choose; rewrite decide_False by done;
    (destruct (wallClockAlign (opts m)) eqn:Ew; cbn [negb];
     [pose proof (alignLoop_spec m now (shards m) (mkScan None 0 (heldSince m))) as Hl;
      destruct (alignLoop m now (floors m) (mkScan None 0 (heldSince m)) (shards m)) as [[[sh1 v1] held]|s]|]).
  - intros [= <- <- <-] _. exists v1. split; [done|]. intros _. left. by destruct Hl as (_ & ? & _).
  - destruct Hl as (_ & B & _ & D). cbn [s_held s_pick] in *. intros Hs Hr. destruct (B sh u (Hin _ _ Hu) Hu Hr) as (sh1 & v & E & Hle). rewrite E in Hs.
    simplify_eq. exists v. split; [done|]. intros _. right. split; [done|]. destruct (D ltac:(by left) Hto sh1 v E) as [?|?]; [done|by exists sh1].
  - intros Hch _. destruct r as [v|]; [by exists v|]. exfalso. destruct (Hnone eq_refl) as ([Hh _] & _). destruct (rotate _ _ _) as [[]|]; simplify_eq.
  - intros [= <- <- <-] t Ht Hm'. cbn in *. destruct Hl as (_ & _ & C). assert (sh1 ≠ sh) as Hne' by (intros ->; by rewrite lookup_delete_eq in Hm').
    rewrite lookup_delete_ne by done. auto.
  - destruct Hl as (_ & _ & C & _). cbn [s_held s_pick] in *. destruct (s_pick s) as [[sh1 v]|]; intros [= <- <- <-] t Ht Hm'; cbn in *; [|auto].
    assert (sh1 ≠ sh) as Hne' by (intros ->; by rewrite lookup_delete_eq in Hm'). rewrite lookup_delete_ne by done. auto.
  - intros Hch t Ht _. assert (∀ i n v m1, rotate m i n = Some (v, m1) → heldSince m1 = heldSince m) as Hrot.
    { intros i n. revert i. induction n as [|n IH]; intros i v m1; cbn; [done|]. repeat case_match; try done; first [by intros [= _ <-]|by apply IH]. }
    destruct (rotate m 0 (length (shards m))) as [[v m1]|] eqn:Er; simplify_eq; [by rewrite (Hrot _ _ _ _ Er)|done].
Qed.
