(* ===== verification/VStreamRel.v ===== *)
(** * Relations in a merged change stream

    A consumer has seen the current description of a table before each of its
    rows, as long as quoted names do not make two tables share a key; and what
    happens when they do. *)

From S2P Require Import Prelude VStream VStreamMerge VStreamAcks.

Local Open Scope Z_scope.

(** What a consumer knows of tables from the events it received. *)
Abbreviation known_tables := (gmap (string * string) (string * list Column)) (only parsing).
Definition learn (k : known_tables) (e : VEvent) : known_tables :=
  match e with VRelation s t i cs => <[(s, t) := (i, cs)]> k | _ => k end.
Definition knows (es : list VEvent) : known_tables := foldl learn ∅ es.
Definition name (r : relMeta) : string * string := (schema r, table r).
Definition told (es : list VEvent) (r : relMeta) : Prop := knows es !! name r = Some (identity r, columns r).

Lemma knows_app es es' : knows (es ++ es') = foldl learn (knows es) es'.
Proof. apply foldl_app. Qed.

Definition is_relation (e : VEvent) : bool := match e with VRelation _ _ _ _ => true | _ => false end.
Lemma knows_other es e : is_relation e = false → knows (es ++ [e]) = knows es.
Proof. rewrite knows_app. by destruct e. Qed.
Lemma knows_rel es r : knows (es ++ [rel_event r]) = <[name r := (identity r, columns r)]> (knows es).
Proof. by rewrite knows_app. Qed.

Section Relations.
(** The relations of the stream: a key names one table, and a signature one
    description of it. *)
Variable U : relMeta → Prop.
Hypothesis U_key : ∀ r r', U r → U r' → relKey r = relKey r' → name r = name r'.
Hypothesis U_sig : ∀ r r', U r → U r' → relKey r = relKey r' → signature r = signature r' →
  identity r = identity r' ∧ columns r = columns r'.
Hypothesis U_signed : ∀ r, U r → signature r ≠ "".

(** What was noted as sent the consumer has. *)
Definition noted_told (w : world) : Prop :=
  ∀ k s, sentRel (mg w) !! k = Some s → ∃ r, U r ∧ relKey r = k ∧ signature r = s ∧ told (sent w) r.

Lemma name_key r r' : name r = name r' → relKey r = relKey r'.
Proof. unfold name, relKey. by intros [= -> ->]. Qed.

Lemma send_other e w w' r :
  send e w = (w', r) → is_relation e = false → noted_told w → noted_told w' ∧ knows (sent w') = knows (sent w).
Proof.
  intros H He Hn. destruct (send_sends _ _ _ _ H) as (ext & [S1 S2 S3 S4] & Hext).
  assert (sentRel (mg w') = sentRel (mg w)) as Er by (unfold send in H; by destruct (oracle w) as [|[] ?]; injection H as <- <-).
  assert (knows (sent w') = knows (sent w)) as Ek.
  { rewrite S1. destruct Hext as [[_ ->]|[_ ->]]; [by apply knows_other|by rewrite app_nil_r]. }
  split; [|done]. intros k s. rewrite Er. intros (x & ? & ? & ? & Ht)%Hn. exists x. split_and!; try done. unfold told. by rewrite Ek.
Qed.

(** Only relations are sent between an event and the one before. *)
Lemma emitRels_told rs w w' :
  emitRels rs w = (w', Some ()) → noted_told w → (∀ r, r ∈ rs → U r) → NoDup (relKey <$> rs) →
  noted_told w' ∧ (∃ ext, sent w' = sent w ++ ext) ∧ (∀ r, r ∈ rs → told (sent w') r) ∧
  (∀ x, U x → relKey x ∉ relKey <$> rs → told (sent w) x → told (sent w') x).
Proof.
  revert w; induction rs as [|r rs IH]; intros w; cbn [emitRels].
  { intros [= <-] Hn _ _. split_and!; [done|exists []; by rewrite app_nil_r|by intros ? ?%not_elem_of_nil|done]. }
  intros [(w1 & m & [= <- <-] & H)|[H _]]%bind_inv Hn HU Hnd; [|done].
  rewrite fmap_cons in Hnd. apply NoDup_cons in Hnd as [Hnew Hnd].
  assert (U r) as Ur by (apply HU; by left).
  apply bind_inv in H as [(w2 & [] & H2 & H)|[_ ?]]; [|done].
  assert (noted_told w2 ∧ (∃ ext, sent w2 = sent w ++ ext) ∧ told (sent w2) r ∧
          (∀ x, U x → relKey x ≠ relKey r → told (sent w) x → told (sent w2) x)) as (N2 & [e2 E2] & T2 & O2).
  { destruct (decide _) as [Hne|Heq].
    - apply bind_inv in H2 as [(w3 & [] & H3 & H2)|[_ ?]]; [|done]. injection H2 as <-.
      destruct (send_sends _ _ _ _ H3) as (ext & [S1 S2 S3 S4] & [[_ ->]|[? _]]); [|done]. cbn [sent mg].
      assert (∀ x, U x → relKey x ≠ relKey r → told (sent w) x → told (sent w3) x) as Ho.
      { intros x Ux Hk Ht. unfold told in *. rewrite S1, knows_rel, lookup_insert_ne; [done|]. intros E. by apply Hk, name_key. }
      split_and!; [|by eexists| |done].
      + intros k s. cbn. rewrite lookup_insert_Some. intros [[<- <-]|[Hk Hs]].
        * exists r. split_and!; try done. unfold told. by rewrite S1, knows_rel, lookup_insert_eq.
        * assert (sentRel (mg w3) = sentRel (mg w)) as Er by (unfold send in H3; by destruct (oracle w) as [|[] ?]; injection H3 as <-).
          rewrite Er in Hs. destruct (Hn k s Hs) as (x & Ux & <- & ? & Ht). exists x. split_and!; try done. by apply Ho.
      + unfold told. by rewrite S1, knows_rel, lookup_insert_eq.
    - injection H2 as <-. apply dec_stable in Heq. split_and!; [done|exists []; by rewrite app_nil_r| |done].
      destruct (sentRel (mg w) !! relKey r) as [s|] eqn:Es; cbn in Heq; [|by destruct (U_signed r Ur)].
      destruct (Hn _ _ Es) as (x & Ux & Hk & Hs & Ht). destruct (U_sig x r Ux Ur Hk) as [Ei Ec]; [congruence|].
      unfold told in *. rewrite <- (U_key x r Ux Ur Hk), <- Ei, <- Ec. done. }
  destruct (IH _ H N2) as (N3 & [e3 E3] & T3 & O3); [intros x Hx; apply HU; by right|done|].
  split_and!; [done|exists (e2 ++ e3); by rewrite E3, E2, app_assoc| |].
  - intros x [->|Hx]%elem_of_cons; [|by apply T3]. by apply O3.
  - intros x Ux Hk Ht. rewrite fmap_cons in Hk. apply not_elem_of_cons in Hk as [Hk1 Hk2]. by apply O3, O2.
Qed.

Definition rels_ok (u : Unit) : Prop := ∀ rs, rs ∈ rels u → (∀ r, r ∈ rs → U r) ∧ NoDup (relKey <$> rs).

(** The events of a unit on the wire: before each, the relations sent for it,
    after which the consumer knows every table it names. *)
Inductive described : list VEvent → list VEvent → list (list relMeta) → list VEvent → Prop :=
| described_nil es0 : described es0 [] [] []
| described_cons es0 e es rs rss pre ext :
    (∀ r, r ∈ rs → told (es0 ++ pre) r) → described (es0 ++ pre ++ [e]) es rss ext →
    described es0 (e :: es) (rs :: rss) (pre ++ e :: ext).

Lemma emitEvents_described es rss w w' :
  length rss = length es → forallb payload es = true → (∀ rs, rs ∈ rss → (∀ r, r ∈ rs → U r) ∧ NoDup (relKey <$> rs)) →
  noted_told w → emitEvents es rss w = (w', Some ()) →
  noted_told w' ∧ ∃ ext, sent w' = sent w ++ ext ∧ described (sent w) es rss ext.
Proof.
  revert rss w; induction es as [|e es IH]; intros [|rs rss] w Hlen Hp HU Hn; cbn [emitEvents]; try done.
  { intros [= <-]. split; [done|]. exists []. split; [by rewrite app_nil_r|constructor]. }
  injection Hlen as Hlen. apply andb_true_iff in Hp as [Hp1 Hp].
  intros [(w1 & [] & H1 & H)|[_ ?]]%bind_inv; [|done]. apply bind_inv in H as [(w2 & [] & H2 & H)|[_ ?]]; [|done].
  destruct (HU rs) as [HU1 HU2]; [by left|]. destruct (emitRels_told _ _ _ H1 Hn HU1 HU2) as (N1 & [pre E1] & T1 & _).
  assert (is_relation e = false) as He by (by destruct e).
  destruct (send_other _ _ _ _ H2 He N1) as [N2 K2].
  destruct (send_sends _ _ _ _ H2) as (? & [S1 _ _ _] & [[_ ->]|[? _]]); [|done].
  destruct (IH rss w2 Hlen Hp) as (N3 & ext & E3 & D3); [intros x Hx; apply HU; by right|done|done|].
  split; [done|]. exists (pre ++ e :: ext). rewrite E3, S1, E1. split; [by rewrite <- !app_assoc|].
  constructor; [intros r Hr; rewrite <- E1; by apply T1|]. rewrite app_assoc, <- E1, <- S1. done.
Qed.

Lemma noted_sentRel u m : sentRel (noted u m) = sentRel m.
Proof. unfold noted, noteCopyDone, notePosition, noteCopy, noteCommit. by repeat case_match. Qed.

Lemma noted_told_same w w' :
  noted_told w → sentRel (mg w') = sentRel (mg w) → sent w' = sent w → noted_told w'.
Proof. intros Hn E1 E2 k s. rewrite E1, E2. apply Hn. Qed.

Lemma emit_described sh u w w' :
  unit_ok sh u → rels_ok u → noted_told w → emit u w = (w', Some ()) →
  noted_told w' ∧ ∃ ext rest, sent w' = sent w ++ ext ++ rest ∧ described (sent w) (events u) (rels u) ext.
Proof.
  intros [_ Hp Hl _] HU Hn H. unfold emit in H. apply bind_inv in H as [(w1 & [] & H1 & H)|[_ ?]]; [|done].
  destruct (emitEvents_described _ _ _ _ Hl Hp HU Hn H1) as (N1 & ext & E1 & D1).
  set (w2 := mkWorld (noted u (mg w1)) (sent w1) (acked w1) (delivered w1 ++ [u]) (oracle w1)).
  assert (noted_told w2) as N2 by (eapply noted_told_same; [exact N1|apply noted_sentRel|done]).
  assert (noted_told w' ∧ ∃ rest, sent w' = sent w2 ++ rest) as [N3 [rest E3]].
  { unfold mbind, M_bind, deliver, modify in H. cbn [mg sent acked delivered oracle] in H.
    change (noteCopyDone u (notePosition u (noteCopy u (noteCommit u (mg w1))))) with (noted u (mg w1)) in H. fold w2 in H.
    destruct (silent u). { injection H as <-. split; [done|]. exists []. by rewrite app_nil_r. }
    unfold get in H. destruct (send (VGtid (vector (mg w2))) w2) as [w3 [[]|]] eqn:E3; [|done].
    destruct (send_other _ _ _ _ E3 eq_refl N2) as [N3 _]. destruct (send_sends _ _ _ _ E3) as (e3 & [S3 _ _ _] & _).
    destruct (copyDone u && _); [|injection H as <-; eauto].
    destruct (send_other _ _ _ _ H eq_refl N3) as [N4 _]. destruct (send_sends _ _ _ _ H) as (e4 & [S4 _ _ _] & _).
    split; [done|]. exists (e3 ++ e4). by rewrite S4, S3, app_assoc. }
  split; [done|]. exists ext, rest. rewrite E3. cbn. by rewrite E1, <- app_assoc.
Qed.

Lemma rotate_sentRel m i n u m' : rotate m i n = Some (u, m') → sentRel m' = sentRel m.
Proof.
  revert i; induction n as [|n IH]; intros i; cbn; [done|]. destruct (shards m !! _) as [sh|]; [|done].
  destruct (heads m !! sh); [by intros [= _ <-]|apply IH].
Qed.

Lemma turn_told shs arr w o w' r :
  inv shs arr w true → (∀ sh u, u ∈ arr sh → rels_ok u) → noted_told w → turn o w = (w', Some r) →
  r = Ended ∨ noted_told w'.
Proof.
  intros Hinv HU Hn H. unfold turn in H. apply bind_inv in H as [(w0 & m & [= <- <-] & H)|[_ ?]]; [|done].
  destruct (_ && _).
  { apply bind_inv in H as [(w1 & [] & _ & H)|[_ ?]]; [|done]. injection H as <- <-. by left. }
  apply bind_inv in H as [(w1 & [] & [= <-] & H)|[_ ?]]; [|done].
  assert (inv shs arr (with_mg w (set_generation (mg w) (topo_generation o))) true) as I1 by (apply inv_queues; auto).
  change (mkWorld _ _ _ _ _) with (with_mg w (set_generation (mg w) (topo_generation o))) in H.
  assert (noted_told (with_mg w (set_generation (mg w) (topo_generation o)))) as N1 by (by eapply noted_told_same).
  revert I1 N1 H. generalize (with_mg w (set_generation (mg w) (topo_generation o))). clear w Hinv Hn. intros w Hinv Hn H.
  destruct (drainAcks_spec (pending o) w) as (w1 & E1 & A1). unfold mbind at 1, M_bind at 1 in H. rewrite E1 in H.
  assert (noted_told w1) as N1 by (eapply noted_told_same; [exact Hn|by rewrite (ao_mg _ _ A1)|apply A1]).
  apply (inv_acks _ _ _ _ _ Hinv) in A1. clear E1 Hinv Hn w.
  apply bind_inv in H as [(w2 & [] & [= <-] & H)|[_ ?]]; [|done].
  destruct (fills_spec (shards (mg w1)) (mg w1)) as (F1 & F2 & F3 & F4). fold (fill (mg w1)) in *.
  pose proof (inv_queues _ _ _ _ _ A1 F1 F2 F3 F4) as I2.
  change (mkWorld _ _ _ _ _) with (with_mg w1 (fill (mg w1))) in H.
  assert (noted_told (with_mg w1 (fill (mg w1)))) as N2.
  { eapply noted_told_same; [exact N1| |done]. cbn. clear. unfold fill. generalize (shards (mg w1)). intros l. generalize (mg w1). clear w1.
    induction l as [|sh l IH]; intros m; cbn; [done|]. rewrite IH. unfold fillOne. by repeat case_match. }
  clear F1 F2 F3 F4 A1 N1. revert I2 N2 H. generalize (with_mg w1 (fill (mg w1))). clear w1.
  intros w Hinv Hn H. apply bind_inv in H as [(w0 & m & [= <- <-] & H)|[_ ?]]; [|done].
  destruct (choose (now o) (mg w)) as [[u hold] m'] eqn:Ec. pose proof (choose_spec _ _ _ _ _ Ec) as Hc.
  assert (sentRel m' = sentRel (mg w)) as Es.
  { clear -Ec. revert Ec. unfold choose. destruct (decide _); [by intros [= <- <- <-]|]. destruct (negb _).
    - destruct (rotate _ _ _) as [[v m1]|] eqn:Er; intros [= <- <- <-]; [|done]. by eapply rotate_sentRel.
    - destruct (alignLoop _ _ _ _ _) as [[[sh v] held]|s]; [by intros [= <- <- <-]|]. destruct (s_pick s) as [[sh v]|]; by intros [= <- <- <-]. }
  apply bind_inv in H as [(w1 & [] & [= <-] & H)|[_ ?]]; [|done].
  change (mkWorld _ _ _ _ _) with (with_mg w m') in H.
  assert (noted_told (with_mg w m')) as N3 by (by eapply noted_told_same). destruct u as [u|]; [|injection H as <- <-; by right].
  pose proof Hc as (sh & Hh & _). pose proof (heads_shard _ _ _ _ _ _ Hinv Hh) as Hu.
  destruct (u_err u); [apply bind_inv in H as [(w1 & [] & _ & H)|[_ ?]]; [|done]; injection H as <- <-; by left|].
  apply bind_inv in H as [(w1 & [] & H1 & H)|[_ ?]]; [|done]. injection H as <- <-. right.
  eapply (emit_described sh u); [done| |exact N3|exact H1]. apply (HU sh).
  destruct (in_order _ _ _ _ Hinv sh) as [_ Ho]; [by eapply in_heads|]. rewrite <- (Ho eq_refl). apply elem_of_app. right.
  unfold waiting. rewrite Hh. by left.
Qed.

Lemma run_told shs as_ arr s :
  Forall (action_ok shs) as_ → inv shs arr s.1 s.2 → (∀ sh u, u ∈ arr sh ++ arrivals as_ sh → rels_ok u) →
  (s.2 = true → noted_told s.1) → (run as_ s).2 = true → noted_told (run as_ s).1.
Proof.
  revert arr s; induction as_ as [|a as_ IH]; intros arr s Has Hinv HU Hn; cbn; [done|].
  apply Forall_cons in Has as [Ha Has]. apply (IH (grow arr a) (act a s)); [done|by apply inv_act| |].
  - intros sh u Hu. apply (HU sh). revert Hu. unfold grow. destruct a as [sh' u'| | |]; cbn; try done.
    destruct (decide (sh' = sh)); cbn; [|done]. by rewrite <- app_assoc.
  - destruct s as [w live]. cbn [fst snd] in *. destruct a as [sh u|o|pos|]; cbn [act].
    + intros Hl. by eapply noted_told_same; [apply Hn|..].
    + destruct live; [|done]. destruct (turn o w) as [w' [v|]] eqn:E; [|done].
      assert (v = Ended ∨ noted_told w') as [->|Hw]; [|done|destruct v; done].
      eapply turn_told; [exact Hinv| |by apply Hn|exact E]. intros sh u Hu. apply (HU sh). apply elem_of_app. by left.
    + destruct live; [|done]. destruct (forwardAck_spec (vp_shards pos) w) as (w' & E & A). unfold wait_ack. rewrite E. cbn.
      intros _. eapply noted_told_same; [by apply Hn|by rewrite (ao_mg _ _ A)|apply A].
    + destruct live; [|done]. unfold wait_heartbeat, mbind, M_bind, get. destruct (send (VHeartbeat (vector (mg w))) w) as [w' r] eqn:E.
      destruct (send_other _ _ _ _ E eq_refl (Hn eq_refl)) as [Hw _]. by destruct r.
Qed.

(** A consumer knows every table before it gets a change of it: at any
    point of a stream, when a unit goes out, each of its events is preceded by
    what describes its tables as they were when the change was decoded, even
    if another shard's transactions described them differently in between. *)
Theorem relations_before_changes shs set gen fp o pos cp orc as_ w sh u w' :
  Forall (action_ok shs) as_ → (∀ sh u, u ∈ arrivals as_ sh → rels_ok u) →
  run as_ (start (open_merger shs set gen fp o pos cp) orc) = (w, true) →
  unit_ok sh u → rels_ok u → emit u w = (w', Some ()) →
  ∃ ext rest, sent w' = sent w ++ ext ++ rest ∧ described (sent w) (events u) (rels u) ext.
Proof.
  intros Hok HU Hrun Hu Hr He.
  pose proof (run_told shs as_ (λ _, []) _ Hok (inv_open shs set gen fp o pos cp orc) HU) as H.
  rewrite Hrun in H. destruct (emit_described sh u w w' Hu Hr) as [_ H']; [|done..].
  apply H; [|done]. intros _ k s. cbn. by rewrite lookup_empty.
Qed.

End Relations.

(** ** Names that share a key *)

Module Example.

Definition sh0 : Shard := mkShard "default" 0.
Definition meta (s t : string) : relMeta := relMetaOf (mkRelation s t "d" [mkColumn "id" 23 (-1) true]).
Definition row_of (r : relMeta) : VEvent := VRow sh0 (schema r) (table r) KIND_INSERT None false (Some []) false.
Definition one_row (r : relMeta) (end_ : Z) : Unit :=
  mkUnit sh0 [VBegin sh0 1 1 ""; row_of r; VCommit sh0 end_ end_] [[]; [r]; []] [0; 1; 0] end_ 1 true None false None.
Definition plain : options := resolveOptions (mkVStreamOptions false false 0 false 0 0 false 0).
Definition opened : merger := open_merger [sh0] "default" 1 1 plain ∅ ∅.
Definition look : outside := mkOutside 0 1 1 [] None.
(** A row of table [b.c] of schema [a] after one of table [c] of schema
    [a.b], with the same columns. *)
Definition t1 : relMeta := meta "a.b" "c".
Definition t2 : relMeta := meta "a" "b.c".
Definition dotted : list action := [Arrive sh0 (one_row t1 10); Arrive sh0 (one_row t2 20); Turn look; Turn look].

End Example.
Import Example.

(** Two tables can share the key under which relations are noted as sent:
    schema [a.b] table [c] and schema [a] table [b.c].  With the same columns
    the second is never described, and the consumer gets rows of a table it
    has not been told of. *)
Theorem dotted_names_share_a_relation :
  let s := run dotted (start opened []) in
  s.2 = true ∧ name t1 ≠ name t2 ∧ sent s.1 !! 6%nat = Some (row_of t2) ∧ knows (sent s.1) !! name t2 = None.
Proof.
  split; [vm_compute; reflexivity|]. split; [unfold name; vm_compute; discriminate|].
  split; [vm_compute; reflexivity|vm_compute; reflexivity].
Qed.
