(* ===== verification/VStreamServer.v ===== *)
(** * Change streams: the server's acknowledgements and the initial copy
      ([src/internal/router/vstream/server.go], [copy.go])

    Streams open on a router, the unary acknowledgement, the goroutines that
    forward acknowledgements to the poolers, and a shard's copy phase. *)

From S2P Require Import Prelude VStream VStreamMerge VStreamAcks VStreamAlign VStreamRel.

Local Open Scope Z_scope.

(** ** Positions *)

Definition positionFrom (pos : VPosition) : gmap Shard Z := foldl (λ m p, <[p.1 := p.2]> m) ∅ (vp_shards pos).
Definition copyStateFrom (pos : VPosition) : gmap Shard VCopyState := foldl (λ m st, <[cs_shard st := st]> m) ∅ (vp_copy pos).
(** Whether a saved position was taken on another shard set. *)
Definition stale (pos : VPosition) (gen fp : Z) : bool :=
  if negb (vp_fingerprint pos =? 0) then negb (vp_fingerprint pos =? fp)
  else negb (vp_generation pos =? 0) && negb (vp_generation pos =? gen).

(** ** Open streams *)

(** Open streams by name, oldest first; a stream is named by an identifier. *)
Definition registry : Type := gmap string (list nat).
Definition registerLive (r : registry) (name : string) (e : nat) : registry := <[name := default [] (r !! name) ++ [e]]> r.
Fixpoint removeFirst (e : nat) (l : list nat) : list nat :=
  match l with [] => [] | x :: l => if decide (x = e) then l else x :: removeFirst e l end.
Definition unregister (r : registry) (name : string) (e : nat) : registry :=
  match removeFirst e (default [] (r !! name)) with [] => delete name r | q => <[name := q]> r end.
Definition liveStream (r : registry) (name : string) : option nat := r !! name ≫= head.

(** ** The unary acknowledgement *)

(** One shard of [Ack]: what it forwards, from the position it read and then
    the flag. *)
Definition ackShardLSN (delivered : option Z) (copying : bool) (lsn : Z) : option Z :=
  match delivered with
  | None => None
  | Some d =>
      if copying then None
      else let lsn := if d <? lsn then d else lsn in if lsn =? 0 then None else Some lsn
  end.

(** The stores the merger makes to what [Ack] reads, in its order. *)
Inductive store := Copying (sh : Shard) (c : bool) | Advance (sh : Shard) (lsn : Z).
Definition stores (u : Unit) (m : merger) : list store :=
  (match u_copy u with Some _ => [Copying (u_shard u) true] | None => [] end) ++
  (if position u && (default 0 (position_ m !! u_shard u) <? endLSN u) then [Advance (u_shard u) (endLSN u)] else []) ++
  (if copyDone u then [Copying (u_shard u) false] else []).
Definition store_step (e : Emitted) (s : store) : Emitted :=
  match s with Copying sh c => setCopying e sh c | Advance sh lsn => advance e sh lsn end.

(** ** Forwarding acknowledgements *)

Inductive lpc := LWait | LRead | LAck (lsn : Z).
Record loop := mkLoop { want : Z; wake : bool; done_ : Z; pc : lpc }.
(** One goroutine per shard, and the merger's call to [request] that has
    released the lock and not yet sent on the channel. *)
Record ackers := mkAckers { loops : gmap Shard loop; ringing : option Shard }.
Definition newAckers : ackers := mkAckers ∅ None.

Definition set_loop (a : ackers) (sh : Shard) (l : loop) : ackers := mkAckers (<[sh := l]> (loops a)) (ringing a).
Definition wanted (a : ackers) (sh : Shard) : Z := from_option want 0 (loops a !! sh).
(** The critical section of [request]. *)
Definition request (a : ackers) (sh : Shard) (lsn : Z) : ackers :=
  if lsn <=? wanted a sh then a
  else
    let l := default (mkLoop 0 false 0 LWait) (loops a !! sh) in
    mkAckers (<[sh := mkLoop lsn (wake l) (done_ l) (pc l)]> (loops a)) (Some sh).

Inductive acker_step : ackers → ackers → Prop :=
| ak_request a sh lsn : ringing a = None → acker_step a (request a sh lsn)
| ak_ring a sh l :
    ringing a = Some sh → loops a !! sh = Some l →
    acker_step a (mkAckers (<[sh := mkLoop (want l) true (done_ l) (pc l)]> (loops a)) None)
| ak_woken a sh l :
    loops a !! sh = Some l → pc l = LWait → wake l = true → acker_step a (set_loop a sh (mkLoop (want l) false (done_ l) LRead))
| ak_nothing a sh l :
    loops a !! sh = Some l → pc l = LRead → want l ≤ done_ l → acker_step a (set_loop a sh (mkLoop (want l) (wake l) (done_ l) LWait))
| ak_asks a sh l :
    loops a !! sh = Some l → pc l = LRead → done_ l < want l →
    acker_step a (set_loop a sh (mkLoop (want l) (wake l) (done_ l) (LAck (want l))))
| ak_confirmed a sh l lsn :
    loops a !! sh = Some l → pc l = LAck lsn → acker_step a (set_loop a sh (mkLoop (want l) (wake l) lsn LRead)).
(** The pooler fails, or confirms less than it was asked. *)
Inductive acker_short : ackers → ackers → Prop :=
| ak_failed a sh l lsn :
    loops a !! sh = Some l → pc l = LAck lsn → acker_short a (set_loop a sh (mkLoop (want l) (wake l) (done_ l) LWait))
| ak_less a sh l lsn c :
    loops a !! sh = Some l → pc l = LAck lsn → c < lsn → acker_short a (set_loop a sh (mkLoop (want l) (wake l) c LWait)).

(** Every goroutine waits and nothing is on its way. *)
Definition rests (l : loop) : bool := match pc l with LWait => negb (wake l) | _ => false end.
Definition at_rest (a : ackers) : bool :=
  match ringing a with None => forallb (λ x, rests x.2) (map_to_list (loops a)) | Some _ => false end.

(** ** The copy phase *)

Record copyPhase := mkCopyPhase { cp_done : list string; cp_current : option CopyTable; cp_batch : Z; keyless : bool }.
Definition copyPhaseFrom (st : option VCopyState) (batch : Z) : copyPhase :=
  match st with
  | None => mkCopyPhase [] None batch false
  | Some st => mkCopyPhase (cs_done st) (cs_current st) batch false
  end.
Definition copyState (p : copyPhase) (sh : Shard) : VCopyState := mkVCopyState sh (cp_current p) (cp_done p).
Record CopyTablesRequest := mkCopyRequest { done_tables : list string; resume : option CopyTable; batch_rows : Z }.
Definition copyRequest (p : copyPhase) : CopyTablesRequest :=
  mkCopyRequest (cp_done p)
    (match cp_current p with Some c => match lastpk c with [] => None | _ => Some c end | None => None end) (cp_batch p).
Definition tableName (schema table : string) : string := (schema +:+ "." +:+ table)%string.
Definition isDone (p : copyPhase) (schema table : string) : bool := bool_decide (tableName schema table ∈ cp_done p).

Inductive CopyMessage :=
| Snapshot (consistent_point : Z)
| TableBegin (r : Relation) (by_ctid : bool)
| Rows (rows : list (list Value)) (pk : bytes)
| TableDone (schema table : string)
| CopyDone
| CopyUnknown.
Inductive copy_err := NoConsistentPoint | ResentTable (name : string) | RowsBeforeTable | UnhandledMessage.

(** A reader in its copy: the phase, the relation of the table in progress,
    the position delivered. *)
Record copyReader := mkCopyReader { cr_shard : Shard; cr_phase : copyPhase; cr_rel : option relMeta; cr_delivered : Z }.
Definition copy_unit (r : copyReader) (p : copyPhase) (es : list VEvent) (rss : list (list relMeta)) : Unit :=
  mkUnit (cr_shard r) es rss (replicate (length es) 0) 0 0 false (Some (copyState p (cr_shard r))) false None.
Definition copy_row (r : copyReader) (rel : relMeta) (row : list Value) : VEvent :=
  VRow (cr_shard r) (schema rel) (table rel) KIND_INSERT None false (Some (tuple row [])) true.

(** One message of [copyOnce]: the reader after it and the unit pushed. *)
Definition copyOne (r : copyReader) (msg : CopyMessage) : (copyReader * Unit) + copy_err :=
  let p := cr_phase r in
  match msg with
  | Snapshot point =>
      if point =? 0 then inr NoConsistentPoint
      else
        let u := copy_unit r p [] [] in
        if cr_delivered r =? 0
        then inl (mkCopyReader (cr_shard r) p (cr_rel r) point,
                  mkUnit (u_shard u) [] [] [] point 0 true (u_copy u) false None)
        else inl (r, u)
  | TableBegin rel0 by_ctid =>
      if isDone p (r_schema rel0) (r_table rel0) then inr (ResentTable (tableName (r_schema rel0) (r_table rel0)))
      else
        let rel := relMetaOf rel0 in
        let fresh := mkCopyTable (schema rel) (table rel) [] in
        let cur := match cp_current p with
                   | Some c => if bool_decide (ct_schema c = schema rel) && bool_decide (ct_table c = table rel) then c else fresh
                   | None => fresh
                   end in
        let cur := if by_ctid then mkCopyTable (ct_schema cur) (ct_table cur) [] else cur in
        let p := mkCopyPhase (cp_done p) (Some cur) (cp_batch p) by_ctid in
        inl (mkCopyReader (cr_shard r) p (Some rel) (cr_delivered r),
             copy_unit r p [VCopyBegin (cr_shard r) (schema rel) (table rel)] [[]])
  | Rows rows pk =>
      match cr_rel r, cp_current p with
      | Some rel, Some c =>
          let c := if keyless p then c else mkCopyTable (ct_schema c) (ct_table c) pk in
          let p := mkCopyPhase (cp_done p) (Some c) (cp_batch p) (keyless p) in
          inl (mkCopyReader (cr_shard r) p (Some rel) (cr_delivered r),
               copy_unit r p (copy_row r rel <$> rows) ((λ _, [rel]) <$> rows))
      | _, _ => inr RowsBeforeTable
      end
  | TableDone s t =>
      let p := mkCopyPhase (cp_done p ++ [tableName s t]) None (cp_batch p) (keyless p) in
      inl (mkCopyReader (cr_shard r) p None (cr_delivered r), copy_unit r p [VCopyCompleted (Some (cr_shard r)) s t] [[]])
  | CopyDone =>
      inl (r, mkUnit (cr_shard r) [VCopyCompleted (Some (cr_shard r)) "" ""] [[]] [0] 0 0 false None true None)
  | CopyUnknown => inr UnhandledMessage
  end.
Fixpoint copyAll (r : copyReader) (msgs : list CopyMessage) : copyReader * list Unit * option copy_err :=
  match msgs with
  | [] => (r, [], None)
  | msg :: msgs =>
      match copyOne r msg with
      | inr e => (r, [], Some e)
      | inl (r, u) => let '(r, us, e) := copyAll r msgs in (r, u :: us, e)
      end
  end.

(** ** No acknowledgement is lost while the poolers answer *)

Definition moving (a : ackers) (sh : Shard) (l : loop) : Prop :=
  want l ≤ done_ l ∨ wake l = true ∨ ringing a = Some sh ∨ pc l ≠ LWait.
Definition ackers_ok (a : ackers) : Prop :=
  (∀ sh l, loops a !! sh = Some l → moving a sh l) ∧ (∀ sh, ringing a = Some sh → is_Some (loops a !! sh)).

Lemma ackers_ok_set a sh l' :
  ackers_ok a → moving a sh l' → ackers_ok (set_loop a sh l').
Proof.
  intros [H1 H2] Hm. split; cbn.
  - intros sh' l. rewrite lookup_insert_Some. intros [[<- <-]|[_ ?]]; [done|by apply H1].
  - intros sh' Hr. rewrite lookup_insert_is_Some. destruct (decide (sh = sh')); auto.
Qed.

Lemma ackers_ok_step a a' : ackers_ok a → acker_step a a' → ackers_ok a'.
Proof.
  intros Hok Hst. pose proof Hok as [H1 H2]. destruct Hst.
  - unfold request. destruct (lsn <=? wanted a sh); [done|]. split; cbn.
    + intros sh' l. rewrite lookup_insert_Some. intros [[<- <-]|[Hne Hl]]; [right; right; by left|].
      destruct (H1 _ _ Hl) as [?|[?|[?|?]]]; [by left|right; by left|congruence|right; right; by right].
    + intros sh' [= <-]. rewrite lookup_insert_eq. by eexists.
  - split; cbn; [|done]. intros sh' l'. rewrite lookup_insert_Some. intros [[<- <-]|[Hne Hl]]; [right; by left|].
    destruct (H1 _ _ Hl) as [?|[?|[Hr|?]]]; [by left|right; by left|congruence|right; right; by right].
  - apply ackers_ok_set; [done|]. right. right. by right.
  - apply ackers_ok_set; [done|]. by left.
  - apply ackers_ok_set; [done|]. right. right. by right.
  - apply ackers_ok_set; [done|]. right. right. by right.
Qed.

(** No acknowledgement is lost on the way to a pooler that answers: when
    every forwarding goroutine is waiting and nothing is on its way to one,
    each shard has been asked for, and confirmed, the newest position
    requested, however requests and goroutines interleaved. *)
Theorem acks_reach_the_poolers a sh l :
  rtc acker_step newAckers a → at_rest a = true → loops a !! sh = Some l → want l ≤ done_ l.
Proof.
  intros Hr Hrest Hl. assert (ackers_ok a) as [H1 _].
  { revert Hr. apply (rtc_ind_r ackers_ok).
    - split; cbn; [|done]. intros sh' l'. by rewrite lookup_empty.
    - intros a1 a2 _ Hst IH. by eapply ackers_ok_step. }
  unfold at_rest in Hrest. destruct (ringing a) eqn:Hring; [done|]. rewrite forallb_forall in Hrest.
  specialize (Hrest (sh, l)). rewrite <- list_elem_of_In, elem_of_map_to_list in Hrest. specialize (Hrest Hl). unfold rests in Hrest.
  cbn in Hrest. destruct (H1 _ _ Hl) as [?|[Hw|[?|Hpc]]]; [done| |congruence|by destruct (pc l)].
  rewrite Hw in Hrest. by destruct (pc l).
Qed.

(** ** Copy checkpoints *)

Definition phase_ok (p : copyPhase) : Prop := keyless p = true → ∀ c, cp_current p = Some c → lastpk c = [].

Lemma copyOne_spec r msg r' u :
  phase_ok (cr_phase r) → copyOne r msg = inl (r', u) →
  phase_ok (cr_phase r') ∧ cr_shard r' = cr_shard r ∧
  (copyDone u = true ∨ u_copy u = Some (copyState (cr_phase r') (cr_shard r'))).
Proof.
  intros Hok. unfold copyOne. destruct msg as [point|rel0 ctid|rows pk|s t| |].
  - destruct (point =? 0); [done|]. destruct (cr_delivered r =? 0); intros [= <- <-]; cbn; auto.
  - destruct (isDone _ _ _); [done|]. intros [= <- <-]. cbn. split_and!; [|done|by right].
    intros E c. cbn in *. subst ctid. by intros [= <-].
  - destruct (cr_rel r) as [rel|]; [|done]. destruct (cp_current (cr_phase r)) as [c|] eqn:Ec; [|done]. intros [= <- <-]. cbn.
    split_and!; [|done|by right]. intros E c'. cbn in *. rewrite E. intros [= <-]. by apply Hok.
  - intros [= <- <-]. cbn. split_and!; [|done|by right]. by intros _ c.
  - intros [= <- <-]. cbn. auto.
  - done.
Qed.

Lemma copyAll_spec msgs r r' us e :
  phase_ok (cr_phase r) → copyAll r msgs = (r', us, e) →
  phase_ok (cr_phase r') ∧ cr_shard r' = cr_shard r ∧
  ∀ u, last us = Some u → copyDone u = true ∨ u_copy u = Some (copyState (cr_phase r') (cr_shard r')).
Proof.
  revert r us; induction msgs as [|msg msgs IH]; intros r us Hok; cbn; [by intros [= <- <- <-]|].
  destruct (copyOne r msg) as [[r1 u1]|err] eqn:E1; [|by intros [= <- <- <-]].
  destruct (copyOne_spec _ _ _ _ Hok E1) as (O1 & S1 & C1). destruct (copyAll r1 msgs) as [[r2 us2] e2] eqn:E2.
  intros [= <- <- <-]. destruct (IH _ _ O1 E2) as (O2 & S2 & C2). split_and!; [done|congruence|].
  intros u. destruct us2 as [|u2 us2]; [|intros Hl; apply C2; exact Hl]. cbn. intros [= <-].
  destruct msgs as [|msg2 msgs]; cbn in E2; [by simplify_eq|].
  destruct (copyOne r1 msg2) as [[r3 u3]|]; [destruct (copyAll r3 msgs) as [[]]|]; by simplify_eq.
Qed.

(** A copy resumes where it stopped: after any messages of a copy, the
    request built from the checkpoint last sent to the consumer is the one the
    copy itself would continue with, skipping exactly the finished tables; a
    table without a unique key is never resumed in the middle. *)
Theorem copy_resumes_where_it_stopped sh st batch d msgs r us e u cst :
  let r0 := mkCopyReader sh (copyPhaseFrom st batch) None d in
  copyAll r0 msgs = (r, us, e) → last us = Some u → copyDone u = false → u_copy u = Some cst →
  copyRequest (copyPhaseFrom (Some cst) (cp_batch (cr_phase r))) = copyRequest (cr_phase r) ∧
  (keyless (cr_phase r) = true → resume (copyRequest (cr_phase r)) = None).
Proof.
  intros r0 H Hl Hd Hc. assert (phase_ok (cr_phase r0)) as Hok by (by destruct st).
  destruct (copyAll_spec _ _ _ _ _ Hok H) as (Ok & Es & Hu). destruct (Hu u Hl) as [?|Hu']; [congruence|].
  rewrite Hu' in Hc. injection Hc as <-. split; [done|]. intros Hk. unfold copyRequest. cbn.
  destruct (cp_current (cr_phase r)) as [c|] eqn:Ec; [|done]. by rewrite (Ok Hk c Ec).
Qed.

(** ** The unary acknowledgement and a copy *)

Lemma store_monotone e ss sh d d' :
  at_ (Some e) sh = Some d → at_ (Some (foldl store_step e ss)) sh = Some d' → d ≤ d'.
Proof.
  revert e d; induction ss as [|s ss IH]; intros e d; cbn; [intros H1 H2; simplify_eq; done|]. intros H1 H2.
  assert (∃ d1, at_ (Some (store_step e s)) sh = Some d1 ∧ d ≤ d1) as (d1 & E1 & ?).
  { destruct s as [sh' c|sh' lsn]; cbn; [exists d; split; [done|lia]|]. destruct (decide (sh' = sh)) as [<-|Hne].
    - rewrite lookup_alter_eq, H1. cbn. eexists. split; [done|]. destruct (lsn <=? d) eqn:E; lia.
    - rewrite lookup_alter_ne by done. exists d. split; [done|lia]. }
  etrans; [done|]. by eapply IH.
Qed.

(** Reading the position before the flag: what is forwarded is at most the
    position at a moment when the shard is not copying. *)
Lemma unary_ack_not_mid_copy e ss sh lsn l d' :
  ackShardLSN (at_ (Some e) sh) (isCopying (foldl store_step e ss) sh) lsn = Some l →
  at_ (Some (foldl store_step e ss)) sh = Some d' → isCopying (foldl store_step e ss) sh = false ∧ l ≤ d'.
Proof.
  unfold ackShardLSN. destruct (at_ (Some e) sh) as [d|] eqn:Ed; [|done]. destruct (isCopying _ _); [done|]. intros H Hd'.
  split; [done|]. pose proof (store_monotone _ _ _ _ _ Ed Hd'). destruct (d <? lsn) eqn:E; cbn in H; destruct (_ =? 0); simplify_eq; lia.
Qed.

(** ** Instances and runs *)

Module Runs.
Import VStreamRel.Example.

Definition tries : list ackers :=
  let a1 := request newAckers sh0 5 in
  let l0 := mkLoop 5 true 0 LWait in
  let a2 := mkAckers (<[sh0 := l0]> (loops a1)) None in
  let a3 := set_loop a2 sh0 (mkLoop 5 false 0 LRead) in
  let a4 := set_loop a3 sh0 (mkLoop 5 false 0 (LAck 5)) in
  [a1; a2; a3; a4; set_loop a4 sh0 (mkLoop 5 false 0 LWait)].
Definition gave_up : ackers := default newAckers (last tries).
End Runs.
Import Runs.

(** An acknowledgement that failed is never tried again for the same
    position: after one failed call the goroutine waits with the slot behind,
    and the consumer acknowledging that position again, any number of times,
    changes nothing. *)
Theorem failed_ack_not_retried :
  ∃ a sh l, rtc (λ a a', acker_step a a' ∨ acker_short a a') newAckers a ∧ at_rest a = true ∧
    loops a !! sh = Some l ∧ done_ l < want l ∧ request a sh (want l) = a.
Proof.
  exists gave_up, VStreamRel.Example.sh0, (mkLoop 5 false 0 LWait). split.
  - eapply rtc_l; [left; apply (ak_request newAckers VStreamRel.Example.sh0 5); done|].
    eapply rtc_l; [left; eapply (ak_ring _ VStreamRel.Example.sh0 (mkLoop 5 false 0 LWait)); vm_compute; reflexivity|].
    eapply rtc_l; [left; eapply (ak_woken _ VStreamRel.Example.sh0 (mkLoop 5 true 0 LWait)); vm_compute; reflexivity|].
    eapply rtc_l; [left; eapply (ak_asks _ VStreamRel.Example.sh0 (mkLoop 5 false 0 LRead)); vm_compute; reflexivity|].
    eapply rtc_l; [right; eapply (ak_failed _ VStreamRel.Example.sh0 (mkLoop 5 false 0 (LAck 5)) 5); vm_compute; reflexivity|]. vm_compute. reflexivity.
  - split; [|split; [vm_compute; reflexivity|split; [cbn; lia|vm_compute; reflexivity]]].
    vm_compute. reflexivity.
Qed.

Module Witness.
Import VStreamRel.Example.

Definition u1 : Unit := one_row t1 10.
Definition acking : list action :=
  [Arrive sh0 u1; Turn look; Acks (mkVPosition [(sh0, 99)] 1 [] 1)].
Definition ended : world * bool := run acking (start opened []).

Lemma u1_ok : unit_ok sh0 u1.
Proof. split; try reflexivity. intros e He. discriminate He. Qed.
Lemma acking_ok : Forall (action_ok [sh0]) acking.
Proof. repeat constructor; try reflexivity. intros e He. discriminate He. Qed.
Lemma ended_eq : run acking (start (open_merger [sh0] "default" 1 1 plain ∅ ∅) []) = (ended.1, ended.2).
Proof. apply surjective_pairing. Qed.

Lemma acks_cover_only_delivered_witness : acked ended.1 = [(sh0, 10)] ∧ u1 ∈ delivered ended.1.
Proof.
  assert (acked ended.1 = [(sh0, 10)]) as Ha by (vm_compute; reflexivity). split; [exact Ha|].
  assert (arrivals acking sh0 = [u1]) as Harr by (vm_compute; reflexivity).
  apply (acks_cover_only_delivered [sh0] "default" 1 1 plain ∅ ∅ [] acking ended.1 ended.2 acking_ok ended_eq sh0 10).
  - rewrite Ha. left.
  - left.
  - rewrite Harr. intros [|i] [|j] u v Hij; cbn; intros; [lia|discriminate|lia|discriminate].
  - rewrite Harr. left.
  - reflexivity.
  - cbn. lia.
Defined.

Lemma merged_whole_in_order_witness : units_of sh0 (delivered ended.1) `prefix_of` arrivals acking sh0.
Proof.
  apply (merged_whole_in_order [sh0] "default" 1 1 plain ∅ ∅ [] acking ended.1 ended.2 acking_ok ended_eq). left.
Defined.

Definition two : merger :=
  set_lastCommit (open_merger [sh0; mkShard "default" 1] "default" 1 1 plain ∅ ∅) {[sh0 := 3; mkShard "default" 1 := 4]}.
Lemma floors_are_the_slowest_witness : without (floors two) sh0 = Some 4.
Proof.
  rewrite (floors_are_the_slowest two sh0); [vm_compute; reflexivity|].
  apply NoDup_cons. split; [|apply NoDup_singleton]. intros H. apply list_elem_of_singleton in H. discriminate H.
Defined.

(** A unit far ahead of the other shard's last commit, held since 0 with a timeout
    of 5. *)
Definition far_ahead : Unit := mkUnit sh0 [] [] [] 7 1000 false None false None.
Definition waits : merger :=
  set_heldSince (set_heads (set_lastCommit
    (open_merger [sh0; mkShard "default" 1] "default" 1 1 (mkOptions false false 0 true 0 5 false 0) ∅ ∅)
    {[mkShard "default" 1 := 3]}) {[sh0 := far_ahead]}) {[sh0 := 0]}.
Lemma never_stalls_witness :
  (choose 3 waits).1.1 = None ∧ (∃ t, heldSince (choose 3 waits).2 !! sh0 = Some t ∧ t ≤ 3) ∧ (∃ v, (choose 6 waits).1.1 = Some v).
Proof.
  assert (heads_known waits) as Hk.
  { intros sh v Hv. change (heads waits) with ({[sh0 := far_ahead]} : gmap Shard Unit) in Hv. apply lookup_singleton_Some in Hv as [<- _]. left. }
  assert (∀ n, 0 ≤ n → held_before n waits) as Hh.
  { intros n Hn sh t Ht. change (heldSince waits) with ({[sh0 := 0]} : gmap Shard Z) in Ht. apply lookup_singleton_Some in Ht as [_ <-]. exact Hn. }
  assert ((choose 3 waits).1.1 = None) as E by (vm_compute; reflexivity). split; [exact E|]. split.
  - destruct (never_stalls waits 3 (choose 3 waits).1.1 (choose 3 waits).1.2 (choose 3 waits).2 sh0 far_ahead Hk) as (_ & _ & H);
      [vm_compute; reflexivity|apply Hh; lia|vm_compute; reflexivity|by destruct (choose 3 waits) as [[a b] c]|]. apply (H E).
  - destruct (never_stalls waits 6 (choose 6 waits).1.1 (choose 6 waits).1.2 (choose 6 waits).2 sh0 far_ahead Hk) as (H & _ & _);
      [vm_compute; reflexivity|apply Hh; lia|vm_compute; reflexivity|by destruct (choose 6 waits) as [[a b] c]|].
    destruct H as (v & Hv & _); [right; exists 0; split; [vm_compute; reflexivity|cbn; lia]|]. exists v. exact Hv.
Defined.

Definition sends_one : world * option () := emit u1 (start opened []).1.
Lemma relations_before_changes_witness :
  ∃ ext rest, sent sends_one.1 = sent (start opened []).1 ++ ext ++ rest ∧ described (sent (start opened []).1) (events u1) (rels u1) ext.
Proof.
  apply (relations_before_changes (λ r, r = t1)) with (shs := [sh0]) (set := "default") (gen := 1) (fp := 1) (o := plain) (pos := ∅)
    (cp := ∅) (orc := []) (as_ := []) (sh := sh0).
  - intros r r' -> -> _. reflexivity.
  - intros r r' -> -> _ _. split; reflexivity.
  - intros r ->. vm_compute. discriminate.
  - constructor.
  - intros sh u Hu. apply not_elem_of_nil in Hu. destruct Hu.
  - reflexivity.
  - apply u1_ok.
  - intros rs Hrs. cbn in Hrs. apply elem_of_cons in Hrs as [->|Hrs]; [split; [intros r Hr; apply not_elem_of_nil in Hr; destruct Hr|constructor]|].
    apply elem_of_cons in Hrs as [->|Hrs]; [split; [intros r Hr; apply list_elem_of_singleton in Hr; exact Hr|apply NoDup_singleton]|].
    apply list_elem_of_singleton in Hrs as ->. split; [intros r Hr; apply not_elem_of_nil in Hr; destruct Hr|constructor].
  - vm_compute. reflexivity.
Defined.

Definition confirmed : ackers := set_loop (default newAckers (tries !! 3%nat)) sh0 (mkLoop 5 false 5 LWait).
Lemma acks_reach_the_poolers_witness : want (mkLoop 5 false 5 LWait) ≤ done_ (mkLoop 5 false 5 LWait).
Proof.
  apply (acks_reach_the_poolers confirmed sh0).
  - eapply rtc_l; [apply (ak_request newAckers sh0 5); reflexivity|].
    eapply rtc_l; [eapply (ak_ring _ sh0 (mkLoop 5 false 0 LWait)); vm_compute; reflexivity|].
    eapply rtc_l; [eapply (ak_woken _ sh0 (mkLoop 5 true 0 LWait)); vm_compute; reflexivity|].
    eapply rtc_l; [eapply (ak_asks _ sh0 (mkLoop 5 false 0 LRead)); vm_compute; reflexivity|].
    eapply rtc_l; [eapply (ak_confirmed _ sh0 (mkLoop 5 false 0 (LAck 5)) 5); vm_compute; reflexivity|].
    eapply rtc_l; [eapply (ak_nothing _ sh0 (mkLoop 5 false 5 LRead)); vm_compute; [reflexivity|reflexivity|discriminate]|].
    assert (confirmed = mkAckers {[sh0 := mkLoop 5 false 5 LWait]} None) as E by (vm_compute; reflexivity).
    rewrite E. vm_compute. constructor.
  - vm_compute. reflexivity.
  - vm_compute. reflexivity.
Defined.

Definition copying0 : copyReader := mkCopyReader sh0 (copyPhaseFrom None 100) None 0.
Definition copy_msgs : list CopyMessage :=
  [Snapshot 7; TableBegin (mkRelation "public" "t" "d" []) false; Rows [[mkValue false [49]]] [1; 2]].
Definition copied := copyAll copying0 copy_msgs.
Lemma copy_resumes_where_it_stopped_witness :
  copyRequest (copyPhaseFrom (Some (mkVCopyState sh0 (Some (mkCopyTable "public" "t" [1; 2])) [])) 100) = copyRequest (cr_phase copied.1.1).
Proof.
  assert (∃ u, last copied.1.2 = Some u ∧ copyDone u = false ∧
          u_copy u = Some (mkVCopyState sh0 (Some (mkCopyTable "public" "t" [1; 2])) [])) as (u & H1 & H2 & H3)
    by (eexists; vm_compute; split; [reflexivity|split; reflexivity]).
  destruct (copy_resumes_where_it_stopped sh0 None 100 0 copy_msgs copied.1.1 copied.1.2 None u _ ltac:(vm_compute; reflexivity) H1 H2 H3) as [H _].
  exact H.
Defined.

End Witness.
