(* ===== verification/Prog.v ===== *)
(** * Programs against a world that moves, and a logic for them

    A process of the control plane is a program: statements against a world
    (databases, the Kubernetes API, other processes' agents), each of which may
    fail before or after it took effect, with reads of a clock in between.  It
    may die between any two, and the world moves on its own all the time.
    [wp] says of a program that every statement it can reach keeps an
    invariant of the world and makes only allowed changes, whatever happens in
    between; adequacy carries that to every run of the system. *)

From S2P Require Import Prelude.

Local Open Scope Z_scope.

(** A world is read and changed by statements that answer with errors [E];
    [tick] sleeps and reads its clock; [transient] errors are those a failed
    connection gives. *)
Class World (W E : Type) := { tick : Z → W → Z * W; transient : E → Prop }.

Inductive prog (W E A : Type) : Type :=
| Ret (a : A)
| Stmt {X : Type} (f : W → result E X * W) (k : result E X → prog W E A)
| Clock (d : Z) (k : Z → prog W E A).
Arguments Ret {W E A} a.
Arguments Stmt {W E A X} f k.
Arguments Clock {W E A} d k.

Fixpoint pbind {W E A B} (p : prog W E A) (f : A → prog W E B) : prog W E B :=
  match p with
  | Ret a => f a
  | Stmt g k => Stmt g (λ r, pbind (k r) f)
  | Clock d k => Clock d (λ t, pbind (k t) f)
  end.

Section System.
Context {W E : Type} `{!World W E}.

(** One statement: as it answers, or failed before or after taking effect. *)
Definition prog_step {A} (p : prog W E A) (w : W) (p' : prog W E A) (w' : W) : Prop :=
  match p with
  | Ret _ => False
  | Stmt f k =>
      p' = k (f w).1 ∧ w' = (f w).2 ∨
      ∃ e, transient e ∧ p' = k (Err e) ∧ (w' = w ∨ w' = (f w).2)
  | Clock d k => p' = k (tick d w).1 ∧ w' = (tick d w).2
  end.

Context (env : W → W → Prop) (pass : prog W E ()).

(** The world and the pass in flight: passes follow one another, each may die
    at any point, and the environment goes on all the time. *)
Inductive sys_step : W * option (prog W E ()) → W * option (prog W E ()) → Prop :=
| sys_env w w' p : env w w' → sys_step (w, p) (w', p)
| sys_start w : sys_step (w, None) (w, Some pass)
| sys_prog w w' p p' : prog_step p w p' w' → sys_step (w, Some p) (w', Some p')
| sys_done w : sys_step (w, Some (Ret ())) (w, None)
| sys_crash w p : sys_step (w, Some p) (w, None).

(** Somebody other than the program does [F]. *)
Definition outsider (F : W → W → Prop) (s s' : W * option (prog W E ())) : Prop := s'.2 = s.2 ∧ F s.1 s'.1.

Lemma prog_step_moves {A} (p : prog W E A) w w' : ¬ prog_step p w p w'.
Proof.
  enough (∀ p : prog W E A, match p with Ret _ => True | Stmt f k => ∀ x, k x ≠ p | Clock d k => ∀ x, k x ≠ p end) as H.
  { specialize (H p). destruct p as [a|X f k|d k]; cbn; [by intros []|intros [[Hp _]|(e & _ & Hp & _)]; exact (H _ (eq_sym Hp))|intros [Hp _]; exact (H _ (eq_sym Hp))]. }
  clear. intros p. induction p as [a|X f k IH|d k IH]; [done|..]; intros x Hx; specialize (IH x); rewrite Hx in IH; by eapply IH.
Qed.
(** What no step of [env] does, no step of the system does from outside. *)
Lemma sys_no_outsider F s s' : (∀ w w', env w w' → ¬ F w w') → sys_step s s' → ¬ outsider F s s'.
Proof.
  intros HF Hst [He Hf]. destruct Hst as [w w' p Henv|w|w w' p p' Hs|w|w p]; try done; cbn in *; [by eapply HF|].
  injection He as ->. by eapply prog_step_moves.
Qed.
End System.
(** A wider environment: the steps that are new are an outsider's. *)
Lemma sys_step_or_outsider {W E} `{!World W E} (env F : W → W → Prop) pass s s' :
  sys_step (λ w w', env w w' ∨ F w w') pass s s' → sys_step env pass s s' ∨ outsider F s s'.
Proof. intros [w w' p [He|He]|w|w w' p p' Hs|w|w p]; [by left; constructor|by right|by left; constructor..]. Qed.

Section Logic.
Context {W E : Type} `{!World W E}.
Context (env : W → W → Prop) (Inv : W → Prop) (G : W → W → Prop).

(** What a statement may do. *)
Definition good (w w' : W) : Prop := Inv w' ∧ G w w'.

Fixpoint wp {A} (p : prog W E A) (w : W) (Q : A → W → Prop) : Prop :=
  match p with
  | Ret a => Q a w
  | Stmt f k =>
      ∀ w1, rtc env w w1 → Inv w1 →
        good w1 (f w1).2 ∧ wp (k (f w1).1) (f w1).2 Q ∧
        ∀ e, transient e → wp (k (Err e)) w1 Q ∧ wp (k (Err e)) (f w1).2 Q
  | Clock d k =>
      ∀ w1, rtc env w w1 → Inv w1 → wp (k (tick d w1).1) (tick d w1).2 Q
  end.

Lemma wp_mono {A} (p : prog W E A) w (Q Q' : A → W → Prop) :
  (∀ a w, Q a w → Q' a w) → wp p w Q → wp p w Q'.
Proof.
  intros HQ. revert w. induction p as [a|X f k IH|d k IH]; intros w; cbn; [by apply HQ| |].
  - intros H w1 He Hi. destruct (H w1 He Hi) as (Hg & Hk & Hf). split_and!; [done|by apply IH|].
    intros e Hp. destruct (Hf e Hp). split; by apply IH.
  - intros H w1 He Hi. by apply IH, H.
Qed.

Lemma wp_bind {A B} (p : prog W E A) (f : A → prog W E B) w (Q : B → W → Prop) :
  wp p w (λ a w, wp (f a) w Q) → wp (pbind p f) w Q.
Proof.
  revert w. induction p as [a|X g k IH|d k IH]; intros w; cbn; [done| |].
  - intros H w1 He Hi. destruct (H w1 He Hi) as (Hg & Hk & Hf). split_and!; [done|by apply IH|].
    intros e Hp. destruct (Hf e Hp). split; by apply IH.
  - intros H w1 He Hi. by apply IH, H.
Qed.

(** ** Adequacy *)

Hypothesis env_inv : ∀ w w', env w w' → Inv w → Inv w'.
Hypothesis env_guar : ∀ w w', env w w' → Inv w → G w w'.
Hypothesis guar_refl : ∀ w, Inv w → G w w.
(** Sleeping is nothing the environment does not do by itself. *)
Hypothesis tick_env : ∀ d w, env w (tick d w).2.

Lemma envs_inv w w' : rtc env w w' → Inv w → Inv w'.
Proof. induction 1; eauto. Qed.

Definition safe (s : W * option (prog W E ())) : Prop :=
  Inv s.1 ∧ match s.2 with None => True | Some p => wp p s.1 (λ _ _, True) end.

Lemma wp_env {A} (p : prog W E A) w w' : env w w' → wp p w (λ _ _, True) → wp p w' (λ _ _, True).
Proof.
  intros He. destruct p; cbn; [done| |]; intros H w1 Hr; apply H; by eapply rtc_l.
Qed.

Lemma wp_step {A} (p p' : prog W E A) w w' :
  Inv w → wp p w (λ _ _, True) → prog_step p w p' w' → Inv w' ∧ G w w' ∧ wp p' w' (λ _ _, True).
Proof.
  intros Hi. destruct p as [a|X f k|d k]; cbn; [done| |].
  - intros H. destruct (H w) as ([Hg1 Hg2] & Hk & Hf); [done..|].
    intros [[-> ->]|(e & He & -> & Hw)]; [done|]. destruct (Hf e He). destruct Hw as [->| ->]; auto.
  - intros H [-> ->]. pose proof (tick_env d w) as He. split_and!; [eauto|eauto|by apply (H w)].
Qed.

Context (pass : prog W E ()).
Hypothesis pass_safe : ∀ w, Inv w → wp pass w (λ _ _, True).

Lemma sys_safe s s' : sys_step env pass s s' → safe s → safe s' ∧ G s.1 s'.1.
Proof.
  intros Hst [Hi Hp]. inversion Hst as [w w' p He|w|w w' p p' Hs|w|w p]; subst; cbn in *.
  - split; [split; cbn; [eauto|destruct p; [by eapply wp_env|done]]|eauto].
  - split; [split; cbn; [done|by apply pass_safe]|by apply guar_refl].
  - destruct (wp_step p p' w w' Hi Hp Hs) as (? & ? & ?). split; [split|]; done.
  - split; [split; done|by apply guar_refl].
  - split; [split; done|by apply guar_refl].
Qed.

Lemma reach_safe s s' : rtc (sys_step env pass) s s' → safe s → safe s'.
Proof. induction 1 as [|s1 s2 s3 Hs _ IH]; [done|]. intros Hsafe. apply IH. by apply (sys_safe s1 s2). Qed.

Lemma reach_guar s s' s'' : rtc (sys_step env pass) s s' → safe s → sys_step env pass s' s'' → G s'.1 s''.1.
Proof. intros Hr Hs Hst. apply (reach_safe _ _ Hr) in Hs. by apply (sys_safe s' s''). Qed.
End Logic.
