(* ===== verification/Triples.v ===== *)
(** * Triples for programs that return errors

    Go functions with an error among their results, as programs of [Prog], and
    triples for them.  A [rely] says what the rest of the world does meanwhile:
    its steps, the invariant they keep, and how they may change a world;
    assertions are [closed] under such changes.  [placid] programs change the
    world in no other way themselves. *)

From S2P Require Import Prelude Prog.

Local Open Scope Z_scope.

(** A Go function that may return an error. *)
Definition PM (W E A : Type) : Type := prog W E (result E A).
#[export] Instance PM_ret W E : MRet (PM W E) := λ A a, Ret (Ok a).
#[export] Instance PM_bind W E : MBind (PM W E) := λ A B f x, pbind x (λ r, match r with Ok a => f a | Err e => Ret (Err e) end).

Section Monad.
Context {W E : Type}.
Definition fail {A} (e : E) : PM W E A := Ret (Err e).
(** The error, if any, in hand rather than returned. *)
Definition attempt {A} (x : PM W E A) : PM W E (result E A) := pbind x (λ r, Ret (Ok r)).
Definition stmt {X} (f : W → result E X * W) : PM W E X := Stmt f Ret.
Definition ask {X} (f : W → result E X) : PM W E X := stmt (λ w, (f w, w)).
Definition now : PM W E Z := Clock 0 (λ t, Ret (Ok t)).
Definition sleep (d : Z) : PM W E () := Clock d (λ _, Ret (Ok ())).
End Monad.

(** ** What the rest of the world does *)

Record rely (W E : Type) `{!World W E} := Rely {
  r_env : W → W → Prop;
  r_inv : W → Prop;
  r_evolves : W → W → Prop;
  r_env_keeps w w' : r_env w w' → r_inv w → r_inv w' ∧ r_evolves w w';
  r_refl w : r_evolves w w;
  r_tick d w : r_inv w → r_inv (tick d w).2 ∧ r_evolves w (tick d w).2
}.
Arguments Rely {W E _} _ _ _ _ _ _.
Arguments r_env {W E _} _ _ _.
Arguments r_inv {W E _} _ _.
Arguments r_evolves {W E _} _ _ _.
Arguments r_env_keeps {W E _} _ _ _ _ _.
Arguments r_refl {W E _} _ _.
Arguments r_tick {W E _} _ _ _ _.

Section Triples.
Context {W E : Type} `{!World W E} (R : rely W E).
Local Notation env := (r_env R).
Local Notation Inv := (r_inv R).
Local Notation evolves := (r_evolves R).
Local Notation M := (PM W E).
Local Notation prog := (Prog.prog W E).
Local Notation wp := (Prog.wp env Inv (λ _ _, True)).

(** ** Triples *)

Definition closed (P : W → Prop) : Prop := ∀ w w', evolves w w' → P w → P w'.
Definition triple {A} (P : W → Prop) (x : prog A) (Q : A → W → Prop) : Prop :=
  ∀ w, Inv w → P w → wp x w (λ a w', Inv w' ∧ Q a w').

Lemma closed_envs (P : W → Prop) w w' : closed P → rtc env w w' → Inv w → P w → Inv w' ∧ P w'.
Proof. intros HP. induction 1 as [|w1 w2 w3 He _ IH]; [done|]. intros Hi Hw. destruct (r_env_keeps R _ _ He Hi). apply IH; eauto. Qed.

Lemma closed_and P Q : closed P → closed Q → closed (λ w, P w ∧ Q w).
Proof. intros HP HQ w w' He [? ?]. split; eauto. Qed.
Lemma closed_forall {X} (P : X → W → Prop) : (∀ x, closed (P x)) → closed (λ w, ∀ x, P x w).
Proof. intros HP w w' He H x. eapply HP; eauto. Qed.
Lemma closed_pure (P : Prop) : closed (λ _, P).
Proof. by intros w w' _. Qed.

Lemma triple_conseq {A} (P P' : W → Prop) (x : prog A) (Q Q' : A → W → Prop) :
  (∀ w, Inv w → P' w → P w) → (∀ a w, Inv w → Q a w → Q' a w) → triple P x Q → triple P' x Q'.
Proof. intros HP HQ Hx w Hi Hw. eapply wp_mono; [|by apply Hx; auto]. intros a w' [? ?]. split; auto. Qed.
Lemma triple_pbind {A B} (P : W → Prop) (x : prog A) (f : A → prog B) Q S :
  triple P x Q → (∀ a, triple (Q a) (f a) S) → triple P (pbind x f) S.
Proof. intros Hx Hf w Hi Hw. apply wp_bind. eapply wp_mono; [|by apply Hx]. intros a w' [? ?]. by apply Hf. Qed.
Lemma triple_bind {A B} (P : W → Prop) (x : M A) (f : A → M B) Q S :
  triple P x Q → (∀ a, triple (Q (Ok a)) (f a) S) → (∀ e w, Inv w → Q (Err e) w → S (Err e) w) → triple P (x ≫= f) S.
Proof.
  intros Hx Hf He. eapply triple_pbind; [exact Hx|]. intros [a|e]; [apply Hf|]. intros w Hi Hw. cbn. auto.
Qed.
Lemma triple_try {A B} (P : W → Prop) (x : M A) (f : result E A → M B) Q S :
  triple P x Q → (∀ r, triple (Q r) (f r) S) → triple P (attempt x ≫= f) S.
Proof.
  intros Hx Hf w Hi Hw. apply wp_bind. apply wp_bind. eapply wp_mono; [|by apply Hx]. intros r w' [? ?]. by apply Hf.
Qed.
Lemma triple_ret {A} (P : W → Prop) (a : A) Q : (∀ w, Inv w → P w → Q (Ok a) w) → triple P (mret (M := M) a) Q.
Proof. intros H w Hi Hw. split; auto. Qed.
Lemma triple_fail {A} (P : W → Prop) e (Q : result E A → W → Prop) :
  (∀ w, Inv w → P w → Q (Err e) w) → triple P (fail e) Q.
Proof. intros H w Hi Hw. split; auto. Qed.
Lemma triple_stmt {X} (P : W → Prop) (f : W → result E X * W) Q :
  closed P →
  (∀ w, Inv w → P w → Inv (f w).2 ∧ Q (f w).1 (f w).2 ∧ ∀ e, transient e → Q (Err e) w ∧ Q (Err e) (f w).2) →
  triple P (stmt f) Q.
Proof.
  intros HP H w Hi Hw w1 He _. destruct (closed_envs P w w1 HP He Hi Hw) as [Hi1 Hw1].
  destruct (H w1 Hi1 Hw1) as (? & ? & Hf). split; [done|]. split; [done|]. intros e Ht. destruct (Hf e Ht). by split.
Qed.
Lemma triple_ask {X} (P : W → Prop) (f : W → result E X) Q :
  closed P → (∀ w, Inv w → P w → Q (f w) w ∧ ∀ e, transient e → Q (Err e) w) → triple P (ask f) Q.
Proof. intros HP H. apply triple_stmt; [done|]. intros w Hi Hw. destruct (H w Hi Hw). cbn. auto. Qed.
Lemma triple_exists {A X} (P : X → W → Prop) (x : prog A) Q : (∀ v, triple (P v) x Q) → triple (λ w, ∃ v, P v w) x Q.
Proof. intros H w Hi [v Hw]. by apply (H v). Qed.
Lemma triple_and_pure {A} (P : W → Prop) (φ : Prop) (x : prog A) Q : (φ → triple P x Q) → triple (λ w, φ ∧ P w) x Q.
Proof. intros H w Hi [Hφ Hw]. by apply H. Qed.

(** ** Programs that keep what is closed *)

Definition placidS {X} (f : W → result E X * W) : Prop := ∀ w, Inv w → Inv (f w).2 ∧ evolves w (f w).2.
Fixpoint placid {A} (p : prog A) : Prop :=
  match p with
  | Ret _ => True
  | Stmt f k => placidS f ∧ ∀ r, placid (k r)
  | Clock d k => ∀ t, placid (k t)
  end.

Lemma placid_pbind {A B} (x : prog A) (f : A → prog B) : placid x → (∀ a, placid (f a)) → placid (pbind x f).
Proof.
  intros Hx Hf. induction x as [a|X g k IH|d k IH]; cbn in *; [done| |].
  - destruct Hx as [? Hk]. split; [done|]. intros r. by apply IH.
  - intros t. by apply IH.
Qed.
Lemma placid_bind {A B} (x : M A) (f : A → M B) : placid x → (∀ a, placid (f a)) → placid (x ≫= f).
Proof. intros Hx Hf. apply placid_pbind; [done|]. by intros [a|e]. Qed.
Lemma placid_attempt {A} (x : M A) : placid x → placid (attempt x).
Proof. intros Hx. by apply placid_pbind. Qed.
Lemma placid_stmt {X} (f : W → result E X * W) : placidS f → placid (stmt f).
Proof. intros Hf. by split. Qed.
Lemma placid_ask {X} (f : W → result E X) : placid (ask f).
Proof. apply placid_stmt. intros w Hi. split; [done|apply r_refl]. Qed.

Lemma triple_placid {A} (P : W → Prop) (x : prog A) : closed P → placid x → triple P x (λ _, P).
Proof.
  intros HP Hx. induction x as [a|X f k IH|d k IH]; intros w Hi Hw; cbn in *; [done| |].
  - destruct Hx as [Hf Hk]. intros w1 He _. destruct (closed_envs P w w1 HP He Hi Hw) as [Hi1 Hw1].
    destruct (Hf w1 Hi1) as [Hi2 He2]. assert (P (f w1).2) by eauto.
    split; [done|]. split; [by apply IH|]. intros e _. split; by apply IH.
  - intros w1 He _. destruct (closed_envs P w w1 HP He Hi Hw) as [Hi1 Hw1]. destruct (r_tick R d w1 Hi1).
    apply IH; [done..|]. eapply HP; eauto.
Qed.

Lemma triple_any {A} (P : W → Prop) (x : prog A) : placid x → triple P x (λ _ _, True).
Proof. intros Hx. apply (triple_conseq (λ _, True) _ _ (λ _ _, True)); [done|done|]. by apply triple_placid. Qed.

(** What is closed is kept beside whatever else such an operation does. *)
Lemma triple_frame {A} (P C : W → Prop) (x : prog A) Q :
  closed C → placid x → triple P x Q → triple (λ w, P w ∧ C w) x (λ a w, Q a w ∧ C w).
Proof.
  intros HR Hx HT w Hi [Hw Hr]. specialize (HT w Hi Hw). clear Hw. revert w Hi Hr HT.
  induction x as [a|X f k IH|d k IH]; intros w Hi Hr HT; cbn in *; [tauto| |].
  - destruct Hx as [Hf Hk]. intros w1 He Hi1. destruct (closed_envs C w w1 HR He Hi Hr) as [_ Hr1].
    destruct (Hf w1 Hi1) as [Hi2 He2]. assert (C (f w1).2) by eauto. destruct (HT w1 He Hi1) as (? & ? & Herr).
    split; [done|]. split; [by apply IH|]. intros e Ht. destruct (Herr e Ht). split; by apply IH.
  - intros w1 He Hi1. destruct (closed_envs C w w1 HR He Hi Hr) as [_ Hr1]. destruct (r_tick R d w1 Hi1).
    apply IH; [done..| |by apply HT]. eapply HR; eauto.
Qed.

(** With nothing to say of the answer, in front of the rest. *)
Lemma triple_placid_bind {A B} (P : W → Prop) (x : M A) (f : A → M B) S :
  closed P → placid x → (∀ a, triple P (f a) S) → (∀ e w, Inv w → P w → S (Err e) w) → triple P (x ≫= f) S.
Proof. intros HP Hx Hf He. eapply triple_bind; [by apply triple_placid|done|done]. Qed.
Lemma triple_now_bind {B} (P : W → Prop) (f : Z → M B) S : closed P → (∀ t, triple P (f t) S) → triple P (now ≫= f) S.
Proof.
  intros HP Hf w Hi Hw w1 He _. destruct (closed_envs P w w1 HP He Hi Hw) as [Hi1 Hw1]. destruct (r_tick R 0 w1 Hi1).
  cbn. apply Hf; [done|]. eapply HP; eauto.
Qed.
Lemma triple_sleep_bind {B} (P : W → Prop) d (f : () → M B) S : closed P → triple P (f ()) S → triple P (sleep d ≫= f) S.
Proof.
  intros HP Hf w Hi Hw w1 He _. destruct (closed_envs P w w1 HP He Hi Hw) as [Hi1 Hw1]. destruct (r_tick R d w1 Hi1).
  cbn. apply Hf; [done|]. eapply HP; eauto.
Qed.
End Triples.

(** ** Programs by themselves *)

Section Exec.
Context {W E : Type} `{!World W E}.
Local Notation M := (PM W E).
Local Notation prog := (Prog.prog W E).

(** A program run by itself, every statement answered. *)
Fixpoint exec {A} (p : prog A) (w : W) : A * W :=
  match p with
  | Ret a => (a, w)
  | Stmt f k => exec (k (f w).1) (f w).2
  | Clock d k => exec (k (tick d w).1) (tick d w).2
  end.
Lemma exec_pbind {A B} (x : prog A) (f : A → prog B) w : exec (pbind x f) w = exec (f (exec x w).1) (exec x w).2.
Proof. revert w. induction x as [a|X g k IH|d k IH]; intros w; cbn; [done|apply IH..]. Qed.
Lemma exec_bind {A B} (x : M A) (f : A → M B) w a w1 : exec x w = (Ok a, w1) → exec (x ≫= f) w = exec (f a) w1.
Proof. intros Hx. etrans; [apply exec_pbind|]. by rewrite Hx. Qed.
Lemma exec_try {A B} (x : M A) (f : result E A → M B) w r w1 : exec x w = (r, w1) → exec (attempt x ≫= f) w = exec (f r) w1.
Proof. intros Hx. apply exec_bind. etrans; [apply exec_pbind|]. by rewrite Hx. Qed.
End Exec.

(** ** Waits that end

    A loop with a deadline is given rounds; [exhausted] are the errors it
    returns when they ran out. *)

Section Rounds.
Context {W E : Type} `{!World W E} (exhausted : E → bool).
Local Notation M := (PM W E).
Local Notation prog := (Prog.prog W E).

(** What a program returns when it starts at time [c], whatever is answered and
    however the clock goes on. *)
Fixpoint retsFrom {A} (c : Z) (p : prog A) (φ : A → Prop) : Prop :=
  match p with
  | Ret a => φ a
  | Stmt f k => (∀ w, retsFrom c (k (f w).1) φ) ∧ ∀ e, transient e → retsFrom c (k (Err e)) φ
  | Clock d k => ∀ t, c + Z.max 0 d ≤ t → retsFrom t (k t) φ
  end.
Lemma retsFrom_pbind {A B} c (x : prog A) (f : A → prog B) ψ φ :
  retsFrom c x ψ → (∀ c' a, c ≤ c' → ψ a → retsFrom c' (f a) φ) → retsFrom c (pbind x f) φ.
Proof.
  revert c. induction x as [a|X g k IH|d k IH]; intros c Hx Hf; cbn in *; [by apply Hf; [lia|]| |].
  - destruct Hx as [Hw He]. split; [intros w; by apply IH|]. intros e Ht. by apply IH; [apply He|].
  - intros t Ht. apply IH; [by apply Hx|]. intros c' a Hc. apply Hf. lia.
Qed.
Lemma retsFrom_any {A} c (x : prog A) : retsFrom c x (λ _, True).
Proof. revert c. induction x as [a|X f k IH|d k IH]; intros c; cbn; [done|split; intros; apply IH|intros t _; apply IH]. Qed.

Definition inRounds {A} (r : result E A) : Prop := match r with Ok _ => True | Err e => exhausted e = false end.
Lemma inRounds_bind {A B} c (x : M A) (f : A → M B) :
  retsFrom c x inRounds → (∀ c' a, c ≤ c' → retsFrom c' (f a) inRounds) → retsFrom c (x ≫= f) inRounds.
Proof. intros Hx Hf. eapply retsFrom_pbind; [exact Hx|]. intros c' [a|e] Hc Hr; [by apply Hf|done]. Qed.
Lemma inRounds_attempt {A} c (x : M A) : retsFrom c (attempt x) inRounds.
Proof. eapply retsFrom_pbind; [apply retsFrom_any|done]. Qed.
Lemma inRounds_try {A B} c (x : M A) (f : result E A → M B) :
  retsFrom c x inRounds → (∀ c' r, c ≤ c' → inRounds r → retsFrom c' (f r) inRounds) → retsFrom c (attempt x ≫= f) inRounds.
Proof.
  intros Hx Hf. eapply retsFrom_pbind; [eapply (retsFrom_pbind _ _ _ _ (λ r, ∃ r', r = Ok r' ∧ inRounds r')); [exact Hx|]|].
  - intros c' r _ Hr. cbn. eauto.
  - intros c' r Hc (r' & -> & Hr). by apply Hf.
Qed.
Lemma now_inRounds {A} c (f : Z → M A) : (∀ t, c ≤ t → retsFrom t (f t) inRounds) → retsFrom c (now ≫= f) inRounds.
Proof. intros Hf t Ht. apply Hf. lia. Qed.
Lemma sleep_inRounds {A} c d (f : () → M A) : (∀ t, c + d ≤ t → retsFrom t (f ()) inRounds) → retsFrom c (sleep d ≫= f) inRounds.
Proof. intros Hf t Ht. apply Hf. lia. Qed.

(** Rounds left for a wait until [deadline]. *)
Definition enough (poll c deadline : Z) (fuel : nat) : Prop := (0 < fuel)%nat ∧ deadline < c + (Z.of_nat fuel - 1) * poll.
Lemma enough_later poll c c' deadline fuel : enough poll c deadline fuel → c ≤ c' → enough poll c' deadline fuel.
Proof. unfold enough. lia. Qed.
Lemma enough_sleep poll c t t' deadline fuel :
  enough poll c deadline (S fuel) → c ≤ t → t ≤ deadline → t + poll ≤ t' → enough poll t' deadline fuel.
Proof. unfold enough. intros [_ He] Hc Ht Ht'. split; [|lia]. destruct fuel; lia. Qed.
End Rounds.

Ltac in_rounds := repeat match goal with
  | |- retsFrom _ (mbind _ _) _ => apply inRounds_bind; [|intros ???]
  | |- retsFrom _ (attempt _) _ => apply inRounds_attempt
  | |- retsFrom _ (mret _) _ => exact I
  | |- retsFrom _ now _ => by intros ??
  | |- retsFrom _ (sleep _) _ => by intros ??
  | |- retsFrom _ (match ?x with _ => _ end) _ => destruct x
  | |- retsFrom _ (fail _) _ => reflexivity
  end.
