(* ===== verification/CutWorld.v ===== *)
(** * Moving the writes of a reshard: the databases and the programs over them

    A reshard's cutover ([src/internal/controller/cutover.go], with the
    PostgreSQL side of each step in [cutoverpg.go]) is one controller driving
    many databases while clients, apply workers and other workflows go on.
    This file holds what they share: the shards (their write pause, the
    transactions open and prepared on them, how far their log has got), the
    subscriptions between the two sets, the catalog's rows, and everything
    that moves on its own.  A controller pass is a program of statements; any
    of them may fail before or after taking effect, and the pass may die
    between any two. *)

From S2P Require Import Prelude Prog Ranges Sequences.

Local Open Scope Z_scope.

(** ** Errors *)

(** An error as the code looks at it: which sentinel or error type is in its
    chain, and its text. *)
Record err := mkE {
  e_retry : bool;        (* errors.Is errRetry *)
  e_fatal : bool;        (* errors.As *fatalError *)
  e_retired : bool;      (* errors.As *sourceRetiredError *)
  e_refused : bool;      (* errors.Is errRollbackRefused *)
  e_notOwner : bool;     (* errors.Is errNotOwner *)
  e_lockTimeout : bool;  (* SQLSTATE 55P03 *)
  e_text : string }.

Definition plainf (s : string) : err := mkE false false false false false false s.
Definition retryf (s : string) : err := mkE true false false false false false ("retry next pass: " +:+ s).
Definition fatal (s : string) : err := mkE false true false false false false s.
Definition sourceRetired (s : string) : err := mkE false false true false false false s.
Definition errRollbackRefused (s : string) : err := mkE false false false true false false ("rollback refused: " +:+ s).
Definition errNotOwner : err := mkE false false false false true false "controller: another replica owns this workflow".
Definition errLockTimeout : err := mkE false false false false false true "canceling statement due to lock timeout".
Definition errNoRows : err := plainf "no rows in result set".

(** A failure of the connection itself: none of the code's own errors. *)
Definition plain (e : err) : Prop :=
  e_retry e = false ∧ e_fatal e = false ∧ e_retired e = false ∧ e_refused e = false ∧ e_notOwner e = false ∧ e_lockTimeout e = false.

(** [errors.Join] of two, [None] being nil. *)
Definition Join (a b : option err) : option err :=
  match a, b with
  | None, e | e, None => e
  | Some a, Some b =>
      Some (mkE (e_retry a || e_retry b) (e_fatal a || e_fatal b) (e_retired a || e_retired b) (e_refused a || e_refused b)
              (e_notOwner a || e_notOwner b) (e_lockTimeout a || e_lockTimeout b) (e_text a +:+ String (Ascii.ascii_of_nat 10) (e_text b)))
  end.

(** ** A shard *)

(** A client backend inside a transaction: its database, when it began, on the
    shard's clock; whether it may write, which PostgreSQL decides when it
    begins; whether it was given a transaction id; and whether it has written
    nothing but temporary tables. *)
Record xact := mkXact { x_db : string; x_start : Z; x_rw : bool; x_xid : bool; x_temp : bool }.

Record shard := mkShard {
  conf : bool;                 (* default_transaction_read_only in postgresql.auto.conf *)
  setting : bool;              (* the same, as a transaction beginning now finds it *)
  sclock : Z;                  (* clock_timestamp() *)
  wal : Z;                     (* pg_current_wal_lsn() *)
  committed : Z;               (* where the last COMMIT of client data ended *)
  committedPrepared : Z;       (* where the last COMMIT PREPARED ended *)
  xacts : gmap Z xact;         (* by pid *)
  prep : list string;          (* pg_prepared_xacts, oldest first *)
  seqs : gmap string (gmap string seqrow)  (* pg_sequences, by database *) }.

(** A subscription: enabled or not; how much of its publisher's log the
    subscriber holds; the publisher slot's [confirmed_flush_lsn], [None] when
    the slot is gone. *)
Record sub := mkSub { enabled : bool; applied : Z; slot : option Z }.

(** ** The catalog *)

Record VerifyReport := mkVerify { Tables : Z; Rows : Z; Mismatches : list string }.

Record cutoverState := mkCutover {
  SourceSet : string; Step : string; Attempts : Z; FencedAt : option Z; Positions : gmap Z Z; JournalID : string;
  Verify : option VerifyReport; FlippedAt : option Z; ReleasedAt : option Z; PauseMS : Z; FenceMS : Z;
  SwitchedAt : option Z; RetireAt : option Z; DisablingAt : option Z; Gate : string; RollbackRefused : string;
  RollbackRetries : Z; Pause : string; PausedAt : option Z; StepSince : option Z; StepRetries : Z;
  Schema : option (gmap string string); Aborts : list string }.

Record cutoverSpec := mkSpec {
  PauseBefore : string; Proceed : list string; RetireAfterSeconds : Z; RetireAfterMS : option Z; RollbackAsked : bool }.

(** The workflow's row: its state, the stage and cutover record under
    [status], its spec, the copy phase's throttle, and the replica that owns
    it, the empty string for none. *)
Record wfrow := mkRow {
  r_state : string; r_stage : string; r_cutover : cutoverState; r_spec : cutoverSpec; r_copyPaused : bool; r_owner : string }.

Record catalog := mkCat {
  setState : gmap string string;               (* shard_sets.state *)
  servingState : gmap string string;           (* shard_status.serving_state, by set *)
  migrating : gmap string string;              (* shard_status.migrating_by, by set, where migrating *)
  claims : gmap (string * Z) (string * option Z);  (* shard_status.write_paused_by and write_paused_at *)
  ddlLocks : gmap string string;               (* workflow_locks of kind ddl: who holds a database's *)
  serving : gset string;                       (* the sets with a row in pgshard.serving *)
  homes : gmap string Z;                       (* databases.home_shard *)
  mapGeneration : Z;                           (* shard_map_generation *)
  reshardJournal : gset string;                (* resharding_journal *)
  row : wfrow }.

Record CopyProgress := mkProgress {
  Subscriptions : Z; TablesTotal : Z; TablesReady : Z; LagBytes : Z; Paused : Z; Enumerating : Z }.

(** What the code reads and this model gives no shape to: the copy's progress,
    the subscriptions without a worker, the migrations applying, the tables of
    a database, the digests' report, the structure hashes, what other
    workflows' generations still replicate, whether the row's claim is older
    than the lease; the other workflows that have not ended, the sets that
    those of them that have begun name, the rows of [shard_status], and the
    shards that apply a subscription of another workflow. *)
Record oracle := mkOracle {
  o_progress : CopyProgress; o_stalled : Z * string → list string; o_migrating : list string;
  o_tables : string * Z * string → list string; o_verify : VerifyReport; o_fingerprint : string * Z * string → string;
  o_otherRev : string * Z → list Z; o_liveGens : list Z; o_newID : string; o_leaseOver : bool;
  o_live : list string; o_liveSets : list string; o_shardRows : list (string * Z); o_subscribed : list (string * Z) }.

Record world := mkWorld {
  cat : catalog;
  shards : gmap (string * Z) shard;
  fwd : gmap (Z * Z * string) sub;    (* source, target, database: from the source to the target *)
  bwd : gmap (Z * Z * string) sub;    (* the same pair's way back *)
  journal : gset (Z * string * string);  (* the journal rows on the sources: shard, database, id *)
  clock : Z;                          (* the controllers' clock *)
  seen : oracle }.

(** ** What moves on its own *)

Definition on_shard (k : string * Z) (f : shard → shard) (w : world) : world :=
  {| w with shards := alter f k (shards w) |}.

(** A transaction that commits moves the log when it wrote client data. *)
Definition writes (x : xact) : bool := x_rw x && x_xid x && negb (x_temp x).
Definition commit (pid : Z) (x : xact) (s : shard) : shard :=
  if writes x then {| s with wal := wal s + 1; committed := wal s + 1; xacts := delete pid (xacts s) |}
  else {| s with xacts := delete pid (xacts s) |}.

(** The clients of a shard and its own background: transactions begin,
    write, end or are prepared; prepared ones are decided by a coordinator or
    a resolver; the log moves; a reloaded configuration reaches new
    transactions. *)
Inductive shard_step : shard → shard → Prop :=
| sh_begin s pid db :
    xacts s !! pid = None →
    shard_step s {| s with sclock := sclock s + 1; xacts := <[pid := mkXact db (sclock s) (negb (setting s)) false false]> (xacts s) |}
| sh_write s pid x :
    xacts s !! pid = Some x → x_rw x = true →
    shard_step s {| s with xacts := <[pid := {| x with x_xid := true; x_temp := false |}]> (xacts s) |}
| sh_temp s pid x :
    xacts s !! pid = Some x → x_xid x = false →
    shard_step s {| s with xacts := <[pid := {| x with x_xid := true; x_temp := true |}]> (xacts s) |}
| sh_commit s pid x : xacts s !! pid = Some x → shard_step s (commit pid x s)
| sh_rollback s pid : shard_step s {| s with xacts := delete pid (xacts s) |}
| sh_prepare s pid x gid :
    xacts s !! pid = Some x → writes x = true → gid ∉ prep s →
    shard_step s {| s with wal := wal s + 1; xacts := delete pid (xacts s); prep := prep s ++ [gid] |}
| sh_commit_prepared s gid :
    gid ∈ prep s →
    shard_step s {| s with wal := wal s + 1; committedPrepared := wal s + 1; prep := filter (λ g, g ≠ gid) (prep s) |}
| sh_rollback_prepared s gid : shard_step s {| s with prep := filter (λ g, g ≠ gid) (prep s) |}
| sh_wal s n : 0 ≤ n → shard_step s {| s with wal := wal s + n |}
| sh_sequences s q : shard_step s {| s with seqs := q |}
| sh_tick s n : 0 ≤ n → shard_step s {| s with sclock := sclock s + n |}
| sh_reload s : shard_step s {| s with setting := conf s |}.

(** An enabled subscription applies its publisher's log and confirms it. *)
Inductive sub_step (upto : Z) : sub → sub → Prop :=
| sub_apply s n : enabled s = true → applied s ≤ n ≤ upto → sub_step upto s {| s with applied := n |}
| sub_confirm s n v : enabled s = true → slot s = Some v → v ≤ n ≤ applied s → sub_step upto s {| s with slot := Some n |}
| sub_lost s : sub_step upto s {| s with slot := None |}.

(** ** The run being driven *)

(** One workflow: its id and the replica that drives it; the set it moves from
    and the one it moves to, with their shards and ranges; the user databases
    with their home shards; and the limits of the controller. *)
Record run := mkRun {
  wid : string; replica : string;
  src : string; srcIDs : list Z; srcRanges : list Range;
  tgt : string; tgtIDs : list Z; tgtRanges : list Range;
  dbs : list string;
  lagBytes : Z; CutoverTimeout : Z; CutoverAttempts : Z }.

Section Env.
Context (R : run).

(** The forward subscriptions of the run. *)
Definition pairs : list (Z * Z * string) :=
  s ← srcIDs R; t ← tgtIDs R; db ← dbs R; [(s, t, db)].

Definition with_cat (f : catalog → catalog) (w : world) : world := {| w with cat := f (cat w) |}.

(** What other workflows do to the catalog: they raise fences on sets nobody
    fenced and lift their own, publish and retire sets that are not this
    run's, and may retire its source set by publishing another. *)
Inductive others_step : catalog → catalog → Prop :=
| oth_fence c set who : who ≠ wid R → migrating c !! set = None → others_step c {| c with migrating := <[set := who]> (migrating c) |}
| oth_release c set who : who ≠ wid R → migrating c !! set = Some who → others_step c {| c with migrating := delete set (migrating c) |}
| oth_set c set st : set ≠ src R → set ≠ tgt R → others_step c {| c with setState := <[set := st]> (setState c) |}
| oth_publish c set :
    set ≠ src R → set ≠ tgt R → setState c !! tgt R ≠ Some "serving"%string →
    others_step c {| c with setState := <[set := "serving"%string]> (<[src R := "retired"%string]> (setState c)) |}
| oth_lock c db who : who ≠ wid R → ddlLocks c !! db = None → others_step c {| c with ddlLocks := <[db := who]> (ddlLocks c) |}
| oth_unlock c db who : who ≠ wid R → ddlLocks c !! db = Some who → others_step c {| c with ddlLocks := delete db (ddlLocks c) |}.

(** The operator edits the workflow's spec, and pauses and resumes it; the
    copy phase's throttle is recorded beside; another replica takes the claim
    or hands it back. *)
Inductive operator_step : wfrow → wfrow → Prop :=
| op_spec r sp : operator_step r {| r with r_spec := sp |}
| op_throttle r b : operator_step r {| r with r_copyPaused := b |}
| op_owner r o : operator_step r {| r with r_owner := o |}
| op_pause r : r_state r = "running"%string → operator_step r {| r with r_state := "paused" |}
| op_resume r : r_state r = "paused"%string → operator_step r {| r with r_state := "running" |}.

Inductive env : world → world → Prop :=
| env_shard w k s s' : shards w !! k = Some s → shard_step s s' → env w {| w with shards := <[k := s']> (shards w) |}
| env_fwd w s t db u u' sh :
    fwd w !! (s, t, db) = Some u → shards w !! (src R, s) = Some sh → sub_step (wal sh) u u' →
    env w {| w with fwd := <[(s, t, db) := u']> (fwd w) |}
| env_rev w s t db u u' sh :
    bwd w !! (s, t, db) = Some u → shards w !! (tgt R, t) = Some sh → sub_step (wal sh) u u' →
    env w {| w with bwd := <[(s, t, db) := u']> (bwd w) |}
| env_others w c : others_step (cat w) c → env w {| w with cat := c |}
| env_operator w r : operator_step (row (cat w)) r → env w {| w with cat := {| (cat w) with row := r |} |}
(** others pause and resume the shards that are not this run's sources, and
    claim and give up their pauses *)
| env_pause w k s on :
    k.1 ≠ src R → shards w !! k = Some s → env w {| w with shards := <[k := {| s with conf := on |}]> (shards w) |}
| env_claim w k v :
    k.1 ≠ src R → env w {| w with cat := {| (cat w) with claims := partial_alter (λ _, v) k (claims (cat w)) |} |}
| env_clock w n : 0 ≤ n → env w {| w with clock := clock w + n |}
| env_seen w o : env w {| w with seen := o |}.

(** What breaks into the run's pause: somebody else sets or lifts it on a
    source, be it by ALTER SYSTEM or by promoting a standby, or takes the claim
    that stands for it, or a client sets its transaction read write against the
    paused default. *)
Inductive intrudes (w : world) : world → Prop :=
| in_pause k s s' :
    k.1 = src R → shards w !! k = Some s → conf s' ≠ conf s → intrudes w {| w with shards := <[k := s']> (shards w) |}
| in_claim k v :
    k.1 = src R → claims (cat w) !! k ≠ v → intrudes w {| w with cat := {| (cat w) with claims := partial_alter (λ _, v) k (claims (cat w)) |} |}
| in_override k s pid db :
    k.1 = src R → shards w !! k = Some s → xacts s !! pid = None → setting s = true →
    intrudes w {| w with shards := <[k := {| s with sclock := sclock s + 1; xacts := <[pid := mkXact db (sclock s) true false false]> (xacts s) |}]> (shards w) |}.
Definition env_open (w w' : world) : Prop := env w w' ∨ intrudes w w'.

Lemma shard_step_conf s s' : shard_step s s' → conf s' = conf s.
Proof. destruct 1; try done. unfold commit. by destruct (writes x). Qed.
Lemma shard_step_begins s s' pid x :
  shard_step s s' → xacts s !! pid = None → xacts s' !! pid = Some x → x_rw x = true → setting s = false.
Proof.
  intros Hst Hn. assert (∀ p, delete p (xacts s) !! pid = Some x → False) as Hdel by (intros p [_ H]%lookup_delete_Some; congruence).
  assert (∀ p y z, xacts s !! p = Some z → <[p := y]> (xacts s) !! pid = Some x → False) as Hins
    by (intros p y z Hz [[-> _]|[_ H]]%lookup_insert_Some; congruence).
  destruct Hst as [s p db Hp|s p y Hy _|s p y Hy _|s p y Hy|s p|s p y gid _ _ _| | | | | |]; cbn; try congruence; try (intros H; exfalso; eauto; fail).
  - intros [[<- <-]|[_ H]]%lookup_insert_Some; cbn; [|congruence]. by destruct (setting s).
  - unfold commit. destruct (writes y); cbn; intros H; by destruct (Hdel _ H).
Qed.
Lemma cut_no_intruder w w' : env w w' → ¬ intrudes w w'.
Proof.
  intros He Hin.
  assert (∀ k s s', k.1 = src R → shards w !! k = Some s → shards w' !! k = Some s' →
    conf s' = conf s ∧ ∀ pid x, xacts s !! pid = None → xacts s' !! pid = Some x → x_rw x = true → setting s = false) as Hsh.
  { intros k s s' Hk Hs. assert (shards w !! k = Some s' → conf s' = conf s ∧ ∀ pid x, xacts s !! pid = None → xacts s' !! pid = Some x → x_rw x = true → setting s = false) as Hsame.
    { intros H. assert (s' = s) as -> by congruence. split; [done|]. congruence. }
    destruct He as [w0 k0 s0 s0' H0 Hst| | | | |w0 k0 s0 on Hk0 H0| | |]; cbn; try done.
    - intros [[<- <-]|[_ H]]%lookup_insert_Some; [|by auto]. simplify_eq. split; [by apply shard_step_conf|by intros pid x; apply shard_step_begins].
    - intros [[<- <-]|[_ H]]%lookup_insert_Some; [done|by auto]. }
  assert (∀ k, k.1 = src R → claims (cat w') !! k = claims (cat w) !! k) as Hcl.
  { intros k Hk. destruct He as [| | |w0 c Ho| | |w0 k0 v Hk0| |]; cbn; try done; [by destruct Ho|].
    rewrite lookup_partial_alter_ne; [done|congruence]. }
  destruct Hin as [k s s' Hk Hs Hc|k v Hk Hv|k s pid db Hk Hs Hp Hset].
  - destruct (Hsh k s s' Hk Hs) as [? _]; [cbn; by rewrite lookup_insert_eq|done].
  - specialize (Hcl k Hk). cbn in Hcl. rewrite lookup_partial_alter_eq in Hcl. congruence.
  - eassert (false = true) as H; [|done]. rewrite <- Hset. symmetry.
    eapply (Hsh k s _ Hk Hs); [cbn; by rewrite lookup_insert_eq|exact Hp|cbn; by rewrite lookup_insert_eq|done].
Qed.
End Env.

(** ** Programs *)

(** The controllers' clock; a failed connection gives none of the code's own
    errors. *)
#[export] Instance cut_world : World world err := {|
  tick d w := (clock w + Z.max 0 d, {| w with clock := clock w + Z.max 0 d |});
  transient := plain |}.
Abbreviation prog := (Prog.prog world err).

(** What a pass keeps in memory: the workflow as it read it and as the steps
    change it, and the instants of the pauses it raised or found standing. *)
Record wfmem := mkWf { wf_stage : string; wf_cutover : cutoverState; wf_spec : cutoverSpec; wf_copyPaused : bool; wf_fence : string }.
Record mem := mkMem { wf : wfmem; pausedAt : gmap (string * Z) Z }.

(** A Go function over them that may return an error; what it did to the
    memory stays done. *)
Definition M (A : Type) : Type := mem → prog (result err A * mem).
#[export] Instance M_ret : MRet M := λ A a m, Ret (Ok a, m).
#[export] Instance M_bind : MBind M := λ A B f x m,
  pbind (x m) (λ '(r, m), match r with Ok a => f a m | Err e => Ret (Err e, m) end).

Definition fail {A} (e : err) : M A := λ m, Ret (Err e, m).
Definition err_of {X} (r : result err X) : option err := match r with Ok _ => None | Err e => Some e end.
(** The error, if any, in hand rather than returned. *)
Definition attempt {A} (x : M A) : M (result err A) := λ m, pbind (x m) (λ '(r, m), Ret (Ok r, m)).
Definition stmt {X} (f : world → result err X * world) : M X := λ m, Stmt f (λ r, Ret (r, m)).
Definition now : M Z := λ m, Clock 0 (λ t, Ret (Ok t, m)).
Definition sleep (d : Z) : M () := λ m, Clock d (λ _, Ret (Ok (), m)).
Definition get : M mem := λ m, Ret (Ok m, m).
Definition modify (f : mem → mem) : M () := λ m, Ret (Ok (), f m).
Definition when (b : bool) (x : M ()) : M () := if b then x else mret ().

Fixpoint forM {A} (l : list A) (f : A → M ()) : M () :=
  match l with [] => mret () | a :: l => _ ← f a; forM l f end.

(** ** Statements *)

Definition onCat {X} (f : catalog → result err X * catalog) : M X :=
  stmt (λ w, let '(r, c) := f (cat w) in (r, {| w with cat := c |})).
Definition onShard {X} (set : string) (id : Z) (f : shard → result err X * shard) : M X :=
  stmt (λ w, match shards w !! (set, id) with
             | None => (Err (plainf "dial"), w)
             | Some s => let '(r, s) := f s in (r, {| w with shards := <[(set, id) := s]> (shards w) |})
             end).
(** A query. *)
Definition ask {X} (f : world → result err X) : M X := stmt (λ w, (f w, w)).
Definition askShard {X} (set : string) (id : Z) (f : shard → X) : M X :=
  ask (λ w, match shards w !! (set, id) with None => Err (plainf "dial") | Some s => Ok (f s) end).
