(* ===== verification/CutOps.v ===== *)
(** * The PostgreSQL side of a cutover

    [pgCutover] of [src/internal/controller/cutoverpg.go], with [Sequences] and
    [Rollback] of [upgrade.go]: what each step of the cutover asks of the
    catalog and the shards, statement by statement.  [cutoverOps] is the
    interface the state machine of [cutover.go] is written against. *)

From S2P Require Import Prelude Prog Ranges Sequences CutWorld.
From stdpp Require Import pretty.

Local Open Scope Z_scope.

Definition Millisecond : Z := 1000000.
Definition Second : Z := 1000 * Millisecond.

(** ** The interface *)

Class cutoverOps := {
  GateOpen : M (bool * string);
  Fence : M ();
  Drain : M (list string);
  Sweep : M ();
  ReadPositions : M (gmap Z Z);
  CaughtUp : gmap Z Z → M (bool * string);
  RunVerify : M VerifyReport;
  CarrySequences : M ();
  Reverse : M ();
  SchemaFingerprints : M (gmap string string);
  WriteJournal : string → M ();
  Flip : string → M ();
  PauseSources : bool → M ();
  SourcesPaused : M bool;
  DrainSources : M ();
  DisableForward : M ();
  EnableReverse : M ();
  ForwardDisabled : M bool;
  Release : M ();
  Complete : M ();
  Rollback : M ();
  DropJournal : string → M () }.

(** The results of a loop, appended. *)
Fixpoint collect {A B} (l : list A) (f : A → M (list B)) : M (list B) :=
  match l with
  | [] => mret []
  | a :: l => x ← f a; y ← collect l f; mret (x ++ y)
  end.

(** [CopyProgress.CaughtUp] *)
Definition progressCaughtUp (p : CopyProgress) (threshold : Z) : bool :=
  (0 <? Subscriptions p) && (Enumerating p =? 0) && (0 <? TablesTotal p) &&
  (TablesTotal p =? TablesReady p) && (0 <=? LagBytes p) && (LagBytes p <? threshold).

Section Ops.
Context (R : run).

(** [HomeTarget]: the shard that holds keyspace id 0. *)
Definition homeTarget : Z := default 0 (tgtIDs R !! Locate (tgtRanges R) 0).
Definition homeSource : Z := default 0 (srcIDs R !! Locate (srcRanges R) 0).

Definition dbShards (set : string) (ids : list Z) : list (string * (string * Z)) :=
  db ← dbs R; id ← ids; [(db, (set, id))].

(** ** Gate, fence, drain and sweep *)

Definition stalledOn (t : Z) (db : string) : M (list string) := ask (λ w, Ok (o_stalled (seen w) (t, db))).
(** The range a target owns, recorded on it before anything makes it
    writable; nothing below reads it back. *)
Definition writeOwnedRange (t : Z) (db : string) : M () := ask (λ w, Ok ()).

Fixpoint ownRanges (l : list (Z * string)) : M (bool * string) :=
  match l with
  | [] => mret (true, ""%string)
  | (t, db) :: l =>
      r ← attempt (writeOwnedRange t db);
      match r with
      | Err e => mret (false, ("recording the range a target owns: " +:+ e_text e)%string)
      | Ok _ => ownRanges l
      end
  end.

Definition pg_GateOpen : M (bool * string) :=
  progress ← ask (λ w, Ok (o_progress (seen w)));
  if negb (progressCaughtUp progress (lagBytes R)) then mret (false, "the copy has not caught up"%string)
  else if 0 <? Paused progress then mret (false, "subscriptions paused by the throttle"%string)
  else
    stalled ← collect (dbShards (tgt R) (tgtIDs R)) (λ '(db, (_, t)), stalledOn t db);
    if bool_decide (stalled ≠ []) then mret (false, "subscriptions without an apply worker"%string)
    else ownRanges (t ← tgtIDs R; db ← dbs R; [(t, db)]).

Definition takeDDLLocks (c : catalog) : result err () * catalog :=
  (Ok (), {| c with ddlLocks := foldr (λ db m, match m !! db with Some _ => m | None => <[db := wid R]> m end) (ddlLocks c) (dbs R) |}).

(** The transaction that claims the write fence, and whether another workflow
    holds it. *)
Definition raiseFence (c : catalog) : result err bool * catalog :=
  match migrating c !! src R with
  | Some who =>
      if String.eqb who (wid R) then (Ok false, c) else (Ok true, c)
  | None => (Ok false, {| c with migrating := <[src R := wid R]> (migrating c) |})
  end.

Definition pg_Fence : M () :=
  _ ← onCat takeDDLLocks;
  running ← ask (λ w, Ok (o_migrating (seen w)));
  if bool_decide (running ≠ []) then fail (retryf "a migration is still applying; fencing now would split it across both sets") else
  held ← onCat raiseFence;
  if held : bool then fail (plainf "another cutover holds the write fence") else mret ().

(** A pass of the resolver: what it decides of the prepared transactions are
    their own steps. *)
Definition resolve : M () := ask (λ w, Ok ()).
Definition preparedOn (set : string) (s : Z) : M (list string) :=
  gids ← askShard set s prep;
  if bool_decide (gids = []) then mret gids else
  _ ← attempt resolve;
  askShard set s prep.

Definition pg_Drain : M (list string) := collect (srcIDs R) (preparedOn (src R)).

(** The transaction that takes a SHARE lock on every table of a database: it
    times out while a write is in flight there. *)
Definition writesIn (db : string) (x : xact) : bool := writes x && String.eqb (x_db x) db.
Definition shareLock (set : string) (s : Z) (db : string) : M () :=
  ask (λ w, match shards w !! (set, s) with
            | None => Err (plainf "dial")
            | Some sh => if bool_decide (map_Exists (λ _ x, writesIn db x = true) (xacts sh)) then Err errLockTimeout else Ok ()
            end).
Definition sweepOne (set : string) (s : Z) (db : string) : M () :=
  tables ← ask (λ w, Ok (o_tables (seen w) (set, s, db)));
  if bool_decide (tables = []) then mret () else
  r ← attempt (shareLock set s db);
  match r with
  | Ok _ => mret ()
  | Err e => fail (if e_lockTimeout e then retryf "lock timeout: a write is still in flight" else e)
  end.
Definition pg_Sweep : M () := forM (dbShards (src R) (srcIDs R)) (λ '(db, (set, s)), sweepOne set s db).

(** ** Positions *)

Definition currentLSN (set : string) (id : Z) : M Z := askShard set id wal.
Fixpoint positionsOf (set : string) (ids : list Z) : M (gmap Z Z) :=
  match ids with
  | [] => mret ∅
  | s :: ids => lsn ← currentLSN set s; m ← positionsOf set ids; mret (<[s := lsn]> m)
  end.
Definition pg_Positions : M (gmap Z Z) := positionsOf (src R) (srcIDs R).

(** [nothingToCompare]: one complaint a case. *)
Definition nothingToCompare (positions : gmap Z Z) : list string :=
  (if bool_decide (srcIDs R = []) then ["no source shards to compare"%string] else []) ++
  (if bool_decide (tgtIDs R = []) then ["no target shards to compare"%string] else []) ++
  (s ← srcIDs R; if 0 <? default 0 (positions !! s) then [] else ["a source has no recorded position"%string]).

Definition slotsBehind {K} `{Countable K} (expected : list K) (flushed : gmap K Z) (want : Z) : list string :=
  k ← expected;
  match flushed !! k with
  | None => ["missing"%string]
  | Some v => if v <? 0 then ["has no confirmed flush position"%string]
              else if v <? want then ["is behind"%string] else []
  end.

(** The publisher slots of a source, by target and database. *)
Definition fwdSlots (s : Z) (w : world) : gmap (Z * string) Z :=
  list_to_map (t ← tgtIDs R; db ← dbs R;
    match fwd w !! (s, t, db) ≫= slot with Some v => [((t, db), v)] | None => [] end).
Definition expectedSlots (ids : list Z) : list (Z * string) := db ← dbs R; t ← ids; [(t, db)].

Definition behindOn (positions : gmap Z Z) (s : Z) : M (list string) :=
  match positions !! s with
  | Some want =>
      if want <=? 0 then mret [] else
      flushed ← ask (λ w, match shards w !! (src R, s) with None => Err (plainf "dial") | Some _ => Ok (fwdSlots s w) end);
      mret (slotsBehind (expectedSlots (tgtIDs R)) flushed want)
  | None => mret []
  end.
Definition pg_CaughtUp (positions : gmap Z Z) : M (bool * string) :=
  behind ← collect (srcIDs R) (behindOn positions);
  if bool_decide (nothingToCompare positions ++ behind ≠ []) then mret (false, "subscriptions behind the source position"%string)
  else mret (true, ""%string).

(** ** Verification, reverse replication, the journal *)

(** The digests of both sides are compared by SQL; the report is the world's. *)
Definition pg_Verify : M VerifyReport := ask (λ w, Ok (o_verify (seen w))).

(** [reversePublishOn]: publications on a target, which nothing below reads. *)
Definition reversePublishOn (t : Z) (db : string) : M () := ask (λ w, Ok ()).

(** The reverse subscription of a pair: disabled, no initial copy, a slot on
    the target from where its log is now. *)
Definition createReverse (s t : Z) (db : string) : M () :=
  stmt (λ w, match shards w !! (src R, s), shards w !! (tgt R, t) with
             | Some _, Some sh => (Ok (), {| w with bwd := <[(s, t, db) := mkSub false (wal sh) (Some (wal sh))]> (bwd w) |})
             | _, _ => (Err (plainf "dial"), w)
             end).
Definition reverseSubscribeOn (s : Z) (db : string) : M () :=
  existing ← ask (λ w, Ok (filter (λ t, is_Some (bwd w !! (s, t, db))) (tgtIDs R)));
  forM (tgtIDs R) (λ t, if bool_decide (t ∈ existing) then mret () else createReverse s t db).
Definition pg_Reverse : M () :=
  forM (dbs R) (λ db,
    _ ← forM (tgtIDs R) (λ t, reversePublishOn t db);
    forM (srcIDs R) (λ s, reverseSubscribeOn s db)).

Definition schemaKey (set : string) (id : Z) (db : string) : string := set +:+ "/" +:+ pretty id +:+ "/" +:+ db.
Fixpoint fingerprints (l : list (string * (string * Z))) : M (gmap string string) :=
  match l with
  | [] => mret ∅
  | (db, (set, id)) :: l =>
      fp ← ask (λ w, Ok (o_fingerprint (seen w) (set, id, db)));
      m ← fingerprints l;
      mret (<[schemaKey set id db := fp]> m)
  end.
Definition pg_SchemaFingerprints : M (gmap string string) :=
  fingerprints (dbShards (src R) (srcIDs R) ++ dbShards (tgt R) (tgtIDs R)).

(** [schemaDrift]: the recorded hashes that are not today's. *)
Definition schemaDrift : M (list string) :=
  m ← get;
  let want := default ∅ (Schema (wf_cutover (wf m))) in
  if bool_decide (want = ∅) then mret [] else
  now ← pg_SchemaFingerprints;
  mret (sort_strings (omap (λ '(key, before), match now !! key with
                       | Some after => if String.eqb after before then None else Some key
                       | None => None
                       end) (map_to_list want))).

(** The journal row of one source database: the workflow's own write, through
    the pause, which moves the source's log and no client's data. *)
Definition journalOn (s : Z) (db id : string) : M () :=
  stmt (λ w, match shards w !! (src R, s) with
             | None => (Err (plainf "dial"), w)
             | Some sh => (Ok (), {| w with journal := journal w ∪ {[(s, db, id)]};
                                            shards := <[(src R, s) := {| sh with wal := wal sh + 1 |}]> (shards w) |})
             end).
Definition journalCat (id : string) (c : catalog) : result err () * catalog :=
  (Ok (), {| c with reshardJournal := reshardJournal c ∪ {[id]} |}).
Definition pg_Journal (id : string) : M () :=
  _ ← positionsOf (tgt R) (tgtIDs R);
  _ ← forM (dbShards (src R) (srcIDs R)) (λ '(db, (_, s)), journalOn s db id);
  onCat (journalCat id).

(** A source that cannot be reached keeps its rows. *)
Definition dial (set : string) (id : Z) : M () := askShard set id (λ _, ()).
Definition dropJournalOn (s : Z) (db id : string) : M () :=
  r ← attempt (dial (src R) s);
  match r with
  | Err _ => mret ()
  | Ok _ => stmt (λ w, (Ok (), {| w with journal := journal w ∖ {[(s, db, id)]} |}))
  end.
Definition pg_DropJournal (id : string) : M () :=
  if String.eqb id "" then mret () else
  forM (dbShards (src R) (srcIDs R)) (λ '(db, (_, s)), dropJournalOn s db id).

(** ** The flip *)

Definition ShardSetServing : string := "serving".
Definition ShardSetRetired : string := "retired".

Definition servingSets (c : catalog) : list string :=
  sort_strings (filter (λ '(_, st), st = ShardSetServing) (map_to_list (setState c))).*1.

Definition stillSoleServing (set : string) (c : catalog) : option err :=
  let serving := servingSets c in
  if bool_decide (serving = [set]) then None
  else if bool_decide (set ∉ serving) then Some (sourceRetired "the set no longer serves; another workflow published while this one was switching")
  else Some (plainf "the set is no longer the only serving shard set").

(** The map turned from [from] to [to]: what both directions write. *)
Definition publish (from to : string) (home : Z) (c : catalog) : catalog :=
  {| c with servingState := <[from := ShardSetRetired]> (<[to := ShardSetServing]> (servingState c));
            setState := <[from := ShardSetRetired]> (<[to := ShardSetServing]> (setState c));
            serving := serving c ∪ {[to]};
            homes := (λ _, home) <$> homes c;
            mapGeneration := mapGeneration c + 1 |}.

Definition flip (c : catalog) : result err () * catalog :=
  match setState c !! tgt R with
  | None => (Err errNoRows, c)
  | Some state =>
      if String.eqb state ShardSetServing then (Ok (), c)
      else match stillSoleServing (src R) c with
           | Some e => (Err e, c)
           | None => (Ok (), {| (publish (src R) (tgt R) homeTarget c) with migrating := delete (tgt R) (migrating c) |})
           end
  end.
Definition pg_Flip (journalID : string) : M () := onCat flip.

(** ** Forward and reverse replication *)

Definition onDial {X} (set : string) (id : Z) (f : world → result err X * world) : M X :=
  stmt (λ w, match shards w !! (set, id) with None => (Err (plainf "dial"), w) | Some _ => f w end).
Definition askDial {X} (set : string) (id : Z) (f : world → X) : M X := onDial set id (λ w, (Ok (f w), w)).

(** ALTER SUBSCRIPTION … ENABLE and DISABLE, of a pair in one database. *)
Definition alterSub (to : bool) (k : Z * Z * string) (m : gmap (Z * Z * string) sub) : result err () * gmap (Z * Z * string) sub :=
  match m !! k with
  | None => (Err (plainf "subscription does not exist"), m)
  | Some u => (Ok (), <[k := {| u with enabled := to |}]> m)
  end.
Definition onFwd (f : gmap (Z * Z * string) sub → result err () * gmap (Z * Z * string) sub) (w : world) : result err () * world :=
  let '(r, m) := f (fwd w) in (r, {| w with fwd := m |}).
Definition onBwd (f : gmap (Z * Z * string) sub → result err () * gmap (Z * Z * string) sub) (w : world) : result err () * world :=
  let '(r, m) := f (bwd w) in (r, {| w with bwd := m |}).

(** The names [alterSubscriptions] finds: [pg_subscription] is shared by the
    databases of a server and a pair's subscription has one name in all of
    them, so a name is listed for each database that has it in that state. *)
Definition isEnabled (st : bool) (k : Z * Z * string) (m : gmap (Z * Z * string) sub) : bool :=
  match m !! k with Some u => Bool.eqb (enabled u) st | None => false end.
Definition fwdNamed (t : Z) (st : bool) (w : world) : list Z :=
  s ← srcIDs R; db ← dbs R; if isEnabled st (s, t, db) (fwd w) then [s] else [].
Definition revNamed (s : Z) (st : bool) (w : world) : list Z :=
  t ← tgtIDs R; db ← dbs R; if isEnabled st (s, t, db) (bwd w) then [t] else [].
(** [alterSubscriptions] on a target, of the forward ones, and on a source, of
    the reverse ones: each name listed is altered in the connection's own
    database. *)
Definition disableForwardOn (t : Z) (db : string) : M () :=
  names ← askDial (tgt R) t (fwdNamed t true);
  forM names (λ s, onDial (tgt R) t (onFwd (alterSub false (s, t, db)))).
Definition enableReverseOn (s : Z) (db : string) : M () :=
  names ← askDial (src R) s (revNamed s false);
  forM names (λ t, onDial (src R) s (onBwd (alterSub true (s, t, db)))).
Definition pg_DisableForward : M () :=
  forM (dbShards (tgt R) (tgtIDs R)) (λ '(db, (_, t)), disableForwardOn t db).
Definition pg_EnableReverse : M () :=
  forM (dbShards (src R) (srcIDs R)) (λ '(db, (_, s)), enableReverseOn s db).

(** Any of them, not all: the walk may have stopped half way.  The count is
    over [pg_subscription] again. *)
Fixpoint anyDisabled (l : list (string * (string * Z))) : M bool :=
  match l with
  | [] => mret false
  | (_, (set, t)) :: l =>
      names ← askDial set t (fwdNamed t false);
      if bool_decide (names ≠ []) then mret true else anyDisabled l
  end.
Definition pg_ForwardDisabled : M bool := anyDisabled (dbShards (tgt R) (tgtIDs R)).

(** ** The write pause *)

Definition claimPause (set : string) (ids : list Z) (c : catalog) : result err () * catalog :=
  (Ok (), {| c with claims := foldr (λ id m, <[(set, id) := (wid R, None)]> m) (claims c) ids |}).
Definition ours (c : catalog) (k : string * Z) : bool :=
  match claims c !! k with Some (who, _) => String.eqb who (wid R) | None => false end.
Definition claimedShards (set : string) (ids : list Z) : M (list Z) :=
  ask (λ w, Ok (filter (λ id, ours (cat w) (set, id) = true) ids)).
Definition dropPauseClaim (set : string) (ids : list Z) (c : catalog) : result err () * catalog :=
  (Ok (), {| c with claims := foldr (λ id m, if ours c (set, id) then delete (set, id) m else m) (claims c) ids |}).
Definition abandonPauseClaim (set : string) (ids : list Z) (c : catalog) : result err () * catalog :=
  (Ok (), {| c with claims := foldr (λ id m, delete (set, id) m) (claims c) ids |}).
Definition recordPauseInstants (set : string) (ids : list Z) : M () :=
  m ← get;
  onCat (λ c, (Ok (), {| c with claims :=
    foldr (λ id cl, match pausedAt m !! (set, id) with
                    | Some at_ => if ours c (set, id) then <[(set, id) := (wid R, Some at_)]> cl else cl
                    | None => cl
                    end) (claims c) ids |})).

Definition pauseConfirmTimeout : Z := 15 * Second.
Definition refusesWrites (set : string) (s : Z) : M bool := askShard set s setting.
Definition shardNow (set : string) (s : Z) : M Z := askShard set s sclock.

(** The wait for the reloaded setting: each round sleeps 50 ms, so the
    deadline passes within 301 of them. *)
Fixpoint confirmPause (fuel : nat) (deadline : Z) (set : string) (s : Z) : M Z :=
  match fuel with
  | O => fail (plainf "did not start refusing writes in time")
  | S fuel =>
      on ← refusesWrites set s;
      if on : bool then shardNow set s
      else
        t ← now;
        if deadline <? t then fail (plainf "did not start refusing writes in time")
        else _ ← sleep (50 * Millisecond); confirmPause fuel deadline set s
  end.
Definition alterSystem (set : string) (s : Z) (on : bool) : M () :=
  onShard set s (λ sh, (Ok (), {| sh with conf := on |})).
(** [pg_reload_conf()]: the new setting reaches transactions by and by. *)
Definition reloadConf (set : string) (s : Z) : M () := askShard set s (λ _, ()).
(** [setReadOnly]; the instant is only read when pausing. *)
Definition setReadOnly (set : string) (s : Z) (pause : bool) : M (option Z) :=
  _ ← alterSystem set s pause;
  _ ← reloadConf set s;
  if negb pause then mret None else
  t ← now;
  at_ ← confirmPause 302 (t + pauseConfirmTimeout) set s;
  mret (Some at_).
Definition pauseOne (set : string) (pause : bool) (s : Z) : M () :=
  at_ ← setReadOnly set s pause;
  modify (λ m, {| m with pausedAt := match at_ with Some t => <[(set, s) := t]> (pausedAt m) | None => delete (set, s) (pausedAt m) end |}).
Definition pauseSet (set : string) (ids : list Z) (pause : bool) : M () := forM ids (pauseOne set pause).
Definition pauseSetClaimed (set : string) (ids : list Z) (pause : bool) : M () :=
  if pause then
    _ ← onCat (claimPause set ids);
    _ ← pauseSet set ids true;
    recordPauseInstants set ids
  else
    claimed ← claimedShards set ids;
    _ ← pauseSet set claimed false;
    onCat (dropPauseClaim set ids).
Definition pg_PauseSources (pause : bool) : M () := pauseSetClaimed (src R) (srcIDs R) pause.

Definition instantsOf (set : string) (ids : list Z) (c : catalog) : list (Z * Z) :=
  omap (λ id, match claims c !! (set, id) with
              | Some (who, Some at_) => if String.eqb who (wid R) then Some (id, at_) else None
              | _ => None
              end) ids.
Fixpoint allRefuse (set : string) (ids : list Z) : M bool :=
  match ids with
  | [] => mret true
  | s :: ids => on ← refusesWrites set s; if on : bool then allRefuse set ids else mret false
  end.
Definition pg_SourcesPaused : M bool :=
  instants ← ask (λ w, Ok (instantsOf (src R) (srcIDs R) (cat w)));
  if negb (length instants =? length (srcIDs R))%nat then mret false else
  on ← allRefuse (src R) (srcIDs R);
  if negb on then mret false else
  _ ← modify (λ m, {| m with pausedAt := foldl (λ p '(id, at_), <[(src R, id) := at_]> p) (pausedAt m) instants |});
  mret true.

(** ** Draining the writers *)

(** A backend [pg_stat_activity] lists: it holds a transaction id, or it began
    before the instant the pause was confirmed. *)
Definition listed (since : option Z) (x : xact) : bool :=
  x_xid x || match since with Some at_ => x_start x <? at_ | None => false end.
Definition maybeTemp (since : option Z) (x : xact) : bool :=
  match since with Some at_ => x_xid x && (at_ <=? x_start x) | None => false end.
Definition activity (since : option Z) (sh : shard) : list (Z * xact) :=
  filter (λ '(_, x), listed since x = true) (map_to_list (xacts sh)).
(** Those of the pids whose locks are all on temporary relations. *)
Definition writingOnlyTemporaryTables (set : string) (s : Z) (db : string) (pids : list Z) : M (list Z) :=
  askShard set s (λ sh, filter (λ pid, match xacts sh !! pid with
                                       | Some x => x_temp x && String.eqb (x_db x) db
                                       | None => false
                                       end = true) pids).
Definition tempOnly (set : string) (s : Z) (maybe : list (Z * xact)) (db : string) : M (list Z) :=
  r ← attempt (writingOnlyTemporaryTables set s db (filter (λ '(_, x), x_db x = db) maybe).*1);
  mret (match r with Ok pids => pids | Err _ => [] end).
Definition writingBackendsOn (set : string) (s : Z) : M (list Z) :=
  m ← get;
  let since := pausedAt m !! (set, s) in
  found ← askShard set s (activity since);
  let maybe := filter (λ '(_, x), maybeTemp since x = true ∧ x_db x ≠ ""%string) found in
  temp ← collect (remove_dups ((λ '(_, x), x_db x) <$> maybe)) (tempOnly set s maybe);
  mret (filter (λ pid, pid ∉ temp) found.*1).
Definition writingBackends (set : string) (ids : list Z) : M (list Z) := collect ids (writingBackendsOn set).

Definition DefaultCutoverTimeout : Z := 60 * Second.
Definition cutoverTimeout : Z := if 0 <? CutoverTimeout R then CutoverTimeout R else DefaultCutoverTimeout.

(** [fenceRemaining] *)
Definition fenceRemaining : M (option Z) :=
  m ← get;
  match FencedAt (wf_cutover (wf m)) with
  | Some at_ =>
      if negb (String.eqb (JournalID (wf_cutover (wf m))) "") then mret None else
      t ← now;
      let left := cutoverTimeout - (t - at_) in
      mret (Some (if left <=? 0 then Millisecond else left))
  | None => mret None
  end.
Definition writerDrainTimeout : Z := 30 * Second.
(** Each round sleeps 100 ms. *)
Fixpoint drainLoop (fuel : nat) (deadline : Z) (set : string) (ids : list Z) : M () :=
  match fuel with
  | O => fail (plainf "write transactions still open")
  | S fuel =>
      busy ← writingBackends set ids;
      if bool_decide (busy = []) then mret () else
      t ← now;
      if deadline <? t then fail (plainf "write transactions still open")
      else _ ← sleep (100 * Millisecond); drainLoop fuel deadline set ids
  end.
Definition drainWriters (set : string) (ids : list Z) : M () :=
  left ← fenceRemaining;
  let wait := match left with Some l => if l <? writerDrainTimeout then l else writerDrainTimeout | None => writerDrainTimeout end in
  t ← now;
  drainLoop 302 (t + wait) set ids.
Definition pg_DrainSources : M () := drainWriters (src R) (srcIDs R).

(** ** Sequences *)

Definition excluded : list string := ["pgshard"%string; "pgshard_journal"%string].
Definition snapshotOn (set : string) (s : Z) (db : string) : M (gmap string Value) :=
  askShard set s (λ sh, Snapshot excluded (default ∅ (seqs sh !! db))).
Fixpoint mergeSources (set : string) (ids : list Z) (db : string) (values : gmap string Value) : M (gmap string Value) :=
  match ids with
  | [] => mret values
  | s :: ids => from ← snapshotOn set s db; mergeSources set ids db (Sequences.Merge values from)
  end.
Fixpoint sourceSequences (set : string) (ids : list Z) (l : list string) : M (gmap string (gmap string Value)) :=
  match l with
  | [] => mret ∅
  | db :: l => values ← mergeSources set ids db ∅; out ← sourceSequences set ids l; mret (<[db := values]> out)
  end.
(** [Apply] on one target: an error leaves what came before it applied. *)
Definition applyOn (set : string) (t : Z) (db : string) (values : gmap string Value) : M () :=
  onShard set t (λ sh,
    let '(q, e) := Apply (default ∅ (seqs sh !! db)) values in
    (match e with None => Ok () | Some e => Err (plainf e) end, {| sh with seqs := <[db := q]> (seqs sh) |})).
Definition syncSequences (fromSet : string) (fromIDs : list Z) (toSet : string) (toIDs : list Z) : M () :=
  all ← sourceSequences fromSet fromIDs (dbs R);
  forM (dbs R) (λ db,
    let values := default ∅ (all !! db) in
    if bool_decide (values = ∅) then mret () else forM toIDs (λ t, applyOn toSet t db values)).
Definition pg_Sequences : M () := syncSequences (src R) (srcIDs R) (tgt R) (tgtIDs R).

(** ** Release and completion *)

Definition dropFence (set : string) (c : catalog) : catalog :=
  {| c with migrating := match migrating c !! set with
                         | Some who => if String.eqb who (wid R) then delete set (migrating c) else migrating c
                         | None => migrating c
                         end |}.
Definition dropLocks (c : catalog) : catalog := {| c with ddlLocks := filter (λ '(_, who), who ≠ wid R) (ddlLocks c) |}.
Definition release (c : catalog) : result err () * catalog := (Ok (), dropLocks (dropFence (src R) c)).
Definition pg_Release : M () := onCat release.

(** [dropSubscriptionsLike]: of this database only; each is disabled, parted
    from its slot, which stays on the publisher, and dropped. *)
Definition dropSub (k : Z * Z * string) (m : gmap (Z * Z * string) sub) : result err () * gmap (Z * Z * string) sub :=
  match m !! k with None => (Err (plainf "subscription does not exist"), m) | Some _ => (Ok (), delete k m) end.
Definition dropRevSubs (s : Z) (db : string) : M () :=
  names ← askDial (src R) s (λ w, filter (λ t, is_Some (bwd w !! (s, t, db))) (tgtIDs R));
  forM names (λ t,
    _ ← onDial (src R) s (onBwd (alterSub false (s, t, db)));
    _ ← dial (src R) s;
    onDial (src R) s (onBwd (dropSub (s, t, db)))).
Definition dropFwdSubs (t : Z) (db : string) : M () :=
  names ← askDial (tgt R) t (λ w, filter (λ s, is_Some (fwd w !! (s, t, db))) (srcIDs R));
  forM names (λ s,
    _ ← onDial (tgt R) t (onFwd (alterSub false (s, t, db)));
    _ ← dial (tgt R) t;
    onDial (tgt R) t (onFwd (dropSub (s, t, db)))).
(** What only drops slots and publications whose subscriptions are gone. *)
Definition dropLeftovers (set : string) (id : Z) : M () := dial set id.
(** A source that cannot be dialled is passed over. *)
Definition onSource (s : Z) (x : M ()) : M () :=
  r ← attempt (dial (src R) s);
  match r with Err _ => mret () | Ok _ => x end.

Definition setIsServing (set : string) : M bool :=
  ask (λ w, match setState (cat w) !! set with None => Err errNoRows | Some st => Ok (String.eqb st ShardSetServing) end).

(** The generations whose reverse subscriptions a primary holds; one that
    cannot be asked blocks itself. *)
Fixpoint otherGenerations (set : string) (ids : list Z) : M (list (Z * option (list Z))) :=
  match ids with
  | [] => mret []
  | s :: ids =>
      r ← attempt (ask (λ w, match shards w !! (set, s) with None => Err (plainf "dial") | Some _ => Ok (o_otherRev (seen w) (set, s)) end));
      rest ← otherGenerations set ids;
      mret ((s, match r with Ok g => Some g | Err _ => None end) :: rest)
  end.
Definition liveReplicationInto (set : string) (ids : list Z) : M (list Z) :=
  gens ← otherGenerations set ids;
  if bool_decide ((g ← gens; default [] g.2) = []) then mret (filter (λ g, g.2 = None) gens).*1 else
  live ← ask (λ w, Ok (o_liveGens (seen w)));
  mret (filter (λ g, g.2 = None ∨ Exists (λ n, n ∈ live) (default [] g.2)) gens).*1.

(** The retired set is made read-only for good, best effort. *)
Definition retireSet (set : string) (ids : list Z) : M () :=
  blocked ← attempt (liveReplicationInto set ids);
  match blocked with
  | Err _ => mret ()
  | Ok blocked =>
      let pause := filter (λ s, s ∉ blocked) ids in
      if bool_decide (pause = []) then mret () else
      _ ← attempt (onCat (abandonPauseClaim set ids));
      _ ← attempt (pauseSet set pause true);
      mret ()
  end.
Definition completeTail : M () :=
  r ← attempt (setIsServing (src R));
  match r with
  | Err _ => mret ()
  | Ok false => retireSet (src R) (srcIDs R)
  | Ok true =>
      r ← attempt (setIsServing (tgt R));
      match r with
      | Ok false => retireSet (tgt R) (tgtIDs R)
      | _ => mret ()
      end
  end.
Definition pg_Complete : M () :=
  _ ← forM (dbs R) (λ db,
    _ ← forM (srcIDs R) (λ s, onSource s (dropRevSubs s db));
    forM (tgtIDs R) (λ t, _ ← dropFwdSubs t db; dropLeftovers (tgt R) t));
  _ ← forM (tgtIDs R) (dropLeftovers (tgt R));
  _ ← forM (srcIDs R) (λ s, onSource s (
    _ ← dropLeftovers (src R) s;
    forM (dbs R) (λ _, dropLeftovers (src R) s)));
  _ ← onCat (λ c, (Ok (), {| c with serving := serving c ∖ {[src R]} |}));
  completeTail.

(** ** Rollback *)

Definition claimBoth (c : catalog) : result err () * catalog :=
  (Ok (), {| c with migrating := foldr (λ set m, match m !! set with None => <[set := wid R]> m | Some _ => m end) (migrating c) [src R; tgt R] |}).
Definition heldByOther (c : catalog) : bool :=
  existsb (λ set, match migrating c !! set with Some who => negb (String.eqb who (wid R)) | None => false end) [src R; tgt R].
Definition dropBoth (c : catalog) : catalog := dropFence (tgt R) (dropFence (src R) c).
Definition releaseRollback : M () := onCat (λ c, (Ok (), dropLocks (dropBoth c))).

Definition revSlots (t : Z) (w : world) : gmap (Z * string) Z :=
  list_to_map (s ← srcIDs R; db ← dbs R;
    match bwd w !! (s, t, db) ≫= slot with Some v => [((s, db), v)] | None => [] end).
Definition reverseBehind (positions : gmap Z Z) : M (list string) :=
  collect (tgtIDs R) (λ t,
    flushed ← ask (λ w, match shards w !! (tgt R, t) with None => Err (plainf "dial") | Some _ => Ok (revSlots t w) end);
    mret (slotsBehind (expectedSlots (srcIDs R)) flushed (default 0 (positions !! t)))).

Definition flipBack (c : catalog) : result err () * catalog :=
  match setState c !! src R with
  | None => (Err errNoRows, c)
  | Some state =>
      if String.eqb state ShardSetServing then (Ok (), c)
      else match stillSoleServing (tgt R) c with
           | Some e => (Err e, c)
           | None => (Ok (), let c := publish (tgt R) (src R) homeSource c in {| c with serving := serving c ∖ {[tgt R]} |})
           end
  end.

(** Under the pause: drained, replicated back, sequences carried, flipped. *)
Definition returnServing : M () :=
  _ ← drainWriters (tgt R) (tgtIDs R);
  positions ← positionsOf (tgt R) (tgtIDs R);
  behind ← reverseBehind positions;
  if bool_decide (behind ≠ []) then fail (retryf "reverse subscriptions behind the target position") else
  _ ← syncSequences (tgt R) (tgtIDs R) (src R) (srcIDs R);
  onCat flipBack.

Definition pg_Rollback : M () :=
  serving ← setIsServing (src R);
  if serving : bool then
    _ ← pauseSetClaimed (tgt R) (tgtIDs R) true;
    releaseRollback
  else
  applying ← ask (λ w, Ok (o_migrating (seen w)));
  if bool_decide (applying ≠ []) then fail (retryf "a migration is still applying") else
  drifted ← schemaDrift;
  if bool_decide (drifted ≠ []) then
    _ ← onCat (λ c, (Ok (), dropBoth c));
    _ ← pauseSetClaimed (tgt R) (tgtIDs R) false;
    fail (errRollbackRefused "schema changed since the switch")
  else
  _ ← onCat claimBoth;
  held ← ask (λ w, Ok (heldByOther (cat w)));
  if held : bool then fail (plainf "another cutover holds the write fence") else
  _ ← pauseSetClaimed (tgt R) (tgtIDs R) true;
  r ← attempt returnServing;
  match r with
  | Err e => _ ← attempt (pauseSetClaimed (tgt R) (tgtIDs R) false); fail e
  | Ok _ => releaseRollback
  end.

Definition pgCutover : cutoverOps := {|
  GateOpen := pg_GateOpen; Fence := pg_Fence; Drain := pg_Drain; Sweep := pg_Sweep; ReadPositions := pg_Positions;
  CaughtUp := pg_CaughtUp; RunVerify := pg_Verify; CarrySequences := pg_Sequences; Reverse := pg_Reverse;
  SchemaFingerprints := pg_SchemaFingerprints; WriteJournal := pg_Journal; Flip := pg_Flip; PauseSources := pg_PauseSources;
  SourcesPaused := pg_SourcesPaused; DrainSources := pg_DrainSources; DisableForward := pg_DisableForward;
  EnableReverse := pg_EnableReverse; ForwardDisabled := pg_ForwardDisabled; Release := pg_Release; Complete := pg_Complete;
  Rollback := pg_Rollback; DropJournal := pg_DropJournal |}.
End Ops.
