(* ===== verification/Cutover.v ===== *)
(** * The cutover's state machine

    [src/internal/controller/cutover.go]: one pass advances a workflow through
    the stages, and within [switching] through the steps of the write switch
    from the one on record.  The side effects are [cutoverOps]; the record is
    saved in the workflow's row, from which the next pass, of this replica or
    of another, goes on. *)

From S2P Require Import Prelude Prog CutWorld CutOps.

Local Open Scope Z_scope.

(** ** Stages and steps *)

Definition StageCatchUpDone : string := "catch_up_done".
Definition StageAwaitingSwitch : string := "awaiting_switch_writes".
Definition StageSwitching : string := "switching".
Definition StageSwitched : string := "switched".
Definition StageRollingBack : string := "rolling_back".
Definition StageRolledBack : string := "rolled_back".
Definition StageCompleting : string := "completing".
Definition StageCompleted : string := "completed".
Definition StageFailed : string := "failed".

Definition StateRunning : string := "running".
Definition StateCompleted : string := "completed".
Definition StateFailed : string := "failed".
Definition StateCancelled : string := "cancelled".

Definition StepFence : string := "fence".
Definition StepDrain : string := "drain".
Definition StepSweep : string := "sweep".
Definition StepPositions : string := "positions".
Definition StepCatchUp : string := "catch_up".
Definition StepVerify : string := "verify".
Definition StepSequences : string := "sequences".
Definition StepReverse : string := "reverse".
Definition StepQuiesce : string := "quiesce".
Definition StepJournal : string := "journal".
Definition StepFlip : string := "flip".
Definition StepSwap : string := "swap_replication".
Definition StepRelease : string := "release".

Definition switchSteps : list string :=
  [StepFence; StepDrain; StepSweep; StepPositions; StepCatchUp; StepVerify; StepReverse; StepQuiesce; StepSequences;
   StepJournal; StepFlip; StepSwap; StepRelease].

(** [slices.Index] *)
Definition indexOf (step : string) : Z :=
  match list_find (λ s, s = step) switchSteps with Some (i, _) => Z.of_nat i | None => -1 end.
Definition beforeJournal (step : string) : bool := indexOf step <? indexOf StepJournal.
Definition nextStep (step : string) : string :=
  let i := indexOf step in
  if (i <? 0) || (Z.of_nat (length switchSteps) <=? i + 1) then ""%string
  else default ""%string (switchSteps !! Z.to_nat (i + 1)).

Definition PauseSwitchWrites : string := "switchWrites".
Definition PauseComplete : string := "complete".
Definition paused (s : cutoverSpec) (point : string) : bool :=
  String.eqb (PauseBefore s) point && negb (bool_decide (point ∈ Proceed s)).

Definition DefaultRetireAfter : Z := 3600 * Second.
Definition retireAfter (s : cutoverSpec) : Z :=
  match RetireAfterMS s with
  | Some ms => if 0 <=? ms then ms * Millisecond
               else if 0 <? RetireAfterSeconds s then RetireAfterSeconds s * Second else DefaultRetireAfter
  | None => if 0 <? RetireAfterSeconds s then RetireAfterSeconds s * Second else DefaultRetireAfter
  end.

Definition DefaultCutoverAttempts : Z := 3.

(** ** The record in memory and in the row *)

Definition cut : M cutoverState := m ← get; mret (wf_cutover (wf m)).
Definition setCut (f : cutoverState → cutoverState) : M () :=
  modify (λ m, {| m with wf := {| (wf m) with wf_cutover := f (wf_cutover (wf m)) |} |}).
Definition setStage (s : string) : M () := modify (λ m, {| m with wf := {| (wf m) with wf_stage := s |} |}).

Definition stampStep (t : Z) (c : cutoverState) : cutoverState := {| c with StepSince := Some t; StepRetries := 0 |}.

(** The record as its JSON comes back: an empty map is not written. *)
Definition stored (c : cutoverState) : cutoverState :=
  {| c with Schema := match Schema c with Some m => if bool_decide (m = ∅) then None else Some m | None => None end |}.

Section Machine.
Context (R : run) {ops : cutoverOps}.

Definition cutoverAttempts : Z := if 0 <? CutoverAttempts R then CutoverAttempts R else DefaultCutoverAttempts.

(** [ownedExec] on the row: it must still be this replica's, in the state the
    pass began from. *)
Definition owned (fence : string) (r : wfrow) : bool := String.eqb (r_owner r) (replica R) && String.eqb (r_state r) fence.
Definition saveRow (w : wfmem) (c : catalog) : result err () * catalog :=
  if owned (wf_fence w) (row c)
  then (Ok (), {| c with row := {| (row c) with r_stage := wf_stage w; r_cutover := stored (wf_cutover w) |} |})
  else (Err errNotOwner, c).
Definition finishRow (w : wfmem) (state : string) (c : catalog) : result err () * catalog :=
  if owned (wf_fence w) (row c)
  then (Ok (), {| c with row := {| (row c) with r_state := state; r_stage := wf_stage w; r_cutover := stored (wf_cutover w) |} |})
  else (Err errNotOwner, c).
Definition saveCutover : M () := m ← get; onCat (saveRow (wf m)).
Definition finishCutover (state : string) : M () :=
  m ← get;
  _ ← onCat (finishRow (wf m) state);
  modify (λ m, {| m with wf := {| (wf m) with wf_fence := state |} |}).
Definition NewJournalID : M string := ask (λ w, Ok (o_newID (seen w))).

(** A claim is taken from nobody, from this replica itself, or from an owner
    that let the lease run out. *)
Definition claimable (over : bool) (r : wfrow) : bool :=
  String.eqb (r_owner r) "" || String.eqb (r_owner r) (replica R) || over.
Definition claimWorkflow : M bool :=
  stmt (λ w, if claimable (o_leaseOver (seen w)) (row (cat w))
             then (Ok true, with_cat (λ c, {| c with row := {| (row c) with r_owner := replica R |} |}) w)
             else (Ok false, w)).
Definition holdClaim : M () :=
  onCat (λ c, (if String.eqb (r_owner (row c)) (replica R) then Ok () else Err errNotOwner, c)).

(** [holdAt] and [released] *)
Definition holdAt (point : string) : M () :=
  c ← cut;
  if String.eqb (Pause c) point then mret () else
  t ← now;
  setCut (λ c, {| c with Pause := point; PausedAt := Some t |}).
Definition released : M () := setCut (λ c, {| c with Pause := ""; PausedAt := None |}).

(** ** The gate *)

Definition gate : M bool :=
  '(open, why) ← GateOpen;
  if negb open then
    _ ← setCut (λ c, {| c with Gate := why |}); _ ← saveCutover; mret false
  else
  m ← get;
  if paused (wf_spec (wf m)) PauseSwitchWrites then
    _ ← setCut (λ c, {| c with Gate := "paused before switchWrites" |});
    _ ← holdAt PauseSwitchWrites;
    _ ← saveCutover; mret false
  else
  _ ← setCut (λ c, {| c with Gate := "" |});
  _ ← released;
  _ ← setCut (λ c, {| c with Step := StepFence |});
  _ ← setStage StageSwitching;
  _ ← saveCutover; mret true.

(** ** Quiescing the sources *)

Definition lift (waiting : bool) (e : option err) : M (bool * option err) :=
  r ← attempt (PauseSources false); mret (waiting, Join e (err_of r)).

Definition quiesceSources : M (bool * option err) :=
  r ← attempt (PauseSources true);
  match r with
  | Err e => lift false (Some e)
  | Ok _ =>
  r ← attempt DrainSources;
  match r with
  | Err e => lift true (Some (retryf (e_text e)))
  | Ok _ =>
  r ← attempt Drain;
  match r with
  | Err e => lift false (Some e)
  | Ok prepared =>
  if bool_decide (prepared ≠ []) then lift true (Some (retryf "prepared transactions")) else
  r ← attempt ReadPositions;
  match r with
  | Err e => lift false (Some e)
  | Ok pos =>
  r ← attempt (CaughtUp pos);
  match r with
  | Err e => lift false (Some e)
  | Ok (ok, why) => if negb ok then lift true (Some (retryf why)) else mret (false, None)
  end end end end end.

(** ** The steps *)

(** A step's [return waiting, err]; an error of its calls is [return false, err]. *)
Definition done : M (bool * option err) := mret (false, None).
Definition wait (why : string) : M (bool * option err) := mret (true, Some (retryf why)).

Definition stepFence : M (bool * option err) :=
  _ ← Fence;
  c ← cut;
  match FencedAt c with
  | Some _ => done
  | None => t ← now; _ ← setCut (λ c, {| c with FencedAt := Some t |}); done
  end.

Definition stepDrain : M (bool * option err) :=
  remaining ← Drain;
  if bool_decide (remaining ≠ []) then wait "prepared transactions" else done.

Definition stepCatchUp : M (bool * option err) :=
  c ← cut;
  '(ok, why) ← CaughtUp (Positions c);
  if negb ok then wait why else done.

Definition stepVerify : M (bool * option err) :=
  report ← RunVerify;
  c ← cut;
  let previous := Verify c in
  _ ← setCut (λ c, {| c with Verify := Some report |});
  if bool_decide (Mismatches report ≠ []) then
    if bool_decide (Mismatches <$> previous = Some (Mismatches report))
    then fail (fatal "verification failed, the same digests twice")
    else wait "digests disagree, asking again"
  else done.

Definition stepSequences : M (bool * option err) :=
  c ← cut;
  match Schema c with
  | None =>
      _ ← setCut (λ c, {| c with Step := StepReverse |});
      wait "reverse replication was never created; running reverse and quiesce first"
  | Some _ => _ ← CarrySequences; done
  end.

Definition stepReverse : M (bool * option err) :=
  _ ← Reverse;
  fps ← SchemaFingerprints;
  _ ← setCut (λ c, {| c with Schema := Some fps |});
  done.

Definition stepJournal : M (bool * option err) :=
  c ← cut;
  _ ← (if String.eqb (JournalID c) "" then
         id ← NewJournalID;
         _ ← setCut (λ c, {| c with JournalID := id |});
         saveCutover
       else mret ());
  c ← cut;
  _ ← WriteJournal (JournalID c);
  done.

(** The targets hold what the sources have: the positions now, and the slots
    past them. *)
Definition confirmCaughtUp (k : M (bool * option err)) : M (bool * option err) :=
  pos ← ReadPositions;
  '(ok, why) ← CaughtUp pos;
  if negb ok then wait why else k.

Definition doFlip : M (bool * option err) :=
  c ← cut;
  _ ← Flip (JournalID c);
  match FlippedAt c with
  | Some _ => done
  | None =>
      t ← now;
      _ ← setCut (λ c, {| c with FlippedAt := Some t;
                                 PauseMS := match FencedAt c with Some f => (t - f) ÷ Millisecond | None => PauseMS c end |});
      done
  end.

Definition stepFlip : M (bool * option err) :=
  stood ← SourcesPaused;
  if stood : bool then
    r ← attempt DrainSources;
    match r with
    | Err e => wait (e_text e)
    | Ok _ => confirmCaughtUp doFlip
    end
  else
    q ← quiesceSources;
    if fst q || bool_decide (snd q ≠ None) then mret q
    else confirmCaughtUp doFlip.

Definition finishSwap : M (bool * option err) :=
  _ ← CarrySequences;
  c ← cut;
  _ ← (match DisablingAt c with
       | Some _ => mret ()
       | None => t ← now; _ ← setCut (λ c, {| c with DisablingAt := Some t |}); saveCutover
       end);
  _ ← DisableForward;
  _ ← PauseSources false;
  _ ← EnableReverse;
  done.

Definition stepSwap : M (bool * option err) :=
  disabled ← ForwardDisabled;
  c ← cut;
  let resuming := disabled && bool_decide (DisablingAt c ≠ None) in
  stood ← SourcesPaused;
  _ ← when (negb stood) (PauseSources true);
  r ← attempt DrainSources;
  match r with
  | Err e =>
      if negb stood && negb resuming then
        l ← attempt (PauseSources false);
        mret (true, Join (Some (retryf (e_text e))) (err_of l))
      else wait (e_text e)
  | Ok _ => if resuming then finishSwap else confirmCaughtUp finishSwap
  end.

Definition stepRelease : M (bool * option err) :=
  _ ← Release;
  c ← cut;
  match ReleasedAt c with
  | Some _ => done
  | None =>
      t ← now;
      _ ← setCut (λ c, {| c with ReleasedAt := Some t;
                                 FenceMS := match FencedAt c with Some f => (t - f) ÷ Millisecond | None => FenceMS c end |});
      done
  end.

Definition runStep (step : string) : M (bool * option err) :=
  if String.eqb step StepFence then stepFence
  else if String.eqb step StepDrain then stepDrain
  else if String.eqb step StepSweep then _ ← Sweep; done
  else if String.eqb step StepPositions then pos ← ReadPositions; _ ← setCut (λ c, {| c with Positions := pos |}); done
  else if String.eqb step StepCatchUp then stepCatchUp
  else if String.eqb step StepVerify then stepVerify
  else if String.eqb step StepQuiesce then quiesceSources
  else if String.eqb step StepSequences then stepSequences
  else if String.eqb step StepReverse then stepReverse
  else if String.eqb step StepJournal then stepJournal
  else if String.eqb step StepFlip then stepFlip
  else if String.eqb step StepSwap then stepSwap
  else if String.eqb step StepRelease then stepRelease
  else fail (fatal "unknown switch step").

(** ** Undoing a switch *)

Definition mayAbort (c : cutoverState) : bool := bool_decide (FencedAt c ≠ None) && String.eqb (JournalID c) "".

(** The fence has stood for longer than the cutover may take. *)
Definition overdue (step : string) : M bool :=
  c ← cut;
  if mayAbort c && beforeJournal step then
    t ← now; mret (match FencedAt c with Some f => cutoverTimeout R <? t - f | None => false end)
  else mret false.

Definition abortSwitch (reason : string) : M bool :=
  _ ← holdClaim;
  _ ← PauseSources false;
  _ ← Release;
  _ ← setCut (λ c, {| c with Attempts := Attempts c + 1; Aborts := Aborts c ++ [reason];
                             Step := ""; FencedAt := None; Positions := ∅ |});
  c ← cut;
  if cutoverAttempts <=? Attempts c then fail (fatal "switch aborted too often")
  else _ ← setStage StageAwaitingSwitch; _ ← saveCutover; mret true.

Definition abandonSwitch : M bool :=
  c ← cut;
  _ ← DropJournal (JournalID c);
  _ ← Release;
  _ ← Complete;
  _ ← setStage StageFailed;
  _ ← finishCutover StateFailed;
  mret true.

(** ** The switch *)

(** A step failed: [Some] is what the pass returns, [None] that the step waits. *)
Definition stepFailed (step : string) (e : err) : M (option bool) :=
  if e_retired e then b ← abandonSwitch; mret (Some b)
  else if negb (beforeJournal step) then
    _ ← setCut (λ c, {| c with StepRetries := StepRetries c + 1 |});
    _ ← saveCutover;
    fail e
  else if negb (e_retry e) then
    if e_fatal e then
      _ ← holdClaim; _ ← PauseSources false; _ ← Release; fail e
    else
      late ← overdue step;
      if late : bool then b ← abortSwitch "the step did not finish in time"; mret (Some b) else fail e
  else mret None.

Definition stepWaits (step : string) : M bool :=
  late ← overdue step;
  if late : bool then abortSwitch "the step did not finish in time"
  else _ ← saveCutover; mret false.

(** A step is done: [None] goes on with the next. *)
Definition stepDone (step : string) : M (option bool) :=
  late ← overdue step;
  if late : bool then b ← abortSwitch "the fence had been held over the limit"; mret (Some b) else
  let next := nextStep step in
  t ← now;
  _ ← setCut (λ c, stampStep t {| c with Step := next |});
  if String.eqb next "" then
    t ← now;
    _ ← setCut (λ c, {| c with SwitchedAt := Some t |});
    _ ← setStage StageSwitched;
    _ ← saveCutover;
    mret (Some true)
  else _ ← saveCutover; mret None.

(** What follows a step; [k] is the rest of the loop. *)
Definition afterStep (step : string) (r : result err (bool * option err)) (k : M bool) : M bool :=
  let '(waiting, e) := match r with Ok q => q | Err e => (false, Some e) end in
  v ← (match e with Some e => stepFailed step e | None => mret None end);
  match v with
  | Some b => mret b
  | None =>
      if waiting || bool_decide (e ≠ None) then stepWaits step
      else v ← stepDone step; match v with Some b => mret b | None => k end
  end.

(** The steps only go forward, so 13 rounds are enough from any of them. *)
Fixpoint switchLoop (fuel : nat) : M bool :=
  match fuel with
  | O => fail (plainf "unreachable: the switch steps do not end")
  | S fuel =>
      c ← cut;
      let step := Step c in
      if String.eqb step "" then mret true
      else r ← attempt (runStep step); afterStep step r (switchLoop fuel)
  end.

Definition switchWrites : M bool :=
  c ← cut;
  _ ← (if String.eqb (Step c) "" then t ← now; setCut (λ c, stampStep t {| c with Step := StepFence |}) else mret ());
  switchLoop 14.

(** ** Retirement and rollback *)

Definition retire : M bool :=
  m ← get;
  hold ← (match SwitchedAt (wf_cutover (wf m)) with
          | Some at_ =>
              let retireAt := at_ + retireAfter (wf_spec (wf m)) in
              _ ← setCut (λ c, {| c with RetireAt := Some retireAt |});
              t ← now;
              mret (0 <? retireAt - t)
          | None => mret false
          end);
  if hold : bool then _ ← saveCutover; mret false else
  if paused (wf_spec (wf m)) PauseComplete then
    _ ← holdAt PauseComplete; _ ← saveCutover; mret false
  else
  _ ← released;
  _ ← setStage StageCompleting;
  _ ← saveCutover; mret true.

Definition rollback : M bool :=
  r ← attempt Rollback;
  match r with
  | Err e =>
      if e_retry e then
        _ ← setCut (λ c, {| c with RollbackRetries := RollbackRetries c + 1 |});
        c ← cut;
        if cutoverAttempts <=? RollbackRetries c then
          _ ← setStage StageSwitched;
          _ ← setCut (λ c, {| c with RollbackRefused := "rollback gave up: " +:+ e_text e |});
          _ ← saveCutover; mret true
        else _ ← saveCutover; mret false
      else if e_refused e then
        _ ← setStage StageSwitched;
        _ ← setCut (λ c, {| c with RollbackRefused := e_text e |});
        _ ← saveCutover; mret true
      else fail e
  | Ok _ =>
      _ ← Complete;
      _ ← setStage StageRolledBack;
      _ ← finishCutover StateCancelled; mret true
  end.

(** ** One pass *)

Definition cutoverPass : M bool :=
  m ← get;
  let stage := wf_stage (wf m) in
  if String.eqb stage StageCatchUpDone then
    if wf_copyPaused (wf m) then _ ← saveCutover; mret false
    else _ ← setStage StageAwaitingSwitch; _ ← saveCutover; mret true
  else if String.eqb stage StageAwaitingSwitch then gate
  else if String.eqb stage StageSwitching then switchWrites
  else if String.eqb stage StageSwitched then
    _ ← when (negb (RollbackAsked (wf_spec (wf m)))) (setCut (λ c, {| c with RollbackRefused := ""; RollbackRetries := 0 |}));
    c ← cut;
    if RollbackAsked (wf_spec (wf m)) && String.eqb (RollbackRefused c) "" then
      _ ← setStage StageRollingBack; _ ← saveCutover; mret true
    else retire
  else if String.eqb stage StageRollingBack then rollback
  else if String.eqb stage StageCompleting then
    _ ← Complete;
    _ ← setStage StageCompleted;
    _ ← finishCutover StateCompleted; mret true
  else mret false.

(** What [pinSource] and [pgCutover] read before: the source set, which the
    copy recorded, its ranges, and the databases. *)
Definition readRun : M () := ask (λ w, Ok ()).
Definition driveCutover : M bool := _ ← holdClaim; _ ← readRun; _ ← readRun; cutoverPass.

(** A fatal error fails the workflow; the replication objects of the run go
    with it, as far as they can be reached. *)
Definition dropReplication : M () :=
  _ ← readRun;
  _ ← forM (srcIDs R) (λ s, forM (dbs R) (λ db, _ ← attempt (dropRevSubs R s db); mret ()));
  forM (dbs R) (λ db, forM (tgtIDs R) (λ t, _ ← attempt (dropFwdSubs R t db); mret ())).
Definition failRow (w : wfmem) (c : catalog) : result err () * catalog :=
  if owned (wf_fence w) (row c)
  then (Ok (), {| c with row := {| (row c) with r_state := StateFailed; r_stage := StageFailed |} |})
  else (Err errNotOwner, c).
Definition failWorkflow : M () := _ ← attempt dropReplication; m ← get; onCat (failRow (wf m)).
(** [save] after any other error: the message and the copy's progress, which
    are not modelled. *)
Definition saveMessage : M () :=
  m ← get; onCat (λ c, (if owned (wf_fence (wf m)) (row c) then Ok () else Err errNotOwner, c)).

Definition cutoverStages : list string :=
  [StageCatchUpDone; StageAwaitingSwitch; StageSwitching; StageSwitched; StageRollingBack; StageCompleting].

(** What [Pass] does of one workflow of the cutover's: it claims the row,
    drives it, and fails it when the error is fatal. *)
Definition driveWorkflow : M () :=
  held ← claimWorkflow;
  if negb held then mret () else
  r ← attempt driveCutover;
  match r with
  | Ok _ => mret ()
  | Err e => if e_notOwner e then mret () else if e_fatal e then failWorkflow else saveMessage
  end.
Definition load (r : wfrow) : mem := mkMem (mkWf (r_stage r) (r_cutover r) (r_spec r) (r_copyPaused r) (r_state r)) ∅.
Definition Pass : prog () :=
  Stmt (λ w, (Ok (row (cat w)), w)) (λ r : result err wfrow,
    match r with
    | Ok r => if String.eqb (r_state r) StateRunning && bool_decide (r_stage r ∈ cutoverStages)
              then pbind (driveWorkflow (load r)) (λ _, Ret ())
              else Ret ()
    | Err _ => Ret ()
    end).
End Machine.
