(* ===== verification/CutLogic.v ===== *)
(** * Triples for controller passes

    Triples over [M], which compose along the Go code, on the logic of [Prog];
    and programs all of whose statements are of one kind. *)

From S2P Require Import Prelude Prog CutWorld.

Local Open Scope Z_scope.

(** The system of one run, and the logic for it. *)
Abbreviation sys_step R := (Prog.sys_step (env R)).
Abbreviation wp R := (Prog.wp (env R)).

Lemma tick_env R d (w : world) : env R w (tick d w).2.
Proof. cbn. constructor. lia. Qed.

(** ** Triples *)

Abbreviation assertion := (mem → world → Prop).

(** No error of a statement or of an ordinary helper is one that ends the
    workflow. *)
Definition soft (e : err) : Prop := e_fatal e = false ∧ e_retired e = false.
Definition soft_res {A} (r : result err A) : Prop := match r with Ok _ => True | Err e => soft e end.
Lemma plain_soft e : plain e → soft e.
Proof. intros (? & ? & ? & _). by split. Qed.

Section Triples.
Context (R : run) (Inv : world → Prop) (G : world → world → Prop).
Hypothesis env_inv : ∀ w w', env R w w' → Inv w → Inv w'.
Hypothesis guar_refl : ∀ w, Inv w → G w w.
Local Notation wp := (Prog.wp (env R) Inv G).
Local Notation good := (good Inv G).

Definition stable (P : assertion) : Prop := ∀ m w w', env R w w' → Inv w → P m w → P m w'.

Definition tri {A} (P : assertion) (x : M A) (Q : result err A → assertion) : Prop :=
  ∀ m w, Inv w → P m w → wp (x m) w (λ '(r, m') w', Inv w' ∧ Q r m' w').

Lemma stable_envs (P : assertion) m w w' : stable P → rtc (env R) w w' → Inv w → P m w → P m w' ∧ Inv w'.
Proof. intros HP. induction 1 as [|w1 w2 w3 He _ IH]; [done|]. intros Hi Hm. apply IH; eauto. Qed.

Lemma stableA_and P Q : stable P → stable Q → stable (λ m w, P m w ∧ Q m w).
Proof. intros HP HQ m w w' He Hi [? ?]. split; eauto. Qed.
Lemma stableA_or P Q : stable P → stable Q → stable (λ m w, P m w ∨ Q m w).
Proof. intros HP HQ m w w' He Hi [?|?]; [left|right]; eauto. Qed.
Lemma stableA_mem (P : mem → Prop) : stable (λ m _, P m).
Proof. intros m w w' _ _. done. Qed.

Lemma tri_mono {A} (P P' : assertion) (x : M A) (Q Q' : result err A → assertion) :
  (∀ m w, Inv w → P' m w → P m w) → (∀ r m w, Inv w → Q r m w → Q' r m w) → tri P x Q → tri P' x Q'.
Proof.
  intros HP HQ Hx m w Hi Hm. eapply wp_mono; [|by apply Hx; auto].
  intros [r m'] w' [? ?]. split; auto.
Qed.

Lemma tri_pre {A} (P P' : assertion) (x : M A) (Q : result err A → assertion) :
  (∀ m w, Inv w → P' m w → P m w) → tri P x Q → tri P' x Q.
Proof. intros HP Hx m w Hi Hm. auto. Qed.
Lemma tri_post {A} (P : assertion) (x : M A) (Q Q' : result err A → assertion) :
  (∀ r m w, Inv w → Q r m w → Q' r m w) → tri P x Q → tri P x Q'.
Proof. intros HQ. by apply tri_mono. Qed.

Lemma tri_ret {A} (P : assertion) (a : A) (Q : result err A → assertion) :
  (∀ m w, Inv w → P m w → Q (Ok a) m w) → tri P (mret a) Q.
Proof. intros H m w Hi Hm. cbn. auto. Qed.
Lemma tri_fail {A} (P : assertion) e (Q : result err A → assertion) :
  (∀ m w, Inv w → P m w → Q (Err e) m w) → tri P (fail e) Q.
Proof. intros H m w Hi Hm. cbn. auto. Qed.

Lemma tri_bind {A B} (P : assertion) (x : M A) (f : A → M B) Q (S : result err B → assertion) :
  tri P x Q → (∀ a, tri (Q (Ok a)) (f a) S) → (∀ e m w, Inv w → Q (Err e) m w → S (Err e) m w) → tri P (x ≫= f) S.
Proof.
  intros Hx Hf He m w Hi Hm. unfold mbind, M_bind. apply wp_bind. eapply wp_mono; [|by apply Hx].
  intros [[a|e] m'] w' [Hi' HQ]; [by apply Hf|]. cbn. auto.
Qed.

Lemma tri_attempt {A} (P : assertion) (x : M A) (Q : result err (result err A) → assertion) :
  tri P x (λ r, Q (Ok r)) → tri P (attempt x) Q.
Proof.
  intros Hx m w Hi Hm. unfold attempt. apply wp_bind. eapply wp_mono; [|by apply Hx]. intros [r m'] w' H. exact H.
Qed.

Lemma tri_stmt {X} (P : assertion) (f : world → result err X * world) (Q : result err X → assertion) :
  stable P →
  (∀ m w, Inv w → P m w →
    good w (f w).2 ∧ Q (f w).1 m (f w).2 ∧ ∀ e, plain e → Q (Err e) m w ∧ Q (Err e) m (f w).2) →
  tri P (stmt f) Q.
Proof.
  intros HP H m w Hi Hm w1 He _. destruct (stable_envs P m w w1 HP He Hi Hm) as [Hm1 Hi1].
  destruct (H m w1 Hi1 Hm1) as (Hg & HQ & Hf). split; [done|]. cbn. destruct Hg as [Hg1 Hg2].
  split; [done|]. intros e Hp. destruct (Hf e Hp). auto.
Qed.

Lemma tri_ask {X} (P : assertion) (f : world → result err X) (Q : result err X → assertion) :
  stable P →
  (∀ m w, Inv w → P m w → Q (f w) m w ∧ ∀ e, plain e → Q (Err e) m w) →
  tri P (ask f) Q.
Proof.
  intros HP H. apply tri_stmt; [done|]. intros m w Hi Hm. destruct (H m w Hi Hm) as [HQ He]. cbn.
  split; [split; auto|]. split; [done|]. intros e Hp. auto.
Qed.

Lemma tri_now (P : assertion) (Q : result err Z → assertion) :
  stable P → (∀ m w, Inv w → P m w → Q (Ok (clock w)) m w) → tri P now Q.
Proof.
  intros HP H m w Hi Hm w1 He _. destruct (stable_envs P m w w1 HP He Hi Hm) as [Hm1 Hi1]. cbn.
  assert (env R w1 {| w1 with clock := clock w1 + 0 |}) as Hc by (constructor; lia).
  split; [eauto|]. apply (H m {| w1 with clock := clock w1 + 0 |}); eauto.
Qed.

Lemma tri_sleep (P : assertion) d (Q : result err () → assertion) :
  stable P → (∀ m w, Inv w → P m w → Q (Ok ()) m w) → tri P (sleep d) Q.
Proof.
  intros HP H m w Hi Hm w1 He _. destruct (stable_envs P m w w1 HP He Hi Hm) as [Hm1 Hi1]. cbn.
  assert (env R w1 {| w1 with clock := clock w1 + Z.max 0 d |}) as Hc by (constructor; lia). split; eauto.
Qed.

Lemma tri_get (P : assertion) (Q : result err mem → assertion) :
  (∀ m w, Inv w → P m w → Q (Ok m) m w) → tri P get Q.
Proof. intros H m w Hi Hm. cbn. auto. Qed.
Lemma tri_modify (P : assertion) f (Q : result err () → assertion) :
  (∀ m w, Inv w → P m w → Q (Ok ()) (f m) w) → tri P (modify f) Q.
Proof. intros H m w Hi Hm. cbn. auto. Qed.

(** The same in front of a continuation. *)
Lemma tri_now_bind {B} (P : assertion) (f : Z → M B) (S : result err B → assertion) :
  stable P → (∀ t, tri (λ m w, P m w ∧ t ≤ clock w) (f t) S) → tri P (now ≫= f) S.
Proof.
  intros HP Hf. eapply (tri_bind _ _ _ (λ r m w, match r with Ok t => P m w ∧ t ≤ clock w | Err _ => False end)); [|done|done].
  apply tri_now; [done|]. intros m w _ ?. split; [done|lia].
Qed.
Lemma tri_sleep_bind {B} (P : assertion) d (f : () → M B) (S : result err B → assertion) :
  stable P → tri P (f ()) S → tri P (sleep d ≫= f) S.
Proof.
  intros HP Hf. eapply (tri_bind _ _ _ (λ r m w, match r with Ok _ => P m w | Err _ => False end)); [|by intros []|done].
  by apply tri_sleep.
Qed.
Lemma tri_get_bind {B} (P : assertion) (f : mem → M B) (S : result err B → assertion) :
  (∀ m0, tri (λ m w, m = m0 ∧ P m w) (f m0) S) → tri P (get ≫= f) S.
Proof.
  intros Hf. eapply (tri_bind _ _ _ (λ r m w, match r with Ok m0 => m = m0 ∧ P m w | Err _ => False end)); [|done|done].
  by apply tri_get.
Qed.
Lemma tri_modify_bind {B} (P P' : assertion) g (f : () → M B) (S : result err B → assertion) :
  (∀ m w, Inv w → P m w → P' (g m) w) → tri P' (f ()) S → tri P (modify g ≫= f) S.
Proof.
  intros Hg Hf. eapply (tri_bind _ _ _ (λ r m w, match r with Ok _ => P' m w | Err _ => False end)); [|by intros []|done].
  by apply tri_modify.
Qed.
(** Any result of [x] is in hand. *)
Lemma tri_try_bind {A B} (P : assertion) (x : M A) (f : result err A → M B) (Q : result err A → assertion) S :
  tri P x Q → (∀ r, tri (Q r) (f r) S) → tri P (attempt x ≫= f) S.
Proof.
  intros Hx Hf. eapply (tri_bind _ _ _ (λ r, match r with Ok r => Q r | Err _ => λ _ _, False end)); [|done|done].
  by apply tri_attempt.
Qed.

Lemma tri_forM {A} (l : list A) (f : A → M ()) (I : list A → assertion) (E : err → assertion) :
  (∀ l1 a l2, l = l1 ++ a :: l2 → tri (I l1) (f a) (λ r, match r with Ok _ => I (l1 ++ [a]) | Err e => E e end)) →
  tri (I []) (forM l f) (λ r, match r with Ok _ => I l | Err e => E e end).
Proof.
  intros H. assert (∀ l2 l1, l = l1 ++ l2 → tri (I l1) (forM l2 f) (λ r, match r with Ok _ => I l | Err e => E e end)) as Hg.
  { induction l2 as [|a l2 IH]; intros l1 El; cbn [forM].
    - rewrite app_nil_r in El. subst. by apply tri_ret.
    - eapply tri_bind; [by apply (H l1 a l2)| |done]. intros []. apply IH. by rewrite El, <- app_assoc. }
  by apply (Hg l []).
Qed.

Lemma tri_case {A X} (r : result err X) (P : result err X → assertion) (x : X → M A) (y : err → M A) Q :
  (∀ a, tri (P (Ok a)) (x a) Q) → (∀ e, tri (P (Err e)) (y e) Q) →
  tri (P r) (match r with Ok a => x a | Err e => y e end) Q.
Proof. destruct r; auto. Qed.

Lemma tri_pure {A} (P : assertion) (x : M A) Q (φ : Prop) :
  (∀ m w, P m w → φ) → (φ → tri P x Q) → tri P x Q.
Proof. intros H1 H2 m w Hi Hm. by apply H2; [eapply H1|..]. Qed.

Lemma tri_or {A} (P P' : assertion) (x : M A) Q : tri P x Q → tri P' x Q → tri (λ m w, P m w ∨ P' m w) x Q.
Proof. intros H1 H2 m w Hi [?|?]; auto. Qed.

(** *** Programs all of whose statements are of one kind *)

Section Kind.
Context (T : world → world → Prop) (E : mem → mem → Prop) `{!PreOrder E}.

Fixpoint within {A} (p : prog A) (post : A → Prop) : Prop :=
  match p with
  | Ret a => post a
  | Stmt f k => (∀ w, T w (f w).2) ∧ (∀ w, within (k (f w).1) post) ∧ ∀ e, plain e → within (k (Err e)) post
  | Clock d k => ∀ t, within (k t) post
  end.

(** The memory changes as [E] allows, and errors are soft. *)
Definition keeps {A} (x : M A) : Prop := ∀ m, within (x m) (λ '(r, m'), E m m' ∧ soft_res r).

Lemma within_mono {A} (p : prog A) (post post' : A → Prop) : (∀ a, post a → post' a) → within p post → within p post'.
Proof.
  intros H. induction p as [a|X f k IH|d k IH]; cbn; [apply H| |].
  - intros (? & ? & ?). split_and!; auto.
  - intros ? ?. auto.
Qed.
Lemma within_bind {A B} (p : prog A) (f : A → prog B) post :
  within p (λ a, within (f a) post) → within (pbind p f) post.
Proof.
  induction p as [a|X g k IH|d k IH]; cbn; [done| |].
  - intros (? & ? & ?). split_and!; auto.
  - intros ? ?. auto.
Qed.

Lemma keeps_ret {A} (a : A) : keeps (mret a).
Proof. intros m. by cbn. Qed.
Lemma keeps_fail {A} e : soft e → keeps (fail (A := A) e).
Proof. intros H m. by cbn. Qed.
Lemma keeps_bind {A B} (x : M A) (f : A → M B) : keeps x → (∀ a, keeps (f a)) → keeps (x ≫= f).
Proof.
  intros Hx Hf m. unfold mbind, M_bind. apply within_bind. eapply within_mono; [|apply Hx].
  intros [[a|e] m'] [? ?]; [|by cbn]. eapply within_mono; [|apply Hf].
  intros [r m''] [? ?]. split; [by etrans|done].
Qed.
Lemma keeps_attempt {A} (x : M A) : keeps x → keeps (attempt x).
Proof. intros Hx m. unfold attempt. apply within_bind. eapply within_mono; [|apply Hx]. by intros [r m'] [? ?]. Qed.
Lemma keeps_try {A B} (x : M A) (f : result err A → M B) :
  keeps x → (∀ r, soft_res r → keeps (f r)) → keeps (attempt x ≫= f).
Proof.
  intros Hx Hf m. unfold mbind, M_bind, attempt. apply within_bind, within_bind. eapply within_mono; [|apply Hx].
  intros [r m'] [? Hs]. cbn. eapply within_mono; [|by apply Hf]. intros [r' m''] [? ?]. split; [by etrans|done].
Qed.
Lemma keeps_stmt {X} (f : world → result err X * world) :
  (∀ w, T w (f w).2) → (∀ w, soft_res (f w).1) → keeps (stmt f).
Proof. intros H1 H2 m. cbn. split_and!; [done|by intros w|]. intros e He. split; [done|by apply plain_soft]. Qed.
Lemma keeps_ask {X} (f : world → result err X) : (∀ w, T w w) → (∀ w, soft_res (f w)) → keeps (ask f).
Proof. intros HT H. by apply keeps_stmt. Qed.
Lemma keeps_now : keeps now.
Proof. intros m t. by cbn. Qed.
Lemma keeps_sleep d : keeps (sleep d).
Proof. intros m t. by cbn. Qed.
Lemma keeps_get : keeps get.
Proof. intros m. by cbn. Qed.
Lemma keeps_modify f : (∀ m, E m (f m)) → keeps (modify f).
Proof. intros H m. by cbn. Qed.
Lemma keeps_forM {A} (l : list A) f : (∀ a, keeps (f a)) → keeps (forM l f).
Proof. intros Hf. induction l; cbn [forM]; [apply keeps_ret|]. apply keeps_bind; auto. Qed.

Lemma tri_within {A} (P : assertion) (x : M A) (post : mem → result err A * mem → Prop) :
  stable P → (∀ m w w', Inv w → P m w → T w w' → good w w' ∧ P m w') →
  (∀ m, within (x m) (post m)) →
  ∀ m w, Inv w → P m w → wp (x m) w (λ a w', Inv w' ∧ P m w' ∧ post m a).
Proof.
  intros HP HT Hx m w. specialize (Hx m). revert w Hx. generalize (x m). intros p.
  induction p as [a|X f k IH|d k IH]; cbn; intros w Hx Hi Hm; [done| |].
  - intros w1 He _. destruct (stable_envs P m w w1 HP He Hi Hm) as [Hm1 Hi1]. destruct Hx as (Hf & Hk & Herr).
    destruct (HT m w1 (f w1).2 Hi1 Hm1 (Hf w1)) as [[Hg1 Hg2] Hm2].
    split; [done|]. split; [by apply IH|]. intros e Hp. split; apply IH; auto.
  - intros w1 He _. destruct (stable_envs P m w w1 HP He Hi Hm) as [Hm1 Hi1].
    assert (env R w1 {| w1 with clock := clock w1 + Z.max 0 d |}) as Hc by (constructor; lia). apply IH; eauto.
Qed.

(** *** The same, with more said of the result *)

Definition reports {A} (ρ : result err A → Prop) (x : M A) : Prop := ∀ m, within (x m) (λ '(r, m'), E m m' ∧ ρ r).
Lemma reports_ret {A} (ρ : result err A → Prop) a : ρ (Ok a) → reports ρ (mret a).
Proof. intros H m. by cbn. Qed.
Lemma reports_fail {A} (ρ : result err A → Prop) e : ρ (Err e) → reports ρ (fail e).
Proof. intros H m. by cbn. Qed.
Lemma reports_bind {A B} (ρ : result err B → Prop) (x : M A) (f : A → M B) :
  (∀ e, soft e → ρ (Err e)) → keeps x → (∀ a, reports ρ (f a)) → reports ρ (x ≫= f).
Proof.
  intros He Hx Hf m. unfold mbind, M_bind. apply within_bind. eapply within_mono; [|apply Hx].
  intros [[a|e] m'] [? ?]; [|cbn; auto]. eapply within_mono; [|apply Hf].
  intros [r m''] [? ?]. split; [by etrans|done].
Qed.
Lemma reports_try {A B} (ρ : result err A → Prop) (ρ' : result err B → Prop) (x : M A) (f : result err A → M B) :
  reports ρ x → (∀ r, ρ r → reports ρ' (f r)) → reports ρ' (attempt x ≫= f).
Proof.
  intros Hx Hf m. unfold mbind, M_bind, attempt. apply within_bind, within_bind. eapply within_mono; [|apply Hx].
  intros [r m'] [? Hs]. cbn. eapply within_mono; [|by apply Hf]. intros [r' m''] [? ?]. split; [by etrans|done].
Qed.
Lemma reports_stmt {X} (ρ : result err X → Prop) (f : world → result err X * world) :
  (∀ w, T w (f w).2) → (∀ w, ρ (f w).1) → (∀ e, plain e → ρ (Err e)) → reports ρ (stmt f).
Proof. intros H1 H2 H3 m. cbn. split_and!; [done|by intros w|]. intros e He. split; [done|by apply H3]. Qed.
Lemma tri_reports {A} (P : assertion) ρ (x : M A) :
  stable P → (∀ m m' w, E m m' → P m w → P m' w) →
  (∀ m w w', Inv w → P m w → T w w' → good w w' ∧ P m w') →
  reports ρ x → tri P x (λ r m w, P m w ∧ ρ r).
Proof.
  intros HP HE HT Hx m w Hi Hm. eapply wp_mono; [|by apply (tri_within P x (λ m '(r, m'), E m m' ∧ ρ r))].
  intros [r m'] w' (? & ? & ? & ?). eauto.
Qed.

Lemma tri_keeps {A} (P : assertion) (x : M A) :
  stable P → (∀ m m' w, E m m' → P m w → P m' w) →
  (∀ m w w', Inv w → P m w → T w w' → good w w' ∧ P m w') →
  keeps x → tri P x (λ r m w, P m w ∧ soft_res r).
Proof. intros HP HE HT Hx. by apply tri_reports. Qed.
End Kind.
End Triples.
