(* ===== verification/CutInv.v ===== *)
(** * What a cutover keeps true

    The invariant of the world a switch is run in, by the step on record: from
    the end of the quiesce until forward replication is off the sources are
    shut, and once the targets serve they hold everything the sources ever
    committed.  The guarantee adds what a single step may do.  This file
    defines both, and shows that the environment respects them, as do three
    kinds of statements: [calm] ones, which touch nothing of it, [leashed] ones
    and [tame] ones, which are harmless while the sources need not be shut. *)

From S2P Require Import Prelude Prog CutWorld CutOps Cutover CutLogic.

Local Open Scope Z_scope.

Section Inv.
Context (R : run).

(** ** Shards *)

(** No transaction open or prepared on the shard can commit client data any
    more, and none that could will begin. *)
Definition closed (sh : shard) : Prop :=
  conf sh = true ∧ setting sh = true ∧ (∀ pid x, xacts sh !! pid = Some x → x_rw x = false) ∧ prep sh = [].

(** Every source is closed, under this run's claim with its instant. *)
Definition shut (w : world) : Prop :=
  ∀ s, s ∈ srcIDs R → ∃ sh at_, shards w !! (src R, s) = Some sh ∧ closed sh ∧
    claims (cat w) !! (src R, s) = Some (wid R, Some at_).

(** The target holds everything the source committed. *)
Definition holds (sh : shard) (u : sub) : Prop := committed sh ≤ applied u ∧ committedPrepared sh ≤ applied u.
Definition caught_from (w : world) (s : Z) : Prop :=
  ∀ t db, t ∈ tgtIDs R → db ∈ dbs R →
    ∃ sh u, shards w !! (src R, s) = Some sh ∧ fwd w !! (s, t, db) = Some u ∧ holds sh u.
Definition caught (w : world) : Prop := ∀ s, s ∈ srcIDs R → caught_from w s.

(** No forward subscription is enabled any more. *)
Definition forward_off (w : world) : Prop :=
  ∀ s t db u, s ∈ srcIDs R → t ∈ tgtIDs R → db ∈ dbs R → fwd w !! (s, t, db) = Some u → enabled u = false.

(** ** The catalog *)

Definition wrow (w : world) : wfrow := row (cat w).
Definition rcut (w : world) : cutoverState := r_cutover (wrow w).
Definition flipped (w : world) : Prop := setState (cat w) !! tgt R = Some ShardSetServing.
(** Another workflow retired the sources: the flip can never happen. *)
Definition doomed (w : world) : Prop := setState (cat w) !! src R ≠ Some ShardSetServing ∧ ¬ flipped w.
(** The fence has stood too long, by the record, and the switch may be undone. *)
Definition late (w : world) : Prop :=
  JournalID (rcut w) = ""%string ∧ ∃ f, FencedAt (rcut w) = Some f ∧ cutoverTimeout R < clock w - f.

Definition unfenced (w : world) : Prop := migrating (cat w) !! src R ≠ Some (wid R).
Definition unpaused (w : world) : Prop :=
  ∀ s sh, s ∈ srcIDs R → shards w !! (src R, s) = Some sh → conf sh = false ∧ ours R (cat w) (src R, s) = false.
(** A paused source carries this run's claim. *)
Definition claimed (w : world) : Prop :=
  ∀ s sh, s ∈ srcIDs R → shards w !! (src R, s) = Some sh → conf sh = true → ours R (cat w) (src R, s) = true.

(** What PostgreSQL itself keeps. *)
Definition sane_shard (sh : shard) : Prop :=
  committed sh ≤ wal sh ∧ committedPrepared sh ≤ wal sh ∧ ∀ pid x, xacts sh !! pid = Some x → x_start x < sclock sh.
Definition sane (w : world) : Prop :=
  (∀ s, s ∈ srcIDs R → is_Some (shards w !! (src R, s))) ∧
  (∀ k sh, shards w !! k = Some sh → sane_shard sh) ∧
  ∀ k u v, fwd w !! k = Some u → slot u = Some v → v ≤ applied u.

(** ** The invariant, by where the record stands *)

Inductive phase := PEarly | PSequences | PJournal | PFlip | PSwap | PFailed | POver.

Definition stepPhase (step : string) : phase :=
  if String.eqb step StepSequences then PSequences
  else if String.eqb step StepJournal then PJournal
  else if String.eqb step StepFlip then PFlip
  else if String.eqb step StepSwap then PSwap
  else if String.eqb step StepRelease then POver
  else PEarly.
Definition stagePhase (stage step : string) : phase :=
  if String.eqb stage StageSwitching then stepPhase step
  else if String.eqb stage StageCatchUpDone then PEarly
  else if String.eqb stage StageAwaitingSwitch then PEarly
  else if String.eqb stage StageFailed then PFailed
  else POver.
Definition phaseOf (r : wfrow) : phase := stagePhase (r_stage r) (Step (r_cutover r)).

Definition InvAt (p : phase) (w : world) : Prop :=
  match p with
  | PEarly => ¬ flipped w ∧ claimed w
  | PSequences => ¬ flipped w ∧ claimed w ∧ (late w ∨ shut w)
  | PJournal => ¬ flipped w ∧ shut w
  | PFlip => doomed w ∨ shut w ∧ (flipped w → caught w)
  | PSwap => forward_off w ∨ shut w ∧ caught w
  | PFailed => ¬ flipped w ∨ forward_off w
  | POver => forward_off w
  end.
Definition Inv (w : world) : Prop := sane w ∧ InvAt (phaseOf (wrow w)) w.

(** ** The guarantee *)

Definition back_at_gate (w w' : world) : Prop :=
  r_stage (wrow w') = StageAwaitingSwitch → r_stage (wrow w) = StageSwitching →
  JournalID (rcut w) = ""%string ∧ unfenced w' ∧ unpaused w'.
Definition ends_failed (w w' : world) : Prop :=
  r_stage (wrow w') = StageFailed → r_stage (wrow w) ≠ StageFailed → unfenced w' ∧ (unpaused w' ∨ doomed w).
Definition journal_kept (w w' : world) : Prop :=
  JournalID (rcut w) ≠ ""%string → JournalID (rcut w') = JournalID (rcut w).
Definition nothing_lost (w w' : world) : Prop := flipped w' → ¬ flipped w ∨ ¬ forward_off w → shut w' ∧ caught w'.
Definition G (w w' : world) : Prop :=
  nothing_lost w w' ∧ back_at_gate w w' ∧ ends_failed w w' ∧ journal_kept w w'.

(** A step that leaves the row alone only has the first to show. *)
Lemma G_same_row w w' : r_stage (wrow w') = r_stage (wrow w) → rcut w' = rcut w → nothing_lost w w' → G w w'.
Proof.
  intros E1 E2 H. split; [done|]. unfold back_at_gate, ends_failed, journal_kept. rewrite E1, E2.
  split_and!; [|done|done]. intros E. by rewrite E.
Qed.

Lemma Inv_nothing_lost w : Inv w → ¬ forward_off w → flipped w → shut w ∧ caught w.
Proof.
  intros [_ H] Hoff Hf. destruct (phaseOf (wrow w)); cbn in H; try tauto.
  - destruct H as [[_ ?]|[? Hc]]; [done|auto].
Qed.
Lemma G_refl w : Inv w → G w w.
Proof. intros H. apply G_same_row; [done..|]. intros ? [?|?]; [done|]. by apply Inv_nothing_lost. Qed.

(** ** The environment *)

Lemma shard_step_sane sh sh' : shard_step sh sh' → sane_shard sh → sane_shard sh'.
Proof.
  intros Hst (H1 & H2 & H3).
  inversion Hst; subst; unfold sane_shard; cbn; split_and!; try lia; try done.
  all: try (intros q y; rewrite ?lookup_insert_Some; intros [[<- <-]|[_ Hy]]; cbn; [eauto; try lia|]; try (apply H3 in Hy); lia).
  all: try (intros q y [_ Hy]%lookup_delete_Some; eauto).
  all: try (intros q y Hy; apply H3 in Hy; lia).
  all: unfold commit; case_match; cbn; try lia.
  all: intros q y [_ Hy]%lookup_delete_Some; eauto.
Qed.

(** Nothing commits on a closed shard, and it stays closed. *)
Lemma closed_step sh sh' :
  shard_step sh sh' → closed sh → closed sh' ∧ committed sh' = committed sh ∧ committedPrepared sh' = committedPrepared sh.
Proof.
  intros Hst (Hc & Hs & Hx & Hp).
  inversion Hst as [s pid db Hn|s pid x Hl Hrw|s pid x Hl Hxid|s pid x Hl|s pid|s pid x gid Hl Hw Hg|s gid Hg|s gid|s n Hn|s q|s n Hn|s];
    subst; unfold closed; cbn.
  - split_and!; try done. intros q y [[<- <-]|[_ Hy]]%lookup_insert_Some; [cbn; by rewrite Hs|eauto].
  - by rewrite (Hx _ _ Hl) in Hrw.
  - split_and!; try done. intros q y [[<- <-]|[_ Hy]]%lookup_insert_Some; [cbn; eauto|eauto].
  - unfold commit, writes. rewrite (Hx _ _ Hl). cbn. split_and!; try done. intros q y [_ Hy]%lookup_delete_Some; eauto.
  - split_and!; try done. intros q y [_ Hy]%lookup_delete_Some; eauto.
  - unfold writes in Hw. by rewrite (Hx _ _ Hl) in Hw.
  - rewrite Hp in Hg. by apply elem_of_nil in Hg.
  - rewrite Hp. by split_and!.
  - by split_and!.
  - by split_and!.
  - by split_and!.
  - by split_and!.
Qed.

Lemma sub_step_mono upto u u' :
  sub_step upto u u' → applied u ≤ applied u' ∧ enabled u' = enabled u ∧
  ((∀ v, slot u = Some v → v ≤ applied u) → ∀ v, slot u' = Some v → v ≤ applied u').
Proof.
  destruct 1 as [s n He [Hn _]|s n v He Hs [_ Hn]|s]; cbn; split_and!; try lia; try done.
  - intros H v Hv. specialize (H v Hv). lia.
  - intros _ v' [= <-]. lia.
Qed.

(** What an environment step leaves of what the invariant speaks of; so do the
    statements of most steps. *)
Record calm (w w' : world) : Prop := {
  ce_stage : r_stage (wrow w') = r_stage (wrow w);
  ce_cut : rcut w' = rcut w;
  ce_tgt : setState (cat w') !! tgt R = setState (cat w) !! tgt R;
  ce_src : setState (cat w') !! src R = Some ShardSetServing → setState (cat w) !! src R = Some ShardSetServing;
  ce_claims : ∀ s, claims (cat w') !! (src R, s) = claims (cat w) !! (src R, s);
  ce_clock : clock w ≤ clock w';
  ce_shards : ∀ k sh', shards w' !! k = Some sh' → ∃ sh, shards w !! k = Some sh ∧
                (sh' = sh ∨ shard_step sh sh' ∨ k.1 ≠ src R ∧ (sane_shard sh → sane_shard sh'));
  ce_shards' : ∀ k, is_Some (shards w !! k) → is_Some (shards w' !! k);
  ce_fwd : ∀ k u', fwd w' !! k = Some u' → ∃ u, fwd w !! k = Some u ∧ applied u ≤ applied u' ∧ enabled u' = enabled u ∧
             ((∀ v, slot u = Some v → v ≤ applied u) → ∀ v, slot u' = Some v → v ≤ applied u');
  ce_fwd' : ∀ k, is_Some (fwd w !! k) → is_Some (fwd w' !! k) }.

Hypothesis src_tgt : src R ≠ tgt R.

Lemma env_is_calm w w' : env R w w' → calm w w'.
Proof.
  intros He.
  assert (∀ k (u : sub), fwd w !! k = Some u → ∃ u0, fwd w !! k = Some u0 ∧ applied u0 ≤ applied u ∧ enabled u = enabled u0 ∧
             ((∀ v, slot u0 = Some v → v ≤ applied u0) → ∀ v, slot u = Some v → v ≤ applied u)) as Hf0 by (intros k u E; exists u; split_and!; [done|lia|done|auto]).
  assert (∀ k (sh : shard), shards w !! k = Some sh → ∃ sh0, shards w !! k = Some sh0 ∧ (sh = sh0 ∨ shard_step sh0 sh ∨ k.1 ≠ src R ∧ (sane_shard sh0 → sane_shard sh))) as Hs0
    by (intros k sh E; exists sh; auto).
  inversion He as [? k s s' Hk Hst|? s t db u u' sh Hu Hsh Hst|? s t db u u' sh Hu Hsh Hst|? c Ho|? r Ho|? k s on Hk Hs|? k v Hk|? n Hn|? o]; subst.
  - constructor; cbn; try done.
    + intros k' sh' [[<- <-]|[_ E]]%lookup_insert_Some; [|eauto]. exists s. auto.
    + intros k' Hk'. destruct (decide (k = k')) as [->|]; [rewrite lookup_insert_eq; eauto|by rewrite lookup_insert_ne].
  - destruct (sub_step_mono _ _ _ Hst) as (? & ? & ?). constructor; cbn; try done.
    + intros k' u0 [[<- <-]|[_ E]]%lookup_insert_Some; [exists u; auto|eauto].
    + intros k' Hk'. destruct (decide ((s, t, db) = k')) as [<-|]; [rewrite lookup_insert_eq; eauto|by rewrite lookup_insert_ne].
  - constructor; cbn; done.
  - inversion Ho as [c0 set who Hw Hm|c0 set who Hw Hm|c0 set st H1 H2|c0 set H1 H2 H3|c0 db who Hw Hm|c0 db who Hw Hm]; subst;
      constructor; cbn; try done.
    + by rewrite lookup_insert_ne.
    + by rewrite lookup_insert_ne.
    + by rewrite !lookup_insert_ne.
    + rewrite lookup_insert_ne by done. by rewrite lookup_insert_eq.
  - inversion Ho; subst; constructor; cbn; done.
  - constructor; cbn; try done.
    + intros k' sh' [[<- <-]|[_ E]]%lookup_insert_Some; [|eauto]. exists s. auto.
    + intros k' Hk'. destruct (decide (k = k')) as [->|]; [rewrite lookup_insert_eq; eauto|by rewrite lookup_insert_ne].
  - constructor; cbn; try done. intros s. rewrite lookup_partial_alter_ne; [done|]. by intros ->.
  - constructor; cbn; try done. lia.
  - constructor; cbn; done.
Qed.

Lemma calm_sane w w' : calm w w' → sane w → sane w'.
Proof.
  intros Hc (H1 & H2 & H3). split_and!.
  - intros s Hs. by apply (ce_shards' _ _ Hc), H1.
  - intros k sh' Hk. destruct (ce_shards _ _ Hc k sh' Hk) as (sh & Hsh & [->|[Hst|[_ Hst]]]); [eauto| |eauto].
    eapply shard_step_sane; eauto.
  - intros k u' v Hk Hv. destruct (ce_fwd _ _ Hc k u' Hk) as (u & Hu & _ & _ & Hs). apply Hs; eauto.
Qed.

Lemma calm_source w w' s sh :
  calm w w' → shards w !! (src R, s) = Some sh → ∃ sh', shards w' !! (src R, s) = Some sh' ∧ (sh' = sh ∨ shard_step sh sh').
Proof.
  intros Hc Hsh. destruct (ce_shards' _ _ Hc (src R, s)) as [sh' Hsh']; [eauto|]. exists sh'. split; [done|].
  destruct (ce_shards _ _ Hc _ _ Hsh') as (sh0 & E & Hst). rewrite Hsh in E. injection E as <-. destruct Hst as [?|[?|[? _]]]; [auto..|done].
Qed.

Lemma calm_shut w w' : calm w w' → shut w → shut w'.
Proof.
  intros Hc H s Hs. destruct (H s Hs) as (sh & at_ & Hsh & Hcl & Hcm).
  destruct (calm_source _ _ _ _ Hc Hsh) as (sh' & Hsh' & Hst).
  exists sh', at_. split; [done|]. rewrite (ce_claims _ _ Hc). split; [|done].
  destruct Hst as [->|Hst]; [done|]. by apply (closed_step sh sh').
Qed.

Lemma calm_caught w w' s : calm w w' → shut w → s ∈ srcIDs R → caught_from w s → caught_from w' s.
Proof.
  intros Hc Hshut Hs H t db Ht Hdb. destruct (H t db Ht Hdb) as (sh & u & Hsh & Hu & Hh).
  destruct (Hshut s Hs) as (sh0 & at_ & E & Hcl & _). rewrite Hsh in E. injection E as <-.
  destruct (calm_source _ _ _ _ Hc Hsh) as (sh' & Hsh' & Hst).
  destruct (ce_fwd' _ _ Hc (s, t, db)) as [u' Hu']; [eauto|].
  destruct (ce_fwd _ _ Hc _ _ Hu') as (u0 & E & Hap & _). rewrite Hu in E. injection E as <-.
  exists sh', u'. split_and!; [done..|]. destruct Hh as [Hh1 Hh2].
  destruct Hst as [->|Hst]; [split; lia|].
  destruct (closed_step sh sh' Hst Hcl) as (_ & E1 & E2). split; lia.
Qed.

Lemma calm_off w w' : calm w w' → (forward_off w ↔ forward_off w').
Proof.
  intros Hc. split.
  - intros H s t db u' Hs Ht Hdb Hu'. destruct (ce_fwd _ _ Hc _ _ Hu') as (u & Hu & _ & -> & _). eauto.
  - intros H s t db u Hs Ht Hdb Hu. destruct (ce_fwd' _ _ Hc (s, t, db)) as [u' Hu']; [eauto|].
    destruct (ce_fwd _ _ Hc _ _ Hu') as (u0 & E & _ & Ee & _). rewrite Hu in E. injection E as <-. rewrite <- Ee. eauto.
Qed.

Lemma calm_conf w w' s sh' :
  calm w w' → shards w' !! (src R, s) = Some sh' → ∃ sh, shards w !! (src R, s) = Some sh ∧ conf sh' = conf sh.
Proof.
  intros Hc Hs. destruct (ce_shards _ _ Hc _ _ Hs) as (sh & Hsh & [->|[Hst|[Hne _]]]); [eauto| |done]. exists sh. split; [done|].
  by apply shard_step_conf.
Qed.
Lemma calm_claimed w w' : calm w w' → claimed w → claimed w'.
Proof.
  intros Hc H s sh' Hs Hsh' Hconf. destruct (calm_conf _ _ _ _ Hc Hsh') as (sh & Hsh & E). rewrite E in Hconf.
  unfold ours. rewrite (ce_claims _ _ Hc). by apply (H s sh).
Qed.
Lemma calm_unpaused w w' : calm w w' → unpaused w → unpaused w'.
Proof.
  intros Hc H s sh' Hs Hsh'. destruct (calm_conf _ _ _ _ Hc Hsh') as (sh & Hsh & ->).
  unfold ours. rewrite (ce_claims _ _ Hc). by apply (H s sh).
Qed.
Lemma calm_flipped w w' : calm w w' → (flipped w ↔ flipped w').
Proof. intros Hc. unfold flipped. by rewrite (ce_tgt _ _ Hc). Qed.
Lemma calm_doomed w w' : calm w w' → doomed w → doomed w'.
Proof.
  intros Hc [H1 H2]. split; [intros E; by apply H1, (ce_src _ _ Hc)|]. by rewrite <- (calm_flipped w w').
Qed.
Lemma calm_late w w' : calm w w' → late w → late w'.
Proof.
  intros Hc (Hj & f & Hf & Hl). unfold late. rewrite (ce_cut _ _ Hc). split; [done|]. exists f. split; [done|].
  pose proof (ce_clock _ _ Hc). lia.
Qed.
Lemma calm_phase w w' : calm w w' → phaseOf (wrow w') = phaseOf (wrow w).
Proof. intros Hc. unfold phaseOf. rewrite (ce_stage _ _ Hc). pose proof (ce_cut _ _ Hc) as E. unfold rcut in E. by rewrite E. Qed.

Lemma calm_InvAt w w' p : calm w w' → InvAt p w → InvAt p w'.
Proof.
  intros Hc. pose proof (calm_flipped w w' Hc) as Hf. pose proof (calm_off w w' Hc) as Ho.
  pose proof (calm_shut w w' Hc) as Hs. pose proof (calm_claimed w w' Hc) as Hl.
  pose proof (calm_late w w' Hc). pose proof (calm_doomed w w' Hc).
  assert (shut w → caught w → caught w') as Hca by (intros ? ? s Hs'; eapply calm_caught; eauto).
  destruct p; cbn; try tauto.
Qed.

Lemma calm_inv w w' : calm w w' → Inv w → Inv w'.
Proof.
  intros Hc [H1 H2]. split; [by eapply calm_sane|]. rewrite (calm_phase _ _ Hc). by eapply calm_InvAt.
Qed.
Lemma calm_guar w w' : calm w w' → Inv w → G w w'.
Proof.
  intros Hc Hi. apply G_same_row; [by apply ce_stage|by apply ce_cut|]. intros Hf [Hn|Hoff].
  { destruct Hn. by rewrite (calm_flipped w w'). }
  apply Inv_nothing_lost; [by eapply calm_inv| |done]. by rewrite <- (calm_off w w').
Qed.

Lemma env_inv w w' : env R w w' → Inv w → Inv w'.
Proof. intros He. by apply calm_inv, env_is_calm. Qed.
Lemma env_guar w w' : env R w w' → Inv w → G w w'.
Proof. intros He. by apply calm_guar, env_is_calm. Qed.
Lemma env_unfenced w w' : env R w w' → unfenced w → unfenced w'.
Proof.
  unfold unfenced. intros He Hu. inversion He as [| | |? c Ho|? r Ho| | | |]; subst; cbn; try done.
  inversion Ho as [c0 set who Hw Hm|c0 set who Hw Hm| | | |]; subst; cbn; try done.
  - intros [[? ?]|[? ?]]%lookup_insert_Some; [by subst|done].
  - by intros [_ ?]%lookup_delete_Some.
Qed.

(** ** Kinds of statements *)

(** Harmless where the sources need not be shut. *)
Record tame (w w' : world) : Prop := {
  ta_stage : r_stage (wrow w') = r_stage (wrow w);
  ta_cut : rcut w' = rcut w;
  ta_tgt : setState (cat w') !! tgt R = setState (cat w) !! tgt R;
  ta_src : setState (cat w') !! src R = Some ShardSetServing → setState (cat w) !! src R = Some ShardSetServing;
  ta_clock : clock w ≤ clock w';
  ta_sane : sane w → sane w';
  ta_off : forward_off w → forward_off w' }.
(** And where a paused source is to carry the claim. *)
Definition leashed (w w' : world) : Prop := tame w w' ∧ (claimed w → claimed w').

Lemma calm_tame w w' : calm w w' → tame w w'.
Proof.
  intros Hc. constructor; try apply Hc; [by apply calm_sane|]. by rewrite (calm_off w w').
Qed.
Lemma calm_leashed w w' : calm w w' → leashed w w'.
Proof. intros Hc. split; [by apply calm_tame|by apply calm_claimed]. Qed.
Lemma calm_refl w : calm w w.
Proof.
  constructor; try done; [eauto|]. intros k u Hu. exists u. split_and!; [done|lia|done|auto].
Qed.
Lemma tame_refl w : tame w w.
Proof. apply calm_tame, calm_refl. Qed.

(** Where the record stands, with nothing to be shut. *)
Definition FreeL (w : world) : Prop := phaseOf (wrow w) = PEarly ∨ phaseOf (wrow w) = PSequences ∧ late w.
Definition FreeO (w : world) : Prop :=
  phaseOf (wrow w) = PFlip ∧ doomed w ∨ phaseOf (wrow w) = PSwap ∧ forward_off w ∨ phaseOf (wrow w) = POver.

Lemma tame_phase w w' : tame w w' → phaseOf (wrow w') = phaseOf (wrow w).
Proof. intros Ht. unfold phaseOf. rewrite (ta_stage _ _ Ht). pose proof (ta_cut _ _ Ht) as E. unfold rcut in E. by rewrite E. Qed.
Lemma tame_flipped w w' : tame w w' → (flipped w ↔ flipped w').
Proof. intros Ht. unfold flipped. by rewrite (ta_tgt _ _ Ht). Qed.
Lemma tame_doomed w w' : tame w w' → doomed w → doomed w'.
Proof. intros Ht [H1 H2]. split; [intros E; by apply H1, (ta_src _ _ Ht)|]. by rewrite <- (tame_flipped w w'). Qed.
Lemma tame_late w w' : tame w w' → late w → late w'.
Proof.
  intros Ht (Hj & f & Hf & Hl). unfold late. rewrite (ta_cut _ _ Ht). split; [done|]. exists f. split; [done|].
  pose proof (ta_clock _ _ Ht). lia.
Qed.
Lemma tame_G w w' : tame w w' → Inv w → (¬ flipped w ∨ forward_off w) → G w w'.
Proof.
  intros Ht Hi Hf. apply G_same_row; [by apply ta_stage|by apply ta_cut|]. intros Hf' Hoff.
  rewrite <- (tame_flipped w w' Ht) in Hf'. tauto.
Qed.

Lemma good_calm w w' : Inv w → calm w w' → good Inv G w w'.
Proof. intros Hi Hc. split; [by eapply calm_inv|by eapply calm_guar]. Qed.

Lemma tame_FreeO w w' : tame w w' → FreeO w → FreeO w'.
Proof.
  intros Ht Hf. unfold FreeO. rewrite (tame_phase _ _ Ht).
  pose proof (tame_doomed _ _ Ht). pose proof (ta_off _ _ Ht). unfold FreeO in Hf. tauto.
Qed.
Lemma good_tame w w' : Inv w → FreeO w → tame w w' → good Inv G w w' ∧ FreeO w'.
Proof.
  intros Hi Hf Ht. pose proof Hi as [Hs Hat]. pose proof (tame_phase _ _ Ht) as Ep.
  split; [|by eapply tame_FreeO]. pose proof (ta_off _ _ Ht) as Ho. split.
  - split; [by apply (ta_sane _ _ Ht)|]. rewrite Ep. destruct Hf as [[E Hd]|[[E ?]|E]]; rewrite E in Hat |- *; cbn in *; [|auto..].
    left. by eapply tame_doomed.
  - apply tame_G; [done..|]. destruct Hf as [[E [_ Hd]]|[[E ?]|E]]; [by left|by right|]. right. by rewrite E in Hat.
Qed.

Lemma good_leashed w w' : Inv w → FreeL w → leashed w w' → good Inv G w w' ∧ FreeL w'.
Proof.
  intros Hi Hf [Ht Hc]. pose proof Hi as [Hs Hat]. pose proof (tame_phase _ _ Ht) as Ep.
  assert (FreeL w') as Hf'. { destruct Hf as [E|[E Hl]]; [left|right]; rewrite Ep; [done|]. split; [done|by eapply tame_late]. }
  split; [|done]. pose proof (tame_flipped _ _ Ht) as Hfl.
  assert (¬ flipped w ∧ claimed w) as [Hnf Hcl]. { destruct Hf as [E|[E Hl]]; rewrite E in Hat; cbn in Hat; tauto. }
  split.
  - split; [by apply (ta_sane _ _ Ht)|]. rewrite Ep. destruct Hf as [E|[E Hl]]; rewrite E; cbn; [tauto|].
    pose proof (tame_late _ _ Ht Hl). tauto.
  - apply tame_G; [done..|]. by left.
Qed.

(** Harmless once forward replication is off. *)
Record over (w w' : world) : Prop := {
  ov_stage : r_stage (wrow w') = r_stage (wrow w);
  ov_cut : rcut w' = rcut w;
  ov_flip : flipped w' → flipped w;
  ov_sane : sane w → sane w';
  ov_off : forward_off w → forward_off w' }.
Lemma tame_over w w' : tame w w' → over w w'.
Proof. intros Ht. constructor; try apply Ht. by rewrite (tame_flipped w w' Ht). Qed.
Lemma good_over w w' : Inv w → phaseOf (wrow w) = POver → over w w' → good Inv G w w' ∧ phaseOf (wrow w') = POver.
Proof.
  intros [Hs Hat] Ep Ho. assert (phaseOf (wrow w') = POver) as Ep'.
  { unfold phaseOf in *. pose proof (ov_cut _ _ Ho) as E. unfold rcut in E. by rewrite (ov_stage _ _ Ho), E. }
  rewrite Ep in Hat. split; [|done]. split.
  - split; [by apply (ov_sane _ _ Ho)|]. rewrite Ep'. by apply (ov_off _ _ Ho).
  - apply G_same_row; [by apply ov_stage|by apply ov_cut|]. intros Hf [Hn|?]; [|done]. destruct Hn. by apply (ov_flip _ _ Ho).
Qed.

(** ** Saving the record *)

Definition save_to (r : wfrow) (w : world) : world := {| w with cat := {| (cat w) with row := r |} |}.

(** A save is good when the invariant holds where the new record stands. *)
Lemma good_save r w :
  Inv w → InvAt (phaseOf r) (save_to r w) → nothing_lost w (save_to r w) → back_at_gate w (save_to r w) →
  ends_failed w (save_to r w) → journal_kept w (save_to r w) → good Inv G w (save_to r w).
Proof. intros [Hs _] Hat H1 H2 H3 H4. split; [split; [exact Hs|exact Hat]|done]. Qed.

Lemma save_late r w : JournalID (r_cutover r) = JournalID (rcut w) → FencedAt (r_cutover r) = FencedAt (rcut w) →
  late w → late (save_to r w).
Proof. unfold late, rcut, wrow. cbn. by intros -> ->. Qed.
End Inv.
