(* ===== verification/CutSpecs.v ===== *)
(** * What the operations of a cutover do

    Each operation of [pgCutover] against the invariant: most are calm; the
    write pause, the drain, the catch-up and the flip have specifications of
    their own, on which the switch rests. *)

From S2P Require Import Prelude Prog Ranges Sequences CutWorld CutOps Cutover CutLogic CutInv.

Local Open Scope Z_scope.

(** The workflow in memory is left alone. *)
Definition same_wf (m m' : mem) : Prop := wf m' = wf m.
#[export] Instance same_wf_preorder : PreOrder same_wf.
Proof. split; [done|]. intros m1 m2 m3 H1 H2. unfold same_wf in *. by rewrite H2. Qed.

Section Specs.
Context (R : run).
Hypothesis src_tgt : src R ≠ tgt R.

Local Notation calm := (calm R).
Local Notation tame := (tame R).
Local Notation over := (over R).

(** ** Kinds of statements *)

Lemma calm_eq w w' :
  wrow w' = wrow w → setState (cat w') = setState (cat w) → claims (cat w') = claims (cat w) →
  shards w' = shards w → fwd w' = fwd w → clock w' = clock w → calm w w'.
Proof.
  intros E1 E2 E3 E4 E5 E6. constructor; rewrite ?E1, ?E2, ?E3, ?E4, ?E5, ?E6; try done.
  - unfold rcut. by rewrite E1.
  - eauto.
  - intros k u Hu. exists u. split_and!; [done|lia|done|auto].
Qed.

Lemma calm_shard w w' k sh sh' :
  shards w !! k = Some sh → shards w' = <[k := sh']> (shards w) → sh' = sh ∨ shard_step sh sh' →
  cat w' = cat w → fwd w' = fwd w → clock w' = clock w → calm w w'.
Proof.
  intros Hk E Hst E1 E2 E3. constructor; unfold rcut, wrow; rewrite ?E1, ?E2, ?E3; try done; rewrite ?E.
  - intros k' sh0 [[<- <-]|[_ ?]]%lookup_insert_Some; [exists sh; tauto|eauto].
  - intros k' Hk'. destruct (decide (k = k')) as [<-|]; [rewrite lookup_insert_eq; eauto|by rewrite lookup_insert_ne].
  - intros k' u Hu. exists u. split_and!; [done|lia|done|auto].
Qed.

Lemma keeps_onShard {X} set id (f : shard → result err X * shard) :
  (∀ sh, (f sh).2 = sh ∨ shard_step sh (f sh).2) → (∀ sh, soft_res (f sh).1) → keeps calm same_wf (onShard set id f).
Proof.
  intros Hf Hs. apply keeps_stmt; [apply _|..]; intros w; destruct (shards w !! (set, id)) as [sh|] eqn:E; try done.
  - specialize (Hf sh). destruct (f sh) as [r sh']. by eapply calm_shard.
  - apply calm_refl.
  - specialize (Hs sh). by destruct (f sh).
Qed.

Lemma keeps_onCat {X} (f : catalog → result err X * catalog) :
  (∀ c, row (f c).2 = row c ∧ setState (f c).2 = setState c ∧ claims (f c).2 = claims c) →
  (∀ c, soft_res (f c).1) → keeps calm same_wf (onCat f).
Proof.
  intros Hf Hs. apply keeps_stmt; [apply _|..]; intros w; specialize (Hf (cat w)); specialize (Hs (cat w));
    destruct (f (cat w)) as [r c]; [|done].
  cbn in *. destruct Hf as (? & ? & ?). by apply calm_eq.
Qed.

Lemma keeps_ask_calm {X} (f : world → result err X) : (∀ w, soft_res (f w)) → keeps calm same_wf (ask f).
Proof. intros H. apply keeps_ask; [apply _|by intros; apply calm_refl|done]. Qed.
Lemma keeps_askShard {X} set id (f : shard → X) : keeps calm same_wf (askShard set id f).
Proof. apply keeps_ask_calm. intros w. by case_match. Qed.

Lemma keeps_onDial {X} (T : world → world → Prop) set id (f : world → result err X * world) :
  (∀ w, T w w) → (∀ w, T w (f w).2) → (∀ w, soft_res (f w).1) → keeps T same_wf (onDial set id f).
Proof. intros Hr HT Hs. apply keeps_stmt; [apply _|..]; intros w; case_match; try done; by apply Hr. Qed.
Lemma alterSub_soft to k m : soft_res (alterSub to k m).1.
Proof. unfold alterSub. by case_match. Qed.
Lemma dropSub_soft k m : soft_res (dropSub k m).1.
Proof. unfold dropSub. by case_match. Qed.

Lemma keeps_collect {A B} T (l : list A) (f : A → M (list B)) :
  (∀ a, keeps T same_wf (f a)) → keeps T same_wf (collect l f).
Proof.
  intros Hf. induction l; cbn [collect]; [by apply keeps_ret; apply _|].
  apply keeps_bind; [apply _|done|]. intros x. apply keeps_bind; [apply _|done|]. intros y. apply keeps_ret; apply _.
Qed.

Lemma keeps_weaken {A} (T T' : world → world → Prop) (x : M A) : (∀ w w', T w w' → T' w w') → keeps T same_wf x → keeps T' same_wf x.
Proof.
  intros HT Hx m. specialize (Hx m). revert Hx. generalize (x m). intros p. induction p as [a|X f k IH|d k IH]; cbn; [done| |].
  - intros (? & ? & ?). split_and!; auto.
  - intros H t. auto.
Qed.
End Specs.

(** Follows the code: sequence, loops, cases. *)
Create HintDb keeps.
#[export] Hint Resolve keeps_ask_calm keeps_askShard : keeps.
Ltac keeps_step :=
  first
  [ solve [eauto with keeps]
  | apply keeps_try; [apply _| |intros ? ?]
  | apply keeps_bind; [apply _| |intros ?]
  | apply keeps_ret; apply _
  | apply keeps_fail; [apply _|first [done|by repeat case_match]]
  | apply keeps_now; apply _
  | apply keeps_sleep; apply _
  | apply keeps_get; apply _
  | apply keeps_attempt
  | apply keeps_forM; [apply _|intros ?]
  | apply keeps_collect; intros ?
  | apply keeps_ask_calm; intros ?; done
  | apply keeps_ask_calm; intros ?; by repeat case_match
  | apply keeps_modify; intros ?; unfold same_wf; done
  | case_match ].
Ltac keeps := repeat keeps_step.

Section Calm.
Context (R : run).
Hypothesis src_tgt : src R ≠ tgt R.
Local Notation calm := (calm R).
Local Notation calmly := (keeps calm same_wf).

Lemma GateOpen_calm : calmly (pg_GateOpen R).
Proof.
  unfold pg_GateOpen. keeps. generalize (t ← tgtIDs R; db ← dbs R; [(t, db)]). intros l.
  induction l as [|[t db] l IH]; cbn [ownRanges]; unfold writeOwnedRange; keeps.
Qed.
Lemma Fence_calm : calmly (pg_Fence R).
Proof.
  unfold pg_Fence. keeps.
  - by apply keeps_onCat.
  - apply keeps_onCat; intros c; unfold raiseFence; repeat case_match; done.
Qed.
Lemma preparedOn_calm set s : calmly (preparedOn set s).
Proof. unfold preparedOn, resolve. keeps. Qed.
Lemma Drain_calm : calmly (pg_Drain R).
Proof. unfold pg_Drain. keeps. Qed.
Lemma Sweep_calm : calmly (pg_Sweep R).
Proof. unfold pg_Sweep, sweepOne, shareLock. keeps. Qed.
Lemma positionsOf_calm set ids : calmly (positionsOf set ids).
Proof. induction ids; cbn [positionsOf]; unfold currentLSN; keeps. Qed.
Lemma CaughtUp_calm pos : calmly (pg_CaughtUp R pos).
Proof. unfold pg_CaughtUp, behindOn. keeps. Qed.
Lemma Verify_calm : calmly pg_Verify.
Proof. unfold pg_Verify. keeps. Qed.
Lemma Reverse_calm : calmly (pg_Reverse R).
Proof.
  unfold pg_Reverse, reversePublishOn, reverseSubscribeOn, createReverse. keeps.
  apply keeps_stmt; [apply _|..]; intros w; repeat case_match; try done; try apply calm_refl. by apply calm_eq.
Qed.
Lemma fingerprints_calm l : calmly (fingerprints l).
Proof. induction l as [|[db [set id]] l IH]; cbn [fingerprints]; keeps. Qed.
Lemma applyOn_calm set t db v : calmly (applyOn set t db v).
Proof.
  apply keeps_onShard; intros sh; destruct (Apply _ _) as [q e]; cbn; [right; constructor|by destruct e].
Qed.
Lemma mergeSources_calm set ids db : ∀ values, calmly (mergeSources set ids db values).
Proof. induction ids; intros values; cbn [mergeSources]; unfold snapshotOn; keeps. Qed.
#[local] Hint Resolve applyOn_calm mergeSources_calm positionsOf_calm : keeps.
Lemma sourceSequences_calm set ids l : calmly (sourceSequences set ids l).
Proof. induction l as [|db l IH]; cbn [sourceSequences]; keeps. Qed.
#[local] Hint Resolve sourceSequences_calm : keeps.
Lemma syncSequences_calm a b c d : calmly (syncSequences R a b c d).
Proof. unfold syncSequences. keeps. Qed.
Lemma journalOn_calm s db id : calmly (journalOn R s db id).
Proof.
  apply keeps_stmt; [apply _|..]; intros w; destruct (shards w !! (src R, s)) as [sh|] eqn:E; try done; [|apply calm_refl].
  eapply calm_shard; [done|done|right; by apply sh_wal|done..].
Qed.
#[local] Hint Resolve journalOn_calm : keeps.
Lemma Journal_calm id : calmly (pg_Journal R id).
Proof. unfold pg_Journal. keeps. by apply keeps_onCat. Qed.
Lemma askDial_calm {X} set id (f : world → X) : calmly (askDial set id f).
Proof. apply keeps_onDial; [apply calm_refl|intros w; apply calm_refl|done]. Qed.
Lemma onBwd_calm set id f : (∀ m, soft_res (f m).1) → calmly (onDial set id (onBwd f)).
Proof.
  intros Hf. apply keeps_onDial; [apply calm_refl|..]; intros w; unfold onBwd; specialize (Hf (bwd w)); destruct (f (bwd w)); [by apply calm_eq|done].
Qed.
#[local] Hint Resolve askDial_calm onBwd_calm alterSub_soft dropSub_soft : keeps.
Lemma EnableReverse_calm : calmly (pg_EnableReverse R).
Proof. unfold pg_EnableReverse, enableReverseOn. keeps. Qed.
Lemma dropRevSubs_calm s db : calmly (dropRevSubs R s db).
Proof. unfold dropRevSubs, dial. keeps. Qed.
Lemma anyDisabled_calm l : calmly (anyDisabled R l).
Proof. induction l as [|[db [set t]] l IH]; cbn [anyDisabled]; keeps. Qed.
Lemma Release_calm : calmly (pg_Release R).
Proof. unfold pg_Release. by apply keeps_onCat. Qed.
Lemma allRefuse_calm set ids : calmly (allRefuse set ids).
Proof. induction ids; cbn [allRefuse]; unfold refusesWrites; keeps. Qed.
Lemma SourcesPaused_calm : calmly (pg_SourcesPaused R).
Proof. unfold pg_SourcesPaused. keeps; apply allRefuse_calm. Qed.
Lemma writingBackends_calm set ids : calmly (writingBackends set ids).
Proof. unfold writingBackends, writingBackendsOn, tempOnly, writingOnlyTemporaryTables. keeps. Qed.
#[local] Hint Resolve writingBackends_calm : keeps.
Lemma drainLoop_calm fuel deadline set ids : calmly (drainLoop fuel deadline set ids).
Proof. induction fuel; cbn [drainLoop]; keeps. Qed.
#[local] Hint Resolve drainLoop_calm : keeps.
Lemma drainWriters_calm set ids : calmly (drainWriters R set ids).
Proof. unfold drainWriters, fenceRemaining. keeps. Qed.
Lemma DropJournal_calm id : calmly (pg_DropJournal R id).
Proof.
  unfold pg_DropJournal, dropJournalOn, dial. keeps.
  apply keeps_stmt; [apply _|..]; intros w; [by apply calm_eq|done].
Qed.
Lemma holdClaim_calm : calmly (holdClaim R).
Proof. unfold holdClaim. apply keeps_onCat; intros c; [done|]. cbn. by case_match. Qed.
Lemma claimWorkflow_calm : calmly (claimWorkflow R).
Proof.
  apply keeps_stmt; [apply _|..]; intros w; case_match; try done; [|apply calm_refl].
  constructor; try done; [cbn; eauto|]. intros k u Hu. exists u. split_and!; [done|lia|done|auto].
Qed.
Lemma saveMessage_calm : calmly (saveMessage R).
Proof. unfold saveMessage. keeps. apply keeps_onCat; intros c; [done|]. cbn. by case_match. Qed.
Lemma NewJournalID_calm : calmly NewJournalID.
Proof. unfold NewJournalID. keeps. Qed.
End Calm.

#[export] Hint Resolve GateOpen_calm Fence_calm Drain_calm preparedOn_calm Sweep_calm positionsOf_calm CaughtUp_calm Verify_calm
  Reverse_calm fingerprints_calm syncSequences_calm Journal_calm askDial_calm EnableReverse_calm dropRevSubs_calm
  anyDisabled_calm Release_calm SourcesPaused_calm drainWriters_calm DropJournal_calm claimWorkflow_calm saveMessage_calm
  holdClaim_calm NewJournalID_calm : keeps.

(** ** Tame operations: the pause and the completion *)

Section Tame.
Context (R : run).
Hypothesis src_tgt : src R ≠ tgt R.
Local Notation tamely := (keeps (tame R) same_wf).
Local Notation overly := (keeps (over R) same_wf).

Lemma calmly_tamely {A} (x : M A) : keeps (calm R) same_wf x → tamely x.
Proof. apply keeps_weaken. apply calm_tame. Qed.
Lemma tamely_overly {A} (x : M A) : tamely x → overly x.
Proof. apply keeps_weaken. apply tame_over. Qed.

Lemma tame_cat w c :
  row c = row (cat w) → setState c = setState (cat w) → tame R w {| w with cat := c |}.
Proof. intros E1 E2. constructor; unfold rcut, wrow; cbn; rewrite ?E1, ?E2; done. Qed.
Lemma tamely_onCat {X} (f : catalog → result err X * catalog) :
  (∀ c, row (f c).2 = row c ∧ setState (f c).2 = setState c) → (∀ c, soft_res (f c).1) → tamely (onCat f).
Proof.
  intros Hf Hs. apply keeps_stmt; [apply _|..]; intros w; specialize (Hf (cat w)); specialize (Hs (cat w));
    destruct (f (cat w)) as [r c]; [|done]. cbn in *. destruct Hf. by apply tame_cat.
Qed.

Lemma sane_conf w set s sh b :
  shards w !! (set, s) = Some sh → sane R w → sane R {| w with shards := <[(set, s) := {| sh with conf := b |}]> (shards w) |}.
Proof.
  intros E (H1 & H2 & H3). split_and!; cbn; [..|done].
  - intros s' Hs'. destruct (decide ((set, s) = (src R, s'))) as [<-|]; [rewrite lookup_insert_eq; eauto|].
    rewrite lookup_insert_ne by done. auto.
  - intros k sh' [[<- <-]|[_ ?]]%lookup_insert_Some; [|eauto]. by apply (H2 _ _ E).
Qed.
Lemma tame_conf w set s sh b :
  shards w !! (set, s) = Some sh → tame R w {| w with shards := <[(set, s) := {| sh with conf := b |}]> (shards w) |}.
Proof. intros E. constructor; try done. by apply sane_conf. Qed.
Lemma alterSystem_tame set s b : tamely (alterSystem set s b).
Proof.
  apply keeps_stmt; [apply _|..]; intros w; destruct (shards w !! (set, s)) as [sh|] eqn:E;
    first [done|by apply tame_conf|apply tame_refl].
Qed.
Lemma confirmPause_calm fuel deadline set s : keeps (calm R) same_wf (confirmPause fuel deadline set s).
Proof. induction fuel; cbn [confirmPause]; unfold refusesWrites, shardNow; keeps. Qed.

#[local] Hint Resolve alterSystem_tame : keeps.
Lemma setReadOnly_tame set s b : tamely (setReadOnly set s b).
Proof.
  unfold setReadOnly, reloadConf. apply keeps_bind; [apply _|eauto with keeps|intros _].
  apply keeps_bind; [apply _|apply calmly_tamely, keeps_askShard|intros _].
  case_match; [apply keeps_ret; apply _|]. apply keeps_bind; [apply _|apply keeps_now; apply _|intros t].
  apply keeps_bind; [apply _|apply calmly_tamely, confirmPause_calm|intros a]. apply keeps_ret; apply _.
Qed.
Lemma pauseSet_tame set ids b : tamely (pauseSet set ids b).
Proof.
  apply keeps_forM; [apply _|]. intros s. unfold pauseOne. apply keeps_bind; [apply _|apply setReadOnly_tame|intros a].
  apply keeps_modify. intros m. unfold same_wf. done.
Qed.
Lemma pauseSetClaimed_tame set ids b : tamely (pauseSetClaimed R set ids b).
Proof.
  unfold pauseSetClaimed. destruct b.
  - apply keeps_bind; [apply _|by apply tamely_onCat|intros _]. apply keeps_bind; [apply _|apply pauseSet_tame|intros _].
    unfold recordPauseInstants. apply keeps_bind; [apply _|apply keeps_get; apply _|intros m]. by apply tamely_onCat.
  - unfold claimedShards. apply keeps_bind; [apply _|apply calmly_tamely; by apply keeps_ask_calm|intros l].
    apply keeps_bind; [apply _|apply pauseSet_tame|intros _]. by apply tamely_onCat.
Qed.
Lemma PauseSources_tame b : tamely (pg_PauseSources R b).
Proof. unfold pg_PauseSources. apply pauseSetClaimed_tame. Qed.

(** A subscription disabled, or dropped. *)
Lemma tame_fwd w m :
  (∀ k u', m !! k = Some u' → ∃ u, fwd w !! k = Some u ∧ applied u' = applied u ∧ slot u' = slot u ∧ (enabled u = false → enabled u' = false)) →
  tame R w {| w with fwd := m |}.
Proof.
  intros H. constructor; try done.
  - intros (H1 & H2 & H3). split_and!; [done..|]. cbn. intros k u' v Hu' Hv. destruct (H k u' Hu') as (u & Hu & Ea & Es & _).
    rewrite Es in Hv. rewrite Ea. eauto.
  - intros Ho s t db u' Hs Ht Hdb Hu'. destruct (H _ u' Hu') as (u & Hu & _ & _ & He). eauto.
Qed.
Lemma disable_tame w k : tame R w (onFwd (alterSub false k) w).2.
Proof.
  unfold onFwd, alterSub. destruct (fwd w !! k) as [u|] eqn:E; cbn; [|apply tame_fwd; eauto].
  apply tame_fwd. intros k' u' [[<- <-]|[_ ?]]%lookup_insert_Some; eauto.
Qed.
Lemma dropSub_tame w k : tame R w (onFwd (dropSub k) w).2.
Proof.
  unfold onFwd, dropSub. destruct (fwd w !! k) as [u|] eqn:E; cbn; apply tame_fwd; [|eauto].
  intros k' u' [_ ?]%lookup_delete_Some; eauto.
Qed.
Lemma onFwd_soft f w : (∀ m, soft_res (f m).1) → soft_res (onFwd f w).1.
Proof. intros H. unfold onFwd. specialize (H (fwd w)). by destruct (f (fwd w)). Qed.
Lemma dropFwdSubs_keeps (T : world → world → Prop) t db :
  (∀ w, T w w) → (∀ w k, T w (onFwd (alterSub false k) w).2) → (∀ w k, T w (onFwd (dropSub k) w).2) →
  keeps T same_wf (dropFwdSubs R t db).
Proof.
  intros Hr Ha Hd. unfold dropFwdSubs, askDial, dial. apply keeps_bind; [apply _| |intros names].
  { by apply keeps_onDial. }
  apply keeps_forM; [apply _|intros s]. apply keeps_bind; [apply _| |intros _].
  { apply keeps_onDial; [done..|]. intros w. apply onFwd_soft. apply alterSub_soft. }
  apply keeps_bind; [apply _| |intros _].
  { apply keeps_ask; [apply _|done|]. intros w. by case_match. }
  apply keeps_onDial; [done..|]. intros w. apply onFwd_soft. apply dropSub_soft.
Qed.
Lemma dropRevSubs_keeps (T : world → world → Prop) s db :
  (∀ w, T w w) → (∀ w f, T w (onBwd f w).2) → keeps T same_wf (dropRevSubs R s db).
Proof.
  intros Hr Hf. assert (∀ f w, (∀ m, soft_res (f m).1) → soft_res (onBwd f w).1) as Hs.
  { intros f w H. unfold onBwd. specialize (H (bwd w)). by destruct (f (bwd w)). }
  unfold dropRevSubs, askDial, dial. apply keeps_bind; [apply _|by apply keeps_onDial|intros names].
  apply keeps_forM; [apply _|intros t]. apply keeps_bind; [apply _| |intros _].
  { apply keeps_onDial; [done..|]. intros w. apply Hs. apply alterSub_soft. }
  apply keeps_bind; [apply _| |intros _].
  { apply keeps_ask; [apply _|done|]. intros w. by case_match. }
  apply keeps_onDial; [done..|]. intros w. apply Hs. apply dropSub_soft.
Qed.
Lemma retireSet_tame set ids : tamely (retireSet set ids).
Proof.
  unfold retireSet. apply keeps_try; [apply _| |].
  - apply calmly_tamely. unfold liveReplicationInto. keeps.
    induction ids as [|s ids IH]; cbn [otherGenerations]; keeps.
  - intros r Hr. destruct r as [b|e]; [|apply keeps_ret; apply _]. case_match; [apply keeps_ret; apply _|].
    apply keeps_try; [apply _|by apply tamely_onCat|intros _ _].
    apply keeps_try; [apply _|apply pauseSet_tame|intros _ _]. apply keeps_ret; apply _.
Qed.
Lemma Complete_tame : tamely (pg_Complete R).
Proof.
  unfold pg_Complete. apply keeps_bind; [apply _| |intros _].
  { apply keeps_forM; [apply _|intros db]. apply keeps_bind; [apply _| |intros _].
    - apply calmly_tamely. unfold onSource, dial. keeps.
    - apply keeps_forM; [apply _|intros t]. apply keeps_bind; [apply _| |intros _].
      + apply dropFwdSubs_keeps; [apply tame_refl|apply disable_tame|apply dropSub_tame].
      + apply calmly_tamely. unfold dropLeftovers, dial. keeps. }
  apply keeps_bind; [apply _|apply calmly_tamely; unfold dropLeftovers, dial; keeps|intros _].
  apply keeps_bind; [apply _|apply calmly_tamely; unfold dropLeftovers, onSource, dial; keeps|intros _].
  apply keeps_bind; [apply _|by apply tamely_onCat|intros _].
  unfold completeTail, setIsServing. apply keeps_try; [apply _|apply calmly_tamely; keeps|intros r _].
  destruct r as [[]|]; [|apply retireSet_tame|apply keeps_ret; apply _].
  apply keeps_try; [apply _|apply calmly_tamely; keeps|intros r _].
  destruct r as [[]|]; [apply keeps_ret; apply _|apply retireSet_tame|apply keeps_ret; apply _].
Qed.

Lemma over_refl w : over R w w.
Proof. apply tame_over, tame_refl. Qed.
Lemma calmly_overly {A} (x : M A) : keeps (calm R) same_wf x → overly x.
Proof. intros H. by apply tamely_overly, calmly_tamely. Qed.
End Tame.

(** ** Triples by where the record stands *)

Section Regimes.
Context (R : run).
Hypothesis src_tgt : src R ≠ tgt R.
Local Notation Inv := (Inv R).
Local Notation G := (G R).
Local Notation stable := (stable R Inv).
Local Notation tri := (tri R Inv G).

(** What else a triple carries: of the workflow in memory, and of the row. *)
Abbreviation facts := (wfmem → wfrow → Prop).
(** Facts that do not look at what the operator edits. *)
Class RowFacts (φ : facts) : Prop :=
  row_facts m r r' : r_stage r' = r_stage r → r_cutover r' = r_cutover r → φ m r → φ m r'.

Definition With (F : world → Prop) (φ : facts) : assertion := λ m w, F w ∧ φ (wf m) (wrow w).
Abbreviation LP := (With (FreeL R)).
Abbreviation OP := (With (FreeO R)).
Abbreviation VP := (With (λ w, phaseOf (wrow w) = POver)).

Lemma calm_facts φ `{!RowFacts φ} m w w' : calm R w w' → φ m (wrow w) → φ m (wrow w').
Proof. intros Hc. apply row_facts; [apply Hc|apply (ce_cut _ _ _ Hc)]. Qed.
Lemma tame_facts φ `{!RowFacts φ} m w w' : tame R w w' → φ m (wrow w) → φ m (wrow w').
Proof. intros Hc. apply row_facts; [apply Hc|apply (ta_cut _ _ _ Hc)]. Qed.
Lemma over_facts φ `{!RowFacts φ} m w w' : over R w w' → φ m (wrow w) → φ m (wrow w').
Proof. intros Hc. apply row_facts; [apply Hc|apply (ov_cut _ _ _ Hc)]. Qed.

Lemma calm_FreeL w w' : calm R w w' → FreeL R w → FreeL R w'.
Proof.
  intros Hc [E|[E Hl]]; [left|right]; rewrite (calm_phase _ _ _ Hc); [done|]. split; [done|by eapply calm_late].
Qed.
Lemma calm_FreeO w w' : calm R w w' → FreeO R w → FreeO R w'.
Proof.
  intros Hc. by apply tame_FreeO, calm_tame.
Qed.

(** A property of the world the environment and calm statements keep. *)
Class Calm (F : world → Prop) : Prop := calm_keeps w w' : calm R w w' → Inv w → F w → F w'.
#[export] Instance FreeL_calm : Calm (FreeL R).
Proof. intros w w' Hc _. by apply calm_FreeL. Qed.
#[export] Instance FreeO_calm : Calm (FreeO R).
Proof. intros w w' Hc _. by apply calm_FreeO. Qed.
#[export] Instance phase_calm p : Calm (λ w, phaseOf (wrow w) = p).
Proof. intros w w' Hc _. by rewrite (calm_phase _ _ _ Hc). Qed.
#[export] Instance and_calm F F' : Calm F → Calm F' → Calm (λ w, F w ∧ F' w).
Proof. intros H1 H2 w w' Hc Hi [? ?]. split; eauto. Qed.
#[export] Instance or_calm F F' : Calm F → Calm F' → Calm (λ w, F w ∨ F' w).
Proof. intros H1 H2 w w' Hc Hi [?|?]; [left|right]; eauto. Qed.
#[export] Instance shut_calm : Calm (shut R).
Proof. intros w w' Hc _. by eapply calm_shut. Qed.
#[export] Instance shut_caught_calm : Calm (λ w, shut R w ∧ caught R w).
Proof. intros w w' Hc _ [H1 H2]. split; [by eapply calm_shut|]. intros s Hs. eapply calm_caught; eauto. Qed.
#[export] Instance forward_off_calm : Calm (forward_off R).
Proof. intros w w' Hc _. by rewrite (calm_off _ _ _ Hc). Qed.
#[export] Instance doomed_calm : Calm (doomed R).
Proof. intros w w' Hc _. by apply calm_doomed. Qed.
#[export] Instance unpaused_calm : Calm (unpaused R).
Proof. intros w w' Hc _. by apply calm_unpaused. Qed.

Lemma With_stable F φ `{!Calm F, !RowFacts φ} : stable (With F φ).
Proof. intros m w w' He Hi [? ?]. apply env_is_calm in He; [|done]. split; [by eapply calm_keeps|by eapply calm_facts]. Qed.

Lemma tri_calm {A} F φ (x : M A) `{!Calm F, !RowFacts φ} :
  keeps (calm R) same_wf x → tri (With F φ) x (λ r m w, With F φ m w ∧ soft_res r).
Proof.
  intros Hx. apply (tri_keeps R Inv G (env_inv R src_tgt) (calm R) same_wf); [by apply With_stable| | |done].
  - intros m m' w E [? ?]. split; [done|]. by rewrite E.
  - intros m w w' Hi [? ?] Hc. split; [by apply good_calm|]. split; [by eapply calm_keeps|by eapply calm_facts].
Qed.
Lemma tri_tame {A} φ (x : M A) `{!RowFacts φ} :
  keeps (tame R) same_wf x → tri (OP φ) x (λ r m w, OP φ m w ∧ soft_res r).
Proof.
  intros Hx. apply (tri_keeps R Inv G (env_inv R src_tgt) (tame R) same_wf); [by apply With_stable; try apply _| | |done].
  - intros m m' w E [? ?]. split; [done|]. by rewrite E.
  - intros m w w' Hi [? ?] Hc. destruct (good_tame R w w') as [? ?]; [done..|]. split; [done|]. split; [done|by eapply tame_facts].
Qed.
Lemma tri_over {A} φ (x : M A) `{!RowFacts φ} :
  keeps (over R) same_wf x → tri (VP φ) x (λ r m w, VP φ m w ∧ soft_res r).
Proof.
  intros Hx. apply (tri_keeps R Inv G (env_inv R src_tgt) (over R) same_wf); [by apply With_stable; try apply _| | |done].
  - intros m m' w E [? ?]. split; [done|]. by rewrite E.
  - intros m w w' Hi [? ?] Hc. destruct (good_over R w w') as [? ?]; [done..|]. split; [done|]. split; [done|by eapply over_facts].
Qed.
End Regimes.
