(* ===== verification/CutPause.v ===== *)
(** * The write pause and the drain

    Raising the pause claims the sources, makes them refuse new writing
    transactions and records when each did; the drain then waits for every
    transaction that began before; no prepared transaction is left: the sources
    are shut.  Lifting gives back exactly what was claimed. *)

From S2P Require Import Prelude Prog CutWorld CutOps Cutover CutLogic CutInv CutSpecs.

Local Open Scope Z_scope.

(** As [With], with the instants in memory fixed. *)
Definition AtP (pa : gmap (string * Z) Z) (F : world → Prop) (φ : wfmem → wfrow → Prop) : assertion :=
  λ m w, pausedAt m = pa ∧ With F φ m w.
(** Splits assertions into their parts. *)
Ltac parts :=
  repeat first [done|lazymatch goal with
  | |- _ ∧ _ => split
  | |- AtP _ _ _ _ _ => split
  | |- With _ _ _ _ => split
  end].

Section Pause.
Context (R : run).
Hypothesis src_tgt : src R ≠ tgt R.
Local Notation Inv := (Inv R).
Local Notation G := (G R).
Local Notation stable := (stable R Inv).
Local Notation tri := (tri R Inv G).
Local Notation good := (good Inv G).
Local Notation LP := (With (FreeL R)).
Local Notation env_inv := (env_inv R src_tgt).
Local Notation With_stable := (With_stable R src_tgt).
Local Notation tri_stmt := (tri_stmt R Inv G env_inv).
Local Notation tri_ask := (tri_ask R Inv G env_inv (G_refl R)).
Local Notation tri_now_bind := (tri_now_bind R Inv G env_inv).
Local Notation tri_sleep_bind := (tri_sleep_bind R Inv G env_inv).

Lemma FreeL_claimed w : Inv w → FreeL R w → claimed R w.
Proof. intros [_ Hat] [E|[E _]]; rewrite E in Hat; cbn in Hat; tauto. Qed.

(** A statement that only changes the claims of the catalog. *)
Definition with_claims (f : gmap (string * Z) (string * option Z) → gmap (string * Z) (string * option Z)) (w : world) : world :=
  {| w with cat := {| (cat w) with claims := f (claims (cat w)) |} |}.
Lemma good_claims w f :
  Inv w → FreeL R w → claimed R (with_claims f w) → good w (with_claims f w) ∧ FreeL R (with_claims f w).
Proof. intros Hi Hf Hc. apply good_leashed; [done..|]. split; [by apply tame_cat|done]. Qed.

Definition set_conf (s : Z) (b : bool) (w : world) : world :=
  match shards w !! (src R, s) with
  | Some sh => {| w with shards := <[(src R, s) := {| sh with conf := b |}]> (shards w) |}
  | None => w
  end.
Lemma good_conf w s b :
  Inv w → FreeL R w → (b = true → ours R (cat w) (src R, s) = true) → good w (set_conf s b w) ∧ FreeL R (set_conf s b w).
Proof.
  intros Hi Hf Ho. unfold set_conf. destruct (shards w !! (src R, s)) as [sh|] eqn:E.
  - apply good_leashed; [done..|]. split; [by apply tame_conf|]. intros Hc s' sh' Hs'. cbn.
    intros [[[= <-] <-]|[_ ?]]%lookup_insert_Some; cbn; [done|]. by apply Hc.
  - split; [|done]. split; [done|by apply G_refl].
Qed.

(** Facts about a source that neither the environment nor the pausing of
    another source disturbs. *)
Definition on_source (s : Z) (P : shard → Prop) (w : world) : Prop := ∃ sh, shards w !! (src R, s) = Some sh ∧ P sh.
Definition paused_since (at_ : Z) (sh : shard) : Prop :=
  conf sh = true ∧ setting sh = true ∧ ∀ pid x, xacts sh !! pid = Some x → x_rw x = true → x_start x < at_.
Definition off (sh : shard) : Prop := conf sh = false.

Definition steady (P : shard → Prop) : Prop := ∀ sh sh', P sh → shard_step sh sh' → P sh'.
Lemma paused_since_steady at_ : steady (paused_since at_).
Proof.
  intros sh sh' (Hc & Hs & Hx) Hst.
  inversion Hst as [s pid db Hn|s pid x Hl Hrw|s pid x Hl Hxid|s pid x Hl|s pid|s pid x gid Hl Hw Hg|s gid Hg|s gid|s n Hn|s q|s n Hn|s];
    subst; unfold paused_since; cbn; split_and!; try done.
  - intros q y [[<- <-]|[_ Hy]]%lookup_insert_Some; cbn; [by rewrite Hs|eauto].
  - intros q y [[<- <-]|[_ Hy]]%lookup_insert_Some; cbn; eauto.
  - intros q y [[<- <-]|[_ Hy]]%lookup_insert_Some; cbn; eauto.
  - unfold commit. by case_match.
  - unfold commit. by case_match.
  - unfold commit. case_match; cbn; intros q y [_ Hy]%lookup_delete_Some; eauto.
  - intros q y [_ Hy]%lookup_delete_Some; eauto.
  - intros q y [_ Hy]%lookup_delete_Some; eauto.
Qed.
Lemma conf_steady b : steady (λ sh, conf sh = b).
Proof. intros sh sh' <- Hst. by apply shard_step_conf. Qed.
Lemma setting_steady : steady (λ sh, conf sh = true ∧ setting sh = true).
Proof.
  intros sh sh' [Hc Hs] Hst. split; [by rewrite (shard_step_conf _ _ Hst)|]. inversion Hst; subst; try done.
  unfold commit. by case_match.
Qed.

Lemma on_source_calm s P : steady P → Calm R (on_source s P).
Proof.
  intros HP w w' Hc _ (sh & Hsh & Hp). destruct (calm_source _ _ _ _ _ Hc Hsh) as (sh' & Hsh' & Hst).
  exists sh'. split; [done|]. destruct Hst as [->|Hst]; eauto.
Qed.
Lemma on_source_conf s s' b P w : s ≠ s' → on_source s P w → on_source s P (set_conf s' b w).
Proof.
  intros Hne (sh & Hsh & Hp). unfold set_conf. destruct (shards w !! (src R, s')) as [sh'|] eqn:E; [|by exists sh].
  exists sh. cbn. rewrite lookup_insert_ne by congruence. done.
Qed.
Lemma on_source_same s b (P : shard → Prop) w :
  (∀ sh, P sh → P {| sh with conf := b |}) → on_source s P w → on_source s P (set_conf s b w).
Proof.
  intros HP (sh & Hsh & Hp). unfold set_conf. rewrite Hsh. exists {| sh with conf := b |}. cbn. rewrite lookup_insert_eq. auto.
Qed.
Lemma set_conf_conf s b w : is_Some (shards w !! (src R, s)) → on_source s (λ sh, conf sh = b) (set_conf s b w).
Proof. intros [sh E]. unfold set_conf. rewrite E. eexists. cbn. by rewrite lookup_insert_eq. Qed.

(** ** Raising the pause *)

Lemma AtP_stable pa F φ `{!Calm R F, !RowFacts φ} : stable (AtP pa F φ).
Proof. intros m w w' He Hi [? ?]. split; [done|]. by eapply (With_stable F φ). Qed.
Lemma tri_fix {A} P (x : M A) Q : (∀ pa, tri (λ m w, pausedAt m = pa ∧ P m w) x Q) → tri P x Q.
Proof. intros H m w Hi Hm. by apply (H (pausedAt m)). Qed.

Local Notation FL F := (λ w, FreeL R w ∧ F w).

Lemma alterSystem_spec pa (F Q : world → Prop) φ s b `{!Calm R F, !RowFacts φ} :
  (∀ w, F w → b = true → ours R (cat w) (src R, s) = true) → (∀ w, F w → F (set_conf s b w)) →
  (∀ w, F w → is_Some (shards w !! (src R, s)) → Q (set_conf s b w)) →
  tri (AtP pa (FL F) φ) (alterSystem (src R) s b)
    (λ r m w, AtP pa (FL F) φ m w ∧ soft_res r ∧ (r = Ok () → Q w)).
Proof.
  intros Ho HF HQ. apply tri_stmt; [apply AtP_stable; apply _|]. intros m w Hi [Hpa [[Hf HFw] Hφ]].
  destruct (good_conf w s b Hi Hf (Ho w HFw)) as [Hg Hf'].
  assert (φ (wf m) (wrow (set_conf s b w))) as Hφ'.
  { unfold set_conf. by destruct (shards w !! (src R, s)). }
  specialize (HF w HFw). specialize (HQ w HFw). unfold set_conf in *.
  destruct (shards w !! (src R, s)) as [sh|] eqn:E; cbn.
  - split; [done|]. split; [split; [by repeat split|]; split; [done|eauto]|].
    intros e He. destruct (plain_soft _ He). by repeat split.
  - split; [done|]. split; [by repeat split|]. intros e He. destruct (plain_soft _ He). by repeat split.
Qed.

Lemma refusesWrites_spec pa (F : world → Prop) φ s `{!Calm R F, !RowFacts φ} :
  (∀ w, F w → on_source s (λ sh, conf sh = true) w) →
  tri (AtP pa F φ) (refusesWrites (src R) s)
    (λ r m w, AtP pa F φ m w ∧ soft_res r ∧ (r = Ok true → on_source s (λ sh, conf sh = true ∧ setting sh = true) w)).
Proof.
  intros HF. apply tri_ask; [apply AtP_stable; apply _|]. intros m w Hi HP. split.
  - destruct (HF w (proj1 (proj2 HP))) as (sh & E & Hc). rewrite E. split_and!; [done..|]. intros [= Hs]. exists sh. auto.
  - intros e He. pose proof (plain_soft _ He). by split_and!.
Qed.

Lemma confirmPause_spec pa (F : world → Prop) φ s fuel deadline `{!Calm R F, !RowFacts φ} :
  (∀ w, F w → on_source s (λ sh, conf sh = true) w) →
  tri (AtP pa F φ) (confirmPause fuel deadline (src R) s)
    (λ r m w, AtP pa F φ m w ∧ soft_res r ∧ ∀ at_, r = Ok at_ → on_source s (paused_since at_) w).
Proof.
  intros HF. induction fuel as [|fuel IH]; cbn [confirmPause].
  { apply tri_fail. intros m w Hi HP. by split_and!. }
  eapply tri_bind; [by apply refusesWrites_spec| |].
  - intros [].
    + pose proof (on_source_calm s _ setting_steady) as Hset.
      unfold shardNow. apply tri_ask.
      * intros m w w' He Hi (HP & Hs & Hok). split; [by eapply AtP_stable; try apply _|]. split; [done|]. intros E.
        apply (Hset w w'); [by apply env_is_calm|done|auto].
      * intros m w Hi (HP & _ & Hok). destruct (Hok eq_refl) as (sh & E & Hc & Hse). split.
        -- rewrite E. split_and!; [done..|]. intros at_ [= <-]. exists sh. split; [done|]. split_and!; [done..|].
           intros pid x Hx _. destruct Hi as [(_ & Hsane & _) _]. by apply (Hsane _ _ E) in Hx.
        -- intros e He. pose proof (plain_soft _ He). by split_and!.
    + apply (tri_pre R Inv G (AtP pa F φ)); [by intros m w _ [? _]|].
      apply tri_now_bind; [apply AtP_stable; apply _|]. intros t. apply (tri_pre R Inv G (AtP pa F φ)); [by intros m w _ [? _]|].
      case_match.
      { apply tri_fail. intros m w Hi HP. by split_and!. }
      apply tri_sleep_bind; [apply AtP_stable; apply _|done].
  - intros e m w Hi (HP & Hs & _). by split_and!.
Qed.

Lemma reloadConf_spec P set s : stable P →
  tri P (reloadConf set s) (λ r m w, P m w ∧ soft_res r).
Proof.
  intros HP. apply tri_ask; [done|]. intros m w Hi Hm. split; [by case_match|].
  intros e He. pose proof (plain_soft _ He). by split_and!.
Qed.

(** A source is paused: it refuses new writers from some instant on. *)
Lemma pauseOne_true pa (F : world → Prop) φ s `{!Calm R F, !RowFacts φ} :
  (∀ w, F w → ours R (cat w) (src R, s) = true) → (∀ w, F w → F (set_conf s true w)) →
  tri (AtP pa (FL F) φ) (pauseOne (src R) true s)
    (λ r m w, With (FL F) φ m w ∧ soft_res r ∧
       (r = Ok () → ∃ at_, pausedAt m = <[(src R, s) := at_]> pa ∧ on_source s (paused_since at_) w)).
Proof.
  intros Ho HF. unfold pauseOne, setReadOnly.
  pose proof (on_source_calm s _ (conf_steady true)) as Hcs.
  eapply (tri_bind _ _ _ _ _ _ (λ r m w, AtP pa (FL F) φ m w ∧ soft_res r ∧
     ∀ o, r = Ok o → ∃ at_, o = Some at_ ∧ on_source s (paused_since at_) w)).
  2:{ intros o. apply tri_modify. intros m w Hi ([Hpa HW] & _ & Hok). destruct (Hok o eq_refl) as (at_ & -> & Hp).
      split_and!; [done..|]. intros _. exists at_. cbn. by rewrite Hpa. }
  2:{ intros e m w Hi ([_ HW] & Hs & _). by split_and!. }
  eapply tri_bind; [apply (alterSystem_spec pa F (on_source s (λ sh, conf sh = true)) φ s true); [by intros w Hw _; apply Ho|done|by intros w _ ?; apply set_conf_conf]| |].
  2:{ intros e m w Hi (HA & Hs & _). by split_and!. }
  intros []. apply (tri_pre R Inv G (AtP pa (FL (λ w, F w ∧ on_source s (λ sh, conf sh = true) w)) φ)).
  { intros m w Hi ([Hpa [[Hf HFw] Hφ]] & _ & Hok). specialize (Hok eq_refl). parts. }
  eapply tri_bind; [apply reloadConf_spec; apply AtP_stable; apply _| |].
  2:{ intros e m w Hi ([Hpa [(Hf & HFw & _) Hφ]] & Hs). parts. }
  intros []. apply (tri_pre R Inv G (AtP pa (FL (λ w, F w ∧ on_source s (λ sh, conf sh = true) w)) φ)); [by intros m w _ [? _]|].
  cbn [negb]. apply tri_now_bind; [apply AtP_stable; apply _|]. intros t.
  apply (tri_pre R Inv G (AtP pa (FL (λ w, F w ∧ on_source s (λ sh, conf sh = true) w)) φ)); [by intros m w _ [? _]|].
  eapply tri_bind; [apply (confirmPause_spec pa (FL (λ w, F w ∧ on_source s (λ sh, conf sh = true) w)) φ s _ _); by intros w (_ & _ & ?)| |].
  2:{ intros e m w Hi ([Hpa [(Hf & HFw & _) Hφ]] & Hs & _). parts. }
  intros at_. apply tri_ret. intros m w Hi ([Hpa [(Hf & HFw & _) Hφ]] & _ & Hok).
  split; [parts|]. split; [done|]. intros o [= <-]. eauto.
Qed.

(** A source's configuration is reset. *)
Lemma pauseOne_false (F : world → Prop) φ s `{!Calm R F, !RowFacts φ} :
  (∀ w, F w → F (set_conf s false w)) →
  tri (With (FL F) φ) (pauseOne (src R) false s)
    (λ r m w, With (FL F) φ m w ∧ soft_res r ∧ (r = Ok () → on_source s off w)).
Proof.
  intros HF. unfold pauseOne, setReadOnly. pose proof (on_source_calm s _ (conf_steady false) : Calm R (on_source s off)) as Hcs.
  apply tri_fix. intros pa.
  eapply (tri_bind _ _ _ _ _ _ (λ r m w, With (FL F) φ m w ∧ soft_res r ∧ (is_ok r = true → on_source s off w))).
  2:{ intros o. apply tri_modify. intros m w Hi (HW & _ & Hok). split_and!; [done..|]. auto. }
  2:{ intros e m w Hi (HW & Hs & _). by split_and!. }
  eapply tri_bind; [apply (alterSystem_spec pa F (on_source s off) φ s false); [done|done|by intros w _ ?; apply set_conf_conf]| |].
  2:{ intros e m w Hi ([_ HA] & Hs & _). by split_and!. }
  intros []. apply (tri_pre R Inv G (With (FL (λ w, F w ∧ on_source s off w)) φ)).
  { intros m w Hi ([Hpa [[Hf HFw] Hφ]] & _ & Hok). specialize (Hok eq_refl). parts. }
  eapply tri_bind; [apply reloadConf_spec; apply With_stable; apply _| |].
  2:{ intros e m w Hi ([(Hf & HFw & _) Hφ] & Hs). parts. }
  intros []. cbn [negb]. apply tri_ret. intros m w Hi ([(Hf & HFw & Ho) Hφ] & _). split; [parts|]. by split.
Qed.

(** ** The claims *)

(** A fold that only touches the keys of its list, each the same way every
    time. *)
Lemma foldr_key {V} (set : string) (f : Z → gmap (string * Z) V → gmap (string * Z) V) (h : Z → option V → option V) base ids s :
  (∀ id m, f id m !! (set, id) = h id (m !! (set, id))) → (∀ id m k, k ≠ (set, id) → f id m !! k = m !! k) →
  (∀ id o, h id (h id o) = h id o) →
  foldr f base ids !! (set, s) = if decide (s ∈ ids) then h s (base !! (set, s)) else base !! (set, s).
Proof.
  intros H1 H2 H3. induction ids as [|id ids IH]; cbn; [done|].
  destruct (decide (s = id)) as [<-|Hne].
  - rewrite H1, IH. rewrite (decide_True (P := s ∈ s :: ids)) by left. case_decide; [apply H3|done].
  - rewrite H2 by congruence. rewrite IH. destruct (decide (s ∈ ids)).
    + by rewrite decide_True by (by right).
    + rewrite decide_False; [done|]. rewrite elem_of_cons. tauto.
Qed.

Lemma claimPause_lookup ids c s : s ∈ ids →
  claims (claimPause R (src R) ids c).2 !! (src R, s) = Some (wid R, None).
Proof.
  intros Hs. cbn. rewrite (foldr_key _ _ (λ _ _, Some (wid R, None))); [by rewrite decide_True| | |done].
  - intros id m. by rewrite lookup_insert_eq.
  - intros id m k Hk. by rewrite lookup_insert_ne.
Qed.
Lemma dropPauseClaim_lookup ids c s : s ∈ ids →
  claims (dropPauseClaim R (src R) ids c).2 !! (src R, s) = if ours R c (src R, s) then None else claims c !! (src R, s).
Proof.
  intros Hs. cbn. rewrite (foldr_key _ _ (λ id o, if ours R c (src R, id) then None else o)); [by rewrite decide_True| | |].
  - intros id m. case_match; [by rewrite lookup_delete_eq|done].
  - intros id m k Hk. case_match; [by rewrite lookup_delete_ne|done].
  - intros id o. by case_match.
Qed.

Definition OursAll (w : world) : Prop := ∀ s, s ∈ srcIDs R → ours R (cat w) (src R, s) = true.
#[export] Instance OursAll_calm : Calm R OursAll.
Proof. intros w w' Hc _ H s Hs. unfold ours. rewrite (ce_claims _ _ _ Hc). by apply H. Qed.

(** The pause is up on the sources of a list, since the instants in memory. *)
Definition Done (pa : gmap (string * Z) Z) (l : list Z) (w : world) : Prop :=
  ∀ s, s ∈ l → ∃ at_, pa !! (src R, s) = Some at_ ∧ on_source s (paused_since at_) w.
Lemma Done_calm pa l : Calm R (Done pa l).
Proof.
  intros w w' Hc Hi H s Hs. destruct (H s Hs) as (at_ & E & Ho). exists at_. split; [done|].
  by apply (on_source_calm s _ (paused_since_steady at_) w w').
Qed.
Lemma Done_conf pa l s w : Done pa l w → Done pa l (set_conf s true w).
Proof.
  intros H s' Hs'. destruct (H s' Hs') as (at_ & E & Ho). exists at_. split; [done|].
  destruct (decide (s' = s)) as [->|]; [|by apply on_source_conf]. apply on_source_same; [|done].
  intros sh (_ & ? & ?). by split_and!.
Qed.
(** And it is this run's claim that says so. *)
Definition PausedAll (m : mem) (w : world) : Prop :=
  Done (pausedAt m) (srcIDs R) w ∧
  ∀ s at_, s ∈ srcIDs R → pausedAt m !! (src R, s) = Some at_ → claims (cat w) !! (src R, s) = Some (wid R, Some at_).

Lemma set_conf_cat s b w : cat (set_conf s b w) = cat w.
Proof. unfold set_conf. by case_match. Qed.
Lemma OursAll_conf s b w : OursAll w → OursAll (set_conf s b w).
Proof. intros H s' Hs'. rewrite set_conf_cat. by apply H. Qed.
Lemma OursAll_claimed w : OursAll w → claimed R w.
Proof. intros H s sh Hs _ _. by apply H. Qed.

Lemma pauseSet_true φ `{!RowFacts φ} :
  tri (With (FL OursAll) φ) (pauseSet (src R) (srcIDs R) true)
    (λ r m w, With (FL OursAll) φ m w ∧ soft_res r ∧ (r = Ok () → Done (pausedAt m) (srcIDs R) w)).
Proof.
  unfold pauseSet.
  eapply tri_mono; [| |apply (tri_forM R Inv G (srcIDs R) _
    (λ l m w, With (FL OursAll) φ m w ∧ Done (pausedAt m) l w) (λ e m w, With (FL OursAll) φ m w ∧ soft e))].
  - intros m w _ HW. split; [done|]. intros s Hs. by apply elem_of_nil in Hs.
  - intros [[]|e] m w _ [HW ?]; by split_and!.
  - intros l1 s l2 El. apply tri_fix. intros pa. pose proof (Done_calm pa l1).
    assert (s ∈ srcIDs R) as Hs by (rewrite El; apply elem_of_app; right; by left).
    eapply tri_mono; [| |apply (pauseOne_true pa (λ w, OursAll w ∧ Done pa l1 w) φ s)].
    + intros m w _ (<- & [[? ?] ?] & ?). parts.
    + intros [[]|e] m w _ ([(? & ? & Hd) ?] & Hs' & Hok); [|by parts]. split; [by parts|].
      destruct (Hok eq_refl) as (at_ & -> & Ho). intros s' [Hs''| ->%list_elem_of_singleton]%elem_of_app.
      * destruct (decide (s' = s)) as [->|Hne]; [exists at_; by rewrite lookup_insert_eq|].
        destruct (Hd s' Hs'') as (at' & E & ?). exists at'. by rewrite lookup_insert_ne by congruence.
      * exists at_. by rewrite lookup_insert_eq.
    + intros w [Ho _]. by apply Ho.
    + intros w [? ?]. split; [by apply OursAll_conf|by apply Done_conf].
Qed.

(** Raised on every source: claimed, refusing writers, recorded. *)
Lemma PauseSources_true φ `{!RowFacts φ} :
  tri (LP φ) (pg_PauseSources R true) (λ r m w, LP φ m w ∧ soft_res r ∧ (r = Ok () → PausedAll m w)).
Proof.
  unfold pg_PauseSources, pauseSetClaimed.
  eapply (tri_bind _ _ _ _ _ _ (λ r m w, LP φ m w ∧ soft_res r ∧ (r = Ok () → OursAll w))).
  { apply tri_stmt; [by apply With_stable; apply _|]. intros m w Hi [Hf Hφ].
    assert (OursAll (with_claims (λ c, foldr (λ id m, <[(src R, id) := (wid R, None)]> m) c (srcIDs R)) w)) as Ho.
    { intros s Hs. unfold ours. pose proof (claimPause_lookup (srcIDs R) (cat w) s Hs) as E. cbn in E. cbn. rewrite E. by rewrite String.eqb_refl. }
    destruct (good_claims w _ Hi Hf (OursAll_claimed _ Ho)) as [Hg Hf']. cbn.
    split; [done|]. split; [by parts|]. intros e He. pose proof (plain_soft _ He). split; by parts. }
  2:{ intros e m w _ (? & ? & _). by parts. }
  intros []. apply (tri_pre R Inv G (With (FL OursAll) φ)).
  { intros m w _ ([? ?] & _ & Ho). specialize (Ho eq_refl). by parts. }
  eapply tri_bind; [by apply pauseSet_true| |].
  2:{ intros e m w _ ([[? ?] ?] & ? & _). by parts. }
  intros []. unfold recordPauseInstants. apply tri_get_bind. intros m0. pose proof (Done_calm (pausedAt m0) (srcIDs R)).
  apply (tri_pre R Inv G (AtP (pausedAt m0) (FL (λ w, OursAll w ∧ Done (pausedAt m0) (srcIDs R) w)) φ)).
  { intros m w _ (-> & [[? ?] ?] & _ & Hd). specialize (Hd eq_refl). by parts. }
  apply tri_stmt; [by apply AtP_stable; apply _|]. intros m w Hi [Hpa [(Hf & Ho & Hd) Hφ]].
  match goal with |- context [foldr ?f _ _] => set (h := f) end.
  assert (∀ s at_, s ∈ srcIDs R → pausedAt m0 !! (src R, s) = Some at_ →
    foldr h (claims (cat w)) (srcIDs R) !! (src R, s) = Some (wid R, Some at_)) as Hl.
  { intros s at_ Hs Hat. rewrite (foldr_key _ h (λ id o, match pausedAt m0 !! (src R, id) with
        Some at_ => if ours R (cat w) (src R, id) then Some (wid R, Some at_) else o | None => o end)).
    - rewrite decide_True by done. by rewrite Hat, (Ho s Hs).
    - intros id c. unfold h. repeat case_match; rewrite ?lookup_insert_eq; done.
    - intros id c k Hk. unfold h. repeat case_match; rewrite ?lookup_insert_ne; done.
    - intros id o. by repeat case_match. }
  assert (claimed R (with_claims (λ c, foldr h c (srcIDs R)) w)) as Hc.
  { intros s sh Hs _ _. destruct (Hd s Hs) as (at_ & Hat & _). unfold ours. cbn. rewrite (Hl s at_ Hs Hat). by rewrite String.eqb_refl. }
  destruct (good_claims w _ Hi Hf Hc) as [Hg Hf']. cbn.
  split; [done|]. split.
  - split; [by parts|]. split; [done|]. intros _. rewrite <- Hpa in Hd, Hl. split; [done|exact Hl].
  - intros e He. pose proof (plain_soft _ He). split; by parts.
Qed.

(** Lifted: every source the run claimed is writable again, and unclaimed. *)
Lemma PauseSources_false φ `{!RowFacts φ} :
  tri (LP φ) (pg_PauseSources R false) (λ r m w, LP φ m w ∧ soft_res r ∧ (r = Ok () → unpaused R w)).
Proof.
  unfold pg_PauseSources, pauseSetClaimed.
  set (F (l : list Z) (w : world) := ∀ s, s ∈ srcIDs R → s ∉ l → ours R (cat w) (src R, s) = false).
  assert (∀ l, Calm R (F l)) as HF.
  { intros l w w' Hc _ H s Hs Hn. unfold ours. rewrite (ce_claims _ _ _ Hc). by apply H. }
  set (Off (l : list Z) (w : world) := ∀ s, s ∈ l → on_source s off w).
  assert (∀ l, Calm R (Off l)) as HOff.
  { intros l w w' Hc Hi H s Hs. apply (on_source_calm s off (conf_steady false) w w'); auto. }
  eapply (tri_bind _ _ _ _ _ _ (λ r m w, LP φ m w ∧ soft_res r ∧ (∀ l, r = Ok l → F l w))).
  { apply tri_ask; [by apply With_stable; apply _|]. intros m w Hi HP. split.
    - split; [done|]. split; [done|]. intros l [= <-] s Hs Hn. destruct (ours R (cat w) (src R, s)) eqn:E; [|done].
      exfalso. apply Hn. by apply list_elem_of_filter.
    - intros e He. pose proof (plain_soft _ He). by parts. }
  2:{ intros e m w _ (? & ? & _). by parts. }
  intros l. apply (tri_pre R Inv G (With (FL (F l)) φ)).
  { intros m w _ ([? ?] & _ & Ho). specialize (Ho _ eq_refl). by parts. }
  eapply (tri_bind _ _ _ _ _ _ (λ r m w, With (FL (F l)) φ m w ∧ soft_res r ∧ (r = Ok () → Off l w))).
  { unfold pauseSet.
    eapply tri_mono; [| |apply (tri_forM R Inv G l _
      (λ l1 m w, With (FL (λ w, F l w ∧ Off l1 w)) φ m w) (λ e m w, With (FL (F l)) φ m w ∧ soft e))].
    - intros m w _ [[? ?] ?]. parts. intros s Hs. by apply elem_of_nil in Hs.
    - intros [[]|e] m w _; [intros [(? & ? & ?) ?]|intros [[[? ?] ?] ?]]; by parts.
    - intros l1 s l2 El. eapply tri_mono; [| |apply (pauseOne_false (λ w, F l w ∧ Off l1 w) φ s)].
      + done.
      + intros [[]|e] m w _ ([(? & ? & Ho) ?] & Hs & Hok); [|by parts]. parts.
        intros s' [?| ->%list_elem_of_singleton]%elem_of_app; auto.
      + intros w [Ha Hb]. split.
        * intros s' Hs' Hn. rewrite set_conf_cat. by apply Ha.
        * intros s' Hs'. destruct (decide (s' = s)) as [->|]; [|apply on_source_conf; auto]. by apply on_source_same; auto. }
  2:{ intros e m w _ ([[? ?] ?] & ? & _). by parts. }
  intros []. apply (tri_pre R Inv G (With (FL (λ w, F l w ∧ Off l w)) φ)).
  { intros m w _ ([[? ?] ?] & _ & Ho). specialize (Ho eq_refl). by parts. }
  apply tri_stmt; [by apply With_stable; apply _|]. intros m w Hi [(Hf & HFl & Ho) Hφ].
  assert (unpaused R (with_claims (λ c, foldr (λ id m, if ours R (cat w) (src R, id) then delete (src R, id) m else m) c (srcIDs R)) w)) as Hu.
  { intros s sh Hs Hsh. split.
    - cbn in Hsh. destruct (decide (s ∈ l)) as [Hl|Hn].
      + destruct (Ho s Hl) as (sh' & E & Hoff). rewrite Hsh in E. injection E as <-. done.
      + destruct (conf sh) eqn:Ec; [|done]. pose proof (FreeL_claimed w Hi Hf s sh Hs Hsh Ec) as Hx. by rewrite (HFl s Hs Hn) in Hx.
    - pose proof (dropPauseClaim_lookup (srcIDs R) (cat w) s Hs) as E. cbn [dropPauseClaim snd claims] in E. unfold ours at 1. unfold with_claims. cbn [cat claims]. rewrite E.
      destruct (ours R (cat w) (src R, s)) eqn:Eo; [done|]. exact Eo. }
  assert (claimed R (with_claims (λ c, foldr (λ id m, if ours R (cat w) (src R, id) then delete (src R, id) m else m) c (srcIDs R)) w)) as Hc.
  { intros s sh Hs Hsh Ec. destruct (Hu s sh Hs Hsh) as [E _]. by rewrite E in Ec. }
  destruct (good_claims w _ Hi Hf Hc) as [Hg Hf']. cbn.
  split; [done|]. split; [by parts|]. intros e He. pose proof (plain_soft _ He). split; by parts.
Qed.
End Pause.
