(* ===== verification/CutDrain.v ===== *)
(** * The drain, the catch-up and the quiesce

    A drain that reports nothing left means nothing is left: the writers that
    began before the pause are gone, no transaction is prepared, and the
    sources are shut.  Slots past the position of a shut source mean its target
    holds all it ever committed. *)

From S2P Require Import Prelude Prog Ranges CutWorld CutOps Cutover CutLogic CutInv CutSpecs CutPause.

Local Open Scope Z_scope.

Section Drain.
Context (R : run).
Hypothesis src_tgt : src R ≠ tgt R.
Local Notation Inv := (Inv R).
Local Notation G := (G R).
Local Notation stable := (stable R Inv).
Local Notation tri := (tri R Inv G).
Local Notation LP := (With (FreeL R)).
Local Notation env_inv := (env_inv R src_tgt).
Local Notation With_stable := (With_stable R src_tgt).
Local Notation AtP_stable := (AtP_stable R src_tgt).
Local Notation tri_ask := (tri_ask R Inv G env_inv (G_refl R)).
Local Notation tri_now_bind := (tri_now_bind R Inv G env_inv).
Local Notation tri_sleep_bind := (tri_sleep_bind R Inv G env_inv).
Local Notation on_source := (on_source R).

(** ** Loops that gather complaints *)

Lemma tri_collect {A B} (l : list A) (f : A → M (list B)) (I : list A → list B → assertion) (E : err → assertion) :
  (∀ l1 a l2 acc, l = l1 ++ a :: l2 →
     tri (I l1 acc) (f a) (λ r, match r with Ok x => I (l1 ++ [a]) (acc ++ x) | Err e => E e end)) →
  tri (I [] []) (collect l f) (λ r, match r with Ok x => I l x | Err e => E e end).
Proof.
  intros H.
  assert (∀ l2 l1 acc, l = l1 ++ l2 →
    tri (I l1 acc) (collect l2 f) (λ r, match r with Ok x => I l (acc ++ x) | Err e => E e end)) as Hg; [|by apply (Hg l [] [])].
  induction l2 as [|a l2 IH]; intros l1 acc El; cbn [collect].
  - rewrite app_nil_r in El. subst. apply tri_ret. intros m w _. by rewrite app_nil_r.
  - eapply tri_bind; [by apply (H l1 a l2 acc)| |done]. intros x.
    eapply tri_bind; [apply (IH (l1 ++ [a]) (acc ++ x)); by rewrite El, <- app_assoc| |done]. intros y.
    apply tri_ret. intros m w _. by rewrite app_assoc.
Qed.

(** No complaint from the whole is none from any part. *)
Lemma collect_nil {A B} (l : list A) (f : A → M (list B)) pa (F : world → Prop) φ (Good : A → world → Prop) `{!RowFacts φ, !Calm R F} :
  (∀ a, a ∈ l → Calm R (λ w, F w ∧ Good a w)) →
  (∀ a (F' : world → Prop), Calm R F' → (∀ w, F' w → F w) → a ∈ l →
     tri (AtP pa F' φ) (f a) (λ r m w, AtP pa F' φ m w ∧ soft_res r ∧ (r = Ok [] → Good a w))) →
  tri (AtP pa F φ) (collect l f) (λ r m w, AtP pa F φ m w ∧ soft_res r ∧ (r = Ok [] → ∀ a, a ∈ l → Good a w)).
Proof.
  intros HG Hf.
  eapply tri_mono; [| |apply (tri_collect l f (λ l1 acc m w, AtP pa F φ m w ∧ (acc = [] → ∀ a, a ∈ l1 → Good a w))
                               (λ e m w, AtP pa F φ m w ∧ soft e))].
  - intros m w _ HP. split; [done|]. intros _ a Ha. by apply elem_of_nil in Ha.
  - intros [x|e] m w _ [? Hx]; split_and!; try done. intros [= ->]. auto.
  - intros l1 a l2 acc El. assert (a ∈ l) as Ha by (rewrite El; apply elem_of_app; right; by left).
    assert (∀ b, b ∈ l1 → b ∈ l) as Hsub by (intros b Hb; rewrite El; apply elem_of_app; by left).
    destruct acc as [|b acc].
    + assert (Calm R (λ w, F w ∧ ∀ b, b ∈ l1 → Good b w)) as Hc.
      { intros w w' Hc Hi [H1 H2]. split; [by eapply calm_keeps|]. intros b Hb. by eapply (HG b (Hsub b Hb) w w'); auto. }
      eapply tri_mono; [| |apply (Hf a (λ w, F w ∧ ∀ b, b ∈ l1 → Good b w)); [done|by intros w [? _]|done]].
      * intros m w _ [[? [? ?]] Hg]. specialize (Hg eq_refl). by parts.
      * intros [x|e] m w _ ([? [[? Hl] ?]] & ? & Hok); [|by parts]. split; [by parts|]. cbn. intros ->.
        intros b [?| ->%list_elem_of_singleton]%elem_of_app; auto.
    + eapply tri_mono; [| |apply (Hf a F); [done..|exact Ha]].
      * by intros m w _ [? _].
      * intros [x|e] m w _ (? & ? & _); by split_and!.
Qed.

Lemma const_calm (P : Prop) : Calm R (λ _, P).
Proof. by intros w w' _ _. Qed.

(** ** The writers *)

(** Nothing that may write is left on the source, and nothing will be. *)
Definition idle (sh : shard) : Prop := conf sh = true ∧ setting sh = true ∧ ∀ pid x, xacts sh !! pid = Some x → x_rw x = false.
Lemma idle_steady : steady idle.
Proof.
  intros sh sh' (Hc & Hs & Hx) Hst.
  inversion Hst as [s pid db Hn|s pid x Hl Hrw|s pid x Hl Hxid|s pid x Hl|s pid|s pid x gid Hl Hw Hg|s gid Hg|s gid|s n Hn|s q|s n Hn|s];
    subst; unfold idle; cbn; split_and!; try done.
  all: try (intros q y [[<- <-]|[_ Hy]]%lookup_insert_Some; cbn; [by rewrite ?Hs; eauto|eauto]).
  all: try (intros q y [_ Hy]%lookup_delete_Some; eauto).
  - unfold commit. by case_match.
  - unfold commit. by case_match.
  - unfold commit. case_match; cbn; intros q y [_ Hy]%lookup_delete_Some; eauto.
Qed.
Lemma closed_steady : steady closed.
Proof. intros sh sh' Hc Hst. by apply (closed_step sh sh'). Qed.

Lemma tempOnly_spec P set s maybe db : stable P →
  tri P (tempOnly set s maybe db) (λ r m w, P m w ∧ soft_res r ∧ ∀ l, r = Ok l → ∀ pid, pid ∈ l → pid ∈ maybe.*1).
Proof.
  intros HP. unfold tempOnly, writingOnlyTemporaryTables.
  eapply (tri_try_bind _ _ _ _ _ _ (λ r m w, P m w ∧ ∀ l, r = Ok l → ∀ pid, pid ∈ l → pid ∈ maybe.*1)).
  - apply tri_ask; [done|]. intros m w _ Hm. split; [|by intros e _].
    split; [done|]. case_match; [|done]. intros l [= <-] pid [_ Hp]%list_elem_of_filter.
    apply list_elem_of_fmap in Hp as (y & -> & [_ Hy]%list_elem_of_filter). apply list_elem_of_fmap. eauto.
  - intros [l|e]; apply tri_ret; intros m w _ [? Hl]; split_and!; try done.
    intros l' [= <-] pid Hp. by apply elem_of_nil in Hp.
Qed.

(** A transaction the drain must wait for. *)
Definition writer (since : option Z) (p : Z * xact) : Prop := x_rw p.2 = true ∧ maybeTemp since p.2 = false.

Lemma activity_NoDup since sh : NoDup (activity since sh).*1.
Proof.
  unfold activity. apply NoDup_fmap_fst; [|apply NoDup_filter, NoDup_map_to_list].
  intros pid x y [_ Hx]%list_elem_of_filter [_ Hy]%list_elem_of_filter.
  apply elem_of_map_to_list in Hx, Hy. congruence.
Qed.

Lemma idle_or_writer at_ sh :
  paused_since at_ sh → (∃ p, p ∈ activity (Some at_) sh ∧ writer (Some at_) p) ∨ idle sh.
Proof.
  intros (Hc & Hs & Hx).
  destruct (decide (map_Exists (λ _ x, x_rw x = true) (xacts sh))) as [(pid & x & Hl & Hrw)|Hn].
  - left. exists (pid, x). pose proof (Hx _ _ Hl Hrw) as Hlt. split.
    + unfold activity. apply list_elem_of_filter. split; [|by apply elem_of_map_to_list]. unfold listed.
      replace (x_start x <? at_) with true by lia. apply orb_true_r.
    + split; [done|]. unfold maybeTemp. cbn [snd]. replace (at_ <=? x_start x) with false by lia. apply andb_false_r.
  - right. split_and!; [done..|]. intros pid x Hl. destruct (x_rw x) eqn:E; [|done]. exfalso. apply Hn. by exists pid, x.
Qed.

Lemma writingBackendsOn_spec pa at_ (F : world → Prop) φ s `{!Calm R F, !RowFacts φ} :
  pa !! (src R, s) = Some at_ → (∀ w, F w → on_source s (paused_since at_) w) →
  tri (AtP pa F φ) (writingBackendsOn (src R) s)
    (λ r m w, AtP pa F φ m w ∧ soft_res r ∧ (r = Ok [] → on_source s idle w)).
Proof.
  intros Hpa HF. unfold writingBackendsOn. apply tri_get_bind. intros m0.
  apply (tri_pure _ _ _ _ _ _ (pausedAt m0 = pa)); [by intros m w (-> & ? & _)|]. intros Em.
  apply (tri_pre R Inv G (AtP pa F φ)); [by intros m w _ [_ ?]|]. rewrite Em, Hpa.
  pose proof (on_source_calm R s _ idle_steady) as Hidle.
  eapply (tri_bind _ _ _ _ _ _ (λ r m w, AtP pa F φ m w ∧ soft_res r ∧
     ∀ found, r = Ok found → NoDup found.*1 ∧ ((∃ p, p ∈ found ∧ writer (Some at_) p) ∨ on_source s idle w))).
  { apply tri_ask; [apply AtP_stable; apply _|]. intros m w _ HP. split.
    - destruct (HF w (proj1 (proj2 HP))) as (sh & E & Hp). rewrite E. split_and!; [done..|]. intros found [= <-].
      split; [apply activity_NoDup|]. destruct (idle_or_writer at_ sh Hp) as [?|?]; [by left|right; by exists sh].
    - intros e He. pose proof (plain_soft _ He). by split_and!. }
  2:{ intros e m w _ (? & ? & _). by split_and!. }
  intros found. apply (tri_pure _ _ _ _ _ _ (NoDup found.*1)); [by intros m w (_ & _ & H); apply (H found)|]. intros Hnd.
  set (W := ∃ p, p ∈ found ∧ writer (Some at_) p). pose proof (const_calm W).
  apply (tri_pre R Inv G (AtP pa (λ w, F w ∧ (W ∨ on_source s idle w)) φ)).
  { intros m w _ ([? [? ?]] & _ & H'). specialize (H' found eq_refl) as [_ ?]. by parts. }
  set (maybe := filter _ found).
  eapply (tri_bind _ _ _ _ _ _ (λ r m w, AtP pa (λ w, F w ∧ (W ∨ on_source s idle w)) φ m w ∧ soft_res r ∧
     ∀ l, r = Ok l → ∀ pid, pid ∈ l → pid ∈ maybe.*1)).
  { eapply tri_mono; [| |apply (tri_collect _ _ (λ _ acc m w, AtP pa (λ w, F w ∧ (W ∨ on_source s idle w)) φ m w ∧ ∀ pid, pid ∈ acc → pid ∈ maybe.*1)
      (λ e m w, AtP pa (λ w, F w ∧ (W ∨ on_source s idle w)) φ m w ∧ soft e))].
    - intros m w _ HP. split; [done|]. intros pid Hp. by apply elem_of_nil in Hp.
    - intros [l|e] m w _ [? Hl]; split_and!; try done. by intros l' [= <-].
    - intros l1 db l2 acc _. apply (tri_pure _ _ _ _ _ _ (∀ pid, pid ∈ acc → pid ∈ maybe.*1)); [by intros m w [_ ?]|]. intros Hacc.
      eapply tri_mono; [| |apply (tempOnly_spec (AtP pa (λ w, F w ∧ (W ∨ on_source s idle w)) φ)); apply AtP_stable; apply _].
      + by intros m w _ [? _].
      + intros [x|e] m w _ (? & ? & Hx); [|by split_and!]. split; [done|]. intros pid [?|?]%elem_of_app; [auto|]. by eapply Hx. }
  2:{ intros e m w _ ([? [[? _] ?]] & ? & _). by parts. }
  intros temp. apply tri_ret. intros m w _ ([? [[? Hw] ?]] & _ & Ht). split; [by parts|]. split; [done|]. intros [= El].
  destruct Hw as [([pid x] & Hin & Hrw & Hmt)|?]; [exfalso|done].
  assert (pid ∈ filter (λ pid, pid ∉ temp) found.*1) as Hp; [|by rewrite El in Hp; apply elem_of_nil in Hp].
  apply list_elem_of_filter. split; [|apply list_elem_of_fmap; by exists (pid, x)].
  intros Hpt. apply (Ht temp eq_refl) in Hpt. apply list_elem_of_fmap in Hpt as ([pid' y] & E & [[Hm _] Hy]%list_elem_of_filter).
  cbn in E. subst pid'. enough (x = y) as -> by (cbn in *; congruence).
  apply (elem_of_list_to_map found) in Hin, Hy; [|done..]. congruence.
Qed.

Lemma on_sources_calm (P : shard → Prop) (l : list Z) : steady P → Calm R (λ w, ∀ s, s ∈ l → on_source s P w).
Proof. intros HP w w' Hc Hi H s Hs. by apply (on_source_calm R s P HP w w'); auto. Qed.

Lemma drainLoop_spec pa (F : world → Prop) φ fuel deadline `{!Calm R F, !RowFacts φ} :
  (∀ w, F w → Done R pa (srcIDs R) w) →
  tri (AtP pa F φ) (drainLoop fuel deadline (src R) (srcIDs R))
    (λ r m w, AtP pa F φ m w ∧ soft_res r ∧ (r = Ok () → ∀ s, s ∈ srcIDs R → on_source s idle w)).
Proof.
  intros HF. induction fuel as [|fuel IH]; cbn [drainLoop].
  { apply tri_fail. intros m w _ HP. by split_and!. }
  eapply tri_bind.
  - apply (collect_nil (srcIDs R) _ pa F φ (λ s w, on_source s idle w)).
    + intros s Hs. pose proof (on_source_calm R s _ idle_steady). apply _.
    + intros s F' HF' Hsub Hs. destruct (pa !! (src R, s)) as [at_|] eqn:E.
      * apply writingBackendsOn_spec with (at_ := at_); [done..|]. intros w Hw. destruct (HF w (Hsub w Hw) s Hs) as (at' & E' & ?). congruence.
      * apply (tri_pure _ _ _ _ _ _ False); [|done]. intros m w (_ & Hw & _). destruct (HF w (Hsub w Hw) s Hs) as (at' & E' & ?). congruence.
  - intros busy. case_bool_decide as Eb.
    + apply tri_ret. intros m w _ (? & _ & Hok). split_and!; [done..|]. intros _. apply Hok. by rewrite Eb.
    + apply (tri_pre R Inv G (AtP pa F φ)); [by intros m w _ [? _]|].
      apply tri_now_bind; [apply AtP_stable; apply _|]. intros t. apply (tri_pre R Inv G (AtP pa F φ)); [by intros m w _ [? _]|].
      case_match; [|apply tri_sleep_bind; [apply AtP_stable; apply _|done]].
      apply tri_fail. intros m w _ HP. by split_and!.
  - intros e m w _ (HP & Hs & _). by split_and!.
Qed.

Lemma DrainSources_spec pa (F : world → Prop) φ `{!Calm R F, !RowFacts φ} :
  (∀ w, F w → Done R pa (srcIDs R) w) →
  tri (AtP pa F φ) (pg_DrainSources R)
    (λ r m w, AtP pa F φ m w ∧ soft_res r ∧ (r = Ok () → ∀ s, s ∈ srcIDs R → on_source s idle w)).
Proof.
  intros HF. unfold pg_DrainSources, drainWriters.
  eapply (tri_bind _ _ _ _ _ _ (λ r m w, AtP pa F φ m w ∧ soft_res r)).
  { unfold fenceRemaining. apply tri_get_bind. intros m0. apply (tri_pre R Inv G (AtP pa F φ)); [by intros m w _ [_ ?]|].
    case_match; [case_match|].
    - by apply tri_ret.
    - apply tri_now_bind; [apply AtP_stable; apply _|]. intros t. apply tri_ret. by intros m w _ [? _].
    - by apply tri_ret. }
  2:{ intros e m w _ [? ?]. by split_and!. }
  intros left. apply (tri_pre R Inv G (AtP pa F φ)); [by intros m w _ [? _]|].
  apply tri_now_bind; [apply AtP_stable; apply _|]. intros t. apply (tri_pre R Inv G (AtP pa F φ)); [by intros m w _ [? _]|].
  by apply drainLoop_spec.
Qed.

(** ** The prepared transactions *)

Lemma askPrepared pa (F : world → Prop) φ s `{!Calm R F, !RowFacts φ} :
  (∀ w, F w → on_source s idle w) →
  tri (AtP pa F φ) (askShard (src R) s prep) (λ r m w, AtP pa F φ m w ∧ soft_res r ∧ (r = Ok [] → on_source s closed w)).
Proof.
  intros HF. apply tri_ask; [apply AtP_stable; apply _|]. intros m w _ HP. split.
  - destruct (HF w (proj1 (proj2 HP))) as (sh & E & ? & ? & ?). rewrite E. split_and!; [done..|]. intros [= Ep].
    exists sh. by split_and!.
  - intros e He. pose proof (plain_soft _ He). by split_and!.
Qed.

Lemma Drain_spec pa (F : world → Prop) φ `{!Calm R F, !RowFacts φ} :
  (∀ w, F w → ∀ s, s ∈ srcIDs R → on_source s idle w) →
  tri (AtP pa F φ) (pg_Drain R)
    (λ r m w, AtP pa F φ m w ∧ soft_res r ∧ (r = Ok [] → ∀ s, s ∈ srcIDs R → on_source s closed w)).
Proof.
  intros HF. apply (collect_nil (srcIDs R) _ pa F φ (λ s w, on_source s closed w)).
  - intros s Hs. pose proof (on_source_calm R s _ closed_steady). apply _.
  - intros s F' HF' Hsub Hs. unfold preparedOn.
    assert (∀ w, F' w → on_source s idle w) as Hi by (intros w Hw; by apply HF; auto).
    eapply tri_bind; [by apply askPrepared| |].
    2:{ intros e m w _ (? & ? & _). by split_and!. }
    intros gids. case_bool_decide as Eg; [apply tri_ret; intros m w _ (? & _ & Hok); by rewrite Eg in *; split_and!|].
    apply (tri_pre R Inv G (AtP pa F' φ)); [by intros m w _ [? _]|].
    eapply (tri_try_bind _ _ _ _ _ _ (λ _ m w, AtP pa F' φ m w)).
    + apply tri_ask; [apply AtP_stable; apply _|]. by intros m w _ HP.
    + intros _. by apply askPrepared.
Qed.

(** ** The quiesce *)

Definition claimedAt (pa : gmap (string * Z) Z) (w : world) : Prop :=
  ∀ s at_, s ∈ srcIDs R → pa !! (src R, s) = Some at_ → claims (cat w) !! (src R, s) = Some (wid R, Some at_).
#[export] Instance claimedAt_calm pa : Calm R (claimedAt pa).
Proof. intros w w' Hc _ H s at_ Hs E. rewrite (ce_claims _ _ _ Hc). by apply H. Qed.
Lemma closed_shut pa w :
  Done R pa (srcIDs R) w → claimedAt pa w → (∀ s, s ∈ srcIDs R → on_source s closed w) → shut R w.
Proof.
  intros Hd Hc Hcl s Hs. destruct (Hd s Hs) as (at_ & E & _). destruct (Hcl s Hs) as (sh & Esh & Hsh).
  exists sh, at_. split_and!; [done..|]. by apply Hc.
Qed.

#[local] Hint Extern 0 cutoverOps => exact (pgCutover R) : typeclass_instances.

(** What a step reports: its errors are soft. *)
Definition soft_step (r : result err (bool * option err)) : Prop :=
  match r with Ok (_, Some e) => soft e | Ok (_, None) => True | Err e => soft e end.
Lemma Join_soft a b : (∀ e, a = Some e → soft e) → (∀ e, b = Some e → soft e) → ∀ e, Join a b = Some e → soft e.
Proof.
  intros Ha Hb e. destruct a as [a|], b as [b|]; cbn; intros [= <-]; auto.
  destruct (Ha a eq_refl) as [E1 E2], (Hb b eq_refl) as [E3 E4]. split; cbn; by rewrite ?E1, ?E2, ?E3, ?E4.
Qed.

Definition quiet φ (r : result err (bool * option err)) : assertion :=
  λ m w, LP φ m w ∧ soft_step r ∧ (r = Ok (false, None) → shut R w).
(** A quiesce that stops lifts the pause again. *)
Lemma lift_spec φ (P : assertion) waiting e `{!RowFacts φ} :
  (∀ m w, P m w → LP φ m w ∧ soft e) → tri P (lift waiting (Some e)) (quiet φ).
Proof.
  intros HP. apply (tri_pure _ _ _ _ _ _ (soft e)); [intros m w Hm; by apply (HP m w)|]. intros He.
  apply (tri_pre R Inv G (LP φ)); [intros m w _ Hm; by apply (HP m w)|].
  unfold lift. eapply tri_try_bind; [by apply (PauseSources_false R src_tgt φ)|].
  intros r. apply tri_ret. intros m w _ (? & Hs & _). split; [done|]. split.
  - unfold soft_step. destruct (Join (Some e) (err_of r)) as [e'|] eqn:E; [|done].
    eapply Join_soft; [..|exact E]; [by intros ? [= <-]|]. intros e0. destruct r; cbn; [done|]. by intros [= <-].
  - destruct r; cbn; intros [=].
Qed.

Lemma quiesceSources_spec φ `{!RowFacts φ} : tri (LP φ) quiesceSources (quiet φ).
Proof.
  unfold quiesceSources. eapply tri_try_bind; [by apply (PauseSources_true R src_tgt φ)|].
  intros [[]|e]; [|apply lift_spec; [done|]; by intros m w (? & ? & _)].
  apply tri_fix. intros pa. pose proof (Done_calm R pa (srcIDs R)). pose proof (on_sources_calm idle (srcIDs R) idle_steady).
  set (F w := FreeL R w ∧ Done R pa (srcIDs R) w ∧ claimedAt pa w). assert (Calm R F) by (unfold F; apply _).
  apply (tri_pre R Inv G (AtP pa F φ)).
  { intros m w _ (<- & [? ?] & _ & Hok). destruct (Hok eq_refl) as [? ?]. unfold F. by parts. }
  eapply tri_try_bind; [by apply (DrainSources_spec pa F φ); intros w (_ & ? & _)|].
  intros [[]|e]; [|apply lift_spec; [done|]; intros m w ([_ [[? _] ?]] & _); by parts].
  set (F1 w := F w ∧ ∀ s, s ∈ srcIDs R → on_source s idle w). assert (Calm R F1) by (unfold F1; apply _).
  apply (tri_pre R Inv G (AtP pa F1 φ)).
  { intros m w _ ([? [? ?]] & _ & Hok). specialize (Hok eq_refl). unfold F1. by parts. }
  eapply tri_try_bind; [by apply (Drain_spec pa F1 φ); intros w [_ ?]|].
  intros [prepared|e]; [|apply lift_spec; [done|]; intros m w ([_ [[[? _] _] ?]] & ? & _); by parts].
  case_bool_decide as Ep; [apply lift_spec; [done|]; intros m w ([_ [[[? _] _] ?]] & _); by parts|]. subst prepared.
  set (F2 w := FreeL R w ∧ shut R w). assert (Calm R F2) by (unfold F2; apply _). apply (tri_pre R Inv G (With F2 φ)).
  { intros m w _ ([_ [((? & ? & ?) & ?) ?]] & _ & Hok). specialize (Hok eq_refl). unfold F2. parts. by apply (closed_shut pa). }
  eapply tri_try_bind; [exact (tri_calm R src_tgt F2 φ _ (positionsOf_calm R (src R) (srcIDs R)))|].
  intros [pos|e]; [|apply lift_spec; [done|]; intros m w [[[? _] ?] ?]; by parts].
  apply (tri_pre R Inv G (With F2 φ)); [by intros m w _ [? _]|].
  eapply tri_try_bind; [exact (tri_calm R src_tgt F2 φ _ (CaughtUp_calm R pos))|].
  intros [[ok why]|e]; [|apply lift_spec; [done|]; intros m w [[[? _] ?] ?]; by parts].
  destruct ok; cbn [negb]; [|apply lift_spec; [done|]; intros m w [[[? _] ?] ?]; by parts].
  apply tri_ret. intros m w _ ([[? ?] ?] & _). unfold quiet. by parts.
Qed.

(** ** The catch-up *)

(** The recorded positions are past everything the sources committed. *)
Definition bounded (pos : gmap Z Z) (s : Z) (w : world) : Prop :=
  ∃ v sh, pos !! s = Some v ∧ shards w !! (src R, s) = Some sh ∧ committed sh ≤ v ∧ committedPrepared sh ≤ v.

Lemma shut_shard w w' s sh : calm R w w' → shut R w → s ∈ srcIDs R → shards w !! (src R, s) = Some sh →
  ∃ sh', shards w' !! (src R, s) = Some sh' ∧ committed sh' = committed sh ∧ committedPrepared sh' = committedPrepared sh.
Proof.
  intros Hc Hshut Hs Hsh. destruct (Hshut s Hs) as (sh0 & at_ & E & Hcl & _). rewrite Hsh in E. injection E as <-.
  destruct (calm_source _ _ _ _ _ Hc Hsh) as (sh' & Hsh' & Hst).
  exists sh'. split; [done|]. destruct Hst as [->|Hst]; [done|]. by apply (closed_step sh sh').
Qed.
Lemma bounded_calm F pos s : Calm R F → (∀ w, F w → shut R w) → s ∈ srcIDs R → Calm R (λ w, F w ∧ bounded pos s w).
Proof.
  intros HF Hsub Hs w w' Hc Hi [Hf (v & sh & E & Hsh & ? & ?)]. split; [by eapply calm_keeps|].
  destruct (shut_shard w w' s sh Hc (Hsub w Hf) Hs Hsh) as (sh' & Hsh' & E1 & E2).
  exists v, sh'. rewrite E1, E2. done.
Qed.
Lemma bounded_all_calm F pos (l : list Z) : Calm R F → (∀ w, F w → shut R w) → (∀ s, s ∈ l → s ∈ srcIDs R) →
  Calm R (λ w, F w ∧ ∀ s, s ∈ l → bounded pos s w).
Proof.
  intros HF Hsub Hl w w' Hc Hi [Hf Hb]. split; [by eapply calm_keeps|]. intros s Hs.
  by eapply (bounded_calm F pos s HF Hsub (Hl s Hs) w w'); auto.
Qed.

Lemma positionsOf_spec (F : world → Prop) φ ids `{!Calm R F, !RowFacts φ} :
  (∀ w, F w → shut R w) → (∀ s, s ∈ ids → s ∈ srcIDs R) →
  tri (With F φ) (positionsOf (src R) ids)
    (λ r m w, With F φ m w ∧ soft_res r ∧ ∀ pos, r = Ok pos → ∀ s, s ∈ ids → bounded pos s w).
Proof.
  intros HF. revert F Calm0 HF. induction ids as [|s ids IH]; intros F HC HF Hids; cbn [positionsOf].
  { apply tri_ret. intros m w _ HP. split_and!; [done..|]. intros pos _ s Hs. by apply elem_of_nil in Hs. }
  assert (s ∈ srcIDs R) as Hs by (apply Hids; by left).
  eapply (tri_bind _ _ _ _ _ _ (λ r m w, With F φ m w ∧ soft_res r ∧ ∀ v, r = Ok v → bounded {[s := v]} s w)).
  { apply tri_ask; [by apply With_stable; apply _|]. intros m w Hi HP. split.
    - destruct (HF w (proj1 HP) s Hs) as (sh & at_ & E & _). rewrite E. split_and!; [done..|]. intros v [= <-].
      destruct Hi as [(_ & Hsane & _) _]. destruct (Hsane _ _ E) as (? & ? & _).
      exists (wal sh), sh. rewrite lookup_singleton_eq. done.
    - intros e He. pose proof (plain_soft _ He). by split_and!. }
  2:{ intros e m w _ (? & ? & _). by split_and!. }
  intros v. pose proof (bounded_calm F {[s := v]} s HC HF Hs) as HC'.
  apply (tri_pre R Inv G (With (λ w, F w ∧ bounded {[s := v]} s w) φ)).
  { intros m w _ ([? ?] & _ & Hb). specialize (Hb v eq_refl). by parts. }
  eapply tri_bind; [apply (IH (λ w, F w ∧ bounded {[s := v]} s w)); [done|by intros w [? _]; apply HF|]| |].
  { intros s' Hs'. apply Hids. by right. }
  - intros pos. apply tri_ret. intros m w _ ([[? Hb] ?] & _ & Hok). split; [by parts|]. split; [done|].
    intros pos' [= <-] s' Hs'. destruct (decide (s' = s)) as [->|Hne].
    + destruct Hb as (v' & sh & E & ?). rewrite lookup_singleton_eq in E. injection E as <-.
      exists v, sh. by rewrite lookup_insert_eq.
    + apply elem_of_cons in Hs' as [?|Hs']; [done|]. destruct (Hok pos eq_refl s' Hs') as (v' & sh & E & ?).
      exists v', sh. by rewrite lookup_insert_ne.
  - intros e m w _ ([[? ?] ?] & ? & _). by parts.
Qed.

Lemma bind_nil_inv {A B} (f : A → list B) (l : list A) a : l ≫= f = [] → a ∈ l → f a = [].
Proof.
  intros E Ha. destruct (f a) as [|b k] eqn:Ef; [done|]. exfalso.
  assert (b ∈ l ≫= f) as Hb by (apply list_elem_of_bind; exists a; rewrite Ef; split; [by left|done]).
  rewrite E in Hb. by apply elem_of_nil in Hb.
Qed.
Lemma slotsBehind_nil {K} `{Countable K} (expected : list K) flushed want k :
  slotsBehind expected flushed want = [] → k ∈ expected → ∃ v, flushed !! k = Some v ∧ want ≤ v.
Proof.
  intros E Hk. apply (bind_nil_inv _ _ k) in E; [|done]. cbv beta in E. destruct (flushed !! k) as [v|]; [|done]. exists v. split; [done|].
  destruct (v <? 0); [done|]. destruct (v <? want) eqn:Ev; [done|lia].
Qed.
Lemma fwdSlots_lookup s w t db v : fwdSlots R s w !! (t, db) = Some v → ∃ u, fwd w !! (s, t, db) = Some u ∧ slot u = Some v.
Proof.
  intros (t' & Hin & Ht)%elem_of_list_to_map_2%list_elem_of_bind. apply list_elem_of_bind in Hin as (db' & Hin & Hdb).
  destruct (fwd w !! (s, t', db') ≫= slot) as [v'|] eqn:E; [|by apply elem_of_nil in Hin].
  apply list_elem_of_singleton in Hin as [= -> -> ->]. apply bind_Some in E as (u & ? & ?). eauto.
Qed.
Lemma expectedSlots_elem ids t db : t ∈ ids → db ∈ dbs R → (t, db) ∈ expectedSlots R ids.
Proof. intros Ht Hdb. apply list_elem_of_bind. exists db. split; [|done]. apply list_elem_of_bind. exists t. split; [by left|done]. Qed.

Lemma CaughtUp_spec pos (F : world → Prop) φ `{!Calm R F, !RowFacts φ} :
  (∀ w, F w → shut R w) → (∀ w, F w → ∀ s, s ∈ srcIDs R → bounded pos s w) →
  tri (With F φ) (pg_CaughtUp R pos) (λ r m w, With F φ m w ∧ soft_res r ∧ ∀ why, r = Ok (true, why) → caught R w).
Proof.
  intros Hshut Hb. apply tri_fix. intros pa. unfold pg_CaughtUp.
  set (Good s w := 0 < default 0 (pos !! s) → caught_from R w s).
  eapply tri_bind; [apply (collect_nil (srcIDs R) _ pa F φ Good)| |].
  - intros s Hs w w' Hc Hi [Hf Hg]. split; [by eapply calm_keeps|]. intros Hp.
    apply (calm_caught R w w' s Hc); auto.
  - intros s F' HF' Hsub Hs. unfold behindOn.
    assert (∀ m w, AtP pa F' φ m w → ∃ v sh, pos !! s = Some v ∧ shards w !! (src R, s) = Some sh ∧ committed sh ≤ v ∧ committedPrepared sh ≤ v) as Hbd.
    { intros m w [_ [Hw _]]. by apply Hb; auto. }
    destruct (pos !! s) as [want|] eqn:E.
    2:{ apply (tri_pure _ _ _ _ _ _ False); [|done]. intros m w HP. destruct (Hbd m w HP) as (? & ? & ? & _). done. }
    destruct (want <=? 0) eqn:Ew.
    { apply tri_ret. intros m w _ HP. split_and!; [done..|]. intros _. unfold Good. rewrite E. cbn. lia. }
    eapply (tri_bind _ _ _ _ _ _ (λ r m w, AtP pa F' φ m w ∧ soft_res r ∧
      ∀ flushed, r = Ok flushed → slotsBehind (expectedSlots R (tgtIDs R)) flushed want = [] → caught_from R w s)).
    + apply tri_ask; [by apply AtP_stable; apply _|]. intros m w Hi HP. split.
      * destruct (Hbd m w HP) as (v & sh & [= <-] & Hsh & H1 & H2). rewrite Hsh. split_and!; [done..|]. intros flushed [= <-] Hn t db Ht Hdb.
        destruct (slotsBehind_nil _ _ _ (t, db) Hn) as (v & Hv & Hle); [by apply expectedSlots_elem|].
        destruct (fwdSlots_lookup _ _ _ _ _ Hv) as (u & Hu & Hsl). exists sh, u. split_and!; [done..|].
        destruct Hi as [(_ & _ & Hsub') _]. pose proof (Hsub' _ _ _ Hu Hsl). split; lia.
      * intros e He. pose proof (plain_soft _ He). by split_and!.
    + intros flushed. apply tri_ret. intros m w _ (? & _ & Hok). split_and!; [done..|]. intros [= En] _. by apply (Hok flushed).
    + intros e m w _ (? & ? & _). by split_and!.
  - intros behind. case_bool_decide as En.
    + apply tri_ret. intros m w _ ([_ ?] & _ & _). by split_and!.
    + apply tri_ret. intros m w _ ([_ HP] & _ & Hok). split_and!; [done..|]. intros why _ s Hs.
      apply app_eq_nil in En as [En ->]. apply (Hok eq_refl s Hs).
      unfold nothingToCompare in En. apply app_eq_nil in En as [_ En]. apply app_eq_nil in En as [_ En].
      apply (bind_nil_inv _ _ s) in En; [|done]. cbv beta in En. destruct (0 <? default 0 (pos !! s)) eqn:E0; [lia|done].
  - intros e m w _ ([_ ?] & ? & _). by split_and!.
Qed.

(** The positions of now, and the slots past them. *)
Lemma caught_up_spec (F : world → Prop) φ {A} (k : M A) (no : string → M A) Q `{!Calm R F, !RowFacts φ} :
  (∀ w, F w → shut R w) →
  tri (With (λ w, F w ∧ caught R w) φ) k Q → (∀ why, tri (With F φ) (no why) Q) →
  (∀ e m w, soft e → With F φ m w → Q (Err e) m w) →
  tri (With F φ) (pos ← pg_Positions R; '(ok, why) ← pg_CaughtUp R pos; if negb ok then no why else k) Q.
Proof.
  intros Hshut Hk Hno He. eapply tri_bind; [by apply (positionsOf_spec F φ (srcIDs R))| |].
  2:{ intros e m w _ (? & ? & _). by apply He. }
  intros pos. pose proof (bounded_all_calm F pos (srcIDs R) _ Hshut (λ s H, H)) as HC.
  apply (tri_pre R Inv G (With (λ w, F w ∧ ∀ s, s ∈ srcIDs R → bounded pos s w) φ)).
  { intros m w _ ([? ?] & _ & Hb). specialize (Hb pos eq_refl). by parts. }
  eapply tri_bind; [apply (CaughtUp_spec pos (λ w, F w ∧ ∀ s, s ∈ srcIDs R → bounded pos s w) φ)| |].
  - intros w [? _]. auto.
  - by intros w [_ ?].
  - intros [ok why]. destruct ok; cbn [negb].
    + eapply tri_pre; [|exact Hk]. intros m w _ ([[? _] ?] & _ & Hok). specialize (Hok why eq_refl). by parts.
    + eapply tri_pre; [|exact (Hno why)]. intros m w _ ([[? _] ?] & _). by parts.
  - intros e m w _ ([[? _] ?] & ? & _). apply He; [done|]. by parts.
Qed.
End Drain.
