(* ===== verification/CutSwap.v ===== *)
(** * The flip, the swap and the saves

    The flip happens only while the sources are shut and the targets hold all
    they committed; forward replication is turned off only then; and a save
    moves the record to where the invariant already holds. *)

From S2P Require Import Prelude Prog Ranges CutWorld CutOps Cutover CutLogic CutInv CutSpecs CutPause CutDrain.

Local Open Scope Z_scope.

Section Swap.
Context (R : run).
Hypothesis src_tgt : src R ≠ tgt R.
Local Notation Inv := (Inv R).
Local Notation G := (G R).
Local Notation stable := (stable R Inv).
Local Notation tri := (tri R Inv G).
Local Notation good := (good Inv G).
Local Notation env_inv := (env_inv R src_tgt).
Local Notation With_stable := (With_stable R src_tgt).
Local Notation tri_ask := (tri_ask R Inv G env_inv (G_refl R)).
Local Notation tri_stmt := (tri_stmt R Inv G env_inv).
#[local] Hint Extern 0 cutoverOps => exact (pgCutover R) : typeclass_instances.
Local Notation atPhase p := (λ w, phaseOf (wrow w) = p).

(** ** The flip *)

Lemma servingSets_elem set c : set ∈ servingSets c ↔ setState c !! set = Some ShardSetServing.
Proof.
  unfold servingSets. rewrite sort_strings_Permutation, list_elem_of_fmap. split.
  - intros ([k st] & -> & [Hst Hin]%list_elem_of_filter). cbn in Hst. subst. by apply elem_of_map_to_list.
  - intros H. exists (set, ShardSetServing). split; [done|]. apply list_elem_of_filter. split; [done|]. by apply elem_of_map_to_list.
Qed.

(** While the sources are shut and the targets hold all of it. *)
Definition ready (w : world) : Prop := phaseOf (wrow w) = PFlip ∧ shut R w ∧ caught R w.
Definition lost (w : world) : Prop := phaseOf (wrow w) = PFlip ∧ doomed R w.
#[export] Instance ready_calm : Calm R ready.
Proof. unfold ready. pose proof (shut_caught_calm R). apply _. Qed.
#[export] Instance lost_calm : Calm R lost.
Proof. unfold lost. apply _. Qed.

Lemma flip_cases c :
  (∃ e, flip R c = (Err e, c) ∧ e_fatal e = false ∧
     (e_retired e = true → setState c !! src R ≠ Some ShardSetServing ∧ setState c !! tgt R ≠ Some ShardSetServing)) ∨
  setState c !! tgt R = Some ShardSetServing ∧ flip R c = (Ok (), c) ∨
  setState c !! src R = Some ShardSetServing ∧ flip R c = (Ok (), {| (publish (src R) (tgt R) (homeTarget R) c) with migrating := delete (tgt R) (migrating c) |}).
Proof.
  unfold flip. destruct (setState c !! tgt R) as [st|] eqn:E; [|left; by eexists].
  destruct (String.eqb_spec st ShardSetServing) as [->|Hst]; [by right; left|].
  unfold stillSoleServing. case_bool_decide as E1.
  - right; right. split; [|done]. apply servingSets_elem. rewrite E1. by left.
  - case_bool_decide as E2; left; eexists; (split; [done|]); (split; [done|]); [|done].
    intros _. rewrite servingSets_elem in E2. split; [done|congruence].
Qed.

Lemma Flip_ready j φ `{!RowFacts φ} :
  tri (With ready φ) (pg_Flip R j)
    (λ r m w, match r with
              | Ok _ => With ready φ m w
              | Err e => e_fatal e = false ∧ if e_retired e then With lost φ m w else With ready φ m w
              end).
Proof.
  apply tri_stmt; [by apply With_stable; apply _|]. intros m w Hi [(Hp & Hs & Hc) Hφ].
  assert (∀ c, row c = row (cat w) → claims c = claims (cat w) → good w {| w with cat := c |} ∧ With ready φ m {| w with cat := c |}) as Hgood.
  { intros c Er Ec. assert (ready {| w with cat := c |}) as Hr.
    { unfold ready, wrow. cbn. rewrite Er. split_and!; [done| |exact Hc]. unfold shut. cbn. rewrite Ec. exact Hs. }
    split; [|split; [done|]; unfold wrow; cbn; by rewrite Er]. split.
    - destruct Hi as [Hsane _]. split; [exact Hsane|]. destruct Hr as (Hp' & ? & ?). rewrite Hp'. cbn. auto.
    - apply G_same_row; [unfold wrow; cbn; by rewrite Er|unfold rcut, wrow; cbn; by rewrite Er|]. intros _ _. by destruct Hr. }
  assert (∀ e, plain e → e_fatal e = false ∧ e_retired e = false) as Hpl by (intros e (? & ? & ? & _); done).
  destruct (flip_cases (cat w)) as [(e & -> & Hf & Hr)|[[Et ->]|[Es ->]]].
  - destruct (Hgood (cat w)) as [Hg HW]; [done..|]. cbn. split; [done|]. split; [|intros e' He'; destruct (Hpl e' He') as [-> ->]; done].
    split; [done|]. destruct (e_retired e) eqn:Er; [|done]. split; [|apply HW]. split; [done|]. by apply Hr.
  - destruct (Hgood (cat w)) as [Hg HW]; [done..|]. cbn. split; [done|]. split; [done|].
    intros e' He'; destruct (Hpl e' He') as [-> ->]; done.
  - edestruct Hgood as [Hg HW]; [| |split; [exact Hg|]]; [done..|]. split; [exact HW|].
    intros e' He'; destruct (Hpl e' He') as [-> ->]; done.
Qed.

Lemma Flip_lost j φ `{!RowFacts φ} :
  tri (With lost φ) (pg_Flip R j) (λ r m w, With lost φ m w ∧ ∃ e, r = Err e ∧ e_fatal e = false).
Proof.
  apply tri_stmt; [by apply With_stable; apply _|]. intros m w Hi HP.
  assert (good w {| w with cat := cat w |}) as Hg.
  { replace {| w with cat := cat w |} with w by (by destruct w). split; [exact Hi|by apply G_refl]. }
  pose proof HP as [(_ & Hd1 & Hd2) _].
  destruct (flip_cases (cat w)) as [(e & -> & Hf & Hr)|[[Et ->]|[Es ->]]]; [|by destruct Hd2|by destruct Hd1].
  cbn. split; [done|]. split; [split; [done|by exists e]|]. intros e' (? & ? & ? & _). split; (split; [done|by exists e']).
Qed.

(** ** The pause found standing *)

Lemma instantsOf_shut w : shut R w → length (instantsOf R (src R) (srcIDs R) (cat w)) = length (srcIDs R).
Proof.
  intros Hs. assert (∀ l, (∀ s, s ∈ l → s ∈ srcIDs R) → length (instantsOf R (src R) l (cat w)) = length l) as H; [|by apply H].
  induction l as [|s l IH]; intros Hl; [done|]. destruct (Hs s) as (sh & at_ & _ & _ & Ec); [apply Hl; by left|].
  cbn. rewrite Ec, String.eqb_refl. cbn. f_equal. apply IH. intros s' ?. apply Hl. by right.
Qed.

Lemma allRefuse_shut (F : world → Prop) φ ids `{!Calm R F, !RowFacts φ} :
  (∀ w, F w → shut R w) → (∀ s, s ∈ ids → s ∈ srcIDs R) →
  tri (With F φ) (allRefuse (src R) ids) (λ r m w, With F φ m w ∧ soft_res r ∧ r ≠ Ok false).
Proof.
  intros HF. induction ids as [|s ids IH]; intros Hids; cbn [allRefuse].
  { apply tri_ret. intros m w _ HP. by split_and!. }
  eapply (tri_bind _ _ _ _ _ _ (λ r m w, With F φ m w ∧ soft_res r ∧ r ≠ Ok false)).
  - apply tri_ask; [by apply With_stable; apply _|]. intros m w _ HP. split.
    + destruct (HF w (proj1 HP) s) as (sh & at_ & E & (_ & Hset & _) & _); [apply Hids; by left|]. rewrite E, Hset. by split_and!.
    + intros e He. pose proof (plain_soft _ He). by split_and!.
  - intros [].
    + eapply tri_pre; [|apply IH; intros s' ?; apply Hids; by right]. by intros m w _ [? _].
    + apply (tri_pure _ _ _ _ _ _ False); [|done]. by intros m w (_ & _ & H).
  - intros e m w _ (? & ? & _). by split_and!.
Qed.

Lemma SourcesPaused_shut (F : world → Prop) φ `{!Calm R F, !RowFacts φ} :
  (∀ w, F w → shut R w) → tri (With F φ) (pg_SourcesPaused R) (λ r m w, With F φ m w ∧ soft_res r ∧ r ≠ Ok false).
Proof.
  intros HF. unfold pg_SourcesPaused.
  eapply (tri_bind _ _ _ _ _ _ (λ r m w, With F φ m w ∧ soft_res r ∧ ∀ l, r = Ok l → length l = length (srcIDs R))).
  - apply tri_ask; [by apply With_stable; apply _|]. intros m w _ HP. split.
    + split_and!; [done..|]. intros l [= <-]. by apply instantsOf_shut, HF, HP.
    + intros e He. pose proof (plain_soft _ He). by split_and!.
  - intros l. apply (tri_pure _ _ _ _ _ _ (length l = length (srcIDs R))); [by intros m w (_ & _ & H); apply H|]. intros El.
    rewrite (proj2 (Nat.eqb_eq _ _) El). cbn [negb].
    eapply tri_bind; [eapply tri_pre; [|by apply (allRefuse_shut F φ (srcIDs R))]; by intros m w _ [? _]| |].
    + intros []; cbn [negb].
      * apply tri_modify_bind with (P' := With F φ); [by intros m w _ [[? ?] _]|]. apply tri_ret. intros m w _ HP. by split_and!.
      * apply (tri_pure _ _ _ _ _ _ False); [|done]. by intros m w (_ & _ & H).
    + intros e m w _ (? & ? & _). by split_and!.
  - intros e m w _ (? & ? & _). by split_and!.
Qed.

(** ** Forward replication off *)

Lemma disable_lookup k w k' u' :
  fwd (onFwd (alterSub false k) w).2 !! k' = Some u' →
  ∃ u, fwd w !! k' = Some u ∧ applied u' = applied u ∧ slot u' = slot u ∧ (enabled u = false → enabled u' = false) ∧ (k' = k → enabled u' = false).
Proof.
  unfold onFwd, alterSub. destruct (fwd w !! k) as [u|] eqn:E; cbn.
  - intros [[<- <-]|[? ?]]%lookup_insert_Some; [exists u|exists u']; by split_and!.
  - intros Hu'. exists u'. split_and!; [done..|]. intros ->. congruence.
Qed.
Lemma disable_kept k w k' : is_Some (fwd w !! k') → is_Some (fwd (onFwd (alterSub false k) w).2 !! k').
Proof.
  unfold onFwd, alterSub. destruct (fwd w !! k) as [u|] eqn:E; cbn; [|done].
  destruct (decide (k = k')) as [<-|]; [rewrite lookup_insert_eq|rewrite lookup_insert_ne by done]; eauto.
Qed.
Lemma disable_rest k w : cat (onFwd (alterSub false k) w).2 = cat w ∧ shards (onFwd (alterSub false k) w).2 = shards w.
Proof. unfold onFwd, alterSub. by case_match. Qed.

Lemma disable_good k w : Inv w → phaseOf (wrow w) = PSwap → good w (onFwd (alterSub false k) w).2.
Proof.
  intros Hi Hp. pose proof Hi as [(H1 & H2 & H3) Hat]. rewrite Hp in Hat. cbn in Hat.
  pose proof (disable_lookup k w) as Hl. pose proof (disable_kept k w) as Hk. destruct (disable_rest k w) as [Ec Es].
  set (w' := (onFwd (alterSub false k) w).2) in *.
  assert (shut R w ∧ caught R w → shut R w' ∧ caught R w') as Hsc.
  { intros [Hs Hc]. split; [unfold shut; by rewrite Ec, Es|]. intros s Hs' t' db' Ht Hdb.
    destruct (Hc s Hs' t' db' Ht Hdb) as (sh & u & Hsh & Hu & Hh). destruct (Hk (s, t', db')) as [u' Eu]; [eauto|].
    destruct (Hl _ _ Eu) as (u0 & E0 & Ea & _). rewrite Hu in E0. injection E0 as <-.
    exists sh, u'. unfold holds. rewrite Es, Ea. done. }
  assert (forward_off R w → forward_off R w') as Hoff.
  { intros Ho s t' db' u' Hs' Ht Hdb Hu'. destruct (Hl _ _ Hu') as (u & Hu & _ & _ & He & _). apply He. by eapply Ho. }
  split.
  - split.
    + split_and!; [by rewrite Es|by rewrite Es|]. intros k' u' v Hu' Hv. destruct (Hl _ _ Hu') as (u & Hu & Ea & Esl & _).
      rewrite Esl in Hv. rewrite Ea. by eapply H3.
    + unfold wrow. rewrite Ec. fold (wrow w). rewrite Hp. cbn [InvAt]. tauto.
  - apply G_same_row; [unfold wrow; by rewrite Ec|unfold rcut, wrow; by rewrite Ec|]. unfold nothing_lost, flipped. rewrite Ec.
    intros Hf [Hn|Ho]; [done|]. apply Hsc. tauto.
Qed.

(** Of a target and database, those from some of the sources are off. *)
Definition off_from (P : Z → Prop) (t : Z) (db : string) (w : world) : Prop :=
  ∀ s u, s ∈ srcIDs R → P s → fwd w !! (s, t, db) = Some u → enabled u = false.
Definition off_on (l : list (string * (string * Z))) (w : world) : Prop :=
  ∀ db set t, (db, (set, t)) ∈ l → off_from (λ _, True) t db w.
#[export] Instance off_from_calm P t db : Calm R (off_from P t db).
Proof. intros w w' Hc _ H s u' Hin Hn Hu'. destruct (ce_fwd _ _ _ Hc _ _ Hu') as (u & Hu & _ & -> & _). by eapply H. Qed.
#[export] Instance off_on_calm l : Calm R (off_on l).
Proof. intros w w' Hc Hi H db set t Hin. eapply off_from_calm; eauto. Qed.
Lemma dbShards_elem set ids db id : db ∈ dbs R → id ∈ ids → (db, (set, id)) ∈ dbShards R set ids.
Proof. intros Hdb Hid. apply list_elem_of_bind. exists db. split; [|done]. apply list_elem_of_bind. exists id. split; [by left|done]. Qed.
Lemma dbShards_inv set ids db x : (db, x) ∈ dbShards R set ids → db ∈ dbs R.
Proof.
  intros (db' & H & Hdb)%list_elem_of_bind. apply list_elem_of_bind in H as (id & H & _).
  apply list_elem_of_singleton in H as [= -> _]. done.
Qed.
Lemma off_from_disable P s t db t' db' w :
  off_from P t' db' w → off_from P t' db' (onFwd (alterSub false (s, t, db)) w).2.
Proof. intros H s' u' Hs Hn Hu'. destruct (disable_lookup _ _ _ _ Hu') as (u & Hu & _ & _ & He & _). eapply He, H; eauto. Qed.
Lemma off_on_disable l s t db w : off_on l w → off_on l (onFwd (alterSub false (s, t, db)) w).2.
Proof. intros H db' set' t' Hin. eapply off_from_disable, H, Hin. Qed.
(** What is not listed as enabled is off. *)
Lemma fwdNamed_off t db w : db ∈ dbs R → off_from (.∉ fwdNamed R t true w) t db w.
Proof.
  intros Hdb s u Hs Hn Hu. destruct (enabled u) eqn:E; [|done]. destruct Hn.
  apply list_elem_of_bind. exists s. split; [|done]. apply list_elem_of_bind. exists db. split; [|done].
  unfold isEnabled. rewrite Hu, E. by left.
Qed.

Lemma disableForwardOn_spec l t db φ `{!RowFacts φ} :
  db ∈ dbs R →
  tri (With (λ w, phaseOf (wrow w) = PSwap ∧ off_on l w) φ) (disableForwardOn R t db)
    (λ r m w, With (λ w, phaseOf (wrow w) = PSwap ∧ off_on l w) φ m w ∧ soft_res r ∧ (r = Ok () → off_from (λ _, True) t db w)).
Proof.
  intros Hdb. set (F := λ w, phaseOf (wrow w) = PSwap ∧ off_on l w). unfold disableForwardOn.
  eapply (tri_bind _ _ _ _ _ _ (λ r m w, With F φ m w ∧ soft_res r ∧ ∀ names, r = Ok names → off_from (.∉ names) t db w)).
  - apply tri_stmt; [by apply With_stable; apply _|]. intros m w Hi HF.
    assert (good w w) as Hg by (split; [done|by apply G_refl]).
    destruct (shards w !! (tgt R, t)) as [sh|]; cbn [fst snd]; (split; [done|]); split; try (by split_and!).
    + split_and!; [done..|]. intros names [= <-]. by apply fwdNamed_off.
    + intros e He. pose proof (plain_soft _ He). by split; split_and!.
    + intros e He. pose proof (plain_soft _ He). by split; split_and!.
  - intros names. eapply tri_mono; [| |apply (tri_forM R Inv G _ _ (λ done m w, With (λ w, F w ∧ off_from (λ s, s ∉ names ∨ s ∈ done) t db w) φ m w)
      (λ e m w, With F φ m w ∧ soft e))].
    + intros m w _ ([HF ?] & _ & Ho). split; [|done]. split; [done|].
      intros s u Hs [Hn|[]%elem_of_nil] Hu. by eapply (Ho names).
    + intros [[]|e] m w _; [intros [[? Ho] ?]|intros [? ?]; by split_and!]. split_and!; [done..|]. intros _.
      intros s u Hs _ Hu. eapply Ho; [done| |done]. destruct (decide (s ∈ names)); [by right|by left].
    + intros l1 s l2 El. apply tri_stmt; [by apply With_stable; apply _|]. intros m w Hi [[[Hp Ho] Hb] Hφ].
      assert (good w w) as Hg by (split; [done|by apply G_refl]).
      assert (soft_res (onFwd (alterSub false (s, t, db)) w).1) as Hs by (apply onFwd_soft, alterSub_soft).
      destruct (disable_rest (s, t, db) w) as [Ec _].
      assert (With F φ m (onFwd (alterSub false (s, t, db)) w).2) as HW.
      { split; [split|]; [unfold wrow; by rewrite Ec|by apply off_on_disable|unfold wrow; by rewrite Ec]. }
      destruct (shards w !! (tgt R, t)) as [sh|]; cbn [fst snd].
      * split; [by apply disable_good|]. split.
        -- destruct ((onFwd (alterSub false (s, t, db)) w).1) as [[]|e]; [|done]. split; [|apply HW]. split; [apply HW|].
           intros s' u' Hs' Hn Hu'. destruct (decide (s' = s)) as [->|Hne].
           { destruct (disable_lookup _ _ _ _ Hu') as (u & _ & _ & _ & _ & Hoff). by apply Hoff. }
           eapply off_from_disable; [exact Hb|done| |exact Hu']. set_solver.
        -- intros e He. pose proof (plain_soft _ He). split; split; try done.
      * split; [done|]. split; [done|]. intros e He. pose proof (plain_soft _ He). by split.
  - intros e m w _ (? & ? & _). by split_and!.
Qed.

Lemma DisableForward_spec φ `{!RowFacts φ} :
  tri (With (atPhase PSwap) φ) (pg_DisableForward R)
    (λ r m w, With (atPhase PSwap) φ m w ∧ soft_res r ∧ (r = Ok () → forward_off R w)).
Proof.
  unfold pg_DisableForward.
  eapply tri_mono; [| |apply (tri_forM R Inv G _ _ (λ l m w, With (λ w, phaseOf (wrow w) = PSwap ∧ off_on l w) φ m w)
    (λ e m w, With (atPhase PSwap) φ m w ∧ soft e))].
  - intros m w _ [? ?]. parts. intros db set t Hin. by apply elem_of_nil in Hin.
  - intros [[]|e] m w _; [intros [[? Ho] ?]|intros [? ?]; by split_and!]. split; [by parts|]. split; [done|].
    intros _ s t db u Hs Ht Hdb Hu. eapply Ho; [by apply dbShards_elem|done..].
  - intros l1 [db [set t]] l2 El. eapply tri_post; [|apply (disableForwardOn_spec l1 t db φ)].
    + intros [[]|e] m w _ ([[Hp Ho] Hφ] & Hs & Hd); [|by split; [split|]]. parts.
      intros db' set' t' [Hin|[= -> -> ->]%list_elem_of_singleton]%elem_of_app; [by eapply Ho|by apply Hd].
    + apply (dbShards_inv (tgt R) (tgtIDs R) db (set, t)). rewrite El. set_solver.
Qed.

(** ** Saves *)

(** The row as a save leaves it. *)
Definition saved (m : wfmem) (r : wfrow) : wfrow := {| r with r_stage := wf_stage m; r_cutover := stored (wf_cutover m) |}.
(** A journal on record is the one in memory. *)
Definition jid (m : wfmem) (r : wfrow) : Prop :=
  JournalID (r_cutover r) ≠ ""%string → JournalID (wf_cutover m) = JournalID (r_cutover r).
#[export] Instance jid_facts : RowFacts jid.
Proof. intros m r r' _ E. unfold jid. by rewrite E. Qed.

Lemma saved_good m w r :
  Inv w → jid m (wrow w) → r_stage r = wf_stage m → r_cutover r = stored (wf_cutover m) →
  InvAt R (stagePhase (wf_stage m) (Step (wf_cutover m))) (save_to r w) →
  (wf_stage m = StageAwaitingSwitch → r_stage (wrow w) = StageSwitching →
     JournalID (rcut w) = ""%string ∧ unfenced R w ∧ unpaused R w) →
  (wf_stage m = StageFailed → unfenced R w ∧ (unpaused R w ∨ doomed R w)) →
  good w (save_to r w).
Proof.
  intros Hi Hj Es Ec Hat Hgate Hfail. apply good_save; [done|unfold phaseOf; by rewrite Es, Ec| | | |].
  - intros Hf [Hn|Ho]; [done|]. exact (Inv_nothing_lost R w Hi Ho Hf).
  - intros E1 E2. apply Hgate; [|done]. by rewrite <- Es.
  - intros E1 E2. apply Hfail. by rewrite <- Es.
  - intros E. unfold rcut, wrow in *. cbn. rewrite Ec. cbn. by apply Hj.
Qed.

Lemma save_tri (P : assertion) (Q : assertion) :
  stable P →
  (∀ m w, Inv w → P m w → good w (save_to (saved (wf m) (wrow w)) w) ∧ Q m (save_to (saved (wf m) (wrow w)) w)) →
  tri P (saveCutover R) (λ r m w, match r with Ok _ => Q m w | Err e => soft e ∧ (P m w ∨ Q m w) end).
Proof.
  intros HP H. unfold saveCutover. apply tri_get_bind. intros m0.
  apply tri_stmt; [intros m w w' He Hi [? ?]; split; [done|by eapply HP]|]. intros m w Hi [-> Hm].
  destruct (H m0 w Hi Hm) as [Hg HQ]. unfold saveRow.
  assert (good w {| w with cat := cat w |}) as Hg'.
  { replace {| w with cat := cat w |} with w by (by destruct w). split; [exact Hi|by apply G_refl]. }
  destruct (owned R _ _); cbn [fst snd].
  - split; [exact Hg|]. split; [exact HQ|]. intros e He. pose proof (plain_soft _ He). split; (split; [done|]); [by left|by right].
  - replace {| w with cat := cat w |} with w in * by (by destruct w).
    split; [done|]. split; [by split; [|left]|]. intros e He. pose proof (plain_soft _ He). split; (split; [done|]); by left.
Qed.
Lemma finish_tri state (P : assertion) :
  stable P →
  (∀ m w, Inv w → P m w → good w (save_to {| (saved (wf m) (wrow w)) with r_state := state |} w)) →
  tri P (finishCutover R state) (λ r m w, match r with Ok _ => True | Err e => soft e end).
Proof.
  intros HP H. unfold finishCutover. apply tri_get_bind. intros m0.
  eapply (tri_bind _ _ _ _ _ _ (λ r m w, match r with Ok _ => True | Err e => soft e end)); [|intros []; by apply tri_modify|done].
  apply tri_stmt; [intros m w w' He Hi [? ?]; split; [done|by eapply HP]|]. intros m w Hi [-> Hm].
  pose proof (H m0 w Hi Hm) as Hg. unfold finishRow.
  assert (good w {| w with cat := cat w |}) as Hg'.
  { replace {| w with cat := cat w |} with w by (by destruct w). split; [exact Hi|by apply G_refl]. }
  destruct (owned R _ _); cbn [fst snd]; (split; [first [exact Hg|done]|]); (split; [done|]); intros e He; by pose proof (plain_soft _ He).
Qed.
End Swap.
