(* ===== verification/CutSteps.v ===== *)
(** * The steps of the switch

    Each step of [switchWrites] from the record it was saved under: what holds
    when it reports that it is done, that it waits, or that it failed; and the
    two ways a switch is undone. *)

From S2P Require Import Prelude Prog Ranges CutWorld CutOps Cutover CutLogic CutInv CutSpecs CutPause CutDrain CutSwap.

Local Open Scope Z_scope.

(** The fence of the catalog is not touched. *)
Definition fence_kept (w w' : world) : Prop := migrating (cat w') = migrating (cat w).

(** What a step may change of the workflow in memory. *)
Definition E1 (m m' : mem) : Prop :=
  wf_stage (wf m') = wf_stage (wf m) ∧ JournalID (wf_cutover (wf m')) = JournalID (wf_cutover (wf m)) ∧
  Step (wf_cutover (wf m')) = Step (wf_cutover (wf m)).
Definition E2 (m m' : mem) : Prop :=
  wf_stage (wf m') = wf_stage (wf m) ∧ JournalID (wf_cutover (wf m')) = JournalID (wf_cutover (wf m)) ∧
  FencedAt (wf_cutover (wf m')) = FencedAt (wf_cutover (wf m)) ∧
  (Step (wf_cutover (wf m')) = Step (wf_cutover (wf m)) ∨ Step (wf_cutover (wf m')) = StepReverse).
#[export] Instance E1_preorder : PreOrder E1.
Proof. split; [done|]. intros m1 m2 m3 (A1 & A2 & A3) (B1 & B2 & B3). split_and!; congruence. Qed.
#[export] Instance E2_preorder : PreOrder E2.
Proof.
  split; [by intros m; split_and!; try left|]. intros m1 m2 m3 (A1 & A2 & A3 & A4) (B1 & B2 & B3 & B4). split_and!; try congruence.
  destruct B4 as [->|]; auto.
Qed.
Lemma same_wf_E1 m m' : same_wf m m' → E1 m m'.
Proof. intros E. unfold E1. by rewrite E. Qed.
Lemma same_wf_E2 m m' : same_wf m m' → E2 m m'.
Proof. intros E. unfold E2. rewrite E. by split_and!; try left. Qed.

Lemma keeps_mem {A} T (E E' : mem → mem → Prop) (x : M A) : (∀ m m', E m m' → E' m m') → keeps T E x → keeps T E' x.
Proof. intros HE Hx m. eapply within_mono; [|apply Hx]. intros [r m'] [? ?]. auto. Qed.
Lemma within_and {A} (T T' : world → world → Prop) (p : prog A) (post post' : A → Prop) :
  within T p post → within T' p post' → within (λ w w', T w w' ∧ T' w w') p post.
Proof.
  induction p as [a|X f k IH|d k IH]; cbn; [done| |].
  - intros (? & ? & ?) (? & ? & ?). split_and!; auto.
  - intros H1 H2 t. auto.
Qed.
Lemma keeps_and {A} T T' E (x : M A) : keeps T E x → keeps T' E x → keeps (λ w w', T w w' ∧ T' w w') E x.
Proof. intros H1 H2 m. by eapply within_and. Qed.

Section Fence.
Context (R : run).
Local Notation fencely := (keeps fence_kept same_wf).

Lemma fencely_onCat {X} (f : catalog → result err X * catalog) :
  (∀ c, migrating (f c).2 = migrating c) → (∀ c, soft_res (f c).1) → fencely (onCat f).
Proof.
  intros H1 H2. apply keeps_stmt; [apply _|..]; intros w; specialize (H1 (cat w)); specialize (H2 (cat w));
    destruct (f (cat w)) as [r c]; done.
Qed.
Lemma fencely_ask {X} (f : world → result err X) : (∀ w, soft_res (f w)) → fencely (ask f).
Proof. intros H. by apply keeps_ask; [apply _|..]. Qed.
Lemma fencely_askShard {X} set id (f : shard → X) : fencely (askShard set id f).
Proof. apply fencely_ask. intros w. by case_match. Qed.
Lemma fencely_stmt {X} (f : world → result err X * world) :
  (∀ w, cat (f w).2 = cat w) → (∀ w, soft_res (f w).1) → fencely (stmt f).
Proof. intros H1 H2. apply keeps_stmt; [apply _|..]; [|done]. intros w. unfold fence_kept. by rewrite H1. Qed.
#[local] Hint Resolve fencely_askShard : keeps.
Ltac fence_step :=
  first [keeps_step | apply fencely_ask; intros ?; by repeat case_match
        | apply fencely_stmt; intros ?; repeat case_match; by simplify_eq
        | by apply fencely_onCat].

Lemma confirmPause_fence fuel deadline set s : fencely (confirmPause fuel deadline set s).
Proof. induction fuel; cbn [confirmPause]; unfold refusesWrites, shardNow; repeat fence_step. Qed.
#[local] Hint Resolve confirmPause_fence : keeps.
Lemma pauseSet_fence set ids b : fencely (pauseSet set ids b).
Proof.
  apply keeps_forM; [apply _|intros s]. unfold pauseOne, setReadOnly, alterSystem, onShard, reloadConf. repeat fence_step.
Qed.
#[local] Hint Resolve pauseSet_fence : keeps.
Lemma otherGenerations_fence set ids : fencely (otherGenerations set ids).
Proof. induction ids as [|s ids IH]; cbn [otherGenerations]; repeat fence_step. Qed.
#[local] Hint Resolve otherGenerations_fence : keeps.
Lemma retireSet_fence set ids : fencely (retireSet set ids).
Proof. unfold retireSet, liveReplicationInto. repeat fence_step. Qed.
#[local] Hint Resolve retireSet_fence : keeps.
Lemma Complete_fence : fencely (pg_Complete R).
Proof.
  unfold pg_Complete, completeTail, dropFwdSubs, dropRevSubs, onSource, setIsServing, dropLeftovers, dial, askDial, onDial, onFwd, onBwd, alterSub, dropSub.
  repeat fence_step.
Qed.
End Fence.

(** ** The names of the steps *)

Lemma switchSteps_cases step (P : string → Prop) :
  Forall P switchSteps → (step ∉ switchSteps → P step) → P step.
Proof. intros HF Hn. destruct (decide (step ∈ switchSteps)) as [Hin|]; [|auto]. by eapply Forall_forall in HF. Qed.
Lemma indexOf_unknown step : step ∉ switchSteps → indexOf step = -1.
Proof.
  intros Hn. unfold indexOf. destruct (list_find _ _) as [[i x]|] eqn:E; [|done].
  apply list_find_Some in E as (E & -> & _). destruct Hn. by eapply list_elem_of_lookup_2.
Qed.
Lemma unknown_early step : step ∉ switchSteps → stepPhase step = PEarly.
Proof.
  intros Hn. unfold stepPhase. repeat (case_match; [exfalso; apply Hn|]); [..|done].
  all: match goal with H : String.eqb _ _ = true |- _ => apply String.eqb_eq in H; subst end; unfold switchSteps; set_solver.
Qed.
Lemma before_early step : stepPhase step = PEarly → beforeJournal step = true.
Proof.
  apply (switchSteps_cases step (λ step, stepPhase step = PEarly → beforeJournal step = true)).
  - by repeat constructor.
  - intros Hn _. unfold beforeJournal. by rewrite indexOf_unknown.
Qed.
Lemma before_late step p : stepPhase step = p → p ∈ [PJournal; PFlip; PSwap; POver] → beforeJournal step = false.
Proof.
  intros <-. apply (switchSteps_cases step (λ step, stepPhase step ∈ [PJournal; PFlip; PSwap; POver] → beforeJournal step = false)).
  - repeat constructor; cbn; try done; set_solver.
  - intros Hn H. rewrite (unknown_early step Hn) in H. set_solver.
Qed.

Lemma next_early step : step ∈ switchSteps → stepPhase step = PEarly →
  nextStep step ≠ ""%string ∧ (stepPhase (nextStep step) = PEarly ∨ step = StepQuiesce ∧ nextStep step = StepSequences).
Proof.
  intros Hin. apply (switchSteps_cases step (λ step, stepPhase step = PEarly → nextStep step ≠ ""%string ∧
    (stepPhase (nextStep step) = PEarly ∨ step = StepQuiesce ∧ nextStep step = StepSequences))); [|done].
  repeat (apply Forall_cons_2; [intros Hp|]); [..|apply Forall_nil_2].
  all: first [done|split; [done|]; first [by left|by right]].
Qed.

Abbreviation Tr := (λ _ : world, True).

Section Steps.
Context (R : run).
Hypothesis src_tgt : src R ≠ tgt R.
Local Notation Inv := (Inv R).
Local Notation G := (G R).
Local Notation stable := (stable R Inv).
Local Notation tri := (tri R Inv G).
Local Notation good := (good Inv G).
Local Notation LP := (With (FreeL R)).
Local Notation env_inv := (env_inv R src_tgt).
Local Notation With_stable := (With_stable R src_tgt).
Local Notation tri_stmt := (tri_stmt R Inv G env_inv).
Local Notation tri_now_bind := (tri_now_bind R Inv G env_inv).
Local Notation tri_pre := (tri_pre R Inv G).
Local Notation tri_calm := (tri_calm R src_tgt).
#[local] Hint Extern 0 cutoverOps => exact (pgCutover R) : typeclass_instances.
#[export] Instance Tr_calm : Calm R Tr.
Proof. done. Qed.

(** ** What a pass knows of the record *)

Definition facts (p : phase) (m : wfmem) (r : wfrow) : Prop :=
  (r_stage r = StageSwitching ∧ wf_stage m = StageSwitching ∧ phaseOf r = p) ∧ jid m r ∧
  (p = PSequences → JournalID (wf_cutover m) = JournalID (r_cutover r) ∧ FencedAt (wf_cutover m) = FencedAt (r_cutover r)).
#[export] Instance facts_row p : RowFacts (facts p).
Proof. intros m r r' E1 E2. unfold facts, jid, phaseOf. by rewrite E1, E2. Qed.
(** And the step in memory is of the phase [q]. *)
Definition factsAt (p q : phase) (m : wfmem) (r : wfrow) : Prop := facts p m r ∧ stepPhase (Step (wf_cutover m)) = q.
#[export] Instance factsAt_row p q : RowFacts (factsAt p q).
Proof. intros m r r' H1 H2 [? ?]. split; [by eapply facts_row|done]. Qed.
#[export] Instance facts_or φ φ' : RowFacts φ → RowFacts φ' → RowFacts (λ m r, φ m r ∨ φ' m r).
Proof. intros H H' m r r' H1 H2 [?|?]; [left|right]; by eapply row_facts. Qed.

(** The workflow may be failed: nothing of the switch stands. *)
Definition failing (w : world) : Prop :=
  FreeL R w ∧ r_stage (wrow w) = StageSwitching ∧ unfenced R w ∧ unpaused R w.
Definition fin {A} (r : result err A) : assertion := λ m w, match r with Ok _ => True | Err e => e_fatal e = true → failing w end.
Lemma fin_soft {A} e m w : soft e → fin (Err e : result err A) m w.
Proof. intros [E _]. cbn. by rewrite E. Qed.

Lemma tri_cut_bind {B} (P : assertion) (f : cutoverState → M B) (S : result err B → assertion) :
  (∀ m0, tri (λ m w, m = m0 ∧ P m w) (f (wf_cutover (wf m0))) S) → tri P (cut ≫= f) S.
Proof.
  intros Hf. eapply (tri_bind _ _ _ _ _ _ (λ r m w, match r with Ok c => c = wf_cutover (wf m) ∧ P m w | Err _ => False end)).
  - apply tri_get_bind. intros m0. apply tri_ret. by intros m w _ [-> ?].
  - intros c m w Hi [-> Hm]. by apply Hf.
  - done.
Qed.

(** ** Undoing *)

Definition undone φ : assertion := λ m w, With (λ w, FreeL R w ∧ unpaused R w) φ m w ∧ unfenced R w.
Lemma undone_stable φ `{!RowFacts φ} : stable (undone φ).
Proof.
  intros m w w' He Hi [HW Hu]. split; [|by eapply env_unfenced]. by eapply (With_stable (λ w, FreeL R w ∧ unpaused R w) φ).
Qed.

Lemma release_unfenced w : unfenced R {| w with cat := (release R (cat w)).2 |}.
Proof.
  unfold unfenced. cbn. destruct (migrating (cat w) !! src R) as [who|] eqn:E; [|by rewrite E].
  destruct (String.eqb_spec who (wid R)); [by rewrite lookup_delete_eq|]. rewrite E. congruence.
Qed.
Lemma Release_spec (F : world → Prop) φ `{!Calm R F, !RowFacts φ} :
  tri (With F φ) (pg_Release R) (λ r m w, With F φ m w ∧ soft_res r ∧ (r = Ok () → unfenced R w)).
Proof.
  apply tri_stmt; [by apply With_stable|]. intros m w Hi [Hf Hφ].
  assert (calm R w {| w with cat := (release R (cat w)).2 |}) as Hc by (by apply calm_eq).
  assert (With F φ m {| w with cat := (release R (cat w)).2 |}) as HW.
  { split; [by eapply calm_keeps|by eapply calm_facts]. }
  split; [by apply good_calm|]. split; [split; [exact HW|]; split; [done|]; intros _; apply release_unfenced|].
  intros e He. pose proof (plain_soft _ He). split; (split; [|by split]); [by split|exact HW].
Qed.

(** The pause lifted and the fence dropped, under the claim. *)
Lemma undo_spec {A} φ (k : M A) Q `{!RowFacts φ} :
  tri (undone φ) k Q → (∀ e m w, soft e → Q (Err e) m w) →
  tri (LP φ) (_ ← holdClaim R; _ ← PauseSources false; _ ← Release; k) Q.
Proof.
  intros Hk He. eapply tri_bind; [exact (tri_calm (FreeL R) φ _ (holdClaim_calm R))| |by intros e m w _ [_ ?]; apply He].
  intros []. eapply tri_bind; [eapply tri_pre; [|by apply (PauseSources_false R src_tgt φ)]; by intros m w _ [? _]| |].
  2:{ intros e m w _ (_ & ? & _). by apply He. }
  intros []. eapply tri_bind; [eapply tri_pre; [|apply (Release_spec (λ w, FreeL R w ∧ unpaused R w) φ)]| |].
  - intros m w _ ([? ?] & _ & Hu). specialize (Hu eq_refl). by parts.
  - intros []. eapply tri_pre; [|exact Hk]. intros m w _ (? & _ & Hu). split; [done|auto].
  - intros e m w _ (_ & ? & _). by apply He.
Qed.

Definition abortable (m : wfmem) (r : wfrow) : Prop :=
  r_stage r = StageSwitching ∧ jid m r ∧ JournalID (wf_cutover m) = ""%string.
#[export] Instance abortable_row : RowFacts abortable.
Proof. intros m r r' E1 E2. unfold abortable, jid. by rewrite E1, E2. Qed.

Lemma FreeL_early w : Inv w → FreeL R w → ¬ flipped R w ∧ claimed R w.
Proof. intros [_ Hat] [E|[E _]]; rewrite E in Hat; cbn in Hat; tauto. Qed.

Lemma abortSwitch_spec reason : tri (LP abortable) (abortSwitch R reason) fin.
Proof.
  unfold abortSwitch. apply undo_spec; [apply _| |by intros e m w ?; apply fin_soft].
  apply tri_modify_bind with (P' := undone abortable); [by intros m w _ [[[? ?] ?] ?]|].
  apply tri_cut_bind. intros m0. apply (tri_pre (undone abortable)); [by intros m w _ [_ ?]|]. case_match.
  { apply tri_fail. intros m w _ ([[? ?] (? & _)] & ?) _. by split_and!. }
  apply tri_modify_bind with (P' := λ m w, undone abortable m w ∧ wf_stage (wf m) = StageAwaitingSwitch).
  { intros m w _ [[[? ?] (? & ? & ?)] ?]. by split. }
  eapply tri_bind; [apply (save_tri R src_tgt _ (λ _ _, True))| |].
  - apply stableA_and; [apply undone_stable; apply _|by apply stableA_mem].
  - intros m w Hi ([[[Hf Hp] (Hs & Hj & Hj0)] Hu] & Est). split; [|done]. apply (saved_good R (wf m)); [done..| | |].
    + rewrite Est. exact (FreeL_early w Hi Hf).
    + intros _ _. split_and!; [|done..]. destruct (decide (JournalID (rcut w) = ""%string)) as [|Hne]; [done|].
      specialize (Hj Hne). unfold rcut. congruence.
    + by rewrite Est.
  - intros []. by apply tri_ret.
  - intros e m w _ [? _]. by apply fin_soft.
Qed.

(** The switch is lost to another workflow: everything of it is dropped. *)
Lemma abandonSwitch_spec p q : tri (With (lost R) (factsAt p q)) (abandonSwitch R) fin.
Proof.
  unfold abandonSwitch. apply tri_cut_bind. intros m0. apply (tri_pre (With (lost R) (factsAt p q))); [by intros m w _ [_ ?]|].
  eapply tri_bind; [exact (tri_calm (lost R) (factsAt p q) _ (DropJournal_calm R _))| |by intros e m w _ [_ ?]; apply fin_soft].
  intros []. eapply tri_bind; [eapply tri_pre; [|apply (Release_spec (lost R) (factsAt p q))]; by intros m w _ [? _]| |].
  2:{ intros e m w _ (_ & ? & _). by apply fin_soft. }
  intros []. set (P m w := With (lost R) (factsAt p q) m w ∧ unfenced R w).
  assert (stable P) as HP.
  { intros m w w' He Hi [? ?]. split; [by eapply (With_stable (lost R) (factsAt p q))|by eapply env_unfenced]. }
  eapply (tri_bind _ _ _ _ _ _ (λ r m w, P m w ∧ soft_res r)).
  { apply (tri_pre P); [by intros m w _ (? & _ & Hu); split; auto|].
    apply (tri_keeps R Inv G env_inv (λ w w', tame R w w' ∧ fence_kept w w') same_wf); [done| | |].
    - intros m m' w E [[? ?] ?]. split; [|done]. split; [done|]. by rewrite E.
    - intros m w w' Hi [[Hl ?] Hu] [Ht Hk]. pose proof Hl as [Hp Hd]. destruct (good_tame R w w') as [? _]; [done|by left|done|].
      split; [done|]. split; [split; [split; [by rewrite (tame_phase R w w')|by eapply tame_doomed]|by eapply (tame_facts R (factsAt p q))]|].
      unfold unfenced. by rewrite Hk.
    - apply keeps_and; [by apply Complete_tame|apply Complete_fence]. }
  2:{ intros e m w _ [_ ?]. by apply fin_soft. }
  intros []. apply tri_modify_bind with (P' := λ m w, (lost R w ∧ jid (wf m) (wrow w) ∧ unfenced R w) ∧ wf_stage (wf m) = StageFailed).
  { intros m w _ [[[? [(_ & ? & _) _]] ?] _]. by split_and!. }
  eapply tri_bind; [apply (finish_tri R src_tgt StateFailed)| |].
  - apply stableA_and; [|by apply stableA_mem]. intros m w w' He Hi (? & ? & ?). apply env_is_calm in He as Hc; [|done].
    split_and!; [by eapply (lost_calm R w w')|by eapply (calm_facts R jid)|by eapply env_unfenced].
  - intros m w Hi ((Hl & Hj & Hu) & Est). destruct Hl as [Hp Hd]. apply (saved_good R (wf m)); [done..| | |].
    + rewrite Est. left. apply Hd.
    + by rewrite Est.
    + intros _. auto.
  - intros []. by apply tri_ret.
  - intros e m w _ ?. by apply fin_soft.
Qed.

(** ** The deadline *)

Lemma overdue_early step (F : world → Prop) φ `{!Calm R F, !RowFacts φ} :
  tri (With F φ) (overdue R step) (λ r m w, With F φ m w ∧ soft_res r ∧ (r = Ok true → JournalID (wf_cutover (wf m)) = ""%string)).
Proof.
  unfold overdue. apply tri_cut_bind. intros m0. destruct (mayAbort _ && beforeJournal step) eqn:E.
  - apply andb_prop in E as [E _]. unfold mayAbort in E. apply andb_prop in E as [_ E].
    apply String.eqb_eq in E. apply tri_now_bind; [intros m w w' He Hi [? ?]; split; [done|by eapply (With_stable F φ)]|].
    intros t. apply tri_ret. intros m w _ [[-> ?] _]. by split_and!.
  - apply tri_ret. intros m w _ [-> ?]. by split_and!.
Qed.

Lemma overdue_sequences φ `{!RowFacts φ} : (∀ m r, φ m r → facts PSequences m r) →
  tri (With Tr φ) (overdue R StepSequences) (λ r m w, With Tr φ m w ∧ soft_res r ∧
    (r = Ok true → late R w ∧ JournalID (wf_cutover (wf m)) = ""%string) ∧ (r = Ok false → shut R w)).
Proof.
  intros Hφ. unfold overdue. apply tri_cut_bind. intros m0. set (c := wf_cutover (wf m0)).
  assert (∀ w m, m = m0 → With Tr φ m w → Inv w → JournalID c = JournalID (rcut w) ∧ FencedAt c = FencedAt (rcut w) ∧ (late R w ∨ shut R w)) as Hf.
  { intros w m -> [_ Hm] [_ Hat]. destruct (Hφ _ _ Hm) as ((_ & _ & Hp) & _ & Hs). destruct (Hs eq_refl). rewrite Hp in Hat. cbn in Hat. tauto. }
  change (beforeJournal StepSequences) with true. rewrite andb_true_r.
  destruct (mayAbort c) eqn:E.
  - unfold mayAbort in E. apply andb_prop in E as [E1 E2]. apply bool_decide_eq_true in E1. apply String.eqb_eq in E2.
    destruct (FencedAt c) as [f|] eqn:Ef; [|done].
    eapply (tri_bind _ _ _ _ _ _ (λ r m w, match r with Ok t => (m = m0 ∧ With Tr φ m w) ∧
       (cutoverTimeout R < t - f → late R w) ∧ (t - f ≤ cutoverTimeout R → shut R w) | Err _ => False end)); [| |done].
    + apply (tri_now R Inv G env_inv); [intros m w w' He Hi [? ?]; split; [done|by eapply (With_stable Tr φ)]|].
      intros m w Hi [-> HW]. destruct (Hf w m0 eq_refl HW Hi) as (Hj & Hfe & Hls). split; [done|]. split.
      * intros Hlt. split; [congruence|]. exists f. split; [congruence|done].
      * intros Hle. destruct Hls as [(_ & f' & Ef' & Hl)|?]; [|done]. assert (f' = f) as -> by congruence. lia.
    + intros t. apply tri_ret. intros m w _ ([-> HW] & H1 & H2). split_and!; [done..| |].
      * intros [= Hlt%Z.ltb_lt]. auto.
      * intros [= Hlt%Z.ltb_ge]. auto.
  - apply tri_ret. intros m w Hi [-> HW]. split_and!; [done..|]. intros _.
    destruct (Hf w m0 eq_refl HW Hi) as (Hj & Hfe & [(Hj0 & f & Ef & _)|?]); [|done].
    exfalso. unfold mayAbort in E. rewrite Hfe, Ef, Hj, Hj0 in E. done.
Qed.

(** ** The early steps *)

Definition noretire (r : result err (bool * option err)) : Prop :=
  match r with Ok (_, Some e) => e_retired e = false | Ok (_, None) => True | Err e => e_retired e = false end.
Lemma soft_noretire r : soft_step r → noretire r.
Proof. destruct r as [[b [e|]]|e]; cbn; try done; by intros [_ ?]. Qed.

Lemma calmly_E1 {A} (x : M A) : keeps (calm R) same_wf x → keeps (calm R) E1 x.
Proof. apply keeps_mem, same_wf_E1. Qed.
Lemma calmly_E2 {A} (x : M A) : keeps (calm R) same_wf x → keeps (calm R) E2 x.
Proof. apply keeps_mem, same_wf_E2. Qed.
Lemma cut_keeps E `{!PreOrder E} : keeps (calm R) E cut.
Proof. apply keeps_bind; [done|by apply keeps_get|intros m; by apply keeps_ret]. Qed.

Ltac report_step :=
  first
  [ apply reports_ret; [apply _|done]
  | apply reports_fail; [apply _|done]
  | apply reports_bind; [apply _|by intros ? [_ ?]|first
      [ apply keeps_now; apply _
      | apply cut_keeps; apply _
      | apply keeps_modify; intros ?; by repeat (split; [done|])
      | apply calmly_E1; solve [eauto with keeps]]|intros ?]
  | case_match ].

Lemma early_reports step : stepPhase step = PEarly → step ≠ StepQuiesce → reports (calm R) E1 noretire (runStep R step).
Proof.
  intros Hp Hq. unfold runStep.
  destruct (String.eqb_spec step StepFence) as [->|_]; [unfold stepFence, done, Fence; cbn; repeat report_step|].
  destruct (String.eqb_spec step StepDrain) as [->|_]; [unfold stepDrain, done, wait, Drain; cbn; repeat report_step|].
  destruct (String.eqb_spec step StepSweep) as [->|_]; [unfold done, Sweep; cbn; repeat report_step|].
  destruct (String.eqb_spec step StepPositions) as [->|_]; [unfold done, ReadPositions; cbn; unfold pg_Positions, setCut; repeat report_step|].
  destruct (String.eqb_spec step StepCatchUp) as [->|_]; [unfold stepCatchUp, done, wait, CaughtUp; cbn; repeat report_step|].
  destruct (String.eqb_spec step StepVerify) as [->|_]; [unfold stepVerify, done, wait, RunVerify; cbn; unfold setCut; repeat report_step|].
  destruct (String.eqb_spec step StepQuiesce) as [|_]; [done|].
  destruct (String.eqb_spec step StepSequences) as [->|_]; [done|].
  destruct (String.eqb_spec step StepReverse) as [->|_];
    [unfold stepReverse, done, Reverse, SchemaFingerprints; cbn; unfold pg_SchemaFingerprints, setCut; repeat report_step|].
  destruct (String.eqb_spec step StepJournal) as [->|_]; [done|].
  destruct (String.eqb_spec step StepFlip) as [->|_]; [done|].
  destruct (String.eqb_spec step StepSwap) as [->|_]; [done|].
  destruct (String.eqb_spec step StepRelease) as [->|_]; [done|].
  by apply reports_fail; [apply _|].
Qed.

Lemma E1_factsAt p q m m' r : E1 m m' → p ≠ PSequences → factsAt p q (wf m) r → factsAt p q (wf m') r.
Proof.
  intros (A1 & A2 & A3) Hp [((H1 & H2 & H3) & H4 & _) H5]. unfold factsAt, facts, jid. rewrite A1, A2, A3. by split_and!.
Qed.
Lemma factsAt_abortable p q m r : factsAt p q m r → JournalID (wf_cutover m) = ""%string → abortable m r.
Proof. intros [((H1 & H2 & H3) & H4 & _) _] H. by split_and!. Qed.

Lemma runStep_unknown step : step ∉ switchSteps → runStep R step = fail (fatal "unknown switch step").
Proof.
  intros Hn. unfold runStep. repeat (case_match; [exfalso; apply Hn|]); [..|done].
  all: match goal with H : String.eqb _ _ = true |- _ => apply String.eqb_eq in H; subst end; unfold switchSteps; set_solver.
Qed.

Local Notation φE := (factsAt PEarly PEarly).
Lemma early_LP m w : With Tr φE m w → LP φE m w.
Proof. intros [_ H]. split; [|done]. left. apply H. Qed.

Lemma run_early step : stepPhase step = PEarly →
  tri (LP φE) (runStep R step)
    (λ r m w, LP φE m w ∧ noretire r ∧ (r = Ok (false, None) → step ∈ switchSteps ∧ (step = StepQuiesce → shut R w))).
Proof.
  intros Hp. destruct (decide (step ∈ switchSteps)) as [Hin|Hn].
  2:{ rewrite (runStep_unknown step Hn). apply tri_fail. intros m w _ ?. by split_and!. }
  destruct (decide (step = StepQuiesce)) as [->|Hq].
  - eapply tri_post; [|apply (quiesceSources_spec R src_tgt φE)]. intros r m w _ (? & Hs & ?).
    split_and!; [done|by apply soft_noretire|]. intros ?. split; auto.
  - eapply tri_post; [|apply (tri_reports R Inv G env_inv (calm R) E1 (LP φE) noretire); [by apply With_stable; apply _|..|by apply early_reports]].
    + intros r m w _ [? ?]. by split_and!.
    + intros m m' w HE [? ?]. split; [done|]. by eapply E1_factsAt.
    + intros m w w' Hi [? ?] Hc. split; [by apply good_calm|]. split; [by eapply calm_FreeL|by eapply (calm_facts R φE)].
Qed.

(** An early step that failed: the switch fails, is undone, or the step is
    tried again. *)
Lemma failed_early step e : stepPhase step = PEarly → e_retired e = false →
  tri (LP φE) (stepFailed R step e) (λ r m w, match r with Ok None => LP φE m w | _ => fin r m w end).
Proof.
  intros Hp Hr. unfold stepFailed. rewrite Hr, (before_early step Hp). cbn [negb].
  destruct (e_retry e); cbn [negb]; [by apply tri_ret|].
  destruct (e_fatal e) eqn:Ef.
  - apply undo_spec; [apply _| |by intros e' m w ?; apply fin_soft].
    apply tri_fail. intros m w _ ([[? ?] [((? & _) & _) _]] & ?) _. by split_and!.
  - eapply tri_bind; [by apply (overdue_early step (FreeL R) φE)| |by intros e' m w _ (_ & ? & _); apply fin_soft].
    intros [].
    + eapply tri_bind; [eapply tri_pre; [|apply (abortSwitch_spec "the step did not finish in time")]| |done].
      * intros m w _ ([? ?] & _ & Hj). split; [done|]. eapply factsAt_abortable; eauto.
      * intros b. by apply tri_ret.
    + apply tri_fail. intros m w _ _. cbn. by rewrite Ef.
Qed.

(** An early step that waits: the switch is undone when the time is up. *)
Lemma save_early : tri (LP φE) (saveCutover R) (λ r m w, match r with Ok _ => True | Err e => soft e end).
Proof.
  eapply tri_post; [|apply (save_tri R src_tgt (LP φE) (λ _ _, True)); [by apply With_stable; apply _|]].
  - intros [[]|e] m w _; [done|]. by intros [? _].
  - intros m w Hi [Hf [((Hs & Hs' & Hp) & Hj & _) Hq]]. split; [|done]. apply (saved_good R (wf m)); [done..| | |]; rewrite Hs'.
    + change (InvAt R (stepPhase (Step (wf_cutover (wf m)))) (save_to (saved (wf m) (wrow w)) w)). rewrite Hq. exact (FreeL_early w Hi Hf).
    + done.
    + done.
Qed.
Lemma waits_early step : tri (LP φE) (stepWaits R step) fin.
Proof.
  unfold stepWaits. eapply tri_bind; [by apply (overdue_early step (FreeL R) φE)| |by intros e' m w _ (_ & ? & _); apply fin_soft].
  intros [].
  - eapply tri_pre; [|apply (abortSwitch_spec "the step did not finish in time")].
    intros m w _ ([? ?] & _ & Hj). split; [done|]. eapply factsAt_abortable; eauto.
  - eapply tri_bind; [eapply tri_pre; [|apply save_early]; by intros m w _ [? _]| |by intros e m w _ ?; apply fin_soft].
    intros []. by apply tri_ret.
Qed.

(** ** Going on to the next step *)

(** Where a round of the loop begins. *)
Definition top : assertion := λ m w, ∃ p, With Tr (factsAt p p) m w.
Definition go {A} (r : result err (option A)) : assertion := λ m w, match r with Ok None => top m w | _ => fin r m w end.

Lemma advance_spec (next : string) (F : world → Prop) φ `{!Calm R F, !RowFacts φ} :
  next ≠ ""%string →
  (∀ m r, φ m r → r_stage r = StageSwitching ∧ wf_stage m = StageSwitching ∧ jid m r) →
  (∀ w r, Inv w → F w → InvAt R (stepPhase next) (save_to r w)) →
  tri (With F φ) (t ← now; _ ← setCut (λ c, stampStep t {| c with Step := next |}); _ ← saveCutover R; mret (@None bool)) go.
Proof.
  intros Hne Hφ Hat. apply tri_now_bind; [by apply With_stable; apply _|]. intros t.
  apply tri_modify_bind with (P' := λ m w, With F (λ m r, r_stage r = StageSwitching ∧ jid m r) m w ∧
    wf_stage (wf m) = StageSwitching ∧ Step (wf_cutover (wf m)) = next).
  { intros m w _ [[? H] _]. destruct (Hφ _ _ H) as (? & ? & ?). by split_and!. }
  assert (RowFacts (λ m r, r_stage r = StageSwitching ∧ jid m r)) by (intros m r r' E1 E2; unfold jid; by rewrite E1, E2).
  eapply tri_bind; [apply (save_tri R src_tgt _ top)| |].
  - apply stableA_and; [by apply With_stable; apply _|by apply stableA_mem].
  - intros m w Hi ([Hf [Hs Hj]] & Hs' & Hst). split.
    + apply (saved_good R (wf m)); [done..| | |]; rewrite ?Hs'; [|done..]. rewrite Hst. by apply Hat.
    + exists (stepPhase next). split; [done|]. split; [|by rewrite Hst]. unfold facts, jid, phaseOf. cbn. rewrite Hs', Hst. by split_and!.
  - intros []. by apply tri_ret.
  - intros e m w _ [? _]. by apply fin_soft.
Qed.

Lemma imp_calm (P : Prop) F : Calm R F → Calm R (λ w, P → F w).
Proof. intros HF w w' Hc Hi H HP. eapply calm_keeps; eauto. Qed.

Lemma done_early step : step ∈ switchSteps → stepPhase step = PEarly →
  tri (With (λ w, FreeL R w ∧ (step = StepQuiesce → shut R w)) φE) (stepDone R step) go.
Proof.
  intros Hin Hp. unfold stepDone. pose proof (imp_calm (step = StepQuiesce) (shut R) _).
  eapply tri_bind; [by apply (overdue_early step (λ w, FreeL R w ∧ (step = StepQuiesce → shut R w)) φE)| |].
  2:{ intros e' m w _ (_ & ? & _). by apply fin_soft. }
  intros [].
  { eapply tri_bind; [eapply tri_pre; [|apply (abortSwitch_spec "the fence had been held over the limit")]| |done].
    - intros m w _ ([[? _] ?] & _ & Hj). split; [done|]. eapply factsAt_abortable; eauto.
    - intros b. by apply tri_ret. }
  destruct (next_early step Hin Hp) as [Hne Hnext]. rewrite (proj2 (String.eqb_neq _ _) Hne).
  eapply tri_pre; [|apply (advance_spec (nextStep step) (λ w, FreeL R w ∧ (step = StepQuiesce → shut R w)) φE)].
  - by intros m w _ [? _].
  - done.
  - intros m r [((? & ? & _) & ? & _) _]. done.
  - intros w r Hi [Hf Hs]. destruct Hnext as [E|[E ->]].
    + rewrite E. exact (FreeL_early w Hi Hf).
    + destruct (FreeL_early w Hi Hf). split_and!; [done..|]. right. exact (Hs E).
Qed.

(** ** The sequences *)

Local Notation φS := (λ m r, factsAt PSequences PSequences m r ∨ factsAt PSequences PEarly m r).
Lemma φS_facts m r : φS m r → facts PSequences m r.
Proof. by intros [[? _]|[? _]]. Qed.
Lemma φS_abortable m w : φS (wf m) (wrow w) → late R w → JournalID (wf_cutover (wf m)) = ""%string → LP abortable m w.
Proof.
  intros H Hl Hj. pose proof (φS_facts _ _ H) as ((? & ? & ?) & ? & _). split; [|by split_and!]. right. done.
Qed.

Lemma run_sequences :
  tri (With Tr (factsAt PSequences PSequences)) (runStep R StepSequences) (λ r m w, With Tr φS m w ∧ soft_step r).
Proof.
  change (runStep R StepSequences) with stepSequences.
  apply (tri_pre (With Tr φS)); [by intros m w _ [? ?]; split; [|left]|].
  apply (tri_reports R Inv G env_inv (calm R) E2 (With Tr φS) soft_step); [by apply With_stable; apply _|..].
  - intros m m' w (A1 & A2 & A3 & A4) [_ H]. split; [done|].
    assert (facts PSequences (wf m') (wrow w)) as Hf.
    { destruct (φS_facts _ _ H) as ((? & ? & ?) & Hj & Hs). unfold facts, jid. rewrite A1, A2, A3. by split_and!. }
    unfold factsAt. destruct A4 as [->| ->]; [|by right]. destruct H as [[_ ?]|[_ ?]]; [by left|by right].
  - intros m w w' Hi [? ?] Hc. split; [by apply good_calm|]. split; [done|by eapply (calm_facts R φS)].
  - unfold stepSequences. apply reports_bind; [apply _|done|apply cut_keeps; apply _|]. intros c. destruct (Schema c).
    + apply reports_bind; [apply _|done|apply calmly_E2, syncSequences_calm|]. intros _. by apply reports_ret; [apply _|].
    + apply reports_bind; [apply _|done|apply keeps_modify; intros m; split_and!; [done..|by right]|].
      intros _. by apply reports_ret; [apply _|].
Qed.

Lemma failed_sequences e : soft e →
  tri (With Tr φS) (stepFailed R StepSequences e) (λ r m w, match r with Ok None => With Tr φS m w | _ => fin r m w end).
Proof.
  intros [Ef Er]. unfold stepFailed. rewrite Er, Ef. change (beforeJournal StepSequences) with true. cbn [negb].
  destruct (e_retry e); cbn [negb]; [by apply tri_ret|].
  eapply tri_bind; [apply (overdue_sequences φS φS_facts)| |by intros e' m w _ (_ & ? & _); apply fin_soft].
  intros [].
  - eapply tri_bind; [eapply tri_pre; [|apply (abortSwitch_spec "the step did not finish in time")]| |done].
    + intros m w _ ([_ ?] & _ & Hl & _). destruct (Hl eq_refl). by apply φS_abortable.
    + intros b. by apply tri_ret.
  - apply tri_fail. intros m w _ _. cbn. by rewrite Ef.
Qed.
Lemma waits_sequences : tri (With Tr φS) (stepWaits R StepSequences) fin.
Proof.
  unfold stepWaits. eapply tri_bind; [apply (overdue_sequences φS φS_facts)| |by intros e' m w _ (_ & ? & _); apply fin_soft].
  intros [].
  - eapply tri_pre; [|apply (abortSwitch_spec "the step did not finish in time")].
    intros m w _ ([_ ?] & _ & Hl & _). destruct (Hl eq_refl). by apply φS_abortable.
  - eapply tri_bind; [eapply tri_pre; [|apply (save_tri R src_tgt (With Tr φS) (λ _ _, True))]| |by intros e m w _ [? _]; apply fin_soft].
    + by intros m w _ [? _].
    + by apply With_stable; apply _.
    + intros m w Hi [_ H]. split; [|done]. destruct (φS_facts _ _ H) as ((Hs & Hs' & Hp) & Hj & Heq). destruct (Heq eq_refl) as [Ej Ef].
      apply (saved_good R (wf m)); [done..| | |]; rewrite Hs'; [|done..].
      destruct Hi as [_ Hat]. rewrite Hp in Hat. destruct Hat as (H1 & H2 & H3).
      change (InvAt R (stepPhase (Step (wf_cutover (wf m)))) (save_to (saved (wf m) (wrow w)) w)).
      destruct H as [[_ E]|[_ E]]; rewrite E; [|by split].
      split_and!; [done..|]. destruct H3 as [Hl|?]; [left|by right]. by apply save_late.
    + intros []. by apply tri_ret.
Qed.
Lemma done_sequences : tri (With Tr φS) (stepDone R StepSequences) go.
Proof.
  unfold stepDone. eapply tri_bind; [apply (overdue_sequences φS φS_facts)| |by intros e' m w _ (_ & ? & _); apply fin_soft].
  intros [].
  { eapply tri_bind; [eapply tri_pre; [|apply (abortSwitch_spec "the fence had been held over the limit")]| |done].
    - intros m w _ ([_ ?] & _ & Hl & _). destruct (Hl eq_refl). by apply φS_abortable.
    - intros b. by apply tri_ret. }
  change (nextStep StepSequences) with StepJournal. change (String.eqb StepJournal "") with false. cbv iota.
  eapply tri_pre; [|apply (advance_spec StepJournal (λ w, phaseOf (wrow w) = PSequences ∧ shut R w) φS)].
  - intros m w _ ([_ H] & _ & _ & Hs). specialize (Hs eq_refl). pose proof (φS_facts _ _ H) as ((_ & _ & ?) & _). by parts.
  - done.
  - intros m r ((? & ? & _) & ? & _)%φS_facts. done.
  - intros w r [_ Hat] [Hp Hs]. rewrite Hp in Hat. split; [apply Hat|exact Hs].
Qed.
End Steps.
