(* ===== verification/CutLate.v ===== *)
(** * The steps past the point of no return

    The journal, the flip, the swap and the release: none of them is undone,
    only tried again, except where another workflow has already retired the
    sources. *)

From S2P Require Import Prelude Prog Ranges CutWorld CutOps Cutover CutLogic CutInv CutSpecs CutPause CutDrain CutSwap CutSteps.

Local Open Scope Z_scope.

(** The record, in the row and in memory, stands at a step of the phase. *)
Abbreviation at_step p := (With Tr (factsAt p p)).

Section Late.
Context (R : run).
Hypothesis src_tgt : src R ≠ tgt R.
Local Notation Inv := (Inv R).
Local Notation G := (G R).
Local Notation stable := (stable R Inv).
Local Notation tri := (tri R Inv G).
Local Notation env_inv := (env_inv R src_tgt).
Local Notation With_stable := (With_stable R src_tgt).
Local Notation tri_now_bind := (tri_now_bind R Inv G env_inv).
Local Notation tri_pre := (tri_pre R Inv G).
Local Notation tri_calm := (tri_calm R src_tgt).
Local Notation tri_cut_bind := (tri_cut_bind R).
#[local] Hint Extern 0 cutoverOps => exact (pgCutover R) : typeclass_instances.
Definition is_late (p : phase) : Prop := p ∈ [PJournal; PFlip; PSwap; POver].
#[local] Existing Instance Tr_calm.

(** ** Saving without moving *)

Lemma save_same p : is_late p → tri (at_step p) (saveCutover R) (λ r m w, at_step p m w ∧ soft_res r).
Proof.
  intros Hl. eapply tri_post; [|apply (save_tri R src_tgt (at_step p) (at_step p)); [by apply With_stable; apply _|]].
  { intros [[]|e] m w _; [done|]. by intros [? [?|?]]. }
  intros m w Hi [_ [((Hs & Hs' & Hp) & Hj & _) Hq]]. split.
  - apply (saved_good R (wf m)); [done..| | |]; rewrite Hs'; [|done..].
    change (InvAt R (stepPhase (Step (wf_cutover (wf m)))) (save_to (saved (wf m) (wrow w)) w)).
    destruct Hi as [_ Hat]. rewrite Hp in Hat. rewrite Hq. unfold is_late in Hl.
    destruct p; first [exact Hat|by exfalso; set_solver].
  - split; [done|]. split; [|done]. unfold facts, jid, phaseOf. cbn. rewrite Hs'. cbn. by split_and!.
Qed.

(** The record in memory changed, but not where it stands. *)
Lemma setCut_same {B} p (f : cutoverState → cutoverState) (k : () → M B) Q :
  is_late p → (∀ c, Step (f c) = Step c) → (∀ c, JournalID (f c) = JournalID c) →
  tri (at_step p) (k ()) Q → tri (at_step p) (setCut f ≫= k) Q.
Proof.
  intros Hl H1 H2 Hk. apply tri_modify_bind with (P' := at_step p); [|done].
  intros m w _ [_ [((Hs & Hs' & Hp) & Hj & _) Hq]]. split; [done|]. unfold factsAt, facts, jid. cbn. rewrite H1, H2. split_and!; try done.
  intros ->. unfold is_late in Hl. by exfalso; set_solver.
Qed.

(** ** After the step *)

Lemma failed_late p step e : is_late p → stepPhase step = p → e_fatal e = false →
  tri (λ m w, at_step p m w ∧ (e_retired e = true → With (lost R) (factsAt p p) m w)) (stepFailed R step e)
    (λ r m w, match r with Ok None => False | _ => fin R r m w end).
Proof.
  intros Hl Hp Hf. unfold stepFailed. rewrite (before_late step p Hp Hl). cbn [negb]. destruct (e_retired e).
  - eapply tri_bind; [eapply tri_pre; [|by apply (abandonSwitch_spec R src_tgt p p)]; by intros m w _ [_ H]; apply H| |done].
    intros b. by apply tri_ret.
  - apply (tri_pre (at_step p)); [by intros m w _ [? _]|]. apply setCut_same; [done..|].
    eapply tri_bind; [by apply save_same| |by intros e' m w _ [_ ?]; apply fin_soft].
    intros []. apply tri_fail. intros m w _ _. cbn. by rewrite Hf.
Qed.

Lemma overdue_late p step (P : assertion) : is_late p → stepPhase step = p →
  tri P (overdue R step) (λ r m w, P m w ∧ r = Ok false).
Proof.
  intros Hl Hp. unfold overdue. apply tri_cut_bind. intros m0. rewrite (before_late step p Hp Hl), andb_false_r.
  apply tri_ret. by intros m w _ [_ ?].
Qed.
Lemma waits_late p step : is_late p → stepPhase step = p → tri (at_step p) (stepWaits R step) (fin R).
Proof.
  intros Hl Hp. unfold stepWaits. eapply tri_bind; [by apply (overdue_late p)| |by intros e m w _ [_ ?]].
  intros []; [by apply (tri_pure _ _ _ _ _ _ False); [intros m w [_ ?]|]|].
  eapply tri_bind; [eapply tri_pre; [|by apply (save_same p)]; by intros m w _ [? _]| |by intros e m w _ [_ ?]; apply fin_soft].
  intros []. by apply tri_ret.
Qed.
Lemma done_late p step (F : world → Prop) `{!Calm R F} :
  is_late p → stepPhase step = p → nextStep step ≠ ""%string →
  (∀ w r, Inv w → phaseOf (wrow w) = p → F w → InvAt R (stepPhase (nextStep step)) (save_to r w)) →
  tri (With F (factsAt p p)) (stepDone R step) (go R).
Proof.
  intros Hl Hp Hne Hat. unfold stepDone. eapply tri_bind; [by apply (overdue_late p)| |by intros e m w _ [_ ?]].
  intros []; [by apply (tri_pure _ _ _ _ _ _ False); [intros m w [_ ?]|]|].
  rewrite (proj2 (String.eqb_neq _ _) Hne).
  eapply tri_pre; [|apply (advance_spec R src_tgt (nextStep step) (λ w, phaseOf (wrow w) = p ∧ F w) (factsAt p p))].
  - intros m w _ [[? H] _]. pose proof H as [((_ & _ & ?) & _) _]. by parts.
  - done.
  - intros m r [((? & ? & _) & ? & _) _]. done.
  - intros w r Hi [? ?]. by apply Hat.
Qed.

(** ** The journal *)

Lemma run_journal : tri (at_step PJournal) (runStep R StepJournal) (λ r m w, at_step PJournal m w ∧ soft_step r).
Proof.
  change (runStep R StepJournal) with (stepJournal R). unfold stepJournal. apply tri_cut_bind. intros m0.
  eapply (tri_bind _ _ _ _ _ _ (λ r m w, at_step PJournal m w ∧ soft_res r)).
  2:{ intros []. apply tri_cut_bind. intros m1. eapply tri_bind; [eapply tri_pre; [|exact (tri_calm Tr (factsAt PJournal PJournal) _ (Journal_calm R _))]| |].
      - by intros m w _ (_ & ? & _).
      - intros []. apply tri_ret. by intros m w _ [? _].
      - by intros e m w _ [? ?]. }
  2:{ by intros e m w _ [? ?]. }
  destruct (String.eqb_spec (JournalID (wf_cutover (wf m0))) "") as [Ej|].
  2:{ apply tri_ret. by intros m w _ [_ ?]. }
  set (φ m r := factsAt PJournal PJournal m r ∧ JournalID (r_cutover r) = ""%string).
  assert (RowFacts φ) by (intros m r r' H1 H2 [? ?]; split; [by eapply factsAt_row|by rewrite H2]).
  apply (tri_pre (With Tr φ)).
  { intros m w _ [-> [_ H']]. split; [done|]. split; [done|]. pose proof H' as [(_ & Hj & _) _].
    destruct (decide (JournalID (r_cutover (wrow w)) = ""%string)) as [|Hne]; [done|]. specialize (Hj Hne). congruence. }
  eapply tri_bind; [exact (tri_calm Tr φ _ (NewJournalID_calm R))| |by intros e m w _ [[? [? _]] ?]].
  intros id. apply tri_modify_bind with (P' := at_step PJournal).
  { intros m w _ [[_ [[(H1 & _ & _) H2] H3]] _]. split; [done|]. split; [|done]. split; [done|]. split; [|done]. by intros Hne. }
  apply save_same. unfold is_late. set_solver.
Qed.

(** ** The flip *)

(** What a step says went wrong. *)
Definition trouble (r : result err (bool * option err)) : option err :=
  match r with Ok (_, e) => e | Err e => Some e end.
Definition flip_post (r : result err (bool * option err)) : assertion := λ m w,
  at_step PFlip m w ∧
  (∀ e, trouble r = Some e → e_fatal e = false ∧ (e_retired e = true → With (lost R) (factsAt PFlip PFlip) m w)) ∧
  (r = Ok (false, None) → shut R w ∧ caught R w).
Lemma flip_soft r m w : at_step PFlip m w → soft_step r → r ≠ Ok (false, None) → flip_post r m w.
Proof.
  intros HW Hs Hne. split; [done|]. split; [|done]. intros e. destruct r as [[b [e'|]]|e']; cbn in *; intros [= <-]; destruct Hs as [? ->]; done.
Qed.

Local Notation φF := (factsAt PFlip PFlip).
Lemma lost_step m w : With (lost R) φF m w → at_step PFlip m w.
Proof. by intros [? ?]. Qed.
Lemma lost_FreeO m w : With (FreeO R) φF m w → With (lost R) φF m w.
Proof.
  intros [Hf H]. split; [|done]. pose proof H as [((_ & _ & E) & _) _].
  destruct Hf as [?|[[E' _]|E']]; [done|congruence..].
Qed.

(** Re-quiescing after another workflow retired the sources: harmless. *)
Lemma quiesce_tame : reports (tame R) same_wf soft_step quiesceSources.
Proof.
  assert (∀ waiting e, soft e → reports (tame R) same_wf soft_step (lift waiting (Some e))) as Hlift.
  { intros waiting e He. unfold lift. eapply reports_try; [apply _|exact (PauseSources_tame R false)|]. intros r Hr.
    apply reports_ret; [apply _|]. cbn. destruct r as [[]|e']; cbn; [done|]. destruct He as [E1 E2], Hr as [E3 E4].
    split; cbn; by rewrite ?E1, ?E2, ?E3, ?E4. }
  unfold quiesceSources. eapply reports_try; [apply _|exact (PauseSources_tame R true)|]. intros [[]|e] Hr; [|by apply Hlift].
  eapply reports_try; [apply _|exact (calmly_tamely R _ (drainWriters_calm R (src R) (srcIDs R)))|]. intros [[]|e] Hr1; [|by apply Hlift].
  eapply reports_try; [apply _|exact (calmly_tamely R _ (Drain_calm R))|]. intros [l|e] Hr2; [|by apply Hlift].
  case_match; [by apply Hlift|].
  eapply reports_try; [apply _|exact (calmly_tamely R _ (positionsOf_calm R (src R) (srcIDs R)))|]. intros [pos|e] Hr3; [|by apply Hlift].
  eapply reports_try; [apply _|exact (calmly_tamely R _ (CaughtUp_calm R pos))|]. intros [[ok why]|e] Hr4; [|by apply Hlift].
  case_match; [by apply Hlift|]. by apply reports_ret; [apply _|].
Qed.

Lemma doFlip_lost : tri (With (lost R) φF) doFlip flip_post.
Proof.
  unfold doFlip. apply tri_cut_bind. intros m0.
  eapply tri_bind; [eapply tri_pre; [|apply (Flip_lost R src_tgt (JournalID (wf_cutover (wf m0))) φF)]; by intros m w _ [_ ?]| |].
  - intros []. by apply (tri_pure _ _ _ _ _ _ False); [intros m w [_ (? & ? & _)]|].
  - intros e m w _ [HW (e' & [= <-] & Hf)]. split; [by apply lost_step|]. split; [|done]. intros e' [= <-]. done.
Qed.
Lemma confirm_lost : tri (With (lost R) φF) (confirmCaughtUp doFlip) flip_post.
Proof.
  unfold confirmCaughtUp. eapply tri_bind; [exact (tri_calm (lost R) φF _ (positionsOf_calm R (src R) (srcIDs R)))| |].
  2:{ intros e m w _ [? ?]. apply flip_soft; [by apply lost_step|done|done]. }
  intros pos. eapply tri_bind; [eapply tri_pre; [|exact (tri_calm (lost R) φF _ (CaughtUp_calm R pos))]; by intros m w _ [? _]| |].
  2:{ intros e m w _ [? ?]. apply flip_soft; [by apply lost_step|done|done]. }
  intros [[] why]; cbn [negb]; [eapply tri_pre; [|apply doFlip_lost]; by intros m w _ [? _]|].
  apply tri_ret. intros m w _ [? _]. apply flip_soft; [by apply lost_step|done|done].
Qed.
Lemma flip_lost : tri (With (lost R) φF) stepFlip flip_post.
Proof.
  unfold stepFlip. eapply tri_bind; [exact (tri_calm (lost R) φF _ (SourcesPaused_calm R))| |].
  2:{ intros e m w _ [? ?]. apply flip_soft; [by apply lost_step|done|done]. }
  intros [].
  - eapply tri_try_bind; [eapply tri_pre; [|exact (tri_calm (lost R) φF _ (drainWriters_calm R (src R) (srcIDs R)))]; by intros m w _ [? _]|].
    intros [[]|e]; [eapply tri_pre; [|apply confirm_lost]; by intros m w _ [? _]|].
    apply tri_ret. intros m w _ [? _]. apply flip_soft; [by apply lost_step|done|done].
  - eapply (tri_bind _ _ _ _ _ _ (λ r m w, With (FreeO R) φF m w ∧ soft_step r)).
    + apply (tri_pre (With (FreeO R) φF)); [intros m w _ [[Hl ?] _]; split; [by left|done]|].
      apply (tri_reports R Inv G env_inv (tame R) same_wf (With (FreeO R) φF) soft_step); [by apply With_stable; apply _|..|apply quiesce_tame].
      * intros m m' w HE [? ?]. split; [done|]. by rewrite HE.
      * intros m w w' Hi [? ?] Ht. destruct (good_tame R w w') as [? ?]; [done..|]. split; [done|]. split; [done|by eapply (tame_facts R φF)].
    + intros [b o]. case_match eqn:E.
      * apply tri_ret. intros m w _ [?%lost_FreeO Hs]. apply flip_soft; [by apply lost_step|done|]. intros [= -> ->]. done.
      * eapply tri_pre; [|apply confirm_lost]. intros m w _ [? _]. by apply lost_FreeO.
    + intros e m w _ [?%lost_FreeO Hs]. apply flip_soft; [by apply lost_step|done|done].
Qed.

Definition flipping (w : world) : Prop := phaseOf (wrow w) = PFlip ∧ shut R w.
#[local] Instance flipping_calm : Calm R flipping.
Proof. unfold flipping. apply _. Qed.

Lemma doFlip_ready : tri (With (ready R) φF) doFlip flip_post.
Proof.
  unfold doFlip. apply tri_cut_bind. intros m0.
  eapply tri_bind; [eapply tri_pre; [|apply (Flip_ready R src_tgt (JournalID (wf_cutover (wf m0))) φF)]; by intros m w _ [_ ?]| |].
  - intros []. assert (∀ m w, With (ready R) φF m w → flip_post (Ok (false, None)) m w) as Hend.
    { intros m w [(? & ? & ?) ?]. split; [done|]. by split. }
    case_match; [apply tri_ret; by auto|].
    apply tri_now_bind; [by apply With_stable; apply _|]. intros t.
    apply tri_modify_bind with (P' := With (ready R) φF); [|apply tri_ret; by auto].
    intros m w _ [[? [(H1 & H2 & _) H3]] _]. split; [done|]. split; [|exact H3]. split; [exact H1|]. by split.
  - intros e m w _ [Hf HW]. destruct (e_retired e) eqn:Er.
    + split; [by apply lost_step|]. split; [|done]. by intros e' [= <-].
    + apply flip_soft; [by destruct HW|by split|done].
Qed.
Lemma flip_shut : tri (With flipping φF) stepFlip flip_post.
Proof.
  unfold stepFlip. eapply tri_bind; [apply (SourcesPaused_shut R src_tgt flipping φF); by intros w [_ ?]| |].
  2:{ intros e m w _ ([? ?] & ? & _). by apply flip_soft. }
  intros []; [|by apply (tri_pure _ _ _ _ _ _ False); [intros m w (_ & _ & ?)|]].
  eapply tri_try_bind; [eapply tri_pre; [|exact (tri_calm flipping φF _ (drainWriters_calm R (src R) (srcIDs R)))]; by intros m w _ [? _]|].
  intros [[]|e].
  2:{ apply tri_ret. intros m w _ [[? ?] _]. by apply flip_soft. }
  apply (tri_pre (With flipping φF)); [by intros m w _ [? _]|].
  apply (caught_up_spec R src_tgt flipping φF doFlip wait flip_post).
  - by intros w [_ ?].
  - eapply tri_pre; [|apply doFlip_ready]. intros m w _ [[[? ?] ?] ?]. unfold ready. by parts.
  - intros why. apply tri_ret. intros m w _ [? ?]. by apply flip_soft.
  - intros e m w ? [? ?]. by apply flip_soft.
Qed.
Lemma run_flip : tri (at_step PFlip) (runStep R StepFlip) flip_post.
Proof.
  change (runStep R StepFlip) with stepFlip.
  apply (tri_pre (λ m w, With (lost R) φF m w ∨ With flipping φF m w)); [|apply tri_or; [apply flip_lost|apply flip_shut]].
  intros m w [_ Hat] [_ H]. pose proof H as [((_ & _ & E) & _) _]. rewrite E in Hat. destruct Hat as [?|[? _]]; [left|right]; by parts.
Qed.

(** ** The swap *)

Local Notation φW := (factsAt PSwap PSwap).
Definition swap_post (r : result err (bool * option err)) : assertion := λ m w,
  at_step PSwap m w ∧ soft_step r ∧ (r = Ok (false, None) → forward_off R w).
Lemma swap_FreeO m w : at_step PSwap m w → forward_off R w → With (FreeO R) φW m w.
Proof. intros [_ H] Ho. split; [|done]. right; left. split; [apply H|done]. Qed.
Lemma FreeO_swap m w : With (FreeO R) φW m w → at_step PSwap m w ∧ forward_off R w.
Proof.
  intros [Hf H]. split; [by split|]. pose proof H as [((_ & _ & E) & _) _]. destruct Hf as [[E' _]|[[_ ?]|E']]; [congruence|done|congruence].
Qed.
Lemma late_swap : is_late PSwap.
Proof. unfold is_late. set_solver. Qed.

Lemma finishSwap_spec : tri (at_step PSwap) (finishSwap R) swap_post.
Proof.
  unfold finishSwap. eapply tri_bind; [exact (tri_calm Tr φW _ (syncSequences_calm R _ _ _ _))| |by intros e m w _ [? ?]].
  intros []. apply (tri_pre (at_step PSwap)); [by intros m w _ [? _]|]. apply tri_cut_bind. intros m0.
  apply (tri_pre (at_step PSwap)); [by intros m w _ [_ ?]|].
  eapply (tri_bind _ _ _ _ _ _ (λ r m w, at_step PSwap m w ∧ soft_res r)); [|intros []|by intros e m w _ [? ?]].
  { case_match; [by apply tri_ret|]. apply tri_now_bind; [by apply With_stable; apply _|]. intros t.
    apply (tri_pre (at_step PSwap)); [by intros m w _ [? _]|]. apply setCut_same; [apply late_swap|done..|]. apply save_same, late_swap. }
  eapply tri_bind; [eapply tri_pre; [|apply (DisableForward_spec R src_tgt φW)]| |].
  { intros m w _ [[_ H] _]. split; [apply H|done]. }
  2:{ intros e m w _ ([? ?] & ? & _). by split_and!. }
  intros []. eapply tri_bind; [eapply tri_pre; [|exact (tri_tame R src_tgt φW _ (PauseSources_tame R false))]| |].
  { intros m w _ ([? ?] & _ & Ho). apply swap_FreeO; [done|auto]. }
  2:{ intros e m w _ [[? ?]%FreeO_swap ?]. by split_and!. }
  intros []. eapply tri_bind; [eapply tri_pre; [|exact (tri_calm (FreeO R) φW _ (EnableReverse_calm R))]; by intros m w _ [? _]| |].
  2:{ intros e m w _ [[? ?]%FreeO_swap ?]. by split_and!. }
  intros []. apply tri_ret. intros m w _ [[? ?]%FreeO_swap ?]. by split_and!.
Qed.

Lemma run_swap : tri (at_step PSwap) (runStep R StepSwap) swap_post.
Proof.
  change (runStep R StepSwap) with (stepSwap R). unfold stepSwap.
  eapply tri_bind; [exact (tri_calm Tr φW _ (anyDisabled_calm R _))| |by intros e m w _ [? ?]].
  intros disabled. apply (tri_pre (at_step PSwap)); [by intros m w _ [? _]|]. apply tri_cut_bind. intros m0.
  apply (tri_pre (at_step PSwap)); [by intros m w _ [_ ?]|].
  set (resuming := disabled && _).
  eapply (tri_bind _ _ _ _ _ _ (λ r m w, at_step PSwap m w ∧ soft_res r ∧ (r = Ok false → forward_off R w))); [| |by intros e m w _ (? & ? & _)].
  { set (F w := shut R w ∧ caught R w). assert (Calm R F) by exact (shut_caught_calm R).
    apply (tri_pre (λ m w, With (forward_off R) φW m w ∨ With F φW m w)).
    { intros m w [_ Hat] [_ H']. pose proof H' as [((_ & _ & E) & _) _]. rewrite E in Hat. destruct Hat as [?|?]; [left|right]; by split. }
    apply tri_or.
    - eapply tri_post; [|exact (tri_calm (forward_off R) φW _ (SourcesPaused_calm R))]. intros r m w _ [[? ?] ?]. by split_and!.
    - eapply tri_post; [|apply (SourcesPaused_shut R src_tgt F φW); by intros w [? _]]. intros r m w _ ([_ ?] & ? & Hr). by split_and!. }
  intros stood. pose proof (imp_calm R (stood = false) (forward_off R) _) as Hc.
  set (F w := stood = false → forward_off R w).
  apply (tri_pre (With F φW)); [intros m w _ ([_ ?] & _ & Ho); split; [|done]; intros ->; by apply Ho|].
  assert (∀ m w, With F φW m w → at_step PSwap m w) as HF by (by intros m w [_ ?]).
  eapply (tri_bind _ _ _ _ _ _ (λ r m w, With F φW m w ∧ soft_res r)); [| |by intros e m w _ [? ?]; split_and!; auto].
  { destruct stood; cbn [negb when]; [by apply tri_ret|].
    eapply tri_mono; [| |exact (tri_tame R src_tgt φW _ (PauseSources_tame R true))].
    - intros m w _ [Ho ?]. apply swap_FreeO; [by split|by apply Ho].
    - intros r m w _ [[[_ ?] ?]%FreeO_swap ?]. split; [|done]. split; [by intros _|done]. }
  intros []. eapply tri_try_bind; [eapply tri_pre; [|exact (tri_calm F φW _ (drainWriters_calm R (src R) (srcIDs R)))]; by intros m w _ [? _]|].
  intros [[]|e].
  - apply (tri_pre (at_step PSwap)); [by intros m w _ [? _]; apply HF|]. case_match; [apply finishSwap_spec|].
    unfold confirmCaughtUp. eapply tri_bind; [exact (tri_calm Tr φW _ (positionsOf_calm R (src R) (srcIDs R)))| |by intros e m w _ [? ?]].
    intros pos. eapply tri_bind; [eapply tri_pre; [|exact (tri_calm Tr φW _ (CaughtUp_calm R pos))]; by intros m w _ [? _]| |by intros e m w _ [? ?]].
    intros [[] why]; cbn [negb]; [eapply tri_pre; [|apply finishSwap_spec]; by intros m w _ [? _]|].
    apply tri_ret. intros m w _ [? _]. by split_and!.
  - destruct stood; cbn [negb andb].
    { apply tri_ret. intros m w _ [? _]. by split_and!; auto. }
    destruct (negb resuming); [|apply tri_ret; intros m w _ [? _]; by split_and!; auto].
    eapply tri_try_bind; [eapply tri_pre; [|exact (tri_tame R src_tgt φW _ (PauseSources_tame R false))]|].
    { intros m w _ [[Ho ?] _]. apply swap_FreeO; [by split|by apply Ho]. }
    intros l. apply tri_ret. intros m w _ [[? ?]%FreeO_swap Hl]. split_and!; [done| |by destruct l].
    destruct l as [[]|e']; cbn; [done|]. destruct Hl as [E3 E4]. split; cbn; by rewrite ?E3, ?E4.
Qed.

(** ** The release *)

Lemma run_release : tri (at_step POver) (runStep R StepRelease) (λ r m w, at_step POver m w ∧ soft_step r).
Proof.
  change (runStep R StepRelease) with stepRelease.
  apply (tri_reports R Inv G env_inv (calm R) E1 (at_step POver) soft_step); [by apply With_stable; apply _|..].
  - intros m m' w HE [? ?]. split; [done|]. by eapply E1_factsAt.
  - intros m w w' Hi [? ?] Hc. split; [by apply good_calm|]. split; [done|by eapply (calm_facts R (factsAt POver POver))].
  - unfold stepRelease. apply reports_bind; [apply _|done|exact (calmly_E1 R _ (Release_calm R))|]. intros _.
    apply reports_bind; [apply _|done|apply cut_keeps; apply _|]. intros c. case_match; [by apply reports_ret; [apply _|]|].
    apply reports_bind; [apply _|done|by apply keeps_now; apply _|]. intros t.
    apply reports_bind; [apply _|done|by apply keeps_modify; intros m|]. intros _. by apply reports_ret; [apply _|].
Qed.
Lemma late_over : is_late POver.
Proof. unfold is_late. set_solver. Qed.
Lemma done_release : tri (at_step POver) (stepDone R StepRelease) (go R).
Proof.
  unfold stepDone. eapply tri_bind; [by apply (overdue_late POver StepRelease (at_step POver)); [apply late_over|]| |by intros e m w _ [_ ?]].
  intros []; [by apply (tri_pure _ _ _ _ _ _ False); [intros m w [_ ?]|]|].
  change (nextStep StepRelease) with ""%string. cbn [String.eqb].
  set (φ m r := phaseOf r = POver ∧ jid m r). assert (RowFacts φ) by (intros m r r' H1 H2; unfold φ, jid, phaseOf; by rewrite H1, H2).
  apply (tri_pre (With Tr φ)); [intros m w _ [[_ [((_ & _ & ?) & ? & _) _]] _]; by split|].
  apply tri_now_bind; [by apply With_stable; apply _|]. intros t. apply tri_modify_bind with (P' := With Tr φ); [by intros m w _ [[_ [? ?]] _]|].
  apply tri_now_bind; [by apply With_stable; apply _|]. intros t'. apply tri_modify_bind with (P' := With Tr φ); [by intros m w _ [[_ [? ?]] _]|].
  apply tri_modify_bind with (P' := λ m w, With Tr φ m w ∧ wf_stage (wf m) = StageSwitched); [by intros m w _ [_ [? ?]]|].
  eapply tri_bind; [apply (save_tri R src_tgt _ (λ _ _, True))| |by intros e m w _ [? _]; apply fin_soft].
  - apply stableA_and; [by apply With_stable; apply _|by apply stableA_mem].
  - intros m w Hi ([_ [Hp Hj]] & Hs). split; [|done]. apply (saved_good R (wf m)); [done..| | |]; rewrite Hs; [|done..].
    destruct Hi as [_ Hat]. rewrite Hp in Hat. exact Hat.
  - intros []. by apply tri_ret.
Qed.

(** ** The loop *)

(** What follows a step, in the loop. *)
Lemma round_spec k step r (P W : assertion) :
  (∀ e, trouble r = Some e → tri P (stepFailed R step e) (λ v m w, match v with Ok None => W m w | _ => fin R v m w end)) →
  tri (match trouble r with Some _ => W | None => P end) (stepWaits R step) (fin R) →
  (r = Ok (false, None) → tri P (stepDone R step) (go R)) →
  tri top k (fin R) → tri P (afterStep R step r k) (fin R).
Proof.
  intros Hfail Hwait Hdone Hloop. unfold afterStep.
  destruct (match r with Ok q => q | Err e => (false, Some e) end) as [waiting e] eqn:Er.
  assert (trouble r = e) as Et by (destruct r as [[? ?]|?]; by injection Er as <- <-).
  rewrite Et in *. destruct e as [e|].
  - eapply tri_bind; [by apply Hfail| |by intros e' m w _ ?]. intros [b|]; [by apply tri_ret|].
    rewrite bool_decide_eq_true_2 by done. rewrite orb_true_r. exact Hwait.
  - eapply (tri_bind _ _ _ _ _ _ (λ v m w, v = Ok None ∧ P m w)); [by apply tri_ret| |by intros e m w _ [? _]].
    intros v. apply (tri_pure _ _ _ _ _ _ (v = None)); [by intros m w [[= ->] _]|]. intros ->.
    apply (tri_pre P); [by intros m w _ [_ ?]|]. rewrite bool_decide_eq_false_2 by (by intros []). rewrite orb_false_r.
    destruct waiting; [exact Hwait|]. eapply tri_bind; [apply Hdone; destruct r as [[? ?]|?]; by simplify_eq| |].
    + intros [b|]; [by apply tri_ret|exact Hloop].
    + intros e m w _ H. exact H.
Qed.
End Late.
