(* ===== verification/CutSafety.v ===== *)
(** * The switch is safe

    Every pass, whatever it finds, wherever it dies and whatever else goes on,
    keeps the invariant and its guarantee; from which what operators rely on:
    no committed write is lost, the journal is the point of no return, and a
    switch that is undone or fails leaves no fence and no pause behind. *)

From S2P Require Import Prelude Prog Ranges CutWorld CutOps Cutover CutLogic CutInv CutSpecs CutPause CutDrain CutSwap CutSteps CutLate.

Local Open Scope Z_scope.

Lemma stepPhase_inv step :
  match stepPhase step with
  | PSequences => step = StepSequences | PJournal => step = StepJournal | PFlip => step = StepFlip
  | PSwap => step = StepSwap | POver => step = StepRelease | PFailed => False | PEarly => True
  end.
Proof.
  unfold stepPhase. repeat match goal with |- context [String.eqb ?a ?b] => destruct (String.eqb_spec a b) end; done.
Qed.

Section Safety.
Context (R : run).
Hypothesis src_tgt : src R ≠ tgt R.
Local Notation Inv := (Inv R).
Local Notation G := (G R).
Local Notation stable := (stable R Inv).
Local Notation tri := (tri R Inv G).
Local Notation env_inv := (env_inv R src_tgt).
Local Notation With_stable := (With_stable R src_tgt).
Local Notation tri_now_bind := (tri_now_bind R Inv G env_inv).
Local Notation tri_pre := (tri_pre R Inv G).
Local Notation tri_calm := (tri_calm R src_tgt).
Local Notation tri_cut_bind := (tri_cut_bind R).
#[local] Hint Extern 0 cutoverOps => exact (pgCutover R) : typeclass_instances.
#[local] Existing Instance Tr_calm.

(** One round from each step. *)
Lemma round_early k step : stepPhase step = PEarly → tri top k (fin R) →
  tri (at_step PEarly) (r ← attempt (runStep R step); afterStep R step r k) (fin R).
Proof.
  intros Hp IH. eapply tri_try_bind; [eapply tri_pre; [|by apply (run_early R src_tgt step)]; intros m w _; apply early_LP|].
  intros r. apply (round_spec R src_tgt k step r _ (With (FreeL R) (factsAt PEarly PEarly))); [..|done].
  - intros e Et. apply (tri_pure _ _ _ _ _ _ (e_retired e = false)).
    { intros m w (_ & Hn & _). destruct r as [[? ?]|?]; cbn in Et, Hn; simplify_eq; done. }
    intros Hr. eapply tri_pre; [|by apply failed_early]. by intros m w _ [? _].
  - destruct (trouble r); [by apply waits_early|]. eapply tri_pre; [|by apply waits_early]. by intros m w _ [? _].
  - intros ->. apply (tri_pure _ _ _ _ _ _ (step ∈ switchSteps)); [by intros m w (_ & _ & H); apply H|]. intros Hin.
    eapply tri_pre; [|by apply done_early]. intros m w _ ([? ?] & _ & Hd). destruct (Hd eq_refl). by parts.
Qed.
Lemma trouble_soft r e : soft_step r → trouble r = Some e → soft e.
Proof. destruct r as [[? [?|]]|?]; cbn; intros ?; by intros [= <-]. Qed.
Lemma round_sequences k : tri top k (fin R) →
  tri (at_step PSequences) (r ← attempt (runStep R StepSequences); afterStep R StepSequences r k) (fin R).
Proof.
  intros IH. eapply tri_try_bind; [by apply run_sequences|]. intros r.
  set (φS m r := factsAt PSequences PSequences m r ∨ factsAt PSequences PEarly m r).
  apply (round_spec R src_tgt k StepSequences r _ (With Tr φS)); [..|done].
  - intros e Et. apply (tri_pure _ _ _ _ _ _ (soft e)); [intros m w [_ ?]; by eapply trouble_soft|]. intros He.
    eapply tri_pre; [|by apply failed_sequences]. by intros m w _ [? _].
  - destruct (trouble r); [by apply waits_sequences|]. eapply tri_pre; [|by apply waits_sequences]. by intros m w _ [? _].
  - intros _. eapply tri_pre; [|by apply done_sequences]. by intros m w _ [? _].
Qed.

(** A late step, whose own specification says when it is done. *)
Lemma round_late k p step (F : world → Prop) (Q : result err (bool * option err) → assertion) `{!Calm R F} :
  is_late p → stepPhase step = p → nextStep step ≠ ""%string →
  (∀ w r, Inv w → phaseOf (wrow w) = p → F w → InvAt R (stepPhase (nextStep step)) (save_to r w)) →
  tri (at_step p) (runStep R step) Q →
  (∀ r m w, Q r m w → at_step p m w ∧ (∀ e, trouble r = Some e → e_fatal e = false ∧ (e_retired e = true → With (lost R) (factsAt p p) m w)) ∧
     (r = Ok (false, None) → F w)) →
  tri top k (fin R) → tri (at_step p) (r ← attempt (runStep R step); afterStep R step r k) (fin R).
Proof.
  intros Hl Hp Hne Hat Hrun HQ IH. eapply tri_try_bind; [exact Hrun|]. intros r.
  apply (round_spec R src_tgt k step r _ (λ _ _, False)); [..|done].
  - intros e Et. apply (tri_pure _ _ _ _ _ _ (e_fatal e = false)); [intros m w H; by apply (HQ r m w H)|]. intros He.
    eapply tri_mono; [| |by apply (failed_late R src_tgt p step e)]; [|done].
    intros m w _ H. destruct (HQ r m w H) as (? & Ht & _). split; [done|]. by apply Ht.
  - destruct (trouble r); [by intros m w _ []|]. eapply tri_pre; [|by apply (waits_late R src_tgt p step)].
    intros m w _ H. by apply (HQ r m w H).
  - intros ->. eapply tri_pre; [|by apply (done_late R src_tgt p step F)]. intros m w _ H. destruct (HQ _ m w H) as ([_ ?] & _ & Hd). by split; auto.
Qed.
Lemma soft_trouble (P : Prop) r : soft_step r → ∀ e, trouble r = Some e → e_fatal e = false ∧ (e_retired e = true → P).
Proof. intros Hs e Et. destruct (trouble_soft r e Hs Et) as [? ->]. done. Qed.
Lemma round_release k : tri top k (fin R) →
  tri (at_step POver) (r ← attempt (runStep R StepRelease); afterStep R StepRelease r k) (fin R).
Proof.
  intros IH. eapply tri_try_bind; [by apply run_release|]. intros r.
  apply (round_spec R src_tgt k StepRelease r _ (λ _ _, False)); [..|done].
  - intros e Et. apply (tri_pure _ _ _ _ _ _ (soft e)); [intros m w [_ ?]; by eapply trouble_soft|]. intros [Hf Hr].
    eapply tri_mono; [| |apply (failed_late R src_tgt POver StepRelease e); [exact (late_over R src_tgt)|done..]]; [|done].
    intros m w _ [? _]. split; [done|]. by rewrite Hr.
  - destruct (trouble r); [by intros m w _ []|]. eapply tri_pre; [|apply (waits_late R src_tgt POver StepRelease); [exact (late_over R src_tgt)|done]].
    by intros m w _ [? _].
  - intros _. eapply tri_pre; [|by apply done_release]. by intros m w _ [? _].
Qed.

Lemma loop_spec fuel : tri top (switchLoop R fuel) (fin R).
Proof.
  induction fuel as [|fuel IH]; cbn [switchLoop]; [apply tri_fail; intros m w _ _; by apply fin_soft|].
  apply tri_cut_bind. intros m0. destruct (String.eqb _ _); [by apply tri_ret|].
  set (step := Step (wf_cutover (wf m0))). apply (tri_pre (at_step (stepPhase step))).
  { intros m w _ (-> & p & HW). pose proof HW as [_ [_ <-]]. exact HW. }
  pose proof (stepPhase_inv step) as Hs. destruct (stepPhase step) eqn:Ep.
  - by apply round_early.
  - rewrite Hs. by apply round_sequences.
  - rewrite Hs. apply (round_late _ PJournal StepJournal Tr (λ r m w, at_step PJournal m w ∧ soft_step r)); [unfold is_late; set_solver|done..| | | |done].
    + intros w r [_ Hat] Hp _. rewrite Hp in Hat. right. split; [apply Hat|]. by intros Hf%Hat.
    + by apply run_journal.
    + intros r m w [? ?]. split_and!; [done|by apply soft_trouble|done].
  - rewrite Hs. apply (round_late _ PFlip StepFlip (λ w, shut R w ∧ caught R w) (flip_post R)); [unfold is_late; set_solver|done..| | | |done].
    + intros w r _ _ H. right. exact H.
    + by apply run_flip.
    + intros r m w H. exact H.
  - rewrite Hs. apply (round_late _ PSwap StepSwap (forward_off R) (swap_post R)); [exact (late_swap R src_tgt)|done..| | | |done].
    + intros w r _ _ H. exact H.
    + by apply run_swap.
    + intros r m w (? & ? & ?). split_and!; [done|by apply soft_trouble|done].
  - done.
  - rewrite Hs. by apply round_release.
Qed.

(** ** The other stages *)

(** Changes of the record in memory that leave the journal's id. *)
Definition E3 (m m' : mem) : Prop :=
  wf_stage (wf m') = wf_stage (wf m) ∧ JournalID (wf_cutover (wf m')) = JournalID (wf_cutover (wf m)).
#[local] Instance E3_preorder : PreOrder E3.
Proof. split; [done|]. intros m1 m2 m3 (A1 & A2) (B1 & B2). split; congruence. Qed.
Lemma calmly_E3 {A} (x : M A) : keeps (calm R) same_wf x → keeps (calm R) E3 x.
Proof. apply keeps_mem. intros m m' E. unfold E3. by rewrite E. Qed.

(** Outside the switch the record stands in a phase, early or over. *)
Definition outside (p : phase) (m : wfmem) (r : wfrow) : Prop :=
  phaseOf r = p ∧ jid m r ∧ r_stage r ≠ StageSwitching ∧ wf_stage m ≠ StageSwitching ∧ wf_stage m ≠ StageFailed ∧
  stagePhase (wf_stage m) "" = p.
#[local] Instance outside_row p : RowFacts (outside p).
Proof. intros m r r' H1 H2. unfold outside, jid, phaseOf. by rewrite H1, H2. Qed.
Local Notation out p := (With Tr (outside p)).
Lemma out_E3 p m m' w : E3 m m' → out p m w → out p m' w.
Proof. intros [A1 A2] [_ (?&?&?&?&?&?)]. split; [done|]. unfold outside, jid. by rewrite A1, A2. Qed.
Lemma tri_E3 {A} p (x : M A) : keeps (calm R) E3 x → tri (out p) x (λ r m w, out p m w ∧ soft_res r).
Proof.
  apply (tri_keeps R Inv G env_inv (calm R) E3); [by apply With_stable; apply _|intros m m' w; apply out_E3|].
  intros m w w' Hi [? ?] Hc. split; [by apply good_calm|]. split; [done|by eapply (calm_facts R (outside p))].
Qed.

Definition still (p : phase) : Prop := p = PEarly ∨ p = POver.
Lemma InvAt_still p w r : still p → InvAt R p w → InvAt R p (save_to r w).
Proof. by intros [->| ->]. Qed.
Lemma stagePhase_other stage step step' : stage ≠ StageSwitching → stagePhase stage step = stagePhase stage step'.
Proof. intros H. unfold stagePhase. by rewrite (proj2 (String.eqb_neq _ _) H). Qed.

Lemma save_out p : still p → tri (out p) (saveCutover R) (λ r m w, match r with Ok _ => True | Err e => soft e end).
Proof.
  intros Hp. eapply tri_post; [|apply (save_tri R src_tgt (out p) (λ _ _, True)); [by apply With_stable; apply _|]].
  { intros [[]|e] m w _; [done|]. by intros [? _]. }
  intros m w Hi [_ (E & Hj & H1 & H2 & H3 & H4)]. split; [|done]. apply (saved_good R (wf m)); [done..| | |done].
  - rewrite (stagePhase_other _ _ "" H2), H4. apply InvAt_still; [done|]. destruct Hi as [_ Hat]. by rewrite E in Hat.
  - done.
Qed.
(** Calm work, then a save. *)
Lemma save_then {A} p (a : A) : still p → tri (out p) (_ ← saveCutover R; mret a) (fin R).
Proof.
  intros Hp. eapply tri_bind; [by apply save_out| |by intros e m w _ ?; apply fin_soft]. intros []. by apply tri_ret.
Qed.
Lemma bind_E3 {A B} p (x : M A) (f : A → M B) :
  keeps (calm R) E3 x → (∀ a, tri (out p) (f a) (fin R)) → tri (out p) (x ≫= f) (fin R).
Proof.
  intros Hx Hf. eapply tri_bind; [by apply tri_E3| |by intros e m w _ [_ ?]; apply fin_soft].
  intros a. eapply tri_pre; [|apply Hf]. by intros m w _ [? _].
Qed.
Lemma stage_out {B} p s (f : () → M B) :
  s ≠ StageSwitching → s ≠ StageFailed → stagePhase s "" = p → tri (out p) (f ()) (fin R) → tri (out p) (setStage s ≫= f) (fin R).
Proof.
  intros H1 H2 H3 Hf. apply tri_modify_bind with (P' := out p); [|done]. intros m w _ [_ (?&?&?&?&?&?)]. by split.
Qed.
Lemma setCut_E3 f : (∀ c, JournalID (f c) = JournalID c) → keeps (calm R) E3 (setCut f).
Proof. intros H. apply keeps_modify. intros m. split; [done|]. apply H. Qed.
Lemma holdAt_E3 point : keeps (calm R) E3 (holdAt point).
Proof.
  unfold holdAt. apply keeps_bind; [apply _|apply cut_keeps; apply _|]. intros c. case_match; [by apply keeps_ret; apply _|].
  apply keeps_bind; [apply _|by apply keeps_now; apply _|]. intros t. by apply setCut_E3.
Qed.

Lemma early_still : still PEarly.
Proof. by left. Qed.
Lemma gate_spec : tri (out PEarly) (gate R) (fin R).
Proof.
  unfold gate. apply bind_E3; [exact (calmly_E3 _ (GateOpen_calm R))|]. intros [open why]. case_match.
  { apply bind_E3; [by apply setCut_E3|]. intros _. apply save_then, early_still. }
  apply tri_get_bind. intros m0. apply (tri_pre (out PEarly)); [by intros m w _ [_ ?]|]. case_match.
  { apply bind_E3; [by apply setCut_E3|]. intros _. apply bind_E3; [apply holdAt_E3|]. intros _. apply save_then, early_still. }
  apply bind_E3; [by apply setCut_E3|]. intros _. apply bind_E3; [by apply setCut_E3|]. intros _.
  apply tri_modify_bind with (P' := λ m w, out PEarly m w ∧ Step (wf_cutover (wf m)) = StepFence); [by intros m w _ [_ (?&?&?&?&?&?)]|].
  apply tri_modify_bind with (P' := λ m w, With Tr (λ m r, phaseOf r = PEarly ∧ jid m r) m w ∧ wf_stage (wf m) = StageSwitching ∧ Step (wf_cutover (wf m)) = StepFence).
  { intros m w _ [[_ (?&?&?&?&?&?)] ?]. by split_and!. }
  assert (RowFacts (λ m r, phaseOf r = PEarly ∧ jid m r)) by (intros m r r' H1 H2; unfold jid, phaseOf; by rewrite H1, H2).
  eapply tri_bind; [apply (save_tri R src_tgt _ (λ _ _, True))| |by intros e m w _ [? _]; apply fin_soft].
  - apply stableA_and; [by apply With_stable; apply _|by apply stableA_mem].
  - intros m w Hi ([_ [Hp Hj]] & Hs & Hst). split; [|done]. apply (saved_good R (wf m)); [done..| | |]; rewrite Hs; [|done..].
    rewrite Hst. destruct Hi as [_ Hat]. rewrite Hp in Hat. exact Hat.
  - intros []. by apply tri_ret.
Qed.

(** ** After the switch *)

Lemma over_still : still POver.
Proof. by right. Qed.
Lemma retire_spec : tri (out POver) (retire R) (fin R).
Proof.
  unfold retire. apply tri_get_bind. intros m0. apply (tri_pre (out POver)); [by intros m w _ [_ ?]|].
  apply bind_E3.
  { case_match; [|by apply keeps_ret; apply _]. apply keeps_bind; [apply _|by apply setCut_E3|]. intros _.
    apply keeps_bind; [apply _|by apply keeps_now; apply _|]. intros t. by apply keeps_ret; apply _. }
  intros []; [apply save_then, over_still|]. case_match.
  { apply bind_E3; [apply holdAt_E3|]. intros _. apply save_then, over_still. }
  apply bind_E3; [by apply setCut_E3|]. intros _. apply stage_out; [done..|]. apply save_then, over_still.
Qed.

Lemma finish_out state : tri (out POver) (finishCutover R state) (λ r m w, match r with Ok _ => True | Err e => soft e end).
Proof.
  apply (finish_tri R src_tgt state); [by apply With_stable; apply _|].
  intros m w Hi [_ (E & Hj & H1 & H2 & H3 & H4)]. apply (saved_good R (wf m)); [done..| | |done].
  - rewrite (stagePhase_other _ _ "" H2), H4. destruct Hi as [_ Hat]. rewrite E in Hat. exact Hat.
  - done.
Qed.
(** The replication objects dropped, and the workflow ended. *)
Lemma complete_spec stage state : stage ≠ StageSwitching → stage ≠ StageFailed → stagePhase stage "" = POver →
  tri (out POver) (_ ← Complete; _ ← setStage stage; _ ← finishCutover R state; mret true) (fin R).
Proof.
  intros H1 H2 H3. eapply tri_bind; [eapply tri_pre; [|exact (tri_tame R src_tgt (outside POver) _ (Complete_tame R))]| |].
  - intros m w _ [_ H]. split; [|done]. right; right. apply H.
  - intros []. apply (tri_pre (out POver)); [by intros m w _ [[_ ?] _]|]. apply stage_out; [done..|].
    eapply tri_bind; [apply finish_out| |by intros e m w _ ?; apply fin_soft]. intros []. by apply tri_ret.
  - intros e m w _ [_ ?]. by apply fin_soft.
Qed.

Definition nofatal {A} (r : result err A) : Prop := match r with Ok _ => True | Err e => e_fatal e = false end.
Lemma soft_nofatal {A} e : soft e → nofatal (Err e : result err A).
Proof. by intros [? _]. Qed.

Local Notation overly x := (reports (over R) same_wf nofatal x).
Lemma over_bind {A B} (x : M A) (f : A → M B) :
  keeps (over R) same_wf x → (∀ a, overly (f a)) → overly (x ≫= f).
Proof. apply reports_bind; [apply _|intros e; apply soft_nofatal]. Qed.
Lemma tame_bind {A B} (x : M A) (f : A → M B) :
  keeps (tame R) same_wf x → (∀ a, overly (f a)) → overly (x ≫= f).
Proof. intros H. apply over_bind. by apply tamely_overly. Qed.
Lemma calm_bind {A B} (x : M A) (f : A → M B) :
  keeps (calm R) same_wf x → (∀ a, overly (f a)) → overly (x ≫= f).
Proof. intros H. apply over_bind. by apply calmly_overly. Qed.

Lemma over_nofatal {A} (x : M A) : keeps (over R) same_wf x → overly x.
Proof. intros H m. eapply within_mono; [|apply H]. intros [[a|e] m'] [? ?]; split; [done..|]. by apply soft_nofatal. Qed.

Lemma flipBack_over : overly (onCat (flipBack R)).
Proof.
  assert (∀ c, row (flipBack R c).2 = row c ∧ nofatal (flipBack R c).1 ∧
    (setState (flipBack R c).2 !! tgt R = Some ShardSetServing → setState c !! tgt R = Some ShardSetServing)) as H.
  { intros c. unfold flipBack, stillSoleServing. repeat case_match; simplify_eq; split_and!; try done. cbn. by rewrite lookup_insert_eq. }
  apply reports_stmt; [apply _|..].
  - intros w. destruct (H (cat w)) as (Er & _ & Hfl). destruct (flipBack R (cat w)) as [r c]. cbn in *.
    constructor; unfold rcut, wrow; cbn; rewrite ?Er; done.
  - intros w. destruct (H (cat w)) as (_ & Hn & _). by destruct (flipBack R (cat w)).
  - intros e (? & ? & ? & _). done.
Qed.
Lemma returnServing_over : overly (returnServing R).
Proof.
  unfold returnServing. apply calm_bind; [apply drainWriters_calm|]. intros _. apply calm_bind; [apply positionsOf_calm|]. intros pos.
  apply calm_bind; [unfold reverseBehind; keeps|]. intros behind. case_match; [by apply reports_fail; [apply _|]|].
  apply calm_bind; [apply syncSequences_calm|]. intros _. apply flipBack_over.
Qed.
Lemma Rollback_over : overly (pg_Rollback R).
Proof.
  unfold pg_Rollback. apply calm_bind; [unfold setIsServing; keeps|]. intros serving. destruct serving.
  { apply tame_bind; [apply pauseSetClaimed_tame|]. intros _. apply over_nofatal, tamely_overly. by apply tamely_onCat. }
  apply calm_bind; [keeps|]. intros applying. case_match; [by apply reports_fail; [apply _|]|].
  apply calm_bind; [unfold schemaDrift, pg_SchemaFingerprints; keeps|]. intros drifted. case_match.
  { apply tame_bind; [by apply tamely_onCat|]. intros _. apply tame_bind; [apply pauseSetClaimed_tame|]. intros _. by apply reports_fail; [apply _|]. }
  apply tame_bind; [by apply tamely_onCat|]. intros _. apply calm_bind; [keeps|]. intros held.
  destruct held; [by apply reports_fail; [apply _|]|]. apply tame_bind; [apply pauseSetClaimed_tame|]. intros _.
  eapply reports_try; [apply _|apply returnServing_over|]. intros [[]|e] Hr.
  - apply over_nofatal, tamely_overly. by apply tamely_onCat.
  - eapply reports_try; [apply _|exact (tamely_overly R _ (pauseSetClaimed_tame R _ _ _))|]. intros _ _. by apply reports_fail; [apply _|].
Qed.

Lemma rollback_spec : tri (out POver) (rollback R) (fin R).
Proof.
  unfold rollback. eapply (tri_try_bind _ _ _ _ _ _ (λ r m w, out POver m w ∧ nofatal r)).
  { apply (tri_reports R Inv G env_inv (over R) same_wf (out POver) nofatal); [by apply With_stable; apply _|..|apply Rollback_over].
    - intros m m' w HE [? ?]. split; [done|]. by rewrite HE.
    - intros m w w' Hi [_ H] Ho. destruct (good_over R w w') as [? ?]; [done|apply H|done|]. split; [done|].
      split; [done|]. by eapply (over_facts R (outside POver)). }
  intros [[]|e].
  { apply (tri_pre (out POver)); [by intros m w _ [? _]|]. by apply complete_spec. }
  apply (tri_pure _ _ _ _ _ _ (e_fatal e = false)); [by intros m w [_ ?]|]. intros Hf.
  apply (tri_pre (out POver)); [by intros m w _ [? _]|]. case_match.
  - apply bind_E3; [by apply setCut_E3|]. intros _. apply bind_E3; [apply cut_keeps; apply _|]. intros c. case_match.
    + apply stage_out; [done..|]. apply bind_E3; [by apply setCut_E3|]. intros _. apply save_then, over_still.
    + apply save_then, over_still.
  - case_match.
    + apply stage_out; [done..|]. apply bind_E3; [by apply setCut_E3|]. intros _. apply save_then, over_still.
    + apply tri_fail. intros m w _ _. cbn. by rewrite Hf.
Qed.

(** ** One pass *)

(** The workflow as it was read. *)
Definition loaded (m : wfmem) (r : wfrow) : Prop := r_stage r = wf_stage m ∧ r_cutover r = wf_cutover m.
#[local] Instance loaded_row : RowFacts loaded.
Proof. intros m r r' H1 H2. unfold loaded. by rewrite H1, H2. Qed.

Lemma loaded_out p m w : With Tr loaded m w → wf_stage (wf m) ≠ StageSwitching → wf_stage (wf m) ≠ StageFailed →
  stagePhase (wf_stage (wf m)) "" = p → out p m w.
Proof.
  intros [_ [H1 H2]] Hs Hf Hp. split; [done|]. split_and!; try done.
  - unfold phaseOf. rewrite H1. by rewrite (stagePhase_other _ _ "" Hs).
  - unfold jid. by rewrite H2.
  - by rewrite H1.
Qed.

Lemma switchWrites_spec : tri (λ m w, With Tr loaded m w ∧ wf_stage (wf m) = StageSwitching) (switchWrites R) (fin R).
Proof.
  unfold switchWrites. apply tri_cut_bind. intros m0.
  assert (∀ m w, With Tr loaded m w → wf_stage (wf m) = StageSwitching → at_step (stepPhase (Step (wf_cutover (wf m)))) m w) as Hat.
  { intros m w [_ [H1 H2]] Hs. split; [done|]. split; [|done]. unfold facts, jid, phaseOf. rewrite H1, H2, Hs. by split_and!. }
  eapply (tri_bind _ _ _ _ _ _ (λ r m w, match r with Ok _ => top m w | Err _ => False end)); [|intros []; apply loop_spec|done].
  destruct (String.eqb_spec (Step (wf_cutover (wf m0))) "") as [E|_].
  - apply (tri_pre (at_step PEarly)); [intros m w _ (-> & HW & Hs); pose proof (Hat _ _ HW Hs) as H; by rewrite E in H|].
    apply tri_now_bind; [by apply With_stable; apply _|]. intros t. apply tri_modify.
    intros m w _ [[_ [((? & ? & ?) & ? & _) _]] _]. exists PEarly. split; [done|]. by split.
  - apply tri_ret. intros m w _ (-> & HW & Hs). eexists. by apply Hat.
Qed.

Lemma cutoverPass_spec : tri (With Tr loaded) (cutoverPass R) (fin R).
Proof.
  unfold cutoverPass. apply tri_get_bind. intros m0.
  assert (∀ p, wf_stage (wf m0) ≠ StageSwitching → wf_stage (wf m0) ≠ StageFailed → stagePhase (wf_stage (wf m0)) "" = p →
    ∀ m w, Inv w → m = m0 ∧ With Tr loaded m w → out p m w) as Hout by (intros p H1 H2 H3 m w _ [-> ?]; by apply loaded_out).
  destruct (String.eqb_spec (wf_stage (wf m0)) StageCatchUpDone) as [E|_].
  { rewrite E in Hout. eapply tri_pre; [by apply (Hout PEarly)|]. case_match; [apply save_then, early_still|].
    apply stage_out; [done..|]. apply save_then, early_still. }
  destruct (String.eqb_spec (wf_stage (wf m0)) StageAwaitingSwitch) as [E|_].
  { rewrite E in Hout. eapply tri_pre; [by apply (Hout PEarly)|]. apply gate_spec. }
  destruct (String.eqb_spec (wf_stage (wf m0)) StageSwitching) as [E|_].
  { eapply tri_pre; [|apply switchWrites_spec]. by intros m w _ [-> ?]. }
  destruct (String.eqb_spec (wf_stage (wf m0)) StageSwitched) as [E|_].
  { rewrite E in Hout. eapply tri_pre; [by apply (Hout POver)|].
    apply bind_E3; [unfold when; case_match; [by apply setCut_E3|by apply keeps_ret; apply _]|]. intros _.
    apply bind_E3; [apply cut_keeps; apply _|]. intros c. case_match; [|apply retire_spec].
    apply stage_out; [done..|]. apply save_then, over_still. }
  destruct (String.eqb_spec (wf_stage (wf m0)) StageRollingBack) as [E|_].
  { rewrite E in Hout. eapply tri_pre; [by apply (Hout POver)|]. apply rollback_spec. }
  destruct (String.eqb_spec (wf_stage (wf m0)) StageCompleting) as [E|_].
  { rewrite E in Hout. eapply tri_pre; [by apply (Hout POver)|]. by apply complete_spec. }
  by apply tri_ret.
Qed.

Lemma failing_stable : stable (λ _ w, failing R w).
Proof.
  intros m w w' He Hi (H1 & H2 & H3 & H4). apply env_is_calm in He as Hc; [|done].
  split_and!; [by eapply calm_FreeL|by rewrite (ce_stage _ _ _ Hc)|by eapply env_unfenced|by eapply calm_unpaused].
Qed.
(** Only subscriptions go. *)
Definition subs_only (w w' : world) : Prop := leashed R w w' ∧ cat w' = cat w ∧ shards w' = shards w.
Lemma dropReplication_subs : keeps subs_only same_wf (dropReplication R).
Proof.
  assert (∀ w, subs_only w w) as Hrefl by (intros w; split; [apply calm_leashed, calm_refl|done]).
  assert (∀ w w', tame R w w' → cat w' = cat w → shards w' = shards w → subs_only w w') as Ht
    by (intros w w' H1 H2 H3; split; [split; [done|unfold claimed; by rewrite H2, H3]|done]).
  unfold dropReplication, readRun. apply keeps_bind; [apply _|by apply keeps_ask; [apply _|..]|intros _].
  apply keeps_bind; [apply _| |intros _].
  all: apply keeps_forM; [apply _|intros ?]; apply keeps_forM; [apply _|intros ?]; apply keeps_try; [apply _| |intros _ _; by apply keeps_ret; apply _].
  - apply dropRevSubs_keeps; [done|]. intros w f. unfold onBwd. destruct (f (bwd w)). split; [|done].
    apply calm_leashed. by apply calm_eq.
  - apply dropFwdSubs_keeps; [done|intros w k..]; (apply Ht; [first [apply disable_tame|apply dropSub_tame]|..]).
    all: unfold onFwd, alterSub, dropSub; by case_match.
Qed.
Lemma failWorkflow_spec : tri (λ _ w, failing R w) (failWorkflow R) (λ _ _ _, True).
Proof.
  unfold failWorkflow. eapply (tri_try_bind _ _ _ _ _ _ (λ _ _ w, failing R w)).
  - eapply tri_post; [|apply (tri_keeps R Inv G env_inv subs_only same_wf (λ _ w, failing R w)); [apply failing_stable|done| |apply dropReplication_subs]].
    + by intros r m w _ [? _].
    + intros m w w' Hi (H1 & H2 & H3 & H4) (Hl & Ec & Es). destruct (good_leashed R w w') as [? ?]; [done..|].
      split; [done|]. unfold failing, wrow, unfenced, unpaused. rewrite Ec, Es. done.
  - intros _. apply tri_get_bind. intros m0.
    apply (tri_stmt R Inv G env_inv); [intros m w w' He Hi [? ?]; split; [done|by eapply (failing_stable m w w')]|].
    intros m w Hi [_ (H1 & H2 & H3 & H4)]. split; [|done]. unfold failRow. destruct (owned R _ _); cbn [fst snd].
    + apply (good_save R {| (wrow w) with r_state := StateFailed; r_stage := StageFailed |}); [done| | | | |].
      * left. exact (proj1 (FreeL_early R w Hi H1)).
      * intros Hf [Hn|Ho]; [done|]. exact (Inv_nothing_lost R w Hi Ho Hf).
      * done.
      * intros _ _. split; [exact H3|]. left. exact H4.
      * done.
    + replace {| w with cat := cat w |} with w by (by destruct w). split; [done|by apply G_refl].
Qed.

Lemma driveCutover_spec : tri (With Tr loaded) (driveCutover R) (fin R).
Proof.
  assert (keeps (calm R) same_wf readRun) as Hread by (by apply keeps_ask_calm).
  assert (∀ (x : M ()) (k : M bool), keeps (calm R) same_wf x → tri (With Tr loaded) k (fin R) → tri (With Tr loaded) (_ ← x; k) (fin R)) as Hseq.
  { intros x k Hx Hk. eapply tri_bind; [exact (tri_calm Tr loaded _ Hx)| |].
    - intros []. eapply tri_pre; [|exact Hk]. by intros m w _ [? _].
    - intros e m w _ [_ ?]. by apply fin_soft. }
  unfold driveCutover. apply Hseq; [apply holdClaim_calm|]. do 2 (apply Hseq; [done|]). apply cutoverPass_spec.
Qed.
Lemma driveWorkflow_spec : tri (With Tr loaded) (driveWorkflow R) (λ _ _ _, True).
Proof.
  unfold driveWorkflow. eapply tri_bind; [exact (tri_calm Tr loaded _ (claimWorkflow_calm R))| |done].
  intros []; cbn [negb]; [|by apply tri_ret]. eapply (tri_try_bind _ _ _ _ _ _ (fin R)).
  - eapply tri_pre; [|apply driveCutover_spec]. by intros m w _ [? _].
  - intros [b|e]; [by apply tri_ret|]. case_match; [by apply tri_ret|]. destruct (e_fatal e) eqn:E.
    + eapply tri_pre; [|apply failWorkflow_spec]. intros m w _ H'. by apply H'.
    + assert (RowFacts (λ _ _, True)) by done. eapply tri_mono; [| |exact (tri_calm Tr (λ _ _, True) _ (saveMessage_calm R))]; done.
Qed.

(** Every pass is safe from every world of the invariant. *)
Lemma pass_safe w : Inv w → wp R Inv G (Pass R) w (λ _ _, True).
Proof.
  intros _ w1 _ Hi. cbn. split; [split; [done|by apply G_refl]|]. split; [|done].
  case_match; [|done]. apply wp_bind. eapply wp_mono; [|apply (driveWorkflow_spec (load (row (cat w1))) w1 Hi)]; [|by split].
  by intros [r m] w' _.
Qed.

(** ** What a switch guarantees *)

Local Notation step := (sys_step R (Pass R)).

(** A world before the switch: the copy is done, the targets do not serve, no
    source is paused. *)
Record fresh (w : world) : Prop := {
  fr_sane : sane R w;
  fr_stage : r_stage (wrow w) = StageCatchUpDone ∨ r_stage (wrow w) = StageAwaitingSwitch;
  fr_target : ¬ flipped R w;
  fr_pause : ∀ s sh, s ∈ srcIDs R → shards w !! (src R, s) = Some sh → conf sh = false }.

Lemma fresh_inv w : fresh w → Inv w.
Proof.
  intros [Hs Hst Hf Hp]. split; [done|]. assert (phaseOf (wrow w) = PEarly) as -> by (unfold phaseOf; by destruct Hst as [-> | ->]).
  split; [done|]. intros s sh Hin Hsh Hc. by rewrite (Hp s sh Hin Hsh) in Hc.
Qed.
Lemma run_guarantee w0 st st' : fresh w0 → rtc step (w0, None) st → step st st' → G st.1 st'.1.
Proof.
  intros Hf Hr. eapply (reach_guar (env R) Inv G env_inv (env_guar R src_tgt) (G_refl R) (tick_env R) (Pass R) pass_safe); [done|].
  split; [by apply fresh_inv|done].
Qed.
End Safety.

(** C4. No committed write is lost to a switch that nobody breaks into.
    However the passes of the controller are cut short, fail or are repeated,
    and whatever clients and apply workers do in between, other workflows to
    their own sets, fences and locks, and the operator to the workflow's row: at
    the step that publishes the targets, and at every step from then until the
    last forward subscription is off, the last one included, every source is
    shut (it is paused under this run's claim, and neither a transaction open
    on it nor a prepared one can commit) and every target holds everything
    the sources ever committed, the two-phase commits included.  The exception
    is a run in which somebody other than the driving replica set or lifted the
    pause of a source (by hand, by a sweep, by promoting a standby), changed the
    claim on it, or began a transaction there that is read write against the
    paused default. *)
Theorem cutover_loses_no_write R w0 tr st st' :
  src R ≠ tgt R → fresh R w0 →
  path (Prog.sys_step (env_open R) (@Pass R (pgCutover R))) (w0, None) tr st → Prog.sys_step (env_open R) (@Pass R (pgCutover R)) st st' →
  flipped R st'.1 → ¬ flipped R st.1 ∨ ¬ forward_off R st.1 →
  (∀ s, s ∈ srcIDs R →
    (∃ sh at_, shards st'.1 !! (src R, s) = Some sh ∧ closed sh ∧ claims (cat st'.1) !! (src R, s) = Some (wid R, Some at_)) ∧
    ∀ t db, t ∈ tgtIDs R → db ∈ dbs R →
      ∃ sh u, shards st'.1 !! (src R, s) = Some sh ∧ fwd st'.1 !! (s, t, db) = Some u ∧
        committed sh ≤ applied u ∧ committedPrepared sh ≤ applied u) ∨
  occurs (outsider (intrudes R)) (w0, None) (tr ++ [st']).
Proof.
  intros Hne Hf Hr Hst Hfl Hor.
  destruct (path_split _ _ _ _ _ _ (sys_step_or_outsider (env R) (intrudes R) _) Hr) as [Hr'%path_rtc|]; [|right; by apply occurs_app_l].
  destruct (sys_step_or_outsider (env R) (intrudes R) _ _ _ Hst) as [Hst'|]; [|right; eapply occurs_app_r; [exact Hr|by left]].
  left. intros s Hs. destruct (run_guarantee R Hne w0 st st' Hf Hr' Hst') as (H & _).
  destruct (H Hfl Hor) as [H1 H2]. split; [by apply H1|]. by apply H2.
Qed.
(** The exceptions are no steps of the run or of its environment. *)
Lemma outsider_foreign R st st' : Prog.sys_step (env R) (@Pass R (pgCutover R)) st st' → ¬ outsider (intrudes R) st st'.
Proof. apply sys_no_outsider, cut_no_intruder. Qed.

(** A switch that is undone leaves nothing behind, and only one that has
    no journal is: at the step that takes a switching workflow back to its
    gate no journal was ever on record, this run holds no write fence, and no
    source is paused or carries its claim. *)
Theorem undone_switch_leaves_nothing R w0 st st' :
  src R ≠ tgt R → fresh R w0 →
  rtc (sys_step R (@Pass R (pgCutover R))) (w0, None) st → sys_step R (@Pass R (pgCutover R)) st st' →
  r_stage (wrow st.1) = StageSwitching → r_stage (wrow st'.1) = StageAwaitingSwitch →
  JournalID (rcut st.1) = ""%string ∧ migrating (cat st'.1) !! src R ≠ Some (wid R) ∧
  ∀ s sh, s ∈ srcIDs R → shards st'.1 !! (src R, s) = Some sh → conf sh = false ∧ ours R (cat st'.1) (src R, s) = false.
Proof.
  intros Hne Hf Hr Hst E1 E2. destruct (run_guarantee R Hne w0 st st' Hf Hr Hst) as (_ & H & _).
  destruct (H E2 E1) as (? & ? & ?). by split_and!.
Qed.

(** C29. A workflow that fails is no longer in the way: at the step that fails
    it the run holds no write fence, and no source is paused or carries its
    claim, unless another workflow retired the sources first and the run's
    targets never served. *)
Theorem failed_switch_releases R w0 st st' :
  src R ≠ tgt R → fresh R w0 →
  rtc (sys_step R (@Pass R (pgCutover R))) (w0, None) st → sys_step R (@Pass R (pgCutover R)) st st' →
  r_stage (wrow st.1) ≠ StageFailed → r_stage (wrow st'.1) = StageFailed →
  migrating (cat st'.1) !! src R ≠ Some (wid R) ∧
  ((∀ s sh, s ∈ srcIDs R → shards st'.1 !! (src R, s) = Some sh → conf sh = false ∧ ours R (cat st'.1) (src R, s) = false) ∨
   setState (cat st.1) !! src R ≠ Some ShardSetServing ∧ setState (cat st.1) !! tgt R ≠ Some ShardSetServing).
Proof.
  intros Hne Hf Hr Hst E1 E2. destruct (run_guarantee R Hne w0 st st' Hf Hr Hst) as (_ & _ & H & _).
  by destruct (H E2 E1).
Qed.

(** The journal is the point of no return: once its id is on record no
    pass, crashed or resumed, replaces or removes it. *)
Theorem journal_is_kept R w0 st st' :
  src R ≠ tgt R → fresh R w0 →
  rtc (sys_step R (@Pass R (pgCutover R))) (w0, None) st → rtc (sys_step R (@Pass R (pgCutover R))) st st' →
  JournalID (rcut st.1) ≠ ""%string → JournalID (rcut st'.1) = JournalID (rcut st.1).
Proof.
  intros Hne Hf Hr Hst. induction Hst as [|s1 s2 s3 H12 H23 IH]; [done|]. intros Hj.
  destruct (run_guarantee R Hne w0 s1 s2 Hf Hr H12) as (_ & _ & _ & Hk). rewrite <- (Hk Hj).
  apply IH; [by eapply rtc_r|]. by rewrite (Hk Hj).
Qed.
