(* ===== verification/CutRun.v ===== *)
(** * Cutovers, run

    Schedules of a reshard of two shards into one: a scheduler for
    [sys_step] that is executable, so that whole switches evaluate, with the
    failures and the interleavings each of the statements below asks for. *)

From S2P Require Import Prelude Prog Ranges Sequences CutWorld CutOps Cutover CutLogic CutInv CutSafety.

Local Open Scope Z_scope.

(** ** A scheduler *)

(** What a client or the server does on a shard. *)
Inductive shard_act := ABegin (pid : Z) (db : string) | AWrite (pid : Z) | ACommit (pid : Z) | APrepare (pid : Z) (gid : string)
  | ACommitPrepared (gid : string) | AReload.

(** The next thing to happen: the pass starts, its next statement answers,
    fails before or after taking effect, it dies; a shard moves; a forward
    subscription, or one of the way back, applies all its publisher has. *)
Inductive act := AStart | AOk | ALost (after : bool) | ACrash | AShard (k : string * Z) (a : shard_act)
  | AFwd (s t : Z) (db : string) | ABwd (s t : Z) (db : string) | AClock (n : Z) | AAsk (sp : cutoverSpec).

Definition shard_act_step (a : shard_act) (s : shard) : option shard :=
  match a with
  | ABegin pid db => match xacts s !! pid with
      | None => Some {| s with sclock := sclock s + 1; xacts := <[pid := mkXact db (sclock s) (negb (setting s)) false false]> (xacts s) |}
      | Some _ => None end
  | AWrite pid => match xacts s !! pid with
      | Some x => if x_rw x then Some {| s with xacts := <[pid := {| x with x_xid := true; x_temp := false |}]> (xacts s) |} else None
      | None => None end
  | ACommit pid => match xacts s !! pid with Some x => Some (commit pid x s) | None => None end
  | APrepare pid gid => match xacts s !! pid with
      | Some x => if writes x && negb (bool_decide (gid ∈ prep s))
                  then Some {| s with wal := wal s + 1; xacts := delete pid (xacts s); prep := prep s ++ [gid] |} else None
      | None => None end
  | ACommitPrepared gid => if bool_decide (gid ∈ prep s)
      then Some {| s with wal := wal s + 1; committedPrepared := wal s + 1; prep := filter (λ g, g ≠ gid) (prep s) |} else None
  | AReload => Some {| s with setting := conf s |}
  end.
Lemma shard_act_sound a s s' : shard_act_step a s = Some s' → shard_step s s'.
Proof.
  destruct a as [pid db|pid|pid|pid gid|gid|]; cbn; try destruct (xacts s !! pid) as [x|] eqn:E; try done.
  - intros [= <-]. by apply sh_begin.
  - destruct (x_rw x) eqn:Erw; [|done]. intros [= <-]. pose proof (sh_write s pid x E Erw) as H. by rewrite Erw in H.
  - intros [= <-]. by apply sh_commit.
  - destruct (writes x) eqn:Ew; [|done]. cbn. case_bool_decide; [done|]. intros [= <-]. by eapply sh_prepare.
  - case_bool_decide; [|done]. intros [= <-]. by apply sh_commit_prepared.
  - intros [= <-]. apply sh_reload.
Qed.

(** A subscription that applies and confirms its publisher's whole log. *)
Definition catches_up (upto : Z) (u : sub) : option sub :=
  match slot u with
  | Some v => if enabled u && (applied u <=? upto) && (v <=? upto) then Some {| u with applied := upto; slot := Some upto |} else None
  | None => None
  end.

Section Schedule.
Context (R : run) (pass : prog ()).
Local Notation state := (world * option (prog ()))%type.

Definition errLost : err := plainf "the connection was lost".
Definition act_step (a : act) (st : state) : option state :=
  let '(w, p) := st in
  match a, p with
  | AStart, None => Some (w, Some pass)
  | AOk, Some (Stmt f k) => Some ((f w).2, Some (k (f w).1))
  | AOk, Some (Clock d k) => Some ({| w with clock := clock w + Z.max 0 d |}, Some (k (clock w + Z.max 0 d)))
  | AOk, Some (Ret tt) => Some (w, None)
  | AOk, None => Some (w, None)
  | ALost after, Some (Stmt f k) => Some (if after : bool then (f w).2 else w, Some (k (Err errLost)))
  | ACrash, Some _ => Some (w, None)
  | AShard k a, _ => s ← shards w !! k; s' ← shard_act_step a s; Some ({| w with shards := <[k := s']> (shards w) |}, p)
  | AFwd s t db, _ =>
      u ← fwd w !! (s, t, db); sh ← shards w !! (src R, s); u' ← catches_up (wal sh) u;
      Some ({| w with fwd := <[(s, t, db) := u']> (fwd w) |}, p)
  | ABwd s t db, _ =>
      u ← bwd w !! (s, t, db); sh ← shards w !! (tgt R, t); u' ← catches_up (wal sh) u;
      Some ({| w with bwd := <[(s, t, db) := u']> (bwd w) |}, p)
  | AClock n, _ => if 0 <=? n then Some ({| w with clock := clock w + n |}, p) else None
  | AAsk sp, _ => Some ({| w with cat := {| (cat w) with row := {| (row (cat w)) with r_spec := sp |} |} |}, p)
  | _, _ => None
  end.
(** An act that is not possible is passed over. *)
Definition acts (l : list act) (st : state) : state := fold_left (λ st a, default st (act_step a st)) l st.

Lemma catches_up_sound (upd : sub → world → world) upto u u' w :
  catches_up upto u = Some u' →
  (∀ u1, sub_step upto u u1 → env R w (upd u1 w)) →
  (∀ u1 u2, sub_step upto u1 u2 → env R (upd u1 w) (upd u2 w)) → rtc (env R) w (upd u' w).
Proof.
  unfold catches_up. destruct (slot u) as [v|] eqn:Es; [|done]. case_match eqn:E; [|done]. intros [= <-] H1 H2.
  apply andb_prop in E as [[Ee Ea]%andb_prop Ev]. apply Z.leb_le in Ea, Ev.
  eapply rtc_l; [apply (H1 {| u with applied := upto |}); by apply sub_apply|].
  apply rtc_once, H2. by apply (sub_confirm upto {| u with applied := upto |} upto v).
Qed.
Lemma envs_sys w w' p : rtc (env R) w w' → rtc (sys_step R pass) (w, p) (w', p).
Proof. induction 1 as [|w1 w2 w3 He _ IH]; [done|]. eapply rtc_l; [by apply sys_env|done]. Qed.

Lemma act_sound a st st' : act_step a st = Some st' → rtc (sys_step R pass) st st'.
Proof.
  destruct st as [w p]. destruct a as [| |after| |k a|s t db|s t db|n|sp]; cbn.
  - destruct p; intros [= <-]. apply rtc_once, sys_start.
  - destruct p as [[[]|X f k|d k]|]; intros [= <-]; [apply rtc_once, sys_done|..|done].
    + apply rtc_once, sys_prog. by left.
    + by apply rtc_once, sys_prog.
  - destruct p as [[[]|X f k|d k]|]; intros [= <-]. apply rtc_once, sys_prog. right. exists errLost. split; [done|]. split; [done|].
    destruct after; auto.
  - destruct p; intros [= <-]. apply rtc_once, sys_crash.
  - intros (s & Hs & (s' & Ha & [= <-])%bind_Some)%bind_Some. apply envs_sys, rtc_once. eapply env_shard; [done|by eapply shard_act_sound].
  - intros (u & Hu & (sh & Hsh & (u' & Hc & [= <-])%bind_Some)%bind_Some)%bind_Some. apply envs_sys.
    apply (catches_up_sound (λ u' w, {| w with fwd := <[(s, t, db) := u']> (fwd w) |}) _ _ _ _ Hc).
    + intros u1 Hu1. by eapply env_fwd.
    + intros u1 u2 H12.
      pose proof (env_fwd R {| w with fwd := <[(s, t, db) := u1]> (fwd w) |} s t db u1 u2 sh) as He. cbn in He.
      rewrite insert_insert_eq, lookup_insert_eq in He. by apply He.
  - intros (u & Hu & (sh & Hsh & (u' & Hc & [= <-])%bind_Some)%bind_Some)%bind_Some. apply envs_sys.
    apply (catches_up_sound (λ u' w, {| w with bwd := <[(s, t, db) := u']> (bwd w) |}) _ _ _ _ Hc).
    + intros u1 Hu1. by eapply env_rev.
    + intros u1 u2 H12.
      pose proof (env_rev R {| w with bwd := <[(s, t, db) := u1]> (bwd w) |} s t db u1 u2 sh) as He. cbn in He.
      rewrite insert_insert_eq, lookup_insert_eq in He. by apply He.
  - case_match; intros [= <-]. apply envs_sys, rtc_once, env_clock. lia.
  - intros [= <-]. apply envs_sys, rtc_once, env_operator, op_spec.
Qed.
Lemma acts_sound l st : rtc (sys_step R pass) st (acts l st).
Proof.
  revert st. induction l as [|a l IH]; intros st; cbn; [done|]. etrans; [|apply IH].
  destruct (act_step a st) as [st'|] eqn:E; [by eapply act_sound|done].
Qed.
Lemma answer_sound w p st' : act_step AOk (w, Some p) = Some st' → sys_step R pass (w, Some p) st'.
Proof.
  destruct p as [[]|X f k|d k]; intros [= <-]; [apply sys_done|..]; apply sys_prog; [by left|done].
Qed.
End Schedule.

(** ** A reshard of two shards into one *)

Definition ranges (n : Z) : list Range := match Split n with Ok l => l | Err _ => [] end.
Definition R0 : run := mkRun "w1" "r1" "blue" [1; 2] (ranges 2) "green" [1] (ranges 1) ["app"%string] 1000 0 0.

Definition idle_shard (log : Z) : shard := mkShard false false 0 log (log - 1) 0 ∅ [] ∅.
Definition quiet : oracle :=
  mkOracle (mkProgress 2 4 4 0 0 0) (λ _, []) [] (λ _, ["orders"%string]) (mkVerify 1 10 []) (λ _, "5eed"%string) (λ _, []) [] "j1" false [] []
    [("blue"%string, 1); ("blue"%string, 2); ("green"%string, 1)] [].
Definition cut0 : cutoverState :=
  mkCutover "" "" 0 None ∅ "" None None None 0 0 None None None "" "" 0 "" None None 0 None [].
Definition spec0 : cutoverSpec := mkSpec "" [] 0 (Some 0) false.
Definition row0 : wfrow := mkRow StateRunning StageCatchUpDone cut0 spec0 false "r1".
Definition cat0 : catalog :=
  mkCat {["blue"%string := ShardSetServing; "green"%string := "building"%string]} ∅ ∅ ∅ ∅ {["blue"%string]} {["app"%string := 1]} 7 ∅ row0.
Definition w0 : world :=
  mkWorld cat0 (list_to_map [(("blue"%string, 1), idle_shard 10); (("blue"%string, 2), idle_shard 20); (("green"%string, 1), idle_shard 5)])
    (list_to_map [((1, 1, "app"%string), mkSub true 9 (Some 9)); ((2, 1, "app"%string), mkSub true 19 (Some 19))]) ∅ ∅ 100 quiet.

(** The rest of the world keeps up: configurations are reloaded, and every
    subscription catches up. *)
Definition settle : list act :=
  [AShard ("blue"%string, 1) AReload; AShard ("blue"%string, 2) AReload; AShard ("green"%string, 1) AReload;
   AFwd 1 1 "app"; AFwd 2 1 "app"; ABwd 1 1 "app"; ABwd 2 1 "app"].
Definition rounds (n : nat) : list act := concat (replicate n (AOk :: settle)).
Definition a_pass : list act := AStart :: rounds 200.
Definition runs_from (w : world) (l : list act) : world * option (prog ()) := acts R0 (@Pass R0 (pgCutover R0)) l (w, None).
Definition runs : list act → world * option (prog ()) := runs_from w0.
(** Two passes bring the workflow to the switch. *)
Definition to_switch : list act := a_pass ++ a_pass.

#[local] Instance flipped_dec w : Decision (flipped R0 w) := decide (setState (cat w) !! tgt R0 = Some ShardSetServing).

Definition running (st : world * option (prog ())) : bool := match st.2 with Some _ => true | None => false end.
Lemma answers w l : running (runs_from w l) = true →
  sys_step R0 (@Pass R0 (pgCutover R0)) (runs_from w l) (runs_from w (l ++ [AOk])).
Proof.
  unfold runs_from, acts. rewrite fold_left_app. generalize (fold_left (λ st a, default st (act_step R0 (@Pass R0 (pgCutover R0)) a st)) l (w, None)).
  intros [w1 [p|]]; [|done]. intros _. apply (answer_sound R0). by destruct p as [[]|X f k|d k].
Qed.

Lemma w0_shards k sh : shards w0 !! k = Some sh → ∃ log, sh = idle_shard log ∧ 0 ≤ log.
Proof.
  intros H%elem_of_list_to_map_2. repeat (apply elem_of_cons in H as [[= -> ->]|H]); [eexists; split; [reflexivity|done]..|].
  by apply elem_of_nil in H.
Qed.
Lemma fresh_w0 o : fresh R0 {| w0 with seen := o |}.
Proof.
  constructor; [split_and!| |done|].
  - intros s Hs. cbn in Hs. repeat (apply elem_of_cons in Hs as [->|Hs]); [by eexists..|]. by apply elem_of_nil in Hs.
  - intros k sh (log & -> & ?)%w0_shards. unfold sane_shard. cbn. split_and!; try lia. intros pid x Hx. by rewrite lookup_empty in Hx.
  - intros k u v H%elem_of_list_to_map_2 Hv. repeat (apply elem_of_cons in H as [[= -> ->]|H]); [injection Hv as <-; done..|].
    by apply elem_of_nil in H.
  - by left.
  - intros s sh _ (log & -> & _)%w0_shards. done.
Qed.

(** The statement of a switch that publishes the targets. *)
Definition to_flip : list act := to_switch ++ AStart :: rounds 97.
Lemma env_opens R pass st st' : sys_step R pass st st' → Prog.sys_step (env_open R) pass st st'.
Proof. intros [w w' p He|w|w w' p p' Hs|w|w p]; constructor; [by left|done]. Qed.
Lemma to_flip_path : ∃ tr, path (Prog.sys_step (env_open R0) (@Pass R0 (pgCutover R0))) (w0, None) tr (runs to_flip).
Proof. apply rtc_path. eapply rtc_subrel; [apply env_opens|apply acts_sound]. Qed.
Lemma cutover_loses_no_write_witness : ∃ tr,
  path (Prog.sys_step (env_open R0) (@Pass R0 (pgCutover R0))) (w0, None) tr (runs to_flip) ∧ flipped R0 (runs (to_flip ++ [AOk])).1 ∧
  ((∃ sh u, shards (runs (to_flip ++ [AOk])).1 !! ("blue"%string, 2) = Some sh ∧ fwd (runs (to_flip ++ [AOk])).1 !! (2, 1, "app"%string) = Some u ∧
    committed sh ≤ applied u ∧ committedPrepared sh ≤ applied u) ∨
   occurs (outsider (intrudes R0)) (w0, None) (tr ++ [runs (to_flip ++ [AOk])])).
Proof.
  assert (flipped R0 (runs (to_flip ++ [AOk])).1) as Hf by (vm_compute; reflexivity).
  destruct to_flip_path as [tr Hr]. exists tr. split; [exact Hr|]. split; [exact Hf|].
  edestruct (cutover_loses_no_write R0 w0 tr (runs to_flip) (runs (to_flip ++ [AOk]))) as [H|H]; [done|apply (fresh_w0 quiet)|exact Hr| |exact Hf| | |right; exact H].
  - apply env_opens, answers. vm_compute. reflexivity.
  - left. vm_compute. done.
  - left. destruct (H 2) as [_ H2]; [by right; left|]. apply H2; by left.
Defined.

(** A switch whose fence stood over the limit while it verified. *)
Definition to_undo : list act := to_switch ++ AStart :: rounds 42 ++ AClock (61 * Second) :: rounds 9.
Lemma undone_switch_leaves_nothing_witness :
  r_stage (wrow (runs (to_undo ++ [AOk])).1) = StageAwaitingSwitch ∧ migrating (cat (runs (to_undo ++ [AOk])).1) !! src R0 ≠ Some (wid R0).
Proof.
  assert (r_stage (wrow (runs (to_undo ++ [AOk])).1) = StageAwaitingSwitch) as E by (vm_compute; reflexivity). split; [done|].
  apply (undone_switch_leaves_nothing R0 w0 (runs to_undo) (runs (to_undo ++ [AOk]))); [done|apply (fresh_w0 quiet)|apply acts_sound| |..|done].
  - apply answers. vm_compute. reflexivity.
  - vm_compute. reflexivity.
Defined.

(** A switch whose digests disagree twice. *)
Definition disagree : world := {| w0 with seen := {| quiet with o_verify := mkVerify 1 10 ["orders"%string] |} |}.
Definition to_failure : list act := to_switch ++ a_pass ++ AStart :: rounds 20.
Lemma failed_switch_releases_witness :
  r_stage (wrow (runs_from disagree (to_failure ++ [AOk])).1) = StageFailed ∧
  migrating (cat (runs_from disagree (to_failure ++ [AOk])).1) !! src R0 ≠ Some (wid R0).
Proof.
  assert (r_stage (wrow (runs_from disagree (to_failure ++ [AOk])).1) = StageFailed) as E by (vm_compute; reflexivity). split; [done|].
  apply (failed_switch_releases R0 disagree (runs_from disagree to_failure) (runs_from disagree (to_failure ++ [AOk]))); [done|apply fresh_w0|apply acts_sound| |..|done].
  - apply answers. vm_compute. reflexivity.
  - vm_compute. done.
Defined.

Lemma journal_is_kept_witness :
  JournalID (rcut (runs (to_switch ++ AStart :: rounds 82)).1) = "j1"%string ∧
  JournalID (rcut (acts R0 (@Pass R0 (pgCutover R0)) (ACrash :: a_pass ++ a_pass) (runs (to_switch ++ AStart :: rounds 82))).1) = "j1"%string.
Proof.
  assert (JournalID (rcut (runs (to_switch ++ AStart :: rounds 82)).1) = "j1"%string) as E by (vm_compute; reflexivity). split; [done|].
  rewrite <- E.
  apply (journal_is_kept R0 w0 (runs (to_switch ++ AStart :: rounds 82))); [done|apply (fresh_w0 quiet)|apply acts_sound|apply acts_sound|].
  by rewrite E.
Defined.

(** ** What a switch and a rollback do not wait for *)

Definition reaches : world * option (prog ()) → world * option (prog ()) → Prop := rtc (sys_step R0 (@Pass R0 (pgCutover R0))).

(** A switch that stands at the flip, its journal written, when somebody
    lifts the pause of the sources by hand. *)
Definition lifted : world :=
  let w := (runs (to_switch ++ AStart :: rounds 87 ++ [ACrash])).1 in
  {| w with shards := (λ sh, {| sh with conf := false; setting := false |}) <$> shards w; cat := {| (cat w) with claims := ∅ |} |}.
Definition on_blue (a : shard_act) : act := AShard ("blue"%string, 1) a.
Definition on_green (a : shard_act) : act := AShard ("green"%string, 1) a.
(** A transaction is prepared on a source; the next pass quiesces again and
    dies between its drain and its look at the prepared transactions; the pass
    after that finds a pause that stands; the prepared transaction commits. *)
Definition crashed_requiesce : list act :=
  [on_blue (ABegin 7 "app"); on_blue (AWrite 7); on_blue (APrepare 7 "g")] ++ AStart :: rounds 22 ++ ACrash :: a_pass ++
  on_blue (ACommitPrepared "g") :: settle.

(** A pass that quiesces again at the flip and dies before it has looked
    for prepared transactions leaves a pause the next pass takes for one that
    stood, and that pass waits for open transactions only: it publishes the
    targets and turns forward replication off with a transaction still
    prepared on a source, whose commit the targets never see. *)
Theorem requiesce_forgets_prepared :
  ∃ st, reaches (lifted, None) st ∧ r_stage (wrow st.1) = StageSwitched ∧ flipped R0 st.1 ∧
    ∃ sh u, shards st.1 !! ("blue"%string, 1) = Some sh ∧ fwd st.1 !! (1, 1, "app"%string) = Some u ∧
      enabled u = false ∧ applied u < committedPrepared sh.
Proof.
  exists (runs_from lifted crashed_requiesce). split; [apply acts_sound|]. split; [vm_compute; reflexivity|]. split; [vm_compute; reflexivity|].
  eexists _, _. split; [vm_compute; reflexivity|]. split; [vm_compute; reflexivity|]. split; reflexivity.
Qed.

Definition ask_rollback : cutoverSpec := mkSpec "" [] 0 (Some 100000000) true.
Definition switched : list act := to_switch ++ a_pass.
Definition prepared_rollback : list act :=
  switched ++ [on_green (ABegin 7 "app"); on_green (AWrite 7); on_green (APrepare 7 "g")] ++ AAsk ask_rollback :: a_pass ++ a_pass.

(** A rollback does not look for prepared transactions on the targets it
    leaves: it ends rolled back, with no replication in either direction, while
    a transaction is still prepared on a target, and its commit, decided
    before, lands there and nowhere else. *)
Theorem rollback_forgets_prepared :
  ∃ st st', reaches (w0, None) st ∧ reaches st st' ∧
    r_stage (wrow st.1) = StageRolledBack ∧ setState (cat st.1) !! "blue"%string = Some ShardSetServing ∧ bwd st.1 = ∅ ∧ bwd st'.1 = ∅ ∧
    ∃ sh sh', shards st.1 !! ("green"%string, 1) = Some sh ∧ shards st'.1 !! ("green"%string, 1) = Some sh' ∧
      prep sh = ["g"%string] ∧ committedPrepared sh < committedPrepared sh'.
Proof.
  exists (runs prepared_rollback), (acts R0 (@Pass R0 (pgCutover R0)) [on_green (ACommitPrepared "g")] (runs prepared_rollback)).
  split; [apply acts_sound|]. split; [apply acts_sound|]. do 4 (split; [vm_compute; reflexivity|]).
  eexists _, _. split; [vm_compute; reflexivity|]. split; [vm_compute; reflexivity|]. split; reflexivity.
Qed.

(** The statement that flips back lands, its answer does not, and the pause of
    the targets is lifted; a client commits on a target before the rollback is
    resumed, and its subscriptions have not applied it when it is. *)
Definition reloads : list act := AOk :: map (λ k, AShard k AReload) [("blue"%string, 1); ("blue"%string, 2); ("green"%string, 1)].
Definition resumed_rollback : list act :=
  switched ++ AAsk ask_rollback :: a_pass ++ AStart :: rounds 24 ++ ALost true :: rounds 30 ++
  [on_green (ABegin 7 "app"); on_green (AWrite 7); on_green (ACommit 7)] ++ AStart :: concat (replicate 18 reloads).

(** A rollback that resumes after its flip back raises the pause again but
    neither drains the targets nor waits for the way back: a write committed on
    a target in between is dropped with the reverse subscription that had not
    yet applied it. *)
Theorem rollback_resume_loses_write :
  ∃ st st', reaches (w0, None) st ∧ sys_step R0 (@Pass R0 (pgCutover R0)) st st' ∧
    setState (cat st.1) !! "blue"%string = Some ShardSetServing ∧
    ∃ sh u, shards st.1 !! ("green"%string, 1) = Some sh ∧ bwd st.1 !! (1, 1, "app"%string) = Some u ∧
      applied u < committed sh ∧ bwd st'.1 !! (1, 1, "app"%string) = None.
Proof.
  exists (runs resumed_rollback), (runs (resumed_rollback ++ [AOk])). split; [apply acts_sound|].
  split; [apply answers; vm_compute; reflexivity|]. split; [vm_compute; reflexivity|].
  eexists _, _. split; [vm_compute; reflexivity|]. split; [vm_compute; reflexivity|]. split; [reflexivity|]. vm_compute. reflexivity.
Qed.

(** A target commits one more write and the way back does not apply it: the
    rollback is tried three times, and the run goes on to its end. *)
Definition lagging_pass : list act := AStart :: concat (replicate 60 reloads).
Definition given_up_rollback : list act :=
  switched ++ AAsk (mkSpec "" [] 0 (Some 0) true) :: [on_green (ABegin 7 "app"); on_green (AWrite 7); on_green (ACommit 7)] ++
  concat (replicate 4 lagging_pass).

(** A rollback that gives up leaves the write fence it raised: after its
    last attempt the run is switched again, and passes later completed, with
    the targets serving and the fence still raised on them by a workflow that
    has ended. *)
Theorem given_up_rollback_keeps_fence :
  ∃ st st', reaches (w0, None) st ∧ reaches st st' ∧
    r_stage (wrow st.1) = StageSwitched ∧ RollbackRetries (rcut st.1) = DefaultCutoverAttempts ∧
    r_state (wrow st'.1) = StateCompleted ∧ setState (cat st'.1) !! "green"%string = Some ShardSetServing ∧
    migrating (cat st'.1) !! "green"%string = Some (wid R0).
Proof.
  exists (runs given_up_rollback), (acts R0 (@Pass R0 (pgCutover R0)) (concat (replicate 2 lagging_pass)) (runs given_up_rollback)).
  split; [apply acts_sound|]. split; [apply acts_sound|]. do 4 (split; [vm_compute; reflexivity|]). vm_compute. reflexivity.
Qed.

(** Nothing fails and the rest of the world keeps up: the switch is over in
    three passes, and the sources are free again. *)
Example switch_completes :
  let w := (runs switched).1 in
  r_stage (wrow w) = StageSwitched ∧ flipped R0 w ∧ migrating (cat w) = ∅ ∧ claims (cat w) = ∅ ∧
  fwd w !! (1, 1, "app"%string) = Some (mkSub false 11 (Some 11)) ∧ bwd w !! (1, 1, "app"%string) = Some (mkSub true 5 (Some 5)).
Proof. vm_compute. done. Qed.
