(* ===== verification/CutFuel.v ===== *)
(** * The loops of a pass end

    The loops of the controller are written with fuel: the one over the steps
    of a switch, which only goes forward, and the waits for a pause and for the
    writers, which sleep in every round and have deadlines.  Each is given as
    many rounds as it can ever take: more of them change nothing. *)

From S2P Require Import Prelude Prog CutWorld CutOps Cutover CutLogic CutInv CutSteps CutRun.

Local Open Scope Z_scope.

(** Two programs that do the same statements, whatever is answered, from a time
    on; the clock does not go back. *)
Inductive peq {A} : Z → prog A → prog A → Prop :=
| peq_ret c a : peq c (Ret a) (Ret a)
| peq_stmt c X (f : world → result err X * world) k k' :
    (∀ w, peq c (k (f w).1) (k' (f w).1)) → (∀ e, plain e → peq c (k (Err e)) (k' (Err e))) → peq c (Stmt f k) (Stmt f k')
| peq_clock c d k k' : (∀ t, c + Z.max 0 d ≤ t → peq t (k t) (k' t)) → peq c (Clock d k) (Clock d k').

Lemma peq_refl {A} c (p : prog A) : peq c p p.
Proof. revert c. induction p; intros c; by constructor. Qed.

(** What a program returns, with no demand on its statements. *)
Definition returns {A} : prog A → (A → Prop) → Prop := within (λ _ _, True).
Lemma returns_any {A} (p : prog A) : returns p (λ _, True).
Proof. induction p as [a|X f k IH|d k IH]; cbn; [done| |by intros t; apply IH]. split_and!; [done|..]; intros; apply IH. Qed.
Lemma peq_bind {A B} c (p : prog A) (post : A → Prop) (f f' : A → prog B) :
  returns p post → (∀ a c', c ≤ c' → post a → peq c' (f a) (f' a)) → peq c (pbind p f) (pbind p f').
Proof.
  revert c. induction p as [a|X g k IH|d k IH]; intros c Hp H; cbn in *; [by apply H; [lia|]| |].
  - destruct Hp as (_ & H1 & H2). constructor; intros; apply IH; auto.
  - constructor. intros t Ht. apply IH; [done|]. intros a c' Hc'. apply H. lia.
Qed.

Lemma bind_peq {A B} c (x : M A) (f f' : A → M B) m (post : A → mem → Prop) :
  returns (x m) (λ '(r, m'), ∀ a, r = Ok a → post a m') →
  (∀ a m' c', c ≤ c' → post a m' → peq c' (f a m') (f' a m')) → peq c ((x ≫= f) m) ((x ≫= f') m).
Proof.
  intros Hx H. unfold mbind, M_bind. eapply peq_bind; [exact Hx|]. intros [[a|e] m'] c' Hc Hp; [by apply H, Hp|apply peq_refl].
Qed.
Lemma bind_peq_any {A B} c (x : M A) (f f' : A → M B) m :
  (∀ a m' c', c ≤ c' → peq c' (f a m') (f' a m')) → peq c ((x ≫= f) m) ((x ≫= f') m).
Proof.
  intros H. apply (bind_peq c _ _ _ _ (λ _ _, True)); [|auto]. eapply within_mono; [|apply returns_any]. by intros [r m'].
Qed.
Lemma returns_bind {A B} (x : M A) (f : A → M B) m (post : result err B * mem → Prop) :
  (∀ e m', post (Err e, m')) → (∀ a m', returns (f a m') post) → returns ((x ≫= f) m) post.
Proof.
  intros He H. unfold mbind, M_bind. apply within_bind. eapply within_mono; [|apply returns_any].
  intros [[a|e] m'] _; [apply H|]. cbn. apply He.
Qed.

(** ** The steps of a switch *)

(** The rounds left from a step, at most. *)
Definition left (step : string) : Z := if bool_decide (step ∈ switchSteps) then 13 - indexOf step else 1.
Lemma left_next step : nextStep step ≠ ""%string → left (nextStep step) < left step.
Proof.
  apply (switchSteps_cases step (λ step, nextStep step ≠ ""%string → left (nextStep step) < left step)).
  - repeat (apply Forall_cons_2; [intros _; vm_compute; reflexivity|]). apply Forall_cons_2; [done|apply Forall_nil_2].
  - intros Hn. unfold nextStep. by rewrite (indexOf_unknown step Hn).
Qed.
Lemma left_range step : 0 < left step ≤ 14.
Proof.
  apply (switchSteps_cases step (λ step, 0 < left step ≤ 14)).
  - repeat (apply Forall_cons_2; [by vm_compute|]). apply Forall_nil_2.
  - intros Hi. unfold left. by rewrite bool_decide_eq_false_2.
Qed.

Section Switch.
Context (R : run) {ops : cutoverOps}.

(** A step that is done moves the record to the next one. *)
Lemma stepDone_next step m :
  returns (stepDone R step m) (λ '(r, m'), ∀ v, r = Ok v → v = None → Step (wf_cutover (wf m')) = nextStep step ∧ nextStep step ≠ ""%string).
Proof.
  unfold stepDone. apply returns_bind; [done|]. intros [] m1.
  { apply returns_bind; [done|]. intros b m2. cbn. by intros v [= <-]. }
  destruct (String.eqb_spec (nextStep step) "") as [E|E].
  - apply returns_bind; [done|]. intros t m2. apply returns_bind; [done|]. intros [] m3. apply returns_bind; [done|]. intros t' m4.
    apply returns_bind; [done|]. intros [] m5. apply returns_bind; [done|]. intros [] m6. apply returns_bind; [done|]. intros [] m7.
    cbn. by intros v [= <-].
  - intros t. cbn. split_and!; [done|..]; intros; cbn; repeat case_match; cbn; intros v [=]; by subst.
Qed.

Lemma loop_enough c (n n' : nat) m :
  left (Step (wf_cutover (wf m))) ≤ Z.of_nat n → left (Step (wf_cutover (wf m))) ≤ Z.of_nat n' →
  peq c (switchLoop R n m) (switchLoop R n' m).
Proof.
  revert c n' m. induction n as [|n IH]; intros c n' m H1 H2; pose proof (left_range (Step (wf_cutover (wf m)))); [lia|].
  destruct n' as [|n']; [lia|]. cbn [switchLoop]. set (step := Step (wf_cutover (wf m))) in *.
  apply (bind_peq _ _ _ _ _ (λ c m', c = wf_cutover (wf m))); [by cbn; intros a [= <-]|]. intros cs m1 c1 _ ->. fold step.
  destruct (String.eqb step ""); [apply peq_refl|]. apply bind_peq_any. intros r m2 c2 _. unfold afterStep.
  destruct (match r with Ok q => q | Err e => (false, Some e) end) as [waiting e].
  apply bind_peq_any. intros v m3 c3 _. destruct v as [b|]; [apply peq_refl|].
  destruct (waiting || bool_decide (e ≠ None)); [apply peq_refl|].
  eapply bind_peq; [apply (stepDone_next step)|]. intros [b|] m4 c4 _ Hm4; [apply peq_refl|].
  destruct (Hm4 eq_refl) as [Es Hne]. pose proof (left_next step Hne). apply IH; rewrite Es; lia.
Qed.
End Switch.

(** ** The waits *)

Lemma confirm_enough set s c (n n' : nat) deadline m :
  (0 < n)%nat → (0 < n')%nat →
  deadline < c + 50 * Millisecond * (Z.of_nat n - 1) → deadline < c + 50 * Millisecond * (Z.of_nat n' - 1) →
  peq c (confirmPause n deadline set s m) (confirmPause n' deadline set s m).
Proof.
  unfold Millisecond. revert c n' m. induction n as [|n IH]; intros c n' m H1 H2 H3 H4; [lia|]. destruct n' as [|n']; [lia|].
  cbn [confirmPause]. apply bind_peq_any. intros on m1 c1 Hc1. destruct on; [apply peq_refl|].
  constructor. intros t Ht. cbn. destruct (Z.ltb_spec deadline t) as [|Hle]; [apply peq_refl|].
  constructor. intros t' Ht'. unfold Millisecond in *. apply IH; lia.
Qed.
Lemma drain_enough set ids c (n n' : nat) deadline m :
  (0 < n)%nat → (0 < n')%nat →
  deadline < c + 100 * Millisecond * (Z.of_nat n - 1) → deadline < c + 100 * Millisecond * (Z.of_nat n' - 1) →
  peq c (drainLoop n deadline set ids m) (drainLoop n' deadline set ids m).
Proof.
  unfold Millisecond. revert c n' m. induction n as [|n IH]; intros c n' m H1 H2 H3 H4; [lia|]. destruct n' as [|n']; [lia|].
  cbn [drainLoop]. apply bind_peq_any. intros busy m1 c1 Hc1. destruct (bool_decide (busy = [])); [apply peq_refl|].
  constructor. intros t Ht. cbn. destruct (Z.ltb_spec deadline t) as [|Hle]; [apply peq_refl|].
  constructor. intros t' Ht'. unfold Millisecond in *. apply IH; lia.
Qed.

(** The loops of a pass end within the rounds the model gives them.  From
    any record and with any operations behind the interface, fourteen rounds
    over the steps do exactly the statements any larger number does, whatever
    each answers; and on a clock that does not go back, so do 302 rounds of the
    wait for a pause, begun within its 15 seconds, and of the wait for the
    writers, begun within at most 30. *)
Theorem pass_rounds_suffice R (ops : cutoverOps) set ids s (n : nat) now wait c m :
  (302 ≤ n)%nat → wait ≤ writerDrainTimeout → now ≤ c →
  peq c (switchLoop R n m) (switchLoop R 14 m) ∧
  peq c (confirmPause n (now + pauseConfirmTimeout) set s m) (confirmPause 302 (now + pauseConfirmTimeout) set s m) ∧
  peq c (drainLoop n (now + wait) set ids m) (drainLoop 302 (now + wait) set ids m).
Proof.
  unfold writerDrainTimeout, pauseConfirmTimeout, Second, Millisecond. intros Hn Hw Hc. split_and!.
  - pose proof (left_range (Step (wf_cutover (wf m)))). apply loop_enough; lia.
  - apply confirm_enough; unfold Millisecond; lia.
  - apply drain_enough; unfold Millisecond; lia.
Qed.
Lemma pass_rounds_suffice_witness :
  peq 100 (@switchLoop R0 (pgCutover R0) 1000 (load row0)) (@switchLoop R0 (pgCutover R0) 14 (load row0)).
Proof. by apply (pass_rounds_suffice R0 (pgCutover R0) "blue" [1; 2] 1 1000 100 0 100 (load row0)); [lia|done|]. Defined.
