(* ===== verification/CutHandover.v ===== *)
(** * A switch handed over

    Two replicas of the controller and the claim on a workflow's row.  A
    replica that stops leading lets its pass end and then hands its claims
    back ([runLoopHoldingClaims] of [src/internal/controller/loop.go]); its
    successor lists the workflows at the start of its own pass and claims each
    when it comes to it ([Copier.Pass] of [copy.go]). *)

From S2P Require Import Prelude Prog CutWorld CutOps Cutover CutLogic CutInv CutRun.

Local Open Scope Z_scope.

(** A replica's view of a run, and its passes. *)
Definition driven_by (me : string) (R : run) : run := {| R with replica := me |}.
Definition passes (me : string) (R : run) : prog () := @Pass (driven_by me R) (pgCutover (driven_by me R)).

Definition ReleaseClaims (me : string) (w : world) : world :=
  with_cat (λ c, if String.eqb (r_owner (row c)) me then {| c with row := {| (row c) with r_owner := "" |} |} else c) w.

(** Both replicas over one world; a replica hands back between its passes. *)
Inductive duo_step (a b : string) (R : run) : world * option (prog ()) * option (prog ()) → world * option (prog ()) * option (prog ()) → Prop :=
| duo_first w p q w' p' : sys_step (driven_by a R) (passes a R) (w, p) (w', p') → duo_step a b R (w, p, q) (w', p', q)
| duo_second w p q w' q' : sys_step (driven_by b R) (passes b R) (w, q) (w', q') → duo_step a b R (w, p, q) (w', p, q')
| duo_first_back w q : duo_step a b R (w, None, q) (ReleaseClaims a w, None, q)
| duo_second_back w p : duo_step a b R (w, p, None) (ReleaseClaims b w, p, None).

Lemma duo_firsts a b R q st st' :
  rtc (sys_step (driven_by a R) (passes a R)) st st' → rtc (duo_step a b R) (st.1, st.2, q) (st'.1, st'.2, q).
Proof.
  induction 1 as [[w p]|[w1 p1] [w2 p2] [w3 p3] Hs _ IH]; [done|]. eapply rtc_l; [|exact IH]. by apply duo_first.
Qed.
Lemma duo_seconds a b R p st st' :
  rtc (sys_step (driven_by b R) (passes b R)) st st' → rtc (duo_step a b R) (st.1, p, st.2) (st'.1, p, st'.2).
Proof.
  induction 1 as [[w q]|[w1 q1] [w2 q2] [w3 q3] Hs _ IH]; [done|]. eapply rtc_l; [|exact IH]. by apply duo_second.
Qed.

(** What a replica does by a schedule. *)
Definition acting (me : string) : list act → world * option (prog ()) → world * option (prog ()) := acts (driven_by me R0) (passes me R0).

(** The first replica is at the sequences when the second lists the row; the
    first ends its pass, over a minute after it raised the fence, and hands
    back; the second comes to the workflow. *)
Local Notation listed_at := (acting "r1" (to_switch ++ AStart :: rounds 76) (w0, None)).
Local Notation lister := (acting "r2" [AStart; AOk] (listed_at.1, None)).
Local Notation over_at := (acting "r1" (rounds 100 ++ [AClock (61 * Second)]) (lister.1, listed_at.2)).
Local Notation taken_over := (acting "r2" (rounds 100) (ReleaseClaims "r1" over_at.1, lister.2)).

Lemma acting_sound me l st : rtc (sys_step (driven_by me R0) (passes me R0)) st (acting me l st).
Proof. apply acts_sound. Qed.
Lemma handed_over l1 l2 l3 l4 st1 lst st2 st3 :
  st1 = acting "r1" l1 (w0, None) → lst = acting "r2" l2 (st1.1, None) → st2 = acting "r1" l3 (lst.1, st1.2) → st2.2 = None →
  st3 = acting "r2" l4 (ReleaseClaims "r1" st2.1, lst.2) → st3.2 = None →
  rtc (duo_step "r1" "r2" R0) (w0, None, None) (st2.1, None, lst.2) ∧ rtc (duo_step "r1" "r2" R0) (st2.1, None, lst.2) (st3.1, None, None).
Proof.
  intros E1 E2 E3 En E4 En'.
  pose proof (duo_firsts "r1" "r2" R0 None _ _ (acting_sound "r1" l1 (w0, None))) as H1. rewrite <- E1 in H1.
  pose proof (duo_seconds "r1" "r2" R0 st1.2 _ _ (acting_sound "r2" l2 (st1.1, None))) as H2. rewrite <- E2 in H2.
  pose proof (duo_firsts "r1" "r2" R0 lst.2 _ _ (acting_sound "r1" l3 (lst.1, st1.2))) as H3. rewrite <- E3, En in H3.
  pose proof (duo_seconds "r1" "r2" R0 None _ _ (acting_sound "r2" l4 (ReleaseClaims "r1" st2.1, lst.2))) as H4. rewrite <- E4, En' in H4.
  split; [by etrans; [exact H1|etrans; [exact H2|exact H3]]|]. eapply rtc_l; [apply duo_first_back|exact H4].
Qed.
Lemma both_ended : over_at.2 = None ∧ taken_over.2 = None.
Proof. split; vm_compute; reflexivity. Qed.
Lemma over_switched : r_stage (wrow over_at.1) = StageSwitched ∧ JournalID (rcut over_at.1) = "j1"%string.
Proof. split; vm_compute; reflexivity. Qed.
Lemma taken_undone : r_stage (wrow taken_over.1) = StageAwaitingSwitch ∧ JournalID (rcut taken_over.1) = ""%string ∧ flipped R0 taken_over.1.
Proof. split_and!; vm_compute; reflexivity. Qed.

(** A replica that takes a workflow over drives the row as it listed it
    before the claim was free.  Its predecessor has finished the switch, and
    handed the claim back after its pass; the successor, which listed the row
    while that pass ran, claims it and undoes a switch that is over: the
    targets serve, and the workflow is back at the gate without its journal. *)
Theorem handover_undoes_switch :
  ∃ w q w', rtc (duo_step "r1" "r2" R0) (w0, None, None) (w, None, q) ∧ rtc (duo_step "r1" "r2" R0) (w, None, q) (w', None, None) ∧
    (r_stage (wrow w) = StageSwitched ∧ JournalID (rcut w) = "j1"%string) ∧
    r_stage (wrow w') = StageAwaitingSwitch ∧ JournalID (rcut w') = ""%string ∧ flipped R0 w'.
Proof.
  destruct both_ended as [En En'].
  destruct (handed_over (to_switch ++ AStart :: rounds 76) [AStart; AOk] (rounds 100 ++ [AClock (61 * Second)]) (rounds 100)
    listed_at lister over_at taken_over eq_refl eq_refl eq_refl En eq_refl En') as [H1 H2].
  exact (ex_intro _ over_at.1 (ex_intro _ lister.2 (ex_intro _ taken_over.1 (conj H1 (conj H2 (conj over_switched taken_undone)))))).
Qed.
