(* ===== verification/PauseSweep.v ===== *)
(** * The sweep that gives back write pauses

    [WritePauseSweep] of [src/internal/controller/pausesweep.go] lifts the
    claimed pauses whose workflow is gone or has ended, and raises the
    retirement pause of a retired shard that lost it.  It runs beside the
    cutover of [Cutover], in the same world: it lifts exactly the orphaned
    pauses, and it leaves a switch alone whose sources carry no claim but its
    own.  One that takes over the claim of a workflow that is gone can lose a
    write to it. *)

From S2P Require Import Prelude Prog CutWorld CutOps Cutover CutLogic CutInv CutSafety CutRun Triples.

Local Open Scope Z_scope.

Abbreviation SM := (PM world err).

(** ** The code *)

Definition StatePending : string := "pending".
Definition ended (state : string) : bool := bool_decide (state ∈ [StateCompleted; StateFailed; StateCancelled]).

Section Sweep.
(** [specSource]: the source set the spec of this run's workflow names, if
    any. *)
Context (R : run) (specSource : string).

(** [EXISTS (SELECT 1 FROM pgshard.workflows w WHERE w.id = ...)] *)
Definition isLive (w : world) (id : string) : bool :=
  if String.eqb id (wid R) then negb (ended (r_state (row (cat w)))) else bool_decide (id ∈ o_live (seen w)).
Definition liveWorkflowNamesSet (w : world) (set : string) : bool :=
  let r := row (cat w) in
  negb (String.eqb (r_state r) StatePending || ended (r_state r)) &&
    bool_decide (set ∈ [tgt R; specSource; SourceSet (r_cutover r)])
  || bool_decide (set ∈ o_liveSets (seen w)).

(** [ORDER BY shard_set, shard_id] *)
Definition key_le (k k' : string * Z) : Prop := (String.ltb k.1 k'.1 || (String.eqb k.1 k'.1 && (k.2 <=? k'.2))) = true.
#[local] Instance key_le_dec : RelDecision key_le.
Proof. intros k k'. unfold key_le. apply _. Defined.

Definition orphaned (w : world) (k : string * Z) : bool :=
  match claims (cat w) !! k with Some (who, _) => negb (isLive w who) | None => false end.
Definition orphans : SM (list (string * Z)) :=
  ask (λ w, Ok (merge_sort key_le (filter (λ k, orphaned w k = true) (map_to_list (claims (cat w))).*1))).

(** A statement on a shard that was dialled. *)
Definition onConn (k : string * Z) (f : shard → shard) : SM () :=
  stmt (λ w, match shards w !! k with
             | None => (Err (plainf "dial"), w)
             | Some s => (Ok (), {| w with shards := <[k := f s]> (shards w) |})
             end).
Definition alterSystem (k : string * Z) (on : bool) : SM () := onConn k (λ s, {| s with conf := on |}).
Definition dial (k : string * Z) : SM () := ask (λ w, match shards w !! k with None => Err (plainf "dial") | Some _ => Ok () end).
(** [pg_reload_conf()]: the new setting reaches transactions by and by. *)
Definition reloadConf (k : string * Z) : SM () := dial k.

Definition unpause (k : string * Z) : SM () := _ ← alterSystem k false; reloadConf k.
Definition clearClaim (k : string * Z) : SM () := stmt (λ w, (Ok (), with_cat (λ c, {| c with claims := delete k (claims c) |}) w)).

(** The shard first, the claim second; errors are collected. *)
Fixpoint sweepEach (orphans : list (string * Z)) (freed : Z) (errs : list err) : SM (Z * list err) :=
  match orphans with
  | [] => mret (freed, errs)
  | k :: orphans =>
      r ← attempt (unpause k);
      match r with
      | Err e => sweepEach orphans freed (errs ++ [e])
      | Ok _ =>
          r ← attempt (clearClaim k);
          match r with
          | Err e => sweepEach orphans freed (errs ++ [e])
          | Ok _ => sweepEach orphans (freed + 1) errs
          end
      end
  end.
Definition SweepPass : SM (Z * list err) := l ← orphans; sweepEach l 0 [].

(** The subscriptions a shard applies, of this run and of others. *)
Definition subscribed (w : world) (k : string * Z) : bool :=
  existsb (λ '((s, t, _), u), enabled u && bool_decide ((tgt R, t) = k)) (map_to_list (fwd w)) ||
  existsb (λ '((s, t, _), u), enabled u && bool_decide ((src R, s) = k)) (map_to_list (bwd w)) ||
  bool_decide (k ∈ o_subscribed (seen w)).
Definition forgotten (w : world) (k : string * Z) : bool :=
  bool_decide (setState (cat w) !! k.1 = Some "retired"%string) && bool_decide (claims (cat w) !! k = None) &&
  negb (liveWorkflowNamesSet w k.1).
Definition retiredShards : SM (list (string * Z)) :=
  ask (λ w, Ok (merge_sort key_le (filter (λ k, forgotten w k = true) (o_shardRows (seen w))))).
Definition lostPause (w : world) (k : string * Z) : result err bool :=
  match shards w !! k with None => Err (plainf "dial") | Some s => Ok (negb (setting s) && negb (subscribed w k)) end.
Definition repause (k : string * Z) : SM bool :=
  c ← attempt (dial k);
  match c with
  | Err _ => mret false
  | Ok _ =>
      lost ← ask (λ w, lostPause w k);
      if negb lost then mret false else
      _ ← alterSystem k true;
      _ ← reloadConf k;
      mret true
  end.
Fixpoint reassertEach (l : list (string * Z)) (paused : Z) (errs : list err) : SM (Z * list err) :=
  match l with
  | [] => mret (paused, errs)
  | k :: l =>
      r ← attempt (repause k);
      match r with
      | Err e => reassertEach l paused (errs ++ [e])
      | Ok did => reassertEach l (if did : bool then paused + 1 else paused) errs
      end
  end.
Definition Reassert : SM (Z * list err) := l ← retiredShards; reassertEach l 0 [].

(** A tick of [WritePauseSweep.Run]; errors are only logged. *)
Definition sweep : prog () := pbind SweepPass (λ _, pbind Reassert (λ _, Ret ())).

(** ** What a pass does *)

Definition sweptShard (s : shard) : shard := {| s with conf := false |}.
Definition sweptOne (w : world) (k : string * Z) : world :=
  match shards w !! k with
  | None => w
  | Some s => {| w with shards := <[k := sweptShard s]> (shards w); cat := {| (cat w) with claims := delete k (claims (cat w)) |} |}
  end.
Definition answersDial (w : world) (k : string * Z) : bool := bool_decide (is_Some (shards w !! k)).

Lemma exec_unpause k w :
  exec (unpause k) w = match shards w !! k with
                       | None => (Err (plainf "dial"), w)
                       | Some s => (Ok (), {| w with shards := <[k := sweptShard s]> (shards w) |})
                       end.
Proof. cbn. destruct (shards w !! k) as [s|] eqn:Hk; [|done]. cbn. by rewrite lookup_insert_eq. Qed.
Lemma sweepEach_step k l freed errs w :
  exec (sweepEach (k :: l) freed errs) w =
    if answersDial w k then exec (sweepEach l (freed + 1) errs) (sweptOne w k)
    else exec (sweepEach l freed (errs ++ [plainf "dial"])) w.
Proof.
  cbn [sweepEach]. pose proof (exec_unpause k w) as Hu. unfold answersDial, sweptOne.
  destruct (shards w !! k) as [s|]; (etrans; [eapply exec_try, Hu|]); done.
Qed.

(** What a list of shards, swept, leaves. *)
Record swept (l : list (string * Z)) (w w' : world) : Prop := {
  sw_shards k : shards w' !! k = if decide (k ∈ l) then sweptShard <$> shards w !! k else shards w !! k;
  sw_claims k : claims (cat w') !! k = if decide (k ∈ l ∧ is_Some (shards w !! k)) then None else claims (cat w) !! k;
  sw_rest : w' = {| w with shards := shards w'; cat := {| (cat w) with claims := claims (cat w') |} |} }.
Lemma answersDial_sweptOne w k k' : answersDial (sweptOne w k) k' = answersDial w k'.
Proof.
  unfold answersDial, sweptOne. destruct (shards w !! k) as [s|] eqn:Hk; [|done]. cbn. apply bool_decide_ext.
  destruct (decide (k = k')) as [<-|]; [rewrite lookup_insert_eq, Hk|by rewrite lookup_insert_ne]. split; eauto.
Qed.
Lemma swept_nil w : swept [] w w.
Proof.
  split; [done| |by destruct w as [[] ? ? ? ? ? ?]]. intros k. rewrite decide_False; [done|]. by intros [?%elem_of_nil _].
Qed.
Lemma swept_absent k l w w' : shards w !! k = None → swept l w w' → swept (k :: l) w w'.
Proof.
  intros Hk [Hs Hc Hr]. split; [intros k'|intros k'|done].
  - rewrite Hs. destruct (decide (k' = k)) as [->|Hne].
    + rewrite Hk. by repeat case_decide.
    + apply decide_ext. set_solver.
  - rewrite Hc. destruct (decide (k' = k)) as [->|Hne].
    + rewrite Hk. rewrite !decide_False; [done|..]; by intros [_ [? ?]].
    + apply decide_ext. set_solver.
Qed.
Lemma swept_present k l w w' s : shards w !! k = Some s → k ∉ l → swept l (sweptOne w k) w' → swept (k :: l) w w'.
Proof.
  unfold sweptOne. intros Hk Hn [Hs Hc Hr]. rewrite Hk in Hs, Hc, Hr. cbn in *. split.
  - intros k'. rewrite Hs. destruct (decide (k = k')) as [<-|Hne].
    + rewrite lookup_insert_eq, Hk, decide_False, decide_True by set_solver. done.
    + rewrite lookup_insert_ne by done. apply decide_ext. set_solver.
  - intros k'. rewrite Hc. destruct (decide (k = k')) as [<-|Hne].
    + rewrite lookup_delete_eq, decide_False by set_solver. rewrite decide_True; [done|]. split; [set_solver|by rewrite Hk].
    + rewrite lookup_delete_ne, lookup_insert_ne by done. apply decide_ext. set_solver.
  - rewrite Hr. by destruct w as [[] ? ? ? ? ? ?].
Qed.
Lemma exec_sweepEach l freed errs w :
  NoDup l →
  let n := length (filter (λ k, answersDial w k = true) l) in
  ∃ w', exec (sweepEach l freed errs) w = (Ok (freed + Z.of_nat n, errs ++ replicate (length l - n) (plainf "dial")), w') ∧ swept l w w'.
Proof.
  revert freed errs w. induction l as [|k l IH]; intros freed errs w Hnd.
  { exists w. cbn. rewrite Z.add_0_r, app_nil_r. split; [done|apply swept_nil]. }
  apply NoDup_cons in Hnd as [Hk Hnd]. rewrite sweepEach_step, filter_cons. destruct (answersDial w k) eqn:Ha.
  - rewrite decide_True by done. destruct (IH (freed + 1) errs (sweptOne w k) Hnd) as (w' & E & Hsw). exists w'.
    apply bool_decide_eq_true in Ha as [s Hs]. split; [|by eapply swept_present].
    rewrite E. assert (filter (λ x, answersDial (sweptOne w k) x = true) l = filter (λ x, answersDial w x = true) l) as ->
      by (apply list_filter_iff; intros x; by rewrite answersDial_sweptOne).
    cbn [length]. rewrite Nat.sub_succ. do 3 f_equal. lia.
  - rewrite decide_False by done. destruct (IH freed (errs ++ [plainf "dial"]) w Hnd) as (w' & E & Hsw). exists w'.
    apply bool_decide_eq_false in Ha. split; [|apply swept_absent; [|done]; destruct (shards w !! k); [|done]; by destruct Ha].
    rewrite E, <- app_assoc. cbn [length app]. pose proof (length_filter (λ x, answersDial w x = true) l). by rewrite Nat.sub_succ_l.
Qed.

(** A pass of the sweep lifts exactly the orphaned pauses: every claim
    whose workflow is gone or has ended is dropped and its shard made writable
    again, unless the shard cannot be reached, which stops none of the others
    and is reported; and nothing else changes. *)
Theorem sweep_lifts_orphans w :
  ∃ n errs w', exec SweepPass w = (Ok (n, errs), w') ∧
    (∀ k s, shards w !! k = Some s → shards w' !! k = Some (if orphaned w k then sweptShard s else s)) ∧
    (∀ k, claims (cat w') !! k = if orphaned w k && answersDial w k then None else claims (cat w) !! k) ∧
    w' = {| w with shards := shards w'; cat := {| (cat w) with claims := claims (cat w') |} |} ∧
    n + Z.of_nat (length errs) = Z.of_nat (length (filter (λ k, orphaned w k = true) (map_to_list (claims (cat w))).*1)).
Proof.
  set (l0 := filter (λ k, orphaned w k = true) (map_to_list (claims (cat w))).*1). set (l := merge_sort key_le l0).
  assert (l ≡ₚ l0) as Hp by apply merge_sort_Permutation.
  assert (NoDup l) as Hnd by (rewrite Hp; apply NoDup_filter, NoDup_fst_map_to_list).
  assert (∀ k, k ∈ l ↔ orphaned w k = true) as Hin.
  { intros k. rewrite Hp. unfold l0. rewrite list_elem_of_filter, list_elem_of_fmap. split; [tauto|]. intros Ho. split; [done|].
    unfold orphaned in Ho. destruct (claims (cat w) !! k) as [v|] eqn:E; [|done]. exists (k, v). split; [done|]. by apply elem_of_map_to_list. }
  destruct (exec_sweepEach l 0 [] w Hnd) as (w' & E & [Hs Hc Hr]).
  eexists _, _, w'. split; [etrans; [by apply (exec_bind _ _ _ l w)|exact E]|]. split_and!.
  - intros k s Hk. rewrite Hs, Hk. rewrite (decide_ext _ _ _ _ (Hin k)). destruct (orphaned w k); done.
  - intros k. rewrite Hc. unfold answersDial. destruct (orphaned w k) eqn:Ho; cbn.
    + case_bool_decide as Ha; [rewrite decide_True; [done|]; split; [by apply Hin|done]|rewrite decide_False; [done|by intros [_ ?]]].
    + rewrite decide_False; [done|]. rewrite Hin, Ho. by intros [? _].
  - done.
  - cbn [app]. rewrite length_replicate, <- Hp. pose proof (length_filter (λ x, answersDial w x = true) l). lia.
Qed.
End Sweep.

(** ** Beside a switch *)

Section Beside.
Context (R : run).

(** The workflow is under way, and no other's claim is on its sources. *)
Definition ordinary (w : world) : Prop :=
  r_state (wrow w) ≠ StatePending ∧ ended (r_state (wrow w)) = false ∧
  ∀ s who at_, claims (cat w) !! (src R, s) = Some (who, at_) → who = wid R.

(** The passes of the cutover, those of the sweep, whose statements find a
    world as [P] says, and everything else. *)
Local Notation state := (world * option (prog ()) * option (prog ()))%type.
Inductive beside (P : world → Prop) : state → state → Prop :=
| bs_cutover w p q w' p' : sys_step R (@Pass R (pgCutover R)) (w, p) (w', p') → beside P (w, p, q) (w', p', q)
| bs_start w p : beside P (w, p, None) (w, p, Some (sweep R (src R)))
| bs_sweep w p q w' q' : P w → prog_step q w q' w' → beside P (w, p, Some q) (w', p, Some q')
| bs_end w p q : beside P (w, p, Some q) (w, p, None).
Local Notation beside_step := (beside ordinary).

(** The sweep does nothing but what others do anyway. *)
Definition aside (w w' : world) : Prop := w' = w ∨ env R w w'.
Definition spares {A} (φ : A → Prop) (x : prog A) : Prop := ∀ w, Prog.wp (λ _ _, True) ordinary aside x w (λ a _, φ a).
Lemma spares_pbind {A B} (ψ : A → Prop) φ (x : prog A) (f : A → prog B) :
  spares ψ x → (∀ a, ψ a → spares φ (f a)) → spares φ (pbind x f).
Proof. intros Hx Hf w. apply wp_bind. eapply wp_mono; [|apply Hx]. intros a w' Ha. by apply Hf. Qed.
Lemma spares_bind {A B} (ψ : A → Prop) (x : SM A) (f : A → SM B) :
  spares (λ r, ∀ a, r = Ok a → ψ a) x → (∀ a, ψ a → spares (λ _, True) (f a)) → spares (λ _, True) (x ≫= f).
Proof. intros Hx Hf. eapply spares_pbind; [exact Hx|]. intros [a|e] Ha; [by apply Hf, Ha|by intros w]. Qed.
Lemma spares_try {A B} (x : SM A) (f : result err A → SM B) :
  spares (λ _, True) x → (∀ r, spares (λ _, True) (f r)) → spares (λ _, True) (attempt x ≫= f).
Proof.
  intros Hx Hf. apply (spares_bind (λ _, True)); [|by intros r _]. eapply spares_pbind; [exact Hx|]. by intros r _ w.
Qed.
Lemma spares_stmt {X} (f : world → result err X * world) φ :
  (∀ w, ordinary w → aside w (f w).2 ∧ ordinary (f w).2 ∧ ∀ a, (f w).1 = Ok a → φ a) → spares (λ r, ∀ a, r = Ok a → φ a) (stmt f).
Proof. intros Hf w w1 _ Hw. destruct (Hf w1 Hw) as (? & ? & ?). split; [done|]. split; [done|]. by intros e _. Qed.
Lemma spares_ask {X} (f : world → result err X) φ :
  (∀ w a, ordinary w → f w = Ok a → φ a) → spares (λ r, ∀ a, r = Ok a → φ a) (ask f).
Proof. intros Hf. apply spares_stmt. intros w Hw. split_and!; [by left|done|]. intros a. by apply Hf. Qed.

Lemma dial_spares k : spares (λ r : result err (), ∀ a, r = Ok a → True) (dial k).
Proof. by apply spares_ask. Qed.
Lemma alterSystem_spares k on : k.1 ≠ src R → spares (λ r : result err (), ∀ a, r = Ok a → True) (alterSystem k on).
Proof.
  intros Hk. apply spares_stmt. intros w Hw. destruct (shards w !! k) as [s|] eqn:Hs; [|split_and!; [by left|done|done]].
  split_and!; [right; by apply env_pause|done|done].
Qed.
Lemma clearClaim_spares k : k.1 ≠ src R → spares (λ r : result err (), ∀ a, r = Ok a → True) (clearClaim k).
Proof.
  intros Hk. apply spares_stmt. intros w (H1 & H2 & H3). split_and!; [right; by apply (env_claim R w k None)| |done].
  split_and!; [done|done|]. intros s who at_ Hl. cbn in Hl. apply lookup_delete_Some in Hl as [_ Hl]. eauto.
Qed.
Local Notation elsewhere l := (∀ k : string * Z, k ∈ l → k.1 ≠ src R).
Lemma elsewhere_cons k l : elsewhere (k :: l) → k.1 ≠ src R ∧ elsewhere l.
Proof. intros H. split; [apply H; by left|]. intros k' Hk'. apply H. by right. Qed.
Lemma spares_weaken {A} (ψ : A → Prop) (x : prog A) : spares ψ x → spares (λ _, True) x.
Proof. intros Hx w. by eapply wp_mono; [|apply Hx]. Qed.

Lemma unpause_spares k : k.1 ≠ src R → spares (λ _, True) (unpause k).
Proof. intros Hk. eapply spares_bind; [by apply alterSystem_spares|]. intros _ _. eapply spares_weaken, dial_spares. Qed.
Lemma sweepEach_spares l n errs : elsewhere l → spares (λ _, True) (sweepEach l n errs).
Proof.
  revert n errs. induction l as [|k l IH]; intros n errs Hl; [by intros w|]. apply elsewhere_cons in Hl as [Hk Hl]. cbn [sweepEach].
  apply spares_try; [by apply unpause_spares|]. intros [_|e]; [|by apply IH].
  apply spares_try; [eapply spares_weaken; by apply clearClaim_spares|]. intros [_|e]; by apply IH.
Qed.
Lemma repause_spares k : k.1 ≠ src R → spares (λ _, True) (repause R k).
Proof.
  intros Hk. unfold repause. apply spares_try; [eapply spares_weaken, dial_spares|]. intros [_|e]; [|by intros w].
  apply (spares_bind (λ _, True)); [by apply spares_ask|]. intros [] _; [|by intros w].
  eapply spares_bind; [by apply alterSystem_spares|]. intros _ _. eapply spares_bind; [apply dial_spares|]. by intros _ _ w.
Qed.
Lemma reassertEach_spares l n errs : elsewhere l → spares (λ _, True) (reassertEach R l n errs).
Proof.
  revert n errs. induction l as [|k l IH]; intros n errs Hl; [by intros w|]. apply elsewhere_cons in Hl as [Hk Hl]. cbn [reassertEach].
  apply spares_try; [by apply repause_spares|]. intros [did|e]; by apply IH.
Qed.

Lemma orphans_spares : spares (λ r, ∀ l, r = Ok l → elsewhere l) (orphans R).
Proof.
  apply spares_ask. intros w l (_ & Hend & Hours) [= <-] k Hk. rewrite merge_sort_Permutation, list_elem_of_filter in Hk.
  destruct Hk as [Ho _]. unfold orphaned, isLive in Ho. destruct k as [set id]. cbn. intros ->.
  destruct (claims (cat w) !! (src R, id)) as [[who at_]|] eqn:E; [|done]. rewrite (Hours _ _ _ E), String.eqb_refl in Ho.
  unfold wrow in Hend. by rewrite Hend in Ho.
Qed.
Lemma retiredShards_spares : spares (λ r, ∀ l, r = Ok l → elsewhere l) (retiredShards R (src R)).
Proof.
  apply spares_ask. intros w l (Hp & Hend & _) [= <-] k Hk. rewrite merge_sort_Permutation, list_elem_of_filter in Hk.
  destruct Hk as [Ho _]. intros Hk. unfold forgotten, liveWorkflowNamesSet in Ho. rewrite Hk in Ho. unfold wrow in Hp, Hend.
  apply String.eqb_neq in Hp. rewrite Hp, Hend, (bool_decide_eq_true_2 (src R ∈ [tgt R; src R; _])) in Ho by set_solver.
  by rewrite !andb_false_r in Ho.
Qed.
Lemma sweep_spares : spares (λ _, True) (sweep R (src R)).
Proof.
  eapply spares_pbind; [eapply spares_bind; [apply orphans_spares|intros l Hl; by apply sweepEach_spares]|]. intros _ _.
  eapply spares_pbind; [eapply spares_bind; [apply retiredShards_spares|intros l Hl; by apply reassertEach_spares]|]. by intros _ _ w.
Qed.

(** A run with the sweep is one without it. *)
Definition sparing (st : state) : Prop :=
  match st.2 with None => True | Some q => Prog.wp (λ _ _, True) ordinary aside q st.1.1 (λ _ _, True) end.
Lemma sparing_moves w w' p p' q : sparing (w, p, q) → sparing (w', p', q).
Proof. destruct q as [q|]; [|done]. unfold sparing. cbn. by apply wp_env. Qed.
Lemma prog_step_aside q w q' w' :
  ordinary w → prog_step q w q' w' → sparing (w, None, Some q) → aside w w' ∧ sparing (w', None, Some q').
Proof.
  unfold sparing. cbn. destruct q as [a|X f k|d k]; cbn; [done| |].
  - intros Ho Hs Hq. destruct (Hq w (rtc_refl _ _) Ho) as ([_ Ha] & Hk & Hf). destruct Hs as [[-> ->]|(e & He & -> & Hw)]; [done|].
    destruct (Hf e He) as [H1 H2]. destruct Hw as [->| ->]; [split; [by left|done]|done].
  - intros Ho [-> ->] Hq. split; [right; apply env_clock; lia|]. by apply Hq.
Qed.
Lemma still_step st : sys_step R (@Pass R (pgCutover R)) st st.
Proof.
  destruct st as [w p]. assert ({| w with clock := clock w + 0 |} = w) as E by (destruct w; cbn; by rewrite Z.add_0_r).
  rewrite <- E at 2. apply sys_env, env_clock. lia.
Qed.
Lemma beside_is_aside st st' : beside_step st st' → sparing st → sys_step R (@Pass R (pgCutover R)) st.1 st'.1 ∧ sparing st'.
Proof.
  intros Hst Hs. inversion Hst as [w p q w' p' Hc|w p|w p q w' q' Ho Hq|w p q]; subst; cbn.
  - split; [done|by eapply sparing_moves].
  - split; [apply still_step|apply sweep_spares].
  - destruct (prog_step_aside _ _ _ _ Ho Hq Hs) as [[->|He] Hs']; (split; [|done]); [apply still_step|by apply sys_env].
  - split; [apply still_step|done].
Qed.
Lemma besides_aside st st' :
  rtc beside_step st st' → sparing st → rtc (sys_step R (@Pass R (pgCutover R))) st.1 st'.1 ∧ sparing st'.
Proof.
  induction 1 as [|s1 s2 s3 Hst _ IH]; [done|]. intros Hs. destruct (beside_is_aside _ _ Hst Hs) as [H1 H2].
  destruct (IH H2). split; [by eapply rtc_l|done].
Qed.
End Beside.

(** C11. The sweep leaves a live switch alone: with its passes running beside
    those of a cutover, however both fail, die or repeat, no committed write is
    lost to the switch, as long as its workflow is under way and no other
    workflow's claim stands on its sources when the sweep looks. *)
Theorem sweep_spares_live_switch R w0 st st' :
  src R ≠ tgt R → fresh R w0 → rtc (beside R (ordinary R)) (w0, None, None) st → beside R (ordinary R) st st' →
  flipped R st'.1.1 → ¬ flipped R st.1.1 ∨ ¬ forward_off R st.1.1 → shut R st'.1.1 ∧ caught R st'.1.1.
Proof.
  intros Hne Hf Hr Hst Hfl Hor. destruct (besides_aside R _ _ Hr) as [Hr' Hs]; [done|].
  destruct (beside_is_aside R _ _ Hst Hs) as [Hst' _]. destruct (run_guarantee R Hne w0 _ _ Hf Hr' Hst') as (H & _). by apply H.
Qed.

(** ** Runs *)

Section Schedule.
Context (R : run) (P : world → Prop) (P_of : world → bool).
Hypothesis P_of_true : ∀ w, P_of w = true → P w.
Local Notation pass := (@Pass R (pgCutover R)).
Local Notation state := (world * option (prog ()) * option (prog ()))%type.

Inductive turn := Cut (a : act) | SweepStart | SweepOk.
Definition turn_step (t : turn) (st : state) : option state :=
  let '(w, p, q) := st in
  match t, q with
  | Cut a, _ => '(w', p') ← act_step R pass a (w, p); Some (w', p', q)
  | SweepStart, None => Some (w, p, Some (sweep R (src R)))
  | SweepOk, Some (Stmt f k) => if P_of w then Some ((f w).2, p, Some (k (f w).1)) else None
  | SweepOk, Some (Ret _) => Some (w, p, None)
  | _, _ => None
  end.
Definition turns (l : list turn) (st : state) : state := fold_left (λ st t, default st (turn_step t st)) l st.

Lemma cutover_besides q s s' : rtc (sys_step R pass) s s' → rtc (beside R P) (s.1, s.2, q) (s'.1, s'.2, q).
Proof.
  induction 1 as [[w p]|[w1 p1] [w2 p2] [w3 p3] Hs _ IH]; [done|]. eapply rtc_l; [|exact IH]. by apply bs_cutover.
Qed.
Lemma turn_sound t st st' : turn_step t st = Some st' → rtc (beside R P) st st'.
Proof.
  destruct st as [[w p] q]. destruct t as [a| |]; cbn.
  - intros ([w' p'] & Ha & [= <-])%bind_Some. by apply (cutover_besides q (w, p) (w', p')), (act_sound R pass a).
  - destruct q; intros [= <-]. apply rtc_once, bs_start.
  - destruct q as [[[]|X f k|d k]|]; try done; [intros [= <-]; apply rtc_once, bs_end|].
    destruct (P_of w) eqn:E; intros [= <-]. apply rtc_once, bs_sweep; [by apply P_of_true|by left].
Qed.
Lemma turns_sound l st : rtc (beside R P) st (turns l st).
Proof.
  revert st. induction l as [|t l IH]; intros st; cbn; [done|]. etrans; [|apply IH].
  destruct (turn_step t st) as [st'|] eqn:E; [by eapply turn_sound|done].
Qed.
Lemma turns_snoc l t st : turns (l ++ [t]) st = default (turns l st) (turn_step t (turns l st)).
Proof. unfold turns. by rewrite fold_left_app. Qed.
(** The pass under way is answered. *)
Definition busy (st : state) : bool := match st.1.2 with Some _ => true | None => false end.
Lemma turn_answers st : busy st = true → beside R P st (default st (turn_step (Cut AOk) st)).
Proof.
  destruct st as [[w [p|]] q]; [|done]. intros _. destruct p as [[]|X f k|d k]; apply bs_cutover; [apply sys_done|..]; apply sys_prog; [by left|done].
Qed.
End Schedule.

Definition ordinary_of (R : run) (w : world) : bool :=
  negb (String.eqb (r_state (wrow w)) StatePending) && negb (ended (r_state (wrow w))) &&
  forallb (λ '(k, (who, _)), negb (String.eqb k.1 (src R)) || String.eqb who (wid R)) (map_to_list (claims (cat w))).
Lemma ordinary_of_true R w : ordinary_of R w = true → ordinary R w.
Proof.
  unfold ordinary_of. rewrite !andb_true_iff, !negb_true_iff. intros [[Hp%String.eqb_neq He] Hf]. split_and!; [done|done|].
  intros s who at_ Hl%elem_of_map_to_list. rewrite forallb_forall in Hf. specialize (Hf ((src R, s), (who, at_))).
  rewrite <- list_elem_of_In in Hf. specialize (Hf Hl). cbn in Hf. rewrite String.eqb_refl in Hf. by apply String.eqb_eq.
Qed.

(** A workflow that is gone left its claim on a source, without its pause. *)
Definition stale : world := {| w0 with cat := {| cat0 with claims := {[("blue"%string, 1) := ("gone"%string, None)]} |} |}.
Definition trio (P_of : world → bool) (w : world) (l : list turn) : world * option (prog ()) * option (prog ()) :=
  turns R0 P_of l (w, None, None).
Definition cut (l : list act) : list turn := Cut <$> l.
Lemma trio_answers P P_of w l : busy (trio P_of w l) = true → beside R0 P (trio P_of w l) (trio P_of w (l ++ [Cut AOk])).
Proof. unfold trio. rewrite turns_snoc. apply turn_answers. Qed.
Local Notation pass0 := (@Pass R0 (pgCutover R0)).

(** The sweep lists while a switch begins, and the targets are published. *)
Definition to_publish : list turn := cut to_switch ++ [SweepStart; SweepOk; SweepOk] ++ cut (AStart :: rounds 97).
Definition published : list turn := to_publish ++ [Cut AOk].
Lemma to_publish_ok : busy (trio (ordinary_of R0) w0 to_publish) = true.
Proof. vm_compute. reflexivity. Qed.
Lemma published_step : beside R0 (ordinary R0) (trio (ordinary_of R0) w0 to_publish) (trio (ordinary_of R0) w0 published).
Proof. exact (trio_answers (ordinary R0) (ordinary_of R0) w0 to_publish to_publish_ok). Qed.
Lemma sweep_spares_live_switch_witness :
  flipped R0 (trio (ordinary_of R0) w0 published).1.1 ∧ shut R0 (trio (ordinary_of R0) w0 published).1.1.
Proof.
  assert (flipped R0 (trio (ordinary_of R0) w0 published).1.1) as Hf by (vm_compute; reflexivity). split; [exact Hf|].
  apply (sweep_spares_live_switch R0 w0 (trio (ordinary_of R0) w0 to_publish) (trio (ordinary_of R0) w0 published)).
  - discriminate.
  - apply (fresh_w0 quiet).
  - apply turns_sound, ordinary_of_true.
  - apply published_step.
  - exact Hf.
  - left. intros H. vm_compute in H. discriminate H.
Defined.

(** The sweep lists the stale claim; the switch claims the source over it,
    pauses, publishes the targets and looks for the last time whether they have
    caught up; the sweep lifts the pause and drops the claim; a client commits. *)
Definition raced : list turn :=
  cut to_switch ++ [SweepStart; SweepOk] ++ cut (AStart :: rounds 109) ++ [SweepOk; SweepOk; SweepOk] ++
  cut [on_blue AReload; on_blue (ABegin 7 "app"); on_blue (AWrite 7); on_blue (ACommit 7)].
Definition raced_over : list turn := raced ++ cut (concat (replicate 40 reloads)).
Definition anyway (w : world) : bool := true.

Lemma stale_fresh : fresh R0 stale.
Proof. destruct (fresh_w0 quiet) as [H1 H2 H3 H4]. constructor; [exact H1|exact H2|exact H3|exact H4]. Qed.

(** C36. The sweep can lift a pause that is no longer orphaned: it lists the
    orphans first and resets each shard later, without a look at who claims it
    by then.  A switch that claims such a shard in between has its pause lifted
    and its claim dropped under it, and ends with a write committed on the
    source that its targets never see. *)
Theorem sweep_race_loses_write :
  let st := trio anyway stale raced in let st' := trio anyway stale raced_over in
  fresh R0 stale ∧ rtc (beside R0 (λ _, True)) (stale, None, None) st ∧ rtc (beside R0 (λ _, True)) (stale, None, None) st' ∧
  (r_stage (wrow st.1.1) = StageSwitching ∧ flipped R0 st.1.1 ∧ ours R0 (cat st.1.1) ("blue"%string, 1) = false) ∧
  (∃ sh u, shards st.1.1 !! ("blue"%string, 1) = Some sh ∧ fwd st.1.1 !! (1, 1, "app"%string) = Some u ∧
     enabled u = true ∧ applied u < committed sh) ∧
  r_stage (wrow st'.1.1) = StageSwitched ∧
  ∃ sh u, shards st'.1.1 !! ("blue"%string, 1) = Some sh ∧ fwd st'.1.1 !! (1, 1, "app"%string) = Some u ∧
     enabled u = false ∧ applied u < committed sh.
Proof.
  cbv zeta. split; [exact stale_fresh|]. split; [apply turns_sound; exact (λ _ _, I)|]. split; [apply turns_sound; exact (λ _ _, I)|].
  split; [split_and!; vm_compute; reflexivity|].
  split; [eexists _, _; split; [vm_compute; reflexivity|]; split; [vm_compute; reflexivity|]; split; vm_compute; reflexivity|].
  split; [vm_compute; reflexivity|]. eexists _, _. split; [vm_compute; reflexivity|]. split; [vm_compute; reflexivity|]. split; vm_compute; reflexivity.
Qed.
