(* ===== verification/Candidate.v ===== *)
(** * Who may become primary

    [chooseCandidate] of [src/internal/operator/failover.go] decides, from what
    a pass could see of a group's members, which standby a failover promotes,
    or that none may be.  A commit is acknowledged once some number of the
    standbys listed in [synchronous_standby_names] have flushed it, so the
    question is whether the members that answered must include one of those,
    whichever they were.  With it the epochs a promotion carries, and the value
    of [synchronous_standby_names] itself ([names.go]). *)

From S2P Require Import Prelude.
From stdpp Require Import pretty.

Local Open Scope Z_scope.

(** ** Views *)

Record memberView := mkView {
  Name : string;
  Listed : bool;
  Reachable : bool;
  InRecovery : bool;
  Streaming : bool;
  FlushLSN : Z;
  ReadySlots : Z;
  Why : string }.

Definition describeView (exclude : string) (m : memberView) : string :=
  (Name m +:+
   (if String.eqb (Name m) exclude then " (excluded)" else "") +:+
   (if Listed m then "" else " unlisted") +:+
   (if negb (Reachable m) && negb (String.eqb (Why m) "") then " unreachable: " +:+ Why m
    else if negb (Reachable m) then " unreachable, no reason recorded"
    else (if InRecovery m then " in-recovery" else " not-in-recovery") +:+
         (if Streaming m then " streaming" else " not-streaming") +:+
         " flush=" +:+ pretty (FlushLSN m)))%string.
Definition describeViews (members : list memberView) (exclude : string) : string :=
  if bool_decide (members = []) then "no members"%string
  else String.concat "; " (describeView exclude <$> members).

(** ** The choice *)

(** The refusals, each with what was seen. *)
Inductive refusal := NoCandidate (saw : string) | Quorum (saw : string).

(** The order the eligible members are sorted in. *)
Definition ranksBefore (a b : memberView) : bool :=
  if negb (FlushLSN a =? FlushLSN b) then FlushLSN b <? FlushLSN a
  else if negb (ReadySlots a =? ReadySlots b) then ReadySlots b <? ReadySlots a
  else String.ltb (Name a) (Name b).
Definition ranked (a b : memberView) : Prop := ranksBefore b a = false.
#[export] Instance ranked_dec : RelDecision ranked.
Proof. intros a b. unfold ranked. apply _. Defined.

(** What the loop over the members counts and keeps. *)
Record tally := mkTally { listed : Z; reachableListed : Z; eligible : list memberView }.
Definition tallyOne (exclude : string) (t : tally) (m : memberView) : tally :=
  if String.eqb (Name m) exclude then t else
  let t := if Listed m then {| t with listed := listed t + 1; reachableListed := reachableListed t + (if Reachable m then 1 else 0) |} else t in
  if negb (Reachable m) || negb (InRecovery m) then t else {| t with eligible := eligible t ++ [m] |}.
Definition tallyOf (members : list memberView) (exclude : string) : tally :=
  fold_left (tallyOne exclude) members (mkTally 0 0 []).

Definition chooseCandidate (members : list memberView) (exclude preferred : string) (numSync : Z) : result refusal string :=
  let numSync := if numSync <? 1 then 1 else numSync in
  let t := tallyOf members exclude in
  if bool_decide (eligible t = []) then Err (NoCandidate (describeViews members exclude)) else
  if (reachableListed t <? listed t) && (reachableListed t + numSync <=? listed t)
  then Err (Quorum (describeViews members exclude)) else
  match merge_sort ranked (eligible t) with
  | [] => Err (NoCandidate "")
  | best :: rest =>
      match list_find (λ m, Name m = preferred ∧ FlushLSN m = FlushLSN best) (best :: rest) with
      | Some (_, m) => Ok (Name m)
      | None => Ok (Name best)
      end
  end.

Definition minSyncStandbys (spec : Z) : Z := if 0 <? spec then spec else 1.
Definition refuseAsyncFailover (spec : Z) : bool := spec =? 0.

(** ** Epochs *)

Definition nextEpoch (groupEpoch agentEpoch : Z) : Z :=
  let e := i64 (i64 agentEpoch + 1) in
  if i64 (groupEpoch + 1) <? e then e else i64 (groupEpoch + 1).
Definition promotionEpoch (groupEpoch agentEpoch : Z) : Z :=
  if groupEpoch <=? i64 agentEpoch then i64 (i64 agentEpoch + 1) else groupEpoch.

(** ** [synchronous_standby_names] *)

(** The names listed, the streaming ones first, and how many of them a commit
    waits for. *)
Definition syncListed (members : list string) (primary : string) (streaming : gset string) : list string :=
  filter (λ n, n ≠ primary ∧ n ∈ streaming) members ++ filter (λ n, n ≠ primary ∧ n ∉ streaming) members.
Definition syncClamp (numSync : Z) (all : list string) : Z :=
  if Z.of_nat (length all) <? numSync then Z.of_nat (length all) else numSync.
Definition dquoted (n : string) : string := (String (Ascii.ascii_of_nat 34) n +:+ String (Ascii.ascii_of_nat 34) "")%string.
Definition SyncStandbyNames (members : list string) (primary : string) (numSync : Z) (streaming : gset string) : string :=
  let all := syncListed members primary streaming in
  if bool_decide (all = []) || (numSync <? 1) then ""%string else
  ("ANY " +:+ pretty (syncClamp numSync all) +:+ " (" +:+ String.concat ", " (dquoted <$> all) +:+ ")")%string.

(** ** The choice is the best of those that answered *)

Lemma tallyOf_spec members exclude :
  tallyOf members exclude = mkTally
    (Z.of_nat (length (filter (λ m, Name m ≠ exclude ∧ Listed m) members)))
    (Z.of_nat (length (filter (λ m, Name m ≠ exclude ∧ Listed m ∧ Reachable m) members)))
    (filter (λ m, Name m ≠ exclude ∧ Reachable m ∧ InRecovery m) members).
Proof.
  unfold tallyOf. induction members as [|m members IH] using rev_ind; [done|].
  rewrite fold_left_app, IH. cbn [fold_left]. rewrite !filter_app, !filter_cons, !filter_nil. unfold tallyOne.
  destruct (String.eqb_spec (Name m) exclude) as [->|Hne].
  - rewrite !decide_False by naive_solver. by rewrite !app_nil_r.
  - destruct (Listed m), (Reachable m), (InRecovery m); cbn; repeat (case_decide; [|try (exfalso; tauto)]); try (exfalso; tauto); cbn;
      rewrite ?app_nil_r, ?length_app; cbn; f_equal; lia.
Qed.

#[local] Instance ranked_total : Total ranked.
Proof.
  intros a b. unfold ranked, ranksBefore.
  destruct (Z.eqb_spec (FlushLSN b) (FlushLSN a)) as [E|E], (Z.eqb_spec (FlushLSN a) (FlushLSN b)) as [E'|E']; try lia; cbn.
  2: { destruct (Z.ltb_spec (FlushLSN a) (FlushLSN b)), (Z.ltb_spec (FlushLSN b) (FlushLSN a)); auto; lia. }
  destruct (Z.eqb_spec (ReadySlots b) (ReadySlots a)) as [F|F], (Z.eqb_spec (ReadySlots a) (ReadySlots b)) as [F'|F']; try lia; cbn.
  2: { destruct (Z.ltb_spec (ReadySlots a) (ReadySlots b)), (Z.ltb_spec (ReadySlots b) (ReadySlots a)); auto; lia. }
  unfold String.ltb. rewrite (String.compare_antisym (Name a) (Name b)). destruct (String.compare _ _); cbn; auto.
Qed.

Lemma ranked_flush a b : ranked a b → FlushLSN b ≤ FlushLSN a.
Proof. unfold ranked, ranksBefore. destruct (Z.eqb_spec (FlushLSN b) (FlushLSN a)); cbn; [lia|]. intros ?%Z.ltb_ge. lia. Qed.

Lemma sorted_head l best rest m : merge_sort ranked l = best :: rest → m ∈ l → FlushLSN m ≤ FlushLSN best.
Proof.
  intros E Hm. pose proof (Sorted_merge_sort ranked l) as Hs. rewrite E in Hs.
  rewrite <-(merge_sort_Permutation ranked), E in Hm.
  assert (StronglySorted (λ a b, FlushLSN b ≤ FlushLSN a) (best :: rest)) as Hss.
  { apply Sorted_StronglySorted; [intros ???; lia|]. clear E Hm. induction Hs as [|a l' ? IH Hd]; constructor; [done|].
    destruct Hd; constructor. by apply ranked_flush. }
  inversion Hss as [|?? _ Hall]; subst. apply elem_of_cons in Hm as [->|Hm]; [lia|]. by eapply (proj1 (Forall_forall _ _)) in Hall.
Qed.

(** The member chosen answered, is a standby, and none that answered as one is
    ahead of it. *)
Lemma chooseCandidate_best members exclude preferred numSync c :
  chooseCandidate members exclude preferred numSync = Ok c →
  ∃ m, m ∈ members ∧ Name m = c ∧ c ≠ exclude ∧ Reachable m = true ∧ InRecovery m = true ∧
    ∀ m', m' ∈ members → Name m' ≠ exclude → Reachable m' = true → InRecovery m' = true → FlushLSN m' ≤ FlushLSN m.
Proof.
  unfold chooseCandidate. rewrite tallyOf_spec. cbn [listed reachableListed eligible]. set (l := filter _ members).
  case_bool_decide as Hl; [done|]. case_match; [done|]. destruct (merge_sort ranked l) as [|best rest] eqn:E; [done|].
  assert (∀ m, m ∈ best :: rest → m ∈ members ∧ Name m ≠ exclude ∧ Reachable m ∧ InRecovery m) as Hin.
  { intros m Hm. rewrite <-E, merge_sort_Permutation in Hm. apply list_elem_of_filter in Hm. naive_solver. }
  assert (∃ m, m ∈ best :: rest ∧ FlushLSN m = FlushLSN best ∧
    match list_find (λ m, Name m = preferred ∧ FlushLSN m = FlushLSN best) (best :: rest) with
    | Some (_, m) => Ok (E := refusal) (Name m) | None => Ok (Name best) end = Ok (Name m)) as (m & Hm & Hlsn & ->).
  { destruct (list_find _ _) as [[i m]|] eqn:Ef; [|by exists best; split; [left|]].
    apply list_find_Some in Ef as (Hm%list_elem_of_lookup_2 & [_ ?] & _). eauto. }
  intros [= <-]. destruct (Hin m Hm) as (? & ? & ?%Is_true_true_1 & ?%Is_true_true_1). exists m. split_and!; try done.
  intros m' Hm' ? Hr Hi. rewrite Hlsn. eapply sorted_head; [done|]. apply list_elem_of_filter. rewrite Hr, Hi. done.
Qed.

(** ** The quorum rule *)

Section Quorum.
Context (members : list memberView) (exclude : string).

Definition votes (P : memberView → Prop) `{!∀ m, Decision (P m)} : Z :=
  Z.of_nat (length (filter (λ m, (Name m ≠ exclude ∧ Listed m) ∧ P m) members)).

Lemma votes_split P `{HP : !∀ m, Decision (P m)} Q `{HQ : !∀ m, Decision (Q m)} :
  (∀ m, m ∈ members → Name m ≠ exclude → Listed m → P m → Q m → False) →
  votes P + votes Q ≤ Z.of_nat (length (filter (λ m, Name m ≠ exclude ∧ Listed m) members)).
Proof.
  unfold votes. induction members as [|m l IH]; [done|]. intros Hno. rewrite !filter_cons.
  assert (Hl := IH (λ m' Hm', Hno m' (list_elem_of_further _ _ _ Hm'))).
  specialize (Hno m (list_elem_of_here _ _)). repeat case_decide; cbn; try tauto; try lia.
Qed.
End Quorum.

(** Every listed standby but the excluded one either answered or did not. *)
Lemma unreachable_votes members exclude :
  votes members exclude (λ m, ¬ Reachable m) + Z.of_nat (length (filter (λ m, Name m ≠ exclude ∧ Listed m ∧ Reachable m) members)) =
  Z.of_nat (length (filter (λ m, Name m ≠ exclude ∧ Listed m) members)).
Proof.
  unfold votes. induction members as [|m l IH]; [done|]. rewrite !filter_cons. repeat case_decide; cbn; try tauto; lia.
Qed.

(** Where every standby is listed, and a quorum of them holds a position:
    whichever they are, the member chosen holds it too. *)
Lemma chooseCandidate_holds members exclude preferred numSync c (holds : memberView → Prop) `{!∀ m, Decision (holds m)} L :
  chooseCandidate members exclude preferred numSync = Ok c →
  (∀ m, m ∈ members → Name m ≠ exclude → Listed m = true) →
  Z.min (Z.max 1 numSync) (Z.of_nat (length (filter (λ m, Name m ≠ exclude ∧ Listed m) members))) ≤ votes members exclude holds →
  (∀ m, m ∈ members → Name m ≠ exclude → holds m → Reachable m = true → InRecovery m = true ∧ L ≤ FlushLSN m) →
  ∃ m, m ∈ members ∧ Name m = c ∧ Reachable m = true ∧ L ≤ FlushLSN m.
Proof.
  intros Hc Hall Hq Hh. destruct (chooseCandidate_best _ _ _ _ _ Hc) as (m & Hm & Hn & Hne & Hr & _ & Hbest).
  destruct (decide (Exists (λ m', Name m' ≠ exclude ∧ holds m' ∧ Reachable m') members)) as [He|He].
  { apply Exists_exists in He as (m' & Hm' & Hne' & Hho & Hre%Is_true_true_1). destruct (Hh m') as [Hi HL]; [done..|].
    exists m. split_and!; try done. transitivity (FlushLSN m'); auto. }
  exfalso. pose proof (votes_split members exclude holds (λ m, Reachable m)) as Hs.
  rewrite Exists_exists in He. specialize (Hs ltac:(naive_solver)).
  assert (votes members exclude (λ m, Reachable m) = Z.of_nat (length (filter (λ m, Name m ≠ exclude ∧ Listed m ∧ Reachable m) members))) as Hv.
  { unfold votes. do 2 f_equal. apply list_filter_iff. tauto. }
  assert (1 ≤ votes members exclude (λ m, Reachable m)) as H1.
  { unfold votes. set (l := filter _ members). assert (m ∈ l) as Hin.
    { apply list_elem_of_filter. rewrite (Hall m Hm) by congruence. rewrite Hr. split; [split; [split; [congruence|done]|done]|done]. }
    destruct l; [by apply not_elem_of_nil in Hin|]. cbn. lia. }
  revert Hc. unfold chooseCandidate. rewrite tallyOf_spec. cbn [listed reachableListed eligible].
  case_bool_decide; [done|]. case_match eqn:Eq; [done|]. intros _. rewrite <-Hv in Eq.
  apply andb_false_iff in Eq as [Eq%Z.ltb_ge|Eq%Z.leb_gt]; [|destruct (Z.ltb_spec numSync 1)]; lia.
Qed.

(** When somebody may be promoted. *)
Lemma chooseCandidate_decides members exclude preferred numSync :
  (∃ c, chooseCandidate members exclude preferred numSync = Ok c) ↔
  (∃ m, m ∈ members ∧ Name m ≠ exclude ∧ Reachable m ∧ InRecovery m) ∧
  votes members exclude (λ m, ¬ Reachable m) < Z.max 1 numSync.
Proof.
  unfold chooseCandidate. rewrite tallyOf_spec. cbn [listed reachableListed eligible].
  pose proof (unreachable_votes members exclude) as Hu. set (l := filter (λ m, _ ∧ _ ∧ InRecovery m) members).
  assert ((∃ m, m ∈ members ∧ Name m ≠ exclude ∧ Reachable m ∧ InRecovery m) ↔ l ≠ []) as ->.
  { split.
    - intros (m & Hm & Hp) Hl. eapply not_elem_of_nil. rewrite <-Hl. apply list_elem_of_filter. done.
    - destruct l as [|m l'] eqn:El; [done|]. intros _. exists m. assert (m ∈ l) as Hm by (rewrite El; left).
      apply list_elem_of_filter in Hm. naive_solver. }
  case_bool_decide as Hl; [split; [by intros []|by intros []]|].
  destruct (merge_sort ranked l) as [|best rest] eqn:Es.
  { exfalso. apply Hl. apply Permutation_nil_r. by rewrite <-Es, merge_sort_Permutation. }
  destruct (Z.ltb_spec numSync 1); cbn beta iota zeta; case_match eqn:Eq.
  all: try (apply andb_true_iff in Eq as [Eq%Z.ltb_lt Eq'%Z.leb_le]; split; [by intros []|intros []; lia]).
  all: apply andb_false_iff in Eq; cbn in Eq; assert (votes members exclude (λ m, ¬ Reachable m) < Z.max 1 numSync)
         by (destruct Eq as [Eq%Z.ltb_ge|Eq%Z.leb_gt]; lia).
  all: split; [done|]; intros _; destruct (list_find _ _) as [[]|]; eauto.
Qed.
(** C14. A failover finds a candidate exactly when it may: if and only if some
    member other than the old primary answers and is in recovery, and the listed
    standbys that did not answer are too few to have acknowledged a commit by
    themselves. *)
Theorem chooseCandidate_exact members exclude preferred numSync :
  (∃ c, chooseCandidate members exclude preferred numSync = Ok c) ↔
  (∃ m, m ∈ members ∧ Name m ≠ exclude ∧ Reachable m ∧ InRecovery m) ∧
  votes members exclude (λ m, ¬ Reachable m) < Z.max 1 numSync.
Proof. apply chooseCandidate_decides. Qed.
(** Three standbys whose primary is gone: two that answer and one that does not,
    of which a commit waits for two, and for one. *)
Definition twoOfThree : list memberView :=
  [mkView "b" true true true false 100 0 ""; mkView "c" true true true false 90 0 ""; mkView "d" true false false false 0 0 "timeout"]%string.
Lemma chooseCandidate_exact_witness :
  (∃ c, chooseCandidate twoOfThree "a" "" 2 = Ok c) ∧ ¬ ∃ c, chooseCandidate twoOfThree "a" "" 1 = Ok c.
Proof.
  split.
  - apply (chooseCandidate_exact twoOfThree "a" "" 2). split; [eexists; split; [left|done]|by vm_compute].
  - intros [_ H]%(chooseCandidate_exact twoOfThree "a" "" 1). vm_compute in H. discriminate H.
Defined.

(** The epoch of a promotion is above the group's and above what the candidate
    accepted, as long as neither has run out of numbers. *)
Lemma nextEpoch_above g a : 0 ≤ g < MaxInt64 → 0 ≤ a < MaxInt64 → g < nextEpoch g a ∧ a < nextEpoch g a.
Proof.
  unfold MaxInt64, two63. intros Hg Ha. unfold nextEpoch. rewrite (i64_id a), !i64_id by (unfold_int; lia). destruct (Z.ltb_spec (g + 1) (a + 1)); lia.
Qed.
