(* ===== verification/FailWorld.v ===== *)
(** * The world a failover runs in

    One group of PostgreSQL members, as the operator's failover of
    [src/internal/operator/failover.go] finds it: the servers with the WAL each
    has on disk, their agents with the epochs they accepted ([Server.Promote]
    of [src/internal/agent/server.go]), their Pods and the kubelets that stop
    them, the group Lease, the published primary and epoch, and the position up
    to which commits were acknowledged to clients.  All of it moves by itself
    while the operator works; only what it writes is its own. *)

From S2P Require Import Prelude Prog Triples Candidate.

Local Open Scope Z_scope.

(** ** State *)

(** A member: its server runs or not, is a standby or a primary, holds WAL up
    to [m_flush] on disk.  [m_received] is [pg_last_wal_receive_lsn()], null
    until a WAL receiver has run; [m_replayed] is [pg_last_wal_replay_lsn()];
    [m_pending] says that the setup after its promotion is not done. *)
Record member := mkMember {
  m_up : bool; m_rec : bool; m_streaming : bool;
  m_flush : Z; m_received : option Z; m_replayed : Z;
  m_epoch : Z; m_pending : bool; m_slots : gset string; m_paused : bool }.

Record pod := mkPod { p_uid : Z; p_ip : bool; p_ready : bool; p_terminating : bool; p_ended : bool; p_role : string }.

(** A [coordination.k8s.io] Lease; [l_version] is its resourceVersion. *)
Record lease := mkLease {
  l_holder : string; l_renew : option Z; l_seconds : option Z; l_acquire : option Z; l_transitions : Z;
  l_epoch : Z; l_primary : string; l_version : Z }.

(** [w_forced]: a Pod was removed without the kubelet's word that it stopped.
    [w_orders]: the promotions the operator asked agents for; one whose answer
    was not awaited may be carried out later. *)
Record world := mkWorld {
  w_members : gmap string member;
  w_pods : gmap string pod; w_nextUid : Z; w_forced : bool;
  w_lease : option lease;
  w_primary : string; w_epoch : Z; w_syncSet : gset string;
  w_shard : option (string * Z); w_writeFence : bool;
  w_switchover : option string;
  w_since : option Z; w_waiting : option Z; w_repromote : option Z;
  w_full : gset string; w_readySlots : gmap string Z;
  w_orders : list (string * Z);
  w_acked : Z;
  w_clock : Z }.

(** What is fixed in a run: the members, the primary it starts with, the
    acknowledgements a commit waits for there, and the operator's settings.
    [g_backlog] says whether a standby may restart before it replayed the WAL
    it holds. *)
Record group := mkGroup {
  g_members : list string; g_old : string; g_acks : Z; g_backlog : bool;
  g_minSync : Z; g_shard : bool; g_endpoint : string → string; g_slotName : string → string;
  g_quiesceTimeout : Z; g_pollInterval : Z; g_podFenceTimeout : Z; g_failoverDelay : Z; g_catchUp : Z; g_leaseDuration : Z }.

Inductive err :=
| EConn | ENotFound | EConflict | EStaleEpoch
| ENoCandidate | EAsync | ERefused (r : refusal) | EStillLive | ELeaseHeld (holder : string)
| EChanged (now was : string) | EText (s : string) | EFuel
| EWrap (s : string) (e : err) | EJoin (a b : err).

(** [errors.Is] of the sentinels the reconciler tests for. *)
Fixpoint isNoCandidate (e : err) : bool :=
  match e with
  | ENoCandidate | EAsync | ERefused _ => true
  | EWrap _ e => isNoCandidate e
  | EJoin a b => isNoCandidate a || isNoCandidate b
  | _ => false
  end.
Fixpoint isStillLive (e : err) : bool :=
  match e with
  | EStillLive => true
  | EWrap _ e => isStillLive e
  | EJoin a b => isStillLive a || isStillLive b
  | _ => false
  end.

(** ** The agent *)

Definition Second : Z := 1000000000.
Definition FenceHolder : string := "pgshard-operator".

(** [Lease.canTake] and [Lease.spec] of [src/internal/agent/lease.go]. *)
Definition canTake (duration now : Z) (holder : string) (cur : lease) : bool :=
  if String.eqb (l_holder cur) "" || String.eqb (l_holder cur) holder then true else
  match l_renew cur with
  | None => true
  | Some t => t + default (duration ÷ Second) (l_seconds cur) * Second <? now
  end.
Definition spec (duration now : Z) (holder : string) (base : option lease) : lease :=
  let out := default (mkLease "" None None None 0 0 "" 0) base in
  let out := if bool_decide (base = None) || negb (String.eqb (l_holder out) holder)
             then {| out with l_acquire := Some now; l_transitions := l_transitions out + 1 |} else out in
  {| out with l_holder := holder; l_seconds := Some (duration ÷ Second); l_renew := Some now; l_version := l_version out + 1 |}.
(** [Lease.acquireOnce], with nobody else writing in between. *)
Definition acquireOnce (duration now : Z) (holder : string) (cur : option lease) : result err lease :=
  match cur with
  | None => Ok (spec duration now holder None)
  | Some l => if canTake duration now holder l then Ok (spec duration now holder (Some l)) else Err (ELeaseHeld (l_holder l))
  end.

(** [Server.Promote]: the epoch is accepted, the lease taken or renewed, and a
    standby that can be reached and receives no WAL becomes a primary. *)
Definition agentPromote (G : group) (name : string) (epoch : Z) (w : world) : result err () * world :=
  match w_members w !! name with
  | None => (Err EConn, w)
  | Some m =>
      if epoch <=? m_epoch m then (Err EStaleEpoch, w) else
      let w := {| w with w_members := <[name := {| m with m_epoch := epoch |}]> (w_members w) |} in
      match acquireOnce (g_leaseDuration G) (w_clock w) name (w_lease w) with
      | Err e => (Err (EWrap "acquire lease" e), w)
      | Ok l =>
          let w := {| w with w_lease := Some l |} in
          if negb (m_up m) || m_streaming m then (Err EConn, w) else
          (Ok (), {| w with w_members := <[name := {| m with m_epoch := epoch; m_rec := false; m_pending := false |}]> (w_members w) |})
      end
  end.

(** [Server.Demote]: a higher epoch is accepted, or the same one by a member
    that a demotion already stopped; the server stops, the lease is given back,
    and the member follows as a standby. *)
Definition agentDemote (name : string) (epoch : Z) (w : world) : result err () * world :=
  match w_members w !! name with
  | None => (Err EConn, w)
  | Some m =>
      if negb (negb (epoch =? 0) && (epoch =? m_epoch m) && negb (m_up m)) && (epoch <=? m_epoch m) then (Err EStaleEpoch, w) else
      (Ok (), {| w with w_members := <[name := {| m with m_epoch := epoch; m_up := true; m_rec := true; m_streaming := false |}]> (w_members w);
                        w_lease := match w_lease w with
                                   | Some l => Some (if String.eqb (l_holder l) name then {| l with l_holder := ""; l_version := l_version l + 1 |} else l)
                                   | None => None
                                   end |})
  end.

(** ** What happens by itself *)

(** Members that listed standbys other than the primary are, and how many hold
    a position. *)
Definition standbys (G : group) : list string := filter (λ n, n ≠ g_old G) (g_members G).
Definition holds (L : Z) (ms : gmap string member) (s : string) : Prop :=
  match ms !! s with Some m => L ≤ m_flush m | None => False end.
#[export] Instance holds_dec L ms s : Decision (holds L ms s).
Proof. unfold holds. destruct (ms !! s); apply _. Defined.
Definition held (G : group) (L : Z) (ms : gmap string member) : Z :=
  Z.of_nat (length (filter (holds L ms) (standbys G))).

Section Env.
Context (G : group).
Local Notation old := (g_old G).

(** One member moves, the others stay. *)
Inductive member_step (w : world) : string → member → member → Prop :=
| mem_write m n : m_up m = true → m_rec m = false → m_flush m ≤ n → member_step w old m {| m with m_flush := n |}
| mem_receive s m n o :
    s ≠ old → m_up m = true → m_rec m = true → m_streaming m = true → w_members w !! old = Some o → m_flush m ≤ n ≤ m_flush o →
    member_step w s m {| m with m_flush := n; m_received := Some n |}
| mem_replay s m n : s ≠ old → m_rec m = true → m_replayed m ≤ n ≤ m_flush m → member_step w s m {| m with m_replayed := n |}
| mem_connect s m o :
    s ≠ old → m_up m = true → m_rec m = true → w_members w !! old = Some o → m_up o = true →
    member_step w s m {| m with m_streaming := true |}
| mem_disconnect s m : s ≠ old → member_step w s m {| m with m_streaming := false |}
| mem_pending s m b : member_step w s m {| m with m_pending := b |}
| mem_stop s m : member_step w s m {| m with m_up := false; m_streaming := false |}
| mem_start s m :
    s ≠ old → g_backlog G = true ∨ m_replayed m = m_flush m →
    member_step w s m {| m with m_up := true; m_received := None |}
| mem_start_old m p : w_pods w !! old = Some p → member_step w old m {| m with m_up := true |}.

(** Kubelets report on the Pods they run, and remove one that was asked to go
    once its server stopped. *)
Inductive pod_step (w : world) : string → pod → option pod → Prop :=
| pod_reports s p ip ready ended : pod_step w s p (Some {| p with p_ip := ip; p_ready := ready; p_ended := ended |})
| pod_gone s p :
    p_terminating p = true → (∀ m, w_members w !! s = Some m → m_up m = false) → pod_step w s p None.

Inductive env : world → world → Prop :=
| env_member w s m m' : w_members w !! s = Some m → member_step w s m m' → env w {| w with w_members := <[s := m']> (w_members w) |}
(** a commit is acknowledged: the primary holds it, and so do as many of the
    listed standbys as it waits for *)
| env_ack w m L :
    w_members w !! old = Some m → m_up m = true → m_rec m = false → w_acked w ≤ L ≤ m_flush m →
    Z.min (g_acks G) (Z.of_nat (length (standbys G))) ≤ held G L (w_members w) →
    env w {| w with w_acked := L |}
| env_pod w s p p' : w_pods w !! s = Some p → pod_step w s p p' → env w {| w with w_pods := partial_alter (λ _, p') s (w_pods w) |}
(** agents renew, release and take the Lease *)
| env_lease w l : env w {| w with w_lease := l |}
| env_order w s e : (s, e) ∈ w_orders w → env w (agentPromote G s e w).2
(** what a finished pass last saw streaming; requests; other components *)
| env_syncSet w ss : env w {| w with w_syncSet := ss |}
| env_switchover w t : env w {| w with w_switchover := t |}
| env_writeFence w b : env w {| w with w_writeFence := b |}
| env_full w f : env w {| w with w_full := f |}
| env_readySlots w f : env w {| w with w_readySlots := f |}
(** an operator that restarts has no timers *)
| env_timers w : env w {| w with w_since := None; w_waiting := None; w_repromote := None |}
| env_clock w n : 0 ≤ n → env w {| w with w_clock := w_clock w + n |}.
End Env.

(** ** Programs *)

#[export] Instance fail_world : World world err := {|
  tick d w := (w_clock w + Z.max 0 d, {| w with w_clock := w_clock w + Z.max 0 d |});
  transient e := e = EConn |}.
Abbreviation prog := (Prog.prog world err).

Abbreviation M := (PM world err).

(** ** Statements *)

(** Pods *)
Definition getPod (name : string) : M pod := ask (λ w, match w_pods w !! name with Some p => Ok p | None => Err ENotFound end).
Definition createPod (name role : string) : M pod :=
  stmt (λ w, match w_pods w !! name with
             | Some _ => (Ok (mkPod 0 false false false false role), w)
             | None => let p := mkPod (w_nextUid w) false false false false role in
                       (Ok p, {| w with w_pods := <[name := p]> (w_pods w); w_nextUid := w_nextUid w + 1 |})
             end).
(** A delete with a grace period asks the kubelet; one without removes the
    object there and then. *)
Definition deletePod (name : string) (force : bool) : M () :=
  stmt (λ w, match w_pods w !! name with
             | None => (Err ENotFound, w)
             | Some p => (Ok (), if force then {| w with w_pods := delete name (w_pods w); w_forced := true |}
                                 else {| w with w_pods := <[name := {| p with p_terminating := true |}]> (w_pods w) |})
             end).
Definition labelPod (name role : string) : M () :=
  stmt (λ w, match w_pods w !! name with
             | None => (Err ENotFound, w)
             | Some p => (Ok (), {| w with w_pods := <[name := {| p with p_role := role |}]> (w_pods w) |})
             end).

(** The Lease; an update is conditional on the version it was read at. *)
Definition getLease : M lease := ask (λ w, match w_lease w with Some l => Ok l | None => Err ENotFound end).
Definition createLease (l : lease) : M () :=
  stmt (λ w, match w_lease w with Some _ => (Err EConflict, w) | None => (Ok (), {| w with w_lease := Some l |}) end).
Definition updateLease (l : lease) : M () :=
  stmt (λ w, match w_lease w with
             | None => (Err ENotFound, w)
             | Some cur => if l_version cur =? l_version l then (Ok (), {| w with w_lease := Some {| l with l_version := l_version l + 1 |} |})
                           else (Err EConflict, w)
             end).

(** The group's status, and the shard's row of the catalog: an equal or higher
    epoch replaces what it says. *)
Definition patchStatus (primary : string) (epoch : Z) : M () := stmt (λ w, (Ok (), {| w with w_primary := primary; w_epoch := epoch |})).
Definition PublishShardStatus (endpoint : string) (epoch : Z) : M () :=
  stmt (λ w, (Ok (), match w_shard w with
                     | Some (_, e) => if e <=? epoch then {| w with w_shard := Some (endpoint, epoch) |} else w
                     | None => {| w with w_shard := Some (endpoint, epoch) |}
                     end)).

(** Agents *)
Record AgentStatus := mkStatus { Running : bool; Primary : bool; Epoch : Z; PromotionPending : bool }.
(** [Status]; beside it, whether the server refused the agent a connection slot
    (53300), which comes as an error that says the server runs. *)
Definition Status (name : string) : M (AgentStatus * bool) :=
  ask (λ w, match w_members w !! name with
            | Some m => Ok (mkStatus (m_up m) (negb (m_rec m)) (m_epoch m) (m_pending m), m_up m && bool_decide (name ∈ w_full w))
            | None => Err EConn
            end).
Definition Promote (G : group) (name : string) (epoch : Z) : M () :=
  stmt (λ w, agentPromote G name epoch {| w with w_orders := w_orders w ++ [(name, epoch)] |}).
Definition Demote (name : string) (epoch : Z) : M () := stmt (agentDemote name epoch).
Definition LogicalSlots (name : string) : M Z := ask (λ w, Ok (default 0 (w_readySlots w !! name))).

(** Servers *)
Record StandbyState := mkStandby { sb_inRecovery : bool; sb_streaming : bool; sb_flush : Z }.
Definition probed (m : member) : StandbyState :=
  mkStandby (m_rec m) (m_streaming m) (if m_rec m then Z.max (default 0 (m_received m)) (m_replayed m) else m_flush m).
Definition ProbeStandby (name : string) : M StandbyState :=
  ask (λ w, match w_members w !! name with
            | Some m => if m_up m then Ok (probed m) else Err EConn
            | None => Err EConn
            end).
Definition onServer (name : string) (f : member → member) : M () :=
  stmt (λ w, match w_members w !! name with
             | Some m => if m_up m then (Ok (), {| w with w_members := <[name := f m]> (w_members w) |}) else (Err EConn, w)
             | None => (Err EConn, w)
             end).
Definition WriteFenced : M bool := ask (λ w, Ok (w_writeFence w)).
Definition PauseWrites (name : string) : M () := onServer name (λ m, {| m with m_paused := true |}).
Definition createSlot (name slot : string) : M () := onServer name (λ m, {| m with m_slots := {[slot]} ∪ m_slots m |}).
Definition dropSlot (name slot : string) : M () := onServer name (λ m, {| m with m_slots := m_slots m ∖ {[slot]} |}).

(** The reconciler's own timers. *)
Definition memory {X} (f : world → X * world) : M X := stmt (λ w, let '(x, w) := f w in (Ok x, w)).
