(* ===== verification/Failover.v ===== *)
(** * Failover

    [src/internal/operator/failover.go] and the part of a reconcile pass that
    leads to it ([reconcileGroup], [switchover], [observePod] of
    [reconciler.go]), statement by statement: the Lease is fenced, the old
    primary and the standbys are waited for, a candidate is chosen, the old
    primary's Pod is removed, the choice is confirmed, the new primary and epoch
    are published, and only then is it promoted. *)

From S2P Require Import Prelude Prog Triples Candidate FailWorld.

Local Open Scope Z_scope.

Definition fenceLeaseSeconds : Z := 60.
Definition RolePrimary : string := "primary".
Definition RoleReplica : string := "replica".
Definition RoleUnhealthy : string := "unhealthy".

Record groupState := mkState { primary : string; epoch : Z; syncSet : gset string }.
Record memberInfo := mkInfo { i_pod : option pod; i_ready : bool; i_ip : bool }.
Abbreviation members := (gmap string memberInfo).

(** Errors *)
Definition ignoreNotFound {A} (r : result err A) : option err :=
  match r with Ok _ | Err ENotFound => None | Err e => Some e end.
(** [errors.Join] of an error and what a cleanup returned. *)
Definition joined (e : err) (r : result err ()) : err := match r with Ok _ => e | Err e' => EJoin e e' end.

(** ** Health and timers *)

Definition runningButFull (st : AgentStatus) (full : bool) : bool := Running st && full.
(** A status as the callers see it: the answer, if any, and whether it came
    with the error of a full server. *)
Abbreviation answer := (option (AgentStatus * bool)).
Definition livePrimary (a : answer) : bool :=
  match a with
  | Some (st, full) => (negb full || runningButFull st full) && Running st && Primary st
  | None => false
  end.
Definition primaryHealthy (p : option pod) (ready : bool) (a : answer) : bool :=
  match p with None => false | Some _ => ready || livePrimary a end.

(** [unhealthyFor] and [switchoverWaiting]: since when, and how long. *)
Definition waitedFor (since : option Z) (waiting : bool) (now : Z) : Z * option Z :=
  if negb waiting then (0, None) else let s := default now since in (now - s, Some s).
Definition unhealthyFor (unhealthy : bool) : M Z :=
  memory (λ w, let '(d, s) := waitedFor (w_since w) unhealthy (w_clock w) in (d, {| w with w_since := s |})).
Definition switchoverWaiting (waiting : bool) : M Z :=
  memory (λ w, let '(d, s) := waitedFor (w_waiting w) waiting (w_clock w) in (d, {| w with w_waiting := s |})).

(** [repromoteDue] *)
Definition repromoteInterval : Z := 30 * Second.
Definition repromoteDue : M bool :=
  memory (λ w, match w_repromote w with
               | Some last => if w_clock w - last <? repromoteInterval then (false, w) else (true, {| w with w_repromote := Some (w_clock w) |})
               | None => (true, {| w with w_repromote := Some (w_clock w) |})
               end).

(** ** The Lease *)

Definition leaseFenceable (l : lease) (now : Z) (allowed : list string) : bool :=
  if String.eqb (l_holder l) "" || String.eqb (l_holder l) FenceHolder then true else
  if existsb (λ a, negb (String.eqb a "") && String.eqb (l_holder l) a) allowed then true else
  match l_renew l with
  | None => true
  | Some t => t + default 15 (l_seconds l) * Second <? now
  end.

(** The Lease as the fence leaves it. *)
Definition fenced (base : lease) (holder : string) (epoch : Z) (primary : string) (now : Z) : lease :=
  let l := {| base with l_epoch := epoch; l_primary := primary |} in
  let l := if negb (String.eqb (l_holder l) holder) then {| l with l_acquire := Some now; l_transitions := l_transitions l + 1 |} else l in
  {| l with l_holder := holder; l_seconds := Some fenceLeaseSeconds; l_renew := Some now |}.
Definition fenceLease (oldPrimary holder : string) (epoch : Z) (primary : string) : M () :=
  got ← attempt getLease;
  match got with
  | Err ENotFound => t ← now; createLease (fenced (mkLease "" None None None 0 0 "" 0) holder epoch primary t)
  | Err e => fail e
  | Ok l =>
      t ← now;
      if negb (leaseFenceable l t [oldPrimary; holder]) then fail (ELeaseHeld (l_holder l)) else
      t ← now; updateLease (fenced l holder epoch primary t)
  end.
Definition releaseLease : M () :=
  got ← attempt getLease;
  match got with
  | Err ENotFound => mret ()
  | Err e => fail e
  | Ok l => if negb (String.eqb (l_holder l) FenceHolder) then mret () else updateLease {| l with l_holder := "" |}
  end.
Definition renewFence : M () :=
  got ← attempt getLease;
  match got with
  | Err ENotFound => mret ()
  | Err e => fail e
  | Ok l =>
      if negb (String.eqb (l_holder l) FenceHolder) then mret () else
      t ← now; updateLease {| l with l_renew := Some t; l_seconds := Some fenceLeaseSeconds |}
  end.

Definition patchRole (name : string) (p : option pod) (role : string) : M () :=
  match p with
  | None => mret ()
  | Some p => if String.eqb (p_role p) role then mret () else labelPod name role
  end.

Section Failover.
Context (G : group).

(** Rounds enough for a wait that sleeps [g_pollInterval] in each. *)
Definition polls (timeout : Z) : nat := Z.to_nat (timeout ÷ g_pollInterval G + 3).

(** ** Publishing *)

Definition publishFence (oldPrimary primary : string) (epoch : Z) : M () :=
  _ ← (if g_shard G then
         r ← attempt (PublishShardStatus (g_endpoint G primary) epoch);
         match r with Ok _ => mret () | Err e => fail (EWrap "publish shard_status" e) end
       else mret ());
  _ ← patchStatus primary epoch;
  fenceLease oldPrimary primary epoch primary.

(** ** Removing the old primary's Pod *)

Fixpoint podGone (fuel : nat) (name : string) (p : pod) (deadline : Z) : M () :=
  match fuel with
  | O => fail EFuel
  | S fuel =>
      got ← attempt (getPod name);
      match got with
      | Err ENotFound => mret ()
      | Err e => fail e
      | Ok cur =>
          if negb (p_uid cur =? p_uid p) then mret () else
          t ← now;
          if deadline <? t then
            r ← attempt (deletePod name true);
            match ignoreNotFound r with
            | Some e => fail (EWrap "force deleting" e)
            | None => mret ()
            end
          else _ ← sleep (g_pollInterval G); podGone fuel name p deadline
      end
  end.
Definition fencePod (name : string) (m : option memberInfo) : M () :=
  match m ≫= i_pod with
  | None => mret ()
  | Some p =>
      r ← attempt (deletePod name false);
      match ignoreNotFound r with
      | Some e => fail e
      | None => t ← now; podGone (polls (g_podFenceTimeout G)) name p (t + g_podFenceTimeout G)
      end
  end.

(** ** Looking at the members *)

(** The member can be dialled: it had a Pod with an address. *)
Definition dialled (ms : members) (name : string) : bool :=
  match ms !! name with Some m => bool_decide (i_pod m ≠ None) && i_ip m | None => false end.
Definition probeView (ms : members) (listed : bool) (name : string) : M memberView :=
  if dialled ms name then
    r ← attempt (ProbeStandby name);
    match r with
    | Ok st => mret (mkView name listed true (sb_inRecovery st) (sb_streaming st) (sb_flush st) 0 "")
    | Err _ => mret (mkView name listed false false false 0 0 "probe failed")
    end
  else mret (mkView name listed false false false 0 0 "").
Fixpoint probeViews (ms : members) (names : list string) : M (list memberView) :=
  match names with
  | [] => mret []
  | name :: names => v ← probeView ms false name; vs ← probeViews ms names; mret (v :: vs)
  end.

Definition readySlots (name : string) : M Z :=
  r ← attempt (LogicalSlots name);
  mret (match r with Ok n => n | Err _ => 0 end).
Definition fillSlots (ms : members) (v : memberView) : M memberView :=
  if Reachable v && match ms !! Name v with Some m => i_ip m | None => false end
  then n ← readySlots (Name v); mret {| v with ReadySlots := n |} else mret v.
Fixpoint withReadySlots (ms : members) (views : list memberView) : M (list memberView) :=
  match views with
  | [] => mret []
  | v :: views => v ← fillSlots ms v; vs ← withReadySlots ms views; mret (v :: vs)
  end.

(** [Status] of a member, when it can be dialled. *)
Definition askStatus (ms : members) (name : string) : M answer :=
  if dialled ms name then
    r ← attempt (Status name);
    mret (match r with Ok a => Some a | Err _ => None end)
  else mret None.

Fixpoint quiesceLoop (fuel : nat) (ms : members) (old : string) (deadline : Z) : M (list memberView) :=
  match fuel with
  | O => fail EFuel
  | S fuel =>
      _ ← attempt renewFence;
      a ← askStatus ms old;
      let oldGone := negb (livePrimary a) in
      views ← probeViews ms (filter (λ n, n ≠ old) (g_members G));
      let allStopped := forallb (λ v, Reachable v && negb (Streaming v)) views in
      if oldGone && allStopped then withReadySlots ms views else
      t ← now;
      if deadline <? t then
        if negb oldGone then fail EStillLive else withReadySlots ms views
      else _ ← sleep (g_pollInterval G); quiesceLoop fuel ms old deadline
  end.
Definition quiesce (ms : members) (old : string) : M (list memberView) :=
  t ← now; quiesceLoop (polls (g_quiesceTimeout G)) ms old (t + g_quiesceTimeout G).

(** ** The failover *)

(** Every non-primary member is in [synchronous_standby_names]. *)
Definition listAll (old : string) (views : list memberView) : list memberView :=
  (λ v, {| v with Listed := negb (String.eqb (Name v) old) |}) <$> views.
Definition choose (old preferred : string) (views : list memberView) : result err string :=
  match chooseCandidate (listAll old views) old preferred (minSyncStandbys (g_minSync G)) with
  | Ok c => Ok c
  | Err r => Err (ERefused r)
  end.

(** An attempt given up: the fence is released so that a primary can start. *)
Definition abandon {A} (e : err) : M A := r ← attempt releaseLease; fail (joined e r).

Definition pauseIfFenced (name : string) : M () :=
  if negb (g_shard G) then mret () else
  r ← attempt WriteFenced;
  match r with
  | Ok true => _ ← attempt (PauseWrites name); mret ()
  | _ => mret ()
  end.
Fixpoint createSlots (name : string) (slots : list string) : M () :=
  match slots with [] => mret () | s :: slots => _ ← createSlot name s; createSlots name slots end.
Definition EnsureSlots (name : string) (want : list string) (drop : string) : M () :=
  _ ← createSlots name want; dropSlot name drop.

(** Up to the confirmed choice: who may be promoted, and the epoch its agent
    last accepted. *)
Definition confirmCandidate (state : groupState) (ms : members) (preferred : string) : M (string * Z) :=
  let old := primary state in
  _ ← patchRole old (ms !! old ≫= i_pod) RoleUnhealthy;
  _ ← fenceLease old FenceHolder (epoch state) "";
  q ← attempt (quiesce ms old);
  match q with
  | Err e => if isStillLive e then abandon e else fail e
  | Ok views =>
      match choose old preferred views with
      | Err e => abandon e
      | Ok candidate =>
          a ← (if match ms !! candidate with Some m => i_ip m | None => false end
               then r ← attempt (Status candidate); mret (match r with Ok (st, false) => Some st | _ => None end)
               else mret None);
          let candEpoch := match a with Some st => Epoch st | None => 0 end in
          f ← attempt (fencePod old (ms !! old));
          match f with
          | Err e => abandon (EWrap "fencing" e)
          | Ok _ =>
              after ← attempt (quiesce ms old);
              match after with
              | Err e => abandon e
              | Ok after =>
                  match choose old preferred after with
                  | Err e => abandon e
                  | Ok confirmed =>
                      if negb (String.eqb confirmed candidate) then abandon (EChanged confirmed candidate)
                      else mret (candidate, candEpoch)
                  end
              end
          end
      end
  end.

(** Once the new primary is published. *)
Definition promoteCandidate (ms : members) (candidate : string) (epoch : Z) : M () :=
  r ← attempt (Promote G candidate epoch);
  match r with
  | Err e => fail (EWrap "promote" e)
  | Ok _ =>
      _ ← pauseIfFenced candidate;
      _ ← patchRole candidate (ms !! candidate ≫= i_pod) RolePrimary;
      _ ← attempt (EnsureSlots candidate (g_slotName G <$> filter (λ n, n ≠ candidate) (g_members G)) (g_slotName G candidate));
      _ ← unhealthyFor false;
      mret ()
  end.

(** It returns the group's state, moved to the new primary once that is
    published, and the error, if any. *)
Definition failover (state : groupState) (ms : members) (preferred : string) : prog (groupState * option err) :=
  if refuseAsyncFailover (g_minSync G) then Ret (state, Some EAsync) else
  if bool_decide (syncSet state = ∅) then Ret (state, Some ENoCandidate) else
  pbind (confirmCandidate state ms preferred) (λ r, match r with
  | Err e => Ret (state, Some e)
  | Ok (candidate, candEpoch) =>
      let e := nextEpoch (epoch state) candEpoch in
      pbind (publishFence (primary state) candidate e) (λ r, match r with
      | Err er => Ret (state, Some er)
      | Ok _ =>
          let state := {| state with primary := candidate; epoch := e |} in
          pbind (promoteCandidate ms candidate e) (λ r, Ret (state, match r with Ok _ => None | Err er => Some er end))
      end)
  end).

(** ** The pass around it *)

Definition observePod (name : string) (state : groupState) (createIfMissing : bool) : M memberInfo :=
  let role := if String.eqb name (primary state) then RolePrimary else RoleReplica in
  got ← attempt (getPod name);
  match got with
  | Err ENotFound =>
      if negb createIfMissing then mret (mkInfo None false false) else
      p ← createPod name role; mret (mkInfo (Some p) false false)
  | Err e => fail e
  | Ok p =>
      _ ← (if p_ended p then
             r ← attempt (deletePod name false);
             match ignoreNotFound r with Some e => fail e | None => mret () end
           else mret ());
      mret (mkInfo (Some p) (negb (p_terminating p) && p_ready p) (p_ip p))
  end.
Fixpoint observeMembers (state : groupState) (names : list string) : M members :=
  match names with
  | [] => mret ∅
  | name :: names =>
      m ← observePod name state (negb (String.eqb name (primary state)) || bool_decide (syncSet state = ∅));
      ms ← observeMembers state names;
      mret (<[name := m]> ms)
  end.

(** [switchoverCandidate]: why the switchover cannot be, and whether waiting
    may help. *)
Fixpoint switchoverViews (ms : members) (names : list string) : M (list memberView) :=
  match names with
  | [] => mret []
  | name :: names => v ← probeView ms true name; v ← fillSlots ms v; vs ← switchoverViews ms names; mret (v :: vs)
  end.
Definition switchoverCandidate (state : groupState) (ms : members) (target : string) : M (option err * bool) :=
  let old := primary state in
  views ← switchoverViews ms (filter (λ n, n ≠ old) (g_members G));
  mret (match chooseCandidate views old target (minSyncStandbys (g_minSync G)) with
        | Err r => (Some (ERefused r), false)
        | Ok candidate => if negb (String.eqb candidate target) then (Some (EChanged candidate target), true) else (None, false)
        end).

Fixpoint waitPodGone (fuel : nat) (name : string) (p : pod) (deadline : Z) : M () :=
  match fuel with
  | O => fail EFuel
  | S fuel =>
      got ← attempt (getPod name);
      match got with
      | Err ENotFound => mret ()
      | Err e => fail e
      | Ok cur =>
          if negb (p_uid cur =? p_uid p) then mret () else
          t ← now;
          if deadline <? t then fail (EText "pod still present")
          else _ ← sleep (g_pollInterval G); waitPodGone fuel name p deadline
      end
  end.
(** Stopping the old primary by deleting its Pod. *)
Definition stopPod (name : string) (p : option pod) : M () :=
  match p with
  | None => mret ()
  | Some p =>
      _ ← patchRole name (Some p) RoleUnhealthy;
      r ← attempt (deletePod name false);
      match ignoreNotFound r with
      | Some e => fail e
      | None => t ← now; waitPodGone (polls (g_quiesceTimeout G)) name p (t + g_quiesceTimeout G)
      end
  end.

Definition clearAnnotation : M () := stmt (λ w, (Ok (), {| w with w_switchover := None |})).
Definition switchover (state : groupState) (ms : members) (target : string) : M () :=
  if String.eqb target (primary state) then clearAnnotation else
  if negb (bool_decide (target ∈ syncSet state)) then clearAnnotation else
  '(why, catchUp) ← switchoverCandidate state ms target;
  go ← (match why with
        | None => mret (Some true)
        | Some _ =>
            if negb catchUp then mret (Some false) else
            waited ← switchoverWaiting true;
            mret (if waited <? g_catchUp G then None else Some false)
        end);
  match go with
  | None => mret ()
  | Some false => _ ← switchoverWaiting false; clearAnnotation
  | Some true =>
      _ ← switchoverWaiting false;
      let old := primary state in
      _ ← stopPod old (ms !! old ≫= i_pod);
      let ms := match ms !! old with
                | Some m => match i_pod m with Some _ => <[old := mkInfo None false false]> ms | None => ms end
                | None => ms
                end in
      pbind (failover state ms target) (λ '(_, e), (match e with
      | Some e => if isNoCandidate e then r ← attempt clearAnnotation; fail (joined e r) else fail e
      | None => clearAnnotation
      end : M ()))
  end.

(** ** Repairing a group whose primary answers *)

(** [admissiblePrimary]: why the target must not be promoted, if it must not. *)
Fixpoint admissibleViews (ms : members) (syncSet : gset string) (names : list string) : M (list memberView) :=
  match names with
  | [] => mret []
  | name :: names =>
      v ← probeView ms (bool_decide (name ∈ syncSet)) name; v ← fillSlots ms v; vs ← admissibleViews ms syncSet names; mret (v :: vs)
  end.
Definition admissiblePrimary (state : groupState) (ms : members) (target : string) : M (option err) :=
  views ← admissibleViews ms (syncSet state) (g_members G);
  mret (match list_find (λ v, Reachable v ∧ ¬ InRecovery v ∧ Name v ≠ target) views with
        | Some (_, v) => Some (EText (Name v +:+ " is running as a primary"))
        | None =>
            match chooseCandidate views "" target (minSyncStandbys (g_minSync G)) with
            | Err r => Some (ERefused r)
            | Ok candidate => if negb (String.eqb candidate target) then Some (EChanged candidate target) else None
            end
        end).

(** The designated primary is promoted, or promoted again. *)
Definition repromote (state : groupState) (name : string) (i : memberInfo) (st : AgentStatus) : M groupState :=
  let e := promotionEpoch (epoch state) (Epoch st) in
  _ ← (if negb (e =? epoch state) then publishFence "" name e else mret ());
  r ← attempt (Promote G name e);
  match r with
  | Err er => fail (EWrap "promote" er)
  | Ok _ => _ ← patchRole name (i_pod i) RolePrimary; mret {| state with epoch := e |}
  end.
Definition labelled (i : memberInfo) (role : string) : bool :=
  match i_pod i with Some p => String.eqb (p_role p) role | None => false end.

(** One member of [converge]: the state, and why a promotion was refused. *)
Definition convergeOne (state : groupState) (ms : members) (name : string) (i : memberInfo) : M (groupState * option err) :=
  a ← attempt (Status name);
  match a with
  | Err _ => mret (state, None)
  | Ok (st, full) =>
      if negb (Running st) then mret (state, None) else
      if String.eqb name (primary state) && (negb (Primary st) || PromotionPending st) then
        if full : bool then mret (state, None) else
        due ← (if Primary st && PromotionPending st then repromoteDue else mret true);
        if negb due then mret (state, None) else
        why ← (if negb (Primary st) then admissiblePrimary state ms name else mret None);
        match why with
        | Some e => mret (state, Some e)
        | None => state ← repromote state name i st; mret (state, None)
        end
      else if String.eqb name (primary state) && negb (labelled i RolePrimary) then
        _ ← patchRole name (i_pod i) RolePrimary; mret (state, None)
      else if negb (String.eqb name (primary state)) && Primary st then
        _ ← patchRole name (i_pod i) RoleUnhealthy; _ ← attempt (Demote name (epoch state)); mret (state, None)
      else if negb (String.eqb name (primary state)) && negb (labelled i RoleReplica) then
        _ ← patchRole name (i_pod i) RoleReplica; mret (state, None)
      else mret (state, None)
  end.
Fixpoint converge (state : groupState) (ms : members) (refused : option err) (names : list string) : M (groupState * option err) :=
  match names with
  | [] => mret (state, refused)
  | name :: names =>
      match ms !! name with
      | Some i =>
          if dialled ms name then
            '(state, why) ← convergeOne state ms name i;
            converge state ms (match why with Some e => Some e | None => refused end) names
          else converge state ms refused names
      | None => converge state ms refused names
      end
  end.

(** [loadState] of a group that has a primary. *)
Definition readState : M groupState := ask (λ w, Ok (mkState (w_primary w) (w_epoch w) (w_syncSet w))).

(** [reconcileGroup], as far as it decides who is primary: what it does for a
    healthy group once that is settled (settings, slots, services) is left out.
    It is followed as long as the primary the run is about is designated. *)
Definition reconcileGroup : M () :=
  state ← readState;
  if negb (String.eqb (primary state) (g_old G)) then mret () else
  ms ← observeMembers state (g_members G);
  asked ← ask (λ w, Ok (w_switchover w));
  if bool_decide (default "" asked ≠ "" ∧ default "" asked ∈ g_members G)%string then switchover state ms (default "" asked)%string else
  let p := default (mkInfo None false false) (ms !! primary state) in
  a ← askStatus ms (primary state);
  let healthy := primaryHealthy (i_pod p) (i_ready p) a in
  since ← unhealthyFor (negb healthy);
  if healthy then _ ← converge state ms None (g_members G); mret () else
  if since <? g_failoverDelay G then mret () else
  pbind (failover state ms "") (λ '(state, e), (match e with
  | None => mret ()
  | Some e =>
      if isNoCandidate e then
        _ ← unhealthyFor false;
        if bool_decide (i_pod p = None) then _ ← observePod (primary state) state true; mret () else mret ()
      else if isStillLive e then _ ← unhealthyFor false; fail e
      else fail e
  end : M ())).
Definition pass : prog () := pbind reconcileGroup (λ _, Ret ()).
End Failover.
