(* ===== verification/FailSafety.v ===== *)
(** * A failover loses no acknowledged commit

    Whatever fails and in whatever order things happen, up to the change of
    primary: a member that is promoted holds every commit that was ever
    acknowledged, and the old primary has stopped; unless its Pod had to be
    removed without the kubelet's word.  The argument is the one of the code:
    positions sampled once the old primary is gone are final, and among the
    members that answered one must be of the quorum that acknowledged. *)

From S2P Require Import Prelude Prog Triples Candidate FailWorld Failover.

Local Open Scope Z_scope.

Section Safety.
Context (G : group).
Local Notation old := (g_old G).
Local Notation env := (env G).

(** ** The invariant *)

(** The old primary is gone for good and [c] holds all it acknowledged. *)
Definition settled (c : string) (w : world) : Prop :=
  w_pods w !! old = None ∧ holds (w_acked w) (w_members w) c.
Definition gone (w : world) : Prop := w_forced w = true ∨ w_pods w !! old = None.

Record Inv (w : world) : Prop := {
  inv_pod : w_forced w = true ∨ (w_pods w !! old = None → ∀ m, w_members w !! old = Some m → m_up m = false);
  inv_quorum : Z.min (g_acks G) (Z.of_nat (length (standbys G))) ≤ held G (w_acked w) (w_members w);
  inv_probe : g_backlog G = false → ∀ s m, s ≠ old → w_members w !! s = Some m → m_up m = true → m_rec m = true →
    m_flush m ≤ sb_flush (probed m);
  inv_bound : ∀ s m, s ≠ old → w_members w !! s = Some m → 0 ≤ m_flush m ∧ default 0 (m_received m) ≤ m_flush m ∧ m_replayed m ≤ m_flush m;
  inv_rec : ∀ s m, s ≠ old → w_members w !! s = Some m → m_rec m = false → w_primary w = s;
  inv_orders : ∀ s e, (s, e) ∈ w_orders w → s = old ∨ w_primary w = s;
  inv_primary : w_primary w ≠ old → w_forced w = true ∨ settled (w_primary w) w }.

(** What no step but the publication undoes. *)
Record evolves (w w' : world) : Prop := {
  ev_primary : w_primary w' = w_primary w;
  ev_forced : w_forced w = true → w_forced w' = true;
  ev_gone : w_pods w !! old = None → w_pods w' !! old = None;
  ev_uid : ∀ p', w_pods w' !! old = Some p' → ∃ p, w_pods w !! old = Some p ∧ p_uid p = p_uid p';
  ev_holds : ∀ L s, holds L (w_members w) s → holds L (w_members w') s;
  ev_acked : w_forced w = true ∨ w_pods w !! old ≠ None ∨ w_acked w' = w_acked w }.

Lemma fail_evolves_refl w : evolves w w.
Proof. split; eauto. Qed.

Lemma held_mono L ms ms' : (∀ s, holds L ms s → holds L ms' s) → held G L ms ≤ held G L ms'.
Proof.
  intros H. unfold held. apply inj_le. induction (standbys G) as [|s l IH]; [done|]. rewrite !filter_cons.
  repeat case_decide; cbn; try lia. exfalso. auto.
Qed.

(** ** Steps keep it *)

(** A step that touches none of what the invariant reads. *)
Definition aside (w w' : world) : Prop :=
  w_primary w' = w_primary w ∧ w_forced w' = w_forced w ∧ w_pods w' = w_pods w ∧ w_members w' = w_members w ∧
  w_orders w' = w_orders w ∧ w_acked w' = w_acked w.
Lemma aside_keeps w w' : aside w w' → Inv w → Inv w' ∧ evolves w w'.
Proof.
  intros (E1 & E2 & E3 & E4 & E5 & E6) [? ? ? ? ? ? ?].
  split; split; unfold settled in *; rewrite ?E1, ?E2, ?E3, ?E4, ?E5, ?E6; try done; eauto.
Qed.

(** One member moves: it keeps its WAL, only a member that may be promoted
    becomes a primary, only an old primary that has its Pod starts, and what a
    probe reports is not behind the disk. *)
Lemma member_keeps w s m m' :
  w_members w !! s = Some m →
  m_flush m ≤ m_flush m' →
  (s = old → m_up m' = true → m_up m = true ∨ w_pods w !! old ≠ None) →
  (s ≠ old → m_rec m' = false → w_primary w = s) →
  (s ≠ old → 0 ≤ m_flush m' ∧ default 0 (m_received m') ≤ m_flush m' ∧ m_replayed m' ≤ m_flush m') →
  (s ≠ old → g_backlog G = false → m_up m' = true → m_rec m' = true → m_flush m' ≤ sb_flush (probed m')) →
  Inv w → let w' := {| w with w_members := <[s := m']> (w_members w) |} in Inv w' ∧ evolves w w'.
Proof.
  intros Hs Hf Hup Hrec Hb Hp Hi. destruct Hi as [I1 I2 I3 I4 I5 I6 I7].
  assert (∀ L t, holds L (w_members w) t → holds L (<[s := m']> (w_members w)) t) as Hh.
  { intros L t. unfold holds. destruct (decide (s = t)) as [<-|Hne]; [|by rewrite lookup_insert_ne].
    rewrite lookup_insert_eq, Hs. lia. }
  cbn. split; split; cbn; try done; auto.
  - destruct I1 as [?|I1]; [by left|right]. intros Hn m0. destruct (decide (s = old)) as [->|Hne].
    + rewrite lookup_insert_eq. intros [= <-]. specialize (I1 Hn m Hs). destruct (m_up m') eqn:E; [|done].
      destruct (Hup eq_refl eq_refl); congruence.
    + rewrite lookup_insert_ne by done. eauto.
  - etrans; [exact I2|]. apply held_mono. auto.
  - intros Hbk t m0 Ht. destruct (decide (s = t)) as [<-|Hne]; [rewrite lookup_insert_eq; intros [= <-]; auto|].
    rewrite lookup_insert_ne by done. eauto.
  - intros t m0 Ht. destruct (decide (s = t)) as [<-|Hne]; [rewrite lookup_insert_eq; intros [= <-]; auto|].
    rewrite lookup_insert_ne by done. eauto.
  - intros t m0 Ht. destruct (decide (s = t)) as [<-|Hne]; [rewrite lookup_insert_eq; intros [= <-]; auto|].
    rewrite lookup_insert_ne by done. eauto.
  - intros Hne. destruct (I7 Hne) as [?|[? ?]]; [by left|right]. split; cbn; auto.
  - intros p' Hp'. eauto.
Qed.

(** Pods change: the old primary's keeps its identity, and goes by force or
    once the server stopped. *)
Lemma pods_keep w pods uid forced :
  (w_forced w = true → forced = true) →
  (w_pods w !! old = None → pods !! old = None) →
  (∀ p', pods !! old = Some p' → ∃ p, w_pods w !! old = Some p ∧ p_uid p = p_uid p') →
  (pods !! old = None → w_pods w !! old = None ∨ forced = true ∨ ∀ m, w_members w !! old = Some m → m_up m = false) →
  Inv w → let w' := {| w with w_pods := pods; w_nextUid := uid; w_forced := forced |} in Inv w' ∧ evolves w w'.
Proof.
  intros Hf Hn Hu Hg [I1 I2 I3 I4 I5 I6 I7]. cbn. split; split; cbn; try done.
  - destruct I1 as [?|I1]; [left; auto|]. destruct (decide (pods !! old = None)) as [E|E]; [|right; done].
    destruct (Hg E) as [?|[?|?]]; [right; auto|by left|right; auto].
  - intros Hne. destruct (I7 Hne) as [?|[? ?]]; [left; auto|right]. split; cbn; auto.
  - auto.
Qed.

Lemma ack_keeps w m L :
  w_members w !! old = Some m → m_up m = true → w_acked w ≤ L →
  Z.min (g_acks G) (Z.of_nat (length (standbys G))) ≤ held G L (w_members w) →
  Inv w → let w' := {| w with w_acked := L |} in Inv w' ∧ evolves w w'.
Proof.
  intros Hm Hup HL Hq [I1 I2 I3 I4 I5 I6 I7].
  assert (w_forced w = true ∨ w_pods w !! old ≠ None) as Hlive.
  { destruct I1 as [?|I1]; [by left|right]. intros E. by rewrite (I1 E m Hm) in Hup. }
  cbn. split; split; cbn; try done; auto.
  - intros Hne. destruct (I7 Hne) as [?|[? ?]]; [by left|]. destruct Hlive; [by left|done].
  - eauto.
  - destruct Hlive; auto.
Qed.

Lemma agentPromote_keeps w s e : s = old ∨ w_primary w = s → Inv w → Inv (agentPromote G s e w).2 ∧ evolves w (agentPromote G s e w).2.
Proof.
  intros Hp Hi. unfold agentPromote. destruct (w_members w !! s) as [m|] eqn:Hs; [|by apply aside_keeps].
  case_match; [by apply aside_keeps|].
  assert (∀ r b l, let w' := {| w with w_lease := l; w_members := <[s := {| m with m_epoch := e; m_rec := r; m_pending := b |}]> (w_members w) |} in
    r = m_rec m ∨ r = false → Inv w' ∧ evolves w w') as Hm.
  { intros r b l w' Hr. destruct (member_keeps w s m {| m with m_epoch := e; m_rec := r; m_pending := b |} Hs) as [Hi1 He1]; cbn; try done.
    - intros _ ?. by left.
    - intros Hne Hf. destruct Hp as [?|?]; done.
    - intros Hne. by apply (inv_bound _ Hi s).
    - intros Hne Hb Hu Hr'. destruct Hr as [->|]; [|congruence]. by apply (inv_probe _ Hi Hb s m).
    - destruct (aside_keeps {| w with w_members := <[s := {| m with m_epoch := e; m_rec := r; m_pending := b |}]> (w_members w) |} w') as [Hi2 _];
        [done|done|]. split; [done|]. destruct He1. by split. }
  destruct (acquireOnce _ _ _ _) as [l|er]; [|by apply (Hm (m_rec m) (m_pending m) (w_lease w)); left].
  case_match; [by apply (Hm (m_rec m) (m_pending m) (Some l)); left|]. cbn. rewrite insert_insert_eq. apply (Hm false false (Some l)). by right.
Qed.

Lemma env_keeps w w' : env w w' → Inv w → Inv w' ∧ evolves w w'.
Proof.
  intros He Hi. destruct He as [w s m m' Hm Hs|w m L Hm Hu Hr HL Hq|w s p p' Hp Hs|w l|w s e Hin|w|w|w|w|w|w|w n Hn];
    try (by apply aside_keeps).
  - assert (s ≠ old → 0 ≤ m_flush m ∧ default 0 (m_received m) ≤ m_flush m ∧ m_replayed m ≤ m_flush m) as Hb
      by (intros; by apply (inv_bound _ Hi s)).
    assert (s ≠ old → m_rec m = false → w_primary w = s) as Hrec by (intros; by apply (inv_rec _ Hi s m)).
    assert (s ≠ old → g_backlog G = false → m_up m = true → m_rec m = true → m_flush m ≤ sb_flush (probed m)) as Hp
      by (intros ? Hbk ??; by apply (inv_probe _ Hi Hbk s m)).
    apply (member_keeps w s m m' Hm); [..|done]; destruct Hs as [m n ???|s m n o ??????|s m n ???|s m o ?????|s m ?|s m b|s m|s m ? Hbk|m p ?];
      cbn; try done; try lia; auto; try (intros; specialize (Hb ltac:(done)); lia).
    + right. congruence.
    + intros ?? _ _. unfold probed. cbn. case_match; lia.
    + intros ? Hbk Hu Hr. specialize (Hp ltac:(done) Hbk Hu Hr). revert Hp. unfold probed. cbn. case_match; lia.
    + intros ? Hb0 _ _. unfold probed. cbn. destruct Hbk as [Hbk|Hbk]; [congruence|]. case_match; lia.
  - by eapply ack_keeps; [..|done]; try done; lia.
  - destruct Hs as [s p ip ready ended|s p Ht Hdown].
    + apply (pods_keep w _ (w_nextUid w) (w_forced w)); try done.
      * intros Hn. rewrite lookup_partial_alter_ne; [done|]. congruence.
      * intros p0. destruct (decide (s = old)) as [->|Hne].
        -- rewrite lookup_partial_alter_eq. intros [= <-]. eauto.
        -- rewrite lookup_partial_alter_ne by done. eauto.
      * destruct (decide (s = old)) as [->|Hne]; [by rewrite lookup_partial_alter_eq|rewrite lookup_partial_alter_ne by done; auto].
    + apply (pods_keep w _ (w_nextUid w) (w_forced w)); try done.
      * intros Hn. rewrite lookup_partial_alter_ne; [done|]. congruence.
      * intros p0. destruct (decide (s = old)) as [->|Hne].
        -- by rewrite lookup_partial_alter_eq.
        -- rewrite lookup_partial_alter_ne by done. eauto.
      * destruct (decide (s = old)) as [->|Hne]; [auto|rewrite lookup_partial_alter_ne by done; auto].
  - apply agentPromote_keeps; [|done]. by apply (inv_orders _ Hi s e).
Qed.
End Safety.
