(* ===== verification/FailSpecs.v ===== *)
(** * What the steps of a failover establish

    Triples for the operations of [Failover], over assertions that nothing but
    the publication of a new primary undoes; and the operations all of whose
    statements keep such assertions. *)

From S2P Require Import Prelude Prog Triples Candidate FailWorld Failover FailSafety.

Local Open Scope Z_scope.

Section Specs.
Context (G : group).
Local Notation old := (g_old G).
Local Notation env := (env G).
Local Notation Inv := (Inv G).
Local Notation evolves := (evolves G).
Local Notation gone := (gone G).
Local Notation wp := (Prog.wp env Inv (λ _ _, True)).

Lemma tick_keeps d (w : world) : Inv w → Inv (tick d w).2 ∧ evolves w (tick d w).2.
Proof. intros Hi. by apply aside_keeps. Qed.

Definition fail_rely : rely world err :=
  Rely env Inv evolves (env_keeps G) (fail_evolves_refl G) tick_keeps.
Local Notation triple := (Triples.triple fail_rely).

Lemma triple_stmt_conn {X} (P : world → Prop) (f : world → result err X * world) Q :
  closed fail_rely P →
  (∀ w, Inv w → P w → Inv (f w).2 ∧ Q (f w).1 (f w).2 ∧ Q (Err EConn) w ∧ Q (Err EConn) (f w).2) →
  triple P (stmt f) Q.
Proof. intros HP H. apply Triples.triple_stmt; [done|]. intros w Hi Hw. destruct (H w Hi Hw) as (? & ? & ? & ?). split_and!; [done..|]. by intros e ->. Qed.
Lemma triple_ask_conn {X} (P : world → Prop) (f : world → result err X) Q :
  closed fail_rely P → (∀ w, Inv w → P w → Q (f w) w ∧ Q (Err EConn) w) → triple P (ask f) Q.
Proof. intros HP H. apply Triples.triple_ask; [done|]. intros w Hi Hw. destruct (H w Hi Hw). split; [done|]. by intros e ->. Qed.

(** Errors that do not say that nobody could be promoted. *)
Definition harmless {A} (r : result err A) : Prop := match r with Ok _ => True | Err e => isNoCandidate e = false end.
Fixpoint rets {A} (p : prog A) (φ : A → Prop) : Prop :=
  match p with
  | Ret a => φ a
  | Stmt f k => (∀ w, rets (k (f w).1) φ) ∧ rets (k (Err EConn)) φ
  | Clock d k => ∀ t, rets (k t) φ
  end.
Lemma rets_pbind {A B} (x : prog A) (f : A → prog B) ψ φ : rets x ψ → (∀ a, ψ a → rets (f a) φ) → rets (pbind x f) φ.
Proof.
  intros Hx Hf. induction x as [a|X g k IH|d k IH]; cbn in *; [by apply Hf| |].
  - destruct Hx. split; [intros w|]; by apply IH.
  - intros t. by apply IH.
Qed.
Lemma rets_bind {A B} (x : M A) (f : A → M B) : rets x harmless → (∀ a, rets (f a) harmless) → rets (x ≫= f) harmless.
Proof. intros Hx Hf. eapply rets_pbind; [exact Hx|]. intros [a|e] H; [apply Hf|exact H]. Qed.
Lemma rets_attempt {A} (x : M A) : rets x harmless → rets (attempt x) (λ r, ∃ r', r = Ok r' ∧ harmless r').
Proof. intros Hx. eapply rets_pbind; [exact Hx|]. intros r Hr. cbn. eauto. Qed.
Lemma rets_attempt_bind {A B} (x : M A) (f : result err A → M B) :
  rets x harmless → (∀ r, harmless r → rets (f r) harmless) → rets (attempt x ≫= f) harmless.
Proof. intros Hx Hf. eapply rets_pbind; [by apply rets_attempt|]. intros r (r' & -> & Hr). by apply Hf. Qed.
Lemma rets_stmt {X} (f : world → result err X * world) : (∀ w, harmless (f w).1) → rets (stmt f) harmless.
Proof. intros Hf. split; [exact Hf|done]. Qed.
Lemma triple_rets {A} (P : world → Prop) (x : prog A) Q φ : triple P x Q → rets x φ → triple P x (λ a w, Q a w ∧ φ a).
Proof.
  intros Hx Hr w Hi Hw. specialize (Hx w Hi Hw). clear Hi Hw. revert w Hx. induction x as [a|X f k IH|d k IH]; intros w Hx; cbn in *.
  - tauto.
  - destruct Hr as [Hr1 Hr2]. intros w1 He Hi1. destruct (Hx w1 He Hi1) as (? & ? & He').
    split; [done|]. split; [by apply IH|]. intros e ->. destruct (He' EConn eq_refl). split; by apply IH.
  - intros w1 He Hi1. apply IH; [done|]. by apply Hx.
Qed.
End Specs.

(** ** The statements *)

Create HintDb placid.
Ltac placid_step :=
  match goal with
  | |- placid _ (mbind _ _) => apply placid_bind; [|intros]
  | |- placid _ (attempt _) => apply placid_attempt
  | |- placid _ (ask _) => apply placid_ask
  | |- placid _ (mret _) => exact I
  | |- placid _ (fail _) => exact I
  | |- placid _ now => by intros ?
  | |- placid _ (sleep _) => by intros ?
  | |- placid _ _ => solve [auto with placid]
  | |- placid _ (match ?x with _ => _ end) => destruct x
  | |- placidS _ _ => by intros w Hi; apply aside_keeps
  end.
Ltac placid := repeat placid_step.

Section Statements.
Context (G : group).
Local Notation old := (g_old G).
Local Notation placid := (placid (fail_rely G)).

Lemma createLease_placid l : placid (createLease l).
Proof. apply placid_stmt. intros w Hi. destruct (w_lease w); by apply aside_keeps. Qed.
Lemma updateLease_placid l : placid (updateLease l).
Proof. apply placid_stmt. intros w Hi. destruct (w_lease w); [case_match|]; by apply aside_keeps. Qed.
Lemma PublishShardStatus_placid s e : placid (PublishShardStatus s e).
Proof. apply placid_stmt. intros w Hi. destruct (w_shard w) as [[]|]; cbn; [case_match|]; by apply aside_keeps. Qed.
Lemma memory_placid {X} (f : world → X * world) : (∀ w, aside w (f w).2) → placid (memory f).
Proof. intros Hf. apply placid_stmt. intros w Hi. specialize (Hf w). destruct (f w). by apply aside_keeps. Qed.
Lemma unhealthyFor_placid b : placid (unhealthyFor b).
Proof. apply memory_placid. intros w. by case_match. Qed.
Lemma switchoverWaiting_placid b : placid (switchoverWaiting b).
Proof. apply memory_placid. intros w. by case_match. Qed.
Lemma repromoteDue_placid : placid repromoteDue.
Proof. apply memory_placid. intros w. destruct (w_repromote w); [by case_match|done]. Qed.
Lemma clearAnnotation_placid : placid clearAnnotation.
Proof. apply placid_stmt. placid. Qed.

(** Changing a Pod that is there and keeps its identity. *)
Lemma relabel_keeps w name p p' :
  w_pods w !! name = Some p → p_uid p' = p_uid p → Inv G w →
  let w' := {| w with w_pods := <[name := p']> (w_pods w) |} in Inv G w' ∧ evolves G w w'.
Proof.
  intros Hp Hu Hi. apply (pods_keep G w _ (w_nextUid w) (w_forced w)); try done.
  - intros Hn. rewrite lookup_insert_ne; [done|congruence].
  - intros q. destruct (decide (name = old)) as [->|Hne]; [rewrite lookup_insert_eq; intros [= <-]; eauto|rewrite lookup_insert_ne by done; eauto].
  - destruct (decide (name = old)) as [->|Hne]; [by rewrite lookup_insert_eq|rewrite lookup_insert_ne by done; auto].
Qed.
Lemma labelPod_placid name role : placid (labelPod name role).
Proof. apply placid_stmt. intros w Hi. destruct (w_pods w !! name) eqn:E; [by eapply relabel_keeps|by apply aside_keeps]. Qed.
Lemma deletePod_placid name force : placid (deletePod name force).
Proof.
  apply placid_stmt. intros w Hi. destruct (w_pods w !! name) eqn:E; [|by apply aside_keeps]. destruct force; [|by eapply relabel_keeps].
  apply (pods_keep G w _ (w_nextUid w) true); try done.
  - intros Hn. by rewrite lookup_delete_None; auto.
  - intros q [_ Hq]%lookup_delete_Some. eauto.
  - auto.
Qed.
Lemma createPod_placid name role : name ≠ old → placid (createPod name role).
Proof.
  intros Hne. apply placid_stmt. intros w Hi. destruct (w_pods w !! name) eqn:E; [by apply aside_keeps|].
  apply (pods_keep G w _ (w_nextUid w + 1) (w_forced w)); try done; rewrite lookup_insert_ne by done; eauto.
Qed.
Lemma onServer_placid name f :
  (∀ m, m_up (f m) = m_up m ∧ m_rec (f m) = m_rec m ∧ m_flush (f m) = m_flush m ∧ m_received (f m) = m_received m ∧ m_replayed (f m) = m_replayed m) →
  placid (onServer name f).
Proof.
  intros Hf. apply placid_stmt. intros w Hi. destruct (w_members w !! name) as [m|] eqn:E; [|by apply aside_keeps].
  case_match; [|by apply aside_keeps]. destruct (Hf m) as (E1 & E2 & E3 & E4 & E5).
  apply (member_keeps G w name m (f m)); unfold probed; rewrite ?E1, ?E2, ?E3, ?E4, ?E5; auto; try done.
  - intros ? Hr. by eapply (inv_rec _ _ Hi name m).
  - intros ?. by apply (inv_bound _ _ Hi name).
  - intros ????. by apply (inv_probe _ _ Hi ltac:(done) name m).
Qed.
End Statements.
#[export] Hint Resolve createLease_placid updateLease_placid PublishShardStatus_placid unhealthyFor_placid switchoverWaiting_placid
  repromoteDue_placid clearAnnotation_placid labelPod_placid deletePod_placid createPod_placid : placid.
