(* ===== verification/FailProof.v ===== *)
(** * The failover keeps the invariant

    The operations of [Failover], in the order the code composes them, and the
    theorem for every run of the system. *)

From S2P Require Import Prelude Prog Triples Candidate FailWorld Failover FailSafety FailSpecs.

Local Open Scope Z_scope.

Section Operations.
Context (G : group).
Local Notation old := (g_old G).
Local Notation placid := (placid (fail_rely G)).
Local Notation triple := (triple (fail_rely G)).
Local Notation closed := (closed (fail_rely G)).
Local Notation gone := (gone G).

(** ** Operations with nothing to say of their answers *)

Lemma fenceLease_placid a b c d : placid (fenceLease a b c d).
Proof. unfold fenceLease, getLease. placid. Qed.
Lemma releaseLease_placid : placid releaseLease.
Proof. unfold releaseLease, getLease. placid. Qed.
Lemma renewFence_placid : placid renewFence.
Proof. unfold renewFence, getLease. placid. Qed.
Lemma patchRole_placid name p role : placid (patchRole name p role).
Proof. unfold patchRole. placid. Qed.
Lemma abandon_placid {A} e : placid (abandon (A := A) e).
Proof. unfold abandon. apply placid_bind; [apply placid_attempt, releaseLease_placid|]. intros. exact I. Qed.
Lemma podGone_placid fuel name p t : placid (podGone G fuel name p t).
Proof. induction fuel; cbn [podGone]; unfold getPod; placid. Qed.
Lemma fencePod_placid name m : placid (fencePod G name m).
Proof. pose proof podGone_placid. unfold fencePod. placid. Qed.
Lemma waitPodGone_placid fuel name p t : placid (waitPodGone G fuel name p t).
Proof. induction fuel; cbn [waitPodGone]; unfold getPod; placid. Qed.
Lemma probeView_placid ms b name : placid (probeView ms b name).
Proof. unfold probeView, ProbeStandby. placid. Qed.
Lemma fillSlots_placid ms v : placid (fillSlots ms v).
Proof. unfold fillSlots, readySlots, LogicalSlots. placid. Qed.
Lemma askStatus_placid ms name : placid (askStatus ms name).
Proof. unfold askStatus, Status. placid. Qed.
Lemma probeViews_placid ms names : placid (probeViews ms names).
Proof. pose proof probeView_placid. induction names; cbn [probeViews]; placid. Qed.
Lemma withReadySlots_placid ms views : placid (withReadySlots ms views).
Proof. pose proof fillSlots_placid. induction views; cbn [withReadySlots]; placid. Qed.
Lemma quiesceLoop_placid fuel ms o t : placid (quiesceLoop G fuel ms o t).
Proof.
  pose proof renewFence_placid. pose proof askStatus_placid. pose proof probeViews_placid. pose proof withReadySlots_placid.
  induction fuel; cbn [quiesceLoop]; placid.
Qed.
Lemma quiesce_placid ms o : placid (quiesce G ms o).
Proof. pose proof quiesceLoop_placid. unfold quiesce. placid. Qed.
Lemma switchoverViews_placid ms names : placid (switchoverViews ms names).
Proof. pose proof probeView_placid. pose proof fillSlots_placid. induction names; cbn [switchoverViews]; placid. Qed.
Lemma switchoverCandidate_placid st ms t : placid (switchoverCandidate G st ms t).
Proof. pose proof switchoverViews_placid. unfold switchoverCandidate. placid. Qed.
Lemma pauseIfFenced_placid name : placid (pauseIfFenced G name).
Proof.
  unfold pauseIfFenced, WriteFenced. assert (placid (PauseWrites name)) by by apply onServer_placid. placid.
Qed.
Lemma EnsureSlots_placid name want drop : placid (EnsureSlots name want drop).
Proof.
  unfold EnsureSlots. apply placid_bind; [|intros; by apply onServer_placid].
  induction want; cbn [createSlots]; [done|]. apply placid_bind; [by apply onServer_placid|done].
Qed.
Lemma observePod_placid name st b : name ≠ old → placid (observePod name st b).
Proof. intros. unfold observePod, getPod. placid. Qed.
Lemma observeMembers_placid st names : old ∉ names → placid (observeMembers st names).
Proof.
  induction names as [|n names IH]; cbn [observeMembers]; [done|]. intros [Hne Hni]%not_elem_of_cons.
  apply placid_bind; [by apply observePod_placid|]. intros m. apply placid_bind; [by apply IH|done].
Qed.

(** ** The old primary's Pod *)

Lemma closed_primary c : closed (λ w, w_primary w = c).
Proof. intros w w' He <-. apply (ev_primary _ _ _ He). Qed.
Lemma closed_gone : closed gone.
Proof. intros w w' He [?|?]; [left; by apply (ev_forced _ _ _ He)|right; by apply (ev_gone _ _ _ He)]. Qed.

(** What a pass knows of it: it had none, or the one there now, if any, is the
    one it saw. *)
Definition observed (p : option pod) (w : world) : Prop :=
  match p with None => gone w | Some p => ∀ cur, w_pods w !! old = Some cur → p_uid cur = p_uid p end.
Lemma closed_observed p : closed (observed p).
Proof.
  destruct p as [p|]; [|apply closed_gone]. intros w w' He H cur Hc. destruct (ev_uid _ _ _ He cur Hc) as (q & Hq & <-). auto.
Qed.

Lemma getPod_spec (P : world → Prop) : closed P →
  triple P (getPod old) (λ r w, P w ∧ match r with Ok p => observed (Some p) w | Err ENotFound => w_pods w !! old = None | Err _ => True end).
Proof.
  intros HP. apply triple_ask_conn; [done|]. intros w Hi Hw. split; [|done]. destruct (w_pods w !! old) eqn:E; [|done].
  split; [done|]. cbn. intros cur. rewrite E. by intros [= <-].
Qed.

Lemma still_there (P A : world → Prop) e :
  (∀ w, P w → A w) → triple P (fail e) (λ (r : result err ()) w, A w ∧ (r = Ok () → gone w)).
Proof. intros H. apply triple_fail. intros w _ Hw. split; [auto|done]. Qed.

(** Both waits: the Pod is not found any more, or is removed by force. *)
Lemma deleted_spec p P : closed P →
  triple (λ w, P w ∧ observed (Some p) w) (deletePod old true) (λ r w, P w ∧ (ignoreNotFound r = None → gone w)).
Proof.
  intros HP. assert (closed (λ w, P w ∧ observed (Some p) w)) as HP' by (apply closed_and; [done|apply closed_observed]).
  apply triple_stmt_conn; [done|]. intros w Hi Hw. destruct (deletePod_placid G old true) as [Hp _]. destruct (Hp w Hi) as [Hi' He].
  destruct (HP' _ _ He Hw) as [? _]. destruct Hw as [? _]. split; [done|]. split; [|done]. split; [done|].
  destruct (w_pods w !! old) eqn:E; intros _; [by left|by right].
Qed.
Lemma podGone_spec fuel p t P : closed P →
  triple (λ w, P w ∧ observed (Some p) w) (podGone G fuel old p t) (λ r w, P w ∧ (r = Ok () → gone w)).
Proof.
  intros HP. assert (closed (λ w, P w ∧ observed (Some p) w)) as HP' by (apply closed_and; [done|apply closed_observed]).
  induction fuel as [|fuel IH]; cbn [podGone]; [apply still_there; tauto|].
  eapply triple_try; [apply (getPod_spec _ HP')|].
  intros [cur|e]; [|destruct e; try (apply still_there; tauto); apply triple_ret].
  2: { intros w _ ([? _] & ?). split; [done|]. intros _. by right. }
  destruct (Z.eqb_spec (p_uid cur) (p_uid p)) as [Eu|Eu]; cbn [negb].
  2: { apply triple_ret. intros w _ ([? Ho] & Hc). split; [done|]. intros _. right.
       destruct (w_pods w !! old) as [q|] eqn:Eq; [|done]. exfalso. apply Eu. rewrite <-(Hc q Eq). by apply (Ho q Eq). }
  eapply triple_conseq; [intros w _ [H _]; exact H|intros a w _ H; exact H|].
  apply triple_now_bind; [done|]. intros t'. destruct (t <? t'); [|by apply triple_sleep_bind].
  eapply triple_try; [apply (deleted_spec p P HP)|].
  intros r. destruct (ignoreNotFound r) eqn:Er; [apply still_there; tauto|apply triple_ret; intros w _ [? Hg]; split; auto].
Qed.
Lemma waitPodGone_spec fuel p t P : closed P →
  triple (λ w, P w ∧ observed (Some p) w) (waitPodGone G fuel old p t) (λ r w, P w ∧ (r = Ok () → gone w)).
Proof.
  intros HP. assert (closed (λ w, P w ∧ observed (Some p) w)) as HP' by (apply closed_and; [done|apply closed_observed]).
  induction fuel as [|fuel IH]; cbn [waitPodGone]; [apply still_there; tauto|].
  eapply triple_try; [apply (getPod_spec _ HP')|].
  intros [cur|e]; [|destruct e; try (apply still_there; tauto); apply triple_ret].
  2: { intros w _ ([? _] & ?). split; [done|]. intros _. by right. }
  destruct (Z.eqb_spec (p_uid cur) (p_uid p)) as [Eu|Eu]; cbn [negb].
  2: { apply triple_ret. intros w _ ([? Ho] & Hc). split; [done|]. intros _. right.
       destruct (w_pods w !! old) as [q|] eqn:Eq; [|done]. exfalso. apply Eu. rewrite <-(Hc q Eq). by apply (Ho q Eq). }
  eapply triple_conseq; [intros w _ [H _]; exact H|intros a w _ H; exact H|].
  apply triple_now_bind; [done|]. intros t'. destruct (t <? t'); [apply still_there; tauto|by apply triple_sleep_bind].
Qed.

Lemma fencePod_spec m P : closed P →
  triple (λ w, P w ∧ observed (m ≫= i_pod) w) (fencePod G old m) (λ r w, P w ∧ (r = Ok () → gone w)).
Proof.
  intros HP. unfold fencePod. destruct (m ≫= i_pod) as [p|]; [|apply triple_ret; intros w _ [? ?]; by split].
  assert (closed (λ w, P w ∧ observed (Some p) w)) as HP' by (apply closed_and; [done|apply closed_observed]).
  apply triple_placid_bind; [done|placid| |by intros e w _ [? _]]. intros r. destruct (ignoreNotFound r); [apply still_there; tauto|].
  apply triple_now_bind; [done|]. intros t. by apply podGone_spec.
Qed.
Lemma stopPod_spec p P : closed P →
  triple (λ w, P w ∧ observed p w) (stopPod G old p) (λ r w, P w ∧ (r = Ok () → gone w)).
Proof.
  intros HP. unfold stopPod. destruct p as [p|]; [|apply triple_ret; intros w _ [? ?]; by split].
  assert (closed (λ w, P w ∧ observed (Some p) w)) as HP' by (apply closed_and; [done|apply closed_observed]).
  apply triple_placid_bind; [done|apply patchRole_placid| |by intros e w _ [? _]]. intros _.
  apply triple_placid_bind; [done|placid| |by intros e w _ [? _]]. intros r. destruct (ignoreNotFound r); [apply still_there; tauto|].
  apply triple_now_bind; [done|]. intros t. by apply waitPodGone_spec.
Qed.

(** ** Positions that are final *)

(** The old primary is gone, [L] is what it acknowledged, and the members [H]
    picks hold it. *)
Definition frozen (L : Z) (H : string → bool) (w : world) : Prop :=
  w_primary w = old ∧
  (w_forced w = true ∨ (w_pods w !! old = None ∧ w_acked w = L ∧ ∀ s, H s = true → holds L (w_members w) s)).
Lemma closed_frozen L H : closed (frozen L H).
Proof.
  intros w w' He [Hp Hf]. split; [by rewrite (ev_primary _ _ _ He)|]. destruct Hf as [?|(Hn & Ha & Hh)]; [left; by apply (ev_forced _ _ _ He)|].
  destruct (ev_acked _ _ _ He) as [?|[?|E]]; [left; by apply (ev_forced _ _ _ He)|done|right].
  split_and!; [by apply (ev_gone _ _ _ He)|congruence|intros s Hs; apply (ev_holds _ _ _ He); auto].
Qed.
Definition quorate (H : string → bool) : Prop :=
  Z.min (g_acks G) (Z.of_nat (length (standbys G))) ≤ Z.of_nat (length (filter (λ s, H s) (standbys G))).
(** So it is once it is gone. *)
Lemma gone_frozen w : Inv G w → w_primary w = old → gone w → ∃ v : Z * (string → bool), quorate v.2 ∧ frozen v.1 v.2 w.
Proof.
  intros Hi Hp Hg. exists (w_acked w, λ s, bool_decide (holds (w_acked w) (w_members w) s)). split.
  - unfold quorate. cbn. etrans; [apply (inv_quorum _ _ Hi)|]. unfold held.
    erewrite (list_filter_iff (holds _ _)); [done|]. intros s. by rewrite bool_decide_spec.
  - split; [done|]. destruct Hg; [by left|right]. split_and!; [done..|]. intros s Hs. by apply bool_decide_eq_true in Hs.
Qed.

(** What a view sampled then says. *)
Definition seen (L : Z) (H : string → bool) (v : memberView) (w : world) : Prop :=
  w_forced w = true ∨
  (Reachable v = true → InRecovery v = true ∧ holds (FlushLSN v) (w_members w) (Name v) ∧ (H (Name v) = true → L ≤ FlushLSN v)).
Lemma closed_seen L H v : closed (seen L H v).
Proof.
  intros w w' He [?|Hs]; [left; by apply (ev_forced _ _ _ He)|right]. intros Hr. destruct (Hs Hr) as (? & ? & ?).
  split_and!; [done|by apply (ev_holds _ _ _ He)|done].
Qed.
Definition allSeen (L : Z) (H : string → bool) (views : list memberView) (names : list string) (w : world) : Prop :=
  (Name <$> views) = names ∧ ∀ v, v ∈ views → seen L H v w.
Lemma closed_allSeen L H views names : closed (allSeen L H views names).
Proof. intros w w' He [? Hs]. split; [done|]. intros v Hv. eapply closed_seen; eauto. Qed.
Lemma allSeen_cons L H v views names w :
  seen L H v w → allSeen L H views names w → allSeen L H (v :: views) (Name v :: names) w.
Proof. intros Hv [Hn Hs]. split; [cbn; by rewrite Hn|]. intros v' [->|?]%elem_of_cons; auto. Qed.

Hypothesis no_backlog : g_backlog G = false.

Lemma probeView_spec L H ms b name : name ≠ old →
  triple (frozen L H) (probeView ms b name)
    (λ r w, frozen L H w ∧ ∀ v, r = Ok v → Name v = name ∧ seen L H v w).
Proof.
  intros Hne. unfold probeView. destruct (dialled ms name).
  2: { apply triple_ret. intros w _ Hf. split; [done|]. intros v [= <-]. split; [done|]. by right. }
  eapply (triple_try _ _ _ _ (λ r w, frozen L H w ∧ ∀ st, r = Ok st → seen L H (mkView name b true (sb_inRecovery st) (sb_streaming st) (sb_flush st) 0 "") w)).
  - apply triple_ask_conn; [apply closed_frozen|]. intros w Hi Hf. split; [|done]. split; [done|]. intros st.
    destruct (w_members w !! name) as [m|] eqn:Em; [|done]. destruct (m_up m) eqn:Eu; [|done]. intros [= <-].
    destruct Hf as [Hp [?|(Hn & Ha & Hh)]]; [by left|right]. intros _. cbn.
    assert (m_rec m = true) as Er.
    { destruct (m_rec m) eqn:E; [done|]. pose proof (inv_rec _ _ Hi name m Hne Em E). congruence. }
    pose proof (inv_probe _ _ Hi no_backlog name m Hne Em Eu Er) as Hpr. destruct (inv_bound _ _ Hi name m Hne Em) as (? & ? & ?).
    revert Hpr. unfold holds, probed. rewrite Em, Er. cbn. intros Hpr. split_and!; [done|lia|].
    intros Hs%Hh. unfold holds in Hs. rewrite Em in Hs. lia.
  - intros [st|e]; apply triple_ret; intros w _ [? Hs]; (split; [done|]); intros v [= <-]; (split; [done|]); [by apply Hs|by right].
Qed.

Lemma probeViews_spec L H ms names : old ∉ names →
  triple (frozen L H) (probeViews ms names) (λ r w, frozen L H w ∧ ∀ vs, r = Ok vs → allSeen L H vs names w).
Proof.
  induction names as [|n names IH]; cbn [probeViews].
  { intros _. apply triple_ret. intros w _ ?. split; [done|]. intros vs [= <-]. split; [done|]. by intros v ?%not_elem_of_nil. }
  intros [Hne Hni]%not_elem_of_cons. eapply triple_bind; [by apply probeView_spec| |by intros e w _ [? _]].
  intros v. eapply (triple_conseq _ (λ w, frozen L H w ∧ (Name v = n ∧ seen L H v w))); [|intros r w _ Hq; exact Hq|].
  { intros w _ [? Hs]. split; [done|]. by apply Hs. }
  eapply triple_bind.
  - apply triple_frame; [apply closed_and; [apply closed_pure|apply closed_seen]|apply probeViews_placid|by apply IH].
  - intros vs. apply triple_ret. intros w _ ([? Hvs] & <- & ?). split; [done|]. intros vs' [= <-]. by apply allSeen_cons; auto.
  - intros e w _ ([? _] & _). done.
Qed.

Lemma fillSlots_spec L H ms n v :
  triple (λ w, frozen L H w ∧ Name v = n ∧ seen L H v w) (fillSlots ms v)
    (λ r w, frozen L H w ∧ ∀ v', r = Ok v' → Name v' = n ∧ seen L H v' w).
Proof.
  assert (closed (λ w, frozen L H w ∧ Name v = n ∧ seen L H v w)) as Hcl
    by (apply closed_and; [apply closed_frozen|apply closed_and; [apply closed_pure|apply closed_seen]]).
  unfold fillSlots. case_match; [|apply triple_ret; intros w _ (? & ? & ?); split; [done|by intros v' [= <-]]].
  unfold readySlots, LogicalSlots. apply triple_placid_bind; [done|placid| |by intros e w _ [? _]]. intros k. apply triple_ret.
  intros w _ (? & ? & ?). split; [done|]. by intros v' [= <-].
Qed.
Lemma withReadySlots_spec L H ms views names :
  triple (λ w, frozen L H w ∧ allSeen L H views names w) (withReadySlots ms views)
    (λ r w, frozen L H w ∧ ∀ vs, r = Ok vs → allSeen L H vs names w).
Proof.
  revert names. induction views as [|v views IH]; intros names; cbn [withReadySlots].
  { apply triple_ret. intros w _ [? ?]. split; [done|]. by intros vs [= <-]. }
  apply (triple_conseq _ (λ w, (frozen L H w ∧ Name v = Name v ∧ seen L H v w) ∧ (Name v :: (Name <$> views) = names ∧ allSeen L H views (Name <$> views) w))
    _ _ (λ r w, frozen L H w ∧ ∀ vs, r = Ok vs → allSeen L H vs names w)); [|done|].
  { intros w _ (? & Hn & Hs). split; [split; [done|split; [done|apply Hs; left]]|split; [done|split; [done|]]]. intros v' Hv'. apply Hs. by right. }
  eapply triple_bind.
  - apply triple_frame; [apply closed_and; [apply closed_pure|apply closed_allSeen]|apply fillSlots_placid|by apply fillSlots_spec].
  - intros v'. apply (triple_conseq _ (λ w, (frozen L H w ∧ allSeen L H views (Name <$> views) w) ∧ (Name v' :: (Name <$> views) = names ∧ seen L H v' w))
      _ _ (λ r w, frozen L H w ∧ ∀ vs, r = Ok vs → allSeen L H vs names w)); [|done|].
    { intros w _ ([? Hv] & <- & ?). destruct (Hv v' eq_refl) as [-> ?]. done. }
    eapply triple_bind.
    + apply triple_frame; [apply closed_and; [apply closed_pure|apply closed_seen]|apply withReadySlots_placid|by apply IH].
    + intros vs. apply triple_ret. intros w _ ([? Hvs] & <- & ?). split; [done|]. intros vs' [= <-]. apply allSeen_cons; auto.
    + intros e w _ ([? _] & _). done.
  - intros e w _ ([? _] & _). done.
Qed.

Lemma quiesceLoop_spec L H fuel ms t :
  triple (frozen L H) (quiesceLoop G fuel ms old t) (λ r w, frozen L H w ∧ ∀ vs, r = Ok vs → allSeen L H vs (standbys G) w).
Proof.
  pose proof (closed_frozen L H) as Hcl. induction fuel as [|fuel IH]; cbn [quiesceLoop]; [by apply triple_fail|].
  apply triple_placid_bind; [done|apply placid_attempt, renewFence_placid| |done]. intros _.
  apply triple_placid_bind; [done|apply askStatus_placid| |done]. intros a.
  eapply triple_bind; [apply probeViews_spec; by intros [? _]%list_elem_of_filter| |by intros e w _ [? _]]. intros views.
  assert (triple (λ w, frozen L H w ∧ ∀ vs, Ok (E := err) views = Ok vs → allSeen L H vs (standbys G) w) (withReadySlots ms views)
    (λ r w, frozen L H w ∧ ∀ vs, r = Ok vs → allSeen L H vs (standbys G) w)) as Hfill.
  { eapply triple_conseq; [|intros r w _ Hq; exact Hq|apply withReadySlots_spec]. intros w _ [? Hv]. split; [done|]. by apply Hv. }
  case_match; [exact Hfill|].
  apply triple_now_bind.
  { apply closed_and; [done|]. intros w w' He Hv vs Hvs. eapply closed_allSeen; eauto. }
  intros t'. case_match; [case_match; [apply triple_fail; by intros w _ [? _]|exact Hfill]|].
  eapply triple_conseq; [intros w _ [Hf _]; exact Hf|intros r w _ Hq; exact Hq|]. by apply triple_sleep_bind.
Qed.
Lemma quiesce_spec L H ms :
  triple (frozen L H) (quiesce G ms old) (λ r w, frozen L H w ∧ ∀ vs, r = Ok vs → allSeen L H vs (standbys G) w).
Proof. unfold quiesce. apply triple_now_bind; [apply closed_frozen|]. intros t. apply quiesceLoop_spec. Qed.

(** ** The choice *)

Hypothesis enough_acks : minSyncStandbys (g_minSync G) ≤ g_acks G.

Lemma listAll_listed o views : (∀ v, v ∈ views → Name v ≠ o) →
  length (filter (λ v, Name v ≠ o ∧ Listed v) (listAll o views)) = length views ∧
  ∀ Q : string → bool, length (filter (λ v, (Name v ≠ o ∧ Listed v) ∧ Q (Name v)) (listAll o views)) = length (filter (λ s, Q s) (Name <$> views)).
Proof.
  unfold listAll. induction views as [|v vs IH]; [done|]. intros Hne.
  destruct (IH (λ v' Hv', Hne v' (list_elem_of_further _ _ _ Hv'))) as [IH1 IH2].
  assert (Name v ≠ o) as Hv by (apply Hne; left). apply String.eqb_neq in Hv as Hb.
  split; [|intros Q; specialize (IH2 Q)]; rewrite !fmap_cons, !filter_cons; cbn [Name Listed]; rewrite Hb; repeat case_decide;
    cbn in *; try tauto; by f_equal.
Qed.

Lemma choose_settled L H preferred views c w :
  quorate H → frozen L H w → allSeen L H views (standbys G) w → choose G old preferred views = Ok c →
  c ≠ old ∧ (w_forced w = true ∨ settled G c w).
Proof.
  intros Hq [Hp Hf] [Hn Hs]. unfold choose. case_match eqn:Hc; [|done]. intros [= ->].
  assert (∀ v, v ∈ listAll old views → ∃ v0, v0 ∈ views ∧ v = {| v0 with Listed := negb (String.eqb (Name v0) old) |}) as Hall.
  { intros v (v0 & -> & ?)%list_elem_of_fmap. eauto. }
  assert (∀ v, v ∈ views → Name v ≠ old) as Hne.
  { intros v Hv. assert (Name v ∈ standbys G) as [? _]%list_elem_of_filter by (rewrite <-Hn; by apply list_elem_of_fmap_2). done. }
  destruct (chooseCandidate_best _ _ _ _ _ Hc) as (_ & _ & _ & Hco & _). split; [done|].
  destruct Hf as [?|(Hg & Ha & Hh)]; [by left|]. destruct (decide (w_forced w = true)) as [?|Hnf]; [by left|right]. split; [done|].
  assert (∀ v, v ∈ listAll old views → Reachable v = true →
    InRecovery v = true ∧ holds (FlushLSN v) (w_members w) (Name v) ∧ (H (Name v) = true → L ≤ FlushLSN v)) as Hseen.
  { intros v (v0 & Hv0 & ->)%Hall Hr. cbn in *. by destruct (Hs v0 Hv0) as [?|Hv]; [|apply Hv]. }
  destruct (listAll_listed old views Hne) as [Hlen Hcount]. rewrite Hn in Hcount.
  destruct (chooseCandidate_holds _ _ _ _ _ (λ v, H (Name v)) L Hc) as (v & Hv & <- & Hr & HL).
  - intros v (v0 & Hv0 & ->)%Hall _. cbn. by destruct (String.eqb_spec (Name v0) old) as [E|E]; [destruct (Hne v0)|].
  - unfold votes. rewrite Hlen, (Hcount H), <-(length_fmap Name), Hn. unfold quorate in Hq.
    assert (1 ≤ minSyncStandbys (g_minSync G)) by (unfold minSyncStandbys; case_match eqn:E; [apply Z.ltb_lt in E|]; lia). lia.
  - intros v Hv _ Hh' Hr. destruct (Hseen v Hv Hr) as (? & _ & HL). split; [done|]. apply HL. by destruct (H (Name v)).
  - destruct (Hseen v Hv Hr) as (_ & Hhv & _). rewrite Ha. revert Hhv. unfold holds. case_match; [lia|done].
Qed.

(** ** The failover *)

Definition mayPromote (c : string) (w : world) : Prop := c ≠ old ∧ (w_forced w = true ∨ settled G c w).

Lemma triple_abandon {A} (P : world → Prop) e (S : result err A → world → Prop) :
  closed P → (∀ e w, Inv G w → P w → S (Err e) w) → triple P (abandon e) S.
Proof.
  intros HP HS. unfold abandon. apply triple_placid_bind; [done|apply placid_attempt, releaseLease_placid| |done].
  intros r. by apply triple_fail, HS.
Qed.

Definition confirmed (r : result err (string * Z)) (w : world) : Prop :=
  w_primary w = old ∧ ∀ c e, r = Ok (c, e) → mayPromote c w.
Lemma confirmed_err e w : Inv G w → w_primary w = old → confirmed (Err e) w.
Proof. by split. Qed.

(** From the moment the Pod is gone. *)
Lemma confirm_rest ms preferred candidate e :
  triple (λ w, w_primary w = old ∧ gone w)
    (after ← attempt (quiesce G ms old);
     match after with
     | Err e => abandon e
     | Ok after =>
         match choose G old preferred after with
         | Err e => abandon e
         | Ok confirmed => if negb (String.eqb confirmed candidate) then abandon (EChanged confirmed candidate) else mret (candidate, e)
         end
     end) confirmed.
Proof.
  apply (triple_conseq _ (λ w, ∃ v : Z * (string → bool), quorate v.2 ∧ frozen v.1 v.2 w) _ _ confirmed); [|done|].
  { intros w Hi [Hp Hg]. by apply gone_frozen. }
  apply (triple_exists _ (λ v w, quorate v.2 ∧ frozen v.1 v.2 w)). intros [L H]. cbn [fst snd]. apply triple_and_pure. intros Hq.
  eapply triple_try; [apply (quiesce_spec L H ms)|]. intros r.
  assert (∀ e, triple (λ w, frozen L H w ∧ ∀ vs, r = Ok vs → allSeen L H vs (standbys G) w) (abandon e) confirmed) as Hab.
  { intros er. eapply triple_conseq; [intros w _ [[Hp _] _]; exact Hp|intros a w _ Hc; exact Hc|].
    apply triple_abandon; [apply closed_primary|apply confirmed_err]. }
  destruct r as [after|er]; [|apply Hab]. destruct (choose G old preferred after) as [c|er] eqn:Ec; [|apply Hab].
  destruct (String.eqb_spec c candidate) as [->|_]; cbn [negb]; [|apply Hab].
  apply triple_ret. intros w _ [Hf Hs]. split; [apply Hf|]. intros c e' [= <- <-]. by eapply choose_settled; [..|exact Ec]; auto.
Qed.

Definition ready (ms : members) (w : world) : Prop := w_primary w = old ∧ observed (ms !! old ≫= i_pod) w.
Lemma closed_ready ms : closed (ready ms).
Proof. apply closed_and; [apply closed_primary|apply closed_observed]. Qed.

Lemma confirmCandidate_spec state ms preferred : primary state = old →
  triple (ready ms) (confirmCandidate G state ms preferred) confirmed.
Proof.
  intros Hs. unfold confirmCandidate. rewrite Hs. pose proof (closed_ready ms) as Hcl.
  assert (∀ e w, Inv G w → ready ms w → confirmed (Err e) w) as Herr by (intros e w Hi [? _]; by apply confirmed_err).
  assert (∀ e, triple (ready ms) (abandon e) confirmed) as Hab by (intros e; exact (triple_abandon _ e _ Hcl Herr)).
  apply triple_placid_bind; [done|apply patchRole_placid| |done]. intros _.
  apply triple_placid_bind; [done|apply fenceLease_placid| |done]. intros _.
  apply triple_placid_bind; [done|apply placid_attempt, quiesce_placid| |done]. intros [views|e].
  2: { destruct (isStillLive e); [apply Hab|apply triple_fail, Herr]. }
  destruct (choose G old preferred views) as [c|e]; [|apply Hab].
  apply triple_placid_bind; [done|unfold Status; placid| |done]. intros a.
  eapply triple_try; [apply (fencePod_spec (ms !! old) (λ w, w_primary w = old)), closed_primary|]. intros [[]|e].
  - eapply triple_conseq; [|intros r w _ H; exact H|apply confirm_rest]. intros w _ [? Hg]. split; [done|]. by apply Hg.
  - eapply triple_conseq; [intros w _ [H _]; exact H|intros r w _ H; exact H|].
    apply triple_abandon; [apply closed_primary|apply confirmed_err].
Qed.

Lemma order_keeps w s e : s = old ∨ w_primary w = s → Inv G w →
  let w' := (agentPromote G s e {| w with w_orders := w_orders w ++ [(s, e)] |}).2 in Inv G w' ∧ w_primary w' = w_primary w.
Proof.
  intros Hs Hi. destruct (agentPromote_keeps G {| w with w_orders := w_orders w ++ [(s, e)] |} s e) as [Hi2 He]; [done| |].
  - destruct Hi as [I1 I2 I3 I4 I5 I6 I7]. split; cbn; try done. intros s' e' [?|Hin]%elem_of_app; [by eapply I6|].
    apply list_elem_of_singleton in Hin. by simplify_eq.
  - split; [done|]. apply (ev_primary _ _ _ He).
Qed.
Lemma publish_keeps w c e : Inv G w → w_primary w = old → mayPromote c w → Inv G {| w with w_primary := c; w_epoch := e |}.
Proof.
  intros [I1 I2 I3 I4 I5 I6 I7] Hp [Hc Hm]. split; cbn; try done.
  - intros s m Hs Hm' Hr. pose proof (I5 s m Hs Hm' Hr). congruence.
  - intros s e' He. destruct (I6 s e' He); [by left|left; congruence].
Qed.
Lemma closed_mayPromote c : closed (λ w, w_primary w = old ∧ mayPromote c w).
Proof.
  intros w w' He (Hp & Hc & Hm). split; [by rewrite (ev_primary _ _ _ He)|]. split; [done|].
  destruct Hm as [?|[Hn Hh]]; [left; by apply (ev_forced _ _ _ He)|].
  destruct (ev_acked _ _ _ He) as [?|[?|E]]; [left; by apply (ev_forced _ _ _ He)|done|right].
  split; [by apply (ev_gone _ _ _ He)|rewrite E; by apply (ev_holds _ _ _ He)].
Qed.

(** What the failover leaves behind: a primary that may be promoted, or none
    and an error. *)
Definition published (c : string) (w : world) : Prop := c ≠ old ∧ w_primary w = c.
Lemma closed_published c : closed (published c).
Proof. apply closed_and; [apply closed_pure|apply closed_primary]. Qed.

Lemma patchStatus_spec c e :
  triple (λ w, w_primary w = old ∧ mayPromote c w) (patchStatus c e) (λ r w, r = Ok () → published c w).
Proof.
  apply triple_stmt_conn; [apply closed_mayPromote|]. intros w Hi [Hp Hm]. split; [by apply publish_keeps|]. by destruct Hm.
Qed.
Lemma publishFence_spec o c e :
  triple (λ w, w_primary w = old ∧ mayPromote c w) (publishFence G o c e) (λ r w, r = Ok () → published c w).
Proof.
  unfold publishFence. apply triple_placid_bind; [apply closed_mayPromote| | |done]; [placid|]. intros _.
  eapply triple_bind; [apply patchStatus_spec| |done]. intros [].
  eapply triple_conseq; [intros w _ H; exact (H eq_refl)|intros r w _ H _; exact H|].
  apply triple_placid; [apply closed_published|apply fenceLease_placid].
Qed.

Lemma Promote_spec c e : triple (published c) (Promote G c e) (λ _, published c).
Proof.
  apply triple_stmt_conn; [apply closed_published|]. intros w Hi [Hc Hp]. destruct (order_keeps w c e (or_intror Hp) Hi) as [Hi2 Hp2].
  split; [done|]. unfold published. rewrite Hp2. done.
Qed.
Lemma promoteCandidate_spec ms c e : triple (published c) (promoteCandidate G ms c e) (λ _, published c).
Proof.
  unfold promoteCandidate. pose proof (closed_published c) as Hcl.
  eapply triple_try; [apply Promote_spec|]. intros [[]|er]; [|by apply triple_fail].
  apply triple_placid; [done|]. apply placid_bind; [apply pauseIfFenced_placid|intros _].
  apply placid_bind; [apply patchRole_placid|intros _]. apply placid_bind; [apply placid_attempt, EnsureSlots_placid|intros _]. placid.
Qed.

(** No error past the publication says that there was no candidate. *)
Lemma harmless_getLease : rets getLease harmless.
Proof. apply rets_stmt. intros w. cbn. by destruct (w_lease w). Qed.
Lemma harmless_fenceLease a b c d : rets (fenceLease a b c d) harmless.
Proof.
  unfold fenceLease. apply rets_attempt_bind; [apply harmless_getLease|]. intros r Hr.
  assert (∀ l, rets (updateLease l) harmless) as Hu.
  { intros l. apply rets_stmt. intros w. cbn. destruct (w_lease w); [case_match|]; done. }
  destruct r as [l|er].
  - apply rets_bind; [by intros t|]. intros t. case_match; [done|]. apply rets_bind; [by intros t'|]. intros t'. apply Hu.
  - destruct er; try exact Hr. apply rets_bind; [by intros t|]. intros t. apply rets_stmt. intros w. cbn. by destruct (w_lease w).
Qed.
Lemma harmless_publishFence o c e : rets (publishFence G o c e) harmless.
Proof.
  unfold publishFence. apply rets_bind; [|intros _; apply rets_bind; [by apply rets_stmt|intros _; apply harmless_fenceLease]].
  case_match; [|done]. apply rets_attempt_bind; [by apply rets_stmt|]. intros [[]|er] Hr; [done|exact Hr].
Qed.
Lemma harmless_patchRole name p role : rets (patchRole name p role) harmless.
Proof.
  unfold patchRole. destruct p; [|done]. case_match; [done|]. apply rets_stmt. intros w. cbn. by destruct (w_pods w !! name).
Qed.
Lemma harmless_onServer name f : rets (onServer name f) harmless.
Proof. apply rets_stmt. intros w. cbn. destruct (w_members w !! name); [case_match|]; done. Qed.
Lemma harmless_promoteCandidate ms c e : rets (promoteCandidate G ms c e) harmless.
Proof.
  unfold promoteCandidate. apply rets_attempt_bind.
  { apply rets_stmt. intros w. unfold agentPromote, acquireOnce. cbn. repeat (case_match; cbn; try done); simplify_eq; done. }
  intros [[]|er] Hr; [|exact Hr]. apply rets_bind.
  { unfold pauseIfFenced. case_match; [done|]. apply rets_attempt_bind; [by apply rets_stmt|]. by intros [[]|] _. }
  intros _. apply rets_bind; [apply harmless_patchRole|intros _]. apply rets_attempt_bind.
  { unfold EnsureSlots. apply rets_bind; [|intros _; apply harmless_onServer].
    induction (g_slotName G <$> _) as [|s l IH]; [done|]. apply rets_bind; [apply harmless_onServer|done]. }
  intros r _. apply rets_bind; [|done]. apply rets_stmt. intros w. cbn. done.
Qed.

(** The answer: nobody may be promoted only as long as nobody is published. *)
Definition answered (r : groupState * option err) (w : world) : Prop :=
  ∀ e, r.2 = Some e → isNoCandidate e = true → w_primary w = old ∧ primary r.1 = old.

Lemma failover_spec state ms preferred : primary state = old → triple (ready ms) (failover G state ms preferred) answered.
Proof.
  intros Hs. unfold failover. assert (∀ e, triple (ready ms) (Ret (state, Some e)) answered) as Hr.
  { intros e w Hi [Hp _]. split; [done|]. intros e' [= <-] _. done. }
  case_match; [apply Hr|]. case_bool_decide; [apply Hr|].
  eapply triple_pbind; [by apply confirmCandidate_spec|]. intros [[c ce]|er].
  2: { intros w Hi [Hp _]. split; [done|]. by intros e' [= <-] _. }
  apply (triple_conseq _ (λ w, w_primary w = old ∧ mayPromote c w) _ _ answered); [|done|].
  { intros w _ [? Hm]. split; [done|]. by eapply Hm. }
  eapply triple_pbind; [apply triple_rets; [apply publishFence_spec|apply harmless_publishFence]|]. intros [[]|er].
  2: { intros w Hi [_ Hh]. split; [done|]. intros e' [= <-] Hno. cbn in Hh. congruence. }
  apply (triple_conseq _ (published c) _ _ answered); [intros w _ [Hq _]; exact (Hq eq_refl)|done|].
  eapply triple_pbind; [apply triple_rets; [apply promoteCandidate_spec|apply harmless_promoteCandidate]|].
  intros [[]|er] w Hi [_ Hh]; (split; [done|]); [done|]. intros e' [= <-] Hno. cbn in Hh. congruence.
Qed.

(** ** The pass *)

Definition designated (w : world) : Prop := w_primary w = old.

Lemma create_keeps w p uid : Inv G w → designated w → w_pods w !! old = None → Inv G {| w with w_pods := <[old := p]> (w_pods w); w_nextUid := uid |}.
Proof.
  intros [I1 I2 I3 I4 I5 I6 I7] Hd Hn. split; cbn; try done. rewrite lookup_insert_eq. by right.
Qed.
Lemma observePod_spec state b :
  triple designated (observePod old state b) (λ r w, designated w ∧ ∀ i, r = Ok i → observed (i_pod i) w).
Proof.
  unfold observePod. pose proof (closed_primary old) as Hcl.
  eapply triple_try; [apply (getPod_spec designated Hcl)|]. intros [p|e].
  - assert (closed (λ w, designated w ∧ observed (Some p) w)) as Hcl' by (apply closed_and; [done|apply closed_observed]).
    apply triple_placid_bind; [done|placid| |by intros e w _ [? _]]. intros _. apply triple_ret. intros w _ [? ?].
    split; [done|]. by intros i [= <-].
  - destruct e; try (apply triple_fail; by intros w _ [? _]).
    destruct b; cbn [negb]; [|apply triple_ret; intros w _ [? ?]; split; [done|]; intros i [= <-]; by right].
    eapply (triple_bind _ _ _ _ (λ r w, designated w ∧ ∀ p, r = Ok p → observed (Some p) w)); [|intros p; apply triple_ret|by intros e w _ [? _]].
    + apply triple_stmt_conn; [apply closed_and; [done|intros w w' He; apply (ev_gone _ _ _ He)]|].
      intros w Hi [Hd Hn]. rewrite Hn. cbn. split; [by apply create_keeps|]. split_and!; try done.
      intros p [= <-] cur. by rewrite lookup_insert_eq; intros [= <-].
    + intros w _ [? Ho]. split; [done|]. intros i [= <-]. by apply Ho.
Qed.

Lemma observeMembers_spec state names : NoDup names →
  triple designated (observeMembers state names) (λ r w, designated w ∧ ∀ ms, r = Ok ms → old ∈ names → ready ms w).
Proof.
  pose proof (closed_primary old) as Hcl. induction 1 as [|n names Hn Hnd IH]; cbn [observeMembers].
  { apply triple_ret. intros w _ ?. split; [done|]. by intros ms _ ?%not_elem_of_nil. }
  destruct (decide (n = old)) as [->|Hne].
  - eapply triple_bind; [apply observePod_spec| |by intros e w _ [? _]]. intros i.
    apply (triple_conseq _ (λ w, designated w ∧ observed (i_pod i) w) _ _ (λ r w, designated w ∧ ∀ ms, r = Ok ms → old ∈ old :: names → ready ms w));
      [intros w _ [? Ho]; split; [done|by apply Ho]|done|].
    apply triple_placid_bind; [apply closed_and; [done|apply closed_observed]|by apply observeMembers_placid| |by intros e w _ [? _]].
    intros ms. apply triple_ret. intros w _ [? ?]. split; [done|]. intros ms' [= <-] _. split; [done|]. by rewrite lookup_insert_eq.
  - apply triple_placid_bind; [done|by apply observePod_placid| |done]. intros i.
    eapply triple_bind; [exact IH| |by intros e w _ [? _]]. intros ms. apply triple_ret. intros w _ [? Hr]. split; [done|].
    intros ms' [= <-] [E|Hin]%elem_of_cons; [by destruct Hne|]. destruct (Hr ms eq_refl Hin). split; [done|]. by rewrite lookup_insert_ne by done.
Qed.

(** ** Repairing the group *)

Lemma admissibleViews_placid ms ss names : placid (admissibleViews ms ss names).
Proof. pose proof probeView_placid. pose proof fillSlots_placid. induction names; cbn [admissibleViews]; placid. Qed.
Lemma admissiblePrimary_placid st ms t : placid (admissiblePrimary G st ms t).
Proof. pose proof admissibleViews_placid. unfold admissiblePrimary. placid. Qed.

(** The old primary, published and promoted again. *)
Lemma republish_spec o e : triple designated (publishFence G o old e) (λ _, designated).
Proof.
  pose proof (closed_primary old : closed designated) as Hcl.
  unfold publishFence. apply triple_placid_bind; [done|placid| |done]. intros _.
  eapply (triple_bind _ _ _ _ (λ _, designated)); [|intros []; apply triple_placid; [done|apply fenceLease_placid]|done].
  apply triple_stmt_conn; [done|]. intros w Hi Hd. split; [|done]. apply (aside_keeps G w); [|done]. by rewrite <-Hd.
Qed.
Lemma repromote_spec state i st : triple designated (repromote G state old i st) (λ r w, designated w ∧ ∀ st', r = Ok st' → primary st' = primary state).
Proof.
  pose proof (closed_primary old : closed designated) as Hcl.
  unfold repromote. eapply (triple_bind _ _ _ _ (λ _, designated)); [case_match; [apply republish_spec|by apply triple_ret]| |done].
  intros []. eapply (triple_try _ _ _ _ (λ _, designated)).
  - apply triple_stmt_conn; [done|]. intros w Hi Hd.
    destruct (order_keeps w old (promotionEpoch (epoch state) (Epoch st)) (or_introl eq_refl) Hi) as [Hi2 Hp2].
    unfold designated. rewrite Hp2. done.
  - intros [[]|er]; [|by apply triple_fail]. apply triple_placid_bind; [done|apply patchRole_placid| |done]. intros _.
    apply triple_ret. intros w _ Hd. split; [done|]. by intros st' [= <-].
Qed.

(** No other member of a group that designates the old primary is one. *)
Lemma Status_spec name :
  triple designated (Status name) (λ r w, designated w ∧ ∀ st f, r = Ok (st, f) → name ≠ old → Primary st = false).
Proof.
  apply triple_ask_conn; [apply closed_primary|]. intros w Hi Hd. split; [|done]. split; [done|]. intros st f.
  destruct (w_members w !! name) as [m|] eqn:Em; [|done]. intros [= <- <-] Hne. cbn. apply negb_false_iff.
  destruct (m_rec m) eqn:Er; [done|]. pose proof (inv_rec _ _ Hi name m Hne Em Er). unfold designated in Hd. congruence.
Qed.

Definition repaired (r : result err (groupState * option err)) (w : world) : Prop :=
  ∀ st e, r = Ok (st, e) → designated w ∧ primary st = old.
Lemma convergeOne_spec state ms name i : primary state = old → triple designated (convergeOne G state ms name i) repaired.
Proof.
  intros Hs. pose proof (closed_primary old : closed designated) as Hcl. unfold convergeOne. rewrite Hs.
  assert (∀ e, triple designated (mret (state, e)) repaired) as Hret
    by (intros e; apply triple_ret; intros w _ Hd st' e' [= <- <-]; done).
  eapply triple_try; [apply Status_spec|]. intros [[st full]|e].
  2: { eapply triple_conseq; [intros w _ [H _]; exact H|intros r w _ H; exact H|apply Hret]. }
  apply (triple_conseq _ (λ w, (name ≠ old → Primary st = false) ∧ designated w) _ _ repaired); [|done|].
  { intros w _ [? Hp]. split; [|done]. by apply (Hp st full). }
  apply triple_and_pure. intros Hprim.
  assert (∀ role, triple designated (_ ← patchRole name (i_pod i) role; mret (state, None)) repaired) as Hrole.
  { intros role. apply triple_placid_bind; [done|apply patchRole_placid|intros _; apply Hret|done]. }
  case_match; [apply Hret|]. destruct (String.eqb_spec name old) as [->|Hne]; cbn [andb negb].
  - case_match; [|case_match; [apply Hrole|apply Hret]]. case_match; [apply Hret|].
    apply triple_placid_bind; [done|placid| |done]. intros due. case_match; [apply Hret|].
    pose proof admissiblePrimary_placid. apply triple_placid_bind; [done|placid| |done]. intros [e|]; [apply Hret|].
    eapply triple_bind; [apply repromote_spec| |done]. intros st'. apply triple_ret. intros w _ [Hd Hp] st'' e [= <- <-].
    split; [done|]. rewrite (Hp st' eq_refl). done.
  - rewrite (Hprim Hne). cbn [andb]. case_match; [apply Hrole|apply Hret].
Qed.
Lemma converge_spec ms names state refused : primary state = old → triple designated (converge G state ms refused names) (λ _ _, True).
Proof.
  revert state refused. induction names as [|n names IH]; intros state refused Hs; cbn [converge]; [by apply triple_ret|].
  destruct (ms !! n) as [i|]; [|by apply IH]. case_match; [|by apply IH].
  eapply triple_bind; [by apply convergeOne_spec| |done]. intros [st' why].
  apply (triple_conseq _ (λ w, primary st' = old ∧ designated w) _ _ (λ _ _, True)); [|done|].
  { intros w _ Hr. destruct (Hr st' why eq_refl). done. }
  apply triple_and_pure. intros Hs'. by apply IH.
Qed.

Local Notation anything := (λ _ _, True).
Lemma switchover_spec state ms target : primary state = old → triple (ready ms) (switchover G state ms target) anything.
Proof.
  intros Hs. unfold switchover. rewrite Hs. pose proof (closed_ready ms) as Hcl.
  case_match; [apply triple_any; placid|]. case_match; [apply triple_any; placid|].
  apply triple_placid_bind; [done|apply switchoverCandidate_placid| |done]. intros [why catchUp].
  apply triple_placid_bind; [done|placid| |done]. intros [[]|]; [|apply triple_any; placid|by apply triple_ret].
  apply triple_placid_bind; [done|placid| |done]. intros _.
  eapply triple_bind; [apply (stopPod_spec _ designated), closed_primary| |done]. intros [].
  eapply triple_pbind; [eapply triple_conseq; [|intros r w _ Hq; exact Hq|by apply failover_spec]|].
  - intros w _ [Hd Hg]. split; [done|]. specialize (Hg eq_refl).
    destruct (ms !! old) as [i|] eqn:Ei; [destruct (i_pod i) eqn:Ep|].
    + by rewrite lookup_insert_eq.
    + rewrite Ei. cbn. by rewrite Ep.
    + by rewrite Ei.
  - intros [st e]. apply triple_any. placid.
Qed.

Hypothesis old_member : old ∈ g_members G.
Hypothesis members_distinct : NoDup (g_members G).

Lemma reconcileGroup_spec : triple (λ _, True) (reconcileGroup G) anything.
Proof.
  unfold reconcileGroup. eapply (triple_bind _ _ _ _ (λ r w, ∀ st, r = Ok st → primary st = old → designated w)); [| |done].
  { apply triple_ask_conn; [done|]. intros w Hi _. split; [|done]. by intros st [= <-]. }
  intros state. destruct (String.eqb_spec (primary state) old) as [Hs|_]; cbn [negb]; [|by apply triple_ret].
  eapply triple_conseq; [intros w _ Hd; exact (Hd state eq_refl Hs)|intros a w _ H; exact H|].
  eapply triple_bind; [by apply observeMembers_spec| |done]. intros ms.
  eapply triple_conseq; [intros w _ [_ Hr]; exact (Hr ms eq_refl old_member)|intros a w _ H; exact H|].
  pose proof (closed_ready ms) as Hcl.
  apply triple_placid_bind; [done|placid| |done]. intros asked. case_bool_decide; [by apply switchover_spec|].
  apply triple_placid_bind; [done|apply askStatus_placid| |done]. intros a.
  apply triple_placid_bind; [done|placid| |done]. intros since. case_match.
  { eapply triple_conseq; [intros w _ [Hd _]; exact Hd|intros r w _ Hq; exact Hq|].
    eapply triple_bind; [by apply converge_spec|intros; by apply triple_ret|done]. }
  case_match; [by apply triple_ret|].
  eapply triple_pbind; [by apply failover_spec|]. intros [st [e|]]; [|by apply triple_ret].
  destruct (isNoCandidate e) eqn:En; [|apply triple_any; placid].
  apply (triple_conseq _ (λ w, designated w ∧ primary st = old) _ _ anything); [intros w _ Ha; by apply (Ha e)|done|].
  assert (closed (λ w, designated w ∧ primary st = old)) as Hcl' by (apply closed_and; [apply closed_primary|apply closed_pure]).
  apply triple_placid_bind; [done|placid| |done]. intros _. case_bool_decide; [|by apply triple_ret].
  intros w Hi [Hd ->]. revert w Hi Hd. change (triple designated (_ ← observePod old st true; mret ()) anything).
  eapply triple_bind; [apply observePod_spec| |done]. intros i. by apply triple_ret.
Qed.
End Operations.

(** ** Every run *)

(** The start: the group's primary is the one it designates, the standbys are
    standbys and no promotion is on its way; what is acknowledged is held. *)
Record started (G : group) (w : world) : Prop := {
  st_primary : w_primary w = g_old G;
  st_pod : w_pods w !! g_old G ≠ None;
  st_orders : w_orders w = [];
  st_quorum : Z.min (g_acks G) (Z.of_nat (length (standbys G))) ≤ held G (w_acked w) (w_members w);
  st_standbys : ∀ s m, s ≠ g_old G → w_members w !! s = Some m →
    m_rec m = true ∧ 0 ≤ m_flush m ∧ default 0 (m_received m) ≤ m_flush m ∧ m_replayed m ≤ m_flush m ∧
    (m_flush m ≤ sb_flush (probed m) ∨ m_up m = false) }.

(** A group's settings: its members are distinct and its primary is one of
    them; a commit waits for as many standbys as the specification says; and a
    standby that restarts has replayed the WAL it holds. *)
Record settings (G : group) : Prop := {
  set_old : g_old G ∈ g_members G;
  set_distinct : NoDup (g_members G);
  set_acks : minSyncStandbys (g_minSync G) ≤ g_acks G;
  set_backlog : g_backlog G = false }.

Lemma started_inv G w : started G w → Inv G w.
Proof.
  intros [S1 S2 S3 S4 S5]. split; try done.
  - right. by intros ?.
  - intros _ s m Hs Hm Hu Hr. destruct (S5 s m Hs Hm) as (_ & _ & _ & _ & [?|E]); [done|congruence].
  - intros s m Hs Hm. destruct (S5 s m Hs Hm) as (_ & ? & ? & ? & _). done.
  - intros s m Hs Hm Hr. destruct (S5 s m Hs Hm) as (E & _). congruence.
  - rewrite S3. by intros s e ?%not_elem_of_nil.
Qed.

(** C5. A failover or switchover of the operator loses no acknowledged commit
    and leaves no second primary, in a group in which a commit waits for at
    least as many standbys as the specification asks and a standby restarts only
    with no WAL left to replay (neither can be left out: see
    [restarted_standby_loses_commit] and [raised_quorum_loses_commit]).  Passes
    follow one another, each statement of
    one may fail before or after taking effect, the operator may die anywhere
    and agents may carry out promotions late, while clients commit, standbys
    lag, disconnect and restart and kubelets act in their own time: in every
    state reached, a member other than the old primary that was promoted is the
    one published, and unless the old primary's Pod had to be removed by force,
    that member holds every commit ever acknowledged and the old primary has
    stopped. *)
Theorem failover_loses_no_commit G w0 w p c m :
  settings G → started G w0 →
  rtc (sys_step (env G) (pass G)) (w0, None) (w, p) →
  c ≠ g_old G → w_members w !! c = Some m → m_rec m = false →
  w_primary w = c ∧
  (w_forced w = true ∨
   w_acked w ≤ m_flush m ∧ ∀ o, w_members w !! g_old G = Some o → m_up o = false).
Proof.
  intros HG Hs Hr Hc Hm Hrec. assert (Inv G w) as Hi.
  { assert (safe (env G) (Inv G) (λ _ _, True) (w, p)) as [? _]; [|done].
    eapply (reach_safe (env G) (Inv G) (λ _ _, True)); [..|exact Hr|split; [by apply started_inv|done]].
    - intros w1 w2 He Hi. by apply (env_keeps G w1 w2).
    - done.
    - done.
    - intros d w1. constructor. lia.
    - intros w1 Hi. destruct HG as [H1 H2 H3 H4]. apply wp_bind.
      eapply wp_mono; [|exact (reconcileGroup_spec G H4 H3 H1 H2 w1 Hi I)]. done. }
  pose proof (inv_rec _ _ Hi c m Hc Hm Hrec) as Hp. split; [done|].
  destruct (inv_primary _ _ Hi) as [?|[Hg Hh]]; [congruence|by left|].
  destruct (inv_pod _ _ Hi) as [?|Hpod]; [by left|right]. split; [|by apply Hpod].
  rewrite Hp in Hh. unfold holds in Hh. by rewrite Hm in Hh.
Qed.
