(* ===== verification/FailRun.v ===== *)
(** * Failovers, run

    An executable scheduler for the system of [FailProof], and runs of whole
    failovers: one that promotes the standby that holds every commit, and the
    two ways in which the code can promote one that does not. *)

From S2P Require Import Prelude Prog Triples Candidate FailWorld Failover FailSafety FailSpecs FailProof.

Local Open Scope Z_scope.

(** ** A scheduler *)

Inductive mem_act := MWrite (n : Z) | MReceive (n : Z) | MReplay (n : Z) | MConnect | MDisconnect | MStop | MStart.
Inductive act := AStart | AOk | ALost (after : bool) | ACrash
  | AMember (s : string) (a : mem_act) | AAck (L : Z) | AGone (s : string) | AClock (n : Z).

Section Schedule.
Context (G : group).
Local Notation old := (g_old G).
Local Notation state := (world * option (prog ()))%type.

Definition mem_act_step (w : world) (s : string) (a : mem_act) (m : member) : option member :=
  let standby := negb (String.eqb s old) in
  match a with
  | MWrite n => if negb standby && m_up m && negb (m_rec m) && (m_flush m <=? n) then Some {| m with m_flush := n |} else None
  | MReceive n =>
      match w_members w !! old with
      | Some o => if standby && m_up m && m_rec m && m_streaming m && (m_flush m <=? n) && (n <=? m_flush o)
                  then Some {| m with m_flush := n; m_received := Some n |} else None
      | None => None
      end
  | MReplay n => if standby && m_rec m && (m_replayed m <=? n) && (n <=? m_flush m) then Some {| m with m_replayed := n |} else None
  | MConnect =>
      match w_members w !! old with
      | Some o => if standby && m_up m && m_rec m && m_up o then Some {| m with m_streaming := true |} else None
      | None => None
      end
  | MDisconnect => if standby then Some {| m with m_streaming := false |} else None
  | MStop => Some {| m with m_up := false; m_streaming := false |}
  | MStart => if standby && (g_backlog G || (m_replayed m =? m_flush m)) then Some {| m with m_up := true; m_received := None |} else None
  end.
Ltac split_guards := repeat match goal with
  | H : (_ && _) = true |- _ => apply andb_true_iff in H as [? ?]
  | H : negb _ = true |- _ => apply negb_true_iff in H
  | H : String.eqb _ _ = true |- _ => apply String.eqb_eq in H
  | H : String.eqb _ _ = false |- _ => apply String.eqb_neq in H
  | H : (_ <=? _) = true |- _ => apply Z.leb_le in H
  end.
Lemma mem_act_sound w s a m m' : mem_act_step w s a m = Some m' → member_step G w s m m'.
Proof.
  destruct a; cbn; try (destruct (w_members w !! old) as [o|] eqn:Eo; [|done]); try (case_match eqn:E; [|done]); intros [= <-]; split_guards.
  - destruct (String.eqb_spec s old) as [->|]; [|done]. by apply mem_write.
  - by eapply mem_receive.
  - by apply mem_replay.
  - by eapply mem_connect.
  - by apply mem_disconnect.
  - apply mem_stop.
  - apply mem_start; [done|]. match goal with H : (_ || _) = true |- _ => apply orb_true_iff in H as [?|?%Z.eqb_eq]; auto end.
Qed.

Definition act_step (a : act) (st : state) : option state :=
  let '(w, p) := st in
  match a, p with
  | AStart, None => Some (w, Some (pass G))
  | AOk, Some (Stmt f k) => Some ((f w).2, Some (k (f w).1))
  | AOk, Some (Clock d k) => Some ((tick d w).2, Some (k (tick d w).1))
  | AOk, Some (Ret tt) => Some (w, None)
  | ALost after, Some (Stmt f k) => Some (if after : bool then (f w).2 else w, Some (k (Err EConn)))
  | ACrash, Some _ => Some (w, None)
  | AMember s a, _ =>
      m ← w_members w !! s; m' ← mem_act_step w s a m; Some ({| w with w_members := <[s := m']> (w_members w) |}, p)
  | AAck L, _ =>
      m ← w_members w !! old;
      if m_up m && negb (m_rec m) && (w_acked w <=? L) && (L <=? m_flush m) &&
         (Z.min (g_acks G) (Z.of_nat (length (standbys G))) <=? held G L (w_members w))
      then Some ({| w with w_acked := L |}, p) else None
  | AGone s, _ =>
      q ← w_pods w !! s; m ← w_members w !! s;
      if p_terminating q && negb (m_up m) then Some ({| w with w_pods := partial_alter (λ _, None) s (w_pods w) |}, p) else None
  | AClock n, _ => if 0 <=? n then Some ({| w with w_clock := w_clock w + n |}, p) else None
  | _, _ => None
  end.
(** An act that is not possible is passed over. *)
Definition acts (l : list act) (st : state) : state := fold_left (λ st a, default st (act_step a st)) l st.

Lemma act_step_sound a st st' : act_step a st = Some st' → sys_step (env G) (pass G) st st'.
Proof.
  destruct st as [w p]. destruct a as [| |after| |s a|L|s|n]; cbn.
  - destruct p; intros [= <-]. apply sys_start.
  - destruct p as [[[]|X f k|d k]|]; intros [= <-]; [apply sys_done|..]; apply sys_prog; [by left|done].
  - destruct p as [[[]|X f k|d k]|]; intros [= <-]. apply sys_prog. right. exists EConn. split_and!; [done..|]. destruct after; auto.
  - destruct p; intros [= <-]. apply sys_crash.
  - intros (m & Hm & (m' & Ha & [= <-])%bind_Some)%bind_Some. apply sys_env. eapply env_member; [done|by eapply mem_act_sound].
  - intros (m & Hm & H)%bind_Some. case_match eqn:E; [|done]. simplify_eq. split_guards. apply sys_env. by eapply env_ack.
  - intros (q & Hq & (m & Hm & H)%bind_Some)%bind_Some. case_match eqn:E; [|done]. simplify_eq. split_guards. apply sys_env.
    eapply env_pod; [done|]. apply pod_gone; [done|]. intros m0. rewrite Hm. by intros [= <-].
  - case_match eqn:E; intros [= <-]. split_guards. by apply sys_env, env_clock.
Qed.
Lemma acts_run l st : rtc (sys_step (env G) (pass G)) st (acts l st).
Proof.
  revert st. induction l as [|a l IH]; intros st; cbn; [done|]. etrans; [|apply IH].
  destruct (act_step a st) as [st'|] eqn:E; [by eapply rtc_once, act_step_sound|done].
Qed.
End Schedule.

(** ** A group of three *)

Definition three (backlog : bool) : group :=
  mkGroup ["a"; "b"; "c"]%string "a" 1 backlog 1 true id id (30 * Second) Second (30 * Second) (10 * Second) (60 * Second) (15 * Second).
Definition primaryAt (n : Z) : member := mkMember true false false n None n 1 false ∅ false.
Definition standbyAt (n r : Z) : member := mkMember true true true n (Some n) r 0 false ∅ false.
Definition servingPod (uid : Z) (role : string) : pod := mkPod uid true false false false role.
Definition servingGroup (ms : gmap string member) (names : list string) : world :=
  mkWorld ms (list_to_map (imap (λ i n, (n, servingPod (Z.of_nat i) (if decide (i = 0%nat) then RolePrimary else RoleReplica))) names)) 10 false
    None "a" 1 (list_to_set (drop 1 names)) None false None None None None ∅ ∅ [] 0 0.
Definition threeAt (b rb c : Z) : world :=
  servingGroup {["a"%string := primaryAt 100; "b"%string := standbyAt b rb; "c"%string := standbyAt c c]} ["a"; "b"; "c"]%string.

(** The primary dies, the standbys lose their connection, and two passes of the
    operator see it: the second finds it unhealthy for long enough.  The
    kubelet confirms the Pod is gone once asked. *)
Definition dies : list act := [AMember "a" MStop; AMember "b" MDisconnect; AMember "c" MDisconnect].
Definition answers (n : nat) : list act := mjoin (replicate n [AOk; AGone "a"]).
Definition operatorFailsOver : list act := [AStart] ++ answers 60 ++ [AClock (10 * Second); AStart] ++ answers 120.

Local Notation run G w l := (acts G l (w, None)).

(** A concrete group satisfies what the theorems ask of a start. *)
Lemma three_settings : settings (three false).
Proof. split; [vm_compute; by left|vm_compute; repeat constructor; set_solver|by vm_compute|done]. Qed.
Lemma serving_started G ms names :
  g_old G = "a"%string → w_pods (servingGroup ms names) !! "a"%string ≠ None →
  map_Forall (λ s m, s = "a"%string ∨ ∃ n r, m = standbyAt n r ∧ 0 ≤ n ∧ r ≤ n) ms →
  Z.min (g_acks G) (Z.of_nat (length (standbys G))) ≤ held G 0 ms → started G (servingGroup ms names).
Proof.
  intros Ho Hp Hms Hq. split; rewrite ?Ho; try done. intros s m Hs Hm. destruct (Hms s m Hm) as [?|(n & r & -> & ? & ?)]; [done|].
  unfold probed. cbn. split_and!; try done; lia.
Qed.
Ltac serving := apply serving_started; [done|by vm_compute| |by vm_compute];
  repeat (apply map_Forall_insert_2; [first [by left|right; do 2 eexists; split; [reflexivity|lia]]|]); apply map_Forall_empty.

Lemma start_ahead : started (three false) (threeAt 100 100 90).
Proof. serving. Qed.
Lemma start_backlog : started (three true) (threeAt 100 50 90).
Proof. serving. Qed.
Lemma b_not_old : "b"%string ≠ g_old (three false).
Proof. done. Qed.

(** ** A failover that goes through *)

Definition promoted (c : string) (w : world) : option member :=
  if negb (String.eqb (w_primary w) c) then None else m ← w_members w !! c; if m_rec m then None else Some m.
Lemma promoted_facts c w m : promoted c w = Some m → w_members w !! c = Some m ∧ m_rec m = false.
Proof.
  unfold promoted. destruct (w_primary w =? c)%string; [|done]. cbn. intros (m' & Hm & H)%bind_Some. destruct (m_rec m') eqn:E; by simplify_eq.
Qed.

Local Notation goesThrough := (run (three false) (threeAt 100 100 90) ([AAck 100] ++ dies ++ operatorFailsOver)).
Lemma goesThrough_promotes : ∃ m, promoted "b" goesThrough.1 = Some m ∧ w_forced goesThrough.1 = false ∧ w_acked goesThrough.1 = 100.
Proof. eexists. split_and!; vm_compute; reflexivity. Qed.

(** The theorem at a run in which the primary dies with a commit that only one
    standby holds: that one is promoted. *)
Lemma failover_loses_no_commit_witness :
  ∃ w p m, rtc (sys_step (env (three false)) (pass (three false))) (threeAt 100 100 90, None) (w, p) ∧
    w_members w !! "b"%string = Some m ∧ m_rec m = false ∧ w_acked w = 100 ∧ w_acked w ≤ m_flush m.
Proof.
  destruct goesThrough_promotes as (m & [Hm Hr]%promoted_facts & Hf & Ha).
  exists goesThrough.1, goesThrough.2, m.
  assert (rtc (sys_step (env (three false)) (pass (three false))) (threeAt 100 100 90, None) (goesThrough.1, goesThrough.2)) as Hrun.
  { rewrite <-surjective_pairing. apply acts_run. }
  pose proof start_ahead as Hst.
  split; [exact Hrun|]. split; [exact Hm|]. split; [exact Hr|]. split; [exact Ha|].
  assert ("b"%string ≠ g_old (three false)) as Hb by exact b_not_old.
  destruct (failover_loses_no_commit (three false) _ _ _ "b" m three_settings Hst Hrun Hb Hm Hr) as [_ [Hf'|[HL _]]];
    [|exact HL]. rewrite Hf in Hf'. discriminate Hf'.
Defined.

(** ** A standby that restarts with WAL still to replay *)

Definition losesCommit (G : group) (w0 : world) : Prop :=
  ∃ w p c m, started G w0 ∧ rtc (sys_step (env G) (pass G)) (w0, None) (w, p) ∧
    w_primary w = c ∧ w_members w !! c = Some m ∧ m_rec m = false ∧ w_forced w = false ∧ m_flush m < w_acked w.

Local Notation restarted := (run (three true) (threeAt 100 50 90)
  ([AAck 100] ++ dies ++ [AMember "b" MStop; AMember "b" MStart] ++ operatorFailsOver)).
Lemma restarted_promotes : ∃ m, promoted "c" restarted.1 = Some m ∧ w_primary restarted.1 = "c"%string ∧ w_forced restarted.1 = false ∧
  (m_flush m <? w_acked restarted.1) = true.
Proof. eexists. split_and!; vm_compute; reflexivity. Qed.

(** C40. A probe reports the greater of the received and the replayed position,
    and a standby that has just restarted has received nothing: with WAL on its
    disk that it has yet to replay it ranks below a standby that holds less.
    Here [b] acknowledged position 100 and restarts having replayed 50, [c]
    holds 90 and is promoted: the commit the client was told of is lost,
    although every member answered and the old primary's Pod was confirmed
    gone. *)
Theorem restarted_standby_loses_commit : losesCommit (three true) (threeAt 100 50 90).
Proof.
  destruct restarted_promotes as (m & [Hm Hr]%promoted_facts & Hp & Hf & HL%Z.ltb_lt).
  exists restarted.1, restarted.2, "c"%string, m. split; [exact start_backlog|]. split; [rewrite <-surjective_pairing; apply acts_run|].
  exact (conj Hp (conj Hm (conj Hr (conj Hf HL)))).
Qed.

(** ** A specification that asks for more than the primary waits for *)

(** Four members; the specification asks for two acknowledgements, the primary
    still waits for the one it was last configured with. *)
Definition raised : group :=
  mkGroup ["a"; "b"; "c"; "d"]%string "a" 1 false 2 true id id (30 * Second) Second (30 * Second) (10 * Second) (60 * Second) (15 * Second).
Definition fourAt (b c d : Z) : world :=
  servingGroup {["a"%string := primaryAt 100; "b"%string := standbyAt b b; "c"%string := standbyAt c c; "d"%string := standbyAt d d]}
    ["a"; "b"; "c"; "d"]%string.
Lemma start_four : started raised (fourAt 90 90 100).
Proof. serving. Qed.
(** The one standby that holds the commit goes down with the primary. *)
Local Notation raisedRun := (run raised (fourAt 90 90 100)
  ([AAck 100] ++ dies ++ [AMember "d" MStop; AStart] ++ answers 60 ++ [AClock (10 * Second); AStart] ++ answers 2000)).
Lemma raised_promotes : ∃ m, promoted "b" raisedRun.1 = Some m ∧ w_primary raisedRun.1 = "b"%string ∧ w_forced raisedRun.1 = false ∧
  (m_flush m <? w_acked raisedRun.1) = true.
Proof. eexists. split_and!; vm_compute; reflexivity. Qed.

(** The quorum rule counts the acknowledgements the specification asks for
    now, not those the primary waited for: where the number was raised and the
    primary died before it was told, commits were acknowledged by fewer
    standbys than the rule takes for granted, and a failover promotes a standby
    without one of them, while the standby that holds it is unreachable. *)
Theorem raised_quorum_loses_commit : losesCommit raised (fourAt 90 90 100).
Proof.
  destruct raised_promotes as (m & [Hm Hr]%promoted_facts & Hp & Hf & HL%Z.ltb_lt).
  exists raisedRun.1, raisedRun.2, "b"%string, m. split; [exact start_four|]. split; [rewrite <-surjective_pairing; apply acts_run|].
  exact (conj Hp (conj Hm (conj Hr (conj Hf HL)))).
Qed.
