(* ===== verification/FailLive.v ===== *)
(** * A failover comes to an end, and to its purpose

    The waits of a failover never run out of the rounds they are given; and a
    pass that finds the old primary gone and its standbys answering promotes
    one of them. *)

From S2P Require Import Prelude Prog Triples Candidate FailWorld Failover FailSafety FailSpecs FailProof FailRun.

Local Open Scope Z_scope.

(** ** The waits end *)

(** The error of a loop that ran out of rounds. *)
Definition exhausted (e : err) : bool := match e with EFuel => true | _ => false end.
Local Notation inRounds := (inRounds exhausted).

Section Waits.
Context (G : group).
Hypothesis poll_positive : 0 < g_pollInterval G.

Local Notation enough := (enough (g_pollInterval G)).

Lemma enough_polls c timeout : 0 ≤ timeout → enough c (c + timeout) (polls G timeout).
Proof.
  intros Ht. unfold enough, polls. pose proof (Z.quot_rem' timeout (g_pollInterval G)).
  pose proof (Z.rem_bound_pos timeout (g_pollInterval G) Ht poll_positive).
  pose proof (Z.quot_pos timeout (g_pollInterval G) Ht poll_positive). split; [lia|]. rewrite Z2Nat.id by lia. nia.
Qed.
Lemma probeView_inRounds c ms b name : retsFrom c (probeView ms b name) inRounds.
Proof. unfold probeView. in_rounds. Qed.
Lemma probeViews_inRounds c ms names : retsFrom c (probeViews ms names) inRounds.
Proof.
  revert c. induction names as [|n l IH]; intros c; cbn [probeViews]; [in_rounds|].
  apply inRounds_bind; [apply probeView_inRounds|]. intros c1 v _. apply inRounds_bind; [apply IH|]. intros. in_rounds.
Qed.
Lemma fillSlots_inRounds c ms v : retsFrom c (fillSlots ms v) inRounds.
Proof. unfold fillSlots, readySlots. in_rounds. Qed.
Lemma withReadySlots_inRounds c ms views : retsFrom c (withReadySlots ms views) inRounds.
Proof.
  revert c. induction views as [|n l IH]; intros c; cbn [withReadySlots]; [in_rounds|].
  apply inRounds_bind; [apply fillSlots_inRounds|]. intros c1 v _. apply inRounds_bind; [apply IH|]. intros. in_rounds.
Qed.
Lemma quiesceLoop_inRounds c fuel ms o t : enough c t fuel → retsFrom c (quiesceLoop G fuel ms o t) inRounds.
Proof.
  revert c. induction fuel as [|fuel IH]; intros c He; [by destruct He; lia|]. cbn [quiesceLoop].
  apply inRounds_bind; [in_rounds|]. intros c1 _ H1. apply inRounds_bind; [unfold askStatus; in_rounds|]. intros c2 a H2.
  apply inRounds_bind; [apply probeViews_inRounds|]. intros c3 views H3. case_match; [apply withReadySlots_inRounds|].
  apply now_inRounds. intros t' Ht'. destruct (t <? t') eqn:E; [case_match; [reflexivity|apply withReadySlots_inRounds]|].
  apply sleep_inRounds. intros t'' Ht''. apply IH. apply Z.ltb_ge in E. eapply enough_sleep; [exact He| |exact E|exact Ht'']. lia.
Qed.
Lemma getPod_inRounds c name : retsFrom c (getPod name) inRounds.
Proof. split; [|by intros ? ->]. intros w. cbn. by destruct (w_pods w !! name). Qed.
Lemma deletePod_inRounds c name b : retsFrom c (deletePod name b) inRounds.
Proof. split; [|by intros ? ->]. intros w. cbn. by destruct (w_pods w !! name). Qed.
Lemma patchRole_inRounds c name p role : retsFrom c (patchRole name p role) inRounds.
Proof.
  unfold patchRole. in_rounds. split; [|by intros ? ->]. intros w. cbn. by destruct (w_pods w !! name).
Qed.
Lemma ignoreNotFound_inRounds {A} (r : result err A) e : inRounds r → ignoreNotFound r = Some e → exhausted e = false.
Proof. destruct r as [a|er]; [done|]. cbn. intros Hr H. destruct er; by simplify_eq. Qed.

(** Both waits for a Pod: [rest] is what they do once the deadline passed. *)
Lemma podLoop_inRounds c name p t (loop rest : M ()) fuel :
  enough c t (S fuel) → (∀ c, retsFrom c rest inRounds) → (∀ c, enough c t fuel → retsFrom c loop inRounds) →
  retsFrom c (got ← attempt (getPod name);
    match got with
    | Err ENotFound => mret ()
    | Err e => fail e
    | Ok cur => if negb (p_uid cur =? p_uid p) then mret () else
                t' ← now; if t <? t' then rest else _ ← sleep (g_pollInterval G); loop
    end) inRounds.
Proof.
  intros He Hr Hl. apply inRounds_try; [apply getPod_inRounds|]. intros c1 [cur|e] H1 Hg.
  2: { destruct e; done. }
  case_match; [done|]. apply now_inRounds. intros t' Ht'. destruct (t <? t') eqn:E; [apply Hr|].
  apply sleep_inRounds. intros t'' Ht''. apply Hl. apply Z.ltb_ge in E. eapply enough_sleep; [exact He| |exact E|exact Ht'']. lia.
Qed.
Lemma podGone_inRounds c fuel name p t : enough c t fuel → retsFrom c (podGone G fuel name p t) inRounds.
Proof.
  revert c. induction fuel as [|fuel IH]; intros c He; [by destruct He; lia|]. apply (podLoop_inRounds _ _ _ _ _ _ _ He); [|done].
  intros c'. apply inRounds_try; [apply deletePod_inRounds|]. intros c1 r _ _. by destruct (ignoreNotFound r).
Qed.
Lemma waitPodGone_inRounds c fuel name p t : enough c t fuel → retsFrom c (waitPodGone G fuel name p t) inRounds.
Proof.
  revert c. induction fuel as [|fuel IH]; intros c He; [by destruct He; lia|]. apply (podLoop_inRounds _ _ _ _ _ _ _ He); [|done].
  done.
Qed.
End Waits.

(** No wait of a failover or switchover ends because its rounds ran out:
    the wait for the old primary and the standbys to settle, the one for the
    kubelet to confirm the old primary's Pod is gone and the one of a planned
    switchover, each end by their answers or by their deadline, whatever is
    answered and however slowly the clock goes on. *)
Theorem waits_end_in_rounds G c ms name m p :
  0 < g_pollInterval G → 0 ≤ g_quiesceTimeout G → 0 ≤ g_podFenceTimeout G →
  retsFrom c (quiesce G ms name) inRounds ∧ retsFrom c (fencePod G name m) inRounds ∧ retsFrom c (stopPod G name p) inRounds.
Proof.
  intros Hp Hq Hf. split_and!.
  - apply now_inRounds. intros t _. by apply quiesceLoop_inRounds, enough_polls.
  - unfold fencePod. destruct (m ≫= i_pod) as [q|]; [|done]. apply inRounds_try; [apply deletePod_inRounds|]. intros c1 r _ Hr.
    destruct (ignoreNotFound r) eqn:E; [by eapply ignoreNotFound_inRounds|].
    apply now_inRounds. intros t _. by apply podGone_inRounds, enough_polls.
  - unfold stopPod. destruct p as [q|]; [|done]. apply inRounds_bind; [apply patchRole_inRounds|]. intros c0 _ _.
    apply inRounds_try; [apply deletePod_inRounds|]. intros c1 r _ Hr.
    destruct (ignoreNotFound r) eqn:E; [by eapply ignoreNotFound_inRounds|].
    apply now_inRounds. intros t _. by apply waitPodGone_inRounds, enough_polls.
Qed.

Lemma waits_end_in_rounds_witness : retsFrom 0 (quiesce (three false) ∅ "a") inRounds.
Proof. apply (waits_end_in_rounds (three false) 0 ∅ "a" None None); vm_compute; done. Defined.

(** ** An undisturbed pass *)

Lemma exec_now w : exec now w = (Ok (w_clock w), w).
Proof. cbn. rewrite Z.add_0_r. by destruct w. Qed.
Lemma exec_getPod n w : exec (getPod n) w = (match w_pods w !! n with Some p => Ok p | None => Err ENotFound end, w).
Proof. done. Qed.
Lemma exec_getLease w : exec getLease w = (match w_lease w with Some l => Ok l | None => Err ENotFound end, w).
Proof. done. Qed.
Lemma exec_updateLease l cur w : w_lease w = Some cur → l_version l = l_version cur →
  exec (updateLease l) w = (Ok (), {| w with w_lease := Some {| l with l_version := l_version l + 1 |} |}).
Proof. intros E Hv. cbn. by rewrite E, Hv, Z.eqb_refl. Qed.
Lemma exec_ProbeStandby n m w : w_members w !! n = Some m → m_up m = true → exec (ProbeStandby n) w = (Ok (probed m), w).
Proof. intros E Hu. cbn. by rewrite E, Hu. Qed.
Lemma exec_run G p w : rtc (sys_step (env G) (pass G)) (w, Some p) ((exec p w).2, None).
Proof.
  revert w. induction p as [[]|X f k IH|d k IH]; intros w; cbn.
  - apply rtc_once, sys_done.
  - eapply rtc_l; [|apply IH]. apply sys_prog. by left.
  - eapply rtc_l; [|apply IH]. by apply sys_prog.
Qed.

(** Statements that keep a fact, whatever they answer. *)
Section Steady.
Context (P : world → Prop).
Fixpoint steady {A} (p : prog A) : Prop :=
  match p with
  | Ret _ => True
  | Stmt f k => (∀ w, P w → P (f w).2) ∧ ∀ r, steady (k r)
  | Clock d k => (∀ w, P w → P (tick d w).2) ∧ ∀ t, steady (k t)
  end.
Lemma steady_pbind {A B} (x : prog A) (f : A → prog B) : steady x → (∀ a, steady (f a)) → steady (pbind x f).
Proof.
  intros Hx Hf. induction x as [a|X g k IH|d k IH]; cbn in *; [done|..]; (split; [apply Hx|]); intros; apply IH, Hx.
Qed.
Lemma steady_bind {A B} (x : M A) (f : A → M B) : steady x → (∀ a, steady (f a)) → steady (x ≫= f).
Proof. intros Hx Hf. apply steady_pbind; [done|]. by intros [a|e]. Qed.
Lemma steady_attempt {A} (x : M A) : steady x → steady (attempt x).
Proof. intros Hx. by apply steady_pbind. Qed.
Lemma steady_stmt {X} (f : world → result err X * world) : (∀ w, P w → P (f w).2) → steady (stmt f).
Proof. by split. Qed.
Lemma exec_steady {A} (x : prog A) w : steady x → P w → P (exec x w).2.
Proof. revert w. induction x as [a|X f k IH|d k IH]; intros w Hx Hw; cbn in *; [done|..]; apply IH; by apply Hx. Qed.
End Steady.

(** What is left once the candidate is a primary. *)
Definition serves (c : string) (e : Z) (w : world) : Prop :=
  w_primary w = c ∧ w_epoch w = e ∧ ∃ m, w_members w !! c = Some m ∧ m_rec m = false.

Ltac steadily := repeat match goal with
  | |- steady _ (mbind _ _) => apply steady_bind; [|intros]
  | |- steady _ (attempt _) => apply steady_attempt
  | |- steady _ (ask _) => by apply steady_stmt
  | |- steady _ (match ?x with _ => _ end) => destruct x
  | |- steady _ (mret _) => exact I
  | |- steady _ (fail _) => exact I
  end.

Lemma onServer_steady c e name f : (∀ m, m_rec (f m) = m_rec m) → steady (serves c e) (onServer name f).
Proof.
  intros Hf. apply steady_stmt. intros w (H1 & H2 & m & Hm & Hr). destruct (w_members w !! name) as [m0|] eqn:E; [|by repeat split; eauto].
  case_match; [|by repeat split; eauto]. split_and!; [done..|]. cbn. destruct (decide (name = c)) as [->|Hne].
  - rewrite lookup_insert_eq. eexists. split; [done|]. rewrite Hf. congruence.
  - rewrite lookup_insert_ne by done. eauto.
Qed.
Lemma unhealthyFor_steady c e b : steady (serves c e) (unhealthyFor b).
Proof. apply steady_stmt. intros w H. by destruct (waitedFor (w_since w) b (w_clock w)). Qed.
Lemma patchRole_steady c e name p role : steady (serves c e) (patchRole name p role).
Proof. unfold patchRole. steadily. apply steady_stmt. intros w H. by destruct (w_pods w !! name). Qed.
Lemma observePod_steady c e name st b : steady (serves c e) (observePod name st b).
Proof.
  unfold observePod, getPod. steadily; apply steady_stmt; intros w H; by destruct (w_pods w !! name).
Qed.
Lemma EnsureSlots_steady c e name want drop : steady (serves c e) (EnsureSlots name want drop).
Proof.
  unfold EnsureSlots. apply steady_bind; [|intros; by apply onServer_steady].
  induction want; cbn [createSlots]; [done|]. apply steady_bind; [by apply onServer_steady|done].
Qed.
Lemma pauseIfFenced_steady c e G name : steady (serves c e) (pauseIfFenced G name).
Proof. unfold pauseIfFenced, WriteFenced. steadily. by apply onServer_steady. Qed.

(** A group whose primary is gone and whose standbys all answer: the operator
    has seen it so for long enough, the Lease is free or the old primary's, and
    nobody asked for a switchover. *)
Record orphaned (G : group) (w : world) : Prop := {
  or_primary : w_primary w = g_old G;
  or_member : g_old G ∈ g_members G;
  or_pod : w_pods w !! g_old G = None;
  or_sync : w_syncSet w ≠ ∅;
  or_async : g_minSync G ≠ 0;
  or_poll : 0 < g_pollInterval G ∧ 0 ≤ g_quiesceTimeout G;
  or_switchover : w_switchover w = None;
  or_since : ∃ s, w_since w = Some s ∧ g_failoverDelay G ≤ w_clock w - s;
  or_lease : ∀ l, w_lease w = Some l → leaseFenceable l (w_clock w) [g_old G; FenceHolder] = true;
  or_epoch : 0 ≤ w_epoch w < MaxInt64;
  or_some : standbys G ≠ [];
  or_standbys : ∀ s, s ∈ standbys G → ∃ p m, w_pods w !! s = Some p ∧ p_ip p = true ∧ p_ended p = false ∧
    w_members w !! s = Some m ∧ m_up m = true ∧ m_rec m = true ∧ m_streaming m = false ∧ 0 ≤ m_epoch m < MaxInt64 ∧ s ∉ w_full w }.

Section Undisturbed.
Context (G : group).
Local Notation old := (g_old G).

Lemma standbys_ne s : s ∈ standbys G → s ≠ old ∧ s ∈ g_members G.
Proof. by intros [? ?]%list_elem_of_filter. Qed.

(** The members as a pass observes them. *)
Definition infoOf (w : world) (n : string) : memberInfo :=
  match w_pods w !! n with
  | Some p => mkInfo (Some p) (negb (p_terminating p) && p_ready p) (p_ip p)
  | None => mkInfo None false false
  end.
Lemma exec_observeMembers st w names : orphaned G w → primary st = old → syncSet st = w_syncSet w → (∀ n, n ∈ names → n ∈ g_members G) →
  ∃ ms, exec (observeMembers st names) w = (Ok ms, w) ∧ ∀ n, n ∈ names → ms !! n = Some (infoOf w n).
Proof.
  intros Ho Hp Hss. induction names as [|n names IH]; intros Hn; [exists ∅; split; [done|]; by intros ? ?%not_elem_of_nil|].
  destruct IH as (ms & E & Hms); [intros n' ?; apply Hn; by right|].
  assert (exec (observePod n st (negb (String.eqb n (primary st)) || bool_decide (syncSet st = ∅))) w = (Ok (infoOf w n), w)) as E1.
  { unfold observePod, infoOf. rewrite Hp, Hss. rewrite (bool_decide_eq_false_2 _ (or_sync _ _ Ho)), orb_false_r.
    destruct (String.eqb_spec n old) as [->|Hne].
    - erewrite exec_try by apply exec_getPod. rewrite (or_pod _ _ Ho). done.
    - destruct (or_standbys _ _ Ho n) as (p & m & Hpod & _ & Hend & _); [apply list_elem_of_filter; split; [done|apply Hn; left]|].
      erewrite exec_try by apply exec_getPod. rewrite Hpod, Hend. by erewrite exec_bind by reflexivity. }
  exists (<[n := infoOf w n]> ms). split.
  - cbn [observeMembers]. erewrite exec_bind by exact E1. erewrite exec_bind by exact E. done.
  - intros n' [->|Hin]%elem_of_cons; [apply lookup_insert_eq|]. destruct (decide (n' = n)) as [->|Hne]; [apply lookup_insert_eq|].
    rewrite lookup_insert_ne by done. auto.
Qed.

(** Under the fence nothing but the Lease changes. *)
Definition underFence (w : world) (l : lease) : world := {| w with w_lease := Some l |}.
Lemma exec_renewFence w l : l_holder l = FenceHolder → ∃ l', l_holder l' = FenceHolder ∧ exec renewFence (underFence w l) = (Ok (), underFence w l').
Proof.
  intros Hl. set (l' := {| l with l_holder := FenceHolder; l_renew := Some (w_clock w); l_seconds := Some fenceLeaseSeconds |}).
  exists {| l' with l_version := l_version l' + 1 |}. split; [done|]. unfold renewFence. erewrite exec_try by apply exec_getLease.
  cbn [w_lease underFence]. rewrite Hl. cbn [String.eqb negb]. change (negb (FenceHolder =? FenceHolder)%string) with false. cbv iota.
  erewrite exec_bind by apply exec_now. by rewrite (exec_updateLease _ l).
Qed.
Lemma exec_fenceLease w holder e c t : (∀ l, w_lease w = Some l → leaseFenceable l (w_clock w) [t; holder] = true) →
  ∃ l, l_holder l = holder ∧ exec (fenceLease t holder e c) w = (Ok (), underFence w l).
Proof.
  intros Hl. unfold fenceLease. destruct (w_lease w) as [l|] eqn:E.
  - set (l' := fenced l holder e c (w_clock w)). exists {| l' with l_version := l_version l' + 1 |}. split; [done|].
    erewrite exec_try by apply exec_getLease. rewrite E. erewrite exec_bind by apply exec_now. rewrite (Hl l eq_refl). cbn [negb].
    erewrite exec_bind by apply exec_now. rewrite (exec_updateLease _ l); [done..|]. unfold l', fenced. cbn. by case_match.
  - eexists. split; [|erewrite exec_try by apply exec_getLease; rewrite E; erewrite exec_bind by apply exec_now; cbn; rewrite E; reflexivity].
    done.
Qed.

(** The members as they are seen. *)
Definition viewOf (w : world) (slots : bool) (s : string) : memberView :=
  mkView s false true true false (match w_members w !! s with Some m => sb_flush (probed m) | None => 0 end)
    (if slots then default 0 (w_readySlots w !! s) else 0) "".
Definition sees (ms : members) (w : world) (names : list string) : Prop :=
  ∀ s, s ∈ names → dialled ms s = true ∧ match ms !! s with Some m => i_ip m | None => false end = true ∧
    ∃ m, w_members w !! s = Some m ∧ m_up m = true ∧ m_rec m = true ∧ m_streaming m = false.

Lemma exec_probeViews ms w names : sees ms w names → exec (probeViews ms names) w = (Ok (viewOf w false <$> names), w).
Proof.
  induction names as [|n l IH]; intros Hs; [done|]. cbn [probeViews].
  destruct (Hs n) as (Hd & _ & m & Hm & Hu & Hr & Hst); [left|].
  assert (exec (probeView ms false n) w = (Ok (viewOf w false n), w)) as E.
  { unfold probeView. rewrite Hd. erewrite exec_try by by apply exec_ProbeStandby. unfold viewOf. rewrite Hm. unfold probed. cbn. by rewrite Hr, Hst. }
  erewrite exec_bind by exact E. erewrite exec_bind by (apply IH; intros s ?; apply Hs; by right). done.
Qed.
Lemma exec_withReadySlots ms w names : sees ms w names → exec (withReadySlots ms (viewOf w false <$> names)) w = (Ok (viewOf w true <$> names), w).
Proof.
  induction names as [|n l IH]; intros Hs; [done|]. cbn [fmap list_fmap withReadySlots].
  destruct (Hs n) as (_ & Hip & _); [left|].
  assert (exec (fillSlots ms (viewOf w false n)) w = (Ok (viewOf w true n), w)) as E.
  { unfold fillSlots. cbn [Reachable Name viewOf]. rewrite Hip. cbn [andb]. erewrite exec_bind; [reflexivity|].
    unfold readySlots. by erewrite exec_try by reflexivity. }
  erewrite exec_bind by exact E. erewrite exec_bind by (apply IH; intros s ?; apply Hs; by right). done.
Qed.
Lemma exec_quiesce ms w l : l_holder l = FenceHolder → 0 < g_pollInterval G ∧ 0 ≤ g_quiesceTimeout G →
  dialled ms old = false → sees ms w (standbys G) →
  ∃ l', l_holder l' = FenceHolder ∧ exec (quiesce G ms old) (underFence w l) = (Ok (viewOf w true <$> standbys G), underFence w l').
Proof.
  intros Hl [Hp Hq] Hd Hs. destruct (exec_renewFence w l Hl) as (l' & Hl' & E). exists l'. split; [done|].
  unfold quiesce. erewrite exec_bind by apply exec_now.
  assert (∃ n, polls G (g_quiesceTimeout G) = S n) as [n ->].
  { unfold polls. pose proof (Z.quot_pos (g_quiesceTimeout G) (g_pollInterval G) Hq Hp). exists (Z.to_nat (g_quiesceTimeout G ÷ g_pollInterval G + 2)). lia. }
  cbn [quiesceLoop]. erewrite exec_try by exact E. unfold askStatus. rewrite Hd. erewrite exec_bind by reflexivity. cbn [livePrimary negb].
  assert (sees ms (underFence w l') (standbys G)) as Hs' by exact Hs.
  erewrite exec_bind by (apply exec_probeViews; exact Hs').
  assert (∀ names b, forallb (λ v, Reachable v && negb (Streaming v)) (viewOf (underFence w l') b <$> names) = true) as ->
    by (intros names b; induction names; [done|by cbn]).
  cbn [andb]. rewrite exec_withReadySlots by exact Hs'. done.
Qed.

(** Someone is chosen, and it is a standby. *)
Lemma choose_someone w preferred : standbys G ≠ [] → ∃ c, choose G old preferred (viewOf w true <$> standbys G) = Ok c ∧ c ∈ standbys G.
Proof.
  intros Hn. unfold choose, listAll. set (views := _ <$> _).
  assert (∀ v, v ∈ views → ∃ s, s ∈ standbys G ∧ v = {| (viewOf w true s) with Listed := negb (String.eqb s old) |}) as Hv.
  { intros v (v0 & -> & (s & -> & Hs)%list_elem_of_fmap)%list_elem_of_fmap. by exists s. }
  destruct (chooseCandidate views old preferred (minSyncStandbys (g_minSync G))) as [c|r] eqn:E.
  - exists c. split; [done|]. destruct (chooseCandidate_best _ _ _ _ _ E) as (v & (s & Hs & ->)%Hv & <- & _). done.
  - exfalso. assert (∃ c, chooseCandidate views old preferred (minSyncStandbys (g_minSync G)) = Ok c) as [c E']; [|congruence].
    apply chooseCandidate_decides. split.
    + destruct (standbys G) as [|s l] eqn:Es; [done|]. assert (s ∈ standbys G) as [Hne _]%standbys_ne by (rewrite Es; left).
      eexists. split; [left|]. done.
    + assert (votes views old (λ m, ¬ Reachable m) = 0) as ->; [|lia].
      unfold votes. set (f := filter _ views). destruct f as [|v l] eqn:Ef; [done|]. exfalso.
      assert (v ∈ f) as ([_ Hr] & (s & _ & ->)%Hv)%list_elem_of_filter by (rewrite Ef; left). by apply Hr.
Qed.

(** Publication and promotion, with the Lease under the fence. *)
Lemma exec_publishFence w l c e : l_holder l = FenceHolder →
  ∃ w', exec (publishFence G old c e) (underFence w l) = (Ok (), w') ∧ w_primary w' = c ∧ w_epoch w' = e ∧
    w_members w' = w_members w ∧ ∃ l', w_lease w' = Some l' ∧ l_holder l' = c.
Proof.
  intros Hl. set (w0 := (exec (if g_shard G then PublishShardStatus (g_endpoint G c) e else Ret (Ok ())) (underFence w l)).2).
  set (w1 := {| w0 with w_primary := c; w_epoch := e |}).
  assert (w_members w1 = w_members w ∧ w_lease w1 = Some l) as [Hm1 Hl1].
  { unfold w1, w0. destruct (g_shard G); cbn; [|done]. destruct (w_shard w) as [[? e']|]; [by destruct (e' <=? e)|done]. }
  destruct (exec_fenceLease w1 c e c old) as (l' & Hl' & E).
  { intros l0. rewrite Hl1. intros [= <-]. unfold leaseFenceable. by rewrite Hl, orb_true_r. }
  exists (underFence w1 l'). split; [|by eauto 10]. rewrite <-E. unfold publishFence, w1, w0. destruct (g_shard G).
  - erewrite exec_bind; [|by erewrite exec_try by reflexivity]. by erewrite exec_bind by reflexivity.
  - erewrite exec_bind by reflexivity. by erewrite exec_bind by reflexivity.
Qed.
Lemma exec_promoteCandidate ms w c e m l :
  w_primary w = c → w_epoch w = e → w_members w !! c = Some m → m_up m = true → m_streaming m = false → m_epoch m < e →
  w_lease w = Some l → l_holder l = c → serves c e (exec (promoteCandidate G ms c e) w).2.
Proof.
  intros Hp He Hm Hu Hs Hlt Hl Hh. unfold promoteCandidate.
  assert (∃ w', exec (Promote G c e) w = (Ok (), w') ∧ serves c e w') as (w' & E & Hw').
  { eexists. split; [|]. { cbn. unfold agentPromote. cbn. rewrite Hm. destruct (Z.leb_spec e (m_epoch m)); [lia|]. cbn. rewrite Hl. cbn.
      unfold acquireOnce, canTake. rewrite Hh, String.eqb_refl, orb_true_r. cbn. rewrite Hu, Hs. cbn. reflexivity. }
    split_and!; [done..|]. cbn. rewrite lookup_insert_eq. by eexists. }
  erewrite exec_try by exact E. apply exec_steady; [|done].
  apply steady_bind; [apply pauseIfFenced_steady|intros _]. apply steady_bind; [apply patchRole_steady|intros _].
  apply steady_bind; [apply steady_attempt, EnsureSlots_steady|intros _]. apply steady_bind; [apply unhealthyFor_steady|done].
Qed.

Lemma exec_Status n m w : w_members w !! n = Some m → n ∉ w_full w →
  exec (Status n) w = (Ok (mkStatus (m_up m) (negb (m_rec m)) (m_epoch m) (m_pending m), false), w).
Proof. intros E Hf. cbn. rewrite E. by rewrite (bool_decide_eq_false_2 _ Hf), andb_false_r. Qed.

(** The candidate is found and confirmed. *)
Lemma exec_confirmCandidate ms w st preferred :
  primary st = old → ms !! old = Some (mkInfo None false false) → sees ms w (standbys G) →
  0 < g_pollInterval G ∧ 0 ≤ g_quiesceTimeout G → standbys G ≠ [] →
  (∀ l, w_lease w = Some l → leaseFenceable l (w_clock w) [old; FenceHolder] = true) → (∀ s, s ∈ standbys G → s ∉ w_full w) →
  ∃ c m l, exec (confirmCandidate G st ms preferred) w = (Ok (c, m_epoch m), underFence w l) ∧
    c ∈ standbys G ∧ w_members w !! c = Some m ∧ l_holder l = FenceHolder.
Proof.
  intros Hp Hold Hs Hpoll Hne Hl Hfull. unfold confirmCandidate. rewrite Hp.
  assert (dialled ms old = false) as Hd by (unfold dialled; by rewrite Hold).
  destruct (exec_fenceLease w FenceHolder (epoch st) "" old Hl) as (l1 & Hl1 & E1).
  destruct (exec_quiesce ms w l1 Hl1 Hpoll Hd Hs) as (l2 & Hl2 & E2).
  destruct (exec_quiesce ms w l2 Hl2 Hpoll Hd Hs) as (l3 & Hl3 & E3).
  destruct (choose_someone w preferred Hne) as (c & Ec & Hc). destruct (Hs c Hc) as (_ & Hip & m & Hm & _).
  exists c, m, l3. split; [|done]. rewrite Hold.
  erewrite exec_bind by reflexivity. erewrite exec_bind by exact E1. erewrite exec_try by exact E2. cbv beta iota. rewrite Ec. cbv beta iota. rewrite Hip.
  erewrite exec_bind; [|erewrite exec_try; [reflexivity|apply exec_Status; [exact Hm|by apply Hfull]]].
  erewrite exec_try by reflexivity. cbv beta iota. erewrite exec_try by exact E3. cbv beta iota. rewrite Ec, String.eqb_refl. done.
Qed.

Lemma exec_failover ms w st preferred :
  primary st = old → epoch st = w_epoch w → syncSet st ≠ ∅ → g_minSync G ≠ 0 → 0 ≤ w_epoch w < MaxInt64 →
  ms !! old = Some (mkInfo None false false) → sees ms w (standbys G) →
  (∀ s m, s ∈ standbys G → w_members w !! s = Some m → 0 ≤ m_epoch m < MaxInt64) →
  0 < g_pollInterval G ∧ 0 ≤ g_quiesceTimeout G → standbys G ≠ [] →
  (∀ l, w_lease w = Some l → leaseFenceable l (w_clock w) [old; FenceHolder] = true) → (∀ s, s ∈ standbys G → s ∉ w_full w) →
  ∃ c e, c ∈ standbys G ∧ w_epoch w < e ∧ serves c e (exec (failover G st ms preferred) w).2.
Proof.
  intros Hp He Hss Hms Hep Hold Hs Hme Hpoll Hne Hl Hfull.
  destruct (exec_confirmCandidate ms w st preferred Hp Hold Hs Hpoll Hne Hl Hfull) as (c & m & l & E & Hc & Hm & Hh).
  set (e := nextEpoch (w_epoch w) (m_epoch m)).
  destruct (nextEpoch_above (w_epoch w) (m_epoch m) Hep (Hme c m Hc Hm)) as [H1 H2].
  destruct (exec_publishFence w l c e Hh) as (w' & Ep & Hp' & He' & Hm' & l' & Hl' & Hh').
  exists c, e. split_and!; [done..|]. destruct (Hs c Hc) as (_ & _ & m0 & Hm0 & Hu & _ & Hst). assert (m0 = m) as -> by congruence.
  unfold failover, refuseAsyncFailover. destruct (Z.eqb_spec (g_minSync G) 0); [done|]. rewrite (bool_decide_eq_false_2 _ Hss).
  rewrite exec_pbind, E. cbn [fst snd]. rewrite exec_pbind, He, Hp. fold e. rewrite Ep. cbn [fst snd]. rewrite exec_pbind.
  eapply (exec_promoteCandidate ms w' c e m l'); try done. congruence.
Qed.
End Undisturbed.

(** C13. A failover is carried through: one pass of the operator whose
    statements are all answered, with nothing else going on, ends with one of the
    standbys promoted and published at an epoch above the group's.  The pass is
    one that finds the primary's Pod gone, for the configured delay or longer,
    with no switchover asked for; a group that is not asynchronous and has a
    recorded synchronous set; a Lease that is free, expired or the old primary's;
    epochs below the largest; and standbys, one at least, each with a Pod that
    runs and an agent that answers, in recovery, no longer streaming, and not
    full. *)
Theorem gone_primary_replaced G w :
  orphaned G w →
  let w' := (exec (pass G) w).2 in
  rtc (sys_step (env G) (pass G)) (w, None) (w', None) ∧
  ∃ c, c ∈ standbys G ∧ w_epoch w < w_epoch w' ∧ serves c (w_epoch w') w'.
Proof.
  intros Ho w'. split; [eapply rtc_l; [apply sys_start|apply exec_run]|].
  enough (∃ c e, c ∈ standbys G ∧ w_epoch w < e ∧ serves c e w') as (c & e & Hc & He & Hs)
    by (exists c; assert (w_epoch w' = e) as -> by apply Hs; done).
  unfold w'. clear w'.
  set (st := mkState (w_primary w) (w_epoch w) (w_syncSet w)).
  destruct (exec_observeMembers G st w (g_members G) Ho (or_primary _ _ Ho) eq_refl) as (ms & Ems & Hms); [done|].
  destruct (or_since _ _ Ho) as (t & Ht & Hdelay). set (w1 := {| w with w_since := Some t |}).
  assert (ms !! g_old G = Some (mkInfo None false false)) as Hold.
  { rewrite (Hms _ (or_member _ _ Ho)). unfold infoOf. by rewrite (or_pod _ _ Ho). }
  destruct (exec_failover G ms w1 st "") as (c & e & Hc & He & Hs).
  - apply (or_primary _ _ Ho).
  - done.
  - apply (or_sync _ _ Ho).
  - apply (or_async _ _ Ho).
  - apply (or_epoch _ _ Ho).
  - done.
  - intros s Hs. destruct (standbys_ne G s Hs) as [_ Hin]. destruct (or_standbys _ _ Ho s Hs) as (p & m & Hp & Hip & _ & Hm & Hu & Hr & Hst & _).
    unfold dialled. rewrite (Hms s Hin). unfold infoOf. rewrite Hp. cbn. split_and!; [by rewrite Hip|done|]. by exists m.
  - intros s m Hs Hm. destruct (or_standbys _ _ Ho s Hs) as (p & m' & _ & _ & _ & Hm' & _ & _ & _ & ? & _).
    assert (w_members w !! s = Some m) as Hm2 by exact Hm. by simplify_eq.
  - apply (or_poll _ _ Ho).
  - apply (or_some _ _ Ho).
  - apply (or_lease _ _ Ho).
  - intros s Hs. destruct (or_standbys _ _ Ho s Hs) as (p & m & _ & _ & _ & _ & _ & _ & _ & _ & Hf). exact Hf.
  - exists c, e. split_and!; [done..|]. unfold pass. rewrite exec_pbind. cbn [snd exec].
    unfold reconcileGroup. erewrite exec_bind by reflexivity. cbn [primary]. fold st. rewrite (or_primary _ _ Ho), String.eqb_refl. cbn [negb].
    erewrite exec_bind by exact Ems. erewrite exec_bind by reflexivity. rewrite (or_switchover _ _ Ho). cbn [default].
    rewrite bool_decide_eq_false_2 by naive_solver. unfold askStatus, dialled. rewrite Hold. cbn [i_pod].
    erewrite exec_bind by reflexivity.
    assert (exec (unhealthyFor true) w = (Ok (w_clock w - t), w1)) as Eu by (cbn; by rewrite Ht).
    cbn [default from_option i_pod i_ready primaryHealthy negb orb]. erewrite exec_bind by exact Eu. cbn beta iota.
    destruct (Z.ltb_spec (w_clock w - t) (g_failoverDelay G)); [lia|]. cbn [orb id i_pod primaryHealthy]. rewrite exec_pbind. apply exec_steady; [|exact Hs].
    destruct (exec (failover G st ms "") w1).1 as [st' [er|]]; [|done].
    case_match; [|case_match; [|done]]; (apply steady_bind; [apply unhealthyFor_steady|intros _]); [|done].
    case_bool_decide; [|done]. apply steady_bind; [apply observePod_steady|done].
Qed.

(** The theorem where the kubelet has removed the primary's Pod. *)
Definition orphanedThree : world :=
  {| (servingGroup {["a"%string := {| (primaryAt 100) with m_up := false |};
                     "b"%string := {| (standbyAt 100 100) with m_streaming := false |};
                     "c"%string := {| (standbyAt 90 90) with m_streaming := false |}]} ["a"; "b"; "c"]%string)
     with w_pods := {["b"%string := servingPod 1 RoleReplica; "c"%string := servingPod 2 RoleReplica]};
          w_since := Some 0; w_clock := 10 * Second |}.
Lemma orphanedThree_orphaned : orphaned (three false) orphanedThree.
Proof.
  split.
  - done.
  - vm_compute. by left.
  - by vm_compute.
  - by vm_compute.
  - done.
  - by vm_compute.
  - done.
  - by exists 0.
  - done.
  - by vm_compute.
  - by vm_compute.
  - intros s Hs. assert (standbys (three false) = ["b"; "c"]%string) as E by (vm_compute; reflexivity). rewrite E in Hs.
    apply elem_of_cons in Hs as [->|Hs]; [|apply list_elem_of_singleton in Hs as ->]; do 2 eexists;
      (split; [vm_compute; reflexivity|]); cbn; (split; [done|]); (split; [done|]); (split; [vm_compute; reflexivity|]); cbn;
      split_and!; try done; apply not_elem_of_empty.
Qed.
Lemma gone_primary_replaced_witness :
  ∃ c, c ∈ standbys (three false) ∧ serves c (w_epoch (exec (pass (three false)) orphanedThree).2) (exec (pass (three false)) orphanedThree).2.
Proof.
  destruct (gone_primary_replaced (three false) orphanedThree orphanedThree_orphaned) as (_ & c & H2 & _ & H3). exists c. split; [exact H2|exact H3].
Defined.
