(* ===== verification/Epoch.v ===== *)
(** * The agent's fencing epoch

    [EpochStore] of [src/internal/agent/epoch.go]: the last epoch a member's
    agent accepted, kept in a file of its own and, for older binaries, inside
    the data directory, which a clone empties and replaces.  Promotions and
    demotions carry an epoch that must exceed it; other commands one that equals
    it, and run only as long as it does. *)

From S2P Require Import Prelude ScatterCompare ScatterAgg.

Local Open Scope Z_scope.

(** ** Files *)

(** What is on disk: the configured file, the one in the data directory, and
    whether that directory is initialised ([PG_VERSION]). *)
Record disk := mkDisk { configured : option bytes; legacy : option bytes; initialised : bool }.

Inductive eerr := ErrIO | ErrCorrupt | ErrStaleEpoch.

(** [strings.TrimSpace] and [strconv.ParseUint(_, 10, 64)]. *)
Definition isSpaceByte (c : Z) : bool := existsb (Z.eqb c) [9; 10; 11; 12; 13; 32].
Fixpoint trimLeft (s : bytes) : bytes := match s with c :: s' => if isSpaceByte c then trimLeft s' else s | [] => [] end.
Definition trimSpace (s : bytes) : bytes := reverse (trimLeft (reverse (trimLeft s))).
Definition ParseUint (s : bytes) : option Z :=
  if bool_decide (s = []) || negb (forallb isDecimal s) then None
  else if digitsValue s <=? MaxUint64 then Some (digitsValue s) else None.
Definition formatEpoch (e : Z) : bytes := itoa e ++ [10].

Definition readEpochFile (f : option bytes) : result eerr (Z * bool) :=
  match f with
  | None => Ok (0, false)
  | Some b => match ParseUint (trimSpace b) with Some v => Ok (v, true) | None => Err ErrCorrupt end
  end.

(** A synced write replaces the file or leaves it, and may report a failure
    either way. *)
Inductive wrote := Written | FailedBefore | FailedAfter.
Definition landed (o : wrote) : bool := match o with FailedBefore => false | _ => true end.
Definition reported (o : wrote) : bool := match o with Written => true | _ => false end.
Definition write (o : wrote) (e : Z) (f : option bytes) : option bytes := if landed o then Some (formatEpoch e) else f.

(** ** The store *)

(** [own]: its file is the configured one, beside the one in the data
    directory.  [term] is the context the current term's work runs under. *)
Record store := mkStore { own : bool; cur : Z; term : option nat }.

Definition OpenEpochStoreAt (file : bool) (o : wrote) (d : disk) : result eerr store * disk :=
  if negb file then
    match readEpochFile (legacy d) with
    | Err e => (Err e, d)
    | Ok (v, _) => (Ok (mkStore false v None), d)
    end
  else
    match readEpochFile (configured d) with
    | Err e => (Err e, d)
    | Ok (conf, found) =>
        match readEpochFile (legacy d) with
        | Err e => (Err e, d)
        | Ok (old, _) =>
            let c := Z.max conf old in
            if (conf <? c) || (negb found && (0 <? c)) then
              let d := {| d with configured := write o c (configured d) |} in
              if reported o then (Ok (mkStore true c None), d) else (Err ErrIO, d)
            else (Ok (mkStore true c None), d)
        end
    end.

Definition RequireCurrent (s : store) (epoch : Z) : result eerr () := if epoch =? cur s then Ok () else Err ErrStaleEpoch.

(** The process: its store, and the work running under its terms. *)
Record agent := mkAgent { st : store; cancelled : gset nat; nextTerm : nat; work : list (Z * nat) }.

Definition Accept (epoch : Z) (o ol : wrote) (a : agent) (d : disk) : result eerr () * agent * disk :=
  let s := st a in
  if epoch <=? cur s then (Err ErrStaleEpoch, a, d) else
  let d := if own s then {| d with configured := write o epoch (configured d) |} else {| d with legacy := write o epoch (legacy d) |} in
  if negb (reported o) then (Err ErrIO, a, d) else
  let d := if own s && initialised d then {| d with legacy := write ol epoch (legacy d) |} else d in
  (Ok (), {| a with st := {| s with cur := epoch; term := Some (nextTerm a) |};
                    cancelled := match term s with Some t => {[t]} ∪ cancelled a | None => cancelled a end;
                    nextTerm := S (nextTerm a) |}, d).

Definition Term (epoch : Z) (a : agent) : result eerr () * agent :=
  let s := st a in
  match RequireCurrent s epoch with
  | Err e => (Err e, a)
  | Ok _ =>
      let '(t, a) := match term s with
                     | Some t => (t, a)
                     | None => (nextTerm a, {| a with st := {| s with term := Some (nextTerm a) |}; nextTerm := S (nextTerm a) |})
                     end in
      (Ok (), {| a with work := work a ++ [(epoch, t)] |})
  end.

(** ** A member's life *)

(** [accepted] is every epoch accepted, latest first. *)
Record life := mkLife { onDisk : disk; running : option agent; accepted : list Z }.

(** Agents come and go; [file]: whether the configuration names a file for the
    epoch. *)
Inductive serves (file : bool) : life → life → Prop :=
| live_open d acc o s d' : OpenEpochStoreAt file o d = (Ok s, d') → serves file (mkLife d None acc) (mkLife d' (Some (mkAgent s ∅ 0 [])) acc)
| live_refuse d acc o e d' : OpenEpochStoreAt file o d = (Err e, d') → serves file (mkLife d None acc) (mkLife d' None acc)
| live_stop d a acc : serves file (mkLife d (Some a) acc) (mkLife d None acc)
| live_accept d a acc epoch o ol a' d' : is_u64 epoch →
    Accept epoch o ol a d = (Ok (), a', d') → serves file (mkLife d (Some a) acc) (mkLife d' (Some a') (epoch :: acc))
| live_reject d a acc epoch o ol e a' d' : is_u64 epoch →
    Accept epoch o ol a d = (Err e, a', d') → serves file (mkLife d (Some a) acc) (mkLife d' (Some a') acc)
| live_term d a acc epoch r a' : Term epoch a = (r, a') → serves file (mkLife d (Some a) acc) (mkLife d (Some a') acc)
| live_done d a acc w : w ⊆ work a → serves file (mkLife d (Some a) acc) (mkLife d (Some {| a with work := w |}) acc).
(** Clones and rewinds change the data directory at any time. *)
Inductive recloned : life → life → Prop :=
| live_clone d r acc l i : recloned (mkLife d r acc) (mkLife {| d with legacy := l; initialised := i |} r acc).
Definition lives (file clones : bool) (l l' : life) : Prop := serves file l l' ∨ clones = true ∧ recloned l l'.

(** ** Epochs read back *)

Lemma trimLeft_decimal s t : forallb isDecimal s = true → s ≠ [] → trimLeft (s ++ t) = s ++ t.
Proof.
  destruct s as [|c s]; [done|]. cbn [forallb]. intros [Hc _]%andb_true_iff _. cbn [trimLeft app].
  unfold isDecimal in Hc. apply andb_true_iff in Hc as [?%Z.leb_le ?%Z.leb_le].
  assert (isSpaceByte c = false) as ->; [|done]. apply not_true_is_false. intros (x & Hx & ->%Z.eqb_eq)%existsb_exists.
  cbn in Hx. intuition lia.
Qed.
Lemma forallb_reverse (f : Z → bool) l : forallb f (reverse l) = forallb f l.
Proof.
  induction l as [|c l IH]; [done|]. rewrite reverse_cons, forallb_app, IH. cbn. rewrite andb_true_r. apply andb_comm.
Qed.
Lemma itoa_decimal e : 0 ≤ e → forallb isDecimal (itoa e) = true ∧ digitsValue (itoa e) = e ∧ itoa e ≠ [].
Proof.
  intros He. destruct e as [|p|p]; [by vm_compute| |lia]. destruct (itoa_pos p) as (ds & -> & ? & ? & ?). done.
Qed.
Lemma read_formatted e : is_u64 e → readEpochFile (Some (formatEpoch e)) = Ok (e, true).
Proof.
  intros He. destruct (itoa_decimal e) as (Hd & Hv & Hn); [unfold_int; lia|]. unfold readEpochFile, formatEpoch, trimSpace.
  rewrite trimLeft_decimal by done. rewrite reverse_app.
  change (trimLeft (reverse [10] ++ reverse (itoa e))) with (trimLeft (reverse (itoa e))).
  assert (trimLeft (reverse (itoa e)) = reverse (itoa e)) as ->.
  { pose proof (trimLeft_decimal (reverse (itoa e)) []) as Ht. rewrite app_nil_r in Ht. apply Ht; [by rewrite forallb_reverse|].
    intros Hr. apply Hn. by rewrite <-(reverse_involutive (itoa e)), Hr. }
  rewrite reverse_involutive. unfold ParseUint. rewrite Hd, bool_decide_false by done. cbn [negb orb].
  rewrite Hv, (proj2 (Z.leb_le _ _)); [done|]. unfold_int. lia.
Qed.

(** ** The invariant *)

(** The file an agent that is started reads its epoch from. *)
Definition storeFile (file : bool) (d : disk) : option bytes := if file then configured d else legacy d.

Record fencing (file : bool) (l : life) : Prop := {
  f_file : ∀ e, e ∈ accepted l → ∃ v, readEpochFile (storeFile file (onDisk l)) = Ok (v, true) ∧ e ≤ v;
  f_sorted : StronglySorted Z.gt (accepted l);
  f_own : ∀ a, running l = Some a → own (st a) = file;
  f_cur : ∀ a e, running l = Some a → e ∈ accepted l → e ≤ cur (st a) }.
Record admitting (a : agent) : Prop := {
  ad_terms : ∀ t, term (st a) = Some t → (t < nextTerm a)%nat ∧ t ∉ cancelled a;
  ad_work : ∀ e t, (e, t) ∈ work a → (t < nextTerm a)%nat ∧ (t ∈ cancelled a ∨ e = cur (st a) ∧ term (st a) = Some t);
  ad_fresh : ∀ t, t ∈ cancelled a → (t < nextTerm a)%nat }.

Lemma ParseUint_range s v : ParseUint s = Some v → v ≤ MaxUint64.
Proof. unfold ParseUint. case_match; [done|]. case_match eqn:E; [|done]. intros [= <-]. by apply Z.leb_le. Qed.
Lemma digitsValue_nonneg ds : forallb isDecimal ds = true → 0 ≤ digitsValue ds.
Proof.
  induction ds as [|c ds IH] using rev_ind; [done|]. rewrite forallb_app, digitsValue_app. intros [Hd Hc]%andb_true_iff.
  cbn in Hc. rewrite andb_true_r in Hc. unfold isDecimal in Hc. apply andb_true_iff in Hc as [?%Z.leb_le ?%Z.leb_le]. specialize (IH Hd). lia.
Qed.
Lemma readEpochFile_range f v b : readEpochFile f = Ok (v, b) → is_u64 v.
Proof.
  unfold readEpochFile. destruct f as [c|]; [|intros [= <- <-]; unfold_int; lia]. destruct (ParseUint (trimSpace c)) eqn:E; [|done].
  intros [= <- <-]. pose proof (ParseUint_range _ _ E) as Hr. unfold ParseUint in E. case_match eqn:Eb; [done|].
  apply orb_false_iff in Eb as [_ Eb%negb_false_iff]. case_match; [|done]. simplify_eq. pose proof (digitsValue_nonneg _ Eb). unfold_int. lia.
Qed.

(** An agent that opens its store is not behind its file, and what it writes
    there is not either. *)
Lemma open_keeps file o d r d' v : OpenEpochStoreAt file o d = (r, d') → readEpochFile (storeFile file d) = Ok (v, true) →
  (∃ v', readEpochFile (storeFile file d') = Ok (v', true) ∧ v ≤ v') ∧ ∀ s, r = Ok s → v ≤ cur s.
Proof.
  destruct file; unfold OpenEpochStoreAt; cbn [negb storeFile]; intros H E; rewrite E in H.
  2:{ simplify_eq. split; [exists v; split; [done|lia]|]. by intros s [= <-]. }
  destruct (readEpochFile (legacy d)) as [[old b]|] eqn:El; [|simplify_eq; split; [exists v; split; [done|lia]|done]].
  pose proof (readEpochFile_range _ _ _ E). pose proof (readEpochFile_range _ _ _ El).
  assert (readEpochFile (Some (formatEpoch (Z.max v old))) = Ok (Z.max v old, true)) as Ef by (apply read_formatted; unfold_int; lia).
  case_match eqn:Ec; [destruct o|]; cbn [reported] in H; simplify_eq; cbn [configured write landed];
    (split; [|intros s [= <-]; cbn; lia]); first [exists v; split; [done|lia]|exists (Z.max v old); split; [done|lia]].
Qed.
Lemma open_kind file o d s d' : OpenEpochStoreAt file o d = (Ok s, d') → own s = file ∧ term s = None.
Proof.
  unfold OpenEpochStoreAt. intros H. destruct file; cbn [negb] in H; [|destruct (readEpochFile (legacy d)) as [[old b]|]; by simplify_eq].
  destruct (readEpochFile (configured d)) as [[v f]|]; [|done].
  destruct (readEpochFile (legacy d)) as [[old b]|]; [|done]. case_match; [destruct o|]; cbn [reported] in H; by simplify_eq.
Qed.

(** Accepting: the file is written first, the terms move on, and nothing else
    changes when it fails. *)
Lemma Accept_ok epoch o ol a d a' d' : Accept epoch o ol a d = (Ok (), a', d') → is_u64 epoch →
  cur (st a) < epoch ∧ readEpochFile (storeFile (own (st a)) d') = Ok (epoch, true) ∧
  a' = {| a with st := mkStore (own (st a)) epoch (Some (nextTerm a));
                 cancelled := match term (st a) with Some t => {[t]} ∪ cancelled a | None => cancelled a end;
                 nextTerm := S (nextTerm a) |}.
Proof.
  unfold Accept. intros H Hr. destruct (Z.leb_spec epoch (cur (st a))); [done|]. destruct o; try done.
  cbn [reported negb] in H. destruct (own (st a)); simplify_eq; (split_and!; [done| |done]); cbn [storeFile andb];
    [case_match; cbn [configured]|cbn [legacy]]; by apply read_formatted.
Qed.
Lemma Accept_err epoch o ol a d e a' d' : Accept epoch o ol a d = (Err e, a', d') → is_u64 epoch →
  a' = a ∧ (d' = d ∨ cur (st a) < epoch ∧ (readEpochFile (storeFile (own (st a)) d') = Ok (epoch, true) ∨ storeFile (own (st a)) d' = storeFile (own (st a)) d)).
Proof.
  unfold Accept. intros H Hr. destruct (Z.leb_spec epoch (cur (st a))); [simplify_eq; auto|].
  destruct (own (st a)), o; cbn [reported negb] in H; simplify_eq; (split; [done|]); right; (split; [done|]);
    first [by right|left; by apply read_formatted].
Qed.

Lemma fencing_disk file l d : fencing file l →
  (∀ v, readEpochFile (storeFile file (onDisk l)) = Ok (v, true) →
    ∃ v', readEpochFile (storeFile file d) = Ok (v', true) ∧ (v ≤ v' ∨ ∀ e, e ∈ accepted l → e ≤ v')) →
  fencing file {| l with onDisk := d |}.
Proof.
  intros [F2 F3 F4 F5] Hd. split; cbn; try done. intros e He. destruct (F2 e He) as (v & Hv & Hle).
  destruct (Hd v Hv) as (v' & ? & [?|Hall]); exists v'; (split; [done|]); [lia|auto].
Qed.

Lemma Term_same epoch a r a' : Term epoch a = (r, a') → own (st a') = own (st a) ∧ cur (st a') = cur (st a).
Proof. unfold Term. destruct (RequireCurrent (st a) epoch); [|by intros [= <- <-]]. destruct (term (st a)); by intros [= <- <-]. Qed.
Lemma serves_fencing file l l' : serves file l l' → fencing file l → fencing file l'.
Proof.
  intros Hl HF. pose proof HF as [F2 F3 F4 F5].
  destruct Hl as [d acc o s d' Ho|d acc o e d' Ho|d a acc|d a acc epoch o ol a' d' Hr Ha|d a acc epoch o ol e a' d' Hr Ha|d a acc epoch r a' Ht|d a acc w Hw];
    cbn in *.
  - destruct (open_kind file o d s d' Ho) as [Hown Hterm]. split; cbn; try done.
    + intros e He. destruct (F2 e He) as (v & Hv & ?). destruct (open_keeps file o d _ d' v Ho Hv) as [(v' & ? & ?) _]. exists v'. split; [done|lia].
    + by intros a [= <-].
    + intros a e [= <-] He. destruct (F2 e He) as (v & Hv & ?). destruct (open_keeps file o d _ d' v Ho Hv) as [_ Hs]. specialize (Hs s eq_refl). cbn. lia.
  - apply (fencing_disk _ _ d') in HF; [done|]. intros v Hv. destruct (open_keeps file o d _ d' v Ho Hv) as [(v' & ? & ?) _]. eauto.
  - by split.
  - destruct (Accept_ok _ _ _ _ _ _ _ Ha Hr) as (Hgt & Hf & ->). rewrite (F4 a eq_refl) in Hf. split; cbn.
    + intros e [->|He]%elem_of_cons; exists epoch; (split; [done|]); [lia|]. specialize (F5 a e eq_refl He). lia.
    + constructor; [done|]. apply Forall_forall. intros e He. specialize (F5 a e eq_refl He). lia.
    + intros a0 [= <-]. exact (F4 a eq_refl).
    + intros a0 e [= <-] [->|He]%elem_of_cons; cbn; [lia|]. specialize (F5 a e eq_refl He). lia.
  - destruct (Accept_err _ _ _ _ _ _ _ _ Ha Hr) as (-> & Hd). rewrite (F4 a eq_refl) in Hd.
    apply (fencing_disk _ _ d') in HF; [done|]. cbn. intros v Hv. destruct Hd as [->|[Hgt [Hf|Hf]]]; [exists v; split; [done|left; lia]| |exists v; rewrite Hf; split; [done|left; lia]].
    exists epoch. split; [done|]. right. intros e' He. specialize (F5 a e' eq_refl He). lia.
  - destruct (Term_same _ _ _ _ Ht) as [Ho Hc]. split; cbn; try done; intros a0; [intros [= <-]|intros e [= <-]]; rewrite ?Ho, ?Hc; auto.
  - split; cbn; try done; intros a0; [intros [= <-]|intros e [= <-]]; [exact (F4 a eq_refl)|exact (F5 a e eq_refl)].
Qed.
(** Where the epoch has a file of its own, the data directory does not matter. *)
Lemma recloned_fencing l l' : recloned l l' → fencing true l → fencing true l'.
Proof. by intros [d r acc lg i] [F2 F3 F4 F5]. Qed.

Lemma Accept_admitting epoch o ol a d r a' d' : Accept epoch o ol a d = (r, a', d') → is_u64 epoch → admitting a → admitting a'.
Proof.
  intros Ha Hr HA. pose proof HA as [F6 F7 F8]. destruct r as [[]|e]; [|by destruct (Accept_err _ _ _ _ _ _ _ _ Ha Hr) as [-> _]].
  destruct (Accept_ok _ _ _ _ _ _ _ Ha Hr) as (_ & _ & ->). split; cbn.
  - intros t [= <-]. split; [lia|]. destruct (term (st a)) as [t0|] eqn:E.
    + destruct (F6 t0 eq_refl). intros [E0%elem_of_singleton|Hin]%elem_of_union; [lia|]. specialize (F8 _ Hin). lia.
    + intros Hin. specialize (F8 _ Hin). lia.
  - intros e t Hin. destruct (F7 e t Hin) as [? [?|[-> Et]]]; (split; [lia|]); left; [case_match; set_solver|rewrite Et; set_solver].
  - intros t Hin. destruct (term (st a)) as [t0|] eqn:E; [|specialize (F8 _ Hin); lia].
    apply elem_of_union in Hin as [->%elem_of_singleton|Hin]; [destruct (F6 t0 eq_refl); lia|]. specialize (F8 _ Hin). lia.
Qed.
Lemma Term_admitting epoch a r a' : Term epoch a = (r, a') → admitting a → admitting a'.
Proof.
  intros Ht HA. pose proof HA as [F6 F7 F8]. unfold Term, RequireCurrent in Ht. destruct (Z.eqb_spec epoch (cur (st a))) as [->|]; [|by simplify_eq].
  destruct (term (st a)) as [t|] eqn:Et; simplify_eq; split; cbn.
  - by rewrite Et.
  - intros e t0 [Hin|[= -> ->]%list_elem_of_singleton]%elem_of_app; [rewrite Et; by apply F7|]. destruct (F6 t eq_refl). auto.
  - exact F8.
  - intros t0 [= <-]. split; [lia|]. intros Hin. specialize (F8 _ Hin). lia.
  - intros e t0 [Hin|[= -> ->]%list_elem_of_singleton]%elem_of_app; [|split; [lia|by right]].
    destruct (F7 e t0 Hin) as [? [?|[? ?]]]; [split; [lia|by left]|congruence].
  - intros t0 Hin. specialize (F8 _ Hin). lia.
Qed.
Lemma lives_admitting file clones l l' :
  lives file clones l l' → (∀ a, running l = Some a → admitting a) → ∀ a, running l' = Some a → admitting a.
Proof.
  intros [Hl|[_ [d r acc lg i]]] HA; [|exact HA].
  destruct Hl as [d acc o s d' Ho|d acc o e d' Ho|d a acc|d a acc epoch o ol a' d' Hr Ha|d a acc epoch o ol e a' d' Hr Ha|d a acc epoch r a' Ht|d a acc w Hw];
    cbn in *; intros a0; try done; intros [= <-].
  - destruct (open_kind file o d s d' Ho) as [_ Hterm]. split; cbn; [by rewrite Hterm|by intros e t ?%not_elem_of_nil|set_solver].
  - eapply Accept_admitting; eauto.
  - eapply Accept_admitting; eauto.
  - eapply Term_admitting; eauto.
  - destruct (HA a eq_refl) as [F6 F7 F8]. split; cbn; auto.
Qed.

(** C15. A member whose configuration names a file for the epoch, as the
    operator's does, never accepts an epoch twice nor an older one, over all its
    agents, whatever is written, lost or refused on the way and however often a
    clone empties or replaces its data directory: the epochs accepted are
    strictly increasing; so are they without such a file as long as no clone
    does.  And, clones or not, work admitted by one epoch does not outlive it:
    what still runs was admitted by the epoch that is current. *)
Theorem epochs_only_rise file clones d l :
  rtc (lives file clones) (mkLife d None []) l →
  (file = true ∨ clones = false → StronglySorted Z.gt (accepted l)) ∧
  ∀ a e t, running l = Some a → (e, t) ∈ work a → t ∉ cancelled a → e = cur (st a).
Proof.
  intros Hr. split.
  - intros Hc. assert (fencing file l) as HF; [|apply (f_sorted _ _ HF)].
    assert (fencing file (mkLife d None [])) as H0 by (split; cbn; try done; try apply SSorted_nil; intros ? ?%not_elem_of_nil; done).
    revert H0. induction Hr as [|l1 l2 l3 H12 _ IH]; [done|]. intros H1. apply IH. destruct H12 as [H12|[-> H12]]; [by eapply serves_fencing|].
    destruct Hc as [->|?]; [by eapply recloned_fencing|done].
  - assert (∀ a, running l = Some a → admitting a) as HA.
    { assert (∀ a, running (mkLife d None []) = Some a → admitting a) as H0 by done.
      revert H0. induction Hr as [|l1 l2 l3 H12 _ IH]; [done|]. intros H1. apply IH. by eapply lives_admitting. }
    intros a e t Ha Hin Hn. by destruct (ad_work _ (HA a Ha) e t Hin) as [_ [?|[-> _]]].
Qed.

(** A member that accepts epoch 5, is cloned over while its agent is down, and
    is asked for 5 again and for 6 by the next one. *)
Definition cloned : life :=
  mkLife (mkDisk (Some (formatEpoch 6)) (Some (formatEpoch 3)) false)
    (Some (mkAgent (mkStore true 6 (Some 1%nat)) {[0%nat]} 2 [(5, 0%nat)])) [6; 5].
Lemma epochs_only_rise_witness :
  StronglySorted Z.gt (accepted cloned) ∧ ∃ l, rtc (lives true true) (mkLife (mkDisk None None true) None []) l ∧ accepted l = [6; 5].
Proof.
  assert (rtc (lives true true) (mkLife (mkDisk None None true) None []) cloned) as H.
  { eapply rtc_l; [left; eapply (live_open _ _ _ Written); reflexivity|].
    eapply rtc_l; [left; eapply (live_accept _ _ _ _ 5 Written Written); [unfold_int; lia|reflexivity]|].
    eapply rtc_l; [left; apply live_stop|].
    eapply rtc_l; [right; split; [done|apply (live_clone _ _ _ (Some (formatEpoch 3)) false)]|].
    eapply rtc_l; [left; eapply (live_open _ _ _ Written); vm_compute; reflexivity|].
    eapply rtc_l; [left; eapply (live_reject _ _ _ _ 5 Written Written); [unfold_int; lia|reflexivity]|].
    eapply rtc_l; [left; eapply (live_term _ _ _ _ 5); reflexivity|].
    eapply rtc_l; [left; eapply (live_accept _ _ _ _ 6 Written Written); [unfold_int; lia|reflexivity]|].
    apply rtc_refl. }
  split; [apply (epochs_only_rise _ _ _ _ H); by left|]. by exists cloned.
Defined.
(** What the file is for: without it a clone makes the member accept the epoch
    again. *)
Lemma clone_forgets_epoch : ∃ l, rtc (lives false true) (mkLife (mkDisk None None true) None []) l ∧ accepted l = [5; 5].
Proof.
  eexists. split.
  - eapply rtc_l; [left; eapply (live_open _ _ _ Written); reflexivity|].
    eapply rtc_l; [left; eapply (live_accept _ _ _ _ 5 Written Written); [unfold_int; lia|reflexivity]|].
    eapply rtc_l; [left; apply live_stop|].
    eapply rtc_l; [right; split; [done|apply (live_clone _ _ _ None true)]|].
    eapply rtc_l; [left; eapply (live_open _ _ _ Written); vm_compute; reflexivity|].
    eapply rtc_l; [left; eapply (live_accept _ _ _ _ 5 Written Written); [unfold_int; lia|reflexivity]|].
    apply rtc_refl.
  - done.
Qed.
