(* ===== verification/Archive.v ===== *)
(** * WAL file names, and what the archiver's last report says

    The barrier certifies a restore point only once the WAL segment that holds
    it is archived.  All it has to go by is the name of the last file the
    archiver reports, which may be a segment, a backup label, a timeline's
    history or a partial segment.  This file has PostgreSQL's names of those
    files and [archivedSegment] of [src/internal/controller/barrier.go], and
    shows that within a timeline the names order as the segments do. *)

From Stdlib Require Import Ascii.
From S2P Require Import Prelude.

Local Open Scope Z_scope.

(** ** Names *)

Definition hexDigit (d : Z) : ascii :=
  ascii_of_nat (Z.to_nat (if d <? 10 then 48 + d else 55 + d)).
(** [%0kX] of a number below [16^k]. *)
Fixpoint hex (k : nat) (n : Z) : string :=
  match k with
  | O => ""
  | S k => hex k (n / 16) +:+ String (hexDigit (n mod 16)) ""
  end.

(** The files of a server's [pg_wal] that are archived; segments are numbered
    along the WAL, 256 to a log file. *)
Inductive walFile :=
| Segment (timeline n : Z)
| Label (timeline n offset : Z)
| History (timeline : Z)
| Partial (timeline n : Z).

Definition segName (timeline n : Z) : string := hex 8 timeline +:+ hex 8 (n / 256) +:+ hex 8 (n mod 256).
Definition fileName (f : walFile) : string :=
  match f with
  | Segment t n => segName t n
  | Label t n o => segName t n +:+ "." +:+ hex 8 o +:+ ".backup"
  | History t => hex 8 t +:+ ".history"
  | Partial t n => segName t n +:+ ".partial"
  end.

Definition timelineOk (t : Z) : Prop := 0 ≤ t < 16 ^ 8.
Definition segmentOk (n : Z) : Prop := 0 ≤ n < 256 * 16 ^ 8.

(** ** The barrier's reading of a name *)

Definition isHex (c : ascii) : bool :=
  let n := Z.of_nat (nat_of_ascii c) in (48 <=? n) && (n <=? 57) || (65 <=? n) && (n <=? 70).
Fixpoint allHex (s : string) : bool :=
  match s with EmptyString => true | String c s => isHex c && allHex s end.

(** The two regular expressions. *)
Definition segmentName (s : string) : bool := (String.length s =? 24)%nat && allHex s.
Definition backupLabel (s : string) : bool :=
  (String.length s =? 40)%nat && allHex (String.substring 0 24 s) && String.eqb (String.substring 24 1 s) "." &&
  allHex (String.substring 25 8 s) && String.eqb (String.substring 33 7 s) ".backup".

(** [archivedSegment]: the segment the archiver has reached, "" when the report
    names none; an error names the two timelines. *)
Definition archivedSegment (last want : string) : result (string * string) string :=
  let compare last :=
    if String.eqb (String.substring 0 8 last) (String.substring 0 8 want) then Ok last
    else Err (String.substring 0 8 want, String.substring 0 8 last) in
  if segmentName last then compare last
  else if backupLabel last then compare (String.substring 0 24 last)
  else Ok "".

(** The segment [want] is known to be archived. *)
Definition reached (last want : string) : bool :=
  match archivedSegment last want with Ok seg => negb (String.eqb seg "") && String.leb want seg | Err _ => false end.

(** ** Strings *)

Lemma length_app_string s t : String.length (s +:+ t) = (String.length s + String.length t)%nat.
Proof. induction s as [|c s IH]; [done|]. exact (f_equal S IH). Qed.
Lemma substring_app_l s t n : String.length s = n → String.substring 0 n (s +:+ t) = s.
Proof. intros <-. induction s as [|c s IH]; [by destruct t|]. exact (f_equal (String c) IH). Qed.
Lemma substring_app_r s t k m n : String.length s = k → String.substring (k + m) n (s +:+ t) = String.substring m n t.
Proof. intros <-. induction s as [|c s IH]; [done|exact IH]. Qed.
Lemma allHex_app s t : allHex (s +:+ t) = allHex s && allHex t.
Proof. induction s as [|c s IH]; [done|]. change (isHex c && allHex (s +:+ t) = isHex c && allHex s && allHex t). by rewrite IH, andb_assoc. Qed.

(** Strings of one length order by their first parts, then by the rest. *)
Lemma compare_app s s' t u :
  String.length s = String.length s' →
  String.compare (s +:+ t) (s' +:+ u) = match String.compare s s' with Eq => String.compare t u | c => c end.
Proof.
  revert s'. induction s as [|c s IH]; intros [|c' s'] H; try done.
  change (match Ascii.compare c c' with Eq => String.compare (s +:+ t) (s' +:+ u) | d => d end =
    match match Ascii.compare c c' with Eq => String.compare s s' | d => d end with Eq => String.compare t u | d => d end).
  destruct (Ascii.compare c c'); [|done..]. apply IH. by injection H.
Qed.
Lemma compare_refl_string s : String.compare s s = Eq.
Proof. pose proof (String.compare_antisym s s) as H. by destruct (String.compare s s). Qed.

(** ** Numbers in hexadecimal *)

Lemma below_16 d : 0 ≤ d < 16 → In d [0; 1; 2; 3; 4; 5; 6; 7; 8; 9; 10; 11; 12; 13; 14; 15].
Proof. intros H. cbn. lia. Qed.
Lemma hexDigit_isHex d : 0 ≤ d < 16 → isHex (hexDigit d) = true.
Proof. intros H%below_16. cbn in H. by repeat (destruct H as [<-|H]; [by vm_compute|]). Qed.
Lemma hexDigit_compare d e : 0 ≤ d < 16 → 0 ≤ e < 16 → Ascii.compare (hexDigit d) (hexDigit e) = (d ?= e).
Proof.
  intros Hd%below_16 He%below_16. cbn in Hd, He.
  repeat (destruct Hd as [<-|Hd]; [by repeat (destruct He as [<-|He]; [by vm_compute|])|]). done.
Qed.

Lemma hex_length k n : String.length (hex k n) = k.
Proof. revert n. induction k as [|k IH]; intros n; cbn; [done|]. rewrite length_app_string, IH. cbn. lia. Qed.
Lemma hex_allHex k n : allHex (hex k n) = true.
Proof.
  revert n. induction k as [|k IH]; intros n; cbn; [done|]. rewrite allHex_app, IH. cbn.
  rewrite hexDigit_isHex; [done|]. apply Z.mod_pos_bound. lia.
Qed.
Lemma hex_compare k a b :
  0 ≤ a < 16 ^ Z.of_nat k → 0 ≤ b < 16 ^ Z.of_nat k → String.compare (hex k a) (hex k b) = (a ?= b).
Proof.
  revert a b. induction k as [|k IH]; intros a b Ha Hb.
  - cbn in *. assert (a = 0 ∧ b = 0) as [-> ->] by lia. done.
  - rewrite Nat2Z.inj_succ, Z.pow_succ_r in Ha, Hb by lia. cbn [hex]. rewrite compare_app by by rewrite !hex_length.
    pose proof (Z.mod_pos_bound a 16 ltac:(lia)). pose proof (Z.mod_pos_bound b 16 ltac:(lia)).
    pose proof (Z.div_mod a 16 ltac:(lia)). pose proof (Z.div_mod b 16 ltac:(lia)).
    rewrite IH by (split; [apply Z.div_pos; lia|apply Z.div_lt_upper_bound; lia]).
    cbn [String.compare]. rewrite hexDigit_compare by done.
    destruct (Z.compare_spec (a / 16) (b / 16)); destruct (Z.compare_spec (a mod 16) (b mod 16)); destruct (Z.compare_spec a b); try done; lia.
Qed.

(** ** Names of segments *)

Lemma segName_length t n : String.length (segName t n) = 24%nat.
Proof. unfold segName. by rewrite !length_app_string, !hex_length. Qed.
Lemma segName_allHex t n : allHex (segName t n) = true.
Proof. unfold segName. by rewrite !allHex_app, !hex_allHex. Qed.
Lemma segName_prefix t n : String.substring 0 8 (segName t n) = hex 8 t.
Proof. apply substring_app_l, hex_length. Qed.
Lemma segName_isSegment t n : segmentName (segName t n) = true.
Proof. unfold segmentName. by rewrite segName_length, segName_allHex. Qed.

Lemma hex_inj t t' : timelineOk t → timelineOk t' → hex 8 t = hex 8 t' → t = t'.
Proof.
  intros Ht Ht' He. apply Z.compare_eq_iff. rewrite <- (hex_compare 8 t t' Ht Ht'), He. apply compare_refl_string.
Qed.

(** Within one timeline a segment name orders numerically as a string. *)
Lemma segName_compare t n m : segmentOk n → segmentOk m → String.compare (segName t n) (segName t m) = (n ?= m).
Proof.
  intros Hn Hm. unfold segName, segmentOk in *. rewrite compare_app, compare_refl_string by done.
  rewrite compare_app by by rewrite !hex_length.
  pose proof (Z.mod_pos_bound n 256 ltac:(lia)). pose proof (Z.mod_pos_bound m 256 ltac:(lia)).
  pose proof (Z.div_mod n 256 ltac:(lia)). pose proof (Z.div_mod m 256 ltac:(lia)).
  rewrite !hex_compare by (try (split; [apply Z.div_pos; lia|apply Z.div_lt_upper_bound; lia]); change (16 ^ Z.of_nat 8) with 4294967296; lia).
  destruct (Z.compare_spec (n / 256) (m / 256)); destruct (Z.compare_spec (n mod 256) (m mod 256)); destruct (Z.compare_spec n m); try done; lia.
Qed.
Lemma segName_leb t n m : segmentOk n → segmentOk m → String.leb (segName t n) (segName t m) = (n <=? m).
Proof. intros Hn Hm. unfold String.leb, Z.leb. by rewrite segName_compare. Qed.

(** ** What a report says *)

Definition fileOk (f : walFile) : Prop :=
  match f with
  | Segment t n | Label t n _ | Partial t n => timelineOk t ∧ segmentOk n
  | History t => timelineOk t
  end.

(** The segment a file's archiving speaks for. *)
Definition speaksFor (f : walFile) : option (Z * Z) :=
  match f with Segment t n | Label t n _ => Some (t, n) | _ => None end.

Lemma label_isLabel t n o : segmentName (fileName (Label t n o)) = false ∧ backupLabel (fileName (Label t n o)) = true ∧
  String.substring 0 24 (fileName (Label t n o)) = segName t n.
Proof.
  pose proof (segName_length t n) as Hs. pose proof (hex_length 8 o) as Ho. unfold segmentName, backupLabel. cbn [fileName].
  assert (String.substring 0 24 (segName t n +:+ "." +:+ hex 8 o +:+ ".backup") = segName t n) as H24 by by apply substring_app_l.
  rewrite !length_app_string, Hs, Ho, H24, segName_allHex. split_and!; [done| |done].
  assert (∀ m k, String.substring (24 + m) k (segName t n +:+ "." +:+ hex 8 o +:+ ".backup") = String.substring m k (String "." (hex 8 o +:+ ".backup"))) as Hr
    by (intros; by apply substring_app_r).
  rewrite (Hr 0%nat), (Hr 1%nat), (Hr 9%nat). cbn [String.substring].
  rewrite (substring_app_l (hex 8 o) ".backup" 8), hex_allHex by done.
  change (String.substring 8 7) with (String.substring (8 + 0) 7). rewrite (substring_app_r (hex 8 o) ".backup" 8 0 7) by done.
  by destruct (hex 8 o).
Qed.
Lemma other_says_nothing f want : speaksFor f = None → reached (fileName f) want = false.
Proof.
  intros H. unfold reached, archivedSegment. destruct f as [t n|t n o|t|t n]; [done|done|..]; cbn [fileName].
  - unfold segmentName, backupLabel. by rewrite !length_app_string, hex_length.
  - unfold segmentName, backupLabel. by rewrite !length_app_string, segName_length.
Qed.

Lemma reached_segment f t n t' n' :
  timelineOk t → segmentOk n → fileOk f → speaksFor f = Some (t', n') →
  reached (fileName f) (segName t n) = (t =? t') && (n <=? n').
Proof.
  intros Ht Hn Hf Hs. unfold reached, archivedSegment. rewrite segName_prefix.
  assert (timelineOk t' ∧ segmentOk n') as [Ht' Hn'] by by destruct f; cbn in *; simplify_eq.
  assert (match (if String.eqb (String.substring 0 8 (segName t' n')) (hex 8 t) then Ok (segName t' n')
                 else Err (hex 8 t, String.substring 0 8 (segName t' n'))) with
          | Ok seg => negb (String.eqb seg "") && String.leb (segName t n) seg | Err _ => false end = (t =? t') && (n <=? n')) as Hcmp.
  { rewrite segName_prefix. destruct (String.eqb_spec (hex 8 t') (hex 8 t)) as [He|Hne].
    - apply hex_inj in He as ->; [|done..]. rewrite Z.eqb_refl, segName_leb by done.
      destruct (String.eqb_spec (segName t n') "") as [He|]; [|done]. pose proof (segName_length t n') as Hl. by rewrite He in Hl.
    - destruct (Z.eqb_spec t t') as [->|]; [by destruct Hne|done]. }
  destruct f as [t0 n0|t0 n0 o|t0|t0 n0]; cbn in Hs; simplify_eq; [cbn [fileName]; rewrite segName_isSegment; exact Hcmp|].
  destruct (label_isLabel t' n' o) as (-> & -> & ->). exact Hcmp.
Qed.
