(* ===== verification/BarrierWorld.v ===== *)
(** * The world a barrier runs in

    A barrier ([src/internal/controller/barrier.go]) takes restore points of
    the catalog and of every shard while clients write, two-phase commits are
    coordinated and resolved, other workflows run and servers restart.  Its
    world has the databases of [TwoPhase] with the processes of [Atomicity]
    running on them, the open transactions of client sessions, each server's
    write pause and WAL archive, and the catalog's fence and restore points.
    The restore point of a group is the image of its database that a recovery
    to it brings back. *)

From S2P Require Import Prelude TwoPhase Atomicity Prog Triples Archive.

Local Open Scope Z_scope.

(** ** Groups *)

(** One group taking part in a barrier: the catalog or one shard. *)
Record GroupRef := mkGroup { Name : string; SetName : string; ID : Z; Retired : bool }.
Definition ref (g : GroupRef) : ShardRef := (SetName g, ID g).
Definition Catalog (g : GroupRef) : bool := String.eqb (SetName g) "".
Definition CatalogGroup : string := "catalog".
Definition catalogGroup : GroupRef := mkGroup CatalogGroup "" 0 false.
Definition catalogRef : ShardRef := ref catalogGroup.

(** ** Databases *)

(** [d_commits]: the transactions that no coordinator knows of, as they were
    committed one after the other on the shards; [d_foreign]: the prepared ones
    among them. *)
Record databases := mkDbs {
  d_tp : TwoPhase.world; d_procs : list (option (TwoPhase.prog answer));
  d_commits : list (ShardRef * Z); d_foreign : gmap ShardRef (gset string) }.

(** What recovery brings back of a transaction: one that was neither prepared
    nor committed never happened. *)
Definition persistent (t : tstate) : bool := match t with TPrepared _ | TCommitted => true | _ => false end.
Definition persisted (tp : TwoPhase.world) (sh : ShardRef) : gmap string tstate :=
  list_to_map (omap (λ '((s, g), t), if decide (s = sh) then (if persistent t then Some (g, t) else None) else None)
                    (map_to_list (w_txns tp))).

Definition commitsOn (d : databases) (sh : ShardRef) : list Z :=
  omap (λ '(s, n), if decide (s = sh) then Some n else None) (d_commits d).

Record image := mkImage {
  i_rows : gmap string drow; i_txns : gmap string tstate; i_commits : list Z; i_foreign : gset string }.
Definition imageOf (d : databases) (sh : ShardRef) : image :=
  mkImage (if decide (sh = catalogRef) then w_rows (d_tp d) else ∅) (persisted (d_tp d) sh)
    (commitsOn d sh) (default ∅ (d_foreign d !! sh)).

(** [pg_prepared_xacts], whoever prepared them. *)
Definition preparedOn (d : databases) (sh : ShardRef) : list string :=
  omap (λ '((s, g), t), match t with TPrepared _ => if decide (s = sh) then Some g else None | _ => None end)
       (map_to_list (w_txns (d_tp d)))
  ++ elements (default ∅ (d_foreign d !! sh)).
Definition preparing (rows : gmap string drow) : list string :=
  omap (λ '(g, r), if String.eqb (d_state r) "preparing" then Some g else None) (map_to_list rows).
(** Sessions of two-phase transactions that hold a transaction id. *)
Definition activeOn (d : databases) (sh : ShardRef) : list string :=
  omap (λ '((s, g), t), match t with TActive _ _ => if decide (s = sh) then Some g else None | _ => None end)
       (map_to_list (w_txns (d_tp d))).

(** ** Servers *)

(** An open transaction of a client backend that is no coordinator's yet; one
    under [PlacementCopyApplicationName] and the controller's role is
    [o_copy]. *)
Record session := mkSession { o_group : ShardRef; o_start : Z; o_rw : bool; o_xid : bool; o_copy : bool }.

(** [s_setting] is [default_transaction_read_only] as ALTER SYSTEM left it,
    [s_effective] as a fresh backend starts with; [s_wal] are the segments
    written so far, of which the last is [s_timeline], [s_segment], and
    [s_closed] those that were filled or switched away from;
    [s_report] is the last file the server itself archived. *)
Record server := mkServer {
  s_setting : bool; s_effective : bool; s_subs : Z;
  s_timeline : Z; s_segment : Z; s_checkpointTimeline : Z; s_lsn : Z; s_wal : gset (Z * Z); s_closed : gset (Z * Z);
  s_archiveMode : bool; s_archived : list walFile; s_report : option walFile; s_system : string }.

Record fence := mkFence { f_active : bool; f_reason : string; f_owner : Z; f_at : option Z }.
Definition noFence : fence := mkFence false "" 0 None.

Record GroupRestorePoint := mkGRP { Group : string; LSN : Z; Timeline : Z; WALSegment : string; SystemIdentifier : string }.

Inductive err :=
| EConn | EBusy | EExists | EBadName | ECanceled | ENoRows | EDuplicate | EFuel
| EText (s : string) | EIn (where_ : string) (e : err).

(** A row of [pgshard.restore_points]. *)
Record rprow := mkRow {
  r_generation : Z; r_groups : gmap string GroupRestorePoint; r_certified : bool; r_createdAt : Z; r_error : option err }.

(** [b_seq]: the last value of the decision log's sequence; [b_points]: the
    restore points in each group's WAL, in order; [b_claimed]: the shards whose
    pause a workflow claims; [b_live]: the sets a live workflow names;
    [b_catalogStart]: when the catalog's postmaster started; [b_tokens]: the
    owner tokens made so far. *)
Record world := mkWorld {
  b_dbs : databases; b_seq : Z;
  b_sessions : gmap Z session; b_servers : gmap ShardRef server; b_points : gmap ShardRef (list (string * image));
  b_groups : list GroupRef; b_claimed : gset ShardRef; b_live : gset string;
  b_fence : fence; b_lock : bool; b_rps : gmap string rprow; b_generation : Z; b_catalogStart : Z;
  b_tokens : Z; b_signals : bool; b_cancelled : bool; b_request : option (option string); b_clock : Z }.

(** [WritersSince]: backends that could still write: any with a transaction id,
    and any whose transaction began no later than the pause. *)
Definition couldWrite (sh : ShardRef) (since : Z) (o : session) : bool :=
  bool_decide (o_group o = sh) && (o_xid o || (o_start o <=? since) && negb (o_copy o)).
Definition writersSince (w : world) (sh : ShardRef) (since : Z) : Z :=
  Z.of_nat (length (filter (λ '(_, o), couldWrite sh since o = true) (map_to_list (b_sessions w)))
            + length (activeOn (b_dbs w) sh)).

(** Recovery stops at the first restore point of the name it is given. *)
Fixpoint pointNamed (l : list (string * image)) (name : string) : option image :=
  match l with
  | [] => None
  | (n, i) :: l => if String.eqb n name then Some i else pointNamed l name
  end.
Definition recoverTo (w : world) (sh : ShardRef) (name : string) : option image :=
  pointNamed (default [] (b_points w !! sh)) name.

(** ** What happens by itself *)

(** The archiver takes the closed segments of a timeline in order, and a backup
    label after the segment it names. *)
Definition archivable (s : server) (f : walFile) : Prop :=
  fileOk f ∧
  match f with
  | Segment t n => (t, n) ∈ s_closed s ∧ ∀ m, (t, m) ∈ s_wal s → m < n → Segment t m ∈ s_archived s
  | Label t n _ => (t, n) ∈ s_closed s ∧ ∀ m, (t, m) ∈ s_wal s → m ≤ n → Segment t m ∈ s_archived s
  | _ => True
  end.

(** A server on its own, and at the hands of others: anyone may lift a pause,
    and the primary a standby is promoted to has none. *)
Inductive server_step (s : server) : server → Prop :=
| srv_lift : server_step s {| s with s_setting := false |}
| srv_reload : server_step s {| s with s_effective := s_setting s |}
| srv_promoted t :
    timelineOk t → s_timeline s < t →
    server_step s {| s with s_setting := false; s_effective := false; s_timeline := t; s_wal := {[(t, s_segment s)]} ∪ s_wal s; s_report := None |}
| srv_subs n : server_step s {| s with s_subs := n |}
| srv_checkpoint : server_step s {| s with s_checkpointTimeline := s_timeline s |}
| srv_insert n : s_lsn s ≤ n → server_step s {| s with s_lsn := n |}
| srv_segment :
    segmentOk (s_segment s + 1) →
    server_step s {| s with s_segment := s_segment s + 1; s_wal := {[(s_timeline s, s_segment s + 1)]} ∪ s_wal s;
                            s_closed := {[(s_timeline s, s_segment s)]} ∪ s_closed s |}
| srv_archive f : archivable s f → server_step s {| s with s_archived := s_archived s ++ [f]; s_report := Some f |}.

(** How the databases answer statements: as PostgreSQL may, or in some of those
    ways. *)
Class Sql (db_step : TwoPhase.world → op → TwoPhase.world → resp → Prop) : Prop :=
  sql_of w o w' r : db_step w o w' r → sql_step (λ _, True) w o w' r.
#[export] Instance sql_step_sql env_error : Sql (sql_step env_error).
Proof. intros w o w' r []; by econstructor. Qed.

Section Env.
Context (db_step : TwoPhase.world → op → TwoPhase.world → resp → Prop) (groupName : ShardRef → string).

(** How the databases move. *)
Inductive db_evolves (d : databases) : databases → Prop :=
| dbe_2pc tp procs :
    TwoPhase.sys_step db_step (d_tp d, d_procs d) (tp, procs) →
    db_evolves d {| d with d_tp := tp; d_procs := procs |}
| dbe_commit sh n : db_evolves d {| d with d_commits := d_commits d ++ [(sh, n)] |}
| dbe_foreign f : db_evolves d {| d with d_foreign := f |}.

(** No transaction begins. *)
Definition no_birth (tp tp' : TwoPhase.world) : Prop := ∀ k, w_txns tp !! k = None → w_txns tp' !! k = None.

Definition effective (w : world) (sh : ShardRef) : option bool := s_effective <$> b_servers w !! sh.

(** The rows [List] reads. *)
Definition listing (l : list GroupRef) : Prop :=
  NoDup (ref <$> l) ∧ ∀ g, g ∈ l → Catalog g = false ∧ Name g = groupName (ref g).

Inductive env (w : world) : world → Prop :=
(** coordinators, heartbeats and resolver passes; each new decision row takes a
    value of the sequence *)
| env_2pc tp procs seq :
    TwoPhase.sys_step db_step (d_tp (b_dbs w), d_procs (b_dbs w)) (tp, procs) →
    no_birth (d_tp (b_dbs w)) tp → b_seq w ≤ seq →
    (∀ g, w_rows (d_tp (b_dbs w)) !! g = None → is_Some (w_rows tp !! g) → b_seq w < seq) →
    env w {| w with b_dbs := {| (b_dbs w) with d_tp := tp; d_procs := procs |}; b_seq := seq |}
(** clients: a transaction starts read only under the pause *)
| env_begin pid sh rw copy on :
    b_sessions w !! pid = None → effective w sh = Some on → (rw = true → on = false ∧ copy = false) →
    env w {| w with b_sessions := <[pid := mkSession sh (b_clock w) rw false copy]> (b_sessions w) |}
| env_write pid o :
    b_sessions w !! pid = Some o → o_rw o = true →
    env w {| w with b_sessions := <[pid := {| o with o_xid := true |}]> (b_sessions w) |}
| env_end pid : env w {| w with b_sessions := delete pid (b_sessions w) |}
| env_commit pid o n :
    b_sessions w !! pid = Some o → o_rw o = true →
    env w {| w with b_sessions := delete pid (b_sessions w);
                    b_dbs := {| (b_dbs w) with d_commits := d_commits (b_dbs w) ++ [(o_group o, n)] |} |}
(** its first write makes it a coordinator's *)
| env_join pid o g db xid :
    b_sessions w !! pid = Some o → o_rw o = true → w_txns (d_tp (b_dbs w)) !! (o_group o, g) = None →
    env w {| w with b_sessions := delete pid (b_sessions w);
                    b_dbs := {| (b_dbs w) with d_tp := set_txn (d_tp (b_dbs w)) (o_group o) g (TActive db xid) |} |}
(** two-phase commits of others *)
| env_prepare pid o g :
    b_sessions w !! pid = Some o → o_rw o = true →
    env w {| w with b_sessions := delete pid (b_sessions w);
                    b_dbs := {| (b_dbs w) with d_foreign := <[o_group o := {[g]} ∪ default ∅ (d_foreign (b_dbs w) !! o_group o)]> (d_foreign (b_dbs w)) |} |}
| env_finish sh gs g (commit : bool) n :
    d_foreign (b_dbs w) !! sh = Some gs → g ∈ gs →
    env w {| w with b_dbs := {| (b_dbs w) with
        d_foreign := <[sh := gs ∖ {[g]}]> (d_foreign (b_dbs w));
        d_commits := if commit then d_commits (b_dbs w) ++ [(sh, n)] else d_commits (b_dbs w) |} |}
| env_server sh s s' : b_servers w !! sh = Some s → server_step s s' → env w {| w with b_servers := <[sh := s']> (b_servers w) |}
(** the catalog at the hands of others: shards, workflows, fences, attempts *)
| env_groups l : listing l → env w {| w with b_groups := l |}
| env_claimed c l : env w {| w with b_claimed := c; b_live := l |}
| env_fence f : env w {| w with b_fence := f |}
| env_generation n : env w {| w with b_generation := n |}
| env_lock b : env w {| w with b_lock := b |}
| env_reserved n r : b_rps w !! n = None → r_certified r = false → env w {| w with b_rps := <[n := r]> (b_rps w) |}
| env_catalogStart t : env w {| w with b_catalogStart := t |}
(** the controller's own: signals, its context, what it is asked for *)
| env_process b c r : env w {| w with b_signals := b; b_cancelled := c; b_request := r |}
| env_clock n : 0 ≤ n → env w {| w with b_clock := b_clock w + n |}.

(** The environment, and others that raise a group's pause: a reshard that
    quiesces the shards it moves, or another barrier. *)
Inductive env_raising (w : world) : world → Prop :=
| er_env w' : env w w' → env_raising w w'
| er_raise sh s :
    b_servers w !! sh = Some s → env_raising w {| w with b_servers := <[sh := {| s with s_setting := true |}]> (b_servers w) |}.

(** What breaks into a pause: somebody else raises it, or a client sets its
    transaction read write against the default. *)
Inductive intrudes (w : world) : world → Prop :=
| in_raise sh s : b_servers w !! sh = Some s → s_setting s = false → intrudes w {| w with b_servers := <[sh := {| s with s_setting := true |}]> (b_servers w) |}
| in_override pid sh :
    b_sessions w !! pid = None → effective w sh = Some true →
    intrudes w {| w with b_sessions := <[pid := mkSession sh (b_clock w) true false false]> (b_sessions w) |}.
Lemma barrier_no_intruder w w' : env w w' → ¬ intrudes w w'.
Proof.
  intros He Hin.
  assert (∀ sh s s', b_servers w !! sh = Some s → s_setting s = false → b_servers w' !! sh = Some s' → s_setting s' = false) as Hset.
  { intros sh s s' Hs Hf. destruct He as [| | | | | | | |sh0 s0 s0' H0 Hst| | | | | | | | | ]; cbn; try congruence.
    destruct (decide (sh = sh0)) as [->|]; [|rewrite lookup_insert_ne by done; congruence]. rewrite lookup_insert_eq.
    intros [= <-]. simplify_eq. by destruct Hst. }
  assert (∀ pid o, b_sessions w !! pid = None → b_sessions w' !! pid = Some o → o_rw o = true → effective w (o_group o) = Some false) as Hses.
  { intros pid o Hn. destruct He as [|p sh rw copy on Hp Hon Hrw|p o' Ho' _| | | | | | | | | | | | | | |]; cbn; try congruence;
      [|intros Hl; exfalso..].
    - destruct (decide (p = pid)) as [->|]; [|rewrite lookup_insert_ne by done; congruence]. rewrite lookup_insert_eq.
      intros [= <-] Hr. cbn in *. subst rw. by destruct Hrw as [-> _].
    - destruct (decide (p = pid)) as [->|]; [congruence|]. rewrite lookup_insert_ne in Hl by done. congruence.
    - apply lookup_delete_Some in Hl as [_ Hl]. congruence.
    - apply lookup_delete_Some in Hl as [_ Hl]. congruence.
    - apply lookup_delete_Some in Hl as [_ Hl]. congruence.
    - apply lookup_delete_Some in Hl as [_ Hl]. congruence. }
  destruct Hin as [sh s Hs Hf|pid sh Hp Heff]; cbn in *.
  - specialize (Hset sh s {| s with s_setting := true |} Hs Hf). rewrite lookup_insert_eq in Hset. by discriminate Hset.
  - specialize (Hses pid _ Hp (lookup_insert_eq _ _ _) eq_refl). cbn in Hses. congruence.
Qed.
Definition env_open (w w' : world) : Prop := env w w' ∨ intrudes w w'.
End Env.

(** ** Programs *)

#[export] Instance barrier_world : World world err := {|
  tick d w := (b_clock w + Z.max 0 d, {| w with b_clock := b_clock w + Z.max 0 d |});
  transient e := e = EConn |}.
Abbreviation prog := (Prog.prog world err).
Abbreviation M := (PM world err).
