(* ===== verification/Barrier.v ===== *)
(** * Certified restore points: the barrier

    [Barrier.Run] and [Barrier.Recover] of
    [src/internal/controller/barrier.go] with the statements they issue through
    [PGBarrierStore], [SQLBarrierGroups] and [src/internal/catalog/read.go].
    The resolver passes the drain runs between its polls are those of the
    system, which run at any time: the call itself is a statement without
    effect here.  A context that is cancelled fails the sleeps; a statement can
    fail for that or any other reason.  The row lock under which a pause is
    lifted is left out: claims change at any time. *)

From Stdlib Require Import Ascii.
From S2P Require Import Prelude TwoPhase Prog Triples Archive BarrierWorld.

Local Open Scope Z_scope.

Definition Millisecond : Z := 1000000.
Definition Second : Z := 1000 * Millisecond.
Definition Minute : Z := 60 * Second.

Definition DefaultDrainTimeout : Z := 30 * Second.
Definition DefaultFenceSettle : Z := Second.
Definition DefaultArchiveTimeout : Z := 2 * Minute.
Definition DefaultBarrierPoll : Z := 200 * Millisecond.
Definition pauseConfirmTimeout : Z := 15 * Second.

(** The settings of a [Barrier]. *)
Record Barrier := mkBarrier { DrainTimeout : Z; ArchiveTimeout : Z; Poll : Z; FenceSettle : Z; Resolving : bool }.

Definition orDefault (d def : Z) : Z := if 0 <? d then d else def.

(** [barrierName]: 1 to 63 lowercase letters, digits and hyphens, neither first
    nor last a hyphen. *)
Definition isAlnum (c : ascii) : bool :=
  let n := Z.of_nat (nat_of_ascii c) in (97 <=? n) && (n <=? 122) || (48 <=? n) && (n <=? 57).
Fixpoint nameRest (s : string) : bool :=
  match s with
  | "" => true
  | String c "" => isAlnum c
  | String c s => (isAlnum c || Ascii.eqb c "-") && nameRest s
  end%string.
Definition barrierName (s : string) : bool :=
  match s with
  | "" => false
  | String c s => isAlnum c && nameRest s && (String.length s <=? 62)%nat
  end%string.

Definition RestorePointPrefix : string := "pgshard-".
Definition RestorePointName (barrier : string) : string := RestorePointPrefix +:+ barrier.

Record RestorePoint := mkRP { RPName : string; ShardMapGenerationOf : Z; Certified : bool; Groups : list GroupRestorePoint; CreatedAt : Z }.

Definition activeGroups (groups : list GroupRef) : list GroupRef := filter (λ g, Retired g = false) groups.

(** ** The catalog: [PGBarrierStore] *)

Definition Lock : M () := stmt (λ w, if b_lock w then (Err EBusy, w) else (Ok (), {| w with b_lock := true |})).
Definition unlock : M () := stmt (λ w, (Ok (), {| w with b_lock := false |})).

Definition RaiseWriteFence (reason : string) (owner : Z) : M () :=
  stmt (λ w, (Ok (), {| w with b_fence := mkFence true reason owner (Some (b_clock w)) |})).
Definition ReleaseWriteFence (owner : Z) : M bool :=
  stmt (λ w, if f_owner (b_fence w) =? owner then (Ok true, {| w with b_fence := noFence |}) else (Ok false, w)).
Definition Fence (active : bool) (reason : string) (owner : Z) : M () :=
  if active then RaiseWriteFence reason owner else _ ← ReleaseWriteFence owner; mret ().
Definition FenceRaised : M bool := ask (λ w, Ok (f_active (b_fence w))).
Definition FenceOwnedBy (owner : Z) : M bool := ask (λ w, Ok (f_active (b_fence w) && (f_owner (b_fence w) =? owner))).
Definition FencedAt : M Z :=
  ask (λ w, match f_active (b_fence w), f_at (b_fence w) with
            | true, Some t => Ok t
            | _, _ => Err (EText "write fence is not raised")
            end).
Definition ClearStaleBarrierFence : M bool :=
  stmt (λ w, match f_at (b_fence w) with
             | Some t => if f_active (b_fence w) && negb (f_owner (b_fence w) =? 0) && (b_catalogStart w <? t)
                         then (Ok true, {| w with b_fence := noFence |}) else (Ok false, w)
             | None => (Ok false, w)
             end).

Definition DecisionWatermark : M Z := ask (λ w, Ok (b_seq w)).
Definition PreparingCount : M Z := ask (λ w, Ok (Z.of_nat (length (preparing (w_rows (d_tp (b_dbs w))))))).
Definition ShardMapGeneration : M Z := ask (λ w, Ok (b_generation w)).

Definition Exists (name : string) : M bool := ask (λ w, Ok (bool_decide (is_Some (b_rps w !! name)))).
Definition Reserve (name : string) : M () :=
  stmt (λ w, match b_rps w !! name with
             | Some _ => (Err EDuplicate, w)
             | None => (Ok (), {| w with b_rps := <[name := BarrierWorld.mkRow 0 ∅ false (b_clock w) None]> (b_rps w) |})
             end).
Definition Fail (name : string) (reason : err) : M () :=
  stmt (λ w, match b_rps w !! name with
             | Some r => if r_certified r then (Ok (), w)
                         else (Ok (), {| w with b_rps := <[name := {| r with r_error := Some reason |}]> (b_rps w) |})
             | None => (Ok (), w)
             end).
Definition perGroup (l : list GroupRestorePoint) : gmap string GroupRestorePoint :=
  fold_left (λ m g, <[Group g := g]> m) l ∅.
Definition RecordPoint (rp : RestorePoint) : M () :=
  stmt (λ w, match b_rps w !! RPName rp with
             | Some r => if r_certified r then (Err ENoRows, w)
                         else (Ok (), {| w with b_rps := <[RPName rp :=
                                BarrierWorld.mkRow (ShardMapGenerationOf rp) (perGroup (Groups rp)) (Certified rp) (CreatedAt rp) None]> (b_rps w) |})
             | None => (Err ENoRows, w)
             end).

(** [fenceOwner]: a token nobody else has. *)
Definition fenceOwner : M Z := stmt (λ w, (Ok (b_tokens w + 1), {| w with b_tokens := b_tokens w + 1 |})).

(** ** The groups: [SQLBarrierGroups] *)

Definition List : M (list GroupRef) := ask (λ w, Ok (catalogGroup :: b_groups w)).

(** A statement on a group's primary. *)
Definition askServer {X} (g : GroupRef) (f : world → server → result err X) : M X :=
  ask (λ w, match b_servers w !! ref g with Some s => f w s | None => Err EConn end).
Definition onServer {X} (g : GroupRef) (f : server → X * server) : M X :=
  stmt (λ w, match b_servers w !! ref g with
             | Some s => (Ok (f s).1, {| w with b_servers := <[ref g := (f s).2]> (b_servers w) |})
             | None => (Err EConn, w)
             end).

Definition PreparedGIDs (g : GroupRef) : M (list string) := askServer g (λ w _, Ok (preparedOn (b_dbs w) (ref g))).
Definition SubscriptionCount (g : GroupRef) : M Z := askServer g (λ _ s, Ok (s_subs s)).
Definition PauseEffective (g : GroupRef) : M bool := askServer g (λ _ s, Ok (s_effective s)).
Definition WritersSince (g : GroupRef) (since : Z) : M Z := askServer g (λ w _, Ok (writersSince w (ref g) since)).
Definition ArchivedThrough (g : GroupRef) : M string :=
  askServer g (λ _ s, if s_archiveMode s then Ok (match s_report s with Some f => fileName f | None => "" end)
                      else Err (EText "archive_mode is off; the restore point cannot be certified")).

(** [pg_create_restore_point]: from here on a recovery to [name] brings the
    group's image back; then the segment is closed so that it is archived. *)
Definition addPoint (g : GroupRef) (name : string) : M (Z * Z * string * string) :=
  stmt (λ w, match b_servers w !! ref g with
             | Some s => (Ok (s_lsn s, s_checkpointTimeline s, segName (s_timeline s) (s_segment s), s_system s),
                          {| w with b_points := <[ref g := default [] (b_points w !! ref g) ++ [(name, imageOf (b_dbs w) (ref g))]]> (b_points w) |})
             | None => (Err EConn, w)
             end).
Definition switchWal (g : GroupRef) : M () :=
  onServer g (λ s, ((), if decide (segmentOk (s_segment s + 1))
                        then {| s with s_segment := s_segment s + 1; s_wal := {[(s_timeline s, s_segment s + 1)]} ∪ s_wal s;
                                       s_closed := {[(s_timeline s, s_segment s)]} ∪ s_closed s |} else s)).
Definition CreateRestorePoint (g : GroupRef) (name : string) : M GroupRestorePoint :=
  '(lsn, timeline, segment, system) ← addPoint g name;
  _ ← switchWal g;
  mret (mkGRP (Name g) lsn timeline segment system).

Definition alterSystem (g : GroupRef) (pause : bool) : M () := onServer g (λ s, ((), {| s with s_setting := pause |})).
(** The reload itself is asynchronous: the server goes over to what is set when
    its postmaster gets to it. *)
Definition reloadConf (g : GroupRef) : M () :=
  ok ← askServer g (λ w _, Ok (b_signals w));
  if ok : bool then mret () else fail (EText "pg_reload_conf() refused to signal the postmaster").

(** Until a fresh backend really starts read only. *)
Fixpoint confirmPause (fuel : nat) (g : GroupRef) (deadline : Z) : M Z :=
  match fuel with
  | O => fail EFuel
  | S fuel =>
      '(on, at_) ← askServer g (λ w s, Ok (s_effective s, b_clock w));
      if on : bool then mret at_ else
      t ← now;
      if deadline <? t then fail (EText "did not start refusing writes in time") else
      _ ← sleep (50 * Millisecond);
      confirmPause fuel g deadline
  end.
Definition rounds (timeout poll : Z) : nat := S (S (Z.to_nat (timeout / poll))).

(** The transaction that read the shard's status commits. *)
Definition commitStatus : M () := ask (λ _, Ok ()).

(** Lifting leaves a pause that a workflow claims, and that of a set retired
    meanwhile unless something still has to write there. *)
Definition resume (g : GroupRef) : M Z :=
  '(claimed, retired) ← ask (λ w, Ok (bool_decide (ref g ∈ b_claimed w),
      existsb (λ h, bool_decide (ref h = ref g) && Retired h && negb (bool_decide (SetName g ∈ b_live w))) (b_groups w)));
  if claimed : bool then mret 0 else
  replicating ← (if retired : bool then askServer g (λ _ s, Ok (0 <? s_subs s)) else mret true);
  _ ← (if negb replicating then mret () else _ ← alterSystem g false; reloadConf g);
  _ ← commitStatus;
  mret 0.
Definition PauseWrites (g : GroupRef) (pause : bool) : M Z :=
  if negb pause && negb (Catalog g) then resume g else
  _ ← alterSystem g pause;
  _ ← reloadConf g;
  if negb pause then mret 0 else
  t ← now;
  confirmPause (rounds pauseConfirmTimeout (50 * Millisecond)) g (t + pauseConfirmTimeout).

(** ** The barrier *)

Section Barrier.
Context (b : Barrier).

(** A wait that the context can end. *)
Definition nap (d : Z) : M () := _ ← sleep d; ask (λ w, if b_cancelled w then Err ECanceled else Ok ()).
Definition settleFence : M () :=
  let d := orDefault (FenceSettle b) DefaultFenceSettle in
  if (FenceSettle b <? 0) || (d <=? 0) then mret () else nap d.
Definition pollSleep : M () := nap (orDefault (Poll b) DefaultBarrierPoll).

(** [wrap what x]: [fmt.Errorf("barrier %s: what: %w")]. *)
Definition wrap {A} (what : string) (x : M A) : M A :=
  r ← attempt x; match r with Ok a => mret a | Err e => fail (EIn what e) end.

Fixpoint checkSubscriptions (groups : list GroupRef) : M () :=
  match groups with
  | [] => mret ()
  | g :: groups =>
      if Catalog g then checkSubscriptions groups else
      n ← wrap "subscriptions" (SubscriptionCount g);
      if 0 <? n then fail (EIn (Name g) (EText "is applying logical replication subscriptions")) else
      checkSubscriptions groups
  end.
Fixpoint pauseEach (groups : list GroupRef) (at_ : gmap string Z) : M (gmap string Z) :=
  match groups with
  | [] => mret at_
  | g :: groups =>
      if Catalog g || Retired g then pauseEach groups at_ else
      t ← wrap "pause writes" (PauseWrites g true);
      pauseEach groups (<[Name g := t]> at_)
  end.
Definition pauseAll (groups : list GroupRef) : M (gmap string Z) :=
  _ ← checkSubscriptions groups; pauseEach groups ∅.

(** The first error, after every group was tried. *)
Fixpoint resumeAll (groups : list GroupRef) (first : option err) : M () :=
  match groups with
  | [] => match first with None => mret () | Some e => fail e end
  | g :: groups =>
      if Catalog g then resumeAll groups first else
      r ← attempt (PauseWrites g false);
      resumeAll groups (match first, r with None, Err e => Some (EIn "resume writes" e) | _, _ => first end)
  end.

(** [inFlight]: what still blocks the drain. *)
Fixpoint preparedSomewhere (groups : list GroupRef) : M (option string) :=
  match groups with
  | [] => mret None
  | g :: groups =>
      gids ← wrap (Name g) (PreparedGIDs g);
      if bool_decide (gids ≠ []) then mret (Some (Name g)) else preparedSomewhere groups
  end.
Definition inFlight (groups : list GroupRef) : M (option string) :=
  n ← PreparingCount;
  if 0 <? n then mret (Some "decision rows preparing"%string) else preparedSomewhere groups.

Definition drainTimeout : Z := orDefault (DrainTimeout b) DefaultDrainTimeout.
Definition poll : Z := orDefault (Poll b) DefaultBarrierPoll.

(** A pass of the resolver, whose outcome is only logged. *)
Definition resolverPass : M () := ask (λ _, Ok ()).
Fixpoint drainLoop (fuel : nat) (groups : list GroupRef) (deadline : Z) : M () :=
  match fuel with
  | O => fail EFuel
  | S fuel =>
      _ ← (if Resolving b then attempt resolverPass else mret (Ok ()));
      pending ← wrap "drain" (inFlight groups);
      match pending with
      | None => mret ()
      | Some p =>
          t ← now;
          if deadline <=? t then fail (EIn "drain: still in flight" (EText p)) else
          _ ← wrap "drain" pollSleep;
          drainLoop fuel groups deadline
      end
  end.
Definition drain (groups : list GroupRef) : M () := t ← now; drainLoop (rounds drainTimeout poll) groups (t + drainTimeout).

Fixpoint busyWriters (groups : list GroupRef) (at_ : gmap string Z) : M (option string) :=
  match groups with
  | [] => mret None
  | g :: groups =>
      if Catalog g then busyWriters groups at_ else
      n ← wrap "writers" (WritersSince g (default 0 (at_ !! Name g)));
      if 0 <? n then mret (Some (Name g)) else busyWriters groups at_
  end.
Fixpoint drainWritersLoop (fuel : nat) (groups : list GroupRef) (at_ : gmap string Z) (deadline : Z) : M () :=
  match fuel with
  | O => fail EFuel
  | S fuel =>
      busy ← busyWriters groups at_;
      match busy with
      | None => mret ()
      | Some p =>
          t ← now;
          if deadline <=? t then fail (EIn "drain: can still write" (EText p)) else
          _ ← wrap "drain" pollSleep;
          drainWritersLoop fuel groups at_ deadline
      end
  end.
Definition drainWriters (groups : list GroupRef) (at_ : gmap string Z) : M () :=
  t ← now; drainWritersLoop (rounds drainTimeout poll) groups at_ (t + drainTimeout).

Fixpoint createPoints (groups : list GroupRef) (name : string) : M (list GroupRestorePoint) :=
  match groups with
  | [] => mret []
  | g :: groups =>
      p ← wrap "restore point" (CreateRestorePoint g (RestorePointName name));
      ps ← createPoints groups name;
      mret (p :: ps)
  end.

Definition archiveTimeout : Z := orDefault (ArchiveTimeout b) DefaultArchiveTimeout.
Fixpoint awaitSegment (fuel : nat) (g : GroupRef) (want : string) (deadline : Z) : M () :=
  match fuel with
  | O => fail EFuel
  | S fuel =>
      archived ← wrap "archive" (ArchivedThrough g);
      match archivedSegment archived want with
      | Err (was, since) => fail (EIn "archive: timeline changed" (EText (was +:+ " to " +:+ since)))
      | Ok seg =>
          if negb (String.eqb seg "") && String.leb want seg then mret () else
          t ← now;
          if deadline <=? t then fail (EIn "archive: not archived" (EText want)) else
          _ ← wrap "archive" pollSleep;
          awaitSegment fuel g want deadline
      end
  end.
Fixpoint awaitSegments (groups : list GroupRef) (points : list GroupRestorePoint) (deadline : Z) : M () :=
  match groups, points with
  | g :: groups, p :: points =>
      _ ← awaitSegment (rounds archiveTimeout poll) g (WALSegment p) deadline;
      awaitSegments groups points deadline
  | _, _ => mret ()
  end.
Definition awaitArchived (groups : list GroupRef) (points : list GroupRestorePoint) : M () :=
  t ← now; awaitSegments groups points (t + archiveTimeout).

Fixpoint verifyGroups (groups : list GroupRef) (at_ : gmap string Z) : M () :=
  match groups with
  | [] => mret ()
  | g :: groups =>
      if Catalog g then verifyGroups groups at_ else
      on ← wrap "verify pause" (PauseEffective g);
      if negb on then fail (EIn (Name g) (EText "stopped refusing writes during the barrier")) else
      n ← wrap "verify writers" (WritersSince g (default 0 (at_ !! Name g)));
      if 0 <? n then fail (EIn (Name g) (EText "had transactions able to write during the barrier")) else
      verifyGroups groups at_
  end.
Definition verify (owner : Z) (groups : list GroupRef) (at_ : gmap string Z) : M () :=
  ours ← wrap "verify fence" (FenceOwnedBy owner);
  if negb ours then fail (EText "the write fence is no longer this barrier's") else
  verifyGroups groups at_.

(** [fenced]: between raising and releasing the fence. *)
Definition fenced (name : string) (owner : Z) (groups : list GroupRef) (at_ : gmap string Z) : M RestorePoint :=
  _ ← FencedAt;
  _ ← drain groups;
  _ ← drainWriters groups at_;
  before ← DecisionWatermark;
  _ ← drain groups;
  _ ← drainWriters groups at_;
  points ← createPoints groups name;
  _ ← awaitArchived groups points;
  after ← DecisionWatermark;
  if 0 <? after - before then fail (EText "two-phase transactions started while the fence was up") else
  generation ← wrap "shard map generation" ShardMapGeneration;
  _ ← verify owner groups at_;
  t ← now;
  let rp := mkRP name generation true points t in
  _ ← wrap "record" (RecordPoint rp);
  mret rp.

(** [run]: a reserved barrier.  Whatever happens under the fence, the pauses
    are lifted, and only once they are is the fence. *)
Definition run (name : string) : M RestorePoint :=
  all ← wrap "groups" List;
  let groups := activeGroups all in
  if bool_decide (groups = []) then fail (EText "no groups") else
  owner ← fenceOwner;
  _ ← wrap "fence" (Fence true ("barrier " +:+ name) owner);
  rp ← attempt (_ ← settleFence; at_ ← pauseAll all; fenced name owner groups at_);
  resumed ← attempt (resumeAll groups None);
  match resumed with
  | Err e => fail (match rp with Err e' => e' | Ok _ => e end)
  | Ok _ =>
      released ← attempt (Fence false "" owner);
      match rp, released with
      | Err e, _ => fail e
      | Ok _, Err e => fail (EIn "release fence" e)
      | Ok rp, Ok _ => mret rp
      end
  end.

(** What [Run] does while it has the lock. *)
Definition reservedRun (name : string) : M RestorePoint :=
  exists_ ← Exists name;
  if exists_ : bool then fail EExists else
  _ ← wrap "reserve" (Reserve name);
  r ← attempt (run name);
  match r with
  | Ok rp => mret rp
  | Err e => _ ← attempt (Fail name e); fail e
  end.
Definition Run (name : string) : M RestorePoint :=
  if negb (barrierName name) then fail EBadName else
  _ ← Lock;
  r ← attempt (reservedRun name);
  _ ← attempt unlock;
  match r with Ok rp => mret rp | Err e => fail e end.

(** ** Recovery *)

Definition maxRunTime : Z := 2 * drainTimeout + archiveTimeout + Minute.

Fixpoint anyPaused (groups : list GroupRef) : M bool :=
  match groups with
  | [] => mret false
  | g :: groups =>
      if Catalog g then anyPaused groups else
      on ← PauseEffective g;
      if on : bool then mret true else anyPaused groups
  end.
Definition recoverLocked : M () :=
  all ← List;
  let groups := activeGroups all in
  paused ← anyPaused groups;
  _ ← (if paused : bool then resumeAll groups None else mret ());
  _ ← ClearStaleBarrierFence;
  mret ().
Definition Recover : M () :=
  raised ← FenceRaised;
  if negb raised then mret () else
  since ← FencedAt;
  t ← now;
  if t - since <? maxRunTime then mret () else
  l ← attempt Lock;
  match l with
  | Err EBusy => mret ()
  | Err e => fail e
  | Ok _ =>
      r ← attempt recoverLocked;
      _ ← attempt unlock;
      match r with Ok _ => mret () | Err e => fail e end
  end.

(** What a controller does next: the barrier it is asked for, or a tick of
    [RunRecovery]; results and errors are only logged. *)
Definition pass : prog () :=
  pbind (ask (λ w, Ok (b_request w))) (λ r,
    match r with
    | Ok (Some (Some name)) => pbind (Run name) (λ _, Ret ())
    | Ok (Some None) => pbind Recover (λ _, Ret ())
    | _ => Ret ()
    end).
End Barrier.
