(* ===== verification/BarrierDb.v ===== *)
(** * The databases under a barrier

    What the views of the databases that a barrier's queries take say, and how
    transactions and decision rows move in a step of the two-phase commit
    system: a shard on which nothing is open and nothing prepared stays as it
    is until a transaction begins. *)

From S2P Require Import Prelude TwoPhase Atomicity Prog Triples Archive BarrierWorld.

Local Open Scope Z_scope.

(** ** Views *)

Lemma omap_nil {A B} (f : A → option B) (l : list A) : omap f l = [] ↔ ∀ x, x ∈ l → f x = None.
Proof.
  split.
  - intros H x Hx. destruct (f x) as [y|] eqn:E; [|done].
    assert (y ∈ omap f l) as Hy by (apply list_elem_of_omap; eauto). by rewrite H in Hy; apply elem_of_nil in Hy.
  - intros H. induction l as [|x l IH]; [done|]. cbn. rewrite (H x) by left. apply IH. intros y Hy. apply H. by right.
Qed.

Lemma persisted_lookup tp sh g :
  persisted tp sh !! g = (w_txns tp !! (sh, g)) ≫= λ t, if persistent t then Some t else None.
Proof.
  unfold persisted. apply omap_to_map_lookup. intros t. rewrite bind_Some. split.
  - intros ([[s g'] t'] & Hin & Heq). apply elem_of_map_to_list in Hin.
    destruct (decide (s = sh)) as [->|]; [|done]. destruct (persistent t') eqn:Hp; simplify_eq. exists t. by rewrite Hp.
  - intros (t' & Ht & Hp). destruct (persistent t') eqn:Hp'; simplify_eq.
    exists ((sh, g), t). rewrite elem_of_map_to_list. split; [done|]. by rewrite decide_True, Hp'.
Qed.

Definition nonePrepared (d : databases) (sh : ShardRef) : Prop :=
  (∀ g db, w_txns (d_tp d) !! (sh, g) ≠ Some (TPrepared db)) ∧ default ∅ (d_foreign d !! sh) = ∅.
Definition noneActive (d : databases) (sh : ShardRef) : Prop :=
  ∀ g db xid, w_txns (d_tp d) !! (sh, g) ≠ Some (TActive db xid).
Definition nonePreparing (d : databases) : Prop :=
  ∀ g r, w_rows (d_tp d) !! g = Some r → d_state r ≠ "preparing"%string.

Lemma preparedOn_nil d sh : preparedOn d sh = [] ↔ nonePrepared d sh.
Proof.
  unfold preparedOn, nonePrepared. rewrite app_nil, omap_nil, elements_empty_iff, leibniz_equiv_iff.
  apply and_iff_compat_r. split.
  - intros H g db Hg. specialize (H ((sh, g), TPrepared db)). rewrite elem_of_map_to_list, decide_True in H by done. by specialize (H Hg).
  - intros H [[s g] t] Ht%elem_of_map_to_list. destruct t; try done. destruct (decide (s = sh)) as [->|]; [by destruct (H _ _ Ht)|done].
Qed.
Lemma activeOn_nil d sh : activeOn d sh = [] ↔ noneActive d sh.
Proof.
  unfold activeOn, noneActive. rewrite omap_nil. split.
  - intros H g db x Hg. specialize (H ((sh, g), TActive db x)). rewrite elem_of_map_to_list, decide_True in H by done. by specialize (H Hg).
  - intros H [[s g] t] Ht%elem_of_map_to_list. destruct t; try done. destruct (decide (s = sh)) as [->|]; [by destruct (H _ _ _ Ht)|done].
Qed.
Lemma preparing_nil d : preparing (w_rows (d_tp d)) = [] ↔ nonePreparing d.
Proof.
  unfold preparing, nonePreparing. rewrite omap_nil. split.
  - intros H g r Hg Hs. specialize (H (g, r)). rewrite elem_of_map_to_list in H. cbn in H. specialize (H Hg).
    by rewrite (proj2 (String.eqb_eq _ _) Hs) in H.
  - intros H [g r] Hr%elem_of_map_to_list. cbn. destruct (String.eqb_spec (d_state r) "preparing"); [by destruct (H g r)|done].
Qed.

(** ** Moves *)

(** What may become of a transaction on a shard in one step. *)
Inductive txn_trans : option tstate → option tstate → Prop :=
| tt_same t : txn_trans t t
| tt_begin db xid : txn_trans None (Some (TActive db xid))
| tt_prepare db xid : txn_trans (Some (TActive db xid)) (Some (TPrepared db))
| tt_lost db xid : txn_trans (Some (TActive db xid)) (Some TAborted)
| tt_failed db : txn_trans (Some (TFailed db)) (Some TAborted)
| tt_commit db : txn_trans (Some (TPrepared db)) (Some TCommitted)
| tt_rollback db : txn_trans (Some (TPrepared db)) (Some TAborted).

(** Rows leave [preparing] for good. *)
Definition rows_trans (r r' : gmap string drow) : Prop :=
  ∀ g x', r' !! g = Some x' → d_state x' = "preparing"%string → r !! g = None ∨ ∃ x, r !! g = Some x ∧ d_state x = "preparing"%string.

Definition world_trans (tp tp' : TwoPhase.world) : Prop :=
  (∀ k, txn_trans (w_txns tp !! k) (w_txns tp' !! k)) ∧ rows_trans (w_rows tp) (w_rows tp').

Lemma rows_trans_refl r : rows_trans r r.
Proof. intros g x Hg Hs. right. eauto. Qed.
Lemma world_trans_same tp : world_trans tp tp.
Proof. split; [constructor|apply rows_trans_refl]. Qed.
Lemma set_txn_trans tp sh g t : txn_trans (w_txns tp !! (sh, g)) (Some t) → world_trans tp (set_txn tp sh g t).
Proof.
  intros Ht. split; [|apply rows_trans_refl]. intros k. cbn.
  destruct (decide (k = (sh, g))) as [->|Hne]; [by rewrite lookup_insert_eq|rewrite lookup_insert_ne by done; constructor].
Qed.
Lemma set_rows_trans tp r : rows_trans (w_rows tp) r → world_trans tp (set_rows tp r).
Proof. intros Hr. split; [constructor|done]. Qed.
Lemma insert_trans tp g x :
  (d_state x = "preparing"%string → w_rows tp !! g = None ∨ ∃ y, w_rows tp !! g = Some y ∧ d_state y = "preparing"%string) →
  rows_trans (w_rows tp) (<[g := x]> (w_rows tp)).
Proof.
  intros Hx g' x' Hg Hs. destruct (decide (g' = g)) as [->|Hne].
  - rewrite lookup_insert_eq in Hg. simplify_eq. auto.
  - rewrite lookup_insert_ne in Hg by done. eauto.
Qed.
Lemma delete_trans tp g : rows_trans (w_rows tp) (delete g (w_rows tp)).
Proof. intros g' x' [_ Hg]%lookup_delete_Some Hs. eauto. Qed.
Lemma decide_row_trans tp g s : s ≠ "preparing"%string → world_trans tp (decide_row tp g s).1.
Proof.
  intros Hs. unfold decide_row. destruct (w_rows tp !! g) as [r|]; [|apply world_trans_same].
  case_match; [|apply world_trans_same]. by apply set_rows_trans, insert_trans.
Qed.
Lemma finish_trans tp sh db commit g : world_trans tp (finish_prepared tp sh db commit g).1.
Proof.
  unfold finish_prepared. destruct (w_txns tp !! (sh, g)) as [[]|] eqn:E; try apply world_trans_same.
  case_decide; [|apply world_trans_same]. apply set_txn_trans. rewrite E. destruct commit; constructor.
Qed.
Lemma sql_exec_trans tp o : world_trans tp (sql_exec tp o).1.
Proof.
  destruct o; cbn [sql_exec fst]; try apply world_trans_same; try (by apply decide_row_trans); try apply finish_trans.
  - destruct (w_rows tp !! gid) eqn:E; [apply world_trans_same|]. apply set_rows_trans, insert_trans. auto.
  - destruct (w_rows tp !! gid) as [r|] eqn:E; [|apply world_trans_same]. destruct (String.eqb_spec (d_state r) "preparing"); [|apply world_trans_same].
    apply set_rows_trans, insert_trans. eauto.
  - apply set_rows_trans, delete_trans.
  - destruct (w_rows tp !! gid); [|apply world_trans_same]. case_match; [by apply decide_row_trans|apply world_trans_same].
  - destruct (w_rows tp !! gid); [|apply world_trans_same]. case_match; [apply set_rows_trans, delete_trans|apply world_trans_same].
  - destruct (w_txns tp !! (sh, gid)) as [[]|] eqn:E; try apply world_trans_same; apply set_txn_trans; rewrite E; constructor.
  - destruct (w_txns tp !! (sh, gid)) as [[]|] eqn:E; try apply world_trans_same; apply set_txn_trans; rewrite E; constructor.
Qed.
Lemma env_step_trans tp tp' : env_step tp tp' → world_trans tp tp'.
Proof.
  destruct 1 as [w t Ht|w t Ht|w sh g db xid Hl|w sh g db xid Hl|w sh g db Hl];
    [exact (world_trans_same w)|exact (world_trans_same w)|..]; apply set_txn_trans; rewrite Hl; constructor.
Qed.
#[export] Instance careful_sql env_error where_text : Sql (careful env_error where_text).
Proof. intros w o w' r [H _]. by eapply sql_of. Qed.
Lemma sys_step_trans {A} db_step `{!Sql db_step} tp (ts : list (option (TwoPhase.prog A))) tp' ts' :
  TwoPhase.sys_step db_step (tp, ts) (tp', ts') → world_trans tp tp'.
Proof.
  intros H. inversion H as [w w' ts0 i p p' Hi Hth| |w w' ts0 He]; subst; [|apply world_trans_same|by apply env_step_trans].
  inversion Hth as [w0 slots k j o w1 r Hj Hs|]; subst; [|apply world_trans_same].
  apply sql_of in Hs. destruct Hs as [|e He|e He|sh g db xid e Ho Ht He]; [apply sql_exec_trans|apply world_trans_same|apply sql_exec_trans|].
  apply set_txn_trans. rewrite Ht. constructor.
Qed.

(** A shard where nothing is open or prepared. *)
Lemma idle_shard_stays tp tp' sh :
  (∀ k, txn_trans (w_txns tp !! k) (w_txns tp' !! k)) → no_birth tp tp' →
  (∀ g db xid, w_txns tp !! (sh, g) ≠ Some (TActive db xid)) →
  (∀ g db xid, w_txns tp' !! (sh, g) ≠ Some (TActive db xid)) ∧
  ((∀ g db, w_txns tp !! (sh, g) ≠ Some (TPrepared db)) →
   (∀ g db, w_txns tp' !! (sh, g) ≠ Some (TPrepared db)) ∧ persisted tp' sh = persisted tp sh).
Proof.
  intros Ht Hb Ha. split; [|intros Hp; split].
  - intros g db xid H. specialize (Ht (sh, g)). rewrite H in Ht. inversion Ht as [? E| ? ? E| | | | |]; subst; [by destruct (Ha g db xid)|].
    by rewrite (Hb (sh, g)) in H.
  - intros g db H. specialize (Ht (sh, g)). rewrite H in Ht. inversion Ht as [? E| |? ? E| | | |]; subst; [by destruct (Hp g db)|by edestruct Ha].
  - apply map_eq. intros g. rewrite !persisted_lookup. pose proof (Ht (sh, g)) as H. specialize (Ha g). specialize (Hp g). specialize (Hb (sh, g)).
    inversion H as [? E|? ? E1 E2|? ? E|? ? E|? E|? E|? E]; try done; try (by edestruct Ha); try (by edestruct Hp).
Qed.
