(* ===== verification/BarrierSafety.v ===== *)
(** * What holds of a cluster that takes restore points

    The invariant of the world of [BarrierWorld]: among the rest, that every
    certified restore point is sound, which is to say that one moment of the
    databases is what a recovery of every group to it brings back.  And the
    facts about a shard under a pause that last while it is not lifted:
    [held], [calmed], [quiet], [still]. *)

From S2P Require Import Prelude TwoPhase Atomicity Prog Triples Archive BarrierWorld Barrier BarrierDb.

Local Open Scope Z_scope.

(** ** Servers *)

Definition archivedSeg (s : server) (t n : Z) : Prop := Segment t n ∈ s_archived s.

(** What was archived, and what it says: [archivedSegment]'s reading of a report
    rests on it. *)
Record serverOk (s : server) : Prop := {
  so_current : (s_timeline s, s_segment s) ∈ s_wal s;
  so_wal : ∀ t n, (t, n) ∈ s_wal s → timelineOk t ∧ segmentOk n ∧ (t < s_timeline s ∨ t = s_timeline s ∧ n ≤ s_segment s);
  so_closed : s_closed s ⊆ s_wal s;
  so_report : ∀ f, s_report s = Some f → f ∈ s_archived s;
  so_archived : ∀ f, f ∈ s_archived s → fileOk f ∧ ∀ t n, speaksFor f = Some (t, n) →
    (t, n) ∈ s_wal s ∧ ∀ m, (t, m) ∈ s_wal s → m ≤ n → archivedSeg s t m }.

(** The pause is gone, and comes back by nobody's hand. *)
Definition dead (s : server) : Prop := s_setting s = false ∧ s_effective s = false.

Record server_moves (s s' : server) : Prop := {
  sm_dead : dead s → dead s';
  sm_effective : s_effective s = true → s_effective s' = true ∨ dead s';
  sm_wal : s_wal s ⊆ s_wal s';
  sm_archived : s_archived s ⊆ s_archived s' }.

Lemma server_moves_refl s : server_moves s s.
Proof. split; auto. Qed.

Lemma wal_grows s t n archived report :
  serverOk s → timelineOk t → segmentOk n → s_timeline s < t ∨ t = s_timeline s ∧ s_segment s < n →
  archived = s_archived s → (report = s_report s ∨ report = None) →
  ∀ setting effective closed, closed ⊆ s_wal s → serverOk {| s with s_setting := setting; s_effective := effective; s_timeline := t; s_segment := n;
    s_wal := {[(t, n)]} ∪ s_wal s; s_closed := closed; s_archived := archived; s_report := report |}.
Proof.
  intros [Hc Hw Hcl Hr Ha] Ht Hn Hlt -> Hrep setting effective closed Hsub. split; cbn.
  - set_solver.
  - intros t' n' [E|H]%elem_of_union; [apply elem_of_singleton in E; simplify_eq; split_and!; [done..|lia]|].
    destruct (Hw t' n' H) as (? & ? & ?). split_and!; [done..|lia].
  - set_solver.
  - intros f ->. destruct Hrep as [Hrep|]; [by apply Hr|done].
  - intros f Hf. destruct (Ha f Hf) as [Hok Hs]. split; [done|]. intros t' n' E. destruct (Hs t' n' E) as [Hin Hm].
    split; [set_solver|]. intros m [E'|H]%elem_of_union Hle; [|by apply Hm].
    apply elem_of_singleton in E'. simplify_eq. destruct (Hw t n' Hin) as (_ & _ & ?). lia.
Qed.

Lemma server_step_moves s s' : server_step s s' → serverOk s → serverOk s' ∧ server_moves s s'.
Proof.
  intros Hst Hok. pose proof Hok as [Hc Hw Hcl Hr Ha]. destruct Hst as [| |t Ht Hlt|n| |n Hn|Hn|f Hf].
  - split; split; cbn; try done; unfold dead; cbn; auto. intros [? ?]. done.
  - split; split; cbn; try done; unfold dead; cbn; [by intros [-> _]|]. intros _. destruct (s_setting s); auto.
  - split; [|split; cbn; [done|by right|set_solver|done]].
    eapply (wal_grows s t (s_segment s) _ None); auto; [by destruct (Hw _ _ Hc) as (_ & ? & _)].
  - split; [by split|by split; auto].
  - split; [by split|by split; auto].
  - split; [by split|by split; auto].
  - split; [|split; cbn; auto; set_solver].
    destruct (Hw _ _ Hc) as (? & _ & _). apply (wal_grows s (s_timeline s) (s_segment s + 1) _ (s_report s)); auto; [right; lia|set_solver].
  - destruct Hf as [Hfok Hf]. split; [|split; cbn; auto; set_solver]. split; cbn; [done|done|done|intros f' [= ->]; set_solver|].
    intros f' [Hf'|Hf']%elem_of_app.
    + destruct (Ha f' Hf') as [? Hs]. split; [done|]. intros t n E. destruct (Hs t n E) as [? Hm]. split; [done|].
      intros m ? ?. apply elem_of_app. left. by apply Hm.
    + apply list_elem_of_singleton in Hf' as ->. split; [done|]. intros t n E. unfold archivedSeg. cbn.
      destruct f as [t0 n0|t0 n0 o|t0|t0 n0]; cbn in E; simplify_eq; destruct Hf as [? Hm]; (split; [by apply Hcl|]); intros m Hin Hle; apply elem_of_app.
      * destruct (decide (m = n)) as [->|]; [right; set_solver|left; apply Hm; [done|lia]].
      * left. by apply Hm.
Qed.

Section Safety.
Context (db_step : TwoPhase.world → op → TwoPhase.world → resp → Prop) `{!Sql db_step} (groupName : ShardRef → string) (d0 : databases) (seen : databases → Prop).
(** [d0] are the databases at the start, [seen] those met on the way. *)
Definition env_seen (w w' : world) : Prop := env db_step groupName w w' ∧ (b_dbs w' = b_dbs w ∨ seen (b_dbs w')).
Local Notation db_evolves := (db_evolves db_step).

(** ** Shards under a pause *)

Definition server_is (w : world) (sh : ShardRef) (P : server → Prop) : Prop := ∃ s, b_servers w !! sh = Some s ∧ P s.

Definition noneRW (w : world) (sh : ShardRef) : Prop :=
  ∀ pid o, b_sessions w !! pid = Some o → o_group o = sh → o_rw o = false.
(** Since [t] no transaction began that may write. *)
Definition held (w : world) (sh : ShardRef) (t : Z) : Prop :=
  server_is w sh (λ s, dead s ∨ s_effective s = true ∧
    ∀ pid o, b_sessions w !! pid = Some o → o_group o = sh → o_rw o = true → o_start o ≤ t).
(** None is left. *)
Definition calmed (w : world) (sh : ShardRef) : Prop :=
  server_is w sh (λ s, dead s ∨ s_effective s = true ∧ noneRW w sh ∧ noneActive (b_dbs w) sh).
(** And nothing is prepared. *)
Definition quiet (w : world) (sh : ShardRef) : Prop :=
  server_is w sh (λ s, dead s ∨ s_effective s = true ∧ noneRW w sh ∧ noneActive (b_dbs w) sh ∧ nonePrepared (b_dbs w) sh).
(** And the shard is as it was at the moment [d]. *)
Definition still (d : databases) (w : world) (sh : ShardRef) : Prop :=
  server_is w sh (λ s, dead s ∨ s_effective s = true ∧ noneRW w sh ∧ noneActive (b_dbs w) sh ∧ nonePrepared (b_dbs w) sh ∧
    imageOf (b_dbs w) sh = imageOf d sh).

(** No decision was begun past the sequence value [n], and none is undecided. *)
Definition settledAt (n : Z) (w : world) : Prop := n ≤ b_seq w ∧ (n < b_seq w ∨ nonePreparing (b_dbs w)).

(** ** Certified restore points *)

Definition nameOf (sh : ShardRef) : string := if decide (sh = catalogRef) then CatalogGroup else groupName sh.
Definition isArchived (w : world) (sh : ShardRef) (segment : string) : Prop :=
  server_is w sh (λ s, ∃ t n, segment = segName t n ∧ archivedSeg s t n).

(** The moment [d] is what the restore point [name] of a group brings back. *)
Definition brings (w : world) (name : string) (d : databases) (sh : ShardRef) : Prop :=
  recoverTo w sh (RestorePointName name) = Some (imageOf d sh) ∧ (sh ≠ catalogRef → nonePrepared d sh).

Definition sound (w : world) (name : string) (groups : gmap string GroupRestorePoint) : Prop :=
  ∃ d, seen d ∧ rtc db_evolves d0 d ∧ rtc db_evolves d (b_dbs w) ∧ nonePreparing d ∧ is_Some (groups !! CatalogGroup) ∧
    ∀ g p, groups !! g = Some p → ∃ sh, g = nameOf sh ∧ brings w name d sh ∧ isArchived w sh (WALSegment p).

Record Inv (w : world) : Prop := {
  inv_dbs : rtc db_evolves d0 (b_dbs w);
  inv_seen : seen (b_dbs w);
  inv_groups : listing groupName (b_groups w);
  inv_sessions : ∀ pid o, b_sessions w !! pid = Some o → (o_copy o = true → o_rw o = false) ∧ o_start o ≤ b_clock w;
  inv_servers : ∀ sh s, b_servers w !! sh = Some s → serverOk s;
  inv_points : ∀ sh l n i, b_points w !! sh = Some l → (n, i) ∈ l → ∃ b, n = RestorePointName b ∧ is_Some (b_rps w !! b);
  inv_certified : ∀ n r, b_rps w !! n = Some r → r_certified r = true → sound w n (r_groups r) }.

(** ** How the world moves but for what the barrier means to change *)

Record evolves (w w' : world) : Prop := {
  ev_dbs : rtc db_evolves (b_dbs w) (b_dbs w');
  ev_points : b_points w' = b_points w;
  ev_servers : ∀ sh s, b_servers w !! sh = Some s → ∃ s', b_servers w' !! sh = Some s' ∧ server_moves s s';
  ev_held : ∀ sh t, held w sh t → held w' sh t;
  ev_calmed : ∀ sh, calmed w sh → calmed w' sh;
  ev_quiet : ∀ sh, quiet w sh → quiet w' sh;
  ev_still : ∀ d sh, sh ≠ catalogRef → still d w sh → still d w' sh;
  ev_reserved : ∀ n, is_Some (b_rps w !! n) → is_Some (b_rps w' !! n);
  ev_settled : ∀ n, settledAt n w → settledAt n w';
  ev_seq : b_seq w ≤ b_seq w' }.

Lemma barrier_evolves_refl w : evolves w w.
Proof. split; auto; [done| |done]. intros sh s Hs. exists s. split; [done|apply server_moves_refl]. Qed.

Lemma server_is_evolves w w' sh (P : server → Prop) :
  (∀ sh s, b_servers w !! sh = Some s → ∃ s', b_servers w' !! sh = Some s' ∧ server_moves s s') →
  (∀ s s', server_moves s s' → P s → P s') → server_is w sh P → server_is w' sh P.
Proof. intros Hs HP (s & Hl & Hp). destruct (Hs sh s Hl) as (s' & Hl' & Hm). exists s'. eauto. Qed.
(** What one shard sees of a step. *)
Record shard_step (w w' : world) (sh : ShardRef) : Prop := {
  ss_server : ∀ s, b_servers w !! sh = Some s → ∃ s', b_servers w' !! sh = Some s' ∧ server_moves s s';
  ss_sessions : effective w sh = Some true → ∀ pid o', b_sessions w' !! pid = Some o' → o_group o' = sh → o_rw o' = true →
    ∃ pid' o, b_sessions w !! pid' = Some o ∧ o_group o = sh ∧ o_rw o = true ∧ o_start o = o_start o';
  ss_active : effective w sh = Some true → noneRW w sh → noneActive (b_dbs w) sh → noneActive (b_dbs w') sh;
  ss_image : effective w sh = Some true → noneRW w sh → noneActive (b_dbs w) sh → nonePrepared (b_dbs w) sh →
    nonePrepared (b_dbs w') sh ∧ (sh ≠ catalogRef → imageOf (b_dbs w') sh = imageOf (b_dbs w) sh) }.

Lemma shard_step_held w w' sh t : shard_step w w' sh → held w sh t → held w' sh t.
Proof.
  intros [Hsv Hse _ _] (s & Hs & Hd). destruct (Hsv s Hs) as (s' & Hs' & Hm). exists s'. split; [done|].
  destruct Hd as [Hd|[He H]]; [left; by apply Hm|]. destruct (sm_effective _ _ Hm He) as [He'|]; [right|by left]. split; [done|].
  intros pid o' Ho Hg Hrw. unfold effective in Hse. rewrite Hs in Hse. cbn in Hse. rewrite He in Hse.
  destruct (Hse eq_refl pid o' Ho Hg Hrw) as (pid' & o & Ho' & Hg' & Hrw' & <-). by apply (H pid').
Qed.
Lemma shard_step_quieter w w' sh (P P' : Prop) :
  shard_step w w' sh → (effective w sh = Some true → noneRW w sh → noneActive (b_dbs w) sh → P → P') →
  server_is w sh (λ s, dead s ∨ s_effective s = true ∧ noneRW w sh ∧ noneActive (b_dbs w) sh ∧ P) →
  server_is w' sh (λ s, dead s ∨ s_effective s = true ∧ noneRW w' sh ∧ noneActive (b_dbs w') sh ∧ P').
Proof.
  intros [Hsv Hse Hac _] HP (s & Hs & Hd). destruct (Hsv s Hs) as (s' & Hs' & Hm). exists s'. split; [done|].
  destruct Hd as [Hd|(He & Hrw & Ha & Hp)]; [left; by apply Hm|]. destruct (sm_effective _ _ Hm He) as [He'|]; [right|by left].
  assert (effective w sh = Some true) as Heff by (unfold effective; rewrite Hs; cbn; by rewrite He).
  split_and!; auto. intros pid o' Ho Hg. destruct (o_rw o') eqn:E; [|done].
  destruct (Hse Heff pid o' Ho Hg E) as (pid' & o & Ho' & Hg' & Hrw' & _). by rewrite (Hrw pid' o) in Hrw'.
Qed.
Lemma shard_step_calmed w w' sh : shard_step w w' sh → calmed w sh → calmed w' sh.
Proof.
  intros Hst (s & Hs & Hd). destruct (shard_step_quieter w w' sh True True Hst) as (s' & Hs' & Hd'); [done| |].
  - exists s. split; [done|]. destruct Hd as [?|(? & ? & ?)]; [by left|by right].
  - exists s'. split; [done|]. destruct Hd' as [?|(? & ? & ? & _)]; [by left|by right].
Qed.
Lemma shard_step_quiet w w' sh : shard_step w w' sh → quiet w sh → quiet w' sh.
Proof. intros Hst. apply shard_step_quieter; [done|]. intros ? ? ? Hp. by apply (ss_image _ _ _ Hst). Qed.
Lemma shard_step_still d w w' sh : sh ≠ catalogRef → shard_step w w' sh → still d w sh → still d w' sh.
Proof.
  intros Hne Hst. apply shard_step_quieter; [done|]. intros ? ? ? [Hp Hi]. destruct (ss_image _ _ _ Hst) as [? Hi']; [done..|].
  split; [done|]. by rewrite Hi'.
Qed.

(** ** Steps keep it *)

Lemma evolves_of_step w w' :
  rtc db_evolves (b_dbs w) (b_dbs w') → b_points w' = b_points w → (∀ sh, shard_step w w' sh) →
  (∀ n, is_Some (b_rps w !! n) → is_Some (b_rps w' !! n)) → b_seq w ≤ b_seq w' →
  (b_seq w' = b_seq w → nonePreparing (b_dbs w) → nonePreparing (b_dbs w')) → evolves w w'.
Proof.
  intros Hd Hp Hsh Hr Hs Hn. split; try done.
  - intros sh. apply (ss_server _ _ _ (Hsh sh)).
  - intros sh t. by apply shard_step_held.
  - intros sh. by apply shard_step_calmed.
  - intros sh. by apply shard_step_quiet.
  - intros d sh Hne. by apply shard_step_still.
  - intros n [Hle Hor]. split; [lia|]. destruct (decide (b_seq w' = b_seq w)) as [He|]; [|left; lia].
    destruct Hor as [?|?]; [left; lia|right; auto].
Qed.

(** What certified restore points rest on only grows. *)
Record grows (w w' : world) : Prop := {
  gr_dbs : rtc db_evolves (b_dbs w) (b_dbs w');
  gr_points : ∀ sh n i, recoverTo w sh n = Some i → recoverTo w' sh n = Some i;
  gr_servers : ∀ sh s, b_servers w !! sh = Some s → ∃ s', b_servers w' !! sh = Some s' ∧ s_archived s ⊆ s_archived s' }.

Lemma isArchived_grows w w' sh seg : grows w w' → isArchived w sh seg → isArchived w' sh seg.
Proof.
  intros Hg (s & Hs & t & n & -> & Ha). destruct (gr_servers _ _ Hg sh s Hs) as (s' & Hs' & Hsub). exists s'. split; [done|].
  exists t, n. split; [done|]. by apply Hsub.
Qed.
Lemma sound_grows w w' n groups : grows w w' → sound w n groups → sound w' n groups.
Proof.
  intros He (d & Hd & H0 & H1 & Hp & Hc & Hg). exists d. split_and!; [done|done|by etrans; [|apply He]|done..|].
  intros g p Hgp. destruct (Hg g p Hgp) as (sh & -> & [Hb Hnp] & Ha). exists sh. split; [done|].
  split; [split; [by apply He|done]|by eapply isArchived_grows].
Qed.
Lemma Inv_grows w w' :
  Inv w → grows w w' → seen (b_dbs w') → listing groupName (b_groups w') →
  (∀ pid o, b_sessions w' !! pid = Some o → (o_copy o = true → o_rw o = false) ∧ o_start o ≤ b_clock w') →
  (∀ sh s, b_servers w' !! sh = Some s → serverOk s) →
  (∀ sh l n i, b_points w' !! sh = Some l → (n, i) ∈ l → ∃ b, n = RestorePointName b ∧ is_Some (b_rps w' !! b)) →
  (∀ n r, b_rps w' !! n = Some r → r_certified r = true → b_rps w !! n = Some r ∨ sound w' n (r_groups r)) → Inv w'.
Proof.
  intros Hi He Hse Hl Hc Hs Hp Hr. split; try done.
  - etrans; [apply Hi|apply He].
  - intros n r Hn Hcert. destruct (Hr n r Hn Hcert) as [Hw|]; [|done]. eapply sound_grows; [done|]. by eapply (inv_certified _ Hi n r).
Qed.

Lemma evolves_grows w w' : evolves w w' → grows w w'.
Proof.
  intros He. split; [apply He| |].
  - intros sh n i. unfold recoverTo. by rewrite (ev_points _ _ He).
  - intros sh s Hs. destruct (ev_servers _ _ He sh s Hs) as (s' & Hs' & Hm). exists s'. split; [done|apply Hm].
Qed.
Lemma Inv_evolves w w' :
  Inv w → evolves w w' → seen (b_dbs w') → listing groupName (b_groups w') →
  (∀ pid o, b_sessions w' !! pid = Some o → (o_copy o = true → o_rw o = false) ∧ o_start o ≤ b_clock w') →
  (∀ sh s, b_servers w' !! sh = Some s → serverOk s) →
  (∀ n r, b_rps w' !! n = Some r → r_certified r = true → b_rps w !! n = Some r) → Inv w'.
Proof.
  intros Hi He Hse Hl Hc Hs Hr. eapply Inv_grows; [done|by apply evolves_grows|done..| |by auto].
  rewrite (ev_points _ _ He). intros sh l n i Hp Hin. destruct (inv_points _ Hi sh l n i Hp Hin) as (b & -> & Hb).
  exists b. split; [done|]. by apply (ev_reserved _ _ He).
Qed.

Lemma shard_step_servers w w' sh :
  b_dbs w' = b_dbs w → b_sessions w' = b_sessions w →
  (∀ s, b_servers w !! sh = Some s → ∃ s', b_servers w' !! sh = Some s' ∧ server_moves s s') → shard_step w w' sh.
Proof. intros Ed Es Hs. split; rewrite ?Ed, ?Es; auto. intros _ pid o ? ? ?. by exists pid, o. Qed.
(** Sessions and databases move, the servers stay. *)
Lemma shard_step_stays w w' sh :
  b_servers w' = b_servers w →
  (effective w sh = Some true → ∀ pid o', b_sessions w' !! pid = Some o' → o_group o' = sh → o_rw o' = true →
    ∃ pid' o, b_sessions w !! pid' = Some o ∧ o_group o = sh ∧ o_rw o = true ∧ o_start o = o_start o') →
  (noneRW w sh → noneActive (b_dbs w) sh → noneActive (b_dbs w') sh ∧ (nonePrepared (b_dbs w) sh →
    nonePrepared (b_dbs w') sh ∧ (sh ≠ catalogRef → imageOf (b_dbs w') sh = imageOf (b_dbs w) sh))) → shard_step w w' sh.
Proof.
  intros Es Hs Hd. split; [rewrite Es; intros s ?; exists s; split; [done|apply server_moves_refl]|done|intros; by apply Hd|intros; by apply Hd].
Qed.

(** Nothing of the databases, the sessions and the servers changes. *)
Lemma barrier_aside_keeps w w' :
  b_dbs w' = b_dbs w → b_seq w' = b_seq w → b_sessions w' = b_sessions w → b_servers w' = b_servers w → b_points w' = b_points w →
  (∀ n, is_Some (b_rps w !! n) → is_Some (b_rps w' !! n)) →
  (∀ n r, b_rps w' !! n = Some r → r_certified r = true → b_rps w !! n = Some r) →
  listing groupName (b_groups w') → b_clock w ≤ b_clock w' → Inv w → Inv w' ∧ evolves w w'.
Proof.
  intros Ed Eq Ese Esv Ep Hr Hc Hl Ht Hi.
  assert (evolves w w') as He.
  { apply evolves_of_step; rewrite ?Ed, ?Eq; auto; [done| |done]. intros sh. apply shard_step_servers; [done..|].
    rewrite Esv. intros s ?. exists s. split; [done|apply server_moves_refl]. }
  split; [|done]. eapply Inv_evolves; [done|done|rewrite Ed; apply Hi|done| | |done]; rewrite ?Ese, ?Esv; [|apply Hi].
  intros pid o Ho. destruct (inv_sessions _ Hi pid o Ho). split; [done|lia].
Qed.

Lemma server_keeps w sh s s' :
  b_servers w !! sh = Some s → serverOk s' → server_moves s s' → Inv w →
  let w' := {| w with b_servers := <[sh := s']> (b_servers w) |} in Inv w' ∧ evolves w w'.
Proof.
  intros Hs Hok Hm Hi w'.
  assert (evolves w w') as He.
  { apply evolves_of_step; auto; [done| |done]. intros sh'. apply shard_step_servers; [done..|]. cbn. intros s0 Hs0.
    destruct (decide (sh' = sh)) as [->|Hne].
    - rewrite lookup_insert_eq. simplify_eq. eauto.
    - rewrite lookup_insert_ne by done. exists s0. split; [done|apply server_moves_refl]. }
  split; [|done]. eapply Inv_evolves; [done..|by apply Hi|by apply Hi|by apply Hi| |done]. cbn. intros sh' s0.
  destruct (decide (sh' = sh)) as [->|Hne]; [rewrite lookup_insert_eq; by intros [= <-]|].
  rewrite lookup_insert_ne by done. apply Hi.
Qed.

(** Sessions and databases move. *)
Lemma client_keeps w sessions dbs seq :
  let w' := {| w with b_sessions := sessions; b_dbs := dbs; b_seq := seq |} in
  rtc db_evolves (b_dbs w) dbs → seen dbs → (∀ sh, shard_step w w' sh) →
  (∀ pid o, sessions !! pid = Some o → (o_copy o = true → o_rw o = false) ∧ o_start o ≤ b_clock w) →
  b_seq w ≤ seq → (seq = b_seq w → nonePreparing (b_dbs w) → nonePreparing dbs) → Inv w → Inv w' ∧ evolves w w'.
Proof.
  intros w' Hd Hse Hsh Hc Hq Hn Hi. assert (evolves w w') as He by by apply evolves_of_step.
  split; [|done]. eapply Inv_evolves; [done..|by apply Hi|done|by apply Hi|done].
Qed.

(** A session goes, and with it something happens on its shard. *)
Lemma session_moves w pid o dbs :
  let w' := {| w with b_sessions := delete pid (b_sessions w); b_dbs := dbs |} in
  b_sessions w !! pid = Some o → o_rw o = true → db_evolves (b_dbs w) dbs → seen dbs →
  (∀ sh, sh ≠ o_group o → noneActive (b_dbs w) sh → noneActive dbs sh ∧ (nonePrepared (b_dbs w) sh →
    nonePrepared dbs sh ∧ (sh ≠ catalogRef → imageOf dbs sh = imageOf (b_dbs w) sh))) →
  (nonePreparing (b_dbs w) → nonePreparing dbs) → Inv w → Inv w' ∧ evolves w w'.
Proof.
  intros w' Ho Hrw Hd Hse Hsh Hn Hi. apply (client_keeps w _ dbs (b_seq w)); [by apply rtc_once|done| | |done|auto|done].
  - intros sh. apply shard_step_stays; [done| |].
    + cbn. intros _ p o' [_ Ho']%lookup_delete_Some ? ?. by exists p, o'.
    + intros Hnr Ha. destruct (decide (sh = o_group o)) as [->|Hne]; [|by apply Hsh]. by rewrite (Hnr pid o) in Hrw.
  - intros p o' [_ Ho']%lookup_delete_Some. by apply (inv_sessions _ Hi p).
Qed.
Lemma sessions_keep w sessions :
  let w' := {| w with b_sessions := sessions |} in
  (∀ pid o', sessions !! pid = Some o' → ((o_copy o' = true → o_rw o' = false) ∧ o_start o' ≤ b_clock w) ∧
    ((∃ o, b_sessions w !! pid = Some o ∧ o_group o = o_group o' ∧ o_rw o = o_rw o' ∧ o_start o = o_start o') ∨
     o_rw o' = false ∨ effective w (o_group o') = Some false)) → Inv w → Inv w' ∧ evolves w w'.
Proof.
  intros w' Hs Hi. apply (client_keeps w sessions (b_dbs w) (b_seq w)); [done|by apply Hi| |intros pid o' Ho; by apply (Hs pid)|done|auto|done].
  intros sh. apply shard_step_stays; [done| |by auto]. cbn. intros He pid o' Ho Hg Hrw.
  destruct (Hs pid o' Ho) as [_ [(o & ? & ? & ? & ?)|[?|?]]]; [|congruence..]. exists pid, o. split_and!; congruence.
Qed.

Lemma image_eq d d' sh :
  sh ≠ catalogRef → persisted (d_tp d') sh = persisted (d_tp d) sh → commitsOn d' sh = commitsOn d sh →
  d_foreign d' !! sh = d_foreign d !! sh → imageOf d' sh = imageOf d sh.
Proof. intros Hne Hp Hc Hf. unfold imageOf. rewrite Hp, Hc, Hf. by rewrite !decide_False. Qed.

Lemma commitsOn_other d d' sh sh' n : d_commits d' = d_commits d ++ [(sh', n)] → sh ≠ sh' → commitsOn d' sh = commitsOn d sh.
Proof.
  intros He Hne. unfold commitsOn. rewrite He, omap_app. cbn. rewrite decide_False by done. apply app_nil_r.
Qed.

Lemma env_2pc_keeps w tp procs seq :
  TwoPhase.sys_step db_step (d_tp (b_dbs w), d_procs (b_dbs w)) (tp, procs) →
  no_birth (d_tp (b_dbs w)) tp → b_seq w ≤ seq →
  (∀ g, w_rows (d_tp (b_dbs w)) !! g = None → is_Some (w_rows tp !! g) → b_seq w < seq) → Inv w →
  let w' := {| w with b_dbs := {| (b_dbs w) with d_tp := tp; d_procs := procs |}; b_seq := seq |} in seen (b_dbs w') → Inv w' ∧ evolves w w'.
Proof.
  intros Hst Hb Hq Hnew Hi w' Hse. destruct (sys_step_trans _ _ _ _ _ Hst) as [Ht Hrows].
  apply (client_keeps w (b_sessions w) _ seq); [by apply rtc_once, dbe_2pc|done| |by apply Hi|done| |done].
  - intros sh. apply shard_step_stays; [done|intros _ p o ? ? ?; by exists p, o|]. intros _ Ha. destruct (idle_shard_stays _ _ sh Ht Hb Ha) as [Ha' Hp].
    split; [done|]. intros [Hp1 Hp2]. destruct (Hp Hp1) as [Hp1' He]. split; [done|]. intros Hne. by apply image_eq.
  - intros -> Hn g r Hg Hs. destruct (Hrows g r Hg Hs) as [Hnone|(x & Hx & Hsx)]; [|by apply (Hn g x)].
    specialize (Hnew g Hnone (mk_is_Some _ _ Hg)). lia.
Qed.

Ltac aside Hi := apply barrier_aside_keeps; [reflexivity..|done|done|first [done|apply (inv_groups _ Hi)]|cbn; lia|exact Hi].
Lemma barrier_env_keeps w w' : env_seen w w' → Inv w → Inv w' ∧ evolves w w'.
Proof.
  intros [He Hse'] Hi. assert (seen (b_dbs w')) as Hse by (destruct Hse' as [->|?]; [apply Hi|done]). clear Hse'. destruct He as [tp procs seq Hst Hb Hq Hnew|pid sh rw copy on Hp Hon Hrw|pid o Ho Hrw|pid|pid o n Ho Hrw|pid o g db xid Ho Hrw Ht
    |pid o g Ho Hrw|sh gs g commit n Hf Hg|sh s s' Hs Hst|l Hl|c l|f|n|b|n r Hr Hc|t|b c r|n Hn];
    [by apply env_2pc_keeps| | | | | | | | |aside Hi|aside Hi|aside Hi|aside Hi|aside Hi| |aside Hi|aside Hi|aside Hi].
  - apply sessions_keep; [|done]. intros p o'. destruct (decide (p = pid)) as [->|Hne].
    + rewrite lookup_insert_eq. intros [= <-]. cbn. split; [split; [destruct rw, copy; naive_solver|done]|]. destruct rw; [|auto]. right. right. by destruct (Hrw eq_refl) as [-> _].
    + rewrite lookup_insert_ne by done. intros Ho. split; [by apply (inv_sessions _ Hi p)|]. left. by exists o'.
  - apply sessions_keep; [|done]. intros p o'. destruct (decide (p = pid)) as [->|Hne].
    + rewrite lookup_insert_eq. intros [= <-]. cbn. split; [by apply (inv_sessions _ Hi pid)|]. left. by exists o.
    + rewrite lookup_insert_ne by done. intros Ho'. split; [by apply (inv_sessions _ Hi p)|]. left. by exists o'.
  - apply sessions_keep; [|done]. intros p o' [_ Ho]%lookup_delete_Some. split; [by apply (inv_sessions _ Hi p)|]. left. by exists o'.
  - eapply session_moves; [done..|by apply dbe_commit|done| |done|done]. intros sh Hne Ha. split; [done|]. intros Hp. split; [done|].
    intros Hc. apply image_eq; try done. by eapply commitsOn_other.
  - eapply session_moves; [done..| |done| |done|done].
    + apply (dbe_2pc _ (b_dbs w) _ (d_procs (b_dbs w))). by apply TwoPhase.sys_env, env_first_write.
    + intros sh Hne Ha. assert (∀ g', w_txns (set_txn (d_tp (b_dbs w)) (o_group o) g (TActive db xid)) !! (sh, g') = w_txns (d_tp (b_dbs w)) !! (sh, g')) as Hsame
        by (intros g'; cbn; rewrite lookup_insert_ne; congruence).
      split; [intros g' db' x'; cbn [d_tp]; rewrite Hsame; apply Ha|]. intros [Hp1 Hp2].
      split; [split; [intros g' db'; cbn [d_tp]; rewrite Hsame; apply Hp1|done]|]. intros Hc. apply image_eq; try done.
      cbn [d_tp]. apply map_eq. intros g'. by rewrite !persisted_lookup, Hsame.
  - eapply session_moves; [done..|by apply dbe_foreign|done| |done|done]. intros sh Hne Ha. split; [done|]. intros [Hp1 Hp2].
    split; [split; [done|cbn; by rewrite lookup_insert_ne]|]. intros Hc. apply image_eq; try done. cbn. by rewrite lookup_insert_ne.
  - set (d1 := {| (b_dbs w) with d_foreign := <[sh := gs ∖ {[g]}]> (d_foreign (b_dbs w)) |}).
    apply (client_keeps w (b_sessions w) _ (b_seq w)); [|done| |by apply Hi|done|done|done].
    + apply (rtc_l _ _ d1); [apply dbe_foreign|]. destruct commit; [apply rtc_once, (dbe_commit _ d1)|done].
    + intros sh'. apply shard_step_stays; [done|intros _ p o ? ? ?; by exists p, o|]. intros _ Ha. split; [done|]. intros [Hp1 Hp2].
      destruct (decide (sh' = sh)) as [->|Hne]; [rewrite Hf in Hp2; set_solver|].
      split; [split; [done|cbn; by rewrite lookup_insert_ne]|]. intros Hc. apply image_eq; try done; [|cbn; by rewrite lookup_insert_ne].
      destruct commit; [by eapply commitsOn_other|done].
  - destruct (server_step_moves s s' Hst) as [Hok Hm]; [by apply (inv_servers _ Hi sh)|]. by eapply server_keeps.
  - apply barrier_aside_keeps; try done; [| |by apply Hi]; cbn.
    + intros m Hm. destruct (decide (m = n)) as [->|]; [by rewrite lookup_insert_eq|by rewrite lookup_insert_ne].
    + intros m r'. destruct (decide (m = n)) as [->|]; [rewrite lookup_insert_eq; intros [= <-]; congruence|by rewrite lookup_insert_ne].
Qed.

Lemma barrier_tick_keeps d (w : world) : Inv w → Inv (tick d w).2 ∧ evolves w (tick d w).2.
Proof. intros Hi. aside Hi. Qed.

Definition barrier_rely : rely world err := Rely env_seen Inv evolves barrier_env_keeps barrier_evolves_refl barrier_tick_keeps.
End Safety.
