(* ===== verification/BarrierProof.v ===== *)
(** * What a barrier certifies

    Triples for the operations of [Barrier]: what the pause, the drains, the
    points, the archive and the verification each establish, down to a
    certified restore point that one moment of all databases is behind. *)

From S2P Require Import Prelude TwoPhase Atomicity Prog Triples Archive BarrierWorld Barrier BarrierDb BarrierSafety.

Local Open Scope Z_scope.

Create HintDb barrier.

Section Proof.
Context (db_step : TwoPhase.world → op → TwoPhase.world → resp → Prop) `{!Sql db_step} (groupName : ShardRef → string) (d0 : databases) (seen : databases → Prop) (b : Barrier).
Context `{!Inj (=) (=) groupName}.
Local Notation R := (barrier_rely db_step groupName d0 seen).
Local Notation env := (env db_step groupName).
Local Notation db_evolves := (db_evolves db_step).
Local Notation Inv := (Inv db_step groupName d0 seen).
Local Notation evolves := (evolves db_step).
Local Notation triple := (triple R).
Local Notation placid := (placid R).
Local Notation closed := (closed R).
Local Notation brings := (brings).
Local Notation sound := (sound db_step groupName d0 seen).

(** ** Statements that change nothing of consequence *)

Definition asideS {X} (f : world → result err X * world) : Prop := ∀ w,
  let w' := (f w).2 in
  b_dbs w' = b_dbs w ∧ b_seq w' = b_seq w ∧ b_sessions w' = b_sessions w ∧ b_servers w' = b_servers w ∧ b_points w' = b_points w ∧
  b_groups w' = b_groups w ∧ b_clock w' = b_clock w ∧
  (b_rps w' = b_rps w ∨ ∃ n r, r_certified r = false ∧ b_rps w' = <[n := r]> (b_rps w) ∧
     ∀ r', b_rps w !! n = Some r' → r_certified r' = false).
Lemma placid_aside {X} (f : world → result err X * world) : asideS f → placid (stmt f).
Proof.
  intros Hf. apply placid_stmt. intros w Hi. destruct (Hf w) as (E1 & E2 & E3 & E4 & E5 & E6 & E7 & Hr).
  apply barrier_aside_keeps; try done.
  - destruct Hr as [->|(n & r & _ & -> & _)]; [done|]. intros m Hm.
    destruct (decide (m = n)) as [->|]; [by rewrite lookup_insert_eq|by rewrite lookup_insert_ne].
  - destruct Hr as [->|(n & r & Hc & -> & _)]; [done|]. intros m r'.
    destruct (decide (m = n)) as [->|]; [rewrite lookup_insert_eq; intros [= <-]; congruence|by rewrite lookup_insert_ne].
  - rewrite E6. apply Hi.
  - by rewrite E7.
Qed.
(** A statement on one server. *)
Lemma placid_onServer {X} g (f : server → X * server) :
  (∀ s, serverOk s → serverOk (f s).2 ∧ server_moves s (f s).2) → placid (onServer g f).
Proof.
  intros Hf. apply placid_stmt. intros w Hi. destruct (b_servers w !! ref g) as [s|] eqn:Hs; [|split; [done|apply barrier_evolves_refl]].
  destruct (Hf s) as [? ?]; [by eapply Hi|]. by eapply server_keeps.
Qed.

Ltac aside := apply placid_aside; intros w; repeat case_match; cbn; split_and!; first [done|by left|right].

Lemma Lock_placid : placid Lock.
Proof. aside. Qed.
Lemma unlock_placid : placid unlock.
Proof. aside. Qed.
Lemma Fence_placid a r o : placid (Fence a r o).
Proof. unfold Fence. destruct a; [aside|]. apply placid_bind; [aside|done]. Qed.
Lemma ClearStale_placid : placid ClearStaleBarrierFence.
Proof. aside. Qed.
Lemma fenceOwner_placid : placid fenceOwner.
Proof. aside. Qed.
Lemma Fail_placid n e : placid (Fail n e).
Proof.
  apply placid_aside. intros w. destruct (b_rps w !! n) as [r|] eqn:E; [destruct (r_certified r) eqn:Ec|]; cbn; split_and!; try done; try (by left).
  right. exists n, {| r with r_error := Some e |}. split_and!; [exact Ec|by rewrite <- Ec|]. intros r'. rewrite E. by intros [= <-].
Qed.
Lemma Reserve_placid n : placid (Reserve n).
Proof.
  apply placid_aside. intros w. destruct (b_rps w !! n) as [r|] eqn:E; cbn; split_and!; try done; [by left|].
  right. do 2 eexists. split_and!; [|done|]; [done|]. intros r'. by rewrite E.
Qed.
Lemma askServer_placid {X} g (f : world → server → result err X) : placid (askServer g f).
Proof. apply placid_ask. Qed.
Lemma reload_placid g : placid (reloadConf g).
Proof. apply placid_bind; [apply placid_ask|]. by intros []. Qed.
Lemma lift_placid g : placid (alterSystem g false).
Proof.
  apply placid_onServer. intros s [? ? ? ? ?]. split; [by split|]. split; cbn; try done; unfold dead; cbn; [by intros [_ ?]|]. intros ->. by left.
Qed.
Lemma switchWal_placid g : placid (switchWal g).
Proof.
  apply placid_onServer. intros s Hs. cbn. case_decide; [|split; [done|apply server_moves_refl]]. apply server_step_moves; [by constructor|done].
Qed.
Lemma commitStatus_placid : placid commitStatus.
Proof. apply placid_ask. Qed.
Lemma resolverPass_placid : placid resolverPass.
Proof. apply placid_ask. Qed.
Lemma sleep_placid d : placid (sleep d).
Proof. by intros ?. Qed.
Lemma now_placid : placid now.
Proof. by intros ?. Qed.
End Proof.
#[export] Hint Resolve Lock_placid unlock_placid Fence_placid ClearStale_placid fenceOwner_placid Fail_placid Reserve_placid
  askServer_placid reload_placid lift_placid switchWal_placid commitStatus_placid resolverPass_placid sleep_placid now_placid : barrier.

Ltac placid_step :=
  match goal with
  | |- placid _ (mbind _ _) => apply placid_bind; [|intros]
  | |- placid _ (attempt _) => apply placid_attempt
  | |- placid _ (ask _) => apply placid_ask
  | |- placid _ (mret _) => exact I
  | |- placid _ (fail _) => exact I
  | |- placid _ _ => solve [auto with barrier]
  | |- placid _ (match ?x with _ => _ end) => destruct x
  | |- placid _ ((match ?x with _ => _ end) _) => destruct x
  end.
Ltac placid := repeat placid_step.

Section Placid.
Context (db_step : TwoPhase.world → op → TwoPhase.world → resp → Prop) `{!Sql db_step} (groupName : ShardRef → string) (d0 : databases) (seen : databases → Prop) (b : Barrier).
Local Notation placid := (placid (barrier_rely db_step groupName d0 seen)).

Lemma wrap_placid {A} s (x : M A) : placid x → placid (wrap s x).
Proof. intros Hx. unfold wrap. placid. Qed.
Hint Resolve wrap_placid : barrier.
Lemma nap_placid d : placid (nap d).
Proof. unfold nap. placid. Qed.
Hint Resolve nap_placid : barrier.
Lemma settleFence_placid : placid (settleFence b).
Proof. unfold settleFence. placid. Qed.
Lemma pollSleep_placid : placid (pollSleep b).
Proof. unfold pollSleep. placid. Qed.
Hint Resolve settleFence_placid pollSleep_placid : barrier.
Lemma PreparedGIDs_placid g : placid (PreparedGIDs g).
Proof. apply placid_ask. Qed.
Lemma SubscriptionCount_placid g : placid (SubscriptionCount g).
Proof. apply placid_ask. Qed.
Lemma PauseEffective_placid g : placid (PauseEffective g).
Proof. apply placid_ask. Qed.
Lemma WritersSince_placid g t : placid (WritersSince g t).
Proof. apply placid_ask. Qed.
Lemma ArchivedThrough_placid g : placid (ArchivedThrough g).
Proof. apply placid_ask. Qed.
Hint Resolve PreparedGIDs_placid SubscriptionCount_placid PauseEffective_placid WritersSince_placid ArchivedThrough_placid : barrier.
Lemma checkSubscriptions_placid gs : placid (checkSubscriptions gs).
Proof. induction gs as [|g gs IH]; cbn [checkSubscriptions]; placid. Qed.
Lemma resume_placid g : placid (resume g).
Proof. unfold resume. placid. Qed.
Hint Resolve checkSubscriptions_placid resume_placid : barrier.
Lemma resumeAll_placid gs first : placid (resumeAll gs first).
Proof.
  revert first. induction gs as [|g gs IH]; intros first; cbn [resumeAll]; [placid|].
  destruct (Catalog g) eqn:Hc; [done|]. unfold PauseWrites. rewrite Hc. cbn [negb andb]. placid.
Qed.
Hint Resolve resumeAll_placid : barrier.
Lemma preparedSomewhere_placid gs : placid (preparedSomewhere gs).
Proof. induction gs as [|g gs IH]; cbn [preparedSomewhere]; placid. Qed.
Hint Resolve preparedSomewhere_placid : barrier.
Lemma inFlight_placid gs : placid (inFlight gs).
Proof. unfold inFlight, PreparingCount. placid. Qed.
Hint Resolve inFlight_placid : barrier.
Lemma drainLoop_placid n gs t : placid (drainLoop b n gs t).
Proof. induction n as [|n IH]; cbn [drainLoop]; placid. Qed.
Hint Resolve drainLoop_placid : barrier.
Lemma drain_placid gs : placid (drain b gs).
Proof. unfold drain. placid. Qed.
Lemma busyWriters_placid gs at_ : placid (busyWriters gs at_).
Proof. induction gs as [|g gs IH]; cbn [busyWriters]; placid. Qed.
Hint Resolve busyWriters_placid : barrier.
Lemma drainWritersLoop_placid n gs at_ t : placid (drainWritersLoop b n gs at_ t).
Proof. induction n as [|n IH]; cbn [drainWritersLoop]; placid. Qed.
Hint Resolve drainWritersLoop_placid : barrier.
Lemma drainWriters_placid gs at_ : placid (drainWriters b gs at_).
Proof. unfold drainWriters. placid. Qed.
Lemma anyPaused_placid gs : placid (anyPaused gs).
Proof. induction gs as [|g gs IH]; cbn [anyPaused]; placid. Qed.
Hint Resolve anyPaused_placid : barrier.
Lemma Recover_placid : placid (Recover b).
Proof. unfold Recover, FenceRaised, FencedAt, recoverLocked, List. placid. Qed.
End Placid.
#[export] Hint Resolve wrap_placid nap_placid settleFence_placid pollSleep_placid PreparedGIDs_placid SubscriptionCount_placid PauseEffective_placid
  WritersSince_placid ArchivedThrough_placid checkSubscriptions_placid resumeAll_placid inFlight_placid drain_placid drainWriters_placid Recover_placid : barrier.

(** ** The pause and the drains *)

Section Specs.
Context (db_step : TwoPhase.world → op → TwoPhase.world → resp → Prop) `{!Sql db_step} (groupName : ShardRef → string) (d0 : databases) (seen : databases → Prop) (b : Barrier).
Context `{!Inj (=) (=) groupName}.
Local Notation R := (barrier_rely db_step groupName d0 seen).
Local Notation db_evolves := (db_evolves db_step).
Local Notation Inv := (Inv db_step groupName d0 seen).
Local Notation triple := (triple R).
Local Notation placid := (placid R).
Local Notation closed := (closed R).
Local Notation sound := (sound db_step groupName d0 seen).

Definition eachShard (gs : list GroupRef) (P : GroupRef → world → Prop) (w : world) : Prop :=
  ∀ g, g ∈ gs → Catalog g = false → P g w.
Lemma eachShard_closed gs P : (∀ g, g ∈ gs → Catalog g = false → closed (P g)) → closed (eachShard gs P).
Proof. intros HP w w' He H g Hg Hc. eapply HP; eauto. Qed.
Lemma eachShard_cons g gs P w : (Catalog g = false → P g w) → eachShard gs P w → eachShard (g :: gs) P w.
Proof. intros Hg Hgs h [->|Hh]%elem_of_cons Hc; auto. Qed.

Lemma held_closed sh t : closed (λ w, held w sh t).
Proof. intros w w' He. apply He. Qed.
Lemma calmed_closed sh : closed (λ w, calmed w sh).
Proof. intros w w' He. apply He. Qed.
Lemma quiet_closed sh : closed (λ w, quiet w sh).
Proof. intros w w' He. apply He. Qed.
Lemma settled_closed n : closed (settledAt n).
Proof. intros w w' He. apply He. Qed.
Lemma seq_closed n : closed (λ w, n ≤ b_seq w).
Proof. intros w w' He Hn. pose proof (ev_seq _ _ _ He). lia. Qed.

(** The groups of a listing: names and references go together. *)
Definition named (gs : list GroupRef) : Prop :=
  NoDup (ref <$> gs) ∧ ∀ g, g ∈ gs → Catalog g = false → Name g = groupName (ref g).
Lemma named_names gs g h : named gs → g ∈ gs → h ∈ gs → Catalog g = false → Catalog h = false → Name g = Name h → ref g = ref h.
Proof. intros [_ Hn] Hg Hh Cg Ch He. apply (inj groupName). by rewrite <- !Hn. Qed.

Definition heldAll (gs : list GroupRef) (at_ : gmap string Z) (w : world) : Prop :=
  ∀ g, g ∈ gs → Catalog g = false → Retired g = false → held w (ref g) (default 0 (at_ !! Name g)).
Lemma heldAll_closed gs at_ : closed (heldAll gs at_).
Proof. intros w w' He H g ? ? ?. apply He. auto. Qed.

(** An error gets its context, nothing else. *)
Lemma triple_wrap {A} (P : world → Prop) s (x : M A) (Q : A → world → Prop) (F : world → Prop) :
  triple P x (λ r w, match r with Ok a => Q a w | Err _ => F w end) →
  triple P (wrap s x) (λ r w, match r with Ok a => Q a w | Err _ => F w end).
Proof.
  intros Hx. unfold wrap. eapply triple_try; [exact Hx|]. intros [a|e]; [by apply triple_ret|by apply triple_fail].
Qed.

(** Beside the pauses, what does not depend on the servers is kept. *)
Section Pause.
Context (F : world → Prop) (F_closed : closed F) (F_servers : ∀ w v, F w → F {| w with b_servers := v |}).
Definition heldF (gs : list GroupRef) (at_ : gmap string Z) (w : world) : Prop := heldAll gs at_ w ∧ F w.
Lemma heldF_closed gs at_ : closed (heldF gs at_).
Proof. apply closed_and; [apply heldAll_closed|done]. Qed.

Lemma raise_spec g done at_ :
  ref g ∉ ref <$> done → triple (heldF done at_) (alterSystem g true) (λ _, heldF done at_).
Proof.
  intros Hg. apply triple_stmt; [apply heldF_closed|]. intros w Hi [Hw Hf].
  destruct (b_servers w !! ref g) as [s|] eqn:Hs; cbn; [|by auto].
  set (w' := {| w with b_servers := _ |}). assert (heldF done at_ w') as Hw'.
  { split; [|by apply F_servers]. intros h Hh Hc Hr. destruct (Hw h Hh Hc Hr) as (s' & Hs' & Hd). exists s'. split; [|exact Hd]. cbn.
    rewrite lookup_insert_ne; [done|]. intros He. apply Hg. rewrite He. by apply list_elem_of_fmap_2. }
  split; [|split; [done|intros e _; by split]].
  eapply (Inv_grows _ _ _ _ w); [done|split; [done|done|]|by apply Hi|by apply Hi|by apply Hi| |by apply Hi|by auto]; cbn; intros sh s'.
  - destruct (decide (sh = ref g)) as [->|]; [rewrite lookup_insert_eq; intros ?; simplify_eq; by eexists|rewrite lookup_insert_ne by done; eauto].
  - destruct (decide (sh = ref g)) as [->|]; [rewrite lookup_insert_eq; intros [= <-]|rewrite lookup_insert_ne by done; apply Hi].
    destruct (inv_servers _ _ _ _ _ Hi _ _ Hs). by split.
Qed.
Lemma confirm_spec n g dl P :
  closed P → triple P (confirmPause n g dl) (λ r w, P w ∧ ∀ t, r = Ok t → held w (ref g) t).
Proof.
  intros HP. induction n as [|n IH]; cbn [confirmPause]; [by apply triple_fail|].
  eapply (triple_bind _ _ _ _ (λ r w, P w ∧ ∀ t, r = Ok (true, t) → held w (ref g) t)).
  - apply triple_ask; [done|]. intros w Hi Hw. split; [|by auto]. split; [done|].
    destruct (b_servers w !! ref g) as [s|] eqn:Hs; [|done]. intros t Heq. injection Heq as He Ht. subst t. exists s. split; [done|]. right. split; [done|].
    intros pid o Ho _ _. by destruct (inv_sessions _ _ _ _ _ Hi pid o Ho).
  - intros [[] t]; [apply triple_ret; intros w _ [? H]; split; [done|]; intros t' Heq; injection Heq as <-; by apply H|].
    apply (triple_conseq _ P _ _ (λ r w, P w ∧ ∀ t, r = Ok t → held w (ref g) t)); [by intros w _ [? _]|done|].
    apply triple_now_bind; [done|]. intros t'. case_match; [by apply triple_fail|]. by apply triple_sleep_bind.
  - intros e w _ [? _]. done.
Qed.
Lemma pause_spec g done at_ :
  ref g ∉ ref <$> done → Catalog g = false →
  triple (heldF done at_) (PauseWrites g true) (λ r w, heldF done at_ w ∧ ∀ t, r = Ok t → held w (ref g) t).
Proof.
  intros Hg Hc. unfold PauseWrites. cbn [negb andb]. pose proof (heldF_closed done at_) as Hcl.
  eapply triple_bind; [by apply raise_spec| |done]. intros ?.
  apply triple_placid_bind; [done|auto with barrier| |done]. intros _.
  apply triple_now_bind; [done|]. intros t. by apply confirm_spec.
Qed.

Lemma pauseEach_spec gs done at_ :
  named (done ++ gs) →
  triple (heldF done at_) (pauseEach gs at_) (λ r w, ∀ at', r = Ok at' → heldF (done ++ gs) at' w).
Proof.
  revert done at_. induction gs as [|g gs IH]; intros done at_ Hn; cbn [pauseEach].
  - apply triple_ret. rewrite app_nil_r. intros w _ Hw at' [= <-]. done.
  - pose proof (IH (done ++ [g])) as IHg. rewrite <- app_assoc in IHg. cbn in IHg.
    destruct (Catalog g || Retired g) eqn:Hs.
    { apply (triple_conseq _ (heldF (done ++ [g]) at_) _ _ (λ r w, ∀ at', r = Ok at' → heldF (done ++ g :: gs) at' w)); [|done|by apply IHg].
      intros w _ [Hw Hf]. split; [|done]. intros h [Hh|Hh]%elem_of_app Hc Hr; [auto|]. apply list_elem_of_singleton in Hh as ->. by rewrite Hc, Hr in Hs. }
    apply orb_false_iff in Hs as [Hc Hr].
    assert (ref g ∉ ref <$> done) as Hg.
    { destruct Hn as [Hnd _]. rewrite fmap_app in Hnd. apply NoDup_app in Hnd as (_ & Hnd & _). intros Hin. apply (Hnd _ Hin). cbn. by left. }
    eapply (triple_bind _ _ _ _ (λ r w, match r with Ok t => heldF (done ++ [g]) (<[Name g := t]> at_) w | Err _ => True end)); [| |done].
    + apply triple_wrap. apply (triple_conseq _ (heldF done at_) _ _ (λ r w, heldF done at_ w ∧ ∀ t, r = Ok t → held w (ref g) t)); [done| |by apply pause_spec].
      intros [t|e] w _ [[Hw Hf] Ht]; [|done]. split; [|done]. intros h [Hh|Hh]%elem_of_app Hch Hrh.
      * rewrite lookup_insert_ne; [by apply Hw|]. intros He. apply Hg.
        rewrite (named_names (done ++ g :: gs) g h); [by apply list_elem_of_fmap_2|done|set_solver..|done|done|done].
      * apply list_elem_of_singleton in Hh as ->. rewrite lookup_insert_eq. by apply Ht.
    + intros t. by apply IHg.
Qed.
End Pause.

Lemma writers_none w sh t : Inv w → held w sh t → writersSince w sh t ≤ 0 → calmed w sh.
Proof.
  intros Hi (s & Hs & Hd) Hn. exists s. split; [done|]. destruct Hd as [?|[He Hst]]; [by left|right]. unfold writersSince in Hn.
  destruct (filter _ _) eqn:Hf in Hn; [|cbn in Hn; lia]. destruct (activeOn (b_dbs w) sh) eqn:Ha; [|cbn in Hn; lia].
  split_and!; [done| |by apply activeOn_nil]. intros pid o Ho Hg. destruct (o_rw o) eqn:Hrw; [exfalso|done].
  destruct (inv_sessions _ _ _ _ _ Hi pid o Ho) as [Hcp _]. specialize (Hst pid o Ho Hg Hrw).
  assert ((pid, o) ∈ filter (λ '(_, o), couldWrite sh t o = true) (map_to_list (b_sessions w))) as Hin.
  { apply list_elem_of_filter. split; [|by apply elem_of_map_to_list]. unfold couldWrite.
    rewrite bool_decide_true by done. destruct (o_copy o); [by rewrite Hcp in Hrw|]. cbn. rewrite (proj2 (Z.leb_le _ _) Hst). by rewrite orb_true_r. }
  rewrite Hf in Hin. by apply elem_of_nil in Hin.
Qed.

(** What one answer of a server teaches. *)
Lemma askServer_spec {X} g (f : world → server → result err X) P (Q : X → world → Prop) :
  closed P → (∀ w s x, Inv w → P w → b_servers w !! ref g = Some s → f w s = Ok x → Q x w) →
  triple P (askServer g f) (λ r w, match r with Ok x => P w ∧ Q x w | Err _ => P w end).
Proof.
  intros HP HQ. apply triple_ask; [done|]. intros w Hi Hw. split; [|by auto].
  destruct (b_servers w !! ref g) as [s|] eqn:Hs; [|done]. destruct (f w s) eqn:Hf; [|done]. eauto.
Qed.
(** With its context, in front of the rest. *)
Lemma wrap_bind {X B} s (x : M X) P (Q : X → world → Prop) (k : X → M B) (S : result err B → world → Prop) :
  triple P x (λ r w, match r with Ok x => P w ∧ Q x w | Err _ => P w end) →
  (∀ x, triple (λ w, P w ∧ Q x w) (k x) S) → (∀ e w, Inv w → P w → S (Err e) w) → triple P (wrap s x ≫= k) S.
Proof. intros Hx Hk He. eapply triple_bind; [exact (triple_wrap P s x (λ x w, P w ∧ Q x w) P Hx)|exact Hk|exact He]. Qed.

Lemma busyWriters_spec gs at_ P :
  closed P → (∀ w g, P w → g ∈ gs → Catalog g = false → held w (ref g) (default 0 (at_ !! Name g))) →
  triple P (busyWriters gs at_) (λ r w, P w ∧ (r = Ok None → eachShard gs (λ g w, calmed w (ref g)) w)).
Proof.
  revert P. induction gs as [|g gs IH]; intros P HP Hh; cbn [busyWriters].
  - apply triple_ret. intros w _ Hw. split; [done|]. intros _ g Hg. by apply elem_of_nil in Hg.
  - destruct (Catalog g) eqn:Hc.
    + apply (triple_conseq _ P _ _ (λ r w, P w ∧ (r = Ok None → eachShard gs (λ g w, calmed w (ref g)) w)) _); [done| |apply IH; [done|]].
      * intros r w _ [? H]. split; [done|]. intros Hr. apply eachShard_cons; [by rewrite Hc|auto].
      * intros w h Hw Hin. by apply Hh; [|right].
    + eapply (wrap_bind _ _ _ (λ n w, n ≤ 0 → calmed w (ref g))).
      * apply askServer_spec; [done|]. intros w s n Hi Hw Hs [= <-] Hn. eapply writers_none; [done|by apply Hh; [|left|]|done].
      * intros n. destruct (Z.ltb_spec 0 n); [apply triple_ret; intros w _ [? _]; split; [done|]; done|].
        apply (triple_conseq _ (λ w, P w ∧ calmed w (ref g)) _ _
          (λ r w, (P w ∧ calmed w (ref g)) ∧ (r = Ok None → eachShard gs (λ g w, calmed w (ref g)) w)) _); [intros w _ [? Hca]; auto| |apply IH].
        -- intros r w _ [[? ?] Hr]. split; [done|]. intros E. by apply eachShard_cons; auto.
        -- apply closed_and; [done|apply calmed_closed].
        -- intros w h [Hw _] Hin. by apply Hh; [|right].
      * intros e w _ ?. split; [done|]. done.
Qed.
Lemma drainWriters_spec gs at_ P :
  closed P → (∀ w g, P w → g ∈ gs → Catalog g = false → held w (ref g) (default 0 (at_ !! Name g))) →
  triple P (drainWriters b gs at_) (λ r w, P w ∧ (r = Ok () → eachShard gs (λ g w, calmed w (ref g)) w)).
Proof.
  intros HP Hh. unfold drainWriters. apply triple_now_bind; [done|]. intros t.
  generalize (rounds (drainTimeout b) (poll b)) as n. induction n as [|n IH]; cbn [drainWritersLoop]; [by apply triple_fail|].
  eapply triple_bind; [by apply busyWriters_spec| |intros e w _ [? _]; by split]. intros [p|].
  - apply (triple_conseq _ P _ _ (λ r w, P w ∧ (r = Ok () → eachShard gs (λ g w, calmed w (ref g)) w)) _); [by intros w _ [? _]|done|].
    apply triple_now_bind; [done|]. intros t'. case_match; [by apply triple_fail|].
    by apply triple_placid_bind; [|auto with barrier| |].
  - apply triple_ret. intros w _ [? H]. split; [done|]. intros _. by apply H.
Qed.

Lemma preparedSomewhere_spec gs P :
  closed P → (∀ w g, P w → g ∈ gs → Catalog g = false → calmed w (ref g)) →
  triple P (preparedSomewhere gs) (λ r w, P w ∧ (r = Ok None → eachShard gs (λ g w, quiet w (ref g)) w)).
Proof.
  revert P. induction gs as [|g gs IH]; intros P HP Hh; cbn [preparedSomewhere].
  - apply triple_ret. intros w _ Hw. split; [done|]. intros _ g Hg. by apply elem_of_nil in Hg.
  - eapply (wrap_bind _ _ _ (λ gids w, gids = [] → Catalog g = false → quiet w (ref g))).
    + apply askServer_spec; [done|]. intros w s gids Hi Hw Hs [= <-] Hn Hc. apply preparedOn_nil in Hn.
      destruct (Hh w g Hw ltac:(by left) Hc) as (s' & Hs' & Hd). exists s'. split; [done|]. destruct Hd as [?|(? & ? & ?)]; [by left|by right].
    + intros gids. case_bool_decide as Hg; [apply triple_ret; intros w _ [? _]; by split|].
      apply (triple_conseq _ (λ w, P w ∧ (Catalog g = false → quiet w (ref g))) _ _
        (λ r w, (P w ∧ (Catalog g = false → quiet w (ref g))) ∧ (r = Ok None → eachShard gs (λ g w, quiet w (ref g)) w)) _).
      * intros w _ [? Hq]. split; [done|]. apply Hq. by destruct gids; [|destruct Hg].
      * intros r w _ [[? ?] Hr]. split; [done|]. intros E. by apply eachShard_cons; auto.
      * apply IH; [|intros w h [Hw _] Hin; by apply Hh; [|right]]. intros w w' He [Hw Hq]. split; [by eapply HP|]. intros Hc. apply He. auto.
    + intros e w _ ?. by split.
Qed.
Lemma drain_spec gs before P :
  closed P → (∀ w g, P w → g ∈ gs → Catalog g = false → calmed w (ref g)) → (∀ w, P w → before ≤ b_seq w) →
  triple P (drain b gs) (λ r w, P w ∧ (r = Ok () → settledAt before w ∧ eachShard gs (λ g w, quiet w (ref g)) w)).
Proof.
  intros HP Hh Hb. set (Q := λ w, settledAt before w ∧ eachShard gs (λ g w, quiet w (ref g)) w).
  unfold drain. apply triple_now_bind; [done|]. intros t.
  generalize (rounds (drainTimeout b) (poll b)) as n. induction n as [|n IH]; cbn [drainLoop]; [by apply triple_fail|].
  apply triple_placid_bind; [done|destruct (Resolving b); [apply placid_attempt; auto with barrier|done]| |by intros e w _ ?; split]. intros _'.
  eapply (triple_bind _ _ _ _ (λ r w, match r with Ok p => P w ∧ (p = None → Q w) | Err _ => P w end)).
  - apply triple_wrap. unfold inFlight.
    eapply (triple_bind _ _ _ _ (λ r w, P w ∧ ∀ n, r = Ok n → n ≤ 0 → settledAt before w)).
    + apply triple_ask; [done|]. intros w Hi Hw. split; [|by split]. split; [done|]. intros m [= <-] Hm. split; [auto|]. right.
      apply preparing_nil. destruct (preparing _); [done|cbn in Hm; lia].
    + intros m. destruct (Z.ltb_spec 0 m); [apply triple_ret; intros w _ [? _]; split; [done|]; done|].
      apply (triple_conseq _ (λ w, P w ∧ settledAt before w) _ _
        (λ r w, (P w ∧ settledAt before w) ∧ (r = Ok None → eachShard gs (λ g w, quiet w (ref g)) w)) _); [intros w _ [? Hs]; eauto| |].
      * intros [p|e] w _ [[? ?] Hr]; [|done]. split; [done|]. intros ->. split; [done|]. by apply Hr.
      * apply preparedSomewhere_spec; [apply closed_and; [done|apply settled_closed]|]. intros w g [? _]. by apply Hh.
    + by intros e w _ [? _].
  - intros [p|].
    + apply (triple_conseq _ P _ _ (λ r w, P w ∧ (r = Ok () → Q w)) _); [by intros w _ [? _]|done|].
      apply triple_now_bind; [done|]. intros t'. case_match; [by apply triple_fail|].
      by apply triple_placid_bind; [|auto with barrier| |].
    + apply triple_ret. intros w _ [? H]. split; [done|]. intros _. by apply H.
  - by intros e w _ ?.
Qed.
End Specs.
