(* ===== verification/BarrierLive.v ===== *)
(** * The waits of a barrier end

    The drains, the wait for a pause to be in force and the wait for the
    archiver are loops with a deadline, which the model gives rounds: they never
    run out, so that [Barrier.Run] and [Barrier.Recover] always return what the
    source returns. *)

From S2P Require Import Prelude TwoPhase Prog Triples Archive BarrierWorld Barrier.

Local Open Scope Z_scope.

Fixpoint exhausted (e : err) : bool := match e with EFuel => true | EIn _ e => exhausted e | _ => false end.
Local Notation inRounds := (inRounds exhausted).
Local Notation ends c x := (retsFrom c x inRounds).

(** ** Statements *)

Lemma ends_stmt {X} c (f : world → result err X * world) : (∀ w, inRounds (f w).1) → ends c (stmt f).
Proof. intros Hf. split; [exact Hf|]. by intros e ->. Qed.
Lemma ends_wrap {A} c what (x : M A) : ends c x → ends c (wrap what x).
Proof. intros Hx. apply inRounds_try; [exact Hx|]. by intros c' [a|e] _ Hr. Qed.

(** The statements of the store and of the groups, one by one. *)
Ltac statement := intros; apply ends_stmt; intros w; cbn; repeat case_match; done.
Section Statements.
Context (c : Z).
Lemma askServer_ends {X} g (f : world → server → result err X) : (∀ w s, inRounds (f w s)) → ends c (askServer g f).
Proof. intros Hf. apply ends_stmt. intros w. cbn. case_match; [apply Hf|done]. Qed.
Lemma onServer_ends {X} g (f : server → X * server) : ends c (onServer g f).
Proof. statement. Qed.
Lemma ask_ends {X} (f : world → X) : ends c (ask (λ w, Ok (f w))).
Proof. statement. Qed.
Lemma Lock_ends : ends c Lock.
Proof. statement. Qed.
Lemma unlock_ends : ends c unlock.
Proof. statement. Qed.
Lemma RaiseWriteFence_ends reason owner : ends c (RaiseWriteFence reason owner).
Proof. statement. Qed.
Lemma ReleaseWriteFence_ends owner : ends c (ReleaseWriteFence owner).
Proof. statement. Qed.
Lemma FencedAt_ends : ends c FencedAt.
Proof. statement. Qed.
Lemma ClearStaleBarrierFence_ends : ends c ClearStaleBarrierFence.
Proof. statement. Qed.
Lemma Reserve_ends name : ends c (Reserve name).
Proof. statement. Qed.
Lemma Fail_ends name e : ends c (Fail name e).
Proof. statement. Qed.
Lemma RecordPoint_ends rp : ends c (RecordPoint rp).
Proof. statement. Qed.
Lemma fenceOwner_ends : ends c fenceOwner.
Proof. statement. Qed.
Lemma addPoint_ends g name : ends c (addPoint g name).
Proof. statement. Qed.
End Statements.
Create HintDb ends discriminated.
#[export] Hint Resolve ask_ends onServer_ends Lock_ends unlock_ends RaiseWriteFence_ends ReleaseWriteFence_ends FencedAt_ends
  ClearStaleBarrierFence_ends Reserve_ends Fail_ends RecordPoint_ends fenceOwner_ends addPoint_ends : ends.
#[export] Hint Extern 1 (retsFrom _ (askServer _ _) _) => apply askServer_ends; intros; cbn; by repeat case_match : ends.
#[export] Hint Extern 1 (retsFrom _ (SubscriptionCount _) _) => apply askServer_ends; done : ends.
#[export] Hint Extern 1 (retsFrom _ (PauseEffective _) _) => apply askServer_ends; done : ends.
#[export] Hint Extern 1 (retsFrom _ (PreparedGIDs _) _) => apply askServer_ends; done : ends.
#[export] Hint Extern 1 (retsFrom _ (WritersSince _ _) _) => apply askServer_ends; done : ends.
#[export] Hint Extern 1 (retsFrom _ (ArchivedThrough _) _) => apply askServer_ends; intros; by case_match : ends.
#[export] Hint Extern 3 (retsFrom _ _ _) => apply ask_ends : ends.
#[export] Hint Extern 2 (retsFrom _ (alterSystem _ _) _) => apply onServer_ends : ends.
#[export] Hint Extern 2 (retsFrom _ (switchWal _) _) => apply onServer_ends : ends.

(** Everything but the loops. *)
Ltac ends_step := match goal with
  | |- retsFrom _ (mbind _ (attempt _)) _ => apply inRounds_try; [|intros ? [?|?] ??]
  | |- retsFrom _ (mbind _ _) _ => apply inRounds_bind; [|intros ???]
  | |- retsFrom _ (mret _) _ => exact I
  | |- retsFrom _ now _ => by intros ??
  | |- retsFrom _ (sleep _) _ => by intros ??
  | |- retsFrom _ (wrap _ _) _ => apply ends_wrap
  | |- retsFrom _ (Fence _ _ _) _ => unfold Fence
  | |- retsFrom _ (match ?x with _ => _ end) _ => destruct x
  | |- retsFrom _ (fail _) _ => first [reflexivity | eassumption]
  | |- _ => solve [auto with ends]
  end.
Ltac ends := repeat ends_step.

(** ** Loops *)

(** A poll after a look that found time left. *)
Lemma rounds_enough c timeout poll : 0 ≤ timeout → 0 < poll → enough poll c (c + timeout) (rounds timeout poll).
Proof.
  intros Ht Hp. unfold enough, rounds. pose proof (Z.div_mod timeout poll ltac:(lia)). pose proof (Z.mod_pos_bound timeout poll Hp).
  pose proof (Z.div_pos timeout poll Ht Hp). split; [lia|]. rewrite !Nat2Z.inj_succ, Z2Nat.id by lia. nia.
Qed.

Lemma confirmPause_ends fuel c g deadline : enough (50 * Millisecond) c deadline fuel → ends c (confirmPause fuel g deadline).
Proof.
  revert c. induction fuel as [|fuel IH]; intros c He; [by destruct He; lia|]. cbn [confirmPause].
  apply inRounds_bind; [ends|]. intros c1 [on at_] H1. destruct on; [done|]. apply now_inRounds. intros t Ht.
  destruct (deadline <? t) eqn:E; [done|]. apply sleep_inRounds. intros t' Ht'. apply IH. apply Z.ltb_ge in E.
  eapply enough_sleep; [exact He| |exact E|exact Ht']. lia.
Qed.
Lemma PauseWrites_ends c g pause : ends c (PauseWrites g pause).
Proof.
  unfold PauseWrites, resume, reloadConf. case_match; [ends|]. apply inRounds_bind; [ends|]. intros c1 _ _. apply inRounds_bind; [ends|]. intros c2 _ _.
  case_match; [done|]. apply now_inRounds. intros t _. by apply confirmPause_ends, rounds_enough.
Qed.
#[export] Hint Resolve PauseWrites_ends : ends.

Section Waits.
Context (b : Barrier).

Lemma poll_positive : 0 < poll b.
Proof. unfold poll, orDefault. case_match eqn:E; [lia|done]. Qed.
Lemma drainTimeout_positive : 0 ≤ drainTimeout b.
Proof. unfold drainTimeout, orDefault. case_match eqn:E; [lia|done]. Qed.
Lemma archiveTimeout_positive : 0 ≤ archiveTimeout b.
Proof. unfold archiveTimeout, orDefault. case_match eqn:E; [lia|done]. Qed.
Hint Resolve poll_positive drainTimeout_positive archiveTimeout_positive : core.
Local Notation enough := (enough (poll b)).

(** What every loop does after a look: it stops at its deadline, or sleeps and
    looks again. *)
Lemma poll_ends {A} c c1 deadline fuel what e (loop : M A) :
  enough c deadline (S fuel) → c ≤ c1 → exhausted e = false → (∀ c, enough c deadline fuel → ends c loop) →
  ends c1 (t ← now; if deadline <=? t then fail e else _ ← wrap what (pollSleep b); loop).
Proof.
  intros He Hc Hx Hl. apply now_inRounds. intros t Ht. destruct (deadline <=? t) eqn:E; [exact Hx|]. apply Z.leb_gt in E.
  intros t' Ht'. split; [|by intros e0 ->]. intros w. cbn [fst]. destruct (b_cancelled w); [done|]. apply Hl.
  eapply (enough_sleep _ _ t); [exact He|lia|lia|]. change (orDefault (Poll b) DefaultBarrierPoll) with (poll b) in Ht'. lia.
Qed.

Lemma preparedSomewhere_ends c groups : ends c (preparedSomewhere groups).
Proof. revert c. induction groups as [|g l IH]; intros c; cbn [preparedSomewhere]; ends. Qed.
Lemma inFlight_ends c groups : ends c (inFlight groups).
Proof. unfold inFlight. ends. apply preparedSomewhere_ends. Qed.
Lemma drainLoop_ends fuel c groups deadline : enough c deadline fuel → ends c (drainLoop b fuel groups deadline).
Proof.
  revert c. induction fuel as [|fuel IH]; intros c He; [by destruct He; lia|]. cbn [drainLoop].
  apply inRounds_bind; [destruct (Resolving b); in_rounds|]. intros c1 _ H1. apply inRounds_bind; [apply ends_wrap, inFlight_ends|].
  intros c2 [p|] H2; [|done]. eapply poll_ends; [exact He|lia|done|exact IH].
Qed.
Lemma drain_ends c groups : ends c (drain b groups).
Proof. apply now_inRounds. intros t _. by apply drainLoop_ends, rounds_enough. Qed.
Lemma busyWriters_ends c groups at_ : ends c (busyWriters groups at_).
Proof. revert c. induction groups as [|g l IH]; intros c; cbn [busyWriters]; ends. Qed.
Lemma drainWritersLoop_ends fuel c groups at_ deadline : enough c deadline fuel → ends c (drainWritersLoop b fuel groups at_ deadline).
Proof.
  revert c. induction fuel as [|fuel IH]; intros c He; [by destruct He; lia|]. cbn [drainWritersLoop].
  apply inRounds_bind; [apply busyWriters_ends|]. intros c2 [p|] H2; [|done]. eapply poll_ends; [exact He|lia|done|exact IH].
Qed.
Lemma drainWriters_ends c groups at_ : ends c (drainWriters b groups at_).
Proof. apply now_inRounds. intros t _. by apply drainWritersLoop_ends, rounds_enough. Qed.
Lemma awaitSegment_ends fuel c g want deadline : enough c deadline fuel → ends c (awaitSegment b fuel g want deadline).
Proof.
  revert c. induction fuel as [|fuel IH]; intros c He; [by destruct He; lia|]. cbn [awaitSegment].
  apply inRounds_bind; [ends|]. intros c1 a H1. destruct (archivedSegment a want) as [seg|[was since]]; [|done]. case_match; [done|].
  eapply poll_ends; [exact He|lia|done|exact IH].
Qed.
Lemma awaitSegments_ends c groups points deadline :
  enough c deadline (rounds (archiveTimeout b) (poll b)) → ends c (awaitSegments b groups points deadline).
Proof.
  revert c points. induction groups as [|g l IH]; intros c [|p ps] He; try done. cbn [awaitSegments].
  apply inRounds_bind; [by apply awaitSegment_ends|]. intros c1 _ H1. by apply IH, (enough_later _ c).
Qed.
Lemma awaitArchived_ends c groups points : ends c (awaitArchived b groups points).
Proof. apply now_inRounds. intros t _. by apply awaitSegments_ends, rounds_enough. Qed.
Hint Resolve drain_ends drainWriters_ends awaitArchived_ends : ends.

(** ** Runs *)

Lemma checkSubscriptions_ends c groups : ends c (checkSubscriptions groups).
Proof. revert c. induction groups as [|g l IH]; intros c; cbn [checkSubscriptions]; ends. Qed.
Lemma pauseEach_ends c groups at_ : ends c (pauseEach groups at_).
Proof. revert c at_. induction groups as [|g l IH]; intros c at_; cbn [pauseEach]; ends. Qed.
Lemma resumeAll_ends c groups first : (∀ e, first = Some e → exhausted e = false) → ends c (resumeAll groups first).
Proof.
  revert c first. induction groups as [|g l IH]; intros c first Hf; cbn [resumeAll].
  - destruct first; [by apply Hf|done].
  - case_match; [by apply IH|]. ends; apply IH; intros e'; destruct first; intros [= <-]; auto.
Qed.
Lemma createPoints_ends c groups name : ends c (createPoints groups name).
Proof. revert c. induction groups as [|g l IH]; intros c; cbn [createPoints]; unfold CreateRestorePoint; ends. Qed.
Lemma verifyGroups_ends c groups at_ : ends c (verifyGroups groups at_).
Proof. revert c. induction groups as [|g l IH]; intros c; cbn [verifyGroups]; ends. Qed.
Lemma nap_ends c d : ends c (nap d).
Proof. intros t _. split; [|by intros e ->]. intros w. cbn. by destruct (b_cancelled w). Qed.
Hint Resolve checkSubscriptions_ends pauseEach_ends createPoints_ends verifyGroups_ends nap_ends : ends.
Lemma fenced_ends c name owner groups at_ : ends c (fenced b name owner groups at_).
Proof. unfold fenced, verify. ends. Qed.
Lemma run_ends c name : ends c (run b name).
Proof. unfold run, settleFence, pauseAll. ends; first [apply fenced_ends|by apply resumeAll_ends]. Qed.
Lemma anyPaused_ends c groups : ends c (anyPaused groups).
Proof. revert c. induction groups as [|g l IH]; intros c; cbn [anyPaused]; ends. Qed.

(** C30. The waits of a barrier end: no run and no recovery ends because the
    rounds its loops were given ran out.  The drains, the wait for a pause to
    be in force and the wait for the archiver end by what they find or by their
    deadline, whatever is answered and however slowly the clock goes on. *)
Theorem barrier_ends_in_rounds c name :
  retsFrom c (Run b name) (Triples.inRounds exhausted) ∧ retsFrom c (Recover b) (Triples.inRounds exhausted).
Proof.
  split.
  - unfold Run, reservedRun. ends. apply run_ends.
  - unfold Recover, recoverLocked. ends; first [apply anyPaused_ends|by apply resumeAll_ends].
Qed.
End Waits.
