(* ===== verification/BarrierCert.v ===== *)
(** * Certified restore points are moments

    From the drained shards of [BarrierProof] to the certified restore point:
    the points, the archive, the verification and the record.  No run of
    barriers and recoveries, whatever fails, dies or happens meanwhile, ever
    certifies a restore point of which the groups' recoveries do not make one
    moment of the databases; so two-phase commits are whole in it. *)

From S2P Require Import Prelude TwoPhase Commitment Coordinator Resolver Logic Atomicity Prog Triples Archive BarrierWorld Barrier BarrierDb BarrierSafety BarrierProof.

Local Open Scope Z_scope.

Section Cert.
Context (db_step : TwoPhase.world → op → TwoPhase.world → resp → Prop) `{!Sql db_step} (groupName : ShardRef → string) (d0 : databases) (seen : databases → Prop) (b : Barrier).
Context `{!Inj (=) (=) groupName}.
Local Notation R := (barrier_rely db_step groupName d0 seen).
Local Notation env := (env_seen db_step groupName seen).
Local Notation db_evolves := (db_evolves db_step).
Local Notation Inv := (Inv db_step groupName d0 seen).
Local Notation triple := (triple R).
Local Notation closed := (closed R).
Local Notation sound := (sound db_step groupName d0 seen).

Section Points.
Context (name : string) (before : Z).
Local Notation point := (RestorePointName name).

(** ** The points *)

(** [d] is a moment of the run; what was begun since the watermark shows. *)
Definition moment (d : databases) (w : world) : Prop :=
  seen d ∧ rtc db_evolves d0 d ∧ rtc db_evolves d (b_dbs w) ∧ (before < b_seq w ∨ nonePreparing d).
Definition reserved (w : world) : Prop := is_Some (b_rps w !! name).
Definition fresh (sh : ShardRef) (w : world) : Prop := recoverTo w sh point = None.
(** The point is there and holds the moment, unless the pause is gone. *)
Definition pointed (d : databases) (w : world) (sh : ShardRef) : Prop :=
  server_is w sh (λ s, dead s ∨ brings w name d sh).
Definition written (w : world) (sh : ShardRef) (segment : string) : Prop :=
  server_is w sh (λ s, ∃ t n, segment = segName t n ∧ (t, n) ∈ s_wal s).

Lemma brings_closed d sh : closed (λ w, brings w name d sh).
Proof. intros w w' He [Hr Hn]. split; [|done]. unfold recoverTo in *. by rewrite (ev_points _ _ _ He). Qed.
Lemma moment_closed d : closed (moment d).
Proof.
  intros w w' He (Hd & H0 & H1 & Hs). pose proof (ev_seq _ _ _ He). split_and!; [done|done|by etrans; [|apply He]|]. destruct Hs; [left; lia|by right].
Qed.
Lemma reserved_closed : closed reserved.
Proof. intros w w' He. apply He. Qed.
Lemma fresh_closed sh : closed (fresh sh).
Proof. intros w w' He. unfold fresh, recoverTo. by rewrite (ev_points _ _ _ He). Qed.
Lemma pointed_closed d sh : closed (λ w, pointed d w sh).
Proof.
  intros w w' He (s & Hs & Hd). destruct (ev_servers _ _ _ He sh s Hs) as (s' & Hs' & Hm). exists s'. split; [done|].
  destruct Hd as [Hd|Hd]; [left; by apply Hm|right; by eapply brings_closed].
Qed.
Lemma still_closed d sh : sh ≠ catalogRef → closed (λ w, still d w sh).
Proof. intros Hne w w' He. by apply He. Qed.
Lemma written_closed sh seg : closed (λ w, written w sh seg).
Proof.
  intros w w' He (s & Hs & t & n & -> & Hin). destruct (ev_servers _ _ _ He sh s Hs) as (s' & Hs' & Hm). exists s'. split; [done|].
  exists t, n. split; [done|]. by apply (sm_wal _ _ Hm).
Qed.
Lemma isArchived_closed sh seg : closed (λ w, isArchived w sh seg).
Proof. intros w w' He. apply (isArchived_grows db_step). by apply evolves_grows. Qed.

(** Writing a point. *)
Definition withPoint (w : world) (sh : ShardRef) : world :=
  {| w with b_points := <[sh := default [] (b_points w !! sh) ++ [(point, imageOf (b_dbs w) sh)]]> (b_points w) |}.
Lemma pointNamed_app l l' n i : pointNamed l n = Some i → pointNamed (l ++ l') n = Some i.
Proof. induction l as [|[m j] l IH]; cbn; [done|]. case_match; auto. Qed.
Lemma pointNamed_new l n i : pointNamed l n = None → pointNamed (l ++ [(n, i)]) n = Some i.
Proof. induction l as [|[m j] l IH]; cbn; [by rewrite String.eqb_refl|]. case_match; [done|auto]. Qed.
Lemma withPoint_other w sh sh' n : sh' ≠ sh → recoverTo (withPoint w sh) sh' n = recoverTo w sh' n.
Proof. intros Hne. unfold recoverTo. cbn. by rewrite lookup_insert_ne. Qed.
Lemma withPoint_same w sh : fresh sh w → recoverTo (withPoint w sh) sh point = Some (imageOf (b_dbs w) sh).
Proof. unfold fresh, recoverTo. cbn. rewrite lookup_insert_eq. apply pointNamed_new. Qed.
Lemma withPoint_inv w sh : Inv w → reserved w → Inv (withPoint w sh).
Proof.
  intros Hi Hr. eapply (Inv_grows _ _ _ _ w); [done| |by apply Hi|by apply Hi|by apply Hi|by apply Hi| |by auto].
  - split; cbn; [done| |eauto]. intros sh' n i H. destruct (decide (sh' = sh)) as [->|Hne]; [|by rewrite withPoint_other].
    unfold recoverTo in *. cbn. rewrite lookup_insert_eq. by apply pointNamed_app.
  - intros sh' l n i. cbn. destruct (decide (sh' = sh)) as [->|Hne]; [|rewrite lookup_insert_ne by done; apply Hi].
    rewrite lookup_insert_eq. intros [= <-] [Hin|Hin]%elem_of_app.
    + destruct (b_points w !! sh) as [l|] eqn:Hl; [by eapply Hi|by apply elem_of_nil in Hin].
    + apply list_elem_of_singleton in Hin. simplify_eq. by exists name.
Qed.

(** The shards whose point is written and those still to do. *)
Definition progress (d : databases) (done_ todo : list GroupRef) (w : world) : Prop :=
  moment d w ∧ reserved w ∧ brings w name d catalogRef ∧ (∀ g, g ∈ done_ → pointed d w (ref g)) ∧
  (∀ g, g ∈ todo → ref g ≠ catalogRef ∧ still d w (ref g) ∧ fresh (ref g) w).
Lemma progress_closed d done_ todo : closed (progress d done_ todo).
Proof.
  intros w w' He (H1 & H2 & H3 & H4 & H5). split_and!.
  - by eapply moment_closed.
  - by eapply reserved_closed.
  - by eapply brings_closed.
  - intros g Hg. eapply pointed_closed; eauto.
  - intros g Hg. destruct (H5 g Hg) as (? & ? & ?). split_and!; [done|by eapply still_closed|by eapply fresh_closed].
Qed.

Definition pointsOf (gs : list GroupRef) (ps : list GroupRestorePoint) (w : world) : Prop :=
  Forall2 (λ g p, Group p = Name g ∧ written w (ref g) (WALSegment p)) gs ps.
Lemma pointsOf_closed gs ps : closed (pointsOf gs ps).
Proof. intros w w' He H. eapply Forall2_impl; [exact H|]. intros g p [? ?]. split; [done|]. by eapply written_closed. Qed.

Definition wrote (g : GroupRef) (r : result err (Z * Z * string * string)) (P : world → Prop) (w : world) : Prop :=
  match r with Ok (_, _, seg, _) => P w ∧ written w (ref g) seg | Err _ => True end.

(** Any point: what the statement leaves holds, and the segment is written. *)
Lemma addPoint_spec g (P Q : world → Prop) :
  closed P → (∀ w, P w → reserved w) →
  (∀ w s, Inv w → P w → b_servers w !! ref g = Some s → Q (withPoint w (ref g))) →
  triple P (addPoint g point) (λ r, wrote g r Q).
Proof.
  intros HP Hr HQ. apply triple_stmt; [done|]. intros w Hi Hw.
  destruct (b_servers w !! ref g) as [s|] eqn:Hs; [|by cbn]. cbn [fst snd].
  change ({| w with b_points := _ |}) with (withPoint w (ref g)). split; [by apply withPoint_inv; auto|]. split; [|done].
  split; [by eapply HQ|]. exists s. split; [done|]. do 2 eexists. split; [done|]. by apply (inv_servers _ _ _ _ _ Hi (ref g)).
Qed.
Lemma addPoint_shard g d done_ todo pg dps :
  ref g ∉ ref <$> done_ → ref g ∉ ref <$> todo → ref g ≠ catalogRef →
  triple (λ w, progress d done_ (g :: todo) w ∧ pointsOf pg dps w) (addPoint g point)
    (λ r, wrote g r (λ w, progress d (done_ ++ [g]) todo w ∧ pointsOf pg dps w)).
Proof.
  intros Hd Ht Hne. apply addPoint_spec; [apply closed_and; [apply progress_closed|apply pointsOf_closed]|by intros w [(_ & ? & _) _]|].
  intros w s Hi [(H1 & H2 & H3 & H4 & H5) Hpo] Hs. split; [|exact Hpo].
  assert (∀ h (l : list GroupRef), h ∈ l → ref g ∉ ref <$> l → ref h ≠ ref g) as Hoth by (intros h l Hh Hn He; apply Hn; rewrite <- He; by apply list_elem_of_fmap_2).
  split_and!; [done|done|..].
  - split; [|apply H3]. rewrite withPoint_other by done. apply H3.
  - intros h [Hh|Hh]%elem_of_app.
    + destruct (H4 h Hh) as (s' & Hs' & [?|[Hb ?]]); exists s'; (split; [done|]); [by left|right]. split; [|done].
      by rewrite withPoint_other by eauto.
    + apply list_elem_of_singleton in Hh as ->. destruct (H5 g ltac:(by left)) as (_ & (s' & Hs' & Hst) & Hf).
      exists s'. split; [done|]. destruct Hst as [?|(_ & _ & _ & Hnp & Him)]; [by left|right]. split.
      * rewrite withPoint_same by done. by rewrite Him.
      * intros _. destruct Hnp as [Hp1 Hp2]. assert (i_txns (imageOf (b_dbs w) (ref g)) = i_txns (imageOf d (ref g))) as E1 by by rewrite Him.
        assert (i_foreign (imageOf (b_dbs w) (ref g)) = i_foreign (imageOf d (ref g))) as E2 by by rewrite Him. cbn in E1, E2.
        split; [|by rewrite <- E2]. intros gid db Hgid.
        assert (persisted (d_tp d) (ref g) !! gid = Some (TPrepared db)) as Hpd by by rewrite persisted_lookup, Hgid.
        rewrite <- E1, persisted_lookup in Hpd. apply bind_Some in Hpd as (t & Ht' & Hpt). destruct (persistent t); simplify_eq. by apply (Hp1 gid db).
  - intros h Hh. destruct (H5 h ltac:(by right)) as (? & ? & ?). split_and!; [done|done|].
    unfold fresh. by rewrite withPoint_other by eauto.
Qed.

(** A point, with the segment closed after it. *)
Lemma createPoint_spec g (P Q : world → Prop) :
  closed Q → triple P (addPoint g point) (λ r, wrote g r Q) →
  triple P (wrap "restore point" (CreateRestorePoint g point))
    (λ r w, match r with Ok p => Q w ∧ Group p = Name g ∧ written w (ref g) (WALSegment p) | Err _ => True end).
Proof.
  intros HQ Ha. apply triple_wrap. eapply triple_bind; [exact Ha| |done]. intros [[[lsn tl] seg] sys].
  eapply (triple_placid_bind _ (λ w, Q w ∧ written w (ref g) seg)); [|auto with barrier| |done].
  - apply closed_and; [done|apply written_closed].
  - intros _'. apply triple_ret. intros w _ [? ?]. by cbn.
Qed.

Lemma createPoints_spec gs d done_ pg dps :
  NoDup (ref <$> done_ ++ gs) → (∀ g, g ∈ gs → ref g ≠ catalogRef) →
  triple (λ w, progress d done_ gs w ∧ pointsOf pg dps w) (createPoints gs name)
    (λ r w, ∀ ps, r = Ok ps → progress d (done_ ++ gs) [] w ∧ pointsOf (pg ++ gs) (dps ++ ps) w).
Proof.
  revert done_ pg dps. induction gs as [|g gs IH]; intros done_ pg dps Hnd Hc; cbn [createPoints].
  - apply triple_ret. intros w _ Hw ps [= <-]. by rewrite !app_nil_r.
  - rewrite fmap_app in Hnd. apply NoDup_app in Hnd as (Hnd1 & Hdis & Hnd2). cbn in Hnd2. apply NoDup_cons in Hnd2 as [Hg Hnd2].
    eapply (triple_bind _ _ _ _ (λ r w, match r with Ok p => (progress d (done_ ++ [g]) gs w ∧ pointsOf pg dps w) ∧ Group p = Name g ∧ written w (ref g) (WALSegment p) | Err _ => True end));
      [|intros p|done].
    + apply createPoint_spec; [apply closed_and; [apply progress_closed|apply pointsOf_closed]|]. apply addPoint_shard; [|done|apply Hc; by left].
      intros Hin. apply (Hdis _ Hin). by left.
    + specialize (IH (done_ ++ [g]) (pg ++ [g]) (dps ++ [p])). rewrite <- !app_assoc in IH. cbn [app] in IH.
      eapply triple_bind; [eapply triple_conseq; [| |apply IH; [|intros h Hh; apply Hc; by right]]|..].
      * intros w _ [[? Hpo] Hp]. split; [done|]. apply Forall2_app; [exact Hpo|]. by constructor.
      * intros r w _ H. exact H.
      * rewrite fmap_app. by apply NoDup_app; split_and!; [|..|apply NoDup_cons].
      * intros ps. apply triple_ret. intros w _ H ps' [= <-]. destruct (H ps eq_refl) as [? Hpo]. split; [done|].
        by rewrite <- app_assoc in Hpo.
      * done.
Qed.

(** The catalog comes first: the moment is that of its point. *)
Definition drained (gs : list GroupRef) (w : world) : Prop :=
  reserved w ∧ (∀ sh, fresh sh w) ∧ settledAt before w ∧ eachShard gs (λ g w, quiet w (ref g)) w.
Lemma drained_closed gs : closed (drained gs).
Proof.
  intros w w' He (H1 & H2 & H3 & H4). split_and!.
  - by eapply reserved_closed.
  - intros sh. by eapply fresh_closed.
  - by eapply settled_closed.
  - intros g Hg Hc. apply He. auto.
Qed.
Lemma quiet_still w sh : quiet w sh → still (b_dbs w) w sh.
Proof. intros (s & Hs & Hd). exists s. split; [done|]. destruct Hd as [?|(? & ? & ? & ?)]; [by left|by right]. Qed.

Lemma catalogPoint_spec gs :
  (∀ g, g ∈ gs → Catalog g = false) →
  triple (drained gs) (addPoint catalogGroup point) (λ r, wrote catalogGroup r (λ w, ∃ d, progress d [] gs w)).
Proof.
  intros Hgs. apply addPoint_spec; [apply drained_closed|by intros w (? & _)|].
  intros w s Hi (H1 & H2 & [Hle H3] & H4) Hs. exists (b_dbs w).
  assert (∀ g, g ∈ gs → ref g ≠ catalogRef) as Hne.
  { intros g Hg He. apply (f_equal fst) in He. cbn in He. specialize (Hgs g Hg). unfold Catalog in Hgs. by rewrite He in Hgs. }
  split_and!.
  - split_and!; [apply Hi|apply Hi|done|exact H3].
  - done.
  - split; [by apply withPoint_same|done].
  - intros g Hg. by apply elem_of_nil in Hg.
  - intros g Hg. split_and!; [by apply Hne|exact (quiet_still w (ref g) (H4 g Hg (Hgs g Hg)))|]. unfold fresh. rewrite withPoint_other by by apply Hne. apply H2.
Qed.
Lemma allPoints_spec gs :
  NoDup (ref <$> gs) → (∀ g, g ∈ gs → Catalog g = false) →
  triple (drained gs) (createPoints (catalogGroup :: gs) name)
    (λ r w, ∀ ps, r = Ok ps → ∃ d, progress d gs [] w ∧ pointsOf (catalogGroup :: gs) ps w).
Proof.
  intros Hnd Hgs. cbn [createPoints].
  eapply (triple_bind _ _ _ _ (λ r w, match r with Ok p => (∃ d, progress d [] gs w) ∧ Group p = CatalogGroup ∧ written w catalogRef (WALSegment p) | Err _ => True end));
    [|intros p|done].
  - apply (createPoint_spec catalogGroup); [|by apply catalogPoint_spec]. intros w w' He [d Hd]. exists d. by eapply progress_closed.
  - eapply triple_bind; [|intros ps; apply triple_ret|done].
    + apply (triple_conseq _ (λ w, ∃ d, progress d [] gs w ∧ pointsOf [catalogGroup] [p] w) _ _
        (λ r w, ∀ ps, r = Ok ps → ∃ d, progress d gs [] w ∧ pointsOf (catalogGroup :: gs) (p :: ps) w)); [| |].
      * intros w _ [[d ?] ?]. exists d. split; [done|]. by constructor; [|constructor].
      * intros r w _ H. exact H.
      * apply triple_exists. intros d. eapply triple_conseq; [| |apply (createPoints_spec gs d [] [catalogGroup] [p]); [done|]].
        -- done.
        -- intros r w _ H ps Hr. exists d. by apply H.
        -- intros g Hg He. apply (f_equal fst) in He. cbn in He. specialize (Hgs g Hg). unfold Catalog in Hgs. by rewrite He in Hgs.
    + intros w _ H ps' [= <-]. by apply H.
Qed.

(** ** The archive *)

Lemma report_archived w sh s seg f :
  Inv w → b_servers w !! sh = Some s → written w sh seg → s_report s = Some f → reached (fileName f) seg = true → isArchived w sh seg.
Proof.
  intros Hi Hs (s' & Hs' & t & n & -> & Hin) Hr Hre. simplify_eq. destruct (inv_servers _ _ _ _ _ Hi sh s Hs) as [_ Hw _ Hrep Harch].
  destruct (Hw t n Hin) as (Ht & Hn & _). destruct (Harch f (Hrep f Hr)) as [Hok Hsp].
  destruct (speaksFor f) as [[t' n']|] eqn:Hf; [|by rewrite other_says_nothing in Hre].
  rewrite (reached_segment f t n t' n') in Hre by done. apply andb_true_iff in Hre as [<-%Z.eqb_eq Hle%Z.leb_le].
  destruct (Hsp t n' eq_refl) as [_ Hm]. exists s. split; [done|]. exists t, n. split; [done|]. by apply Hm.
Qed.
Lemma awaitSegment_spec n g seg dl P :
  closed P → (∀ w, P w → written w (ref g) seg) →
  triple P (awaitSegment b n g seg dl) (λ r w, P w ∧ (r = Ok () → isArchived w (ref g) seg)).
Proof.
  intros HP Hwr. induction n as [|n IH]; cbn [awaitSegment]; [by apply triple_fail|].
  eapply (wrap_bind _ _ _ _ _ _ _ (λ a w, reached a seg = true → isArchived w (ref g) seg)); [| |intros e w _ ?; by split].
  - apply askServer_spec; [done|]. intros w s a Hi Hw Hs. destruct (s_archiveMode s); [|done]. intros [= <-] Hre.
    destruct (s_report s) as [f|] eqn:Hr; [|done]. by eapply report_archived; eauto.
  - intros a. unfold reached. destruct (archivedSegment a seg) as [sg|[was since]]; [|apply triple_fail; intros w _ [? _]; by split].
    destruct (negb (String.eqb sg "") && String.leb seg sg).
    + apply triple_ret. intros w _ [? H]. split; [done|]. intros _. by apply H.
    + apply (triple_conseq _ P _ _ (λ r w, P w ∧ (r = Ok () → isArchived w (ref g) seg)) _); [by intros w _ [? _]|done|].
      apply triple_now_bind; [done|]. intros t. case_match; [by apply triple_fail|].
      by apply triple_placid_bind; [|auto with barrier| |].
Qed.
Definition archivedAll (gs : list GroupRef) (ps : list GroupRestorePoint) (w : world) : Prop :=
  Forall2 (λ g p, isArchived w (ref g) (WALSegment p)) gs ps.
Lemma archivedAll_closed gs ps : closed (archivedAll gs ps).
Proof. intros w w' He H. eapply Forall2_impl; [exact H|]. intros g p ?. by eapply isArchived_closed. Qed.
Lemma awaitSegments_spec gs ps dl P :
  closed P → (∀ w, P w → pointsOf gs ps w) →
  triple P (awaitSegments b gs ps dl) (λ r w, P w ∧ (r = Ok () → archivedAll gs ps w)).
Proof.
  revert ps P. induction gs as [|g gs IH]; intros [|p ps] P HP Hpo; cbn [awaitSegments].
  - apply triple_ret. intros w _ ?. split; [done|]. constructor.
  - apply triple_ret. intros w _ Hw. specialize (Hpo w Hw). inversion Hpo.
  - apply triple_ret. intros w _ Hw. specialize (Hpo w Hw). inversion Hpo.
  - eapply triple_bind; [apply awaitSegment_spec; [done|]| |intros e w _ [? _]; by split].
    + intros w Hw. specialize (Hpo w Hw). by inversion Hpo as [|? ? ? ? [_ ?]]; subst.
    + intros []. apply (triple_conseq _ (λ w, P w ∧ isArchived w (ref g) (WALSegment p)) _ _
        (λ r w, (P w ∧ isArchived w (ref g) (WALSegment p)) ∧ (r = Ok () → archivedAll gs ps w)) _).
      * intros w _ [? H]. auto.
      * intros r w _ [[? ?] Hq]. split; [done|]. intros Hr. constructor; [done|by apply Hq].
      * apply IH; [apply closed_and; [done|apply isArchived_closed]|]. intros w [Hw _]. specialize (Hpo w Hw). by inversion Hpo.
Qed.

(** ** Verification *)

Lemma verifyGroups_spec gs at_ d P :
  closed P → (∀ w g, P w → g ∈ gs → Catalog g = false → pointed d w (ref g)) →
  triple P (verifyGroups gs at_) (λ r w, P w ∧ (r = Ok () → eachShard gs (λ g w, brings w name d (ref g)) w)).
Proof.
  revert P. induction gs as [|g gs IH]; intros P HP Hp; cbn [verifyGroups].
  - apply triple_ret. intros w _ ?. split; [done|]. intros _ g Hg. by apply elem_of_nil in Hg.
  - destruct (Catalog g) eqn:Hc.
    + apply (triple_conseq _ P _ _ (λ r w, P w ∧ (r = Ok () → eachShard gs (λ g w, brings w name d (ref g)) w)) _); [done| |apply IH; [done|]].
      * intros r w _ [? H]. split; [done|]. intros Hr. apply eachShard_cons; [by rewrite Hc|auto].
      * intros w h Hw Hin. by apply Hp; [|right].
    + eapply (wrap_bind _ _ _ _ _ _ _ (λ on w, on = true → brings w name d (ref g))); [| |intros e w _ ?; by split].
      * apply askServer_spec; [done|]. intros w s on Hi Hw Hs [= <-] He.
        destruct (Hp w g Hw ltac:(by left) Hc) as (s' & Hs' & [[_ Hd]|?]); simplify_eq; [congruence|done].
      * intros [|]; [|apply triple_fail; intros w _ [? _]; by split]. cbn [negb].
        apply (triple_conseq _ (λ w, P w ∧ brings w name d (ref g)) _ _
          (λ r w, (P w ∧ brings w name d (ref g)) ∧ (r = Ok () → eachShard gs (λ g w, brings w name d (ref g)) w)) _); [intros w _ [? H]; auto| |].
        { intros r w _ [[? ?] Hq]. split; [done|]. intros Hr. by apply eachShard_cons; auto. }
        assert (closed (λ w, P w ∧ brings w name d (ref g))) as HP' by (apply closed_and; [done|apply brings_closed]).
        apply triple_placid_bind; [done|auto with barrier| |by intros e w _ ?; split]. intros n.
        case_match; [apply triple_fail; intros w _ ?; by split|]. apply IH; [done|]. intros w h [Hw _] Hin. by apply Hp; [|right].
Qed.

(** ** The record *)

Local Notation addGroups := (fold_left (λ (m : gmap string GroupRestorePoint) g, <[Group g := g]> m)).
Lemma addGroups_lookup ps m g p : addGroups ps m !! g = Some p → p ∈ ps ∧ Group p = g ∨ m !! g = Some p.
Proof.
  revert m. induction ps as [|q ps IH]; intros m; cbn; [by right|]. intros [[? ?]|Hm]%IH; [left; split; [by right|done]|].
  destruct (decide (Group q = g)) as [<-|Hne]; [rewrite lookup_insert_eq in Hm; simplify_eq; left; split; [by left|done]|].
  rewrite lookup_insert_ne in Hm by done. by right.
Qed.
Lemma addGroups_keeps ps m g : is_Some (m !! g) → is_Some (addGroups ps m !! g).
Proof.
  revert m. induction ps as [|q ps IH]; intros m Hm; cbn; [done|]. apply IH.
  destruct (decide (Group q = g)) as [<-|Hne]; [by rewrite lookup_insert_eq|by rewrite lookup_insert_ne].
Qed.
Lemma perGroup_lookup ps g p : perGroup ps !! g = Some p → p ∈ ps ∧ Group p = g.
Proof. intros [?|Hm]%addGroups_lookup; [done|]. by rewrite lookup_empty in Hm. Qed.
Lemma perGroup_head p ps : is_Some (perGroup (p :: ps) !! Group p).
Proof. apply (addGroups_keeps ps (<[Group p := p]> ∅)). by rewrite lookup_insert_eq. Qed.

Lemma sound_of d gs ps w :
  (∀ g, g ∈ gs → Catalog g = false ∧ Name g = groupName (ref g)) →
  moment d w → nonePreparing d → brings w name d catalogRef → eachShard gs (λ g w, brings w name d (ref g)) w →
  pointsOf (catalogGroup :: gs) ps w → archivedAll (catalogGroup :: gs) ps w → sound w name (perGroup ps).
Proof.
  intros Hgs (Hse & H0 & H1 & _) Hn Hc Hs Hp Ha. exists d. split_and!; [done..| |].
  - inversion Hp as [|? p ? ps' [Hg _] _]; subst. rewrite (eq_sym Hg : CatalogGroup = Group p). apply perGroup_head.
  - intros g p [Hin <-]%perGroup_lookup. apply list_elem_of_lookup in Hin as [i Hi].
    destruct (Forall2_lookup_r _ _ _ _ _ Hp Hi) as (h & Hh & Hg & _). destruct (Forall2_lookup_r _ _ _ _ _ Ha Hi) as (h' & Hh' & Har).
    simplify_eq. exists (ref h). apply list_elem_of_lookup_2 in Hh. rewrite Hg.
    apply elem_of_cons in Hh as [->|Hh]; [by split_and!|]. destruct (Hgs h Hh) as [Hcat Hname]. split_and!; [|by apply Hs|done].
    unfold nameOf. rewrite decide_False; [done|]. intros He. apply (f_equal fst) in He. cbn in He. unfold Catalog in Hcat. by rewrite He in Hcat.
Qed.
Lemma sound_closed groups : closed (λ w, sound w name groups).
Proof. intros w w' He. apply sound_grows. by apply evolves_grows. Qed.
Lemma record_spec rp :
  RPName rp = name → triple (λ w, sound w name (perGroup (Groups rp))) (RecordPoint rp) (λ _ _, True).
Proof.
  intros Hrp. apply triple_stmt; [apply sound_closed|]. intros w Hi Hs. split; [|done].
  destruct (b_rps w !! RPName rp) as [r|] eqn:Hr; [|done]. destruct (r_certified r); [done|]. cbn.
  eapply (Inv_grows _ _ _ _ w); [done|split; [done|done|eauto]|by apply Hi|by apply Hi|by apply Hi|by apply Hi|..]; cbn.
  - intros sh l n i Hl Hin. destruct (inv_points _ _ _ _ _ Hi sh l n i Hl Hin) as (m & -> & Hm). exists m. split; [done|].
    destruct (decide (m = RPName rp)) as [->|]; [by rewrite lookup_insert_eq|by rewrite lookup_insert_ne].
  - intros n r'. destruct (decide (n = RPName rp)) as [->|]; [rewrite lookup_insert_eq; intros [= <-] _; right; by rewrite Hrp|].
    rewrite lookup_insert_ne by done. by left.
Qed.
End Points.

(** ** The whole run *)

(** The name is taken, and no group has a point of it. *)
Definition claimed (name : string) (w : world) : Prop := reserved name w ∧ ∀ sh, fresh name sh w.
Lemma claimed_closed name : closed (claimed name).
Proof. apply closed_and; [apply reserved_closed|apply closed_forall; intros sh; apply fresh_closed]. Qed.

Section Fenced.
Context (name : string) (gs : list GroupRef) (at_ : gmap string Z).
Hypothesis gs_nodup : NoDup (ref <$> gs).
Hypothesis gs_named : ∀ g, g ∈ gs → Catalog g = false ∧ Name g = groupName (ref g).

(** From the points to the record. *)
Lemma certify_spec before owner ps d :
  triple (λ w, progress name before d gs [] w ∧ pointsOf (catalogGroup :: gs) ps w)
    (_ ← awaitArchived b (catalogGroup :: gs) ps;
     after ← DecisionWatermark;
     if 0 <? after - before then fail (EText "two-phase transactions started while the fence was up") else
     generation ← wrap "shard map generation" ShardMapGeneration;
     _ ← verify owner (catalogGroup :: gs) at_;
     t ← now;
     let rp := mkRP name generation true ps t in
     _ ← wrap "record" (RecordPoint rp);
     mret rp) (λ _ _, True).
Proof.
  set (P := λ w, progress name before d gs [] w ∧ pointsOf (catalogGroup :: gs) ps w).
  assert (closed P) as HP by (apply closed_and; [apply progress_closed|apply pointsOf_closed]).
  set (P2 := λ w, P w ∧ archivedAll (catalogGroup :: gs) ps w).
  assert (closed P2) as HP2 by (apply closed_and; [done|apply archivedAll_closed]).
  set (P3 := λ w, P2 w ∧ nonePreparing d).
  assert (closed P3) as HP3 by (apply closed_and; [done|apply closed_pure]).
  eapply (triple_bind _ _ _ _ (λ r w, P w ∧ (r = Ok () → archivedAll (catalogGroup :: gs) ps w))); [| |done].
  { unfold awaitArchived. apply triple_now_bind; [done|]. intros t. apply awaitSegments_spec; [done|]. by intros w [_ ?]. }
  intros []. apply (triple_conseq _ P2 _ _ (λ _ _, True)); [intros w _ [? H]; split; [done|by apply H]|done|].
  eapply (triple_bind _ _ _ _ (λ r w, P2 w ∧ ∀ n, r = Ok n → n ≤ before → nonePreparing d)); [| |done].
  { apply triple_ask; [done|]. intros w Hi Hw. split; [|by split]. split; [done|]. intros n [= <-] Hle.
    destruct Hw as [[((_ & _ & _ & [Hlt|?]) & _) _] _]; [lia|done]. }
  intros after. destruct (Z.ltb_spec 0 (after - before)) as [|Hle]; [by apply triple_fail|].
  apply (triple_conseq _ P3 _ _ (λ _ _, True)); [intros w _ [? H]; split; [done|]; apply (H after); [done|lia]|done|].
  apply triple_placid_bind; [done|apply wrap_placid, placid_ask| |done]. intros generation.
  eapply (triple_bind _ _ _ _ (λ r w, P3 w ∧ (r = Ok () → eachShard (catalogGroup :: gs) (λ g w, brings w name d (ref g)) w))); [| |done].
  { unfold verify. apply triple_placid_bind; [done|apply wrap_placid, placid_ask| |by intros e w _ ?; split]. intros [|]; [|by apply triple_fail].
    apply verifyGroups_spec; [done|]. intros w g [[[(_ & _ & _ & Hp & _) _] _] _] [->|Hg]%elem_of_cons; [done|]. intros _. by apply Hp. }
  intros []. apply (triple_conseq _ (λ w, sound w name (perGroup ps)) _ _ (λ _ _, True)); [|done|].
  - intros w _ [[[[(Hm & _ & Hc & _) Hpo] Ha] Hn] Hb]. eapply sound_of; [done|exact Hm|exact Hn|exact Hc| |exact Hpo|exact Ha]. intros g Hg Hcg. apply Hb; [done|by right|done].
  - apply triple_now_bind; [apply sound_closed|]. intros t. eapply (triple_bind _ _ _ _ (λ _ _, True)); [|intros; by apply triple_ret|done].
    apply (triple_conseq _ (λ w, sound w name (perGroup ps)) _ _ (λ r w, match r with Ok _ => True | Err _ => True end)); [done|done|].
    apply (triple_wrap _ _ _ _ _ _ _ (λ _ _, True) (λ _, True)).
    apply (triple_conseq _ (λ w, sound w name (perGroup ps)) _ _ (λ _ _, True)); [done|by intros []|]. exact (record_spec name (mkRP name generation true ps t) eq_refl).
Qed.

Lemma fenced_spec owner :
  (∀ g, g ∈ gs → Retired g = false) →
  triple (λ w, claimed name w ∧ heldAll gs at_ w) (fenced b name owner (catalogGroup :: gs) at_) (λ _ _, True).
Proof.
  intros Hret. set (P := λ w, claimed name w ∧ heldAll gs at_ w).
  assert (closed P) as HP by (apply closed_and; [apply claimed_closed|apply heldAll_closed]).
  assert (∀ g, g ∈ gs → Catalog g = false) as Hcat by (intros g Hg; by apply gs_named).
  assert (∀ w g, P w → g ∈ catalogGroup :: gs → Catalog g = false → held w (ref g) (default 0 (at_ !! Name g))) as Hheld.
  { intros w g [_ Hw] [->|Hg]%elem_of_cons Hc; [done|]. apply Hw; auto. }
  unfold fenced. apply triple_placid_bind; [done|apply placid_ask| |done]. intros _t.
  apply triple_placid_bind; [done|auto with barrier| |done]. intros _d.
  set (C := λ w, P w ∧ eachShard (catalogGroup :: gs) (λ g w, calmed w (ref g)) w).
  assert (closed C) as HC by (apply closed_and; [done|apply eachShard_closed; intros; apply calmed_closed]).
  eapply triple_bind; [by apply drainWriters_spec| |done]. intros [].
  apply (triple_conseq _ C _ _ (λ _ _, True)); [intros w _ [? H]; split; [done|by apply H]|done|].
  eapply (triple_bind _ _ _ _ (λ r w, C w ∧ ∀ n, r = Ok n → n ≤ b_seq w)); [| |done].
  { apply triple_ask; [done|]. intros w _ Hw. split; [|by split]. split; [done|]. by intros n [= <-]. }
  intros before. set (B := λ w, C w ∧ before ≤ b_seq w).
  assert (closed B) as HB by (apply closed_and; [done|apply seq_closed]).
  apply (triple_conseq _ B _ _ (λ _ _, True)); [intros w _ [? H]; split; [done|by apply H]|done|].
  eapply (triple_bind _ _ _ _ (λ r w, B w ∧ (r = Ok () → settledAt before w ∧ eachShard (catalogGroup :: gs) (λ g w, quiet w (ref g)) w))); [| |done].
  { apply drain_spec; [done| |by intros w [_ ?]]. intros w g [[_ Hw] _] Hg Hc. by apply Hw. }
  intros []. apply (triple_conseq _ (drained name before gs) _ _ (λ _ _, True)); [|done|].
  { intros w _ [[[[[? ?] _] _] _] Hd]. destruct (Hd eq_refl) as [? Hq]. split_and!; [done..|]. intros g Hg Hc. apply Hq; [by right|done]. }
  apply triple_placid_bind; [apply drained_closed|auto with barrier| |done]. intros _w.
  eapply (triple_bind _ _ _ _ (λ r w, ∀ ps, r = Ok ps → ∃ d, progress name before d gs [] w ∧ pointsOf (catalogGroup :: gs) ps w)); [| |done].
  { by apply allPoints_spec. }
  intros ps. apply (triple_conseq _ (λ w, ∃ d, progress name before d gs [] w ∧ pointsOf (catalogGroup :: gs) ps w) _ _ (λ _ _, True));
    [intros w _ H; by apply H|done|].
  apply triple_exists. intros d. apply certify_spec.
Qed.
End Fenced.

Lemma listed_named l : listing groupName l → named groupName (catalogGroup :: l).
Proof.
  intros [Hnd Hl]. assert (∀ g, g ∈ l → ref g ≠ catalogRef) as Hne.
  { intros g Hg He. destruct (Hl g Hg) as [Hc _]. apply (f_equal fst) in He. cbn in He. unfold Catalog in Hc. by rewrite He in Hc. }
  split.
  - cbn. apply NoDup_cons. split; [|done]. intros (g & He & Hg)%list_elem_of_fmap. by destruct (Hne g Hg).
  - intros g [->|Hg]%elem_of_cons Hc; [done|]. by apply Hl.
Qed.
Lemma under_fence_spec name owner l :
  listing groupName l →
  triple (claimed name) (_ ← settleFence b; at_ ← pauseAll (catalogGroup :: l); fenced b name owner (activeGroups (catalogGroup :: l)) at_) (λ _ _, True).
Proof.
  intros Hl. pose proof (listed_named l Hl) as Hn. destruct Hl as [Hnd Hl].
  apply triple_placid_bind; [apply claimed_closed|auto with barrier| |done]. intros _s. unfold pauseAll.
  eapply (triple_bind _ _ _ _ (λ r w, ∀ at_, r = Ok at_ → heldF (claimed name) (catalogGroup :: l) at_ w)); [| |done].
  - apply triple_placid_bind; [apply claimed_closed|auto with barrier| |done]. intros _c.
    apply (triple_conseq _ (heldF (claimed name) [] ∅) _ _ (λ r w, ∀ at_, r = Ok at_ → heldF (claimed name) (catalogGroup :: l) at_ w)); [|done|].
    + intros w _ ?. split; [|done]. intros g Hg. by apply elem_of_nil in Hg.
    + by apply (pauseEach_spec _ _ _ _ (claimed name) (claimed_closed name) ltac:(done) (catalogGroup :: l) []).
  - intros at_. change (activeGroups (catalogGroup :: l)) with (catalogGroup :: activeGroups l).
    eapply triple_conseq; [|intros r w _ H; exact H|apply fenced_spec].
    + intros w _ H. destruct (H at_ eq_refl) as [Hh Hc]. split; [done|]. intros g [_ Hg]%list_elem_of_filter Hc' Hr. apply Hh; [by right|done..].
    + by apply NoDup_fmap_filter.
    + intros g [_ Hg]%list_elem_of_filter. by apply Hl.
    + by intros g [? _]%list_elem_of_filter.
Qed.
Lemma run_spec name : triple (claimed name) (run b name) (λ _ _, True).
Proof.
  unfold run. eapply (triple_bind _ _ _ _ (λ r w, match r with Ok all => claimed name w ∧ ∃ l, all = catalogGroup :: l ∧ listing groupName l | Err _ => True end)); [| |done].
  - apply (triple_wrap _ _ _ _ _ _ _ (λ all w, claimed name w ∧ ∃ l, all = catalogGroup :: l ∧ listing groupName l) (λ _, True)).
    apply triple_ask; [apply claimed_closed|]. intros w Hi Hw. split; [|done]. split; [done|]. exists (b_groups w). split; [done|apply Hi].
  - intros all. apply (triple_conseq _ (λ w, (∃ l, all = catalogGroup :: l ∧ listing groupName l) ∧ claimed name w) _ _ (λ _ _, True)); [by intros w _ [? ?]|done|].
    apply triple_and_pure. intros (l & -> & Hl). pose proof (claimed_closed name) as Hcl.
    case_bool_decide; [by apply triple_fail|].
    apply triple_placid_bind; [done|auto with barrier| |done]. intros owner.
    apply triple_placid_bind; [done|apply wrap_placid; auto with barrier| |done]. intros _f.
    eapply triple_try; [by apply under_fence_spec|]. intros rp. apply triple_any. placid.
Qed.

Lemma RestorePointName_inj n m : RestorePointName n = RestorePointName m → n = m.
Proof. intros H. injection H as H. exact H. Qed.
Lemma pointNamed_elem l n i : pointNamed l n = Some i → (n, i) ∈ l.
Proof.
  induction l as [|[m j] l IH]; cbn; [done|]. destruct (String.eqb_spec m n) as [->|]; [intros [= ->]; by left|]. intros H. right. auto.
Qed.
Lemma Reserve_spec name : triple (λ _, True) (wrap "reserve" (Reserve name)) (λ r w, match r with Ok _ => claimed name w | Err _ => True end).
Proof.
  apply (triple_wrap _ _ _ _ _ _ _ (λ _, claimed name) (λ _, True)). apply triple_stmt; [apply closed_pure|]. intros w Hi _.
  destruct (placid_stmt R _ (proj1 (Reserve_placid db_step groupName d0 seen name))) as [Hpl _]. destruct (Hpl w Hi) as [Hi' _]. split; [exact Hi'|].
  split; [|done]. destruct (b_rps w !! name) as [r|] eqn:Hr; [done|]. cbn. split; [unfold reserved; cbn; by rewrite lookup_insert_eq|].
  intros sh. unfold fresh. change (recoverTo w sh (RestorePointName name) = None).
  destruct (recoverTo w sh (RestorePointName name)) as [i|] eqn:E; [exfalso|done]. unfold recoverTo in E.
  destruct (b_points w !! sh) as [l|] eqn:Hl; [|done]. apply pointNamed_elem in E.
  destruct (inv_points _ _ _ _ _ Hi sh l _ i Hl E) as (m & Hm%RestorePointName_inj & Hs). subst m. rewrite Hr in Hs. by destruct Hs.
Qed.
Lemma Run_spec name : triple (λ _, True) (Run b name) (λ _ _, True).
Proof.
  unfold Run. case_match; [by apply triple_fail|].
  apply triple_placid_bind; [apply closed_pure|auto with barrier| |done]. intros _l.
  eapply (triple_try _ _ _ _ (λ _ _, True)); [|intros r; apply triple_any; placid].
  unfold reservedRun. apply triple_placid_bind; [apply closed_pure|apply placid_ask| |done]. intros []; [by apply triple_fail|].
  eapply triple_bind; [apply Reserve_spec| |done]. intros _r.
  eapply triple_try; [apply run_spec|]. intros r. apply triple_any. placid.
Qed.
Lemma pass_spec w : Inv w → Prog.wp env Inv (λ _ _, True) (pass b) w (λ _ _, True).
Proof.
  intros Hi. assert (triple (λ _, True) (pass b) (λ _ _, True)) as H; [|by eapply wp_mono; [|apply H]].
  unfold pass. eapply (triple_pbind _ _ _ _ (λ _ _, True)); [apply triple_any, placid_ask|]. intros [[[name|]|]|e].
  - eapply triple_pbind; [apply Run_spec|]. by intros r w' Hi' _.
  - eapply (triple_pbind _ _ _ _ (λ _ _, True)); [apply triple_any; auto with barrier|]. by intros r w' Hi' _.
  - by intros w' Hi' _.
  - by intros w' Hi' _.
Qed.
End Cert.

(** ** Theorems *)

(** A cluster before its first barrier. *)
Record started (groupName : ShardRef → string) (w : world) : Prop := {
  st_groups : listing groupName (b_groups w);
  st_sessions : b_sessions w = ∅;
  st_servers : ∀ sh s, b_servers w !! sh = Some s → serverOk s;
  st_points : b_points w = ∅;
  st_rps : b_rps w = ∅ }.

Section Invariant.
Context (db_step : TwoPhase.world → op → TwoPhase.world → resp → Prop) `{!Sql db_step} (groupName : ShardRef → string) (b : Barrier).
Context `{!Inj (=) (=) groupName}.
Local Notation db_evolves := (db_evolves db_step).
Local Notation env := (env db_step groupName).
Local Notation state := (world * option (prog ()))%type.

(** The databases met in the states of a run. *)
Definition met (s0 : state) (tr : list state) (d : databases) : Prop := ∃ s1, s1 ∈ s0 :: tr ∧ b_dbs s1.1 = d.

Lemma barrier_started_inv w (seen : databases → Prop) : started groupName w → seen (b_dbs w) → Inv db_step groupName (b_dbs w) seen w.
Proof.
  intros [Hg Hs Hsv Hp Hr] Hse. split; [done|done|done| |done|..].
  - intros pid o. by rewrite Hs, lookup_empty.
  - intros sh l n i. by rewrite Hp, lookup_empty.
  - intros n r. by rewrite Hr, lookup_empty.
Qed.
Lemma env_seen_step (l : list state) s s' :
  Prog.sys_step env (pass b) s s' ∧ s' ∈ l → Prog.sys_step (env_seen db_step groupName (λ d, ∃ s1, s1 ∈ l ∧ b_dbs s1.1 = d)) (pass b) s s'.
Proof.
  intros [Hst Hin]. destruct Hst as [w w' p He|w|w w' p p' Hs|w|w p]; [|by constructor..].
  apply sys_env. split; [done|]. right. by exists (w', p).
Qed.
Lemma barrier_path_inv w0 tr s :
  started groupName w0 → path (Prog.sys_step env (pass b)) (w0, None) tr s →
  Inv db_step groupName (b_dbs w0) (met (w0, None) tr) s.1.
Proof.
  intros Hst Hr. set (V := met (w0, None) tr).
  assert (V (b_dbs w0)) as HV by (exists (w0, None); split; [by left|done]).
  pose proof (barrier_started_inv w0 V Hst HV) as Hi.
  apply path_within, (path_mono _ _ _ _ _ (env_seen_step ((w0, None) :: tr))), path_rtc in Hr.
  assert (safe (env_seen db_step groupName V) (Inv db_step groupName (b_dbs w0) V) (λ _ _, True) s) as [? _]; [|done].
  eapply (reach_safe (env_seen db_step groupName V) (Inv db_step groupName (b_dbs w0) V) (λ _ _, True)); [..|exact Hr|by split].
  - intros w w' He Hw. by apply (barrier_env_keeps db_step groupName (b_dbs w0) V w w').
  - done.
  - done.
  - intros d w. split; [apply env_clock; lia|by left].
  - by apply pass_spec.
Qed.

Lemma evolves_log d d' : rtc db_evolves d d' → d_commits d `prefix_of` d_commits d'.
Proof. induction 1 as [|d1 d2 d3 Hs _ IH]; [done|]. etrans; [|exact IH]. destruct Hs; cbn; [done|by apply prefix_app_r|done]. Qed.
Lemma evolves_2pc d d' :
  rtc db_evolves d d' → rtc (TwoPhase.sys_step db_step) (d_tp d, d_procs d) (d_tp d', d_procs d').
Proof.
  induction 1 as [|d1 d2 d3 Hs _ IH]; [done|]. etrans; [|exact IH]. destruct Hs; cbn; [by apply rtc_once|done..].
Qed.
End Invariant.

Section Theorems.
Context (env_error : pgerr → Prop) (groupName : ShardRef → string) (b : Barrier).
Context `{!Inj (=) (=) groupName}.
Local Notation state := (world * option (prog ()))%type.
Local Notation step := (Prog.sys_step (env_open (sql_step env_error) groupName) (pass b)).

(** Somebody else breaks into a pause; no step of [env] or of a pass does. *)
Definition intruded : state → state → Prop := outsider intrudes.
Lemma step_or_intruded s s' : step s s' → Prog.sys_step (env (sql_step env_error) groupName) (pass b) s s' ∨ intruded s s'.
Proof. apply sys_step_or_outsider. Qed.
Lemma intruded_foreign s s' : Prog.sys_step (env (sql_step env_error) groupName) (pass b) s s' → ¬ intruded s s'.
Proof. apply sys_no_outsider, barrier_no_intruder. Qed.


(** ** Two-phase commits in a restored cluster *)

Hypothesis name_not_catalog : ∀ sh, groupName sh ≠ CatalogGroup.
Context (where_text : bool → holder → string).
Context (ps : list process).

Lemma nameOf_inj sh sh' : nameOf groupName sh = nameOf groupName sh' → sh = sh'.
Proof.
  unfold nameOf. destruct (decide (sh = catalogRef)) as [->|], (decide (sh' = catalogRef)) as [->|]; [done| | |apply (inj groupName)].
  - intros He. by destruct (name_not_catalog sh').
  - intros He. by destruct (name_not_catalog sh).
Qed.

(** What a recovery of the group at [sh] to the restore point [n] brings back of
    the transaction [g]. *)
Definition restored (w : world) (n : string) (sh : ShardRef) (g : string) : option tstate :=
  i ← recoverTo w sh (RestorePointName n); i_txns i !! g.
Definition restoredRow (w : world) (n g : string) : option string :=
  i ← recoverTo w catalogRef (RestorePointName n); d_state <$> i_rows i !! g.

(** An answer misleads a resolver. *)
Definition misguided (s s' : state) : Prop :=
  misled env_error where_text (d_tp (b_dbs s.1), d_procs (b_dbs s.1)) (d_tp (b_dbs s'.1), d_procs (b_dbs s'.1)).
Lemma env_or_misguided w w' p : env (sql_step env_error) groupName w w' → env (careful env_error where_text) groupName w w' ∨ misguided (w, p) (w', p).
Proof.
  intros [tp procs seq Hst Hnb Hle Hnew| | | | | | | | | | | | | | | | |]; [|left; by econstructor..].
  destruct (step_careful_or_misled env_error where_text _ _ Hst); [left; by apply env_2pc|by right].
Qed.
Lemma step_or_foul s s' :
  step s s' → Prog.sys_step (env (careful env_error where_text) groupName) (pass b) s s' ∨ (intruded s s' ∨ misguided s s').
Proof.
  intros [Hst|Hst]%step_or_intruded; [|by right; left]. destruct Hst as [w w' p He|w|w w' p p' Hs|w|w p]; [|left; by constructor..].
  destruct (env_or_misguided w w' p He); [left; by constructor|by right; right].
Qed.

(** C7. Two-phase commits are whole in a restored cluster: in the databases a
    recovery to a certified restore point brings back, a transaction that a
    coordinator ran on shards that are all in the restore point is committed on
    all of them or on none, it is prepared nowhere, and a commit decision in the
    restored catalog is one that all of its shards carried out, so that
    reconciliation finds nothing to do.  The exceptions are those of
    [certified_point_is_a_moment] and of [two_phase_commit_atomic]. *)
Theorem restored_commits_whole w0 tr s n r t :
  started groupName w0 → d_procs (b_dbs w0) = Some ∘ process_prog where_text <$> ps → initial (d_tp (b_dbs w0)) ps →
  path step (w0, None) tr s → b_rps s.1 !! n = Some r → r_certified r = true →
  PCoordinate t ∈ ps → (∀ sh, sh ∈ t_writers t → sh ≠ catalogRef ∧ is_Some (r_groups r !! nameOf groupName sh)) →
  (∀ sh, sh ∈ t_writers t → restored s.1 n sh (t_gid t) = Some TCommitted) ∨
  ((∀ sh, sh ∈ t_writers t → restored s.1 n sh (t_gid t) = None) ∧ restoredRow s.1 n (t_gid t) ≠ Some "commit"%string) ∨
  occurs (λ s s', intruded s s' ∨ misguided s s') (w0, None) tr.
Proof.
  intros Hst Hprocs Hinit Hr Hn Hc Ht Hcov.
  destruct (path_split _ _ _ _ _ _ step_or_foul Hr) as [Hr'|]; [|by right; right]. apply or_assoc. left.
  destruct (inv_certified _ _ _ _ _ (barrier_path_inv _ _ _ w0 tr s Hst Hr') n r Hn Hc) as (d & _ & H0 & _ & _ & [pc Hpc] & Hg).
  apply evolves_2pc in H0. rewrite Hprocs in H0.
  destruct (system_safe env_error where_text ps _ Hinit _ H0) as (γ & Hinv & _).
  destruct (Hinv _ _ (coordinated_lookup ps _ Hinit t Ht)) as [Hvi _]. cbn in Hvi.
  assert (∀ sh, sh ∈ t_writers t → restored s.1 n sh (t_gid t) =
    match w_txns (d_tp d) !! (sh, t_gid t) with Some TCommitted => Some TCommitted | _ => None end) as Hres.
  { intros sh Hsh. destruct (Hcov sh Hsh) as [Hne [p Hp]]. destruct (Hg _ _ Hp) as (sh' & He%nameOf_inj & [Hb Hnp] & _). subst sh'.
    unfold restored. rewrite Hb. cbn. rewrite persisted_lookup. destruct (Hnp Hne) as [Hnone _]. specialize (Hnone (t_gid t)).
    destruct (w_txns (d_tp d) !! (sh, t_gid t)) as [[]|]; try done. by edestruct Hnone. }
  assert (restoredRow s.1 n (t_gid t) = d_state <$> w_rows (d_tp d) !! t_gid t) as Hrow.
  { destruct (Hg _ _ Hpc) as (sh' & He & [Hb _] & _). change CatalogGroup with (nameOf groupName catalogRef) in He. apply nameOf_inj in He as <-.
    unfold restoredRow. by rewrite Hb. }
  rewrite Hrow. unfold view_inv in Hvi. cbn in Hvi. destruct (γ (t_gid t)).
  - right. destruct Hvi as [Hr0 Hvi]. split; [|by rewrite Hr0]. intros sh Hsh. rewrite Hres by done. destruct (Hvi sh Hsh) as [_ Hnc].
    by destruct (w_txns (d_tp d) !! (sh, t_gid t)) as [[]|].
  - right. destruct Hvi as [Hr0 Hvi]. split; [|done]. intros sh Hsh. rewrite Hres by done. specialize (Hvi sh Hsh).
    by destruct (w_txns (d_tp d) !! (sh, t_gid t)) as [[]|].
  - right. destruct Hvi as [Hr0 Hvi]. split; [|done]. intros sh Hsh. rewrite Hres by done. specialize (Hvi sh Hsh).
    by destruct (w_txns (d_tp d) !! (sh, t_gid t)) as [[]|].
  - left. destruct Hvi as [_ Hvi]. intros sh Hsh. rewrite Hres by done. destruct (Hcov sh Hsh) as [Hne [p Hp]].
    destruct (Hg _ _ Hp) as (sh' & He%nameOf_inj & [_ Hnp] & _). subst sh'.
    destruct (Hvi sh Hsh) as [[db Hdb]|Hdb]; [|by rewrite Hdb]. by destruct (Hnp Hne) as [Hnone _]; destruct (Hnone _ _ Hdb).
Qed.
End Theorems.
