(* ===== verification/BarrierRun.v ===== *)
(** * Barriers, run

    An executable scheduler for the system of [BarrierCert], and runs of whole
    barriers: one that certifies a restore point with a two-phase commit behind
    it; one in which a pause that was lifted and raised again between the
    barrier's looks goes unnoticed; and one in which recovery misses a pause
    that is set but not yet in force. *)

From stdpp Require Import pretty.
From S2P Require Import Prelude TwoPhase Commitment Coordinator Resolver Logic Atomicity Progress Prog Triples Archive BarrierWorld Barrier BarrierDb BarrierSafety BarrierProof BarrierCert.

Local Open Scope Z_scope.

(** ** A scheduler *)

(** The environment, without others that raise pauses or with them. *)
Section Raising.
Context (env_error : pgerr → Prop) (groupName : ShardRef → string).
Definition envOf (raising : bool) : world → world → Prop := if raising then env_raising (sql_step env_error) groupName else env (sql_step env_error) groupName.
Lemma envOf_env raising w w' : env (sql_step env_error) groupName w w' → envOf raising w w'.
Proof. destruct raising; [apply er_env|done]. Qed.
End Raising.

Lemma no_birth_refl tp : no_birth tp tp.
Proof. by intros k. Qed.
Lemma set_rows_no_birth tp rows : no_birth tp (set_rows tp rows).
Proof. by intros k. Qed.
#[local] Hint Resolve no_birth_refl set_rows_no_birth : core.
Lemma set_txn_no_birth tp sh g t x : w_txns tp !! (sh, g) = Some x → no_birth tp (set_txn tp sh g t).
Proof. intros Hx k Hk. cbn. rewrite lookup_insert_ne; [done|congruence]. Qed.
Lemma decide_row_no_birth tp g s : no_birth tp (decide_row tp g s).1.
Proof. unfold decide_row. destruct (w_rows tp !! g); [|done]. case_match; cbn; done. Qed.
Lemma finish_prepared_no_birth tp sh db c g : no_birth tp (finish_prepared tp sh db c g).1.
Proof.
  unfold finish_prepared. destruct (w_txns tp !! (sh, g)) as [t|] eqn:E; [|done]. destruct t; try done.
  case_decide; [by eapply set_txn_no_birth|done].
Qed.
(** Statements of two-phase commits are about transactions that began. *)
Lemma sql_exec_no_birth tp o : no_birth tp (sql_exec tp o).1.
Proof.
  destruct o as [| | | | | | | | | |sh gid|sh gid|sh gid| | | |]; cbn [sql_exec fst]; try done;
    try apply finish_prepared_no_birth; try apply decide_row_no_birth; try (repeat case_match; cbn; done).
  - case_match; [|done]. case_match; [apply decide_row_no_birth|done].
  - destruct (w_txns tp !! (sh, gid)) as [t|] eqn:E; [|done]. destruct t; try done; by eapply set_txn_no_birth.
  - destruct (w_txns tp !! (sh, gid)) as [t|] eqn:E; [|done]. destruct t; try done; by eapply set_txn_no_birth.
Qed.

(** One statement of a process, or the end of a round of them. *)
Definition answered (slots : list (op + resp)) : option (list resp) :=
  mapM (λ x, match x with inr r => Some r | inl _ => None end) slots.
Definition slot_step (tp : TwoPhase.world) (p : TwoPhase.prog answer) (j : nat) : option (TwoPhase.world * TwoPhase.prog answer) :=
  match p with
  | Each slots k =>
      match slots !! j with
      | Some (inl o) => Some ((sql_exec tp o).1, Each (<[j := inr (sql_exec tp o).2]> slots) k)
      | _ => rs ← answered slots; Some (tp, k rs)
      end
  | TwoPhase.Ret _ => None
  end.
Lemma answered_slots slots rs : answered slots = Some rs → slots = inr <$> rs.
Proof.
  unfold answered. intros H%mapM_Some. induction H as [|x r slots rs Hx _ IH]; [done|]. cbn. rewrite <- IH. by destruct x; simplify_eq.
Qed.
Lemma slot_step_sound E tp p j tp' p' :
  slot_step tp p j = Some (tp', p') → thread_step (sql_step E) tp p tp' p' ∧ no_birth tp tp'.
Proof.
  destruct p as [a|slots k]; cbn; [done|]. intros H.
  assert ((rs ← answered slots; Some (tp, k rs)) = Some (tp', p') → thread_step (sql_step E) tp (Each slots k) tp' p' ∧ no_birth tp tp') as Hj.
  { intros (rs & Hrs%answered_slots & [= <- <-])%bind_Some. rewrite Hrs. split; [constructor|done]. }
  destruct (slots !! j) as [[o|r]|] eqn:Hl; [|by apply Hj|by apply Hj]. injection H as <- <-. split; [|apply sql_exec_no_birth].
  eapply thread_issue; [done|constructor].
Qed.

Inductive act := AStart | AOk | ALost (after : bool) | ACrash | ARequest (r : option (option string)) | AClock (n : Z)
  | ABegin (pid : Z) (sh : ShardRef) | ACommit (pid n : Z) | AReload (sh : ShardRef) | ALift (sh : ShardRef) | ARaise (sh : ShardRef)
  | AArchive (sh : ShardRef) (n : Z) | A2pc (i j : nat) | AUnlocked.

#[export] Instance walFile_eq_dec : EqDecision walFile.
Proof. solve_decision. Defined.

Section Schedule.
Context (env_error : pgerr → Prop) (groupName : ShardRef → string) (b : Barrier) (raising : bool).
Local Notation state := (world * option (prog ()))%type.
Local Notation env := (envOf env_error groupName raising).

Definition setServer (w : world) (sh : ShardRef) (f : server → server) : option world :=
  s ← b_servers w !! sh; Some {| w with b_servers := <[sh := f s]> (b_servers w) |}.
Definition mayArchive (s : server) (n : Z) : bool :=
  bool_decide (timelineOk (s_timeline s) ∧ segmentOk n) && bool_decide ((s_timeline s, n) ∈ s_closed s) &&
  bool_decide (set_Forall (λ x : Z * Z, x.1 ≠ s_timeline s ∨ n ≤ x.2 ∨ Segment x.1 x.2 ∈ s_archived s) (s_wal s)).
Definition env_act (a : act) (w : world) : option world :=
  match a with
  | ARequest r => Some {| w with b_signals := b_signals w; b_cancelled := b_cancelled w; b_request := r |}
  | AClock n => if 0 <=? n then Some {| w with b_clock := b_clock w + n |} else None
  | ABegin pid sh =>
      on ← effective w sh;
      if bool_decide (b_sessions w !! pid = None) && negb on
      then Some {| w with b_sessions := <[pid := mkSession sh (b_clock w) true false false]> (b_sessions w) |} else None
  | ACommit pid n =>
      o ← b_sessions w !! pid;
      if o_rw o then Some {| w with b_sessions := delete pid (b_sessions w);
                                    b_dbs := {| (b_dbs w) with d_commits := d_commits (b_dbs w) ++ [(o_group o, n)] |} |} else None
  | AReload sh => setServer w sh (λ s, {| s with s_effective := s_setting s |})
  | ALift sh => setServer w sh (λ s, {| s with s_setting := false |})
  | ARaise sh => if raising then setServer w sh (λ s, {| s with s_setting := true |}) else None
  | AArchive sh n =>
      s ← b_servers w !! sh;
      if mayArchive s n
      then Some {| w with b_servers := <[sh := {| s with s_archived := s_archived s ++ [Segment (s_timeline s) n]; s_report := Some (Segment (s_timeline s) n) |}]> (b_servers w) |}
      else None
  | A2pc i j =>
      p ← d_procs (b_dbs w) !! i; p ← p; '(tp, p') ← slot_step (d_tp (b_dbs w)) p j;
      Some {| w with b_dbs := {| (b_dbs w) with d_tp := tp; d_procs := <[i := Some p']> (d_procs (b_dbs w)) |}; b_seq := b_seq w + 1 |}
  | AUnlocked => Some {| w with b_lock := false |}
  | _ => None
  end.
Definition act_step (a : act) (st : state) : option state :=
  let '(w, p) := st in
  match a, p with
  | AStart, None => Some (w, Some (pass b))
  | AOk, Some (Stmt f k) => Some ((f w).2, Some (k (f w).1))
  | AOk, Some (Clock d k) => Some ((tick d w).2, Some (k (tick d w).1))
  | AOk, Some (Ret tt) => Some (w, None)
  | ALost after, Some (Stmt f k) => Some (if after : bool then (f w).2 else w, Some (k (Err EConn)))
  | ACrash, Some _ => Some (w, None)
  | _, _ => w' ← env_act a w; Some (w', p)
  end.
(** An act that is not possible is passed over. *)
Definition acts (l : list act) (st : state) : state := fold_left (λ st a, default st (act_step a st)) l st.

Lemma setServer_Some w sh f w' :
  setServer w sh f = Some w' → ∃ s, b_servers w !! sh = Some s ∧ w' = {| w with b_servers := <[sh := f s]> (b_servers w) |}.
Proof. unfold setServer. intros (s & Hs & [= <-])%bind_Some. eauto. Qed.
Lemma mayArchive_sound s n : mayArchive s n = true → archivable s (Segment (s_timeline s) n).
Proof.
  unfold mayArchive. rewrite !andb_true_iff, !bool_decide_eq_true. intros [[[Ht Hn] Hc] Hw]. split; [done|]. split; [done|].
  intros m Hm Hlt. destruct (Hw _ Hm) as [Hx|[Hx|Hx]]; cbn in Hx; [done|lia|done].
Qed.
Lemma env_act_sound a w w' : env_act a w = Some w' → env w w'.
Proof.
  destruct a as [| |after| |r|n|pid sh|pid n|sh|sh|sh|sh n|i j|]; cbn; try done.
  - intros [= <-]. apply envOf_env, env_process.
  - case_match eqn:E; [|done]. intros [= <-]. apply envOf_env, env_clock. lia.
  - intros (on & Hon & H)%bind_Some. case_match eqn:E; [|done]. apply andb_true_iff in E as [Hp%bool_decide_eq_true Hn%negb_true_iff].
    injection H as <-. by apply envOf_env, env_begin with on.
  - intros (o & Ho & H)%bind_Some. case_match eqn:E; [|done]. injection H as <-. by apply envOf_env, env_commit.
  - intros (s & Hs & ->)%setServer_Some. eapply envOf_env, env_server; [done|apply srv_reload].
  - intros (s & Hs & ->)%setServer_Some. eapply envOf_env, env_server; [done|apply srv_lift].
  - destruct raising; [|done]. intros (s & Hs & ->)%setServer_Some. by apply er_raise.
  - intros (s & Hs & H)%bind_Some. case_match eqn:E; [|done]. injection H as <-. eapply envOf_env, env_server; [done|].
    by apply srv_archive, mayArchive_sound.
  - intros (p & Hp & (q & Hq & ([tp p'] & Hs & [= <-])%bind_Some)%bind_Some)%bind_Some. cbn in Hq. subst p.
    destruct (slot_step_sound env_error _ _ _ _ _ Hs) as [Hstep Hnb]. apply envOf_env, env_2pc; [by eapply TwoPhase.sys_thread|done|lia|lia].
  - intros [= <-]. apply envOf_env, env_lock.
Qed.
Lemma barrier_act_sound a st st' : act_step a st = Some st' → Prog.sys_step env (pass b) st st'.
Proof.
  destruct st as [w p].
  assert ((w' ← env_act a w; Some (w', p)) = Some st' → Prog.sys_step env (pass b) (w, p) st') as He.
  { intros (w' & Hw & [= <-])%bind_Some. by apply sys_env, env_act_sound with a. }
  destruct a; try exact He.
  - destruct p; [exact He|]. intros [= <-]. apply sys_start.
  - destruct p as [[[]|X f k|d k]|]; [..|exact He]; intros [= <-]; [apply sys_done|..]; apply sys_prog; [by left|done].
  - destruct p as [[[]|X f k|d k]|]; try exact He. intros [= <-]. apply sys_prog. right. exists EConn. split_and!; [done..|]. destruct after; auto.
  - destruct p; [|exact He]. intros [= <-]. apply Prog.sys_crash.
Qed.
Lemma schedule_sound l st : rtc (Prog.sys_step env (pass b)) st (acts l st).
Proof.
  revert st. induction l as [|a l IH]; intros st; cbn; [done|]. etrans; [|apply IH].
  destruct (act_step a st) as [st'|] eqn:E; [by eapply rtc_once, barrier_act_sound|done].
Qed.
End Schedule.

(** ** Two shards *)

Module Example.
Import Progress.Example.
Definition groupName (sh : ShardRef) : string := "shard-" +:+ pretty (Npos (encode sh)).
#[export] Instance groupName_inj : Inj (=) (=) groupName.
Proof. intros x y H. unfold groupName in H. by apply (inj (String.append _)) in H as H%(inj pretty)%(inj Npos)%(inj encode). Qed.
Lemma groupName_not_catalog sh : groupName sh ≠ CatalogGroup.
Proof. done. Qed.

Definition b : Barrier := mkBarrier 0 0 0 0 true.
Definition aServer (system : string) : server := mkServer false false 0 1 1 1 4096 {[(1, 1)]} ∅ true [] None system.
Definition aGroup (sh : ShardRef) : GroupRef := mkGroup (groupName sh) sh.1 sh.2 false.
Definition w0 : world :=
  mkWorld (mkDbs start (Some ∘ process_prog where_ <$> procs) [] ∅) 0 ∅
    {[catalogRef := aServer "7001"; sh0 := aServer "7002"; sh1 := aServer "7003"]} ∅ [aGroup sh0; aGroup sh1] ∅ ∅
    noFence false ∅ 1 0 0 true false None 1000.

(** The cluster lives: postmasters reload, archivers archive, the coordinator
    goes on. *)
Definition lives : list act :=
  [AReload sh0; AReload sh1; AArchive catalogRef 1; AArchive sh0 1; AArchive sh1 1; A2pc 0 0; A2pc 0 1].
Definition barrier (n : nat) : list act := mjoin (replicate n (AOk :: lives)).
Definition asked (name : string) : list act := [ARequest (Some (Some name)); AStart].
Abbreviation state := (world * option (prog ()))%type.
Definition run_ (raising : bool) (l : list act) : state := acts b raising l (w0, None).

Lemma aServer_ok x : serverOk (aServer x).
Proof.
  split; cbn; [set_solver| |set_solver|done|set_solver].
  intros t n [= -> ->]%elem_of_singleton. unfold timelineOk, segmentOk. split_and!; lia.
Qed.
Lemma w0_started : started groupName w0.
Proof.
  split; [..|done|done].
  - split; [by apply (bool_decide_unpack (NoDup _))|]. intros g Hg. change (g ∈ [aGroup sh0; aGroup sh1]) in Hg. rewrite !elem_of_cons, elem_of_nil in Hg. by destruct Hg as [->|[->|[]]].
  - done.
  - intros sh s Hs. cbn in Hs. repeat (apply lookup_insert_Some in Hs as [[_ <-]|[_ Hs]]; [apply aServer_ok|]).
    by rewrite lookup_empty in Hs.
Qed.

(** A client commits, a barrier runs while the coordinator carries out its
    two-phase commit, and another client commits. *)
Definition nightly : state :=
  run_ false ([ABegin 1 sh0; ACommit 1 7] ++ asked "nightly" ++ barrier 75 ++ [ABegin 2 sh1; ACommit 2 8]).
Local Notation row s := (b_rps s.1 !! "nightly"%string).
Lemma nightly_reached : ∃ tr, path (Prog.sys_step (env_open (sql_step lost) groupName) (pass b)) (w0, None) tr nightly.
Proof.
  apply rtc_path. eapply rtc_subrel; [|exact (schedule_sound lost groupName b false _ (w0, None))].
  intros s s' [w w' p He|w|w w' p p' Hs|w|w p]; constructor; [by left|done].
Qed.
Definition theRow : rprow := default (mkRow 0 ∅ false 0 None) (row nightly).
Lemma nightly_row : row nightly = Some theRow.
Proof. vm_compute. reflexivity. Qed.
Lemma nightly_certified : r_certified theRow = true.
Proof. vm_compute. reflexivity. Qed.


Lemma nightly_covers sh : sh ∈ t_writers the_txn → sh ≠ catalogRef ∧ is_Some (r_groups theRow !! nameOf groupName sh).
Proof.
  cbn. rewrite !elem_of_cons, elem_of_nil. intros [->|[->|[]]]; split; [done| |done|]; vm_compute; eexists; reflexivity.
Qed.
Lemma restored_commits_whole_witness :
  restored nightly.1 "nightly" sh0 gid = Some TCommitted ∧ ∃ tr,
  path (Prog.sys_step (env_open (sql_step lost) groupName) (pass b)) (w0, None) tr nightly ∧
  ((∀ sh, sh ∈ [sh0; sh1] → restored nightly.1 "nightly" sh gid = Some TCommitted) ∨
   occurs (λ s s', intruded s s' ∨ misguided lost where_ s s') (w0, None) tr).
Proof.
  assert (restored nightly.1 "nightly" sh0 gid = Some TCommitted) as H0 by (vm_compute; reflexivity). split; [exact H0|].
  destruct nightly_reached as [tr Hr]. exists tr. split; [exact Hr|].
  destruct (restored_commits_whole lost groupName b groupName_not_catalog where_ procs w0 tr nightly "nightly" theRow the_txn
    w0_started eq_refl start_initial Hr nightly_row nightly_certified (list_elem_of_here _ _) nightly_covers) as [H|[[H _]|H]]; [left; exact H| |right; exact H].
  discriminate (eq_trans (eq_sym H0) (H sh0 (list_elem_of_here _ _))).
Defined.

(** ** A pause raised again *)

(** Between the restore points of the two shards both pauses are lifted, a
    client commits on the one and then on the other, and both are raised
    again. *)
Definition interrupted : state :=
  run_ true (asked "nightly" ++ barrier 43 ++
    [ALift sh0; AReload sh0; ABegin 1 sh0; ACommit 1 1; ALift sh1; AReload sh1; ABegin 2 sh1; ACommit 2 2;
     ARaise sh0; AReload sh0; ARaise sh1; AReload sh1] ++ barrier 30).
Definition recovered (s : state) (sh : ShardRef) : option (list Z) := i_commits <$> recoverTo s.1 sh (RestorePointName "nightly").

(** What the check before certifying does not see: the barrier looks at
    each pause when it raises it and once more at the end, so one that others
    lift and raise again in between goes unnoticed.  Here both shards take
    writes between their restore points, and the point is certified although it
    holds the second of two commits without the first, as the cluster never
    did. *)
Theorem interrupted_pause_is_certified :
  rtc (Prog.sys_step (env_raising (sql_step lost) groupName) (pass b)) (w0, None) interrupted ∧
  r_certified <$> row interrupted = Some true ∧
  d_commits (b_dbs interrupted.1) = [(sh0, 1); (sh1, 2)] ∧
  recovered interrupted sh0 = Some [] ∧ recovered interrupted sh1 = Some [2] ∧
  ∀ d, rtc (db_evolves (sql_step lost)) d (b_dbs interrupted.1) → ¬ (commitsOn d sh0 = [] ∧ commitsOn d sh1 = [2]).
Proof.
  assert (d_commits (b_dbs interrupted.1) = [(sh0, 1); (sh1, 2)]) as Hc by (vm_compute; reflexivity).
  split; [exact (schedule_sound lost groupName b true _ (w0, None))|]. split; [vm_compute; reflexivity|]. split; [exact Hc|].
  split; [vm_compute; reflexivity|]. split; [vm_compute; reflexivity|].
  intros d Hd%evolves_log. rewrite Hc in Hd. unfold commitsOn. destruct Hd as [l Hl]. intros [H0 H1].
  destruct (d_commits d) as [|x [|y d']]; [done| |]; injection Hl as <-; subst; [vm_compute in H1; discriminate H1|vm_compute in H0; discriminate H0].
Qed.

(** ** A pause that is set but not in force *)

(** The controller dies after ALTER SYSTEM and before the reload; the fence grows
    old; recovery runs; the server reloads for another reason; recovery runs
    again. *)
Definition stranded : state :=
  run_ false (asked "nightly" ++ barrier 11 ++
    [AOk; ACrash; AUnlocked; AClock (maxRunTime b); ARequest (Some None); AStart] ++ replicate 30 AOk ++
    [AReload sh0; AStart] ++ replicate 30 AOk).

(** C35. What recovery misses: it asks the shards whether their pause is in
    force, and a pause that a dead run set but did not get to reload is not.
    Recovery then clears the fence and leaves the setting; the next reload makes
    the shard refuse writes, though no workflow claims the pause, the shard is
    not retired and no barrier runs; and with the fence gone every later recovery
    returns without looking at the shards.  What lifts the pause is the end of a
    next barrier, which resumes every group, or an operator. *)
Theorem recovery_strands_a_pause :
  rtc (Prog.sys_step (env (sql_step lost) groupName) (pass b)) (w0, None) stranded ∧ stranded.2 = None ∧
  s_setting <$> b_servers stranded.1 !! sh0 = Some true ∧ effective stranded.1 sh0 = Some true ∧
  b_fence stranded.1 = noFence ∧ b_lock stranded.1 = false ∧ b_claimed stranded.1 = ∅ ∧ Retired <$> b_groups stranded.1 = [false; false] ∧
  ∀ w, b_fence w = noFence → ∃ k, Recover b = Stmt (λ w, (Ok (f_active (b_fence w)), w)) k ∧ k (Ok (f_active (b_fence w))) = Ret (Ok ()).
Proof.
  split; [exact (schedule_sound lost groupName b false _ (w0, None))|]. do 7 (split; [vm_compute; reflexivity|]).
  intros w ->. eexists. split; reflexivity.
Qed.
End Example.
