(* ===== verification/ApplierWorld.v ===== *)
(** * The world of the migration applier

    The applier ([src/internal/controller/applier.go]) drives the rows of
    [pgshard.migrations] across the databases of the shards.  Its world has the
    catalog's rows and what gates them ([src/internal/catalog/migrations.go]),
    the leader term, and each group's databases as PostgreSQL's system catalogs
    show them, with every state they went through.  What a statement does to a
    database is PostgreSQL's: a parameter. *)

From S2P Require Import Prelude Prog Triples.

Local Open Scope Z_scope.

(** ** Migrations *)

Definition MigrationQueued : string := "queued".
Definition MigrationRunning : string := "running".
Definition MigrationComplete : string := "complete".
Definition MigrationFailed : string := "failed".
Definition ShardPending : string := "pending".
Definition ShardRunning : string := "running".
Definition ShardRetrying : string := "retrying".
Definition ShardApplied : string := "applied".
Definition ShardSkipped : string := "skipped".
Definition ShardFailed : string := "failed".

Record MigrationObject := mkObject { Kind : string; Schema : string; Name : string; Table : string; Expect : string }.
Record MigrationCheck := mkCheck { c_Kind : string; c_Schema : string; c_Table : string; c_Name : string; c_NameSchema : string }.
Record MigrationStep := mkStep { SQL : string; Concurrent : bool; Skip : MigrationCheck; Index : string; OnFail : string }.
Record TablePlacement := mkPlacement { tp_Schema : string; tp_Table : string; tp_Placement : string; tp_ShardKey : string }.
Record MigrationMeta := mkMeta {
  Object : MigrationObject; RunAs : string; SearchPath : string; meta_Database : string; DatabaseOp : string;
  Steps : list MigrationStep; Repack : bool; ShardSet : string; Placements : list TablePlacement }.
Record ShardMigration := mkShard {
  State : string; Attempts : Z; Step : nat; Error : string; SQLState : string; Ran : bool; DropSchema : string }.
Record DDLMigration := mkMigration {
  ID : string; Database : string; Statement : string; m_Kind : string; Strategy : string; Scope : string; HomeShard : Z;
  m_State : string; Meta : MigrationMeta; PerShard : gmap string ShardMigration; m_Error : string; CreatedAt : Z }.

Definition pendingShard : ShardMigration := mkShard ShardPending 0 0 "" "" false "".
Definition shard (m : DDLMigration) (key : string) : ShardMigration := default (mkShard "" 0 0 "" "" false "") (PerShard m !! key).
Definition setShard (m : DDLMigration) (key : string) (s : ShardMigration) : DDLMigration :=
  {| m with PerShard := <[key := s]> (PerShard m) |}.
Definition withSet (m : DDLMigration) (set : string) : DDLMigration := {| m with Meta := {| (Meta m) with ShardSet := set |} |}.

(** ** Errors *)

(** [EConn]: a connection lost under a statement; [EPg]: PostgreSQL's answer;
    [EIn]: an error wrapped with what was being done. *)
Inductive err :=
| EConn | ECanceled | ENoRows | EFuel
| EPg (code msg : string)
| EText (s : string)
| EIn (what : string) (e : err)
| EDial (e : err) | ESaveFailed (e : err) | ESkipped (e : err)
| ENotLeaderTerm | EMigrationHeld | EHeld | ENotLeader.

Fixpoint errorText (e : err) : string :=
  match e with
  | EConn => "unexpected EOF"
  | ECanceled => "context canceled"
  | ENoRows => "no rows in result set"
  | EFuel => ""
  | EPg code msg => "ERROR: " +:+ msg +:+ " (SQLSTATE " +:+ code +:+ ")"
  | EText s => s
  | EIn what e => what +:+ ": " +:+ errorText e
  | EDial e => "connect: " +:+ errorText e
  | ESaveFailed e => "progress not saved: " +:+ errorText e
  | ESkipped e => errorText e
  | ENotLeaderTerm => "catalog: the controller leadership this write carries has ended"
  | EMigrationHeld => "catalog: the migration is held while a workflow copies or holds its database's DDL lock"
  | EHeld => "applier: migration held"
  | ENotLeader => "not the leader"
  end.

(** [errors.As] and [errors.Is] look through every wrapping. *)
Section Chain.
Context {A : Type} (f : err → option A).
Fixpoint chain (e : err) : option A :=
  match f e with
  | Some a => Some a
  | None => match e with EIn _ e | EDial e | ESaveFailed e | ESkipped e => chain e | _ => None end
  end.
End Chain.
Definition isDial (e : err) : bool := bool_decide (is_Some (chain (λ e, match e with EDial _ => Some tt | _ => None end) e)).
Definition isSaveFailed (e : err) : bool := bool_decide (is_Some (chain (λ e, match e with ESaveFailed _ => Some tt | _ => None end) e)).
Definition skipped (e : err) : option err := chain (λ e, match e with ESkipped e => Some e | _ => None end) e.
Definition isNotLeaderTerm (e : err) : bool := bool_decide (is_Some (chain (λ e, match e with ENotLeaderTerm => Some tt | _ => None end) e)).
Definition isMigrationHeld (e : err) : bool := bool_decide (is_Some (chain (λ e, match e with EMigrationHeld => Some tt | _ => None end) e)).
Definition isHeld (e : err) : bool := bool_decide (is_Some (chain (λ e, match e with EHeld => Some tt | _ => None end) e)).
Definition isNoRows (e : err) : bool := bool_decide (is_Some (chain (λ e, match e with ENoRows => Some tt | _ => None end) e)).
Definition sqlState (e : err) : string := default ""%string (chain (λ e, match e with EPg code _ => Some code | _ => None end) e).

(** ** Databases *)

(** A schema and a name. *)
Abbreviation rel := (string * string)%type.
Record index := mkIndex { indrelid : rel; indisvalid : bool; ispartitioned : bool }.
Record constraint := mkConstraint { conrelid : rel; conname : string; contype : string; convalidated : bool; conkey : list string }.
Record inheritance := mkInherits { inhrelid : rel; inhparent : rel; inhdetachpending : bool }.
Record pgdb := mkDb {
  pg_class : gset rel; pg_index : gmap rel index; pg_constraint : list constraint; pg_inherits : list inheritance;
  pg_proc : gset rel; pg_attribute : gset (rel * string);
  pg_namespace : gset string; pg_type : gset string; pg_roles : gset string; pg_database : gset string }.

(** The role assumed and the search path set on it. *)
Record session := mkSession { s_role : string; s_path : string }.

(** What is PostgreSQL's: [sql] is a statement that takes effect or not, [wreck]
    what one outside a transaction leaves when it fails, [current_schemas] the
    schemas a session's path names, [to_regprocedure] the one of them a function
    is in; and [SafeToRetry] of its driver. *)
Class Postgres := {
  sql : session → string → pgdb → result (string * string) pgdb;
  wreck : session → string → pgdb → pgdb;
  current_schemas : session → pgdb → list string;
  to_regprocedure : list string → string → pgdb → option string;
  server_version_num : pgdb → Z;
  SafeToRetry : err → bool }.

(** ** The world *)

(** A database of a shard by its set, id and name; [None] is the catalog's. *)
Abbreviation loc := (option (string * Z * string)).

(** A row of [pgshard.table_status] and [pgshard.tables]. *)
Record tableRow := mkTable { effective_placement : option string; effective_shard_key : option string; desired_placement : option string }.
Record databaseRow := mkDatabase { home_shard : Z; default_placement : string }.

(** A committed client statement: for which step of which migration it was run,
    on which database, by which session, and its text. *)
Abbreviation logEntry := (string * nat * (loc * session * string))%type.

(** [w_dbs]: each database's states, the present one first.  [w_refuse]: the
    databases on which no session can be set up, with what is answered.
    [w_cancelled] and [w_lost]: the leaders whose pass was cancelled, and that
    know they lead no longer, by their terms.
    [w_mirror]: the migrations whose desired state was written, [w_log]: the
    client statements that were committed, each in order.  [w_locks]: the DDL locks, [w_copying] a workflow that copies,
    [w_blocked]: the migrations that wait in the operation queue. *)
Record world := mkWorld {
  w_term : Z; w_rows : gmap string DDLMigration;
  w_queue : bool; w_serving : string; w_shards : gmap string (list Z);
  w_databases : gmap string databaseRow; w_tables : gmap (string * string * string) tableRow;
  w_locks : gmap string string; w_copying : option string; w_blocked : gset string;
  w_mirror : list string;
  w_dbs : gmap loc (list pgdb); w_refuse : gmap loc (string * string); w_log : list logEntry;
  w_cancelled : gset Z; w_lost : gset Z; w_clock : Z }.

#[export] Instance applier_world : World world err := {|
  tick d w := (w_clock w + Z.max 0 d, {| w with w_clock := w_clock w + Z.max 0 d |});
  transient e := e = EConn |}.
Abbreviation prog := (Prog.prog world err).
Abbreviation M := (PM world err).

(** ** The rows *)

(** [($5::bigint IS NULL OR $5 = (SELECT term FROM pgshard.leader_term))] *)
Definition leaderTermPredicate (w : world) (term : Z) : bool := (term =? 0) || (term =? w_term w).
Definition termHeld (term affected : Z) : result err () :=
  if negb (term =? 0) && (affected =? 0) then Err ENotLeaderTerm else Ok ().

Definition MigrationHeldPredicate (w : world) (database : string) : bool :=
  bool_decide (is_Some (w_locks w !! database)) || bool_decide (is_Some (w_copying w)).

(** The placements recorded that no longer hold, as [snapshot.load] resolves
    them. *)
Definition effectivePlacement (w : world) (database : string) (p : TablePlacement) : string * string :=
  let t := w_tables w !! (database, tp_Schema p, tp_Table p) in
  match t ≫= effective_placement with
  | Some e => (e, default ""%string (t ≫= effective_shard_key))
  | None =>
      (match t ≫= desired_placement with
       | Some "unsharded" => "unsharded"
       | _ => match w_databases w !! database with Some d => default_placement d | None => "unsharded" end
       end, ""%string)
  end%string.
Definition placementDrift (w : world) (database : string) (want : list TablePlacement) : list TablePlacement :=
  List.filter (λ p, negb (bool_decide (effectivePlacement w database p = (tp_Placement p, tp_ShardKey p)))) want.
Definition describePlacement (p : string * string) : string := if String.eqb p.2 "" then p.1 else p.1 +:+ " by " +:+ p.2.
Definition PlacementDrift (database : string) (want : list TablePlacement) : M string :=
  ask (λ w, Ok match placementDrift w database want with
    | [] => ""
    | p :: _ => tp_Schema p +:+ "." +:+ tp_Table p +:+ " was " +:+ describePlacement (tp_Placement p, tp_ShardKey p) +:+
                " when the statement was planned and is " +:+ describePlacement (effectivePlacement w database p) +:+ " now"
    end)%string.

(** Whether the update would start [r] as [m] says, and whether it is held. *)
Definition starts (r m : DDLMigration) : bool := String.eqb (m_State r) MigrationQueued && String.eqb (m_State m) MigrationRunning.
Definition held (queued : bool) (w : world) (r m : DDLMigration) : bool :=
  if queued then
    bool_decide (ID r ∈ w_blocked w) || negb (bool_decide (placementDrift w (Database r) (Placements (Meta r)) = [])) ||
    negb (String.eqb (ShardSet (Meta m)) (w_serving w)) ||
    String.eqb (Scope r) "home" && negb (bool_decide (home_shard <$> w_databases w !! Database r = Some (HomeShard m)))
  else MigrationHeldPredicate w (Database r).

Definition updated (queued : bool) (r m : DDLMigration) : DDLMigration :=
  {| (if String.eqb (ShardSet (Meta m)) "" then r else withSet r (ShardSet (Meta m)))
     with m_State := m_State m; PerShard := PerShard m; m_Error := m_Error m;
          HomeShard := if queued && starts r m && String.eqb (Scope r) "home" then HomeShard m else HomeShard r |}.
(** The rows the update of [m] writes: none or one. *)
Definition updatable (queued : bool) (m : DDLMigration) (term : Z) (w : world) : option DDLMigration :=
  r ← w_rows w !! ID m;
  if leaderTermPredicate w term && negb (starts r m && held queued w r m) then Some (updated queued r m) else None.
Definition saveMigrationProgress (queued : bool) (m : DDLMigration) (term : Z) (w : world) : result err () * world :=
  match updatable queued m term w with
  | Some r => (Ok (), {| w with w_rows := <[ID m := r]> (w_rows w) |})
  | None =>
      (if String.eqb (m_State m) MigrationRunning && leaderTermPredicate w term &&
          bool_decide (m_State <$> w_rows w !! ID m = Some MigrationQueued)
       then Err EMigrationHeld else termHeld term 0, w)
  end.

(** ** The store *)

Definition Queued : M bool := ask (λ w, Ok (w_queue w)).
Definition Save (m : DDLMigration) (term : Z) : M () :=
  queued ← Queued; stmt (saveMigrationProgress queued m term).

Definition pending_le (m m' : DDLMigration) : Prop :=
  (CreatedAt m <? CreatedAt m') || ((CreatedAt m =? CreatedAt m') && String.leb (ID m) (ID m')) = true.
#[export] Instance pending_le_dec : RelDecision pending_le.
Proof. intros m m'. unfold pending_le. apply _. Defined.
Definition unfinished (m : DDLMigration) : bool := String.eqb (m_State m) MigrationQueued || String.eqb (m_State m) MigrationRunning.
Definition Pending : M (list DDLMigration) :=
  ask (λ w, Ok (merge_sort pending_le (filter (λ m, unfinished m = true) (map_to_list (w_rows w)).*2))).
Definition Shards (set : string) : M (list Z) := ask (λ w, Ok (default [] (w_shards w !! set))).
Definition ServingShardSet : M string := ask (λ w, Ok (w_serving w)).
Definition DatabaseHomeShard (database : string) : M Z :=
  ask (λ w, match w_databases w !! database with Some d => Ok (home_shard d) | None => Err ENoRows end).
(** The databases held, each by a workflow. *)
Definition LockedDatabases : M (gmap string string) :=
  ask (X := gmap string string) (λ w, Ok (match w_copying w with Some wf => (λ _, wf) <$> w_databases w | None => ∅ end ∪ w_locks w)).

(** The statements of [mirrorStatements] on [pgshard.databases]; those on roles
    and views are recorded as run. *)
Definition mirrored (m : DDLMigration) (w : world) : world :=
  let name := meta_Database (Meta m) in
  {| w with w_mirror := w_mirror w ++ [ID m];
            w_databases := if String.eqb (DatabaseOp (Meta m)) "create" then
                             match w_databases w !! name with Some _ => w_databases w | None => <[name := mkDatabase 0 "unsharded"]> (w_databases w) end
                           else if String.eqb (DatabaseOp (Meta m)) "drop" then delete name (w_databases w)
                           else w_databases w |}.
(** One transaction: the mirror and the row, or neither. *)
Definition MirrorAndSave (m : DDLMigration) (term : Z) : M () :=
  stmt (λ w, match saveMigrationProgress false m term (mirrored m w) with
             | (Ok _, w') => (Ok (), w')
             | (Err e, _) => (Err e, w)
             end).

(** ** The process itself *)

(** What a process knows of itself, by the term it leads under: whether the
    context of its pass ended, and whether its leadership did.  It always has
    the answer; [unanswered] is what an answer that is lost counts as. *)
Definition local (unanswered : bool) (f : world → bool) : M bool :=
  r ← attempt (ask (λ w, Ok (f w))); mret match r with Ok b => b | Err _ => unanswered end.
Definition ctxErr (term : Z) (unanswered : bool) : M bool := local unanswered (λ w, bool_decide (term ∈ w_cancelled w)).
Definition lostLeadership (term : Z) (unanswered : bool) : M bool := local unanswered (λ w, bool_decide (term ∈ w_lost w)).
Definition nap (term d : Z) : M () := _ ← sleep d; c ← ctxErr term false; if c : bool then fail ECanceled else mret ().

(** ** Sessions *)

Definition present (w : world) (l : loc) : option pgdb := w_dbs w !! l ≫= head.
Definition become (w : world) (l : loc) (d : pgdb) : world := {| w with w_dbs := <[l := d :: default [] (w_dbs w !! l)]> (w_dbs w) |}.

Definition dial (l : loc) : M () :=
  r ← attempt (ask (λ w, match present w l with Some _ => Ok () | None => Err (EText "connection refused") end));
  match r with Ok _ => mret () | Err e => fail (EDial e) end.
(** The DDL role, [lock_timeout], the client's role and its search path. *)
Definition setUp (l : loc) : M () := ask (λ w, match w_refuse w !! l with Some (code, msg) => Err (EPg code msg) | None => Ok () end).
Definition query {X} (l : loc) (f : pgdb → X) : M X := ask (λ w, match present w l with Some d => Ok (f d) | None => Err EConn end).
