(* ===== verification/Applier.v ===== *)
(** * The migration applier

    [Applier] of [src/internal/controller/applier.go]: each pass drives every
    pending migration over its target shards, one statement or one step at a
    time, with its progress in the migration's row.  Every write of the row
    carries the leader term the pass began under. *)

From stdpp Require Import pretty.
From S2P Require Import Prelude ScatterCompare ScatterAgg Prog Triples ApplierWorld.

Local Open Scope Z_scope.

(** ** Small parts *)

Definition catalogKey : string := "catalog".
Definition shardKey (id : Z) : string := pretty id.
Definition Atoi (s : string) : option Z := ParseInt (bytes_of s).
(** [strconv.ParseInt(key, 10, 32)], its error dropped. *)
Definition keyID (key : string) : Z := default 0 (Z.max (- two31) ∘ Z.min (two31 - 1) <$> Atoi key).

Definition roleStatement (kind : string) : bool :=
  bool_decide (kind ∈ ["CREATE ROLE"; "ALTER ROLE"; "DROP ROLE"; "GRANT ROLE"; "REVOKE ROLE"]%string).
Definition anyFailed (per : gmap string ShardMigration) : bool := existsb (λ p, String.eqb (State p.2) ShardFailed) (map_to_list per).
Definition touched (per : gmap string ShardMigration) : bool := existsb (λ p, negb (String.eqb (State p.2) ShardPending)) (map_to_list per).

Definition key_less (x y : string) : bool :=
  match Atoi x, Atoi y with
  | Some a, Some b => a <? b
  | Some _, None => true
  | None, Some _ => false
  | None, None => String.ltb x y
  end.
Definition key_le (x y : string) : Prop := key_less y x = false.
#[export] Instance key_le_dec : RelDecision key_le.
Proof. intros x y. unfold key_le. apply _. Defined.
Definition sortedShardKeys (per : gmap string ShardMigration) : list string := merge_sort key_le (map_to_list per).*1.

Definition isTransient `{Postgres} (e : err) : bool :=
  let code := sqlState e in
  isDial e || SafeToRetry e || bool_decide (code ∈ ["55P03"; "40P01"; "57P01"; "57P03"; "40001"]%string) ||
  String.prefix "08" code || String.eqb code "".
Definition outsideTransaction (kind : string) : bool := String.eqb kind "CREATE DATABASE" || String.eqb kind "DROP DATABASE".
Definition mayHaveRun (m : DDLMigration) (e : option err) : bool :=
  match e with
  | None => true
  | Some e =>
      if isDial e then false else
      if isSaveFailed e then false else
      if String.eqb (Strategy m) "concurrent" || Repack (Meta m) || outsideTransaction (m_Kind m) then true else
      negb (bool_decide (sqlState e ∈ ["55P03"; "40P01"; "40001"; "57P03"]%string))
  end.
Definition missingObject (e : err) : bool := bool_decide (sqlState e ∈ ["42704"; "42P01"; "42883"; "3F000"]%string).

Definition dquote : string := String (Ascii.ascii_of_nat 34) "".
Fixpoint doubled (s : string) : string :=
  match s with
  | ""%string => ""
  | String c s => if Ascii.eqb c (Ascii.ascii_of_nat 34) then String c (String c (doubled s)) else String c (doubled s)
  end.
Definition quoted (s : string) : string := dquote +:+ doubled s +:+ dquote.
Definition qualified (schema name : string) : string :=
  if String.eqb schema "" then quoted name else quoted schema +:+ "." +:+ quoted name.

Definition unqualifiedDrop (o : MigrationObject) : bool :=
  String.eqb (Expect o) "absent" && String.eqb (Schema o) "" && (String.eqb (Kind o) "relation" || String.eqb (Kind o) "function").
Definition isSuffix (suf s : string) : bool := (String.length suf <=? String.length s)%nat &&
  String.eqb (String.substring (String.length s - String.length suf) (String.length suf) s) suf.

(** ** What is asked of a database *)

Section Queries.
Context `{PG : Postgres} (se : session).

Definition to_regclass (schema name : string) (d : pgdb) : option rel :=
  let find s := if decide ((s, name) ∈ pg_class d) then Some (s, name) else None in
  if String.eqb schema "" then head (omap find (current_schemas se d)) else find schema.

Definition inSchema (schema : string) (inCurrentSchema : bool) (d : pgdb) (ns : string) : bool :=
  if negb (String.eqb schema "") then String.eqb ns schema
  else if inCurrentSchema then bool_decide (head (current_schemas se d) = Some ns)
  else bool_decide (ns ∈ current_schemas se d).
Definition objectMatchesIn (o : MigrationObject) (inCurrentSchema : bool) (d : pgdb) : bool :=
  let wanted := String.eqb (Expect o) "present" in
  let matches ex := Bool.eqb ex wanted in
  if String.eqb (Kind o) "relation" then
    matches (existsb (λ r, String.eqb r.2 (Name o) && inSchema (Schema o) inCurrentSchema d r.1) (elements (pg_class d)))
  else if String.eqb (Kind o) "schema" then matches (bool_decide (Name o ∈ pg_namespace d))
  else if String.eqb (Kind o) "type" then matches (bool_decide (Name o ∈ pg_type d))
  else if String.eqb (Kind o) "role" then matches (bool_decide (Name o ∈ pg_roles d))
  else if String.eqb (Kind o) "database" then matches (bool_decide (Name o ∈ pg_database d))
  else if String.eqb (Kind o) "function" then
    matches (bool_decide (is_Some (to_regprocedure
      (if negb (String.eqb (Schema o) "") then [Schema o]
       else if wanted then take 1 (current_schemas se d) else current_schemas se d) (Name o) d)))
  else false.
Definition objectMatches (o : MigrationObject) (d : pgdb) : bool := objectMatchesIn o (String.eqb (Expect o) "present") d.

(** The schema an unqualified name resolves to. *)
Definition resolvedSchema (o : MigrationObject) (d : pgdb) : option string :=
  if String.eqb (Kind o) "function" then to_regprocedure (current_schemas se d) (Name o) d
  else fst <$> to_regclass "" (Name o) d.

Fixpoint position (l : list string) (s : string) : nat :=
  match l with [] => 0 | x :: l => if String.eqb x s then 0 else S (position l s) end.
Definition pos_le (d : pgdb) (x y : string) : Prop := (position (current_schemas se d) x <= position (current_schemas se d) y)%nat.
#[export] Instance pos_le_dec d : RelDecision (pos_le d).
Proof. intros x y. unfold pos_le. apply _. Defined.
(** The schema of an invalid index, if there is one. *)
Definition invalidIndex (o : MigrationObject) (d : pgdb) : option string :=
  head (merge_sort (pos_le d) (omap (λ '((ns, name), i),
    if String.eqb name (Name o) && negb (indisvalid i) && negb (ispartitioned i) &&
       (if negb (String.eqb (Table o) "") then bool_decide (to_regclass (Schema o) (Table o) d = Some (indrelid i))
        else if negb (String.eqb (Schema o) "") then String.eqb ns (Schema o)
        else bool_decide (ns ∈ current_schemas se d))
    then Some ns else None) (map_to_list (pg_index d)))).
(** The index [o] names on its table: its schema and whether it is valid. *)
Definition indexOnTable (o : MigrationObject) (d : pgdb) : option (string * bool) :=
  head (omap (λ '((ns, name), i),
    if String.eqb name (Name o) && bool_decide (to_regclass (Schema o) (Table o) d = Some (indrelid i))
    then Some (ns, indisvalid i) else None) (map_to_list (pg_index d))).

Definition checkHolds (c : MigrationCheck) (d : pgdb) : result err bool :=
  let rel := to_regclass (c_Schema c) (c_Table c) d in
  let part := to_regclass (c_NameSchema c) (c_Name c) d in
  let on (r : ApplierWorld.rel) := bool_decide (rel = Some r) in
  let constrained f := existsb (λ k, on (conrelid k) && f k) (pg_constraint d) in
  let named k := String.eqb (conname k) (c_Name c) in
  let notnull k := String.eqb (contype k) "n" && bool_decide (c_Name c ∈ conkey k) in
  let attached (pending : bool) := existsb (λ i, bool_decide (part = Some (inhrelid i)) && on (inhparent i) && (pending || negb (inhdetachpending i))) (pg_inherits d) in
  if String.eqb (c_Kind c) "" then Ok false
  else if String.eqb (c_Kind c) "constraint" then Ok (constrained named)
  else if String.eqb (c_Kind c) "constraint_valid" then Ok (constrained (λ k, named k && convalidated k))
  else if String.eqb (c_Kind c) "notnull" then Ok (constrained notnull)
  else if String.eqb (c_Kind c) "notnull_valid" then Ok (constrained (λ k, notnull k && convalidated k))
  else if String.eqb (c_Kind c) "index_valid" then
    Ok (existsb (λ '((_, name), i), indisvalid i && String.eqb name (c_Name c) && on (indrelid i)) (map_to_list (pg_index d)))
  else if String.eqb (c_Kind c) "detached" then Ok (negb (attached true))
  else if String.eqb (c_Kind c) "detach_pending" then Ok (negb (attached false))
  else Err (EText ("unknown step check " +:+ c_Kind c)).
End Queries.

(** ** Statements *)

Section Statements.
Context `{PG : Postgres} (l : loc).

Definition logged (se : session) (text : string) (entry : option (string * nat)) (w : world) : world :=
  match entry with Some e => {| w with w_log := w_log w ++ [(e, (l, se, text))] |} | None => w end.
(** A statement outside a transaction. *)
Definition execOn (se : session) (text : string) (entry : option (string * nat)) : M () :=
  stmt (λ w, match present w l with
             | None => (Err EConn, w)
             | Some d =>
                 match sql se text d with
                 | Ok d' => (Ok (), logged se text entry (become w l d'))
                 | Err (code, msg) => (Err (EPg code msg), become w l (wreck se text d))
                 end
             end).
(** In one of its own: it is checked, and takes effect when it commits. *)
Definition inTransaction (se : session) (text : string) (locals : bool) (entry : option (string * nat)) : M () :=
  _ ← query l (λ _, ());
  _ ← (if locals then setUp l else mret ());
  r ← query l (sql se text);
  match r with
  | Err (code, msg) => fail (EPg code msg)
  | Ok _ =>
      stmt (λ w, match present w l with
                 | None => (Err EConn, w)
                 | Some d =>
                     match sql se text d with
                     | Ok d' => (Ok (), logged se text entry (become w l d'))
                     | Err (code, msg) => (Err (EPg code msg), w)
                     end
                 end)
  end.
Definition dropIndex (se : session) (schema name : string) : M () :=
  execOn se ("DROP INDEX CONCURRENTLY IF EXISTS " +:+ qualified schema name) None.
Definition dropInvalidIndex (se : session) (o : MigrationObject) : M bool :=
  i ← query l (invalidIndex se o);
  match i with
  | None => mret false
  | Some schema => _ ← dropIndex se schema (Name o); mret true
  end.
Definition resumeIndexOnTable (se : session) (o : MigrationObject) : M bool :=
  i ← query l (indexOnTable se o);
  match i with
  | None => mret false
  | Some (schema, valid) =>
      if valid : bool then mret true else
      _ ← dropIndex se schema (Name o); mret false
  end.
Definition concurrently (se : session) (m : DDLMigration) (entry : option (string * nat)) : M () :=
  r ← attempt (execOn se (Statement m) entry);
  match r with
  | Ok _ => mret ()
  | Err e =>
      let o := Object (Meta m) in
      if negb (String.eqb (m_Kind m) "CREATE INDEX") || String.eqb (Name o) "" then fail e else
      i ← attempt (query l (invalidIndex se o));
      match i with
      | Ok (Some schema) =>
          r ← attempt (dropIndex se schema (Name o));
          match r with Err _ => fail e | Ok _ => execOn se (Statement m) entry end
      | _ => fail e
      end
  end.
Definition repackStep (se : session) (m : DDLMigration) (entry : option (string * nat)) : M () :=
  version ← query l server_version_num;
  let o := Object (Meta m) in
  execOn se (if 190000 <=? version then "REPACK (CONCURRENTLY) " +:+ qualified (Schema o) (Name o) else Statement m) entry.
End Statements.

(** ** The applier *)

(** [Catalog]: whether there is a catalog group to apply role statements to;
    [a_ShardSet]: the set it is pinned to, if any. *)
Record Backoff := mkBackoff { Min : Z; Max : Z; Total : Z }.
Record Applier := mkApplier { Catalog : bool; a_ShardSet : string; a_Backoff : Backoff }.
Definition DefaultBackoff : Backoff := mkBackoff 500 30000 300000.
Definition backoff (a : Applier) : Backoff :=
  let b := a_Backoff a in
  mkBackoff (if Min b <=? 0 then Min DefaultBackoff else Min b) (if Max b <=? 0 then Max DefaultBackoff else Max b)
            (if Total b <=? 0 then Total DefaultBackoff else Total b).
(** Rounds enough for [Total]: each but the last sleeps for [Min] or more. *)
Definition rounds (a : Applier) : nat := Z.to_nat (Total (backoff a) / Z.min (Min (backoff a)) (Max (backoff a))) + 2.

Section Apply.
Context `{PG : Postgres} (a : Applier).
(** The term latched for this pass, and what drives a rewrite migration. *)
Context (term : Z) (driveRewrite : DDLMigration → M ()).

Definition shardSet : M string := if String.eqb (a_ShardSet a) "" then ServingShardSet else mret (a_ShardSet a).
Definition migrationSet (m : DDLMigration) : M string :=
  if String.eqb (ShardSet (Meta m)) "" then shardSet else mret (ShardSet (Meta m)).

(** The client's session on a shard; the catalog's has nothing set on it outside
    the statement's own transaction. *)
Definition clientSession (m : DDLMigration) : session := mkSession (RunAs (Meta m)) (SearchPath (Meta m)).
Definition sessionOn (m : DDLMigration) (key : string) : session :=
  if String.eqb key catalogKey then mkSession "" "" else clientSession m.
Definition prepare (m : DDLMigration) (key : string) (id : Z) (db : string) : M loc :=
  if String.eqb key catalogKey then _ ← dial None; mret None else
  set ← migrationSet m;
  let l := Some (set, id, db) in
  _ ← dial l;
  _ ← setUp l;
  mret l.

Definition recordDropSchema (l : loc) (m : DDLMigration) (key : string) : M (result err () * DDLMigration) :=
  r ← attempt (query l (resolvedSchema (sessionOn m key) (Object (Meta m))));
  match r with
  | Err e => mret (Err e, m)
  | Ok None => mret (Ok (), m)
  | Ok (Some schema) =>
      let m := setShard m key {| (shard m key) with DropSchema := schema |} in
      r ← attempt (Save m term);
      mret (match r with
            | Ok _ => Ok ()
            | Err e => if isNotLeaderTerm e then Err ENotLeader else Err (ESaveFailed e)
            end, m)
  end.

(** Whether the work of a resumed step is already there; an invalid index in its
    way is dropped. *)
Definition resumeCheck (l : loc) (m : DDLMigration) (key : string) (obj : MigrationObject) : M bool :=
  let se := sessionOn m key in
  if String.eqb (m_Kind m) "CREATE INDEX" && negb (String.eqb (Name obj) "") then
    if negb (String.eqb (Table obj) "") then resumeIndexOnTable l se obj else
    dropped ← dropInvalidIndex l se (Object (Meta m));
    if dropped : bool then mret false else query l (objectMatchesIn se obj false)
  else query l (objectMatches se obj).
Definition dropUnderExisting (m : DDLMigration) : bool :=
  String.eqb (Scope m) "existing" && String.eqb (Expect (Object (Meta m))) "absent".
Definition absentText (m : DDLMigration) : string :=
  Kind (Object (Meta m)) +:+ " " +:+ quoted (Name (Object (Meta m))) +:+
  " is not present on this shard, which is also what a DROP this migration completed before it crashed leaves behind".
Definition isIndexBuild (m : DDLMigration) (obj : MigrationObject) : bool :=
  String.eqb (m_Kind m) "CREATE INDEX" && negb (String.eqb (Name obj) "").

Definition runStatement (l : loc) (m : DDLMigration) (key : string) (resumed : bool) : M string :=
  let entry := Some (ID m, 0%nat) in
  r ← attempt (if Repack (Meta m) then repackStep l (sessionOn m key) m entry
               else if String.eqb (Strategy m) "concurrent" || outsideTransaction (m_Kind m) then concurrently l (sessionOn m key) m entry
               else inTransaction l (clientSession m) (Statement m) (String.eqb key catalogKey) entry);
  match r with
  | Ok _ => mret ShardApplied
  | Err e =>
      if String.eqb (Scope m) "existing" && missingObject e then fail (ESkipped e)
      else if resumed && missingObject e && String.prefix "DROP " (m_Kind m) then mret ShardApplied
      else fail e
  end.
Definition stepOn (l : loc) (m : DDLMigration) (key : string) (obj : MigrationObject) (resumed : bool) : M string :=
  there ← (if resumed && negb (String.eqb (Kind obj) "") && negb (Repack (Meta m)) then resumeCheck l m key obj else mret false);
  if there : bool then
    if negb (isIndexBuild m obj) && dropUnderExisting m then fail (ESkipped (EText (absentText m))) else mret ShardApplied
  else runStatement l m key resumed.
Definition stepDatabase (m : DDLMigration) : string :=
  let kind := Kind (Object (Meta m)) in
  if String.eqb kind "role" || String.eqb kind "database" || isSuffix "ROLE" (m_Kind m) then ""%string else Database m.
(** The statement on one shard, once. *)
Definition step (m : DDLMigration) (key : string) (id : Z) (resumed : bool) : M (result err string * DDLMigration) :=
  c ← attempt (prepare m key id (stepDatabase m));
  match c with
  | Err e => mret (Err e, m)
  | Ok l =>
      let obj := Object (Meta m) in
      '(r, obj, m) ← (if unqualifiedDrop obj then
          if resumed then mret (Ok (), {| obj with Schema := DropSchema (shard m key) |}, m)
          else '(r, m) ← recordDropSchema l m key; mret (r, obj, m)
        else mret (Ok (), obj, m));
      match r with
      | Err e => mret (Err e, m)
      | Ok _ => r ← attempt (stepOn l m key obj resumed); mret (r, m)
      end
  end.

(** One step of a multistep migration. *)
Definition runStep (m : DDLMigration) (id : Z) (st : MigrationStep) (i : nat) : M string :=
  l ← prepare m (shardKey id) id (Database m);
  let se := clientSession m in
  done ← query l (checkHolds se (Skip st));
  match done with
  | Err e => fail e
  | Ok true => mret ShardApplied
  | Ok false =>
      let entry := Some (ID m, i) in
      let run := if Concurrent st then execOn l se (SQL st) entry else inTransaction l se (SQL st) false entry in
      r ← (if negb (String.eqb (Index st) "") then
             let idx := mkObject "relation" (c_Schema (Skip st)) (Index st) (c_Table (Skip st)) "" in
             d ← attempt (dropInvalidIndex l se idx);
             match d with
             | Err e => fail e
             | Ok _ =>
                 r ← attempt run;
                 r ← match r with
                     | Err e =>
                         c ← ctxErr term false;
                         if negb (isTransient e) && negb c then
                           d ← attempt (dropInvalidIndex l se idx);
                           match d with Ok _ => attempt run | Err _ => mret (Err e) end
                         else mret (Err e)
                     | Ok _ => mret r
                     end;
                 match r with
                 | Err e => c ← ctxErr term false; _ ← (if c : bool then mret (Ok false) else attempt (dropInvalidIndex l se idx)); mret (Err e)
                 | Ok _ => mret r
                 end
             end
           else attempt run);
      match r with
      | Ok _ => mret ShardApplied
      | Err e =>
          c ← ctxErr term false;
          _ ← (if negb (String.eqb (OnFail st) "") && negb (isTransient e) && negb c then attempt (execOn l se (OnFail st) None) else mret (Ok ()));
          fail e
      end
  end.

(** [retrying]: one shard step until it ends.  [run] is the step, a closure with
    state [R]; it may change the entry of the shard it runs on. *)
Section Retrying.
Context {R : Type} (key : string) (run : R → DDLMigration → M (result err string * R * DDLMigration)).
Definition refused (saved : result err ()) : bool := match saved with Err e => isNotLeaderTerm e | Ok _ => false end.
(** One attempt, recorded first; [None] when the leadership moved. *)
Definition tryOnce (r : R) (m : DDLMigration) (s : ShardMigration) : M (option (result err string * R * DDLMigration * ShardMigration)) :=
  let s := {| s with Attempts := Attempts s + 1; State := ShardRunning |} in
  let m := setShard m key s in
  saved ← attempt (Save m term);
  if refused saved then mret None else
  match saved with
  | Err e => mret (Some (Err (ESaveFailed e), r, m, s))
  | Ok _ => '(out, r, m) ← run r m; mret (Some (out, r, m, {| s with DropSchema := DropSchema (shard m key) |}))
  end.
(** The wait before the next; whether there is to be one. *)
Definition backOff (wait : Z) (m : DDLMigration) : M bool :=
  saved ← attempt (Save m term);
  if refused saved then mret false else
  z ← attempt (nap term wait);
  match z with
  | Err _ => mret false
  | Ok _ => lost ← lostLeadership term false; mret (negb lost)
  end.
Fixpoint retryLoop (fuel : nat) (start wait : Z) (r : R) (m : DDLMigration) (s : ShardMigration) : M (ShardMigration * DDLMigration) :=
  match fuel with
  | O => fail EFuel
  | S fuel =>
      tried ← tryOnce r m s;
      match tried with
      | None => mret (s, setShard m key s)
      | Some (Ok outcome, _, m, s) => mret ({| s with State := outcome; Error := ""; SQLState := "" |}, m)
      | Some (Err e, r, m, s) =>
          c ← ctxErr term false;
          if c : bool then mret (s, m) else
          let s := {| s with Error := errorText e; SQLState := sqlState e; Ran := Ran s || mayHaveRun m (Some e) |} in
          match skipped e with
          | Some e => mret ({| s with State := ShardSkipped; Error := errorText e |}, m)
          | None =>
              if negb (isTransient e) then mret ({| s with State := ShardFailed |}, m) else
              t ← now;
              if Total (backoff a) <=? t - start then mret ({| s with State := ShardFailed |}, m) else
              let s := {| s with State := ShardRetrying |} in
              let m := setShard m key s in
              again ← backOff wait m;
              if negb again then mret (s, m) else
              let wait := 2 * wait in
              retryLoop fuel start (if Max (backoff a) <? wait then Max (backoff a) else wait) r m s
          end
      end
  end.
Definition retrying (r : R) (m : DDLMigration) (s : ShardMigration) : M (ShardMigration * DDLMigration) :=
  start ← now; retryLoop (rounds a) start (Min (backoff a)) r m s.
End Retrying.

Definition errOf {A} (r : result err A) : option err := match r with Err e => Some e | Ok _ => None end.
(** A single statement; [resumed] says that an earlier attempt may have
    committed. *)
Definition attemptStep (key : string) (id : Z) (resumed : bool) (m : DDLMigration) : M (result err string * bool * DDLMigration) :=
  '(out, m) ← step m key id resumed;
  mret (out, resumed || mayHaveRun m (errOf out), m).
Definition attemptRunStep (id : Z) (st : MigrationStep) (i : nat) (_ : ()) (m : DDLMigration) : M (result err string * () * DDLMigration) :=
  out ← attempt (runStep m id st i); mret (out, (), m).
(** The steps of a multistep migration from the one the entry is at. *)
Fixpoint applySteps (key : string) (id : Z) (steps : list MigrationStep) (m : DDLMigration) (s : ShardMigration) : M (ShardMigration * DDLMigration) :=
  match steps with
  | [] => mret (s, m)
  | st :: steps =>
      '(s, m) ← retrying key (attemptRunStep id st (Step s)) () m s;
      if negb (String.eqb (State s) ShardApplied) then mret (s, m) else
      let s := {| s with Step := S (Step s) |} in
      let m := setShard m key s in
      saved ← attempt (Save m term);
      if refused saved then mret (s, m) else
      applySteps key id steps m s
  end.
Definition applyOn (m : DDLMigration) (key : string) (id : Z) (s : ShardMigration) : M (ShardMigration * DDLMigration) :=
  if negb (String.eqb (Strategy m) "multistep") then
    let resumed := String.eqb (State s) ShardRunning || String.eqb (State s) ShardRetrying && Ran s in
    retrying key (attemptStep key id) resumed m s
  else applySteps key id (drop (Step s) (Steps (Meta m))) m s.

(** ** Driving a migration *)

Definition settled (s : ShardMigration) : bool := bool_decide (State s ∈ [ShardApplied; ShardSkipped; ShardFailed]).
Fixpoint driveShards (keys : list string) (m : DDLMigration) : M DDLMigration :=
  match keys with
  | [] => mret m
  | key :: keys =>
      let s := shard m key in
      if settled s then driveShards keys m else
      if String.eqb key catalogKey && anyFailed (PerShard m) then
        driveShards keys (setShard m key {| s with State := ShardFailed; Error := "not applied: a shard failed" |})
      else
      lost ← lostLeadership term true;
      if lost : bool then fail ENotLeader else
      '(s, m) ← applyOn m key (keyID key) s;
      c ← ctxErr term true;
      if c : bool then fail ECanceled else
      let m := setShard m key s in
      _ ← Save m term;
      driveShards keys m
  end.

Definition shardError (key : string) (s : ShardMigration) : string := "shard " +:+ key +:+ ": " +:+ Error s.
Definition firstFailed (m : DDLMigration) : option string :=
  head (filter (λ key, State (shard m key) = ShardFailed) (sortedShardKeys (PerShard m))).
Definition appliedCount (m : DDLMigration) : nat :=
  length (filter (λ key, State (shard m key) = ShardApplied) (sortedShardKeys (PerShard m))).
Definition firstError (m : DDLMigration) (keys : list string) : string :=
  match keys with [] => "" | key :: _ => shardError key (shard m key) end.
(** What the entries make of the migration. *)
Definition verdict (m : DDLMigration) : DDLMigration :=
  match firstFailed m with
  | Some key => {| m with m_State := MigrationFailed; m_Error := shardError key (shard m key) |}
  | None =>
      if ((appliedCount m =? 0) && (0 <? size (PerShard m)))%nat then
        {| m with m_State := MigrationFailed; m_Error := firstError m (sortedShardKeys (PerShard m));
                  PerShard := (λ s, {| s with State := ShardFailed |}) <$> PerShard m |}
      else {| m with m_State := MigrationComplete; m_Error := "" |}
  end.
Definition finish (m : DDLMigration) : M () :=
  let m := verdict m in
  if String.eqb (m_State m) MigrationComplete then MirrorAndSave m term else Save m term.

Definition targets (m : DDLMigration) (set : string) : M (list Z) :=
  if String.eqb (Scope m) "home" then mret [HomeShard m] else
  ids ← Shards set;
  match ids with [] => fail (EText "applier: no shards in shard_status") | _ => mret ids end.

Definition failedWith (m : DDLMigration) (text : string) : DDLMigration := {| m with m_State := MigrationFailed; m_Error := text |}.
Definition straddled (m : DDLMigration) (serving : string) : DDLMigration :=
  failedWith m ("planned against shard set " +:+ ShardSet (Meta m) +:+ ", which is no longer serving (" +:+ serving +:+ " is); " +:+
    "per-shard progress cannot be read against another set, so this migration needs reconciling by hand").
Definition planOf (m : DDLMigration) (ids : list Z) : gmap string ShardMigration :=
  let per := list_to_map ((λ id, (shardKey id, pendingShard)) <$> ids) in
  if Catalog a && roleStatement (m_Kind m) then <[catalogKey := pendingShard]> per else per.

(** The start of a queued migration: [None] when it ended there. *)
Definition startMigration (m : DDLMigration) (serving : string) : M (option DDLMigration) :=
  moved ← (if bool_decide (Placements (Meta m) = []) then mret ""%string else PlacementDrift (Database m) (Placements (Meta m)));
  if negb (String.eqb moved "") then
    _ ← Save (failedWith m ("the placement this statement was planned under has changed while it waited in the queue: " +:+
      moved +:+ "; re-issue the statement so it is planned against the placement in force")) term;
    mret None
  else
  queued ← (if String.eqb (Scope m) "home" then Queued else mret false);
  home ← (if queued : bool then
            r ← attempt (DatabaseHomeShard (Database m));
            match r with
            | Ok id => mret (Some id)
            | Err e => if isNoRows e then mret None else fail e
            end
          else mret (Some (HomeShard m)));
  match home with
  | None =>
      _ ← Save (failedWith m ("database " +:+ Database m +:+ " is not registered: it was dropped after the migration was queued")) term;
      mret None
  | Some home =>
      let m := {| m with HomeShard := home |} in
      ids ← targets m serving;
      let m := withSet {| m with PerShard := planOf m ids; m_State := MigrationRunning |} serving in
      r ← attempt (Save m term);
      match r with
      | Err e => if isMigrationHeld e then fail EHeld else fail e
      | Ok _ => mret (Some m)
      end
  end.

Definition drive (m : DDLMigration) : M () :=
  serving ← shardSet;
  let moved := String.eqb (m_State m) MigrationRunning && negb (String.eqb (ShardSet (Meta m)) "") && negb (String.eqb (ShardSet (Meta m)) serving) in
  if moved && touched (PerShard m) then Save (straddled m serving) term else
  let m := if moved then withSet {| m with m_State := MigrationQueued |} "" else m in
  started ← (if String.eqb (m_State m) MigrationQueued then startMigration m serving else mret (Some m));
  match started with
  | None => mret ()
  | Some m =>
      if String.eqb (Strategy m) "rewrite" then driveRewrite m else
      m ← driveShards (sortedShardKeys (PerShard m)) m;
      finish m
  end.

Fixpoint driveAll (locked : gmap string string) (pending : list DDLMigration) (done : Z) : M Z :=
  match pending with
  | [] => mret done
  | m :: pending =>
      if bool_decide (is_Some (locked !! Database m)) && String.eqb (m_State m) MigrationQueued then driveAll locked pending done else
      r ← attempt (drive m);
      match r with
      | Ok _ => driveAll locked pending (done + 1)
      | Err e =>
          if isHeld e then driveAll locked pending done
          else if isNotLeaderTerm e then mret done
          else fail e
      end
  end.
Definition RunOnce : M Z :=
  pending ← Pending;
  queued ← Queued;
  locked ← (if queued : bool then mret ∅ else LockedDatabases);
  driveAll locked pending 0.
(** A tick of [Applier.Run]: an error is only logged. *)
Definition pass : prog () := pbind RunOnce (λ _, Ret ()).
End Apply.
