(* ===== verification/ApplierLive.v ===== *)
(** * A pass of the migration applier ends

    The retries of a shard step have a limit in time, which the model gives
    rounds: they never run out, so that [Applier.RunOnce] always returns what the
    source returns. *)

From S2P Require Import Prelude Prog Triples ApplierWorld Applier.

Local Open Scope Z_scope.

Fixpoint applierExhausted (e : err) : bool :=
  match e with EFuel => true | EIn _ e | EDial e | ESaveFailed e | ESkipped e => applierExhausted e | _ => false end.
Local Notation inRounds := (inRounds applierExhausted).
Local Notation ends c x := (retsFrom c x inRounds).

Section Live.
Context `{PG : Postgres} (a : Applier) (term : Z).

Lemma applier_ends_stmt {X} c (f : world → result err X * world) : (∀ w, inRounds (f w).1) → ends c (stmt f).
Proof. intros Hf. split; [exact Hf|]. by intros e ->. Qed.
Lemma local_ends c b f : ends c (local b f).
Proof. apply inRounds_bind; [apply inRounds_attempt|done]. Qed.
Lemma Queued_ends c : ends c Queued.
Proof. by apply applier_ends_stmt. Qed.
Lemma Save_ends c m : ends c (Save m term).
Proof.
  apply inRounds_bind; [apply Queued_ends|]. intros c' q _. apply applier_ends_stmt. intros w. unfold saveMigrationProgress, termHeld. cbn.
  repeat case_match; done.
Qed.
Lemma MirrorAndSave_ends c m : ends c (MirrorAndSave m term).
Proof. apply applier_ends_stmt. intros w. unfold saveMigrationProgress, termHeld. cbn. repeat case_match; simplify_eq/=; done. Qed.
Lemma PlacementDrift_ends c db l : ends c (PlacementDrift db l).
Proof. by apply applier_ends_stmt. Qed.
Lemma shardSet_ends c : ends c (shardSet a).
Proof. unfold shardSet. case_match; [|done]. by apply applier_ends_stmt. Qed.
Lemma targets_ends c m set : ends c (targets m set).
Proof. unfold targets. case_match; [done|]. apply inRounds_bind; [by apply applier_ends_stmt|]. by intros c' [|id ids] _. Qed.

(** ** Retries *)

Lemma backoff_positive : 0 < Min (backoff a) ∧ 0 < Max (backoff a) ∧ 0 < Total (backoff a).
Proof. unfold backoff. cbn. repeat case_match; cbn; lia. Qed.
Local Notation poll := (Z.min (Min (backoff a)) (Max (backoff a))).
Lemma applier_rounds_enough c : enough poll c (c + Total (backoff a)) (rounds a).
Proof.
  pose proof backoff_positive as (H1 & H2 & H3). assert (0 < poll) as Hp by lia. unfold enough, rounds.
  pose proof (Z.div_mod (Total (backoff a)) poll ltac:(lia)). pose proof (Z.mod_pos_bound (Total (backoff a)) poll Hp).
  pose proof (Z.div_pos (Total (backoff a)) poll ltac:(lia) Hp). split; [lia|]. rewrite Nat2Z.inj_add, Z2Nat.id by lia. nia.
Qed.

Section Loop.
Context {R : Type} (key : string) (run : R → DDLMigration → M (result err string * R * DDLMigration)).
Hypothesis run_ends : ∀ c r m, ends c (run r m).
Lemma tryOnce_ends c r m s : ends c (tryOnce term key run r m s).
Proof.
  apply inRounds_bind; [apply inRounds_attempt|]. intros c1 saved _. case_match; [done|]. destruct saved; [|done].
  apply inRounds_bind; [apply run_ends|]. by intros c2 [[out r'] m'] _.
Qed.
(** When there is to be another attempt the wait has passed. *)
Lemma ends_assoc {A B C} c (x : M A) (f : A → M B) (g : B → M C) : ends c (x ≫= λ y, f y ≫= g) → ends c ((x ≫= f) ≫= g).
Proof.
  revert c. induction x as [[y|e]|X h k IH|d k IH]; intros c; [done|done| |].
  - intros [H1 H2]. split; [intros w; apply IH, H1|]. intros e He. by apply IH, H2.
  - intros H t Ht. by apply IH, H.
Qed.
Lemma backOff_ends {A} c wait m (f : bool → M A) :
  (∀ c', ends c' (f false)) → (∀ c', c + wait ≤ c' → ends c' (f true)) → ends c (backOff term wait m ≫= f).
Proof.
  intros Hf Ht. apply ends_assoc, inRounds_bind; [apply inRounds_attempt|]. intros c1 saved Hc. destruct (refused saved); [apply Hf|].
  intros t Hle. assert (∀ b : bool, ends t (f (negb b))) as Hb by (intros []; [apply Hf|apply Ht; lia]).
  split; cbn [fst].
  - intros w. destruct (bool_decide _); [apply Hf|]. split; [intros w'; apply Hb|intros e ->; apply Hb].
  - intros e ->. split; [intros w'; apply Hb|intros e ->; apply Hb].
Qed.
Lemma retryLoop_ends fuel c start wait r m s :
  poll ≤ wait → enough poll c (start + Total (backoff a)) fuel → ends c (retryLoop a term key run fuel start wait r m s).
Proof.
  revert c wait r m s. induction fuel as [|fuel IH]; intros c wait r m s Hw He; [by destruct He; lia|]. cbn [retryLoop].
  apply inRounds_bind; [apply tryOnce_ends|]. intros c1 [[[[[out|e] r'] m'] s']|] H1; [done| |done].
  apply inRounds_bind; [apply local_ends|]. intros c2 [] H2; [done|]. destruct (skipped e); [done|]. case_match; [done|].
  apply now_inRounds. intros t Ht. destruct (_ <=? _) eqn:E; [done|]. apply Z.leb_gt in E. apply backOff_ends; [done|]. intros c3 H3.
  apply IH; [pose proof backoff_positive; case_match; lia|]. eapply (enough_sleep _ _ t); [exact He|lia|lia|lia].
Qed.
Lemma retrying_ends c r m s : ends c (retrying a term key run r m s).
Proof. apply now_inRounds. intros t _. apply retryLoop_ends; [lia|apply applier_rounds_enough]. Qed.
End Loop.

(** ** The pass *)

Lemma step_ends c m key id resumed : ends c (step a term m key id resumed).
Proof.
  apply inRounds_bind; [apply inRounds_attempt|]. intros c1 [l|e] _; [|done].
  apply inRounds_bind.
  - case_match; [|done]. case_match; [done|]. apply inRounds_bind; [|by intros c2 [r m'] _].
    apply inRounds_bind; [apply inRounds_attempt|]. intros c2 [[schema|]|e] _; [|done|done]. apply inRounds_bind; [apply inRounds_attempt|done].
  - intros c2 [[[u|e] obj] m'] _; [|done]. apply inRounds_bind; [apply inRounds_attempt|done].
Qed.
Lemma applySteps_ends c key id steps m s : ends c (applySteps a term key id steps m s).
Proof.
  revert c m s. induction steps as [|st steps IH]; intros c m s; cbn [applySteps]; [done|]. apply inRounds_bind.
  - apply retrying_ends. intros c1 r m1. apply inRounds_bind; [apply inRounds_attempt|done].
  - intros c1 [s1 m1] _. case_match; [done|]. apply inRounds_bind; [apply inRounds_attempt|]. intros c2 saved _. case_match; [done|apply IH].
Qed.
Lemma applyOn_ends c m key id s : ends c (applyOn a term m key id s).
Proof.
  unfold applyOn. case_match; [|apply applySteps_ends]. apply retrying_ends. intros c1 r m1. apply inRounds_bind; [apply step_ends|].
  by intros c2 [out m2] _.
Qed.
Lemma driveShards_ends c keys m : ends c (driveShards a term keys m).
Proof.
  revert c m. induction keys as [|key keys IH]; intros c m; cbn [driveShards]; [done|]. case_match; [apply IH|]. case_match; [apply IH|].
  apply inRounds_bind; [apply local_ends|]. intros c1 [] _; [done|]. apply inRounds_bind; [apply applyOn_ends|]. intros c2 [s m1] _.
  apply inRounds_bind; [apply local_ends|]. intros c3 [] _; [done|]. apply inRounds_bind; [apply Save_ends|]. intros c4 _ _. apply IH.
Qed.
Lemma startMigration_ends c m serving : ends c (startMigration a term m serving).
Proof.
  apply inRounds_bind; [case_match; [done|apply PlacementDrift_ends]|]. intros c1 moved _. case_match.
  { apply inRounds_bind; [apply Save_ends|done]. }
  apply inRounds_bind; [case_match; [apply Queued_ends|done]|]. intros c2 queued _. apply inRounds_bind.
  - case_match; [|done]. apply inRounds_try; [apply applier_ends_stmt; intros w; cbn; by case_match|]. intros c3 [id|e] _ Hr; [done|]. by case_match.
  - intros c3 [home|] _; [|apply inRounds_bind; [apply Save_ends|done]]. apply inRounds_bind; [apply targets_ends|]. intros c4 ids _.
    apply inRounds_try; [apply Save_ends|]. intros c5 [u|e] _ Hr; [done|]. by case_match.
Qed.

Context (driveRewrite : DDLMigration → M ()) (rewrite_ends : ∀ c m, ends c (driveRewrite m)).
Lemma drive_ends c m : ends c (drive a term driveRewrite m).
Proof.
  apply inRounds_bind; [apply shardSet_ends|]. intros c1 serving _. cbn zeta. case_match; [apply Save_ends|].
  apply inRounds_bind; [case_match; [apply startMigration_ends|done]|]. intros c2 [m1|] _; [|done]. case_match; [apply rewrite_ends|].
  apply inRounds_bind; [apply driveShards_ends|]. intros c3 m2 _. unfold finish. case_match; [apply MirrorAndSave_ends|apply Save_ends].
Qed.
Lemma driveAll_ends c locked pending n : ends c (driveAll a term driveRewrite locked pending n).
Proof.
  revert c n. induction pending as [|m pending IH]; intros c n; cbn [driveAll]; [done|]. case_match; [apply IH|].
  apply inRounds_try; [apply drive_ends|]. intros c1 [u|e] _ Hr; [apply IH|]. case_match; [apply IH|]. by case_match.
Qed.

(** C32. A pass ends by what it finds or by the limit of its retries, whatever is
    answered and however the clock goes on, and never because the rounds that
    [retrying] is given ran out. *)
Theorem applier_ends_in_rounds c : retsFrom c (RunOnce a term driveRewrite) (Triples.inRounds applierExhausted).
Proof.
  apply inRounds_bind; [by apply applier_ends_stmt|]. intros c1 pending _. apply inRounds_bind; [apply Queued_ends|]. intros c2 queued _.
  apply inRounds_bind; [case_match; [done|by apply applier_ends_stmt]|]. intros c3 locked _. apply driveAll_ends.
Qed.
End Live.
