(* ===== verification/ApplierSafety.v ===== *)
(** * What the rows of the applier say of the databases

    Any number of controllers run passes of [Applier], each under the leader
    term it latched; they fail, die and overlap, and leadership passes on
    meanwhile.  The invariant: an entry that says applied is borne out by what
    happened on its database, a complete migration has only settled entries, and
    its desired state was mirrored once.  [guar] is what a pass does to the
    world, [evolves] what one sees of the others. *)

From S2P Require Import Prelude Prog Triples ApplierWorld Applier.

Local Open Scope Z_scope.

(** ** What an entry claims *)

(** The parts of a migration that no pass changes. *)
Definition core (m : DDLMigration) : DDLMigration :=
  {| m with HomeShard := 0; m_State := ""; PerShard := ∅; m_Error := ""; Meta := {| (Meta m) with ShardSet := "" |} |}.

Lemma settled_failed s : State s = ShardFailed → settled s = true.
Proof. intros E. apply bool_decide_eq_true. rewrite E. set_solver. Qed.

Section Claims.
Context `{PG : Postgres} (w : world) (c : DDLMigration) (set key : string).

(** The database went through a state such that [φ]. *)
Definition passed (l : loc) (φ : pgdb → Prop) : Prop := ∃ h d, w_dbs w !! l = Some h ∧ d ∈ h ∧ φ d.
Definition locOf (db : string) : loc := if String.eqb key catalogKey then None else Some (set, keyID key, db).

(** A statement of the migration was answered that its object is missing. *)
Definition repackText : string := "REPACK (CONCURRENTLY) " +:+ qualified (Schema (Object (Meta c))) (Name (Object (Meta c))).
Definition answeredMissing (d : pgdb) : Prop :=
  ∃ se text code msg, se ∈ [clientSession c; sessionOn c key] ∧ text ∈ [Statement c; repackText] ∧
    sql se text d = Err (code, msg) ∧ missingObject (EPg code msg) = true.
(** The object is as the statement leaves it. *)
Definition theObject (obj : MigrationObject) : Prop :=
  obj = Object (Meta c) ∨ unqualifiedDrop (Object (Meta c)) = true ∧ ∃ schema, obj = {| (Object (Meta c)) with Schema := schema |}.
Definition asLeft (obj : MigrationObject) (d : pgdb) : Prop :=
  if isIndexBuild c obj then
    if negb (String.eqb (Table obj) "") then ∃ ns, indexOnTable (sessionOn c key) obj d = Some (ns, true)
    else objectMatchesIn (sessionOn c key) obj false d = true
  else objectMatches (sessionOn c key) obj d = true.
Definition foundLeft : Prop := ∃ obj, theObject obj ∧ Kind obj ≠ ""%string ∧ passed (locOf (stepDatabase c)) (asLeft obj).
Definition foundMissing : Prop := passed (locOf (stepDatabase c)) answeredMissing.

(** The migration's own run of the text was committed on the database. *)
Definition committed (i : nat) (l : loc) (se : session) (text : string) : Prop := (ID c, i, (l, se, text)) ∈ w_log w.
Definition ranStatement : Prop :=
  ∃ se text, se ∈ [clientSession c; sessionOn c key] ∧ text ∈ [Statement c; repackText] ∧ committed 0 (locOf (stepDatabase c)) se text.
(** The statement was committed, or its database was seen as it leaves it. *)
Definition applied : Prop :=
  ranStatement ∨ foundLeft ∨ String.prefix "DROP " (m_Kind c) = true ∧ foundMissing.
Definition passedOver : Prop :=
  Scope c = "existing"%string ∧ (foundMissing ∨ Expect (Object (Meta c)) = "absent"%string ∧ foundLeft).
(** A step was committed, or its check held. *)
Definition stepDone (i : nat) : Prop :=
  ∃ st, Steps (Meta c) !! i = Some st ∧
    (committed i (Some (set, keyID key, Database c)) (clientSession c) (SQL st) ∨
     passed (Some (set, keyID key, Database c)) (λ d, checkHolds (clientSession c) (Skip st) d = Ok true)).

Definition multistep : Prop := Strategy c = "multistep"%string.
Record borne (s : ShardMigration) : Prop := {
  bo_applied : ¬ multistep → State s = ShardApplied → applied;
  bo_skipped : ¬ multistep → State s = ShardSkipped → passedOver;
  bo_steps i : multistep → (i < Step s)%nat → stepDone i;
  bo_multi : multistep → State s ≠ ShardSkipped;
  bo_pending : State s = ShardPending → Step s = 0%nat }.
End Claims.

Definition justified `{Postgres} (w : world) (m : DDLMigration) : Prop :=
  ∀ key s, PerShard m !! key = Some s → borne w (core m) (ShardSet (Meta m)) key s.
(** Every shard of the set has its entry. *)
Definition planned (w : world) (m : DDLMigration) : Prop :=
  PerShard m ≠ ∅ ∧ (Scope m ≠ "home"%string → ∃ ids, w_shards w !! ShardSet (Meta m) = Some ids ∧ ∀ id, id ∈ ids → is_Some (PerShard m !! shardKey id)).

(** ** How the world moves *)

(** Histories grow. *)
Record grows (w w' : world) : Prop := {
  gr_log e : e ∈ w_log w → e ∈ w_log w';
  gr_dbs l h : w_dbs w !! l = Some h → ∃ h', w_dbs w' !! l = Some (h' ++ h);
  gr_shards set ids : w_shards w !! set = Some ids → w_shards w' !! set = Some ids;
  gr_cancelled t : t ∈ w_cancelled w → t ∈ w_cancelled w' }.
#[export] Instance grows_refl : Reflexive grows.
Proof. intros w. split; [done| |done|done]. intros l h Hl. by exists []. Qed.
Lemma passed_grows w w' l φ : grows w w' → passed w l φ → passed w' l φ.
Proof. intros [_ Hd _ _] (h & d & Hl & Hin & Hφ). destruct (Hd _ _ Hl) as [h' ?]. exists (h' ++ h), d. split_and!; [done|set_solver|done]. Qed.

Section Grows.
Context `{PG : Postgres} (w w' : world) (c : DDLMigration) (set key : string) (Hg : grows w w').
Lemma foundLeft_grows : foundLeft w c set key → foundLeft w' c set key.
Proof. intros (obj & ? & ? & Hp). exists obj. split_and!; [done|done|]. by eapply passed_grows. Qed.
Lemma foundMissing_grows : foundMissing w c set key → foundMissing w' c set key.
Proof. by apply passed_grows. Qed.
Lemma ranStatement_grows : ranStatement w c set key → ranStatement w' c set key.
Proof. intros (se & text & ? & ? & ?). exists se, text. split_and!; [done|done|by apply (gr_log _ _ Hg)]. Qed.
Lemma applied_grows : applied w c set key → applied w' c set key.
Proof.
  intros [?|[?|[??]]]; [left; by apply ranStatement_grows|right; left; by apply foundLeft_grows|].
  right. right. split; [done|by apply foundMissing_grows].
Qed.
Lemma passedOver_grows : passedOver w c set key → passedOver w' c set key.
Proof. intros [? [?|[??]]]; (split; [done|]); [left; by apply foundMissing_grows|right; split; [done|by apply foundLeft_grows]]. Qed.
Lemma stepDone_grows i : stepDone w c set key i → stepDone w' c set key i.
Proof.
  intros (st & ? & H). exists st. split; [done|]. destruct H as [?|?]; [left; by apply (gr_log _ _ Hg)|right; by eapply passed_grows].
Qed.
Lemma borne_grows s : borne w c set key s → borne w' c set key s.
Proof.
  intros [H1 H2 H3 H4 H5]. split; [|..]; eauto using applied_grows, passedOver_grows, stepDone_grows.
Qed.
End Grows.
Lemma justified_grows `{Postgres} w w' m : grows w w' → justified w m → justified w' m.
Proof. intros Hg Hj key s Hk. by eapply borne_grows; [|apply Hj]. Qed.
Lemma planned_grows w w' m : grows w w' → planned w m → planned w' m.
Proof. intros Hg [Hn Hp]. split; [done|]. intros Hs. destruct (Hp Hs) as (ids & ? & ?). exists ids. split; [by apply (gr_shards _ _ Hg)|done]. Qed.

Section System.
Context `{PG : Postgres}.
(** Whether a leader can come to know that it leads no longer before its context
    ends, and what others do to databases. *)
Context (mayLose : bool) (touches : loc → pgdb → pgdb → Prop).

(** Setting a role up in a transaction of the catalog's is not refused with the
    codes of a missing object: an unknown role answers 22023. *)
Definition refusals (r : gmap loc (string * string)) : Prop :=
  ∀ code msg, r !! None = Some (code, msg) → missingObject (EPg code msg) = false.

Inductive env (w : world) : world → Prop :=
| env_term : env w {| w with w_term := w_term w + 1 |}
| env_enqueue m :
    w_rows w !! ID m = None → m_State m = MigrationQueued → PerShard m = ∅ → Strategy m ≠ "rewrite"%string →
    env w {| w with w_rows := <[ID m := m]> (w_rows w) |}
| env_catalog q serving databases tables locks copying blocked :
    serving ≠ ""%string →
    env w {| w with w_queue := q; w_serving := serving; w_databases := databases; w_tables := tables;
                    w_locks := locks; w_copying := copying; w_blocked := blocked |}
| env_shards set ids : w_shards w !! set = None → env w {| w with w_shards := <[set := ids]> (w_shards w) |}
| env_create l d : w_dbs w !! l = None → env w (become w l d)
| env_db l d d' : present w l = Some d → touches l d d' → env w (become w l d')
| env_refuse r : refusals r → env w {| w with w_refuse := r |}
| env_cancel t : env w {| w with w_cancelled := {[t]} ∪ w_cancelled w |}
| env_lost s : mayLose = true → env w {| w with w_lost := s |}
| env_clock n : 0 ≤ n → env w {| w with w_clock := w_clock w + n |}.

(** ** The invariant *)

Record row_ok (w : world) (id : string) (r : DDLMigration) : Prop := {
  ro_id : ID r = id;
  ro_strategy : Strategy r ≠ "rewrite"%string;
  ro_queued : m_State r = MigrationQueued → PerShard r = ∅;
  ro_set : m_State r = MigrationRunning → ShardSet (Meta r) ≠ ""%string;
  ro_justified : justified w r;
  ro_planned : m_State r = MigrationRunning ∨ m_State r = MigrationComplete → planned w r;
  ro_settled : m_State r = MigrationComplete →
    (∀ key s, PerShard r !! key = Some s → State s = ShardApplied ∨ State s = ShardSkipped ∨ multistep r ∨ mayLose = true) ∧
    ∃ key s, PerShard r !! key = Some s ∧ State s = ShardApplied;
  ro_mirror : m_State r = MigrationComplete ↔ id ∈ w_mirror w }.
Record Inv (w : world) : Prop := {
  iv_rows id r : w_rows w !! id = Some r → row_ok w id r;
  iv_mirror id : id ∈ w_mirror w → is_Some (w_rows w !! id);
  iv_once : NoDup (w_mirror w);
  iv_serving : w_serving w ≠ ""%string;
  iv_refuse : refusals (w_refuse w);
  iv_lost : mayLose = false → w_lost w = ∅ }.

(** ** What passes do, and what one sees of the others *)

Definition rows_kept (w w' : world) : Prop := w_rows w' = w_rows w ∧ w_mirror w' = w_mirror w.
(** A pass under [T] that writes rows [K] only. *)
Record guar (T : Z) (K : string → Prop) (w w' : world) : Prop := {
  gu_grows : grows w w';
  gu_term : w_term w' = w_term w;
  gu_rows : w_term w = T ∧ (∀ id, K id ∨ w_rows w' !! id = w_rows w !! id) ∨ rows_kept w w' }.
Record evolves (T : Z) (w w' : world) : Prop := {
  ev_grows : grows w w';
  ev_term : w_term w ≤ w_term w';
  ev_rows : T ≤ w_term w → w_term w' = T → (∀ id r, w_rows w !! id = Some r → w_rows w' !! id = Some r) ∧ w_mirror w' = w_mirror w }.
Lemma applier_evolves_refl T w : evolves T w w.
Proof. split; [reflexivity|lia|done]. Qed.
Lemma guar_refl T K w : guar T K w w.
Proof. split; [reflexivity|done|by right]. Qed.
Lemma guar_evolves T T' K w w' : T ≠ T' → guar T' K w w' → evolves T w w'.
Proof. intros Hne [Hg Ht Hr]. split; [done|lia|]. intros Hle Ht'. destruct Hr as [[Hr _]|[-> ->]]; [lia|done]. Qed.
Lemma become_grows w l d : grows w (become w l d).
Proof.
  split; cbn; [done| |done|done]. intros l' h Hl. destruct (decide (l = l')) as [<-|].
  - rewrite lookup_insert_eq, Hl. by exists [d].
  - rewrite lookup_insert_ne by done. by exists [].
Qed.
Lemma env_grows w w' : env w w' → grows w w'.
Proof.
  intros []; try (by apply become_grows); (split; cbn; [done|intros l h Hl; by exists []| |]); try done; [|set_solver].
  intros set' ids' Hs. rewrite lookup_insert_ne; [done|]. intros <-. congruence.
Qed.
Lemma env_evolves T w w' : env w w' → evolves T w w'.
Proof.
  intros He. split; [by apply env_grows|destruct He; cbn; lia|]. intros Hle. destruct He; cbn; intros Ht; split; try done.
  intros id r Hr. rewrite lookup_insert_ne; [done|]. intros <-. congruence.
Qed.

(** A row is as sound in a world that grew. *)
Lemma row_ok_grows w w' id r : grows w w' → (id ∈ w_mirror w' ↔ id ∈ w_mirror w) → row_ok w id r → row_ok w' id r.
Proof.
  intros Hg Hm [H1 H2 H3 H4 H5 H6 H7 H8]. split; [done..|by eapply justified_grows|by intros ?; eapply planned_grows; eauto|done|]. by rewrite Hm.
Qed.
Lemma inv_grows w w' :
  grows w w' → rows_kept w w' → w_serving w' ≠ ""%string → refusals (w_refuse w') → (mayLose = false → w_lost w' = ∅) → Inv w → Inv w'.
Proof.
  intros Hg [Hr Hm] Hs Hf Hl [H1 H2 H3 H4 H4' H5]. split; rewrite ?Hr, ?Hm; [|done..].
  intros id r Hk. eapply row_ok_grows; [done|by rewrite Hm|by apply H1].
Qed.
Lemma queued_ok w m :
  ID m ∉ w_mirror w → m_State m = MigrationQueued → PerShard m = ∅ → Strategy m ≠ "rewrite"%string → row_ok w (ID m) m.
Proof.
  intros Hm Hs Hp Hn. split; [done|done|done|by rewrite Hs| | | |]; rewrite ?Hs; [|by intros [?|?]|done|done].
  intros key s. by rewrite Hp.
Qed.
Lemma applier_env_inv w w' : env w w' → Inv w → Inv w'.
Proof.
  intros He Hi. pose proof (env_grows _ _ He) as Hg. pose proof (iv_serving _ Hi). pose proof (iv_refuse _ Hi). pose proof (iv_lost _ Hi) as Hl.
  destruct He as [|m Hn Hq Hp Hs| | | | | | | |]; try (by eapply inv_grows; [exact Hg|done|cbn; done|cbn; done|cbn; done|exact Hi]);
    [|eapply inv_grows; [exact Hg|done|done|done|cbn; congruence|exact Hi]].
  assert (ID m ∉ w_mirror w) as Hnm by (intros [? ?]%(iv_mirror _ Hi); congruence).
  destruct Hi as [H1 H2 H3 H4 H4' H5]. split; cbn; [|..]; [|intros id [r Hr]%H2; rewrite lookup_insert_ne by congruence; by exists r|done..].
  intros id r. destruct (decide (ID m = id)) as [<-|].
  - rewrite lookup_insert_eq. intros [= <-]. by apply queued_ok.
  - rewrite lookup_insert_ne by done. intros Hr. eapply row_ok_grows; [exact Hg|done|by apply H1].
Qed.

(** ** One controller among the others *)

Definition env_of (T : Z) (w w' : world) : Prop := env w w' ∨ ∃ T' K, T' ≠ T ∧ guar T' K w w' ∧ Inv w'.
Lemma env_of_keeps T w w' : env_of T w w' → Inv w → Inv w' ∧ evolves T w w'.
Proof.
  intros [He|(T' & K & Hne & Hg & Hi)] Hw; [split; [by eapply applier_env_inv|by apply env_evolves]|split; [done|]].
  by eapply guar_evolves; [|exact Hg].
Qed.
Lemma applier_tick_env d w : env w (tick d w).2.
Proof. apply env_clock. lia. Qed.
Lemma applier_tick_keeps T d w : Inv w → Inv (tick d w).2 ∧ evolves T w (tick d w).2.
Proof. intros Hi. pose proof (applier_tick_env d w). split; [by eapply applier_env_inv|by apply env_evolves]. Qed.
Definition others (T : Z) : rely world err := Rely (env_of T) Inv (evolves T) (env_of_keeps T) (applier_evolves_refl T) (applier_tick_keeps T).
End System.
