(* ===== verification/ApplierProof.v ===== *)
(** * Passes of the applier keep the invariant

    Every statement of a pass does what [guar] allows of its term, and keeps
    [Inv] whatever other controllers and the environment do in between: what a
    pass writes of a shard is borne out by what it saw there. *)

From S2P Require Import Prelude Prog Triples ApplierWorld Applier ApplierSafety.

Local Open Scope Z_scope.

(** ** Statements *)

Section Aside.
Context `{PG : Postgres}.
Lemma rows_grow w rows : grows w {| w with w_rows := rows |}.
Proof. split; cbn; [done| |done|done]. intros l h Hl. by exists []. Qed.
Lemma logged_grows l se text entry w : grows w (logged l se text entry w).
Proof. destruct entry; [|reflexivity]. split; cbn; [set_solver|intros l' h Hl; by exists []|done|done]. Qed.
Lemma grows_trans w1 w2 w3 : grows w1 w2 → grows w2 w3 → grows w1 w3.
Proof.
  intros [H1 H2 H3 H4] [K1 K2 K3 K4]. split; [auto| |auto|auto]. intros l h Hl. destruct (H2 _ _ Hl) as [h1 Hl1].
  destruct (K2 _ _ Hl1) as [h2 Hl2]. exists (h2 ++ h1). by rewrite <- app_assoc.
Qed.
(** A client statement changes no row. *)
Record aside (w w' : world) : Prop := {
  as_grows : grows w w'; as_term : w_term w' = w_term w; as_rows : rows_kept w w';
  as_serving : w_serving w' = w_serving w; as_refuse : w_refuse w' = w_refuse w; as_lost : w_lost w' = w_lost w }.
Lemma aside_refl w : aside w w.
Proof. split; [reflexivity|done..]. Qed.
Lemma become_aside w l d : aside w (become w l d).
Proof. split; [apply become_grows|done..]. Qed.
Lemma committed_aside se text entry w l d : aside w (logged l se text entry (become w l d)).
Proof.
  split; [eapply grows_trans; [apply become_grows|apply logged_grows]|..]; by destruct entry.
Qed.
Definition execS (l : loc) (se : session) (text : string) (entry : option (string * nat)) (tx : bool) (w : world) : result err () * world :=
  match present w l with
  | None => (Err EConn, w)
  | Some d =>
      match sql se text d with
      | Ok d' => (Ok (), logged l se text entry (become w l d'))
      | Err (code, msg) => (Err (EPg code msg), if tx then w else become w l (wreck se text d))
      end
  end.
Lemma execS_aside l se text entry tx w : aside w (execS l se text entry tx w).2.
Proof.
  unfold execS. destruct (present w l) as [d|]; [|apply aside_refl]. destruct (sql se text d) as [d'|[code msg]]; cbn; [apply committed_aside|].
  destruct tx; [apply aside_refl|apply become_aside].
Qed.
End Aside.

(** ** The fence *)

Section Obeys.
Context `{PG : Postgres} (T : Z) (K : string → Prop).

(** Whatever happens, the program's statements are as [guar] says, and what it
    returns is as [ψ] does. *)
Definition obeys {A} (ψ : A → Prop) (x : M A) : Prop :=
  ∀ w, Prog.wp (λ _ _, True) (λ _, True) (guar T K) x w (λ r _, match r with Ok a => ψ a | Err _ => True end).
Definition whatever {A} (_ : A) : Prop := True.

Lemma obeys_weaken {A} (ψ φ : A → Prop) (x : M A) : (∀ a, ψ a → φ a) → obeys ψ x → obeys φ x.
Proof. intros H Hx w. eapply wp_mono; [|apply Hx]. intros [a|e] _; auto. Qed.
Lemma obeys_ret {A} (ψ : A → Prop) a : ψ a → obeys ψ (mret a).
Proof. by intros ? w. Qed.
Lemma obeys_fail {A} (ψ : A → Prop) e : obeys ψ (fail e).
Proof. by intros w. Qed.
Lemma obeys_bind {A B} (ψ : A → Prop) (φ : B → Prop) (x : M A) (f : A → M B) :
  obeys ψ x → (∀ a, ψ a → obeys φ (f a)) → obeys φ (x ≫= f).
Proof. intros Hx Hf w. apply wp_bind. eapply wp_mono; [|apply Hx]. intros [a|e] w' Ha; [by apply Hf|done]. Qed.
Lemma obeys_attempt {A} (ψ : A → Prop) (x : M A) : obeys ψ x → obeys (λ r, match r with Ok a => ψ a | Err _ => True end) (attempt x).
Proof. intros Hx w. apply wp_bind. eapply wp_mono; [|apply Hx]. by intros [a|e] w' Ha. Qed.
Lemma obeys_stmt {X} (f : world → result err X * world) : (∀ w, guar T K w (f w).2) → obeys whatever (stmt f).
Proof. intros Hf w w1 _ _. split; [split; [done|apply Hf]|]. split; [cbn; by destruct (f w1).1|]. by intros e _. Qed.
Lemma obeys_ask {X} (f : world → result err X) : obeys whatever (ask f).
Proof. apply obeys_stmt. intros w. apply guar_refl. Qed.
Lemma obeys_now : obeys whatever now.
Proof. by intros w w1 _ _. Qed.
Lemma obeys_sleep d : obeys whatever (sleep d).
Proof. by intros w w1 _ _. Qed.

Lemma aside_guar w w' : aside w w' → guar T K w w'.
Proof. intros [? ? ? _ _ _]. split; [done|done|by right]. Qed.
Lemma execOn_obeys l se text entry : obeys whatever (execOn l se text entry).
Proof. apply obeys_stmt. intros w. apply aside_guar, (execS_aside l se text entry false). Qed.

Context (HT : T ≠ 0).
Lemma updatable_term q m w r : updatable q m T w = Some r → w_term w = T.
Proof using HT.
  unfold updatable. intros (r0 & _ & Hu)%bind_Some. destruct (leaderTermPredicate w T && _) eqn:E; [|done].
  apply andb_true_iff in E as [E _]. unfold leaderTermPredicate in E. apply orb_true_iff in E as [?%Z.eqb_eq|?%Z.eqb_eq]; lia.
Qed.
Lemma others_kept id r (rows : gmap string DDLMigration) : K id → ∀ id', K id' ∨ <[id := r]> rows !! id' = rows !! id'.
Proof. intros Hk id'. destruct (decide (id = id')) as [<-|]; [by left|right; by rewrite lookup_insert_ne]. Qed.
Lemma save_guar q m w : K (ID m) → guar T K w (saveMigrationProgress q m T w).2.
Proof using HT.
  intros Hk. unfold saveMigrationProgress. destruct (updatable q m T w) as [r|] eqn:E; [|apply guar_refl].
  split; cbn; [apply rows_grow|done|]. left. split; [by eapply updatable_term|by apply others_kept].
Qed.
Lemma Save_obeys m : K (ID m) → obeys whatever (Save m T).
Proof using HT. intros Hk. eapply obeys_bind; [apply obeys_ask|]. intros q _. apply obeys_stmt. intros w. by apply save_guar. Qed.
Lemma MirrorAndSave_obeys m : K (ID m) → obeys whatever (MirrorAndSave m T).
Proof using HT.
  intros Hk. apply obeys_stmt. intros w. unfold saveMigrationProgress. destruct (updatable false m T (mirrored m w)) as [r|] eqn:E; cbn.
  - split; cbn; [|done|left; split; [by apply updatable_term in E|by apply others_kept]].
    split; cbn; [done| |done|done]. intros l h Hl. by exists [].
  - unfold termHeld. rewrite (proj2 (Z.eqb_neq _ _) HT). repeat case_match; try done; simplify_eq; apply guar_refl.
Qed.
End Obeys.

(** Through the code, statement by statement. *)
Ltac obey1 := match goal with
  | |- obeys _ _ _ (mbind _ _) => eapply obeys_bind; [|intros ? ?]
  | |- obeys _ _ _ (attempt _) => eapply obeys_attempt
  | |- obeys _ _ _ (ask _) => apply obeys_ask
  | |- obeys _ _ _ (fail _) => apply obeys_fail
  | |- obeys _ _ _ now => apply obeys_now
  | |- obeys _ _ _ (sleep _) => apply obeys_sleep
  | |- obeys _ _ _ (match ?x with _ => _ end) => destruct x
  | |- obeys _ _ _ (Save _ _) => apply Save_obeys; [done|cbn in *; by simplify_eq/=]
  | |- obeys _ _ _ (MirrorAndSave _ _) => apply MirrorAndSave_obeys; [done|cbn in *; by simplify_eq/=]
  | |- obeys _ _ _ (execOn _ _ _ _) => apply execOn_obeys
  | |- obeys _ _ _ (query _ _) => apply obeys_ask
  | |- obeys _ _ _ ServingShardSet => apply obeys_ask
  | |- obeys _ _ _ Queued => apply obeys_ask
  | |- obeys _ _ _ (setUp _) => apply obeys_ask
  | |- obeys _ _ _ (dropIndex _ _ _ _) => apply execOn_obeys
  | |- obeys _ _ _ (mret _) => apply obeys_ret; first [exact I|done|cbn in *; by simplify_eq/=]
  end.
Ltac obey := repeat obey1.

Section Fence.
Context `{PG : Postgres} (a : Applier) (T : Z) (HT : T ≠ 0) (K : string → Prop).
Local Notation obeys := (obeys T K).

Lemma obeys_any {A} (ψ : A → Prop) (x : M A) : obeys ψ x → obeys whatever x.
Proof. by apply obeys_weaken. Qed.
Lemma local_obeys u f : obeys whatever (local u f).
Proof. unfold local. obey. Qed.
Lemma dial_obeys l : obeys whatever (dial l).
Proof. unfold dial. obey. Qed.
Lemma dropInvalidIndex_obeys l se o : obeys whatever (dropInvalidIndex l se o).
Proof. unfold dropInvalidIndex. obey. Qed.
Lemma inTransaction_obeys l se text locals entry : obeys whatever (inTransaction l se text locals entry).
Proof. unfold inTransaction. obey. apply obeys_stmt. intros w. apply aside_guar, (execS_aside l se text entry true). Qed.
Lemma prepare_obeys m key id db : obeys whatever (prepare a m key id db).
Proof. unfold prepare, migrationSet, shardSet. obey; apply dial_obeys. Qed.
Lemma runStatement_obeys l m key resumed : obeys whatever (runStatement l m key resumed).
Proof. unfold runStatement, repackStep, concurrently. obey. apply inTransaction_obeys. Qed.

(** Everything below writes the row of one migration only. *)
Context (id : string) (Hid : K id).
Local Notation ofId := (λ p, ID p.2 = id).
Lemma save_obeys m : ID m = id → obeys whatever (Save m T).
Proof. intros <-. by apply Save_obeys. Qed.
Lemma recordDropSchema_obeys l m key : ID m = id → obeys ofId (recordDropSchema T l m key).
Proof. intros Hm. unfold recordDropSchema. cbv zeta. obey. Qed.
Lemma resumeCheck_obeys l m key obj : obeys whatever (resumeCheck l m key obj).
Proof. unfold resumeCheck, resumeIndexOnTable. cbv zeta. obey. apply dropInvalidIndex_obeys. Qed.
Lemma stepOn_obeys l m key obj resumed : obeys whatever (stepOn l m key obj resumed).
Proof.
  unfold stepOn. eapply (obeys_bind _ _ whatever); [case_match; [apply resumeCheck_obeys|by apply obeys_ret]|]. intros there _.
  obey. apply runStatement_obeys.
Qed.
Lemma step_obeys m key n resumed : ID m = id → obeys ofId (step a T m key n resumed).
Proof.
  intros Hm. unfold step. eapply (obeys_bind _ _ whatever); [eapply obeys_any, obeys_attempt, prepare_obeys|]. intros [l|e] _; [|by apply obeys_ret].
  cbv zeta. eapply (obeys_bind _ _ ofId).
  - destruct (unqualifiedDrop _); [|by apply obeys_ret]. destruct resumed; [by apply obeys_ret|].
    eapply obeys_bind; [by apply recordDropSchema_obeys|]. intros [r m'] Hm'. by apply obeys_ret.
  - intros [[r obj] m'] Hm'. destruct r as [u|e]; [|by apply obeys_ret]. eapply (obeys_bind _ _ whatever); [eapply obeys_any, obeys_attempt, stepOn_obeys|].
    intros r _. by apply obeys_ret.
Qed.
Lemma ctxErr_obeys u : obeys whatever (ctxErr T u).
Proof. apply local_obeys. Qed.
Lemma run_obeys l se text (b : bool) entry : obeys whatever (if b then execOn l se text entry else inTransaction l se text false entry).
Proof. destruct b; [apply execOn_obeys|apply inTransaction_obeys]. Qed.
Ltac any x := eapply (obeys_bind _ _ whatever); [x|intros ? _].
Lemma runStep_obeys m n st i : obeys whatever (runStep a T m n st i).
Proof.
  unfold runStep. any ltac:(apply prepare_obeys). cbv zeta. any ltac:(apply obeys_ask). obey1; [|apply obeys_fail].
  obey1; [by apply obeys_ret|]. set (run := if Concurrent st then _ else _).
  assert (obeys whatever (attempt run)) as Hrun by (eapply obeys_any, obeys_attempt, run_obeys).
  assert (∀ l se o, obeys whatever (attempt (dropInvalidIndex l se o))) as Hdrop by (intros; eapply obeys_any, obeys_attempt, dropInvalidIndex_obeys).
  any idtac.
  - destruct (negb _); [|exact Hrun]. any ltac:(apply Hdrop). obey1; [|apply obeys_fail]. any ltac:(exact Hrun).
    any idtac; [obey1; [by apply obeys_ret|]; any ltac:(apply ctxErr_obeys); obey1; [|by apply obeys_ret]; any ltac:(apply Hdrop); obey1; [exact Hrun|by apply obeys_ret]|].
    obey1; [by apply obeys_ret|]. any ltac:(apply ctxErr_obeys). any ltac:(obey1; [by apply obeys_ret|apply Hdrop]). by apply obeys_ret.
  - obey1; [by apply obeys_ret|]. any ltac:(apply ctxErr_obeys).
    any ltac:(obey1; [eapply obeys_any, obeys_attempt, execOn_obeys|by apply obeys_ret]). apply obeys_fail.
Qed.
Lemma nap_obeys d : obeys whatever (nap T d).
Proof. unfold nap. any ltac:(apply obeys_sleep). any ltac:(apply ctxErr_obeys). obey1; [apply obeys_fail|by apply obeys_ret]. Qed.
Lemma backOff_obeys wait m : ID m = id → obeys whatever (backOff T wait m).
Proof.
  intros Hm. unfold backOff. any ltac:(eapply obeys_any, obeys_attempt, save_obeys, Hm). obey1; [by apply obeys_ret|].
  any ltac:(eapply obeys_any, obeys_attempt, nap_obeys). obey1; [|by apply obeys_ret]. any ltac:(apply local_obeys). by apply obeys_ret.
Qed.
Lemma retryLoop_obeys {R} key (run : R → DDLMigration → M (result err string * R * DDLMigration)) fuel start wait r m s :
  (∀ r m, ID m = id → obeys ofId (run r m)) → ID m = id → obeys ofId (retryLoop a T key run fuel start wait r m s).
Proof.
  intros Hrun. revert wait r m s. induction fuel as [|fuel IH]; intros wait r m s Hm; cbn [retryLoop]; [apply obeys_fail|].
  apply (obeys_bind _ _ (λ o, match o with Some (_, _, m', _) => ID m' = id | None => True end)).
  - unfold tryOnce. cbv zeta. any ltac:(eapply obeys_any, obeys_attempt; by apply save_obeys). obey1; [by apply obeys_ret|].
    obey1; [|by apply obeys_ret]. eapply obeys_bind; [by apply Hrun|]. intros [[out r'] m'] Hm'. by apply obeys_ret.
  - intros [[[[[o|e] r'] m'] s']|] Hm'; [apply obeys_ret; exact Hm'| |apply obeys_ret; exact Hm]. any ltac:(apply ctxErr_obeys). cbv zeta.
    obey1; [by apply obeys_ret|]. obey1; [by apply obeys_ret|]. obey1; [by apply obeys_ret|]. any ltac:(apply obeys_now).
    obey1; [by apply obeys_ret|]. any ltac:(by apply backOff_obeys). obey1; [by apply obeys_ret|]. by apply IH.
Qed.
Lemma retrying_obeys {R} key (run : R → DDLMigration → M (result err string * R * DDLMigration)) r m s :
  (∀ r m, ID m = id → obeys ofId (run r m)) → ID m = id → obeys ofId (retrying a T key run r m s).
Proof. intros Hrun Hm. unfold retrying. any ltac:(apply obeys_now). by apply retryLoop_obeys. Qed.
Lemma attemptStep_obeys key n c m : ID m = id → obeys ofId (attemptStep a T key n c m).
Proof. intros Hm. eapply obeys_bind; [by apply step_obeys|]. intros [out m'] Hm'. by apply obeys_ret. Qed.
Lemma attemptRunStep_obeys n st i c m : ID m = id → obeys ofId (attemptRunStep a T n st i c m).
Proof. intros Hm. unfold attemptRunStep. any ltac:(eapply obeys_any, obeys_attempt, runStep_obeys). by apply obeys_ret. Qed.
Lemma applyOn_obeys m key n s : ID m = id → obeys ofId (applyOn a T m key n s).
Proof.
  intros Hm. unfold applyOn. destruct (negb _); [apply retrying_obeys; [|done]; intros; by apply attemptStep_obeys|].
  generalize (drop (Step s) (Steps (Meta m))) as steps. intros steps. revert m s Hm. induction steps as [|st steps IH]; intros m s Hm; cbn [applySteps]; [by apply obeys_ret|].
  eapply obeys_bind; [apply retrying_obeys; [|done]; intros; by apply attemptRunStep_obeys|]. intros [s' m'] Hm'. cbv zeta.
  obey1; [by apply obeys_ret|]. any ltac:(eapply obeys_any, obeys_attempt; by apply save_obeys). obey1; [by apply obeys_ret|]. by apply IH.
Qed.
Lemma driveShards_obeys keys m : ID m = id → obeys (λ m', ID m' = id) (driveShards a T keys m).
Proof.
  revert m. induction keys as [|key keys IH]; intros m Hm; cbn [driveShards]; cbv zeta; [by apply obeys_ret|].
  obey1; [by apply IH|]. obey1; [by apply IH|]. any ltac:(apply local_obeys). obey1; [apply obeys_fail|].
  eapply obeys_bind; [by apply applyOn_obeys|]. intros [s' m'] Hm'. any ltac:(apply ctxErr_obeys). obey1; [apply obeys_fail|].
  any ltac:(by apply save_obeys). by apply IH.
Qed.
Lemma startMigration_obeys m serving : ID m = id → obeys (λ o, ∀ m', o = Some m' → ID m' = id) (startMigration a T m serving).
Proof.
  intros Hm. unfold startMigration. any ltac:(obey1; [by apply obeys_ret|apply obeys_ask]). obey1.
  { any ltac:(by apply save_obeys). by apply obeys_ret. }
  any ltac:(obey1; [apply obeys_ask|by apply obeys_ret]).
  any ltac:(obey1; [any ltac:(eapply obeys_any, obeys_attempt, obeys_ask); obey1; [by apply obeys_ret|obey1; [by apply obeys_ret|apply obeys_fail]]|by apply obeys_ret]).
  obey1; [|any ltac:(by apply save_obeys); by apply obeys_ret]. cbv zeta. any ltac:(unfold targets; obey1; [by apply obeys_ret|any ltac:(apply obeys_ask); obey1; [apply obeys_fail|by apply obeys_ret]]).
  any ltac:(eapply obeys_any, obeys_attempt; by apply save_obeys). obey1; [apply obeys_ret; intros m' [= <-]; exact Hm|obey1; apply obeys_fail].
Qed.
Lemma verdict_id m : ID (verdict m) = ID m.
Proof. unfold verdict. by repeat case_match. Qed.
Lemma finish_obeys m : ID m = id → obeys whatever (finish T m).
Proof.
  intros Hm. unfold finish. cbv zeta. rewrite <- verdict_id in Hm. obey1; [apply MirrorAndSave_obeys; [done|by rewrite Hm]|by apply save_obeys].
Qed.
Context (driveRewrite : DDLMigration → M ()).
Hypothesis rewrite_obeys : ∀ m, ID m = id → obeys whatever (driveRewrite m).
Lemma drive_obeys m : ID m = id → obeys whatever (drive a T driveRewrite m).
Proof.
  intros Hm. unfold drive. any ltac:(unfold shardSet; obey1; [apply obeys_ask|by apply obeys_ret]). cbv zeta. obey1; [by apply save_obeys|].
  eapply (obeys_bind _ _ (λ o, ∀ m', o = Some m' → ID m' = id)).
  - case_match; [apply startMigration_obeys; by case_match|]. apply obeys_ret. intros m' [= <-]. by case_match.
  - intros [m'|] Hm'; [|by apply obeys_ret]. specialize (Hm' m' eq_refl). obey1; [by apply rewrite_obeys|].
    eapply obeys_bind; [by apply driveShards_obeys|]. intros m'' Hm''. by apply finish_obeys.
Qed.
End Fence.

(** ** A pass *)

Section PassObeys.
Context `{PG : Postgres} (a : Applier) (T : Z) (HT : T ≠ 0) (driveRewrite : DDLMigration → M ()).
(** What drives a rewrite writes the row of that migration under the term of the
    pass, and no other. *)
Definition rewrite_keeps : Prop := ∀ m, obeys T (eq (ID m)) whatever (driveRewrite m).
Hypothesis rewrite_obeys : rewrite_keeps.

Lemma obeys_more {A} (K K' : string → Prop) (ψ : A → Prop) (x : M A) : (∀ id, K id → K' id) → obeys T K ψ x → obeys T K' ψ x.
Proof.
  intros HK Hx w. specialize (Hx w). revert Hx. generalize (λ (r : result err A) (_ : world), match r with Ok a => ψ a | Err _ => True end). intros Q.
  revert w. induction x as [r|X f k IH|d k IH]; intros w; cbn; [done| |].
  - intros H w1 He _. destruct (H w1 He I) as ([_ [Hg Ht Hr]] & Hk & Hf). split; [split; [done|]|split; [by apply IH|]].
    + split; [done|done|]. destruct Hr as [[? Hr]|?]; [left|by right]. split; [done|]. intros id. destruct (Hr id); auto.
    + intros e Ht'. destruct (Hf e Ht'). split; by apply IH.
  - intros H w1 He _. by apply IH, H.
Qed.
Lemma pass_obeys w : Prog.wp (λ _ _, True) (λ _, True) (guar T whatever) (pass a T driveRewrite) w (λ _ _, True).
Proof using HT rewrite_obeys.
  assert (obeys T whatever whatever (RunOnce a T driveRewrite)) as Hr.
  { unfold RunOnce. eapply obeys_bind; [apply obeys_ask|]. intros pending _. eapply obeys_bind; [apply obeys_ask|]. intros queued _.
    eapply (obeys_bind _ _ whatever); [case_match; [by apply obeys_ret|apply obeys_ask]|]. intros locked _. generalize 0 as done.
    induction pending as [|m pending IH]; intros done; cbn [driveAll]; [by apply obeys_ret|]. case_match; [apply IH|].
    eapply (obeys_bind _ _ whatever).
    - eapply (obeys_weaken _ _ _ whatever); [done|]. eapply obeys_attempt, (obeys_more (eq (ID m))); [done|].
      apply drive_obeys with (id := ID m); [done|done| |done]. intros m' <-. apply rewrite_obeys.
    - intros [u|e] _; [apply IH|]. case_match; [apply IH|]. case_match; [by apply obeys_ret|apply obeys_fail]. }
  apply wp_bind. eapply wp_mono; [|apply Hr]. by intros r w' _.
Qed.
End PassObeys.
