(* ===== verification/ApplierSpecs.v ===== *)
(** * What a shard step of the applier finds

    Triples for the statements of [Applier] on a shard's database: what an
    attempt reports is borne out by the states the database went through and
    the statements committed on it. *)

From S2P Require Import Prelude Prog Triples ApplierWorld Applier ApplierSafety ApplierProof.

Local Open Scope Z_scope.

Section Specs.
Context `{PG : Postgres} (mayLose : bool) (touches : loc → pgdb → pgdb → Prop) (T : Z).
Local Notation R := (others mayLose touches T).
Local Notation closed := (Triples.closed R).
Local Notation triple := (Triples.triple R).
Local Notation Inv := (ApplierSafety.Inv mayLose).

Lemma closed_grows (P : world → Prop) : (∀ w w', grows w w' → P w → P w') → closed P.
Proof. intros HP w w' [Hg _ _]. by apply HP. Qed.
Lemma applier_aside_keeps w w' : aside w w' → Inv w → Inv w' ∧ evolves T w w'.
Proof.
  intros [Hg Ht Hr Hs Hf Hl] Hi. split.
  - eapply inv_grows; [exact Hg|exact Hr|rewrite Hs; by apply Hi|rewrite Hf; by apply Hi|intros ?; rewrite Hl; by apply Hi|exact Hi].
  - split; [exact Hg|lia|]. intros _ _. destruct Hr as [-> ->]. done.
Qed.
Lemma triple_aside {X} (P : world → Prop) (f : world → result err X * world) Q :
  closed P → (∀ w, aside w (f w).2) →
  (∀ w, Inv w → P w → P (f w).2 → Q (f w).1 (f w).2 ∧ ∀ e, e = EConn → Q (Err e) w ∧ Q (Err e) (f w).2) →
  triple P (stmt f) Q.
Proof.
  intros HP Hf HQ. apply triple_stmt; [done|]. intros w Hi Hw. destruct (applier_aside_keeps _ _ (Hf w) Hi) as [? He].
  split; [done|]. apply HQ; [done|done|]. by eapply HP.
Qed.

Lemma triple_pre {A} (P P' : world → Prop) (x : prog A) Q : (∀ w, P' w → P w) → triple P x Q → triple P' x Q.
Proof. intros HP Hx. eapply triple_conseq; [by intros w _; apply HP|by intros a w _ H; exact H|exact Hx]. Qed.

(** ** Statements *)

Section Statements.
Context (P : world → Prop) (HP : closed P).

Lemma present_passed w l d (φ : pgdb → Prop) : present w l = Some d → φ d → passed w l φ.
Proof. unfold present. intros (h & Hl & Hd)%bind_Some Hφ. exists h, d. split_and!; [done|destruct h; simplify_eq/=; set_solver|done]. Qed.
Lemma query_spec {X} l (f : pgdb → X) :
  triple P (query l f) (λ r w, P w ∧ match r with Ok x => passed w l (λ d, f d = x) | Err e => e = EConn end).
Proof.
  apply triple_ask; [done|]. intros w Hi Hw. split; [|by intros e ->].
  destruct (present w l) as [d|] eqn:E; [|done]. split; [done|]. by eapply present_passed.
Qed.
Lemma ask_spec {X} (f : world → result err X) (φ : result err X → Prop) :
  φ (Err EConn) → (∀ w, φ (f w)) → triple P (ask f) (λ r w, P w ∧ φ r).
Proof. intros He Hf. apply triple_ask; [done|]. intros w Hi Hw. split; [done|]. by intros e ->. Qed.

(** What is reported of a statement on a database. *)
Definition reported (l : loc) (se : session) (text : string) (entry : option (string * nat)) (r : result err ()) (w : world) : Prop :=
  match r with
  | Ok _ => ∀ e, entry = Some e → (e, (l, se, text)) ∈ w_log w
  | Err e => skipped e = None ∧
      (missingObject e = true → ∃ code msg, e = EPg code msg ∧ passed w l (λ d, sql se text d = Err (code, msg)))
  end.
Lemma reported_closed l se text entry r : closed (reported l se text entry r).
Proof.
  apply closed_grows. intros w w' Hg. destruct r as [u|e]; cbn.
  - intros H e He. apply (gr_log _ _ Hg). by apply H.
  - intros [Hs Hm]. split; [done|]. intros Hmo. destruct (Hm Hmo) as (code & msg & -> & Hp). exists code, msg. split; [done|]. by eapply passed_grows.
Qed.
Lemma execS_spec l se text entry tx :
  triple P (stmt (execS l se text entry tx)) (λ r w, P w ∧ reported l se text entry r w).
Proof.
  apply triple_aside; [done|apply execS_aside|]. intros w Hi Hw Hw'. split; [|by intros e ->].
  split; [done|]. unfold execS. destruct (present w l) as [d|] eqn:E; [|done].
  destruct (sql se text d) as [d'|[code msg]] eqn:Es; cbn.
  - intros e ->. cbn. set_solver.
  - split; [done|]. intros _. exists code, msg. split; [done|].
    eapply passed_grows; [|by eapply present_passed]. destruct tx; [reflexivity|apply become_grows].
Qed.
Lemma execOn_spec l se text entry : triple P (execOn l se text entry) (λ r w, P w ∧ reported l se text entry r w).
Proof. apply (execS_spec l se text entry false). Qed.
Lemma setUp_spec l : triple P (setUp l) (λ r w, P w ∧ match r with Ok _ => True | Err e => skipped e = None end).
Proof. apply ask_spec; [done|]. intros w. by destruct (w_refuse w !! l) as [[code msg]|]. Qed.
Lemma dial_spec l : triple P (dial l) (λ r w, P w ∧ match r with Ok _ => True | Err e => skipped e = None end).
Proof.
  eapply triple_try.
  - apply (ask_spec _ (λ r, match r with Ok _ => True | Err e => skipped (EDial e) = None end)); [done|]. intros w. by destruct (present w l).
  - intros [u|e]; [by apply triple_ret|by apply triple_fail].
Qed.
End Statements.

Lemma inTransaction_spec P l se text (locals : bool) entry :
  closed P → (locals = true → l = None) → triple P (inTransaction l se text locals entry) (λ r w, P w ∧ reported l se text entry r w).
Proof.
  intros HP Hl. eapply triple_bind; [by apply query_spec| |by intros e w _ [? ->]]. intros u.
  apply (triple_pre P); [by intros w [Hw _]|].
  eapply (triple_bind _ _ _ _ (λ r w, P w ∧ match r with Ok _ => True | Err e => skipped e = None ∧ missingObject e = false end)).
  - destruct locals; [|by apply triple_ret]. rewrite Hl by done. apply triple_ask; [done|]. intros w Hi Hw. split; [|by intros e ->].
    split; [done|]. destruct (w_refuse w !! None) as [[code msg]|] eqn:E; [|done]. split; [done|]. by eapply (iv_refuse _ _ Hi).
  - intros _. eapply triple_bind; [by apply query_spec; intros w w' ? [? ?]; split; [by eapply HP|]| |by intros e w _ [[? ?] ->]].
    intros [d|[code msg]].
    + apply (triple_pre P); [by intros w [[Hw _] _]|]. by apply (execS_spec P HP l se text entry true).
    + apply triple_fail. intros w Hi [[Hw _] Hp]. split; [done|]. split; [done|]. intros _. exists code, msg. done.
  - intros e w _ [Hw [? Hm]]. split; [done|]. split; [done|]. by rewrite Hm.
Qed.

(** ** A step *)

Definition noskip {X} (r : result err X) : Prop := match r with Ok _ => True | Err e => skipped e = None end.
Section OneStep.
Context (P : world → Prop) (HP : closed P).
Local Notation plain x := (triple P x (λ r w, P w ∧ noskip r)).

Lemma plain_bind {X Y} (x : M X) (f : X → M Y) : plain x → (∀ a, plain (f a)) → plain (x ≫= f).
Proof. intros Hx Hf. eapply triple_bind; [exact Hx| |done]. intros u. eapply triple_pre; [|apply Hf]. by intros w [? _]. Qed.
Lemma plain_query {X} l (f : pgdb → X) : plain (query l f).
Proof. eapply triple_conseq; [done| |by apply query_spec]. by intros [x|e] w _ [? ?]; subst. Qed.
Lemma plain_execOn l se text entry : plain (execOn l se text entry).
Proof. eapply triple_conseq; [done| |by apply execOn_spec]. intros [u|e] w _ [? Hr]; [done|]. by destruct Hr. Qed.
Lemma plain_ret {X} (x : X) : plain (mret (M := M) x).
Proof. by apply triple_ret. Qed.
Lemma plain_dropInvalidIndex l se o : plain (dropInvalidIndex l se o).
Proof.
  apply plain_bind; [apply plain_query|]. intros [schema|]; [|apply plain_ret]. apply plain_bind; [apply plain_execOn|]. intros _. apply plain_ret.
Qed.

Context (m : DDLMigration) (key : string) (l : loc).
Definition seen (obj : MigrationObject) (r : result err bool) (w : world) : Prop :=
  match r with Ok true => passed w l (asLeft (core m) key obj) | Ok false => True | Err e => skipped e = None end.
Lemma passed_weaken w l' (φ ψ : pgdb → Prop) : (∀ d, φ d → ψ d) → passed w l' φ → passed w l' ψ.
Proof. intros H (h & d & ? & ? & ?). exists h, d. split_and!; [done|done|by apply H]. Qed.
Lemma plain_false obj (x : M ()) : plain x → triple P (_ ← x; mret false) (λ r w, P w ∧ seen obj r w).
Proof. intros Hx. eapply triple_bind; [exact Hx| |by intros e w _ [? ?]]. intros u. apply triple_ret. by intros w _ [? _]. Qed.
Lemma resumeCheck_spec obj : triple P (resumeCheck l m key obj) (λ r w, P w ∧ seen obj r w).
Proof.
  assert (∀ f : pgdb → bool, (∀ d, f d = true → asLeft (core m) key obj d) → triple P (query l f) (λ r w, P w ∧ seen obj r w)) as Hq.
  { intros f Hf. eapply triple_conseq; [done| |by apply (query_spec P HP l f)]. intros [[]|e] w _ [? Hp]; (split; [done|]); cbn; [|done|by subst].
    eapply passed_weaken; [|exact Hp]. exact Hf. }
  unfold resumeCheck, asLeft, isIndexBuild in *. change (m_Kind (core m)) with (m_Kind m) in Hq.
  destruct (String.eqb (m_Kind m) "CREATE INDEX" && negb (String.eqb (Name obj) "")) eqn:Ei; [|by apply Hq].
  destruct (negb (String.eqb (Table obj) "")) eqn:Et.
  - unfold resumeIndexOnTable. eapply triple_bind; [by apply query_spec| |by intros e w _ [? ->]].
    intros [[schema []]|]; [| |by apply triple_ret; intros w _ [? _]].
    + apply triple_ret. intros w _ [? Hp]. split; [done|]. eapply passed_weaken; [|exact Hp]. intros d Hd. unfold asLeft, isIndexBuild.
      change (m_Kind (core m)) with (m_Kind m). rewrite Ei, Et. by exists schema.
    + eapply triple_pre; [|apply (plain_false obj), plain_execOn]. by intros w [? _].
  - eapply triple_bind; [apply plain_dropInvalidIndex| |by intros e w _ [? ?]]. intros [].
    + apply triple_ret. by intros w _ [? _].
    + eapply triple_pre; [|by apply Hq]. by intros w [? _].
Qed.

Context (set : string) (Hl : l = locOf set key (stepDatabase m)).
Definition outcome (r : result err string) (w : world) : Prop :=
  match r with
  | Ok o => o = ShardApplied ∧ applied w (core m) set key
  | Err e => skipped e = None ∨ passedOver w (core m) set key
  end.
Lemma outcome_grows r w w' : grows w w' → outcome r w → outcome r w'.
Proof.
  intros Hg. destruct r as [o|e]; cbn.
  - intros [-> ?]. split; [done|]. by eapply applied_grows.
  - intros [?|?]; [by left|right]. by eapply passedOver_grows.
Qed.
Lemma reported_missing se text entry e w :
  se ∈ [clientSession m; sessionOn m key] → text ∈ [Statement m; repackText m] →
  reported l se text entry (Err e) w → missingObject e = true → foundMissing w (core m) set key.
Proof.
  intros Hse Ht [_ Hm] Hmo. destruct (Hm Hmo) as (code & msg & -> & Hp). unfold foundMissing. rewrite Hl in Hp.
  eapply passed_weaken; [|exact Hp]. intros d Hd. by exists se, text, code, msg.
Qed.
Definition ran (r : result err ()) (w : world) : Prop :=
  match r with
  | Ok _ => ranStatement w (core m) set key
  | Err e => skipped e = None ∧ (missingObject e = true → foundMissing w (core m) set key)
  end.
Lemma ran_closed r : closed (ran r).
Proof.
  apply closed_grows. intros w w' Hg. destruct r as [u|e]; cbn; [by apply ranStatement_grows|]. intros [? H]. split; [done|]. intros Hm. eapply foundMissing_grows; [done|by apply H].
Qed.
Lemma reported_ran se text r w :
  se ∈ [clientSession m; sessionOn m key] → text ∈ [Statement m; repackText m] →
  reported l se text (Some (ID m, 0%nat)) r w → ran r w.
Proof.
  intros Hse Ht. destruct r as [u|e]; cbn.
  { intros H. exists se, text. split; [exact Hse|]. split; [exact Ht|]. specialize (H _ eq_refl). by rewrite Hl in H. }
  intros Hr. split; [by destruct Hr|].
  by apply (reported_missing se text None).
Qed.
Lemma execOn_ran se text :
  se ∈ [clientSession m; sessionOn m key] → text ∈ [Statement m; repackText m] →
  triple P (execOn l se text (Some (ID m, 0%nat))) (λ r w, P w ∧ ran r w).
Proof. intros Hse Ht. eapply triple_conseq; [done| |by apply execOn_spec]. intros r w _ [? ?]. split; [done|]. by eapply reported_ran. Qed.
Lemma here_session : sessionOn m key ∈ [clientSession m; sessionOn m key].
Proof. set_solver. Qed.
Lemma here_statement : Statement m ∈ [Statement m; repackText m].
Proof. set_solver. Qed.
Lemma concurrently_spec : triple P (concurrently l (sessionOn m key) m (Some (ID m, 0%nat))) (λ r w, P w ∧ ran r w).
Proof.
  eapply triple_try; [apply execOn_ran; [apply here_session|apply here_statement]|]. intros [u|e]; [by apply triple_ret|].
  cbv zeta. case_match; [by apply triple_fail|]. set (P' := λ w, P w ∧ ran (Err e) w).
  assert (closed P') as HP' by (apply closed_and; [done|apply ran_closed]).
  eapply triple_try; [by apply (query_spec P')|]. intros [[schema|]|e']; [|by apply triple_fail; intros w _ [? _]..].
  apply (triple_pre P'); [by intros w [? _]|]. eapply triple_try; [by apply (execOn_spec P')|]. intros [u|e'].
  - eapply triple_pre; [|apply execOn_ran; [apply here_session|apply here_statement]]. by intros w [[? _] _].
  - by apply triple_fail; intros w _ [? _].
Qed.
Lemma runStatement_spec resumed : triple P (runStatement l m key resumed) (λ r w, P w ∧ outcome r w).
Proof.
  unfold runStatement. cbv zeta. apply (triple_try _ _ _ _ (λ r w, P w ∧ ran r w)).
  - destruct (Repack (Meta m)) eqn:Er; [|destruct (_ || _); [apply concurrently_spec|]].
    + unfold repackStep. eapply triple_bind; [by apply query_spec| |by intros e w _ [? ->]]. intros v.
      apply (triple_pre P); [by intros w [? _]|]. apply execOn_ran; [apply here_session|]. case_match; set_solver.
    + eapply triple_conseq; [done| |apply (inTransaction_spec P); [done|]].
      * intros r w _ [? ?]. split; [done|]. eapply reported_ran; [| |done]; [set_solver|apply here_statement].
      * intros Hk. by rewrite Hl; unfold locOf; rewrite Hk.
  - intros [u|e].
    + apply triple_ret. intros w _ [? Hr]. split; [done|]. split; [done|]. by left.
    + destruct (String.eqb (Scope m) "existing" && missingObject e) eqn:E1.
      { apply andb_true_iff in E1 as [Hs%String.eqb_eq Hmo]. apply triple_fail. intros w _ [? [_ Hr]]. split; [done|]. right. split; [done|]. left. by apply Hr. }
      destruct (resumed && missingObject e && _) eqn:E2; [|apply triple_fail; intros w _ [? [? _]]; split; [done|by left]].
      apply andb_true_iff in E2 as [[_ Hmo]%andb_true_iff Hd]. apply triple_ret. intros w _ [? [_ Hr]]. split; [done|]. split; [done|].
      right. right. split; [done|by apply Hr].
Qed.
Lemma stepOn_spec obj resumed : theObject (core m) obj → triple P (stepOn l m key obj resumed) (λ r w, P w ∧ outcome r w).
Proof.
  intros Ho. unfold stepOn.
  apply (triple_bind _ _ _ _ (λ r w, P w ∧ seen obj r w ∧ (r = Ok true → Kind obj ≠ ""%string))).
  - destruct (resumed && negb (String.eqb (Kind obj) "") && negb (Repack (Meta m))) eqn:E; [|by apply triple_ret].
    apply andb_true_iff in E as [[_ Hk%negb_true_iff%String.eqb_neq]%andb_true_iff _].
    eapply triple_conseq; [done| |apply resumeCheck_spec]. intros r w _ [? ?]. split_and!; [done|done|done].
  - intros [].
    + assert (∀ w, seen obj (Ok true) w → Kind obj ≠ ""%string → foundLeft w (core m) set key) as Hf.
      { intros w Hs Hk. exists obj. split_and!; [done|done|]. cbn in Hs. by rewrite Hl in Hs. }
      destruct (negb (isIndexBuild m obj) && dropUnderExisting m) eqn:E.
      * apply andb_true_iff in E as [_ [Hs%String.eqb_eq Ha%String.eqb_eq]%andb_true_iff]. apply triple_fail. intros w _ (? & ? & Hk).
        split; [done|]. right. split; [done|]. right. split; [done|]. by apply Hf; [|apply Hk].
      * apply triple_ret. intros w _ (? & ? & Hk). split; [done|]. split; [done|]. right. left. by apply Hf; [|apply Hk].
    + eapply triple_pre; [|apply runStatement_spec]. by intros w [? _].
  - intros e w _ (? & ? & _). split; [done|by left].
Qed.
End OneStep.
End Specs.
