(* ===== verification/ApplierDrive.v ===== *)
(** * Passes of the applier keep the invariant

    Triples for the rest of [Applier]: the retries of a shard step, the steps of
    a multistep migration, the shards of a migration, and a pass over all that
    are pending.  What a pass knows of a migration it drives holds as long as
    its term does; once that is over it writes nothing. *)

From S2P Require Import Prelude Prog Triples ApplierWorld Applier ApplierSafety ApplierProof ApplierSpecs.

Local Open Scope Z_scope.

Section Drive.
Context `{PG : Postgres} (a : Applier) (mayLose : bool) (touches : loc → pgdb → pgdb → Prop) (T : Z) (HT : 0 < T).
Local Notation R := (others mayLose touches T).
Local Notation closed := (Triples.closed R).
Local Notation triple := (Triples.triple R).
Local Notation Inv := (ApplierSafety.Inv mayLose).

(** ** What a pass knows *)

(** As long as the term is its own. *)
Definition while (φ : world → Prop) (w : world) : Prop := T ≤ w_term w ∧ (w_term w = T → φ w).
Lemma closed_while (φ : world → Prop) : (∀ w w', evolves T w w' → w_term w = T → w_term w' = T → φ w → φ w') → closed (while φ).
Proof. intros Hφ w w' He [Hle Hw]. pose proof (ev_term _ _ _ He). split; [lia|]. intros Ht. assert (w_term w = T) by lia. eauto. Qed.
Lemma while_mono (φ ψ : world → Prop) w : (φ w → ψ w) → while φ w → while ψ w.
Proof. intros H [? ?]. split; auto. Qed.
Lemma while_and (φ ψ : world → Prop) w : while φ w → while ψ w → while (λ w, φ w ∧ ψ w) w.
Proof. intros [? ?] [_ ?]. split; auto. Qed.

(** What the pass itself does not undo either is kept beside it. *)
Lemma triple_beside {A} (K : string → Prop) (P C : world → Prop) (x : prog A) Q :
  closed C → (∀ w w', guar T K w w' → C w → C w') → (∀ w, Prog.wp (λ _ _, True) (λ _, True) (guar T K) x w (λ _ _, True)) →
  triple P x Q → triple (λ w, P w ∧ C w) x (λ r w, Q r w ∧ C w).
Proof.
  intros HC HG Hx HT' w Hi [Hw Hc]. specialize (HT' w Hi Hw). specialize (Hx w). clear Hw. revert w Hi Hc HT' Hx.
  induction x as [r|X f k IH|d k IH]; intros w Hi Hc HT' Hx; cbn in *; [tauto| |].
  - intros w1 He Hi1. destruct (closed_envs R C w w1 HC He Hi Hc) as [_ Hc1].
    destruct (Hx w1 (rtc_once _ _ I) I) as ([_ Hg] & Hx1 & Hx2). assert (C (f w1).2) by eauto. destruct (HT' w1 He Hi1) as ([Hi2 _] & ? & Herr).
    split; [done|]. split; [by apply IH|]. intros e Ht. destruct (Herr e Ht). destruct (Hx2 e Ht). split; by apply IH.
  - intros w1 He Hi1. destruct (closed_envs R C w w1 HC He Hi Hc) as [_ Hc1]. destruct (r_tick R d w1 Hi1).
    apply IH; [done..| |by apply HT'|by apply Hx; [apply (rtc_once _ _ I)|]]. eapply HC; eauto.
Qed.
Lemma obeys_wp {A} K (ψ : A → Prop) (x : M A) : obeys T K ψ x → ∀ w, Prog.wp (λ _ _, True) (λ _, True) (guar T K) x w (λ _ _, True).
Proof. intros Hx w. eapply wp_mono; [|apply Hx]. done. Qed.
Lemma while_guar K (φ : world → Prop) w w' : (∀ w w', grows w w' → φ w → φ w') → guar T K w w' → while φ w → while φ w'.
Proof. intros Hφ [Hg Ht _] [? Hw]. split; [lia|]. intros Ht'. eapply Hφ; [exact Hg|]. apply Hw. lia. Qed.

(** Its row is unfinished, and the same but for the progress. *)
Definition rowOf (m : DDLMigration) (w : world) : Prop := ∃ r, w_rows w !! ID m = Some r ∧ core r = core m ∧ unfinished r = true.
Record know (m : DDLMigration) (w : world) : Prop := { kn_justified : justified w m; kn_planned : planned w m; kn_row : rowOf m w }.
Definition holds (m : DDLMigration) : world → Prop := while (know m).
Record running (m : DDLMigration) : Prop := {
  ru_state : m_State m = MigrationRunning; ru_set : ShardSet (Meta m) ≠ ""%string; ru_strategy : Strategy m ≠ "rewrite"%string }.

Lemma rowOf_evolves m w w' : evolves T w w' → w_term w = T → w_term w' = T → rowOf m w → rowOf m w'.
Proof. intros [_ _ He] Ht Ht' (r & Hr & ? & ?). destruct He as [He _]; [lia|done|]. exists r. split_and!; [by apply He|done|done]. Qed.
Lemma holds_closed m : closed (holds m).
Proof.
  apply closed_while. intros w w' He Ht Ht' [H1 H2 H3]. split; [|..]; [eapply justified_grows; [apply He|done]|eapply planned_grows; [apply He|done]|].
  by eapply rowOf_evolves.
Qed.
Lemma grows_closed (φ : world → Prop) : (∀ w w', grows w w' → φ w → φ w') → closed (while φ).
Proof. intros Hφ. apply closed_while. intros w w' He _ _. apply Hφ, He. Qed.

(** The same migration, with other progress on one shard. *)
Record like (key : string) (m m' : DDLMigration) : Prop := {
  li_same : m' = {| m with PerShard := PerShard m' |};
  li_else key' : key' ≠ key → PerShard m' !! key' = PerShard m !! key' }.
Lemma like_refl key m : like key m m.
Proof. split; [by destruct m|done]. Qed.
Lemma like_trans key m1 m2 m3 : like key m1 m2 → like key m2 m3 → like key m1 m3.
Proof. intros [E1 H1] [E2 H2]. split; [rewrite E2, E1; done|]. intros key' Hne. by rewrite H2, H1. Qed.
Lemma like_setShard key m s : like key m (setShard m key s).
Proof. split; [done|]. intros key' Hne. cbn. by rewrite lookup_insert_ne. Qed.
Lemma like_then key m m' s : like key m m' → like key m (setShard m' key s).
Proof. intros Hl. eapply like_trans; [exact Hl|apply like_setShard]. Qed.
Lemma like_running key m m' : like key m m' → running m → running m'.
Proof. intros [-> _] [H1 H2 H3]. split; done. Qed.
Lemma like_core key m m' : like key m m' → core m' = core m ∧ Meta m' = Meta m ∧ ID m' = ID m ∧ Strategy m' = Strategy m.
Proof. by intros [-> _]. Qed.

Definition borneIn (m : DDLMigration) (key : string) (s : ShardMigration) (w : world) : Prop := borne w (core m) (ShardSet (Meta m)) key s.
Lemma borneIn_like m m' key s w : like key m m' → borneIn m' key s w ↔ borneIn m key s w.
Proof. by intros [-> _]. Qed.
Lemma borneIn_closed m key s : closed (while (borneIn m key s)).
Proof. apply grows_closed. intros w w' Hg. by apply borne_grows. Qed.
Lemma know_setShard m key s w : know m w → borneIn m key s w → know (setShard m key s) w.
Proof.
  intros [H1 [H2 H2'] H3] Hb. split; [| |done].
  - intros key' s'. cbn. destruct (decide (key = key')) as [<-|].
    + rewrite lookup_insert_eq. by intros [= <-].
    + rewrite lookup_insert_ne by done. by apply H1.
  - split; cbn; [apply insert_non_empty|]. intros Hs. destruct (H2' Hs) as (ids & ? & Hin). exists ids. split; [done|].
    intros id Hid. destruct (decide (key = shardKey id)) as [->|]; [rewrite lookup_insert_eq; eauto|rewrite lookup_insert_ne by done; auto].
Qed.
Lemma holds_setShard m key s w : holds m w → while (borneIn m key s) w → holds (setShard m key s) w.
Proof. intros Hm Hs. eapply while_mono; [|exact (while_and _ _ _ Hm Hs)]. intros [? ?]. by apply know_setShard. Qed.

(** Only applied and skipped entries claim anything of the database. *)
Lemma borne_unsettled w c set key s s' :
  borne w c set key s → Step s' = Step s → State s' ∈ [ShardRunning; ShardRetrying; ShardFailed] → borne w c set key s'.
Proof using Type.
  clear HT. intros [H1 H2 H3 H4 H5] Hst Hs. split; [| | |by intros _ E; rewrite E in Hs; set_solver|by intros E; rewrite E in Hs; set_solver].
  - by intros _ E; rewrite E in Hs; set_solver.
  - by intros _ E; rewrite E in Hs; set_solver.
  - intros i. rewrite Hst. apply H3.
Qed.

(** ** Writing the row *)

Lemma updated_core q r m : core (updated q r m) = core r.
Proof. unfold updated. by destruct (String.eqb _ _). Qed.
Lemma updated_parts q r m : m_State (updated q r m) = m_State m ∧ PerShard (updated q r m) = PerShard m ∧
  ShardSet (Meta (updated q r m)) = (if String.eqb (ShardSet (Meta m)) "" then ShardSet (Meta r) else ShardSet (Meta m)).
Proof. unfold updated. by destruct (String.eqb _ _). Qed.
Lemma core_id r m : core r = core m → ID r = ID m ∧ Strategy r = Strategy m ∧ Scope r = Scope m.
Proof. intros E. split_and!; [exact (f_equal ID E)|exact (f_equal Strategy E)|exact (f_equal Scope E)]. Qed.
Lemma unfinished_spec r : unfinished r = true ↔ m_State r = MigrationQueued ∨ m_State r = MigrationRunning.
Proof. unfold unfinished. by rewrite orb_true_iff, !String.eqb_eq. Qed.

(** Every other row is as sound as before. *)
Lemma other_rows w w' id r' :
  grows w w' → (∀ id', id' ≠ id → id' ∈ w_mirror w' ↔ id' ∈ w_mirror w) → w_rows w' = <[id := r']> (w_rows w) → Inv w →
  row_ok mayLose w' id r' → ∀ id' r, w_rows w' !! id' = Some r → row_ok mayLose w' id' r.
Proof.
  intros Hg Hm Hr Hi Hok id' r. rewrite Hr. destruct (decide (id = id')) as [<-|].
  - rewrite lookup_insert_eq. by intros [= <-].
  - rewrite lookup_insert_ne by done. intros Hk. eapply row_ok_grows; [done|by apply Hm|by apply (iv_rows _ _ Hi)].
Qed.
Lemma save_inv q m w r :
  Inv w → w_rows w !! ID m = Some r → core r = core m → unfinished r = true → Strategy m ≠ "rewrite"%string →
  justified w (updated q r m) →
  (m_State m = MigrationRunning ∧ ShardSet (Meta m) ≠ ""%string ∧ planned w (updated q r m)) ∨ m_State m = MigrationFailed →
  Inv {| w with w_rows := <[ID m := updated q r m]> (w_rows w) |}.
Proof.
  intros Hi Hr Hc Hu Hst Hj Hs. pose proof Hi as [H1 H2 H3 H4 H4' H5]. destruct (updated_parts q r m) as (E1 & E2 & E3).
  assert (ID m ∉ w_mirror w) as Hnm. { rewrite <- (ro_mirror _ _ _ _ (H1 _ _ Hr)). apply unfinished_spec in Hu as [-> | ->]; done. }
  split; [|..]; [|intros id [r0 Hid]%H2; cbn; destruct (decide (ID m = id)) as [<-|]; [rewrite lookup_insert_eq|rewrite lookup_insert_ne by done]; eauto|done..].
  eapply (other_rows w _ (ID m)); [apply rows_grow|done|done|done|]. destruct (core_id _ _ (eq_trans (updated_core q r m) Hc)) as (Eid & Est & _).
  split; [exact Eid|by rewrite Est|..]; rewrite ?E1.
  - destruct Hs as [(-> & _)| ->]; done.
  - rewrite E3. intros E. destruct Hs as [(_ & Hs & _)|Hs]; [|by rewrite E in Hs]. by rewrite (proj2 (String.eqb_neq _ _) Hs).
  - eapply justified_grows; [apply rows_grow|exact Hj].
  - destruct Hs as [(-> & _ & ?)| ->]; [by intros _|by intros [?|?]].
  - destruct Hs as [(-> & _)| ->]; done.
  - cbn. destruct Hs as [(-> & _)| ->]; done.
Qed.

Lemma T_ne : T ≠ 0.
Proof. lia. Qed.
Lemma updatable_inv q m w r' :
  updatable q m T w = Some r' → w_term w = T ∧ ∃ r, w_rows w !! ID m = Some r ∧ r' = updated q r m.
Proof.
  intros E. split; [by eapply (updatable_term T T_ne)|]. unfold updatable in E. apply bind_Some in E as (r & Hr & E). case_match; [|done].
  exists r. by simplify_eq.
Qed.
(** Nothing is written once the term is over, or anything kept from writing. *)
Lemma not_updatable q m w r :
  updatable q m T w = None → w_term w = T → w_rows w !! ID m = Some r → starts r m = true.
Proof.
  unfold updatable. intros E Ht Hr. rewrite Hr in E. cbn in E. unfold leaderTermPredicate in E. rewrite Ht, Z.eqb_refl, orb_true_r in E. cbn in E.
  by destruct (starts r m).
Qed.
Lemma term_before w w' : evolves T w w' → T ≤ w_term w → w_term w' = T → w_term w = T.
Proof. intros [_ ? _]. lia. Qed.

Lemma justified_updated q r m w :
  core r = core m → ShardSet (Meta m) ≠ ""%string → justified w m → justified w (updated q r m).
Proof.
  intros Hc Hs Hj key s. destruct (updated_parts q r m) as (_ & -> & ->). rewrite updated_core, Hc, (proj2 (String.eqb_neq _ _) Hs). apply Hj.
Qed.
Lemma planned_updated q r m w :
  core r = core m → ShardSet (Meta m) ≠ ""%string → planned w m → planned w (updated q r m).
Proof.
  intros Hc Hs [Hn Hp]. destruct (core_id _ _ (eq_trans (updated_core q r m) Hc)) as (_ & _ & Esc). unfold planned.
  destruct (updated_parts q r m) as (_ & -> & ->). rewrite Esc, (proj2 (String.eqb_neq _ _) Hs). done.
Qed.

Definition refusedFor (r : result err ()) (w : world) : Prop := 
  match r with Err e => skipped e = None ∧ (isNotLeaderTerm e = true → w_term w ≠ T) | Ok _ => True end.
Lemma Queued_spec (P : world → Prop) : closed P → triple P Queued (λ r w, P w ∧ match r with Ok _ => True | Err e => e = EConn end).
Proof. intros HP. by apply ask_spec. Qed.
Lemma Save_spec m : running m → triple (holds m) (Save m T) (λ r w, holds m w ∧ refusedFor r w).
Proof.
  intros [Hs Hset Hstr]. eapply triple_bind; [apply Queued_spec, holds_closed| |by intros e w _ [? ->]].
  intros q. apply triple_stmt; [intros w w' He [? ?]; split; [by eapply holds_closed|done]|]. intros w Hi [Hh _].
  unfold saveMigrationProgress. destruct (updatable q m T w) as [r'|] eqn:E; cbn [fst snd].
  - destruct (updatable_inv _ _ _ _ E) as (Ht & r & Hr & ->). destruct (proj2 Hh Ht) as [Hj Hp (r0 & Hr0 & Hc & Hu)].
    rewrite Hr in Hr0. injection Hr0 as <-.
    assert (holds m {| w with w_rows := <[ID m := updated q r m]> (w_rows w) |}) as Hh'.
    { split; [cbn; lia|]. intros _. split; [eapply justified_grows; [apply rows_grow|done]|eapply planned_grows; [apply rows_grow|done]|].
      exists (updated q r m). cbn. rewrite lookup_insert_eq. split_and!; [done|by rewrite updated_core|]. apply unfinished_spec.
      destruct (updated_parts q r m) as (-> & _). by right. }
    split; [|split; [done|by intros e ->]]. apply save_inv; [done..|by apply justified_updated|]. left. split_and!; [done|done|by apply planned_updated].
  - split; [done|]. split; [split; [done|]|by intros e ->]. destruct (_ && _ && _) eqn:Eh; [done|]. unfold termHeld.
    rewrite (proj2 (Z.eqb_neq _ _) T_ne). split; [done|]. intros _ Ht. destruct (proj2 Hh Ht) as [_ _ (r & Hr & _ & _)].
    pose proof (not_updatable _ _ _ _ E Ht Hr) as Hst. apply andb_true_iff in Hst as [Hq%String.eqb_eq Hrun].
    unfold leaderTermPredicate in Eh. rewrite Hrun, Ht, Z.eqb_refl, orb_true_r, Hr in Eh. cbn in Eh. rewrite Hq in Eh. by rewrite bool_decide_eq_true_2 in Eh.
Qed.

(** The last write, when it says failed. *)
Definition lastRow (m : DDLMigration) (w : world) : Prop :=
  ∃ r, w_rows w !! ID m = Some r ∧ core r = core m ∧ unfinished r = true ∧ ∀ q, justified w (updated q r m).
Lemma lastRow_closed m : closed (while (lastRow m)).
Proof.
  apply closed_while. intros w w' [Hg _ He] Ht Ht' (r & Hr & ? & ? & Hj). destruct He as [He _]; [lia|done|]. exists r.
  split_and!; [by apply He|done|done|]. intros q. by eapply justified_grows.
Qed.
Lemma Save_failed m :
  m_State m = MigrationFailed → Strategy m ≠ "rewrite"%string → triple (while (lastRow m)) (Save m T) (λ _ _, True).
Proof.
  intros Hs Hstr. eapply triple_bind; [apply Queued_spec, lastRow_closed| |done].
  intros q. apply triple_stmt; [intros w w' He [? ?]; split; [by eapply lastRow_closed|done]|]. intros w Hi [Hh _].
  unfold saveMigrationProgress. destruct (updatable q m T w) as [r'|] eqn:E; cbn [fst snd]; [|done]. split; [|done].
  destruct (updatable_inv _ _ _ _ E) as (Ht & r & Hr & ->). destruct (proj2 Hh Ht) as (r0 & Hr0 & Hc & Hu & Hj).
  rewrite Hr in Hr0. injection Hr0 as <-. apply save_inv; [done..|apply Hj|by right].
Qed.

(** The last write, when it says complete. *)
Definition conclusive (m : DDLMigration) : Prop :=
  (∀ key s, PerShard m !! key = Some s → State s = ShardApplied ∨ State s = ShardSkipped ∨ multistep m ∨ mayLose = true) ∧
  ∃ key s, PerShard m !! key = Some s ∧ State s = ShardApplied.
Lemma mirror_inv m w r :
  Inv w → know m w → w_rows w !! ID m = Some r → core r = core m → unfinished r = true →
  m_State m = MigrationComplete → ShardSet (Meta m) ≠ ""%string → Strategy m ≠ "rewrite"%string → conclusive m →
  let w' := mirrored m w in Inv {| w' with w_rows := <[ID m := updated false r m]> (w_rows w') |}.
Proof.
  intros Hi [Hj Hp _] Hr Hc Hu Hs Hset Hstr [Hall Hone]. pose proof Hi as [H1 H2 H3 H4 H4' H5]. destruct (updated_parts false r m) as (E1 & E2 & E3).
  assert (ID m ∉ w_mirror w) as Hnm. { rewrite <- (ro_mirror _ _ _ _ (H1 _ _ Hr)). apply unfinished_spec in Hu as [-> | ->]; done. }
  cbv zeta. set (w' := {| (mirrored m w) with w_rows := <[ID m := updated false r m]> (w_rows w) |}).
  assert (grows w w') as Hg by (split; cbn; [done|intros l h Hl; by exists []|done|done]).
  destruct (core_id _ _ (eq_trans (updated_core false r m) Hc)) as (Eid & Est & _).
  split; [| |cbn; apply NoDup_app; split_and!; [done|set_solver|apply NoDup_singleton]|done..].
  - eapply (other_rows w _ (ID m)); [done|cbn; set_solver|done|done|]. split; [exact Eid|by rewrite Est|..]; rewrite ?E1, ?E2, ?Hs; [done|done| | | |].
    + eapply justified_grows; [done|]. by apply justified_updated.
    + intros _. eapply planned_grows; [done|]. by apply planned_updated.
    + intros _. split; [|done]. intros key s Hk. unfold multistep. rewrite Est. by apply (Hall key).
    + cbn. set_solver.
  - cbn. intros id [[r0 Hid]%H2|Hid%list_elem_of_singleton]%elem_of_app; [|rewrite Hid, lookup_insert_eq; eauto].
    destruct (decide (ID m = id)) as [<-|]; [rewrite lookup_insert_eq|rewrite lookup_insert_ne by done]; eauto.
Qed.
Lemma MirrorAndSave_spec m :
  m_State m = MigrationComplete → ShardSet (Meta m) ≠ ""%string → Strategy m ≠ "rewrite"%string →
  triple (λ w, holds m w ∧ while (λ _, conclusive m) w) (MirrorAndSave m T) (λ _ _, True).
Proof.
  intros Hs Hset Hstr. apply triple_stmt; [apply closed_and; [apply holds_closed|by apply closed_while]|]. intros w Hi [Hh Hcon]. split; [|done].
  unfold saveMigrationProgress. destruct (updatable false m T (mirrored m w)) as [r'|] eqn:E.
  - destruct (updatable_inv _ _ _ _ E) as (Ht & r & Hr & ->). destruct (proj2 Hh Ht) as [Hj Hp (r0 & Hr0 & Hc & Hu)].
    change (w_rows w !! ID m = Some r) in Hr. rewrite Hr in Hr0. injection Hr0 as <-.
    exact (mirror_inv m w r Hi (proj2 Hh Ht) Hr Hc Hu Hs Hset Hstr (proj2 Hcon Ht)).
  - unfold termHeld. rewrite (proj2 (Z.eqb_neq _ _) T_ne). by repeat case_match.
Qed.
End Drive.
