(* ===== verification/ApplierPass.v ===== *)
(** * A pass of the applier, from a shard step to the whole

    Triples for the retries of a shard step, the steps of a multistep migration,
    the shards of a migration, its start and its end, and a pass over all that
    are pending. *)

From stdpp Require Import pretty.
From S2P Require Import Prelude ScatterAgg Prog Triples ApplierWorld Applier ApplierSafety ApplierProof ApplierSpecs ApplierDrive.

Local Open Scope Z_scope.

Section Pass.
Context `{PG : Postgres} (a : Applier) (mayLose : bool) (touches : loc → pgdb → pgdb → Prop) (T : Z) (HT : 0 < T).
Local Notation R := (others mayLose touches T).
Local Notation closed := (Triples.closed R).
Local Notation triple := (Triples.triple R).
Local Notation Inv := (ApplierSafety.Inv mayLose).
Local Notation holds := (ApplierDrive.holds T).
Local Notation while := (ApplierDrive.while T).

Lemma triple_ret_bind {A B} (P : world → Prop) (x : A) (f : A → M B) Q : triple P (f x) Q → triple P (mret x ≫= f) Q.
Proof. done. Qed.

(** ** What a process knows of itself *)

Lemma ctx_spec (P : world → Prop) u :
  closed P → triple P (ctxErr T u) (λ r w, P w ∧ ∃ c, r = Ok c ∧ (c = true → u = false → T ∈ w_cancelled w) ∧ (c = false → u = true → T ∉ w_cancelled w)).
Proof.
  intros HP. eapply triple_try.
  - apply (triple_ask _ P _ (λ r w, P w ∧ match r with Ok c => c = bool_decide (T ∈ w_cancelled w) | Err _ => True end)); done.
  - intros [c|e]; apply triple_ret; intros w _ [? Hc]; (split; [done|]).
    + exists c. subst. split; [done|]. split; intros Hc _; [by eapply bool_decide_eq_true_1|by eapply bool_decide_eq_false_1].
    + exists u. split; [done|]. split; congruence.
Qed.
Lemma lost_spec (P : world → Prop) u :
  closed P → triple P (lostLeadership T u) (λ r w, P w ∧ ∃ c, r = Ok c ∧ (c = true → u = false → mayLose = true)).
Proof.
  intros HP. eapply triple_try.
  - apply (triple_ask _ P _ (λ r w, P w ∧ match r with Ok c => c = true → mayLose = true | Err _ => True end)); [done|].
    intros w Hi Hw. split; [|done]. split; [done|]. intros Hc%bool_decide_eq_true_1. destruct mayLose eqn:E; [done|].
    rewrite (iv_lost _ _ Hi) in Hc by done. set_solver.
  - intros [c|e]; apply triple_ret; intros w _ [? Hc]; (split; [done|]); eexists; (split; [done|]); [by intros ? _; apply Hc|congruence].
Qed.
Lemma nap_spec (P : world → Prop) d :
  closed P → triple P (nap T d) (λ r w, P w ∧ match r with Ok _ => True | Err _ => T ∈ w_cancelled w end).
Proof.
  intros HP. apply triple_sleep_bind; [done|]. eapply triple_bind; [by apply ctx_spec| |by intros e w _ (? & c & [=] & _)].
  intros []; [apply triple_fail|by apply triple_ret; intros w _ [? _]]. intros w _ (? & c & [= <-] & Hc & _). split; [done|by apply Hc].
Qed.

(** ** A shard step *)

Lemma borne_same w c set key s s' : borne w c set key s → State s' = State s → Step s' = Step s → borne w c set key s'.
Proof. intros [H1 H2 H3 H4 H5] E1 E2. split; rewrite ?E1, ?E2; done. Qed.
Lemma borne_shard m key w : know m w → borneIn m key (shard m key) w.
Proof.
  intros [Hj _ _]. unfold shard. destruct (PerShard m !! key) as [s|] eqn:E; cbn; [by apply Hj|]. split; cbn; [done|done|lia|done|done].
Qed.
(** No shard's key is the catalog's. *)
Lemma shardKey_catalog id : String.eqb (shardKey id) catalogKey = false.
Proof.
  apply String.eqb_neq. unfold shardKey, catalogKey. assert (∀ n : N, pretty n ≠ "catalog"%string) as Hn.
  { intros n. unfold pretty, pretty_N. case_match; [done|]. destruct (pretty_N_go_head n "") as (c & rest & Hc & Hr); [done|].
    intros E. rewrite E in Hc. injection Hc as <- _. cbn in Hr. lia. }
  destruct id; [done|apply Hn|done].
Qed.
Lemma prepare_spec (P : world → Prop) m key id db :
  closed P → ShardSet (Meta m) ≠ ""%string →
  triple P (prepare a m key id db) (λ r w, P w ∧ match r with
    | Ok l => l = if String.eqb key catalogKey then None else Some (ShardSet (Meta m), id, db)
    | Err e => skipped e = None end).
Proof.
  intros HP Hs. unfold prepare, migrationSet. rewrite (proj2 (String.eqb_neq _ _) Hs). destruct (String.eqb key catalogKey).
  - eapply triple_bind; [by apply dial_spec| |done]. intros u. apply triple_ret. by intros w _ [? _].
  - apply triple_ret_bind. eapply triple_bind; [by apply dial_spec| |done]. intros u. apply (triple_pre _ _ _ P); [by intros w [? _]|].
    eapply triple_bind; [by apply setUp_spec| |done]. intros u'. apply triple_ret. by intros w _ [? _].
Qed.
Lemma recordDropSchema_spec l m key :
  running m → triple (holds m) (recordDropSchema T l m key) (λ r w, match r with
    | Ok (out, m') => like key m m' ∧ holds m' w ∧ match out with Ok _ => True | Err e => skipped e = None end
    | Err _ => True end).
Proof.
  intros Hm. unfold recordDropSchema. eapply triple_try; [apply query_spec, holds_closed|]. intros [[schema|]|e].
  - cbv zeta. set (m' := setShard m key _). assert (running m') as Hm' by (by eapply like_running; [apply like_setShard|]).
    apply (triple_pre _ _ _ (holds m')).
    { intros w [Hh _]. apply holds_setShard; [done|]. eapply while_mono; [|exact Hh]. intros Hk. eapply borne_same; [by apply borne_shard|done|done]. }
    eapply triple_try; [by apply Save_spec|]. intros r. apply triple_ret. intros w _ [Hh Hr]. split_and!; [apply like_setShard|done|].
    destruct r as [u|e]; [done|]. destruct (isNotLeaderTerm e) eqn:E; [done|]. by destruct Hr.
  - apply triple_ret. intros w _ [Hh _]. split_and!; [apply like_refl|done|done].
  - apply triple_ret. intros w _ [Hh ->]. split_and!; [apply like_refl|done|done].
Qed.

Lemma outcome_like m m' key set r w : like key m m' → outcome m' key set r w → outcome m key set r w.
Proof. by intros [-> _]. Qed.
Lemma step_spec m key resumed :
  running m → triple (holds m) (step a T m key (keyID key) resumed) (λ r w, match r with
    | Ok (out, m') => like key m m' ∧ holds m' w ∧ outcome m key (ShardSet (Meta m)) out w
    | Err _ => True end).
Proof.
  intros Hm. unfold step. eapply triple_try; [apply prepare_spec; [apply holds_closed|apply Hm]|]. intros [l|e].
  2:{ apply triple_ret. intros w _ [? ?]. split_and!; [apply like_refl|done|by left]. }
  cbv zeta. apply (triple_pre _ _ _ (λ w, l = locOf (ShardSet (Meta m)) key (stepDatabase m) ∧ holds m w)); [intros w [? ->]; by unfold locOf|].
  apply triple_and_pure. intros Hl.
  eapply (triple_bind _ _ _ _ (λ r w, match r with
    | Ok (out, obj, m') => like key m m' ∧ holds m' w ∧ theObject (core m) obj ∧ match out with Ok _ => True | Err e => skipped e = None end
    | Err _ => True end)); [| |done].
  - destruct (unqualifiedDrop (Object (Meta m))) eqn:Hu; [|apply triple_ret; intros w _ ?; split_and!; [apply like_refl|done|by left|done]].
    destruct resumed; [apply triple_ret; intros w _ ?; split_and!; [apply like_refl|done|right; split; [done|by eexists]|done]|].
    eapply triple_bind; [by apply recordDropSchema_spec| |done]. intros [out m']. apply triple_ret. intros w _ (? & ? & ?). split_and!; [done|done|by left|done].
  - intros [[out obj] m']. destruct out as [u|e]; [|apply triple_ret; intros w _ (? & ? & _ & ?); split_and!; [done|done|by left]].
    apply (triple_pre _ _ _ (λ w, (like key m m' ∧ theObject (core m) obj) ∧ holds m' w)); [by intros w (? & ? & ? & _)|].
    apply triple_and_pure. intros [Hlike Ho]. eapply triple_try.
    + apply (stepOn_spec _ _ _ (holds m') (holds_closed _ _ _ _) m' key l (ShardSet (Meta m))); [rewrite Hl|]; by rewrite (li_same _ _ _ Hlike).
    + intros r. apply triple_ret. intros w _ [? ?]. split_and!; [done|done|by eapply outcome_like].
Qed.

(** A step of a multistep migration. *)
Section RunStep.
Context (m : DDLMigration) (key : string) (i : nat) (st : MigrationStep).
Context (Hm : running m) (Hst : Steps (Meta m) !! i = Some st).
Definition stepped (r : result err ()) (w : world) : Prop :=
  match r with Ok _ => committed w m i (Some (ShardSet (Meta m), keyID key, Database m)) (clientSession m) (SQL st) | Err e => skipped e = None end.
Definition stepOutcome (r : result err string) (w : world) : Prop :=
  match r with Ok o => o = ShardApplied ∧ stepDone w (core m) (ShardSet (Meta m)) key i | Err e => skipped e = None end.
Lemma stepped_closed r : closed (stepped r).
Proof. apply closed_grows. intros w w' Hg. destruct r; [apply Hg|done]. Qed.
Lemma stepOutcome_closed r : closed (stepOutcome r).
Proof. apply closed_grows. intros w w' Hg. destruct r; [|done]. intros [-> ?]. split; [done|]. by eapply stepDone_grows. Qed.
Local Notation with_ P x := (λ w, P w ∧ stepped x w).
Lemma with_closed P x : closed P → closed (with_ P x).
Proof. intros HP. apply closed_and; [done|apply stepped_closed]. Qed.
Lemma runStep_run l P (x : M ()) :
  l = Some (ShardSet (Meta m), keyID key, Database m) → closed P → x = (if Concurrent st then execOn l (clientSession m) (SQL st) (Some (ID m, i))
                  else inTransaction l (clientSession m) (SQL st) false (Some (ID m, i))) →
  triple P x (λ r w, P w ∧ stepped r w).
Proof.
  intros Hl HP ->. assert (∀ r w, reported l (clientSession m) (SQL st) (Some (ID m, i)) r w → stepped r w) as Hr.
  { intros [u|e] w H; cbn; [unfold committed; rewrite <- Hl; by apply H|by destruct H]. }
  destruct (Concurrent st); (eapply triple_conseq; [done| |]); [|by apply execOn_spec| |by apply inTransaction_spec]; intros r w _ [? ?]; auto.
Qed.
Lemma drop_then P l se idx (B : Type) (f : result err bool → M B) Q :
  closed P → (∀ r, triple P (f r) Q) → triple P (attempt (dropInvalidIndex l se idx) ≫= f) Q.
Proof. intros HP Hf. eapply triple_try; [by apply plain_dropInvalidIndex|]. intros r. eapply triple_pre; [|apply Hf]. by intros w [? _]. Qed.
Definition steppedIn (r : result err (result err ())) (w : world) : Prop := match r with Ok r => stepped r w | Err e => skipped e = None end.
(** Nothing that is tried afterwards changes the outcome. *)
Lemma quietly P e {X Y} (x : M X) (b : bool) (y : result err X) (f : result err X → M Y) Q :
  closed P → triple (with_ P (Err e)) x (λ r w, with_ P (Err e) w ∧ noskip r) → (∀ r, triple (with_ P (Err e)) (f r) Q) →
  triple (with_ P (Err e)) ((if b then mret y else attempt x) ≫= f) Q.
Proof.
  intros HP Hx Hf. destruct b; [by apply triple_ret_bind|]. eapply triple_try; [exact Hx|]. intros r. eapply triple_pre; [|apply Hf]. by intros w [? _].
Qed.
Lemma ctx_then (P : world → Prop) u {Y} (f : bool → M Y) Q : closed P → (∀ c, triple P (f c) Q) → triple P (ctxErr T u ≫= f) Q.
Proof.
  intros HP Hf. eapply triple_bind; [by apply ctx_spec| |by intros e w _ (_ & c & [=] & _)]. intros c. eapply triple_pre; [|apply Hf]. by intros w [? _].
Qed.
Lemma attempt_run P (x : M ()) : triple P x (λ r w, P w ∧ stepped r w) → triple P (attempt x) (λ r w, P w ∧ steppedIn r w).
Proof. intros Hx. eapply triple_pbind; [exact Hx|]. intros r. by apply (triple_ret R _ r). Qed.
(** Building an index: an invalid one is dropped before and after. *)
Lemma buildIndex_spec P l se idx (run : M ()) :
  closed P → (∀ P, closed P → triple P run (λ r w, P w ∧ stepped r w)) →
  triple P (d ← attempt (dropInvalidIndex l se idx);
    match d with
    | Err e => fail e
    | Ok _ =>
        r ← attempt run;
        r ← match r with
            | Err e =>
                c ← ctxErr T false;
                if negb (isTransient e) && negb c then
                  d ← attempt (dropInvalidIndex l se idx);
                  match d with Ok _ => attempt run | Err _ => mret (Err e) end
                else mret (Err e)
            | Ok _ => mret r
            end;
        match r with
        | Err e => c ← ctxErr T false; _ ← (if c : bool then mret (Ok false) else attempt (dropInvalidIndex l se idx)); mret (Err e)
        | Ok _ => mret r
        end
    end) (λ r w, P w ∧ steppedIn r w).
Proof.
  intros HP Hrun. eapply triple_try; [by apply plain_dropInvalidIndex|]. intros [b|e]; [|by apply triple_fail].
  apply (triple_pre _ _ _ P); [by intros w [? _]|]. eapply triple_try; [by apply Hrun|]. intros r.
  apply (triple_bind _ _ _ _ (λ r w, P w ∧ steppedIn r w)); [| |by intros e w _ [? ?]].
  - destruct r as [u|e]; [by apply triple_ret|]. pose proof (with_closed P (Err e) HP) as HP'. apply ctx_then; [done|]. intros c.
    destruct (_ && _); [|by apply triple_ret]. apply drop_then; [done|]. intros [b'|e']; [|by apply triple_ret].
    apply (triple_conseq R (with_ P (Err e)) _ _ (λ r w, with_ P (Err e) w ∧ steppedIn r w)); [done|by intros r w _ [[? _] ?]|].
    apply (attempt_run (with_ P (Err e))), Hrun, HP'.
  - intros [u|e]; [by apply triple_ret|]. pose proof (with_closed P (Err e) HP) as HP'. apply ctx_then; [done|]. intros c.
    apply quietly; [done|by apply plain_dropInvalidIndex|]. intros r'. by apply triple_ret.
Qed.
Lemma checkHolds_skipped se c d e : checkHolds se c d = Err e → skipped e = None.
Proof. unfold checkHolds. intros E. repeat case_match; by simplify_eq. Qed.
Lemma runStep_spec P : closed P → triple P (runStep a T m (keyID key) st i) (λ r w, P w ∧ stepOutcome r w).
Proof.
  intros HP. unfold runStep. eapply triple_bind; [apply prepare_spec; [done|apply Hm]| |done]. intros l. cbv zeta.
  apply (triple_pre _ _ _ (λ w, l = Some (ShardSet (Meta m), keyID key, Database m) ∧ P w)); [intros w [? ->]; by rewrite shardKey_catalog|].
  apply triple_and_pure. intros Hl. eapply triple_bind; [by apply query_spec| |by intros e w _ [? ->]]. intros [[]|e].
  - apply triple_ret. intros w _ [? Hp]. split; [done|]. split; [done|]. rewrite Hl in Hp. exists st. split; [done|by right].
  - set (run := if Concurrent st then _ else _). apply (triple_pre _ _ _ P); [by intros w [? _]|].
    assert (∀ P, closed P → triple P run (λ r w, P w ∧ stepped r w)) as Hrun by (intros P' HP'; by apply (runStep_run l)).
    apply (triple_bind _ _ _ _ (λ r w, P w ∧ steppedIn r w)); [| |by intros e w _ [? ?]].
    + destruct (negb (String.eqb (Index st) "")); [by apply buildIndex_spec|by apply attempt_run, Hrun].
    + intros [u|e]; [apply triple_ret; intros w _ [? ?]; split; [done|]; split; [done|exists st; split; [done|by left]]|].
      apply (ctx_then (with_ P (Err e))); [by apply with_closed|]. intros c.
      destruct (_ && _); [|by apply triple_ret_bind, triple_fail].
      apply (quietly P e _ false (Ok ())); [done|apply plain_execOn; by apply with_closed|]. intros r. by apply triple_fail.
  - apply triple_fail. intros w _ [? (h & d & _ & _ & Hd)]. split; [done|]. by eapply checkHolds_skipped.
Qed.
End RunStep.

(** ** Until it ends *)

(** An entry that is left unsettled: the pass was cancelled, or was told that it
    leads no longer. *)
Definition endsWell (s : ShardMigration) (w : world) : Prop := settled s = true ∨ mayLose = true ∨ T ∈ w_cancelled w.
Lemma endsWell_grows s w w' : grows w w' → endsWell s w → endsWell s w'.
Proof. intros Hg [?|[?|?]]; [by left|by right; left|right; right; by apply (gr_cancelled _ _ Hg)]. Qed.

Section Retry.
Context {C : Type} (m0 : DDLMigration) (key : string) (run : C → DDLMigration → M (result err string * C * DDLMigration)).
Context (good : result err string → world → Prop).
Hypothesis m0_running : running m0.
Hypothesis good_grows : ∀ out w w', grows w w' → good out w → good out w'.
Hypothesis good_applied : ∀ o s s' w, good (Ok o) w → borneIn m0 key s w → State s' = o → Step s' = Step s → o = ShardApplied ∧ borneIn m0 key s' w.
Hypothesis good_skipped : ∀ e e' s s' w, good (Err e) w → skipped e = Some e' → borneIn m0 key s w → State s' = ShardSkipped → Step s' = Step s → borneIn m0 key s' w.
Hypothesis run_spec : ∀ c m, like key m0 m → triple (holds m) (run c m) (λ r w, match r with
  | Ok (out, _, m') => like key m m' ∧ holds m' w ∧ good out w
  | Err _ => True end).

Hypothesis run_obeys : ∀ c m, obeys T whatever whatever (run c m).

(** What is known of the entry, and of the entry that is returned. *)
Definition entry (s : ShardMigration) : world → Prop := while (borneIn m0 key s).
Definition returned (s : ShardMigration) : world → Prop :=
  while (λ w, borneIn m0 key s w ∧ endsWell s w ∧ (State s = ShardApplied → good (Ok ShardApplied) w)).
Definition ended (n : nat) (r : result err (ShardMigration * DDLMigration)) (w : world) : Prop :=
  match r with Ok (s', m') => like key m0 m' ∧ Step s' = n ∧ holds m' w ∧ returned s' w | Err _ => True end.

Lemma entry_unsettled s s' w : Step s' = Step s → State s' ∈ [ShardRunning; ShardRetrying; ShardFailed] → entry s w → entry s' w.
Proof. intros Hst Hs. apply while_mono. intros Hb. by eapply borne_unsettled. Qed.
Lemma entry_holds m s w : like key m0 m → holds m w → entry s w → holds (setShard m key s) w.
Proof. intros Hl Hh He. apply holds_setShard; [done|]. eapply while_mono; [|exact He]. by apply borneIn_like. Qed.
Lemma entry_closed s : closed (entry s).
Proof. apply borneIn_closed. Qed.
Lemma good_closed out : closed (good out).
Proof. apply closed_grows. intros w w'. apply good_grows. Qed.

(** Unsettled, with a reason to be. *)
Lemma returned_unsettled s s' w :
  Step s' = Step s → State s' ∈ [ShardRunning; ShardRetrying; ShardFailed] → entry s w → endsWell s' w → returned s' w.
Proof.
  intros Hst Hs He Hw. pose proof (entry_unsettled _ _ _ Hst Hs He) as He'. eapply while_mono; [|exact He']. intros Hb.
  split_and!; [done|done|]. intros E. rewrite E in Hs. set_solver.
Qed.
(** Once the term is over nothing more is known. *)
Lemma while_over (φ : world → Prop) w : T ≤ w_term w → w_term w ≠ T → while φ w.
Proof. by intros ? ?. Qed.

Lemma entry_beside {A} (P : world → Prop) s (x : M A) Q :
  obeys T whatever whatever x → triple P x Q → triple (λ w, P w ∧ entry s w) x (λ r w, Q r w ∧ entry s w).
Proof.
  intros Hx. apply (triple_beside _ _ _ whatever); [apply entry_closed| |by eapply obeys_wp].
  intros w w'. apply while_guar. intros w1 w2 Hg. by apply borne_grows.
Qed.
Lemma Save_beside m s : running m → triple (λ w, holds m w ∧ entry s w) (Save m T) (λ r w, (holds m w ∧ refusedFor T r w) ∧ entry s w).
Proof. intros Hm. apply entry_beside; [apply Save_obeys; [lia|done]|by apply Save_spec]. Qed.

Definition mid (s : ShardMigration) (r : result err (option (result err string * C * DDLMigration * ShardMigration))) (w : world) : Prop :=
  match r with
  | Ok (Some (out, _, m', s')) =>
      like key m0 m' ∧ holds m' w ∧ entry s w ∧ (good out w ∨ ∃ e, out = Err e ∧ skipped e = None) ∧ State s' = ShardRunning ∧ Step s' = Step s
  | Ok None => T ≤ w_term w ∧ w_term w ≠ T
  | Err _ => True
  end.
Lemma tryOnce_spec c m s : like key m0 m → triple (λ w, holds m w ∧ entry s w) (tryOnce T key run c m s) (mid s).
Proof.
  intros Hl. unfold tryOnce. cbv zeta. set (s1 := {| s with Attempts := _; State := _ |}). set (m1 := setShard m key s1).
  assert (like key m0 m1) as Hl1 by (by apply like_then). assert (running m1) as Hm1 by (by eapply like_running).
  apply (triple_pre _ _ _ (λ w, holds m1 w ∧ entry s w)).
  { intros w [Hh He]. split; [|done]. apply entry_holds; [done|done|]. by eapply (entry_unsettled s); [|set_solver|]. }
  eapply triple_try; [by apply Save_beside|]. intros saved. destruct (refused saved) eqn:Er.
  { apply triple_ret. intros w _ [[Hh Hr] _]. destruct saved as [u|e]; [done|]. split; [apply Hh|by apply Hr]. }
  destruct saved as [u|e].
  - apply (triple_pre _ _ _ (λ w, holds m1 w ∧ entry s w)); [by intros w [[? _] ?]|].
    eapply triple_bind; [apply entry_beside; [done|by apply run_spec]| |done]. intros [[out c'] m'].
    apply triple_ret. intros w _ [(Hl' & Hh & Hg) He]. split_and!; [by eapply like_trans|done|done|by left|done|done].
  - apply triple_ret. intros w _ [[Hh [Hs _]] He]. split_and!; [done|done|done|right; by eexists|done|done].
Qed.
(** What it takes to stop before the entry is settled. *)
Definition excused (r : result err bool) (w : world) : Prop :=
  match r with Ok false => w_term w = T → mayLose = true ∨ T ∈ w_cancelled w | _ => True end.
Lemma backOff_spec wait m s :
  running m → triple (λ w, holds m w ∧ entry s w) (backOff T wait m) (λ r w, (holds m w ∧ entry s w) ∧ excused r w).
Proof.
  intros Hm. unfold backOff. eapply triple_try; [by apply Save_beside|]. intros saved. destruct (refused saved) eqn:Er.
  { apply triple_ret. intros w _ [[Hh Hr] He]. destruct saved as [u|e]; [done|]. split; [done|]. intros Ht. by destruct (proj2 Hr Er Ht). }
  set (P := λ w, holds m w ∧ entry s w). assert (closed P) as HP by (apply closed_and; [apply holds_closed|apply entry_closed]).
  apply (triple_pre _ _ _ P); [by intros w [[? _] ?]|]. eapply triple_try; [by apply nap_spec|]. intros [u|e].
  - apply (triple_pre _ _ _ P); [by intros w [? _]|]. eapply triple_bind; [by apply lost_spec| |by intros e w _ (? & c & [=] & _)].
    intros lost. apply triple_ret. intros w _ (? & c & [= <-] & Hc). split; [done|]. destruct lost; [|done]. intros _. left. by apply Hc.
  - apply triple_ret. intros w _ [? ?]. split; [done|]. intros _. by right.
Qed.
Lemma returned_applied out s s' w :
  good (Ok out) w → entry s w → Step s' = Step s → State s' = out → returned s' w.
Proof.
  intros Hg He Hst Hs. eapply while_mono; [|exact He]. intros Hb. destruct (good_applied out s s' w Hg Hb Hs Hst) as [-> Hb'].
  split_and!; [done| |by intros _]. left. apply bool_decide_eq_true. rewrite Hs. set_solver.
Qed.
Lemma returned_skipped e e' s s' w :
  good (Err e) w → skipped e = Some e' → entry s w → Step s' = Step s → State s' = ShardSkipped → returned s' w.
Proof.
  intros Hg Hk He Hst Hs. eapply while_mono; [|exact He]. intros Hb. split_and!; [by eapply good_skipped| |by rewrite Hs].
  left. apply bool_decide_eq_true. rewrite Hs. set_solver.
Qed.
Lemma retryLoop_spec fuel start wait c m s n :
  like key m0 m → Step s = n → triple (λ w, holds m w ∧ entry s w) (retryLoop a T key run fuel start wait c m s) (ended n).
Proof.
  revert wait c m s. induction fuel as [|fuel IH]; intros wait c m s Hl Hn; cbn [retryLoop]; [by apply triple_fail|].
  eapply triple_bind; [by apply tryOnce_spec| |done]. intros [[[[out c'] m'] s']|].
  2:{ apply triple_ret. intros w _ [Hle Ht]. split_and!; [by apply like_then|done|by apply while_over|by apply while_over]. }
  apply (triple_pre _ _ _ (λ w, (like key m0 m' ∧ State s' = ShardRunning ∧ Step s' = Step s) ∧
    (holds m' w ∧ entry s w) ∧ (good out w ∨ ∃ e, out = Err e ∧ skipped e = None))); [by intros w (? & ? & ? & ? & ? & ?)|].
  apply triple_and_pure. intros (Hl' & Hs' & Hst'). destruct out as [o|e].
  { apply triple_ret. intros w _ [[Hh He] Hg]. destruct Hg as [Hg|(e & [=] & _)]. split_and!; [done|cbn; congruence|done|].
    by eapply (returned_applied o s); [| |cbn; congruence|]. }
  set (P := λ w, (holds m' w ∧ entry s w) ∧ (good (Err e) w ∨ skipped e = None)).
  assert (closed P) as HP.
  { apply closed_and; [apply closed_and; [apply holds_closed|apply entry_closed]|]. intros w w' Hev [?|?]; [left; by eapply good_closed|by right]. }
  apply (triple_pre _ _ _ P); [intros w [? [?|(e' & [= <-] & ?)]]; (split; [done|]); auto|].
  eapply triple_bind; [by apply ctx_spec| |by intros e' w _ (_ & x & [=] & _)]. intros [].
  { apply triple_ret. intros w _ ([[Hh He] _] & x & [= <-] & Hc & _). split_and!; [done|cbn; congruence|done|].
    eapply (returned_unsettled s); [done|rewrite Hs'; set_solver|done|]. right. right. by apply Hc. }
  cbv zeta. apply (triple_pre _ _ _ P); [by intros w [? _]|]. destruct (skipped e) as [e'|] eqn:Hk.
  { apply triple_ret. intros w _ [[Hh He] [Hg|?]]; [|done]. split_and!; [done|cbn; congruence|done|]. by eapply (returned_skipped e e' s); [| | |cbn; congruence|]. }
  apply (triple_pre _ _ _ (λ w, holds m' w ∧ entry s w)); [by intros w [? _]|].
  assert (∀ s'', State s'' = ShardFailed → Step s'' = Step s →
    triple (λ w, holds m' w ∧ entry s w) (mret (M := M) (s'', m')) (ended n)) as Hfail.
  { intros s'' E E'. apply triple_ret. intros w _ [Hh He]. split_and!; [done|congruence|done|].
    eapply (returned_unsettled s); [done|rewrite E; set_solver|done|]. left. by apply settled_failed. }
  case_match; [by apply Hfail|].
  apply triple_now_bind; [apply closed_and; [apply holds_closed|apply entry_closed]|]. intros t. case_match; [by apply Hfail|].
  match goal with |- context [setShard m' key ?x] => set (s2 := x) end. set (m2 := setShard m' key s2).
  assert (like key m0 m2) as Hl2 by (by apply like_then).
  apply (triple_pre _ _ _ (λ w, holds m2 w ∧ entry s2 w)).
  { intros w [Hh He]. assert (entry s2 w) by (by eapply (entry_unsettled s); [|set_solver|]). split; [by apply entry_holds|done]. }
  eapply triple_bind; [by apply backOff_spec; eapply like_running| |done]. intros [].
  - eapply triple_pre; [|apply IH]; [by intros w [? _]|done|cbn; congruence].
  - apply triple_ret. intros w _ [[Hh He] Hx]. split_and!; [done|cbn; congruence|done|].
    split; [apply He|]. intros Ht. split_and!; [by apply He|right; by apply Hx|done].
Qed.
End Retry.

Lemma retrying_spec {C} m0 key (run : C → DDLMigration → M (result err string * C * DDLMigration)) good c s :
  running m0 → (∀ out w w', grows w w' → good out w → good out w') →
  (∀ o s s' w, good (Ok o) w → borneIn m0 key s w → State s' = o → Step s' = Step s → o = ShardApplied ∧ borneIn m0 key s' w) →
  (∀ e e' s s' w, good (Err e) w → skipped e = Some e' → borneIn m0 key s w → State s' = ShardSkipped → Step s' = Step s → borneIn m0 key s' w) →
  (∀ c m, like key m0 m → triple (holds m) (run c m) (λ r w, match r with Ok (out, _, m') => like key m m' ∧ holds m' w ∧ good out w | Err _ => True end)) →
  (∀ c m, obeys T whatever whatever (run c m)) →
  triple (λ w, holds m0 w ∧ entry m0 key s w) (retrying a T key run c m0 s) (ended m0 key good (Step s)).
Proof.
  intros Hm Hg Ha Hs Hr Ho. apply triple_now_bind; [apply closed_and; [apply holds_closed|apply entry_closed]|]. intros t.
  apply retryLoop_spec; [done..|apply like_refl|done].
Qed.

(** ** A shard of a migration *)

Definition handled (m : DDLMigration) (key : string) (r : result err (ShardMigration * DDLMigration)) (w : world) : Prop :=
  match r with
  | Ok (s', m') => like key m m' ∧ holds m' w ∧ while (λ w, borneIn m key s' w ∧ (multistep m ∨ endsWell s' w)) w
  | Err _ => True
  end.
Lemma attemptStep_spec m0 m key c :
  running m0 → like key m0 m → triple (holds m) (attemptStep a T key (keyID key) c m) (λ r w, match r with
    | Ok (out, _, m') => like key m m' ∧ holds m' w ∧ outcome m0 key (ShardSet (Meta m0)) out w | Err _ => True end).
Proof.
  intros Hm Hl. eapply triple_bind; [apply step_spec; by eapply like_running| |done]. intros [out m'].
  apply triple_ret. intros w _ (? & ? & Ho). split_and!; [done|done|]. eapply outcome_like; [exact Hl|]. by rewrite (li_same _ _ _ Hl) in Ho |- *.
Qed.
Lemma applyDirect_spec m key c s :
  running m → ¬ multistep (core m) →
  triple (λ w, holds m w ∧ entry m key s w) (retrying a T key (attemptStep a T key (keyID key)) c m s) (handled m key).
Proof.
  intros Hm Hd. eapply triple_conseq; [by intros w _ Hw; exact Hw| |apply (retrying_spec m key _ (outcome m key (ShardSet (Meta m)))); [done|..]].
  - intros [[s' m']|e] w _; [|done]. intros (? & _ & ? & Hr). split_and!; [done|done|]. eapply while_mono; [|exact Hr]. by intros (? & ? & _); auto.
  - intros out w w' Hg. by apply outcome_grows.
  - intros o s0 s1 w [-> Ha] [H1 H2 H3 H4 H5] E1 E2. split; [done|]. split; rewrite ?E1; [done|done|done|done|done].
  - intros e e' s0 s1 w [?|Hp] Hk [H1 H2 H3 H4 H5] E1 E2; [congruence|]. split; rewrite ?E1; [done|done|done|done|done].
  - intros c' m' Hl. by apply attemptStep_spec.
  - intros c' m'. eapply obeys_weaken; [|by apply attemptStep_obeys with (id := ID m'); [lia|..]]. done.
Qed.

Lemma attemptRunStep_spec m0 m key i st c :
  running m0 → like key m0 m → Steps (Meta m0) !! i = Some st →
  triple (holds m) (attemptRunStep a T (keyID key) st i c m) (λ r w, match r with
    | Ok (out, _, m') => like key m m' ∧ holds m' w ∧ stepOutcome m0 key i out w | Err _ => True end).
Proof.
  intros Hm Hl Hst. eapply triple_try.
  - apply (runStep_spec m key i st); [by eapply like_running|by rewrite (li_same _ _ _ Hl)|apply holds_closed].
  - intros out. apply triple_ret. intros w _ [? Ho]. split_and!; [apply like_refl|done|]. by rewrite (li_same _ _ _ Hl) in Ho.
Qed.
Lemma applyStep_spec m key s st :
  running m → multistep (core m) → Steps (Meta m) !! Step s = Some st →
  triple (λ w, holds m w ∧ entry m key s w) (retrying a T key (attemptRunStep a T (keyID key) st (Step s)) () m s)
    (ended m key (stepOutcome m key (Step s)) (Step s)).
Proof.
  intros Hm Hd Hst. apply retrying_spec; [done|..].
  - intros [o|e] w w' Hg; cbn; [|done]. intros [-> ?]. split; [done|]. by eapply stepDone_grows.
  - intros o s0 s1 w [-> Ha] [H1 H2 H3 H4 H5] E1 E2. split; [done|]. split; rewrite ?E1, ?E2; [done|done|done|done|done].
  - intros e e' s0 s1 w He Hk. cbn in He. congruence.
  - intros c m' Hl. by apply attemptRunStep_spec.
  - intros c m'. eapply obeys_weaken; [|by apply attemptRunStep_obeys with (id := ID m')]. done.
Qed.
(** The counter moves past a step that was taken. *)
Lemma step_counted m key s w :
  multistep (core m) → State s = ShardApplied → borneIn m key s w → stepDone w (core m) (ShardSet (Meta m)) key (Step s) → borneIn m key {| s with Step := S (Step s) |} w.
Proof.
  intros Hd Hs [H1 H2 H3 H4 H5] Hi. split; cbn; [done|done| |by rewrite Hs|by rewrite Hs].
  intros i _ Hlt. destruct (decide (i = Step s)) as [->|]; [done|]. apply H3; [done|lia].
Qed.
Lemma applySteps_spec key steps m s :
  running m → multistep (core m) → steps = drop (Step s) (Steps (Meta m)) →
  triple (λ w, holds m w ∧ entry m key s w) (applySteps a T key (keyID key) steps m s) (handled m key).
Proof.
  revert m s. induction steps as [|st steps IH]; intros m s Hm Hd Hsteps; cbn [applySteps].
  { apply triple_ret. intros w _ [Hh He]. split_and!; [apply like_refl|done|]. eapply while_mono; [|exact He]. intros ?. split; [done|by left]. }
  assert (Steps (Meta m) !! Step s = Some st) as Hst.
  { rewrite <- (Nat.add_0_r (Step s)), <- lookup_drop, <- Hsteps. done. }
  assert (steps = drop (S (Step s)) (Steps (Meta m))) as Hrest.
  { rewrite <- Nat.add_1_r, <- drop_drop, <- Hsteps. done. }
  eapply triple_bind; [by apply applyStep_spec| |done]. intros [s' m']. cbv zeta.
  apply (triple_pre _ _ _ (λ w, (like key m m' ∧ Step s' = Step s) ∧ (holds m' w ∧ returned m key (stepOutcome m key (Step s)) s' w)));
    [by intros w (? & ? & ? & ?)|]. apply triple_and_pure. intros [Hl Hst'].
  destruct (negb (String.eqb (State s') ShardApplied)) eqn:Ea.
  { apply triple_ret. intros w _ [Hh Hr]. split_and!; [done|done|]. eapply while_mono; [|exact Hr]. by intros (? & ? & _); auto. }
  apply negb_false_iff, String.eqb_eq in Ea. set (s2 := {| s' with Step := _ |}). set (m2 := setShard m' key s2).
  assert (like key m m2) as Hl2 by (by apply like_then).
  apply (triple_pre _ _ _ (λ w, holds m2 w ∧ entry m key s2 w)).
  { intros w [Hh Hr]. assert (entry m key s2 w) as He.
    { eapply while_mono; [|exact Hr]. intros (Hb & _ & Ho). destruct (Ho Ea) as [_ Ho']. apply step_counted; [done|done|done|by rewrite Hst']. }
    split; [|done]. by apply (entry_holds m). }
  eapply triple_try; [apply (Save_beside m); by eapply like_running|]. intros saved. destruct (refused saved) eqn:Er.
  { apply triple_ret. intros w _ [[Hh Hr] He]. destruct saved as [u|e]; [done|]. split_and!; [done|done|]. apply while_over; [apply Hh|by apply Hr]. }
  apply (triple_conseq _ (λ w, holds m2 w ∧ entry m2 key s2 w) _ _ (handled m2 key)).
  - intros w _ [[Hh _] He]. split; [done|]. eapply while_mono; [|exact He]. intros Hb. by apply (borneIn_like m m2).
  - intros [[s3 m3]|e] w _; [|done]. intros (Hl3 & Hh & Hb). split_and!; [by eapply like_trans|done|]. eapply while_mono; [|exact Hb].
    intros [Hb3 _]. split; [by apply (borneIn_like m m2)|by left].
  - apply IH; [by eapply like_running| |].
    + destruct (like_core _ _ _ Hl2) as [-> _]. done.
    + destruct (like_core _ _ _ Hl2) as (_ & -> & _). cbn. by rewrite Hst'.
Qed.
End Pass.
