(* ===== verification/ApplierMigrate.v ===== *)
(** * Migrations, from their start to their verdict

    Triples for [drive] of [Applier]: the shards of a migration one after the
    other, its start and the verdict on it, and a pass over all that are
    pending. *)

From S2P Require Import Prelude Prog Triples ApplierWorld Applier ApplierSafety ApplierProof ApplierSpecs ApplierDrive ApplierPass.

Local Open Scope Z_scope.

Section Migrate.
Context `{PG : Postgres} (a : Applier) (mayLose : bool) (touches : loc → pgdb → pgdb → Prop) (T : Z) (HT : 0 < T).
Local Notation R := (others mayLose touches T).
Local Notation closed := (Triples.closed R).
Local Notation triple := (Triples.triple R).
Local Notation Inv := (ApplierSafety.Inv mayLose).
Local Notation holds := (ApplierDrive.holds T).
Local Notation while := (ApplierDrive.while T).
Local Notation handled := (ApplierPass.handled mayLose T).
Local Notation entry := (ApplierPass.entry T).

(** ** The shards *)

Lemma applyOn_spec m key s :
  running m → triple (λ w, holds m w ∧ entry m key s w) (applyOn a T m key (keyID key) s) (handled m key).
Proof.
  intros Hm. unfold applyOn. destruct (negb (String.eqb (Strategy m) "multistep")) eqn:E.
  - apply negb_true_iff, String.eqb_neq in E. by apply applyDirect_spec.
  - apply negb_false_iff, String.eqb_eq in E. by apply applySteps_spec.
Qed.

(** Every entry is settled but those of [keys]. *)
Definition settledBut (keys : list string) (m : DDLMigration) : Prop :=
  ∀ key s, PerShard m !! key = Some s → key ∉ keys → multistep m ∨ mayLose = true ∨ settled s = true.
Lemma pure_closed (φ : Prop) : closed (while (λ _, φ)).
Proof. by apply closed_while. Qed.
Lemma pure_beside {A} (P : world → Prop) (φ : Prop) (x : M A) Q :
  obeys T whatever whatever x → triple P x Q → triple (λ w, P w ∧ while (λ _, φ) w) x (λ r w, Q r w ∧ while (λ _, φ) w).
Proof.
  intros Hx. apply (triple_beside _ _ _ whatever); [apply pure_closed| |by eapply obeys_wp]. intros w w'. by apply while_guar.
Qed.
Lemma settledBut_skip key keys m :
  settled (shard m key) = true → settledBut (key :: keys) m → settledBut keys m.
Proof.
  intros Hs Hm key' s' Hk Hn. destruct (decide (key' = key)) as [->|]; [|by apply (Hm key'); [|set_solver]].
  unfold shard in Hs. rewrite Hk in Hs. by right; right.
Qed.
Lemma settledBut_set key keys m m' s :
  like key m m' → multistep m ∨ mayLose = true ∨ settled s = true → settledBut (key :: keys) m → settledBut keys (setShard m' key s).
Proof.
  intros [Hl He] Hs Hm key' s'. cbn. assert (multistep (setShard m' key s) ↔ multistep m) as Hmu by (by rewrite Hl). rewrite Hmu.
  destruct (decide (key = key')) as [<-|]; [rewrite lookup_insert_eq; by intros [= <-]|].
  rewrite lookup_insert_ne by done. rewrite He by done. intros Hk Hn. apply (Hm key'); [done|set_solver].
Qed.
Lemma holds_entry m key w : holds m w → entry m key (shard m key) w.
Proof. apply while_mono. apply borne_shard. Qed.

Definition driven (r : result err DDLMigration) (w : world) : Prop :=
  match r with Ok m' => running m' ∧ holds m' w ∧ while (λ _, settledBut [] m') w | Err _ => True end.
Lemma driveShards_spec keys m :
  running m → triple (λ w, holds m w ∧ while (λ _, settledBut keys m) w) (driveShards a T keys m) driven.
Proof.
  revert m. induction keys as [|key keys IH]; intros m Hm; cbn [driveShards]; [by apply triple_ret|]. cbv zeta.
  destruct (settled (shard m key)) eqn:Es.
  { eapply triple_pre; [|by apply IH]. intros w [Hh Hs]. split; [done|]. eapply while_mono; [|exact Hs]. by apply settledBut_skip. }
  case_match.
  { set (s' := {| (shard m key) with State := _; Error := _ |}). apply (triple_pre _ _ _ (λ w, holds (setShard m key s') w ∧ while (λ _, settledBut keys (setShard m key s')) w)).
    - intros w [Hh Hs]. split.
      + apply holds_setShard; [done|]. eapply while_mono; [|exact (holds_entry m key w Hh)]. intros Hb. by eapply borne_unsettled; [exact Hb| |set_solver].
      + eapply while_mono; [|exact Hs]. apply settledBut_set; [apply like_refl|]. right. right. by apply settled_failed.
    - apply IH. by eapply like_running; [apply like_setShard|]. }
  set (P := λ w, holds m w ∧ while (λ _, settledBut (key :: keys) m) w).
  assert (closed P) as HP by (apply closed_and; [apply holds_closed|apply pure_closed]).
  eapply triple_bind; [by apply lost_spec with (P := P)| |by intros e w _ (_ & c & [=] & _)]. intros [].
  { apply triple_fail. done. }
  apply (triple_pre _ _ _ (λ w, (holds m w ∧ entry m key (shard m key) w) ∧ while (λ _, settledBut (key :: keys) m) w)).
  { intros w [[Hh Hs] _]. split_and!; [done|by apply holds_entry|done]. }
  eapply triple_bind; [apply pure_beside; [eapply obeys_weaken; [|by apply applyOn_obeys with (id := ID m); [lia|..]]; done|by apply applyOn_spec]| |done].
  intros [s' m']. eapply triple_bind; [apply ctx_spec with (P := λ w, handled m key (Ok (s', m')) w ∧ while (λ _, settledBut (key :: keys) m) w)| |done].
  { apply closed_and; [|apply pure_closed]. intros w w' He (Hl & Hh & Hb). split_and!; [done|by eapply holds_closed|].
    eapply closed_while; [|exact He|exact Hb]. intros w1 w2 Hev _ _ [Hb1 Hb2]. split; [by eapply borne_grows; [apply Hev|]|].
    destruct Hb2; [by left|right]. by eapply endsWell_grows; [apply Hev|]. }
  intros []; [by apply triple_fail|]. set (m2 := setShard m' key s').
  apply (triple_pre _ _ _ (λ w, running m2 ∧ holds m2 w ∧ while (λ _, settledBut keys m2) w)).
  { intros w [[(Hl & Hh & Hb) Hs] (c & [= <-] & _ & Hc)]. assert (like key m m2) as Hl2 by (by apply like_then). split_and!; [by eapply like_running| |].
    - apply holds_setShard; [done|]. eapply while_mono; [|exact Hb]. intros [Hb1 _]. by apply (borneIn_like m m').
    - split; [apply Hh|]. intros Ht. apply (settledBut_set key keys m); [done| |by apply Hs]. destruct (proj2 Hb Ht) as [_ [?|[?|[?|Hx]]]]; [by left|by right; right|by right; left|].
      by destruct (Hc eq_refl eq_refl). }
  apply triple_and_pure. intros Hm2. eapply triple_bind; [apply pure_beside; [apply Save_obeys; [lia|done]|by apply Save_spec]| |done].
  intros u. eapply triple_pre; [|by apply IH]. by intros w [[? _] ?].
Qed.

(** ** The verdict *)

Lemma sortedShardKeys_elem per key : key ∈ sortedShardKeys per ↔ is_Some (per !! key).
Proof.
  unfold sortedShardKeys. rewrite merge_sort_Permutation, list_elem_of_fmap. split.
  - intros ([k s] & -> & Hk%elem_of_map_to_list). by exists s.
  - intros [s Hs]. exists (key, s). split; [done|]. by apply elem_of_map_to_list.
Qed.
Lemma shard_lookup m key s : PerShard m !! key = Some s → shard m key = s.
Proof. unfold shard. by intros ->. Qed.
Lemma no_failed m key s : firstFailed m = None → PerShard m !! key = Some s → State s ≠ ShardFailed.
Proof.
  unfold firstFailed. intros Hf Hk Hs. set (l := filter _ _) in Hf. assert (key ∈ l) as Hin.
  { apply list_elem_of_filter. split; [by rewrite (shard_lookup _ _ _ Hk)|]. apply sortedShardKeys_elem. by exists s. }
  destruct l as [|x l']; [set_solver|done].
Qed.
Lemma some_applied m : appliedCount m ≠ 0%nat → ∃ key s, PerShard m !! key = Some s ∧ State s = ShardApplied.
Proof.
  unfold appliedCount. set (l := filter _ _). intros Hn. destruct l as [|key l'] eqn:E; [done|].
  assert (key ∈ l) as [Hs [s Hk]%sortedShardKeys_elem]%list_elem_of_filter by (rewrite E; set_solver). exists key, s. by rewrite (shard_lookup _ _ _ Hk) in Hs.
Qed.
(** An entry that is settled and did not fail. *)
Lemma conclusive_verdict m :
  firstFailed m = None → appliedCount m ≠ 0%nat → settledBut [] m → conclusive mayLose {| m with m_State := MigrationComplete; m_Error := "" |}.
Proof.
  intros Hf Ha Hs. split; [|by apply some_applied]. cbn. intros key s Hk. destruct (Hs key s Hk) as [?|[?|Hse]]; [set_solver|by auto|by auto|].
  apply bool_decide_eq_true in Hse. pose proof (no_failed m key s Hf Hk). set_solver.
Qed.
Lemma holds_lastRow m m' w :
  holds m w → core m' = core m → ShardSet (Meta m') = ShardSet (Meta m) → ShardSet (Meta m) ≠ ""%string → ID m' = ID m →
  (∀ key s', PerShard m' !! key = Some s' → ∃ s, PerShard m !! key = Some s ∧ (s' = s ∨ Step s' = Step s ∧ State s' = ShardFailed)) →
  while (lastRow m') w.
Proof.
  intros Hh Hc Hs Hne Hid Hp. eapply while_mono; [|exact Hh]. intros [Hj _ (r & Hr & Hcr & Hu)]. exists r. rewrite Hid, Hc.
  split_and!; [done|done|done|]. intros q. apply justified_updated; [by rewrite Hc|by rewrite Hs|]. intros key s' Hk. rewrite Hc, Hs.
  destruct (Hp key s' Hk) as (s & Hk' & [->|[H1 H2]]); [by apply Hj|]. eapply borne_unsettled; [by apply Hj|done|]. rewrite H2. set_solver.
Qed.
Lemma finish_spec m : running m → triple (λ w, holds m w ∧ while (λ _, settledBut [] m) w) (finish T m) (λ _ _, True).
Proof.
  intros [Hst Hset Hstr]. unfold finish. cbv zeta. unfold verdict. destruct (firstFailed m) as [key|] eqn:Ef.
  - cbn. eapply triple_pre; [|by apply Save_failed]. intros w [Hh _]. eapply holds_lastRow; [exact Hh|done..|]. cbn. eauto.
  - destruct ((appliedCount m =? 0)%nat && _) eqn:Ea; cbn.
    + eapply triple_pre; [|by apply Save_failed]. intros w [Hh _]. eapply holds_lastRow; [exact Hh|done..|]. cbn.
      intros key s'. rewrite lookup_fmap. intros (s & Hs & ->)%fmap_Some. exists s. auto.
    + eapply triple_pre; [|by apply MirrorAndSave_spec]. intros w [Hh Hs]. split.
      * eapply while_mono; [|exact Hh]. by intros [H1 H2 H3].
      * split; [apply Hh|]. intros Ht. apply conclusive_verdict; [done| |by apply Hs]. intros E. rewrite E in Ea. cbn in Ea.
        apply Nat.ltb_ge in Ea. destruct (proj2 Hh Ht) as [_ [Hn _] _]. apply Hn, map_size_empty_iff. lia.
Qed.

(** ** The start *)

Definition untouched (m : DDLMigration) : Prop := ∀ key s, PerShard m !! key = Some s → State s = ShardPending ∧ Step s = 0%nat.
Lemma borne_pending w c set key s : State s = ShardPending → Step s = 0%nat → borne w c set key s.
Proof. intros E1 E2. split; rewrite ?E1, ?E2; [done|done|lia|done|done]. Qed.
Lemma untouched_lastRow m m' w :
  while (rowOf m) w → untouched m → core m' = core m → ID m' = ID m → PerShard m' = PerShard m → while (lastRow m') w.
Proof.
  intros Hr Hu Hc Hid Hp. eapply while_mono; [|exact Hr]. intros (r & Hr' & Hcr & Hun). exists r. rewrite Hid, Hc. split_and!; [done|done|done|].
  intros q key s. destruct (updated_parts q r m') as (_ & -> & _). rewrite Hp. intros Hk. destruct (Hu key s Hk). by apply borne_pending.
Qed.
Lemma rowOf_closed m : closed (while (rowOf m)).
Proof. apply closed_while. intros w w' He Ht Ht'. by apply (rowOf_evolves T). Qed.

Lemma planOf_untouched m ids key s : planOf a m ids !! key = Some s → s = pendingShard.
Proof.
  assert (∀ per : gmap string ShardMigration, per = list_to_map ((λ id, (shardKey id, pendingShard)) <$> ids) → per !! key = Some s → s = pendingShard) as H.
  { intros per -> Hk%elem_of_list_to_map_2. by apply list_elem_of_fmap in Hk as (id & [= -> ->] & _). }
  unfold planOf. case_match; [|by apply H]. destruct (decide (catalogKey = key)) as [<-|]; [rewrite lookup_insert_eq; congruence|].
  rewrite lookup_insert_ne by done. by apply H.
Qed.
Lemma planOf_some m ids id : id ∈ ids → is_Some (planOf a m ids !! shardKey id).
Proof.
  intros Hid. assert (is_Some ((list_to_map ((λ id, (shardKey id, pendingShard)) <$> ids) : gmap string ShardMigration) !! shardKey id)) as Hs.
  { destruct (_ !! shardKey id) eqn:E; [done|]. apply not_elem_of_list_to_map in E. destruct E. rewrite <- list_fmap_compose.
    apply list_elem_of_fmap. by exists id. }
  unfold planOf. case_match; [|done]. destruct (decide (catalogKey = shardKey id)) as [->|]; [rewrite lookup_insert_eq; eauto|by rewrite lookup_insert_ne].
Qed.
Lemma targets_spec P m set :
  closed P → triple P (targets m set) (λ r w, P w ∧ match r with
    | Ok ids => ids ≠ [] ∧ (Scope m ≠ "home"%string → w_shards w !! set = Some ids) | Err _ => True end).
Proof.
  intros HP. unfold targets. destruct (String.eqb (Scope m) "home") eqn:E.
  - apply String.eqb_eq in E. apply triple_ret. by intros w _ ?.
  - eapply triple_bind; [apply (triple_ask _ P _ (λ r w, P w ∧ match r with Ok ids => ids = default [] (w_shards w !! set) | Err _ => True end)); done| |done].
    intros [|id ids]; [by apply triple_fail; intros w _ [? _]|]. apply triple_ret. intros w _ [? Hids]. split; [done|]. split; [done|]. intros _.
    by destruct (w_shards w !! set); cbn in Hids; subst.
Qed.
Definition started (r : result err (option DDLMigration)) (w : world) : Prop :=
  match r with Ok (Some m') => running m' ∧ holds m' w | _ => True end.
Lemma plan_know m serving ids home w :
  serving ≠ ""%string → ids ≠ [] → (Scope m ≠ "home"%string → w_shards w !! serving = Some ids) → rowOf m w →
  know (withSet {| m with HomeShard := home; PerShard := planOf a {| m with HomeShard := home |} ids; m_State := MigrationRunning |} serving) w.
Proof.
  intros Hs Hids Hsh Hr. split; [| |done].
  - intros key s Hk%planOf_untouched. subst s. by apply borne_pending.
  - assert (∀ id, id ∈ ids → is_Some (planOf a {| m with HomeShard := home |} ids !! shardKey id)) as Hall by (intros; by apply planOf_some).
    split; cbn.
    + destruct ids as [|id ids]; [done|]. intros E. destruct (Hall id ltac:(set_solver)) as [x Hx]. by rewrite E, lookup_empty in Hx.
    + intros Hsc. exists ids. split; [by apply Hsh|done].
Qed.
Lemma startMigration_spec m serving :
  serving ≠ ""%string → untouched m → Strategy m ≠ "rewrite"%string →
  triple (while (rowOf m)) (startMigration a T m serving) started.
Proof.
  intros Hs Hu Hstr. unfold startMigration. pose proof (rowOf_closed m) as HP. set (P := while (rowOf m)) in *.
  assert (∀ text, triple P (_ ← Save (failedWith m text) T; mret None) started) as Hfail.
  { intros text. eapply triple_bind; [eapply triple_pre; [|by apply Save_failed]|by intros u; apply triple_ret|done].
    intros w Hr. by eapply untouched_lastRow. }
  assert (∀ X (x : M X) f, placid R x → (∀ v, triple P (f v) started) → triple P (x ≫= f) started) as Hask.
  { intros X x f Hx Hf. by apply triple_placid_bind. }
  apply Hask; [case_match; [exact I|apply placid_ask]|]. intros moved. case_match; [apply Hfail|].
  apply Hask; [case_match; [apply placid_ask|exact I]|]. intros queued.
  apply Hask. { case_match; [|exact I]. apply placid_bind; [apply placid_attempt, placid_ask|]. intros [h|e]; [exact I|]. by case_match. }
  intros [home|]; [|apply Hfail]. cbv zeta.
  eapply triple_bind; [by apply targets_spec| |done]. intros ids.
  match goal with |- context [Save ?x T] => set (m2 := x) end.
  assert (running m2) as Hm2 by done.
  apply (triple_pre _ _ _ (holds m2)).
  { intros w [Hr [Hids Hsh]]. eapply while_mono; [|exact Hr]. intros Hrow.
    exact (plan_know m serving ids home w Hs Hids Hsh Hrow). }
  eapply triple_try; [by apply Save_spec|]. intros [u|e]; [|case_match; by apply triple_fail]. apply triple_ret. by intros w _ [? _].
Qed.

(** ** A migration *)

(** The row as it was read, and what can be said of it whatever happens. *)
Definition pend (m : DDLMigration) : world → Prop := while (λ w, w_rows w !! ID m = Some m ∧ unfinished m = true).
Record sane (m : DDLMigration) : Prop := {
  sa_strategy : Strategy m ≠ "rewrite"%string;
  sa_state : m_State m = MigrationQueued ∧ PerShard m = ∅ ∨ m_State m = MigrationRunning ∧ ShardSet (Meta m) ≠ ""%string;
  sa_pending key s : PerShard m !! key = Some s → State s = ShardPending → Step s = 0%nat }.
Lemma row_sane w id m : row_ok mayLose w id m → unfinished m = true → sane m.
Proof.
  intros [H1 H2 H3 H4 H5 H6 H7 H8] Hu. split; [done| |intros key s Hk; apply (bo_pending _ _ _ _ _ (H5 key s Hk))].
  apply unfinished_spec in Hu as [E|E]; [left|right]; auto.
Qed.
Lemma pend_closed m : closed (pend m).
Proof. apply closed_while. intros w w' [_ _ He] Ht Ht' [Hr Hu]. destruct He as [He _]; [lia|done|]. split; [by apply He|done]. Qed.
Lemma pend_else m id w w' : id ≠ ID m → guar T (eq id) w w' → pend m w → pend m w'.
Proof.
  intros Hne [_ Ht Hr] [Hle Hp]. split; [lia|]. intros Ht'. destruct (Hp ltac:(lia)) as [Hm Hu]. split; [|done].
  destruct Hr as [[_ Hr]|[-> _]]; [|done]. destruct (Hr (ID m)) as [?|E]; [congruence|]. by rewrite E.
Qed.
Lemma shardSet_spec P : closed P → triple P (shardSet a) (λ r w, P w ∧ match r with Ok s => s ≠ ""%string | Err _ => True end).
Proof.
  intros HP. unfold shardSet. destruct (String.eqb (a_ShardSet a) "") eqn:E.
  - apply triple_ask; [done|]. intros w Hi Hw. split; [|done]. split; [done|apply Hi].
  - apply String.eqb_neq in E. by apply triple_ret.
Qed.
Lemma not_touched m : touched (PerShard m) = false → sane m → untouched m.
Proof.
  intros Ht Hm key s Hk. assert (State s = ShardPending) as Hs.
  { unfold touched in Ht. rewrite <- not_true_iff_false, existsb_exists in Ht. destruct (decide (State s = ShardPending)) as [|Hne]; [done|].
    destruct Ht. exists (key, s). split; [by apply list_elem_of_In, elem_of_map_to_list|]. by apply negb_true_iff, String.eqb_neq. }
  split; [done|]. by apply (sa_pending _ Hm key s).
Qed.
Lemma pend_row m w : pend m w → while (rowOf m) w.
Proof. apply while_mono. intros [Hr Hu]. by exists m. Qed.
Lemma pend_holds m w : Inv w → m_State m = MigrationRunning → pend m w → holds m w.
Proof.
  intros Hi Hs. apply while_mono. intros [Hr Hu]. destruct (iv_rows _ _ Hi _ _ Hr) as [H1 H2 H3 H4 H5 H6 H7 H8].
  split; [done|by apply H6; left|by exists m].
Qed.
Context (driveRewrite : DDLMigration → M ()).
Lemma drive_running m :
  running m → triple (holds m) (m' ← driveShards a T (sortedShardKeys (PerShard m)) m; finish T m') (λ _ _, True).
Proof.
  intros Hm. eapply triple_bind; [|intros m'|done].
  - eapply triple_pre; [|by apply driveShards_spec]. intros w Hh. split; [done|]. eapply while_mono; [|exact Hh]. intros _ key s Hk Hn.
    destruct Hn. apply sortedShardKeys_elem. by exists s.
  - apply (triple_pre _ _ _ (λ w, running m' ∧ holds m' w ∧ while (λ _, settledBut [] m') w)); [done|]. apply triple_and_pure. intros Hm'. by apply finish_spec.
Qed.
Lemma drive_started m :
  running m → triple (holds m) (if String.eqb (Strategy m) "rewrite" then driveRewrite m else
    m' ← driveShards a T (sortedShardKeys (PerShard m)) m; finish T m') (λ _ _, True).
Proof. intros Hm. rewrite (proj2 (String.eqb_neq _ _) (ru_strategy _ Hm)). by apply drive_running. Qed.
Lemma drive_spec m : sane m → triple (pend m) (drive a T driveRewrite m) (λ _ _, True).
Proof.
  intros Hm. pose proof (sa_strategy _ Hm) as Hstr. unfold drive. eapply triple_bind; [apply shardSet_spec, pend_closed| |done]. intros serving. cbv zeta.
  apply (triple_pre _ _ _ (λ w, serving ≠ ""%string ∧ pend m w)); [by intros w [? ?]|]. apply triple_and_pure. intros Hserv.
  set (moved := String.eqb (m_State m) MigrationRunning && _ && _). destruct (moved && touched (PerShard m)) eqn:Emt.
  { apply andb_true_iff in Emt as [[[Hst%String.eqb_eq Hset%negb_true_iff%String.eqb_neq]%andb_true_iff _]%andb_true_iff _].
    eapply triple_conseq; [|by intros r w _ H; exact H|by apply Save_failed with (m := straddled m serving)].
    intros w Hi Hp. eapply holds_lastRow; [by apply pend_holds|done..|]. cbn. eauto. }
  set (m1 := if moved then _ else m).
  apply (triple_bind _ _ _ _ started); [| |done].
  - destruct (String.eqb (m_State m1) MigrationQueued) eqn:Eq.
    + assert (untouched m1 ∧ Strategy m1 ≠ "rewrite"%string ∧ core m1 = core m ∧ ID m1 = ID m) as (Hu & Hs1 & Hc & Hid).
      { unfold m1 in *. destruct moved.
        - split_and!; [|done|done|done]. by apply (not_touched m).
        - split_and!; [|done|done|done]. apply String.eqb_eq in Eq. destruct (sa_state _ Hm) as [[_ E]|[E _]]; [|by rewrite E in Eq].
          intros key s. by rewrite E. }
      eapply triple_pre; [|by apply startMigration_spec]. intros w Hp. eapply while_mono; [|exact (pend_row m w Hp)].
      intros (r & Hr & Hcr & Hur). exists r. by rewrite Hid, Hc.
    + assert (m1 = m ∧ running m) as [-> Hrun].
      { unfold m1 in *. destruct moved; [done|]. split; [done|]. apply String.eqb_neq in Eq. destruct (sa_state _ Hm) as [[? _]|[? ?]]; [done|by split]. }
      apply (triple_conseq _ (holds m) _ _ (λ r w, r = Ok (Some m) ∧ holds m w)); [|by intros r w _ [-> ?]|by apply triple_ret].
      intros w Hi. apply pend_holds; [done|apply Hrun].
  - intros [m'|]; [|by apply triple_ret]. apply (triple_pre _ _ _ (λ w, running m' ∧ holds m' w)); [done|]. apply triple_and_pure. by apply drive_started.
Qed.

(** ** A pass *)

Hypothesis rewrite_obeys : rewrite_keeps T driveRewrite.
Lemma driveAll_spec locked pending done_ :
  NoDup (ID <$> pending) → Forall sane pending →
  triple (λ w, ∀ m, m ∈ pending → pend m w) (driveAll a T driveRewrite locked pending done_) (λ _ _, True).
Proof.
  revert done_. induction pending as [|m pending IH]; intros done_ Hnd Hsane; cbn [driveAll]; [by apply triple_ret|].
  apply NoDup_cons in Hnd as [Hm Hnd]. apply Forall_cons in Hsane as [Hsm Hsane].
  assert (∀ n, triple (λ w, ∀ m', m' ∈ m :: pending → pend m' w) (driveAll a T driveRewrite locked pending n) (λ _ _, True)) as Hskip.
  { intros n. eapply triple_pre; [|by apply IH]. intros w Hp m' Hin. apply Hp. by right. }
  case_match; [apply Hskip|]. apply (triple_pre _ _ _ (λ w, pend m w ∧ ∀ m', m' ∈ pending → pend m' w)).
  { intros w Hp. split; [apply Hp; by left|]. intros m' Hin. apply Hp. by right. }
  eapply triple_try.
  - apply (triple_beside _ _ _ (eq (ID m))); [| |eapply obeys_wp|by apply drive_spec].
    + apply closed_forall. intros m'. intros w w' He Hp Hin. by eapply pend_closed; [|apply Hp].
    + intros w w' Hg Hp m' Hin. eapply pend_else; [|exact Hg|by apply Hp]. intros E. apply Hm. rewrite E. by apply list_elem_of_fmap_2.
    + apply drive_obeys with (id := ID m); [lia|done| |done]. intros m' <-. apply rewrite_obeys.
  - intros r. apply (triple_pre _ _ _ (λ w, ∀ m', m' ∈ pending → pend m' w)); [by intros w [_ ?]|].
    destruct r as [u|e]; [by apply IH|]. case_match; [by apply IH|]. case_match; [by apply triple_ret|by apply triple_fail].
Qed.
Lemma Pending_spec :
  triple (λ w, T ≤ w_term w) Pending (λ r w, match r with
    | Ok pending => NoDup (ID <$> pending) ∧ Forall sane pending ∧ ∀ m, m ∈ pending → pend m w | Err _ => True end).
Proof.
  apply triple_ask; [intros w w' [_ ? _]; lia|]. intros w Hi Hle. split; [|done].
  set (l := filter _ _). assert (∀ m, m ∈ l → w_rows w !! ID m = Some m ∧ unfinished m = true) as Hl.
  { intros m [Hu Hin]%list_elem_of_filter. apply list_elem_of_fmap in Hin as ([id r] & -> & Hr%elem_of_map_to_list). cbn in *.
    by rewrite (ro_id _ _ _ _ (iv_rows _ _ Hi _ _ Hr)). }
  rewrite merge_sort_Permutation. split_and!.
  - apply NoDup_fmap_2_strong; [|apply NoDup_filter, NoDup_fmap_2_strong; [|apply NoDup_map_to_list]].
    + intros m m' [Hm _]%Hl [Hm' _]%Hl E. congruence.
    + intros [id r] [id' r'] Hr%elem_of_map_to_list Hr'%elem_of_map_to_list. cbn. intros <-.
      by rewrite <- (ro_id _ _ _ _ (iv_rows _ _ Hi _ _ Hr)), <- (ro_id _ _ _ _ (iv_rows _ _ Hi _ _ Hr')).
  - apply Forall_forall. intros m [Hr Hu]%Hl. by eapply row_sane; [apply (iv_rows _ _ Hi)|].
  - intros m. rewrite merge_sort_Permutation. intros Hin. apply Hl in Hin. by split.
Qed.
Lemma applier_pass_spec : triple (λ w, T ≤ w_term w) (pass a T driveRewrite) (λ _ _, True).
Proof.
  apply (triple_pbind _ _ _ _ (λ _ _, True)); [|intros r; by intros w ? _]. unfold RunOnce. eapply triple_bind; [apply Pending_spec| |done]. intros pending.
  apply (triple_pre _ _ _ (λ w, (NoDup (ID <$> pending) ∧ Forall sane pending) ∧ ∀ m, m ∈ pending → pend m w)); [by intros w (? & ? & ?)|].
  apply triple_and_pure. intros [Hnd Hs].
  assert (closed (λ w, ∀ m, m ∈ pending → pend m w)) as HP.
  { apply closed_forall. intros m w w' He Hp Hin. by eapply pend_closed; [|apply Hp]. }
  apply triple_placid_bind; [done|apply placid_ask| |done]. intros queued.
  apply triple_placid_bind; [done|case_match; [exact I|apply placid_ask]| |done]. intros locked. by apply driveAll_spec.
Qed.
End Migrate.
