(* ===== verification/ApplierMain.v ===== *)
(** * Migrations under any number of controllers

    Controllers run passes of [Applier] side by side, each under the term it
    latched, and die at any point; whatever they and the rest of the world do,
    what the rows of [pgshard.migrations] say has happened. *)

From S2P Require Import Prelude ScatterAgg Prog Triples ApplierWorld Applier ApplierSafety ApplierProof ApplierSpecs ApplierDrive ApplierPass ApplierMigrate.

Local Open Scope Z_scope.

Section Controllers.
Context `{PG : Postgres} (a : Applier) (driveRewrite : Z → DDLMigration → M ()).
(** As in [env]; and the terms a pass may latch. *)
Context (mayLose : bool) (touches : loc → pgdb → pgdb → Prop) (latched : Z → Prop).

(** The passes in flight, by their terms. *)
Local Notation state := (world * (Z → option (prog ())))%type.
Definition put (T : Z) (p : option (prog ())) (ps : Z → option (prog ())) : Z → option (prog ()) := λ T', if T' =? T then p else ps T'.
Definition idle : Z → option (prog ()) := λ _, None.
Inductive apply_step : state → state → Prop :=
| as_env w w' ps : env mayLose touches w w' → apply_step (w, ps) (w', ps)
| as_start w ps T : latched T → T ≤ w_term w → ps T = None → apply_step (w, ps) (w, put T (Some (pass a T (driveRewrite T))) ps)
| as_prog w w' ps T p p' : ps T = Some p → prog_step p w p' w' → apply_step (w, ps) (w', put T (Some p') ps)
| as_end w ps T : apply_step (w, ps) (w, put T None ps).

Record fresh (w : world) : Prop := {
  fr_rows : w_rows w = ∅; fr_mirror : w_mirror w = []; fr_serving : w_serving w ≠ ""%string;
  fr_refuse : refusals (w_refuse w); fr_lost : w_lost w = ∅ }.
Definition reachable (w0 : world) (st : state) : Prop := fresh w0 ∧ rtc apply_step (w0, idle) st.

Local Notation Inv := (ApplierSafety.Inv mayLose).
Lemma applier_fresh_inv w : fresh w → Inv w.
Proof. intros [H1 H2 H3 H4 H5]. split; rewrite ?H1, ?H2; [done|set_solver|apply NoDup_nil; done|done|done|done]. Qed.

Hypothesis rewrite_obeys : ∀ T, rewrite_keeps T (driveRewrite T).
Hypothesis latched_pos : ∀ T, latched T → 0 < T.

Local Notation fenced T p := (∀ w, Prog.wp (λ _ _, True) (λ _, True) (guar T whatever) p w (λ _ _, True)).
Local Notation safe_ T p w := (Prog.wp (env_of mayLose touches T) Inv (λ _ _, True) p w (λ _ _, True)).
Definition sound (st : state) : Prop := Inv st.1 ∧ ∀ T p, st.2 T = Some p → 0 < T ∧ fenced T p ∧ safe_ T p st.1.

Lemma tick_guar T d w : guar T whatever w (tick d w).2.
Proof. split; [split; cbn; [done|intros l h Hl; by exists []|done|done]|done|by right]. Qed.
Lemma fenced_step T (p p' : prog ()) w w' : fenced T p → prog_step p w p' w' → guar T whatever w w' ∧ fenced T p'.
Proof.
  intros Hp. destruct p as [u|X f k|d k]; cbn; [done| |].
  - intros [[-> ->]|(e & He & -> & Hw)]; (split; [|intros w1; destruct (Hp w1 w (rtc_once _ _ I) I) as (_ & Hk & Hf)]).
    + by destruct (Hp w w (rtc_refl _ _) I) as ([_ ?] & _).
    + eapply (wp_env _ _ _ _ _ w1); [done|exact Hk].
    + destruct Hw as [->| ->]; [apply guar_refl|]. by destruct (Hp w w (rtc_refl _ _) I) as ([_ ?] & _).
    + destruct (Hf e He) as [Hk' _]. by eapply (wp_env _ _ _ _ w w1).
  - intros [-> ->]. split; [apply tick_guar|]. intros w1. eapply (wp_env _ _ _ _ (tick d w).2 w1); [done|]. by apply (Hp w w).
Qed.
Lemma safe_step T (p p' : prog ()) w w' : Inv w → safe_ T p w → prog_step p w p' w' → Inv w' ∧ safe_ T p' w'.
Proof.
  intros Hi Hp Hst.
  assert (∀ w1 w2, env_of mayLose touches T w1 w2 → Inv w1 → Inv w2) as Hk by (intros w1 w2 He Hw; by destruct (env_of_keeps _ _ _ _ _ He Hw)).
  destruct (wp_step (env_of mayLose touches T) Inv (λ _ _, True) Hk (λ _ _ _ _, I) (λ _ _, I) (λ d w, or_introl (applier_tick_env _ _ d w)) p p' w w' Hi Hp Hst) as (? & _ & ?). done.
Qed.
Lemma started_sound T w : latched T → T ≤ w_term w → Inv w → 0 < T ∧ fenced T (pass a T (driveRewrite T)) ∧ safe_ T (pass a T (driveRewrite T)) w.
Proof.
  intros Hl Hle Hi. pose proof (latched_pos T Hl) as HT. split; [exact HT|]. split.
  - intros w'. apply pass_obeys; [lia|apply rewrite_obeys].
  - eapply wp_mono; [|exact (applier_pass_spec a mayLose touches T HT (driveRewrite T) (rewrite_obeys T) w Hi Hle)]. by intros u w' _.
Qed.
Lemma sound_step st st' : apply_step st st' → sound st → sound st'.
Proof.
  intros [w w' ps He|w ps T Hl Hle Hn|w w' ps T p p' Hps Hs|w ps T] [Hi Hp].
  - split; [exact (applier_env_inv _ _ _ _ He Hi)|]. intros T p Ht. destruct (Hp T p Ht) as (H1 & H2 & H3). split; [exact H1|]. split; [exact H2|].
    eapply wp_env; [left; exact He|exact H3].
  - split; [exact Hi|]. intros T' p Ht. change (put T (Some (pass a T (driveRewrite T))) ps T' = Some p) in Ht. unfold put in Ht.
    destruct (Z.eqb_spec T' T) as [->|]; [|exact (Hp T' p Ht)]. injection Ht as <-. by apply started_sound.
  - destruct (Hp T p Hps) as (HT & Hf & Hsafe). destruct (fenced_step _ _ _ _ _ Hf Hs) as [Hg Hf']. destruct (safe_step _ _ _ _ _ Hi Hsafe Hs) as [Hi' Hsafe'].
    split; [exact Hi'|]. intros T' q Ht. change (put T (Some p') ps T' = Some q) in Ht. unfold put in Ht.
    destruct (Z.eqb_spec T' T) as [->|Hne]; [injection Ht as <-; auto|]. destruct (Hp T' q Ht) as (H1 & H2 & H3). split; [exact H1|]. split; [exact H2|].
    eapply wp_env; [|exact H3]. right. exists T, whatever. auto.
  - split; [exact Hi|]. intros T' p Ht. change (put T None ps T' = Some p) in Ht. unfold put in Ht.
    destruct (Z.eqb_spec T' T) as [->|]; [discriminate|exact (Hp T' p Ht)].
Qed.
Lemma reachable_sound w0 st : reachable w0 st → sound st.
Proof.
  intros [Hf Hr]. assert (sound (w0, idle)) as H0 by (split; cbn; [by apply applier_fresh_inv|done]).
  induction Hr as [|s1 s2 s3 Hst _ IH]; [done|]. apply IH. by eapply sound_step.
Qed.
End Controllers.

(** ** What the rows say *)

Section Rows.
Context `{PG : Postgres} (a : Applier) (driveRewrite : Z → DDLMigration → M ()).
Context (mayLose : bool) (touches : loc → pgdb → pgdb → Prop).
Hypothesis rewrite_obeys : ∀ T, rewrite_keeps T (driveRewrite T).

Lemma reach_inv w0 st : reachable a driveRewrite mayLose touches (λ T, 0 < T) w0 st → Inv mayLose st.1.
Proof. intros Hr. by apply (reachable_sound a driveRewrite mayLose touches _ rewrite_obeys (λ _ H, H) w0 st). Qed.

(** C10. However controllers overlap, fail and die, as long as each pass latched a
    positive leader term (see [zero_term_is_unfenced]) and no migration is a
    rewrite: the desired state of a migration is written to the catalog exactly
    when its row says complete, and never twice; the role deltas among it are not
    idempotent. *)
Theorem mirrored_once w0 st :
  reachable a driveRewrite mayLose touches (λ T, 0 < T) w0 st → NoDup (w_mirror st.1) ∧
    ∀ id, id ∈ w_mirror st.1 ↔ ∃ r, w_rows st.1 !! id = Some r ∧ m_State r = MigrationComplete.
Proof.
  intros Hr%reach_inv. split; [apply Hr|]. intros id. split.
  - intros Hid. destruct (iv_mirror _ _ Hr id Hid) as [r Hk]. exists r. split; [done|]. by apply (ro_mirror _ _ _ _ (iv_rows _ _ Hr _ _ Hk)).
  - intros (r & Hk & Hs). by apply (ro_mirror _ _ _ _ (iv_rows _ _ Hr _ _ Hk)).
Qed.

(** C9. Once the leader term has passed on, no statement of a pass begun under
    an earlier one, in flight or replied to, changes a migration's row or the
    desired state. *)
Theorem stale_pass_writes_nothing w0 w ps T p p' w' :
  reachable a driveRewrite mayLose touches (λ T, 0 < T) w0 (w, ps) → ps T = Some p → prog_step p w p' w' → w_term w ≠ T → w_rows w' = w_rows w ∧ w_mirror w' = w_mirror w.
Proof.
  intros Hr Hp Hst Hne. destruct (reachable_sound a driveRewrite mayLose touches _ rewrite_obeys (λ _ H, H) w0 _ Hr) as [_ Hs].
  destruct (Hs T p Hp) as (_ & Hf & _). destruct (fenced_step _ _ _ _ _ Hf Hst) as [[_ _ [[? _]|Hk]] _]; [done|exact Hk].
Qed.

(** C31. A step that the entry of a shard counts was committed on that shard, or
    its check was seen to hold there, whoever counted it. *)
Theorem counted_steps_are_taken w0 st id r key s i :
  reachable a driveRewrite mayLose touches (λ T, 0 < T) w0 st → w_rows st.1 !! id = Some r → Strategy r = "multistep"%string → PerShard r !! key = Some s → (i < Step s)%nat → stepDone st.1 r (ShardSet (Meta r)) key i.
Proof.
  intros Hr%reach_inv Hk Hm Hs Hi. by apply (bo_steps _ _ _ _ _ (ro_justified _ _ _ _ (iv_rows _ _ Hr _ _ Hk) key s Hs)).
Qed.
End Rows.

