(* ===== verification/ApplierRun.v ===== *)
(** * Runs of the migration applier

    A PostgreSQL of a few statements, two shards and a scheduler for the
    controllers of [ApplierMain]: the theorems there at work, and four ways in
    which a migration ends with a verdict that is not what happened. *)

From S2P Require Import Prelude Prog Triples ApplierWorld Applier ApplierLive ApplierSafety ApplierProof ApplierMain.

Local Open Scope Z_scope.

(** ** Schedules *)

Inductive act :=
| AEnqueue (m : DDLMigration) | ATerm | ALost (s : gset Z)
| AStart (T : Z) | AOk (T : Z) (n : nat) | ALose (T : Z) | ALoseAfter (T : Z) | AEnd (T : Z).

Section Schedule.
Context `{PG : Postgres} (a : Applier) (driveRewrite : Z → DDLMigration → M ()).
Context (mayLose : bool) (touches : loc → pgdb → pgdb → Prop) (latched : Z → Prop) (latches : Z → bool).
Hypothesis latches_sound : ∀ T, latches T = true → latched T.
Local Notation state := (world * (Z → option (prog ())))%type.
Local Notation apply_step := (apply_step a driveRewrite mayLose touches latched).

(** The next [n] statements of a pass are answered. *)
Fixpoint answers (T : Z) (n : nat) (w : world) (ps : Z → option (prog ())) : state :=
  match n with
  | O => (w, ps)
  | S n =>
      match ps T with
      | Some (Stmt f k) => answers T n (f w).2 (put T (Some (k (f w).1)) ps)
      | Some (Clock d k) => answers T n (tick d w).2 (put T (Some (k (tick d w).1)) ps)
      | _ => (w, ps)
      end
  end.
Definition act_step (x : act) (st : state) : option state :=
  let '(w, ps) := st in
  match x with
  | AEnqueue m =>
      if bool_decide (w_rows w !! ID m = None) && String.eqb (m_State m) MigrationQueued && bool_decide (PerShard m = ∅) && negb (String.eqb (Strategy m) "rewrite")
      then Some ({| w with w_rows := <[ID m := m]> (w_rows w) |}, ps) else None
  | ATerm => Some ({| w with w_term := w_term w + 1 |}, ps)
  | ALost s => if mayLose then Some ({| w with w_lost := s |}, ps) else None
  | AStart T => match ps T with None => if latches T && (T <=? w_term w) then Some (w, put T (Some (pass a T (driveRewrite T))) ps) else None | Some _ => None end
  | AOk T n => Some (answers T n w ps)
  | ALose T => match ps T with Some (Stmt f k) => Some (w, put T (Some (k (Err EConn))) ps) | _ => None end
  | ALoseAfter T => match ps T with Some (Stmt f k) => Some ((f w).2, put T (Some (k (Err EConn))) ps) | _ => None end
  | AEnd T => Some (w, put T None ps)
  end.
Definition acts (l : list act) (st : state) : state := fold_left (λ st x, default st (act_step x st)) l st.

Lemma one_step st st' : apply_step st st' → rtc apply_step st st'.
Proof. intros H. eapply rtc_l; [exact H|apply rtc_refl]. Qed.
Lemma then_steps st st' st'' : rtc apply_step st st' → rtc apply_step st' st'' → rtc apply_step st st''.
Proof. intros H1 H2. induction H1 as [|s1 s2 s3 Hs _ IH]; [exact H2|]. eapply rtc_l; [exact Hs|by apply IH]. Qed.
Lemma answers_sound T n w ps : rtc apply_step (w, ps) (answers T n w ps).
Proof.
  revert w ps. induction n as [|n IH]; intros w ps; cbn [answers]; [apply rtc_refl|].
  destruct (ps T) as [[u|X f k|d k]|] eqn:E; [apply rtc_refl| | |apply rtc_refl]; (eapply rtc_l; [|apply IH]); eapply as_prog; [exact E|by left|exact E|done].
Qed.
Lemma applier_act_sound x st st' : act_step x st = Some st' → rtc apply_step st st'.
Proof.
  destruct st as [w ps]. destruct x as [m| |s|T|T n|T|T|T]; cbn [act_step].
  - destruct (_ && _) eqn:E; [|done]. intros [= <-]. rewrite !andb_true_iff, negb_true_iff in E. destruct E as [[[H1 H2] H3] H4].
    apply one_step, as_env, env_enqueue; [by apply bool_decide_eq_true in H1|by apply String.eqb_eq|by apply bool_decide_eq_true in H3|by apply String.eqb_neq].
  - intros [= <-]. apply one_step, as_env, env_term.
  - intros Ht. assert (mayLose = true ∧ st' = ({| w with w_lost := s |}, ps)) as [Hm ->] by (by destruct mayLose; simplify_eq).
    apply one_step, as_env. by apply env_lost.
  - destruct (ps T) eqn:E; [done|]. destruct (latches T && _) eqn:El; [|done]. intros [= <-]. apply andb_true_iff in El as [H1 H2%Z.leb_le].
    apply one_step, as_start; [by apply latches_sound|done|done].
  - intros [= <-]. apply answers_sound.
  - destruct (ps T) as [[u|X f k|d k]|] eqn:E; try done. intros [= <-]. apply one_step. eapply as_prog; [exact E|]. right. exists EConn. split_and!; [done|done|by auto].
  - destruct (ps T) as [[u|X f k|d k]|] eqn:E; try done. intros [= <-]. apply one_step. eapply as_prog; [exact E|]. right. exists EConn. split_and!; [done|done|by auto].
  - intros [= <-]. apply one_step, as_end.
Qed.
Lemma applier_acts_sound l st : rtc apply_step st (acts l st).
Proof.
  revert st. induction l as [|x l IH]; intros st; [apply rtc_refl|]. cbn [acts fold_left]. eapply then_steps; [|apply IH].
  destruct (act_step x st) as [st'|] eqn:E; [by eapply applier_act_sound|apply rtc_refl].
Qed.
End Schedule.

(** ** A small PostgreSQL *)

Module Example.
Definition t : rel := ("public", "t")%string.
Definition has_constraint (d : pgdb) : bool := existsb (λ k, String.eqb (conname k) "positive") (pg_constraint d).
(** Four statements, each refused when it was run before. *)
Definition run (text : string) (d : pgdb) : result (string * string) pgdb :=
  (if String.eqb text "CREATE TABLE t (id int)" then
     if decide (t ∈ pg_class d) then Err ("42P07", "relation already exists") else Ok {| d with pg_class := {[t]} ∪ pg_class d |}
   else if String.eqb text "ALTER TABLE t ADD COLUMN n int" then
     if decide ((t, "n") ∈ pg_attribute d) then Err ("42701", "column already exists") else Ok {| d with pg_attribute := {[(t, "n")]} ∪ pg_attribute d |}
   else if String.eqb text "ALTER TABLE t ADD CONSTRAINT positive CHECK (id > 0) NOT VALID" then
     if has_constraint d then Err ("42710", "constraint already exists")
     else Ok {| d with pg_constraint := mkConstraint t "positive" "c" false [] :: pg_constraint d |}
   else if String.eqb text "ALTER TABLE t VALIDATE CONSTRAINT positive" then
     if has_constraint d then Ok {| d with pg_constraint := (λ k, {| k with convalidated := true |}) <$> pg_constraint d |}
     else Err ("42704", "constraint does not exist")
   else Err ("42601", "syntax error"))%string.
#[export] Instance small : Postgres := {|
  sql _ := run; wreck _ _ d := d; current_schemas _ _ := ["public"%string]; to_regprocedure _ _ _ := None;
  server_version_num _ := 180000; SafeToRetry _ := false |}.

Definition noRewrite (T : Z) (m : DDLMigration) : M () := fail (EText "rewrite").
Lemma noRewrite_keeps T : rewrite_keeps T (noRewrite T).
Proof. intros m w. done. Qed.
Definition applier : Applier := mkApplier false "" DefaultBackoff.
Definition still (l : loc) (d d' : pgdb) : Prop := False.

Definition empty : pgdb := mkDb ∅ ∅ [] [] ∅ ∅ {["public"%string]} ∅ ∅ ∅.
Definition withTable : pgdb := {| empty with pg_class := {[t]} |}.
Definition two (d : pgdb) : world :=
  mkWorld 1 ∅ false "blue" {["blue"%string := [0; 1]]} {["app"%string := mkDatabase 0 "sharded"]} ∅ ∅ None ∅ []
    (list_to_map [(Some ("blue"%string, 0, "app"%string), [d]); (Some ("blue"%string, 1, "app"%string), [d])]) ∅ [] ∅ ∅ 0.

Definition noObject : MigrationObject := mkObject "" "" "" "" "".
Definition metaOf (o : MigrationObject) (steps : list MigrationStep) : MigrationMeta := mkMeta o "" "" "" "" steps false "" [].
Definition queued (text kind strategy : string) (o : MigrationObject) (steps : list MigrationStep) : DDLMigration :=
  mkMigration "m1" "app" text kind strategy "all" 0 MigrationQueued (metaOf o steps) ∅ "" 0.
Definition createT : DDLMigration := queued "CREATE TABLE t (id int)" "CREATE TABLE" "direct" (mkObject "relation" "public" "t" "" "present") [].
Definition addColumn : DDLMigration := queued "ALTER TABLE t ADD COLUMN n int" "ALTER TABLE" "direct" noObject [].
Definition check (kind : string) : MigrationCheck := mkCheck kind "public" "t" "positive" "".
Definition addCheck : DDLMigration := queued "ALTER TABLE t ADD CONSTRAINT positive CHECK (id > 0)" "ALTER TABLE" "multistep" noObject
  [mkStep "ALTER TABLE t ADD CONSTRAINT positive CHECK (id > 0) NOT VALID" false (check "constraint") "" "";
   mkStep "ALTER TABLE t VALIDATE CONSTRAINT positive" false (check "constraint_valid") "" ""].

Definition positive (T : Z) : bool := 0 <? T.
Definition anyTerm (T : Z) : bool := true.
Definition runOf (mayLose : bool) (latches : Z → bool) (w : world) (l : list act) := acts applier noRewrite mayLose latches l (w, idle).
(** The entries of the migration: state, step and whether an attempt may have run. *)
Definition entries (w : world) : list (string * string * nat * bool) :=
  match w_rows w !! "m1"%string with
  | Some r => (λ key, let s := shard r key in (key, State s, Step s, Ran s)) <$> sortedShardKeys (PerShard r)
  | None => []
  end.
Definition verdictOf (w : world) : option (string * string) := (λ r, (m_State r, m_Error r)) <$> w_rows w !! "m1"%string.

Lemma two_fresh d : fresh (two d).
Proof. split; [done|done|done|by intros code msg Hr|done]. Qed.
Lemma run_reaches mayLose latches (latched : Z → Prop) d l :
  (∀ T, latches T = true → latched T) → reachable applier noRewrite mayLose still latched (two d) (runOf mayLose latches (two d) l).
Proof. intros Hl. split; [apply two_fresh|]. by apply applier_acts_sound. Qed.
Lemma positive_spec T : positive T = true → 0 < T.
Proof. apply Z.ltb_lt. Qed.
Definition rowOf (w : world) : DDLMigration := default createT (w_rows w !! "m1"%string).
Definition entryOf (w : world) (key : string) : ShardMigration := shard (rowOf w) key.

(** Two shards create a table. *)
Definition created := runOf false positive (two empty) [AEnqueue createT; AStart 1; AOk 1 200].
Lemma mirrored_once_witness : w_mirror created.1 = ["m1"%string] ∧ NoDup (w_mirror created.1) ∧ ∀ id, id ∈ w_mirror created.1 ↔ ∃ r, w_rows created.1 !! id = Some r ∧ m_State r = MigrationComplete.
Proof. split; [by vm_compute|]. apply (mirrored_once applier noRewrite false still noRewrite_keeps (two empty)), (run_reaches _ _ _ _ _ positive_spec). Defined.

(** The pass had the table created on shard 0 when another controller took over. *)
Definition stale := runOf false positive (two empty) [AEnqueue createT; AStart 1; AOk 1 18; ATerm].
Definition waiting (T : Z) (ps : Z → option (prog ())) : bool := match ps T with Some (Stmt _ _) => true | _ => false end.
Lemma waiting_steps T w ps : waiting T ps = true → ∃ p p', ps T = Some p ∧ prog_step p w p' (answers T 1 w ps).1.
Proof.
  unfold waiting. cbn [answers]. destruct (ps T) as [[u|X f k|d k]|]; try done. intros _. exists (Stmt f k), (k (f w).1). split; [done|]. by left.
Qed.
Lemma stale_pass_writes_nothing_witness :
  waiting 1 stale.2 = true ∧ w_term stale.1 = 2 ∧ w_rows (answers 1 1 stale.1 stale.2).1 = w_rows stale.1.
Proof.
  assert (waiting 1 stale.2 = true) as Hw by (by vm_compute). split; [exact Hw|]. assert (w_term stale.1 = 2) as Ht by (by vm_compute). split; [exact Ht|].
  destruct (waiting_steps 1 stale.1 stale.2 Hw) as (p & p' & Hp & Hs).
  refine (proj1 (stale_pass_writes_nothing applier noRewrite false still noRewrite_keeps (two empty) stale.1 stale.2 1 p p' _ _ Hp Hs _)).
  - rewrite <- surjective_pairing. apply (run_reaches _ _ _ _ _ positive_spec).
  - rewrite Ht. done.
Defined.

(** A constraint is added and then validated. *)
Definition validated := runOf false positive (two withTable) [AEnqueue addCheck; AStart 1; AOk 1 400].
Lemma counted_steps_are_taken_witness :
  m_State (rowOf validated.1) = MigrationComplete ∧ Step (entryOf validated.1 "1") = 2%nat ∧ stepDone validated.1 (rowOf validated.1) "blue" "1" 1.
Proof.
  split; [by vm_compute|]. split; [by vm_compute|]. assert (ShardSet (Meta (rowOf validated.1)) = "blue"%string) as E by (by vm_compute). rewrite <- E.
  apply (counted_steps_are_taken applier noRewrite false still noRewrite_keeps (two withTable) validated "m1" (rowOf validated.1) "1" (entryOf validated.1 "1") 1);
    [apply (run_reaches _ _ _ _ _ positive_spec)|by vm_compute..|]. vm_compute. lia.
Defined.

Lemma applier_ends_in_rounds_witness : retsFrom 0 (RunOnce applier 1 (noRewrite 1)) (inRounds applierExhausted).
Proof. apply (applier_ends_in_rounds applier 1 (noRewrite 1)). done. Defined.

(** ** Verdicts that are not what happened *)

#[local] Instance session_eq : EqDecision session.
Proof. solve_decision. Defined.
#[local] Instance committed_dec w r i l se text : Decision (committed w r i l se text).
Proof. unfold committed. apply _. Defined.
(** The step is not done: neither committed nor found done. *)
Definition stepMissing (w : world) (key : string) (i : nat) : bool :=
  let r := rowOf w in
  let l := Some (ShardSet (Meta r), keyID key, Database r) in
  match Steps (Meta r) !! i with
  | Some st => negb (bool_decide (committed w r i l (clientSession r) (SQL st))) &&
               forallb (λ d, match checkHolds (clientSession r) (Skip st) d with Ok true => false | _ => true end) (default [] (w_dbs w !! l))
  | None => true
  end.
Lemma stepMissing_spec w key i : stepMissing w key i = true → ¬ stepDone w (rowOf w) (ShardSet (Meta (rowOf w))) key i.
Proof.
  unfold stepMissing. intros H (st & Hst & Hd). rewrite Hst in H. apply andb_true_iff in H as [H1 H2].
  destruct Hd as [Hl|(h & d & Hh & Hd & Hc)]; [by rewrite (bool_decide_eq_true_2 _ Hl) in H1|].
  rewrite Hh in H2. cbn in H2. rewrite forallb_forall in H2. specialize (H2 d (proj1 (list_elem_of_In _ _) Hd)). by rewrite Hc in H2.
Qed.
(** The statement of a migration that creates something is neither committed nor
    is what it creates there. *)
Definition loggedOn (w : world) (id : string) (l : loc) : bool := existsb (λ '(e, (l', _, _)), bool_decide (e.1 = id ∧ l' = l)) (w_log w).
Definition statementMissing (w : world) (key : string) : bool :=
  let r := rowOf w in
  let l := locOf (ShardSet (Meta r)) key (stepDatabase r) in
  negb (loggedOn w (ID r) l) && negb (String.prefix "DROP " (m_Kind r)) &&
  negb (unqualifiedDrop (Object (Meta r))) && negb (isIndexBuild r (Object (Meta r))) &&
  forallb (λ d, negb (objectMatches (sessionOn r key) (Object (Meta r)) d)) (default [] (w_dbs w !! l)).
Lemma statementMissing_spec w key : statementMissing w key = true → ¬ applied w (rowOf w) (ShardSet (Meta (rowOf w))) key.
Proof.
  unfold statementMissing. rewrite !andb_true_iff, !negb_true_iff.
  intros [[[[H1 H2] H3] H4] H5] [(se & text & _ & _ & Hl)|[(obj & Ho & _ & h & d & Hh & Hd & Hc)|[Hp _]]].
  - enough (loggedOn w (ID (rowOf w)) (locOf (ShardSet (Meta (rowOf w))) key (stepDatabase (rowOf w))) = true) as E by congruence.
    apply existsb_exists. eexists. split; [apply list_elem_of_In; exact Hl|]. cbn. by apply bool_decide_eq_true_2.
  - destruct Ho as [->|[? _]]; [|congruence]. rewrite Hh in H5. cbn in H5. rewrite forallb_forall in H5.
    specialize (H5 d (proj1 (list_elem_of_In _ _) Hd)). unfold asLeft in Hc. rewrite H4 in Hc. by rewrite Hc in H5.
  - congruence.
Qed.
(** Its own text was committed on a shard. *)
Definition statementRan (w : world) (key : string) : bool :=
  let r := rowOf w in bool_decide (committed w r 0 (locOf (ShardSet (Meta r)) key (stepDatabase r)) (clientSession r) (Statement r)).
Lemma statementRan_spec w key : statementRan w key = true → ranStatement w (rowOf w) (ShardSet (Meta (rowOf w))) key.
Proof. intros H%bool_decide_eq_true. exists (clientSession (rowOf w)), (Statement (rowOf w)). split_and!; [set_solver|set_solver|exact H]. Qed.

(** C37. A multistep migration is reported complete with a step never taken on a
    shard: [applyOn] saves the entry as applied after every step, and a
    controller that dies before the next one begins leaves it so, which the
    next pass takes for settled. *)
Theorem multistep_completes_short :
  ∃ st r s, reachable applier noRewrite false still (λ T, 0 < T) (two withTable) st ∧
    w_rows st.1 !! "m1"%string = Some r ∧ m_State r = MigrationComplete ∧ length (Steps (Meta r)) = 2%nat ∧
    PerShard r !! "0"%string = Some s ∧ State s = ShardApplied ∧ ¬ stepDone st.1 r (ShardSet (Meta r)) "0" 1.
Proof.
  set (st := runOf false positive (two withTable) [AEnqueue addCheck; AStart 1; AOk 1 20; AEnd 1; ATerm; AStart 2; AOk 2 400]).
  exists st, (rowOf st.1), (entryOf st.1 "0"). split; [apply (run_reaches _ _ _ _ _ positive_spec)|].
  do 5 (split; [by vm_compute|]). apply stepMissing_spec. by vm_compute.
Qed.

(** C38. A migration is reported complete while a shard is still to be retried
    and has nothing of it: told while it waits that it leads no longer,
    [retrying] returns the entry as it is, and [drive] goes on to its verdict,
    which counts neither an applied nor a failed shard. *)
Theorem complete_with_shard_retrying :
  ∃ st r s, reachable applier noRewrite true still (λ T, 0 < T) (two empty) st ∧
    w_rows st.1 !! "m1"%string = Some r ∧ m_State r = MigrationComplete ∧ Strategy r = "direct"%string ∧
    PerShard r !! "1"%string = Some s ∧ State s = ShardRetrying ∧ ¬ applied st.1 r (ShardSet (Meta r)) "1".
Proof.
  set (st := runOf true positive (two empty) [AEnqueue createT; AStart 1; AOk 1 27; ALose 1; AOk 1 6; ALost {[1]}; AOk 1 300]).
  exists st, (rowOf st.1), (entryOf st.1 "1"). split; [apply (run_reaches _ _ _ _ _ positive_spec)|].
  do 5 (split; [by vm_compute|]). apply statementMissing_spec. by vm_compute.
Qed.

(** C39. A pass that latches the term after the leadership was lost latches zero
    and writes whatever the term is: it puts the progress of the leader back to
    nothing, and a migration committed on every shard ends as failed because its
    CREATE was run again. *)
Theorem zero_term_is_unfenced :
  ∃ st r s, reachable applier noRewrite false still (λ _, True) (two empty) st ∧
    w_rows st.1 !! "m1"%string = Some r ∧ m_State r = MigrationFailed ∧
    PerShard r !! "0"%string = Some s ∧ State s = ShardFailed ∧ SQLState s = "42P07"%string ∧
    ∀ key, key ∈ ["0"; "1"]%string → ranStatement st.1 r (ShardSet (Meta r)) key.
Proof.
  set (st := runOf false anyTerm (two empty) [AEnqueue createT; AStart 0; AOk 0 4; AStart 1; AOk 1 20; AOk 0 3; AEnd 0; AEnd 1; ATerm; AStart 2; AOk 2 400]).
  exists st, (rowOf st.1), (entryOf st.1 "0"). split; [by apply run_reaches|].
  do 5 (split; [by vm_compute|]). intros key Hk. apply statementRan_spec.
  rewrite !elem_of_cons, elem_of_nil in Hk. destruct Hk as [->|[->|[]]]; by vm_compute.
Qed.

(** A statement that no object stands for is run again after a controller died
    between its commit and the record of it, and the migration ends as failed
    although it was committed on every shard. *)
Theorem replayed_alter_fails :
  ∃ st r s, reachable applier noRewrite false still (λ T, 0 < T) (two withTable) st ∧
    w_rows st.1 !! "m1"%string = Some r ∧ m_State r = MigrationFailed ∧
    PerShard r !! "0"%string = Some s ∧ State s = ShardFailed ∧ SQLState s = "42701"%string ∧
    ∀ key, key ∈ ["0"; "1"]%string → ranStatement st.1 r (ShardSet (Meta r)) key.
Proof.
  set (st := runOf false positive (two withTable) [AEnqueue addColumn; AStart 1; AOk 1 17; AEnd 1; ATerm; AStart 2; AOk 2 400]).
  exists st, (rowOf st.1), (entryOf st.1 "0"). split; [apply (run_reaches _ _ _ _ _ positive_spec)|].
  do 5 (split; [by vm_compute|]). intros key Hk. apply statementRan_spec.
  rewrite !elem_of_cons, elem_of_nil in Hk. destruct Hk as [->|[->|[]]]; by vm_compute.
Qed.
End Example.
